(* ===== verification/_CoqProject ===== *)
-Q . S2P
Prelude.v
Utils.v
Integers.v
Ranges.v
RangeSound.v
RangeOps.v
RangeCanon.v
RangeInfer.v
DataStream.v
Descriptors.v
Unicode.v
CaseMapping.v
Bitmap.v
ObjectIdRing.v
HashMap.v
ParallelMove.v
BitSet.v
BitVector.v
Liveness.v
VariableLiveness.v
FreeList.v
FreeListAlloc.v
Messages.v
Ports.v
Uri.v
HashTable.v
LiveRange.v
SSALiveness.v
LinearScan.v
SpillSlots.v
RegisterSafety.v
Dominance.v
FlowGraph.v
Dominators.v
PhiPlacement.v
Loops.v
Safepoint.v
Zone.v
ZoneStack.v
ZoneStrings.v
