(* ===== verification/Prelude.v ===== *)
(** * A verification of core components of the Dart VM

    The program is the Dart virtual machine, src/runtime/: an optimizing JIT
    and AOT compiler (vm/compiler/), an object model and its natives
    (vm/object.{h,cc}, lib/), a heap, a snapshot reader and writer, and the
    platform layer they stand on (platform/). This development models, for a
    64-bit target, the parts of the C++ code whose correctness is functional:
    integer arithmetic, the compiler's range analysis, the byte streams and
    tables that compiled code is described with, the text encodings, and the
    containers the runtime keeps its own state in, the code generator's
    parallel moves and register allocator, the numbering, dominators, phis and loops
    of the flow graph, the free list of old space, the safepoints at which threads stop,
    zones, and the ports and message queues by which isolates communicate.

    ** Files

    - Prelude.v (this file): notations for bit operations ([vm_scope]),
      machine integers ([uwrap], [swrap]), arrays with explicit bounds
      ([arr_get], [arr_set]), tactics and shared lemmas.
    - Utils.v: class [Utils] of platform/utils.{h,cc} and utils_linux.h.
    - Integers.v: [Smi] and [Mint] objects (vm/object.cc), the natives of
      lib/integers.cc, and the constant folder of vm/compiler/backend/il.cc
      ([BinaryIntegerOpInstr::Evaluate], [UnaryIntegerOpInstr::Evaluate]).
    - Ranges.v: [RangeBoundary] and [Range] of
      vm/compiler/backend/range_analysis.{h,cc}, with the instructions of the
      flow graph that they mention. A [Definition*] is a name, the graph a
      map from names.
    - RangeSound.v: the meaning of boundaries and ranges with respect to an
      assignment of run-time integers to definitions.
    - RangeOps.v: [Range::Add] ... [Range::BinaryOp].
    - RangeCanon.v: canonicalization of symbolic boundaries, joins and
      intersections.
    - RangeInfer.v: the constraints that branches and bounds checks put on a
      value, the [InferRange] methods, [Join], widening and narrowing, the
      iteration of [RangeAnalysis], and [CheckArrayBoundInstr::IsRedundant].
    - DataStream.v: [ReadStream], [WriteStream] and [StreamingWriteStream] of
      vm/datastream.{h,cc}. The allocator is a parameter, with the contract of
      [realloc] (class [ReAlloc]) or [malloc] (class [Malloc]).
    - Descriptors.v: SLEB128 and the table of pc descriptors: [DescriptorList]
      of vm/code_descriptors.cc and [PcDescriptors::Iterator] of vm/object.h.
    - Unicode.v: [Utf], [Utf8] and [Utf16] of platform/unicode.{h,cc} and
      vm/unicode.cc, with [String::CodePointIterator].
    - CaseMapping.v: the case tables of vm/unicode_data.cc,
      [CaseMapping::Convert] and [String::Transform]. The contents of a newly
      allocated string are a parameter (class [NewString]).
    - Bitmap.v: [BitmapBuilder] of vm/bitmap.{h,cc}.
    - ObjectIdRing.v: [ObjectIdRing] of vm/object_id_ring.{h,cc}. Its
      specification is the history of allocations.
    - HashMap.v: [SimpleHashMap] of platform/hashmap.{h,cc}. The match function
      is a parameter (class [MatchFun]).
    - ParallelMove.v: [ParallelMoveResolver] (vm/compiler/backend/
      flow_graph_compiler.cc) with the moves and swaps of the x64 target, and a
      machine that runs the instructions they emit.
    - BitSet.v: [BitField] (vm/bitfield.h) and [BitSet] (vm/bit_set.h).
    - BitVector.v: [BitVector] and its iterator (vm/bit_vector.{h,cc}).
    - Liveness.v: [LivenessAnalysis] (vm/compiler/backend/flow_graph.{h,cc}).
      What a subclass computes first is a class of operations with laws;
      VariableLiveness.v (local variables, for SSA construction) and SSALiveness.v
      (virtual registers, for the register allocator) are its instances.
    - FreeList.v: [FreeList] and its elements (vm/heap/freelist.{h,cc}) over a
      memory of element headers and of pages that may be write-protected; the
      abstract state is the multiset of free 16-byte granules.
      FreeListAlloc.v: the allocators, and the heap as a step relation.
    - Messages.v: [Message], [MessageQueue] (vm/message.{h,cc}) as linked lists, and
      [MessageHandler] (vm/message_handler.{h,cc}). What [HandleMessage] does to the handler
      and what other threads post while the monitor is released is a parameter ([Handling]), with
      nested calls of [HandleOOBMessages] as [Thread::HandleInterrupts] (vm/thread.cc) makes them.
    - Ports.v: [PortMap] (vm/port.{h,cc}), [Random] (vm/random.cc), and the world of
      ports and handlers as a step relation.
    - HashTable.v: [HashTable], [HashTables], [HashMap] and [HashSet]
      (vm/hash_table.h) over the contents of the backing array, with the key
      traits as a class.
    - Uri.v: percent escapes, [ParseUri], [BuildUri] and [ResolveUri]
      (vm/uri.{h,cc}).
    - LiveRange.v: the live ranges of the register allocator
      (vm/compiler/backend/linearscan.{h,cc}): intervals, uses, safepoints and
      fingers as linked objects in stores, with [AddUseInterval], [DefineAt],
      [AddUse], [SplitAt] and the searches.
    - LinearScan.v: the scan itself, [FlowGraphAllocator], from
      [AdvanceActiveIntervals] to [AllocateUnallocatedRanges]; the flow graph is
      the record [Graph] of what the allocator reads of it.
    - SpillSlots.v and RegisterSafety.v: what spill slots and registers are
      shared by, as an invariant over the ranges and what they consist of.
    - Dominance.v: walks, dominance, frontiers and semidominators of a graph with
      a depth-first numbering (class [DepthFirst]); no code of its own.
    - FlowGraph.v: the blocks of a flow graph, their predecessors and successors
      (vm/compiler/backend/il.{h,cc}), and [FlowGraph::DiscoverBlocks]; what it
      promises to the other passes is the class [Discovered].
    - Dominators.v: [FlowGraph::ComputeDominators] (SEMI-NCA) with dominance
      frontiers, and [BlockEntryInstr::Dominates]; it promises the class [Dominated].
    - PhiPlacement.v: [FlowGraph::InsertPhis] and the half of [ComputeSSA] before it.
    - Loops.v: [FlowGraph::ComputeLoops], [LoopInfo] and [LoopHierarchy::Build]
      (flow_graph.cc, loops.{h,cc}).
    - Safepoint.v: the safepoint words of threads (vm/thread.h), [SafepointHandler]
      (vm/heap/safepoint.{h,cc}), the thread registry (vm/thread_registry.cc) and
      [Isolate::ScheduleThread] and [UnscheduleThread] (vm/isolate.cc) as a transition
      system; a step is one compare-and-swap or one critical section.
    - Zone.v: [Zone] and its segments (vm/zone.{h,cc}) over a memory of bytes, in which
      segment headers and chunks lie side by side; [malloc] and [VirtualMemory] are the
      class [SystemMemory] with the laws [SystemMemoryOk]. ZoneStack.v: nested
      [StackZone]s (thread_state.{h,cc}, allocation.cc) and their clients as a transition
      system, with the contents of arrays as the abstract view. ZoneStrings.v: copies and
      concatenation of strings in a zone.

    Integers and streams build on Utils.v; range analysis reads integer
    constants and operators from Integers.v; CaseMapping.v iterates strings
    with Unicode.v; the free list keeps its map in a [BitSet]; liveness keeps its
    sets in [BitVector]s, whose words are read as those of a [BitSet]; Ports.v posts to
    the handlers of Messages.v; the allocator gives the ranges of LiveRange.v the
    locations of ParallelMove.v and marks frames with Bitmap.v; phi insertion and loops
    are proved against what Dominators.v promises, and that against [Discovered]; the
    other containers stand on Utils.v alone.

    ** Conventions

    A w-bit integer is a [Z], wrapped where the C++ type wraps. Undefined
    behaviour (an access outside an array, division by zero, a shift by 64 or
    more) and failed allocation are [None], so a theorem that a result is
    [Some] also says that the code stays defined. Conditions that the code
    only asserts are not part of the definitions; they appear as hypotheses
    where a theorem needs them. Little-endian byte order is assumed where the
    code reads words.

    Loops whose recursion is not structural take fuel. Encoders and decoders
    of 64-bit values get ten steps, one per group of seven bits; loops over an
    array get one more than its length, since every step consumes an element
    (probing and removal in the hash map stop at an empty slot, of which there
    is one); a walk of a linked list gets one more than the number of headers or
    messages in memory, since its addresses are distinct; [PerformMove] one more
    than the number of moves, since the pending ones are distinct; the loops over a
    string one more than its length; a walk of the objects of a live range one more than
    the size of their store; the scan any number above the live positions of the ranges to
    be allocated ([RegisterSafety.work]), since every round takes a range away or
    shortens it; the rounds of the liveness analysis any number above the bits of all live-in
    sets, since every round but the last sets one; the search for blocks any number above
    the blocks and their edges ([FlowGraph.search_bound]); a walk of the segments or of the chain of
    zones one more than the live blocks or zones; a walk up the dominator tree, the
    worklist of a variable and the stack of a loop one more than the number of blocks;
    the theorems that a result is [Some] show that this is enough. Range
    analysis follows chains of symbols through the graph: its fuel is any
    number above the rank of every definition in an acyclic graph
    ([RangeSound.acyclic]), and [Canonicalize_loop_terminates] shows that more
    fuel does not change the result.

    ** What the theorems show

    - Integers: the operators of the natives and of the constant folder
      compute Dart's 64-bit wrap-around semantics ([int64_op]), whatever the
      representation of their arguments, without a division by zero or a shift by 64 or more;
      comparison is that of the values.
    - Range analysis: for every run-time assignment that agrees with the
      graph, each transfer function, join, intersection and constraint yields
      a range that contains the value, a bounds check declared redundant
      never fails, widening covers both ranges (if their boundaries have run-time values of the
      size) and reaches a fixed point after finitely many steps.
      [Join_fast_path_unsound], [Widen_beyond_size_unsound] and [BinaryOp_shift_undefined] are the
      exceptions that the code has.
    - Streams and descriptors: what is written is read back, across buffer
      growth and delta encoding; the unrolled readers agree with the loop;
      [StreamingWriteStream] delivers every byte once and in order;
      [WriteStream_Align_exact] says when [Align] leaves its buffer.
    - Text: UTF-8 decoding and validation accept exactly the shortest-form
      encodings of code points; conversion to UTF-16, UTF-32 and Latin-1
      succeeds exactly when the input is valid and fits; a Dart string
      survives the round trip through UTF-8, lone surrogates included; case
      conversion works code point by code point, preserves length and is
      idempotent, and leaves its tables only for U+10500.
    - Containers: each refines what it stands for: the bitmap a set of bits
      (with the offsets at which [Set] leaves its store), the ring the last
      allocations, the hash map a finite map up to the match function, through
      growth and removal.
    - Parallel moves: the code emitted for a parallel move leaves in every
      destination the value its source had before, whatever cycles the moves
      form, and changes nothing else ([EmitNativeCode_parallel]).
    - Free list: an allocation takes exactly the granules of a block that
      was free and leaves them writable, it fails only when no block that the
      search may look at is big enough, and no granule is ever free
      twice, lost, or both free and owned ([TryAllocateLocked_refines],
      [FreeList_invariant]).
    - Ports and messages: the port map refines a finite map, changes no more of
      the handlers than a count of live ports or a deletion, and its searches
      end; live-port counts are exact in every reachable world; queues are lists
      with control messages before events; [HandleMessages] terminates if the messages do not
      form a cycle, with OOB messages first and none of those left, also when handling a message
      handles OOB messages again. [Cleanup_skips_handler],
      [FindPort_negative_out_of_bounds], [Clear_redirect_dangling] and
      [ClosePort_keeps_messages] show where the code departs from what it means to do.

    - Hash tables: maps and sets on the heap do what finite maps and sets
      up to the match function do; triangle-number probing visits every entry of a table
      whose size is a power of two, so searches end ([HashMap_refines],
      [HashSet_refines]). [New_capacity_lost] shows that an initial capacity is
      of no use.
    - URIs: dot segments are resolved segment by segment, normalized escapes
      stand for the same characters, an absolute uri in normal form is parsed
      back from what [BuildUri] prints, and [ParseUri_defined] says exactly for
      which uris the path gets a negative length. The resolution examples of RFC 3986
      hold; [RemoveDotSegments_keeps_leading_dot], [NormalizeEscapes_non_ascii]
      and [ResolveUri_drops_authority] are the departures.

    - Liveness: the analysis ends on every flow graph, and a set contains a
      variable exactly if some path uses it before defining it: virtual
      registers, with uses by environments, materialized objects and phis
      ([SSALiveness_exact]), and local variables, where every variable counts as used in a
      try block, so that a store dropped by SSA
      construction is never loaded ([IsStoreAlive_exact], [IsLastLoad_sound]).
      [DeepLiveness_forgets_pair] is a use that is left out.

    - Register allocation: the operations that build a live range keep its
      lists in order and its intervals apart and count exactly the positions asked for; [SplitAt] partitions
      intervals, uses and safepoints wherever the finger is; cached searches find
      what searches from the start find. Ranges with the same register are
      never live at the same position; a round of the scan advances the active ranges to the start of the
      next one, which gets a register, up to where that is taken, unless all are taken at its
      start ([AllocateFreeRegister_exclusive]); without spilling the scan ends with
      every range in a register and every use and safepoint of the ranges it began with
      rewritten ([AllocateUnallocatedRanges_intrinsic]).
      Values that are spilled at the same time share no word of the frame
      ([AllocateSpillSlotFor_exclusive]).

    - Flow graph: discovery ends, reaches exactly the blocks reachable from the entry,
      and numbers them depth-first, with sorted predecessor lists and a postorder
      ([DiscoverBlocks_depth_first]); the dominator tree and the frontiers are exact
      ([ComputeDominators_exact]); the phis of a variable are exactly those of the
      iterated frontier of its assignments, and no assignment reaches a block past
      another one without a phi where they meet ([ComputeSSA_phis_exact],
      [ComputeSSA_phis_reaching]); loops are natural loops and every block knows its closest
      one ([ComputeLoops_exact]). [Build_misses_outer] is a loop whose outer loop is
      not recorded.

    - Safepoints: during a safepoint operation every other thread that does not bypass
      safepoints runs native code or waits ([Safepoint_exclusive]); from every reachable state
      steps lead to the beginning and the end of an operation, and no wake-up is lost
      ([Safepoint_completes]).
      [ScheduleThread_two_mutators] is an interleaving by which an isolate gets two
      mutator threads.

    - Zones: arrays in zones behave as if each had memory of its own, through growth in
      place and moves ([Zone_refines]); leaving a zone frees what it took, once
      ([Zone_releases]); [ConcatStrings_exact] says where [ConcatStrings] writes
      behind its copy, and [ConcatStrings_leaves_buffer] that this can be behind the zone.

    ** Not modelled

    The rest of the heap (scavenger, marker, sweeper, pages), the rest of the
    compiler (flow-graph construction, renaming, induction variables and the
    optimizing passes, which need the several hundred instructions of the IL;
    assemblers; the store
    optimizer, a third user of the liveness analysis; of the register
    allocator the construction of live ranges from the graph and the resolution of
    control flow), the kernel loader, object-graph snapshots, the life cycle of
    isolates and the thread pool (so [MessageHandler::TaskCallback]), regular
    expressions, debugger, profiler and service, the embedder in bin/, and
    vendored code. Of the modelled classes, members that print, allocate heap
    objects or touch the operating system are left out. In range analysis the
    flow-graph surgery (insertion and removal of constraints, the bounds-check
    generalizer) and the selection of integer representations are left out. *)
From Stdlib Require Export ZArith Lia Bool.
From stdpp Require Export base option list numbers.

(** ** Notations *)
Declare Scope vm_scope.
Delimit Scope vm_scope with vm.

Notation "x &&& y" := (Z.land x y) (at level 40, left associativity) : vm_scope.
Notation "x ||| y" := (Z.lor x y) (at level 50, left associativity) : vm_scope.
Notation "x ^^^ y" := (Z.lxor x y) (at level 44, left associativity) : vm_scope.
Notation "x <<< n" := (Z.shiftl x n) (at level 38, left associativity) : vm_scope.
Notation "x >>> n" := (Z.shiftr x n) (at level 38, left associativity) : vm_scope.

#[export] Set Default Goal Selector "1".
Local Open Scope Z_scope.
Local Open Scope vm_scope.

(** ** Machine integers

    A [w]-bit unsigned value is a [Z] in [[0, 2^w)], a signed one a [Z] in
    [[-2^(w-1), 2^(w-1))]. [uwrap] and [swrap] are the conversions to those
    types, which the C++ code performs on assignment and [static_cast]. *)
Definition uwrap (w x : Z) : Z := x mod 2 ^ w.
Definition swrap (w x : Z) : Z := (x + 2 ^ (w - 1)) mod 2 ^ w - 2 ^ (w - 1).
Definition is_uint (w x : Z) : Prop := 0 <= x < 2 ^ w.
Definition is_sint (w x : Z) : Prop := - 2 ^ (w - 1) <= x < 2 ^ (w - 1).

Abbreviation u8 := (uwrap 8).
Abbreviation u16 := (uwrap 16).
Abbreviation u32 := (uwrap 32).
Abbreviation u64 := (uwrap 64).
Abbreviation s32 := (swrap 32).
Abbreviation s64 := (swrap 64).

Definition kMinInt32 : Z := - 2 ^ 31.
Definition kMaxInt32 : Z := 2 ^ 31 - 1.
Definition kMaxUint32 : Z := 2 ^ 32 - 1.
Definition kMinInt64 : Z := - 2 ^ 63.
Definition kMaxInt64 : Z := 2 ^ 63 - 1.
Definition kBitsPerByte : Z := 8.
Definition kBitsPerByteLog2 : Z := 3.
Definition kBitsPerInt64 : Z := 64.
Definition kBitsPerWord : Z := 64.
Definition kBitsPerWordLog2 : Z := 6.
Definition kWordSize : Z := 8.
Definition kWordSizeLog2 : Z := 3.
Definition kSmiBits : Z := kBitsPerWord - 2.
Definition kSmiMax : Z := 2 ^ kSmiBits - 1.
Definition kSmiMin : Z := - 2 ^ kSmiBits.

(** ** Automation *)

(** [zbool] turns boolean comparisons in the context into propositions. *)
Ltac zbool :=
  repeat match goal with
  | H : andb _ _ = true |- _ => apply andb_true_iff in H as [? ?]
  | H : andb _ _ = false |- _ => apply andb_false_iff in H
  | H : orb _ _ = true |- _ => apply orb_true_iff in H
  | H : orb _ _ = false |- _ => apply orb_false_iff in H as [? ?]
  | H : negb _ = true |- _ => apply negb_true_iff in H
  | H : negb _ = false |- _ => apply negb_false_iff in H
  | H : Z.leb _ _ = true |- _ => apply Z.leb_le in H
  | H : Z.leb _ _ = false |- _ => apply Z.leb_gt in H
  | H : Z.ltb _ _ = true |- _ => apply Z.ltb_lt in H
  | H : Z.ltb _ _ = false |- _ => apply Z.ltb_ge in H
  | H : Z.eqb _ _ = true |- _ => apply Z.eqb_eq in H
  | H : Z.eqb _ _ = false |- _ => apply Z.eqb_neq in H
  | H : Z.gtb _ _ = _ |- _ => rewrite Z.gtb_ltb in H
  | H : Z.geb _ _ = _ |- _ => rewrite Z.geb_leb in H
  end.

(** [zif] splits on the next [if] of the goal, [zifs] on all of them, keeping
    the condition as arithmetic facts. *)
Ltac zif :=
  match goal with
  | |- context [if ?c then _ else _] =>
      let E := fresh "E" in destruct c eqn:E; zbool
  end.
Ltac zifs := repeat zif.
Ltac zif_in H :=
  match type of H with
  | context [if ?c then _ else _] =>
      let E := fresh "E" in destruct c eqn:E; zbool
  end.

(** [lia] with division and remainder by constants. *)
Ltac divlia := Z.to_euclidean_division_equations; lia.

Create HintDb vm.
Create Rewrite HintDb zbits.
#[export] Hint Rewrite Z.land_spec Z.lor_spec Z.lxor_spec Z.lnot_spec
  Z.shiftl_spec Z.shiftr_spec Z.ldiff_spec using lia : zbits.
#[export] Hint Rewrite andb_true_r andb_false_r andb_true_l andb_false_l
  orb_true_r orb_false_r orb_true_l orb_false_l xorb_false_r xorb_false_l : zbits.

(** ** Wrap-around arithmetic *)
Section Wrap.
Context (w : Z) (Hw : 0 < w).

Lemma pow2_split : 2 ^ w = 2 * 2 ^ (w - 1).
Proof using Hw. rewrite <- Z.pow_succ_r by lia. f_equal. lia. Qed.

Lemma uwrap_range x : is_uint w (uwrap w x).
Proof using Hw. apply Z.mod_pos_bound. lia. Qed.

Lemma uwrap_id x : is_uint w x -> uwrap w x = x.
Proof using. apply Z.mod_small. Qed.

Lemma swrap_range x : is_sint w (swrap w x).
Proof using Hw.
  unfold is_sint, swrap. pose proof pow2_split.
  pose proof (Z.mod_pos_bound (x + 2 ^ (w - 1)) (2 ^ w)). lia.
Qed.

Lemma swrap_id x : is_sint w x -> swrap w x = x.
Proof using Hw.
  unfold is_sint, swrap. intros H. pose proof pow2_split.
  rewrite Z.mod_small; lia.
Qed.

(** [swrap] depends on its argument only modulo [2^w]. *)
Lemma swrap_congr x y : (x - y) mod 2 ^ w = 0 -> swrap w x = swrap w y.
Proof using Hw.
  intros H. unfold swrap. f_equal.
  apply Z.mod_divide in H as [k Hk]; [|lia].
  replace (x + 2 ^ (w - 1)) with (y + 2 ^ (w - 1) + k * 2 ^ w) by lia.
  apply Z.mod_add. lia.
Qed.

Lemma swrap_spec x : exists k, swrap w x = x + k * 2 ^ w.
Proof using Hw.
  exists (- ((x + 2 ^ (w - 1)) / 2 ^ w)). unfold swrap.
  pose proof (Z.div_mod (x + 2 ^ (w - 1)) (2 ^ w)). lia.
Qed.

Lemma uwrap_spec x : exists k, uwrap w x = x + k * 2 ^ w.
Proof using Hw.
  exists (- (x / 2 ^ w)). unfold uwrap.
  pose proof (Z.div_mod x (2 ^ w)). lia.
Qed.

(** A signed value is the only signed representative of its residue class. *)
Lemma swrap_unique x y k : is_sint w y -> y = x + k * 2 ^ w -> swrap w x = y.
Proof using Hw.
  intros Hy ->. rewrite <- (swrap_id _ Hy). apply swrap_congr.
  replace (x - (x + k * 2 ^ w)) with ((- k) * 2 ^ w) by lia.
  apply Z.mod_mul. lia.
Qed.
End Wrap.

#[export] Hint Resolve uwrap_range swrap_range : vm.

Lemma div_neg_small x p : - p <= x < 0 -> x / p = -1.
Proof. intros H. symmetry. apply Z.div_unique with (x + p); lia. Qed.

(** ** Bits *)
Section Bits.

Lemma testbit_uwrap w x i :
  0 <= w -> 0 <= i -> Z.testbit (uwrap w x) i = (i <? w) && Z.testbit x i.
Proof.
  intros Hw Hi. unfold uwrap. destruct (Z.ltb_spec i w) as [H|H].
  - apply Z.mod_pow2_bits_low. lia.
  - apply Z.mod_pow2_bits_high. lia.
Qed.

Lemma testbit_small w x i : is_uint w x -> 0 <= w <= i -> Z.testbit x i = false.
Proof.
  intros H Hi. rewrite <- (uwrap_id w x H), testbit_uwrap by lia.
  by replace (i <? w) with false by (symmetry; apply Z.ltb_ge; lia).
Qed.

Lemma uint_of_bits w x :
  0 <= w -> 0 <= x -> (forall i, w <= i -> Z.testbit x i = false) -> is_uint w x.
Proof.
  intros Hw Hx H. split; [done|].
  destruct (Z.eq_dec x 0) as [->|Hn]; [lia|].
  apply Z.log2_lt_pow2; [lia|].
  destruct (Z.lt_ge_cases (Z.log2 x) w) as [|Hge]; [done|].
  specialize (H _ Hge). rewrite Z.bit_log2 in H; [done|lia].
Qed.

Lemma uint_land_r w x y : 0 <= w -> is_uint w y -> is_uint w (x &&& y).
Proof.
  intros Hw Hy. apply uint_of_bits; [done| |].
  - apply Z.land_nonneg. right. apply Hy.
  - intros i Hi. rewrite Z.land_spec, (testbit_small w y) by (done || lia).
    apply andb_false_r.
Qed.

Lemma uint_lor w x y : 0 <= w -> is_uint w x -> is_uint w y -> is_uint w (x ||| y).
Proof.
  intros Hw Hx Hy. apply uint_of_bits; [done| |].
  - apply Z.lor_nonneg. split; [apply Hx|apply Hy].
  - intros i Hi. by rewrite Z.lor_spec, (testbit_small w x), (testbit_small w y) by (done || lia).
Qed.

Lemma uint_lxor w x y : 0 <= w -> is_uint w x -> is_uint w y -> is_uint w (x ^^^ y).
Proof.
  intros Hw Hx Hy. apply uint_of_bits; [done| |].
  - apply Z.lxor_nonneg. destruct Hx, Hy. lia.
  - intros i Hi. by rewrite Z.lxor_spec, (testbit_small w x), (testbit_small w y) by (done || lia).
Qed.

Lemma land_low x n : 0 <= n -> x &&& (2 ^ n - 1) = x mod 2 ^ n.
Proof. intros Hn. rewrite <- Z.land_ones, Z.ones_equiv by done. f_equal. Qed.

Lemma lor_disjoint_add x y : x &&& y = 0 -> x ||| y = x + y.
Proof.
  intros H. rewrite <- Z.lxor_lor by done. symmetry. by apply Z.add_nocarry_lxor.
Qed.

(** The low and the high part of a number share no bit. *)
Lemma lor_low_high n lo hi :
  0 <= n -> is_uint n lo -> lo ||| (hi <<< n) = lo + hi * 2 ^ n.
Proof.
  intros Hn Hlo. rewrite <- Z.shiftl_mul_pow2 by done. apply lor_disjoint_add.
  apply Z.bits_inj'. intros i Hi.
  rewrite Z.land_spec, Z.shiftl_spec, Z.bits_0 by lia.
  destruct (Z.lt_ge_cases i n).
  - by rewrite (Z.testbit_neg_r hi), andb_false_r by lia.
  - by rewrite (testbit_small n lo) by (done || lia).
Qed.
End Bits.

(** Bits above [s] join [s] low bits; a group of 7 bits of a larger value fits
    below the sign bit. *)
Lemma shl_add w lo hi s :
  0 <= s < w -> 0 <= lo < 2 ^ s -> is_sint w (hi * 2 ^ s + lo) ->
  swrap w (lo ||| swrap w (hi <<< s)) = hi * 2 ^ s + lo.
Proof.
  intros Hs Hlo Hv. assert (Hw : 0 < w) by lia.
  assert (Hhi : is_sint w (hi <<< s)).
  { rewrite Z.shiftl_mul_pow2 by lia. unfold is_sint in *.
    assert (Hp : 2 ^ (w - 1) = 2 ^ (w - 1 - s) * 2 ^ s) by (rewrite <- Z.pow_add_r by lia; f_equal; lia).
    assert (0 < 2 ^ (w - 1 - s)) by (apply Z.pow_pos_nonneg; lia).
    rewrite Hp in *. set (P := 2 ^ (w - 1 - s)) in *. set (A := 2 ^ s) in *.
    assert (- P <= hi) by (apply Z.nlt_ge; intros ?; assert (hi + 1 <= - P) by lia; nia). nia. }
  rewrite (swrap_id w Hw (hi <<< s) Hhi), lor_low_high by (done || lia).
  rewrite Z.add_comm. by apply swrap_id.
Qed.

Lemma signed_room w v s r :
  0 <= s -> 0 <= r < 2 ^ s -> is_sint w (v * 2 ^ s + r) -> ~ -64 <= v <= 63 -> s + 7 <= w - 1.
Proof.
  intros Hs Hr Hv Hout. assert (Hp : 2 ^ (s + 6) = 64 * 2 ^ s) by (rewrite Z.pow_add_r by lia; lia).
  unfold is_sint in Hv. assert (2 ^ (s + 6) < 2 ^ (w - 1)) as Hlt by nia.
  apply Z.pow_lt_mono_r_iff in Hlt; [lia|lia|].
  destruct (Z.lt_ge_cases (w - 1) 0); [rewrite (Z.pow_neg_r 2 (w - 1)) in Hlt by lia; lia|lia].
Qed.
(** ** Arrays

    C++ arrays are lists with an [intptr_t] index. A read or write outside
    the array is undefined behaviour, which is [None] here. *)
Definition arr_get {A} (l : list A) (i : Z) : option A :=
  if 0 <=? i then l !! Z.to_nat i else None.
Definition arr_set {A} (l : list A) (i : Z) (x : A) : option (list A) :=
  if (0 <=? i) && (i <? Z.of_nat (length l)) then Some (<[Z.to_nat i := x]> l) else None.
Definition zlen {A} (l : list A) : Z := Z.of_nat (length l).

Section Arrays.
Context {A : Type}.
Implicit Types (l : list A) (i j : Z).

Lemma arr_get_lt l i : 0 <= i < zlen l -> exists x, arr_get l i = Some x.
Proof.
  unfold arr_get, zlen. intros H. zif; [|lia].
  apply lookup_lt_is_Some. lia.
Qed.

Lemma arr_get_Some l i x : arr_get l i = Some x -> 0 <= i < zlen l.
Proof.
  unfold arr_get, zlen. intros H. zif_in H; [|done].
  apply lookup_lt_Some in H. lia.
Qed.

Lemma arr_get_None l i : arr_get l i = None <-> i < 0 \/ zlen l <= i.
Proof.
  unfold arr_get, zlen. zif.
  - rewrite lookup_ge_None. lia.
  - split; [lia|done].
Qed.

Lemma arr_set_Some l i x l' :
  arr_set l i x = Some l' <-> 0 <= i < zlen l /\ l' = <[Z.to_nat i := x]> l.
Proof.
  unfold arr_set, zlen. zif; [split; [intros [= <-]|intros [_ ->]]; done || lia|].
  split; [done|lia].
Qed.

Lemma arr_get_set l i j x l' :
  arr_set l i x = Some l' ->
  arr_get l' j = if i =? j then Some x else arr_get l j.
Proof.
  intros [Hi ->]%arr_set_Some. unfold arr_get. unfold zlen in Hi.
  destruct (Z.eqb_spec i j) as [->|Hne].
  - zif; [|lia]. apply list_lookup_insert_eq. lia.
  - zif; [|done]. apply list_lookup_insert_ne. lia.
Qed.

Lemma arr_set_length l i x l' : arr_set l i x = Some l' -> zlen l' = zlen l.
Proof. intros [_ ->]%arr_set_Some. unfold zlen. by rewrite length_insert. Qed.

Lemma zlen_nonneg l : 0 <= zlen l.
Proof. unfold zlen. lia. Qed.

Lemma zlen_app l l' : zlen (l ++ l') = zlen l + zlen l'.
Proof. unfold zlen. rewrite length_app. lia. Qed.

Lemma arr_get_app_r l l' i : 0 <= i -> arr_get (l ++ l') (zlen l + i) = arr_get l' i.
Proof.
  intros Hi. unfold arr_get, zlen. zifs; try lia.
  rewrite lookup_app_r by lia. f_equal. lia.
Qed.

Lemma arr_get_app_l l l' i : i < zlen l -> arr_get (l ++ l') i = arr_get l i.
Proof.
  unfold arr_get, zlen. intros H. zif; [|done]. apply lookup_app_l. lia.
Qed.

Lemma arr_get_drop l i x l' : 0 <= i -> drop (Z.to_nat i) l = x :: l' ->
  arr_get l i = Some x /\ drop (Z.to_nat (i + 1)) l = l'.
Proof.
  intros Hi Hd. unfold arr_get. zif; [|lia]. split.
  - rewrite <- (Nat.add_0_r (Z.to_nat i)), <- lookup_drop, Hd. done.
  - replace (Z.to_nat (i + 1)) with (Z.to_nat i + 1)%nat by lia. by rewrite <- drop_drop, Hd.
Qed.

Lemma arr_get_drop_nil l i : 0 <= i -> drop (Z.to_nat i) l = [] -> arr_get l i = None.
Proof.
  intros Hi Hd. apply arr_get_None. right. apply (f_equal length) in Hd.
  rewrite length_drop in Hd. unfold zlen. simpl in Hd. lia.
Qed.
End Arrays.
Lemma arr_get_fmap {A B} (f : A -> B) (l : list A) i : arr_get (f <$> l) i = f <$> arr_get l i.
Proof. unfold arr_get. destruct (0 <=? i); [|done]. apply list_lookup_fmap. Qed.

(** A property of all bytes, by evaluation. *)
Lemma byte_forall (P : Z -> bool) :
  forallb (fun n => P (Z.of_nat n)) (seq 0 256) = true -> forall b, 0 <= b < 256 -> P b = true.
Proof.
  intros H b Hb. rewrite forallb_forall in H. specialize (H (Z.to_nat b)).
  rewrite Z2Nat.id in H by lia. apply H, in_seq. lia.
Qed.

(** A property of the elements of a list, by evaluation. *)
Lemma forallb_Forall {A} (f : A -> bool) (P : A -> Prop) l :
  (forall x, f x = true -> P x) -> forallb f l = true -> Forall P l.
Proof.
  intros HP. induction l as [|x l IH]; cbn [forallb]; [constructor|].
  intros [Hx Hl]%andb_true_iff. constructor; auto.
Qed.
