(* ===== verification/Utils.v ===== *)
(** * platform/utils: word arithmetic of the VM

    The static helpers of class [Utils] (src/runtime/platform/utils.h and
    utils.cc) for a 64-bit target, with the facts the other components use:
    power-of-two rounding, bit lengths, the overflow predicates, wrap-around
    arithmetic, alignment, and the range check that cannot overflow. *)
From S2P Require Import Prelude.
Local Open Scope Z_scope.
Local Open Scope vm_scope.

(** ** Definitions *)
Definition Minimum (x y : Z) : Z := if x <? y then x else y.
Definition Maximum (x y : Z) : Z := if x >? y then x else y.

(** [T] is a signed type of [w] bits. *)
Definition Abs (w x : Z) : Z := if x <? 0 then swrap w (- x) else x.
Definition AbsWithSaturation (w x : Z) : Z :=
  if x <? 0 then
    if x =? - 2 ^ (w - 1) then 2 ^ (w - 1) - 1 else - x
  else x.

(** [T] is [uword]. *)
Definition IsPowerOfTwo (x : Z) : bool := (x &&& u64 (x - 1) =? 0) && negb (x =? 0).

Fixpoint ShiftForPowerOfTwo_loop (fuel : nat) (x num_shifts : Z) : Z :=
  match fuel with
  | O => num_shifts
  | S f => if x >? 1 then ShiftForPowerOfTwo_loop f (x >>> 1) (num_shifts + 1) else num_shifts
  end.
Definition ShiftForPowerOfTwo (x : Z) : Z := ShiftForPowerOfTwo_loop 64 x 0.

Definition IsAligned (x n : Z) : bool := x &&& (n - 1) =? 0.
Definition RoundDown (x n : Z) : Z := x &&& (- n).
Definition RoundUp (x n : Z) : Z := RoundDown (s64 (x + n - 1)) n.

Definition RoundUpToPowerOfTwo (x : Z) : Z :=
  let x := u64 (x - 1) in
  let x := x ||| (x >>> 1) in
  let x := x ||| (x >>> 2) in
  let x := x ||| (x >>> 4) in
  let x := x ||| (x >>> 8) in
  let x := x ||| (x >>> 16) in
  let x := x ||| (x >>> 32) in
  u64 (x + 1).

Definition CountOneBits32 (x : Z) : Z :=
  let x := u32 (x - ((x >>> 1) &&& 0x55555555)) in
  let x := u32 ((x &&& 0x33333333) + ((x >>> 2) &&& 0x33333333)) in
  let x := u32 (x + (x >>> 4)) &&& 0x0F0F0F0F in
  let x := u32 (x + (x >>> 8)) in
  let x := u32 (x + (x >>> 16)) in
  x &&& 0x3F.
Definition CountOneBits64 (x : Z) : Z :=
  CountOneBits32 (u32 x) + CountOneBits32 (u32 (x >>> 32)).
Definition CountOneBitsWord (x : Z) : Z := CountOneBits64 x.

(** One binary-search step of [HighestBit]: [if ((t = x >> s) != 0) { x = t; r += s; }]. *)
Definition HighestBit_step (s : Z) (xr : Z * Z) : Z * Z :=
  let '(x, r) := xr in
  let t := x >>> s in
  if negb (t =? 0) then (t, r + s) else (x, r).
Definition HighestBit (v : Z) : Z :=
  let x := u64 (if v >? 0 then v else s64 (- v)) in
  let '(x, r) :=
    HighestBit_step 2 (HighestBit_step 4 (HighestBit_step 8
      (HighestBit_step 16 (HighestBit_step 32 (x, 0))))) in
  if x >? 1 then r + 1 else r.

Definition BitLength (value : Z) : Z :=
  let value := value ^^^ (value >>> (8 * 8 - 1)) in
  if value =? 0 then 0 else HighestBit value + 1.

(** [__builtin_clzll] and [__builtin_ctzll], which are undefined at 0. *)
Definition CountLeadingZeros (x : Z) : Z := 63 - Z.log2 x.
Fixpoint ctz_pos (p : positive) : Z :=
  match p with xO q => 1 + ctz_pos q | _ => 0 end.
Definition CountTrailingZeros (x : Z) : Z :=
  match x with Zpos p => ctz_pos p | _ => 0 end.

Definition hash_M : Z := 0x5bd1e995.
Definition hash_R : Z := 24.
(** The 4-byte loop of [StringHash]; the rest of the data is returned. *)
Fixpoint StringHash_loop (data : list Z) (hash : Z) : Z * list Z :=
  match data with
  | b0 :: b1 :: b2 :: b3 :: rest =>
      let part := b0 + b1 * 2 ^ 8 + b2 * 2 ^ 16 + b3 * 2 ^ 24 in
      let part := u32 (part * hash_M) in
      let part := part ^^^ (part >>> hash_R) in
      let part := u32 (part * hash_M) in
      let hash := u32 (hash * hash_M) in
      StringHash_loop rest (hash ^^^ part)
  | _ => (hash, data)
  end.
Definition StringHash_tail (hash : Z) (cursor : list Z) : Z :=
  match cursor with
  | [b0; b1; b2] =>
      u32 ((((hash ^^^ (b2 <<< 16)) ^^^ (b1 <<< 8)) ^^^ b0) * hash_M)
  | [b0; b1] => u32 (((hash ^^^ (b1 <<< 8)) ^^^ b0) * hash_M)
  | [b0] => u32 ((hash ^^^ b0) * hash_M)
  | _ => hash
  end.
Definition StringHash (data : list Z) : Z :=
  let '(hash, cursor) := StringHash_loop data (u32 (zlen data)) in
  let hash := StringHash_tail hash cursor in
  let hash := hash ^^^ (hash >>> 13) in
  let hash := u32 (hash * hash_M) in
  hash ^^^ (hash >>> 15).

Definition WordHash (key : Z) : Z :=
  let a := u64 key in
  let a := u64 (u64 (a + 0x7ed55d16) + u64 (a <<< 12)) in
  let a := (a ^^^ 0xc761c23c) ^^^ (a >>> 19) in
  let a := u64 (u64 (a + 0x165667b1) + u64 (a <<< 5)) in
  let a := u64 (a + 0xd3a2646c) ^^^ u64 (a <<< 9) in
  let a := u64 (u64 (a + 0xfd7046c5) + u64 (a <<< 3)) in
  let a := (a ^^^ 0xb55a4f09) ^^^ (a >>> 16) in
  u32 a.

(** [T] is a type that holds [value]; [0 < N < bits of T]. *)
Definition IsInt (N value : Z) : bool :=
  let limit := 1 <<< (N - 1) in (- limit <=? value) && (value <? limit).
Definition IsUint (N value : Z) : bool :=
  let limit := 1 <<< N in (0 <=? value) && (value <? limit).
Definition IsAbsoluteUint (N value : Z) : bool :=
  IsUint N (if value <? 0 then - value else value).

Definition Low16Bits (value : Z) : Z := value &&& 0xffff.
Definition High16Bits (value : Z) : Z := value >>> 16.
Definition Low32Bits (value : Z) : Z := s32 value.
Definition High32Bits (value : Z) : Z := s32 (value >>> 32).
Definition LowHighTo64Bits (low high : Z) : Z := (high <<< 32) ||| (low &&& 0xffffffff).

Definition IsDecimalDigit (c : Z) : bool := (48 <=? c) && (c <=? 57).
Definition IsAlphaNumeric (c : Z) : bool :=
  ((65 <=? c) && (c <=? 90)) || ((97 <=? c) && (c <=? 122)) || IsDecimalDigit c.
Definition IsHexDigit (c : Z) : bool :=
  IsDecimalDigit c || ((65 <=? c) && (c <=? 70)) || ((97 <=? c) && (c <=? 102)).
Definition HexDigitToInt (c : Z) : Z :=
  if IsDecimalDigit c then c - 48
  else if (65 <=? c) && (c <=? 70) then 10 + (c - 65)
  else 10 + (c - 97).
Definition IntToHexDigit (i : Z) : Z := if i <? 10 then 48 + i else 65 + (i - 10).

Definition RangeCheck (offset count length : Z) : bool :=
  (offset >=? 0) && (count >=? 0) && (length >=? 0) && (count <=? length - offset).

Definition WillAddOverflow (a b : Z) : bool :=
  ((b >? 0) && (a >? kMaxInt64 - b)) || ((b <? 0) && (a <? kMinInt64 - b)).
Definition WillSubOverflow (a b : Z) : bool :=
  ((b >? 0) && (a <? kMinInt64 + b)) || ((b <? 0) && (a >? kMaxInt64 + b)).
Definition AddWithWrapAround (a b : Z) : Z := s64 (u64 (u64 a + u64 b)).
Definition SubWithWrapAround (a b : Z) : Z := s64 (u64 (u64 a - u64 b)).
Definition MulWithWrapAround (a b : Z) : Z := s64 (u64 (u64 a * u64 b)).
(** C++ shifts of a 64-bit value are undefined, [None], for a count outside [[0, 63]]. *)
Definition c_shl (a b : Z) : option Z := if (0 <=? b) && (b <? 64) then Some (u64 (a <<< b)) else None.
Definition c_shr (a b : Z) : option Z := if (0 <=? b) && (b <? 64) then Some (a >>> b) else None.
Definition ShiftLeftWithTruncation (a b : Z) : option Z :=
  if b >=? kBitsPerInt64 then Some 0 else r ← c_shl (u64 a) b; Some (s64 r).

Definition IsJavascriptInt (value : Z) : bool :=
  (-0x20000000000000 <=? value) && (value <=? 0x20000000000000).
(** [target_x64] is [defined(TARGET_ARCH_X64)]. *)
Definition NBitMask (target_x64 : bool) (n : Z) : Z :=
  if n =? kBitsPerWord then
    if target_x64 then 0xffffffffffffffff else 0xffffffff
  else u64 (s64 (1 <<< n) - 1).
Definition SignedNBitMask (target_x64 : bool) (n : Z) : Z := s64 (NBitMask target_x64 n).
Definition Bit (n : Z) : Z := u64 (1 <<< n).

(** ** Smearing: rounding up to a power of two *)

(** [y] has bit [i] exactly when [x] has a bit in [[i, i + n)]. *)
Definition smeared (n x y : Z) : Prop :=
  forall i, 0 <= i -> Z.testbit y i = true <-> exists j, 0 <= j < n /\ Z.testbit x (i + j) = true.

Lemma smeared_1 x : smeared 1 x x.
Proof.
  intros i Hi. split.
  - intros H. exists 0. by rewrite Z.add_0_r.
  - intros (j & Hj & H). by replace (i + j) with i in H by lia.
Qed.

Lemma smeared_step n x y : 0 < n -> smeared n x y -> smeared (2 * n) x (y ||| (y >>> n)).
Proof.
  intros Hn H i Hi. rewrite Z.lor_spec, Z.shiftr_spec, orb_true_iff by lia.
  rewrite (H i), (H (i + n)) by lia. split.
  - intros [(j & Hj & Hb)|(j & Hj & Hb)]; [exists j|exists (n + j)].
    + split; [lia|done].
    + split; [lia|]. by rewrite Z.add_assoc.
  - intros (j & Hj & Hb). destruct (Z.lt_ge_cases j n); [left; exists j|right; exists (j - n)].
    + split; [lia|done].
    + split; [lia|]. by replace (i + n + (j - n)) with (i + j) by lia.
Qed.

(** Smearing over the whole word sets every bit up to the highest one. *)
Lemma smeared_64 x y : is_uint 64 x -> 0 < x -> 0 <= y -> smeared 64 x y -> y = 2 ^ (Z.log2 x + 1) - 1.
Proof.
  intros Hx Hpos Hy H. pose proof (Z.log2_nonneg x).
  replace (2 ^ (Z.log2 x + 1) - 1) with (Z.ones (Z.log2 x + 1)) by (rewrite Z.ones_equiv; lia).
  assert (Z.log2 x < 64) by (apply Z.log2_lt_pow2; [done|apply Hx]).
  apply Z.bits_inj'. intros i Hi.
  apply eq_true_iff_eq. rewrite (H i Hi). split.
  - intros (j & Hj & Hb). destruct (Z.le_gt_cases (i + j) (Z.log2 x)).
    + apply Z.ones_spec_low. lia.
    + rewrite Z.bits_above_log2 in Hb by lia. done.
  - intros Hb. destruct (Z.lt_ge_cases i (Z.log2 x + 1)).
    + exists (Z.log2 x - i). split; [lia|].
      replace (i + (Z.log2 x - i)) with (Z.log2 x) by lia. by apply Z.bit_log2.
    + rewrite Z.ones_spec_high in Hb by lia. done.
Qed.

Lemma RoundUpToPowerOfTwo_eq x :
  1 < x <= 2 ^ 63 -> RoundUpToPowerOfTwo x = 2 ^ Z.log2_up x.
Proof.
  intros Hx. unfold RoundUpToPowerOfTwo.
  assert (Hm : is_uint 64 (x - 1)) by (unfold is_uint; lia).
  rewrite (uwrap_id 64 (x - 1)) by done. cbv zeta.
  set (y1 := (x - 1) ||| ((x - 1) >>> 1)). set (y2 := y1 ||| (y1 >>> 2)).
  set (y3 := y2 ||| (y2 >>> 4)). set (y4 := y3 ||| (y3 >>> 8)).
  set (y5 := y4 ||| (y4 >>> 16)). set (y6 := y5 ||| (y5 >>> 32)).
  assert (Hs : smeared 64 (x - 1) y6).
  { exact (smeared_step 32 _ _ eq_refl (smeared_step 16 _ _ eq_refl (smeared_step 8 _ _ eq_refl
      (smeared_step 4 _ _ eq_refl (smeared_step 2 _ _ eq_refl (smeared_step 1 _ _ eq_refl
        (smeared_1 (x - 1)))))))). }
  assert (Hn : 0 <= y6).
  { unfold y6, y5, y4, y3, y2, y1. repeat (rewrite Z.lor_nonneg || rewrite Z.shiftr_nonneg). lia. }
  rewrite (smeared_64 _ _ Hm ltac:(lia) Hn Hs).
  replace (2 ^ (Z.log2 (x - 1) + 1) - 1 + 1) with (2 ^ Z.log2_up x).
  - apply uwrap_id. split; [lia|]. apply Z.pow_lt_mono_r; [lia..|].
    apply Z.le_lt_trans with 63; [|lia]. apply Z.log2_up_le_pow2; lia.
  - rewrite Z.log2_up_eqn, <- Z.sub_1_r by lia. rewrite Z.add_1_r. lia.
Qed.

(** ** Highest bit and bit length *)

(** The search keeps [log2 x + r] and brings [x] below [2^s]. *)
Lemma HighestBit_step_spec s x r x' r' :
  0 < s -> 0 < x < 2 ^ (2 * s) -> HighestBit_step s (x, r) = (x', r') ->
  0 < x' < 2 ^ s /\ Z.log2 x' + r' = Z.log2 x + r.
Proof.
  intros Hs Hx. unfold HighestBit_step. rewrite Z.shiftr_div_pow2 by lia.
  assert (Hsq : 2 ^ (2 * s) = 2 ^ s * 2 ^ s) by (rewrite <- Z.pow_add_r by lia; f_equal; lia).
  assert (Hp : 0 < 2 ^ s) by lia.
  zif; intros [= <- <-].
  - assert (Hge : 2 ^ s <= x).
    { destruct (Z.le_gt_cases (2 ^ s) x); [done|]. rewrite Z.div_small in * by lia. done. }
    split.
    + split; [by apply Z.div_str_pos|]. apply Z.div_lt_upper_bound; lia.
    + assert (Hlog : s <= Z.log2 x) by (apply Z.log2_le_pow2; lia).
      rewrite <- Z.shiftr_div_pow2, Z.log2_shiftr by lia. lia.
  - split; [|lia]. split; [lia|]. destruct (Z.le_gt_cases (2 ^ s) x); [|done].
    pose proof (Z.div_str_pos x (2 ^ s)). lia.
Qed.

Lemma HighestBit_pos v : 0 < v < 2 ^ 63 -> HighestBit v = Z.log2 v.
Proof.
  intros Hv. unfold HighestBit. zif; [|lia].
  rewrite uwrap_id by (unfold is_uint; lia).
  destruct (HighestBit_step 32 (v, 0)) as [x1 r1] eqn:E1.
  destruct (HighestBit_step 16 (x1, r1)) as [x2 r2] eqn:E2.
  destruct (HighestBit_step 8 (x2, r2)) as [x3 r3] eqn:E3.
  destruct (HighestBit_step 4 (x3, r3)) as [x4 r4] eqn:E4.
  destruct (HighestBit_step 2 (x4, r4)) as [x5 r5] eqn:E5.
  apply HighestBit_step_spec in E1 as [? ?]; [|lia..].
  apply HighestBit_step_spec in E2 as [? ?]; [|lia..].
  apply HighestBit_step_spec in E3 as [? ?]; [|lia..].
  apply HighestBit_step_spec in E4 as [? ?]; [|lia..].
  apply HighestBit_step_spec in E5 as [Hx ?]; [|lia..].
  assert (x5 = 1 \/ x5 = 2 \/ x5 = 3) as [->|[->| ->]] by lia; simpl in *; lia.
Qed.

Lemma BitLength_0 : BitLength 0 = 0.
Proof. reflexivity. Qed.

Lemma sign_flip v : is_sint 64 v -> v ^^^ (v >>> (8 * 8 - 1)) = if v <? 0 then - v - 1 else v.
Proof.
  unfold is_sint. intros Hv. change (8 * 8 - 1) with 63. rewrite Z.shiftr_div_pow2 by lia. zif.
  - replace (v / 2 ^ 63) with (-1).
    + rewrite Z.lxor_m1_r. unfold Z.lnot. lia.
    + apply Z.div_unique with (v + 2 ^ 63); lia.
  - rewrite Z.div_small by lia. apply Z.lxor_0_r.
Qed.

(** [BitLength v] is the smallest [n] with [-2^n <= v < 2^n]. *)
Lemma BitLength_bound v :
  is_sint 64 v -> 0 <= BitLength v <= 63 /\ - 2 ^ BitLength v <= v < 2 ^ BitLength v.
Proof.
  intros Hv. unfold BitLength. rewrite sign_flip by done. unfold is_sint in Hv.
  set (u := if v <? 0 then - v - 1 else v).
  assert (Hu : 0 <= u < 2 ^ 63 /\ (u = v \/ u = - v - 1)) by (unfold u; zif; lia).
  destruct (Z.eqb_spec u 0) as [|Hn]; [simpl; lia|].
  rewrite HighestBit_pos by lia. pose proof (Z.log2_spec u ltac:(lia)) as Hl.
  rewrite Z.add_1_r. pose proof (Z.log2_nonneg u).
  assert (Z.log2 u < 63) by (apply Z.log2_lt_pow2; lia). lia.
Qed.

Lemma BitLength_minimal v n :
  is_sint 64 v -> 0 <= n -> - 2 ^ n <= v < 2 ^ n -> BitLength v <= n.
Proof.
  intros Hv Hn0 Hn. unfold BitLength. rewrite sign_flip by done. unfold is_sint in Hv.
  set (u := if v <? 0 then - v - 1 else v).
  assert (Hu : 0 <= u < 2 ^ 63 /\ u < 2 ^ n) by (unfold u; zif; lia).
  destruct (Z.eqb_spec u 0) as [|Hnz]; [lia|].
  rewrite HighestBit_pos by lia. assert (Z.log2 u < n) by (apply Z.log2_lt_pow2; lia). lia.
Qed.

(** ** Alignment *)
Section Alignment.
Context (k : Z) (Hk : 0 <= k).

Lemma RoundDown_eq x : RoundDown x (2 ^ k) = x / 2 ^ k * 2 ^ k.
Proof using Hk.
  unfold RoundDown. rewrite <- Z.shiftl_mul_pow2, <- Z.shiftr_div_pow2 by done.
  apply Z.bits_inj'. intros i Hi. rewrite Z.land_spec, Z.shiftl_spec by done.
  replace (- 2 ^ k) with (Z.lnot (Z.ones k)) by (rewrite Z.ones_equiv; unfold Z.lnot; lia).
  rewrite Z.lnot_spec by done.
  destruct (Z.lt_ge_cases i k).
  - rewrite Z.ones_spec_low, (Z.testbit_neg_r _ (i - k)) by lia. apply andb_false_r.
  - rewrite Z.ones_spec_high, Z.shiftr_spec by lia.
    replace (i - k + k) with i by lia. apply andb_true_r.
Qed.

Lemma IsAligned_spec x : IsAligned x (2 ^ k) = true <-> (2 ^ k | x).
Proof using Hk.
  unfold IsAligned. rewrite land_low, Z.eqb_eq by done. apply Z.mod_divide. lia.
Qed.

(** [RoundUp x n] is the least multiple of [n] that is at least [x]. *)
Lemma RoundUp_spec x :
  is_sint 64 (x + 2 ^ k - 1) ->
  (2 ^ k | RoundUp x (2 ^ k)) /\ x <= RoundUp x (2 ^ k) < x + 2 ^ k.
Proof using Hk.
  intros Hx. unfold RoundUp. rewrite swrap_id, RoundDown_eq by (lia || done).
  pose proof (Z.div_mod (x + 2 ^ k - 1) (2 ^ k)).
  pose proof (Z.mod_pos_bound (x + 2 ^ k - 1) (2 ^ k)).
  split; [apply Z.divide_factor_r|]. lia.
Qed.
End Alignment.

(** ** Overflow *)
Lemma WillAddOverflow_spec a b :
  is_sint 64 a -> is_sint 64 b ->
  WillAddOverflow a b = false <-> is_sint 64 (a + b).
Proof.
  unfold WillAddOverflow, is_sint, kMaxInt64, kMinInt64. intros Ha Hb.
  rewrite orb_false_iff, !andb_false_iff, !Z.gtb_ltb, !Z.ltb_ge. lia.
Qed.

Lemma WillSubOverflow_spec a b :
  is_sint 64 a -> is_sint 64 b ->
  WillSubOverflow a b = false <-> is_sint 64 (a - b).
Proof.
  unfold WillSubOverflow, is_sint, kMaxInt64, kMinInt64. intros Ha Hb.
  rewrite orb_false_iff, !andb_false_iff, !Z.gtb_ltb, !Z.ltb_ge. lia.
Qed.

Lemma Minimum_eq x y : Minimum x y = Z.min x y.
Proof. unfold Minimum. zif; lia. Qed.
Lemma Maximum_eq x y : Maximum x y = Z.max x y.
Proof. unfold Maximum. zif; lia. Qed.

Lemma AbsWithSaturation_eq x :
  is_sint 64 x -> AbsWithSaturation 64 x = Z.min (Z.abs x) kMaxInt64.
Proof. unfold AbsWithSaturation, is_sint, kMaxInt64. intros H. zifs; lia. Qed.

Lemma IsInt_spec N v : 0 < N -> IsInt N v = true <-> - 2 ^ (N - 1) <= v < 2 ^ (N - 1).
Proof.
  intros HN. unfold IsInt. rewrite Z.shiftl_mul_pow2, Z.mul_1_l by lia.
  rewrite andb_true_iff, Z.leb_le, Z.ltb_lt. lia.
Qed.

(** ** Properties *)

(** [Utils::BitLength] is the least [n] such that the value fits in [n + 1]
    bits of two's complement. *)
Theorem BitLength_least v n :
  is_sint 64 v -> 0 <= n -> (BitLength v <= n <-> - 2 ^ n <= v < 2 ^ n).
Proof.
  intros Hv Hn. destruct (BitLength_bound v Hv) as [Hb Hr]. split.
  - intros Hle. assert (2 ^ BitLength v <= 2 ^ n) by (apply Z.pow_le_mono_r; lia). lia.
  - by apply BitLength_minimal.
Qed.
Lemma BitLength_least_witness : BitLength (-129) <= 8 /\ ~ BitLength (-129) <= 7.
Proof.
  assert (is_sint 64 (-129)) by (unfold is_sint; lia).
  split; rewrite (BitLength_least (-129)); (assumption || lia).
Defined.

(** [Utils::RoundUpToPowerOfTwo] returns the least power of two that is not
    below its argument, for arguments up to [2^63]. *)
Theorem RoundUpToPowerOfTwo_least x :
  1 <= x <= 2 ^ 63 ->
  exists k, 0 <= k /\ RoundUpToPowerOfTwo x = 2 ^ k /\ x <= 2 ^ k /\ forall j, x <= 2 ^ j -> 2 ^ k <= 2 ^ j.
Proof.
  intros Hx. destruct (Z.eq_dec x 1) as [->|Hx1].
  { exists 0. split; [lia|]. split; [reflexivity|]. split; [lia|]. intros j. simpl. lia. }
  exists (Z.log2_up x). split; [apply Z.log2_up_nonneg|]. split; [apply RoundUpToPowerOfTwo_eq; lia|].
  destruct (Z.log2_up_spec x) as [Hlo Hhi]; [lia|]. split; [done|]. intros j Hj.
  destruct (Z.lt_ge_cases j 0); [rewrite (Z.pow_neg_r 2 j) in Hj by lia; lia|].
  apply Z.pow_le_mono_r; [lia|]. by apply Z.log2_up_le_pow2; lia.
Qed.
Lemma RoundUpToPowerOfTwo_least_witness :
  exists k, 0 <= k /\ RoundUpToPowerOfTwo 65537 = 2 ^ k /\ 65537 <= 2 ^ k /\ forall j, 65537 <= 2 ^ j -> 2 ^ k <= 2 ^ j.
Proof. apply (RoundUpToPowerOfTwo_least 65537). lia. Defined.

(** the overflow predicates are exact and overflow-free themselves: on
    64-bit operands [WillAddOverflow], [WillSubOverflow] and [RangeCheck]
    decide the mathematical conditions, and no intermediate difference or sum
    they compute leaves the 64-bit range on the branch that uses it. *)
Theorem overflow_checks_exact a b c :
  is_sint 64 a -> is_sint 64 b -> is_sint 64 c ->
  (WillAddOverflow a b = false <-> is_sint 64 (a + b)) /\
  (WillSubOverflow a b = false <-> is_sint 64 (a - b)) /\
  (RangeCheck a b c = true <-> 0 <= a /\ 0 <= b /\ 0 <= c /\ a + b <= c) /\
  (0 < b -> is_sint 64 (kMaxInt64 - b) /\ is_sint 64 (kMinInt64 + b)) /\
  (b < 0 -> is_sint 64 (kMinInt64 - b) /\ is_sint 64 (kMaxInt64 + b)) /\
  (0 <= a -> 0 <= c -> is_sint 64 (c - a)).
Proof.
  intros Ha Hb Hc. split; [by apply WillAddOverflow_spec|]. split; [by apply WillSubOverflow_spec|].
  unfold is_sint, kMaxInt64, kMinInt64, RangeCheck in *. simpl in *. split; [|lia].
  rewrite !andb_true_iff, !Z.geb_leb, !Z.leb_le. lia.
Qed.
Lemma overflow_checks_exact_witness :
  (WillAddOverflow kMaxInt64 1 = false <-> is_sint 64 (kMaxInt64 + 1)) /\ RangeCheck 5 10 15 = true.
Proof.
  split.
  - apply (overflow_checks_exact kMaxInt64 1 0); unfold is_sint, kMaxInt64; lia.
  - apply (overflow_checks_exact 5 10 15); unfold is_sint; lia.
Defined.
