(* ===== verification/Integers.v ===== *)
(** * Dart integers: Smi and Mint objects and their operations

    The integer objects of src/runtime/vm/object.{h,cc} (classes [Integer],
    [Smi], [Mint]), the natives of src/runtime/lib/integers.cc that Dart's
    [int] operators call, and the constant folder of the optimizing compiler
    (src/runtime/vm/compiler/backend/il.cc, [Evaluate]). [int64_op] is the
    contract: what the operators mean on 64-bit two's-complement values. *)
From S2P Require Import Prelude Utils.
Local Open Scope Z_scope.
Local Open Scope vm_scope.

(** ** Definitions *)

(** The binary and relational operators of [Token::Kind]. *)
Inductive Token :=
| kBIT_OR | kBIT_XOR | kBIT_AND | kSHL | kSHR
| kADD | kSUB | kMUL | kDIV | kTRUNCDIV | kMOD
| kEQ | kNE | kLT | kGT | kLTE | kGTE.
#[export] Instance Token_eq_dec : EqDecision Token.
Proof. solve_decision. Defined.

Inductive Integer := Smi (value : Z) | Mint (value : Z).
#[export] Instance Integer_eq_dec : EqDecision Integer.
Proof. solve_decision. Defined.

Definition Smi_IsValid (value : Z) : bool := (kSmiMin <=? value) && (value <=? kSmiMax).
Definition AsInt64Value (i : Integer) : Z := match i with Smi v => v | Mint v => v end.
Definition Integer_New (value : Z) : Integer := if Smi_IsValid value then Smi value else Mint value.
Definition CheckInteger (i : Integer) : bool :=
  match i with Mint v => negb (Smi_IsValid v) | Smi _ => true end.
Definition AsValidInteger (i : Integer) : Integer :=
  match i with
  | Smi _ => i
  | Mint v => if Smi_IsValid v then Smi v else i
  end.
Definition IsNegative (i : Integer) : bool := AsInt64Value i <? 0.
Definition IsZero (i : Integer) : bool := AsInt64Value i =? 0.

(** C++ integer division and remainder truncate; a zero divisor and an
    overflow of the quotient are undefined behaviour, [None]. *)
Definition c_div_undefined (x y : Z) : bool := (y =? 0) || ((x =? kMinInt64) && (y =? -1)).
Definition c_div (x y : Z) : option Z := if c_div_undefined x y then None else Some (Z.quot x y).
Definition c_rem (x y : Z) : option Z := if c_div_undefined x y then None else Some (Z.rem x y).

Definition floor_remainder (remainder right : Z) : Z :=
  if remainder <? 0 then
    if right <? 0 then remainder - right else remainder + right
  else remainder.

(** [None]: UNIMPLEMENTED, or undefined behaviour. *)
Definition ArithmeticOp (operation : Token) (this other : Integer) : option Integer :=
  match this, other with
  | Smi left_value, Smi right_value =>
      match operation with
      | kADD => Some (Integer_New (left_value + right_value))
      | kSUB => Some (Integer_New (left_value - right_value))
      | kMUL => Some (Integer_New (MulWithWrapAround left_value right_value))
      | kTRUNCDIV => q ← c_div left_value right_value; Some (Integer_New q)
      | kMOD =>
          remainder ← c_rem left_value right_value;
          Some (Integer_New (floor_remainder remainder right_value))
      | _ => None
      end
  | _, _ =>
      let left_value := AsInt64Value this in
      let right_value := AsInt64Value other in
      match operation with
      | kADD => Some (Integer_New (AddWithWrapAround left_value right_value))
      | kSUB => Some (Integer_New (SubWithWrapAround left_value right_value))
      | kMUL => Some (Integer_New (MulWithWrapAround left_value right_value))
      | kTRUNCDIV =>
          if (left_value =? kMinInt64) && (right_value =? -1) then Some (Integer_New kMinInt64)
          else q ← c_div left_value right_value; Some (Integer_New q)
      | kMOD =>
          if (left_value =? kMinInt64) && (right_value =? -1) then Some (Integer_New 0)
          else
            remainder ← c_rem left_value right_value;
            Some (Integer_New (floor_remainder remainder right_value))
      | _ => None
      end
  end.

Definition BitOp (kind : Token) (this other : Integer) : option Integer :=
  match this, other with
  | Smi op1_value, Smi op2_value =>
      match kind with
      | kBIT_AND => Some (Smi (op1_value &&& op2_value))
      | kBIT_OR => Some (Smi (op1_value ||| op2_value))
      | kBIT_XOR => Some (Smi (op1_value ^^^ op2_value))
      | _ => None
      end
  | _, _ =>
      let a := AsInt64Value this in
      let b := AsInt64Value other in
      match kind with
      | kBIT_AND => Some (Integer_New (a &&& b))
      | kBIT_OR => Some (Integer_New (a ||| b))
      | kBIT_XOR => Some (Integer_New (a ^^^ b))
      | _ => None
      end
  end.

Definition Mint_kBits : Z := 63.
Definition ShiftOp (kind : Token) (this other : Integer) : option Integer :=
  let a := AsInt64Value this in
  let b := AsInt64Value other in
  match kind with
  | kSHL => r ← ShiftLeftWithTruncation a b; Some (Integer_New r)
  | kSHR => r ← c_shr a (Minimum b Mint_kBits); Some (Integer_New r)
  | _ => None
  end.

Definition Smi_CompareWith (value : Z) (other : Integer) : Z :=
  match other with
  | Smi other_value =>
      if value <? other_value then -1 else if value >? other_value then 1 else 0
  | Mint _ =>
      if Bool.eqb (value <? 0) (IsNegative other) then if value <? 0 then 1 else -1
      else if value <? 0 then -1 else 1
  end.
Definition Mint_CompareWith (value : Z) (other : Integer) : Z :=
  let b := AsInt64Value other in
  if value <? b then -1 else if value >? b then 1 else 0.
Definition CompareWith (this other : Integer) : Z :=
  match this with Smi v => Smi_CompareWith v other | Mint v => Mint_CompareWith v other end.

(** *** Natives (lib/integers.cc)

    The receiver is the second argument. [inr] is a thrown [ArgumentError]
    with its argument, [None] an operation the VM cannot perform. *)
Definition Integer_bitAndFromInteger (right left : Integer) := BitOp kBIT_AND left right.
Definition Integer_bitOrFromInteger (right left : Integer) := BitOp kBIT_OR left right.
Definition Integer_bitXorFromInteger (right left : Integer) := BitOp kBIT_XOR left right.
Definition Integer_addFromInteger (right left : Integer) := ArithmeticOp kADD left right.
Definition Integer_subFromInteger (right left : Integer) := ArithmeticOp kSUB left right.
Definition Integer_mulFromInteger (right left : Integer) := ArithmeticOp kMUL left right.
Definition Integer_truncDivFromInteger (right left : Integer) := ArithmeticOp kTRUNCDIV left right.
Definition Integer_moduloFromInteger (right left : Integer) : option Integer :=
  if IsZero right then None else ArithmeticOp kMOD left right.
Definition Integer_greaterThanFromInteger (right left : Integer) : bool := CompareWith left right =? 1.
Definition Integer_equalToInteger (left right : Integer) : bool := CompareWith left right =? 0.
Definition ShiftOperationHelper (kind : Token) (value amount : Integer) : option (Integer + Integer) :=
  if AsInt64Value amount <? 0 then Some (inr amount)
  else r ← ShiftOp kind value amount; Some (inl r).
Definition Integer_shrFromInteger (amount value : Integer) := ShiftOperationHelper kSHR value amount.
Definition Integer_shlFromInteger (amount value : Integer) := ShiftOperationHelper kSHL value amount.
Definition Smi_bitAndFromSmi (left right : Z) : Integer := Smi (left &&& right).
Definition Smi_bitNegate (operand : Z) : Integer := Smi (Z.lnot operand).
Definition Smi_bitLength (operand : Z) : Integer := Smi (BitLength operand).
Definition Mint_bitNegate (operand : Z) : Integer := Integer_New (Z.lnot operand).
Definition Mint_bitLength (operand : Z) : Integer := Smi (BitLength operand).

(** *** The constant folder (compiler/backend/il.cc) *)
Inductive Representation := kTagged | kUnboxedInt32 | kUnboxedUint32 | kUnboxedInt64.
#[export] Instance Representation_eq_dec : EqDecision Representation.
Proof. solve_decision. Defined.

Definition RepresentationBits (r : Representation) : Z :=
  match r with
  | kTagged => kBitsPerWord - 1
  | kUnboxedInt32 | kUnboxedUint32 => 32
  | kUnboxedInt64 => 64
  end.
Definition RepresentationMask (r : Representation) : Z :=
  s64 (u64 (-1) >>> (64 - RepresentationBits r)).
Definition IsRepresentable (value : Integer) (rep : Representation) : bool :=
  match rep with
  | kTagged => match value with Smi _ => true | Mint _ => false end
  | kUnboxedInt32 => IsInt 32 (AsInt64Value value)
  | kUnboxedInt64 => true
  | kUnboxedUint32 => IsUint 32 (AsInt64Value value)
  end.

(** The switch of [BinaryIntegerOpInstr::Evaluate]. [Some None] is
    [Integer::null()], [None] is UNREACHABLE or undefined behaviour. *)
Definition Evaluate_op (op_kind : Token) (left right : Integer) : option (option Integer) :=
  match op_kind with
  | kTRUNCDIV | kMOD =>
      if AsInt64Value right =? 0 then Some None else r ← ArithmeticOp op_kind left right; Some (Some r)
  | kADD | kSUB | kMUL => r ← ArithmeticOp op_kind left right; Some (Some r)
  | kSHL | kSHR => if AsInt64Value right >=? 0 then r ← ShiftOp op_kind left right; Some (Some r) else Some None
  | kBIT_AND | kBIT_OR | kBIT_XOR => r ← BitOp op_kind left right; Some (Some r)
  | kDIV => Some None
  | _ => None
  end.
Definition BinaryIntegerOp_Evaluate (op_kind : Token) (is_truncating : bool) (rep : Representation)
    (left right : Integer) : option (option Integer) :=
  result ← Evaluate_op op_kind left right;
  match result with
  | None => Some None
  | Some result =>
      if is_truncating then
        Some (Some (Integer_New (AsInt64Value result &&& RepresentationMask rep)))
      else if negb (IsRepresentable result rep) then Some None
      else Some (Some result)
  end.

Inductive UnaryToken := kNEGATE | kBIT_NOT.
Definition UnaryIntegerOp_Evaluate (op_kind : UnaryToken) (rep : Representation) (value : Integer)
    : option (option Integer) :=
  result ← match op_kind with
           | kNEGATE => ArithmeticOp kMUL value (Smi (-1))
           | kBIT_NOT => Some (Integer_New (Z.lnot (AsInt64Value value)))
           end;
  if negb (IsRepresentable result rep) then Some None else Some (Some result).

(** ** The contract *)

(** Dart's integer operators on 64-bit values; [None] is an operation that
    throws (division by zero, negative shift count) or is not an integer
    operation. *)
Definition is_integer_op (op : Token) : bool :=
  match op with kEQ | kNE | kLT | kGT | kLTE | kGTE => false | _ => true end.
Definition int64_op (op : Token) (x y : Z) : option Z :=
  match op with
  | kADD => Some (s64 (x + y))
  | kSUB => Some (s64 (x - y))
  | kMUL => Some (s64 (x * y))
  | kTRUNCDIV => if y =? 0 then None else Some (s64 (Z.quot x y))
  | kMOD => if y =? 0 then None else Some (x mod Z.abs y)
  | kSHL => if y <? 0 then None else Some (s64 (x * 2 ^ y))
  | kSHR => if y <? 0 then None else Some (x / 2 ^ y)
  | kBIT_AND => Some (x &&& y)
  | kBIT_OR => Some (x ||| y)
  | kBIT_XOR => Some (x ^^^ y)
  | _ => None
  end.

(** An integer object represents [x]: its value is [x], as a Smi exactly when
    [x] is in Smi range. *)
Definition represents (i : Integer) (x : Z) : Prop := i = Integer_New x /\ is_sint 64 x.

(** ** Lemmas *)
Lemma Integer_New_value x : AsInt64Value (Integer_New x) = x.
Proof. unfold Integer_New. by destruct (Smi_IsValid x). Qed.

Lemma represents_value i x : represents i x -> AsInt64Value i = x.
Proof. intros [-> _]. apply Integer_New_value. Qed.

Lemma Smi_IsValid_spec v : Smi_IsValid v = true <-> - 2 ^ 62 <= v < 2 ^ 62.
Proof.
  unfold Smi_IsValid, kSmiMin, kSmiMax, kSmiBits, kBitsPerWord.
  rewrite andb_true_iff, !Z.leb_le. change (64 - 2) with 62. lia.
Qed.

Lemma represents_cases i x : represents i x ->
  i = Smi x /\ - 2 ^ 62 <= x < 2 ^ 62 \/ i = Mint x /\ ~ (- 2 ^ 62 <= x < 2 ^ 62).
Proof.
  intros [-> _]. unfold Integer_New. destruct (Smi_IsValid x) eqn:E.
  - left. by rewrite <- Smi_IsValid_spec.
  - right. rewrite <- Smi_IsValid_spec. by rewrite E.
Qed.

Section Wrapping.
Lemma AddWithWrapAround_eq x y : AddWithWrapAround x y = s64 (x + y).
Proof.
  unfold AddWithWrapAround. destruct (uwrap_spec 64 eq_refl (u64 x + u64 y)) as [k ->].
  destruct (uwrap_spec 64 eq_refl x) as [a ->]. destruct (uwrap_spec 64 eq_refl y) as [b ->].
  apply (swrap_congr 64 eq_refl). apply Z.mod_divide; [done|]. exists (a + b + k). lia.
Qed.
Lemma SubWithWrapAround_eq x y : SubWithWrapAround x y = s64 (x - y).
Proof.
  unfold SubWithWrapAround. destruct (uwrap_spec 64 eq_refl (u64 x - u64 y)) as [k ->].
  destruct (uwrap_spec 64 eq_refl x) as [a ->]. destruct (uwrap_spec 64 eq_refl y) as [b ->].
  apply (swrap_congr 64 eq_refl). apply Z.mod_divide; [done|]. exists (a - b + k). lia.
Qed.
Lemma MulWithWrapAround_eq x y : MulWithWrapAround x y = s64 (x * y).
Proof.
  unfold MulWithWrapAround. destruct (uwrap_spec 64 eq_refl (u64 x * u64 y)) as [k ->].
  destruct (uwrap_spec 64 eq_refl x) as [a ->]. destruct (uwrap_spec 64 eq_refl y) as [b ->].
  apply (swrap_congr 64 eq_refl). apply Z.mod_divide; [done|].
  exists (a * y + b * x + a * b * 2 ^ 64 + k). ring.
Qed.
Lemma ShiftLeftWithTruncation_eq x y : 0 <= y -> ShiftLeftWithTruncation x y = Some (s64 (x * 2 ^ y)).
Proof.
  intros Hy. unfold ShiftLeftWithTruncation, kBitsPerInt64. zif.
  - f_equal. symmetry. apply (swrap_unique 64 eq_refl) with (k := - (x * 2 ^ (y - 64))).
    + unfold is_sint. lia.
    + replace (2 ^ y) with (2 ^ (y - 64) * 2 ^ 64) by (rewrite <- Z.pow_add_r by lia; f_equal; lia). ring.
  - unfold c_shl. rewrite (proj2 (Z.leb_le 0 y) Hy), (proj2 (Z.ltb_lt y 64)) by done. cbn [andb mbind option_bind]. f_equal.
    destruct (uwrap_spec 64 eq_refl (u64 x <<< y)) as [k ->].
    rewrite Z.shiftl_mul_pow2 by done. destruct (uwrap_spec 64 eq_refl x) as [a ->].
    apply (swrap_congr 64 eq_refl). apply Z.mod_divide; [done|]. exists (a * 2 ^ y + k). ring.
Qed.
End Wrapping.

Lemma floor_remainder_eq x y : y <> 0 -> floor_remainder (Z.rem x y) y = x mod Z.abs y.
Proof.
  intros Hy. unfold floor_remainder.
  pose proof (Z.quot_rem x y Hy) as Hq. pose proof (Z.rem_bound_abs x y Hy).
  set (q := Z.quot x y) in *. set (r := Z.rem x y) in *.
  destruct (Z.ltb_spec r 0); [destruct (Z.ltb_spec y 0)|].
  - apply Z.mod_unique with (- (q + 1)); lia.
  - apply Z.mod_unique with (q - 1); lia.
  - apply Z.mod_unique with (if y <? 0 then - q else q); [lia|]. destruct (Z.ltb_spec y 0); lia.
Qed.

Lemma quot_sint x y : is_sint 64 x -> is_sint 64 y -> y <> 0 ->
  ~ (x = kMinInt64 /\ y = -1) -> is_sint 64 (Z.quot x y).
Proof.
  unfold is_sint, kMinInt64. intros Hx Hy Hn Hm.
  destruct (Z.eq_dec y 1) as [->|]; [rewrite Z.quot_1_r; lia|].
  destruct (Z.eq_dec y (-1)) as [->|].
  - replace (-1) with (- (1)) by lia. rewrite Z.quot_opp_r, Z.quot_1_r by lia. lia.
  - assert (Z.abs (Z.quot x y) <= 2 ^ 62); [|lia].
    rewrite <- Z.quot_abs by done. rewrite Z.quot_div_nonneg by lia.
    apply Z.div_le_upper_bound; lia.
Qed.

Lemma shr_sint x n : is_sint 64 x -> 0 <= n -> is_sint 64 (x / 2 ^ n).
Proof.
  unfold is_sint. intros Hx Hn. assert (0 < 2 ^ n) by lia.
  split; [apply Z.div_le_lower_bound|apply Z.div_lt_upper_bound]; nia.
Qed.

Lemma shr_min_63 x n : is_sint 64 x -> 0 <= n -> c_shr x (Minimum n 63) = Some (x / 2 ^ n).
Proof.
  unfold is_sint, c_shr. intros Hx Hn. rewrite Minimum_eq, (proj2 (Z.leb_le 0 _)), (proj2 (Z.ltb_lt _ 64)) by lia.
  cbn [andb]. f_equal. rewrite Z.shiftr_div_pow2 by lia.
  destruct (Z.le_gt_cases n 63); [by rewrite Z.min_l by lia|].
  rewrite Z.min_r by lia.
  assert (2 ^ 63 <= 2 ^ n) by (apply Z.pow_le_mono_r; lia).
  destruct (Z.lt_ge_cases x 0).
  - rewrite !div_neg_small; lia.
  - rewrite !Z.div_small; lia.
Qed.

Lemma sint_bits w x : 0 < w -> is_sint w x <-> forall i, w - 1 <= i -> Z.testbit x i = Z.testbit x (w - 1).
Proof.
  intros Hw. unfold is_sint. split.
  - intros Hx i Hi. rewrite !Z.testbit_odd, !Z.shiftr_div_pow2 by lia. f_equal.
    assert (2 ^ (w - 1) <= 2 ^ i) by (apply Z.pow_le_mono_r; lia).
    destruct (Z.lt_ge_cases x 0).
    + rewrite !div_neg_small; lia.
    + rewrite !Z.div_small; lia.
  - intros Hb. destruct (Z.testbit x (w - 1)) eqn:E.
    + assert (Hn : 0 <= Z.lnot x).
      { apply Z.lnot_nonneg. destruct (Z.lt_ge_cases x 0) as [|Hx]; [done|exfalso].
        specialize (Hb (Z.max (w - 1) (Z.log2 x + 1)) ltac:(lia)).
        rewrite Z.bits_above_log2 in Hb by lia. done. }
      enough (is_uint (w - 1) (Z.lnot x)) as [_ Hu] by (unfold Z.lnot in *; lia).
      apply uint_of_bits; [lia|done|]. intros i Hi. by rewrite Z.lnot_spec, Hb by lia.
    + assert (Hn : 0 <= x).
      { destruct (Z.lt_ge_cases x 0) as [Hx|]; [exfalso|done].
        specialize (Hb (Z.max (w - 1) (Z.log2 (Z.pred (- x)) + 1)) ltac:(lia)).
        rewrite Z.bits_above_log2_neg in Hb by lia. done. }
      enough (is_uint (w - 1) x) as [_ Hu] by lia.
      apply uint_of_bits; [lia|done|done].
Qed.

Lemma bitop_sint w (f : Z -> Z -> Z) (fb : bool -> bool -> bool) x y :
  0 < w -> (forall a b i, 0 <= i -> Z.testbit (f a b) i = fb (Z.testbit a i) (Z.testbit b i)) ->
  is_sint w x -> is_sint w y -> is_sint w (f x y).
Proof.
  intros Hw Hf Hx Hy. rewrite sint_bits in * by done. intros i Hi.
  rewrite !Hf by lia. by rewrite (Hx i), (Hy i) by lia.
Qed.

Lemma land_sint w x y : 0 < w -> is_sint w x -> is_sint w y -> is_sint w (x &&& y).
Proof. intros Hw. apply (bitop_sint w Z.land andb); [done|]. intros. apply Z.land_spec. Qed.
Lemma lor_sint w x y : 0 < w -> is_sint w x -> is_sint w y -> is_sint w (x ||| y).
Proof. intros Hw. apply (bitop_sint w Z.lor orb); [done|]. intros. apply Z.lor_spec. Qed.
Lemma lxor_sint w x y : 0 < w -> is_sint w x -> is_sint w y -> is_sint w (x ^^^ y).
Proof. intros Hw. apply (bitop_sint w Z.lxor xorb); [done|]. intros. apply Z.lxor_spec. Qed.

Lemma int64_op_sint op x y v :
  is_sint 64 x -> is_sint 64 y -> int64_op op x y = Some v -> is_sint 64 v.
Proof.
  intros Hx Hy. destruct op; simpl; try done; try zif; try done; intros [= <-];
    try (by apply swrap_range).
  - by apply lor_sint.
  - by apply lxor_sint.
  - by apply land_sint.
  - by apply shr_sint.
  - pose proof (Z.mod_pos_bound x (Z.abs y)). unfold is_sint in *. lia.
Qed.

(** The Smi fast path and the 64-bit path of the arithmetic operators. *)
Lemma ArithmeticOp_spec op i j x y :
  op = kADD \/ op = kSUB \/ op = kMUL \/ (op = kTRUNCDIV \/ op = kMOD) /\ y <> 0 ->
  represents i x -> represents j y ->
  ArithmeticOp op i j = Integer_New <$> int64_op op x y.
Proof.
  intros Hop Hi Hj.
  assert (Hs : i = Smi x /\ j = Smi y /\ - 2 ^ 62 <= x < 2 ^ 62 /\ - 2 ^ 62 <= y < 2 ^ 62 \/
    ArithmeticOp op i j = ArithmeticOp op (Mint x) (Mint y)).
  { destruct (represents_cases _ _ Hi) as [[-> ?]|[-> ?]], (represents_cases _ _ Hj) as [[-> ?]|[-> ?]];
      (by left) || (by right). }
  destruct Hi as [_ Hx], Hj as [_ Hy]. unfold is_sint in Hx, Hy.
  destruct Hs as [(-> & -> & ? & ?)| ->]; simpl;
    destruct Hop as [->|[->|[->|[[->| ->] Hy0]]]]; simpl;
    rewrite ?AddWithWrapAround_eq, ?SubWithWrapAround_eq, ?MulWithWrapAround_eq;
    unfold c_div, c_rem, c_div_undefined; rewrite ?(proj2 (Z.eqb_neq y 0) Hy0), ?orb_false_l; simpl; try done.
  - rewrite swrap_id; [done..|]. unfold is_sint. lia.
  - rewrite swrap_id; [done..|]. unfold is_sint. lia.
  - rewrite (proj2 (Z.eqb_neq x kMinInt64)) by (unfold kMinInt64; lia). cbn. rewrite swrap_id; [done..|]. apply quot_sint; unfold is_sint, kMinInt64; lia.
  - rewrite (proj2 (Z.eqb_neq x kMinInt64)) by (unfold kMinInt64; lia). cbn. by rewrite floor_remainder_eq.
  - zif; simpl.
    + subst. done.
    + rewrite swrap_id; [done..|]. apply quot_sint; unfold is_sint, kMinInt64 in *; lia.
  - zif; simpl; [|by rewrite floor_remainder_eq].
    subst. simpl. by rewrite Z.mod_1_r.
Qed.

Lemma BitOp_spec op i j x y :
  op = kBIT_AND \/ op = kBIT_OR \/ op = kBIT_XOR ->
  represents i x -> represents j y ->
  BitOp op i j = Integer_New <$> int64_op op x y.
Proof.
  intros Hop Hi Hj.
  assert (Hsmi : forall v, - 2 ^ 62 <= v < 2 ^ 62 -> Integer_New v = Smi v).
  { intros v Hv. unfold Integer_New. by rewrite (proj2 (Smi_IsValid_spec v) Hv). }
  destruct (represents_cases _ _ Hi) as [[-> Hx]|[-> Hx]],
           (represents_cases _ _ Hj) as [[-> Hy]|[-> Hy]];
    destruct Hop as [->|[->| ->]]; simpl; try done; rewrite Hsmi; try done;
    (apply (land_sint 63) || apply (lor_sint 63) || apply (lxor_sint 63)); done.
Qed.

Lemma ShiftOp_spec op i j x y :
  op = kSHL \/ op = kSHR -> 0 <= y ->
  represents i x -> represents j y ->
  ShiftOp op i j = Integer_New <$> int64_op op x y.
Proof.
  intros Hop Hy0 Hi Hj. unfold ShiftOp.
  rewrite (represents_value _ _ Hi), (represents_value _ _ Hj).
  destruct Hi as [_ Hx], Hop as [->| ->]; simpl; (destruct (Z.ltb_spec y 0); [lia|]); simpl.
  - by rewrite ShiftLeftWithTruncation_eq.
  - unfold Mint_kBits. by rewrite shr_min_63.
Qed.

(** ** Properties *)

Lemma Evaluate_op_spec op i j x y : is_integer_op op = true ->
  represents i x -> represents j y -> Evaluate_op op i j = Some (Integer_New <$> int64_op op x y).
Proof.
  intros Ho Hi Hj. destruct op; cbn [Evaluate_op]; try done;
    try (rewrite (BitOp_spec _ i j x y) by tauto; done);
    try (rewrite (ArithmeticOp_spec _ i j x y) by tauto; done);
    rewrite (represents_value _ _ Hj); zif;
    first [ rewrite (ShiftOp_spec _ i j x y) by (tauto || lia)
          | rewrite (ArithmeticOp_spec _ i j x y) by (tauto || lia)
          | idtac ]; unfold int64_op; zif; done || lia.
Qed.

(** C3: On integer objects in canonical form the switch of the constant
    folder, and with it [Integer::ArithmeticOp], [BitOp] and [ShiftOp],
    computes Dart's 64-bit operators for every operator and every operand:
    wrap-around addition, subtraction and multiplication, truncating division
    and non-negative modulo (both paths, including [MIN / -1]), shifts by any
    non-negative count, and the bit operations. The result is null exactly when the operator
    throws or is [/], and in canonical form otherwise. No operand leads to a division by zero, a
    quotient that overflows, a shift by 64 or more, or code that is not implemented;
    only a token that is not an arithmetic operator is unreachable. *)
Theorem Evaluate_op_refines_int64 op i j x y :
  represents i x -> represents j y ->
  Evaluate_op op i j = (if is_integer_op op then Some (Integer_New <$> int64_op op x y) else None) /\
  forall v, int64_op op x y = Some v -> represents (Integer_New v) v.
Proof.
  intros Hi Hj. split.
  - destruct (is_integer_op op) eqn:Ho; [by apply Evaluate_op_spec|by destruct op].
  - intros v Hv. split; [done|]. apply (int64_op_sint op x y v (proj2 Hi) (proj2 Hj) Hv).
Qed.

Lemma Evaluate_op_refines_int64_witness :
  represents (Mint kMinInt64) kMinInt64 /\ represents (Smi (-1)) (-1) /\ represents (Smi 0) 0 /\
  Evaluate_op kTRUNCDIV (Mint kMinInt64) (Smi (-1)) = Some (Some (Mint kMinInt64)) /\
  Evaluate_op kTRUNCDIV (Mint kMinInt64) (Smi 0) = Some None.
Proof.
  assert (H1 : represents (Mint kMinInt64) kMinInt64) by (split; [reflexivity|vm_compute; split; congruence]).
  assert (H2 : represents (Smi (-1)) (-1)) by (split; [reflexivity|vm_compute; split; congruence]).
  assert (H3 : represents (Smi 0) 0) by (split; [reflexivity|vm_compute; split; congruence]).
  split; [exact H1|split; [exact H2|split; [exact H3|split]]].
  - rewrite (proj1 (Evaluate_op_refines_int64 kTRUNCDIV _ _ _ _ H1 H2)). reflexivity.
  - rewrite (proj1 (Evaluate_op_refines_int64 kTRUNCDIV _ _ _ _ H1 H3)). reflexivity.
Defined.

(** [CompareWith] orders integer objects by value although a Smi compares
    with a Mint by the signs alone: the result is -1, 0 or 1 as the first
    value is below, equal to or above the second. *)
Theorem CompareWith_correct i j x y :
  represents i x -> represents j y ->
  CompareWith i j = match x ?= y with Lt => -1 | Eq => 0 | Gt => 1 end.
Proof.
  intros Hi Hj.
  assert (H3 : (if x <? y then -1 else if x >? y then 1 else 0) =
    match x ?= y with Lt => -1 | Eq => 0 | Gt => 1 end).
  { rewrite Z.gtb_ltb. unfold Z.ltb. rewrite (Z.compare_antisym x y). by destruct (x ?= y). }
  destruct (represents_cases _ _ Hi) as [[-> Hx]|[-> Hx]]; simpl; unfold Mint_CompareWith.
  - destruct (represents_cases _ _ Hj) as [[-> Hy]|[-> Hy]]; simpl; [done|].
    unfold IsNegative. simpl.
    destruct (Z.ltb_spec x 0), (Z.ltb_spec y 0); simpl;
      (rewrite (proj2 (Z.compare_lt_iff x y)) by lia) || (rewrite (proj2 (Z.compare_gt_iff x y)) by lia); done.
  - by rewrite (represents_value _ _ Hj).
Qed.

Lemma CompareWith_correct_witness :
  represents (Smi (-5)) (-5) /\ represents (Mint (2 ^ 62)) (2 ^ 62) /\
  CompareWith (Smi (-5)) (Mint (2 ^ 62)) = -1.
Proof.
  assert (H1 : represents (Smi (-5)) (-5)) by (split; [reflexivity|vm_compute; split; congruence]).
  assert (H2 : represents (Mint (2 ^ 62)) (2 ^ 62)) by (split; [reflexivity|vm_compute; split; congruence]).
  split; [exact H1|split; [exact H2|]]. rewrite (CompareWith_correct _ _ _ _ H1 H2). reflexivity.
Defined.

(** *** The constant folder *)
Definition in_representation (rep : Representation) (v : Z) : bool :=
  match rep with
  | kTagged => (kSmiMin <=? v) && (v <=? kSmiMax)
  | kUnboxedInt32 => (- 2 ^ 31 <=? v) && (v <? 2 ^ 31)
  | kUnboxedUint32 => (0 <=? v) && (v <? 2 ^ 32)
  | kUnboxedInt64 => true
  end.

Lemma IsRepresentable_eq rep v : IsRepresentable (Integer_New v) rep = in_representation rep v.
Proof.
  destruct rep; simpl; rewrite ?Integer_New_value; try done.
  unfold Integer_New, Smi_IsValid. by destruct (_ && _).
Qed.

(** constant folding of a binary integer operation: a non-truncating
    instruction folds to the 64-bit result when its representation holds it
    and is not folded otherwise; a truncating Uint32 or Int64 instruction
    folds to the result modulo [2^32] or to the 64-bit result. *)
Theorem BinaryIntegerOp_Evaluate_correct op rep i j x y : is_integer_op op = true ->
  represents i x -> represents j y ->
  BinaryIntegerOp_Evaluate op false rep i j =
    Some (v ← int64_op op x y; if in_representation rep v then Some (Integer_New v) else None) /\
  BinaryIntegerOp_Evaluate op true kUnboxedUint32 i j = Some ((fun v => Integer_New (u32 v)) <$> int64_op op x y) /\
  BinaryIntegerOp_Evaluate op true kUnboxedInt64 i j = Some (Integer_New <$> int64_op op x y).
Proof.
  intros Ho Hi Hj. unfold BinaryIntegerOp_Evaluate. rewrite (Evaluate_op_spec op i j x y Ho Hi Hj). cbn [mbind option_bind].
  destruct (int64_op op x y) as [v|] eqn:E; simpl; [|done].
  rewrite IsRepresentable_eq, Integer_New_value. split_and!.
  - by destruct (in_representation rep v).
  - change (RepresentationMask kUnboxedUint32) with (2 ^ 32 - 1). by rewrite land_low.
  - change (RepresentationMask kUnboxedInt64) with (-1). by rewrite Z.land_m1_r.
Qed.
Lemma BinaryIntegerOp_Evaluate_correct_witness :
  represents (Smi (-1)) (-1) /\ represents (Smi 1) 1 /\
  BinaryIntegerOp_Evaluate kSUB true kUnboxedUint32 (Smi (-1)) (Smi 1) = Some (Some (Smi 4294967294)).
Proof.
  assert (represents (Smi (-1)) (-1)) by (split; [reflexivity|unfold is_sint; lia]).
  assert (represents (Smi 1) 1) by (split; [reflexivity|unfold is_sint; lia]).
  split; [assumption|]. split; [assumption|].
  rewrite (proj1 (proj2 (BinaryIntegerOp_Evaluate_correct kSUB kTagged (Smi (-1)) (Smi 1) (-1) 1
             eq_refl ltac:(assumption) ltac:(assumption)))). reflexivity.
Defined.

(** Folding a truncating Int32 or Smi operation with a negative result
    does not sign-extend: the masked value is not representable, against the
    assertion that follows it in the code. *)
Theorem Evaluate_truncating_signed_unrepresentable :
  BinaryIntegerOp_Evaluate kSUB true kUnboxedInt32 (Smi 0) (Smi 1) = Some (Some (Smi 4294967295)) /\
  IsRepresentable (Smi 4294967295) kUnboxedInt32 = false /\
  BinaryIntegerOp_Evaluate kSUB true kTagged (Smi 0) (Smi 1) = Some (Some (Mint kMaxInt64)) /\
  IsRepresentable (Mint kMaxInt64) kTagged = false.
Proof. repeat split; reflexivity. Qed.
