(* ===== verification/Ranges.v ===== *)
(** * Range analysis: boundaries, ranges and the definitions they mention

    The lattice of src/runtime/vm/compiler/backend/range_analysis.{h,cc}:
    classes [RangeBoundary] and [Range], over the part of the flow graph that
    range analysis reads (the instruction of a definition, its inputs, and
    the range assigned to it so far). A [Definition*] is a name [Defn]; the
    graph maps it to what the pointer points at. *)
From S2P Require Import Prelude Utils Integers.
Local Open Scope Z_scope.
Local Open Scope vm_scope.

(** ** Data *)
Definition Defn := positive.

(** [RangeBoundary]: the kinds of src enum [Kind], with the fields each kind
    uses ([value_] of a constant, [symbol] and [offset_] of a symbol). *)
Inductive RangeBoundary :=
| kUnknown
| kNegativeInfinity
| kPositiveInfinity
| kSymbol (symbol : Defn) (offset_ : Z)
| kConstant (value_ : Z).

Inductive RangeSize := kRangeBoundarySmi | kRangeBoundaryInt32 | kRangeBoundaryInt64.

Record Range := MkRange { min_ : RangeBoundary; max_ : RangeBoundary }.

#[export] Instance RangeBoundary_eq_dec : EqDecision RangeBoundary.
Proof. solve_decision. Defined.
#[export] Instance Range_eq_dec : EqDecision Range.
Proof. solve_decision. Defined.

(** The value of a [ConstantInstr]: a Smi, a Mint, or another object. *)
Inductive ConstObj := SmiObj (value : Z) | MintObj (value : Z) | OtherObj (address : Z).
#[export] Instance ConstObj_eq_dec : EqDecision ConstObj.
Proof. solve_decision. Defined.

(** [Slot::Kind]. *)
Inductive SlotKind :=
| kArray_length | kGrowableObjectArray_length | kTypedDataBase_length
| kTypedDataView_offset_in_bytes | kString_length | kDartField | kCapturedVariable
| kLinkedHashMap_index | kLinkedHashMap_data | kGrowableObjectArray_data
| kContext_parent | kTypeArguments | kClosure_context
| kClosure_delayed_type_arguments | kClosure_function
| kClosure_function_type_arguments | kClosure_instantiator_type_arguments
| kPointer_c_memory_address | kTypedDataBase_data_field | kTypedDataView_data
| kClosure_hash | kLinkedHashMap_hash_mask | kLinkedHashMap_used_data
| kLinkedHashMap_deleted_keys | kArgumentsDescriptor_type_args_len
| kArgumentsDescriptor_positional_count | kArgumentsDescriptor_count.
#[export] Instance SlotKind_eq_dec : EqDecision SlotKind.
Proof. solve_decision. Defined.

(** The instructions range analysis looks into. [LoadFieldInstr] has the slot's
    kind, its address (slots are compared by address) and its [is_immutable];
    every other instruction is its tag, inputs, attributes and [AllowsCSE]. *)
Inductive Instr :=
| ConstantInstr (value : ConstObj)
| ConstraintInstr (value : Defn) (constraint : Range)
| BinarySmiOpInstr (op_kind : Token) (left right : Defn) (can_overflow is_truncating : bool)
| LoadFieldInstr (slot_kind : SlotKind) (slot_address : Z) (is_immutable : bool) (instance : Defn)
| OtherInstr (tag : Z) (inputs : list Defn) (attributes : Z) (allows_cse : bool).

(** What a [Definition*] points at: the instruction and [range_] ([None] is
    [NULL]). *)
Record Definition_ := MkDefinition {
  instr : Instr;
  range_ : option Range }.
Definition graph := Defn -> Definition_.

(** ** Construction of boundaries *)
Definition FromConstant (val : Z) : RangeBoundary := kConstant val.
Definition IsValidOffsetForSymbolicRangeBoundary (offset : Z) : bool :=
  negb ((offset >? kMaxInt64 - kSmiMax) || (offset <? kMinInt64 - kSmiMin)).
Definition MinSmi : RangeBoundary := FromConstant kSmiMin.
Definition MaxSmi : RangeBoundary := FromConstant kSmiMax.
Definition MinConstant (size : RangeSize) : RangeBoundary :=
  match size with
  | kRangeBoundarySmi => FromConstant kSmiMin
  | kRangeBoundaryInt32 => FromConstant kMinInt32
  | kRangeBoundaryInt64 => FromConstant kMinInt64
  end.
Definition MaxConstant (size : RangeSize) : RangeBoundary :=
  match size with
  | kRangeBoundarySmi => FromConstant kSmiMax
  | kRangeBoundaryInt32 => FromConstant kMaxInt32
  | kRangeBoundaryInt64 => FromConstant kMaxInt64
  end.

(** ** Tests *)
Definition IsUnknown (b : RangeBoundary) : bool := match b with kUnknown => true | _ => false end.
Definition IsConstant (b : RangeBoundary) : bool := match b with kConstant _ => true | _ => false end.
Definition IsSymbol (b : RangeBoundary) : bool := match b with kSymbol _ _ => true | _ => false end.
Definition IsNegativeInfinity (b : RangeBoundary) : bool :=
  match b with kNegativeInfinity => true | _ => false end.
Definition IsPositiveInfinity (b : RangeBoundary) : bool :=
  match b with kPositiveInfinity => true | _ => false end.
Definition IsInfinity (b : RangeBoundary) : bool := IsNegativeInfinity b || IsPositiveInfinity b.

(** [value_] of a constant. On the other kinds [ConstantValue] is guarded by
    an ASSERT; the constructors of unknown and infinite boundaries set
    [value_] to 0. *)
Definition ConstantValue (b : RangeBoundary) : Z := match b with kConstant v => v | _ => 0 end.
Definition boundary_offset (b : RangeBoundary) : Z := match b with kSymbol _ o => o | _ => 0 end.

Definition RangeBoundary_Clamp (size : RangeSize) (b : RangeBoundary) : RangeBoundary :=
  match b with
  | kNegativeInfinity => MinConstant size
  | kPositiveInfinity => MaxConstant size
  | kConstant v =>
      if v <=? ConstantValue (MinConstant size) then MinConstant size
      else if v >=? ConstantValue (MaxConstant size) then MaxConstant size
      else b
  | _ => b
  end.

Definition IsMinimumOrBelow (size : RangeSize) (b : RangeBoundary) : bool :=
  IsNegativeInfinity b || (IsConstant b && (ConstantValue b <=? ConstantValue (MinConstant size))).
Definition IsMaximumOrAbove (size : RangeSize) (b : RangeBoundary) : bool :=
  IsPositiveInfinity b || (IsConstant b && (ConstantValue b >=? ConstantValue (MaxConstant size))).

Definition OverflowedSmi (b : RangeBoundary) : bool :=
  (IsConstant b && negb (Smi_IsValid (ConstantValue b))) || IsInfinity b.

(** ** Arithmetic on boundaries *)
Definition RangeBoundary_Add (a b overflow : RangeBoundary) : RangeBoundary :=
  if IsInfinity a || IsInfinity b then overflow
  else if WillAddOverflow (ConstantValue a) (ConstantValue b) then overflow
  else FromConstant (ConstantValue a + ConstantValue b).

Definition RangeBoundary_Sub (a b overflow : RangeBoundary) : RangeBoundary :=
  if IsInfinity a || IsInfinity b then overflow
  else if WillSubOverflow (ConstantValue a) (ConstantValue b) then overflow
  else FromConstant (ConstantValue a - ConstantValue b).

(** C++ shifts of an [int64_t]: a count outside [[0, 64)] is undefined
    behaviour, [None]. *)
Definition int64_shl (v n : Z) : option Z :=
  if (0 <=? n) && (n <? 64) then Some (s64 (v <<< n)) else None.
Definition int64_shr (v n : Z) : option Z :=
  if (0 <=? n) && (n <? 64) then Some (v >>> n) else None.

Definition RangeBoundary_Shl (value_boundary : RangeBoundary) (shift_count : Z)
    (overflow : RangeBoundary) : option RangeBoundary :=
  let limit := 64 - shift_count in
  let value := ConstantValue value_boundary in
  if (value =? 0) || (shift_count =? 0) || ((limit >? 0) && IsInt limit value) then
    result ← int64_shl value shift_count; Some (FromConstant result)
  else Some overflow.

Definition RangeBoundary_Shr (value_boundary : RangeBoundary) (shift_count : Z)
    : option RangeBoundary :=
  result ← int64_shr (ConstantValue value_boundary) shift_count; Some (FromConstant result).

(** ** Ranges *)
Definition Full (size : RangeSize) : Range := MkRange (MinConstant size) (MaxConstant size).
Definition SetInt64Range : Range :=
  MkRange (MinConstant kRangeBoundaryInt64) (MaxConstant kRangeBoundaryInt64).
(** The constructor [Range(min, max)]. *)
Definition mkRange (min max : RangeBoundary) : Range :=
  if IsInfinity min || IsInfinity max then SetInt64Range else MkRange min max.
(** [Range()], the bottom element. *)
Definition emptyRange : Range := MkRange kUnknown kUnknown.
Definition Range_IsUnknown (other : option Range) : bool :=
  match other with None => true | Some r => IsUnknown (min_ r) end.
Definition set_min (r : Range) (value : RangeBoundary) : Range :=
  if IsInfinity value then SetInt64Range else MkRange value (max_ r).
Definition set_max (r : Range) (value : RangeBoundary) : Range :=
  if IsInfinity value then SetInt64Range else MkRange (min_ r) value.
Definition IsFinite (r : Range) : bool := negb (IsInfinity (min_ r)) && negb (IsInfinity (max_ r)).

(** ** Operations that look at the graph

    [fuel] bounds the length of a chain of definitions: [LowerBound] and
    [UpperBound] follow the symbol of a symbol's range, [UnwrapConstraint]
    the input of a constraint. In a graph of [fuel] definitions with acyclic
    chains it is never exhausted ([kUnknown] stands for exhaustion). *)
Section Graph.
Context (fuel : nat) (g : graph).

Definition FromDefinition (defn : Defn) (offs : Z) : RangeBoundary :=
  match instr (g defn) with
  | ConstantInstr (SmiObj v) => FromConstant (v + offs)
  | _ => kSymbol defn offs
  end.

Fixpoint LowerBound_loop (n : nat) (b : RangeBoundary) : RangeBoundary :=
  match b with
  | kNegativeInfinity | kPositiveInfinity => kNegativeInfinity
  | kConstant _ => b
  | kUnknown => kUnknown
  | kSymbol s o =>
      match n with
      | O => kUnknown
      | S n =>
          RangeBoundary_Add
            (match range_ (g s) with
             | None => MinConstant kRangeBoundarySmi
             | Some r => RangeBoundary_Clamp kRangeBoundarySmi (LowerBound_loop n (min_ r))
             end) (FromConstant o) kNegativeInfinity
      end
  end.
Definition LowerBound : RangeBoundary -> RangeBoundary := LowerBound_loop fuel.

Fixpoint UpperBound_loop (n : nat) (b : RangeBoundary) : RangeBoundary :=
  match b with
  | kNegativeInfinity | kPositiveInfinity => kPositiveInfinity
  | kConstant _ => b
  | kUnknown => kUnknown
  | kSymbol s o =>
      match n with
      | O => kUnknown
      | S n =>
          RangeBoundary_Add
            (match range_ (g s) with
             | None => MaxConstant kRangeBoundarySmi
             | Some r => RangeBoundary_Clamp kRangeBoundarySmi (UpperBound_loop n (max_ r))
             end) (FromConstant o) kPositiveInfinity
      end
  end.
Definition UpperBound : RangeBoundary -> RangeBoundary := UpperBound_loop fuel.

Definition LowerBound_size (size : RangeSize) (b : RangeBoundary) : Z :=
  ConstantValue (RangeBoundary_Clamp size (LowerBound b)).
Definition UpperBound_size (size : RangeSize) (b : RangeBoundary) : Z :=
  ConstantValue (RangeBoundary_Clamp size (UpperBound b)).
Definition SmiLowerBound : RangeBoundary -> Z := LowerBound_size kRangeBoundarySmi.
Definition SmiUpperBound : RangeBoundary -> Z := UpperBound_size kRangeBoundarySmi.

Definition ConstantMin (size : RangeSize) (range : option Range) : RangeBoundary :=
  match range with
  | None => MinConstant size
  | Some r => RangeBoundary_Clamp size (LowerBound (min_ r))
  end.
Definition ConstantMax (size : RangeSize) (range : option Range) : RangeBoundary :=
  match range with
  | None => MaxConstant size
  | Some r => RangeBoundary_Clamp size (UpperBound (max_ r))
  end.

Fixpoint UnwrapConstraint_loop (n : nat) (defn : Defn) : Defn :=
  match n with
  | O => defn
  | S n =>
      match instr (g defn) with
      | ConstraintInstr v _ => UnwrapConstraint_loop n v
      | _ => defn
      end
  end.
Definition UnwrapConstraint : Defn -> Defn := UnwrapConstraint_loop fuel.

Definition AllowsCSE (d : Defn) : bool :=
  match instr (g d) with
  | ConstantInstr _ => true
  | ConstraintInstr _ _ => false
  | BinarySmiOpInstr _ _ _ _ _ => true
  | LoadFieldInstr _ _ immutable _ => immutable
  | OtherInstr _ _ _ cse => cse
  end.

(** [Instruction::Equals]: same tag, same inputs, equal attributes. *)
Definition Instr_Equals (a b : Defn) : bool :=
  match instr (g a), instr (g b) with
  | ConstantInstr v, ConstantInstr v' => bool_decide (v = v')
  | BinarySmiOpInstr op l r o t, BinarySmiOpInstr op' l' r' o' t' =>
      bool_decide (l = l') && bool_decide (r = r') &&
      (bool_decide (op = op') && Bool.eqb o o' && Bool.eqb t t')
  | LoadFieldInstr _ s _ i, LoadFieldInstr _ s' _ i' => bool_decide (i = i') && (s =? s')
  | OtherInstr t i a _, OtherInstr t' i' a' _ =>
      (t =? t') && bool_decide (i = i') && (a =? a')
  | _, _ => false
  end.

Definition AreEqualDefinitions (a b : Defn) : bool :=
  let a := UnwrapConstraint a in
  let b := UnwrapConstraint b in
  bool_decide (a = b) || (AllowsCSE a && AllowsCSE b && Instr_Equals a b).

Definition DependOnSameSymbol (a b : RangeBoundary) : bool :=
  match a, b with
  | kSymbol s _, kSymbol s' _ => AreEqualDefinitions s s'
  | _, _ => false
  end.

Definition RangeBoundary_Equals (a b : RangeBoundary) : bool :=
  match a, b with
  | kConstant v, kConstant v' => v =? v'
  | kNegativeInfinity, kNegativeInfinity => true
  | kPositiveInfinity, kPositiveInfinity => true
  | kSymbol _ o, kSymbol _ o' => (o =? o') && DependOnSameSymbol a b
  | kUnknown, kUnknown => true
  | _, _ => false
  end.

Definition Overflowed (size : RangeSize) (b : RangeBoundary) : bool :=
  negb (RangeBoundary_Equals b (RangeBoundary_Clamp size b)).

Definition SymbolicAdd_ordered (s : Defn) (offset c : Z) : option RangeBoundary :=
  if WillAddOverflow offset c then None
  else if negb (IsValidOffsetForSymbolicRangeBoundary (offset + c)) then None
  else Some (FromDefinition s (offset + c)).
(** [None] is the result [false]. *)
Definition SymbolicAdd (a b : RangeBoundary) : option RangeBoundary :=
  match a, b with
  | kSymbol s o, kConstant c => SymbolicAdd_ordered s o c
  | kConstant c, kSymbol s o => SymbolicAdd_ordered s o c
  | _, _ => None
  end.
Definition SymbolicSub (a b : RangeBoundary) : option RangeBoundary :=
  match a, b with
  | kSymbol s o, kConstant c =>
      if WillSubOverflow o c then None
      else if negb (IsValidOffsetForSymbolicRangeBoundary (o - c)) then None
      else Some (FromDefinition s (o - c))
  | _, _ => None
  end.

Definition Range_Equals (r : Range) (other : option Range) : bool :=
  match other with
  | None => IsUnknown (min_ r)
  | Some o => RangeBoundary_Equals (min_ r) (min_ o) && RangeBoundary_Equals (max_ r) (max_ o)
  end.

Definition OnlyLessThanOrEqualTo (r : Range) (val : Z) : bool :=
  let upper_bound := UpperBound (max_ r) in
  negb (IsPositiveInfinity upper_bound) && (ConstantValue upper_bound <=? val).
Definition OnlyGreaterThanOrEqualTo (r : Range) (val : Z) : bool :=
  let lower_bound := LowerBound (min_ r) in
  negb (IsNegativeInfinity lower_bound) && (ConstantValue lower_bound >=? val).
Definition Range_IsPositive (r : Range) : bool := OnlyGreaterThanOrEqualTo r 0.
Definition IsWithin (r : Range) (min_int max_int : Z) : bool :=
  OnlyGreaterThanOrEqualTo r min_int && OnlyLessThanOrEqualTo r max_int.
Definition Overlaps (r : Range) (min_int max_int : Z) : bool :=
  let lower := LowerBound (min_ r) in
  let upper := UpperBound (max_ r) in
  let this_min := if IsNegativeInfinity lower then kMinInt64 else ConstantValue lower in
  let this_max := if IsPositiveInfinity upper then kMaxInt64 else ConstantValue upper in
  if (this_min <=? min_int) && (min_int <=? this_max) then true
  else if (this_min <=? max_int) && (max_int <=? this_max) then true
  else if (min_int <? this_min) && (max_int >? this_max) then true
  else false.
Definition IsUnsatisfiable (r : Range) : bool :=
  if IsPositiveInfinity (min_ r) || IsNegativeInfinity (max_ r) then true
  else if ConstantValue (ConstantMin kRangeBoundaryInt64 (Some r)) >?
          ConstantValue (ConstantMax kRangeBoundaryInt64 (Some r)) then true
  else DependOnSameSymbol (min_ r) (max_ r) && (boundary_offset (min_ r) >? boundary_offset (max_ r)).
Definition Fits (size : RangeSize) (r : Range) : bool :=
  negb (Overflowed size (LowerBound (min_ r))) && negb (Overflowed size (UpperBound (max_ r))).
Definition Range_Clamp (size : RangeSize) (r : Range) : Range :=
  MkRange (RangeBoundary_Clamp size (min_ r)) (RangeBoundary_Clamp size (max_ r)).
Definition ClampToConstant (size : RangeSize) (r : Range) : Range :=
  MkRange (RangeBoundary_Clamp size (LowerBound (min_ r)))
          (RangeBoundary_Clamp size (UpperBound (max_ r))).
End Graph.
