(* ===== verification/RangeSound.v ===== *)
(** * Range analysis: the meaning of ranges

    An environment gives every definition its run-time integer. [holds_min]
    and [holds_max] say that a boundary bounds a value, [in_range] that a
    range contains it. [Sound] is what range analysis maintains: every
    definition lies in the range assigned to it. The lemmas show that
    [LowerBound], [UpperBound], [Clamp], the symbolic operations and the
    tests of Ranges.v respect this meaning. *)
From S2P Require Import Prelude Utils Integers Ranges.
Local Open Scope Z_scope.
Local Open Scope vm_scope.

Definition env := Defn -> Z.
Definition is_smi (v : Z) : Prop := kSmiMin <= v <= kSmiMax.

Definition size_min (size : RangeSize) : Z := ConstantValue (MinConstant size).
Definition size_max (size : RangeSize) : Z := ConstantValue (MaxConstant size).
Definition in_size (size : RangeSize) (v : Z) : Prop := size_min size <= v <= size_max size.

Definition holds_min (rho : env) (b : RangeBoundary) (v : Z) : Prop :=
  match b with
  | kUnknown | kPositiveInfinity => False
  | kNegativeInfinity => True
  | kConstant c => c <= v
  | kSymbol s o => rho s + o <= v
  end.
Definition holds_max (rho : env) (b : RangeBoundary) (v : Z) : Prop :=
  match b with
  | kUnknown | kNegativeInfinity => False
  | kPositiveInfinity => True
  | kConstant c => v <= c
  | kSymbol s o => v <= rho s + o
  end.
Definition in_range (rho : env) (r : Range) (v : Z) : Prop :=
  holds_min rho (min_ r) v /\ holds_max rho (max_ r) v.

(** Constants are 64-bit, symbols are Smi definitions with an offset that
    cannot make the sum wrap around. *)
Definition wf_boundary (rho : env) (b : RangeBoundary) : Prop :=
  match b with
  | kConstant c => is_sint 64 c
  | kSymbol s o => is_smi (rho s) /\ IsValidOffsetForSymbolicRangeBoundary o = true
  | _ => True
  end.
Definition wf_range (rho : env) (r : Range) : Prop :=
  wf_boundary rho (min_ r) /\ wf_boundary rho (max_ r).

(** The environment agrees with the instructions: a constraint is its input,
    a constant its value, a Smi addition or subtraction is exact on Smi
    operands (it deoptimizes on overflow; the code that rewrites boundaries
    through it does not look at [is_truncating], so the same is required of
    truncating ones), and instructions that common-subexpression elimination
    identifies have one value. *)
Record agrees (fuel : nat) (g : graph) (rho : env) : Prop := {
  agrees_constant d v : instr (g d) = ConstantInstr (SmiObj v) -> rho d = v /\ is_smi v;
  agrees_constraint d v c : instr (g d) = ConstraintInstr v c -> rho d = rho v;
  agrees_add d l r o t : instr (g d) = BinarySmiOpInstr kADD l r o t ->
    rho d = rho l + rho r /\ is_smi (rho l) /\ is_smi (rho r);
  agrees_sub d l r o t : instr (g d) = BinarySmiOpInstr kSUB l r o t ->
    rho d = rho l - rho r /\ is_smi (rho l) /\ is_smi (rho r);
  agrees_cse a b : AllowsCSE g a = true -> AllowsCSE g b = true ->
    Instr_Equals g a b = true -> rho a = rho b }.

(** Every assigned range is known, well formed and contains its definition. *)
Definition ranges_hold (g : graph) (rho : env) : Prop :=
  forall d r, range_ (g d) = Some r -> wf_range rho r /\ in_range rho r (rho d).

(** Chains of symbols and of inputs are acyclic and shorter than the fuel:
    [rank d] bounds the chains that start at [d]. *)
Record acyclic (fuel : nat) (g : graph) (rank : Defn -> nat) : Prop := {
  rank_lt d : (rank d < fuel)%nat;
  rank_min d r s o : range_ (g d) = Some r -> min_ r = kSymbol s o -> (rank s < rank d)%nat;
  rank_max d r s o : range_ (g d) = Some r -> max_ r = kSymbol s o -> (rank s < rank d)%nat;
  rank_constraint d v c : instr (g d) = ConstraintInstr v c -> (rank v < rank d)%nat;
  rank_binop d op l r o t : instr (g d) = BinarySmiOpInstr op l r o t ->
    (rank l < rank d)%nat /\ (rank r < rank d)%nat }.

(** A constant or infinite boundary: what [LowerBound] and [UpperBound] return. *)
Definition constant_or_infinity (b : RangeBoundary) : Prop :=
  match b with kConstant c => is_sint 64 c | kNegativeInfinity | kPositiveInfinity => True | _ => False end.

Lemma const_wf rho b : constant_or_infinity b -> wf_boundary rho b.
Proof. by destruct b. Qed.

(** ** Constants and sizes *)
Ltac unfold_consts :=
  unfold in_size, size_min, size_max, MinConstant, MaxConstant, FromConstant, MinSmi, MaxSmi,
    is_smi, is_sint, kMinInt64, kMaxInt64, kMinInt32, kMaxInt32, kSmiMin, kSmiMax, kSmiBits,
    kBitsPerWord in *; simpl ConstantValue in *.

Lemma size_bounds size : is_sint 64 (size_min size) /\ is_sint 64 (size_max size) /\
  size_min size < 0 < size_max size.
Proof. destruct size; unfold_consts; simpl; lia. Qed.

Lemma in_size_sint size v : in_size size v -> is_sint 64 v.
Proof. destruct (size_bounds size) as ([? ?] & [? ?] & ?). unfold in_size, is_sint in *. lia. Qed.

Lemma MinConstant_eq size : MinConstant size = kConstant (size_min size).
Proof. by destruct size. Qed.
Lemma MaxConstant_eq size : MaxConstant size = kConstant (size_max size).
Proof. by destruct size. Qed.

Lemma valid_offset o : IsValidOffsetForSymbolicRangeBoundary o = true <-> - 2 ^ 62 <= o <= 2 ^ 62.
Proof.
  unfold IsValidOffsetForSymbolicRangeBoundary. unfold_consts.
  rewrite negb_true_iff, orb_false_iff, Z.gtb_ltb, !Z.ltb_ge. simpl. lia.
Qed.

Lemma smi_offset_sint v o :
  is_smi v -> IsValidOffsetForSymbolicRangeBoundary o = true -> is_sint 64 (v + o).
Proof. rewrite valid_offset. unfold_consts. simpl. lia. Qed.

Lemma valid_offset_sint o : IsValidOffsetForSymbolicRangeBoundary o = true -> is_sint 64 o.
Proof. rewrite valid_offset. unfold_consts. lia. Qed.

(** A well-formed boundary never bounds outside the 64-bit integers. *)
Lemma holds_max_sint rho b v :
  wf_boundary rho b -> holds_max rho b v -> b <> kPositiveInfinity -> v <= kMaxInt64.
Proof.
  destruct b; simpl; try done.
  - intros [Hs Ho] H _. pose proof (smi_offset_sint _ _ Hs Ho). unfold_consts. lia.
  - unfold_consts. lia.
Qed.
Lemma holds_min_sint rho b v :
  wf_boundary rho b -> holds_min rho b v -> b <> kNegativeInfinity -> kMinInt64 <= v.
Proof.
  destruct b; simpl; try done.
  - intros [Hs Ho] H _. pose proof (smi_offset_sint _ _ Hs Ho). unfold_consts. lia.
  - unfold_consts. lia.
Qed.

Lemma holds_min_weaken rho b v v' : holds_min rho b v -> v <= v' -> holds_min rho b v'.
Proof. destruct b; simpl; try done; lia. Qed.
Lemma holds_max_weaken rho b v v' : holds_max rho b v -> v' <= v -> holds_max rho b v'.
Proof. destruct b; simpl; try done; lia. Qed.

(** ** Clamp and addition of constants *)
Lemma Clamp_min_sound rho size b v :
  holds_min rho b v -> size_min size <= v -> holds_min rho (RangeBoundary_Clamp size b) v.
Proof.
  unfold RangeBoundary_Clamp. rewrite MinConstant_eq, MaxConstant_eq. simpl.
  destruct b; simpl; try done. intros H Hs. zifs; simpl; lia.
Qed.
Lemma Clamp_max_sound rho size b v :
  holds_max rho b v -> v <= size_max size -> holds_max rho (RangeBoundary_Clamp size b) v.
Proof.
  unfold RangeBoundary_Clamp. rewrite MinConstant_eq, MaxConstant_eq. simpl.
  destruct b; simpl; try done. intros H Hs. zifs; simpl; lia.
Qed.

(** Clamping a constant or an infinity gives a constant of the size. *)
Lemma Clamp_constant size b :
  constant_or_infinity b ->
  exists c, RangeBoundary_Clamp size b = kConstant c /\ in_size size c.
Proof.
  pose proof (size_bounds size). unfold RangeBoundary_Clamp, in_size.
  rewrite MinConstant_eq, MaxConstant_eq. simpl.
  destruct b; simpl; try done; intros Hb; zifs; eexists; (split; [reflexivity|]); lia.
Qed.

Lemma wf_Clamp rho size b : wf_boundary rho b -> wf_boundary rho (RangeBoundary_Clamp size b).
Proof.
  destruct (size_bounds size) as (Hm & HM & _).
  unfold RangeBoundary_Clamp. rewrite MinConstant_eq, MaxConstant_eq.
  destruct b; simpl; try done. intros Hb. zifs; done.
Qed.

Lemma RangeBoundary_Add_const a b overflow :
  constant_or_infinity a -> constant_or_infinity b -> constant_or_infinity overflow ->
  constant_or_infinity (RangeBoundary_Add a b overflow).
Proof.
  unfold RangeBoundary_Add. intros Ha Hb Ho. zif; [done|]. zif; [done|].
  destruct a, b; try done. by apply WillAddOverflow_spec.
Qed.
Lemma RangeBoundary_Sub_const a b overflow :
  constant_or_infinity a -> constant_or_infinity b -> constant_or_infinity overflow ->
  constant_or_infinity (RangeBoundary_Sub a b overflow).
Proof.
  unfold RangeBoundary_Sub. intros Ha Hb Ho. zif; [done|]. zif; [done|].
  destruct a, b; try done. by apply WillSubOverflow_spec.
Qed.

Lemma RangeBoundary_Add_min rho a b x y :
  constant_or_infinity a -> constant_or_infinity b ->
  holds_min rho a x -> holds_min rho b y ->
  holds_min rho (RangeBoundary_Add a b kNegativeInfinity) (x + y).
Proof.
  unfold RangeBoundary_Add. intros Ha Hb Hx Hy. zif; [done|]. zif; [done|].
  destruct a, b; simpl in *; try done. lia.
Qed.
Lemma RangeBoundary_Add_max rho a b x y :
  constant_or_infinity a -> constant_or_infinity b ->
  holds_max rho a x -> holds_max rho b y ->
  holds_max rho (RangeBoundary_Add a b kPositiveInfinity) (x + y).
Proof.
  unfold RangeBoundary_Add. intros Ha Hb Hx Hy. zif; [done|]. zif; [done|].
  destruct a, b; simpl in *; try done. lia.
Qed.
Lemma RangeBoundary_Sub_min rho a b x y :
  constant_or_infinity a -> constant_or_infinity b ->
  holds_min rho a x -> holds_max rho b y ->
  holds_min rho (RangeBoundary_Sub a b kNegativeInfinity) (x - y).
Proof.
  unfold RangeBoundary_Sub. intros Ha Hb Hx Hy. zif; [done|]. zif; [done|].
  destruct a, b; simpl in *; try done. lia.
Qed.
Lemma RangeBoundary_Sub_max rho a b x y :
  constant_or_infinity a -> constant_or_infinity b ->
  holds_max rho a x -> holds_min rho b y ->
  holds_max rho (RangeBoundary_Sub a b kPositiveInfinity) (x - y).
Proof.
  unfold RangeBoundary_Sub. intros Ha Hb Hx Hy. zif; [done|]. zif; [done|].
  destruct a, b; simpl in *; try done. lia.
Qed.

(** ** Operations on a sound graph *)
Section SoundGraph.
Context (fuel : nat) (g : graph) (rho : env) (rank : Defn -> nat).
Context (Hacy : acyclic fuel g rank) (Hrng : ranges_hold g rho).

Lemma range_min_known d r : range_ (g d) = Some r -> min_ r <> kUnknown.
Proof using Hrng. intros H E. destruct (Hrng d r H) as [_ [Hm _]]. by rewrite E in Hm. Qed.
Lemma range_max_known d r : range_ (g d) = Some r -> max_ r <> kUnknown.
Proof using Hrng. intros H E. destruct (Hrng d r H) as [_ [_ Hm]]. by rewrite E in Hm. Qed.

Lemma LowerBound_loop_spec n b :
  b <> kUnknown -> wf_boundary rho b ->
  (forall s o, b = kSymbol s o -> (rank s < n)%nat) ->
  constant_or_infinity (LowerBound_loop g n b) /\
  forall v, holds_min rho b v -> holds_min rho (LowerBound_loop g n b) v.
Proof using Hacy Hrng.
  revert b. induction n as [|n IH]; intros [| | |s o|c] Hk Hwf Hr; simpl; try done.
  - specialize (Hr s o eq_refl). lia.
  - specialize (Hr s o eq_refl). destruct Hwf as [Hs Ho].
    pose proof (valid_offset_sint _ Ho) as Ho'.
    set (b := match range_ (g s) with Some r => _ | None => _ end).
    assert (constant_or_infinity b /\ holds_min rho b (rho s)) as [Hb1 Hb2].
    { unfold b. destruct (range_ (g s)) as [r|] eqn:E.
      - destruct (IH (min_ r)) as [IH1 IH2].
        + by eapply range_min_known.
        + by destruct (Hrng s r E) as [[? _] _].
        + intros s' o' E'. pose proof (rank_min _ _ _ Hacy s r s' o' E E'). lia.
        + destruct (Clamp_constant kRangeBoundarySmi _ IH1) as (c & Hc & Hin). split.
          * rewrite Hc. simpl. by eapply in_size_sint.
          * apply Clamp_min_sound; [|apply Hs]. apply IH2. by destruct (Hrng s r E) as [_ [? _]].
      - simpl. unfold_consts. lia. }
    split; [by apply RangeBoundary_Add_const|].
    intros v Hv. apply holds_min_weaken with (rho s + o); [|done].
    apply RangeBoundary_Add_min; simpl; done || lia.
Qed.

Lemma UpperBound_loop_spec n b :
  b <> kUnknown -> wf_boundary rho b ->
  (forall s o, b = kSymbol s o -> (rank s < n)%nat) ->
  constant_or_infinity (UpperBound_loop g n b) /\
  forall v, holds_max rho b v -> holds_max rho (UpperBound_loop g n b) v.
Proof using Hacy Hrng.
  revert b. induction n as [|n IH]; intros [| | |s o|c] Hk Hwf Hr; simpl; try done.
  - specialize (Hr s o eq_refl). lia.
  - specialize (Hr s o eq_refl). destruct Hwf as [Hs Ho].
    pose proof (valid_offset_sint _ Ho) as Ho'.
    set (b := match range_ (g s) with Some r => _ | None => _ end).
    assert (constant_or_infinity b /\ holds_max rho b (rho s)) as [Hb1 Hb2].
    { unfold b. destruct (range_ (g s)) as [r|] eqn:E.
      - destruct (IH (max_ r)) as [IH1 IH2].
        + by eapply range_max_known.
        + by destruct (Hrng s r E) as [[_ ?] _].
        + intros s' o' E'. pose proof (rank_max _ _ _ Hacy s r s' o' E E'). lia.
        + destruct (Clamp_constant kRangeBoundarySmi _ IH1) as (c & Hc & Hin). split.
          * rewrite Hc. simpl. by eapply in_size_sint.
          * apply Clamp_max_sound; [|apply Hs]. apply IH2. by destruct (Hrng s r E) as [_ [_ ?]].
      - simpl. unfold_consts. lia. }
    split; [by apply RangeBoundary_Add_const|].
    intros v Hv. apply holds_max_weaken with (rho s + o); [|done].
    apply RangeBoundary_Add_max; simpl; done || lia.
Qed.

Lemma LowerBound_const b : b <> kUnknown -> wf_boundary rho b -> constant_or_infinity (LowerBound fuel g b).
Proof using Hacy Hrng.
  intros Hb Hwf. apply LowerBound_loop_spec; [done..|]. intros s o _. apply (rank_lt _ _ _ Hacy).
Qed.
Lemma UpperBound_const b : b <> kUnknown -> wf_boundary rho b -> constant_or_infinity (UpperBound fuel g b).
Proof using Hacy Hrng.
  intros Hb Hwf. apply UpperBound_loop_spec; [done..|]. intros s o _. apply (rank_lt _ _ _ Hacy).
Qed.
Lemma LowerBound_sound b v :
  wf_boundary rho b -> holds_min rho b v -> holds_min rho (LowerBound fuel g b) v.
Proof using Hacy Hrng.
  intros Hwf Hv. apply LowerBound_loop_spec; [by destruct b|done| |done].
  intros s o _. apply (rank_lt _ _ _ Hacy).
Qed.
Lemma UpperBound_sound b v :
  wf_boundary rho b -> holds_max rho b v -> holds_max rho (UpperBound fuel g b) v.
Proof using Hacy Hrng.
  intros Hwf Hv. apply UpperBound_loop_spec; [by destruct b|done| |done].
  intros s o _. apply (rank_lt _ _ _ Hacy).
Qed.
(** The upper bound of a lower boundary is above every value of the boundary. *)
Lemma LowerBound_not_pos b : LowerBound fuel g b <> kPositiveInfinity.
Proof using.
  unfold LowerBound. generalize fuel. intros n. destruct n, b; simpl; try done;
    unfold RangeBoundary_Add; zifs; done.
Qed.
Lemma UpperBound_not_neg b : UpperBound fuel g b <> kNegativeInfinity.
Proof using.
  unfold UpperBound. generalize fuel. intros n. destruct n, b; simpl; try done;
    unfold RangeBoundary_Add; zifs; done.
Qed.

(** [ConstantMin] and [ConstantMax] are constants that bound the value. *)
Lemma ConstantMin_spec size r v :
  wf_range rho r -> in_range rho r v -> size_min size <= v ->
  exists c, ConstantMin fuel g size (Some r) = kConstant c /\ in_size size c /\ c <= v.
Proof using Hacy Hrng.
  intros [Hwf _] [Hm _] Hs. assert (min_ r <> kUnknown) by (intros E; by rewrite E in Hm).
  destruct (Clamp_constant size _ (LowerBound_const _ H Hwf)) as (c & Hc & Hin).
  exists c. split; [done|]. split; [done|].
  pose proof (Clamp_min_sound rho size _ _ (LowerBound_sound _ _ Hwf Hm) Hs) as Hcl.
  by rewrite Hc in Hcl.
Qed.
Lemma ConstantMax_spec size r v :
  wf_range rho r -> in_range rho r v -> v <= size_max size ->
  exists c, ConstantMax fuel g size (Some r) = kConstant c /\ in_size size c /\ v <= c.
Proof using Hacy Hrng.
  intros [_ Hwf] [_ Hm] Hs. assert (max_ r <> kUnknown) by (intros E; by rewrite E in Hm).
  destruct (Clamp_constant size _ (UpperBound_const _ H Hwf)) as (c & Hc & Hin).
  exists c. split; [done|]. split; [done|].
  pose proof (Clamp_max_sound rho size _ _ (UpperBound_sound _ _ Hwf Hm) Hs) as Hcl.
  by rewrite Hc in Hcl.
Qed.

(** ** Symbols *)
Context (Hagr : agrees fuel g rho).

Lemma UnwrapConstraint_value d : rho (UnwrapConstraint fuel g d) = rho d.
Proof using Hagr.
  unfold UnwrapConstraint. generalize fuel at 1. intros n. revert d.
  induction n as [|n IH]; intros d; simpl; [done|].
  destruct (instr (g d)) eqn:E; try done. rewrite IH. symmetry. by eapply agrees_constraint.
Qed.

Lemma AreEqualDefinitions_value a b : AreEqualDefinitions fuel g a b = true -> rho a = rho b.
Proof using Hagr.
  unfold AreEqualDefinitions. intros H. apply orb_true_iff in H as [H|H].
  - apply bool_decide_eq_true in H.
    by rewrite <- (UnwrapConstraint_value a), <- (UnwrapConstraint_value b), H.
  - zbool. rewrite <- (UnwrapConstraint_value a), <- (UnwrapConstraint_value b).
    by eapply agrees_cse.
Qed.

Lemma DependOnSameSymbol_inv a b :
  DependOnSameSymbol fuel g a b = true ->
  exists s o s' o', a = kSymbol s o /\ b = kSymbol s' o' /\ rho s = rho s'.
Proof using Hagr.
  destruct a as [| | |s o|], b as [| | |s' o'|]; simpl; try done. intros H.
  exists s, o, s', o'. repeat split. by apply AreEqualDefinitions_value.
Qed.

Lemma RangeBoundary_Equals_sound a b :
  RangeBoundary_Equals fuel g a b = true ->
  forall v, (holds_min rho a v <-> holds_min rho b v) /\ (holds_max rho a v <-> holds_max rho b v).
Proof using Hagr.
  destruct a as [| | |s o|], b as [| | |s' o'|]; simpl; try done; intros H v; zbool.
  - apply AreEqualDefinitions_value in H0. lia.
  - subst. done.
Qed.

(** A boundary made from a definition means the definition plus the offset. *)
Lemma FromDefinition_spec d o :
  is_smi (rho d) -> IsValidOffsetForSymbolicRangeBoundary o = true ->
  wf_boundary rho (FromDefinition g d o) /\
  forall v, (holds_min rho (FromDefinition g d o) v <-> rho d + o <= v) /\
            (holds_max rho (FromDefinition g d o) v <-> v <= rho d + o).
Proof using Hagr.
  intros Hs Ho. unfold FromDefinition.
  destruct (instr (g d)) as [[v| |]| | | |] eqn:E; simpl; try done.
  destruct (agrees_constant _ _ _ Hagr d v E) as [<- ?].
  split; [by apply smi_offset_sint|done].
Qed.

Lemma SymbolicAdd_sound a b c :
  wf_boundary rho a -> wf_boundary rho b -> SymbolicAdd g a b = Some c ->
  wf_boundary rho c /\
  forall x y, (holds_min rho a x -> holds_min rho b y -> holds_min rho c (x + y)) /\
              (holds_max rho a x -> holds_max rho b y -> holds_max rho c (x + y)).
Proof using Hagr.
  assert (Hord : forall s o k, is_smi (rho s) -> SymbolicAdd_ordered g s o k = Some c ->
    wf_boundary rho c /\ forall v, (holds_min rho c v <-> rho s + (o + k) <= v) /\
                                   (holds_max rho c v <-> v <= rho s + (o + k))).
  { intros s o k Hs. unfold SymbolicAdd_ordered. zif; [done|]. zif; [done|].
    intros [= <-]. by apply FromDefinition_spec. }
  destruct a as [| | |s o|k], b as [| | |s' o'|k']; simpl; try done.
  - intros [Hs _] _ H. destruct (Hord _ _ _ Hs H) as [Hc Hv]. split; [done|].
    intros x y. destruct (Hv (x + y)) as [-> ->]. lia.
  - intros _ [Hs _] H. destruct (Hord _ _ _ Hs H) as [Hc Hv]. split; [done|].
    intros x y. destruct (Hv (x + y)) as [-> ->]. lia.
Qed.

Lemma SymbolicSub_sound a b c :
  wf_boundary rho a -> wf_boundary rho b -> SymbolicSub g a b = Some c ->
  wf_boundary rho c /\
  forall x y, (holds_min rho a x -> holds_max rho b y -> holds_min rho c (x - y)) /\
              (holds_max rho a x -> holds_min rho b y -> holds_max rho c (x - y)).
Proof using Hagr.
  destruct a as [| | |s o|k], b as [| | |s' o'|k']; simpl; try done.
  intros [Hs _] _. zif; [done|]. zif; [done|]. intros [= <-].
  destruct (FromDefinition_spec s (o - k') Hs E0) as [Hc Hv]. split; [done|].
  intros x y. destruct (Hv (x - y)) as [-> ->]. simpl. lia.
Qed.

(** ** Tests *)
Lemma OnlyGreaterThanOrEqualTo_sound r val v :
  wf_range rho r -> in_range rho r v ->
  OnlyGreaterThanOrEqualTo fuel g r val = true -> val <= v.
Proof using Hacy Hrng.
  intros [Hwf _] [Hm _]. unfold OnlyGreaterThanOrEqualTo. intros H. zbool.
  pose proof (LowerBound_sound _ _ Hwf Hm) as Hl.
  pose proof (LowerBound_const (min_ r)) as Hc.
  destruct (LowerBound fuel g (min_ r)) eqn:E; simpl in *; try done; try lia.
  destruct (Hc ltac:(by intros E'; rewrite E' in Hm) Hwf).
Qed.
Lemma OnlyLessThanOrEqualTo_sound r val v :
  wf_range rho r -> in_range rho r v ->
  OnlyLessThanOrEqualTo fuel g r val = true -> v <= val.
Proof using Hacy Hrng.
  intros [_ Hwf] [_ Hm]. unfold OnlyLessThanOrEqualTo. intros H. zbool.
  pose proof (UpperBound_sound _ _ Hwf Hm) as Hl.
  pose proof (UpperBound_const (max_ r)) as Hc.
  destruct (UpperBound fuel g (max_ r)) eqn:E; simpl in *; try done; try lia.
  destruct (Hc ltac:(by intros E'; rewrite E' in Hm) Hwf).
Qed.

Lemma IsUnsatisfiable_sound r v :
  wf_range rho r -> is_sint 64 v -> in_range rho r v -> IsUnsatisfiable fuel g r = false.
Proof using Hacy Hrng Hagr.
  intros Hwf Hv Hin. unfold IsUnsatisfiable.
  destruct (ConstantMin_spec kRangeBoundaryInt64 r v) as (c & -> & _ & Hc); [done..|unfold_consts; lia|].
  destruct (ConstantMax_spec kRangeBoundaryInt64 r v) as (c' & -> & _ & Hc'); [done..|unfold_consts; lia|].
  destruct Hin as [Hm HM]. destruct r as [mn mx]; simpl in *.
  destruct (IsPositiveInfinity mn || IsNegativeInfinity mx) eqn:E.
  { by destruct mn, mx. }
  zif; [lia|]. apply andb_false_iff.
  destruct (DependOnSameSymbol fuel g mn mx) eqn:Ed; [right|by left].
  apply DependOnSameSymbol_inv in Ed as (s & o & s' & o' & -> & -> & Heq). simpl in *.
  rewrite Z.gtb_ltb. apply Z.ltb_ge. lia.
Qed.

(** A range that fits a size contains only values of the size. *)
Lemma Overflowed_const b size :
  constant_or_infinity b -> Overflowed fuel g size b = false ->
  exists c, b = kConstant c /\ in_size size c.
Proof using.
  intros Hb. unfold Overflowed. destruct (Clamp_constant size b Hb) as (c & -> & Hin).
  intros H. destruct b; simpl in H; try done. zbool. subst. eauto.
Qed.

Lemma Fits_sound size r v :
  wf_range rho r -> in_range rho r v -> Fits fuel g size r = true -> in_size size v.
Proof using Hacy Hrng.
  intros [Hw1 Hw2] [Hm HM]. unfold Fits. intros H. zbool.
  assert (Hk1 : min_ r <> kUnknown) by (intros E; by rewrite E in Hm).
  assert (Hk2 : max_ r <> kUnknown) by (intros E; by rewrite E in HM).
  destruct (Overflowed_const _ _ (LowerBound_const _ Hk1 Hw1) H) as (c & Ec & Hc).
  destruct (Overflowed_const _ _ (UpperBound_const _ Hk2 Hw2) H0) as (c' & Ec' & Hc').
  pose proof (LowerBound_sound _ _ Hw1 Hm) as Hl. pose proof (UpperBound_sound _ _ Hw2 HM) as Hu.
  rewrite Ec in Hl. rewrite Ec' in Hu. simpl in *. unfold in_size in *. lia.
Qed.
End SoundGraph.

(** The constructor keeps every value: either both boundaries hold, or the
    range falls back to all 64-bit integers. *)
Lemma mkRange_sound rho min max v :
  is_sint 64 v ->
  (IsInfinity min = false -> IsInfinity max = false ->
     wf_boundary rho min /\ wf_boundary rho max /\ holds_min rho min v /\ holds_max rho max v) ->
  wf_range rho (mkRange min max) /\ in_range rho (mkRange min max) v.
Proof.
  intros Hv H. unfold mkRange. destruct (IsInfinity min || IsInfinity max) eqn:E; zbool.
  - split; split; simpl; unfold_consts; lia.
  - destruct H as (? & ? & ? & ?); [done..|]. done.
Qed.

(** ** A small graph, for examples

    [v1] is the constant 10, [v2] an array length, [v3] an index with range
    [[0, v2 - 1]], [v4] is [v3 - v1], [v5] a constraint on [v3]; the array
    has 100 elements and the index is 7. *)
Definition example_index_range : Range := MkRange (kConstant 0) (kSymbol 2%positive (-1)).
Definition example_graph : graph := fun d =>
  match d with
  | 1%positive => MkDefinition (ConstantInstr (SmiObj 10)) (Some (MkRange (kConstant 10) (kConstant 10)))
  | 2%positive => MkDefinition (LoadFieldInstr kArray_length 77 true 9%positive)
                    (Some (MkRange (kConstant 0) (kConstant kSmiMax)))
  | 3%positive => MkDefinition (OtherInstr 1 [] 0 false) (Some example_index_range)
  | 4%positive => MkDefinition (BinarySmiOpInstr kSUB 3%positive 1%positive true false) None
  | 5%positive => MkDefinition (ConstraintInstr 3%positive example_index_range) None
  | _ => MkDefinition (OtherInstr 0 [] 0 false) None
  end.
Definition example_env : env := fun d =>
  match d with
  | 1%positive => 10 | 2%positive => 100 | 3%positive => 7
  | 4%positive => -3 | 5%positive => 7 | _ => 0
  end.
Definition example_rank : Defn -> nat := fun d =>
  match d with 3%positive => 1%nat | 4%positive | 5%positive => 2%nat | _ => 0%nat end.

(** Case analysis on the first definitions. *)
Ltac defn_cases d := do 4 (try (destruct d as [d|d|]; simpl in *; try done)).

Lemma example_acyclic : acyclic 10 example_graph example_rank.
Proof.
  split; intros d; [|intros r s o|intros r s o|intros v c|intros op l r o t];
    defn_cases d; try (simpl; lia); intros [= <-]; simpl; intros; simplify_eq/=; lia.
Qed.
Lemma example_ranges_hold : ranges_hold example_graph example_env.
Proof.
  intros d r. defn_cases d; intros [= <-]; repeat split; simpl; unfold_consts; lia.
Qed.
Lemma example_agrees : agrees 10 example_graph example_env.
Proof.
  split.
  - intros d v. defn_cases d; intros [= <-]. simpl. unfold_consts. lia.
  - intros d v c. defn_cases d; intros [= <-]; done.
  - intros d l r o t. defn_cases d.
  - intros d l r o t. defn_cases d. intros [= <- <-]. simpl. unfold_consts. lia.
  - intros a b. defn_cases a; defn_cases b.
Qed.
