(* ===== verification/RangeOps.v ===== *)
(** * Range analysis: arithmetic on ranges

    [Range::Add], [Sub], [Mul], [TruncDiv], [Shl], [Shr], [And], [BitwiseOp]
    and their dispatcher [Range::BinaryOp]
    (src/runtime/vm/compiler/backend/range_analysis.cc). Each static method
    writes through [result_min] and [result_max]; here it returns the pair.
    [None] is undefined behaviour: a shift of an [int64_t] by 64 or more, a
    division by zero, a quotient that overflows. *)
From S2P Require Import Prelude Utils Integers Ranges RangeSound.
Local Open Scope Z_scope.
Local Open Scope vm_scope.

(** ** Definitions *)
Definition IsImmutableLengthLoad (slot : SlotKind) : bool :=
  match slot with
  | kArray_length | kTypedDataBase_length | kString_length => true
  | _ => false
  end.

Section Ops.
Context (fuel : nat) (g : graph).

Definition const_min (r : Range) : Z := ConstantValue (ConstantMin fuel g kRangeBoundaryInt64 (Some r)).
Definition const_max (r : Range) : Z := ConstantValue (ConstantMax fuel g kRangeBoundaryInt64 (Some r)).

Definition Range_Shl (left right : Range) : option (RangeBoundary * RangeBoundary) :=
  let left_max := const_max left in
  let left_min := const_min left in
  let right_max := Maximum (const_max right) 0 in
  let right_min := Maximum (const_min right) 0 in
  result_min ← RangeBoundary_Shl (FromConstant left_min)
    (if left_min >? 0 then right_min else right_max)
    (if left_min >? 0 then kPositiveInfinity else kNegativeInfinity);
  result_max ← RangeBoundary_Shl (FromConstant left_max)
    (if left_max >? 0 then right_max else right_min)
    (if left_max >? 0 then kPositiveInfinity else kNegativeInfinity);
  Some (result_min, result_max).

Definition Range_Shr (left right : Range) : option (RangeBoundary * RangeBoundary) :=
  let left_max := const_max left in
  let left_min := const_min left in
  let right_max := Maximum (const_max right) 0 in
  let right_min := Maximum (const_min right) 0 in
  result_min ← RangeBoundary_Shr (FromConstant left_min)
    (if left_min >? 0 then right_max else right_min);
  result_max ← RangeBoundary_Shr (FromConstant left_max)
    (if left_max >? 0 then right_min else right_max);
  Some (result_min, result_max).

Definition BitSize (range : Range) : Z :=
  Maximum (BitLength (const_min range)) (BitLength (const_max range)).

Definition BitwiseOp (left_range right_range : Range) : RangeBoundary * RangeBoundary :=
  let bitsize := Maximum (BitSize left_range) (BitSize right_range) in
  let result_min :=
    if Range_IsPositive fuel g left_range && Range_IsPositive fuel g right_range
    then FromConstant 0
    else FromConstant (s64 (u64 (- u64 (1 <<< bitsize)))) in
  (result_min, FromConstant (s64 (u64 (u64 (1 <<< bitsize) - 1)))).

Definition Range_And (left_range right_range : Range) : RangeBoundary * RangeBoundary :=
  if const_min right_range >=? 0 then (FromConstant 0, ConstantMax fuel g kRangeBoundaryInt64 (Some right_range))
  else if const_min left_range >=? 0 then (FromConstant 0, ConstantMax fuel g kRangeBoundaryInt64 (Some left_range))
  else BitwiseOp left_range right_range.

(** [defn] is [None] for [NULL]. *)
Definition IsArrayLength (defn : option Defn) : bool :=
  match defn with
  | None => false
  | Some d =>
      match instr (g (UnwrapConstraint fuel g d)) with
      | LoadFieldInstr slot _ _ _ => IsImmutableLengthLoad slot
      | _ => false
      end
  end.

Definition length_or (left_defn : option Defn) (b : RangeBoundary) : RangeBoundary :=
  match left_defn with
  | Some d => if IsArrayLength left_defn then FromDefinition g d 0 else b
  | None => b
  end.

Definition Range_Add (left_range right_range : Range) (left_defn : option Defn)
    : RangeBoundary * RangeBoundary :=
  let left_min := length_or left_defn (min_ left_range) in
  let left_max := length_or left_defn (max_ left_range) in
  (default (RangeBoundary_Add (LowerBound fuel g (min_ left_range))
              (LowerBound fuel g (min_ right_range)) kNegativeInfinity)
           (SymbolicAdd g left_min (min_ right_range)),
   default (RangeBoundary_Add (UpperBound fuel g (max_ right_range))
              (UpperBound fuel g (max_ left_range)) kPositiveInfinity)
           (SymbolicAdd g left_max (max_ right_range))).

Definition Range_Sub (left_range right_range : Range) (left_defn : option Defn)
    : RangeBoundary * RangeBoundary :=
  let left_min := length_or left_defn (min_ left_range) in
  let left_max := length_or left_defn (max_ left_range) in
  (default (RangeBoundary_Sub (LowerBound fuel g (min_ left_range))
              (UpperBound fuel g (max_ right_range)) kNegativeInfinity)
           (SymbolicSub g left_min (max_ right_range)),
   default (RangeBoundary_Sub (UpperBound fuel g (max_ left_range))
              (LowerBound fuel g (min_ right_range)) kPositiveInfinity)
           (SymbolicSub g left_max (min_ right_range))).

Definition OnlyPositiveOrZero (a b : Range) : bool :=
  OnlyGreaterThanOrEqualTo fuel g a 0 && OnlyGreaterThanOrEqualTo fuel g b 0.
Definition OnlyNegativeOrZero (a b : Range) : bool :=
  OnlyLessThanOrEqualTo fuel g a 0 && OnlyLessThanOrEqualTo fuel g b 0.

(** [None] is a [NULL] range. *)
Definition ConstantAbsMax (range : option Range) : Z :=
  match range with
  | None => kMaxInt64
  | Some range =>
      let abs_min := AbsWithSaturation 64 (const_min range) in
      let abs_max := AbsWithSaturation 64 (const_max range) in
      Maximum abs_min abs_max
  end.
Definition ConstantAbsMin (range : option Range) : Z :=
  match range with
  | None => 0
  | Some range =>
      let abs_min := AbsWithSaturation 64 (const_min range) in
      let abs_max := AbsWithSaturation 64 (const_max range) in
      Minimum abs_min abs_max
  end.

(** [None]: a division by zero. *)
Definition Range_Mul (left_range right_range : Range) : option (RangeBoundary * RangeBoundary) :=
  let left_max := ConstantAbsMax (Some left_range) in
  let right_max := ConstantAbsMax (Some right_range) in
  fits ← (if (left_max <=? - kSmiMin) && (right_max <=? - kSmiMin) then
            if left_max =? 0 then Some true else q ← c_div kMaxInt64 left_max; Some (right_max <=? q)
          else Some false);
  Some (if fits : bool then
    let mul_max := left_max * right_max in
    if OnlyPositiveOrZero left_range right_range || OnlyNegativeOrZero left_range right_range then
      let mul_min := ConstantAbsMin (Some left_range) * ConstantAbsMin (Some right_range) in
      (FromConstant mul_min, FromConstant mul_max)
    else (FromConstant (- mul_max), FromConstant mul_max)
  else if OnlyPositiveOrZero left_range right_range || OnlyNegativeOrZero left_range right_range then
    (FromConstant 0, kPositiveInfinity)
  else (kNegativeInfinity, kPositiveInfinity)).

Definition Range_TruncDiv (left_range right_range : Range) : option (RangeBoundary * RangeBoundary) :=
  if OnlyGreaterThanOrEqualTo fuel g left_range 0 && OnlyGreaterThanOrEqualTo fuel g right_range 1 then
    let left_max := ConstantAbsMax (Some left_range) in
    let left_min := ConstantAbsMin (Some left_range) in
    let right_max := ConstantAbsMax (Some right_range) in
    let right_min := ConstantAbsMin (Some right_range) in
    result_max ← c_div left_max right_min;
    result_min ← c_div left_min right_max;
    Some (FromConstant result_min, FromConstant result_max)
  else Some (kNegativeInfinity, kPositiveInfinity).

(** [None]: the code runs into undefined behaviour. *)
Definition BinaryOp (op : Token) (left_range right_range : Range) (left_defn : option Defn)
    : option Range :=
  let range '(min, max) := mkRange min max in
  match op with
  | kADD => Some (range (Range_Add left_range right_range left_defn))
  | kSUB => Some (range (Range_Sub left_range right_range left_defn))
  | kMUL => range <$> Range_Mul left_range right_range
  | kTRUNCDIV => range <$> Range_TruncDiv left_range right_range
  | kSHL => range <$> Range_Shl left_range right_range
  | kSHR => range <$> Range_Shr left_range right_range
  | kBIT_AND => Some (range (Range_And left_range right_range))
  | kBIT_XOR | kBIT_OR => Some (range (BitwiseOp left_range right_range))
  | _ => Some (mkRange kNegativeInfinity kPositiveInfinity)
  end.
End Ops.

(** The mathematical result of an operation; [int64_op] is its 64-bit
    truncation. *)
Definition exact_op (op : Token) (x y : Z) : option Z :=
  match op with
  | kADD => Some (x + y)
  | kSUB => Some (x - y)
  | kMUL => Some (x * y)
  | kTRUNCDIV => if y =? 0 then None else Some (Z.quot x y)
  | kMOD => if y =? 0 then None else Some (x mod Z.abs y)
  | kSHL => if y <? 0 then None else Some (x * 2 ^ y)
  | kSHR => if y <? 0 then None else Some (x / 2 ^ y)
  | kBIT_AND => Some (x &&& y)
  | kBIT_OR => Some (x ||| y)
  | kBIT_XOR => Some (x ^^^ y)
  | _ => None
  end.

Lemma int64_op_exact op x y :
  is_sint 64 x -> is_sint 64 y -> int64_op op x y = s64 <$> exact_op op x y.
Proof.
  intros Hx Hy. assert (H := int64_op_sint op x y).
  destruct op; simpl in *; try done; repeat zif; simpl; try done;
    rewrite swrap_id; try done; apply H; done.
Qed.

(** ** Soundness *)
Section OpsSound.
Context (fuel : nat) (g : graph) (rho : env) (rank : Defn -> nat).
Context (Hacy : acyclic fuel g rank) (Hrng : ranges_hold g rho) (Hagr : agrees fuel g rho).

(** What a range operation promises about the mathematical result [e]: the
    truncated result is in the range, and so is [e] itself unless the range
    is that of all 64-bit integers. *)
Definition op_result (res : Range) (e : Z) : Prop :=
  wf_range rho res /\ in_range rho res (s64 e) /\ (res = SetInt64Range \/ in_range rho res e).

Lemma op_result_full e : op_result SetInt64Range e.
Proof using.
  pose proof (swrap_range 64 eq_refl e). split; [|split; [|by left]]; split; simpl; unfold_consts; lia.
Qed.

(** If both boundaries hold for the mathematical result and are finite, no
    wrap-around happened. *)
Lemma mkRange_exact min max e :
  (IsInfinity min = false -> IsInfinity max = false ->
     wf_boundary rho min /\ wf_boundary rho max /\ holds_min rho min e /\ holds_max rho max e) ->
  op_result (mkRange min max) e.
Proof using.
  intros H. unfold mkRange. destruct (IsInfinity min || IsInfinity max) eqn:E; [apply op_result_full|].
  zbool. destruct H as (Hw & Hw' & Hm & HM); [done..|].
  assert (s64 e = e) as Hs.
  { pose proof (holds_min_sint _ _ _ Hw Hm ltac:(by destruct min)).
    pose proof (holds_max_sint _ _ _ Hw' HM ltac:(by destruct max)).
    apply swrap_id; [done|]. unfold is_sint, kMinInt64, kMaxInt64 in *. simpl. lia. }
  split; [done|]. rewrite Hs. split; [done|]. by right.
Qed.

Lemma const_min_spec r v :
  wf_range rho r -> in_range rho r v -> is_sint 64 v ->
  is_sint 64 (const_min fuel g r) /\ const_min fuel g r <= v.
Proof using Hacy Hrng.
  intros Hwf Hin Hv. unfold const_min.
  destruct (ConstantMin_spec fuel g rho rank Hacy Hrng kRangeBoundaryInt64 r v) as (c & -> & Hc & ?);
    [done..|unfold_consts; lia|]. split; [by eapply in_size_sint|done].
Qed.
Lemma const_max_spec r v :
  wf_range rho r -> in_range rho r v -> is_sint 64 v ->
  is_sint 64 (const_max fuel g r) /\ v <= const_max fuel g r.
Proof using Hacy Hrng.
  intros Hwf Hin Hv. unfold const_max.
  destruct (ConstantMax_spec fuel g rho rank Hacy Hrng kRangeBoundaryInt64 r v) as (c & -> & Hc & ?);
    [done..|unfold_consts; lia|]. split; [by eapply in_size_sint|done].
Qed.

(** The sign tests bound the constant range, not only its values. *)
Lemma OnlyGreater_const_min r val v :
  wf_range rho r -> in_range rho r v -> is_sint 64 val ->
  OnlyGreaterThanOrEqualTo fuel g r val = true -> val <= const_min fuel g r.
Proof using Hacy Hrng.
  intros [Hwf _] [Hm _] Hval. unfold OnlyGreaterThanOrEqualTo, const_min, ConstantMin. intros H. zbool.
  assert (Hk : min_ r <> kUnknown) by (intros E; by rewrite E in Hm).
  pose proof (LowerBound_const fuel g rho rank Hacy Hrng _ Hk Hwf).
  pose proof (LowerBound_not_pos fuel g (min_ r)).
  destruct (LowerBound fuel g (min_ r)); simpl in *; try done.
  unfold_consts. zifs; simpl; lia.
Qed.
Lemma OnlyLess_const_max r val v :
  wf_range rho r -> in_range rho r v -> is_sint 64 val ->
  OnlyLessThanOrEqualTo fuel g r val = true -> const_max fuel g r <= val.
Proof using Hacy Hrng.
  intros [_ Hwf] [_ Hm] Hval. unfold OnlyLessThanOrEqualTo, const_max, ConstantMax. intros H. zbool.
  assert (Hk : max_ r <> kUnknown) by (intros E; by rewrite E in Hm).
  pose proof (UpperBound_const fuel g rho rank Hacy Hrng _ Hk Hwf).
  pose proof (UpperBound_not_neg fuel g (max_ r)).
  destruct (UpperBound fuel g (max_ r)); simpl in *; try done.
  unfold_consts. zifs; simpl; lia.
Qed.

(** *** Addition and subtraction *)
Lemma length_or_spec ld b x :
  wf_boundary rho b ->
  (forall d, ld = Some d -> rho d = x) -> (IsArrayLength fuel g ld = true -> is_smi x) ->
  wf_boundary rho (length_or fuel g ld b) /\
  (holds_min rho b x -> holds_min rho (length_or fuel g ld b) x) /\
  (holds_max rho b x -> holds_max rho (length_or fuel g ld b) x).
Proof using Hagr.
  intros Hb Hd Hl. unfold length_or. destruct ld as [d|]; [|done].
  destruct (IsArrayLength fuel g (Some d)); [|done].
  rewrite <- (Hd d eq_refl) in *.
  destruct (FromDefinition_spec fuel g rho Hagr d 0 (Hl eq_refl) eq_refl) as [Hw Hv].
  split; [done|]. destruct (Hv (rho d)) as [-> ->]. lia.
Qed.

Section Operands.
Context (l r : Range) (x y : Z).
Context (Hl : wf_range rho l) (Hr : wf_range rho r).
Context (Hx : in_range rho l x) (Hy : in_range rho r y).
Context (Sx : is_sint 64 x) (Sy : is_sint 64 y).

Let min_l_known : min_ l <> kUnknown.
Proof. intros E. destruct Hx as [H _]. by rewrite E in H. Qed.
Let max_l_known : max_ l <> kUnknown.
Proof. intros E. destruct Hx as [_ H]. by rewrite E in H. Qed.
Let min_r_known : min_ r <> kUnknown.
Proof. intros E. destruct Hy as [H _]. by rewrite E in H. Qed.
Let max_r_known : max_ r <> kUnknown.
Proof. intros E. destruct Hy as [_ H]. by rewrite E in H. Qed.

Lemma default_holds (P : RangeBoundary -> Prop) o d :
  (forall b, o = Some b -> P b) -> P d -> P (default d o).
Proof using. destruct o; simpl; auto. Qed.

Lemma bounds_const :
  constant_or_infinity (LowerBound fuel g (min_ l)) /\
  constant_or_infinity (LowerBound fuel g (min_ r)) /\
  constant_or_infinity (UpperBound fuel g (max_ l)) /\
  constant_or_infinity (UpperBound fuel g (max_ r)).
Proof using All.
  destruct Hl, Hr. repeat split;
    (eapply LowerBound_const || eapply UpperBound_const); eauto.
Qed.

Lemma bounds_hold :
  holds_min rho (LowerBound fuel g (min_ l)) x /\
  holds_min rho (LowerBound fuel g (min_ r)) y /\
  holds_max rho (UpperBound fuel g (max_ l)) x /\
  holds_max rho (UpperBound fuel g (max_ r)) y.
Proof using All.
  destruct Hl, Hr, Hx, Hy. repeat split;
    (eapply LowerBound_sound || eapply UpperBound_sound); eauto.
Qed.

Lemma Range_Add_sound ld :
  (forall d, ld = Some d -> rho d = x) -> (IsArrayLength fuel g ld = true -> is_smi x) ->
  let '(min, max) := Range_Add fuel g l r ld in
  op_result (mkRange min max) (x + y).
Proof using All.
  intros Hd Hlen. unfold Range_Add. apply mkRange_exact. intros _ _.
  destruct bounds_const as (C1 & C2 & C3 & C4), bounds_hold as (B1 & B2 & B3 & B4).
  destruct Hl as [Hl1 Hl2], Hr as [Hr1 Hr2], Hx as [Hx1 Hx2], Hy as [Hy1 Hy2].
  destruct (length_or_spec ld (min_ l) x Hl1 Hd Hlen) as (W1 & M1 & _).
  destruct (length_or_spec ld (max_ l) x Hl2 Hd Hlen) as (W2 & _ & M2).
  repeat split; apply default_holds.
  - intros b Hb. by apply (SymbolicAdd_sound fuel g rho Hagr _ _ _ W1 Hr1 Hb).
  - by apply const_wf, RangeBoundary_Add_const.
  - intros b Hb. by apply (SymbolicAdd_sound fuel g rho Hagr _ _ _ W2 Hr2 Hb).
  - by apply const_wf, RangeBoundary_Add_const.
  - intros b Hb. apply (SymbolicAdd_sound fuel g rho Hagr _ _ _ W1 Hr1 Hb); auto.
  - by apply RangeBoundary_Add_min.
  - intros b Hb. apply (SymbolicAdd_sound fuel g rho Hagr _ _ _ W2 Hr2 Hb); auto.
  - rewrite Z.add_comm. by apply RangeBoundary_Add_max.
Qed.

Lemma Range_Sub_sound ld :
  (forall d, ld = Some d -> rho d = x) -> (IsArrayLength fuel g ld = true -> is_smi x) ->
  let '(min, max) := Range_Sub fuel g l r ld in
  op_result (mkRange min max) (x - y).
Proof using All.
  intros Hd Hlen. unfold Range_Sub. apply mkRange_exact. intros _ _.
  destruct bounds_const as (C1 & C2 & C3 & C4), bounds_hold as (B1 & B2 & B3 & B4).
  destruct Hl as [Hl1 Hl2], Hr as [Hr1 Hr2], Hx as [Hx1 Hx2], Hy as [Hy1 Hy2].
  destruct (length_or_spec ld (min_ l) x Hl1 Hd Hlen) as (W1 & M1 & _).
  destruct (length_or_spec ld (max_ l) x Hl2 Hd Hlen) as (W2 & _ & M2).
  repeat split; apply default_holds.
  - intros b Hb. by apply (SymbolicSub_sound fuel g rho Hagr _ _ _ W1 Hr2 Hb).
  - by apply const_wf, RangeBoundary_Sub_const.
  - intros b Hb. by apply (SymbolicSub_sound fuel g rho Hagr _ _ _ W2 Hr1 Hb).
  - by apply const_wf, RangeBoundary_Sub_const.
  - intros b Hb. apply (SymbolicSub_sound fuel g rho Hagr _ _ _ W1 Hr2 Hb); auto.
  - by apply RangeBoundary_Sub_min.
  - intros b Hb. apply (SymbolicSub_sound fuel g rho Hagr _ _ _ W2 Hr1 Hb); auto.
  - by apply RangeBoundary_Sub_max.
Qed.

(** *** Constant ranges of the operands *)
Lemma operand_consts :
  let a := const_min fuel g l in let b := const_max fuel g l in
  let c := const_min fuel g r in let d := const_max fuel g r in
  is_sint 64 a /\ is_sint 64 b /\ is_sint 64 c /\ is_sint 64 d /\
  a <= x <= b /\ c <= y <= d.
Proof using All.
  destruct (const_min_spec l x Hl Hx Sx), (const_max_spec l x Hl Hx Sx).
  destruct (const_min_spec r y Hr Hy Sy), (const_max_spec r y Hr Hy Sy). done.
Qed.

(** A finite result of a boundary shift is exact. *)
Lemma RangeBoundary_Shl_exact c n ov b :
  is_sint 64 c -> 0 <= n -> IsInfinity ov = true ->
  RangeBoundary_Shl (FromConstant c) n ov = Some b -> IsInfinity b = false ->
  b = kConstant (c * 2 ^ n) /\ is_sint 64 (c * 2 ^ n).
Proof using.
  intros Hc Hn Ho. unfold RangeBoundary_Shl. simpl. zif; [|intros [= <-]; by rewrite Ho].
  unfold int64_shl. zif; simpl; [|done]. intros [= <-] _.
  assert (Hs : is_sint 64 (c * 2 ^ n)).
  { destruct E as [E|E]; [apply orb_true_iff in E as [E|E]|]; zbool; subst.
    - done.
    - by rewrite Z.mul_1_r.
    - match goal with H : IsInt _ _ = true |- _ => apply IsInt_spec in H; [|lia] end.
      assert (Hp : 2 ^ (64 - 1) = 2 ^ (64 - n - 1) * 2 ^ n)
        by (rewrite <- Z.pow_add_r by lia; f_equal; lia).
      unfold is_sint. rewrite Hp. nia. }
  rewrite Z.shiftl_mul_pow2, swrap_id by (done || lia). done.
Qed.

Lemma Range_Shl_sound min max v :
  Range_Shl fuel g l r = Some (min, max) -> exact_op kSHL x y = Some v ->
  op_result (mkRange min max) v.
Proof using All.
  pose proof operand_consts as (Ha & Hb & Hc & Hd & Hxb & Hyb).
  simpl. destruct (Z.ltb_spec y 0) as [|Hy0]; [done|]. intros H [= <-]. revert H.
  unfold Range_Shl. rewrite !Maximum_eq. cbv zeta. revert Ha Hb Hc Hd Hxb Hyb.
  set (a := const_min fuel g l). set (b := const_max fuel g l).
  set (c := Z.max (const_min fuel g r) 0). set (d := Z.max (const_max fuel g r) 0).
  intros Ha Hb _ _ Hxb Hyb. assert (Hcd : 0 <= c <= y /\ y <= d) by lia.
  intros (bmin & E1 & (bmax & E2 & [= <- <-])%bind_Some)%bind_Some.
  apply mkRange_exact. intros I1 I2.
  apply RangeBoundary_Shl_exact in E1 as [-> ?]; [|done|zif; lia|by zif|done].
  apply RangeBoundary_Shl_exact in E2 as [-> ?]; [|done|zif; lia|by zif|done].
  split; [done|]. split; [done|]. simpl.
  assert (2 ^ c <= 2 ^ y <= 2 ^ d) by (split; apply Z.pow_le_mono_r; lia).
  assert (0 < 2 ^ c) by lia. split; zif; nia.
Qed.

Lemma div_pow2_mono u v m n :
  0 <= m -> 0 <= n -> u <= v -> (0 < u -> n <= m) -> (v <= 0 -> m <= n) ->
  u / 2 ^ m <= v / 2 ^ n.
Proof using.
  intros Hm Hn Huv H1 H2.
  assert (0 < 2 ^ m /\ 0 < 2 ^ n) by lia.
  destruct (Z.lt_ge_cases 0 u) as [Hu|Hu].
  { assert (2 ^ n <= 2 ^ m) by (apply Z.pow_le_mono_r; lia).
    transitivity (u / 2 ^ n); [apply Z.div_le_compat_l; lia|apply Z.div_le_mono; lia]. }
  assert (u / 2 ^ m <= 0) by (apply Z.div_le_upper_bound; nia).
  apply Z.div_le_lower_bound; [lia|].
  destruct (Z.lt_ge_cases 0 v); [nia|].
  assert (2 ^ m <= 2 ^ n) by (apply Z.pow_le_mono_r; lia).
  pose proof (Z.mul_div_le u (2 ^ m)). nia.
Qed.

Lemma Range_Shr_sound min max v :
  Range_Shr fuel g l r = Some (min, max) -> exact_op kSHR x y = Some v ->
  op_result (mkRange min max) v.
Proof using All.
  pose proof operand_consts as (Ha & Hb & Hc & Hd & Hxb & Hyb).
  simpl. destruct (Z.ltb_spec y 0) as [|Hy0]; [done|]. intros H [= <-]. revert H.
  unfold Range_Shr. rewrite !Maximum_eq. cbv zeta. revert Ha Hb Hc Hd Hxb Hyb.
  set (a := const_min fuel g l). set (b := const_max fuel g l).
  set (c := Z.max (const_min fuel g r) 0). set (d := Z.max (const_max fuel g r) 0).
  intros Ha Hb _ _ Hxb Hyb. assert (Hcd : 0 <= c <= y /\ y <= d) by lia.
  intros (bmin & (m & E1 & [= <-])%bind_Some & (bmax & (n & E2 & [= <-])%bind_Some & [= <- <-])%bind_Some)%bind_Some.
  revert E1 E2. unfold int64_shr. simpl ConstantValue.
  do 2 (destruct (_ && _); [|done]). intros [= <-] [= <-].
  apply mkRange_exact. intros _ _. simpl.
  rewrite !Z.shiftr_div_pow2 by (zif; lia).
  do 2 (split; [apply shr_sint; [done|zif; lia]|]).
  split; (apply div_pow2_mono; try zif; lia).
Qed.

(** *** Bitwise operations *)
Lemma pow2_consts n :
  0 <= n <= 63 ->
  s64 (u64 (- u64 (1 <<< n))) = - 2 ^ n /\ s64 (u64 (u64 (1 <<< n) - 1)) = 2 ^ n - 1.
Proof using.
  intros Hn. rewrite Z.shiftl_1_l.
  assert (Hp : 1 <= 2 ^ n <= 2 ^ 63)
    by (split; [|apply Z.pow_le_mono_r]; lia).
  rewrite (uwrap_id 64 (2 ^ n)) by (unfold is_uint; lia).
  rewrite (uwrap_id 64 (2 ^ n - 1)) by (unfold is_uint; lia).
  rewrite (swrap_id 64 eq_refl (2 ^ n - 1)) by (unfold is_sint; simpl; lia).
  split; [|done]. destruct (uwrap_spec 64 eq_refl (- 2 ^ n)) as [k ->].
  apply (swrap_unique 64 eq_refl) with (k := - k); [|lia]. unfold is_sint. simpl. lia.
Qed.

Lemma BitSize_spec q z :
  is_sint 64 (const_min fuel g q) -> is_sint 64 (const_max fuel g q) ->
  const_min fuel g q <= z <= const_max fuel g q ->
  0 <= BitSize fuel g q <= 63 /\
  forall n, BitSize fuel g q <= n -> is_sint (n + 1) z.
Proof using.
  intros Ha Hb Hz. unfold BitSize. rewrite Maximum_eq.
  destruct (BitLength_bound _ Ha) as [La Ra], (BitLength_bound _ Hb) as [Lb Rb].
  split; [lia|]. intros n Hn. unfold is_sint. replace (n + 1 - 1) with n by lia.
  assert (2 ^ BitLength (const_min fuel g q) <= 2 ^ n) by (apply Z.pow_le_mono_r; lia).
  assert (2 ^ BitLength (const_max fuel g q) <= 2 ^ n) by (apply Z.pow_le_mono_r; lia).
  lia.
Qed.

Lemma BitwiseOp_sound (f : Z -> Z -> Z) :
  (forall w a b, 0 < w -> is_sint w a -> is_sint w b -> is_sint w (f a b)) ->
  (forall a b, 0 <= a -> 0 <= b -> 0 <= f a b) ->
  let '(min, max) := BitwiseOp fuel g l r in
  op_result (mkRange min max) (f x y).
Proof using All.
  pose proof operand_consts as (Ha & Hb & Hc & Hd & Hxb & Hyb). intros Hf Hpos.
  destruct (BitSize_spec l x Ha Hb Hxb) as [Nl Sl], (BitSize_spec r y Hc Hd Hyb) as [Nr Sr].
  unfold BitwiseOp. rewrite Maximum_eq. cbv zeta.
  set (n := BitSize fuel g l `max` BitSize fuel g r).
  destruct (pow2_consts n) as [-> ->]; [lia|].
  assert (Hfs : is_sint (n + 1) (f x y)) by (apply Hf; [lia|apply Sl; lia|apply Sr; lia]).
  unfold is_sint in Hfs. replace (n + 1 - 1) with n in Hfs by lia.
  assert (1 <= 2 ^ n <= 2 ^ 63) by (split; [|apply Z.pow_le_mono_r]; lia).
  apply mkRange_exact. intros _ _.
  unfold Range_IsPositive. zif; simpl; unfold is_sint; simpl; repeat split; try lia.
  apply Hpos.
  - by apply (OnlyGreaterThanOrEqualTo_sound fuel g rho rank Hacy Hrng l 0 x).
  - by apply (OnlyGreaterThanOrEqualTo_sound fuel g rho rank Hacy Hrng r 0 y).
Qed.

Lemma land_nonneg_bound a b : 0 <= a -> 0 <= a &&& b <= a.
Proof using.
  intros Ha. assert (H0 : 0 <= a &&& b) by (apply Z.land_nonneg; lia). split; [done|].
  pose proof (Z.ldiff_nonneg a (a &&& b)) as Hd.
  assert (Hsub : Z.ldiff (a &&& b) a = 0).
  { apply Z.bits_inj'. intros i Hi. rewrite Z.ldiff_spec, Z.land_spec, Z.bits_0.
    by destruct (Z.testbit a i), (Z.testbit b i). }
  assert (a - (a &&& b) = Z.ldiff a (a &&& b)) by (by apply Z.sub_nocarry_ldiff). lia.
Qed.

Lemma ConstantMax_const q z :
  wf_range rho q -> in_range rho q z -> is_sint 64 z ->
  ConstantMax fuel g kRangeBoundaryInt64 (Some q) = kConstant (const_max fuel g q).
Proof using All.
  intros Hwf Hin Hz. unfold const_max.
  destruct (ConstantMax_spec fuel g rho rank Hacy Hrng kRangeBoundaryInt64 q z) as (c & -> & _);
    [done..|unfold_consts; lia|done].
Qed.

Lemma Range_And_sound :
  let '(min, max) := Range_And fuel g l r in
  op_result (mkRange min max) (x &&& y).
Proof using All.
  pose proof operand_consts as (Ha & Hb & Hc & Hd & Hxb & Hyb).
  assert (Hs : is_sint 64 (x &&& y)) by (by apply land_sint).
  unfold Range_And. rewrite (ConstantMax_const l x), (ConstantMax_const r y) by done.
  zif; [|zif].
  - apply mkRange_exact. intros _ _. simpl. rewrite Z.land_comm.
    pose proof (land_nonneg_bound y x). unfold is_sint in *. simpl in *. lia.
  - apply mkRange_exact. intros _ _. simpl.
    pose proof (land_nonneg_bound x y). unfold is_sint in *. simpl in *. lia.
  - apply (BitwiseOp_sound Z.land); [apply land_sint|]. intros. apply Z.land_nonneg. lia.
Qed.

(** *** Multiplication and division *)
Lemma ConstantAbs_spec q z :
  is_sint 64 (const_min fuel g q) -> is_sint 64 (const_max fuel g q) ->
  const_min fuel g q <= z <= const_max fuel g q ->
  0 <= ConstantAbsMin fuel g (Some q) <= ConstantAbsMax fuel g (Some q) /\
  ConstantAbsMax fuel g (Some q) <= kMaxInt64 /\
  Z.min (Z.abs z) kMaxInt64 <= ConstantAbsMax fuel g (Some q) /\
  (0 <= const_min fuel g q \/ const_max fuel g q <= 0 ->
   ConstantAbsMin fuel g (Some q) <= Z.abs z).
Proof using.
  intros Ha Hb Hz. unfold ConstantAbsMin, ConstantAbsMax.
  rewrite Minimum_eq, Maximum_eq, !AbsWithSaturation_eq by done.
  unfold is_sint, kMaxInt64 in *. simpl in *. lia.
Qed.

Lemma same_sign :
  OnlyPositiveOrZero fuel g l r || OnlyNegativeOrZero fuel g l r = true ->
  (0 <= const_min fuel g l /\ 0 <= const_min fuel g r) \/
  (const_max fuel g l <= 0 /\ const_max fuel g r <= 0).
Proof using All.
  unfold OnlyPositiveOrZero, OnlyNegativeOrZero. intros H.
  apply orb_true_iff in H as [H|H]; zbool; [left|right]; split.
  - by apply (OnlyGreater_const_min l 0 x).
  - by apply (OnlyGreater_const_min r 0 y).
  - by apply (OnlyLess_const_max l 0 x).
  - by apply (OnlyLess_const_max r 0 y).
Qed.

Lemma mul_bounds a b ma mb Ma Mb :
  0 <= ma <= Z.abs a -> 0 <= mb <= Z.abs b -> Z.abs a <= Ma -> Z.abs b <= Mb ->
  ma * mb <= Z.abs (a * b) <= Ma * Mb.
Proof using. intros. rewrite Z.abs_mul. nia. Qed.

Lemma Range_Mul_sound :
  exists min max, Range_Mul fuel g l r = Some (min, max) /\ op_result (mkRange min max) (x * y).
Proof using All.
  pose proof operand_consts as (Ha & Hb & Hc & Hd & Hxb & Hyb).
  destruct (ConstantAbs_spec l x Ha Hb Hxb) as (L1 & L2 & L3 & L4).
  destruct (ConstantAbs_spec r y Hc Hd Hyb) as (R1 & R2 & R3 & R4).
  unfold Range_Mul. cbv zeta. revert L1 L2 L3 L4 R1 R2 R3 R4.
  set (La := ConstantAbsMin fuel g (Some l)). set (Lb := ConstantAbsMax fuel g (Some l)).
  set (Ra := ConstantAbsMin fuel g (Some r)). set (Rb := ConstantAbsMax fuel g (Some r)). intros.
  assert (Hfits : exists fits : bool, (if (Lb <=? - kSmiMin) && (Rb <=? - kSmiMin) then
      if Lb =? 0 then Some true else q ← c_div kMaxInt64 Lb; Some (Rb <=? q) else Some false) = Some fits /\ (fits = true -> Lb <= 2 ^ 62 /\ Rb <= 2 ^ 62 /\ Lb * Rb <= 2 ^ 63 - 1)).
  { destruct (_ && _) eqn:E; [|by exists false]. zbool. unfold kSmiMin, kSmiBits, kBitsPerWord in *. simpl in *. destruct (Z.eqb_spec Lb 0) as [HL|HL]; [exists true; split; [done|rewrite HL; lia]|].
    unfold c_div, c_div_undefined. rewrite (proj2 (Z.eqb_neq Lb 0) HL). replace (kMaxInt64 =? kMinInt64) with false by done.
    cbn [orb andb mbind option_bind]. eexists. split; [done|]. intros HR. zbool. split; [lia|]. split; [lia|]. change (2 ^ 63 - 1) with kMaxInt64.
    apply (Z.le_trans _ (Lb * Z.quot kMaxInt64 Lb)); [apply Z.mul_le_mono_nonneg_l; [lia|done]|]. by apply Z.mul_quot_le. }
  destruct Hfits as ([] & -> & Hm); cbn [mbind option_bind]; eexists _, _; (split; [apply f_equal, surjective_pairing|]).
  - destruct (Hm eq_refl) as (HL62 & HR62 & HM). clear Hm. unfold kMaxInt64 in *. simpl in *. destruct (OnlyPositiveOrZero fuel g l r || OnlyNegativeOrZero fuel g l r) eqn:S; cbn [fst snd].
    + apply same_sign in S. pose proof (mul_bounds x y La Ra Lb Rb) as B. assert (0 <= x * y) by nia.
      apply mkRange_exact. intros _ _. simpl. unfold is_sint. simpl. lia.
    + pose proof (mul_bounds x y 0 0 Lb Rb) as B. apply mkRange_exact. intros _ _. simpl. unfold is_sint. simpl. lia.
  - zif; cbn [fst snd]; apply mkRange_exact; done.
Qed.

Lemma ConstantAbs_nonneg q :
  is_sint 64 (const_max fuel g q) -> 0 <= const_min fuel g q <= const_max fuel g q ->
  ConstantAbsMin fuel g (Some q) = const_min fuel g q /\
  ConstantAbsMax fuel g (Some q) = const_max fuel g q.
Proof using.
  unfold is_sint. simpl. intros Hb Hz. unfold ConstantAbsMin, ConstantAbsMax.
  rewrite Minimum_eq, Maximum_eq, !AbsWithSaturation_eq by (unfold is_sint; simpl; lia).
  unfold kMaxInt64. lia.
Qed.

Lemma quot_bounds a b u v n m :
  0 <= a <= u -> u <= b -> 1 <= n <= v -> v <= m ->
  Z.quot a m <= Z.quot u v <= Z.quot b n.
Proof using.
  intros. rewrite !Z.quot_div_nonneg by lia. split.
  - transitivity (a / v); [apply Z.div_le_compat_l|apply Z.div_le_mono]; lia.
  - transitivity (u / n); [apply Z.div_le_compat_l|apply Z.div_le_mono]; lia.
Qed.

Lemma Range_TruncDiv_sound v :
  exact_op kTRUNCDIV x y = Some v ->
  exists min max, Range_TruncDiv fuel g l r = Some (min, max) /\ op_result (mkRange min max) v.
Proof using All.
  intros Hv. pose proof operand_consts as (Ha & Hb & Hc & Hd & Hxb & Hyb).
  unfold Range_TruncDiv. cbv zeta. zif; [|eexists _, _; split; [done|]; by apply mkRange_exact].
  apply (OnlyGreater_const_min l 0 x) in H; [|done..].
  apply (OnlyGreater_const_min r 1 y) in H0; [|done..].
  destruct (ConstantAbs_nonneg l) as [-> ->]; [done|lia|].
  destruct (ConstantAbs_nonneg r) as [-> ->]; [done|lia|].
  unfold c_div, c_div_undefined. rewrite (proj2 (Z.eqb_neq (const_min fuel g r) 0)), (proj2 (Z.eqb_neq (const_min fuel g r) (-1))),
    (proj2 (Z.eqb_neq (const_max fuel g r) 0)), (proj2 (Z.eqb_neq (const_max fuel g r) (-1))), !andb_false_r by lia. cbn [orb mbind option_bind].
  eexists _, _. split; [done|]. simpl in Hv. destruct (Z.eqb_spec y 0); [lia|]. injection Hv as <-.
  apply mkRange_exact. intros _ _. simpl.
  do 2 (split; [apply quot_sint; (done || lia)|]). apply quot_bounds; lia.
Qed.

(** [Range::BinaryOp] as a whole. *)
Lemma BinaryOp_operands op ld res v :
  (forall d, ld = Some d -> rho d = x) -> (IsArrayLength fuel g ld = true -> is_smi x) ->
  BinaryOp fuel g op l r ld = Some res -> exact_op op x y = Some v ->
  op_result res v.
Proof using All.
  intros Hd Hlen Hb Hv.
  destruct op; cbn [BinaryOp] in Hb; try (injection Hb as <-; by apply mkRange_exact).
  - pose proof (BitwiseOp_sound Z.lor lor_sint) as H. destruct (BitwiseOp _ _ _ _).
    simplify_eq/=. apply H. intros. apply Z.lor_nonneg. lia.
  - pose proof (BitwiseOp_sound Z.lxor lxor_sint) as H. destruct (BitwiseOp _ _ _ _).
    simplify_eq/=. apply H. intros. apply Z.lxor_nonneg. lia.
  - pose proof Range_And_sound as H. destruct (Range_And _ _ _ _). by simplify_eq/=.
  - apply fmap_Some in Hb as ([min max] & Hs & ->). by apply Range_Shl_sound.
  - apply fmap_Some in Hb as ([min max] & Hs & ->). by apply Range_Shr_sound.
  - pose proof (Range_Add_sound ld Hd Hlen) as H. destruct (Range_Add _ _ _ _ _).
    by simplify_eq/=.
  - pose proof (Range_Sub_sound ld Hd Hlen) as H. destruct (Range_Sub _ _ _ _ _).
    by simplify_eq/=.
  - destruct Range_Mul_sound as (min & max & E & H). rewrite E in Hb. injection Hb as <-. by injection Hv as <-.
  - destruct (Range_TruncDiv_sound v Hv) as (min & max & E & H). rewrite E in Hb. by injection Hb as <-.
Qed.
Lemma BinaryOp_operands_defined op ld v : op <> kSHL -> op <> kSHR -> exact_op op x y = Some v -> is_Some (BinaryOp fuel g op l r ld).
Proof using All.
  intros H1 H2 Hv. destruct op; try done; cbn [BinaryOp].
  - destruct Range_Mul_sound as (min & max & -> & _). done.
  - destruct (Range_TruncDiv_sound v Hv) as (min & max & -> & _). done.
Qed.
End Operands.
End OpsSound.

(** ** Properties *)

(** C2: [Range::BinaryOp] is sound: if the operands lie in their ranges, the
    64-bit result of the operation (wrap-around included) lies in the computed
    range, whose boundaries are well formed; and the computation is defined (no division
    by zero, no quotient that overflows) for every operation but the shifts, which
    [BinaryOp_defined] and [BinaryOp_shift_undefined] are about. *)
Theorem BinaryOp_sound fuel g rho rank op l r ld x y v :
  acyclic fuel g rank -> ranges_hold g rho -> agrees fuel g rho ->
  wf_range rho l -> wf_range rho r -> in_range rho l x -> in_range rho r y ->
  is_sint 64 x -> is_sint 64 y ->
  (forall d, ld = Some d -> rho d = x) -> (IsArrayLength fuel g ld = true -> is_smi x) ->
  int64_op op x y = Some v ->
  (op <> kSHL -> op <> kSHR -> is_Some (BinaryOp fuel g op l r ld)) /\
  forall res, BinaryOp fuel g op l r ld = Some res -> wf_range rho res /\ in_range rho res v.
Proof.
  intros Ha Hr Hg Wl Wr Hx Hy Sx Sy Hd Hl Hv. rewrite int64_op_exact in Hv by done.
  apply fmap_Some in Hv as (e & He & ->). split.
  - intros H1 H2. by apply (BinaryOp_operands_defined fuel g rho rank Ha Hr Hg l r x y Wl Wr Hx Hy Sx Sy op ld e).
  - intros res Hb. by destruct (BinaryOp_operands fuel g rho rank Ha Hr Hg l r x y Wl Wr Hx Hy Sx Sy op ld res e) as (? & ? & _).
Qed.

(** [length - constant] keeps the symbol: the range of [v2 - 10]. *)
Lemma BinaryOp_sound_witness :
  let res := MkRange (kSymbol 2%positive (-10)) (kSymbol 2%positive (-10)) in
  BinaryOp 10 example_graph kSUB (Full kRangeBoundarySmi) (MkRange (kConstant 10) (kConstant 10))
    (Some 2%positive) = Some res /\
  wf_range example_env res /\ in_range example_env res 90.
Proof.
  intros res. split; [done|].
  apply (BinaryOp_sound 10 example_graph example_env example_rank kSUB (Full kRangeBoundarySmi)
           (MkRange (kConstant 10) (kConstant 10)) (Some 2%positive) 100 10 90).
  - apply example_acyclic.
  - apply example_ranges_hold.
  - apply example_agrees.
  - split; simpl; unfold_consts; lia.
  - split; simpl; unfold_consts; lia.
  - split; simpl; unfold_consts; lia.
  - split; simpl; lia.
  - unfold is_sint; lia.
  - unfold is_sint; lia.
  - intros d [= <-]. reflexivity.
  - intros _. unfold_consts. lia.
  - reflexivity.
  - reflexivity.
Defined.

(** The shift by [n] of a boundary is defined for a count below 64. *)
Lemma RangeBoundary_Shl_defined b n ov : 0 <= n < 64 -> is_Some (RangeBoundary_Shl b n ov).
Proof. intros H. unfold RangeBoundary_Shl, int64_shl. zif; [|done]. zif; [done|lia]. Qed.
Lemma RangeBoundary_Shr_defined b n : 0 <= n < 64 -> is_Some (RangeBoundary_Shr b n).
Proof. intros H. unfold RangeBoundary_Shr, int64_shr. zif; [done|lia]. Qed.

(** [Range::BinaryOp] has no undefined behaviour when shift counts are
    below 64, and for every operation that is not a shift or a division, which
    [BinaryOp_sound] is about. *)
Lemma Range_Mul_defined fuel g l r : is_Some (Range_Mul fuel g l r).
Proof.
  unfold Range_Mul. cbv zeta. destruct (_ && _); [|done]. destruct (Z.eqb_spec (ConstantAbsMax fuel g (Some l)) 0) as [|HL]; [done|].
  unfold c_div, c_div_undefined. rewrite (proj2 (Z.eqb_neq _ 0) HL). done.
Qed.
Theorem BinaryOp_defined fuel g op l r ld : op <> kTRUNCDIV ->
  (op = kSHL \/ op = kSHR -> const_min fuel g r < 64 /\ const_max fuel g r < 64) ->
  is_Some (BinaryOp fuel g op l r ld).
Proof.
  intros Hop H. destruct op; cbn [BinaryOp]; try done; try (by destruct (Range_Mul_defined fuel g l r) as [? ->]); destruct H as [H1 H2]; auto.
  - unfold Range_Shl. rewrite !Maximum_eq.
    destruct (RangeBoundary_Shl_defined (FromConstant (const_min fuel g l))
      (if const_min fuel g l >? 0 then const_min fuel g r `max` 0 else const_max fuel g r `max` 0)
      (if const_min fuel g l >? 0 then kPositiveInfinity else kNegativeInfinity)) as [b ->]; [zif; lia|].
    destruct (RangeBoundary_Shl_defined (FromConstant (const_max fuel g l))
      (if const_max fuel g l >? 0 then const_max fuel g r `max` 0 else const_min fuel g r `max` 0)
      (if const_max fuel g l >? 0 then kPositiveInfinity else kNegativeInfinity)) as [c ->]; [zif; lia|].
    done.
  - unfold Range_Shr. rewrite !Maximum_eq.
    destruct (RangeBoundary_Shr_defined (FromConstant (const_min fuel g l))
      (if const_min fuel g l >? 0 then const_max fuel g r `max` 0 else const_min fuel g r `max` 0)) as [b ->];
      [zif; lia|].
    destruct (RangeBoundary_Shr_defined (FromConstant (const_max fuel g l))
      (if const_max fuel g l >? 0 then const_min fuel g r `max` 0 else const_max fuel g r `max` 0)) as [c ->];
      [zif; lia|].
    done.
Qed.

(** Shifts of a Smi by a count in [[0, 63]]. *)
Lemma BinaryOp_defined_witness :
  is_Some (BinaryOp 10 example_graph kSHR (Full kRangeBoundarySmi) (MkRange (kConstant 0) (kConstant 63)) None).
Proof. apply (BinaryOp_defined 10 example_graph kSHR); [discriminate|]. intros _. split; reflexivity. Defined.

(** The count that [Range::Shr] and [Range::Shl] hand to the C++ shift is
    not limited: with a shift count whose range is unknown (any Smi), [>>] of
    a left operand that is known to be positive or known not to be positive
    reaches [value >> shift_count] with a count of 64 or more, and so does
    [<<] of the constant 0. *)
Theorem BinaryOp_shift_undefined :
  BinaryOp 10 example_graph kSHR (MkRange (kConstant 1) (kConstant 5)) (Full kRangeBoundarySmi) None = None /\
  BinaryOp 10 example_graph kSHR (MkRange (kConstant (-5)) (kConstant 0)) (Full kRangeBoundarySmi) None = None /\
  BinaryOp 10 example_graph kSHL (MkRange (kConstant 0) (kConstant 0)) (Full kRangeBoundarySmi) None = None.
Proof. repeat split; reflexivity. Qed.
