(* ===== verification/RangeCanon.v ===== *)
(** * Range analysis: canonicalization, joins and intersections

    Symbolic boundaries are compared after both have been rewritten to the
    same symbol: through constraints and additions of constants
    ([CanonicalizeBoundary]), and through the symbolic range of their symbol
    ([CanonicalizeMinBoundary], [CanonicalizeMaxBoundary]). The joins and
    intersections of boundaries (range_analysis.cc) are built on that. *)
From S2P Require Import Prelude Utils Integers Ranges RangeSound.
Local Open Scope Z_scope.
Local Open Scope vm_scope.

(** ** Definitions *)
Section Canon.
Context (fuel : nat) (g : graph).

(** The [do ... while (changed)] loop; [n] bounds its iterations and
    [kUnknown] stands for exhaustion. A constant operand of a
    [BinarySmiOpInstr] is a Smi ([Smi::Cast] asserts it): the loop stops on
    any other constant. The code does not look at [is_truncating]. *)
Fixpoint CanonicalizeBoundary_loop (n : nat) (symbol : Defn) (offset : Z)
    (overflow : RangeBoundary) : RangeBoundary :=
  match n with
  | O => kUnknown
  | S n =>
      let done :=
        if negb (IsValidOffsetForSymbolicRangeBoundary offset) then overflow
        else FromDefinition g symbol offset in
      let add operand rhs :=
        if WillAddOverflow offset rhs then overflow
        else CanonicalizeBoundary_loop n operand (offset + rhs) overflow in
      let sub operand rhs :=
        if WillSubOverflow offset rhs then overflow
        else CanonicalizeBoundary_loop n operand (offset - rhs) overflow in
      match instr (g symbol) with
      | ConstraintInstr value _ => CanonicalizeBoundary_loop n value offset overflow
      | BinarySmiOpInstr kADD left_ right_ _ _ =>
          match instr (g right_), instr (g left_) with
          | ConstantInstr (SmiObj rhs), _ => add left_ rhs
          | ConstantInstr _, _ => done
          | _, ConstantInstr (SmiObj rhs) => add right_ rhs
          | _, _ => done
          end
      | BinarySmiOpInstr kSUB left_ right_ _ _ =>
          match instr (g right_) with
          | ConstantInstr (SmiObj rhs) => sub left_ rhs
          | _ => done
          end
      | _ => done
      end
  end.
Definition CanonicalizeBoundary (a overflow : RangeBoundary) : RangeBoundary :=
  match a with
  | kSymbol symbol offset => CanonicalizeBoundary_loop fuel symbol offset overflow
  | _ => a
  end.

(** [None] is the result [false]; [Some a'] is [true] with [*a] set to [a']. *)
Definition CanonicalizeMaxBoundary (a : RangeBoundary) : option RangeBoundary :=
  match a with
  | kSymbol s a_offset =>
      match range_ (g s) with
      | Some (MkRange _ (kSymbol s' max_offset)) =>
          if WillAddOverflow max_offset a_offset then Some kPositiveInfinity
          else
            let offset := max_offset + a_offset in
            if negb (IsValidOffsetForSymbolicRangeBoundary offset) then Some kPositiveInfinity
            else Some (CanonicalizeBoundary (FromDefinition g s' offset) kPositiveInfinity)
      | _ => None
      end
  | _ => None
  end.
Definition CanonicalizeMinBoundary (a : RangeBoundary) : option RangeBoundary :=
  match a with
  | kSymbol s a_offset =>
      match range_ (g s) with
      | Some (MkRange (kSymbol s' min_offset) _) =>
          if WillAddOverflow min_offset a_offset then Some kNegativeInfinity
          else
            let offset := min_offset + a_offset in
            if negb (IsValidOffsetForSymbolicRangeBoundary offset) then Some kNegativeInfinity
            else Some (CanonicalizeBoundary (FromDefinition g s' offset) kNegativeInfinity)
      | _ => None
      end
  | _ => None
  end.

(** [op_a] and [op_b] are tried in this order, as [op(a) || op(b)]. *)
Fixpoint Canonicalize_loop (n : nat) (op_a op_b : RangeBoundary -> option RangeBoundary)
    (a b : RangeBoundary) : option (RangeBoundary * RangeBoundary) :=
  match n with
  | O => None
  | S n =>
      if DependOnSameSymbol fuel g a b then Some (a, b)
      else
        match op_a a with
        | Some a' => Canonicalize_loop n op_a op_b a' b
        | None =>
            match op_b b with
            | Some b' => Canonicalize_loop n op_a op_b a b'
            | None => None
            end
        end
  end.
Definition canon_fuel : nat := S (2 * fuel).
Definition CanonicalizeForComparison (a b : RangeBoundary)
    (op : RangeBoundary -> option RangeBoundary) : option (RangeBoundary * RangeBoundary) :=
  if negb (IsSymbol a) || negb (IsSymbol b) then None
  else Canonicalize_loop canon_fuel op op a b.

Definition JoinMin (a b : RangeBoundary) (size : RangeSize) : RangeBoundary :=
  if RangeBoundary_Equals fuel g a b then b
  else
    match CanonicalizeForComparison a b CanonicalizeMinBoundary with
    | Some (a, b) => if boundary_offset a <=? boundary_offset b then a else b
    | None =>
        let inf_a := LowerBound_size fuel g size a in
        let inf_b := LowerBound_size fuel g size b in
        let sup_a := UpperBound_size fuel g size a in
        let sup_b := UpperBound_size fuel g size b in
        if (sup_a <=? inf_b) && negb (Overflowed fuel g size (LowerBound fuel g a)) then a
        else if (sup_b <=? inf_a) && negb (Overflowed fuel g size (LowerBound fuel g b)) then b
        else FromConstant (Minimum inf_a inf_b)
    end.
Definition JoinMax (a b : RangeBoundary) (size : RangeSize) : RangeBoundary :=
  if RangeBoundary_Equals fuel g a b then b
  else
    match CanonicalizeForComparison a b CanonicalizeMaxBoundary with
    | Some (a, b) => if boundary_offset a >=? boundary_offset b then a else b
    | None =>
        let inf_a := LowerBound_size fuel g size a in
        let inf_b := LowerBound_size fuel g size b in
        let sup_a := UpperBound_size fuel g size a in
        let sup_b := UpperBound_size fuel g size b in
        if (sup_a <=? inf_b) && negb (Overflowed fuel g size (UpperBound fuel g b)) then b
        else if (sup_b <=? inf_a) && negb (Overflowed fuel g size (UpperBound fuel g a)) then a
        else FromConstant (Maximum sup_a sup_b)
    end.

Definition IntersectionMin (a b : RangeBoundary) : RangeBoundary :=
  if RangeBoundary_Equals fuel g a b then a
  else if IsMinimumOrBelow kRangeBoundarySmi a then b
  else if IsMinimumOrBelow kRangeBoundarySmi b then a
  else
    match CanonicalizeForComparison a b CanonicalizeMinBoundary with
    | Some (a, b) => if boundary_offset a >=? boundary_offset b then a else b
    | None => if SmiLowerBound fuel g a >=? SmiLowerBound fuel g b then a else b
    end.
Definition IntersectionMax (a b : RangeBoundary) : RangeBoundary :=
  if RangeBoundary_Equals fuel g a b then a
  else if IsMaximumOrAbove kRangeBoundarySmi a then b
  else if IsMaximumOrAbove kRangeBoundarySmi b then a
  else
    match CanonicalizeForComparison a b CanonicalizeMaxBoundary with
    | Some (a, b) => if boundary_offset a <=? boundary_offset b then a else b
    | None => if SmiUpperBound fuel g a <=? SmiUpperBound fuel g b then a else b
    end.
Definition Intersect (r other : Range) : Range :=
  mkRange (IntersectionMin (min_ r) (min_ other)) (IntersectionMax (max_ r) (max_ other)).
End Canon.

(** ** Soundness *)

(** [bounds rho b e]: the boundary [b] denotes the integer [e]. *)
Definition bounds (rho : env) (b : RangeBoundary) (e : Z) : Prop :=
  match b with
  | kConstant c => e = c
  | kSymbol s o => e = rho s + o
  | _ => False
  end.

Lemma bounds_min rho b e v : bounds rho b e -> holds_min rho b v <-> e <= v.
Proof. destruct b; simpl; try done; intros ->; done. Qed.
Lemma bounds_max rho b e v : bounds rho b e -> holds_max rho b v <-> v <= e.
Proof. destruct b; simpl; try done; intros ->; done. Qed.

Section CanonSound.
Context (fuel : nat) (g : graph) (rho : env) (rank : Defn -> nat).
Context (Hacy : acyclic fuel g rank) (Hrng : ranges_hold g rho) (Hagr : agrees fuel g rho).

(** The number of steps canonicalization can still take from a boundary. *)
Definition steps (b : RangeBoundary) : nat :=
  match b with kSymbol s _ => S (rank s) | _ => O end.

(** A rewritten boundary: the overflow boundary, or a well-formed one that
    denotes the same integer and is not further from the end of its chain. *)
Definition rewrites (s : Defn) (offset : Z) (overflow b : RangeBoundary) : Prop :=
  b = overflow \/
  (wf_boundary rho b /\ bounds rho b (rho s + offset) /\ (steps b <= S (rank s))%nat).

Lemma FromDefinition_rewrites s offset overflow :
  is_smi (rho s) ->
  rewrites s offset overflow
    (if negb (IsValidOffsetForSymbolicRangeBoundary offset) then overflow
     else FromDefinition g s offset).
Proof using Hagr.
  intros Hs. destruct (IsValidOffsetForSymbolicRangeBoundary offset) eqn:E; simpl; [|by left].
  right. destruct (FromDefinition_spec fuel g rho Hagr s offset Hs E) as [Hw _].
  split; [done|]. unfold FromDefinition.
  destruct (instr (g s)) as [[]| | | |] eqn:Ei; simpl; try (split; [done|lia]).
  apply (agrees_constant _ _ _ Hagr) in Ei as [-> _]. split; [done|lia].
Qed.

Lemma rewrites_step s s' offset offset' overflow b :
  rho s + offset = rho s' + offset' -> (rank s' < rank s)%nat ->
  rewrites s' offset' overflow b -> rewrites s offset overflow b.
Proof using.
  intros He Hr [->|(Hw & Hb & Hs)]; [by left|]. right. rewrite He. split_and!; [done..|lia].
Qed.

Lemma CanonicalizeBoundary_loop_spec n s offset overflow :
  (rank s < n)%nat -> is_smi (rho s) -> is_sint 64 offset ->
  rewrites s offset overflow (CanonicalizeBoundary_loop g n s offset overflow).
Proof using All.
  revert s offset. induction n as [|n IH]; intros s offset Hn Hs Ho; [lia|].
  pose proof (FromDefinition_rewrites s offset overflow Hs) as Hdone. simpl.
  assert (Hadd : forall s' c, rho s = rho s' + c -> is_smi (rho s') -> is_smi c -> (rank s' < rank s)%nat ->
    rewrites s offset overflow (if WillAddOverflow offset c then overflow
      else CanonicalizeBoundary_loop g n s' (offset + c) overflow)).
  { intros s' c Hv Hs' Hc Hr. destruct (WillAddOverflow offset c) eqn:E; [by left|].
    apply WillAddOverflow_spec in E; [|done|unfold_consts; lia].
    apply (rewrites_step s s' offset (offset + c)); [lia..|]. apply IH; [lia|done..]. }
  destruct (instr (g s)) as [c|value c|op lhs rhs ov tr| |] eqn:Ei; try done.
  - pose proof (rank_constraint _ _ _ Hacy _ _ _ Ei).
    pose proof (agrees_constraint _ _ _ Hagr _ _ _ Ei) as Hv. rewrite Hv in Hs.
    apply (rewrites_step s value offset offset); [lia..|]. apply IH; [lia|done..].
  - destruct op; try done; pose proof (rank_binop _ _ _ Hacy _ _ _ _ _ _ Ei) as [Hrl Hrr].
    + destruct (agrees_add _ _ _ Hagr _ _ _ _ _ Ei) as (Hv & Sl & Sr).
      destruct (instr (g rhs)) as [[]| | | |] eqn:Er; try done;
        [|destruct (instr (g lhs)) as [[]| | | |] eqn:El; try done..].
      { apply (agrees_constant _ _ _ Hagr) in Er as [<- _]. by apply Hadd. }
      all: apply (agrees_constant _ _ _ Hagr) in El as [<- _]; apply Hadd; (done || lia).
    + destruct (agrees_sub _ _ _ Hagr _ _ _ _ _ Ei) as (Hv & Sl & Sr).
      destruct (instr (g rhs)) as [[]| | | |] eqn:Er; try done.
      apply (agrees_constant _ _ _ Hagr) in Er as [<- _].
      destruct (WillSubOverflow offset (rho rhs)) eqn:E; [by left|].
      apply WillSubOverflow_spec in E; [|done|unfold_consts; lia].
      apply (rewrites_step s lhs offset (offset - rho rhs)); [lia..|]. apply IH; [lia|done..].
Qed.

Lemma CanonicalizeBoundary_spec s offset overflow :
  wf_boundary rho (kSymbol s offset) ->
  rewrites s offset overflow (CanonicalizeBoundary fuel g (kSymbol s offset) overflow).
Proof using All.
  intros [Hs Ho]. apply CanonicalizeBoundary_loop_spec; [apply (rank_lt _ _ _ Hacy)|done|].
  by apply valid_offset_sint.
Qed.

(** *** Rewriting through the range of the symbol

    [weaker_min b b']: [b'] is implied by [b] as a lower boundary, and
    canonicalization has fewer steps left. *)
Definition weaker_min (b b' : RangeBoundary) : Prop :=
  wf_boundary rho b' /\ (forall v, holds_min rho b v -> holds_min rho b' v).
Definition weaker_max (b b' : RangeBoundary) : Prop :=
  wf_boundary rho b' /\ (forall v, holds_max rho b v -> holds_max rho b' v).

Lemma rewrite_symbolic s o overflow :
  is_smi (rho s) -> IsValidOffsetForSymbolicRangeBoundary o = true -> IsInfinity overflow = true ->
  rewrites s o overflow (CanonicalizeBoundary fuel g (FromDefinition g s o) overflow).
Proof using All.
  intros Hs Ho Hov. destruct (FromDefinition g s o) as [| | |s' o'|c] eqn:E.
  1-3: by (unfold FromDefinition in E; destruct (instr (g s)) as [[]| | | |]).
  - assert (s' = s /\ o' = o) as [-> ->].
    { unfold FromDefinition in E. destruct (instr (g s)) as [[]| | | |]; by simplify_eq. }
    by apply CanonicalizeBoundary_spec.
  - pose proof (FromDefinition_rewrites s o overflow Hs) as Hf. rewrite Ho in Hf. simpl in Hf.
    by rewrite E in Hf.
Qed.

Lemma CanonicalizeMaxBoundary_spec b b' :
  wf_boundary rho b -> CanonicalizeMaxBoundary fuel g b = Some b' ->
  weaker_max b b' /\ (steps b' < steps b)%nat.
Proof using All.
  intros Hwf. destruct b as [| | |s o|]; simpl; try done. destruct Hwf as [Hs Ho].
  destruct (range_ (g s)) as [[mn [| | |s' o'|]]|] eqn:Er; try done.
  destruct (Hrng _ _ Er) as [[_ [Hs' Ho']] [_ Hmax]]. simpl in Hmax.
  pose proof (rank_max _ _ _ Hacy _ _ _ _ Er eq_refl) as Hr.
  destruct (WillAddOverflow o' o); [by intros [= <-]; split; [|simpl; lia]|].
  destruct (IsValidOffsetForSymbolicRangeBoundary (o' + o)) eqn:Eo; simpl; [|by intros [= <-]; split; [|simpl; lia]].
  intros [= <-].
  destruct (rewrite_symbolic s' (o' + o) kPositiveInfinity Hs' Eo eq_refl) as [->|(Hw & Hb & Hl)].
  { by split; [|simpl; lia]. }
  split; [|lia]. split; [done|]. intros v. rewrite (bounds_max _ _ _ v Hb). simpl. lia.
Qed.

Lemma CanonicalizeMinBoundary_spec b b' :
  wf_boundary rho b -> CanonicalizeMinBoundary fuel g b = Some b' ->
  weaker_min b b' /\ (steps b' < steps b)%nat.
Proof using All.
  intros Hwf. destruct b as [| | |s o|]; simpl; try done. destruct Hwf as [Hs Ho].
  destruct (range_ (g s)) as [[[| | |s' o'|] mx]|] eqn:Er; try done.
  destruct (Hrng _ _ Er) as [[[Hs' Ho'] _] [Hmin _]]. simpl in Hmin.
  pose proof (rank_min _ _ _ Hacy _ _ _ _ Er eq_refl) as Hr.
  destruct (WillAddOverflow o' o); [by intros [= <-]; split; [|simpl; lia]|].
  destruct (IsValidOffsetForSymbolicRangeBoundary (o' + o)) eqn:Eo; simpl; [|by intros [= <-]; split; [|simpl; lia]].
  intros [= <-].
  destruct (rewrite_symbolic s' (o' + o) kNegativeInfinity Hs' Eo eq_refl) as [->|(Hw & Hb & Hl)].
  { by split; [|simpl; lia]. }
  split; [|lia]. split; [done|]. intros v. rewrite (bounds_min _ _ _ v Hb). simpl. lia.
Qed.

(** *** The comparison loop *)
Lemma Canonicalize_loop_inv n op_a op_b (Pa Pb : RangeBoundary -> Prop) a b a' b' :
  (forall c c', Pa c -> op_a c = Some c' -> Pa c') ->
  (forall c c', Pb c -> op_b c = Some c' -> Pb c') ->
  Pa a -> Pb b -> Canonicalize_loop fuel g n op_a op_b a b = Some (a', b') ->
  Pa a' /\ Pb b' /\ DependOnSameSymbol fuel g a' b' = true.
Proof using.
  intros HA HB. revert a b. induction n as [|n IH]; intros a b Ha Hb; simpl; [done|].
  destruct (DependOnSameSymbol fuel g a b) eqn:E; [by intros [= <- <-]|].
  destruct (op_a a) eqn:Ea; [by eauto|]. destruct (op_b b) eqn:Eb; [by eauto|done].
Qed.

(** Enough fuel: more of it gives the same result. *)
Lemma Canonicalize_loop_fuel n op_a op_b (P : RangeBoundary -> Prop) a b :
  (forall c c', P c -> op_a c = Some c' -> P c' /\ (steps c' < steps c)%nat) ->
  (forall c c', P c -> op_b c = Some c' -> P c' /\ (steps c' < steps c)%nat) ->
  P a -> P b -> (steps a + steps b < n)%nat ->
  Canonicalize_loop fuel g n op_a op_b a b =
  Canonicalize_loop fuel g (S (steps a + steps b)) op_a op_b a b.
Proof using.
  intros HA HB. revert a b.
  enough (H : forall m n a b, P a -> P b -> (steps a + steps b < n)%nat -> (steps a + steps b < m)%nat ->
    Canonicalize_loop fuel g n op_a op_b a b = Canonicalize_loop fuel g m op_a op_b a b)
    by (intros; apply H; (done || lia)).
  induction m as [|m IH]; intros k a b Ha Hb Hk Hm; [lia|]. destruct k as [|k]; [lia|]. simpl.
  destruct (DependOnSameSymbol fuel g a b); [done|].
  destruct (op_a a) eqn:Ea.
  { destruct (HA _ _ Ha Ea). apply IH; (done || lia). }
  destruct (op_b b) eqn:Eb; [|done]. destruct (HB _ _ Hb Eb). apply IH; (done || lia).
Qed.

Lemma steps_bound b : (steps b <= fuel)%nat.
Proof using Hacy. destruct b; simpl; try lia. pose proof (rank_lt _ _ _ Hacy symbol). lia. Qed.

Lemma same_symbol_bounds a b :
  DependOnSameSymbol fuel g a b = true ->
  exists e, bounds rho a (e + boundary_offset a) /\ bounds rho b (e + boundary_offset b).
Proof using Hagr.
  intros H. destruct (DependOnSameSymbol_inv fuel g rho Hagr _ _ H) as (s & o & s' & o' & -> & -> & E).
  exists (rho s). simpl. lia.
Qed.

Lemma weaker_min_trans a b c : weaker_min a b -> weaker_min b c -> weaker_min a c.
Proof using. intros [_ H] [W H']. split; [done|]. auto. Qed.
Lemma weaker_max_trans a b c : weaker_max a b -> weaker_max b c -> weaker_max a c.
Proof using. intros [_ H] [W H']. split; [done|]. auto. Qed.

(** After a successful comparison both boundaries are implied by the
    original ones and denote a common value plus their offsets. *)
Lemma CanonicalizeForComparison_min a b a' b' :
  wf_boundary rho a -> wf_boundary rho b ->
  CanonicalizeForComparison fuel g a b (CanonicalizeMinBoundary fuel g) = Some (a', b') ->
  weaker_min a a' /\ weaker_min b b' /\
  exists e, bounds rho a' (e + boundary_offset a') /\ bounds rho b' (e + boundary_offset b').
Proof using All.
  intros Ha Hb. unfold CanonicalizeForComparison. zif; [done|]. intros H'.
  apply (Canonicalize_loop_inv _ _ _ (weaker_min a) (weaker_min b)) in H' as (? & ? & ?); [| | |done|done].
  - split; [done|]. split; [done|]. by apply same_symbol_bounds.
  - intros c c' Hc Hc'. eapply weaker_min_trans; [done|]. destruct Hc. by apply CanonicalizeMinBoundary_spec.
  - intros c c' Hc Hc'. eapply weaker_min_trans; [done|]. destruct Hc. by apply CanonicalizeMinBoundary_spec.
Qed.
Lemma CanonicalizeForComparison_max a b a' b' :
  wf_boundary rho a -> wf_boundary rho b ->
  CanonicalizeForComparison fuel g a b (CanonicalizeMaxBoundary fuel g) = Some (a', b') ->
  weaker_max a a' /\ weaker_max b b' /\
  exists e, bounds rho a' (e + boundary_offset a') /\ bounds rho b' (e + boundary_offset b').
Proof using All.
  intros Ha Hb. unfold CanonicalizeForComparison. zif; [done|]. intros H'.
  apply (Canonicalize_loop_inv _ _ _ (weaker_max a) (weaker_max b)) in H' as (? & ? & ?); [| | |done|done].
  - split; [done|]. split; [done|]. by apply same_symbol_bounds.
  - intros c c' Hc Hc'. eapply weaker_max_trans; [done|]. destruct Hc. by apply CanonicalizeMaxBoundary_spec.
  - intros c c' Hc Hc'. eapply weaker_max_trans; [done|]. destruct Hc. by apply CanonicalizeMaxBoundary_spec.
Qed.

(** *** Constant bounds of finite boundaries *)
Lemma bounds_known b e : bounds rho b e -> b <> kUnknown.
Proof using. by destruct b. Qed.

Lemma LowerBound_size_spec size b e :
  wf_boundary rho b -> bounds rho b e ->
  in_size size (LowerBound_size fuel g size b) /\
  forall v, e <= v -> size_min size <= v -> LowerBound_size fuel g size b <= v.
Proof using Hacy Hrng.
  intros Hw Hb. unfold LowerBound_size.
  pose proof (LowerBound_const fuel g rho rank Hacy Hrng b (bounds_known _ _ Hb) Hw) as Hc.
  destruct (Clamp_constant size _ Hc) as (c & Ec & Hs). rewrite Ec. simpl. split; [done|]. intros v Hv Hm.
  assert (holds_min rho (LowerBound fuel g b) v) as Hl.
  { apply (LowerBound_sound fuel g rho rank Hacy Hrng); [done|]. by apply (bounds_min _ _ _ _ Hb). }
  apply (Clamp_min_sound _ size) in Hl; [|done]. by rewrite Ec in Hl.
Qed.
Lemma UpperBound_size_spec size b e :
  wf_boundary rho b -> bounds rho b e ->
  in_size size (UpperBound_size fuel g size b) /\
  forall v, v <= e -> v <= size_max size -> v <= UpperBound_size fuel g size b.
Proof using Hacy Hrng.
  intros Hw Hb. unfold UpperBound_size.
  pose proof (UpperBound_const fuel g rho rank Hacy Hrng b (bounds_known _ _ Hb) Hw) as Hc.
  destruct (Clamp_constant size _ Hc) as (c & Ec & Hs). rewrite Ec. simpl. split; [done|]. intros v Hv Hm.
  assert (holds_max rho (UpperBound fuel g b) v) as Hl.
  { apply (UpperBound_sound fuel g rho rank Hacy Hrng); [done|]. by apply (bounds_max _ _ _ _ Hb). }
  apply (Clamp_max_sound _ size) in Hl; [|done]. by rewrite Ec in Hl.
Qed.

(** *** Joins and intersections *)
Section Two.
Context (a b : RangeBoundary) (ea eb : Z).
Context (Wa : wf_boundary rho a) (Wb : wf_boundary rho b).
Context (Ba : bounds rho a ea) (Bb : bounds rho b eb).

(** The value a join or intersection returns is one of the operands, a
    canonical form of one of them, or a constant. *)
Lemma JoinMin_holds size v :
  ea <= size_max size -> eb <= size_max size -> in_size size v -> Z.min ea eb <= v ->
  wf_boundary rho (JoinMin fuel g a b size) /\ holds_min rho (JoinMin fuel g a b size) v.
Proof using All.
  intros Ha Hb [Hv HV] Hm. unfold JoinMin.
  destruct (RangeBoundary_Equals fuel g a b) eqn:E.
  { destruct (RangeBoundary_Equals_sound fuel g rho Hagr a b E v) as [H _].
    rewrite (bounds_min _ _ _ v Ba), (bounds_min _ _ _ v Bb) in H.
    split; [done|]. apply (bounds_min _ _ _ v Bb). lia. }
  destruct (CanonicalizeForComparison _ _ _ _ _) as [[a' b']|] eqn:Ec.
  { apply CanonicalizeForComparison_min in Ec as ([Wa' Ha'] & [Wb' Hb'] & e & Be & Be'); [|done..].
    specialize (Ha' v). specialize (Hb' v).
    rewrite (bounds_min _ _ _ v Ba), (bounds_min _ _ _ v Be) in Ha'.
    rewrite (bounds_min _ _ _ v Bb), (bounds_min _ _ _ v Be') in Hb'.
    zif; (split; [done|]); eapply bounds_min; try done; lia. }
  destruct (LowerBound_size_spec size a ea Wa Ba) as [Sa La], (LowerBound_size_spec size b eb Wb Bb) as [Sb Lb].
  destruct (UpperBound_size_spec size a ea Wa Ba) as [_ Ua], (UpperBound_size_spec size b eb Wb Bb) as [_ Ub].
  specialize (La v). specialize (Lb v). specialize (Ua ea). specialize (Ub eb).
  rewrite Minimum_eq. zif; [|zif].
  - split; [done|]. apply (bounds_min _ _ _ v Ba). lia.
  - split; [done|]. apply (bounds_min _ _ _ v Bb). lia.
  - split; [|simpl; lia]. simpl. destruct (Z.min_spec (LowerBound_size fuel g size a) (LowerBound_size fuel g size b)) as [[_ ->]|[_ ->]];
      by eapply in_size_sint.
Qed.

Lemma JoinMax_holds size v :
  size_min size <= ea -> size_min size <= eb -> in_size size v -> v <= Z.max ea eb ->
  wf_boundary rho (JoinMax fuel g a b size) /\ holds_max rho (JoinMax fuel g a b size) v.
Proof using All.
  intros Ha Hb [Hv HV] Hm. unfold JoinMax.
  destruct (RangeBoundary_Equals fuel g a b) eqn:E.
  { destruct (RangeBoundary_Equals_sound fuel g rho Hagr a b E v) as [_ H].
    rewrite (bounds_max _ _ _ v Ba), (bounds_max _ _ _ v Bb) in H.
    split; [done|]. apply (bounds_max _ _ _ v Bb). lia. }
  destruct (CanonicalizeForComparison _ _ _ _ _) as [[a' b']|] eqn:Ec.
  { apply CanonicalizeForComparison_max in Ec as ([Wa' Ha'] & [Wb' Hb'] & e & Be & Be'); [|done..].
    specialize (Ha' v). specialize (Hb' v).
    rewrite (bounds_max _ _ _ v Ba), (bounds_max _ _ _ v Be) in Ha'.
    rewrite (bounds_max _ _ _ v Bb), (bounds_max _ _ _ v Be') in Hb'.
    zif; (split; [done|]); eapply bounds_max; try done; lia. }
  destruct (LowerBound_size_spec size a ea Wa Ba) as [_ La], (LowerBound_size_spec size b eb Wb Bb) as [_ Lb].
  destruct (UpperBound_size_spec size a ea Wa Ba) as [Sa Ua], (UpperBound_size_spec size b eb Wb Bb) as [Sb Ub].
  specialize (La ea). specialize (Lb eb). specialize (Ua v). specialize (Ub v).
  rewrite Maximum_eq. zif; [|zif].
  - split; [done|]. apply (bounds_max _ _ _ v Bb). lia.
  - split; [done|]. apply (bounds_max _ _ _ v Ba). lia.
  - split; [|simpl; lia]. simpl. destruct (Z.max_spec (UpperBound_size fuel g size a) (UpperBound_size fuel g size b)) as [[_ ->]|[_ ->]];
      by eapply in_size_sint.
Qed.
End Two.

Lemma IntersectionMin_holds a b v :
  wf_boundary rho a -> wf_boundary rho b -> holds_min rho a v -> holds_min rho b v ->
  wf_boundary rho (IntersectionMin fuel g a b) /\ holds_min rho (IntersectionMin fuel g a b) v.
Proof using All.
  intros Wa Wb Ha Hb. unfold IntersectionMin. do 3 (zif; [done|]).
  destruct (CanonicalizeForComparison _ _ _ _ _) as [[a' b']|] eqn:Ec; [|by zif].
  apply CanonicalizeForComparison_min in Ec as ([Wa' Ha'] & [Wb' Hb'] & _); [|done..].
  zif; auto.
Qed.
Lemma IntersectionMax_holds a b v :
  wf_boundary rho a -> wf_boundary rho b -> holds_max rho a v -> holds_max rho b v ->
  wf_boundary rho (IntersectionMax fuel g a b) /\ holds_max rho (IntersectionMax fuel g a b) v.
Proof using All.
  intros Wa Wb Ha Hb. unfold IntersectionMax. do 3 (zif; [done|]).
  destruct (CanonicalizeForComparison _ _ _ _ _) as [[a' b']|] eqn:Ec; [|by zif].
  apply CanonicalizeForComparison_max in Ec as ([Wa' Ha'] & [Wb' Hb'] & _); [|done..].
  zif; auto.
Qed.
End CanonSound.

Lemma Intersect_holds fuel g rho rank r other v :
  acyclic fuel g rank -> ranges_hold g rho -> agrees fuel g rho ->
  wf_range rho r -> wf_range rho other -> in_range rho r v -> in_range rho other v -> is_sint 64 v ->
  wf_range rho (Intersect fuel g r other) /\ in_range rho (Intersect fuel g r other) v.
Proof.
  intros Hacy Hrng Hagr [] [] [] [] Hv. apply mkRange_sound; [done|]. intros _ _.
  destruct (IntersectionMin_holds fuel g rho rank Hacy Hrng Hagr (min_ r) (min_ other) v); [done..|].
  destruct (IntersectionMax_holds fuel g rho rank Hacy Hrng Hagr (max_ r) (max_ other) v); [done..|].
  done.
Qed.

(** ** Properties *)

(** [Range::Intersect] keeps every value of both ranges: a value in both
    operands is in the computed range, and its boundaries are well formed. *)
Theorem Intersect_sound fuel g rho rank r other v :
  acyclic fuel g rank -> ranges_hold g rho -> agrees fuel g rho ->
  wf_range rho r -> wf_range rho other -> in_range rho r v -> in_range rho other v -> is_sint 64 v ->
  wf_range rho (Intersect fuel g r other) /\ in_range rho (Intersect fuel g r other) v.
Proof. apply Intersect_holds. Qed.

(** The index [v3] in [[0, v2 - 1]] that is also at most [v2 - 50]. *)
Lemma Intersect_sound_witness :
  let r := MkRange (kConstant 0) (kSymbol 2%positive (-50)) in
  Intersect 10 example_graph example_index_range r = r /\ in_range example_env r 7.
Proof.
  intros r. split; [reflexivity|].
  apply (Intersect_sound 10 example_graph example_env example_rank example_index_range r 7).
  - apply example_acyclic.
  - apply example_ranges_hold.
  - apply example_agrees.
  - repeat split; simpl; unfold_consts; lia.
  - repeat split; simpl; unfold_consts; lia.
  - split; simpl; lia.
  - split; simpl; lia.
  - unfold is_sint; lia.
Defined.

(** [RangeBoundary::JoinMin] and [JoinMax] compute boundaries of a union:
    if the boundaries of both ranges denote integers within the size, every
    value of that size in either range is above the joined minimum and below
    the joined maximum. *)
Theorem Join_boundaries_sound fuel g rho rank a b a' b' ea eb ea' eb' size v :
  acyclic fuel g rank -> ranges_hold g rho -> agrees fuel g rho ->
  wf_range rho (MkRange a a') -> wf_range rho (MkRange b b') ->
  bounds rho a ea -> bounds rho b eb -> bounds rho a' ea' -> bounds rho b' eb' ->
  in_size size ea -> in_size size eb -> in_size size ea' -> in_size size eb' ->
  in_size size v -> ea <= v <= ea' \/ eb <= v <= eb' ->
  let joined := MkRange (JoinMin fuel g a b size) (JoinMax fuel g a' b' size) in
  wf_range rho joined /\ in_range rho joined v.
Proof.
  intros Hacy Hrng Hagr [] [] Ba Bb Ba' Bb' [] [] [] [] Hv Hin joined.
  destruct (JoinMin_holds fuel g rho rank Hacy Hrng Hagr a b ea eb) with (size := size) (v := v);
    [done..|lia|].
  destruct (JoinMax_holds fuel g rho rank Hacy Hrng Hagr a' b' ea' eb') with (size := size) (v := v);
    [done..|lia|].
  done.
Qed.

(** [[0, v2 - 1]] joined with [[3, v2 - 50]]. *)
Lemma Join_boundaries_sound_witness :
  let joined := MkRange (JoinMin 10 example_graph (kConstant 0) (kConstant 3) kRangeBoundarySmi)
                        (JoinMax 10 example_graph (kSymbol 2%positive (-1)) (kSymbol 2%positive (-50)) kRangeBoundarySmi) in
  joined = MkRange (kConstant 0) (kSymbol 2%positive (-1)) /\
  wf_range example_env joined /\ in_range example_env joined 60.
Proof.
  intros joined. split; [reflexivity|].
  apply (Join_boundaries_sound 10 example_graph example_env example_rank
           (kConstant 0) (kConstant 3) (kSymbol 2%positive (-1)) (kSymbol 2%positive (-50)) 0 3 99 50).
  - apply example_acyclic.
  - apply example_ranges_hold.
  - apply example_agrees.
  - repeat split; simpl; unfold_consts; lia.
  - repeat split; simpl; unfold_consts; lia.
  - reflexivity.
  - reflexivity.
  - reflexivity.
  - reflexivity.
  - unfold_consts; lia.
  - unfold_consts; lia.
  - unfold_consts; lia.
  - unfold_consts; lia.
  - unfold_consts; lia.
  - lia.
Defined.

(** the comparison loop of [CanonicalizeForComparison] terminates: in an
    acyclic graph its result does not depend on the iteration bound, once the
    bound is at least [canon_fuel], and the same holds for the mixed loop of
    [CheckArrayBoundInstr::IsRedundant]. *)
Theorem Canonicalize_loop_terminates fuel g rho rank n a b :
  acyclic fuel g rank -> ranges_hold g rho -> agrees fuel g rho ->
  wf_boundary rho a -> wf_boundary rho b -> (canon_fuel fuel <= n)%nat ->
  forall op_a op_b,
    op_a = CanonicalizeMinBoundary fuel g \/ op_a = CanonicalizeMaxBoundary fuel g ->
    op_b = CanonicalizeMinBoundary fuel g \/ op_b = CanonicalizeMaxBoundary fuel g ->
    Canonicalize_loop fuel g n op_a op_b a b = Canonicalize_loop fuel g (canon_fuel fuel) op_a op_b a b.
Proof.
  intros Hacy Hrng Hagr Wa Wb Hn op_a op_b Ha Hb.
  assert (Hop : forall op, op = CanonicalizeMinBoundary fuel g \/ op = CanonicalizeMaxBoundary fuel g ->
    forall c c', wf_boundary rho c -> op c = Some c' -> wf_boundary rho c' /\ (steps rank c' < steps rank c)%nat).
  { intros op [->| ->] c c' Hc Hc'.
    - destruct (CanonicalizeMinBoundary_spec fuel g rho rank Hacy Hrng Hagr c c' Hc Hc') as [[]]. done.
    - destruct (CanonicalizeMaxBoundary_spec fuel g rho rank Hacy Hrng Hagr c c' Hc Hc') as [[]]. done. }
  pose proof (steps_bound fuel g rank Hacy a). pose proof (steps_bound fuel g rank Hacy b).
  unfold canon_fuel in *.
  rewrite (Canonicalize_loop_fuel fuel g rank n op_a op_b (wf_boundary rho)); [|by apply Hop|by apply Hop|done|done|lia].
  symmetry.
  apply (Canonicalize_loop_fuel fuel g rank _ op_a op_b (wf_boundary rho)); [by apply Hop|by apply Hop|done|done|lia].
Qed.

(** An index and an array length: the index is rewritten to the length. *)
Lemma Canonicalize_loop_terminates_witness :
  Canonicalize_loop 10 example_graph 1000 (CanonicalizeMaxBoundary 10 example_graph)
    (CanonicalizeMinBoundary 10 example_graph) (kSymbol 3%positive 0) (kSymbol 2%positive 0) =
  Some (kSymbol 2%positive (-1), kSymbol 2%positive 0).
Proof.
  rewrite (Canonicalize_loop_terminates 10 example_graph example_env example_rank 1000).
  - reflexivity.
  - apply example_acyclic.
  - apply example_ranges_hold.
  - apply example_agrees.
  - split; [simpl; unfold_consts; lia|reflexivity].
  - split; [simpl; unfold_consts; lia|reflexivity].
  - unfold canon_fuel. lia.
  - by right.
  - by left.
Defined.
