(* ===== verification/RangeInfer.v ===== *)
(** * Range analysis: inference

    The [InferRange] methods (range_analysis.cc), the join of a phi's inputs,
    widening and narrowing, and [CheckArrayBoundInstr::IsRedundant], which
    removes bounds checks. [InferRange] writes through [Range* range], which
    the caller initializes with the bottom element; here it returns the
    range, [emptyRange] when the method leaves it alone, and [None] for
    [UNREACHABLE()] or undefined behaviour. *)
From S2P Require Import Prelude Utils Integers Ranges RangeSound RangeOps RangeCanon.
Local Open Scope Z_scope.
Local Open Scope vm_scope.

(** ** Constraints from comparisons *)
Definition NegateComparison (op : Token) : option Token :=
  match op with
  | kEQ => Some kNE | kNE => Some kEQ
  | kLT => Some kGTE | kGT => Some kLTE
  | kLTE => Some kGT | kGTE => Some kLT
  | _ => None
  end.
Definition FlipComparison (op : Token) : option Token :=
  match op with
  | kEQ => Some kEQ | kNE => Some kNE
  | kLT => Some kGT | kGT => Some kLT
  | kLTE => Some kGTE | kGTE => Some kLTE
  | _ => None
  end.
(** What the comparisons mean. *)
Definition compare_ints (op : Token) (a b : Z) : option bool :=
  match op with
  | kEQ => Some (a =? b) | kNE => Some (negb (a =? b))
  | kLT => Some (a <? b) | kGT => Some (a >? b)
  | kLTE => Some (a <=? b) | kGTE => Some (a >=? b)
  | _ => None
  end.

Definition ConstraintSmiRange (g : graph) (op : Token) (boundary : Defn) : option Range :=
  match op with
  | kEQ => Some (mkRange (FromDefinition g boundary 0) (FromDefinition g boundary 0))
  | kNE => Some (Full kRangeBoundarySmi)
  | kLT => Some (mkRange MinSmi (FromDefinition g boundary (-1)))
  | kGT => Some (mkRange (FromDefinition g boundary 1) MaxSmi)
  | kLTE => Some (mkRange MinSmi (FromDefinition g boundary 0))
  | kGTE => Some (mkRange (FromDefinition g boundary 0) MaxSmi)
  | _ => None
  end.

(** [ConstrainValueAfterBranch]: the constraint ranges for the true and the
    false successor. [use_index] is 0 for the left operand of the comparison,
    1 for the right one. *)
Definition ConstrainValueAfterBranch (g : graph) (kind : Token) (left_input right_input : Defn)
    (use_index : Z) : option (Range * Range) :=
  let boundary := if use_index =? 0 then right_input else left_input in
  op_kind ← (if use_index =? 0 then Some kind else FlipComparison kind);
  true_range ← ConstraintSmiRange g op_kind boundary;
  negated ← NegateComparison op_kind;
  false_range ← ConstraintSmiRange g negated boundary;
  Some (true_range, false_range).

(** [ConstrainValueAfterCheckBound]: [kLengthPos] is 0, [kIndexPos] is 1. *)
Definition ConstrainValueAfterCheckBound (g : graph) (length index : Defn) (use_index : Z) : Range :=
  if use_index =? 1 then mkRange (FromConstant 0) (FromDefinition g length (-1))
  else mkRange (FromDefinition g index 1) MaxSmi.

(** ** Data of the instructions with an [InferRange] method *)
(** The class ids that the loads distinguish. *)
Inductive ClassId :=
| kTypedDataInt8ArrayCid | kTypedDataUint8ArrayCid | kTypedDataUint8ClampedArrayCid
| kExternalTypedDataUint8ArrayCid | kExternalTypedDataUint8ClampedArrayCid
| kTypedDataInt16ArrayCid | kTypedDataUint16ArrayCid
| kTypedDataInt32ArrayCid | kTypedDataUint32ArrayCid
| kOneByteStringCid | kTwoByteStringCid
| kExternalOneByteStringCid | kExternalTwoByteStringCid | kOtherCid.
#[export] Instance ClassId_eq_dec : EqDecision ClassId.
Proof. solve_decision. Defined.

Definition Array_kMaxElements : Z := Z.quot kSmiMax kWordSize.
Definition String_kMaxElements : Z := Z.quot kSmiMax 2.

(** What the compile-time type and the representation of a definition say. *)
Record TypeInfo := MkTypeInfo {
  cid_is_smi : bool;            (** [Type()->ToCid() == kSmiCid] *)
  is_int64_definition : bool;   (** [IsInt64Definition()] *)
  is_int32_definition : bool;   (** [IsInt32Definition()] *)
  type_is_int : bool;           (** [Type()->IsInt()] *)
  rep_is_int32 : bool }.        (** [representation() == kUnboxedInt32] *)

(** The instructions that override [InferRange], with the fields the methods
    read; [Other] is every other definition. Inputs are definitions. *)
Inductive Inferable :=
| PhiInstr (inputs : list Defn) (block : Z)
| Constant (value : ConstObj)
| Constraint (value : Defn) (constraint : Range)
| LoadField (slot_kind : SlotKind)
| LoadIndexed (class_id : ClassId)
| LoadCodeUnits (class_id : ClassId) (element_count : Z)
| IfThenElse (if_true if_false : Z)
| BinarySmiOp (op_kind : Token) (lhs rhs : Defn) (is_truncating : bool)
| BinaryInt32Op (op_kind : Token) (lhs rhs : Defn) (is_truncating : bool)
| BinaryInt64Op (op_kind : Token) (lhs rhs : Defn) (is_truncating : bool)
| ShiftIntegerOp (op_kind : Token) (lhs rhs : Defn) (is_truncating : bool)
    (representation input1_representation : Representation)
| BoxInteger (value : Defn)
| UnboxInt32 (value : Defn)
| UnboxUint32 (value : Defn)
| UnboxInt64 (value : Defn)
| IntConverter (value : Defn) (from to : Representation)
| Other.

(** ** Joins *)
Section Infer.
Context (fuel : nat) (g : graph).

Definition DependsOnSymbol (a : RangeBoundary) (symbol : Defn) : bool :=
  match a with kSymbol s _ => bool_decide (UnwrapConstraint fuel g s = symbol) | _ => false end.

(** [range] is updated; [defn_range] is [None] for [NULL]. *)
Definition Join (range : Range) (defn : Defn) (defn_range : option Range) (size : RangeSize) : Range :=
  match defn_range with
  | None => range
  | Some r =>
      if Range_IsUnknown (Some r) then range
      else if Range_IsUnknown (Some range) then r
      else
        let unwrapped := UnwrapConstraint fuel g defn in
        let other :=
          if DependsOnSymbol (min_ range) unwrapped || DependsOnSymbol (max_ range) unwrapped
          then mkRange (FromDefinition g defn 0) (FromDefinition g defn 0) else r in
        let inf_range := LowerBound_size fuel g size (min_ range) in
        let inf_other := LowerBound_size fuel g size (min_ other) in
        let sup_range := UpperBound_size fuel g size (max_ range) in
        let sup_other := UpperBound_size fuel g size (max_ other) in
        if sup_range <=? inf_other then set_max range (max_ other)
        else if sup_other <=? inf_range then set_min range (min_ other)
        else mkRange (JoinMin fuel g (min_ range) (min_ other) size)
                     (JoinMax fuel g (max_ range) (max_ other) size)
  end.

(** [block_of] is [GetBlock()], [dominates] is [BlockEntryInstr::Dominates]. *)
Context (block_of : Defn -> Z) (dominates : Z -> Z -> bool).
Definition DominatesPhi (a phi_block : Z) : bool := dominates a phi_block && negb (a =? phi_block).
Definition EnsureAcyclicSymbol (phi_block : Z) (a limit : RangeBoundary) : RangeBoundary :=
  match a with
  | kSymbol s o =>
      if DominatesPhi (block_of s) phi_block then a
      else
        let unwrapped := UnwrapConstraint fuel g s in
        if negb (bool_decide (unwrapped = s)) && DominatesPhi (block_of unwrapped) phi_block
        then FromDefinition g unwrapped o
        else limit
  | _ => a
  end.

(** ** Ranges of inputs *)
Context (types : Defn -> TypeInfo).
Definition GetSmiRange (defn : Defn) : option Range :=
  match range_ (g defn) with
  | None => if negb (cid_is_smi (types defn)) then Some (Full kRangeBoundarySmi) else None
  | r => r
  end.
Definition GetIntRange (defn : Defn) : option Range :=
  match range_ (g defn) with
  | None => if negb (type_is_int (types defn)) then Some (Full kRangeBoundaryInt64) else None
  | r => r
  end.
Definition GetInputRange (size : RangeSize) (input : Defn) : option Range :=
  match size with
  | kRangeBoundarySmi => GetSmiRange input
  | kRangeBoundaryInt32 => range_ (g input)
  | kRangeBoundaryInt64 => GetIntRange input
  end.

(** ** The [InferRange] methods *)
Definition Definition_InferRange (defn : Defn) : option Range :=
  if cid_is_smi (types defn) then Some (Full kRangeBoundarySmi)
  else if is_int64_definition (types defn) then Some (Full kRangeBoundaryInt64)
  else if is_int32_definition (types defn) then Some (Full kRangeBoundaryInt32)
  else if type_is_int (types defn) then Some (Full kRangeBoundaryInt64)
  else None.

Definition RangeSizeForPhi (phi : Defn) : option RangeSize :=
  if cid_is_smi (types phi) then Some kRangeBoundarySmi
  else if rep_is_int32 (types phi) then Some kRangeBoundaryInt32
  else if type_is_int (types phi) then Some kRangeBoundaryInt64
  else None.

Definition Phi_InferRange (phi : Defn) (inputs : list Defn) (phi_block : Z) : option Range :=
  size ← RangeSizeForPhi phi;
  let joined := foldl (fun range input => Join range input (GetInputRange size input) size)
                      emptyRange inputs in
  let joined := set_min joined (EnsureAcyclicSymbol phi_block (min_ joined) MinSmi) in
  Some (set_max joined (EnsureAcyclicSymbol phi_block (max_ joined) MaxSmi)).

Definition Constant_InferRange (value : ConstObj) : option Range :=
  match value with
  | SmiObj v | MintObj v => Some (mkRange (FromConstant v) (FromConstant v))
  | OtherObj _ => None
  end.

Definition Constraint_InferRange (value : Defn) (constraint : Range) : Range :=
  match GetSmiRange value with
  | None => emptyRange
  | Some value_range =>
      if Range_IsUnknown (Some value_range) then emptyRange
      else
        let result := Intersect fuel g value_range constraint in
        if IsUnsatisfiable fuel g result then emptyRange else result
  end.

Definition LoadField_InferRange (defn : Defn) (slot : SlotKind) : option Range :=
  match slot with
  | kArray_length | kGrowableObjectArray_length =>
      Some (mkRange (FromConstant 0) (FromConstant Array_kMaxElements))
  | kTypedDataBase_length | kTypedDataView_offset_in_bytes => Some (mkRange (FromConstant 0) MaxSmi)
  | kString_length => Some (mkRange (FromConstant 0) (FromConstant String_kMaxElements))
  | kDartField | kCapturedVariable => Definition_InferRange defn
  | kLinkedHashMap_index | kLinkedHashMap_data | kGrowableObjectArray_data | kContext_parent
  | kTypeArguments | kClosure_context | kClosure_delayed_type_arguments | kClosure_function
  | kClosure_function_type_arguments | kClosure_instantiator_type_arguments
  | kPointer_c_memory_address | kTypedDataBase_data_field | kTypedDataView_data => None
  | kClosure_hash | kLinkedHashMap_hash_mask | kLinkedHashMap_used_data
  | kLinkedHashMap_deleted_keys => Some (mkRange (FromConstant 0) MaxSmi)
  | kArgumentsDescriptor_type_args_len | kArgumentsDescriptor_positional_count
  | kArgumentsDescriptor_count => Some (mkRange (FromConstant 0) MaxSmi)
  end.

Definition LoadIndexed_InferRange (defn : Defn) (class_id : ClassId) : option Range :=
  match class_id with
  | kTypedDataInt8ArrayCid => Some (mkRange (FromConstant (-128)) (FromConstant 127))
  | kTypedDataUint8ArrayCid | kTypedDataUint8ClampedArrayCid
  | kExternalTypedDataUint8ArrayCid | kExternalTypedDataUint8ClampedArrayCid =>
      Some (mkRange (FromConstant 0) (FromConstant 255))
  | kTypedDataInt16ArrayCid => Some (mkRange (FromConstant (-32768)) (FromConstant 32767))
  | kTypedDataUint16ArrayCid => Some (mkRange (FromConstant 0) (FromConstant 65535))
  | kTypedDataInt32ArrayCid => Some (mkRange (FromConstant kMinInt32) (FromConstant kMaxInt32))
  | kTypedDataUint32ArrayCid => Some (mkRange (FromConstant 0) (FromConstant kMaxUint32))
  | kOneByteStringCid => Some (mkRange (FromConstant 0) (FromConstant 0xFF))
  | kTwoByteStringCid => Some (mkRange (FromConstant 0) (FromConstant 0xFFFF))
  | _ => Definition_InferRange defn
  end.

(** [target_x64] selects the build target, as in [NBitMask]; the unsigned
    mask is converted to [int64_t]. *)
Definition LoadCodeUnits_InferRange (target_x64 : bool) (class_id : ClassId) (element_count : Z)
    : option Range :=
  match class_id with
  | kOneByteStringCid | kExternalOneByteStringCid =>
      Some (mkRange (FromConstant 0)
              (FromConstant (s64 (NBitMask target_x64 (kBitsPerByte * element_count)))))
  | kTwoByteStringCid | kExternalTwoByteStringCid =>
      Some (mkRange (FromConstant 0)
              (FromConstant (s64 (NBitMask target_x64 (2 * kBitsPerByte * element_count)))))
  | _ => None
  end.

Definition IfThenElse_InferRange (if_true if_false : Z) : Range :=
  mkRange (FromConstant (Minimum if_true if_false)) (FromConstant (Maximum if_true if_false)).

(** [None]: no representation of an integer. *)
Definition RepresentationToRangeSize (r : Representation) : option RangeSize :=
  match r with
  | kTagged => Some kRangeBoundarySmi
  | kUnboxedInt32 => Some kRangeBoundaryInt32
  | kUnboxedInt64 => Some kRangeBoundaryInt64
  | _ => None
  end.

(** The range and the argument of [set_can_overflow], if it is called. *)
Definition InferRangeHelper (op_kind : Token) (left_defn : Defn) (is_truncating : bool)
    (representation : Representation) (left_range right_range : option Range)
    : option (Range * option bool) :=
  match left_range, right_range with
  | Some l, Some r =>
      if Range_IsUnknown (Some l) || Range_IsUnknown (Some r) then Some (emptyRange, None)
      else
        range ← BinaryOp fuel g op_kind l r (Some left_defn);
        range_size ← RepresentationToRangeSize representation;
        let can_overflow :=
          if negb is_truncating then Some (negb (Fits fuel g range_size range)) else None in
        Some (Range_Clamp range_size range, can_overflow)
  | _, _ => Some (emptyRange, None)
  end.

(** The new [*slot]. *)
Definition CacheRange (slot range : option Range) (size : RangeSize) : option Range :=
  match range with
  | Some r => Some (ClampToConstant fuel g size r)
  | None => match slot with Some _ => Some emptyRange | None => None end
  end.

Definition known_or_empty (r : option Range) : Range :=
  match r with
  | Some r => if Range_IsUnknown (Some r) then emptyRange else r
  | None => emptyRange
  end.
Definition BoxInteger_InferRange (value : Defn) : Range := known_or_empty (range_ (g value)).
Definition UnboxInt32_InferRange (value : Defn) : Range :=
  if cid_is_smi (types value) then known_or_empty (GetSmiRange value)
  else if type_is_int (types value) then known_or_empty (GetIntRange value)
  else if cid_is_smi (types value) then Full kRangeBoundarySmi
  else Full kRangeBoundaryInt32.
Definition UnboxUint32_InferRange (value : Defn) : Range :=
  let full := mkRange (FromConstant 0) (FromConstant kMaxUint32) in
  if cid_is_smi (types value) || type_is_int (types value) then
    match (if cid_is_smi (types value) then GetSmiRange value else GetIntRange value) with
    | Some r =>
        if Range_IsUnknown (Some r) then emptyRange
        else if Range_IsPositive fuel g r then r else full
    | None => emptyRange
    end
  else full.
Definition UnboxInt64_InferRange (value : Defn) : Range :=
  match range_ (g value) with
  | Some r => r
  | None =>
      if negb (is_int64_definition (types value)) && negb (cid_is_smi (types value))
      then Full kRangeBoundaryInt64 else emptyRange
  end.
Definition IntConverter_InferRange (value : Defn) (to : Representation) : Range :=
  match range_ (g value) with
  | None => emptyRange
  | Some r =>
      if Range_IsUnknown (Some r) then emptyRange
      else
        match to with
        | kUnboxedUint32 => mkRange (FromConstant 0) (FromConstant kMaxUint32)
        | kUnboxedInt32 => Range_Clamp kRangeBoundaryInt32 r
        | _ => r
        end
  end.

(** ** Widening and narrowing *)
Definition WidenMin (range new_range : Range) (size : RangeSize) : RangeBoundary :=
  let min := min_ range in
  let new_min := min_ new_range in
  let constant_case :=
    let min := ConstantMin fuel g size (Some range) in
    let new_min := ConstantMin fuel g size (Some new_range) in
    if ConstantValue min <=? ConstantValue new_min then min else MinConstant size in
  if IsSymbol min then
    if Overflowed fuel g size (LowerBound fuel g min) then MinConstant size
    else if DependOnSameSymbol fuel g min new_min then
      if boundary_offset min <=? boundary_offset new_min then min else MinConstant size
    else if UpperBound_size fuel g size min <=? LowerBound_size fuel g size new_min then min
    else constant_case
  else constant_case.
Definition WidenMax (range new_range : Range) (size : RangeSize) : RangeBoundary :=
  let max := max_ range in
  let new_max := max_ new_range in
  let constant_case :=
    let max := ConstantMax fuel g size (Some range) in
    let new_max := ConstantMax fuel g size (Some new_range) in
    if ConstantValue max >=? ConstantValue new_max then max else MaxConstant size in
  if IsSymbol max then
    if Overflowed fuel g size (UpperBound fuel g max) then MaxConstant size
    else if DependOnSameSymbol fuel g max new_max then
      if boundary_offset max >=? boundary_offset new_max then max else MaxConstant size
    else if LowerBound_size fuel g size max >=? UpperBound_size fuel g size new_max then max
    else constant_case
  else constant_case.
Definition NarrowMin (range new_range : Range) (size : RangeSize) : RangeBoundary :=
  let min := ConstantMin fuel g size (Some range) in
  let new_min := ConstantMin fuel g size (Some new_range) in
  if ConstantValue min >? ConstantValue new_min then min_ range
  else if IsMinimumOrBelow size (min_ range) then min_ new_range else min_ range.
Definition NarrowMax (range new_range : Range) (size : RangeSize) : RangeBoundary :=
  let max := ConstantMax fuel g size (Some range) in
  let new_max := ConstantMax fuel g size (Some new_range) in
  if ConstantValue max <? ConstantValue new_max then max_ range
  else if IsMaximumOrAbove size (max_ range) then max_ new_range else max_ range.
End Infer.

(** ** The pass *)
Inductive JoinOperator := NONE | WIDEN | NARROW.

Definition set_range (g : graph) (defn : Defn) (range : Range) : graph :=
  fun d => if bool_decide (d = defn) then
             MkDefinition (instr (g d)) (Some range)
           else g d.

Section Pass.
Context (fuel : nat) (block_of : Defn -> Z) (dominates : Z -> Z -> bool).
Context (types : Defn -> TypeInfo) (code : Defn -> Inferable) (target_x64 : bool).

(** The virtual method [InferRange]. *)
Definition virtual_InferRange (g : graph) (defn : Defn) : option Range :=
  let helper op l trunc rep lr rr := fst <$> InferRangeHelper fuel g op l trunc rep lr rr in
  match code defn with
  | PhiInstr inputs block => Phi_InferRange fuel g block_of dominates types defn inputs block
  | Constant value => Constant_InferRange value
  | Constraint value constraint => Some (Constraint_InferRange fuel g types value constraint)
  | LoadField slot => LoadField_InferRange types defn slot
  | LoadIndexed cid => LoadIndexed_InferRange types defn cid
  | LoadCodeUnits cid count => LoadCodeUnits_InferRange target_x64 cid count
  | IfThenElse t f => Some (IfThenElse_InferRange t f)
  | BinarySmiOp op l r trunc =>
      helper op l trunc kTagged (GetSmiRange g types l) (GetSmiRange g types r)
  | BinaryInt32Op op l r trunc =>
      helper op l trunc kUnboxedInt32 (GetSmiRange g types l) (GetSmiRange g types r)
  | BinaryInt64Op op l r trunc => helper op l trunc kUnboxedInt64 (range_ (g l)) (range_ (g r))
  | ShiftIntegerOp op l r trunc rep input1 =>
      helper op l trunc rep (range_ (g l))
        (match input1 with kTagged => GetSmiRange g types r | _ => range_ (g r) end)
  | BoxInteger v => Some (BoxInteger_InferRange g v)
  | UnboxInt32 v => Some (UnboxInt32_InferRange g types v)
  | UnboxUint32 v => Some (UnboxUint32_InferRange fuel g types v)
  | UnboxInt64 v => Some (UnboxInt64_InferRange g types v)
  | IntConverter v _ to => Some (IntConverter_InferRange g v to)
  | Other => Definition_InferRange types defn
  end.

Definition is_phi (defn : Defn) : bool := match code defn with PhiInstr _ _ => true | _ => false end.

(** [RangeAnalysis::InferRange]: whether the range changed, and the graph. *)
Definition RangeAnalysis_InferRange (op : JoinOperator) (g : graph) (defn : Defn)
    : option (bool * graph) :=
  range ← virtual_InferRange g defn;
  if Range_IsUnknown (Some range) then Some (false, g)
  else
    range ←
      (match range_ (g defn) with
       | Some old =>
           if negb (Range_IsUnknown (Some old)) && is_phi defn then
             size ← RangeSizeForPhi types defn;
             Some (match op with
                   | WIDEN => mkRange (WidenMin fuel g old range size) (WidenMax fuel g old range size)
                   | NARROW => mkRange (NarrowMin fuel g old range size) (NarrowMax fuel g old range size)
                   | NONE => range
                   end)
           else Some range
       | None => Some range
       end);
    if negb (Range_Equals fuel g range (range_ (g defn))) then Some (true, set_range g defn range)
    else Some (false, g).

(** One round of [Iterate] over [definitions_]. *)
Fixpoint Iterate_round (op : JoinOperator) (g : graph) (changed : bool) (definitions : list Defn)
    : option (bool * graph) :=
  match definitions with
  | [] => Some (changed, g)
  | defn :: rest =>
      '(c, g) ← RangeAnalysis_InferRange op g defn;
      Iterate_round op g (changed || c) rest
  end.
(** [do ... while (changed && iteration < max_iterations)]. *)
Fixpoint Iterate (op : JoinOperator) (max_iterations : nat) (g : graph) (definitions : list Defn)
    : option graph :=
  match max_iterations with
  | O => Some g
  | S n =>
      '(changed, g) ← Iterate_round op g false definitions;
      if (changed : bool) then Iterate op n g definitions else Some g
  end.
End Pass.

(** ** Redundant bounds checks

    [CheckArrayBoundInstr::IsRedundant]: the answer and the graph, in which
    the index may have been given a range. *)
Definition index_range_of (g : graph) (index : Defn) : option (Range * graph) :=
  match range_ (g index) with
  | Some r => Some (r, g)
  | None =>
      match instr (g index) with
      | ConstantInstr (SmiObj v) =>
          let range := mkRange (FromConstant v) (FromConstant v) in
          Some (range, set_range g index range)
      | _ => None
      end
  end.

Definition IsRedundant_symbolic (fuel : nat) (g : graph) (max canonical_length : RangeBoundary) : bool :=
  match Canonicalize_loop fuel g (canon_fuel fuel) (CanonicalizeMaxBoundary fuel g)
          (CanonicalizeMinBoundary fuel g) max canonical_length with
  | Some (max, canonical_length) => boundary_offset max <? boundary_offset canonical_length
  | None => false
  end.

Definition CheckArrayBound_IsRedundant (fuel : nat) (g : graph) (index : Defn) (length : RangeBoundary)
    : bool * graph :=
  match index_range_of g index with
  | None => (false, g)
  | Some (index_range, g) =>
      (if ConstantValue (ConstantMin fuel g kRangeBoundarySmi (Some index_range)) <? 0 then false
       else
         let max := FromDefinition g index 0 in
         let max_upper := UpperBound fuel g max in
         let length_lower := LowerBound fuel g length in
         if OverflowedSmi max_upper || OverflowedSmi length_lower then false
         else if ConstantValue max_upper <? ConstantValue length_lower then true
         else
           let canonical_length := CanonicalizeBoundary fuel g length kPositiveInfinity in
           if OverflowedSmi canonical_length then false
           else IsRedundant_symbolic fuel g max canonical_length, g)
  end.

(** ** Lemmas *)
Lemma instr_set_range g d r x : instr (set_range g d r x) = instr (g x).
Proof. unfold set_range. by case_bool_decide. Qed.

(** Giving a definition a range that contains it keeps the graph sound. *)
Lemma set_range_sound fuel g rho rank d r :
  acyclic fuel g rank -> ranges_hold g rho -> agrees fuel g rho ->
  wf_range rho r -> in_range rho r (rho d) ->
  (forall s o, min_ r = kSymbol s o \/ max_ r = kSymbol s o -> (rank s < rank d)%nat) ->
  acyclic fuel (set_range g d r) rank /\ ranges_hold (set_range g d r) rho /\
  agrees fuel (set_range g d r) rho.
Proof.
  intros Hacy Hrng Hagr Hwf Hin Hrk. split_and!.
  - destruct Hacy as [H1 H2 H3 H4 H5]. split; try setoid_rewrite instr_set_range; try done;
      intros x r' s o; unfold set_range; case_bool_decide; simpl; subst; eauto;
      intros [= <-]; eauto.
  - intros x r'. unfold set_range. case_bool_decide; simpl; [|apply Hrng]. intros [= <-]. by subst.
  - destruct Hagr as [H1 H2 H3 H4 H5]. split; try setoid_rewrite instr_set_range; try done.
    intros a b. unfold AllowsCSE, Instr_Equals. rewrite !instr_set_range. apply H5.
Qed.

Section Redundant.
Context (fuel : nat) (g : graph) (rho : env) (rank : Defn -> nat).
Context (Hacy : acyclic fuel g rank) (Hrng : ranges_hold g rho) (Hagr : agrees fuel g rho).

Lemma FromDefinition_bounds d :
  is_smi (rho d) -> wf_boundary rho (FromDefinition g d 0) /\ bounds rho (FromDefinition g d 0) (rho d).
Proof using Hagr.
  intros Hd. destruct (FromDefinition_spec fuel g rho Hagr d 0 Hd eq_refl) as [Hw _].
  split; [done|]. unfold FromDefinition.
  destruct (instr (g d)) as [[v| |]| | | |] eqn:E; simpl; try lia.
  apply (agrees_constant _ _ _ Hagr) in E as [-> _]. lia.
Qed.

Lemma OverflowedSmi_false b :
  constant_or_infinity b -> OverflowedSmi b = false -> exists c, b = kConstant c.
Proof using. destruct b; simpl; try done. intros _ _. by eexists. Qed.

Lemma constant_comparison max len em el :
  wf_boundary rho max -> wf_boundary rho len -> bounds rho max em -> bounds rho len el ->
  OverflowedSmi (UpperBound fuel g max) || OverflowedSmi (LowerBound fuel g len) = false ->
  ConstantValue (UpperBound fuel g max) < ConstantValue (LowerBound fuel g len) -> em < el.
Proof using Hacy Hrng.
  intros Wm Wl Bm Bl Ho. zbool.
  pose proof (UpperBound_sound fuel g rho rank Hacy Hrng max em Wm (proj2 (bounds_max _ _ _ _ Bm) (Z.le_refl em))) as Hu.
  pose proof (LowerBound_sound fuel g rho rank Hacy Hrng len el Wl (proj2 (bounds_min _ _ _ _ Bl) (Z.le_refl el))) as Hl.
  destruct (OverflowedSmi_false (UpperBound fuel g max)) as [c Ec]; [|done|].
  { apply (UpperBound_const fuel g rho rank); try done. by eapply bounds_known. }
  destruct (OverflowedSmi_false (LowerBound fuel g len)) as [d Ed]; [|done|].
  { apply (LowerBound_const fuel g rho rank); try done. by eapply bounds_known. }
  rewrite Ec in *. rewrite Ed in *. simpl in *. lia.
Qed.

Lemma IsRedundant_symbolic_sound max len em el :
  wf_boundary rho max -> wf_boundary rho len -> bounds rho max em -> bounds rho len el ->
  IsRedundant_symbolic fuel g max len = true -> em < el.
Proof using Hacy Hrng Hagr.
  intros Wm Wl Bm Bl. unfold IsRedundant_symbolic.
  destruct (Canonicalize_loop _ _ _ _ _ _ _) as [[max' len']|] eqn:E; [|done]. intros Hlt. zbool.
  apply (Canonicalize_loop_inv fuel g _ _ _ (weaker_max rho max) (weaker_min rho len)) in E
    as ([_ Hm] & [_ Hl] & Hs).
  - destruct (same_symbol_bounds fuel g rho Hagr _ _ Hs) as (e & B1 & B2).
    specialize (Hm em). rewrite (bounds_max _ _ _ _ Bm), (bounds_max _ _ _ _ B1) in Hm.
    specialize (Hl el). rewrite (bounds_min _ _ _ _ Bl), (bounds_min _ _ _ _ B2) in Hl. lia.
  - intros c c' Hc Hc'. eapply weaker_max_trans; [done|]. destruct Hc.
    by apply (CanonicalizeMaxBoundary_spec fuel g rho rank).
  - intros c c' Hc Hc'. eapply weaker_min_trans; [done|]. destruct Hc.
    by apply (CanonicalizeMinBoundary_spec fuel g rho rank).
  - by split.
  - by split.
Qed.

(** The check itself, once the index has a range. *)
Lemma IsRedundant_with_range index r length el :
  is_smi (rho index) -> range_ (g index) = Some r ->
  wf_boundary rho length -> bounds rho length el ->
  CheckArrayBound_IsRedundant fuel g index length = (true, g) -> 0 <= rho index < el.
Proof using All.
  intros Hi Hr Wl Bl. unfold CheckArrayBound_IsRedundant, index_range_of. rewrite Hr.
  destruct (Hrng _ _ Hr) as [Wr Ir].
  destruct (ConstantMin_spec fuel g rho rank Hacy Hrng kRangeBoundarySmi r (rho index) Wr Ir) as (c & Ec & _ & Hc);
    [unfold_consts; lia|]. rewrite Ec. cbn [ConstantValue].
  destruct (FromDefinition_bounds index Hi) as [Wm Bm].
  destruct (Z.ltb_spec c 0); [by intros [=]|].
  destruct (_ || _) eqn:Eo; [by intros [=]|].
  destruct (Z.ltb_spec (ConstantValue (UpperBound fuel g (FromDefinition g index 0)))
                       (ConstantValue (LowerBound fuel g length))) as [Hlt|_].
  { intros _. split; [lia|]. by apply (constant_comparison (FromDefinition g index 0) length). }
  destruct (OverflowedSmi (CanonicalizeBoundary fuel g length kPositiveInfinity)) eqn:Ecl; [by intros [=]|].
  intros [= Hsym]. split; [lia|].
  assert (wf_boundary rho (CanonicalizeBoundary fuel g length kPositiveInfinity) /\
          bounds rho (CanonicalizeBoundary fuel g length kPositiveInfinity) el) as [Wc Bc].
  { destruct length as [| | |s o|]; try done.
    destruct (CanonicalizeBoundary_spec fuel g rho rank Hacy Hrng Hagr s o kPositiveInfinity Wl) as [E|(W & B & _)].
    - by rewrite E in Ecl.
    - simpl in Bl. subst el. done. }
  by apply (IsRedundant_symbolic_sound _ _ _ _ Wm Wc Bm Bc).
Qed.
End Redundant.

Lemma index_range_of_sound fuel g rho rank index r g' :
  acyclic fuel g rank -> ranges_hold g rho -> agrees fuel g rho ->
  index_range_of g index = Some (r, g') ->
  acyclic fuel g' rank /\ ranges_hold g' rho /\ agrees fuel g' rho /\ range_ (g' index) = Some r.
Proof.
  intros Hacy Hrng Hagr. unfold index_range_of. destruct (range_ (g index)) as [r0|] eqn:E.
  { by intros [= <- <-]. }
  destruct (instr (g index)) as [[v| |]| | | |] eqn:Ei; try done. intros [= <- <-].
  apply (agrees_constant _ _ _ Hagr) in Ei as [Hv Hs].
  destruct (set_range_sound fuel g rho rank index (MkRange (kConstant v) (kConstant v))) as (? & ? & ?); try done.
  - split; simpl; unfold_consts; lia.
  - split; simpl; lia.
  - by intros s o [|].
  - split_and!; [done..|]. unfold set_range. by case_bool_decide.
Qed.

(** ** Properties *)

(** C1: a bounds check that [CheckArrayBoundInstr::IsRedundant] reports as
    redundant cannot fail: if every assigned range contains its definition,
    the index is at least 0 and below the array length. *)
Theorem CheckArrayBound_IsRedundant_sound fuel g rho rank index length g' :
  acyclic fuel g rank -> ranges_hold g rho -> agrees fuel g rho ->
  is_smi (rho index) -> is_smi (rho length) ->
  CheckArrayBound_IsRedundant fuel g index (FromDefinition g length 0) = (true, g') ->
  0 <= rho index < rho length.
Proof.
  intros Hacy Hrng Hagr Hi Hl H.
  destruct (index_range_of g index) as [[r g1]|] eqn:E;
    [|unfold CheckArrayBound_IsRedundant in H; by rewrite E in H].
  destruct (index_range_of_sound fuel g rho rank index r g1 Hacy Hrng Hagr E) as (Ha & Hr & Hg & Er).
  destruct (FromDefinition_bounds fuel g rho Hagr length Hl) as [Wl Bl].
  apply (IsRedundant_with_range fuel g1 rho rank Ha Hr Hg index r (FromDefinition g length 0) (rho length));
    [done..|].
  unfold CheckArrayBound_IsRedundant in *. rewrite E in H.
  unfold index_range_of. rewrite Er. injection H as Hb _. by f_equal.
Qed.

(** [v3] has range [[0, v2 - 1]]: the check of [v3] against [v2] goes away. *)
Lemma CheckArrayBound_IsRedundant_sound_witness :
  fst (CheckArrayBound_IsRedundant 10 example_graph 3%positive (FromDefinition example_graph 2%positive 0)) = true /\
  0 <= example_env 3%positive < example_env 2%positive.
Proof.
  split; [reflexivity|].
  apply (CheckArrayBound_IsRedundant_sound 10 example_graph example_env example_rank 3%positive 2%positive example_graph).
  - apply example_acyclic.
  - apply example_ranges_hold.
  - apply example_agrees.
  - simpl. unfold_consts. lia.
  - simpl. unfold_consts. lia.
  - reflexivity.
Defined.

(** *** Constraints *)
Lemma ConstraintSmiRange_sound fuel g rho op boundary range v :
  agrees fuel g rho -> is_smi v -> is_smi (rho boundary) ->
  ConstraintSmiRange g op boundary = Some range ->
  compare_ints op v (rho boundary) = Some true ->
  wf_range rho range /\ in_range rho range v.
Proof.
  intros Hagr Hv Hb Hr Hc.
  assert (Hfd : forall o, -1 <= o <= 1 -> wf_boundary rho (FromDefinition g boundary o) /\
    forall u, (holds_min rho (FromDefinition g boundary o) u <-> rho boundary + o <= u) /\
              (holds_max rho (FromDefinition g boundary o) u <-> u <= rho boundary + o)).
  { intros o Ho. apply (FromDefinition_spec fuel g rho Hagr); [done|]. apply valid_offset. lia. }
  destruct (Hfd 0) as [W0 H0]; [lia|]. destruct (Hfd 1) as [W1 H1]; [lia|].
  destruct (Hfd (-1)) as [W2 H2]; [lia|].
  destruct (H0 v) as [H0m H0M], (H1 v) as [H1m _], (H2 v) as [_ H2M].
  assert (wf_boundary rho MinSmi /\ wf_boundary rho MaxSmi /\ holds_min rho MinSmi v /\ holds_max rho MaxSmi v)
    as (? & ? & ? & ?) by (simpl; unfold_consts; lia).
  assert (is_sint 64 v) by (unfold_consts; lia).
  destruct op; simpl in Hr, Hc; try done; injection Hr as <-; injection Hc as Hc; zbool;
    try (apply mkRange_sound; [done|]; intros _ _; split_and!; try done;
         (apply H0m || apply H0M || apply H1m || apply H2M); lia).
  done.
Qed.

(** the ranges that [ConstrainValueAfterBranch] attaches to an operand of
    a comparison contain the operand: the first on the true successor, the
    second on the false successor, for the left and for the right operand. *)
Theorem ConstrainValueAfterBranch_sound fuel g rho kind l r use_index tr fr b :
  agrees fuel g rho -> is_smi (rho l) -> is_smi (rho r) ->
  use_index = 0 \/ use_index = 1 ->
  ConstrainValueAfterBranch g kind l r use_index = Some (tr, fr) ->
  compare_ints kind (rho l) (rho r) = Some b ->
  let v := rho (if use_index =? 0 then l else r) in
  let range := if b then tr else fr in
  wf_range rho range /\ in_range rho range v.
Proof.
  intros Hagr Hl Hr Hu H Hc v range. unfold ConstrainValueAfterBranch in H.
  apply bind_Some in H as (op & Hop & (tr' & Ht & (neg & Hn & (fr' & Hf & [= -> ->])%bind_Some)%bind_Some)%bind_Some).
  set (w := rho (if use_index =? 0 then r else l)).
  assert (compare_ints op v w = Some b /\ is_smi v /\ is_smi w) as (Hcmp & Hv & Hw).
  { subst v w. destruct Hu as [-> | ->]; simpl in *; [by simplify_eq|].
    split; [|done]. rewrite <- Hc. destruct kind; simpl in Hop; simplify_eq; simpl; f_equal; lia. }
  assert (Hneg : compare_ints neg v w = Some (negb b)).
  { destruct op; simpl in Hn, Hcmp; simplify_eq; simpl; f_equal; lia. }
  subst range. destruct b; eapply ConstraintSmiRange_sound; try done;
    subst w; by destruct (use_index =? 0).
Qed.

(** [if (v3 < v2)] in the true successor, for [v3]. *)
Lemma ConstrainValueAfterBranch_sound_witness :
  let range := MkRange MinSmi (kSymbol 2%positive (-1)) in
  fst <$> ConstrainValueAfterBranch example_graph kLT 3%positive 2%positive 0 = Some range /\
  in_range example_env range (example_env 3%positive).
Proof.
  intros range. split; [reflexivity|].
  refine (proj2 (ConstrainValueAfterBranch_sound 10 example_graph example_env kLT 3%positive 2%positive 0
           range (MkRange (kSymbol 2%positive 0) MaxSmi) true _ _ _ _ _ _)).
  - apply example_agrees.
  - simpl. unfold_consts. lia.
  - simpl. unfold_consts. lia.
  - by left.
  - reflexivity.
  - reflexivity.
Defined.

(** *** Binary operations *)
Lemma Fits_full fuel g size : Fits fuel g size SetInt64Range = true -> size = kRangeBoundaryInt64.
Proof. by destruct fuel, size. Qed.

Lemma Range_Clamp_sound rho size r v :
  wf_range rho r -> in_range rho r v -> in_size size v ->
  wf_range rho (Range_Clamp size r) /\ in_range rho (Range_Clamp size r) v.
Proof.
  intros [] [] []. split; split; simpl;
    eauto using wf_Clamp, Clamp_min_sound, Clamp_max_sound.
Qed.

(** [BinaryIntegerOpInstr::InferRangeHelper] is sound: a result of the
    operation's size is in the inferred range, and when it clears
    [can_overflow] of a Smi or Int32 operation, the mathematical result of the
    operation fits that size, so the overflow check may be dropped. *)
Theorem InferRangeHelper_sound fuel g rho rank op l trunc rep size lr rr y range co e :
  acyclic fuel g rank -> ranges_hold g rho -> agrees fuel g rho ->
  wf_range rho lr -> wf_range rho rr -> in_range rho lr (rho l) -> in_range rho rr y ->
  is_sint 64 (rho l) -> is_sint 64 y -> (IsArrayLength fuel g (Some l) = true -> is_smi (rho l)) ->
  RepresentationToRangeSize rep = Some size ->
  InferRangeHelper fuel g op l trunc rep (Some lr) (Some rr) = Some (range, co) ->
  exact_op op (rho l) y = Some e ->
  (in_size size (s64 e) -> wf_range rho range /\ in_range rho range (s64 e)) /\
  (co = Some false -> size <> kRangeBoundaryInt64 -> in_size size e).
Proof.
  intros Hacy Hrng Hagr Wl Wr Hl Hr Sl Sy Hlen Hsize H He. unfold InferRangeHelper in H.
  assert (Range_IsUnknown (Some lr) || Range_IsUnknown (Some rr) = false) as Hk.
  { destruct Hl as [Hl _], Hr as [Hr _]. simpl. by destruct (min_ lr), (min_ rr). }
  rewrite Hk, Hsize in H. apply bind_Some in H as (res & Hres & H). simpl in H. injection H as <- <-.
  destruct (BinaryOp_operands fuel g rho rank Hacy Hrng Hagr lr rr (rho l) y Wl Wr Hl Hr Sl Sy
              op (Some l) res e) as (Wres & Hin & Hex); [by intros d [= <-]|done..|].
  split; [intros Hs; by apply Range_Clamp_sound|].
  intros Hco Hs64. destruct trunc; simpl in Hco; [done|]. injection Hco as Hco. apply negb_false_iff in Hco.
  destruct Hex as [->|Hex]; [by apply Fits_full in Hco|].
  by apply (Fits_sound fuel g rho rank Hacy Hrng size res e).
Qed.

(** [v3 - 10] for an index [v3]: no Smi overflow. *)
Lemma InferRangeHelper_sound_witness :
  InferRangeHelper 10 example_graph kSUB 3%positive false kTagged (Some example_index_range)
    (Some (MkRange (kConstant 10) (kConstant 10))) =
    Some (MkRange (kConstant (-10)) (kSymbol 2%positive (-11)), Some false) /\
  in_size kRangeBoundarySmi (-3).
Proof.
  split; [reflexivity|].
  eapply (InferRangeHelper_sound 10 example_graph example_env example_rank kSUB 3%positive false kTagged
           kRangeBoundarySmi example_index_range (MkRange (kConstant 10) (kConstant 10)) 10).
  - apply example_acyclic.
  - apply example_ranges_hold.
  - apply example_agrees.
  - repeat split; simpl; unfold_consts; lia.
  - split; simpl; unfold_consts; lia.
  - split; simpl; lia.
  - split; simpl; lia.
  - simpl. unfold is_sint. lia.
  - unfold is_sint. lia.
  - discriminate.
  - reflexivity.
  - reflexivity.
  - reflexivity.
  - reflexivity.
  - discriminate.
Defined.

(** *** Joins of ranges *)
Section JoinSound.
Context (fuel : nat) (g : graph) (rho : env) (rank : Defn -> nat).
Context (Hacy : acyclic fuel g rank) (Hrng : ranges_hold g rho) (Hagr : agrees fuel g rho).

(** A range of integers [[lo, hi]] of a size. *)
Definition denotes (size : RangeSize) (r : Range) (lo hi : Z) : Prop :=
  wf_range rho r /\ bounds rho (min_ r) lo /\ bounds rho (max_ r) hi /\
  in_size size lo /\ in_size size hi /\ lo <= hi.

Lemma denotes_in size r lo hi v : denotes size r lo hi -> in_range rho r v <-> lo <= v <= hi.
Proof using.
  intros (_ & B1 & B2 & _). unfold in_range.
  rewrite (bounds_min _ _ _ _ B1), (bounds_max _ _ _ _ B2). done.
Qed.

Lemma set_max_finite r b e : bounds rho b e -> set_max r b = MkRange (min_ r) b.
Proof using. by destruct b. Qed.
Lemma set_min_finite r b e : bounds rho b e -> set_min r b = MkRange b (max_ r).
Proof using. by destruct b. Qed.

(** The three cases of [Join] on two known ranges. *)
Lemma Join_cases size r other lo hi lo' hi' v :
  denotes size r lo hi -> denotes size other lo' hi' -> in_size size v ->
  lo <= v <= hi \/ lo' <= v <= hi' ->
  let joined :=
    if UpperBound_size fuel g size (max_ r) <=? LowerBound_size fuel g size (min_ other)
    then set_max r (max_ other)
    else if UpperBound_size fuel g size (max_ other) <=? LowerBound_size fuel g size (min_ r)
    then set_min r (min_ other)
    else mkRange (JoinMin fuel g (min_ r) (min_ other) size) (JoinMax fuel g (max_ r) (max_ other) size) in
  wf_range rho joined /\ in_range rho joined v.
Proof using Hacy Hrng Hagr.
  intros ([W1 W2] & B1 & B2 & [S1 S1'] & [S2 S2'] & Hlh) ([W1' W2'] & B1' & B2' & [S3 S3'] & [S4 S4'] & Hlh') Hv Hin joined.
  destruct (UpperBound_size_spec fuel g rho rank Hacy Hrng size _ _ W2 B2) as [_ U].
  destruct (UpperBound_size_spec fuel g rho rank Hacy Hrng size _ _ W2' B2') as [_ U'].
  destruct (LowerBound_size_spec fuel g rho rank Hacy Hrng size _ _ W1 B1) as [_ L].
  destruct (LowerBound_size_spec fuel g rho rank Hacy Hrng size _ _ W1' B1') as [_ L'].
  specialize (U hi). specialize (U' hi'). specialize (L lo). specialize (L' lo').
  subst joined. zif; [|zif].
  - rewrite (set_max_finite _ _ _ B2'). split; [done|]. split; simpl.
    + apply (bounds_min _ _ _ _ B1). lia.
    + apply (bounds_max _ _ _ _ B2'). lia.
  - rewrite (set_min_finite _ _ _ B1'). split; [done|]. split; simpl.
    + apply (bounds_min _ _ _ _ B1'). lia.
    + apply (bounds_max _ _ _ _ B2). lia.
  - apply mkRange_sound; [by eapply in_size_sint|]. intros _ _.
    destruct (JoinMin_holds fuel g rho rank Hacy Hrng Hagr _ _ lo lo' W1 W1' B1 B1' size v); [done..|lia|].
    destruct (JoinMax_holds fuel g rho rank Hacy Hrng Hagr _ _ hi hi' W2 W2' B2 B2' size v); [done..|lia|].
    done.
Qed.

Lemma denotes_known size r lo hi : denotes size r lo hi -> Range_IsUnknown (Some r) = false.
Proof using. intros (_ & B & _). simpl. by destruct (min_ r). Qed.

Lemma denotes_singleton size d :
  is_smi (rho d) -> in_size size (rho d) ->
  denotes size (mkRange (FromDefinition g d 0) (FromDefinition g d 0)) (rho d) (rho d).
Proof using Hagr.
  intros Hd Hs. destruct (FromDefinition_bounds fuel g rho Hagr d Hd) as [W B].
  assert (IsInfinity (FromDefinition g d 0) = false) as Hi by (by destruct (FromDefinition g d 0)).
  unfold mkRange. rewrite Hi. simpl. by split_and!.
Qed.
End JoinSound.

(** [Join] covers both ranges: if both denote non-empty integer intervals
    of the size, a value of the accumulated range and the value of the joined
    definition are in the result. *)
Theorem Join_sound fuel g rho rank range defn defn_range size lo hi lo' hi' v :
  acyclic fuel g rank -> ranges_hold g rho -> agrees fuel g rho ->
  denotes rho size range lo hi -> denotes rho size defn_range lo' hi' ->
  is_smi (rho defn) -> in_size size (rho defn) -> in_size size v ->
  in_range rho range v \/ (v = rho defn /\ in_range rho defn_range v) ->
  let joined := Join fuel g range defn (Some defn_range) size in
  wf_range rho joined /\ in_range rho joined v.
Proof.
  intros Hacy Hrng Hagr D D' Hs Hsz Hv Hin joined. subst joined. unfold Join.
  rewrite (denotes_known _ _ _ _ _ D), (denotes_known _ _ _ _ _ D').
  rewrite (denotes_in _ _ _ _ _ _ D), (denotes_in _ _ _ _ _ _ D') in Hin.
  destruct (_ || _).
  - apply (Join_cases fuel g rho rank Hacy Hrng Hagr size range _ lo hi (rho defn) (rho defn) v D);
      [by apply (denotes_singleton fuel g rho Hagr)|done|]. lia.
  - apply (Join_cases fuel g rho rank Hacy Hrng Hagr size range _ lo hi lo' hi' v D D' Hv). lia.
Qed.

(** The constant 10 joined into [[0, v2 - 1]]: with an array of 100 elements
    both are intervals, and so is the result. *)
Lemma Join_sound_witness :
  let joined := Join 10 example_graph example_index_range 1%positive
                  (Some (MkRange (kConstant 10) (kConstant 10))) kRangeBoundarySmi in
  wf_range example_env joined /\ in_range example_env joined 10.
Proof.
  apply (Join_sound 10 example_graph example_env example_rank example_index_range 1%positive
           (MkRange (kConstant 10) (kConstant 10)) kRangeBoundarySmi 0 99 10 10).
  - apply example_acyclic.
  - apply example_ranges_hold.
  - apply example_agrees.
  - repeat split; simpl; unfold_consts; lia.
  - repeat split; simpl; unfold_consts; lia.
  - simpl. unfold_consts. lia.
  - simpl. unfold_consts. lia.
  - unfold_consts. lia.
  - right. split; [reflexivity|]. split; simpl; lia.
Defined.

(** *** The fast path of [Join] on a range that is empty at run time

    [n = a.length; x = (i >= 50 && i < n) ? i : 3; a[x]]: the first input of
    the phi [v6] is [v8], constrained to [[50, v2 - 1]], the second the
    constant [v7]; the array has one element and the second input is taken. *)
Definition branch_graph : graph := fun d =>
  match d with
  | 2%positive => MkDefinition (LoadFieldInstr kArray_length 77 true 9%positive)
                    (Some (MkRange (kConstant 0) (kConstant Array_kMaxElements)))
  | 7%positive => MkDefinition (ConstantInstr (SmiObj 3)) (Some (MkRange (kConstant 3) (kConstant 3)))
  | 8%positive => MkDefinition (OtherInstr 1 [] 0 false)
                    (Some (MkRange (kConstant 50) (kSymbol 2%positive (-1))))
  | _ => MkDefinition (OtherInstr 0 [] 0 false) None
  end.
Definition branch_types : Defn -> TypeInfo := fun _ => MkTypeInfo true false false true false.
Definition branch_block : Defn -> Z := fun d => match d with 6%positive => 2 | 8%positive => 1 | _ => 0 end.
Definition branch_env : env := fun d =>
  match d with 2%positive => 1 | 6%positive | 7%positive => 3 | _ => 0 end.

(** When one range is empty for the values at run time (its path is not
    taken), the fast path of [Join] drops values of the other range: the
    phi of the example gets the range [[3, v2 - 1]] although it is 3 in an
    array of length 1, and the bounds check of [a[x]] is then reported as
    redundant. *)
Theorem Join_fast_path_unsound :
  let range := MkRange (kConstant 3) (kSymbol 2%positive (-1)) in
  Phi_InferRange 10 branch_graph branch_block Z.leb branch_types 6%positive [8%positive; 7%positive] 2 = Some range /\
  ~ in_range branch_env range (branch_env 6%positive) /\
  fst (CheckArrayBound_IsRedundant 10 (set_range branch_graph 6%positive range) 6%positive
         (FromDefinition branch_graph 2%positive 0)) = true /\
  ~ branch_env 6%positive < branch_env 2%positive.
Proof.
  intros range. split; [reflexivity|]. split; [intros [_ H]; simpl in H; lia|]. split; [reflexivity|].
  simpl. lia.
Qed.

(** *** Widening *)

(** The boundaries of [r] have the run-time values [lo] and [hi], of the size;
    the range may be empty ([hi < lo]). *)
Definition spans (rho : env) (size : RangeSize) (r : Range) (lo hi : Z) : Prop :=
  wf_range rho r /\ bounds rho (min_ r) lo /\ bounds rho (max_ r) hi /\ in_size size lo /\ in_size size hi.

Lemma spans_in rho size r lo hi v : spans rho size r lo hi -> in_range rho r v <-> lo <= v <= hi.
Proof.
  intros (_ & B1 & B2 & _). unfold in_range.
  by rewrite (bounds_min _ _ _ _ B1), (bounds_max _ _ _ _ B2).
Qed.

Section WidenSound.
Context (fuel : nat) (g : graph) (rho : env) (rank : Defn -> nat).
Context (Hacy : acyclic fuel g rank) (Hrng : ranges_hold g rho) (Hagr : agrees fuel g rho).
Context (size : RangeSize) (r new : Range) (lo hi lo' hi' : Z).
Context (D : spans rho size r lo hi) (D' : spans rho size new lo' hi').

Lemma ConstantMin_size q l h :
  spans rho size q l h ->
  ConstantMin fuel g size (Some q) = kConstant (LowerBound_size fuel g size (min_ q)).
Proof using Hacy Hrng.
  intros ((W & _) & B & _). unfold ConstantMin, LowerBound_size.
  pose proof (LowerBound_const fuel g rho rank Hacy Hrng _ (bounds_known _ _ _ B) W) as Hc.
  by destruct (Clamp_constant size _ Hc) as (c & -> & _).
Qed.
Lemma ConstantMax_size q l h :
  spans rho size q l h ->
  ConstantMax fuel g size (Some q) = kConstant (UpperBound_size fuel g size (max_ q)).
Proof using Hacy Hrng.
  intros ((_ & W) & _ & B & _). unfold ConstantMax, UpperBound_size.
  pose proof (UpperBound_const fuel g rho rank Hacy Hrng _ (bounds_known _ _ _ B) W) as Hc.
  by destruct (Clamp_constant size _ Hc) as (c & -> & _).
Qed.

Lemma WidenMin_holds v :
  in_size size v -> Z.min lo lo' <= v ->
  wf_boundary rho (WidenMin fuel g r new size) /\ holds_min rho (WidenMin fuel g r new size) v.
Proof using All.
  intros [Hv _] Hm. unfold WidenMin.
  rewrite (ConstantMin_size _ _ _ D), (ConstantMin_size _ _ _ D'). simpl ConstantValue.
  destruct D as ([W1 _] & B1 & _ & [_ S1] & _), D' as ([W1' _] & B1' & _ & [_ S1'] & _).
  destruct (LowerBound_size_spec fuel g rho rank Hacy Hrng size _ _ W1 B1) as [I1 L].
  destruct (LowerBound_size_spec fuel g rho rank Hacy Hrng size _ _ W1' B1') as [_ L'].
  destruct (UpperBound_size_spec fuel g rho rank Hacy Hrng size (min_ r) _ W1 B1) as [_ U].
  specialize (L v). specialize (L' v). specialize (U lo).
  assert (Hmin : wf_boundary rho (MinConstant size) /\ holds_min rho (MinConstant size) v).
  { rewrite MinConstant_eq. split; [apply (size_bounds size)|done]. }
  assert (Hconst : forall l', (Z.min lo lo' <= v -> Z.min (LowerBound_size fuel g size (min_ r)) l' <= v) ->
    let b := if LowerBound_size fuel g size (min_ r) <=? l'
             then kConstant (LowerBound_size fuel g size (min_ r)) else MinConstant size in
    wf_boundary rho b /\ holds_min rho b v).
  { intros l' Hl'. simpl. zif; [|done]. split; [by eapply in_size_sint|]. simpl. lia. }
  specialize (Hconst (LowerBound_size fuel g size (min_ new))).
  zif; [|apply Hconst; lia]. zif; [done|].
  destruct (DependOnSameSymbol fuel g (min_ r) (min_ new)) eqn:Es.
  { destruct (same_symbol_bounds fuel g rho Hagr _ _ Es) as (e & E1 & E2). zif; [|done].
    split; [done|]. apply (bounds_min _ _ _ _ E1).
    assert (lo = e + boundary_offset (min_ r)) by (destruct (min_ r); simpl in *; try done; lia).
    assert (lo' = e + boundary_offset (min_ new)) by (destruct (min_ new); simpl in *; try done; lia). lia. }
  zif; [|apply Hconst; lia]. split; [done|]. apply (bounds_min _ _ _ _ B1). lia.
Qed.

Lemma WidenMax_holds v :
  in_size size v -> v <= Z.max hi hi' ->
  wf_boundary rho (WidenMax fuel g r new size) /\ holds_max rho (WidenMax fuel g r new size) v.
Proof using All.
  intros [_ Hv] Hm. unfold WidenMax.
  rewrite (ConstantMax_size _ _ _ D), (ConstantMax_size _ _ _ D'). simpl ConstantValue.
  destruct D as ([_ W1] & _ & B1 & _ & [S1 _]), D' as ([_ W1'] & _ & B1' & _ & [S1' _]).
  destruct (UpperBound_size_spec fuel g rho rank Hacy Hrng size _ _ W1 B1) as [I1 L].
  destruct (UpperBound_size_spec fuel g rho rank Hacy Hrng size _ _ W1' B1') as [_ L'].
  destruct (LowerBound_size_spec fuel g rho rank Hacy Hrng size (max_ r) _ W1 B1) as [_ U].
  specialize (L v). specialize (L' v). specialize (U hi).
  assert (Hmin : wf_boundary rho (MaxConstant size) /\ holds_max rho (MaxConstant size) v).
  { rewrite MaxConstant_eq. split; [apply (size_bounds size)|done]. }
  assert (Hconst : forall l', (v <= Z.max hi hi' -> v <= Z.max (UpperBound_size fuel g size (max_ r)) l') ->
    let b := if UpperBound_size fuel g size (max_ r) >=? l'
             then kConstant (UpperBound_size fuel g size (max_ r)) else MaxConstant size in
    wf_boundary rho b /\ holds_max rho b v).
  { intros l' Hl'. simpl. zif; [|done]. split; [by eapply in_size_sint|]. simpl. lia. }
  specialize (Hconst (UpperBound_size fuel g size (max_ new))).
  zif; [|apply Hconst; lia]. zif; [done|].
  destruct (DependOnSameSymbol fuel g (max_ r) (max_ new)) eqn:Es.
  { destruct (same_symbol_bounds fuel g rho Hagr _ _ Es) as (e & E1 & E2). zif; [|done].
    split; [done|]. apply (bounds_max _ _ _ _ E1).
    assert (hi = e + boundary_offset (max_ r)) by (destruct (max_ r); simpl in *; try done; lia).
    assert (hi' = e + boundary_offset (max_ new)) by (destruct (max_ new); simpl in *; try done; lia). lia. }
  zif; [|apply Hconst; lia]. split; [done|]. apply (bounds_max _ _ _ _ B1). lia.
Qed.

(** How often a boundary can still be widened. *)
Definition widen_height (limit : Z) (b : RangeBoundary) : nat :=
  match b with
  | kSymbol _ _ => 2%nat
  | kConstant c => if c =? limit then 0%nat else 1%nat
  | _ => 0%nat
  end.

Lemma WidenMin_height :
  WidenMin fuel g r new size = min_ r \/
  (widen_height (size_min size) (WidenMin fuel g r new size) < widen_height (size_min size) (min_ r))%nat.
Proof using All.
  unfold WidenMin. rewrite (ConstantMin_size _ _ _ D), (ConstantMin_size _ _ _ D'), MinConstant_eq.
  destruct D as ([W1 _] & B1 & _ & S1 & _). unfold LowerBound_size, LowerBound.
  destruct (min_ r) as [| | |s o|c]; try done; cbn [IsSymbol bounds] in *.
  - repeat zif; simpl; try (by left); right; try zif; simpl; lia.
  - subst lo. assert (RangeBoundary_Clamp size (LowerBound_loop g fuel (kConstant c)) = kConstant c) as ->.
    { replace (LowerBound_loop g fuel (kConstant c)) with (kConstant c) by (by destruct fuel).
      unfold RangeBoundary_Clamp. rewrite MinConstant_eq, MaxConstant_eq. destruct S1. simpl.
      repeat zif; try done; f_equal; lia. }
    simpl. zif; [by left|]. destruct (Z.eqb_spec c (size_min size)) as [->|]; [by left|right].
    simpl. by rewrite Z.eqb_refl; lia.
Qed.
Lemma WidenMax_height :
  WidenMax fuel g r new size = max_ r \/
  (widen_height (size_max size) (WidenMax fuel g r new size) < widen_height (size_max size) (max_ r))%nat.
Proof using All.
  unfold WidenMax. rewrite (ConstantMax_size _ _ _ D), (ConstantMax_size _ _ _ D'), MaxConstant_eq.
  destruct D as ([_ W1] & _ & B1 & _ & S1). unfold UpperBound_size, UpperBound.
  destruct (max_ r) as [| | |s o|c]; try done; cbn [IsSymbol bounds] in *.
  - repeat zif; simpl; try (by left); right; try zif; simpl; lia.
  - subst hi. assert (RangeBoundary_Clamp size (UpperBound_loop g fuel (kConstant c)) = kConstant c) as ->.
    { replace (UpperBound_loop g fuel (kConstant c)) with (kConstant c) by (by destruct fuel).
      unfold RangeBoundary_Clamp. rewrite MinConstant_eq, MaxConstant_eq. destruct S1. simpl.
      repeat zif; try done; f_equal; lia. }
    simpl. zif; [by left|]. destruct (Z.eqb_spec c (size_max size)) as [->|]; [by left|right].
    simpl. by rewrite Z.eqb_refl; lia.
Qed.
End WidenSound.

(** C31: [WidenMin] and [WidenMax] give an upper bound in the lattice, for two
    ranges whose boundaries have run-time values of the size (either range may
    be empty at run time): every value of the size in the old or in the new
    range is in the widened one; and each of them changes a boundary at most
    twice (symbol, constant, limit of the size), so widening a phi stops.  The
    condition on the values is needed: [Widen_beyond_size_unsound] has a
    symbolic boundary whose value is past the end of the size. *)
Theorem Widen_sound_and_finite fuel g rho rank size r new lo hi lo' hi' :
  acyclic fuel g rank -> ranges_hold g rho -> agrees fuel g rho ->
  spans rho size r lo hi -> spans rho size new lo' hi' ->
  (forall v, in_size size v -> in_range rho r v \/ in_range rho new v ->
     let w := MkRange (WidenMin fuel g r new size) (WidenMax fuel g r new size) in
     wf_range rho w /\ in_range rho w v) /\
  (WidenMin fuel g r new size = min_ r \/
   (widen_height (size_min size) (WidenMin fuel g r new size) < widen_height (size_min size) (min_ r) <= 2)%nat) /\
  (WidenMax fuel g r new size = max_ r \/
   (widen_height (size_max size) (WidenMax fuel g r new size) < widen_height (size_max size) (max_ r) <= 2)%nat).
Proof.
  intros Hacy Hrng Hagr D D'.
  assert (Hh : forall limit b, (widen_height limit b <= 2)%nat)
    by (intros ? []; simpl; repeat case_match; lia).
  split_and!.
  - intros v Hv Hin w. rewrite (spans_in _ _ _ _ _ _ D), (spans_in _ _ _ _ _ _ D') in Hin.
    destruct (WidenMin_holds fuel g rho rank Hacy Hrng Hagr size r new lo hi lo' hi' D D' v Hv); [lia|].
    destruct (WidenMax_holds fuel g rho rank Hacy Hrng Hagr size r new lo hi lo' hi' D D' v Hv); [lia|].
    done.
  - destruct (WidenMin_height fuel g rho rank Hacy Hrng Hagr size r new lo hi lo' hi' D D'); auto.
  - destruct (WidenMax_height fuel g rho rank Hacy Hrng Hagr size r new lo hi lo' hi' D D'); auto.
Qed.

(** [[0, v2 - 1]] growing to [[0, 4000]]: the maximum is widened to a constant. *)
Lemma Widen_sound_and_finite_witness :
  let new := MkRange (kConstant 0) (kConstant 4000) in
  MkRange (WidenMin 10 example_graph example_index_range new kRangeBoundarySmi)
          (WidenMax 10 example_graph example_index_range new kRangeBoundarySmi) =
    MkRange (kConstant 0) (kConstant (kSmiMax - 1)) /\
  in_range example_env (MkRange (kConstant 0) (kConstant (kSmiMax - 1))) 4000.
Proof.
  intros new. split; [reflexivity|].
  refine (proj2 (proj1 (Widen_sound_and_finite 10 example_graph example_env example_rank kRangeBoundarySmi
           example_index_range new 0 99 0 4000 _ _ _ _ _) 4000 _ _)).
  - apply example_acyclic.
  - apply example_ranges_hold.
  - apply example_agrees.
  - repeat split; simpl; unfold_consts; lia.
  - repeat split; simpl; unfold_consts; lia.
  - unfold_consts. lia.
  - right. split; simpl; lia.
Defined.

(** A symbolic boundary whose value is not of the size: [v2] is the largest
    Smi, the old range [[v2 + 1, kSmiMax]] is empty and its minimum is past
    the end of the Smi range.  Its bounds are clamped to Smis, so [WidenMin]
    takes the minimum of the old range to be at most that of the new one,
    [[kSmiMax, kSmiMax]], and keeps it: the widened range does not have the
    value of the new range. *)
Definition widen_graph : graph := fun d =>
  match d with
  | 2%positive => MkDefinition (OtherInstr 0 [] 0 false) (Some (MkRange (kConstant 0) (kConstant kSmiMax)))
  | _ => MkDefinition (OtherInstr 0 [] 0 false) None
  end.
Definition widen_env : env := fun _ => kSmiMax.

Theorem Widen_beyond_size_unsound :
  let old := MkRange (kSymbol 2%positive 1) (kConstant kSmiMax) in
  let new := MkRange (kConstant kSmiMax) (kConstant kSmiMax) in
  let w := MkRange (WidenMin 10 widen_graph old new kRangeBoundarySmi)
                   (WidenMax 10 widen_graph old new kRangeBoundarySmi) in
  in_range widen_env new kSmiMax /\ w = old /\ ~ in_range widen_env w kSmiMax.
Proof.
  intros old new w. split; [split; simpl; lia|]. split; [reflexivity|].
  assert (w = old) as -> by reflexivity. intros [H _]. simpl in H. unfold widen_env in H. lia.
Qed.

(** C30: [ConstraintInstr::InferRange] is sound and never loses a value that
    occurs: if the constrained value is in the range of the input and in the
    constraint, the result is known (so [MarkUnreachableBlocks] keeps the
    branch) and contains the value. *)
Theorem Constraint_InferRange_sound fuel g rho rank types value constraint :
  acyclic fuel g rank -> ranges_hold g rho -> agrees fuel g rho ->
  is_smi (rho value) -> wf_range rho constraint -> in_range rho constraint (rho value) ->
  is_Some (GetSmiRange g types value) ->
  let range := Constraint_InferRange fuel g types value constraint in
  Range_IsUnknown (Some range) = false /\ wf_range rho range /\ in_range rho range (rho value).
Proof.
  intros Hacy Hrng Hagr Hv Wc Hc [r Hr] range.
  assert (S : is_sint 64 (rho value)) by (unfold_consts; lia).
  assert (wf_range rho r /\ in_range rho r (rho value)) as [Wr Ir].
  { unfold GetSmiRange in Hr. destruct (range_ (g value)) as [r0|] eqn:E.
    - injection Hr as <-. by apply Hrng.
    - zif_in Hr; [|done]. injection Hr as <-. split; split; simpl; unfold_consts; lia. }
  assert (Hk : forall q, in_range rho q (rho value) -> Range_IsUnknown (Some q) = false).
  { intros q [Hq _]. simpl. by destruct (min_ q). }
  destruct (Intersect_holds fuel g rho rank r constraint (rho value) Hacy Hrng Hagr Wr Wc Ir Hc S) as [Wi Ii].
  subst range. unfold Constraint_InferRange. rewrite Hr, (Hk r Ir).
  rewrite (IsUnsatisfiable_sound fuel g rho rank Hacy Hrng Hagr _ _ Wi S Ii). auto.
Qed.

(** [v3] constrained to be at most [v2 - 50]. *)
Lemma Constraint_InferRange_sound_witness :
  let range := Constraint_InferRange 10 example_graph branch_types 3%positive
                 (MkRange MinSmi (kSymbol 2%positive (-50))) in
  range = MkRange (kConstant 0) (kSymbol 2%positive (-50)) /\ in_range example_env range 7.
Proof.
  intros range. split; [reflexivity|].
  refine (proj2 (proj2 (Constraint_InferRange_sound 10 example_graph example_env example_rank branch_types
            3%positive (MkRange MinSmi (kSymbol 2%positive (-50))) _ _ _ _ _ _ _))).
  - apply example_acyclic.
  - apply example_ranges_hold.
  - apply example_agrees.
  - simpl. unfold_consts. lia.
  - repeat split; simpl; unfold_consts; lia.
  - split; simpl; unfold_consts; lia.
  - simpl. by eexists.
Defined.

(** The values a load of an element of a class can give. *)
Definition element_value (class_id : ClassId) (v : Z) : Prop :=
  match class_id with
  | kTypedDataInt8ArrayCid => is_sint 8 v
  | kTypedDataUint8ArrayCid | kTypedDataUint8ClampedArrayCid | kExternalTypedDataUint8ArrayCid
  | kExternalTypedDataUint8ClampedArrayCid | kOneByteStringCid | kExternalOneByteStringCid => is_uint 8 v
  | kTypedDataInt16ArrayCid => is_sint 16 v
  | kTypedDataUint16ArrayCid | kTwoByteStringCid | kExternalTwoByteStringCid => is_uint 16 v
  | kTypedDataInt32ArrayCid => is_sint 32 v
  | kTypedDataUint32ArrayCid => is_uint 32 v
  | kOtherCid => is_sint 64 v
  end.
(** [element_count] code units packed into one integer. *)
Definition packed_value (class_id : ClassId) (count v : Z) : Prop :=
  match class_id with
  | kOneByteStringCid | kExternalOneByteStringCid => 0 < count <= 4 /\ is_uint (8 * count) v
  | kTwoByteStringCid | kExternalTwoByteStringCid => 0 < count <= 2 /\ is_uint (16 * count) v
  | _ => False
  end.

Lemma NBitMask_small target_x64 n : 0 <= n < 63 -> NBitMask target_x64 n = 2 ^ n - 1.
Proof.
  intros Hn. unfold NBitMask, kBitsPerWord. destruct (Z.eqb_spec n 64); [lia|].
  rewrite Z.shiftl_1_l. assert (1 <= 2 ^ n <= 2 ^ 62) by (split; [|apply Z.pow_le_mono_r]; lia).
  rewrite swrap_id by (done || unfold is_sint; simpl; lia).
  apply uwrap_id. unfold is_uint. lia.
Qed.

(** the ranges inferred for element loads are those of the element types:
    a loaded element of a typed-data array or string, and [element_count]
    packed code units, are in the range; for [LoadCodeUnits] the range is
    exact. *)
Theorem Load_InferRange_sound rho types defn target_x64 :
  (forall cid v r, cid <> kOtherCid -> cid <> kExternalOneByteStringCid -> cid <> kExternalTwoByteStringCid ->
     element_value cid v -> LoadIndexed_InferRange types defn cid = Some r ->
     wf_range rho r /\ in_range rho r v) /\
  (forall cid count v, packed_value cid count v ->
     exists r, LoadCodeUnits_InferRange target_x64 cid count = Some r /\
       wf_range rho r /\ forall u, in_range rho r u <-> packed_value cid count u).
Proof.
  split.
  - intros cid v r H1 H2 H3. destruct cid; try done; simpl; unfold is_sint, is_uint; intros Hv;
      intros [= <-]; split; split; simpl; unfold_consts; unfold kMaxUint32; lia.
  - assert (Hmask : forall n, 0 < n <= 32 ->
      let r := mkRange (FromConstant 0) (FromConstant (s64 (NBitMask target_x64 n))) in
      wf_range rho r /\ forall u, in_range rho r u <-> is_uint n u).
    { intros n Hn. rewrite NBitMask_small by lia.
      assert (1 <= 2 ^ n <= 2 ^ 32) by (split; [|apply Z.pow_le_mono_r]; lia).
      rewrite swrap_id by (done || unfold is_sint; simpl; lia).
      split; [split; simpl; unfold is_sint; simpl; lia|].
      intros u. unfold in_range, is_uint. simpl. lia. }
    intros cid count v Hp. destruct cid; simpl in Hp; try done; destruct Hp as [Hcount _];
      unfold LoadCodeUnits_InferRange, kBitsPerByte; (eexists; split; [reflexivity|]).
    all: change (2 * 8) with 16; match goal with |- context [NBitMask _ ?n] => destruct (Hmask n) as [W Hr]; [lia|] end.
    all: split; [done|]; intros u; rewrite Hr; simpl; split; [intros; split; [lia|done]|by intros []].
Qed.

(** Two packed one-byte code units. *)
Lemma Load_InferRange_sound_witness :
  (exists r, LoadCodeUnits_InferRange true kOneByteStringCid 2 = Some r /\
     wf_range example_env r /\ forall u, in_range example_env r u <-> packed_value kOneByteStringCid 2 u) /\
  in_range example_env (MkRange (kConstant (-128)) (kConstant 127)) (-5).
Proof.
  split.
  - apply (proj2 (Load_InferRange_sound example_env branch_types 1%positive true) kOneByteStringCid 2 65535).
    split; [lia|]. unfold is_uint. lia.
  - apply (proj1 (Load_InferRange_sound example_env branch_types 1%positive true) kTypedDataInt8ArrayCid (-5)).
    + discriminate.
    + discriminate.
    + discriminate.
    + unfold element_value, is_sint. lia.
    + reflexivity.
Defined.
