(* ===== verification/DataStream.v ===== *)
(** * Byte streams (src/runtime/vm/datastream.{h,cc})

    [WriteStream] appends variable-length integers to a growing buffer,
    [ReadStream] reads them back; snapshots, stack maps and source maps are
    written with them. [StreamingWriteStream] hands its buffer to a callback
    whenever it is full. Pointers into a buffer are offsets from its start.
    The allocator is a parameter with the contract of [realloc]. *)
From S2P Require Import Prelude Utils.
Local Open Scope Z_scope.
Local Open Scope vm_scope.

(** ** Definitions *)
Definition kDataBitsPerByte : Z := 7.
Definition kByteMask : Z := (1 <<< kDataBitsPerByte) - 1.
Definition kMaxUnsignedDataPerByte : Z := kByteMask.
Definition kMinDataPerByte : Z := - (1 <<< (kDataBitsPerByte - 1)).
Definition kMaxDataPerByte : Z := Z.lnot kMinDataPerByte &&& kByteMask.
Definition kEndByteMarker : Z := 255 - kMaxDataPerByte.
Definition kEndUnsignedByteMarker : Z := 255 - kMaxUnsignedDataPerByte.

(** *** Reading *)
Record ReadStream := MkReadStream { rs_buffer : list Z; rs_current : Z }.

(** [None]: a read past the end of the buffer (an ASSERT in the code). *)
Definition ReadByte (st : ReadStream) : option (Z * ReadStream) :=
  b ← arr_get (rs_buffer st) (rs_current st);
  Some (b, MkReadStream (rs_buffer st) (rs_current st + 1)).

Definition ReadBytes (st : ReadStream) (len : Z) : option (list Z * ReadStream) :=
  if zlen (rs_buffer st) - rs_current st >=? len then
    Some (take (Z.to_nat len) (drop (Z.to_nat (rs_current st)) (rs_buffer st)),
          MkReadStream (rs_buffer st) (rs_current st + len))
  else None.
Definition ReadStream_Advance (st : ReadStream) (value : Z) : ReadStream :=
  MkReadStream (rs_buffer st) (rs_current st + value).
Definition ReadStream_Align (st : ReadStream) (alignment : Z) : ReadStream :=
  let position_before := rs_current st in
  let position_after := RoundUp position_before alignment in
  ReadStream_Advance st (position_after - position_before).
Definition PendingBytes (st : ReadStream) : Z := zlen (rs_buffer st) - rs_current st.

(** [Read<T>(end_byte_marker)] for a signed [T] of [w] bits; [b] is the byte
    read last. The fuel bounds the bytes left in the buffer. *)
Fixpoint Read_loop (fuel : nat) (w end_byte_marker : Z) (st : ReadStream) (r s b : Z)
    : option (Z * ReadStream) :=
  match fuel with
  | O => None
  | S n =>
      let r := swrap w (r ||| swrap w (b <<< s)) in
      let s := u8 (s + kDataBitsPerByte) in
      '(b, st) ← ReadByte st;
      if b <=? kMaxUnsignedDataPerByte then Read_loop n w end_byte_marker st r s b
      else Some (swrap w (r ||| swrap w ((b - end_byte_marker) <<< s)), st)
  end.
Definition Read (w end_byte_marker : Z) (st : ReadStream) : option (Z * ReadStream) :=
  '(b, st) ← ReadByte st;
  if b >? kMaxUnsignedDataPerByte then Some (swrap w (b - end_byte_marker), st)
  else Read_loop (length (rs_buffer st)) w end_byte_marker st 0 0 b.
Definition ReadUnsigned : ReadStream -> option (Z * ReadStream) := Read 64 kEndUnsignedByteMarker.

(** The unrolled readers: one block reads a byte, returns if it is the last
    one, and otherwise continues with the accumulated bits. *)
Definition read_block (w end_byte_marker shift r : Z) (st : ReadStream)
    (continue : Z -> ReadStream -> option (Z * ReadStream)) : option (Z * ReadStream) :=
  '(b, st) ← ReadByte st;
  if b >? kMaxUnsignedDataPerByte then
    Some (swrap w (r ||| swrap w ((b - end_byte_marker) <<< shift)), st)
  else continue (swrap w (r ||| swrap w (b <<< shift))) st.
(** The last block asserts that the byte is an end byte. *)
Definition read_last (w end_byte_marker shift r : Z) (st : ReadStream) : option (Z * ReadStream) :=
  read_block w end_byte_marker shift r st (fun _ _ => None).

Definition Read16 (m : Z) (st : ReadStream) : option (Z * ReadStream) :=
  read_block 16 m 0 0 st (fun r st =>
  read_block 16 m 7 r st (fun r st =>
  read_last 16 m 14 r st)).
Definition Read32 (m : Z) (st : ReadStream) : option (Z * ReadStream) :=
  read_block 32 m 0 0 st (fun r st =>
  read_block 32 m 7 r st (fun r st =>
  read_block 32 m 14 r st (fun r st =>
  read_block 32 m 21 r st (fun r st =>
  read_last 32 m 28 r st)))).
Definition Read64 (m : Z) (st : ReadStream) : option (Z * ReadStream) :=
  read_block 64 m 0 0 st (fun r st =>
  read_block 64 m 7 r st (fun r st =>
  read_block 64 m 14 r st (fun r st =>
  read_block 64 m 21 r st (fun r st =>
  read_block 64 m 28 r st (fun r st =>
  read_block 64 m 35 r st (fun r st =>
  read_block 64 m 42 r st (fun r st =>
  read_block 64 m 49 r st (fun r st =>
  read_block 64 m 56 r st (fun r st =>
  read_last 64 m 63 r st))))))))).

(** [Raw<N, T>::Read] for a signed [T] of [N] bytes ([bit_cast] of the byte for
    [N = 1]). *)
Definition Raw_Read (N : Z) (st : ReadStream) : option (Z * ReadStream) :=
  match N with
  | 1 => '(b, st) ← ReadByte st; Some (swrap 8 b, st)
  | 2 => Read16 kEndByteMarker st
  | 4 => Read32 kEndByteMarker st
  | 8 => Read64 kEndByteMarker st
  | _ => None
  end.

(** *** Writing *)
(** [ws_buffer] has [current_size_] bytes; [end_] is its end. *)
Record WriteStream := MkWriteStream {
  ws_buffer : list Z;
  ws_current : Z;
  ws_initial_size : Z }.

(** [ReAlloc]: grows a block, keeping its contents; [None] is [NULL]. *)
Class ReAlloc (alloc : list Z -> Z -> option (list Z)) : Prop := {
  alloc_size ptr n b : alloc ptr n = Some b -> 0 <= n -> zlen b = n;
  alloc_keeps ptr n b : alloc ptr n = Some b -> zlen ptr <= n -> exists ext, b = ptr ++ ext }.

Section Write.
Context (alloc : list Z -> Z -> option (list Z)).

(** [None]: [Exceptions::ThrowOOM] or a write outside the buffer. *)
Definition WriteStream_new (initial_size : Z) : option WriteStream :=
  b ← alloc [] initial_size; Some (MkWriteStream b 0 initial_size).

Definition Resize (size_needed : Z) (st : WriteStream) : option WriteStream :=
  let current_size := zlen (ws_buffer st) in
  let increment_size :=
    if size_needed >? current_size then RoundUp size_needed (ws_initial_size st) else current_size in
  let new_size := current_size + increment_size in
  b ← alloc (ws_buffer st) new_size;
  Some (MkWriteStream b (ws_current st) (ws_initial_size st)).

Definition ensure (size : Z) (st : WriteStream) : option WriteStream :=
  if zlen (ws_buffer st) - ws_current st <? size then Resize size st else Some st.

Definition WriteByte (value : Z) (st : WriteStream) : option WriteStream :=
  st ← (if ws_current st >=? zlen (ws_buffer st) then Resize 1 st else Some st);
  b ← arr_set (ws_buffer st) (ws_current st) value;
  Some (MkWriteStream b (ws_current st + 1) (ws_initial_size st)).

(** [memmove] of the bytes to [current_]. *)
Definition copy_in (bytes : list Z) (st : WriteStream) : option WriteStream :=
  if ws_current st + zlen bytes <=? zlen (ws_buffer st) then
    Some (MkWriteStream
            (take (Z.to_nat (ws_current st)) (ws_buffer st) ++ bytes ++
             drop (Z.to_nat (ws_current st + zlen bytes)) (ws_buffer st))
            (ws_current st + zlen bytes) (ws_initial_size st))
  else None.
Definition WriteBytes (bytes : list Z) (st : WriteStream) : option WriteStream :=
  st ← ensure (zlen bytes) st; copy_in bytes st.
(** The 8 bytes of a word, in the order of a little-endian host. *)
Definition word_bytes (value : Z) : list Z :=
  (fun i => u8 (value >>> (8 * i))) <$> [0; 1; 2; 3; 4; 5; 6; 7].
Definition WriteWord (value : Z) (st : WriteStream) : option WriteStream :=
  st ← ensure 8 st; copy_in (word_bytes value) st.
(** [memset] does not grow the buffer. *)
Definition WriteStream_Align (alignment : Z) (st : WriteStream) : option WriteStream :=
  let position_before := ws_current st in
  let position_after := RoundUp position_before alignment in
  copy_in (replicate (Z.to_nat (position_after - position_before)) 0) st.

(** Fuel: a [w]-bit value takes at most [w / 7 + 1] bytes. *)
Fixpoint WriteUnsigned_loop (fuel : nat) (value : Z) (st : WriteStream) : option WriteStream :=
  match fuel with
  | O => None
  | S n =>
      if value >? kMaxUnsignedDataPerByte then
        st ← WriteByte (value &&& kByteMask) st;
        WriteUnsigned_loop n (value >>> kDataBitsPerByte) st
      else WriteByte (u8 (value + kEndUnsignedByteMarker)) st
  end.
Definition WriteUnsigned : Z -> WriteStream -> option WriteStream := WriteUnsigned_loop 10.

Fixpoint Write_loop (fuel : nat) (v : Z) (st : WriteStream) : option WriteStream :=
  match fuel with
  | O => None
  | S n =>
      if (v <? kMinDataPerByte) || (v >? kMaxDataPerByte) then
        st ← WriteByte (v &&& kByteMask) st;
        Write_loop n (v >>> kDataBitsPerByte) st
      else WriteByte (u8 (v + kEndByteMarker)) st
  end.
Definition Write : Z -> WriteStream -> option WriteStream := Write_loop 10.

Definition Raw_Write (N value : Z) (st : WriteStream) : option WriteStream :=
  match N with
  | 1 => WriteByte (u8 value) st
  | 2 | 4 | 8 => Write value st
  | _ => None
  end.
End Write.

(** *** Streaming *)
Record StreamingWriteStream := MkStreaming {
  sw_buffer : list Z;       (** [limit_ - buffer_] bytes *)
  sw_cursor : Z;
  sw_flushed_size : Z;
  sw_output : list Z }.     (** what the callback has received *)

Section Streaming.
Context (malloc : Z -> option (list Z)).

Definition position (st : StreamingWriteStream) : Z := sw_flushed_size st + sw_cursor st.
Definition StreamingWriteStream_new (initial_capacity : Z) : option StreamingWriteStream :=
  b ← malloc initial_capacity; Some (MkStreaming b 0 0 []).
Definition Flush (st : StreamingWriteStream) : StreamingWriteStream :=
  let size := sw_cursor st in
  MkStreaming (sw_buffer st) 0 (sw_flushed_size st + size)
    (sw_output st ++ take (Z.to_nat size) (sw_buffer st)).
Definition EnsureAvailableSlowPath (needed : Z) (st : StreamingWriteStream)
    : option StreamingWriteStream :=
  let st := Flush st in
  if zlen (sw_buffer st) - sw_cursor st >=? needed then Some st
  else
    b ← malloc (RoundUp needed (64 * 1024));
    Some (MkStreaming b 0 (sw_flushed_size st) (sw_output st)).
Definition EnsureAvailable (needed : Z) (st : StreamingWriteStream) : option StreamingWriteStream :=
  if zlen (sw_buffer st) - sw_cursor st >=? needed then Some st
  else EnsureAvailableSlowPath needed st.
Definition sw_copy (bytes : list Z) (st : StreamingWriteStream) : option StreamingWriteStream :=
  if sw_cursor st + zlen bytes <=? zlen (sw_buffer st) then
    Some (MkStreaming
            (take (Z.to_nat (sw_cursor st)) (sw_buffer st) ++ bytes ++
             drop (Z.to_nat (sw_cursor st + zlen bytes)) (sw_buffer st))
            (sw_cursor st + zlen bytes) (sw_flushed_size st) (sw_output st))
  else None.
Definition Streaming_WriteBytes (bytes : list Z) (st : StreamingWriteStream)
    : option StreamingWriteStream :=
  st ← EnsureAvailable (zlen bytes) st; sw_copy bytes st.
Definition Streaming_Align (alignment : Z) (st : StreamingWriteStream)
    : option StreamingWriteStream :=
  let padding := RoundUp (position st) alignment - position st in
  st ← EnsureAvailable padding st; sw_copy (replicate (Z.to_nat padding) 0) st.
(** The destructor: what the callback has received in the end. *)
Definition Streaming_finish (st : StreamingWriteStream) : list Z := sw_output (Flush st).
End Streaming.

(** ** The stream as an append-only sequence *)
Definition written (st : WriteStream) : list Z := take (Z.to_nat (ws_current st)) (ws_buffer st).
(** Invariant: the cursor is inside the buffer, whose growth unit is a power
    of two. *)
Definition wf_write (st : WriteStream) : Prop :=
  0 <= ws_current st <= zlen (ws_buffer st) /\
  exists k, 0 <= k <= 32 /\ ws_initial_size st = 2 ^ k.

(** [appends f bytes]: from every well-formed stream [f] succeeds, keeps the
    invariant and appends [bytes]. *)
Definition appends (f : WriteStream -> option WriteStream) (bytes : list Z) : Prop :=
  forall st, wf_write st -> exists st', f st = Some st' /\ wf_write st' /\ written st' = written st ++ bytes.

Section WriteSpec.
Context (alloc : list Z -> Z -> option (list Z)) `{!ReAlloc alloc}.
Context (alloc_total : forall ptr n, is_Some (alloc ptr n)).

Lemma Resize_spec size st :
  0 < size <= 2 ^ 62 -> wf_write st ->
  exists st', Resize alloc size st = Some st' /\ wf_write st' /\ written st' = written st /\
    ws_current st' = ws_current st /\ size <= zlen (ws_buffer st') - ws_current st'.
Proof using All.
  intros Hs [Hc (k & Hk & Hi)]. unfold Resize. rewrite Hi.
  set (inc := if size >? _ then _ else _).
  assert (Hinc : size <= inc).
  { subst inc. zif; [|lia].
    assert (1 <= 2 ^ k <= 2 ^ 32) by (split; [|apply Z.pow_le_mono_r]; lia).
    destruct (RoundUp_spec k (proj1 Hk) size) as [_ [? _]]; [unfold is_sint; simpl; lia|done]. }
  destruct (alloc_total (ws_buffer st) (zlen (ws_buffer st) + inc)) as [b Hb]. rewrite Hb.
  destruct (alloc_keeps _ _ _ Hb) as [ext ->]; [lia|].
  pose proof (alloc_size _ _ _ Hb) as Hz. rewrite zlen_app in Hz.
  eexists. split; [reflexivity|]. unfold wf_write, written. simpl. rewrite zlen_app.
  unfold zlen in *. split_and!; try lia; [by exists k|].
  rewrite take_app_le by lia. done.
Qed.

Lemma copy_in_spec bytes st :
  wf_write st -> zlen bytes <= zlen (ws_buffer st) - ws_current st ->
  exists st', copy_in bytes st = Some st' /\ wf_write st' /\ written st' = written st ++ bytes.
Proof using.
  intros [Hc Hk] Hb. unfold copy_in. zif; [|lia]. eexists. split; [reflexivity|].
  unfold wf_write, written, zlen in *. simpl. rewrite !length_app, length_take, length_drop.
  split; [split; [lia|done]|].
  rewrite app_assoc, take_app_le by (rewrite length_app, length_take; lia).
  apply take_ge. rewrite length_app, length_take. lia.
Qed.

Lemma ensure_spec size st :
  0 <= size <= 2 ^ 62 -> wf_write st ->
  exists st', ensure alloc size st = Some st' /\ wf_write st' /\ written st' = written st /\
    size <= zlen (ws_buffer st') - ws_current st'.
Proof using All.
  intros Hs Hwf. unfold ensure. zif; [|exists st; split_and!; done || lia].
  destruct Hwf as [Hc Hk]. destruct (Resize_spec size st) as (st' & ? & ? & ? & _ & ?); [lia|by split|].
  by exists st'.
Qed.

Lemma WriteBytes_appends bytes : zlen bytes <= 2 ^ 62 -> appends (WriteBytes alloc bytes) bytes.
Proof using All.
  intros Hb st Hwf. pose proof (zlen_nonneg bytes).
  destruct (ensure_spec (zlen bytes) st) as (st1 & E1 & W1 & Wr1 & Hroom); [lia|done|].
  destruct (copy_in_spec bytes st1 W1 Hroom) as (st2 & E2 & W2 & Wr2).
  exists st2. unfold WriteBytes. rewrite E1. simpl. rewrite E2, Wr2, Wr1. done.
Qed.

Lemma WriteWord_appends v : appends (WriteWord alloc v) (word_bytes v).
Proof using All.
  intros st Hwf. destruct (ensure_spec 8 st) as (st1 & E1 & W1 & Wr1 & Hroom); [lia|done|].
  destruct (copy_in_spec (word_bytes v) st1 W1 Hroom) as (st2 & E2 & W2 & Wr2).
  exists st2. unfold WriteWord. rewrite E1. cbn [mbind option_bind]. rewrite E2, Wr2, Wr1. done.
Qed.

Lemma WriteByte_appends v : appends (WriteByte alloc v) [v].
Proof using All.
  intros st Hwf. unfold WriteByte.
  assert (exists st1, (if ws_current st >=? zlen (ws_buffer st) then Resize alloc 1 st else Some st) = Some st1 /\
    wf_write st1 /\ written st1 = written st /\ ws_current st1 < zlen (ws_buffer st1)) as (st1 & -> & W1 & Wr1 & Hroom).
  { zif; [|by exists st].
    destruct (Resize_spec 1 st) as (st' & ? & ? & ? & _ & ?); [lia|done|]. exists st'. split_and!; done || lia. }
  simpl. destruct W1 as [Hc Hk].
  assert (arr_set (ws_buffer st1) (ws_current st1) v =
          Some (<[Z.to_nat (ws_current st1) := v]> (ws_buffer st1))) as -> by (apply arr_set_Some; split; done || lia).
  eexists. split; [reflexivity|]. unfold wf_write, written, zlen in *. simpl. rewrite length_insert.
  split; [split; [lia|done]|]. rewrite <- Wr1.
  replace (Z.to_nat (ws_current st1 + 1)) with (S (Z.to_nat (ws_current st1))) by lia.
  rewrite (take_S_r _ _ v) by (apply list_lookup_insert_eq; lia). f_equal. apply take_insert_ge. lia.
Qed.
End WriteSpec.

(** ** Variable-length integers

    [Encodes dom lo hi m v bytes]: little-endian groups of 7 bits, while [v]
    is outside [[lo, hi]], then the rest plus the marker [m]. *)
Inductive Encodes (dom : Z -> Prop) (lo hi m : Z) : Z -> list Z -> Prop :=
| Encodes_last v : dom v -> lo <= v <= hi -> Encodes dom lo hi m v [v + m]
| Encodes_more v bytes :
    dom v -> ~ lo <= v <= hi -> Encodes dom lo hi m (v / 128) bytes ->
    Encodes dom lo hi m v (v mod 128 :: bytes).
Definition signed_encoding : Z -> list Z -> Prop := Encodes (fun _ => True) (-64) 63 192.
Definition unsigned_encoding : Z -> list Z -> Prop := Encodes (fun v => 0 <= v) 0 127 128.

Lemma data_consts :
  kByteMask = 2 ^ 7 - 1 /\ kMaxUnsignedDataPerByte = 127 /\ kMinDataPerByte = -64 /\
  kMaxDataPerByte = 63 /\ kEndByteMarker = 192 /\ kEndUnsignedByteMarker = 128.
Proof. repeat split. Qed.

Lemma appends_cons f g b bytes :
  appends f [b] -> appends g bytes -> appends (fun st => st ← f st; g st) (b :: bytes).
Proof.
  intros Hf Hg st Hst. destruct (Hf st Hst) as (st1 & E1 & W1 & Wr1).
  destruct (Hg st1 W1) as (st2 & E2 & W2 & Wr2). exists st2. rewrite E1. simpl.
  rewrite E2, Wr2, Wr1, <- app_assoc. done.
Qed.

Section Encoding.
Context (alloc : list Z -> Z -> option (list Z)) `{!ReAlloc alloc}.
Context (alloc_total : forall ptr n, is_Some (alloc ptr n)).

Lemma Write_loop_S n v st :
  Write_loop alloc (S n) v st =
  if decide (-64 <= v <= 63) then WriteByte alloc (v + 192) st
  else st ← WriteByte alloc (v mod 128) st; Write_loop alloc n (v / 128) st.
Proof using.
  destruct data_consts as (Em & _ & E1 & E2 & E3 & _).
  simpl. rewrite Em, E1, E2, E3, land_low, Z.shiftr_div_pow2 by done.
  case_decide; zif; try lia; [|done]. by rewrite (uwrap_id 8 (v + 192)) by (unfold is_uint; lia).
Qed.
Lemma WriteUnsigned_loop_S n v st :
  0 <= v ->
  WriteUnsigned_loop alloc (S n) v st =
  if decide (0 <= v <= 127) then WriteByte alloc (v + 128) st
  else st ← WriteByte alloc (v mod 128) st; WriteUnsigned_loop alloc n (v / 128) st.
Proof using.
  destruct data_consts as (Em & E1 & _ & _ & _ & E3). intros Hv.
  simpl. rewrite Em, E1, E3, land_low, Z.shiftr_div_pow2 by done.
  case_decide; zif; try lia; [|done]. by rewrite (uwrap_id 8 (v + 128)) by (unfold is_uint; lia).
Qed.

Lemma appends_ext f g bytes : (forall st, f st = g st) -> appends g bytes -> appends f bytes.
Proof using. intros E H st Hst. rewrite E. by apply H. Qed.

(** A value of [7 n + 6] bits takes at most [n + 1] bytes. *)
Lemma Write_loop_appends n v :
  - 2 ^ (7 * Z.of_nat n + 6) <= v < 2 ^ (7 * Z.of_nat n + 6) ->
  exists bytes, signed_encoding v bytes /\ (length bytes <= S n)%nat /\ appends (Write_loop alloc (S n) v) bytes.
Proof using All.
  revert v. induction n as [|n IH]; intros v Hv; destruct (decide (-64 <= v <= 63)) as [Hin|Hout].
  1, 3: exists [v + 192]; split; [by constructor|]; split; [simpl; lia|];
    apply (appends_ext _ (WriteByte alloc (v + 192))); [|by apply WriteByte_appends];
    intros st; rewrite Write_loop_S; by case_decide.
  - change (2 ^ (7 * Z.of_nat 0 + 6)) with 64 in Hv. lia.
  - destruct (IH (v / 128)) as (bytes & He & Hl & Ha).
    { replace (7 * Z.of_nat (S n) + 6) with ((7 * Z.of_nat n + 6) + 7) in Hv by lia.
      rewrite Z.pow_add_r in Hv by lia. change (2 ^ 7) with 128 in Hv.
      split; [apply Z.div_le_lower_bound|apply Z.div_lt_upper_bound]; lia. }
    exists (v mod 128 :: bytes). split; [by constructor|]. split; [simpl; lia|].
    apply (appends_ext _ (fun st => st ← WriteByte alloc (v mod 128) st; Write_loop alloc (S n) (v / 128) st));
      [intros st; rewrite Write_loop_S; by case_decide|].
    apply appends_cons; [by apply WriteByte_appends|done].
Qed.

Lemma WriteUnsigned_loop_appends n v :
  0 <= v < 2 ^ (7 * Z.of_nat n + 7) ->
  exists bytes, unsigned_encoding v bytes /\ (length bytes <= S n)%nat /\
    appends (WriteUnsigned_loop alloc (S n) v) bytes.
Proof using All.
  revert v. induction n as [|n IH]; intros v Hv; destruct (decide (0 <= v <= 127)) as [Hin|Hout].
  1, 3: exists [v + 128]; split; [by constructor; lia|]; split; [simpl; lia|];
    apply (appends_ext _ (WriteByte alloc (v + 128))); [|by apply WriteByte_appends];
    intros st; rewrite WriteUnsigned_loop_S by lia; by case_decide.
  - change (2 ^ (7 * Z.of_nat 0 + 7)) with 128 in Hv. lia.
  - destruct (IH (v / 128)) as (bytes & He & Hl & Ha).
    { replace (7 * Z.of_nat (S n) + 7) with ((7 * Z.of_nat n + 7) + 7) in Hv by lia.
      rewrite Z.pow_add_r in Hv by lia. change (2 ^ 7) with 128 in Hv.
      split; [apply Z.div_pos; lia|apply Z.div_lt_upper_bound; lia]. }
    exists (v mod 128 :: bytes). split; [constructor; (done || lia)|]. split; [simpl; lia|].
    apply (appends_ext _ (fun st => st ← WriteByte alloc (v mod 128) st; WriteUnsigned_loop alloc (S n) (v / 128) st));
      [intros st; rewrite WriteUnsigned_loop_S by lia; by case_decide|].
    apply appends_cons; [by apply WriteByte_appends|done].
Qed.
End Encoding.

(** ** Reading back *)
Definition rest (st : ReadStream) : list Z := drop (Z.to_nat (rs_current st)) (rs_buffer st).
(** [reads f bytes v]: wherever [bytes] comes next, [f] returns [v] and moves
    past [bytes]. *)
Definition reads (f : ReadStream -> option (Z * ReadStream)) (bytes : list Z) (v : Z) : Prop :=
  forall st tail, 0 <= rs_current st -> rest st = bytes ++ tail ->
    exists st', f st = Some (v, st') /\ rest st' = tail /\ rs_current st' = rs_current st + zlen bytes.

Lemma ReadByte_rest st b l :
  0 <= rs_current st -> rest st = b :: l ->
  ReadByte st = Some (b, ReadStream_Advance st 1) /\ rest (ReadStream_Advance st 1) = l.
Proof.
  unfold rest. intros Hc Hr. unfold ReadByte, arr_get. zif; [|lia].
  assert (rs_buffer st !! Z.to_nat (rs_current st) = Some b) as ->.
  { rewrite <- (Nat.add_0_r (Z.to_nat _)), <- lookup_drop, Hr. done. }
  split; [done|]. simpl. replace (Z.to_nat (rs_current st + 1)) with (S (Z.to_nat (rs_current st))) by lia.
  rewrite <- (Nat.add_1_r (Z.to_nat _)), <- drop_drop, Hr. done.
Qed.

Section Reading.
Context (dom : Z -> Prop) (lo hi m w : Z).
Context (Hm : 128 <= lo + m) (HM : hi + m <= 255) (Hlo : lo <= 0) (Hw : 8 <= w <= 64).
(** Another group of 7 bits fits below the sign bit. *)
Context (Hroom : forall v s r, dom v -> 0 <= s -> 0 <= r < 2 ^ s -> is_sint w (v * 2 ^ s + r) ->
  ~ lo <= v <= hi -> s + 7 <= w - 1).
Context (Hdom : forall v, dom v -> dom (v / 128)).

(** Accumulating the group [v mod 128] on top of [s] bits. *)
Lemma accumulate v s r :
  dom v -> 0 <= s -> 0 <= r < 2 ^ s -> is_sint w (v * 2 ^ s + r) -> ~ lo <= v <= hi ->
  let r' := swrap w (r ||| swrap w ((v mod 128) <<< s)) in
  s + 7 <= w - 1 /\ r' = v mod 128 * 2 ^ s + r /\ 0 <= r' < 2 ^ (s + 7) /\
  v / 128 * 2 ^ (s + 7) + r' = v * 2 ^ s + r.
Proof using All.
  intros Hd Hs Hr Hv Hout r'. pose proof (Hroom v s r Hd Hs Hr Hv Hout) as Hs7.
  pose proof (Z.mod_pos_bound v 128 ltac:(lia)) as Hb.
  assert (Hp7 : 2 ^ (s + 7) = 2 ^ s * 128) by (rewrite Z.pow_add_r by lia; done).
  assert (Hr' : 0 <= v mod 128 * 2 ^ s + r < 2 ^ (s + 7)) by nia.
  assert (Hpw : 2 ^ (s + 7) <= 2 ^ (w - 1)) by (apply Z.pow_le_mono_r; lia).
  assert (Er : r' = v mod 128 * 2 ^ s + r)
    by (apply shl_add; [lia|done|unfold is_sint; lia]).
  rewrite Er. split_and!; [done..|lia|lia|].
  pose proof (Z.div_mod v 128 ltac:(lia)). rewrite Hp7. nia.
Qed.

Lemma encoded_nonempty v bytes :
  Encodes dom lo hi m v bytes ->
  exists b l, bytes = b :: l /\
    ((l = [] /\ b = v + m /\ lo <= v <= hi /\ kMaxUnsignedDataPerByte < b <= 255) \/
     (b = v mod 128 /\ 0 <= b <= kMaxUnsignedDataPerByte /\ ~ lo <= v <= hi /\ Encodes dom lo hi m (v / 128) l)).
Proof using All.
  change kMaxUnsignedDataPerByte with 127. intros [v' Hd Hv|v' l Hd Hv He].
  - exists (v' + m), []. split; [done|]. left. split_and!; (done || lia).
  - exists (v' mod 128), l. split; [done|]. right.
    pose proof (Z.mod_pos_bound v' 128 ltac:(lia)). split_and!; (done || lia).
Qed.

Lemma Encodes_dom v bytes : Encodes dom lo hi m v bytes -> dom v.
Proof using. by destruct 1. Qed.

Lemma Read_loop_encoded n : forall v bytes tail r s st,
  Encodes dom lo hi m (v / 128) bytes -> dom v -> ~ lo <= v <= hi ->
  0 <= s -> 0 <= r < 2 ^ s -> is_sint w (v * 2 ^ s + r) ->
  0 <= rs_current st -> rest st = bytes ++ tail -> (length bytes <= n)%nat ->
  exists st', Read_loop n w m st r s (v mod 128) = Some (v * 2 ^ s + r, st') /\ rest st' = tail /\
    rs_current st' = rs_current st + zlen bytes.
Proof using All.
  induction n as [|n IH]; intros v bytes tail r s st He Hd Hout Hs Hr Hv Hc Hrest Hlen.
  { destruct (encoded_nonempty _ _ He) as (b & l & -> & _). simpl in Hlen. lia. }
  destruct (accumulate v s r Hd Hs Hr Hv Hout) as (Hs7 & Er & Hr' & Hsum).
  cbn [Read_loop]. rewrite Er. change kDataBitsPerByte with 7.
  rewrite (uwrap_id 8 (s + 7)) by (unfold is_uint; lia).
  rewrite Er in Hr'. rewrite Er in Hsum.
  destruct (encoded_nonempty _ _ He) as (b & l & -> & Hb).
  destruct (ReadByte_rest st b (l ++ tail) Hc Hrest) as [-> Hrest']. cbn [mbind option_bind].
  destruct Hb as [(-> & Eb & Hin & Hbig)|(Eb & Hsmall & Hout' & He')].
  - zif; [lia|]. subst b. replace (v / 128 + m - m) with (v / 128) by lia.
    rewrite shl_add by (rewrite ?Hsum; done || lia). rewrite Hsum.
    eexists. split; [reflexivity|]. done.
  - zif; [|lia]. subst b.
    destruct (IH (v / 128) l tail (v mod 128 * 2 ^ s + r) (s + 7) (ReadStream_Advance st 1)) as (st' & Est & Hr1 & Hc');
      auto; try lia; [by rewrite Hsum|simpl; lia|simpl in Hlen; lia|].
    exists st'. rewrite Est, Hsum. split; [done|]. split; [done|]. rewrite Hc'. simpl. unfold zlen. simpl. lia.
Qed.

(** [Read<T>] inverts the encoding. *)
Lemma Read_encoded v bytes :
  Encodes dom lo hi m v bytes -> is_sint w v -> reads (Read w m) bytes v.
Proof using All.
  intros He Hv st tail Hc Hrest. unfold Read.
  destruct (encoded_nonempty _ _ He) as (b & l & -> & Hb).
  destruct (ReadByte_rest st b (l ++ tail) Hc Hrest) as [-> Hrest']. cbn [mbind option_bind].
  destruct Hb as [(-> & -> & Hin & Hbig)|(-> & Hsmall & Hout & He')].
  - zif; [|lia]. replace (v + m - m) with v by lia. rewrite swrap_id by (done || lia).
    eexists. split; [reflexivity|]. done.
  - zif; [lia|].
    destruct (Read_loop_encoded (length (rs_buffer (ReadStream_Advance st 1))) v l tail 0 0 (ReadStream_Advance st 1))
      as (st' & Est & Hr1 & Hc'); simpl; try done; try lia.
    + by eapply Encodes_dom.
    + by rewrite Z.mul_1_r, Z.add_0_r.
    + assert (Hlen : length (rest (ReadStream_Advance st 1)) = length (l ++ tail)) by (by rewrite Hrest').
      unfold rest in Hlen. rewrite length_drop, length_app in Hlen. simpl in Hlen. lia.
    + exists st'. simpl in Est. rewrite Est. split; [f_equal; f_equal; lia|]. split; [done|].
      rewrite Hc'. simpl. unfold zlen. simpl. lia.
Qed.

(** The unrolled readers, as a recursion on the blocks left. *)
Fixpoint unrolled (n : nat) (s r : Z) (st : ReadStream) : option (Z * ReadStream) :=
  match n with
  | O => read_last w m s r st
  | S n => read_block w m s r st (fun r st => unrolled n (s + 7) r st)
  end.

Lemma unrolled_encoded n : forall v bytes tail r s st,
  Encodes dom lo hi m v bytes -> 0 <= s < w -> 0 <= r < 2 ^ s -> is_sint w (v * 2 ^ s + r) ->
  0 <= rs_current st -> rest st = bytes ++ tail -> (length bytes <= S n)%nat ->
  exists st', unrolled n s r st = Some (v * 2 ^ s + r, st') /\ rest st' = tail /\
    rs_current st' = rs_current st + zlen bytes.
Proof using All.
  induction n as [|n IH]; intros v bytes tail r s st He Hs Hr Hv Hc Hrest Hlen;
    destruct (encoded_nonempty _ _ He) as (b & l & -> & Hb);
    destruct (ReadByte_rest st b (l ++ tail) Hc Hrest) as [Eb Hrest'];
    cbn [unrolled]; unfold read_last, read_block; rewrite Eb; cbn [mbind option_bind];
    (destruct Hb as [(-> & -> & Hin & Hbig)|(-> & Hsmall & Hout & He')];
      [zif; [|lia]; replace (v + m - m) with v by lia; rewrite shl_add by done;
       eexists; split; [reflexivity|]; done|]).
  - destruct (encoded_nonempty _ _ He') as (b' & l' & -> & _). simpl in Hlen. lia.
  - zif; [lia|].
    destruct (accumulate v s r (Encodes_dom _ _ He) (proj1 Hs) Hr Hv Hout) as (Hs7 & Er & Hr' & Hsum).
    rewrite Er in *.
    destruct (IH (v / 128) l tail (v mod 128 * 2 ^ s + r) (s + 7) (ReadStream_Advance st 1)) as (st' & Est & Hr1 & Hc');
      auto; try lia; [by rewrite Hsum|simpl; lia|simpl in Hlen; lia|].
    exists st'. rewrite Est, Hsum. split; [done|]. split; [done|]. rewrite Hc'. simpl. unfold zlen. simpl. lia.
Qed.

Lemma unrolled_reads n v bytes :
  Encodes dom lo hi m v bytes -> is_sint w v -> (length bytes <= S n)%nat -> reads (unrolled n 0 0) bytes v.
Proof using All.
  intros He Hv Hlen st tail Hc Hrest.
  destruct (unrolled_encoded n v bytes tail 0 0 st) as (st' & Est & ?); try done; try lia.
  - by rewrite Z.mul_1_r, Z.add_0_r.
  - exists st'. rewrite Est, Z.mul_1_r, Z.add_0_r. done.
Qed.
End Reading.

Lemma unsigned_room v s r :
  0 <= v -> 0 <= s -> 0 <= r < 2 ^ s -> is_sint 64 (v * 2 ^ s + r) -> ~ 0 <= v <= 127 -> s + 7 <= 64 - 1.
Proof.
  intros Hv0 Hs Hr Hv Hout. assert (Hp : 2 ^ (s + 7) = 128 * 2 ^ s) by (rewrite Z.pow_add_r by lia; lia).
  unfold is_sint in Hv. assert (2 ^ (s + 7) < 2 ^ (64 - 1)) as Hlt by nia.
  apply Z.pow_lt_mono_r_iff in Hlt; lia.
Qed.

(** A value of [7 n + 6] bits takes at most [n + 1] bytes. *)
Lemma signed_encoding_length n v bytes :
  signed_encoding v bytes -> - 2 ^ (7 * Z.of_nat n + 6) <= v < 2 ^ (7 * Z.of_nat n + 6) ->
  (length bytes <= S n)%nat.
Proof.
  revert v bytes. induction n as [|n IH]; intros v bytes He Hv;
    inversion He as [u _ Hu|u l _ Hu He']; subst; simpl; try lia.
  apply le_n_S, (IH (v / 128)); [done|].
    replace (7 * Z.of_nat (S n) + 6) with ((7 * Z.of_nat n + 6) + 7) in Hv by lia.
    rewrite Z.pow_add_r in Hv by lia. change (2 ^ 7) with 128 in Hv.
    split; [apply Z.div_le_lower_bound|apply Z.div_lt_upper_bound]; lia.
Qed.

(** The unrolled readers and the loop read the same encodings: [n] blocks for
    [w] bits. *)
Lemma signed_readers n w v bytes :
  8 <= w <= 64 -> w <= 7 * Z.of_nat n + 7 -> signed_encoding v bytes -> is_sint w v ->
  reads (unrolled kEndByteMarker w n 0 0) bytes v /\ reads (Read w kEndByteMarker) bytes v.
Proof.
  intros Hw Hn He Hv.
  assert (Hroom : forall u s r, True -> 0 <= s -> 0 <= r < 2 ^ s -> is_sint w (u * 2 ^ s + r) ->
    ~ -64 <= u <= 63 -> s + 7 <= w - 1) by (intros u s r _; apply signed_room).
  split.
  - apply (unrolled_reads (fun _ => True) (-64) 63); try done.
    apply (signed_encoding_length n v); [done|]. unfold is_sint in Hv.
    assert (2 ^ (w - 1) <= 2 ^ (7 * Z.of_nat n + 6)) by (apply Z.pow_le_mono_r; lia). lia.
  - by apply (Read_encoded (fun _ => True) (-64) 63).
Qed.

(** The widths of [Raw<N, T>]. *)
Definition raw_size (N : Z) : Prop := N = 1 \/ N = 2 \/ N = 4 \/ N = 8.

Section RoundTrip.
Context (alloc : list Z -> Z -> option (list Z)) `{!ReAlloc alloc}.
Context (alloc_total : forall ptr n, is_Some (alloc ptr n)).

(** What [Write] appends is what the reader of the same width reads. *)
Lemma Raw_roundtrip N v :
  raw_size N -> is_sint (8 * N) v ->
  exists bytes, appends (Raw_Write alloc N v) bytes /\ reads (Raw_Read N) bytes v.
Proof using All.
  intros HN Hv.
  assert (Hgen : forall n w, 8 <= w <= 64 -> w <= 7 * Z.of_nat n + 7 ->
    is_sint w v -> exists bytes, appends (Write alloc v) bytes /\ reads (unrolled kEndByteMarker w n 0 0) bytes v).
  { intros n w Hw Hnw Hsv.
    destruct (Write_loop_appends alloc alloc_total 9 v) as (bytes & He & _ & Ha).
    { unfold is_sint in Hsv. assert (2 ^ (w - 1) <= 2 ^ (7 * Z.of_nat 9 + 6)) by (apply Z.pow_le_mono_r; lia). lia. }
    exists bytes. split; [done|]. by apply signed_readers. }
  destruct HN as [-> |[-> |[-> | ->]]]; simpl in Hv.
  - exists [u8 v]. split; [by apply WriteByte_appends|]. intros st tail Hc Hrest.
    destruct (ReadByte_rest st (u8 v) tail Hc Hrest) as [E Hr]. simpl. rewrite E. simpl.
    eexists. split; [|done]. f_equal. f_equal.
    destruct (uwrap_spec 8 eq_refl v) as [k ->].
    by apply (swrap_unique 8 eq_refl) with (k := - k); [|lia].
  - by apply (Hgen 2%nat 16).
  - by apply (Hgen 4%nat 32).
  - by apply (Hgen 9%nat 64).
Qed.

Lemma Unsigned_roundtrip v :
  0 <= v <= kMaxInt64 ->
  exists bytes, appends (WriteUnsigned alloc v) bytes /\ reads ReadUnsigned bytes v.
Proof using All.
  unfold kMaxInt64. intros Hv.
  destruct (WriteUnsigned_loop_appends alloc alloc_total 9 v) as (bytes & He & _ & Ha); [lia|].
  exists bytes. split; [done|].
  apply (Read_encoded (fun v => 0 <= v) 0 127); try done; try lia.
  - intros u s' r' ? ? ? ? ?. by apply (unsigned_room u s' r').
  - intros u Hu. apply Z.div_pos; lia.
  - unfold is_sint. lia.
Qed.
End RoundTrip.

(** ** Sequences of values *)
Inductive Item := IntItem (N v : Z) | UnsignedItem (v : Z).
Definition item_ok (i : Item) : Prop :=
  match i with
  | IntItem N v => raw_size N /\ is_sint (8 * N) v
  | UnsignedItem v => 0 <= v <= kMaxInt64
  end.
Definition item_value (i : Item) : Z := match i with IntItem _ v => v | UnsignedItem v => v end.
Definition write_item (alloc : list Z -> Z -> option (list Z)) (i : Item) : WriteStream -> option WriteStream :=
  match i with IntItem N v => Raw_Write alloc N v | UnsignedItem v => WriteUnsigned alloc v end.
Definition read_item (i : Item) : ReadStream -> option (Z * ReadStream) :=
  match i with IntItem N _ => Raw_Read N | UnsignedItem _ => ReadUnsigned end.
Fixpoint write_all alloc (items : list Item) (st : WriteStream) : option WriteStream :=
  match items with
  | [] => Some st
  | i :: items => st ← write_item alloc i st; write_all alloc items st
  end.
(** Reads values with the readers that [items] were written for. *)
Fixpoint read_all (items : list Item) (st : ReadStream) : option (list Z * ReadStream) :=
  match items with
  | [] => Some ([], st)
  | i :: items =>
      '(v, st) ← read_item i st; '(vs, st) ← read_all items st; Some (v :: vs, st)
  end.

Lemma item_roundtrip alloc `{!ReAlloc alloc} i :
  (forall ptr n, is_Some (alloc ptr n)) -> item_ok i ->
  exists bytes, appends (write_item alloc i) bytes /\ reads (read_item i) bytes (item_value i).
Proof.
  intros Htot. destruct i as [N v|v]; simpl.
  - intros [HN Hv]. by apply (Raw_roundtrip alloc Htot).
  - intros Hv. by apply (Unsigned_roundtrip alloc Htot).
Qed.

Lemma all_roundtrip alloc `{!ReAlloc alloc} items :
  (forall ptr n, is_Some (alloc ptr n)) -> Forall item_ok items ->
  exists bytes, appends (write_all alloc items) bytes /\
    forall st tail, 0 <= rs_current st -> rest st = bytes ++ tail ->
      exists st', read_all items st = Some (item_value <$> items, st') /\ rest st' = tail /\
        rs_current st' = rs_current st + zlen bytes.
Proof.
  intros Htot. induction 1 as [|i items Hi _ (bytes & Ha & Hr)].
  { exists []. split; [intros st Hst; exists st; by rewrite app_nil_r|]. intros st tail _ Hrest.
    exists st. split; [done|]. split; [done|]. unfold zlen. simpl. lia. }
  destruct (item_roundtrip alloc i Htot Hi) as (b & Hb & Hrb).
  exists (b ++ bytes). split.
  - intros st Hst. destruct (Hb st Hst) as (st1 & E1 & W1 & Wr1).
    destruct (Ha st1 W1) as (st2 & E2 & W2 & Wr2). exists st2. simpl. rewrite E1. simpl.
    by rewrite E2, Wr2, Wr1, app_assoc.
  - intros st tail Hc Hrest. rewrite <- app_assoc in Hrest.
    destruct (Hrb st (bytes ++ tail) Hc Hrest) as (st1 & E1 & R1 & C1).
    destruct (Hr st1 tail) as (st2 & E2 & R2 & C2); [pose proof (zlen_nonneg b); lia|done|].
    exists st2. simpl. rewrite E1. simpl. rewrite E2, zlen_app. split; [done|]. split; [done|lia].
Qed.

(** A [realloc] that clears the new bytes. *)
Definition zero_realloc (ptr : list Z) (n : Z) : option (list Z) :=
  Some (take (Z.to_nat n) (ptr ++ replicate (Z.to_nat n) 0)).
#[export] Instance zero_realloc_ok : ReAlloc zero_realloc.
Proof.
  split.
  - intros ptr n b [= <-] Hn. unfold zlen. rewrite length_take, length_app, length_replicate. lia.
  - intros ptr n b [= <-] Hn. unfold zlen in Hn. exists (replicate (Z.to_nat n - length ptr) 0).
    rewrite take_app_ge by lia. by rewrite take_replicate, Nat.min_l by lia.
Qed.

(** ** Streaming writes *)
Definition streamed (st : StreamingWriteStream) : list Z :=
  sw_output st ++ take (Z.to_nat (sw_cursor st)) (sw_buffer st).
Definition wf_streaming (st : StreamingWriteStream) : Prop :=
  0 <= sw_cursor st <= zlen (sw_buffer st) /\ sw_flushed_size st = zlen (sw_output st).
(** [malloc]: a fresh block of the size; [None] would be out of memory. *)
Class Malloc (malloc : Z -> option (list Z)) : Prop :=
  malloc_size n : 0 <= n -> exists b, malloc n = Some b /\ zlen b = n.

Lemma position_streamed st : wf_streaming st -> position st = zlen (streamed st).
Proof.
  intros [Hc Hf]. unfold position, streamed. rewrite zlen_app, Hf. unfold zlen in *.
  rewrite length_take. lia.
Qed.

Section StreamingSpec.
Context (malloc : Z -> option (list Z)) `{!Malloc malloc}.

Lemma Flush_spec st : wf_streaming st -> wf_streaming (Flush st) /\ streamed (Flush st) = streamed st.
Proof using.
  intros [Hc Hf]. unfold wf_streaming, streamed, Flush. simpl. rewrite zlen_app, app_nil_r.
  unfold zlen in *. rewrite length_take. split; [lia|done].
Qed.

Lemma EnsureAvailable_spec needed st :
  0 <= needed <= 2 ^ 62 -> wf_streaming st ->
  exists st', EnsureAvailable malloc needed st = Some st' /\ wf_streaming st' /\
    streamed st' = streamed st /\ needed <= zlen (sw_buffer st') - sw_cursor st'.
Proof using All.
  intros Hn Hwf. unfold EnsureAvailable. zif; [by exists st|]. unfold EnsureAvailableSlowPath.
  destruct (Flush_spec st Hwf) as [Hwf' Hs]. zif; [by exists (Flush st)|].
  destruct (RoundUp_spec 16 ltac:(lia) needed) as [_ Hup]; [unfold is_sint; simpl; lia|].
  change (64 * 1024) with (2 ^ 16).
  destruct (malloc_size (RoundUp needed (2 ^ 16))) as (b & Hb & Hz); [lia|]. rewrite Hb.
  eexists. split; [reflexivity|]. unfold wf_streaming. simpl. split; [split; [lia|apply Hwf']|].
  split; [|lia]. rewrite <- Hs. unfold streamed. simpl. by rewrite app_nil_r.
Qed.

Lemma sw_copy_spec bytes st :
  wf_streaming st -> zlen bytes <= zlen (sw_buffer st) - sw_cursor st ->
  exists st', sw_copy bytes st = Some st' /\ wf_streaming st' /\ streamed st' = streamed st ++ bytes.
Proof using.
  intros [Hc Hf] Hb. unfold sw_copy. zif; [|lia]. eexists. split; [reflexivity|].
  unfold wf_streaming, streamed, zlen in *. simpl. rewrite !length_app, length_take, length_drop.
  split; [split; [lia|done]|]. rewrite <- app_assoc. f_equal.
  rewrite app_assoc, take_app_le by (rewrite length_app, length_take; lia).
  apply take_ge. rewrite length_app, length_take. lia.
Qed.

Lemma Streaming_WriteBytes_spec bytes st :
  zlen bytes <= 2 ^ 62 -> wf_streaming st ->
  exists st', Streaming_WriteBytes malloc bytes st = Some st' /\ wf_streaming st' /\
    streamed st' = streamed st ++ bytes.
Proof using All.
  intros Hb Hwf. pose proof (zlen_nonneg bytes).
  destruct (EnsureAvailable_spec (zlen bytes) st) as (st1 & E1 & W1 & S1 & R1); [lia|done|].
  destruct (sw_copy_spec bytes st1 W1 R1) as (st2 & E2 & W2 & S2).
  exists st2. unfold Streaming_WriteBytes. rewrite E1. simpl. by rewrite E2, S2, S1.
Qed.

Lemma Streaming_Align_spec k st :
  0 <= k <= 32 -> position st <= 2 ^ 62 -> wf_streaming st ->
  exists st' n, Streaming_Align malloc (2 ^ k) st = Some st' /\ wf_streaming st' /\
    streamed st' = streamed st ++ replicate n 0 /\ (2 ^ k | position st') /\
    position st <= position st' < position st + 2 ^ k.
Proof using All.
  intros Hk Hp Hwf. assert (1 <= 2 ^ k <= 2 ^ 32) by (split; [|apply Z.pow_le_mono_r]; lia).
  assert (0 <= position st) by (rewrite position_streamed by done; apply zlen_nonneg).
  destruct (RoundUp_spec k ltac:(lia) (position st)) as [Hdiv Hup]; [unfold is_sint; simpl; lia|].
  unfold Streaming_Align. set (padding := RoundUp (position st) (2 ^ k) - position st) in *.
  destruct (EnsureAvailable_spec padding st) as (st1 & E1 & W1 & S1 & R1); [lia|done|].
  assert (Hz : zlen (replicate (Z.to_nat padding) 0) = padding)
    by (unfold zlen; rewrite length_replicate; lia).
  destruct (sw_copy_spec (replicate (Z.to_nat padding) 0) st1 W1) as (st2 & E2 & W2 & S2); [lia|].
  exists st2, (Z.to_nat padding). rewrite E1. cbn [mbind option_bind]. rewrite E2, S2, S1.
  assert (Hpos : position st2 = RoundUp (position st) (2 ^ k)).
  { rewrite position_streamed, S2, S1, zlen_app, <- position_streamed, Hz by done. lia. }
  rewrite Hpos. split_and!; (done || lia).
Qed.
End StreamingSpec.

(** ** Properties *)

(** C38: values written to a [WriteStream] with [Raw<N, T>::Write] or
    [WriteUnsigned] are read back, in order, by the readers of the same
    width, whatever the growth of the buffer and the allocator's contents of
    new bytes. *)
Theorem stream_roundtrip alloc `{!ReAlloc alloc} items k :
  (forall ptr n, is_Some (alloc ptr n)) -> 0 <= k <= 32 -> Forall item_ok items ->
  exists st st' rs, WriteStream_new alloc (2 ^ k) = Some st /\ write_all alloc items st = Some st' /\
    read_all items (MkReadStream (written st') 0) = Some (item_value <$> items, rs) /\
    rs_current rs = zlen (written st').
Proof.
  intros Htot Hk Hitems. destruct (all_roundtrip alloc items Htot Hitems) as (bytes & Ha & Hr).
  unfold WriteStream_new. destruct (Htot [] (2 ^ k)) as [b Hb]. rewrite Hb. simpl.
  pose proof (alloc_size _ _ _ Hb) as Hz.
  destruct (Ha (MkWriteStream b 0 (2 ^ k))) as (st' & E & W & Hw).
  { split; [simpl; pose proof (zlen_nonneg b); lia|]. by exists k. }
  destruct (Hr (MkReadStream (written st') 0) []) as (rs & Er & _ & Hc).
  { done. } { unfold rest. simpl. rewrite Hw. by rewrite app_nil_r. }
  eexists _, st', rs. split; [reflexivity|]. split; [done|]. split; [done|].
  rewrite Hc, Hw. simpl. unfold written. simpl. done.
Qed.

Lemma stream_roundtrip_witness :
  exists st st' rs, WriteStream_new zero_realloc (2 ^ 2) = Some st /\
    write_all zero_realloc [IntItem 8 kMinInt64; UnsignedItem 300; IntItem 2 (-32768)] st = Some st' /\
    read_all [IntItem 8 kMinInt64; UnsignedItem 300; IntItem 2 (-32768)] (MkReadStream (written st') 0) =
      Some ([kMinInt64; 300; -32768], rs) /\ rs_current rs = zlen (written st').
Proof.
  apply (stream_roundtrip zero_realloc [IntItem 8 kMinInt64; UnsignedItem 300; IntItem 2 (-32768)] 2).
  - intros ptr n. by eexists.
  - lia.
  - repeat apply List.Forall_cons; try apply List.Forall_nil; simpl; unfold raw_size, is_sint, kMinInt64, kMaxInt64; lia.
Defined.

(** the unrolled [Read16], [Read32] and [Read64] agree with the loop
    [Read<T>] on every encoding of a value of their width. *)
Theorem unrolled_readers_agree v bytes :
  signed_encoding v bytes ->
  (is_sint 16 v -> reads (Read16 kEndByteMarker) bytes v /\ reads (Read 16 kEndByteMarker) bytes v) /\
  (is_sint 32 v -> reads (Read32 kEndByteMarker) bytes v /\ reads (Read 32 kEndByteMarker) bytes v) /\
  (is_sint 64 v -> reads (Read64 kEndByteMarker) bytes v /\ reads (Read 64 kEndByteMarker) bytes v).
Proof.
  intros He. split_and!; intros Hv.
  - apply (signed_readers 2 16 v bytes); [lia|lia|exact He|exact Hv].
  - apply (signed_readers 4 32 v bytes); [lia|lia|exact He|exact Hv].
  - apply (signed_readers 9 64 v bytes); [lia|lia|exact He|exact Hv].
Qed.
Lemma unrolled_readers_agree_witness :
  reads (Read16 kEndByteMarker) [104; 193] 232 /\ reads (Read 16 kEndByteMarker) [104; 193] 232.
Proof.
  apply (unrolled_readers_agree 232 [104; 193]).
  - apply (Encodes_more (fun _ => True) (-64) 63 192 232 [193]); [done|lia|]. apply (Encodes_last (fun _ => True) (-64) 63 192 1); [done|lia].
  - unfold is_sint. lia.
Defined.

(** [StreamingWriteStream] delivers exactly what is written: after any
    [WriteBytes] or [Align] the bytes handed to the callback and still in the
    buffer are the old ones followed by the new ones, [position] is their
    number, and the destructor hands over the rest. *)
Theorem streaming_delivers malloc `{!Malloc malloc} st bytes k :
  wf_streaming st -> zlen bytes <= 2 ^ 62 -> 0 <= k <= 32 -> position st <= 2 ^ 62 ->
  (exists st', Streaming_WriteBytes malloc bytes st = Some st' /\ wf_streaming st' /\
     Streaming_finish st' = Streaming_finish st ++ bytes /\ position st' = position st + zlen bytes) /\
  (exists st' n, Streaming_Align malloc (2 ^ k) st = Some st' /\ wf_streaming st' /\
     Streaming_finish st' = Streaming_finish st ++ replicate n 0 /\ (2 ^ k | position st') /\
     position st <= position st' < position st + 2 ^ k).
Proof.
  intros Hwf Hb Hk Hp.
  assert (Hfin : forall st, wf_streaming st -> Streaming_finish st = streamed st) by done. split.
  - destruct (Streaming_WriteBytes_spec malloc bytes st Hb Hwf) as (st' & E & W & S).
    exists st'. rewrite !Hfin, !position_streamed, S, zlen_app by done. done.
  - destruct (Streaming_Align_spec malloc k st Hk Hp Hwf) as (st' & n & E & W & S & Hd & Hr).
    exists st', n. rewrite !Hfin by done. done.
Qed.

Definition zero_malloc (n : Z) : option (list Z) := Some (replicate (Z.to_nat n) 0).
#[export] Instance zero_malloc_ok : Malloc zero_malloc.
Proof. intros n Hn. eexists. split; [reflexivity|]. unfold zlen. rewrite length_replicate. lia. Qed.
(** Five bytes through a buffer of four. *)
Lemma streaming_delivers_witness :
  exists st', Streaming_WriteBytes zero_malloc [3; 4; 5] (MkStreaming [1; 2; 0; 0] 2 0 []) = Some st' /\
    wf_streaming st' /\ Streaming_finish st' = [1; 2] ++ [3; 4; 5] /\ position st' = 2 + 3.
Proof.
  refine (proj1 (streaming_delivers zero_malloc (MkStreaming [1; 2; 0; 0] 2 0 []) [3; 4; 5] 3 _ _ _ _)).
  - split; [|reflexivity]. change (0 <= 2 <= 4). lia.
  - change (3 <= 2 ^ 62). lia.
  - lia.
  - change (2 <= 2 ^ 62). lia.
Defined.

(** [WriteStream::Align] pads with zeros to the next multiple of the
    alignment when the padding fits the bytes already allocated, and
    otherwise writes behind the end of the buffer: unlike the other writers it
    does not grow it. *)
Theorem WriteStream_Align_exact st k :
  wf_write st -> 0 <= k <= 32 -> zlen (ws_buffer st) <= 2 ^ 62 ->
  (exists st', WriteStream_Align (2 ^ k) st = Some st' /\ wf_write st' /\
     (2 ^ k | ws_current st') /\ ws_current st <= ws_current st' < ws_current st + 2 ^ k /\
     written st' = written st ++ replicate (Z.to_nat (ws_current st' - ws_current st)) 0) \/
  (WriteStream_Align (2 ^ k) st = None /\ zlen (ws_buffer st) < RoundUp (ws_current st) (2 ^ k)).
Proof.
  intros Hwf Hk Hsize. destruct Hwf as [Hc Hi].
  assert (1 <= 2 ^ k <= 2 ^ 32) by (split; [|apply Z.pow_le_mono_r]; lia).
  destruct (RoundUp_spec k (proj1 Hk) (ws_current st)) as [Hd Hr]; [unfold is_sint; lia|].
  unfold WriteStream_Align. set (pos := RoundUp (ws_current st) (2 ^ k)) in *.
  set (pad := replicate (Z.to_nat (pos - ws_current st)) 0).
  assert (Hpad : zlen pad = pos - ws_current st) by (unfold zlen, pad; rewrite length_replicate; lia).
  destruct (Z.le_gt_cases pos (zlen (ws_buffer st))) as [Hfit|Hfull].
  - left. destruct (copy_in_spec pad st (conj Hc Hi)) as (st' & E & W & Hw); [lia|].
    assert (Hp : ws_current st' = pos).
    { unfold copy_in in E. zif_in E; [|done]. injection E as <-. simpl. lia. }
    exists st'. rewrite Hp. do 4 (split; [done|]). exact Hw.
  - right. split; [|done]. unfold copy_in. zif; [lia|done].
Qed.
(** A buffer of four bytes with three written, aligned to 8. *)
Lemma WriteStream_Align_exact_witness :
  WriteStream_Align (2 ^ 3) (MkWriteStream [1; 2; 3; 0] 3 4) = None /\
  ((exists st', WriteStream_Align (2 ^ 2) (MkWriteStream [1; 2; 3; 0] 3 4) = Some st' /\ wf_write st' /\
     (2 ^ 2 | ws_current st') /\ 3 <= ws_current st' < 3 + 2 ^ 2 /\
     written st' = [1; 2; 3] ++ replicate (Z.to_nat (ws_current st' - 3)) 0) \/
   (WriteStream_Align (2 ^ 2) (MkWriteStream [1; 2; 3; 0] 3 4) = None /\ 4 < RoundUp 3 (2 ^ 2))).
Proof.
  split; [reflexivity|]. apply (WriteStream_Align_exact (MkWriteStream [1; 2; 3; 0] 3 4) 2).
  - split; [change (0 <= 3 <= 4); lia|]. exists 2. split; [lia|reflexivity].
  - lia.
  - change (4 <= 2 ^ 62). lia.
Defined.
