(* ===== verification/Descriptors.v ===== *)
(** * SLEB128 and pc descriptors

    [EncodeSLEB128] (src/runtime/vm/object.cc) and [Utils::DecodeSLEB128]
    (src/runtime/platform/utils.h), the delta-encoded table of pc descriptors
    that [DescriptorList] builds with them (src/runtime/vm/code_descriptors.cc)
    and the iterator that reads the table (src/runtime/vm/object.h). The
    build mode [precompiled] is the flag [FLAG_precompiled_mode]. *)
From S2P Require Import Prelude Utils.
Local Open Scope Z_scope.
Local Open Scope vm_scope.

(** ** SLEB128 *)

(** The bytes [EncodeSLEB128] adds for an [intptr_t]; the fuel bounds the
    number of bytes (a 64-bit value takes at most 10), [None] is exhaustion. *)
Fixpoint EncodeSLEB128_loop (fuel : nat) (value : Z) : option (list Z) :=
  match fuel with
  | O => None
  | S n =>
      let part := u8 (value &&& 0x7f) in
      let value := value >>> 7 in
      if ((value =? 0) && (part &&& 0x40 =? 0)) || ((value =? -1) && negb (part &&& 0x40 =? 0))
      then Some [part]
      else bytes ← EncodeSLEB128_loop n value; Some ((part ||| 0x80) :: bytes)
  end.
Definition EncodeSLEB128 (data : list Z) (value : Z) : option (list Z) :=
  bytes ← EncodeSLEB128_loop 10 value; Some (data ++ bytes).

(** [Utils::DecodeSLEB128<intptr_t>]: the value and the new [byte_index];
    [None] is a read outside the data. The fuel bounds the bytes read. *)
Fixpoint DecodeSLEB128_loop (fuel : nat) (data : list Z) (byte_index shift value : Z)
    : option (Z * Z) :=
  match fuel with
  | O => None
  | S n =>
      part ← arr_get data byte_index;
      let byte_index := byte_index + 1 in
      let value := s64 (value ||| s64 ((part &&& 0x7f) <<< shift)) in
      let shift := shift + 7 in
      if negb (part &&& 0x80 =? 0) then DecodeSLEB128_loop n data byte_index shift value
      else
        let value :=
          if (shift <? 64) && negb (part &&& 0x40 =? 0)
          then s64 (value ||| s64 (u64 (u64 (-1) <<< shift))) else value in
        Some (value, byte_index)
  end.
Definition DecodeSLEB128 (data : list Z) (byte_index : Z) : option (Z * Z) :=
  DecodeSLEB128_loop (length data) data byte_index 0 0.

(** ** Pc descriptors *)
Definition kKindShiftSize : Z := 3.
Definition kTryIndexPos : Z := kKindShiftSize.
Definition MergedKindTry_Encode (kind try_index : Z) : Z :=
  let kind_shift := ShiftForPowerOfTwo kind in
  s64 (try_index <<< kTryIndexPos) ||| (kind_shift <<< 0).
Definition MergedKindTry_DecodeKind (merged_kind_try : Z) : Z :=
  1 <<< (merged_kind_try &&& ((1 <<< kKindShiftSize) - 1)).
Definition MergedKindTry_DecodeTryIndex (merged_kind_try : Z) : Z := merged_kind_try >>> kTryIndexPos.

Record DescriptorList := MkDescriptorList {
  encoded_data : list Z;
  prev_pc_offset : Z;
  prev_deopt_id : Z;
  prev_token_pos : Z }.
Definition DescriptorList_new : DescriptorList := MkDescriptorList [] 0 0 0.

Definition AddDescriptor (precompiled : bool) (kind pc_offset deopt_id token_pos try_index : Z)
    (l : DescriptorList) : option DescriptorList :=
  if negb precompiled || negb (try_index =? -1) then
    let merged_kind_try := MergedKindTry_Encode kind try_index in
    data ← EncodeSLEB128 (encoded_data l) merged_kind_try;
    data ← EncodeSLEB128 data (s64 (pc_offset - prev_pc_offset l));
    if negb precompiled then
      data ← EncodeSLEB128 data (s64 (deopt_id - prev_deopt_id l));
      data ← EncodeSLEB128 data (s64 (token_pos - prev_token_pos l));
      Some (MkDescriptorList data pc_offset deopt_id token_pos)
    else Some (MkDescriptorList data pc_offset (prev_deopt_id l) (prev_token_pos l))
  else Some l.

(** [PcDescriptors::Iterator]. *)
Record Iterator := MkIterator {
  byte_index_ : Z;
  cur_pc_offset_ : Z;
  cur_kind_ : Z;
  cur_deopt_id_ : Z;
  cur_token_pos_ : Z;
  cur_try_index_ : Z }.
Definition Iterator_new : Iterator := MkIterator 0 0 0 0 0 0.

(** The body of the loop of [MoveNext]: decodes one record. *)
Definition MoveNext_record (precompiled : bool) (descriptors : list Z) (it : Iterator) : option Iterator :=
  '(merged, i) ← DecodeSLEB128 descriptors (byte_index_ it);
  let merged_kind_try := s32 merged in
  '(pc_delta, i) ← DecodeSLEB128 descriptors i;
  if negb precompiled then
    '(deopt_delta, i) ← DecodeSLEB128 descriptors i;
    '(token_delta, i) ← DecodeSLEB128 descriptors i;
    Some (MkIterator i (s64 (cur_pc_offset_ it + pc_delta)) (MergedKindTry_DecodeKind merged_kind_try)
            (s64 (cur_deopt_id_ it + deopt_delta)) (s64 (cur_token_pos_ it + token_delta))
            (MergedKindTry_DecodeTryIndex merged_kind_try))
  else
    Some (MkIterator i (s64 (cur_pc_offset_ it + pc_delta)) (MergedKindTry_DecodeKind merged_kind_try)
            (cur_deopt_id_ it) (cur_token_pos_ it) (MergedKindTry_DecodeTryIndex merged_kind_try)).

(** [None]: undefined behaviour; otherwise the result of [MoveNext] and the
    iterator. The fuel bounds the records skipped. *)
Fixpoint MoveNext_loop (fuel : nat) (precompiled : bool) (descriptors : list Z) (kind_mask : Z) (it : Iterator)
    : option (bool * Iterator) :=
  match fuel with
  | O => None
  | S n =>
      if byte_index_ it <? zlen descriptors then
        it ← MoveNext_record precompiled descriptors it;
        if negb (cur_kind_ it &&& kind_mask =? 0) then Some (true, it)
        else MoveNext_loop n precompiled descriptors kind_mask it
      else Some (false, it)
  end.
Definition MoveNext (precompiled : bool) (descriptors : list Z) (kind_mask : Z) (it : Iterator)
    : option (bool * Iterator) :=
  MoveNext_loop (S (length descriptors)) precompiled descriptors kind_mask it.

(** ** Lemmas: SLEB128 *)

(** [Sleb v bytes]: groups of 7 bits with a continuation bit, the last group
    with the sign in bit 6. *)
Inductive Sleb : Z -> list Z -> Prop :=
| Sleb_last v : -64 <= v <= 63 -> Sleb v [v mod 128]
| Sleb_more v bytes : ~ -64 <= v <= 63 -> Sleb (v / 128) bytes -> Sleb v (v mod 128 + 128 :: bytes).

Lemma bit6 p : 0 <= p < 128 -> (p &&& 0x40 =? 0) = (p <? 64).
Proof.
  intros Hp. assert (H := byte_forall (fun p => (128 <=? p) || Bool.eqb (p &&& 0x40 =? 0) (p <? 64)) eq_refl p).
  cbv beta in H. destruct (Z.leb_spec 128 p); [lia|]. apply eqb_prop, H. lia.
Qed.
Lemma bit7 p : 0 <= p < 128 -> (p ||| 0x80) = p + 128.
Proof.
  intros Hp. exact (lor_low_high 7 p 1 ltac:(lia) Hp).
Qed.
Lemma byte_low p : 0 <= p < 256 -> (p &&& 0x7f) = p mod 128 /\ (p &&& 0x80 =? 0) = (p <? 128).
Proof.
  intros Hp. split; [change 0x7f with (2 ^ 7 - 1); by rewrite land_low|].
  apply eqb_prop. exact (byte_forall (fun p => Bool.eqb (p &&& 0x80 =? 0) (p <? 128)) eq_refl p Hp).
Qed.

Lemma EncodeSLEB128_loop_S n v :
  EncodeSLEB128_loop (S n) v =
  if decide (-64 <= v <= 63) then Some [v mod 128]
  else bytes ← EncodeSLEB128_loop n (v / 128); Some (v mod 128 + 128 :: bytes).
Proof.
  simpl. change 127 with (2 ^ 7 - 1). rewrite land_low, Z.shiftr_div_pow2 by done. change (2 ^ 7) with 128.
  pose proof (Z.mod_pos_bound v 128 ltac:(lia)) as Hm. pose proof (Z.div_mod v 128 ltac:(lia)) as Hd.
  rewrite (uwrap_id 8 (v mod 128)) by (unfold is_uint; lia).
  rewrite bit6, bit7 by lia. case_decide; zif; try done; lia.
Qed.

Lemma EncodeSLEB128_loop_spec n v :
  - 2 ^ (7 * Z.of_nat n + 6) <= v < 2 ^ (7 * Z.of_nat n + 6) ->
  exists bytes, EncodeSLEB128_loop (S n) v = Some bytes /\ Sleb v bytes.
Proof.
  revert v. induction n as [|n IH]; intros v Hv; rewrite EncodeSLEB128_loop_S; case_decide as Hin.
  - eexists. split; [reflexivity|by constructor].
  - change (2 ^ (7 * Z.of_nat 0 + 6)) with 64 in Hv. lia.
  - eexists. split; [reflexivity|by constructor].
  - destruct (IH (v / 128)) as (bytes & E & Hs).
    { replace (7 * Z.of_nat (S n) + 6) with ((7 * Z.of_nat n + 6) + 7) in Hv by lia.
      rewrite Z.pow_add_r in Hv by lia. change (2 ^ 7) with 128 in Hv.
      split; [apply Z.div_le_lower_bound|apply Z.div_lt_upper_bound]; lia. }
    rewrite E. simpl. eexists. split; [reflexivity|]. by constructor.
Qed.

Section Decode.
Context (data : list Z).

(** The last group: sign extension. *)
Lemma last_group v s acc :
  -64 <= v <= 63 -> 0 <= s <= 63 -> s mod 7 = 0 -> 0 <= acc < 2 ^ s -> is_sint 64 (v * 2 ^ s + acc) ->
  let value := s64 (acc ||| s64 ((v mod 128) <<< s)) in
  (if (s + 7 <? 64) && negb (v mod 128 <? 64)
   then s64 (value ||| s64 (u64 (u64 (-1) <<< (s + 7)))) else value) = v * 2 ^ s + acc.
Proof using.
  intros Hv Hs H7 Ha Hsum. simpl. destruct (Z.lt_ge_cases v 0) as [Hneg|Hpos].
  - replace (v mod 128) with (v + 128) by (apply (Z.mod_unique v 128 (-1)); lia).
    destruct (Z.ltb_spec (v + 128) 64); [lia|]. rewrite andb_true_r. zif.
    + assert (Hp : 2 ^ (s + 7) = 2 ^ s * 128) by (rewrite Z.pow_add_r by lia; done).
      assert (Hle : 2 ^ (s + 7) <= 2 ^ 63) by (apply Z.pow_le_mono_r; lia).
      rewrite (shl_add 64 acc (v + 128) s) by (try done; try lia; unfold is_sint; simpl; nia).
      assert (Hmask : s64 (u64 (u64 (-1) <<< (s + 7))) = -1 <<< (s + 7)).
      { rewrite !Z.shiftl_mul_pow2 by lia. change (u64 (-1)) with (2 ^ 64 - 1).
        destruct (uwrap_spec 64 eq_refl ((2 ^ 64 - 1) * 2 ^ (s + 7))) as [k ->].
        apply (swrap_unique 64 eq_refl) with (k := - (2 ^ (s + 7)) - k); [unfold is_sint; simpl; lia|lia]. }
      rewrite Hmask, lor_low_high by (unfold is_uint; nia).
      rewrite swrap_id by (done || unfold is_sint in *; simpl in *; nia). nia.
    + assert (s = 63) as -> by (pose proof (Z.div_mod s 7 ltac:(lia)); lia).
      unfold is_sint in Hsum. simpl in Hsum. assert (v = -1) as -> by lia.
      change (s64 ((-1 + 128) <<< 63)) with (-1 <<< 63).
      rewrite lor_low_high by (unfold is_uint; lia). rewrite swrap_id by (done || unfold is_sint; simpl; lia). lia.
  - rewrite Z.mod_small by lia. destruct (Z.ltb_spec v 64); [|lia]. rewrite andb_false_r. apply shl_add; (done || lia).
Qed.

Lemma DecodeSLEB128_loop_spec n : forall v bytes tail i s acc,
  Sleb v bytes -> drop (Z.to_nat i) data = bytes ++ tail -> 0 <= i -> (length bytes <= n)%nat ->
  0 <= s <= 63 -> s mod 7 = 0 -> 0 <= acc < 2 ^ s -> is_sint 64 (v * 2 ^ s + acc) ->
  DecodeSLEB128_loop n data i s acc = Some (v * 2 ^ s + acc, i + zlen bytes).
Proof using.
  induction n as [|n IH]; intros v bytes tail i s acc Hb Hd Hi Hlen Hs H7 Ha Hsum.
  { inversion Hb; subst; simpl in Hlen; lia. }
  pose proof (Z.mod_pos_bound v 128 ltac:(lia)) as Hm. pose proof (Z.div_mod v 128 ltac:(lia)) as Hdm.
  inversion Hb as [u Hu|u l Hu Hl]; subst; cbn [DecodeSLEB128_loop].
  - destruct (arr_get_drop data i _ _ Hi Hd) as [-> _]. cbn [mbind option_bind].
    destruct (byte_low (v mod 128)) as [-> ->]; [lia|]. rewrite Z.mod_mod by lia.
    destruct (Z.ltb_spec (v mod 128) 128); [|lia]. cbn [negb].
    rewrite bit6 by lia. rewrite last_group by done. done.
  - destruct (arr_get_drop data i _ _ Hi Hd) as [-> Hd']. cbn [mbind option_bind].
    destruct (byte_low (v mod 128 + 128)) as [-> ->]; [lia|].
    destruct (Z.ltb_spec (v mod 128 + 128) 128); [lia|]. cbn [negb].
    replace ((v mod 128 + 128) mod 128) with (v mod 128)
      by (rewrite <- (Z.mul_1_l 128) at 3; rewrite Z.mod_add, Z.mod_mod by lia; done).
    pose proof (signed_room 64 v s acc (proj1 Hs) Ha Hsum Hu) as Hroom.
    assert (Hp : 2 ^ (s + 7) = 2 ^ s * 128) by (rewrite Z.pow_add_r by lia; done).
    assert (Hle : 2 ^ (s + 7) <= 2 ^ 63) by (apply Z.pow_le_mono_r; lia).
    rewrite (shl_add 64 acc (v mod 128) s) by (try done; try lia; unfold is_sint; simpl; nia).
    assert (Esum : v / 128 * 2 ^ (s + 7) + (v mod 128 * 2 ^ s + acc) = v * 2 ^ s + acc) by (rewrite Hp; nia).
    rewrite (IH (v / 128) l tail); try done; try lia.
    + rewrite Esum. f_equal. f_equal. unfold zlen. simpl. lia.
    + simpl in Hlen. lia.
    + by replace (s + 7) with (s + 1 * 7) by lia; rewrite Z.mod_add.
    + nia.
    + by rewrite Esum.
Qed.

Lemma DecodeSLEB128_spec v bytes tail i :
  Sleb v bytes -> drop (Z.to_nat i) data = bytes ++ tail -> 0 <= i -> is_sint 64 v ->
  DecodeSLEB128 data i = Some (v, i + zlen bytes) /\
  drop (Z.to_nat (i + zlen bytes)) data = tail.
Proof using.
  intros Hb Hd Hi Hv. unfold DecodeSLEB128. split.
  - rewrite (DecodeSLEB128_loop_spec _ v bytes tail); try done; try lia.
    + by rewrite Z.mul_1_r, Z.add_0_r.
    + apply (f_equal (@length Z)) in Hd. rewrite length_drop, length_app in Hd. lia.
    + by rewrite Z.mul_1_r, Z.add_0_r.
  - unfold zlen. replace (Z.to_nat (i + Z.of_nat (length bytes))) with (Z.to_nat i + length bytes)%nat by lia.
    rewrite <- drop_drop, Hd. apply drop_app_length.
Qed.
End Decode.

(** ** Lemmas: the table *)
Record Descriptor := MkDescriptor { d_kind : Z; d_pc : Z; d_deopt : Z; d_token : Z; d_try : Z }.
(** A kind is one of the 7 bits of [RawPcDescriptors::Kind]; the differences
    of offsets fit in 64 bits; the iterator keeps 32 bits of the merged field. *)
Definition descriptor_ok (d : Descriptor) : Prop :=
  (exists j, 0 <= j <= 6 /\ d_kind d = 2 ^ j) /\ is_sint 63 (d_pc d) /\ is_sint 63 (d_deopt d) /\
  is_sint 63 (d_token d) /\ - 2 ^ 28 <= d_try d < 2 ^ 28.

Definition add_one (precompiled : bool) (d : Descriptor) : DescriptorList -> option DescriptorList :=
  AddDescriptor precompiled (d_kind d) (d_pc d) (d_deopt d) (d_token d) (d_try d).
Fixpoint add_all (precompiled : bool) (ds : list Descriptor) (l : DescriptorList) : option DescriptorList :=
  match ds with
  | [] => Some l
  | d :: ds => l ← add_one precompiled d l; add_all precompiled ds l
  end.
Fixpoint collect (fuel : nat) (precompiled : bool) (data : list Z) (kind_mask : Z) (it : Iterator)
    : option (list Iterator) :=
  match fuel with
  | O => None
  | S n =>
      '(more, it) ← MoveNext precompiled data kind_mask it;
      if (more : bool) then its ← collect n precompiled data kind_mask it; Some (it :: its) else Some []
  end.

(** What the iterator shows of a descriptor; the last two fields are not
    written in precompiled mode. *)
Definition view (it : Iterator) : Descriptor :=
  MkDescriptor (cur_kind_ it) (cur_pc_offset_ it) (cur_deopt_id_ it) (cur_token_pos_ it) (cur_try_index_ it).
Definition kept (precompiled : bool) (d : Descriptor) : bool := negb precompiled || negb (d_try d =? -1).
Definition shown (precompiled : bool) (d : Descriptor) : Descriptor :=
  if precompiled then MkDescriptor (d_kind d) (d_pc d) 0 0 (d_try d) else d.
Definition matches (kind_mask : Z) (d : Descriptor) : bool := negb (d_kind d &&& kind_mask =? 0).

Lemma MergedKindTry_roundtrip kind try_index :
  (exists j, 0 <= j <= 6 /\ kind = 2 ^ j) -> - 2 ^ 28 <= try_index < 2 ^ 28 ->
  is_sint 32 (MergedKindTry_Encode kind try_index) /\
  MergedKindTry_DecodeKind (MergedKindTry_Encode kind try_index) = kind /\
  MergedKindTry_DecodeTryIndex (MergedKindTry_Encode kind try_index) = try_index.
Proof.
  intros (j & Hj & ->) Ht.
  assert (HS : ShiftForPowerOfTwo (2 ^ j) = j).
  { assert (Hj' : j = 0 \/ j = 1 \/ j = 2 \/ j = 3 \/ j = 4 \/ j = 5 \/ j = 6) by lia.
    repeat (destruct Hj' as [-> |Hj']; [reflexivity|]). by rewrite Hj'. }
  assert (HE : MergedKindTry_Encode (2 ^ j) try_index = try_index * 2 ^ 3 + j).
  { unfold MergedKindTry_Encode. rewrite HS, Z.shiftl_0_r. change kTryIndexPos with 3.
    rewrite (swrap_id 64 eq_refl) by (rewrite Z.shiftl_mul_pow2 by lia; unfold is_sint; lia).
    rewrite Z.lor_comm, lor_low_high by (unfold is_uint; lia). lia. }
  rewrite HE. split; [unfold is_sint; lia|]. split.
  - unfold MergedKindTry_DecodeKind. change ((1 <<< kKindShiftSize) - 1) with (2 ^ 3 - 1).
    rewrite land_low, Z.shiftl_1_l, Z.add_comm, Z.mod_add, Z.mod_small by lia. done.
  - unfold MergedKindTry_DecodeTryIndex. change kTryIndexPos with 3.
    rewrite Z.shiftr_div_pow2 by lia. rewrite Z.add_comm, Z.div_add, Z.div_small by lia. lia.
Qed.

(** The record of a descriptor, as deltas to the previous one. *)
Definition record (precompiled : bool) (p : Descriptor) (d : Descriptor) (bytes : list Z) : Prop :=
  exists b1 b2 b3 b4, Sleb (MergedKindTry_Encode (d_kind d) (d_try d)) b1 /\ Sleb (d_pc d - d_pc p) b2 /\
    (precompiled = false -> Sleb (d_deopt d - d_deopt p) b3 /\ Sleb (d_token d - d_token p) b4) /\
    bytes = b1 ++ b2 ++ (if precompiled then [] else b3 ++ b4).

Lemma EncodeSLEB128_spec data v : is_sint 64 v -> exists bytes, EncodeSLEB128 data v = Some (data ++ bytes) /\ Sleb v bytes.
Proof.
  intros Hv. destruct (EncodeSLEB128_loop_spec 9 v) as (bytes & E & Hs); [unfold is_sint in Hv; simpl in *; lia|].
  exists bytes. unfold EncodeSLEB128. by rewrite E.
Qed.
Lemma Sleb_nonempty v bytes : Sleb v bytes -> 0 < zlen bytes.
Proof. destruct 1; unfold zlen; simpl; lia. Qed.

(** The position a list of descriptors stands at, as a descriptor. *)
Definition last_of (l : DescriptorList) : Descriptor :=
  MkDescriptor 0 (prev_pc_offset l) (prev_deopt_id l) (prev_token_pos l) 0.
Definition offsets_ok (p : Descriptor) : Prop :=
  is_sint 63 (d_pc p) /\ is_sint 63 (d_deopt p) /\ is_sint 63 (d_token p).
(** The position after [d]. *)
Definition after (precompiled : bool) (p d : Descriptor) : Descriptor :=
  if precompiled then MkDescriptor 0 (d_pc d) (d_deopt p) (d_token p) 0
  else MkDescriptor 0 (d_pc d) (d_deopt d) (d_token d) 0.

Lemma diff_sint a b : is_sint 63 a -> is_sint 63 b -> is_sint 64 (a - b) /\ s64 (a - b) = a - b.
Proof.
  unfold is_sint. intros Ha Hb. simpl in *. split; [lia|]. apply swrap_id; [done|]. unfold is_sint. simpl. lia.
Qed.

Lemma add_one_spec precompiled d l :
  descriptor_ok d -> offsets_ok (last_of l) -> kept precompiled d = true ->
  exists l' bytes, add_one precompiled d l = Some l' /\ encoded_data l' = encoded_data l ++ bytes /\
    record precompiled (last_of l) d bytes /\ last_of l' = after precompiled (last_of l) d.
Proof.
  intros (Hk & Hpc & Hde & Hto & Htr) (Hp & Hd & Ht) Hkept. simpl in Hp, Hd, Ht.
  destruct (MergedKindTry_roundtrip _ _ Hk Htr) as [Hm _].
  destruct (diff_sint _ _ Hpc Hp) as [S1 E1], (diff_sint _ _ Hde Hd) as [S2 E2], (diff_sint _ _ Hto Ht) as [S3 E3].
  unfold add_one, AddDescriptor, kept in *. rewrite Hkept, E1, E2, E3.
  destruct (EncodeSLEB128_spec (encoded_data l) (MergedKindTry_Encode (d_kind d) (d_try d))) as (b1 & -> & B1);
    [unfold is_sint in *; simpl in *; lia|].
  simpl. destruct (EncodeSLEB128_spec (encoded_data l ++ b1) (d_pc d - prev_pc_offset l) S1) as (b2 & -> & B2).
  destruct precompiled; simpl.
  - eexists _, (b1 ++ b2). split; [reflexivity|]. simpl. rewrite app_assoc. split; [done|]. split; [|done].
    exists b1, b2, [], []. split_and!; try done. by rewrite app_nil_r.
  - destruct (EncodeSLEB128_spec ((encoded_data l ++ b1) ++ b2) (d_deopt d - prev_deopt_id l) S2) as (b3 & -> & B3).
    simpl. destruct (EncodeSLEB128_spec (((encoded_data l ++ b1) ++ b2) ++ b3) (d_token d - prev_token_pos l) S3) as (b4 & -> & B4).
    simpl. eexists _, (b1 ++ b2 ++ b3 ++ b4). split; [reflexivity|]. simpl. rewrite <- !app_assoc.
    split; [done|]. split; [|done]. exists b1, b2, b3, b4. split_and!; done.
Qed.

Inductive table (precompiled : bool) : Descriptor -> list Descriptor -> list Z -> Prop :=
| table_nil p : table precompiled p [] []
| table_cons p d ds bytes bytes' :
    descriptor_ok d -> offsets_ok p -> record precompiled p d bytes ->
    table precompiled (after precompiled p d) ds bytes' ->
    table precompiled p (d :: ds) (bytes ++ bytes').

Lemma offsets_ok_after precompiled p d :
  offsets_ok p -> descriptor_ok d -> offsets_ok (after precompiled p d).
Proof. unfold offsets_ok, descriptor_ok, after. destruct precompiled; simpl; tauto. Qed.

Lemma add_all_table precompiled ds l :
  Forall descriptor_ok ds -> offsets_ok (last_of l) ->
  exists l' bytes, add_all precompiled ds l = Some l' /\ encoded_data l' = encoded_data l ++ bytes /\
    table precompiled (last_of l) (List.filter (kept precompiled) ds) bytes.
Proof.
  intros Hds. revert l. induction Hds as [|d ds Hd _ IH]; intros l Hl; simpl.
  { exists l, []. rewrite app_nil_r. split_and!; done || constructor. }
  destruct (kept precompiled d) eqn:Ek.
  - destruct (add_one_spec precompiled d l Hd Hl Ek) as (l1 & b & -> & Eb & Hr & Ea). simpl.
    assert (Hok : offsets_ok (last_of l1)) by (rewrite Ea; by apply offsets_ok_after).
    destruct (IH l1 Hok) as (l' & bytes & -> & Ebs & Ht). exists l', (b ++ bytes). split; [done|].
    split; [by rewrite Ebs, Eb, app_assoc|]. rewrite Ea in Ht. by constructor.
  - assert (add_one precompiled d l = Some l) as ->.
    { unfold add_one, AddDescriptor. unfold kept in Ek. by rewrite Ek. }
    simpl. by apply IH.
Qed.

(** The iterator stands at position [p] of the table. *)
Definition stands (p : Descriptor) (it : Iterator) : Prop :=
  cur_pc_offset_ it = d_pc p /\ cur_deopt_id_ it = d_deopt p /\ cur_token_pos_ it = d_token p /\ 0 <= byte_index_ it.

Lemma s64_delta a b : is_sint 63 a -> s64 (b + (a - b)) = a.
Proof.
  intros Ha. replace (b + (a - b)) with a by lia. apply swrap_id; [done|]. unfold is_sint in *. simpl in *. lia.
Qed.

Lemma MoveNext_record_spec precompiled data p d bytes tail it :
  descriptor_ok d -> offsets_ok p -> record precompiled p d bytes -> stands p it ->
  drop (Z.to_nat (byte_index_ it)) data = bytes ++ tail ->
  exists it', MoveNext_record precompiled data it = Some it' /\ stands (after precompiled p d) it' /\
    drop (Z.to_nat (byte_index_ it')) data = tail /\ cur_kind_ it' = d_kind d /\ cur_try_index_ it' = d_try d /\
    byte_index_ it' = byte_index_ it + zlen bytes.
Proof.
  intros (Hk & Hpc & Hde & Hto & Htr) (Hp & Hd & Ht) (b1 & b2 & b3 & b4 & B1 & B2 & B34 & ->) (C1 & C2 & C3 & Hi) Hdrop.
  destruct (MergedKindTry_roundtrip _ _ Hk Htr) as (Hm & Ekind & Etry).
  destruct (diff_sint _ _ Hpc Hp) as [S1 _], (diff_sint _ _ Hde Hd) as [S2 _], (diff_sint _ _ Hto Ht) as [S3 _].
  pose proof (Sleb_nonempty _ _ B1) as N1. pose proof (Sleb_nonempty _ _ B2) as N2.
  unfold MoveNext_record. rewrite <- app_assoc in Hdrop.
  destruct (DecodeSLEB128_spec data _ b1 _ _ B1 Hdrop Hi) as [-> D1]; [unfold is_sint in *; simpl in *; lia|].
  cbn [mbind option_bind]. rewrite (swrap_id 32 eq_refl _ Hm), Ekind, Etry.
  rewrite <- app_assoc in D1. destruct (DecodeSLEB128_spec data _ b2 _ _ B2 D1) as [-> D2]; [lia|done|].
  cbn [mbind option_bind]. rewrite C1, C2, C3, (s64_delta _ _ Hpc).
  destruct precompiled; cbn [negb].
  - eexists. split; [reflexivity|]. split; [repeat split; simpl; lia|]. simpl.
    rewrite !zlen_app. split_and!; try done. unfold zlen. simpl. lia.
  - destruct B34 as [B3 B4]; [done|].
    pose proof (Sleb_nonempty _ _ B3) as N3. pose proof (Sleb_nonempty _ _ B4) as N4.
    rewrite <- app_assoc in D2. destruct (DecodeSLEB128_spec data _ b3 _ _ B3 D2) as [-> D3]; [lia|done|].
    cbn [mbind option_bind]. destruct (DecodeSLEB128_spec data _ b4 _ _ B4 D3) as [-> D4]; [lia|done|].
    cbn [mbind option_bind]. rewrite (s64_delta _ _ Hde), (s64_delta _ _ Hto).
    eexists. split; [reflexivity|]. split; [repeat split; simpl; lia|]. simpl.
    rewrite !zlen_app. split_and!; try done. lia.
Qed.

Lemma record_nonempty precompiled p d bytes : record precompiled p d bytes -> 0 < zlen bytes.
Proof.
  intros (b1 & b2 & b3 & b4 & B1 & _ & _ & ->). pose proof (Sleb_nonempty _ _ B1).
  rewrite zlen_app. pose proof (zlen_nonneg (b2 ++ (if precompiled then [] else b3 ++ b4))). lia.
Qed.

(** The iterator at [p] with exactly the records of [ds] left. *)
Definition left_over (precompiled : bool) (data : list Z) (p : Descriptor) (ds : list Descriptor) (it : Iterator) : Prop :=
  stands p it /\ byte_index_ it <= zlen data /\
  exists bytes, table precompiled p ds bytes /\ drop (Z.to_nat (byte_index_ it)) data = bytes.

Lemma left_over_step precompiled data p d ds it :
  left_over precompiled data p (d :: ds) it ->
  byte_index_ it < zlen data /\ descriptor_ok d /\
  exists it', MoveNext_record precompiled data it = Some it' /\
    left_over precompiled data (after precompiled p d) ds it' /\ cur_kind_ it' = d_kind d /\ cur_try_index_ it' = d_try d.
Proof.
  intros (Hst & Hlen & bytes & Ht & Hd).
  inversion Ht as [|p' d' ds' b bs Hok Hoff Hrec Ht' E1 E2 E3]; subst p' d' ds' bytes.
  pose proof (record_nonempty _ _ _ _ Hrec) as Hne.
  destruct (MoveNext_record_spec precompiled data p d b bs it Hok Hoff Hrec Hst) as (it' & E & Hs' & Hd' & Hk & Htr & Hlt); [done|].
  assert (Hz : zlen data - byte_index_ it = zlen b + zlen bs).
  { apply (f_equal length) in E3. rewrite length_drop, length_app in E3.
    destruct Hst as (_ & _ & _ & Hi). unfold zlen in *. lia. }
  pose proof (zlen_nonneg bs). split; [lia|]. split; [done|]. exists it'. split; [done|]. split; [|done].
  split; [done|]. split; [lia|by exists bs].
Qed.

Lemma left_over_nil precompiled data p it :
  left_over precompiled data p [] it -> byte_index_ it = zlen data.
Proof.
  intros ((_ & _ & _ & Hi) & Hlen & bytes & Ht & Hd). inversion Ht as [p' E1 E2 E3|].
  rewrite <- E3 in Hd. apply (f_equal length) in Hd. rewrite length_drop in Hd. unfold zlen in *. simpl in Hd. lia.
Qed.

Lemma view_shown precompiled p d it :
  stands (after precompiled p d) it -> cur_kind_ it = d_kind d -> cur_try_index_ it = d_try d ->
  (precompiled = true -> d_deopt p = 0 /\ d_token p = 0) -> view it = shown precompiled d.
Proof.
  intros (E1 & E2 & E3 & _) Ek Et H0. unfold view, shown, after in *. rewrite E1, E2, E3, Ek, Et.
  destruct precompiled; simpl; [|by destruct d]. by destruct H0 as [-> ->].
Qed.

(** [MoveNext] finds the next matching descriptor. *)
Lemma MoveNext_loop_spec precompiled data kind_mask ds : forall fuel p it,
  left_over precompiled data p ds it -> (length ds < fuel)%nat ->
  (precompiled = true -> d_deopt p = 0 /\ d_token p = 0) ->
  exists b it', MoveNext_loop fuel precompiled data kind_mask it = Some (b, it') /\
    match b with
    | false => List.filter (matches kind_mask) ds = []
    | true => exists d ds' p', List.filter (matches kind_mask) ds = d :: List.filter (matches kind_mask) ds' /\
        (length ds' < length ds)%nat /\ view it' = shown precompiled d /\ left_over precompiled data p' ds' it' /\
        (precompiled = true -> d_deopt p' = 0 /\ d_token p' = 0)
    end.
Proof.
  induction ds as [|d ds IH]; intros fuel p it Hl Hf H0; (destruct fuel as [|fuel]; [lia|]); cbn [MoveNext_loop].
  - rewrite (left_over_nil _ _ _ _ Hl). destruct (Z.ltb_spec (zlen data) (zlen data)); [lia|]. by exists false, it.
  - destruct (left_over_step _ _ _ _ _ _ Hl) as (Hlt & Hok & it' & E & Hl' & Ek & Et).
    destruct (Z.ltb_spec (byte_index_ it) (zlen data)); [|lia]. rewrite E. cbn [mbind option_bind].
    assert (H0' : precompiled = true -> d_deopt (after precompiled p d) = 0 /\ d_token (after precompiled p d) = 0)
      by (destruct precompiled; simpl; [done|done]).
    rewrite Ek. cbn [List.filter]. destruct (matches kind_mask d) eqn:Em;
      unfold matches in Em; rewrite Em.
    + exists true, it'. split; [done|]. exists d, ds, (after precompiled p d). split_and!; try done.
      * simpl. lia.
      * apply (view_shown precompiled p d it'); [apply Hl'|done..].
    + simpl in Hf. destruct (IH fuel (after precompiled p d) it' Hl' ltac:(lia) H0') as (b & it2 & E2 & Hb).
      exists b, it2. split; [done|]. destruct b; [|done].
      destruct Hb as (d' & ds' & p' & ? & ? & ? & ? & ?). exists d', ds', p'. split_and!; try done. simpl. lia.
Qed.

Lemma table_length precompiled p ds bytes : table precompiled p ds bytes -> (length ds <= length bytes)%nat.
Proof.
  induction 1 as [|p d ds b bs _ _ Hrec _ IH]; simpl; [done|]. rewrite length_app.
  pose proof (record_nonempty _ _ _ _ Hrec). unfold zlen in *. lia.
Qed.

Lemma collect_spec precompiled data kind_mask fuel : forall ds p it,
  left_over precompiled data p ds it -> (length ds < fuel)%nat ->
  (precompiled = true -> d_deopt p = 0 /\ d_token p = 0) ->
  exists its, collect fuel precompiled data kind_mask it = Some its /\
    view <$> its = shown precompiled <$> List.filter (matches kind_mask) ds.
Proof.
  induction fuel as [|fuel IH]; intros ds p it Hl Hf H0; [lia|]. cbn [collect]. unfold MoveNext.
  destruct (MoveNext_loop_spec precompiled data kind_mask ds (S (length data)) p it Hl) as (b & it' & E & Hb); [|done|].
  { destruct Hl as (_ & _ & bytes & Ht & Hd). apply table_length in Ht. rewrite <- Hd, length_drop in Ht. lia. }
  rewrite E. cbn [mbind option_bind]. destruct b.
  - destruct Hb as (d & ds' & p' & -> & Hlen & Hv & Hl' & H0').
    destruct (IH ds' p' it' Hl' ltac:(lia) H0') as (its & -> & Hi). simpl.
    eexists. split; [reflexivity|]. rewrite !fmap_cons. by rewrite Hv, Hi.
  - exists []. rewrite Hb. done.
Qed.

(** ** Properties *)

(** [Utils::DecodeSLEB128] inverts [EncodeSLEB128] for every 64-bit value,
    wherever the bytes are in the data, and moves past them. *)
Theorem SLEB128_roundtrip data v tail :
  is_sint 64 v ->
  exists data', EncodeSLEB128 data v = Some data' /\ DecodeSLEB128 (data' ++ tail) (zlen data) = Some (v, zlen data').
Proof.
  intros Hv. destruct (EncodeSLEB128_spec data v Hv) as (bytes & E & Hb). exists (data ++ bytes). split; [done|].
  destruct (DecodeSLEB128_spec ((data ++ bytes) ++ tail) v bytes tail (zlen data) Hb) as [-> _]; [|apply zlen_nonneg|done|].
  - unfold zlen. rewrite Nat2Z.id, <- app_assoc. apply drop_app_length.
  - by rewrite zlen_app.
Qed.
Lemma SLEB128_roundtrip_witness :
  exists data', EncodeSLEB128 [7] kMinInt64 = Some data' /\ DecodeSLEB128 (data' ++ [1]) (zlen [7]) = Some (kMinInt64, zlen data').
Proof. apply (SLEB128_roundtrip [7] kMinInt64 [1]). unfold is_sint, kMinInt64. lia. Defined.

(** C39: iterating over the table that [AddDescriptor] has built gives back the
    added descriptors, in order, restricted to the kinds of the mask; in
    precompiled mode those without a try index are left out, and deopt ids and
    token positions are not stored. *)
Theorem descriptors_roundtrip precompiled ds kind_mask :
  Forall descriptor_ok ds ->
  exists l its, add_all precompiled ds DescriptorList_new = Some l /\
    collect (S (length ds)) precompiled (encoded_data l) kind_mask Iterator_new = Some its /\
    view <$> its = shown precompiled <$> List.filter (matches kind_mask) (List.filter (kept precompiled) ds).
Proof.
  intros Hds. destruct (add_all_table precompiled ds DescriptorList_new Hds) as (l & bytes & E & Ed & Ht).
  { repeat split; simpl; unfold is_sint; lia. }
  simpl in Ed. exists l.
  destruct (collect_spec precompiled (encoded_data l) kind_mask (S (length ds))
              (List.filter (kept precompiled) ds) (last_of DescriptorList_new) Iterator_new) as (its & Ec & Hv).
  - split; [repeat split; simpl; lia|]. split; [apply zlen_nonneg|]. exists bytes. by rewrite Ed.
  - pose proof (filter_length_le (kept precompiled) ds). lia.
  - done.
  - by exists its.
Qed.
Lemma descriptors_roundtrip_witness :
  let ds := [MkDescriptor 2 16 5 100 (-1); MkDescriptor 64 40 (-1) 90 3; MkDescriptor 2 300 9 95 0] in
  exists l its, add_all false ds DescriptorList_new = Some l /\
    collect 4 false (encoded_data l) 2 Iterator_new = Some its /\
    view <$> its = [MkDescriptor 2 16 5 100 (-1); MkDescriptor 2 300 9 95 0].
Proof.
  intros ds. apply (descriptors_roundtrip false ds 2).
  repeat apply List.Forall_cons; try apply List.Forall_nil; unfold descriptor_ok, is_sint; simpl;
    (split; [|lia]); [exists 1|exists 6|exists 1]; (split; [lia|reflexivity]).
Defined.
