(* ===== verification/Unicode.v ===== *)
(** * UTF-8 and UTF-16 (src/runtime/platform/unicode.{h,cc}, src/runtime/vm/unicode.cc)

    Encoding and decoding of code points, validation, conversion of UTF-8 to
    UTF-32, UTF-16 and Latin-1, and the conversion of Dart strings to UTF-8.
    Byte arrays are lists of bytes; a function that writes through [dst]
    returns what it has written. *)
From S2P Require Import Prelude Utils.
Local Open Scope Z_scope.
Local Open Scope vm_scope.

(** ** Code points *)
Definition kMaxCodePoint : Z := 0x10FFFF.
Definition IsLatin1 (code_point : Z) : bool := (code_point >=? 0) && (code_point <=? 0xFF).
Definition IsBmp (code_point : Z) : bool := (code_point >=? 0) && (code_point <=? 0xFFFF).
Definition IsSupplementary (code_point : Z) : bool :=
  (code_point >? 0xFFFF) && (code_point <=? kMaxCodePoint).
Definition IsOutOfRange (code_point : Z) : bool :=
  (code_point <? 0) || (code_point >? kMaxCodePoint).

(** ** UTF-8 *)
Inductive Utf8Type := kLatin1 | kBMP | kSupplementary.
#[export] Instance Utf8Type_eq_dec : EqDecision Utf8Type.
Proof. solve_decision. Defined.

Definition kMaxOneByteChar : Z := 0x7F.
Definition kMaxTwoByteChar : Z := 0x7FF.
Definition kMaxThreeByteChar : Z := 0xFFFF.
Definition kMaxFourByteChar : Z := kMaxCodePoint.

(** The table, row by row. *)
Definition kTrailBytes : list Z :=
  replicate 128 1 ++ replicate 64 0 ++ replicate 32 2 ++ replicate 16 3 ++
  [4; 4; 4; 4; 4; 4; 4; 4; 5; 5; 5; 5; 6; 6; 0; 0].
Definition kMagicBits : list Z :=
  [0; 0x00000000; 0x00003080; 0x000E2080; 0x03C82080; 0xFA082080; 0x82082080].
Definition kOverlongMinimum : list Z := [0; 0x0; 0x80; 0x800; 0x10000; 0xFFFFFFFF; 0xFFFFFFFF].

Definition IsTrailByte (code_unit : Z) : bool := code_unit &&& 0xC0 =? 0x80.
(** [None]: the index is outside the table. *)
Definition IsNonShortestForm (code_point num_code_units : Z) : option bool :=
  m ← arr_get kOverlongMinimum num_code_units; Some (code_point <? m).
Definition IsLatin1SequenceStart (code_unit : Z) : bool := code_unit <=? 0xC3.
Definition IsSupplementarySequenceStart (code_unit : Z) : bool := code_unit >=? 0xF0.

(** One step of the loop of [CodeUnitCount]. *)
Definition CodeUnitCount_step (acc : Z * Utf8Type) (code_unit : Z) : Z * Utf8Type :=
  let '(len, char_type) := acc in
  if negb (IsTrailByte code_unit) then
    let len := len + 1 in
    if negb (IsLatin1SequenceStart code_unit) then
      if IsSupplementarySequenceStart code_unit then (len + 1, kSupplementary)
      else if bool_decide (char_type = kLatin1) then (len, kBMP) else (len, char_type)
    else (len, char_type)
  else acc.
Definition CodeUnitCount (utf8_array : list Z) : Z * Utf8Type :=
  foldl CodeUnitCount_step (0, kLatin1) utf8_array.

(** The loop over trail bytes that [IsValid] and [Decode] share: [n] bytes are
    left, the next one is at [i]. [None]: the array ends before. *)
Fixpoint trail_loop (n : nat) (utf8_array : list Z) (i ch : Z) (is_malformed : bool)
    : option (Z * bool) :=
  match n with
  | O => Some (ch, is_malformed)
  | S n =>
      code_unit ← arr_get utf8_array i;
      trail_loop n utf8_array (i + 1) (u32 (u32 (ch <<< 6) + code_unit))
        (is_malformed || negb (IsTrailByte code_unit))
  end.

(** The sequence that starts at index [i]: [None] for an access outside an
    array, [Some None] for an invalid sequence, otherwise its length and code
    point. The loop counter ends at [max 1 num_trail_bytes]. *)
Definition decode_at (utf8_array : list Z) (i : Z) : option (option (Z * Z)) :=
  first ← arr_get utf8_array i;
  let ch := first &&& 0xFF in
  if ch >=? 0x80 then
    num_trail_bytes ← arr_get kTrailBytes ch;
    match trail_loop (Z.to_nat (num_trail_bytes - 1)) utf8_array (i + 1) ch false with
    | None => Some None
    | Some (ch, is_malformed) =>
        let j := Maximum 1 num_trail_bytes in
        magic ← arr_get kMagicBits num_trail_bytes;
        let ch := u32 (ch - magic) in
        non_shortest ← IsNonShortestForm ch j;
        if negb is_malformed && (j =? num_trail_bytes) && negb (IsOutOfRange (s32 ch)) && negb non_shortest
        then Some (Some (j, ch)) else Some None
    end
  else Some (Some (1, ch)).

(** [while (i < array_len)]; the fuel bounds the sequences. *)
Fixpoint IsValid_loop (fuel : nat) (utf8_array : list Z) (i : Z) : option bool :=
  match fuel with
  | O => None
  | S n =>
      if i <? zlen utf8_array then
        r ← decode_at utf8_array i;
        match r with
        | None => Some false
        | Some (j, _) => IsValid_loop n utf8_array (i + j)
        end
      else Some true
  end.
Definition IsValid (utf8_array : list Z) : option bool :=
  IsValid_loop (S (length utf8_array)) utf8_array 0.

Definition Utf8_Length (ch : Z) : Z :=
  if ch <=? kMaxOneByteChar then 1
  else if ch <=? kMaxTwoByteChar then 2
  else if ch <=? kMaxThreeByteChar then 3
  else 4.

(** The bytes written to [dst]; the result of the function is their number. *)
Definition Utf8_Encode (ch : Z) : list Z :=
  let kMask := Z.lnot (1 <<< 6) in
  if ch <=? kMaxOneByteChar then [u8 ch]
  else if ch <=? kMaxTwoByteChar then
    [u8 (0xC0 ||| (ch >>> 6)); u8 (0x80 ||| (ch &&& kMask))]
  else if ch <=? kMaxThreeByteChar then
    [u8 (0xE0 ||| (ch >>> 12)); u8 (0x80 ||| ((ch >>> 6) &&& kMask)); u8 (0x80 ||| (ch &&& kMask))]
  else
    [u8 (0xF0 ||| (ch >>> 18)); u8 (0x80 ||| ((ch >>> 12) &&& kMask));
     u8 (0x80 ||| ((ch >>> 6) &&& kMask)); u8 (0x80 ||| (ch &&& kMask))].

(** The number of bytes and [*dst]; an invalid sequence gives 0 and -1. *)
Definition Utf8_Decode (utf8_array : list Z) : option (Z * Z) :=
  r ← decode_at utf8_array 0;
  Some (match r with None => (0, -1) | Some (n, ch) => (n, s32 ch) end).

(** ** UTF-16 *)
Definition kMaxCodeUnit : Z := 0xFFFF.
Definition kLeadSurrogateOffset : Z := 0xD800 - (0x10000 >>> 10).
Definition Utf16_Length (ch : Z) : Z := if ch <=? kMaxCodeUnit then 1 else 2.
Definition IsSurrogate (ch : Z) : bool := u32 ch &&& 0xFFFFF800 =? 0xD800.
Definition IsLeadSurrogate (ch : Z) : bool := u32 ch &&& 0xFFFFFC00 =? 0xD800.
Definition IsTrailSurrogate (ch : Z) : bool := u32 ch &&& 0xFFFFFC00 =? 0xDC00.
Definition Utf16_Decode (lead trail : Z) : Z :=
  0x10000 + ((lead &&& 0x3FF) <<< 10) + (trail &&& 0x3FF).
Definition Utf16_Encode (codepoint : Z) : list Z :=
  [u16 (kLeadSurrogateOffset + (codepoint >>> 10)); u16 (0xDC00 + (codepoint &&& 0x3FF))].
(** The character at [i] and the index of the next one. *)
Definition Utf16_Next (characters : list Z) (i : Z) : option (Z * Z) :=
  ch ← arr_get characters i;
  if IsLeadSurrogate ch && (i <? zlen characters - 1) then
    ch2 ← arr_get characters (i + 1);
    if IsTrailSurrogate ch2 then Some (Utf16_Decode ch ch2, i + 2) else Some (ch, i + 1)
  else Some (ch, i + 1).

(** ** Conversions *)

(** [DecodeToUTF32], [DecodeToUTF16] and [DecodeToLatin1]: the result and the
    code units written, at most [len]; [None] is an access outside an array. *)
Fixpoint DecodeToUTF32_loop (fuel : nat) (utf8_array : list Z) (i : Z) (dst : list Z) (len : Z)
    : option (bool * list Z) :=
  match fuel with
  | O => None
  | S n =>
      if (i <? zlen utf8_array) && (zlen dst <? len) then
        r ← decode_at utf8_array i;
        match r with
        | None => Some (false, dst)
        | Some (num_bytes, ch) => DecodeToUTF32_loop n utf8_array (i + num_bytes) (dst ++ [s32 ch]) len
        end
      else Some (negb ((i <? zlen utf8_array) && (zlen dst =? len)), dst)
  end.
Definition DecodeToUTF32 (utf8_array : list Z) (len : Z) : option (bool * list Z) :=
  DecodeToUTF32_loop (S (length utf8_array)) utf8_array 0 [] len.

Fixpoint DecodeToUTF16_loop (fuel : nat) (utf8_array : list Z) (i : Z) (dst : list Z) (len : Z)
    : option (bool * list Z) :=
  match fuel with
  | O => None
  | S n =>
      if (i <? zlen utf8_array) && (zlen dst <? len) then
        first ← arr_get utf8_array i;
        let is_supplementary := IsSupplementarySequenceStart first in
        r ← decode_at utf8_array i;
        match r with
        | None => Some (false, dst)
        | Some (num_bytes, ch) =>
            if is_supplementary then
              if zlen dst =? len - 1 then Some (false, dst)
              else DecodeToUTF16_loop n utf8_array (i + num_bytes) (dst ++ Utf16_Encode ch) len
            else DecodeToUTF16_loop n utf8_array (i + num_bytes) (dst ++ [u16 ch]) len
        end
      else Some (negb ((i <? zlen utf8_array) && (zlen dst =? len)), dst)
  end.
Definition DecodeToUTF16 (utf8_array : list Z) (len : Z) : option (bool * list Z) :=
  DecodeToUTF16_loop (S (length utf8_array)) utf8_array 0 [] len.

Fixpoint DecodeToLatin1_loop (fuel : nat) (utf8_array : list Z) (i : Z) (dst : list Z) (len : Z)
    : option (bool * list Z) :=
  match fuel with
  | O => None
  | S n =>
      if (i <? zlen utf8_array) && (zlen dst <? len) then
        r ← decode_at utf8_array i;
        match r with
        | None => Some (false, dst)
        | Some (num_bytes, ch) => DecodeToLatin1_loop n utf8_array (i + num_bytes) (dst ++ [u8 ch]) len
        end
      else Some (negb ((i <? zlen utf8_array) && (zlen dst =? len)), dst)
  end.
Definition DecodeToLatin1 (utf8_array : list Z) (len : Z) : option (bool * list Z) :=
  DecodeToLatin1_loop (S (length utf8_array)) utf8_array 0 [] len.

(** ** Dart strings *)
Inductive DartString := OneByteString (chars : list Z) | TwoByteString (chars : list Z).
Definition kAsciiWordMask : Z := 0x8080808080808080.
(** A word read from memory on a little-endian host. *)
Fixpoint load_word (bytes : list Z) : Z :=
  match bytes with [] => 0 | b :: rest => b + 256 * load_word rest end.

(** The bits of [chunk & kAsciiWordMask], counted by shuffling. *)
Definition count_high_bits (chunk : Z) : Z :=
  let chunk := chunk &&& kAsciiWordMask in
  if negb (chunk =? 0) then
    let chunk := u64 (chunk + (chunk >>> 32)) in
    let chunk := u64 (chunk + (chunk >>> 16)) in
    let chunk := u64 (chunk + (chunk >>> 8)) in
    (chunk >>> 7) &&& 0xf
  else 0.
(** Whole words first, then the tail. *)
Fixpoint Length_OneByte_loop (fuel : nat) (chars : list Z) (length_ : Z) : Z :=
  match fuel with
  | O => length_
  | S n =>
      if 8 <=? zlen chars then
        Length_OneByte_loop n (drop 8 chars) (length_ + count_high_bits (load_word (take 8 chars)))
      else foldl (fun length_ c => if c >? kMaxOneByteChar then length_ + 1 else length_) length_ chars
  end.

(** [String::CodePointIterator]: the current character and index. *)
Record CodePointIterator := MkCodePoints { cp_ch : Z; cp_index : Z }.
Definition CodePointIterator_new : CodePointIterator := MkCodePoints 0 (-1).
Definition CodePointIterator_Next (chars : list Z) (it : CodePointIterator) : option (bool * CodePointIterator) :=
  let end_ := zlen chars in
  let length_ := Utf16_Length (cp_ch it) in
  if cp_index it <? end_ - length_ then
    let index := cp_index it + length_ in
    ch ← arr_get chars index;
    if IsLeadSurrogate ch && (index <? end_ - 1) then
      ch2 ← arr_get chars (index + 1);
      Some (true, MkCodePoints (if IsTrailSurrogate ch2 then Utf16_Decode ch ch2 else ch) index)
    else Some (true, MkCodePoints ch index)
  else Some (false, MkCodePoints (cp_ch it) end_).

Fixpoint Length_TwoByte_loop (fuel : nat) (chars : list Z) (it : CodePointIterator) (length_ : Z) : option Z :=
  match fuel with
  | O => None
  | S n =>
      '(more, it) ← CodePointIterator_Next chars it;
      if (more : bool) then Length_TwoByte_loop n chars it (length_ + Utf8_Length (cp_ch it))
      else Some length_
  end.
Definition Utf8_Length_String (str : DartString) : option Z :=
  match str with
  | OneByteString chars => Some (Length_OneByte_loop (S (length chars)) chars (zlen chars))
  | TwoByteString chars => Length_TwoByte_loop (S (length chars)) chars CodePointIterator_new 0
  end.

(** Up to one word of input, character by character: [inr] when the output is
    full ([return pos]). *)
Fixpoint Encode_chars (chars : list Z) (dst : list Z) (array_len : Z) : list Z + list Z :=
  match chars with
  | [] => inl dst
  | c :: rest =>
      if zlen dst + Utf8_Length c >? array_len then inr dst
      else Encode_chars rest (dst ++ Utf8_Encode c) array_len
  end.
(** [inr]: returned from inside the loop, with the inner [pos]. *)
Fixpoint Encode_OneByte_loop (fuel : nat) (chars : list Z) (dst : list Z) (array_len : Z) : list Z + list Z :=
  match fuel with
  | O => inl dst
  | S n =>
      if 0 <? zlen chars then
        if (8 <=? zlen chars) && (load_word (take 8 chars) &&& kAsciiWordMask =? 0) &&
           (zlen dst + 8 <=? array_len)
        then Encode_OneByte_loop n (drop 8 chars) (dst ++ take 8 chars) array_len
        else
          match Encode_chars (take 8 chars) dst array_len with
          | inl dst => Encode_OneByte_loop n (drop 8 chars) dst array_len
          | inr dst => inr dst
          end
      else inl dst
  end.
Fixpoint Encode_TwoByte_loop (fuel : nat) (chars : list Z) (it : CodePointIterator) (dst : list Z) (len : Z)
    : option (list Z) :=
  match fuel with
  | O => None
  | S n =>
      '(more, it) ← CodePointIterator_Next chars it;
      if (more : bool) then
        if zlen dst + Utf8_Length (cp_ch it) >? len then Some dst
        else Encode_TwoByte_loop n chars it (dst ++ Utf8_Encode (cp_ch it)) len
      else Some dst
  end.
(** The bytes written and the returned number. The branch for one-byte strings
    declares its own [pos]: the [pos] returned after the loop is the outer
    one, which is still 0. *)
Definition Utf8_Encode_String (src : DartString) (len : Z) : option (list Z * Z) :=
  match src with
  | OneByteString chars =>
      match Encode_OneByte_loop (S (length chars)) chars [] len with
      | inl dst => Some (dst, 0)
      | inr dst => Some (dst, zlen dst)
      end
  | TwoByteString chars =>
      dst ← Encode_TwoByte_loop (S (length chars)) chars CodePointIterator_new [] len;
      Some (dst, zlen dst)
  end.

(** ** The encoding as arithmetic *)
Definition valid_code_point (ch : Z) : Prop := 0 <= ch <= kMaxCodePoint.
Definition utf8 (ch : Z) : list Z :=
  if ch <? 0x80 then [ch]
  else if ch <? 0x800 then [192 + ch / 64; 128 + ch mod 64]
  else if ch <? 0x10000 then [224 + ch / 4096; 128 + ch / 64 mod 64; 128 + ch mod 64]
  else [240 + ch / 262144; 128 + ch / 4096 mod 64; 128 + ch / 64 mod 64; 128 + ch mod 64].
Definition is_byte (b : Z) : Prop := 0 <= b < 256.

Lemma trail_byte_eq x : 0 <= x -> u8 (0x80 ||| (x &&& Z.lnot (1 <<< 6))) = 128 + x mod 64.
Proof.
  intros Hx. pose proof (uwrap_range 6 ltac:(lia) x) as Hm.
  change (x mod 64) with (uwrap 6 x).
  replace (128 + uwrap 6 x) with (uwrap 6 x ||| (1 <<< 7)) by (rewrite lor_low_high by (unfold is_uint in *; lia); lia).
  apply Z.bits_inj'. intros i Hi.
  rewrite (testbit_uwrap 8), !Z.lor_spec, Z.land_spec, (testbit_uwrap 6) by lia.
  destruct (Z.ltb_spec i 8) as [H8|H8].
  - assert (Hi' : i = 0 \/ i = 1 \/ i = 2 \/ i = 3 \/ i = 4 \/ i = 5 \/ i = 6 \/ i = 7) by lia.
    destruct_or! Hi'; subst i; simpl; by rewrite ?andb_true_r, ?andb_false_r, ?orb_false_r.
  - destruct (Z.ltb_spec i 6); [lia|]. by rewrite (Z.shiftl_1_l 7), Z.pow2_bits_false by lia.
Qed.

Lemma lead_byte_eq c n x : 0 <= n -> 0 <= x < 2 ^ n -> 0 <= c * 2 ^ n + x < 256 ->
  u8 ((c * 2 ^ n) ||| x) = c * 2 ^ n + x.
Proof.
  intros Hn Hx Hb. rewrite Z.lor_comm, <- Z.shiftl_mul_pow2, lor_low_high by (done || lia).
  rewrite Z.add_comm, Z.shiftl_mul_pow2 by done. by apply uwrap_id.
Qed.

Lemma Utf8_Encode_eq ch : valid_code_point ch -> Utf8_Encode ch = utf8 ch.
Proof.
  unfold valid_code_point, kMaxCodePoint. intros Hch.
  unfold Utf8_Encode, utf8, kMaxOneByteChar, kMaxTwoByteChar, kMaxThreeByteChar.
  rewrite !Z.shiftr_div_pow2 by lia. change (2 ^ 6) with 64. change (2 ^ 12) with 4096. change (2 ^ 18) with 262144.
  destruct (Z.leb_spec ch 127), (Z.ltb_spec ch 128); try lia.
  { by rewrite uwrap_id by (unfold is_uint; lia). }
  rewrite !trail_byte_eq by (try apply Z.div_pos; lia).
  destruct (Z.leb_spec ch 2047), (Z.ltb_spec ch 2048); try lia.
  { f_equal. apply (lead_byte_eq 6 5); divlia. }
  destruct (Z.leb_spec ch 65535), (Z.ltb_spec ch 65536); try lia.
  { f_equal. apply (lead_byte_eq 14 4); divlia. }
  f_equal. apply (lead_byte_eq 30 3); divlia.
Qed.

Lemma Utf8_Length_eq ch : Utf8_Length ch = zlen (utf8 ch).
Proof.
  unfold Utf8_Length, utf8, kMaxOneByteChar, kMaxTwoByteChar, kMaxThreeByteChar, zlen.
  repeat zif; simpl; lia.
Qed.

Lemma utf8_bytes ch : valid_code_point ch -> Forall is_byte (utf8 ch).
Proof.
  unfold valid_code_point, kMaxCodePoint. intros Hch. unfold utf8, is_byte.
  repeat zif; repeat (constructor; [divlia|]); constructor.
Qed.

(** ** Decoding as arithmetic *)
Definition trail (b : Z) : bool := (128 <=? b) && (b <? 192).
Definition decode_list (l : list Z) : option (Z * Z) :=
  match l with
  | [] => None
  | b0 :: l =>
      if b0 <? 128 then Some (1, b0)
      else if b0 <? 192 then None
      else if b0 <? 224 then
        match l with
        | b1 :: _ =>
            let ch := (b0 - 192) * 64 + (b1 - 128) in
            if trail b1 && (128 <=? ch) then Some (2, ch) else None
        | _ => None
        end
      else if b0 <? 240 then
        match l with
        | b1 :: b2 :: _ =>
            let ch := ((b0 - 224) * 64 + (b1 - 128)) * 64 + (b2 - 128) in
            if trail b1 && trail b2 && (2048 <=? ch) then Some (3, ch) else None
        | _ => None
        end
      else if b0 <? 248 then
        match l with
        | b1 :: b2 :: b3 :: _ =>
            let ch := (((b0 - 240) * 64 + (b1 - 128)) * 64 + (b2 - 128)) * 64 + (b3 - 128) in
            if trail b1 && trail b2 && trail b3 && (65536 <=? ch) && (ch <=? kMaxCodePoint) then Some (4, ch) else None
        | _ => None
        end
      else None
  end.

Lemma IsTrailByte_eq b : is_byte b -> IsTrailByte b = trail b.
Proof.
  intros Hb. apply eqb_prop. exact (byte_forall (fun b => Bool.eqb (IsTrailByte b) (trail b)) eq_refl b Hb).
Qed.

Definition sequence_length (b : Z) : Z :=
  if b <? 128 then 1 else if b <? 192 then 0 else if b <? 224 then 2 else if b <? 240 then 3
  else if b <? 248 then 4 else if b <? 252 then 5 else if b <? 254 then 6 else 0.
Lemma kTrailBytes_eq b : is_byte b -> arr_get kTrailBytes b = Some (sequence_length b).
Proof.
  intros Hb.
  assert (H := byte_forall (fun b => bool_decide (arr_get kTrailBytes b = Some (sequence_length b))) eq_refl b Hb).
  by apply bool_decide_eq_true in H.
Qed.

(** A complete decoding of [utf8 ch] from its bytes, and back. *)
Lemma decode_list_utf8 ch l : valid_code_point ch -> decode_list (utf8 ch ++ l) = Some (zlen (utf8 ch), ch).
Proof.
  unfold valid_code_point, kMaxCodePoint. intros Hch. unfold utf8, zlen.
  repeat zif; cbn [app decode_list length]; unfold trail, kMaxCodePoint.
  - zif; [done|lia].
  - repeat zif; try divlia. f_equal. f_equal; divlia.
  - repeat zif; try divlia. f_equal. f_equal; divlia.
  - repeat zif; try divlia. f_equal. f_equal; divlia.
Qed.

Lemma decode_list_sound l n ch :
  Forall is_byte l -> decode_list l = Some (n, ch) ->
  valid_code_point ch /\ n = zlen (utf8 ch) /\ exists l', l = utf8 ch ++ l'.
Proof.
  unfold valid_code_point, kMaxCodePoint, is_byte. intros Hl. destruct l as [|b0 l]; [done|].
  inversion Hl as [|? ? H0 Hl0]; subst. cbn [decode_list]. unfold trail, kMaxCodePoint.
  destruct (Z.ltb_spec b0 128).
  { intros [= <- <-]. unfold utf8. zif; [|lia]. split; [lia|]. split; [done|]. by exists l. }
  destruct (Z.ltb_spec b0 192); [done|]. destruct (Z.ltb_spec b0 224).
  { destruct l as [|b1 l]; [done|]. zif; [|done]. intros [= <- <-]. split; [lia|].
    unfold utf8. do 2 (zif; try divlia). split; [done|]. exists l. simpl. repeat f_equal; divlia. }
  destruct (Z.ltb_spec b0 240).
  { destruct l as [|b1 [|b2 l]]; [done..|]. zif; [|done]. intros [= <- <-]. split; [lia|].
    unfold utf8. do 3 (zif; try divlia). split; [done|]. exists l. simpl. repeat f_equal; divlia. }
  destruct (Z.ltb_spec b0 248); [|done].
  destruct l as [|b1 [|b2 [|b3 l]]]; [done..|]. zif; [|done]. intros [= <- <-]. split; [lia|].
  unfold utf8. do 3 (zif; try divlia). split; [done|]. exists l. simpl. repeat f_equal; divlia.
Qed.

(** The loop over trail bytes on the rest of the array. *)
Fixpoint trail_list (n : nat) (l : list Z) (ch : Z) (is_malformed : bool) : option (Z * bool) :=
  match n, l with
  | O, _ => Some (ch, is_malformed)
  | S n, b :: l => trail_list n l (u32 (u32 (ch <<< 6) + b)) (is_malformed || negb (IsTrailByte b))
  | S _, [] => None
  end.

Lemma trail_loop_eq n arr i l ch m :
  0 <= i -> drop (Z.to_nat i) arr = l -> trail_loop n arr i ch m = trail_list n l ch m.
Proof.
  revert i l ch m. induction n as [|n IH]; intros i l ch m Hi Hl; [done|].
  destruct l as [|b l]; cbn [trail_loop trail_list].
  - by rewrite (arr_get_drop_nil arr i Hi Hl).
  - destruct (arr_get_drop arr i b l Hi Hl) as [-> Hd]. cbn. apply IH; [lia|done].
Qed.

Lemma trail_list_uint n l ch m ch' m' :
  is_uint 32 ch -> trail_list n l ch m = Some (ch', m') -> is_uint 32 ch'.
Proof.
  revert l ch m. induction n as [|n IH]; intros l ch m Hch; cbn [trail_list]; [by intros [= <- <-]|].
  destruct l as [|b l]; [done|]. apply IH. by apply uwrap_range.
Qed.

Lemma trail_step ch b : 0 <= ch < 2 ^ 25 -> is_byte b -> u32 (u32 (ch <<< 6) + b) = ch * 64 + b.
Proof.
  unfold is_byte. intros Hch Hb. rewrite Z.shiftl_mul_pow2 by lia.
  rewrite (uwrap_id 32 (ch * 2 ^ 6)), uwrap_id; unfold is_uint; lia.
Qed.

Lemma trail_list_cons n b l ch m : 0 <= ch < 2 ^ 25 -> is_byte b ->
  trail_list (S n) (b :: l) ch m = trail_list n l (ch * 64 + b) (m || negb (trail b)).
Proof. intros. cbn [trail_list]. by rewrite trail_step, IsTrailByte_eq. Qed.

(** The final test on a sequence of [n] bytes. *)
Definition accept (n ch : Z) (is_malformed : bool) (magic minimum : Z) : option (Z * Z) :=
  let ch := u32 (ch - magic) in
  if negb is_malformed && negb (IsOutOfRange (s32 ch)) && negb (ch <? minimum) then Some (n, ch) else None.

Lemma accept_small n ch m magic minimum :
  0 <= ch - magic < 2 ^ 31 ->
  accept n ch m magic minimum =
  if negb m && (minimum <=? ch - magic) && (ch - magic <=? kMaxCodePoint) then Some (n, ch - magic) else None.
Proof.
  intros H. unfold accept. rewrite uwrap_id by (unfold is_uint; lia).
  rewrite swrap_id by (unfold is_sint; lia). unfold IsOutOfRange, kMaxCodePoint.
  destruct m; [done|]. cbn [negb andb].
  repeat zif; try done; lia.
Qed.

Lemma accept_long n ch m magic : is_uint 32 ch -> accept n ch m magic 0xFFFFFFFF = None.
Proof.
  intros H. unfold accept. set (c := u32 (ch - magic)). assert (Hc : is_uint 32 c) by (by apply uwrap_range).
  unfold is_uint in Hc. destruct (Z.ltb_spec c 0xFFFFFFFF); [by rewrite andb_false_r|].
  replace c with 0xFFFFFFFF by lia. vm_compute. by destruct m.
Qed.

(** [decode_at] from the first byte and the rest of the array. *)
Lemma decode_at_step arr i b l :
  0 <= i -> drop (Z.to_nat i) arr = b :: l -> is_byte b ->
  decode_at arr i = Some (
    if b <? 128 then Some (1, b)
    else let n := sequence_length b in
      if n =? 0 then None
      else
        '(ch, m) ← trail_list (Z.to_nat (n - 1)) l b false;
        magic ← arr_get kMagicBits n; minimum ← arr_get kOverlongMinimum n;
        accept n ch m magic minimum).
Proof.
  intros Hi Hd Hb. unfold decode_at.
  destruct (arr_get_drop arr i b l Hi Hd) as [-> Hd']. cbn [mbind option_bind].
  change 0xFF with (2 ^ 8 - 1). rewrite land_low, Z.mod_small by (unfold is_byte in Hb; lia).
  rewrite Z.geb_leb. destruct (Z.leb_spec 128 b) as [H|H]; destruct (Z.ltb_spec b 128); try lia; [|done].
  rewrite kTrailBytes_eq by done. cbn [mbind option_bind].
  rewrite (trail_loop_eq _ _ _ l) by (done || lia).
  assert (Hn : sequence_length b = 0 \/ 2 <= sequence_length b <= 6)
    by (unfold sequence_length; repeat zif; lia).
  generalize dependent (sequence_length b). intros n Hn.
  destruct (Z.eqb_spec n 0) as [->|Hn0].
  - cbn. by rewrite ?andb_false_r.
  - destruct (trail_list _ _ _ _) as [[ch m]|]; [|done]. cbn [mbind option_bind]. unfold IsNonShortestForm, accept.
    rewrite Maximum_eq. replace (Z.max 1 n) with n by lia.
    destruct (arr_get_lt kMagicBits n) as [magic ->]; [change (zlen kMagicBits) with 7; lia|].
    destruct (arr_get_lt kOverlongMinimum n) as [minimum ->]; [change (zlen kOverlongMinimum) with 7; lia|].
    cbn [mbind option_bind]. rewrite Z.eqb_refl, andb_true_r. by repeat case_match.
Qed.

Lemma accept_trail n ch m magic minimum :
  (m = false -> 0 <= ch - magic < 2 ^ 31) ->
  accept n ch m magic minimum =
  if negb m && (minimum <=? ch - magic) && (ch - magic <=? kMaxCodePoint) then Some (n, ch - magic) else None.
Proof. intros H. destruct m; [done|]. apply accept_small. by apply H. Qed.

Lemma trail_bounds b : trail b = true -> 128 <= b < 192.
Proof. unfold trail. intros. zbool. lia. Qed.

(** The trail bytes of a sequence of fixed length, and the final test. *)
Ltac trail_bytes :=
  rewrite !trail_list_cons by (first [assumption | unfold is_byte in *; lia]);
  cbn [trail_list orb mbind option_bind].
Ltac trail_accept :=
  rewrite accept_trail by (intros; zbool;
    repeat match goal with H : trail _ = true |- _ => apply trail_bounds in H end; lia);
  rewrite ?negb_orb, ?negb_involutive;
  repeat match goal with |- context [trail ?b] =>
    let E := fresh in destruct (trail b) eqn:E; [apply trail_bounds in E|]; cbn [andb]; try done end;
  unfold kMaxCodePoint; repeat zif; try lia; [f_equal; f_equal; lia|done].

Lemma decode_at_eq arr i l :
  Forall is_byte arr -> 0 <= i -> drop (Z.to_nat i) arr = l -> l <> [] ->
  decode_at arr i = Some (decode_list l).
Proof.
  intros Harr Hi Hd Hne. destruct l as [|b l]; [done|].
  assert (Hl : Forall is_byte (b :: l)) by (rewrite <- Hd; by apply Forall_drop).
  inversion Hl as [|? ? Hb Hl']; subst.
  rewrite (decode_at_step arr i b l) by done. f_equal. cbn [decode_list]. unfold sequence_length.
  destruct (Z.ltb_spec b 128); [done|]. destruct (Z.ltb_spec b 192); [done|]. unfold is_byte in Hb.
  assert (Hlong : forall n, n = 5 \/ n = 6 -> ('(ch, m) ← trail_list (Z.to_nat (n - 1)) l b false;
        magic ← arr_get kMagicBits n; minimum ← arr_get kOverlongMinimum n;
        accept n ch m magic minimum) = None).
  { intros n Hn. destruct (trail_list (Z.to_nat (n - 1)) l b false) as [[ch m]|] eqn:E; [|done].
    apply trail_list_uint in E; [|unfold is_uint; lia]. destruct Hn; subst n; by apply accept_long. }
  destruct (Z.ltb_spec b 224); [|destruct (Z.ltb_spec b 240); [|destruct (Z.ltb_spec b 248)]].
  4: { destruct (b <? 252); [exact (Hlong 5 (or_introl eq_refl))|]. destruct (b <? 254); [exact (Hlong 6 (or_intror eq_refl))|done]. }
  - destruct l as [|b1 l]; [done|]. repeat (apply Forall_cons_1 in Hl' as [? Hl']).
    change (Z.to_nat (2 - 1)) with 1%nat. trail_bytes.
    change (arr_get kMagicBits 2) with (Some 0x3080). change (arr_get kOverlongMinimum 2) with (Some 0x80).
    cbn [Z.eqb mbind option_bind]. trail_accept.
  - destruct l as [|b1 [|b2 l]]; [done..|]. repeat (apply Forall_cons_1 in Hl' as [? Hl']).
    change (Z.to_nat (3 - 1)) with 2%nat. trail_bytes.
    change (arr_get kMagicBits 3) with (Some 0xE2080). change (arr_get kOverlongMinimum 3) with (Some 0x800).
    cbn [Z.eqb mbind option_bind]. trail_accept.
  - destruct l as [|b1 [|b2 [|b3 l]]]; [done..|]. repeat (apply Forall_cons_1 in Hl' as [? Hl']).
    change (Z.to_nat (4 - 1)) with 3%nat. trail_bytes.
    change (arr_get kMagicBits 4) with (Some 0x3C82080). change (arr_get kOverlongMinimum 4) with (Some 0x10000).
    cbn [Z.eqb mbind option_bind]. trail_accept.
Qed.

(** ** Strings of code points *)
Definition utf8_string (cps : list Z) : list Z := mjoin (utf8 <$> cps).

Lemma utf8_string_cons ch cps : utf8_string (ch :: cps) = utf8 ch ++ utf8_string cps.
Proof. done. Qed.

Lemma utf8_nonempty ch : 1 <= zlen (utf8 ch).
Proof. unfold utf8, zlen. repeat zif; cbn [length]; lia. Qed.

Lemma utf8_string_bytes cps : Forall valid_code_point cps -> Forall is_byte (utf8_string cps).
Proof.
  induction 1 as [|ch cps Hch _ IH]; [constructor|]. apply Forall_app. split; [by apply utf8_bytes|done].
Qed.

(** The bytes behind [pre] start with [utf8 ch]: [decode_at] returns it. *)
Lemma decode_at_utf8 pre ch rest :
  Forall is_byte (pre ++ utf8 ch ++ rest) -> valid_code_point ch ->
  decode_at (pre ++ utf8 ch ++ rest) (zlen pre) = Some (Some (zlen (utf8 ch), ch)).
Proof.
  intros Hb Hch. rewrite (decode_at_eq _ _ (utf8 ch ++ rest)).
  - by rewrite decode_list_utf8.
  - done.
  - apply zlen_nonneg.
  - unfold zlen. by rewrite Nat2Z.id, drop_app_length.
  - intros H%app_nil. pose proof (utf8_nonempty ch). destruct H as [H _]. rewrite H in *. done.
Qed.

Lemma decode_at_bad pre tail :
  Forall is_byte (pre ++ tail) -> tail <> [] -> decode_list tail = None ->
  decode_at (pre ++ tail) (zlen pre) = Some None.
Proof.
  intros Hb Hne Hd. rewrite (decode_at_eq _ _ tail); [by rewrite Hd|done|apply zlen_nonneg| |done].
  unfold zlen. by rewrite Nat2Z.id, drop_app_length.
Qed.

(** Every byte array is a string of encoded code points followed by nothing
    or by bytes that start no sequence. *)
Lemma utf8_split l : Forall is_byte l ->
  exists cps tail, Forall valid_code_point cps /\ l = utf8_string cps ++ tail /\ decode_list tail = None.
Proof.
  induction l as [l IH] using (induction_ltof1 _ length). unfold ltof in IH. intros Hl.
  destruct (decode_list l) as [[n ch]|] eqn:E.
  - destruct (decode_list_sound l n ch Hl E) as (Hch & -> & l' & ->).
    destruct (IH l') as (cps & tail & Hcps & -> & Ht).
    + rewrite length_app. pose proof (utf8_nonempty ch). unfold zlen in *. lia.
    + by apply Forall_app in Hl as [_ ?].
    + exists (ch :: cps), tail. split; [by constructor|]. split; [|done]. by rewrite utf8_string_cons, app_assoc.
  - exists [], l. by repeat split.
Qed.

Lemma utf8_string_unique cps cps' tail :
  Forall valid_code_point cps -> Forall valid_code_point cps' -> decode_list tail = None ->
  utf8_string cps ++ tail = utf8_string cps' -> tail = [] /\ cps = cps'.
Proof.
  intros Hcps. revert cps'. induction Hcps as [|ch cps Hch _ IH]; intros cps' Hcps' Ht.
  - destruct cps' as [|ch' cps']; [done|]. apply Forall_cons_1 in Hcps' as [? ?]. rewrite utf8_string_cons.
    intros Heq. change (tail = utf8 ch' ++ utf8_string cps') in Heq. subst tail. by rewrite decode_list_utf8 in Ht.
  - rewrite utf8_string_cons, <- app_assoc. intros Heq.
    pose proof (decode_list_utf8 ch (utf8_string cps ++ tail) Hch) as Hd. rewrite Heq in Hd.
    destruct cps' as [|ch' cps']; [done|]. apply Forall_cons_1 in Hcps' as [? ?].
    rewrite utf8_string_cons in Heq, Hd. rewrite decode_list_utf8 in Hd by done.
    injection Hd as _ <-. apply app_inv_head in Heq. destruct (IH cps') as [-> ->]; done.
Qed.

(** ** Validation *)
Lemma zlen_cons_pos {A} (l : list A) : l <> [] -> 0 < zlen l.
Proof. destruct l; [done|]. unfold zlen. simpl. lia. Qed.

Lemma IsValid_loop_spec fuel pre cps tail :
  Forall is_byte pre -> Forall is_byte tail -> Forall valid_code_point cps -> decode_list tail = None ->
  (length cps < fuel)%nat ->
  IsValid_loop fuel (pre ++ utf8_string cps ++ tail) (zlen pre) = Some (bool_decide (tail = [])).
Proof.
  intros Hpre Htail Hcps Hd. revert fuel pre Hpre.
  induction Hcps as [|ch cps Hch Hcps IH]; intros fuel pre Hpre Hf; (destruct fuel as [|n]; [simpl in Hf; lia|]);
    cbn [IsValid_loop].
  - change (utf8_string [] ++ tail) with tail. rewrite zlen_app. destruct (decide (tail = [])) as [->|Hne].
    + destruct (Z.ltb_spec (zlen pre) (zlen pre + zlen (@nil Z))) as [H|H]; [unfold zlen in H; simpl in H; lia|done].
    + destruct (Z.ltb_spec (zlen pre) (zlen pre + zlen tail)) as [H|H];
        [|pose proof (zlen_cons_pos tail Hne); lia].
      rewrite decode_at_bad by (done || by apply Forall_app). cbn. by rewrite bool_decide_false.
  - rewrite utf8_string_cons, <- app_assoc. pose proof (utf8_nonempty ch).
    destruct (Z.ltb_spec (zlen pre) (zlen (pre ++ utf8 ch ++ utf8_string cps ++ tail))) as [Hlt|Hlt];
      [|rewrite !zlen_app in Hlt; pose proof (zlen_nonneg (utf8_string cps ++ tail));
        rewrite zlen_app in *; lia].
    rewrite decode_at_utf8; [|repeat apply Forall_app_2; try done; first [by apply utf8_bytes|by apply utf8_string_bytes]|done].
    cbn [mbind option_bind]. rewrite <- zlen_app, app_assoc. apply IH; [|simpl in Hf; lia].
    apply Forall_app_2; [done|by apply utf8_bytes].
Qed.

Lemma utf8_string_length cps : (length cps <= length (utf8_string cps))%nat.
Proof.
  induction cps as [|ch cps IH]; [simpl; lia|]. rewrite utf8_string_cons, length_app.
  pose proof (utf8_nonempty ch). unfold zlen in *. simpl. lia.
Qed.

Lemma Encode_string cps : Forall valid_code_point cps -> mjoin (Utf8_Encode <$> cps) = utf8_string cps.
Proof.
  induction 1 as [|ch cps Hch _ IH]; [done|]. rewrite utf8_string_cons. cbn. by rewrite Utf8_Encode_eq, <- IH.
Qed.

(** [IsValid] terminates without reading outside the array and accepts exactly the byte
    arrays that are a concatenation of encodings of code points up to
    0x10FFFF: no overlong form, no truncated sequence, no 5- or 6-byte lead
    and no stray trail byte is accepted. *)
Theorem IsValid_exact l :
  Forall is_byte l ->
  exists b, IsValid l = Some b /\
    (b = true <-> exists cps, Forall valid_code_point cps /\ l = mjoin (Utf8_Encode <$> cps)).
Proof.
  intros Hl. destruct (utf8_split l Hl) as (cps & tail & Hcps & -> & Ht).
  exists (bool_decide (tail = [])). split.
  - apply Forall_app in Hl as [_ Htail]. apply (IsValid_loop_spec _ [] cps tail); try done.
    rewrite length_app. pose proof (utf8_string_length cps). lia.
  - rewrite bool_decide_eq_true. split.
    + intros ->. exists cps. by rewrite app_nil_r, Encode_string.
    + intros (cps' & Hcps' & Heq). rewrite Encode_string in Heq by done.
      by eapply (utf8_string_unique cps cps').
Qed.
Lemma IsValid_exact_witness :
  IsValid [0xE2; 0x82; 0xAC] = Some true /\
  exists b, IsValid [0xC0; 0x80] = Some b /\
    (b = true <-> exists cps, Forall valid_code_point cps /\ [0xC0; 0x80] = mjoin (Utf8_Encode <$> cps)).
Proof. split; [reflexivity|]. apply IsValid_exact. repeat constructor; unfold is_byte; lia. Defined.

Lemma s32_code_point ch : valid_code_point ch -> s32 ch = ch.
Proof. unfold valid_code_point, kMaxCodePoint. intros H. apply swrap_id; [lia|]. unfold is_sint. lia. Qed.

(** [Decode] is the inverse of [Encode]. Whatever bytes follow, the
    encoding of a code point decodes to it and [Length] bytes are consumed.
    On any non-empty byte array [Decode] stays inside the array and either
    returns a code point with whose encoding the array starts, or reports 0
    bytes and the array starts with the encoding of no code point. *)
Theorem Utf8_Decode_exact :
  (forall ch rest, valid_code_point ch -> Forall is_byte rest ->
    Utf8_Decode (Utf8_Encode ch ++ rest) = Some (Utf8_Length ch, ch) /\
    zlen (Utf8_Encode ch) = Utf8_Length ch) /\
  (forall l, Forall is_byte l -> l <> [] ->
    (exists ch rest, valid_code_point ch /\ l = Utf8_Encode ch ++ rest /\
      Utf8_Decode l = Some (Utf8_Length ch, ch)) \/
    Utf8_Decode l = Some (0, -1) /\
      forall ch rest, valid_code_point ch -> l <> Utf8_Encode ch ++ rest).
Proof.
  split.
  - intros ch rest Hch Hrest. rewrite Utf8_Length_eq, Utf8_Encode_eq by done. split; [|done].
    unfold Utf8_Decode. pose proof (decode_at_utf8 [] ch rest) as Hd.
    change (zlen []) with 0 in Hd. rewrite app_nil_l in Hd.
    rewrite Hd; [|by apply Forall_app_2; [apply utf8_bytes|]|done]. cbn. by rewrite s32_code_point.
  - intros l Hl Hne. unfold Utf8_Decode.
    rewrite (decode_at_eq l 0 l) by done. cbn [mbind option_bind].
    destruct (decode_list l) as [[n ch]|] eqn:E.
    + destruct (decode_list_sound l n ch Hl E) as (Hch & -> & rest & ->). left. exists ch, rest.
      rewrite Utf8_Length_eq, Utf8_Encode_eq, s32_code_point by done. done.
    + right. split; [done|]. intros ch rest Hch ->. by rewrite Utf8_Encode_eq, decode_list_utf8 in E.
Qed.

(** ** The decoding loops

    What the three loops have in common: each code point becomes the code
    units [units ch] and the loop stops when they no longer fit. *)
Class DecodeLoop (loop : nat -> list Z -> Z -> list Z -> Z -> option (bool * list Z)) (units : Z -> list Z) := {
  loop_units : forall ch, valid_code_point ch -> 1 <= zlen (units ch);
  loop_step : forall n pre ch rest dst len,
    Forall is_byte (pre ++ utf8 ch ++ rest) -> valid_code_point ch -> zlen dst <= len ->
    loop (S n) (pre ++ utf8 ch ++ rest) (zlen pre) dst len =
    if zlen dst + zlen (units ch) <=? len
    then loop n (pre ++ utf8 ch ++ rest) (zlen pre + zlen (utf8 ch)) (dst ++ units ch) len
    else Some (false, dst);
  loop_invalid : forall n pre tail dst len,
    Forall is_byte (pre ++ tail) -> tail <> [] -> decode_list tail = None -> zlen dst <= len ->
    loop (S n) (pre ++ tail) (zlen pre) dst len = Some (false, dst);
  loop_end : forall n arr dst len, loop (S n) arr (zlen arr) dst len = Some (true, dst)
}.

Lemma utf8_lt pre ch rest :
  (zlen pre <? zlen (pre ++ utf8 ch ++ rest)) = true.
Proof.
  apply Z.ltb_lt. rewrite !zlen_app. pose proof (utf8_nonempty ch). pose proof (zlen_nonneg rest). lia.
Qed.
Lemma tail_lt (pre tail : list Z) : tail <> [] -> (zlen pre <? zlen (pre ++ tail)) = true.
Proof. intros H. apply Z.ltb_lt. rewrite zlen_app. pose proof (zlen_cons_pos tail H). lia. Qed.

Lemma full_cases {A} (dst : list A) len k : 1 <= k -> zlen dst <= len ->
  (zlen dst <? len) = false -> (zlen dst =? len) = true /\ (zlen dst + k <=? len) = false.
Proof. intros. zbool. split; [apply Z.eqb_eq|apply Z.leb_gt]; lia. Qed.

(** The parts of a loop that do not depend on its code units. *)
Ltac loop_full k :=
  match goal with |- context [zlen ?dst <? ?len] =>
    let E := fresh "E" in destruct (zlen dst <? len) eqn:E; cbn [andb negb];
    [|destruct (full_cases dst len k ltac:(done || lia) ltac:(assumption) E) as [-> ->]; reflexivity]
  end.
Ltac loop_bad :=
  let n := fresh in intros n pre tail dst len Hb Hne Hd Hlen; cbn; rewrite tail_lt by assumption; cbn [andb negb];
  destruct (zlen dst <? len) eqn:E; [|destruct (full_cases dst len 1 ltac:(lia) Hlen E) as [-> _]; reflexivity].
#[export] Instance UTF32_loop : DecodeLoop DecodeToUTF32_loop (fun ch => [s32 ch]).
Proof.
  split.
  - done.
  - intros n pre ch rest dst len Hb Hch Hlen. cbn [DecodeToUTF32_loop]. rewrite utf8_lt. cbn [andb].
    change (zlen [s32 ch]) with 1. loop_full 1. zbool.
    destruct (Z.leb_spec (zlen dst + 1) len); [|lia]. by rewrite decode_at_utf8.
  - loop_bad. by rewrite decode_at_bad.
  - intros n arr dst len. cbn [DecodeToUTF32_loop]. by rewrite Z.ltb_irrefl.
Qed.
#[export] Instance Latin1_loop : DecodeLoop DecodeToLatin1_loop (fun ch => [u8 ch]).
Proof.
  split.
  - done.
  - intros n pre ch rest dst len Hb Hch Hlen. cbn [DecodeToLatin1_loop]. rewrite utf8_lt. cbn [andb].
    change (zlen [u8 ch]) with 1. loop_full 1. zbool.
    destruct (Z.leb_spec (zlen dst + 1) len); [|lia]. by rewrite decode_at_utf8.
  - loop_bad. by rewrite decode_at_bad.
  - intros n arr dst len. cbn [DecodeToLatin1_loop]. by rewrite Z.ltb_irrefl.
Qed.

(** The code units of a code point in UTF-16. *)
Definition utf16 (ch : Z) : list Z := if ch <=? kMaxCodeUnit then [ch] else Utf16_Encode ch.
Lemma trail_is_trail x : IsTrailByte (128 + x mod 64) = true.
Proof. rewrite IsTrailByte_eq by (unfold is_byte; divlia). unfold trail. apply andb_true_iff. divlia. Qed.

Lemma utf8_first ch : valid_code_point ch ->
  exists b l, utf8 ch = b :: l /\ IsSupplementarySequenceStart b = negb (ch <=? kMaxCodeUnit) /\
    IsLatin1SequenceStart b = (ch <=? 0xFF) /\ IsTrailByte b = false /\ Forall (fun c => IsTrailByte c = true) l.
Proof.
  intros Hch. unfold IsSupplementarySequenceStart, IsLatin1SequenceStart, kMaxCodeUnit.
  pose proof (utf8_bytes ch Hch) as Hb. unfold valid_code_point, kMaxCodePoint in Hch.
  unfold utf8 in *. repeat zif; eexists _, _; (split; [reflexivity|]); apply Forall_cons_1 in Hb as [Hb _];
    rewrite (IsTrailByte_eq _ Hb); unfold trail, is_byte in *; rewrite ?Z.geb_leb;
    (split; [apply eq_true_iff_eq; rewrite ?negb_true_iff; divlia|]);
    (split; [apply eq_true_iff_eq; divlia|]);
    (split; [apply andb_false_iff; divlia|]);
    repeat (constructor; [apply trail_is_trail|]); constructor.
Qed.

#[export] Instance UTF16_loop : DecodeLoop DecodeToUTF16_loop utf16.
Proof.
  split.
  - intros ch _. unfold utf16. by destruct (ch <=? kMaxCodeUnit).
  - intros n pre ch rest dst len Hb Hch Hlen. cbn [DecodeToUTF16_loop]. rewrite utf8_lt. cbn [andb].
    assert (Hu : 1 <= zlen (utf16 ch)) by (unfold utf16; by destruct (ch <=? kMaxCodeUnit)).
    loop_full (zlen (utf16 ch)).
    rewrite decode_at_utf8 by done.
    destruct (utf8_first ch Hch) as (b & l & Hu8 & Hs & _).
    assert (Hg : arr_get (pre ++ utf8 ch ++ rest) (zlen pre) = Some b).
    { rewrite <- (Z.add_0_r (zlen pre)), arr_get_app_r, Hu8 by lia. done. }
    rewrite Hg. cbn [mbind option_bind]. rewrite Hs. unfold utf16, kMaxCodeUnit. zbool.
    destruct (Z.leb_spec ch 0xFFFF); cbn [negb].
    + change (zlen [ch]) with 1. destruct (Z.leb_spec (zlen dst + 1) len); [|lia].
      by rewrite uwrap_id by (unfold is_uint, valid_code_point in *; lia).
    + change (zlen (Utf16_Encode ch)) with 2.
      destruct (Z.eqb_spec (zlen dst) (len - 1)), (Z.leb_spec (zlen dst + 2) len); lia || done.
  - loop_bad. destruct (arr_get_lt (pre ++ tail) (zlen pre)) as [b ->].
    { split; [apply zlen_nonneg|]. by apply Z.ltb_lt, tail_lt. }
    cbn [mbind option_bind]. by rewrite decode_at_bad.
  - intros n arr dst len. cbn [DecodeToUTF16_loop]. by rewrite Z.ltb_irrefl.
Qed.

Section Decoding.
Context `{HL : DecodeLoop loop units}.

Lemma loop_spec fuel pre cps tail dst len :
  Forall is_byte pre -> Forall is_byte tail -> Forall valid_code_point cps -> decode_list tail = None ->
  (length cps < fuel)%nat -> zlen dst <= len ->
  exists dst', loop fuel (pre ++ utf8_string cps ++ tail) (zlen pre) dst len =
    Some (bool_decide (tail = []) && (zlen dst + zlen (mjoin (units <$> cps)) <=? len), dst') /\
    zlen dst' <= len /\
    (tail = [] -> zlen dst + zlen (mjoin (units <$> cps)) <= len -> dst' = dst ++ mjoin (units <$> cps)).
Proof using HL.
  intros Hpre Htail Hcps Hd. revert fuel pre dst Hpre.
  induction Hcps as [|ch cps Hch Hcps IH]; intros fuel pre dst Hpre Hf Hlen;
    (destruct fuel as [|n]; [simpl in Hf; lia|]).
  - change (utf8_string [] ++ tail) with tail. exists dst. cbn [fmap list_fmap mjoin list_join].
    change (zlen (@nil Z)) with 0. rewrite Z.add_0_r, app_nil_r, (proj2 (Z.leb_le _ _)), andb_true_r by done.
    split; [|done]. destruct (decide (tail = [])) as [->|Hne].
    + by rewrite app_nil_r, loop_end.
    + rewrite loop_invalid, bool_decide_false; [done|done|by apply Forall_app_2|done..].
  - rewrite utf8_string_cons, <- app_assoc.
    rewrite loop_step; [|repeat apply Forall_app_2; try done; first [by apply utf8_bytes|by apply utf8_string_bytes]|done..].
    change (mjoin (units <$> ch :: cps)) with (units ch ++ mjoin (units <$> cps)).
    rewrite zlen_app, Z.add_assoc. pose proof (zlen_nonneg (mjoin (units <$> cps))).
    destruct (Z.leb_spec (zlen dst + zlen (units ch)) len).
    + rewrite <- zlen_app, app_assoc.
      destruct (IH n (pre ++ utf8 ch) (dst ++ units ch)) as (dst' & -> & Hlen' & Hdst').
      * apply Forall_app_2; [done|by apply utf8_bytes].
      * simpl in Hf. lia.
      * by rewrite zlen_app.
      * rewrite !zlen_app in *. exists dst'. split; [done|]. split; [done|]. intros Ht Hfit. rewrite app_assoc. by apply Hdst'.
    + exists dst. destruct (Z.leb_spec (zlen dst + zlen (units ch) + zlen (mjoin (units <$> cps))) len); [lia|].
      rewrite andb_false_r. split; [done|]. split; [done|lia].
Qed.

(** The whole conversion: total, within the buffer, and successful exactly
    on encodings whose code units fit. *)
Lemma decode_spec l len :
  Forall is_byte l -> 0 <= len ->
  exists b dst, loop (S (length l)) l 0 [] len = Some (b, dst) /\ zlen dst <= len /\
    (b = true <-> exists cps, Forall valid_code_point cps /\ l = mjoin (Utf8_Encode <$> cps) /\
                              dst = mjoin (units <$> cps)).
Proof using HL.
  intros Hl Hlen. destruct (utf8_split l Hl) as (cps & tail & Hcps & -> & Ht).
  apply Forall_app in Hl as [_ Htail].
  destruct (loop_spec (S (length (utf8_string cps ++ tail))) [] cps tail [] len) as (dst & Heq & Hdl & Hdst);
    try done.
  { rewrite length_app. pose proof (utf8_string_length cps). lia. }
  change (zlen (@nil Z)) with 0 in *. rewrite app_nil_l, Z.add_0_l in *.
  exists (bool_decide (tail = []) && (zlen (mjoin (units <$> cps)) <=? len)), dst. split; [done|]. split; [done|].
  rewrite andb_true_iff, bool_decide_eq_true, Z.leb_le. split.
  - intros [-> Hfit]. exists cps. rewrite Encode_string, app_nil_r by done. split; [done|]. split; [done|]. by apply Hdst.
  - intros (cps' & Hcps' & Hu & ->). rewrite Encode_string in Hu by done.
    by destruct (utf8_string_unique cps cps' tail) as [-> <-].
Qed.

Lemma decode_encoded cps len :
  Forall valid_code_point cps -> zlen (mjoin (units <$> cps)) <= len ->
  loop (S (length (mjoin (Utf8_Encode <$> cps)))) (mjoin (Utf8_Encode <$> cps)) 0 [] len =
  Some (true, mjoin (units <$> cps)).
Proof using HL.
  intros Hcps Hfit. rewrite Encode_string by done.
  assert (Hlen : 0 <= len) by (pose proof (zlen_nonneg (mjoin (units <$> cps))); lia).
  destruct (loop_spec (S (length (utf8_string cps))) [] cps [] [] len) as (dst & Heq & _ & Hdst); try done.
  { pose proof (utf8_string_length cps). lia. }
  rewrite app_nil_r, app_nil_l in Heq. change (zlen (@nil Z)) with 0 in *. rewrite Heq, Hdst by (done || lia).
  rewrite Z.add_0_l, (proj2 (Z.leb_le _ _)) by done. done.
Qed.
End Decoding.

(** ** Counting code units *)
Definition coding_form (cps : list Z) : Utf8Type :=
  if forallb IsLatin1 cps then kLatin1 else if forallb IsBmp cps then kBMP else kSupplementary.
Definition form_max (a b : Utf8Type) : Utf8Type :=
  match a, b with
  | kSupplementary, _ | _, kSupplementary => kSupplementary
  | kBMP, _ | _, kBMP => kBMP
  | _, _ => kLatin1
  end.

Lemma CodeUnitCount_trail acc l :
  Forall (fun c => IsTrailByte c = true) l -> foldl CodeUnitCount_step acc l = acc.
Proof.
  intros Hl. revert acc. induction Hl as [|c l Hc _ IH]; intros acc; [done|]. cbn. rewrite IH.
  unfold CodeUnitCount_step. rewrite Hc. by destruct acc.
Qed.

Lemma CodeUnitCount_utf8 n ty ch : valid_code_point ch ->
  foldl CodeUnitCount_step (n, ty) (utf8 ch) = (n + zlen (utf16 ch), form_max ty (coding_form [ch])).
Proof.
  intros Hch. destruct (utf8_first ch Hch) as (b & l & -> & Hs & Hl1 & Ht & Hl). cbn [foldl].
  rewrite CodeUnitCount_trail by done. unfold CodeUnitCount_step. rewrite Hs, Hl1, Ht. cbn [negb].
  unfold coding_form, utf16, kMaxCodeUnit, IsLatin1, IsBmp. cbn [forallb].
  rewrite !andb_true_r. unfold valid_code_point, kMaxCodePoint in Hch.
  destruct (Z.leb_spec ch 0xFF), (Z.leb_spec ch 0xFFFF); try lia; rewrite ?Z.geb_leb, (proj2 (Z.leb_le 0 ch)) by lia;
    cbn [negb andb]; destruct ty; (apply (f_equal2 pair); [unfold zlen; simpl; lia|done]).
Qed.

Lemma coding_form_cons ch cps : coding_form (ch :: cps) = form_max (coding_form [ch]) (coding_form cps).
Proof.
  unfold coding_form. cbn [forallb]. rewrite !andb_true_r.
  assert (H : forall c, IsLatin1 c = true -> IsBmp c = true)
    by (intros c; unfold IsLatin1, IsBmp; intros; zbool; apply andb_true_iff; rewrite Z.geb_leb; lia).
  assert (Hall : forallb IsLatin1 cps = true -> forallb IsBmp cps = true).
  { rewrite !forallb_forall. intros H1 x Hx. apply H, H1, Hx. }
  specialize (H ch).
  destruct (IsLatin1 ch), (forallb IsLatin1 cps), (IsBmp ch), (forallb IsBmp cps); try done;
    by (discriminate H || discriminate Hall).
Qed.

Lemma form_max_assoc a b c : form_max (form_max a b) c = form_max a (form_max b c).
Proof. by destruct a, b, c. Qed.

Lemma CodeUnitCount_spec cps n ty : Forall valid_code_point cps ->
  foldl CodeUnitCount_step (n, ty) (utf8_string cps) =
  (n + zlen (mjoin (utf16 <$> cps)), form_max ty (coding_form cps)).
Proof.
  intros Hcps. revert n ty. induction Hcps as [|ch cps Hch Hcps IH]; intros n ty.
  - cbn. change (zlen (@nil Z)) with 0. rewrite Z.add_0_r. by destruct ty.
  - rewrite utf8_string_cons, foldl_app, CodeUnitCount_utf8, IH by done.
    rewrite (coding_form_cons ch cps), <- form_max_assoc.
    change (mjoin (utf16 <$> ch :: cps)) with (utf16 ch ++ mjoin (utf16 <$> cps)). rewrite zlen_app. f_equal. lia.
Qed.

Lemma CodeUnitCount_encoded cps : Forall valid_code_point cps ->
  CodeUnitCount (mjoin (Utf8_Encode <$> cps)) = (zlen (mjoin (utf16 <$> cps)), coding_form cps).
Proof.
  intros Hcps. rewrite Encode_string by done. unfold CodeUnitCount. rewrite CodeUnitCount_spec by done.
  by destruct (coding_form cps).
Qed.

(** Latin-1 strings: the code units are the code points in all three forms. *)
Lemma Latin1_units cps : forallb IsLatin1 cps = true ->
  mjoin ((fun ch => [u8 ch]) <$> cps) = cps /\ mjoin (utf16 <$> cps) = cps.
Proof.
  induction cps as [|ch cps IH]; [done|]. cbn [forallb]. intros [Hch Hcps]%andb_true_iff.
  destruct (IH Hcps) as [IH1 IH2]. unfold IsLatin1 in Hch. zbool.
  change (mjoin (utf16 <$> ch :: cps)) with (utf16 ch ++ mjoin (utf16 <$> cps)).
  change (mjoin ((fun ch => [u8 ch]) <$> ch :: cps)) with (u8 ch :: mjoin ((fun ch => [u8 ch]) <$> cps)).
  rewrite IH1, IH2, uwrap_id by (unfold is_uint; lia). split; [done|]. unfold utf16, kMaxCodeUnit. zif; [done|lia].
Qed.

Lemma UTF32_units cps : Forall valid_code_point cps -> mjoin ((fun ch => [s32 ch]) <$> cps) = cps.
Proof.
  induction 1 as [|ch cps Hch _ IH]; [done|].
  change (mjoin ((fun ch => [s32 ch]) <$> ch :: cps)) with (s32 ch :: mjoin ((fun ch => [s32 ch]) <$> cps)).
  by rewrite IH, s32_code_point.
Qed.

(** Decoding to UTF-16, UTF-32 and Latin-1 never reads or writes
    outside its arrays, terminates on every input, and succeeds exactly when
    the input is a sequence of encoded code points whose code units fit the
    destination, which then holds exactly those code units. *)
Theorem DecodeTo_exact l len :
  Forall is_byte l -> 0 <= len ->
  (exists b dst, DecodeToUTF16 l len = Some (b, dst) /\ zlen dst <= len /\
    (b = true <-> exists cps, Forall valid_code_point cps /\ l = mjoin (Utf8_Encode <$> cps) /\
                              dst = mjoin (utf16 <$> cps))) /\
  (exists b dst, DecodeToUTF32 l len = Some (b, dst) /\ zlen dst <= len /\
    (b = true <-> exists cps, Forall valid_code_point cps /\ l = mjoin (Utf8_Encode <$> cps) /\
                              dst = mjoin ((fun ch => [s32 ch]) <$> cps))) /\
  (exists b dst, DecodeToLatin1 l len = Some (b, dst) /\ zlen dst <= len /\
    (b = true <-> exists cps, Forall valid_code_point cps /\ l = mjoin (Utf8_Encode <$> cps) /\
                              dst = mjoin ((fun ch => [u8 ch]) <$> cps))).
Proof. intros Hl Hlen. repeat split; by apply decode_spec. Qed.
Lemma DecodeTo_exact_witness :
  DecodeToUTF16 [0x41; 0xF0; 0x9F; 0x98; 0x80] 3 = Some (true, [0x41; 0xD83D; 0xDE00]) /\
  exists b dst, DecodeToUTF16 [0x41; 0xF0; 0x9F; 0x98; 0x80] 2 = Some (b, dst) /\ zlen dst <= 2 /\
    (b = true <-> exists cps, Forall valid_code_point cps /\ [0x41; 0xF0; 0x9F; 0x98; 0x80] = mjoin (Utf8_Encode <$> cps) /\
                              dst = mjoin (utf16 <$> cps)).
Proof.
  split; [reflexivity|]. apply (DecodeTo_exact [0x41; 0xF0; 0x9F; 0x98; 0x80] 2); [|lia].
  repeat constructor; unfold is_byte; lia.
Defined.

(** A string of code points survives UTF-8 encoding: [CodeUnitCount]
    gives its number of UTF-16 code units and the most restricted coding form
    that holds it, and the decoder run with that length restores the string;
    in the Latin-1 form the byte-wide decoder does. *)
Theorem CodeUnitCount_decode cps :
  Forall valid_code_point cps ->
  let l := mjoin (Utf8_Encode <$> cps) in
  let '(n, ty) := CodeUnitCount l in
  n = zlen (mjoin (utf16 <$> cps)) /\
  (ty = kLatin1 <-> forallb IsLatin1 cps = true) /\
  (ty = kSupplementary <-> forallb IsBmp cps = false) /\
  DecodeToUTF16 l n = Some (true, mjoin (utf16 <$> cps)) /\
  DecodeToUTF32 l (zlen cps) = Some (true, cps) /\
  (ty = kLatin1 -> DecodeToLatin1 l n = Some (true, cps)).
Proof.
  intros Hcps. cbv zeta. rewrite CodeUnitCount_encoded by done. split; [done|].
  assert (Hc : forallb IsLatin1 cps = true -> forallb IsBmp cps = true).
  { rewrite !forallb_forall. intros H x Hx. specialize (H x Hx). unfold IsLatin1, IsBmp in *. zbool.
    apply andb_true_iff. rewrite Z.geb_leb. lia. }
  split; [|split; [|split; [|split]]].
  - unfold coding_form. by repeat case_match.
  - unfold coding_form. destruct (forallb IsLatin1 cps); [rewrite Hc by done|]; by repeat case_match.
  - by apply decode_encoded.
  - rewrite <- (UTF32_units cps Hcps) at 3. apply decode_encoded; [done|by rewrite UTF32_units].
  - unfold coding_form. destruct (forallb IsLatin1 cps) eqn:E; [intros _|by case_match].
    destruct (Latin1_units cps E) as [H1 H2]. rewrite H2. rewrite <- H1 at 3. apply decode_encoded; [done|by rewrite H1].
Qed.
Lemma CodeUnitCount_decode_witness :
  let l := mjoin (Utf8_Encode <$> [0x48; 0xE9; 0x20AC; 0x1F600]) in
  DecodeToUTF16 l (fst (CodeUnitCount l)) = Some (true, mjoin (utf16 <$> [0x48; 0xE9; 0x20AC; 0x1F600])).
Proof.
  assert (H : Forall valid_code_point [0x48; 0xE9; 0x20AC; 0x1F600])
    by (repeat constructor; unfold valid_code_point, kMaxCodePoint; lia).
  pose proof (CodeUnitCount_decode _ H) as Hd. cbv zeta in *.
  destruct (CodeUnitCount _) as [n ty]. apply Hd.
Defined.

(** ** Surrogate pairs *)
Definition is_code_unit (c : Z) : Prop := 0 <= c < 2 ^ 16.

Lemma clear_low x n w : 0 <= n <= w -> is_uint w x -> x &&& (2 ^ w - 2 ^ n) = x / 2 ^ n * 2 ^ n.
Proof.
  intros Hn Hx. rewrite <- Z.shiftr_div_pow2, <- Z.shiftl_mul_pow2, <- Z.ldiff_ones_r by lia.
  replace (2 ^ w - 2 ^ n) with (Z.ldiff (Z.ones w) (Z.ones n)).
  - apply Z.bits_inj'. intros i Hi. rewrite Z.land_spec, !Z.ldiff_spec.
    destruct (Z.lt_ge_cases i w); [rewrite (Z.ones_spec_low w) by lia; done|].
    by rewrite (testbit_small w x) by (done || lia).
  - rewrite Z.ldiff_ones_r, Z.shiftl_mul_pow2, Z.shiftr_div_pow2, Z.ones_equiv by lia.
    assert (Hp : 2 ^ w = 2 ^ (w - n) * 2 ^ n) by (rewrite <- Z.pow_add_r by lia; f_equal; lia).
    assert (0 < 2 ^ n) by (apply Z.pow_pos_nonneg; lia).
    replace (Z.pred (2 ^ w) / 2 ^ n) with (2 ^ (w - n) - 1); [lia|].
    apply Z.div_unique with (2 ^ n - 1); lia.
Qed.

Lemma surrogate_mask c k : is_code_unit c ->
  (u32 c &&& 0xFFFFFC00 =? k * 1024) = (k * 1024 <=? c) && (c <? k * 1024 + 1024).
Proof.
  unfold is_code_unit. intros Hc. rewrite uwrap_id by (unfold is_uint; lia).
  change 0xFFFFFC00 with (2 ^ 32 - 2 ^ 10). rewrite (clear_low c 10 32) by (unfold is_uint; lia). change (2 ^ 10) with 1024.
  apply eq_true_iff_eq. rewrite andb_true_iff, Z.eqb_eq, Z.leb_le, Z.ltb_lt. divlia.
Qed.

Lemma IsLeadSurrogate_eq c : is_code_unit c -> IsLeadSurrogate c = (0xD800 <=? c) && (c <? 0xDC00).
Proof. apply (surrogate_mask c 54). Qed.
Lemma IsTrailSurrogate_eq c : is_code_unit c -> IsTrailSurrogate c = (0xDC00 <=? c) && (c <? 0xE000).
Proof. apply (surrogate_mask c 55). Qed.

Lemma Utf16_Decode_eq lead trail : is_code_unit lead -> is_code_unit trail ->
  Utf16_Decode lead trail = 0x10000 + lead mod 1024 * 1024 + trail mod 1024.
Proof.
  intros _ _. unfold Utf16_Decode. change 0x3FF with (2 ^ 10 - 1). rewrite !land_low by lia.
  by rewrite Z.shiftl_mul_pow2 by lia.
Qed.
Lemma Utf16_Encode_eq ch : 0xFFFF < ch <= kMaxCodePoint ->
  Utf16_Encode ch = [0xD7C0 + ch / 1024; 0xDC00 + ch mod 1024].
Proof.
  unfold kMaxCodePoint. intros H. unfold Utf16_Encode. change kLeadSurrogateOffset with 0xD7C0.
  change 0x3FF with (2 ^ 10 - 1). rewrite land_low, Z.shiftr_div_pow2 by lia. change (2 ^ 10) with 1024.
  by rewrite !uwrap_id by (unfold is_uint; divlia).
Qed.

Lemma Utf16_Encode_Decode lead trail :
  is_code_unit lead -> is_code_unit trail -> IsLeadSurrogate lead = true -> IsTrailSurrogate trail = true ->
  0xFFFF < Utf16_Decode lead trail <= kMaxCodePoint /\ Utf16_Encode (Utf16_Decode lead trail) = [lead; trail].
Proof.
  intros Hl Ht. rewrite IsLeadSurrogate_eq, IsTrailSurrogate_eq by done. intros. zbool.
  assert (Hd : 0xFFFF < Utf16_Decode lead trail <= kMaxCodePoint)
    by (rewrite Utf16_Decode_eq by done; unfold kMaxCodePoint; divlia).
  split; [done|]. rewrite Utf16_Encode_eq by done. rewrite Utf16_Decode_eq by done. repeat f_equal; divlia.
Qed.

(** Surrogate pairs: a supplementary code point is encoded as a lead
    and a trail surrogate, which [Next] recognises at any position and
    decodes to that code point, moving two code units; and every lead
    followed by a trail surrogate decodes to a supplementary code point whose
    encoding is that pair. *)
Theorem Utf16_roundtrip :
  (forall ch pre post, 0xFFFF < ch <= kMaxCodePoint ->
    Utf16_Next (pre ++ Utf16_Encode ch ++ post) (zlen pre) = Some (ch, zlen pre + 2)) /\
  (forall lead trail, is_code_unit lead -> is_code_unit trail ->
    IsLeadSurrogate lead = true -> IsTrailSurrogate trail = true ->
    0xFFFF < Utf16_Decode lead trail <= kMaxCodePoint /\ Utf16_Encode (Utf16_Decode lead trail) = [lead; trail]).
Proof.
  split; [|exact Utf16_Encode_Decode].
  intros ch pre post Hch. rewrite Utf16_Encode_eq by done. unfold kMaxCodePoint in Hch. unfold Utf16_Next.
  set (lead := 0xD7C0 + ch / 1024). set (trail_ := 0xDC00 + ch mod 1024).
  assert (Hl : is_code_unit lead) by (unfold is_code_unit, lead; divlia).
  assert (Ht : is_code_unit trail_) by (unfold is_code_unit, trail_; divlia).
  assert (Hg : arr_get (pre ++ [lead; trail_] ++ post) (zlen pre) = Some lead)
    by (rewrite <- (Z.add_0_r (zlen pre)), arr_get_app_r by lia; done).
  rewrite Hg. cbn [mbind option_bind].
  rewrite IsLeadSurrogate_eq by done.
  replace (zlen pre <? _) with true
    by (symmetry; apply Z.ltb_lt; rewrite !zlen_app; pose proof (zlen_nonneg post); change (zlen [lead; trail_]) with 2; lia).
  rewrite (proj2 (andb_true_iff _ _)) by (unfold lead; divlia). rewrite arr_get_app_r by lia.
  change (arr_get ([lead; trail_] ++ post) 1) with (Some trail_). cbn [mbind option_bind andb].
  rewrite IsTrailSurrogate_eq, (proj2 (andb_true_iff _ _)) by (done || unfold trail_; divlia).
  rewrite Utf16_Decode_eq by done. do 2 f_equal. unfold lead, trail_. divlia.
Qed.

(** ** Dart strings as code points *)
Fixpoint code_points (l : list Z) : list Z :=
  match l with
  | [] => []
  | c :: ((c2 :: l') as rest) =>
      if IsLeadSurrogate c && IsTrailSurrogate c2 then Utf16_Decode c c2 :: code_points l' else c :: code_points rest
  | [c] => [c]
  end.

(** Induction following the pairs that [code_points] reads. *)
Lemma pair_induction (P : list Z -> Prop) :
  P [] -> (forall c, P [c]) -> (forall c c2 l, P (c2 :: l) -> P l -> P (c :: c2 :: l)) -> forall l, P l.
Proof.
  intros H0 H1 H2 l. cut (P l /\ forall c, P (c :: l)); [by intros [? _]|].
  induction l as [|c l [IHl IHc]]; split; auto.
Qed.

Lemma code_points_valid l : Forall is_code_unit l -> Forall valid_code_point (code_points l).
Proof.
  assert (Hu : forall c, is_code_unit c -> valid_code_point c)
    by (unfold is_code_unit, valid_code_point, kMaxCodePoint; intros; lia).
  induction l as [|c|c c2 l IH1 IH2] using pair_induction; intros Hl.
  - constructor.
  - apply Forall_cons_1 in Hl as [? ?]. repeat constructor; by apply Hu.
  - assert (Hl' := Hl). apply Forall_cons_1 in Hl' as [Hc Hl'].
    assert (Hl2 := Hl'). apply Forall_cons_1 in Hl2 as [Hc2 Hl2].
    cbn [code_points]. destruct (IsLeadSurrogate c && IsTrailSurrogate c2) eqn:E.
    + zbool. constructor; [|by apply IH2]. destruct (Utf16_Encode_Decode c c2) as [? _]; [done..|].
      unfold valid_code_point. lia.
    + constructor; [by apply Hu|by apply IH1].
Qed.

(** The code units of the code points are the string. *)
Lemma utf16_code_points l : Forall is_code_unit l -> mjoin (utf16 <$> code_points l) = l.
Proof.
  assert (Hu : forall c, is_code_unit c -> utf16 c = [c])
    by (intros c Hc; unfold utf16, is_code_unit, kMaxCodeUnit in *; zif; [done|lia]).
  induction l as [|c|c c2 l IH1 IH2] using pair_induction; intros Hl.
  - done.
  - apply Forall_cons_1 in Hl as [? ?]. cbn. by rewrite Hu.
  - assert (Hl' := Hl). apply Forall_cons_1 in Hl' as [Hc Hl'].
    assert (Hl2 := Hl'). apply Forall_cons_1 in Hl2 as [Hc2 Hl2].
    cbn [code_points]. destruct (IsLeadSurrogate c && IsTrailSurrogate c2) eqn:E.
    + zbool. destruct (Utf16_Encode_Decode c c2) as [Hr He]; [done..|].
      change (utf16 (Utf16_Decode c c2) ++ mjoin (utf16 <$> code_points l) = [c; c2] ++ l).
      rewrite IH2 by done. f_equal. unfold utf16, kMaxCodeUnit. zif; [lia|done].
    + change (utf16 c ++ mjoin (utf16 <$> code_points (c2 :: l)) = [c] ++ c2 :: l). by rewrite IH1, Hu.
Qed.

(** One step of the iterator. *)
Lemma Next_step chars it pos l :
  Forall is_code_unit chars -> pos = cp_index it + Utf16_Length (cp_ch it) -> 0 <= pos -> drop (Z.to_nat pos) chars = l ->
  match code_points l with
  | [] => exists it', CodePointIterator_Next chars it = Some (false, it')
  | ch :: cps =>
      CodePointIterator_Next chars it = Some (true, MkCodePoints ch pos) /\
      exists l', code_points l' = cps /\ drop (Z.to_nat (pos + Utf16_Length ch)) chars = l'
  end.
Proof.
  intros Hu Hpos H0 Hd. unfold CodePointIterator_Next.
  assert (Hlen : zlen l = Z.max 0 (zlen chars - pos)) by (rewrite <- Hd; unfold zlen; rewrite length_drop; lia).
  assert (Hul : Forall is_code_unit l) by (rewrite <- Hd; by apply Forall_drop).
  destruct l as [|c l]; cbn [code_points].
  - change (zlen (@nil Z)) with 0 in Hlen. zif; [lia|]. by eexists.
  - assert (Hlt : pos < zlen chars) by (pose proof (zlen_nonneg l); unfold zlen in *; simpl in Hlen; lia).
    destruct (Z.ltb_spec (cp_index it) (zlen chars - Utf16_Length (cp_ch it))); [|lia].
    rewrite <- Hpos. destruct (arr_get_drop chars pos c l H0 Hd) as [-> Hd1]. cbn [mbind option_bind].
    apply Forall_cons_1 in Hul as [Hc Hul].
    assert (Hl1 : Utf16_Length c = 1) by (unfold Utf16_Length, kMaxCodeUnit, is_code_unit in *; zif; lia).
    destruct l as [|c2 l].
    + change (zlen [c]) with 1 in Hlen. destruct (Z.ltb_spec pos (zlen chars - 1)); [lia|]. rewrite andb_false_r.
      split; [done|]. exists []. by rewrite Hl1, Hd1.
    + destruct (arr_get_drop chars (pos + 1) c2 l ltac:(lia) Hd1) as [Hg2 Hd2]. rewrite Hg2.
      assert (pos < zlen chars - 1) by (pose proof (zlen_nonneg l); unfold zlen in *; simpl in Hlen; lia).
      destruct (Z.ltb_spec pos (zlen chars - 1)); [|lia]. rewrite andb_true_r. cbn [mbind option_bind].
      destruct (IsLeadSurrogate c) eqn:El; [destruct (IsTrailSurrogate c2) eqn:Et|]; cbn [andb];
        (split; [done|]); [|exists (c2 :: l); by rewrite Hl1..].
      exists l. split; [done|]. apply Forall_cons_1 in Hul as [Hc2 _].
      destruct (Utf16_Encode_Decode c c2) as [? _]; [done..|].
      assert (Hl2 : Utf16_Length (Utf16_Decode c c2) = 2) by (unfold Utf16_Length, kMaxCodeUnit; zif; lia).
      rewrite Hl2, <- Hd2. f_equal. lia.
Qed.

Lemma code_points_length l : (length (code_points l) <= length l)%nat.
Proof.
  induction l as [|c|c c2 l IH1 IH2] using pair_induction; [done..|]. cbn [code_points].
  destruct (_ && _); simpl in *; lia.
Qed.

Lemma Length_TwoByte_spec fuel chars it pos l n :
  Forall is_code_unit chars -> pos = cp_index it + Utf16_Length (cp_ch it) -> 0 <= pos -> drop (Z.to_nat pos) chars = l ->
  (length (code_points l) < fuel)%nat ->
  Length_TwoByte_loop fuel chars it n = Some (n + zlen (utf8_string (code_points l))).
Proof.
  intros Hu. revert it pos l n. induction fuel as [|fuel IH]; intros it pos l n Hpos H0 Hd Hf; [lia|].
  pose proof (Next_step chars it pos l Hu Hpos H0 Hd) as Hn. cbn [Length_TwoByte_loop].
  destruct (code_points l) as [|ch cps].
  - destruct Hn as [it' ->]. cbn [mbind option_bind]. change (zlen (utf8_string [])) with 0. by rewrite Z.add_0_r.
  - destruct Hn as [-> (l' & Hl' & Hd')]. cbn [mbind option_bind cp_ch].
    rewrite (IH _ (pos + Utf16_Length ch) l'); try done.
    + rewrite utf8_string_cons, zlen_app, Utf8_Length_eq, Hl'. f_equal. lia.
    + unfold Utf16_Length. zif; lia.
    + rewrite Hl'. simpl in Hf. lia.
Qed.

Lemma Encode_TwoByte_spec fuel chars it pos l dst len :
  Forall is_code_unit chars -> pos = cp_index it + Utf16_Length (cp_ch it) -> 0 <= pos -> drop (Z.to_nat pos) chars = l ->
  (length (code_points l) < fuel)%nat -> zlen dst + zlen (utf8_string (code_points l)) <= len ->
  Encode_TwoByte_loop fuel chars it dst len = Some (dst ++ utf8_string (code_points l)).
Proof.
  intros Hu. revert it pos l dst. induction fuel as [|fuel IH]; intros it pos l dst Hpos H0 Hd Hf Hfit; [lia|].
  pose proof (Next_step chars it pos l Hu Hpos H0 Hd) as Hn. cbn [Encode_TwoByte_loop].
  assert (Hv : Forall valid_code_point (code_points l)) by (apply code_points_valid; rewrite <- Hd; by apply Forall_drop).
  destruct (code_points l) as [|ch cps].
  - destruct Hn as [it' ->]. cbn. by rewrite app_nil_r.
  - destruct Hn as [-> (l' & Hl' & Hd')]. cbn [mbind option_bind cp_ch].
    rewrite utf8_string_cons, zlen_app in *. apply Forall_cons_1 in Hv as [Hch _].
    pose proof (zlen_nonneg (utf8_string cps)).
    rewrite Utf8_Length_eq, Utf8_Encode_eq by done. zif; [lia|].
    rewrite (IH _ (pos + Utf16_Length ch) l'); try done.
    + by rewrite <- app_assoc, Hl'.
    + unfold Utf16_Length. zif; lia.
    + rewrite Hl'. simpl in Hf. lia.
    + rewrite Hl', zlen_app. lia.
Qed.

(** *** The word-at-a-time loops *)
Lemma land_digits b c x m : is_byte b -> is_byte c ->
  (b + 256 * x) &&& (c + 256 * m) = (b &&& c) + 256 * (x &&& m).
Proof.
  unfold is_byte. intros Hb Hc.
  assert (Hbc : is_uint 8 (b &&& c)) by (apply uint_land_r; [lia|unfold is_uint; lia]).
  assert (Hd : forall lo hi, is_uint 8 lo -> lo + 256 * hi = lo ||| (hi <<< 8))
    by (intros lo hi Hlo; rewrite lor_low_high by (done || lia); lia).
  rewrite !Hd by (done || (unfold is_uint; lia)). apply Z.bits_inj'. intros i Hi. autorewrite with zbits.
  destruct (Z.lt_ge_cases i 8).
  - rewrite !(Z.testbit_neg_r _ (i - 8)) by lia. by rewrite !orb_false_r.
  - by rewrite !(testbit_small 8 b), !(testbit_small 8 c) by (unfold is_uint; lia).
Qed.

Definition high (b : Z) : bool := b >? kMaxOneByteChar.
Lemma high_bit b : is_byte b -> b &&& 0x80 = if high b then 0x80 else 0.
Proof.
  intros Hb. apply Z.eqb_eq. exact (byte_forall (fun b => b &&& 0x80 =? if high b then 0x80 else 0) eq_refl b Hb).
Qed.

Lemma load_word_mask bytes :
  Forall is_byte bytes ->
  load_word bytes &&& load_word (replicate (length bytes) 0x80) =
  load_word ((fun b => if high b then 0x80 else 0) <$> bytes).
Proof.
  induction 1 as [|b bytes Hb _ IH]; [done|]. cbn [load_word length replicate].
  rewrite land_digits, high_bit, IH by (done || (unfold is_byte; lia)). done.
Qed.

Fixpoint high_count (l : list Z) : Z :=
  match l with [] => 0 | b :: l => (if high b then 1 else 0) + high_count l end.

Lemma count_high_bits_eq bytes :
  Forall is_byte bytes -> length bytes = 8%nat -> count_high_bits (load_word bytes) = high_count bytes.
Proof.
  intros Hb Hlen. unfold count_high_bits.
  change kAsciiWordMask with (load_word (replicate 8 0x80)). rewrite <- Hlen, load_word_mask by done.
  destruct bytes as [|b0 [|b1 [|b2 [|b3 [|b4 [|b5 [|b6 [|b7 [|]]]]]]]]]; try done.
  clear. cbn [high_count fmap list_fmap].
  destruct (high b0), (high b1), (high b2), (high b3), (high b4), (high b5), (high b6), (high b7); reflexivity.
Qed.

Lemma high_count_app l l' : high_count (l ++ l') = high_count l + high_count l'.
Proof. induction l as [|b l IH]; cbn [app high_count]; [done|]. rewrite IH. lia. Qed.

Lemma tail_count l n :
  foldl (fun length_ c => if c >? kMaxOneByteChar then length_ + 1 else length_) n l = n + high_count l.
Proof.
  revert n. induction l as [|b l IH]; intros n; cbn [foldl high_count]; [lia|]. rewrite IH.
  unfold high. destruct (b >? kMaxOneByteChar); lia.
Qed.

Lemma Length_OneByte_spec fuel chars n :
  Forall is_byte chars -> (length chars < fuel)%nat -> Length_OneByte_loop fuel chars n = n + high_count chars.
Proof.
  revert chars n. induction fuel as [|fuel IH]; intros chars n Hb Hf; [lia|]. cbn [Length_OneByte_loop].
  destruct (Z.leb_spec 8 (zlen chars)) as [H|H]; [|apply tail_count]. unfold zlen in H.
  rewrite IH by (try apply Forall_drop; try done; rewrite length_drop; lia).
  rewrite count_high_bits_eq by (try apply Forall_take; try done; rewrite length_take; lia).
  rewrite <- (take_drop 8 chars) at 3. rewrite high_count_app. lia.
Qed.

Lemma one_byte_valid chars : Forall is_byte chars -> Forall valid_code_point chars.
Proof. apply Forall_impl. unfold is_byte, valid_code_point, kMaxCodePoint. intros; lia. Qed.

Lemma one_byte_length chars : Forall is_byte chars -> zlen (utf8_string chars) = zlen chars + high_count chars.
Proof.
  induction 1 as [|b chars Hb _ IH]; [done|]. rewrite utf8_string_cons, zlen_app, IH, <- Utf8_Length_eq.
  cbn [high_count]. change (zlen (b :: chars)) with (Z.of_nat (S (length chars))). unfold zlen.
  unfold is_byte in Hb. unfold Utf8_Length, high, kMaxOneByteChar, kMaxTwoByteChar, kMaxThreeByteChar. rewrite Z.gtb_ltb.
  destruct (Z.leb_spec b 127), (Z.ltb_spec 127 b); try lia. zif; lia.
Qed.

Lemma Encode_chars_spec chars dst len :
  Forall is_byte chars -> zlen dst + zlen (utf8_string chars) <= len ->
  Encode_chars chars dst len = inl (dst ++ utf8_string chars).
Proof.
  intros Hb. revert dst. induction Hb as [|b chars Hb Hbs IH]; intros dst Hfit; cbn [Encode_chars].
  { by rewrite app_nil_r. }
  rewrite utf8_string_cons, zlen_app in *. pose proof (zlen_nonneg (utf8_string chars)).
  assert (Hv : Forall valid_code_point [b]) by (apply one_byte_valid; by constructor).
  apply Forall_cons_1 in Hv as [Hv _].
  rewrite Utf8_Length_eq, Utf8_Encode_eq by done. zif; [lia|]. rewrite IH by (rewrite zlen_app; lia).
  by rewrite app_assoc.
Qed.

(** A word without high bits is its own encoding. *)
Lemma ascii_word bytes : Forall is_byte bytes -> length bytes = 8%nat ->
  load_word bytes &&& kAsciiWordMask = 0 -> utf8_string bytes = bytes.
Proof.
  intros Hb Hlen. change kAsciiWordMask with (load_word (replicate 8 0x80)).
  rewrite <- Hlen, load_word_mask by done. clear Hlen. induction Hb as [|b bytes Hb Hbs IH]; [done|].
  cbn [fmap list_fmap load_word]. rewrite utf8_string_cons. intros H.
  assert (Hn : forall l, 0 <= load_word ((fun b => if high b then 0x80 else 0) <$> l)).
  { clear. induction l as [|b l IH]; cbn [fmap list_fmap load_word]; [lia|]. destruct (high b); lia. }
  specialize (Hn bytes). destruct (high b) eqn:E; [lia|]. rewrite IH by lia.
  unfold high, kMaxOneByteChar in E. zbool. unfold utf8. zif; [done|lia].
Qed.

Lemma utf8_string_app l l' : utf8_string (l ++ l') = utf8_string l ++ utf8_string l'.
Proof. unfold utf8_string. by rewrite fmap_app, join_app. Qed.

Lemma Encode_OneByte_spec fuel chars dst len :
  Forall is_byte chars -> (length chars < fuel)%nat -> zlen dst + zlen (utf8_string chars) <= len ->
  Encode_OneByte_loop fuel chars dst len = inl (dst ++ utf8_string chars).
Proof.
  revert chars dst. induction fuel as [|fuel IH]; intros chars dst Hb Hf Hfit; [lia|].
  cbn [Encode_OneByte_loop]. destruct (Z.ltb_spec 0 (zlen chars)) as [H|H].
  2: { destruct chars; [by rewrite app_nil_r|]. unfold zlen in H. simpl in H. lia. }
  unfold zlen in H. pose proof (take_drop 8 chars) as Htd.
  assert (Ht : Forall is_byte (take 8 chars)) by by apply Forall_take.
  assert (Hd : Forall is_byte (drop 8 chars)) by by apply Forall_drop.
  assert (Hl : (length (drop 8 chars) < fuel)%nat) by (rewrite length_drop; lia).
  rewrite <- Htd in Hfit. rewrite utf8_string_app, zlen_app in Hfit. pose proof (zlen_nonneg (utf8_string (drop 8 chars))).
  assert (Hgoal : Encode_OneByte_loop fuel (drop 8 chars) (dst ++ utf8_string (take 8 chars)) len =
                  inl (dst ++ utf8_string chars)).
  { rewrite IH by (try done; rewrite zlen_app; lia). by rewrite <- app_assoc, <- utf8_string_app, Htd. }
  destruct (_ && _) eqn:E.
  - zbool. rewrite <- Hgoal, ascii_word; try done. rewrite length_take. unfold zlen in *. lia.
  - by rewrite Encode_chars_spec by (done || lia).
Qed.

(** The code points of a string, and its code units. *)
Definition string_units (str : DartString) : list Z :=
  match str with OneByteString chars | TwoByteString chars => chars end.
Definition string_code_points (str : DartString) : list Z :=
  match str with OneByteString chars => chars | TwoByteString chars => code_points chars end.
Definition wf_string (str : DartString) : Prop :=
  match str with
  | OneByteString chars => Forall is_byte chars
  | TwoByteString chars => Forall is_code_unit chars
  end.

Lemma string_valid str : wf_string str ->
  Forall valid_code_point (string_code_points str) /\ mjoin (utf16 <$> string_code_points str) = string_units str.
Proof.
  destruct str as [chars|chars]; cbn; intros H.
  - split; [by apply one_byte_valid|]. apply Latin1_units. apply forallb_forall. intros x Hx.
    rewrite Forall_forall in H. specialize (H x Hx). unfold is_byte in H. unfold IsLatin1.
    apply andb_true_iff. rewrite Z.geb_leb. lia.
  - split; [by apply code_points_valid|by apply utf16_code_points].
Qed.

Lemma Length_String_spec str : wf_string str ->
  Utf8_Length_String str = Some (zlen (utf8_string (string_code_points str))).
Proof.
  destruct str as [chars|chars]; cbn [wf_string Utf8_Length_String string_code_points]; intros H.
  - by rewrite Length_OneByte_spec, one_byte_length by (done || lia).
  - rewrite (Length_TwoByte_spec _ chars _ 0 chars); try done.
    pose proof (code_points_length chars). lia.
Qed.

Lemma Encode_String_spec str len : wf_string str -> zlen (utf8_string (string_code_points str)) <= len ->
  Utf8_Encode_String str len =
  Some (utf8_string (string_code_points str),
        match str with OneByteString _ => 0 | TwoByteString _ => zlen (utf8_string (string_code_points str)) end).
Proof.
  destruct str as [chars|chars]; cbn [wf_string Utf8_Encode_String string_code_points]; intros H Hfit.
  - by rewrite Encode_OneByte_spec by (done || lia).
  - rewrite (Encode_TwoByte_spec _ chars _ 0 chars); try done.
    pose proof (code_points_length chars). lia.
Qed.

(** C40: A Dart string converted to UTF-8 and back is the same string.
    [Length] returns for every well-formed string, and what it returns is the
    exact number of bytes; with a buffer of at least that
    size [Encode] writes the encoding of the string's code points (lone
    surrogates included); the result is valid UTF-8, and decoding it to
    UTF-16 with the length [CodeUnitCount] reports gives the string's code
    units. The word-at-a-time paths for one-byte strings are covered. *)
Theorem String_utf8_roundtrip str : wf_string str ->
  exists n, Utf8_Length_String str = Some n /\
    forall len, n <= len -> exists dst r, Utf8_Encode_String str len = Some (dst, r) /\ zlen dst = n /\
      dst = mjoin (Utf8_Encode <$> string_code_points str) /\ IsValid dst = Some true /\
      DecodeToUTF16 dst (fst (CodeUnitCount dst)) = Some (true, string_units str).
Proof.
  intros Hwf. destruct (string_valid str Hwf) as [Hv Hu].
  rewrite Length_String_spec by done. eexists. split; [reflexivity|]. intros len Hlen.
  rewrite Encode_String_spec by done. eexists _, _. split; [reflexivity|]. split; [done|]. split; [by rewrite Encode_string|]. split.
  - pose proof (IsValid_loop_spec (S (length (utf8_string (string_code_points str)))) [] (string_code_points str) []) as Hi.
    rewrite app_nil_r in Hi. apply Hi; try done. pose proof (utf8_string_length (string_code_points str)). lia.
  - rewrite <- Encode_string, CodeUnitCount_encoded by done. cbn [fst]. rewrite <- Hu. by apply decode_encoded.
Qed.
Lemma String_utf8_roundtrip_witness :
  Utf8_Length_String (TwoByteString [0x48; 0xD83D; 0xDE00; 0xD800]) = Some 8 /\
  exists dst r, Utf8_Encode_String (TwoByteString [0x48; 0xD83D; 0xDE00; 0xD800]) 8 = Some (dst, r) /\ zlen dst = 8 /\
    IsValid dst = Some true /\
    DecodeToUTF16 dst (fst (CodeUnitCount dst)) = Some (true, [0x48; 0xD83D; 0xDE00; 0xD800]).
Proof.
  assert (E : Utf8_Length_String (TwoByteString [0x48; 0xD83D; 0xDE00; 0xD800]) = Some 8) by reflexivity.
  split; [exact E|]. destruct (String_utf8_roundtrip (TwoByteString [0x48; 0xD83D; 0xDE00; 0xD800])) as (n & Hn & H);
    [repeat constructor; unfold is_code_unit; lia|].
  assert (n = 8) as -> by (rewrite E in Hn; injection Hn as <-; reflexivity).
  destruct (H 8) as (dst & r & H1 & H2 & _ & H4 & H5); [lia|]. exists dst, r. repeat split; assumption.
Defined.

(** The number [Encode] returns for a string is the number of bytes
    written for two-byte strings, but 0 for every one-byte string that fits,
    because the branch for one-byte strings counts in a [pos] of its own. *)
Theorem Utf8_Encode_String_result str len :
  wf_string str -> zlen (mjoin (Utf8_Encode <$> string_code_points str)) <= len ->
  exists dst r, Utf8_Encode_String str len = Some (dst, r) /\
    dst = mjoin (Utf8_Encode <$> string_code_points str) /\
    r = match str with OneByteString _ => 0 | TwoByteString _ => zlen dst end.
Proof.
  intros Hwf Hlen. destruct (string_valid str Hwf) as [Hv _]. rewrite Encode_string in * by done.
  rewrite Encode_String_spec by done. by eexists _, _.
Qed.
Lemma Utf8_Encode_String_result_witness :
  exists dst r, Utf8_Encode_String (OneByteString [0x68; 0x69]) 2 = Some (dst, r) /\
    dst = [0x68; 0x69] /\ r = 0.
Proof.
  apply (Utf8_Encode_String_result (OneByteString [0x68; 0x69]) 2); [|vm_compute; done].
  repeat constructor; unfold is_byte; lia.
Defined.
