(* ===== verification/CaseMapping.v ===== *)
(** * Case mapping (src/runtime/platform/unicode.h, src/runtime/vm/unicode_data.cc, src/runtime/vm/object.cc)

    The two-stage tables, [CaseMapping::Convert], and the transformation of
    strings by [String::Transform]. The tables are those of unicode_data.cc;
    an access outside one of them is [None]. *)
From stdpp Require Import list_numbers.
From S2P Require Import Prelude Utils Unicode.
Local Open Scope Z_scope.
Local Open Scope vm_scope.

(** ** Tables *)
Definition stage1_ : list Z :=
  [0; 1; 2; 3; 4; 5; 6; 6; 6; 6; 6; 6; 6; 6; 6; 6; 7; 6; 6; 6;
   6; 6; 6; 6; 6; 6; 6; 6; 6; 8; 9; 10; 6; 11; 6; 6; 12; 6; 6; 6;
   6; 6; 6; 6; 13; 14; 6; 6; 6; 6; 6; 6; 6; 6; 6; 6; 6; 6; 6; 6;
   6; 6; 6; 6; 6; 6; 6; 6; 6; 6; 6; 6; 6; 6; 6; 6; 6; 6; 6; 6;
   6; 6; 6; 6; 6; 6; 6; 6; 6; 6; 6; 6; 6; 6; 6; 6; 6; 6; 6; 6;
   6; 6; 6; 6; 6; 6; 6; 6; 6; 6; 6; 6; 6; 6; 6; 6; 6; 6; 6; 6;
   6; 6; 6; 6; 6; 6; 6; 6; 6; 6; 6; 6; 6; 6; 6; 6; 6; 6; 6; 6;
   6; 6; 6; 6; 6; 6; 6; 6; 6; 6; 6; 6; 6; 6; 6; 6; 6; 6; 6; 6;
   6; 6; 6; 6; 6; 6; 15; 16; 6; 6; 6; 6; 6; 6; 6; 6; 6; 6; 6; 6;
   6; 6; 6; 6; 6; 6; 6; 6; 6; 6; 6; 6; 6; 6; 6; 6; 6; 6; 6; 6;
   6; 6; 6; 6; 6; 6; 6; 6; 6; 6; 6; 6; 6; 6; 6; 6; 6; 6; 6; 6;
   6; 6; 6; 6; 6; 6; 6; 6; 6; 6; 6; 6; 6; 6; 6; 6; 6; 6; 6; 6;
   6; 6; 6; 6; 6; 6; 6; 6; 6; 6; 6; 6; 6; 6; 6; 17; 6; 6; 6; 6;
   18].

Definition stage2_block0 : list Z :=
  [0; 0; 0; 0; 0; 0; 0; 0; 0; 0; 0; 0; 0; 0; 0; 0;
   0; 0; 0; 0; 0; 0; 0; 0; 0; 0; 0; 0; 0; 0; 0; 0;
   0; 0; 0; 0; 0; 0; 0; 0; 0; 0; 0; 0; 0; 0; 0; 0;
   0; 0; 0; 0; 0; 0; 0; 0; 0; 0; 0; 0; 0; 0; 0; 0;
   0; 130; 130; 130; 130; 130; 130; 130; 130; 130; 130; 130; 130; 130; 130; 130;
   130; 130; 130; 130; 130; 130; 130; 130; 130; 130; 130; 0; 0; 0; 0; 0;
   0; -127; -127; -127; -127; -127; -127; -127; -127; -127; -127; -127; -127; -127; -127; -127;
   -127; -127; -127; -127; -127; -127; -127; -127; -127; -127; -127; 0; 0; 0; 0; 0;
   0; 0; 0; 0; 0; 0; 0; 0; 0; 0; 0; 0; 0; 0; 0; 0;
   0; 0; 0; 0; 0; 0; 0; 0; 0; 0; 0; 0; 0; 0; 0; 0;
   0; 0; 0; 0; 0; 0; 0; 0; 0; 0; 0; 0; 0; 0; 0; 0;
   0; 0; 0; 0; 0; 2973; 0; 0; 0; 0; 0; 0; 0; 0; 0; 0;
   130; 130; 130; 130; 130; 130; 130; 130; 130; 130; 130; 130; 130; 130; 130; 130;
   130; 130; 130; 130; 130; 130; 130; 0; 130; 130; 130; 130; 130; 130; 130; 0;
   -127; -127; -127; -127; -127; -127; -127; -127; -127; -127; -127; -127; -127; -127; -127; -127;
   -127; -127; -127; -127; -127; -127; -127; 0; -127; -127; -127; -127; -127; -127; -127; 485].
Definition stage2_block1 : list Z :=
  [6; -3; 6; -3; 6; -3; 6; -3; 6; -3; 6; -3; 6; -3; 6; -3;
   6; -3; 6; -3; 6; -3; 6; -3; 6; -3; 6; -3; 6; -3; 6; -3;
   6; -3; 6; -3; 6; -3; 6; -3; 6; -3; 6; -3; 6; -3; 6; -3;
   -794; -927; 6; -3; 6; -3; 6; -3; 0; 6; -3; 6; -3; 6; -3; 6;
   -3; 6; -3; 6; -3; 6; -3; 6; -3; 0; 6; -3; 6; -3; 6; -3;
   6; -3; 6; -3; 6; -3; 6; -3; 6; -3; 6; -3; 6; -3; 6; -3;
   6; -3; 6; -3; 6; -3; 6; -3; 6; -3; 6; -3; 6; -3; 6; -3;
   6; -3; 6; -3; 6; -3; 6; -3; -482; 6; -3; 6; -3; 6; -3; -1199;
   781; 842; 6; -3; 6; -3; 826; 6; -3; 822; 822; 6; -3; 0; 318; 810;
   814; 6; -3; 822; 830; 389; 846; 838; 6; -3; 653; 0; 846; 854; 521; 858;
   6; -3; 6; -3; 6; -3; 874; 6; -3; 874; 0; 0; 6; -3; 874; 6;
   -3; 870; 870; 6; -3; 6; -3; 878; 6; -3; 0; 0; 6; -3; 0; 225;
   0; 0; 0; 0; 10; 3; -7; 10; 7; -7; 10; 11; -7; 6; -3; 6;
   -3; 6; -3; 6; -3; 6; -3; 6; -3; 6; -3; 6; -3; -315; 6; -3;
   6; -3; 6; -3; 6; -3; 6; -3; 6; -3; 6; -3; 6; -3; 6; -3;
   0; 10; 15; -7; 6; -3; -386; -222; 6; -3; 6; -3; 6; -3; 6; -3].
Definition stage2_block2 : list Z :=
  [6; -3; 6; -3; 6; -3; 6; -3; 6; -3; 6; -3; 6; -3; 6; -3;
   6; -3; 6; -3; 6; -3; 6; -3; 6; -3; 6; -3; 6; -3; 6; -3;
   -518; 0; 6; -3; 6; -3; 6; -3; 6; -3; 6; -3; 6; -3; 6; -3;
   6; -3; 6; -3; 0; 0; 0; 0; 0; 0; 19; 6; -3; -650; 23; 0;
   0; 6; -3; -778; 278; 286; 6; -3; 6; -3; 6; -3; 6; -3; 6; -3;
   27; 31; 0; -839; -823; 0; -819; -819; 0; -807; 0; -811; 0; 0; 0; 0;
   -819; 0; 0; -827; 0; 0; 0; 0; -835; -843; 0; 35; 0; 0; 0; -843;
   0; 39; -851; 0; 0; -855; 0; 0; 0; 0; 0; 0; 0; 43; 0; 0;
   -871; 0; 0; -871; 0; 0; 0; 0; -871; -275; -867; -867; -283; 0; 0; 0;
   0; 0; -875; 0; 0; 0; 0; 0; 0; 0; 0; 0; 0; 0; 0; 0;
   0; 0; 0; 0; 0; 0; 0; 0; 0; 0; 0; 0; 0; 0; 0; 0;
   0; 0; 0; 0; 0; 0; 0; 0; 0; 0; 0; 0; 0; 0; 0; 0;
   0; 0; 0; 0; 0; 0; 0; 0; 0; 0; 0; 0; 0; 0; 0; 0;
   0; 0; 0; 0; 0; 0; 0; 0; 0; 0; 0; 0; 0; 0; 0; 0;
   0; 0; 0; 0; 0; 0; 0; 0; 0; 0; 0; 0; 0; 0; 0; 0;
   0; 0; 0; 0; 0; 0; 0; 0; 0; 0; 0; 0; 0; 0; 0; 0].
Definition stage2_block3 : list Z :=
  [0; 0; 0; 0; 0; 0; 0; 0; 0; 0; 0; 0; 0; 0; 0; 0;
   0; 0; 0; 0; 0; 0; 0; 0; 0; 0; 0; 0; 0; 0; 0; 0;
   0; 0; 0; 0; 0; 0; 0; 0; 0; 0; 0; 0; 0; 0; 0; 0;
   0; 0; 0; 0; 0; 0; 0; 0; 0; 0; 0; 0; 0; 0; 0; 0;
   0; 0; 0; 0; 0; 337; 0; 0; 0; 0; 0; 0; 0; 0; 0; 0;
   0; 0; 0; 0; 0; 0; 0; 0; 0; 0; 0; 0; 0; 0; 0; 0;
   0; 0; 0; 0; 0; 0; 0; 0; 0; 0; 0; 0; 0; 0; 0; 0;
   6; -3; 6; -3; 0; 0; 6; -3; 0; 0; 0; 521; 521; 521; 0; 0;
   0; 0; 0; 0; 0; 0; 154; 0; 150; 150; 150; 0; 258; 0; 254; 254;
   0; 130; 130; 130; 130; 130; 130; 130; 130; 130; 130; 130; 130; 130; 130; 130;
   130; 130; 0; 130; 130; 130; 130; 130; 130; 130; 130; 130; -151; -147; -147; -147;
   0; -127; -127; -127; -127; -127; -127; -127; -127; -127; -127; -127; -127; -127; -127; -127;
   -127; -127; -123; -127; -127; -127; -127; -127; -127; -127; -127; -127; -255; -251; -251; 34;
   -247; -227; 0; 0; 0; -187; -215; -31; 6; -3; 6; -3; 6; -3; 6; -3;
   6; -3; 6; -3; 6; -3; 6; -3; 6; -3; 6; -3; 6; -3; 6; -3;
   -343; -319; 29; 0; -238; -383; 0; 6; -3; -26; 6; -3; 0; -518; -518; -518].
Definition stage2_block4 : list Z :=
  [322; 322; 322; 322; 322; 322; 322; 322; 322; 322; 322; 322; 322; 322; 322; 322;
   130; 130; 130; 130; 130; 130; 130; 130; 130; 130; 130; 130; 130; 130; 130; 130;
   130; 130; 130; 130; 130; 130; 130; 130; 130; 130; 130; 130; 130; 130; 130; 130;
   -127; -127; -127; -127; -127; -127; -127; -127; -127; -127; -127; -127; -127; -127; -127; -127;
   -127; -127; -127; -127; -127; -127; -127; -127; -127; -127; -127; -127; -127; -127; -127; -127;
   -319; -319; -319; -319; -319; -319; -319; -319; -319; -319; -319; -319; -319; -319; -319; -319;
   6; -3; 6; -3; 6; -3; 6; -3; 6; -3; 6; -3; 6; -3; 6; -3;
   6; -3; 6; -3; 6; -3; 6; -3; 6; -3; 6; -3; 6; -3; 6; -3;
   6; -3; 0; 0; 0; 0; 0; 0; 0; 0; 6; -3; 6; -3; 6; -3;
   6; -3; 6; -3; 6; -3; 6; -3; 6; -3; 6; -3; 6; -3; 6; -3;
   6; -3; 6; -3; 6; -3; 6; -3; 6; -3; 6; -3; 6; -3; 6; -3;
   6; -3; 6; -3; 6; -3; 6; -3; 6; -3; 6; -3; 6; -3; 6; -3;
   62; 6; -3; 6; -3; 6; -3; 6; -3; 6; -3; 6; -3; 6; -3; -59;
   6; -3; 6; -3; 6; -3; 6; -3; 6; -3; 6; -3; 6; -3; 6; -3;
   6; -3; 6; -3; 6; -3; 6; -3; 6; -3; 6; -3; 6; -3; 6; -3;
   6; -3; 6; -3; 6; -3; 6; -3; 6; -3; 6; -3; 6; -3; 6; -3].
Definition stage2_block5 : list Z :=
  [6; -3; 6; -3; 6; -3; 6; -3; 6; -3; 6; -3; 6; -3; 6; -3;
   6; -3; 6; -3; 6; -3; 6; -3; 6; -3; 6; -3; 6; -3; 6; -3;
   6; -3; 6; -3; 0; 0; 0; 0; 0; 0; 0; 0; 0; 0; 0; 0;
   0; 194; 194; 194; 194; 194; 194; 194; 194; 194; 194; 194; 194; 194; 194; 194;
   194; 194; 194; 194; 194; 194; 194; 194; 194; 194; 194; 194; 194; 194; 194; 194;
   194; 194; 194; 194; 194; 194; 194; 0; 0; 0; 0; 0; 0; 0; 0; 0;
   0; -191; -191; -191; -191; -191; -191; -191; -191; -191; -191; -191; -191; -191; -191; -191;
   -191; -191; -191; -191; -191; -191; -191; -191; -191; -191; -191; -191; -191; -191; -191; -191;
   -191; -191; -191; -191; -191; -191; -191; 0; 0; 0; 0; 0; 0; 0; 0; 0;
   0; 0; 0; 0; 0; 0; 0; 0; 0; 0; 0; 0; 0; 0; 0; 0;
   0; 0; 0; 0; 0; 0; 0; 0; 0; 0; 0; 0; 0; 0; 0; 0;
   0; 0; 0; 0; 0; 0; 0; 0; 0; 0; 0; 0; 0; 0; 0; 0;
   0; 0; 0; 0; 0; 0; 0; 0; 0; 0; 0; 0; 0; 0; 0; 0;
   0; 0; 0; 0; 0; 0; 0; 0; 0; 0; 0; 0; 0; 0; 0; 0;
   0; 0; 0; 0; 0; 0; 0; 0; 0; 0; 0; 0; 0; 0; 0; 0;
   0; 0; 0; 0; 0; 0; 0; 0; 0; 0; 0; 0; 0; 0; 0; 0].
Definition stage2_block6 : list Z :=
  [0; 0; 0; 0; 0; 0; 0; 0; 0; 0; 0; 0; 0; 0; 0; 0;
   0; 0; 0; 0; 0; 0; 0; 0; 0; 0; 0; 0; 0; 0; 0; 0;
   0; 0; 0; 0; 0; 0; 0; 0; 0; 0; 0; 0; 0; 0; 0; 0;
   0; 0; 0; 0; 0; 0; 0; 0; 0; 0; 0; 0; 0; 0; 0; 0;
   0; 0; 0; 0; 0; 0; 0; 0; 0; 0; 0; 0; 0; 0; 0; 0;
   0; 0; 0; 0; 0; 0; 0; 0; 0; 0; 0; 0; 0; 0; 0; 0;
   0; 0; 0; 0; 0; 0; 0; 0; 0; 0; 0; 0; 0; 0; 0; 0;
   0; 0; 0; 0; 0; 0; 0; 0; 0; 0; 0; 0; 0; 0; 0; 0;
   0; 0; 0; 0; 0; 0; 0; 0; 0; 0; 0; 0; 0; 0; 0; 0;
   0; 0; 0; 0; 0; 0; 0; 0; 0; 0; 0; 0; 0; 0; 0; 0;
   0; 0; 0; 0; 0; 0; 0; 0; 0; 0; 0; 0; 0; 0; 0; 0;
   0; 0; 0; 0; 0; 0; 0; 0; 0; 0; 0; 0; 0; 0; 0; 0;
   0; 0; 0; 0; 0; 0; 0; 0; 0; 0; 0; 0; 0; 0; 0; 0;
   0; 0; 0; 0; 0; 0; 0; 0; 0; 0; 0; 0; 0; 0; 0; 0;
   0; 0; 0; 0; 0; 0; 0; 0; 0; 0; 0; 0; 0; 0; 0; 0;
   0; 0; 0; 0; 0; 0; 0; 0; 0; 0; 0; 0; 0; 0; 0; 0].
Definition stage2_block7 : list Z :=
  [0; 0; 0; 0; 0; 0; 0; 0; 0; 0; 0; 0; 0; 0; 0; 0;
   0; 0; 0; 0; 0; 0; 0; 0; 0; 0; 0; 0; 0; 0; 0; 0;
   0; 0; 0; 0; 0; 0; 0; 0; 0; 0; 0; 0; 0; 0; 0; 0;
   0; 0; 0; 0; 0; 0; 0; 0; 0; 0; 0; 0; 0; 0; 0; 0;
   0; 0; 0; 0; 0; 0; 0; 0; 0; 0; 0; 0; 0; 0; 0; 0;
   0; 0; 0; 0; 0; 0; 0; 0; 0; 0; 0; 0; 0; 0; 0; 0;
   0; 0; 0; 0; 0; 0; 0; 0; 0; 0; 0; 0; 0; 0; 0; 0;
   0; 0; 0; 0; 0; 0; 0; 0; 0; 0; 0; 0; 0; 0; 0; 0;
   0; 0; 0; 0; 0; 0; 0; 0; 0; 0; 0; 0; 0; 0; 0; 0;
   0; 0; 0; 0; 0; 0; 0; 0; 0; 0; 0; 0; 0; 0; 0; 0;
   29058; 29058; 29058; 29058; 29058; 29058; 29058; 29058; 29058; 29058; 29058; 29058; 29058; 29058; 29058; 29058;
   29058; 29058; 29058; 29058; 29058; 29058; 29058; 29058; 29058; 29058; 29058; 29058; 29058; 29058; 29058; 29058;
   29058; 29058; 29058; 29058; 29058; 29058; 0; 0; 0; 0; 0; 0; 0; 0; 0; 0;
   0; 0; 0; 0; 0; 0; 0; 0; 0; 0; 0; 0; 0; 0; 0; 0;
   0; 0; 0; 0; 0; 0; 0; 0; 0; 0; 0; 0; 0; 0; 0; 0;
   0; 0; 0; 0; 0; 0; 0; 0; 0; 0; 0; 0; 0; 0; 0; 0].
Definition stage2_block8 : list Z :=
  [0; 0; 0; 0; 0; 0; 0; 0; 0; 0; 0; 0; 0; 0; 0; 0;
   0; 0; 0; 0; 0; 0; 0; 0; 0; 0; 0; 0; 0; 0; 0; 0;
   0; 0; 0; 0; 0; 0; 0; 0; 0; 0; 0; 0; 0; 0; 0; 0;
   0; 0; 0; 0; 0; 0; 0; 0; 0; 0; 0; 0; 0; 0; 0; 0;
   0; 0; 0; 0; 0; 0; 0; 0; 0; 0; 0; 0; 0; 0; 0; 0;
   0; 0; 0; 0; 0; 0; 0; 0; 0; 0; 0; 0; 0; 0; 0; 0;
   0; 0; 0; 0; 0; 0; 0; 0; 0; 0; 0; 0; 0; 0; 0; 0;
   0; 0; 0; 0; 0; 0; 0; 0; 0; 47; 0; 0; 0; 15257; 0; 0;
   0; 0; 0; 0; 0; 0; 0; 0; 0; 0; 0; 0; 0; 0; 0; 0;
   0; 0; 0; 0; 0; 0; 0; 0; 0; 0; 0; 0; 0; 0; 0; 0;
   0; 0; 0; 0; 0; 0; 0; 0; 0; 0; 0; 0; 0; 0; 0; 0;
   0; 0; 0; 0; 0; 0; 0; 0; 0; 0; 0; 0; 0; 0; 0; 0;
   0; 0; 0; 0; 0; 0; 0; 0; 0; 0; 0; 0; 0; 0; 0; 0;
   0; 0; 0; 0; 0; 0; 0; 0; 0; 0; 0; 0; 0; 0; 0; 0;
   0; 0; 0; 0; 0; 0; 0; 0; 0; 0; 0; 0; 0; 0; 0; 0;
   0; 0; 0; 0; 0; 0; 0; 0; 0; 0; 0; 0; 0; 0; 0; 0].
Definition stage2_block9 : list Z :=
  [6; -3; 6; -3; 6; -3; 6; -3; 6; -3; 6; -3; 6; -3; 6; -3;
   6; -3; 6; -3; 6; -3; 6; -3; 6; -3; 6; -3; 6; -3; 6; -3;
   6; -3; 6; -3; 6; -3; 6; -3; 6; -3; 6; -3; 6; -3; 6; -3;
   6; -3; 6; -3; 6; -3; 6; -3; 6; -3; 6; -3; 6; -3; 6; -3;
   6; -3; 6; -3; 6; -3; 6; -3; 6; -3; 6; -3; 6; -3; 6; -3;
   6; -3; 6; -3; 6; -3; 6; -3; 6; -3; 6; -3; 6; -3; 6; -3;
   6; -3; 6; -3; 6; -3; 6; -3; 6; -3; 6; -3; 6; -3; 6; -3;
   6; -3; 6; -3; 6; -3; 6; -3; 6; -3; 6; -3; 6; -3; 6; -3;
   6; -3; 6; -3; 6; -3; 6; -3; 6; -3; 6; -3; 6; -3; 6; -3;
   6; -3; 6; -3; 6; -3; 0; 0; 0; 0; 0; -235; 0; 0; -30458; 0;
   6; -3; 6; -3; 6; -3; 6; -3; 6; -3; 6; -3; 6; -3; 6; -3;
   6; -3; 6; -3; 6; -3; 6; -3; 6; -3; 6; -3; 6; -3; 6; -3;
   6; -3; 6; -3; 6; -3; 6; -3; 6; -3; 6; -3; 6; -3; 6; -3;
   6; -3; 6; -3; 6; -3; 6; -3; 6; -3; 6; -3; 6; -3; 6; -3;
   6; -3; 6; -3; 6; -3; 6; -3; 6; -3; 6; -3; 6; -3; 6; -3;
   6; -3; 6; -3; 6; -3; 6; -3; 6; -3; 6; -3; 6; -3; 6; -3].
Definition stage2_block10 : list Z :=
  [33; 33; 33; 33; 33; 33; 33; 33; -30; -30; -30; -30; -30; -30; -30; -30;
   33; 33; 33; 33; 33; 33; 0; 0; -30; -30; -30; -30; -30; -30; 0; 0;
   33; 33; 33; 33; 33; 33; 33; 33; -30; -30; -30; -30; -30; -30; -30; -30;
   33; 33; 33; 33; 33; 33; 33; 33; -30; -30; -30; -30; -30; -30; -30; -30;
   33; 33; 33; 33; 33; 33; 0; 0; -30; -30; -30; -30; -30; -30; 0; 0;
   0; 33; 0; 33; 0; 33; 0; 33; 0; -30; 0; -30; 0; -30; 0; -30;
   33; 33; 33; 33; 33; 33; 33; 33; -30; -30; -30; -30; -30; -30; -30; -30;
   297; 297; 345; 345; 345; 345; 401; 401; 513; 513; 449; 449; 505; 505; 0; 0;
   33; 33; 33; 33; 33; 33; 33; 33; -30; -30; -30; -30; -30; -30; -30; -30;
   33; 33; 33; 33; 33; 33; 33; 33; -30; -30; -30; -30; -30; -30; -30; -30;
   33; 33; 33; 33; 33; 33; 33; 33; -30; -30; -30; -30; -30; -30; -30; -30;
   33; 33; 0; 37; 0; 0; 0; 0; -30; -30; -294; -294; -34; 0; -28819; 0;
   0; 0; 0; 37; 0; 0; 0; 0; -342; -342; -342; -342; -34; 0; 0; 0;
   33; 33; 0; 0; 0; 0; 0; 0; -30; -30; -398; -398; 0; 0; 0; 0;
   33; 33; 0; 0; 0; 29; 0; 0; -30; -30; -446; -446; -26; 0; 0; 0;
   0; 0; 0; 37; 0; 0; 0; 0; -510; -510; -502; -502; -34; 0; 0; 0].
Definition stage2_block11 : list Z :=
  [0; 0; 0; 0; 0; 0; 0; 0; 0; 0; 0; 0; 0; 0; 0; 0;
   0; 0; 0; 0; 0; 0; 0; 0; 0; 0; 0; 0; 0; 0; 0; 0;
   0; 0; 0; 0; 0; 0; -30066; 0; 0; 0; 51; 55; 0; 0; 0; 0;
   0; 0; 114; 0; 0; 0; 0; 0; 0; 0; 0; 0; 0; 0; 0; 0;
   0; 0; 0; 0; 0; 0; 0; 0; 0; 0; 0; 0; 0; 0; -111; 0;
   0; 0; 0; 0; 0; 0; 0; 0; 0; 0; 0; 0; 0; 0; 0; 0;
   66; 66; 66; 66; 66; 66; 66; 66; 66; 66; 66; 66; 66; 66; 66; 66;
   -63; -63; -63; -63; -63; -63; -63; -63; -63; -63; -63; -63; -63; -63; -63; -63;
   0; 0; 0; 6; -3; 0; 0; 0; 0; 0; 0; 0; 0; 0; 0; 0;
   0; 0; 0; 0; 0; 0; 0; 0; 0; 0; 0; 0; 0; 0; 0; 0;
   0; 0; 0; 0; 0; 0; 0; 0; 0; 0; 0; 0; 0; 0; 0; 0;
   0; 0; 0; 0; 0; 0; 0; 0; 0; 0; 0; 0; 0; 0; 0; 0;
   0; 0; 0; 0; 0; 0; 0; 0; 0; 0; 0; 0; 0; 0; 0; 0;
   0; 0; 0; 0; 0; 0; 0; 0; 0; 0; 0; 0; 0; 0; 0; 0;
   0; 0; 0; 0; 0; 0; 0; 0; 0; 0; 0; 0; 0; 0; 0; 0;
   0; 0; 0; 0; 0; 0; 0; 0; 0; 0; 0; 0; 0; 0; 0; 0].
Definition stage2_block12 : list Z :=
  [0; 0; 0; 0; 0; 0; 0; 0; 0; 0; 0; 0; 0; 0; 0; 0;
   0; 0; 0; 0; 0; 0; 0; 0; 0; 0; 0; 0; 0; 0; 0; 0;
   0; 0; 0; 0; 0; 0; 0; 0; 0; 0; 0; 0; 0; 0; 0; 0;
   0; 0; 0; 0; 0; 0; 0; 0; 0; 0; 0; 0; 0; 0; 0; 0;
   0; 0; 0; 0; 0; 0; 0; 0; 0; 0; 0; 0; 0; 0; 0; 0;
   0; 0; 0; 0; 0; 0; 0; 0; 0; 0; 0; 0; 0; 0; 0; 0;
   0; 0; 0; 0; 0; 0; 0; 0; 0; 0; 0; 0; 0; 0; 0; 0;
   0; 0; 0; 0; 0; 0; 0; 0; 0; 0; 0; 0; 0; 0; 0; 0;
   0; 0; 0; 0; 0; 0; 0; 0; 0; 0; 0; 0; 0; 0; 0; 0;
   0; 0; 0; 0; 0; 0; 0; 0; 0; 0; 0; 0; 0; 0; 0; 0;
   0; 0; 0; 0; 0; 0; 0; 0; 0; 0; 0; 0; 0; 0; 0; 0;
   0; 0; 0; 0; 0; 0; 106; 106; 106; 106; 106; 106; 106; 106; 106; 106;
   106; 106; 106; 106; 106; 106; 106; 106; 106; 106; 106; 106; 106; 106; 106; 106;
   -103; -103; -103; -103; -103; -103; -103; -103; -103; -103; -103; -103; -103; -103; -103; -103;
   -103; -103; -103; -103; -103; -103; -103; -103; -103; -103; 0; 0; 0; 0; 0; 0;
   0; 0; 0; 0; 0; 0; 0; 0; 0; 0; 0; 0; 0; 0; 0; 0].
Definition stage2_block13 : list Z :=
  [194; 194; 194; 194; 194; 194; 194; 194; 194; 194; 194; 194; 194; 194; 194; 194;
   194; 194; 194; 194; 194; 194; 194; 194; 194; 194; 194; 194; 194; 194; 194; 194;
   194; 194; 194; 194; 194; 194; 194; 194; 194; 194; 194; 194; 194; 194; 194; 0;
   -191; -191; -191; -191; -191; -191; -191; -191; -191; -191; -191; -191; -191; -191; -191; -191;
   -191; -191; -191; -191; -191; -191; -191; -191; -191; -191; -191; -191; -191; -191; -191; -191;
   -191; -191; -191; -191; -191; -191; -191; -191; -191; -191; -191; -191; -191; -191; -191; 0;
   6; -3; 59; -15254; 63; 67; 71; 6; -3; 6; -3; 6; -3; 75; 79; 83;
   0; 0; 6; -3; 0; 6; -3; 0; 0; 0; 0; 0; 0; 0; 0; 0;
   6; -3; 6; -3; 6; -3; 6; -3; 6; -3; 6; -3; 6; -3; 6; -3;
   6; -3; 6; -3; 6; -3; 6; -3; 6; -3; 6; -3; 6; -3; 6; -3;
   6; -3; 6; -3; 6; -3; 6; -3; 6; -3; 6; -3; 6; -3; 6; -3;
   6; -3; 6; -3; 6; -3; 6; -3; 6; -3; 6; -3; 6; -3; 6; -3;
   6; -3; 6; -3; 6; -3; 6; -3; 6; -3; 6; -3; 6; -3; 6; -3;
   6; -3; 6; -3; 6; -3; 6; -3; 6; -3; 6; -3; 6; -3; 6; -3;
   6; -3; 6; -3; 0; 0; 0; 0; 0; 0; 0; 0; 0; 0; 0; 0;
   0; 0; 0; 0; 0; 0; 0; 0; 0; 0; 0; 0; 0; 0; 0; 0].
Definition stage2_block14 : list Z :=
  [-29055; -29055; -29055; -29055; -29055; -29055; -29055; -29055; -29055; -29055; -29055; -29055; -29055; -29055; -29055; -29055;
   -29055; -29055; -29055; -29055; -29055; -29055; -29055; -29055; -29055; -29055; -29055; -29055; -29055; -29055; -29055; -29055;
   -29055; -29055; -29055; -29055; -29055; -29055; 0; 0; 0; 0; 0; 0; 0; 0; 0; 0;
   0; 0; 0; 0; 0; 0; 0; 0; 0; 0; 0; 0; 0; 0; 0; 0;
   0; 0; 0; 0; 0; 0; 0; 0; 0; 0; 0; 0; 0; 0; 0; 0;
   0; 0; 0; 0; 0; 0; 0; 0; 0; 0; 0; 0; 0; 0; 0; 0;
   0; 0; 0; 0; 0; 0; 0; 0; 0; 0; 0; 0; 0; 0; 0; 0;
   0; 0; 0; 0; 0; 0; 0; 0; 0; 0; 0; 0; 0; 0; 0; 0;
   0; 0; 0; 0; 0; 0; 0; 0; 0; 0; 0; 0; 0; 0; 0; 0;
   0; 0; 0; 0; 0; 0; 0; 0; 0; 0; 0; 0; 0; 0; 0; 0;
   0; 0; 0; 0; 0; 0; 0; 0; 0; 0; 0; 0; 0; 0; 0; 0;
   0; 0; 0; 0; 0; 0; 0; 0; 0; 0; 0; 0; 0; 0; 0; 0;
   0; 0; 0; 0; 0; 0; 0; 0; 0; 0; 0; 0; 0; 0; 0; 0;
   0; 0; 0; 0; 0; 0; 0; 0; 0; 0; 0; 0; 0; 0; 0; 0;
   0; 0; 0; 0; 0; 0; 0; 0; 0; 0; 0; 0; 0; 0; 0; 0;
   0; 0; 0; 0; 0; 0; 0; 0; 0; 0; 0; 0; 0; 0; 0; 0].
Definition stage2_block15 : list Z :=
  [0; 0; 0; 0; 0; 0; 0; 0; 0; 0; 0; 0; 0; 0; 0; 0;
   0; 0; 0; 0; 0; 0; 0; 0; 0; 0; 0; 0; 0; 0; 0; 0;
   0; 0; 0; 0; 0; 0; 0; 0; 0; 0; 0; 0; 0; 0; 0; 0;
   0; 0; 0; 0; 0; 0; 0; 0; 0; 0; 0; 0; 0; 0; 0; 0;
   6; -3; 6; -3; 6; -3; 6; -3; 6; -3; 6; -3; 6; -3; 6; -3;
   6; -3; 6; -3; 6; -3; 6; -3; 6; -3; 6; -3; 6; -3; 6; -3;
   0; 0; 6; -3; 6; -3; 6; -3; 6; -3; 6; -3; 6; -3; 0; 0;
   0; 0; 0; 0; 0; 0; 0; 0; 0; 0; 0; 0; 0; 0; 0; 0;
   6; -3; 6; -3; 6; -3; 6; -3; 6; -3; 6; -3; 6; -3; 6; -3;
   6; -3; 6; -3; 6; -3; 6; -3; 0; 0; 0; 0; 0; 0; 0; 0;
   0; 0; 0; 0; 0; 0; 0; 0; 0; 0; 0; 0; 0; 0; 0; 0;
   0; 0; 0; 0; 0; 0; 0; 0; 0; 0; 0; 0; 0; 0; 0; 0;
   0; 0; 0; 0; 0; 0; 0; 0; 0; 0; 0; 0; 0; 0; 0; 0;
   0; 0; 0; 0; 0; 0; 0; 0; 0; 0; 0; 0; 0; 0; 0; 0;
   0; 0; 0; 0; 0; 0; 0; 0; 0; 0; 0; 0; 0; 0; 0; 0;
   0; 0; 0; 0; 0; 0; 0; 0; 0; 0; 0; 0; 0; 0; 0; 0].
Definition stage2_block16 : list Z :=
  [0; 0; 0; 0; 0; 0; 0; 0; 0; 0; 0; 0; 0; 0; 0; 0;
   0; 0; 0; 0; 0; 0; 0; 0; 0; 0; 0; 0; 0; 0; 0; 0;
   0; 0; 6; -3; 6; -3; 6; -3; 6; -3; 6; -3; 6; -3; 6; -3;
   0; 0; 6; -3; 6; -3; 6; -3; 6; -3; 6; -3; 6; -3; 6; -3;
   6; -3; 6; -3; 6; -3; 6; -3; 6; -3; 6; -3; 6; -3; 6; -3;
   6; -3; 6; -3; 6; -3; 6; -3; 6; -3; 6; -3; 6; -3; 6; -3;
   6; -3; 6; -3; 6; -3; 6; -3; 6; -3; 6; -3; 6; -3; 6; -3;
   0; 0; 0; 0; 0; 0; 0; 0; 0; 6; -3; 6; -3; 87; 6; -3;
   6; -3; 6; -3; 6; -3; 6; -3; 0; 0; 0; 6; -3; 0; 0; 0;
   0; 0; 0; 0; 0; 0; 0; 0; 0; 0; 0; 0; 0; 0; 0; 0;
   0; 0; 0; 0; 0; 0; 0; 0; 0; 0; 0; 0; 0; 0; 0; 0;
   0; 0; 0; 0; 0; 0; 0; 0; 0; 0; 0; 0; 0; 0; 0; 0;
   0; 0; 0; 0; 0; 0; 0; 0; 0; 0; 0; 0; 0; 0; 0; 0;
   0; 0; 0; 0; 0; 0; 0; 0; 0; 0; 0; 0; 0; 0; 0; 0;
   0; 0; 0; 0; 0; 0; 0; 0; 0; 0; 0; 0; 0; 0; 0; 0;
   0; 0; 0; 0; 0; 0; 0; 0; 0; 0; 0; 0; 0; 0; 0; 0].
Definition stage2_block17 : list Z :=
  [0; 0; 0; 0; 0; 0; 0; 0; 0; 0; 0; 0; 0; 0; 0; 0;
   0; 0; 0; 0; 0; 0; 0; 0; 0; 0; 0; 0; 0; 0; 0; 0;
   0; 130; 130; 130; 130; 130; 130; 130; 130; 130; 130; 130; 130; 130; 130; 130;
   130; 130; 130; 130; 130; 130; 130; 130; 130; 130; 130; 0; 0; 0; 0; 0;
   0; -127; -127; -127; -127; -127; -127; -127; -127; -127; -127; -127; -127; -127; -127; -127;
   -127; -127; -127; -127; -127; -127; -127; -127; -127; -127; -127; 0; 0; 0; 0; 0;
   0; 0; 0; 0; 0; 0; 0; 0; 0; 0; 0; 0; 0; 0; 0; 0;
   0; 0; 0; 0; 0; 0; 0; 0; 0; 0; 0; 0; 0; 0; 0; 0;
   0; 0; 0; 0; 0; 0; 0; 0; 0; 0; 0; 0; 0; 0; 0; 0;
   0; 0; 0; 0; 0; 0; 0; 0; 0; 0; 0; 0; 0; 0; 0; 0;
   0; 0; 0; 0; 0; 0; 0; 0; 0; 0; 0; 0; 0; 0; 0; 0;
   0; 0; 0; 0; 0; 0; 0; 0; 0; 0; 0; 0; 0; 0; 0; 0;
   0; 0; 0; 0; 0; 0; 0; 0; 0; 0; 0; 0; 0; 0; 0; 0;
   0; 0; 0; 0; 0; 0; 0; 0; 0; 0; 0; 0; 0; 0; 0; 0;
   0; 0; 0; 0; 0; 0; 0; 0; 0; 0; 0; 0; 0; 0; 0; 0;
   0; 0; 0; 0; 0; 0; 0; 0; 0; 0; 0; 0; 0; 0; 0; 0].
Definition stage2_block18 : list Z :=
  [162; 162; 162; 162; 162; 162; 162; 162; 162; 162; 162; 162; 162; 162; 162; 162;
   162; 162; 162; 162; 162; 162; 162; 162; 162; 162; 162; 162; 162; 162; 162; 162;
   162; 162; 162; 162; 162; 162; 162; 162; -159; -159; -159; -159; -159; -159; -159; -159;
   -159; -159; -159; -159; -159; -159; -159; -159; -159; -159; -159; -159; -159; -159; -159; -159;
   -159; -159; -159; -159; -159; -159; -159; -159; -159; -159; -159; -159; -159; -159; -159; -159;
   0; 0; 0; 0; 0; 0; 0; 0; 0; 0; 0; 0; 0; 0; 0; 0;
   0; 0; 0; 0; 0; 0; 0; 0; 0; 0; 0; 0; 0; 0; 0; 0;
   0; 0; 0; 0; 0; 0; 0; 0; 0; 0; 0; 0; 0; 0; 0; 0;
   0; 0; 0; 0; 0; 0; 0; 0; 0; 0; 0; 0; 0; 0; 0; 0;
   0; 0; 0; 0; 0; 0; 0; 0; 0; 0; 0; 0; 0; 0; 0; 0;
   0; 0; 0; 0; 0; 0; 0; 0; 0; 0; 0; 0; 0; 0; 0; 0;
   0; 0; 0; 0; 0; 0; 0; 0; 0; 0; 0; 0; 0; 0; 0; 0;
   0; 0; 0; 0; 0; 0; 0; 0; 0; 0; 0; 0; 0; 0; 0; 0;
   0; 0; 0; 0; 0; 0; 0; 0; 0; 0; 0; 0; 0; 0; 0; 0;
   0; 0; 0; 0; 0; 0; 0; 0; 0; 0; 0; 0; 0; 0; 0; 0;
   0; 0; 0; 0; 0; 0; 0; 0; 0; 0; 0; 0; 0; 0; 0; 0].

Definition stage2_blocks : list (list Z) :=
  [stage2_block0; stage2_block1; stage2_block2; stage2_block3; stage2_block4; stage2_block5; stage2_block6; stage2_block7; stage2_block8; stage2_block9; stage2_block10; stage2_block11; stage2_block12; stage2_block13; stage2_block14; stage2_block15; stage2_block16; stage2_block17; stage2_block18].
Definition stage2_ : list Z := mjoin stage2_blocks.
Definition stage2_exception_ : list (list Z) :=
  [[-1; 1]; [-1; 1]; [-1; 1]; [-1; 1]; [0; 10795]; [0; 10792];
   [10783; 0]; [10780; 0]; [10743; 0]; [10749; 0]; [10727; 0]; [35332; 0];
   [0; -8383]; [0; -8262]; [0; -10743]; [0; -10727]; [-10795; 0]; [-10792; 0];
   [0; -10780]; [0; -10749]; [0; -10783]; [0; -35332]].

(** ** Code points *)
Definition kUppercase : Z := 1.
Definition kLowercase : Z := 2.
Definition kException : Z := 3.
Definition kTypeShift : Z := 2.
Definition kTypeMask : Z := 3.
Definition kStage1Size : Z := 261.
Definition kBlockSizeLog2 : Z := 8.
Definition kBlockSize : Z := 1 <<< kBlockSizeLog2.

Definition Convert (ch mapping : Z) : option Z :=
  if IsLatin1 ch then
    info ← arr_get stage2_ ch;
    Some (if info &&& kTypeMask =? mapping then ch + (info >>> kTypeShift) else ch)
  else if ch <=? kStage1Size <<< kBlockSizeLog2 then
    block ← arr_get stage1_ (ch >>> kBlockSizeLog2);
    let offset := swrap 16 (block <<< kBlockSizeLog2) in
    info ← arr_get stage2_ (offset + (ch &&& (kBlockSize - 1)));
    let type := info &&& kTypeMask in
    if type =? mapping then Some (ch + (info >>> kTypeShift))
    else if type =? kException then
      exception ← arr_get stage2_exception_ (info >>> kTypeShift);
      delta ← arr_get exception (mapping - 1);
      Some (ch + delta)
    else Some ch
  else Some ch.
Definition ToUpper (code_point : Z) : option Z := Convert code_point kUppercase.
Definition ToLower (code_point : Z) : option Z := Convert code_point kLowercase.

(** ** The tables by block *)
Definition entry (s r : Z) : option Z := b ← arr_get stage2_blocks s; arr_get b r.
Definition apply_info (ch mapping info : Z) : option Z :=
  let type := info &&& kTypeMask in
  if type =? mapping then Some (ch + (info >>> kTypeShift))
  else if type =? kException then
    exception ← arr_get stage2_exception_ (info >>> kTypeShift);
    delta ← arr_get exception (mapping - 1);
    Some (ch + delta)
  else Some ch.
(** The code points the tables describe: all before [kStage1Size] blocks. *)
Definition kTableEnd : Z := 0x10500.
Definition convert_block (ch mapping : Z) : option Z :=
  if ch <? kTableEnd then
    s ← arr_get stage1_ (ch / 256); info ← entry s (ch mod 256); apply_info ch mapping info
  else Some ch.

Lemma blocks_256 : Forall (fun b => length b = 256%nat) stage2_blocks.
Proof. repeat constructor. Qed.

Lemma stage2_entry s r : 0 <= s < 19 -> 0 <= r < 256 -> arr_get stage2_ (s * 256 + r) = entry s r.
Proof.
  intros Hs Hr. unfold entry. destruct (arr_get_lt stage2_blocks s) as [b Hb]; [exact Hs|]. rewrite Hb.
  cbn [mbind option_bind]. pose proof blocks_256 as Hl. rewrite Forall_forall in Hl.
  unfold arr_get in Hb. zif_in Hb; [|lia].
  assert (Hlb : length b = 256%nat) by (apply Hl; eapply list_elem_of_In, list_elem_of_lookup_2; done).
  destruct (arr_get_lt b r) as [x Hx]; [unfold zlen; lia|]. rewrite Hx.
  unfold arr_get in Hx |- *. zif_in Hx; [|lia]. zif; [|lia].
  apply (join_lookup_Some_same_length 256 stage2_blocks _ _ blocks_256).
  exists (Z.to_nat s), b, (Z.to_nat r). split; [done|]. split; [done|]. lia.
Qed.

Lemma stage1_range h s : arr_get stage1_ h = Some s -> 0 <= s < 19.
Proof.
  assert (H : Forall (fun s => 0 <= s < 19) stage1_)
    by (apply (forallb_Forall (fun s => (0 <=? s) && (s <? 19))); [intros; zbool; lia|done]).
  intros Hs. unfold arr_get in Hs. zif_in Hs; [|done]. rewrite Forall_lookup in H. by eapply H.
Qed.

Lemma entry_defined s r : 0 <= s < 19 -> 0 <= r < 256 -> is_Some (entry s r).
Proof.
  intros Hs Hr. unfold entry. destruct (arr_get_lt stage2_blocks s) as [b Hb]; [exact Hs|]. rewrite Hb.
  unfold arr_get in Hb. zif_in Hb; [|lia]. pose proof blocks_256 as Hl. rewrite Forall_lookup in Hl.
  destruct (arr_get_lt b r) as [x Hx]; [unfold zlen; rewrite (Hl _ _ Hb); lia|]. by exists x.
Qed.

(** No Latin-1 code point has an exception. *)
Lemma latin1_no_exception r info : entry 0 r = Some info -> info &&& kTypeMask <> kException.
Proof.
  unfold entry, arr_get. cbn. assert (H : Forall (fun i => i &&& kTypeMask <> kException) stage2_block0)
    by (apply (forallb_Forall (fun i => negb (i &&& kTypeMask =? kException))); [intros; by zbool|done]).
  rewrite Forall_lookup in H. zif; [apply H|done].
Qed.

Lemma Convert_block ch mapping :
  0 <= ch -> ch <> kTableEnd -> Convert ch mapping = convert_block ch mapping.
Proof.
  unfold kTableEnd. intros Hch Hne. unfold Convert, convert_block, kTableEnd, IsLatin1.
  change (kStage1Size <<< kBlockSizeLog2) with 0x10500. change (kBlockSize - 1) with (2 ^ 8 - 1).
  rewrite land_low by lia. unfold kBlockSizeLog2. rewrite Z.shiftr_div_pow2 by lia. change (2 ^ 8) with 256.
  rewrite Z.geb_leb. destruct (Z.leb_spec 0 ch); [|lia]. cbn [andb].
  destruct (Z.leb_spec ch 0xFF) as [H8|H8].
  - destruct (Z.ltb_spec ch 0x10500); [|lia]. rewrite Z.div_small, Z.mod_small by lia.
    change (arr_get stage1_ 0) with (Some 0). cbn [mbind option_bind].
    rewrite <- (stage2_entry 0 ch) by lia. change (0 * 256 + ch) with ch.
    destruct (arr_get stage2_ ch) as [info|] eqn:E; [|done]. cbn [mbind option_bind].
    rewrite <- (Z.add_0_l ch), <- (Z.mul_0_l 256), stage2_entry in E by lia. apply latin1_no_exception in E.
    unfold apply_info. destruct (info &&& kTypeMask =? mapping); [done|].
    destruct (Z.eqb_spec (info &&& kTypeMask) kException); done.
  - destruct (Z.leb_spec ch 0x10500), (Z.ltb_spec ch 0x10500); try lia; [|done].
    destruct (arr_get stage1_ (ch / 256)) as [s|] eqn:Es; [|done]. cbn [mbind option_bind].
    apply stage1_range in Es. rewrite Z.shiftl_mul_pow2, swrap_id by (unfold is_sint; lia). change (2 ^ 8) with 256.
    rewrite stage2_entry by (try apply Z.mod_pos_bound; lia). done.
Qed.

(** ** Checking every mapped code point *)
Definition surrogate (ch : Z) : bool := (0xD800 <=? ch) && (ch <? 0xE000).
Definition stable (ch mapping : Z) (r : option Z) : bool :=
  match r with
  | Some c =>
      (0 <=? c) && (c <? kTableEnd) && Bool.eqb (c <=? kMaxCodeUnit) (ch <=? kMaxCodeUnit) &&
      ((c =? ch) || negb (surrogate ch) && negb (surrogate c)) &&
      match convert_block c mapping with Some c' => c' =? c | None => false end
  | None => false
  end.
(** An entry without a type maps the code point to itself. *)
Definition entry_ok (ch info : Z) : bool :=
  (info &&& kTypeMask =? 0) ||
  stable ch kUppercase (apply_info ch kUppercase info) && stable ch kLowercase (apply_info ch kLowercase info).
Fixpoint entries_ok (ch : Z) (infos : list Z) : bool :=
  match infos with [] => true | info :: infos => entry_ok ch info && entries_ok (ch + 1) infos end.
Fixpoint tables_ok (ch : Z) (blocks : list Z) : bool :=
  match blocks with
  | [] => true
  | s :: blocks =>
      match arr_get stage2_blocks s with Some b => entries_ok ch b | None => false end && tables_ok (ch + 256) blocks
  end.

Lemma tables_checked : tables_ok 0 stage1_ = true.
Proof. vm_compute. reflexivity. Qed.

Lemma entries_ok_lookup infos ch i info :
  entries_ok ch infos = true -> infos !! i = Some info -> entry_ok (ch + Z.of_nat i) info = true.
Proof.
  revert ch i. induction infos as [|x infos IH]; intros ch i; cbn [entries_ok]; [done|].
  intros [Hx Hl]%andb_true_iff. destruct i as [|i]; cbn.
  - intros [= <-]. by rewrite Z.add_0_r.
  - intros Hi. replace (ch + Z.of_nat (S i)) with (ch + 1 + Z.of_nat i) by lia. by apply IH.
Qed.

Lemma tables_ok_lookup blocks ch h s r info :
  tables_ok ch blocks = true -> blocks !! h = Some s -> entry s r = Some info ->
  entry_ok (ch + 256 * Z.of_nat h + r) info = true.
Proof.
  revert ch h. induction blocks as [|x blocks IH]; intros ch h; cbn [tables_ok]; [done|].
  intros [Hx Hl]%andb_true_iff. destruct h as [|h]; cbn [lookup list_lookup].
  - intros [= ->]. unfold entry. destruct (arr_get stage2_blocks s) as [b|]; [|done]. cbn [mbind option_bind].
    unfold arr_get. zif; [|done]. intros Hi. pose proof (entries_ok_lookup b ch (Z.to_nat r) info Hx Hi) as He.
    by replace (ch + 256 * Z.of_nat 0 + r) with (ch + Z.of_nat (Z.to_nat r)) by lia.
  - intros Hs He. replace (ch + 256 * Z.of_nat (S h) + r) with (ch + 256 + 256 * Z.of_nat h + r) by lia. by eapply IH.
Qed.

(** Every code point the tables describe is mapped to one of the same plane;
    surrogates are not touched; the image is its own image. *)
Lemma convert_block_spec ch mapping :
  0 <= ch < kTableEnd -> mapping = kUppercase \/ mapping = kLowercase ->
  exists c, convert_block ch mapping = Some c /\ stable ch mapping (Some c) = true.
Proof.
  intros Hch Hm.
  assert (Hs : exists s info, arr_get stage1_ (ch / 256) = Some s /\ entry s (ch mod 256) = Some info).
  { destruct (arr_get_lt stage1_ (ch / 256)) as [s Hs].
    { change (zlen stage1_) with 261. unfold kTableEnd in Hch. divlia. }
    destruct (entry_defined s (ch mod 256)) as [info Hi]; [by eapply stage1_range|apply Z.mod_pos_bound; lia|].
    by exists s, info. }
  destruct Hs as (s & info & Hs & Hi).
  assert (Hc : forall m, convert_block ch m = apply_info ch m info).
  { intros m. unfold convert_block. destruct (Z.ltb_spec ch kTableEnd); [|lia]. rewrite Hs. cbn. by rewrite Hi. }
  assert (Hok : entry_ok ch info = true).
  { unfold arr_get in Hs. zif_in Hs; [|done].
    pose proof (tables_ok_lookup _ _ _ _ _ _ tables_checked Hs Hi) as H.
    by replace (0 + 256 * Z.of_nat (Z.to_nat (ch / 256)) + ch mod 256) with ch in H by divlia. }
  rewrite Hc. unfold entry_ok in Hok. apply orb_true_iff in Hok as [H0|Hst].
  - exists ch. zbool. assert (Ha : apply_info ch mapping info = Some ch).
    { unfold apply_info. rewrite H0. by destruct Hm as [-> | ->]. }
    split; [done|]. unfold stable. rewrite Hc, Ha, !Z.eqb_refl, eqb_reflx. unfold kTableEnd in *.
    destruct (Z.leb_spec 0 ch), (Z.ltb_spec ch 0x10500); done || lia.
  - apply andb_true_iff in Hst as [Hu Hl].
    destruct Hm as [-> | ->]; [destruct (apply_info ch kUppercase info) as [c|]|destruct (apply_info ch kLowercase info) as [c|]]; try done; by exists c.
Qed.

Lemma Convert_spec ch mapping :
  valid_code_point ch -> ch <> kTableEnd -> mapping = kUppercase \/ mapping = kLowercase ->
  exists c, Convert ch mapping = Some c /\ valid_code_point c /\ c <> kTableEnd /\
    (c <=? kMaxCodeUnit) = (ch <=? kMaxCodeUnit) /\
    (c = ch \/ surrogate ch = false /\ surrogate c = false) /\
    Convert c mapping = Some c.
Proof.
  unfold valid_code_point, kMaxCodePoint. intros Hch Hne Hm. rewrite Convert_block by lia.
  destruct (Z.lt_ge_cases ch kTableEnd) as [H|H].
  - destruct (convert_block_spec ch mapping) as (c & Hc & Hs); [lia|done|]. exists c. split; [done|].
    unfold stable in Hs. apply andb_true_iff in Hs as [Hs Hi]. apply andb_true_iff in Hs as [Hs Hsur].
    apply andb_true_iff in Hs as [Hr Hp]. unfold kTableEnd in *. zbool. apply eqb_prop in Hp.
    destruct (convert_block c mapping) as [c'|] eqn:Ec; [|done]. apply Z.eqb_eq in Hi. subst c'.
    rewrite Convert_block by (unfold kTableEnd; lia). split; [lia|]. split; [lia|]. split; [done|]. split; [|done].
    destruct Hsur as [?|?]; [left; by zbool|right; by zbool].
  - exists ch. rewrite Convert_block by lia. unfold convert_block. destruct (Z.ltb_spec ch kTableEnd); [lia|].
    split; [done|]. split; [lia|]. split; [done|]. split; [done|]. split; [by left|done].
Qed.

Lemma IsSurrogate_eq ch : valid_code_point ch -> IsSurrogate ch = surrogate ch.
Proof.
  unfold valid_code_point, kMaxCodePoint. intros Hch. unfold IsSurrogate, surrogate.
  rewrite uwrap_id by (unfold is_uint; lia). change 0xFFFFF800 with (2 ^ 32 - 2 ^ 11).
  rewrite clear_low by (unfold is_uint; lia). change (2 ^ 11) with 2048.
  apply eq_true_iff_eq. rewrite andb_true_iff, Z.eqb_eq, Z.leb_le, Z.ltb_lt. divlia.
Qed.

(** [CaseMapping::ToUpper] and [ToLower] read inside their tables for
    every code point except U+10500, for which the comparison
    [ch <= (kStage1Size << kBlockSizeLog2)] lets through the index
    [kStage1Size] of [stage1_], one past its end; elsewhere the result is a
    code point of the same UTF-16 length, surrogates are unchanged, and
    converting twice is converting once. *)
Theorem CaseMapping_defined ch mapping :
  valid_code_point ch -> mapping = kUppercase \/ mapping = kLowercase ->
  (Convert ch mapping = None <-> ch = 0x10500) /\
  (forall c, Convert ch mapping = Some c ->
     valid_code_point c /\ Utf16_Length c = Utf16_Length ch /\
     (IsSurrogate ch = true -> c = ch) /\ Convert c mapping = Some c).
Proof.
  intros Hch Hm. destruct (Z.eq_dec ch kTableEnd) as [->|Hne].
  - assert (Hn : Convert kTableEnd mapping = None) by (destruct Hm as [-> | ->]; reflexivity).
    rewrite Hn. done.
  - destruct (Convert_spec ch mapping Hch Hne Hm) as (c & Hc & Hv & _ & Hl & Hs & Hi). rewrite Hc.
    split; [done|]. intros c' [= <-]. split; [done|]. split; [unfold Utf16_Length; by rewrite Hl|].
    split; [|done]. rewrite IsSurrogate_eq by done. intros Hsur. destruct Hs as [?|[Hs _]]; [done|].
    by rewrite Hsur in Hs.
Qed.
Lemma CaseMapping_defined_witness :
  ToUpper 0xE9 = Some 0xC9 /\ ToLower 0x10400 = Some 0x10428 /\ (Convert 0x10500 kUppercase = None <-> 0x10500 = 0x10500).
Proof.
  split; [reflexivity|]. split; [reflexivity|]. apply (CaseMapping_defined 0x10500 kUppercase); [|by left].
  unfold valid_code_point, kMaxCodePoint. lia.
Defined.

(** ** Strings *)
Section Transform.
(** The mapping of code points and the contents of a new string. *)
Context (mapping : Z -> option Z) (fresh : Z -> list Z).

(** The first loop of [String::Transform]. *)
Fixpoint Transform_scan (fuel : nat) (chars : list Z) (it : CodePointIterator) (has_mapping : bool) (dst_max : Z)
    : option (bool * Z) :=
  match fuel with
  | O => None
  | S n =>
      '(more, it) ← CodePointIterator_Next chars it;
      if (more : bool) then
        let src := cp_ch it in
        dst ← mapping src;
        Transform_scan n chars it (has_mapping || negb (src =? dst)) (Maximum dst_max dst)
      else Some (has_mapping, dst_max)
  end.

(** [OneByteString::Transform]: [chars] is what is left of the string. *)
Fixpoint OneByte_Transform_loop (chars : list Z) (i : Z) (result : list Z) : option (list Z) :=
  match chars with
  | [] => Some result
  | c :: chars =>
      ch ← mapping c;
      result ← arr_set result i (u8 ch);
      OneByte_Transform_loop chars (i + 1) result
  end.
Definition OneByte_Transform (chars : list Z) : option (list Z) :=
  OneByte_Transform_loop chars 0 (fresh (zlen chars)).

(** [TwoByteString::Transform]. *)
Definition store_utf16 (result : list Z) (i dst : Z) : option (list Z) :=
  if Utf16_Length dst =? 1 then arr_set result i (u16 dst)
  else
    match Utf16_Encode dst with
    | [lead; trail] => result ← arr_set result i lead; arr_set result (i + 1) trail
    | _ => None
    end.
Fixpoint TwoByte_Transform_loop (fuel : nat) (chars : list Z) (it : CodePointIterator) (i : Z) (result : list Z)
    : option (list Z) :=
  match fuel with
  | O => None
  | S n =>
      '(more, it) ← CodePointIterator_Next chars it;
      if (more : bool) then
        dst ← mapping (cp_ch it);
        result ← store_utf16 result i dst;
        TwoByte_Transform_loop n chars it (i + Utf16_Length dst) result
      else Some result
  end.
Definition TwoByte_Transform (chars : list Z) : option (list Z) :=
  TwoByte_Transform_loop (S (length chars)) chars CodePointIterator_new 0 (fresh (zlen chars)).

Definition String_Transform (str : DartString) : option DartString :=
  let chars := string_units str in
  '(has_mapping, dst_max) ← Transform_scan (S (length chars)) chars CodePointIterator_new false 0;
  if negb (has_mapping : bool) then Some str
  else if IsLatin1 dst_max then r ← OneByte_Transform chars; Some (OneByteString r)
  else r ← TwoByte_Transform chars; Some (TwoByteString r).
End Transform.
Definition ToUpperCase (fresh : Z -> list Z) : DartString -> option DartString := String_Transform ToUpper fresh.
Definition ToLowerCase (fresh : Z -> list Z) : DartString -> option DartString := String_Transform ToLower fresh.

(** A new string has the requested length; its contents are not specified. *)
Class NewString (fresh : Z -> list Z) : Prop := fresh_length n : 0 <= n -> zlen (fresh n) = n.

(** ** Writing the new string *)
Lemma arr_set_next {A} (out : list A) x rest v :
  arr_set (out ++ x :: rest) (zlen out) v = Some ((out ++ [v]) ++ rest).
Proof.
  apply arr_set_Some. split; [rewrite zlen_app; unfold zlen; simpl; lia|].
  unfold zlen. rewrite Nat2Z.id, <- app_assoc. symmetry. by rewrite insert_app_r_alt, Nat.sub_diag by lia.
Qed.

Lemma store_utf16_spec out ch rest :
  valid_code_point ch -> Utf16_Length ch <= zlen rest ->
  exists rest', store_utf16 (out ++ rest) (zlen out) ch = Some ((out ++ utf16 ch) ++ rest') /\
    zlen rest' = zlen rest - Utf16_Length ch.
Proof.
  unfold valid_code_point, kMaxCodePoint. intros Hch Hlen. unfold store_utf16.
  unfold Utf16_Length, utf16 in *. unfold kMaxCodeUnit in *. destruct (Z.leb_spec ch 0xFFFF); cbn [Z.eqb].
  - destruct rest as [|x rest]; [unfold zlen in Hlen; simpl in Hlen; lia|]. exists rest.
    rewrite uwrap_id, arr_set_next by (unfold is_uint; lia). split; [done|]. unfold zlen. simpl. lia.
  - destruct rest as [|x [|y rest]]; [unfold zlen in Hlen; simpl in Hlen; lia..|]. exists rest.
    change (Pos.eqb 2 1) with false. cbn match. unfold Utf16_Encode. set (b := u16 _). set (a := u16 _).
    rewrite arr_set_next. cbn [mbind option_bind].
    replace (zlen out + 1) with (zlen (out ++ [a])) by (rewrite zlen_app; done).
    rewrite arr_set_next, <- (app_assoc out [a] [b]). split; [done|]. unfold zlen. simpl. lia.
Qed.

(** ** Surrogates stay apart *)
Definition lead (ch : Z) : bool := (0xD800 <=? ch) && (ch <? 0xDC00).
Definition trail_unit (ch : Z) : bool := (0xDC00 <=? ch) && (ch <? 0xE000).
Fixpoint unpaired (cps : list Z) : bool :=
  match cps with
  | a :: ((b :: _) as r) => negb (lead a && trail_unit b) && unpaired r
  | _ => true
  end.

Lemma code_points_cons2 c c2 l : code_points (c :: c2 :: l) =
  if IsLeadSurrogate c && IsTrailSurrogate c2 then Utf16_Decode c c2 :: code_points l else c :: code_points (c2 :: l).
Proof. done. Qed.

Lemma code_points_unpaired l : Forall is_code_unit l -> unpaired (code_points l) = true.
Proof.
  assert (Hd : forall c c2, is_code_unit c -> is_code_unit c2 -> IsLeadSurrogate c = true -> IsTrailSurrogate c2 = true ->
    0xFFFF < Utf16_Decode c c2) by (intros; by apply Utf16_Encode_Decode).
  assert (Hbig : forall x cps, 0xFFFF < x -> unpaired cps = true -> unpaired (x :: cps) = true).
  { intros x [|b cps] Hx Hc; [done|]. cbn [unpaired]. apply andb_true_iff. split; [|done].
    unfold lead. destruct (Z.ltb_spec x 0xDC00); [lia|]. by rewrite andb_false_r. }
  induction l as [|c|c c2 l IH1 IH2] using pair_induction; intros Hl; [done..|].
  assert (Hl' := Hl). apply Forall_cons_1 in Hl' as [Hc Hl']. assert (Hl2 := Hl'). apply Forall_cons_1 in Hl2 as [Hc2 Hl2].
  rewrite code_points_cons2. destruct (IsLeadSurrogate c && IsTrailSurrogate c2) eqn:E.
  - zbool. apply Hbig; [by apply Hd|by apply IH2].
  - specialize (IH1 Hl'). rewrite IsLeadSurrogate_eq, IsTrailSurrogate_eq in E by done.
    destruct (code_points (c2 :: l)) as [|b cps] eqn:Ecp; [done|].
    change (unpaired (c :: b :: cps)) with (negb (lead c && trail_unit b) && unpaired (b :: cps)).
    rewrite IH1, andb_true_r. apply negb_true_iff. unfold lead, trail_unit.
    assert (Hb : b = c2 \/ 0xFFFF < b).
    { destruct l as [|c3 l]; [injection Ecp as <- _; by left|]. rewrite code_points_cons2 in Ecp.
      destruct (IsLeadSurrogate c2 && IsTrailSurrogate c3) eqn:E2; injection Ecp as <- _; [right|by left].
      zbool. apply Forall_cons_1 in Hl2 as [? _]. by apply Hd. }
    destruct Hb as [->|Hb]; [done|]. destruct (Z.ltb_spec b 0xE000); [lia|]. by rewrite !andb_false_r.
Qed.

Lemma code_points_utf16 cps :
  Forall valid_code_point cps -> unpaired cps = true -> code_points (mjoin (utf16 <$> cps)) = cps.
Proof.
  induction 1 as [|a cps Ha Hcps IH]; [done|]. intros Hu.
  assert (Hu' : unpaired cps = true) by (destruct cps; [done|]; cbn [unpaired] in Hu; by apply andb_true_iff in Hu as [_ ?]).
  change (mjoin (utf16 <$> a :: cps)) with (utf16 a ++ mjoin (utf16 <$> cps)). specialize (IH Hu').
  unfold utf16 at 1. unfold kMaxCodeUnit, valid_code_point in *. destruct (Z.leb_spec a 0xFFFF).
  - destruct cps as [|b cps]; [done|]. cbn [app].
    assert (Hb : exists b0 r, mjoin (utf16 <$> b :: cps) = b0 :: r /\ is_code_unit b0 /\ (b0 = b \/ trail_unit b0 = false)).
    { change (mjoin (utf16 <$> b :: cps)) with (utf16 b ++ mjoin (utf16 <$> cps)).
      apply Forall_cons_1 in Hcps as [Hb _]. unfold kMaxCodePoint in Hb.
      unfold utf16 at 1. unfold kMaxCodeUnit. destruct (Z.leb_spec b 0xFFFF).
      - eexists _, _. split; [reflexivity|]. unfold is_code_unit. split; [lia|by left].
      - rewrite Utf16_Encode_eq by (unfold kMaxCodePoint; lia). eexists _, _. split; [reflexivity|].
        unfold is_code_unit, trail_unit. split; [divlia|]. right. apply andb_false_iff. divlia. }
    destruct Hb as (b0 & r & Heq & Hb0 & Hor). rewrite Heq in *.
    rewrite code_points_cons2, IH, IsLeadSurrogate_eq, IsTrailSurrogate_eq by (done || (unfold is_code_unit; lia)).
    cbn [unpaired] in Hu. apply andb_true_iff in Hu as [Hp _].
    fold (lead a). fold (trail_unit b0). destruct (lead a && trail_unit b0) eqn:E; [|done].
    destruct Hor as [->|Hor]; [by rewrite E in Hp|]. by rewrite Hor, andb_false_r in E.
  - rewrite Utf16_Encode_eq by lia. unfold kMaxCodePoint in Ha. cbn [app code_points].
    rewrite IsLeadSurrogate_eq, IsTrailSurrogate_eq by (unfold is_code_unit; divlia).
    rewrite !(proj2 (andb_true_iff _ _)) by divlia. cbn [andb].
    rewrite IH, Utf16_Decode_eq by (unfold is_code_unit; divlia). f_equal. divlia.
Qed.

(** ** The loops *)
Section TransformSpec.
Context (mapping : Z -> option Z) (fresh : Z -> list Z).
Definition maps (src dst : Z) : Prop := mapping src = Some dst.

Lemma Transform_scan_spec fuel chars it pos l cps' has mx :
  Forall is_code_unit chars -> pos = cp_index it + Utf16_Length (cp_ch it) -> 0 <= pos -> drop (Z.to_nat pos) chars = l ->
  (length (code_points l) < fuel)%nat -> Forall2 maps (code_points l) cps' ->
  exists has' mx', Transform_scan mapping fuel chars it has mx = Some (has', mx') /\
    (has' = false -> has = false /\ code_points l = cps') /\
    (has = false -> code_points l = cps' -> has' = false) /\
    mx <= mx' /\ Forall (fun c => c <= mx') cps'.
Proof using.
  intros Hu. revert it pos l cps' has mx. induction fuel as [|fuel IH]; intros it pos l cps' has mx Hpos H0 Hd Hf HF; [lia|].
  pose proof (Next_step chars it pos l Hu Hpos H0 Hd) as Hn. cbn [Transform_scan].
  inversion HF as [Hnil|ch dst cps cps1 Hm HF1 Hcp]; subst cps'.
  - rewrite <- Hnil in Hn. destruct Hn as [it' ->]. exists has, mx.
    split; [done|]. split; [done|]. split; [done|]. split; [lia|constructor].
  - rewrite <- Hcp in Hn, Hf. destruct Hn as [-> (l' & Hl' & Hd')]. cbn [mbind option_bind cp_ch]. rewrite Hm. cbn [mbind option_bind].
    destruct (IH (MkCodePoints ch pos) (pos + Utf16_Length ch) l' cps1 (has || negb (ch =? dst)) (Maximum mx dst))
      as (has' & mx' & He & Ht & Hb & Hle & HFm); try done.
    + unfold Utf16_Length. zif; lia.
    + rewrite Hl'. simpl in Hf. lia.
    + by rewrite Hl'.
    + rewrite Maximum_eq in Hle. exists has', mx'. split; [done|]. split; [|split; [|split; [lia|constructor; [lia|done]]]].
      * intros Hh. destruct (Ht Hh) as [Ho Hc]. zbool. split; [done|]. by rewrite <- Hl', Hc, H1.
      * intros -> [= -> Hc]. apply Hb; [by rewrite Z.eqb_refl|by rewrite Hl'].
Qed.

Lemma OneByte_Transform_spec chars cps' out rest :
  Forall2 maps chars cps' -> Forall is_byte cps' -> zlen rest = zlen chars ->
  OneByte_Transform_loop mapping chars (zlen out) (out ++ rest) = Some (out ++ cps').
Proof using.
  intros HF. revert out rest. induction HF as [|c c' chars cps' Hm HF IH]; intros out rest Hb Hlen; cbn [OneByte_Transform_loop].
  - destruct rest; [done|]. unfold zlen in Hlen. simpl in Hlen. lia.
  - destruct rest as [|x rest]; [unfold zlen in Hlen; simpl in Hlen; lia|]. unfold maps in Hm. rewrite Hm. cbn [mbind option_bind].
    apply Forall_cons_1 in Hb as [Hc Hb].
    rewrite uwrap_id, arr_set_next by (unfold is_byte, is_uint in *; lia). cbn [mbind option_bind].
    replace (zlen out + 1) with (zlen (out ++ [c'])) by (rewrite zlen_app; done).
    rewrite IH; [by rewrite <- app_assoc|done|]. unfold zlen in *. simpl in Hlen. lia.
Qed.

Lemma zlen_utf16 ch : zlen (utf16 ch) = Utf16_Length ch.
Proof using. unfold utf16, Utf16_Length. by destruct (ch <=? kMaxCodeUnit). Qed.

Lemma TwoByte_Transform_spec fuel chars it pos l cps' out rest :
  Forall is_code_unit chars -> pos = cp_index it + Utf16_Length (cp_ch it) -> 0 <= pos -> drop (Z.to_nat pos) chars = l ->
  (length (code_points l) < fuel)%nat -> Forall2 maps (code_points l) cps' -> Forall valid_code_point cps' ->
  zlen rest = zlen (mjoin (utf16 <$> cps')) ->
  TwoByte_Transform_loop mapping fuel chars it (zlen out) (out ++ rest) = Some (out ++ mjoin (utf16 <$> cps')).
Proof using.
  intros Hu. revert it pos l cps' out rest.
  induction fuel as [|fuel IH]; intros it pos l cps' out rest Hpos H0 Hd Hf HF Hv Hlen; [lia|].
  pose proof (Next_step chars it pos l Hu Hpos H0 Hd) as Hn. cbn [TwoByte_Transform_loop].
  inversion HF as [Hnil|ch dst cps cps1 Hm HF1 Hcp]; subst cps'.
  - rewrite <- Hnil in Hn. destruct Hn as [it' ->]. destruct rest; [done|]. unfold zlen in Hlen. simpl in Hlen. lia.
  - rewrite <- Hcp in Hn, Hf. destruct Hn as [-> (l' & Hl' & Hd')]. cbn [mbind option_bind cp_ch].
    unfold maps in Hm. rewrite Hm. cbn [mbind option_bind]. apply Forall_cons_1 in Hv as [Hdst Hv].
    change (mjoin (utf16 <$> dst :: cps1)) with (utf16 dst ++ mjoin (utf16 <$> cps1)) in *.
    rewrite zlen_app, zlen_utf16 in Hlen. pose proof (zlen_nonneg (mjoin (utf16 <$> cps1))).
    destruct (store_utf16_spec out dst rest Hdst) as (rest' & -> & Hrest); [lia|]. cbn [mbind option_bind].
    rewrite <- (zlen_utf16 dst), <- zlen_app.
    rewrite (IH (MkCodePoints ch pos) (pos + Utf16_Length ch) l' cps1); try done.
    + by rewrite <- app_assoc.
    + unfold Utf16_Length. zif; lia.
    + rewrite Hl'. simpl in Hf. lia.
    + by rewrite Hl'.
    + lia.
Qed.
End TransformSpec.

(** ** The conversion of a string *)
Section Case.
Context (m : Z) (Hm : m = kUppercase \/ m = kLowercase).
Abbreviation mapping := (fun ch => Convert ch m).

(** What a converted code point keeps. *)
Definition keeps (c c' : Z) : Prop :=
  Convert c m = Some c' /\ valid_code_point c' /\ c' <> kTableEnd /\
  (c' <=? kMaxCodeUnit) = (c <=? kMaxCodeUnit) /\
  (c' = c \/ surrogate c = false /\ surrogate c' = false) /\ Convert c' m = Some c'.

Lemma convert_all cps :
  Forall valid_code_point cps -> Forall (fun c => c <> kTableEnd) cps -> exists cps', Forall2 keeps cps cps'.
Proof using Hm.
  intros Hv. induction Hv as [|c cps Hc _ IH]; intros Hne; [by exists []|].
  apply Forall_cons_1 in Hne as [Hn Hne]. destruct (IH Hne) as [cps' HF].
  destruct (Convert_spec c m Hc Hn Hm) as (c' & ?). exists (c' :: cps'). by constructor.
Qed.

Lemma keeps_surrogates c c' : keeps c c' -> lead c' = lead c /\ trail_unit c' = trail_unit c.
Proof using.
  intros (_ & _ & _ & _ & Hs & _). destruct Hs as [->|[Hs Hs']]; [done|].
  assert (H : forall x, surrogate x = false -> lead x = false /\ trail_unit x = false).
  { intros x. unfold surrogate, lead, trail_unit. intros Hx. zbool. split; apply andb_false_iff; lia. }
  destruct (H _ Hs) as [-> ->], (H _ Hs') as [-> ->]. done.
Qed.

Lemma unpaired_keeps cps cps' : Forall2 keeps cps cps' -> unpaired cps = true -> unpaired cps' = true.
Proof using.
  induction 1 as [|c c' cps cps' Hk HF IH]; [done|]. intros Hu.
  destruct HF as [|d d' cps cps' Hk2 HF]; [done|].
  change (unpaired (c :: d :: cps)) with (negb (lead c && trail_unit d) && unpaired (d :: cps)) in Hu.
  change (unpaired (c' :: d' :: cps')) with (negb (lead c' && trail_unit d') && unpaired (d' :: cps')).
  apply andb_true_iff in Hu as [Hp Hu]. destruct (keeps_surrogates _ _ Hk) as [-> _], (keeps_surrogates _ _ Hk2) as [_ ->].
  by rewrite Hp, IH.
Qed.

Lemma keeps_length cps cps' : Forall2 keeps cps cps' -> zlen (mjoin (utf16 <$> cps')) = zlen (mjoin (utf16 <$> cps)).
Proof using.
  induction 1 as [|c c' cps cps' (_ & _ & _ & Hl & _) HF IH]; [done|].
  change (zlen (utf16 c' ++ mjoin (utf16 <$> cps')) = zlen (utf16 c ++ mjoin (utf16 <$> cps))).
  rewrite !zlen_app, !zlen_utf16, IH. unfold Utf16_Length. by rewrite Hl.
Qed.

Lemma string_code_points_eq str : wf_string str ->
  string_code_points str = code_points (string_units str) /\ Forall is_code_unit (string_units str).
Proof using.
  destruct str as [chars|chars]; cbn [wf_string string_code_points string_units]; intros H; [|done].
  assert (Hu : Forall is_code_unit chars)
    by (eapply Forall_impl; [|exact H]; unfold is_byte, is_code_unit; intros; lia).
  split; [|done]. clear Hu.
  induction chars as [|c|c c2 l IH1 IH2] using pair_induction; [done..|].
  apply Forall_cons_1 in H as [Hc H]. rewrite code_points_cons2, <- IH1 by done.
  rewrite IsLeadSurrogate_eq by (unfold is_byte, is_code_unit in *; lia). unfold is_byte in Hc.
  destruct (Z.leb_spec 0xD800 c); [lia|done].
Qed.
Lemma keeps_maps cps cps' : Forall2 keeps cps cps' ->
  Forall2 (maps mapping) cps cps' /\ Forall2 (maps mapping) cps' cps' /\ Forall valid_code_point cps'.
Proof using.
  induction 1 as [|c c' cps cps' (Hc & Hv & _ & _ & _ & Hi) HF (IH1 & IH2 & IH3)]; [by repeat split|].
  repeat split; by constructor.
Qed.

Lemma scan_string str cps' : wf_string str -> Forall2 (maps mapping) (string_code_points str) cps' ->
  exists has mx, Transform_scan mapping (S (length (string_units str))) (string_units str) CodePointIterator_new false 0 =
    Some (has, mx) /\ (has = false <-> string_code_points str = cps') /\ 0 <= mx /\ Forall (fun c => c <= mx) cps'.
Proof using.
  intros Hwf HF. destruct (string_code_points_eq str Hwf) as [Heq Hu]. rewrite Heq in *.
  destruct (Transform_scan_spec mapping (S (length (string_units str))) (string_units str) CodePointIterator_new 0
    (string_units str) cps' false 0) as (has & mx & He & Ht & Hb & Hle & HFm); try done.
  - pose proof (code_points_length (string_units str)). lia.
  - exists has, mx. split; [done|]. split; [|done]. split; [intros H; by apply Ht|by apply Hb].
Qed.

(** A string whose code points are their own images is returned as it is. *)
Lemma Transform_fixed fresh str : wf_string str -> Forall2 (maps mapping) (string_code_points str) (string_code_points str) ->
  String_Transform mapping fresh str = Some str.
Proof using.
  intros Hwf HF. destruct (scan_string str _ Hwf HF) as (has & mx & He & Hh & _). unfold String_Transform.
  rewrite He. cbn [mbind option_bind]. by rewrite (proj2 Hh eq_refl).
Qed.

(** Code points of which all images are Latin-1 are code units. *)
Lemma units_latin1 cps cps' : Forall2 keeps cps cps' -> Forall is_byte cps' -> mjoin (utf16 <$> cps) = cps.
Proof using.
  induction 1 as [|c c' cps cps' (_ & _ & _ & Hl & _) HF IH]; [done|]. intros Hb. apply Forall_cons_1 in Hb as [Hc Hb].
  change (utf16 c ++ mjoin (utf16 <$> cps) = [c] ++ cps). rewrite IH by done. f_equal.
  unfold utf16. rewrite <- Hl. unfold is_byte, kMaxCodeUnit in *. destruct (Z.leb_spec c' 0xFFFF); [done|lia].
Qed.

Lemma Transform_spec fresh `{!NewString fresh} str :
  wf_string str -> Forall (fun c => c <> kTableEnd) (string_code_points str) ->
  exists str', String_Transform mapping fresh str = Some str' /\ wf_string str' /\
    Forall2 keeps (string_code_points str) (string_code_points str') /\
    zlen (string_units str') = zlen (string_units str).
Proof using Hm.
  intros Hwf Hne. destruct (string_valid str Hwf) as [Hv Hunits].
  destruct (convert_all _ Hv Hne) as [cps' HF]. destruct (keeps_maps _ _ HF) as (HFm & _ & Hv').
  destruct (scan_string str cps' Hwf HFm) as (has & mx & He & Hh & Hmx & HFmx).
  destruct (string_code_points_eq str Hwf) as [Heq Hu].
  unfold String_Transform. rewrite He. cbn [mbind option_bind]. destruct has; cbn [negb].
  2: { rewrite <- (proj1 Hh eq_refl) in HF. by exists str. }
  pose proof (fresh_length (zlen (string_units str)) (zlen_nonneg _)) as Hfresh.
  pose proof (keeps_length _ _ HF) as Hlen. rewrite Hunits in Hlen. unfold IsLatin1.
  destruct ((mx >=? 0) && (mx <=? 255)) eqn:El.
  - assert (Hb : Forall is_byte cps').
    { apply Forall_forall. intros c Hc. rewrite Forall_forall in HFmx, Hv'. specialize (HFmx c Hc). specialize (Hv' c Hc).
      unfold is_byte, valid_code_point in *. zbool. lia. }
    assert (Hcu : string_units str = string_code_points str) by (rewrite <- Hunits; by apply (units_latin1 _ cps')).
    unfold OneByte_Transform. rewrite <- Hcu in HFm.
    pose proof (OneByte_Transform_spec mapping (string_units str) cps' [] _ HFm Hb Hfresh) as Ho.
    rewrite !app_nil_l in Ho. change (zlen []) with 0 in Ho. rewrite Ho. cbn [mbind option_bind].
    exists (OneByteString cps'). split; [done|]. split; [done|]. split; [done|].
    rewrite Hcu. unfold zlen. f_equal. symmetry. by eapply Forall2_length.
  - assert (Hcu : Forall is_code_unit (mjoin (utf16 <$> cps'))).
    { clear -Hv'. induction Hv' as [|c cps' Hc _ IH]; [constructor|].
      change (Forall is_code_unit (utf16 c ++ mjoin (utf16 <$> cps'))). apply Forall_app. split; [|done].
      unfold utf16, kMaxCodeUnit, valid_code_point, kMaxCodePoint in *. zif; [repeat constructor; unfold is_code_unit; lia|].
      rewrite Utf16_Encode_eq by (unfold kMaxCodePoint; lia). repeat constructor; unfold is_code_unit; divlia. }
    rewrite Heq in HFm.
    pose proof (TwoByte_Transform_spec mapping (S (length (string_units str))) (string_units str) CodePointIterator_new 0
      (string_units str) cps' [] (fresh (zlen (string_units str)))) as Ht.
    unfold TwoByte_Transform. change (zlen []) with 0 in Ht. rewrite app_nil_l in Ht. rewrite Ht; try done.
    + cbn [mbind option_bind]. exists (TwoByteString (mjoin (utf16 <$> cps'))). cbn [wf_string string_code_points string_units].
      rewrite code_points_utf16; [done|done|]. eapply unpaired_keeps; [exact HF|]. rewrite Heq. by apply code_points_unpaired.
    + pose proof (code_points_length (string_units str)). lia.
    + by rewrite Hfresh, Hlen.
Qed.
End Case.

(** [String::ToUpperCase] and [ToLowerCase] are the code-point-wise
    conversion: for a string without U+10500 they return a string of the same
    length whose code points are the conversions of the original's, one-byte
    or two-byte as the result needs, whatever the new string contained; and
    converting the result again returns it unchanged. *)
Theorem String_case_conversion m fresh `{!NewString fresh} str :
  m = kUppercase \/ m = kLowercase -> wf_string str ->
  Forall (fun c => c <> 0x10500) (string_code_points str) ->
  exists str', String_Transform (fun ch => Convert ch m) fresh str = Some str' /\ wf_string str' /\
    Forall2 (fun c c' => Convert c m = Some c') (string_code_points str) (string_code_points str') /\
    zlen (string_units str') = zlen (string_units str) /\
    String_Transform (fun ch => Convert ch m) fresh str' = Some str'.
Proof.
  intros Hm Hwf Hne. destruct (Transform_spec m Hm fresh str Hwf Hne) as (str' & Ht & Hwf' & HF & Hlen).
  exists str'. split; [done|]. split; [done|]. destruct (keeps_maps m _ _ HF) as (HF1 & HF2 & _).
  split; [exact HF1|]. split; [done|]. by apply Transform_fixed.
Qed.
Definition zero_string (n : Z) : list Z := replicate (Z.to_nat n) 0.
#[export] Instance zero_string_ok : NewString zero_string.
Proof. intros n Hn. unfold zlen, zero_string. rewrite length_replicate. lia. Qed.
(** U+00FF needs two bytes in upper case. *)
Lemma String_case_conversion_witness :
  ToUpperCase zero_string (OneByteString [0x61; 0xFF]) = Some (TwoByteString [0x41; 0x178]) /\
  exists str', String_Transform (fun ch => Convert ch kUppercase) zero_string (OneByteString [0x61; 0xFF]) = Some str' /\
    wf_string str' /\
    Forall2 (fun c c' => Convert c kUppercase = Some c') [0x61; 0xFF] (string_code_points str') /\
    zlen (string_units str') = 2 /\
    String_Transform (fun ch => Convert ch kUppercase) zero_string str' = Some str'.
Proof.
  split; [reflexivity|]. apply (String_case_conversion kUppercase zero_string (OneByteString [0x61; 0xFF])).
  - by left.
  - repeat constructor; unfold is_byte; lia.
  - repeat constructor; lia.
Defined.
