(* ===== verification/Bitmap.v ===== *)
(** * Growable bitmaps (src/runtime/vm/bitmap.{h,cc})

    [BitmapBuilder], with which the compiler describes the tagged slots of a
    frame. Bits between the end of the backing store and [length_] are
    implicitly false. [None] is [FATAL] or an access outside the backing
    store. *)
From S2P Require Import Prelude Utils.
Local Open Scope Z_scope.
Local Open Scope vm_scope.

(** ** Definitions *)
Record BitmapBuilder := MkBitmap { bm_length : Z; bm_data : list Z }.
Definition kInitialSizeInBytes : Z := 16.
Definition kIncrementSizeInBytes : Z := 16.

Definition BitmapBuilder_new : BitmapBuilder := MkBitmap 0 (replicate (Z.to_nat kInitialSizeInBytes) 0).

Definition InRange (st : BitmapBuilder) (offset : Z) : option bool :=
  if offset <? 0 then None else Some (offset <? bm_length st).

Definition bit_mask (bit_offset : Z) : Z := u8 (1 <<< (bit_offset &&& (kBitsPerByte - 1))).

Definition GetBit (st : BitmapBuilder) (bit_offset : Z) : option bool :=
  in_range ← InRange st bit_offset;
  if negb (in_range : bool) then Some false
  else
    byte ← arr_get (bm_data st) (bit_offset >>> kBitsPerByteLog2);
    Some (negb (byte &&& bit_mask bit_offset =? 0)).

Definition Get (st : BitmapBuilder) (bit_offset : Z) : option bool :=
  in_range ← InRange st bit_offset;
  if negb (in_range : bool) then Some false
  else if bit_offset >>> kBitsPerByteLog2 <? zlen (bm_data st) then GetBit st bit_offset
  else Some false.

Definition SetBit (st : BitmapBuilder) (bit_offset : Z) (value : bool) : option BitmapBuilder :=
  in_range ← InRange st bit_offset;
  if negb (in_range : bool) then None
  else
    let byte_offset := bit_offset >>> kBitsPerByteLog2 in
    byte ← arr_get (bm_data st) byte_offset;
    data ← arr_set (bm_data st) byte_offset
             (u8 (if value then byte ||| bit_mask bit_offset else byte &&& Z.lnot (bit_mask bit_offset)));
    Some (MkBitmap (bm_length st) data).

(** The new backing store: the old bytes, then zeros. *)
Definition grow (data : list Z) (byte_offset : Z) : list Z :=
  if byte_offset >=? zlen data then
    data ++ replicate (Z.to_nat (RoundUp (byte_offset + 1) kIncrementSizeInBytes - zlen data)) 0
  else data.
Definition Set_ (st : BitmapBuilder) (bit_offset : Z) (value : bool) : option BitmapBuilder :=
  in_range ← InRange st bit_offset;
  if negb (in_range : bool) then
    if negb value then Some (MkBitmap (bit_offset + 1) (bm_data st))
    else
      SetBit (MkBitmap (bit_offset + 1) (grow (bm_data st) (bit_offset >>> kBitsPerByteLog2))) bit_offset value
  else SetBit st bit_offset value.

Definition SetLength (st : BitmapBuilder) (new_length : Z) : option BitmapBuilder :=
  if new_length <? bm_length st then
    let byte_offset := new_length >>> kBitsPerByteLog2 in
    if byte_offset <? zlen (bm_data st) then
      let mask := (1 <<< (new_length &&& (kBitsPerByte - 1))) - 1 in
      byte ← arr_get (bm_data st) byte_offset;
      data ← arr_set (bm_data st) byte_offset (byte &&& mask);
      let kept := byte_offset + 1 in
      Some (MkBitmap new_length
              (if kept <? zlen data
               then take (Z.to_nat kept) data ++ replicate (Z.to_nat (zlen data - kept)) 0 else data))
    else Some (MkBitmap new_length (bm_data st))
  else Some (MkBitmap new_length (bm_data st)).

(** [n] bits from [min] on. *)
Fixpoint SetRange_loop (n : nat) (st : BitmapBuilder) (i : Z) (value : bool) : option BitmapBuilder :=
  match n with
  | O => Some st
  | S n => st ← Set_ st i value; SetRange_loop n st (i + 1) value
  end.
Definition SetRange (st : BitmapBuilder) (min max : Z) (value : bool) : option BitmapBuilder :=
  SetRange_loop (Z.to_nat (max - min + 1)) st min value.

(** ** The bits of the backing store *)
Definition bit (data : list Z) (i : Z) : bool :=
  match arr_get data (i / 8) with Some b => Z.testbit b (i mod 8) | None => false end.
(** The invariant: bytes, and no bit set from [length_] on. *)
Definition wf_bitmap (st : BitmapBuilder) : Prop :=
  0 <= bm_length st <= 2 ^ 62 /\ Forall (is_uint 8) (bm_data st) /\
  (forall i, bm_length st <= i -> bit (bm_data st) i = false).
(** The bitmap as a function. *)
Definition contents (st : BitmapBuilder) (i : Z) : bool := (0 <=? i) && bit (bm_data st) i.

Lemma shift_byte i : i >>> kBitsPerByteLog2 = i / 8.
Proof. unfold kBitsPerByteLog2. rewrite Z.shiftr_div_pow2 by lia. done. Qed.
Lemma mod_byte i : i &&& (kBitsPerByte - 1) = i mod 8.
Proof. unfold kBitsPerByte. change (8 - 1) with (2 ^ 3 - 1). by rewrite land_low by lia. Qed.
Lemma bit_mask_eq i : bit_mask i = 2 ^ (i mod 8).
Proof.
  unfold bit_mask. rewrite mod_byte, Z.shiftl_1_l. pose proof (Z.mod_pos_bound i 8 ltac:(lia)). apply uwrap_id.
  unfold is_uint. split; [lia|]. apply Z.pow_lt_mono_r; lia.
Qed.

Lemma get_bit_test b k : 0 <= k -> negb (b &&& 2 ^ k =? 0) = Z.testbit b k.
Proof.
  intros Hk. destruct (Z.testbit b k) eqn:E.
  - apply negb_true_iff, Z.eqb_neq. intros H. apply (f_equal (fun x => Z.testbit x k)) in H.
    by rewrite Z.land_spec, E, Z.pow2_bits_true, Z.bits_0 in H by lia.
  - apply negb_false_iff, Z.eqb_eq, Z.bits_inj'. intros j Hj. rewrite Z.land_spec, Z.bits_0.
    destruct (Z.eq_dec j k) as [->|Hne]; [by rewrite E|]. by rewrite Z.pow2_bits_false, andb_false_r by lia.
Qed.

Lemma set_bit_test b k (v : bool) m : is_uint 8 b -> 0 <= k < 8 -> 0 <= m ->
  Z.testbit (u8 (if v then b ||| 2 ^ k else b &&& Z.lnot (2 ^ k))) m = if m =? k then v else Z.testbit b m.
Proof.
  intros Hb Hk Hm. rewrite testbit_uwrap by lia.
  destruct (Z.ltb_spec m 8); cbn [andb].
  - destruct (Z.eqb_spec m k) as [->|Hne]; destruct v.
    + by rewrite Z.lor_spec, Z.pow2_bits_true, orb_true_r by lia.
    + by rewrite Z.land_spec, Z.lnot_spec, Z.pow2_bits_true, andb_false_r by lia.
    + by rewrite Z.lor_spec, Z.pow2_bits_false, orb_false_r by lia.
    + by rewrite Z.land_spec, Z.lnot_spec, Z.pow2_bits_false, andb_true_r by lia.
  - destruct (Z.eqb_spec m k); [lia|]. by rewrite (testbit_small 8 b) by (done || lia).
Qed.

Lemma bit_index i j : i / 8 = j / 8 -> i mod 8 = j mod 8 -> i = j.
Proof. intros H1 H2. rewrite (Z.div_mod i 8), (Z.div_mod j 8) by lia. lia. Qed.

Lemma arr_set_byte data k b data' :
  Forall (is_uint 8) data -> is_uint 8 b -> arr_set data k b = Some data' -> Forall (is_uint 8) data'.
Proof. intros Hd Hb [_ ->]%arr_set_Some. by apply Forall_insert. Qed.

Lemma Get_spec st i : 0 <= i -> Get st i = Some ((i <? bm_length st) && bit (bm_data st) i).
Proof.
  intros Hi. unfold Get, GetBit, InRange. rewrite shift_byte, bit_mask_eq.
  destruct (Z.ltb_spec i 0); [lia|]. cbn [mbind option_bind].
  destruct (i <? bm_length st); cbn [negb andb]; [|done]. unfold bit.
  pose proof (Z.div_pos i 8 Hi ltac:(lia)). destruct (Z.ltb_spec (i / 8) (zlen (bm_data st))) as [Hlt|Hge].
  - destruct (arr_get_lt (bm_data st) (i / 8)) as [b ->]; [lia|]. cbn [mbind option_bind].
    rewrite get_bit_test by (apply Z.mod_pos_bound; lia). done.
  - by rewrite (proj2 (arr_get_None (bm_data st) (i / 8))) by lia.
Qed.

Lemma SetBit_spec st i v :
  Forall (is_uint 8) (bm_data st) -> 0 <= i < bm_length st ->
  (i / 8 < zlen (bm_data st) -> exists st', SetBit st i v = Some st' /\ bm_length st' = bm_length st /\
     zlen (bm_data st') = zlen (bm_data st) /\ Forall (is_uint 8) (bm_data st') /\
     forall j, 0 <= j -> bit (bm_data st') j = if j =? i then v else bit (bm_data st) j) /\
  (zlen (bm_data st) <= i / 8 -> SetBit st i v = None).
Proof.
  intros Hd Hi. unfold SetBit, InRange. rewrite shift_byte, bit_mask_eq.
  destruct (Z.ltb_spec i 0); [lia|]. cbn [mbind option_bind]. destruct (Z.ltb_spec i (bm_length st)); [|lia]. cbn [negb].
  assert (Hq : 0 <= i / 8) by (apply Z.div_pos; lia). pose proof (Z.mod_pos_bound i 8 ltac:(lia)) as Hm. split.
  - intros Hlt. destruct (arr_get_lt (bm_data st) (i / 8)) as [b Hb]; [lia|]. rewrite Hb. cbn [mbind option_bind].
    set (nb := u8 _). assert (Hb8 : is_uint 8 b).
    { unfold arr_get in Hb. zif_in Hb; [|done]. rewrite Forall_lookup in Hd. by eapply Hd. }
    destruct (arr_set (bm_data st) (i / 8) nb) as [data|] eqn:Es.
    2: { unfold arr_set in Es. zif_in Es; [done|]. unfold zlen in Hlt. lia. }
    exists (MkBitmap (bm_length st) data). cbn. split; [done|]. split; [done|].
    split; [by apply arr_set_length in Es|].
    split; [eapply arr_set_byte; [exact Hd|by apply uwrap_range|exact Es]|].
    intros j Hj. unfold bit. rewrite (arr_get_set _ _ _ _ _ Es).
    destruct (Z.eqb_spec (i / 8) (j / 8)) as [He|Hne].
    + rewrite <- He, Hb. unfold nb. pose proof (Z.mod_pos_bound j 8 ltac:(lia)). rewrite set_bit_test by (done || lia).
      destruct (Z.eqb_spec j i) as [->|Hji]; [by rewrite Z.eqb_refl|].
      destruct (Z.eqb_spec (j mod 8) (i mod 8)); [|done]. exfalso. apply Hji, bit_index; lia.
    + destruct (Z.eqb_spec j i) as [->|]; done.
  - intros Hge. by rewrite (proj2 (arr_get_None (bm_data st) (i / 8))) by lia.
Qed.

(** The grown store has the same bits and covers the offset. *)
Lemma bit_zeros data n i : 0 <= i -> bit (data ++ replicate n 0) i = bit data i.
Proof.
  intros Hi. unfold bit. assert (H0 : 0 <= i / 8) by (apply Z.div_pos; lia).
  destruct (Z.lt_ge_cases (i / 8) (zlen data)).
  - by rewrite arr_get_app_l.
  - rewrite (proj2 (arr_get_None data (i / 8))) by lia.
    replace (i / 8) with (zlen data + (i / 8 - zlen data)) by lia. rewrite arr_get_app_r by lia.
    destruct (arr_get _ _) as [b|] eqn:E; [|done]. unfold arr_get in E. zif_in E; [|done].
    apply lookup_replicate in E as [-> _]. apply Z.bits_0.
Qed.

Lemma grow_spec data i : 0 <= i <= 2 ^ 62 -> Forall (is_uint 8) data ->
  i / 8 < zlen (grow data (i / 8)) /\ Forall (is_uint 8) (grow data (i / 8)) /\
  forall j, 0 <= j -> bit (grow data (i / 8)) j = bit data j.
Proof.
  intros Hi Hd. unfold grow. rewrite Z.geb_leb. destruct (Z.leb_spec (zlen data) (i / 8)) as [Hge|]; [|done].
  assert (H62 : 0 <= i / 8 <= 2 ^ 59) by divlia.
  destruct (RoundUp_spec 4 ltac:(lia) (i / 8 + 1)) as [_ Hr]; [unfold is_sint; lia|]. change (2 ^ 4) with 16 in Hr.
  unfold kIncrementSizeInBytes. set (n := RoundUp (i / 8 + 1) 16) in *. split; [|split].
  - rewrite zlen_app. unfold zlen at 2. rewrite length_replicate. pose proof (zlen_nonneg data). lia.
  - apply Forall_app. split; [done|]. apply Forall_replicate. unfold is_uint. lia.
  - intros j Hj. by apply bit_zeros.
Qed.

(** Offsets below [length_] that the backing store covers. *)
Definition covered (st : BitmapBuilder) (i : Z) : Prop := i < bm_length st -> i / 8 < zlen (bm_data st).

Lemma Set_spec st i v : wf_bitmap st -> 0 <= i < 2 ^ 62 ->
  (covered st i -> exists st', Set_ st i v = Some st' /\ wf_bitmap st' /\ bm_length st' = Z.max (bm_length st) (i + 1) /\
     zlen (bm_data st) <= zlen (bm_data st') /\
     forall j, 0 <= j -> contents st' j = if j =? i then v else contents st j) /\
  (~ covered st i -> Set_ st i v = None).
Proof.
  intros (Hl & Hd & Hz) Hi. unfold Set_, InRange, covered. rewrite shift_byte.
  destruct (Z.ltb_spec i 0); [lia|]. cbn [mbind option_bind]. destruct (Z.ltb_spec i (bm_length st)) as [Hin|Hout]; cbn [negb].
  - destruct (SetBit_spec st i v Hd ltac:(lia)) as [Hok Hbad]. split; [|intros; apply Hbad; lia].
    intros Hc. destruct (Hok (Hc Hin)) as (st' & Hs & Hlen & Hsz & Hd' & Hb). exists st'. split; [done|].
    split; [|split; [lia|split; [lia|]]].
    + split; [lia|]. split; [done|]. intros j Hj. rewrite Hb by lia. destruct (Z.eqb_spec j i); [lia|]. apply Hz. lia.
    + intros j Hj. unfold contents. rewrite Hb by done. destruct (Z.leb_spec 0 j); [|lia]. by destruct (j =? i).
  - split; [intros _|lia]. destruct v; cbn [negb].
    + destruct (grow_spec (bm_data st) i ltac:(lia) Hd) as (Hg & Hgd & Hgb).
      assert (Hsz : zlen (bm_data st) <= zlen (grow (bm_data st) (i / 8)))
        by (unfold grow; zif; [rewrite zlen_app; pose proof (zlen_nonneg (replicate (Z.to_nat (RoundUp (i / 8 + 1) kIncrementSizeInBytes - zlen (bm_data st))) 0)); lia|lia]).
      destruct (SetBit_spec (MkBitmap (i + 1) (grow (bm_data st) (i / 8))) i true Hgd) as [Hok _]; [simpl; lia|].
      destruct (Hok Hg) as (st' & Hs & Hlen & Hsz' & Hd' & Hb). cbn in Hlen, Hsz', Hb. exists st'. split; [done|].
      split; [|split; [lia|split; [lia|]]].
      * split; [lia|]. split; [done|]. intros j Hj. rewrite Hb, Hgb by lia. destruct (Z.eqb_spec j i); [lia|]. apply Hz. lia.
      * intros j Hj. unfold contents. rewrite Hb, Hgb by done. destruct (Z.leb_spec 0 j); [|lia]. by destruct (j =? i).
    + eexists. split; [reflexivity|]. cbn. split; [|split; [lia|split; [lia|]]].
      * split; [simpl; lia|]. split; [done|]. intros j Hj. apply Hz. simpl in Hj. lia.
      * intros j Hj. unfold contents. cbn. destruct (Z.eqb_spec j i) as [->|]; [|done]. rewrite Hz by lia. apply andb_false_r.
Qed.

Lemma SetRange_loop_spec n st i v :
  wf_bitmap st -> 0 <= i -> i + Z.of_nat n < 2 ^ 62 -> (forall j, i <= j < i + Z.of_nat n -> covered st j) ->
  exists st', SetRange_loop n st i v = Some st' /\ wf_bitmap st' /\
    (forall j, 0 <= j -> contents st' j = if (i <=? j) && (j <? i + Z.of_nat n) then v else contents st j) /\
    bm_length st' = if (0 <? n)%nat then Z.max (bm_length st) (i + Z.of_nat n) else bm_length st.
Proof.
  revert st i. induction n as [|n IH]; intros st i Hwf Hi Hn Hc.
  - exists st. split; [done|]. split; [done|]. split; [|done]. intros j Hj.
    destruct (Z.leb_spec i j), (Z.ltb_spec j (i + Z.of_nat 0)); done || lia.
  - cbn [SetRange_loop]. destruct (Set_spec st i v Hwf ltac:(lia)) as [Hok _].
    destruct (Hok (Hc i ltac:(lia))) as (st1 & -> & Hwf1 & Hl1 & Hsz & Hb1). cbn [mbind option_bind].
    destruct (IH st1 (i + 1)) as (st' & Hs & Hwf' & Hb & Hl); [done|lia|lia| |].
    { intros j Hj Hlj. rewrite Hl1 in Hlj. assert (Hj' : j < bm_length st) by lia.
      specialize (Hc j ltac:(lia) Hj'). lia. }
    exists st'. split; [done|]. split; [done|]. split.
    + intros j Hj. rewrite Hb, Hb1 by done. destruct (Z.eqb_spec j i) as [->|Hne].
      * destruct (Z.leb_spec (i + 1) i), (Z.leb_spec i i), (Z.ltb_spec i (i + Z.of_nat (S n))); cbn [andb]; done || lia.
      * replace ((i + 1 <=? j) && (j <? i + 1 + Z.of_nat n)) with ((i <=? j) && (j <? i + Z.of_nat (S n))); [done|].
        apply eq_true_iff_eq. rewrite !andb_true_iff, !Z.leb_le, !Z.ltb_lt. lia.
    + rewrite Hl, Hl1. change (0 <? S n)%nat with true. cbv iota. destruct (0 <? n)%nat eqn:E; [lia|]. apply Nat.ltb_ge in E. lia.
Qed.

Lemma bit_take data k j : 0 <= k -> 0 <= j -> bit (take (Z.to_nat k) data) j = (j / 8 <? k) && bit data j.
Proof.
  intros Hk Hj. unfold bit, arr_get. assert (Hq : 0 <= j / 8) by (apply Z.div_pos; lia). zif; [|lia].
  destruct (Z.ltb_spec (j / 8) k); cbn [andb]; [by rewrite lookup_take_lt by lia|by rewrite lookup_take_ge by lia].
Qed.

Lemma SetLength_spec st n : wf_bitmap st -> 0 <= n <= 2 ^ 62 ->
  exists st', SetLength st n = Some st' /\ wf_bitmap st' /\ bm_length st' = n /\
    forall j, 0 <= j -> contents st' j = (j <? n) && contents st j.
Proof.
  intros (Hl & Hd & Hz) Hn.
  assert (Hdone : forall data, Forall (is_uint 8) data ->
    (forall j, 0 <= j -> bit data j = (j <? n) && bit (bm_data st) j) ->
    wf_bitmap (MkBitmap n data) /\ bm_length (MkBitmap n data) = n /\
    forall j, 0 <= j -> contents (MkBitmap n data) j = (j <? n) && contents st j).
  { intros data Hdata Hb. split; [|split; [done|]].
    - split; [simpl; lia|]. split; [done|]. cbn. intros i Hi. rewrite Hb by lia. destruct (Z.ltb_spec i n); [lia|done].
    - intros j Hj. unfold contents. cbn. rewrite Hb by done. destruct (0 <=? j), (j <? n); done. }
  unfold SetLength. rewrite shift_byte, mod_byte. assert (Hq : 0 <= n / 8) by (apply Z.div_pos; lia).
  pose proof (Z.mod_pos_bound n 8 ltac:(lia)) as Hr.
  destruct (Z.ltb_spec n (bm_length st)); [destruct (Z.ltb_spec (n / 8) (zlen (bm_data st))) as [Hin|Hout]|].
  - destruct (arr_get_lt (bm_data st) (n / 8)) as [b Hb]; [lia|]. rewrite Hb. cbn [mbind option_bind].
    rewrite Z.shiftl_1_l, land_low by lia.
    assert (Hb8 : is_uint 8 b).
    { unfold arr_get in Hb. zif_in Hb; [|done]. rewrite Forall_lookup in Hd. by eapply Hd. }
    set (nb := b mod 2 ^ (n mod 8)).
    assert (Hnb : is_uint 8 nb).
    { unfold is_uint. pose proof (Z.mod_pos_bound b (2 ^ (n mod 8)) ltac:(apply Z.pow_pos_nonneg; lia)).
      assert (2 ^ (n mod 8) <= 2 ^ 8) by (apply Z.pow_le_mono_r; lia). unfold nb. lia. }
    destruct (arr_set (bm_data st) (n / 8) nb) as [data|] eqn:Es.
    2: { unfold arr_set in Es. zif_in Es; [done|]. unfold zlen in Hin. lia. }
    cbn [mbind option_bind]. pose proof (arr_set_byte _ _ _ _ Hd Hnb Es) as Hdata.
    assert (Hbit : forall j, 0 <= j -> (j / 8 <? n / 8 + 1) && bit data j = (j <? n) && bit (bm_data st) j).
    { intros j Hj. unfold bit. rewrite (arr_get_set _ _ _ _ _ Es). pose proof (Z.mod_pos_bound j 8 ltac:(lia)).
      destruct (Z.eqb_spec (n / 8) (j / 8)) as [He|Hne].
      - rewrite <- He, Hb. unfold nb. destruct (Z.ltb_spec (n / 8) (n / 8 + 1)); [|lia]. cbn [andb].
        destruct (Z.ltb_spec (j mod 8) (n mod 8)).
        + rewrite Z.mod_pow2_bits_low by lia. destruct (Z.ltb_spec j n); [done|divlia].
        + rewrite Z.mod_pow2_bits_high by lia. destruct (Z.ltb_spec j n); [divlia|done].
      - destruct (Z.ltb_spec (j / 8) (n / 8 + 1)), (Z.ltb_spec j n); cbn [andb]; done || divlia. }
    eexists. split; [reflexivity|]. apply Hdone; destruct (Z.ltb_spec (n / 8 + 1) (zlen data)) as [Hk|Hk]; try done.
    + apply Forall_app. split; [by apply Forall_take|]. apply Forall_replicate. unfold is_uint. lia.
    + intros j Hj. rewrite bit_zeros, bit_take by lia. by apply Hbit.
    + intros j Hj. rewrite <- Hbit by done. rewrite <- bit_take by lia.
      by rewrite take_ge by (unfold zlen in Hk; lia).
  - eexists. split; [reflexivity|]. apply Hdone; [done|]. intros j Hj. destruct (Z.ltb_spec j n); [done|].
    unfold bit. rewrite (proj2 (arr_get_None (bm_data st) (j / 8))); [done|]. right. divlia.
  - eexists. split; [reflexivity|]. apply Hdone; [done|]. intros j Hj. destruct (Z.ltb_spec j n); [done|]. apply Hz. lia.
Qed.

(** C37: [BitmapBuilder] is a growable set of bits: [Get] reads it, [Set] and
    [SetRange] change exactly the bits named and extend the length,
    [SetLength] truncates or extends it with zeros, and the invariant (no bit
    set behind [length_]) is kept, for every offset that is new or covered by
    the backing store. For the others, below [length_] but behind the store,
    [Set] writes outside it: it grows the store only when the offset is
    behind [length_]. *)
Theorem BitmapBuilder_refines st : wf_bitmap st ->
  (forall i, 0 <= i -> Get st i = Some (contents st i)) /\
  (forall i v, 0 <= i < 2 ^ 62 ->
     (covered st i -> exists st', Set_ st i v = Some st' /\ wf_bitmap st' /\ bm_length st' = Z.max (bm_length st) (i + 1) /\
        forall j, 0 <= j -> contents st' j = if j =? i then v else contents st j) /\
     (~ covered st i -> Set_ st i v = None)) /\
  (forall min max v, 0 <= min <= max -> max < 2 ^ 62 - 1 -> (forall j, min <= j <= max -> covered st j) ->
     exists st', SetRange st min max v = Some st' /\ wf_bitmap st' /\ bm_length st' = Z.max (bm_length st) (max + 1) /\
       forall j, 0 <= j -> contents st' j = if (min <=? j) && (j <? max + 1) then v else contents st j) /\
  (forall n, 0 <= n <= 2 ^ 62 ->
     exists st', SetLength st n = Some st' /\ wf_bitmap st' /\ bm_length st' = n /\
       forall j, 0 <= j -> contents st' j = (j <? n) && contents st j).
Proof.
  intros Hwf. split; [|split; [|split]].
  - intros i Hi. rewrite Get_spec by done. unfold contents. destruct (Z.leb_spec 0 i); [|lia]. cbn [andb].
    destruct (Z.ltb_spec i (bm_length st)); [done|]. destruct Hwf as (_ & _ & Hz). by rewrite Hz.
  - intros i v Hi. destruct (Set_spec st i v Hwf Hi) as [Hok Hbad]. split; [|done].
    intros Hc. destruct (Hok Hc) as (st' & ? & ? & ? & _ & ?). by exists st'.
  - intros min max v Hm Hmax Hc. unfold SetRange.
    destruct (SetRange_loop_spec (Z.to_nat (max - min + 1)) st min v) as (st' & Hs & Hwf' & Hb & Hl); [done|lia|lia| |].
    { intros j Hj. apply Hc. lia. }
    exists st'. split; [done|]. split; [done|]. rewrite Z2Nat.id in * by lia.
    replace (min + (max - min + 1)) with (max + 1) in * by lia. split; [|done].
    rewrite Hl. destruct (Nat.ltb_spec 0 (Z.to_nat (max - min + 1))); [done|lia].
  - intros n Hn. by apply SetLength_spec.
Qed.
Definition example_bitmap : BitmapBuilder := MkBitmap 201 (replicate 16 0).
(** After [Set(200, false)] on an empty bitmap, [Set(150, true)] leaves the store. *)
Lemma BitmapBuilder_refines_witness :
  Set_ BitmapBuilder_new 200 false = Some example_bitmap /\ Set_ example_bitmap 150 true = None /\
  Get example_bitmap 3 = Some (contents example_bitmap 3).
Proof.
  split; [reflexivity|]. split; [reflexivity|]. apply (BitmapBuilder_refines example_bitmap); [|lia].
  split; [simpl; lia|]. split; [repeat constructor; unfold is_uint; lia|]. intros i Hi.
  change (bit ([] ++ replicate 16 0) i = false). rewrite bit_zeros by (simpl in Hi; lia).
  unfold bit, arr_get. by destruct (0 <=? i / 8).
Defined.
