(* ===== verification/ObjectIdRing.v ===== *)
(** * The ring of object ids (src/runtime/vm/object_id_ring.{h,cc})

    The service gives objects ids that stay valid until [capacity] newer ids
    have been handed out. Serial numbers run up to a multiple of the capacity
    and start again at 0. [Object::null()] is [None]; [None] as a result of an
    operation is an access outside the table. [IsValidId] updates [wrapped_],
    so the lookups return the ring as well. *)
From S2P Require Import Prelude Utils.
Local Open Scope Z_scope.
Local Open Scope vm_scope.

(** ** Definitions *)
Definition RawObject := positive.
Inductive LookupResult := kValid | kInvalid | kCollected | kExpired.
Inductive IdPolicy := kAllocateId | kReuseId.
Definition kMaxId : Z := 0x3FFFFFFF.
Definition kInvalidId : Z := -1.

Record ObjectIdRing := MkRing {
  table_ : list (option RawObject);
  max_serial_ : Z;
  capacity_ : Z;
  serial_num_ : Z;
  wrapped_ : bool }.

Definition SetCapacityAndMaxSerial (capacity max_serial serial_num : Z) (wrapped : bool) : ObjectIdRing :=
  MkRing (replicate (Z.to_nat capacity) None) (max_serial - Z.rem max_serial capacity) capacity serial_num wrapped.
Definition ObjectIdRing_new (capacity : Z) : ObjectIdRing := SetCapacityAndMaxSerial capacity kMaxId 0 false.

Definition set_wrapped (ring : ObjectIdRing) (b : bool) : ObjectIdRing :=
  MkRing (table_ ring) (max_serial_ ring) (capacity_ ring) (serial_num_ ring) b.

Definition NextSerial (ring : ObjectIdRing) : Z * ObjectIdRing :=
  let r := serial_num_ ring in
  let serial_num := serial_num_ ring + 1 in
  if serial_num >=? max_serial_ ring
  then (r, MkRing (table_ ring) (max_serial_ ring) (capacity_ ring) 0 true)
  else (r, MkRing (table_ ring) (max_serial_ ring) (capacity_ ring) serial_num (wrapped_ ring)).

Definition IsValidContiguous (ring : ObjectIdRing) (id : Z) : bool :=
  if id >=? serial_num_ ring then false
  else
    let bottom := if serial_num_ ring >=? capacity_ ring then serial_num_ ring - capacity_ ring else 0 in
    id >=? bottom.

Definition IsValidId (ring : ObjectIdRing) (id : Z) : bool * ObjectIdRing :=
  if id =? kInvalidId then (false, ring)
  else if id <? 0 then (false, ring)
  else if id >=? max_serial_ ring then (false, ring)
  else if wrapped_ ring then
    if serial_num_ ring >=? capacity_ ring then
      let ring := set_wrapped ring false in (IsValidContiguous ring id, ring)
    else if id <? serial_num_ ring then (true, ring)
    else
      let max_serial_num := max_serial_ ring in
      let bottom := max_serial_num - (capacity_ ring - serial_num_ ring) in
      ((id >=? bottom) && (bottom <? max_serial_num), ring)
  else (IsValidContiguous ring id, ring).

Definition IndexOfId (ring : ObjectIdRing) (id : Z) : Z * ObjectIdRing :=
  let '(valid, ring) := IsValidId ring id in
  if negb valid then (kInvalidId, ring) else (Z.rem id (capacity_ ring), ring).

Definition IdOfIndex (ring : ObjectIdRing) (index : Z) : Z :=
  if index <? 0 then kInvalidId
  else if index >=? capacity_ ring then kInvalidId
  else if wrapped_ ring then
    if index <? serial_num_ ring then index
    else max_serial_ ring - capacity_ ring + index
  else if index <? serial_num_ ring then
    let split_point := Z.rem (serial_num_ ring) (capacity_ ring) in
    if index <? split_point then serial_num_ ring - split_point + index
    else serial_num_ ring - capacity_ ring - split_point + index
  else kInvalidId.

Definition AllocateNewId (ring : ObjectIdRing) (raw_obj : RawObject) : option (Z * ObjectIdRing) :=
  let '(id, ring) := NextSerial ring in
  let '(index, ring) := IndexOfId ring id in
  table ← arr_set (table_ ring) index (Some raw_obj);
  Some (id, MkRing table (max_serial_ ring) (capacity_ ring) (serial_num_ ring) (wrapped_ ring)).

(** [n] entries are left, the next one is at [i]. *)
Fixpoint FindExisting_loop (n : nat) (ring : ObjectIdRing) (i : Z) (raw_obj : RawObject) : option Z :=
  match n with
  | O => Some kInvalidId
  | S n =>
      entry ← arr_get (table_ ring) i;
      if bool_decide (entry = Some raw_obj) then Some (IdOfIndex ring i)
      else FindExisting_loop n ring (i + 1) raw_obj
  end.
Definition FindExistingIdForObject (ring : ObjectIdRing) (raw_obj : RawObject) : option Z :=
  FindExisting_loop (Z.to_nat (capacity_ ring)) ring 0 raw_obj.

Definition GetIdForObject (ring : ObjectIdRing) (object : RawObject) (policy : IdPolicy) : option (Z * ObjectIdRing) :=
  match policy with
  | kAllocateId => AllocateNewId ring object
  | kReuseId =>
      id ← FindExistingIdForObject ring object;
      if negb (id =? kInvalidId) then Some (id, ring) else AllocateNewId ring object
  end.

Definition GetObjectForId (ring : ObjectIdRing) (id : Z)
    : option (option RawObject * LookupResult * ObjectIdRing) :=
  let '(index, ring) := IndexOfId ring id in
  if index =? kInvalidId then Some (None, kExpired, ring)
  else
    entry ← arr_get (table_ ring) index;
    match entry with
    | None => Some (None, kCollected, ring)
    | Some obj => Some (Some obj, kValid, ring)
    end.

(** The garbage collector replaces the pointers of the table. *)
Definition VisitPointers (ring : ObjectIdRing) (visitor : option RawObject -> option RawObject) : ObjectIdRing :=
  MkRing (visitor <$> table_ ring) (max_serial_ ring) (capacity_ ring) (serial_num_ ring) (wrapped_ ring).

(** ** The specification: the history of allocations

    The [k]-th allocation has the id [k mod max_serial_] and is live while it
    is among the last [capacity_] ones. *)
Definition live (capacity n k : Z) : Prop := 0 <= k < n /\ n - capacity <= k.

Record ring_inv (ring : ObjectIdRing) (hist : list (option RawObject)) : Prop := {
  inv_capacity : 0 < capacity_ ring <= max_serial_ ring;
  inv_multiple : (capacity_ ring | max_serial_ ring);
  inv_size : zlen (table_ ring) = capacity_ ring;
  inv_serial : serial_num_ ring = zlen hist mod max_serial_ ring;
  inv_wrapped : wrapped_ ring = (max_serial_ ring <=? zlen hist) && (serial_num_ ring <? capacity_ ring);
  inv_live : forall k, live (capacity_ ring) (zlen hist) k ->
    arr_get (table_ ring) (k mod capacity_ ring) = arr_get hist k;
  inv_unused : forall i, zlen hist <= i < capacity_ ring -> arr_get (table_ ring) i = Some None }.

(** ** Ids and allocations *)
Section Serial.
Context (C M n : Z) (HC : 0 < C <= M) (Hn : 0 <= n).

(** The last allocation with a given id. *)
Definition last_with_id (id : Z) : Z := if id <? n mod M then n - n mod M + id else n - n mod M - M + id.

Lemma last_with_id_mod id : 0 <= id < M -> last_with_id id mod M = id.
Proof using HC.
  intros Hid. pose proof (Z.div_mod n M ltac:(lia)) as Hd. unfold last_with_id.
  destruct (id <? n mod M); symmetry; [apply Z.mod_unique with (n / M)|apply Z.mod_unique with (n / M - 1)]; lia.
Qed.

Lemma live_unique k : live C n k -> k = last_with_id (k mod M).
Proof using HC Hn.
  unfold live, last_with_id. intros [Hk Hlive].
  pose proof (Z.div_mod n M ltac:(lia)) as Hdn. pose proof (Z.div_mod k M ltac:(lia)) as Hdk.
  pose proof (Z.mod_pos_bound n M ltac:(lia)). pose proof (Z.mod_pos_bound k M ltac:(lia)).
  set (q := n / M) in *. set (t := k / M) in *. set (s := n mod M) in *. set (r := k mod M) in *.
  destruct (Z.ltb_spec r s).
  - assert (t = q) by nia. nia.
  - assert (t = q - 1) by nia. nia.
Qed.

Lemma live_last id : 0 <= id < M ->
  live C n (last_with_id id) <->
  (id < n mod M /\ n mod M - C <= id) \/ (n mod M <= id /\ M <= n /\ n mod M + M - C <= id).
Proof using HC Hn.
  intros Hid. unfold live, last_with_id.
  pose proof (Z.div_mod n M ltac:(lia)) as Hdn. pose proof (Z.mod_pos_bound n M ltac:(lia)).
  assert (Hq : 0 <= n / M) by (apply Z.div_pos; lia).
  set (q := n / M) in *. set (s := n mod M) in *. destruct (Z.ltb_spec id s).
  - split; [intros; left; lia|intros [?|?]; [nia|lia]].
  - assert (Hqn : M <= n <-> 1 <= q) by nia. split; [intros; right; nia|intros [?|?]; [lia|nia]].
Qed.
End Serial.

(** What [IsValidId] needs of the serial number and the flag. *)
Record serial_ok (ring : ObjectIdRing) (n : Z) : Prop := {
  ok_capacity : 0 < capacity_ ring <= max_serial_ ring;
  ok_n : 0 <= n;
  ok_serial : serial_num_ ring = n mod max_serial_ ring;
  ok_wrapped : wrapped_ ring = true -> max_serial_ ring <= n;
  ok_must_wrap : max_serial_ ring <= n -> serial_num_ ring < capacity_ ring -> wrapped_ ring = true }.

Definition settled (ring : ObjectIdRing) (n : Z) : ObjectIdRing :=
  set_wrapped ring ((max_serial_ ring <=? n) && (serial_num_ ring <? capacity_ ring)).

Lemma IsValidId_spec ring n id : serial_ok ring n -> 0 <= id < max_serial_ ring ->
  exists b, IsValidId ring id = (b, settled ring n) /\
    (b = true <-> live (capacity_ ring) n (last_with_id (max_serial_ ring) n id)).
Proof.
  intros [HC Hn Hs Hw Hm] Hid. unfold IsValidId, settled, kInvalidId.
  setoid_rewrite (live_last _ _ _ HC Hn id Hid). rewrite <- Hs.
  destruct (Z.eqb_spec id (-1)); [lia|]. destruct (Z.ltb_spec id 0); [lia|].
  rewrite !Z.geb_leb. destruct (Z.leb_spec (max_serial_ ring) id); [lia|].
  pose proof (Z.mod_pos_bound n (max_serial_ ring) ltac:(lia)) as Hsb. rewrite <- Hs in Hsb.
  destruct ring as [table M C s w]. cbn in *. unfold set_wrapped, IsValidContiguous. cbn.
  rewrite !Z.geb_leb. destruct w; [specialize (Hw eq_refl)|].
  - rewrite (proj2 (Z.leb_le M n) Hw). cbn [andb]. destruct (Z.leb_spec C s).
    + destruct (Z.ltb_spec s C); [lia|]. eexists. split; [reflexivity|].
      destruct (Z.leb_spec s id); [split; [done|lia]|]. rewrite Z.leb_le. lia.
    + destruct (Z.ltb_spec s C); [|lia]. destruct (Z.ltb_spec id s).
      * eexists. split; [reflexivity|]. split; [lia|done].
      * eexists. split; [reflexivity|]. rewrite andb_true_iff, Z.leb_le, Z.ltb_lt. lia.
  - assert (Hf : (M <=? n) && (s <? C) = false).
    { destruct (Z.leb_spec M n); [|done]. destruct (Z.ltb_spec s C); [|done]. by discriminate Hm. }
    rewrite Hf. eexists. split; [reflexivity|].
    destruct (Z.leb_spec s id).
    + split; [done|]. apply andb_false_iff in Hf. rewrite Z.leb_gt, Z.ltb_ge in Hf. lia.
    + destruct (Z.leb_spec C s); rewrite Z.leb_le; lia.
Qed.

Lemma mod_close c a b : 0 < c -> 0 < a - b < c -> a mod c <> b mod c.
Proof.
  intros Hc Hab He. pose proof (Z.div_mod a c ltac:(lia)) as Ha. pose proof (Z.div_mod b c ltac:(lia)) as Hb.
  rewrite He in Ha. set (x := a / c) in *. set (y := b / c) in *. set (r := b mod c) in *. clearbody x y r.
  assert (E : a - b = c * (x - y)) by lia. assert (x - y > 0) by nia. nia.
Qed.

Section Ring.
Context (ring : ObjectIdRing) (hist : list (option RawObject)) (Hinv : ring_inv ring hist).
Abbreviation C := (capacity_ ring).
Abbreviation M := (max_serial_ ring).
Abbreviation n := (zlen hist).

Lemma inv_ok : serial_ok ring n /\ settled ring n = ring.
Proof using Hinv.
  destruct Hinv as [HC _ _ Hs Hw _ _]. split.
  - split; [done|apply zlen_nonneg|done| |]; rewrite Hw.
    + intros H. zbool. lia.
    + intros H1 H2. apply andb_true_iff. rewrite Z.leb_le, Z.ltb_lt. lia.
  - unfold settled, set_wrapped. destruct ring. cbn in *. by rewrite <- Hw.
Qed.

Lemma mod_index k : (k mod M) mod C = k mod C.
Proof using Hinv. destruct Hinv as [HC Hd _ _ _ _ _]. apply Z.mod_mod_divide. done. Qed.

(** The id of a live allocation finds its entry; every other id is expired. *)
Lemma IndexOfId_spec id :
  (exists k, live C n k /\ k mod M = id /\ IndexOfId ring id = (k mod C, ring)) \/
  ((forall k, live C n k -> k mod M <> id) /\ IndexOfId ring id = (kInvalidId, ring)).
Proof using Hinv.
  destruct inv_ok as [Hok Hset]. pose proof (ok_capacity _ _ Hok) as HC. pose proof (ok_n _ _ Hok) as Hn.
  unfold IndexOfId. destruct (decide (0 <= id < M)) as [Hid|Hid].
  - destruct (IsValidId_spec ring n id Hok Hid) as (b & Hv & Hb). rewrite Hv, Hset. destruct b; cbn [negb].
    + left. exists (last_with_id M n id). split; [by apply Hb|]. split; [by apply (last_with_id_mod C)|].
      rewrite <- (mod_index (last_with_id M n id)), (last_with_id_mod C), Z.rem_mod_nonneg by (done || lia). done.
    + right. split; [|done]. intros k Hk <-. rewrite <- (live_unique C M n HC Hn k Hk) in Hb. by discriminate (proj2 Hb Hk).
  - right. split; [intros k _ <-; apply Hid, Z.mod_pos_bound; lia|].
    unfold IsValidId. destruct (Z.eqb_spec id kInvalidId); [done|]. destruct (Z.ltb_spec id 0); [done|].
    rewrite Z.geb_leb. destruct (Z.leb_spec M id); [done|lia].
Qed.

Lemma NextSerial_spec :
  exists ring1, NextSerial ring = (n mod M, ring1) /\ serial_ok ring1 (n + 1) /\
    table_ ring1 = table_ ring /\ capacity_ ring1 = C /\ max_serial_ ring1 = M.
Proof using Hinv.
  destruct inv_ok as [Hok _]. destruct Hok as [HC Hn Hs Hw Hm]. unfold NextSerial. rewrite Z.geb_leb, Hs.
  pose proof (Z.mod_pos_bound n M ltac:(lia)) as Hb. pose proof (Z.div_mod n M ltac:(lia)) as Hd.
  assert (Hq : 0 <= n / M) by (apply Z.div_pos; lia).
  destruct (Z.leb_spec M (n mod M + 1)); (eexists; split; [reflexivity|]; split; [|done]); split; cbn; try lia.
  - apply Z.mod_unique_pos with (n / M + 1); lia.
  - intros _. nia.
  - apply Z.mod_unique_pos with (n / M); lia.
  - intros Hw'. specialize (Hw Hw'). lia.
  - intros Hle Hlt. apply Hm; [|lia]. destruct (Z.le_gt_cases M n); [done|].
    assert (n = M - 1) by lia. rewrite Z.mod_small in * by lia. lia.
Qed.

Lemma AllocateNewId_spec obj :
  exists ring', AllocateNewId ring obj = Some (n mod M, ring') /\ ring_inv ring' (hist ++ [Some obj]) /\
    capacity_ ring' = C /\ max_serial_ ring' = M.
Proof using Hinv.
  destruct NextSerial_spec as (ring1 & Hnext & Hok1 & Ht & HC1 & HM1).
  destruct Hinv as [HC Hdiv Hsize Hs Hw Hlive Hunused].
  unfold AllocateNewId. rewrite Hnext. pose proof (zlen_nonneg hist) as Hn.
  pose proof (Z.mod_pos_bound n M ltac:(lia)) as HbM. pose proof (Z.mod_pos_bound n C ltac:(lia)) as HbC.
  destruct (IsValidId_spec ring1 (n + 1) (n mod M) Hok1) as (b & Hv & Hb); [by rewrite HM1|].
  rewrite HC1, HM1 in Hb.
  assert (Hl : live C (n + 1) n) by (unfold live; lia).
  rewrite <- (live_unique C M (n + 1) HC ltac:(lia) n Hl) in Hb. rewrite (proj2 Hb Hl) in Hv.
  unfold IndexOfId. rewrite Hv. cbn [negb]. unfold settled, set_wrapped. cbn.
  rewrite Ht, HC1, HM1, Z.rem_mod_nonneg, mod_index by lia.
  destruct (arr_set (table_ ring) (n mod C) (Some obj)) as [table|] eqn:Es.
  2: { unfold arr_set in Es. zif_in Es; [done|]. unfold zlen in Hsize. lia. }
  eexists. split; [reflexivity|]. split; [|done]. split; cbn; try done.
  - by rewrite (arr_set_length _ _ _ _ Es).
  - rewrite zlen_app, (ok_serial _ _ Hok1), HM1. done.
  - by rewrite zlen_app.
  - rewrite zlen_app. change (zlen [Some obj]) with 1. intros k [Hk Hlk]. rewrite (arr_get_set _ _ _ _ _ Es).
    destruct (Z.eq_dec k n) as [->|Hne].
    + rewrite Z.eqb_refl. rewrite <- (Z.add_0_r n), arr_get_app_r by lia. done.
    + rewrite arr_get_app_l by lia. destruct (Z.eqb_spec (n mod C) (k mod C)) as [He|_].
      * exfalso. apply (mod_close C n k); lia.
      * apply Hlive. unfold live. lia.
  - rewrite zlen_app. change (zlen [Some obj]) with 1. intros i Hi. rewrite (arr_get_set _ _ _ _ _ Es).
    rewrite Z.mod_small by lia. destruct (Z.eqb_spec n i); [lia|]. apply Hunused. lia.
Qed.

(** The id of an occupied entry is that of the live allocation it holds. *)
Lemma IdOfIndex_spec i obj :
  0 <= i < C -> arr_get (table_ ring) i = Some (Some obj) ->
  exists k, live C n k /\ k mod C = i /\ IdOfIndex ring i = k mod M.
Proof using Hinv.
  intros Hi Hobj. destruct Hinv as [HC [m HM] Hsize Hs Hw Hlive Hunused]. pose proof (zlen_nonneg hist) as Hn.
  unfold IdOfIndex. rewrite Z.geb_leb. destruct (Z.ltb_spec i 0); [lia|]. destruct (Z.leb_spec C i); [lia|].
  pose proof (Z.mod_pos_bound n M ltac:(lia)) as Hsb. pose proof (Z.div_mod n M ltac:(lia)) as Hdn.
  assert (Hq : 0 <= n / M) by (apply Z.div_pos; lia). rewrite <- Hs in Hsb, Hdn. rewrite Hw.
  set (q := n / M) in *. set (s := serial_num_ ring) in *. clearbody q s.
  destruct ((M <=? n) && (s <? C)) eqn:E.
  - zbool. assert (1 <= q) by nia. destruct (Z.ltb_spec i s).
    + exists (q * M + i). split; [unfold live; nia|]. split.
      * symmetry. apply Z.mod_unique_pos with (q * m); nia.
      * apply Z.mod_unique_pos with q; lia.
    + exists (q * M - C + i). split; [unfold live; nia|]. split.
      * symmetry. apply Z.mod_unique_pos with (q * m - 1); nia.
      * apply Z.mod_unique_pos with (q - 1); nia.
  - apply andb_false_iff in E. rewrite Z.leb_gt, Z.ltb_ge in E.
    destruct (Z.ltb_spec i s) as [His|His].
    + rewrite Z.rem_mod_nonneg by lia. pose proof (Z.div_mod s C ltac:(lia)) as Hds.
      pose proof (Z.mod_pos_bound s C ltac:(lia)) as Hsp. assert (Ht : 0 <= s / C) by (apply Z.div_pos; lia).
      set (t := s / C) in *. set (sp := s mod C) in *. clearbody t sp. destruct (Z.ltb_spec i sp).
      * exists (n - sp + i). split; [unfold live; nia|]. split.
        -- symmetry. apply Z.mod_unique_pos with (q * m + t); nia.
        -- apply Z.mod_unique_pos with q; nia.
      * assert (1 <= t) by nia. exists (n - sp - C + i). split; [unfold live; nia|]. split.
        -- symmetry. apply Z.mod_unique_pos with (q * m + t - 1); nia.
        -- apply Z.mod_unique_pos with q; nia.
    + destruct E as [E|E]; [|lia]. assert (q = 0) by nia. assert (Hns : n = s) by lia. rewrite Hunused in Hobj by lia. done.
Qed.

Lemma FindExisting_loop_spec k i obj :
  0 <= i -> i + Z.of_nat k = C ->
  exists id, FindExisting_loop k ring i obj = Some id /\
    ((id = kInvalidId /\ forall j, i <= j < C -> arr_get (table_ ring) j <> Some (Some obj)) \/
     (exists j, i <= j < C /\ arr_get (table_ ring) j = Some (Some obj) /\ id = IdOfIndex ring j)).
Proof using Hinv.
  revert i. induction k as [|k IH]; intros i Hi Hk; cbn [FindExisting_loop].
  - exists kInvalidId. split; [done|]. left. split; [done|]. lia.
  - destruct (arr_get_lt (table_ ring) i) as [e He]; [rewrite (inv_size _ _ Hinv); lia|]. rewrite He. cbn [mbind option_bind].
    case_bool_decide as Hb.
    + subst e. exists (IdOfIndex ring i). split; [done|]. right. exists i. split; [lia|done].
    + destruct (IH (i + 1)) as (id & Hf & Hor); [lia|lia|]. exists id. split; [done|].
      destruct Hor as [[-> Hno]|(j & Hj & Hje & ->)].
      * left. split; [done|]. intros j Hj. destruct (Z.eq_dec j i) as [->|]; [rewrite He; congruence|apply Hno; lia].
      * right. exists j. split; [lia|done].
Qed.
End Ring.

(** C36: The ring implements its specification, a history of allocations.
    [GetIdForObject] hands out the serial number of the allocation modulo
    [max_serial_], or with [kReuseId] the id of a live allocation of the same
    object when there is one; [GetObjectForId] returns the object exactly for
    the ids of the last [capacity_] allocations (or reports that the
    collector has cleared it) and [kExpired] for every other id; all
    operations keep the invariant, through any number of wrap-arounds. *)
Theorem ObjectIdRing_refines ring hist :
  ring_inv ring hist ->
  (forall obj, exists ring', GetIdForObject ring obj kAllocateId = Some (zlen hist mod max_serial_ ring, ring') /\
     ring_inv ring' (hist ++ [Some obj])) /\
  (forall obj,
     (exists k, live (capacity_ ring) (zlen hist) k /\ arr_get hist k = Some (Some obj) /\
        GetIdForObject ring obj kReuseId = Some (k mod max_serial_ ring, ring)) \/
     ((forall k, live (capacity_ ring) (zlen hist) k -> arr_get hist k <> Some (Some obj)) /\
      exists ring', GetIdForObject ring obj kReuseId = Some (zlen hist mod max_serial_ ring, ring') /\
        ring_inv ring' (hist ++ [Some obj]))) /\
  (forall id,
     (exists k o, live (capacity_ ring) (zlen hist) k /\ k mod max_serial_ ring = id /\ arr_get hist k = Some o /\
        GetObjectForId ring id = Some (o, match o with Some _ => kValid | None => kCollected end, ring)) \/
     ((forall k, live (capacity_ ring) (zlen hist) k -> k mod max_serial_ ring <> id) /\
      GetObjectForId ring id = Some (None, kExpired, ring))) /\
  (forall visitor, visitor None = None -> ring_inv (VisitPointers ring visitor) (visitor <$> hist)).
Proof.
  intros Hinv. split; [|split; [|split]].
  - intros obj. destruct (AllocateNewId_spec ring hist Hinv obj) as (ring' & ? & ? & _). by exists ring'.
  - intros obj. unfold GetIdForObject, FindExistingIdForObject. pose proof (inv_capacity _ _ Hinv) as HC.
    destruct (FindExisting_loop_spec ring hist Hinv (Z.to_nat (capacity_ ring)) 0 obj) as (id & -> & Hor); [lia|lia|].
    cbn [mbind option_bind]. destruct Hor as [[-> Hno]|(j & Hj & Hje & ->)].
    + right. split.
      * intros k Hk He. rewrite <- (inv_live _ _ Hinv k Hk) in He. apply (Hno (k mod capacity_ ring)); [|done].
        apply Z.mod_pos_bound. lia.
      * destruct (AllocateNewId_spec ring hist Hinv obj) as (ring' & ? & ? & _). by exists ring'.
    + left. destruct (IdOfIndex_spec ring hist Hinv j obj Hj Hje) as (k & Hk & Hkj & ->). exists k. split; [done|].
      split; [rewrite <- (inv_live _ _ Hinv k Hk), Hkj; done|].
      pose proof (Z.mod_pos_bound k (max_serial_ ring) ltac:(lia)). unfold kInvalidId.
      destruct (Z.eqb_spec (k mod max_serial_ ring) (-1)); [lia|done].
  - intros id. unfold GetObjectForId. destruct (IndexOfId_spec ring hist Hinv id) as [(k & Hk & Hid & ->)|[Hno ->]].
    + left. pose proof (Z.mod_pos_bound k (capacity_ ring) ltac:(pose proof (inv_capacity _ _ Hinv); lia)).
      destruct (arr_get_lt hist k) as [o Ho]; [unfold live in Hk; lia|]. exists k, o. do 3 (split; [done|]).
      unfold kInvalidId. destruct (Z.eqb_spec (k mod capacity_ ring) (-1)); [lia|].
      rewrite (inv_live _ _ Hinv k Hk), Ho. cbn. by destruct o.
    + right. by split.
  - intros visitor Hv. destruct Hinv as [HC Hd Hsize Hs Hw Hlive Hunused].
    assert (Hl : forall l : list (option RawObject), zlen (visitor <$> l) = zlen l) by (intros l; unfold zlen; by rewrite length_fmap).
    assert (Hg : forall l i, arr_get (visitor <$> l) i = visitor <$> arr_get l i)
      by (intros l i; unfold arr_get; zif; [apply list_lookup_fmap|done]).
    split; cbn; rewrite ?Hl; try done.
    + intros k Hk. by rewrite !Hg, Hlive.
    + intros i Hi. rewrite Hg, Hunused by done. cbn. by rewrite Hv.
Qed.

Lemma new_ring_inv capacity : 0 < capacity <= kMaxId -> ring_inv (ObjectIdRing_new capacity) [].
Proof.
  unfold kMaxId. intros HC. unfold ObjectIdRing_new, SetCapacityAndMaxSerial, kMaxId.
  rewrite Z.rem_mod_nonneg by lia. pose proof (Z.div_mod 0x3FFFFFFF capacity ltac:(lia)) as Hd.
  pose proof (Z.mod_pos_bound 0x3FFFFFFF capacity ltac:(lia)).
  assert (1 <= 0x3FFFFFFF / capacity) by (apply Z.div_le_lower_bound; lia).
  split; cbn.
  - nia.
  - exists (0x3FFFFFFF / capacity). lia.
  - unfold zlen. rewrite length_replicate. lia.
  - symmetry. apply Z.mod_0_l. nia.
  - change (zlen []) with 0. destruct (Z.leb_spec (0x3FFFFFFF - 0x3FFFFFFF mod capacity) 0); [nia|done].
  - unfold live. change (zlen []) with 0. lia.
  - intros i Hi. change (zlen []) with 0 in Hi. unfold arr_get. zif; [|lia]. apply lookup_replicate_2. lia.
Qed.
Lemma ObjectIdRing_refines_witness :
  (exists ring', GetIdForObject (ObjectIdRing_new 8192) 5%positive kAllocateId = Some (0, ring') /\
    ring_inv ring' [Some 5%positive]) /\
  GetObjectForId (ObjectIdRing_new 4) 0 = Some (None, kExpired, ObjectIdRing_new 4).
Proof.
  split; [|reflexivity]. apply (ObjectIdRing_refines (ObjectIdRing_new 8192) []).
  apply new_ring_inv. unfold kMaxId. lia.
Defined.
