(* ===== verification/HashMap.v ===== *)
(** * The open-addressing hash map (src/runtime/platform/hashmap.{h,cc})

    [SimpleHashMap]: linear probing in a table whose capacity is a power of
    two, deletion by moving entries back, growth at 80% occupancy. An
    [Entry*] is an index into the table, a [NULL] key or value is [None]; a
    read or write outside the table, or a probe that does not end, is [None]
    as the result of an operation. The match function is a parameter, an
    equivalence on keys (class [MatchFun]). *)
From S2P Require Import Prelude Utils.
Local Open Scope Z_scope.
Local Open Scope vm_scope.

(** ** Definitions *)
Record Entry (K V : Type) := MkEntry { key : option K; value : option V; hash : Z }.
Arguments MkEntry {K V}.
Arguments key {K V}.
Arguments value {K V}.
Arguments hash {K V}.

Record SimpleHashMap (K V : Type) := MkHashMap { map_ : list (Entry K V); hm_capacity : Z; occupancy_ : Z }.
Arguments MkHashMap {K V}.
Arguments map_ {K V}.
Arguments hm_capacity {K V}.
Arguments occupancy_ {K V}.

Section HashMap.
Context {K V : Type} (match_ : K -> K -> bool).
Implicit Types (st : SimpleHashMap K V) (tbl : list (Entry K V)).

Definition Entry_new : Entry K V := MkEntry None None 0.
Definition Initialize (capacity : Z) : SimpleHashMap K V :=
  MkHashMap (replicate (Z.to_nat capacity) Entry_new) capacity 0.

(** The next entry, wrapping at [map_end()]. *)
Definition succ_index (capacity p : Z) : Z := if p + 1 >=? capacity then 0 else p + 1.

(** The fuel bounds the entries visited. *)
Fixpoint Probe_loop (fuel : nat) tbl (capacity : Z) (k : K) (h p : Z) : option Z :=
  match fuel with
  | O => None
  | S n =>
      e ← arr_get tbl p;
      match key e with
      | None => Some p
      | Some k' =>
          if negb (h =? hash e) || negb (match_ k k')
          then Probe_loop n tbl capacity k h (succ_index capacity p) else Some p
      end
  end.
Definition Probe st (k : K) (h : Z) : option Z :=
  Probe_loop (S (Z.to_nat (hm_capacity st))) (map_ st) (hm_capacity st) k h (h &&& (hm_capacity st - 1)).

(** [p->value = v]. *)
Definition SetValue st (p : Z) (v : option V) : option (SimpleHashMap K V) :=
  e ← arr_get (map_ st) p;
  tbl ← arr_set (map_ st) p (MkEntry (key e) v (hash e));
  Some (MkHashMap tbl (hm_capacity st) (occupancy_ st)).

(** The loop of [Resize], over what is left of the old table, with [n]
    entries still to be moved; [insert] is [Lookup(key, hash, true)]. *)
Fixpoint Resize_loop
    (insert : SimpleHashMap K V -> K -> Z -> option (option Z * SimpleHashMap K V))
    (old : list (Entry K V)) (n : Z) st : option (SimpleHashMap K V) :=
  if n >? 0 then
    match old with
    | [] => None
    | e :: old =>
        match key e with
        | None => Resize_loop insert old n st
        | Some k =>
            '(p, st) ← insert st k (hash e);
            p ← (p : option Z);
            st ← SetValue st p (value e);
            Resize_loop insert old (n - 1) st
        end
    end
  else Some st.
Definition Resize_with insert st : option (SimpleHashMap K V) :=
  Resize_loop insert (map_ st) (occupancy_ st) (Initialize (u32 (hm_capacity st * 2))).

(** [Lookup] and [Resize] call each other; [depth] bounds the nesting. The
    result is the entry, [None] for [NULL], and the map. *)
Fixpoint Lookup_depth (depth : nat) st (k : K) (h : Z) (insert : bool)
    : option (option Z * SimpleHashMap K V) :=
  p ← Probe st k h;
  e ← arr_get (map_ st) p;
  match key e with
  | Some _ => Some (Some p, st)
  | None =>
      if insert then
        tbl ← arr_set (map_ st) p (MkEntry (Some k) None h);
        let occupancy := u32 (occupancy_ st + 1) in
        let st := MkHashMap tbl (hm_capacity st) occupancy in
        if u32 (occupancy + occupancy / 4) >=? hm_capacity st then
          match depth with
          | O => None
          | S depth =>
              st ← Resize_with (fun st k h => Lookup_depth depth st k h true) st;
              p ← Probe st k h;
              Some (Some p, st)
          end
        else Some (Some p, st)
      else Some (None, st)
  end.
Definition Lookup : SimpleHashMap K V -> K -> Z -> bool -> option (option Z * SimpleHashMap K V) := Lookup_depth 1.

(** The test whether the entry at [next], which starts at [start], moves to
    [candidate]. *)
Definition moves (candidate next start : Z) : bool :=
  (next >? candidate) && ((start <=? candidate) || (start >? next)) ||
  (next <? candidate) && ((start <=? candidate) && (start >? next)).
Fixpoint Remove_loop (fuel : nat) tbl (capacity candidate next : Z) : option (list (Entry K V) * Z) :=
  match fuel with
  | O => None
  | S n =>
      let next := succ_index capacity next in
      e ← arr_get tbl next;
      match key e with
      | None => Some (tbl, candidate)
      | Some _ =>
          let start := hash e &&& (capacity - 1) in
          if moves candidate next start
          then tbl ← arr_set tbl candidate e; Remove_loop n tbl capacity next next
          else Remove_loop n tbl capacity candidate next
      end
  end.
Definition Remove st (k : K) (h : Z) : option (SimpleHashMap K V) :=
  candidate ← Probe st k h;
  e ← arr_get (map_ st) candidate;
  match key e with
  | None => Some st
  | Some _ =>
      '(tbl, candidate) ← Remove_loop (Z.to_nat (hm_capacity st)) (map_ st) (hm_capacity st) candidate candidate;
      e ← arr_get tbl candidate;
      tbl ← arr_set tbl candidate (MkEntry None (value e) (hash e));
      Some (MkHashMap tbl (hm_capacity st) (u32 (occupancy_ st - 1)))
  end.

(** The values handed to [clear], and the map. *)
Definition Clear st : list (option V) * SimpleHashMap K V :=
  (omap (fun e => _ ← key e; Some (value e)) (map_ st),
   MkHashMap ((fun e => MkEntry None (value e) (hash e)) <$> map_ st) (hm_capacity st) 0).

(** [n] entries are left from [p] on. *)
Fixpoint Next_loop (n : nat) tbl (p : Z) : option (option Z) :=
  match n with
  | O => Some None
  | S n =>
      e ← arr_get tbl p;
      match key e with Some _ => Some (Some p) | None => Next_loop n tbl (p + 1) end
  end.
Definition Next st (p : Z) : option (option Z) := Next_loop (Z.to_nat (hm_capacity st - (p + 1))) (map_ st) (p + 1).
Definition Start st : option (option Z) := Next st (-1).
End HashMap.

(** The match function is an equivalence. *)
Class MatchFun {K} (match_ : K -> K -> bool) : Prop := {
  match_refl k : match_ k k = true;
  match_sym k k' : match_ k k' = true -> match_ k' k = true;
  match_trans k1 k2 k3 : match_ k1 k2 = true -> match_ k2 k3 = true -> match_ k1 k3 = true }.

(** ** Cyclic distance *)
Section Distance.
Context (C : Z) (HC : 0 < C).
Definition dist (a b : Z) : Z := (b - a) mod C.
Definition in_table (i : Z) : Prop := 0 <= i < C.

Lemma dist_range a b : 0 <= dist a b < C.
Proof using HC. apply Z.mod_pos_bound. lia. Qed.

(** Inside the table the distance is a difference, or wraps once. *)
Lemma dist_cases a b : in_table a -> in_table b -> dist a b = if a <=? b then b - a else b - a + C.
Proof using HC.
  unfold in_table, dist. intros Ha Hb. destruct (Z.leb_spec a b).
  - apply Z.mod_small. lia.
  - symmetry. apply Z.mod_unique_pos with (-1); lia.
Qed.

Lemma dist_inj a b c : in_table a -> in_table b -> in_table c -> dist a b = dist a c -> b = c.
Proof using HC.
  intros Ha Hb Hc. rewrite !dist_cases by done. unfold in_table in *. repeat zif; lia.
Qed.

Lemma succ_in p : in_table p -> in_table (succ_index C p).
Proof using HC. unfold in_table, succ_index. intros Hp. zif; lia. Qed.

Lemma dist_succ a p : in_table a -> in_table p -> dist a p < C - 1 -> dist a (succ_index C p) = dist a p + 1.
Proof using HC.
  intros Ha Hp. rewrite !dist_cases by (done || by apply succ_in). unfold succ_index, in_table in *. repeat zif; lia.
Qed.

(** The test of [Remove]: the start lies at or before the candidate. *)
Lemma moves_dist c p s : in_table c -> in_table p -> in_table s -> c <> p ->
  moves c p s = (dist c p <=? dist s p).
Proof using HC.
  intros Hc Hp Hs Hne. rewrite !dist_cases by done. unfold moves, in_table in *. apply eq_true_iff_eq.
  rewrite orb_true_iff, !andb_true_iff, orb_true_iff, !Z.gtb_ltb, !Z.leb_le, !Z.ltb_lt. repeat zif; lia.
Qed.

Ltac dist_lia := rewrite ?dist_cases in * by assumption; unfold in_table in *; repeat zif; repeat match goal with
  | H : context [if ?c then _ else _] |- _ => let E := fresh in destruct c eqn:E; zbool end; lia.

Lemma dist_refl a : dist a a = 0.
Proof using HC. unfold dist. rewrite Z.sub_diag. apply Z.mod_0_l. lia. Qed.
Lemma dist_sub a b c : in_table a -> in_table b -> in_table c -> dist a b <= dist a c -> dist b c = dist a c - dist a b.
Proof using HC. intros. dist_lia. Qed.
(** The start lies behind the hole: the hole is not on the way. *)
Lemma dist_kept c p s : in_table c -> in_table p -> in_table s -> c <> p -> dist s p < dist c p -> dist s p < dist s c.
Proof using HC. intros. dist_lia. Qed.
Lemma dist_moved c p s : in_table c -> in_table p -> in_table s -> dist c p <= dist s p -> dist s c <= dist s p.
Proof using HC. intros. dist_lia. Qed.
(** Beyond an empty slot [e] behind the hole [c]. *)
Lemma dist_beyond c e i s : in_table c -> in_table e -> in_table i -> in_table s ->
  dist c e < dist c i -> dist s i < dist s e -> dist s i < dist s c.
Proof using HC. intros. dist_lia. Qed.
End Distance.

(** ** Tables *)
Section Table.
Context {K V : Type} (match_ : K -> K -> bool) `{!MatchFun match_}.
Implicit Types (st : SimpleHashMap K V) (tbl : list (Entry K V)).

(** What a slot holds. *)
Definition slot tbl (i : Z) : option (K * option V * Z) :=
  e ← arr_get tbl i; k ← key e; Some (k, value e, hash e).
Definition same (k : K) (h : Z) (x : K * option V * Z) : Prop :=
  let '(k', _, h') := x in h = h' /\ match_ k k' = true.
Definition start (C h : Z) : Z := h mod C.

Definition occ (e : Entry K V) : Z := match key e with Some _ => 1 | None => 0 end.
Fixpoint count tbl : Z :=
  match tbl with [] => 0 | e :: tbl => occ e + count tbl end.

(** From its start to an entry no slot is empty; no two entries match. *)
Record wf_table (C : Z) tbl : Prop := {
  wf_size : zlen tbl = C;
  wf_pow2 : exists c, 0 <= c <= 30 /\ C = 2 ^ c;
  wf_hash : forall i k v h, slot tbl i = Some (k, v, h) -> is_uint 32 h;
  wf_chain : forall i k v h j, slot tbl i = Some (k, v, h) -> in_table C j -> slot tbl j = None ->
    dist C (start C h) i < dist C (start C h) j;
  wf_unique : forall i j k v h x, slot tbl i = Some (k, v, h) -> slot tbl j = Some x -> same k h x -> i = j }.
Record wf_map st : Prop := {
  wf_tbl : wf_table (hm_capacity st) (map_ st);
  wf_count : occupancy_ st = count (map_ st);
  wf_room : occupancy_ st < hm_capacity st }.

(** The contents: the value bound to a key with a given hash. *)
Definition holds tbl (k : K) (h : Z) (v : option V) : Prop :=
  exists i k', slot tbl i = Some (k', v, h) /\ match_ k k' = true.

Lemma slot_in C tbl i x : zlen tbl = C -> slot tbl i = Some x -> in_table C i.
Proof using. intros <- Hs. unfold slot in Hs. destruct (arr_get tbl i) eqn:E; [|done]. by apply arr_get_Some in E. Qed.

Lemma slot_get tbl i e : arr_get tbl i = Some e -> slot tbl i = k ← key e; Some (k, value e, hash e).
Proof using. intros H. unfold slot. by rewrite H. Qed.

Lemma slot_set tbl i e tbl' j : arr_set tbl i e = Some tbl' ->
  slot tbl' j = if i =? j then k ← key e; Some (k, value e, hash e) else slot tbl j.
Proof using. intros Hs. unfold slot. rewrite (arr_get_set _ _ _ _ _ Hs). by destruct (i =? j). Qed.

Lemma arr_set_in tbl i e : 0 <= i < zlen tbl -> exists tbl', arr_set tbl i e = Some tbl'.
Proof using. intros Hi. unfold arr_set. unfold zlen in Hi. zif; [by eexists|lia]. Qed.

Lemma count_range tbl : 0 <= count tbl <= zlen tbl.
Proof using.
  induction tbl as [|e tbl IH]; [done|]. cbn [count]. change (zlen (e :: tbl)) with (Z.of_nat (S (length tbl))).
  unfold zlen in IH. unfold occ. destruct (key e); lia.
Qed.

Lemma count_set tbl i e e' tbl' : arr_get tbl i = Some e -> arr_set tbl i e' = Some tbl' ->
  count tbl' = count tbl - occ e + occ e'.
Proof using.
  intros Hg [Hi ->]%arr_set_Some. unfold arr_get in Hg. zif_in Hg; [|done]. clear Hi E. revert Hg. generalize (Z.to_nat i).
  induction tbl as [|x tbl IH]; intros m Hm; [done|]. destruct m as [|m].
  - injection Hm as ->. cbn. lia.
  - change (<[S m := e']> (x :: tbl)) with (x :: <[m := e']> tbl). cbn [count]. rewrite (IH m Hm). lia.
Qed.

(** A table that is not full has an empty slot. *)
Lemma empty_slot tbl : count tbl < zlen tbl -> exists j, in_table (zlen tbl) j /\ slot tbl j = None.
Proof using.
  induction tbl as [|e tbl IH]; cbn [count]; change (zlen (e :: tbl)) with (Z.of_nat (S (length tbl))) || idtac.
  { change (zlen []) with 0. lia. }
  unfold occ. intros Hc. destruct (key e) eqn:Ek.
  - destruct IH as (j & Hj & Hs); [unfold zlen; lia|]. exists (j + 1). unfold in_table, zlen in *. split; [lia|].
    unfold slot, arr_get in *. destruct (0 <=? j) eqn:Ej; zbool; [|lia]. zif; [|lia].
    replace (Z.to_nat (j + 1)) with (S (Z.to_nat j)) by lia. done.
  - exists 0. unfold in_table. split; [lia|]. rewrite (slot_get (e :: tbl) 0 e) by done. by rewrite Ek.
Qed.

Lemma mask_start C h : (exists c, 0 <= c <= 30 /\ C = 2 ^ c) -> h &&& (C - 1) = start C h.
Proof using. intros (c & Hc & ->). unfold start. rewrite land_low by lia. done. Qed.

Lemma wf_C C tbl : wf_table C tbl -> 0 < C <= 2 ^ 30.
Proof using. intros [_ (c & Hc & ->) _ _ _]. split; [lia|]. apply Z.pow_le_mono_r; lia. Qed.

Lemma start_in C h : 0 < C -> in_table C (start C h).
Proof using. intros HC. apply Z.mod_pos_bound. lia. Qed.

(** ** Probing *)
Section Probe.
Context (C : Z) tbl (Hwf : wf_table C tbl) (Hroom : count tbl < C).

(** The slots before [p], seen from the start of [h], hold other keys. *)
Definition passed (k : K) (h p : Z) : Prop :=
  forall i, in_table C i -> dist C (start C h) i < dist C (start C h) p -> exists x, slot tbl i = Some x /\ ~ same k h x.

Lemma Probe_loop_spec fuel k h p :
  in_table C p -> passed k h p -> C - dist C (start C h) p <= Z.of_nat fuel ->
  exists p', Probe_loop match_ fuel tbl C k h p = Some p' /\ in_table C p' /\
    ((exists x, slot tbl p' = Some x /\ same k h x) \/ (slot tbl p' = None /\ passed k h p')).
Proof using Hwf Hroom.
  pose proof (wf_C _ _ Hwf) as HC. pose proof (start_in C h ltac:(lia)) as Hs.
  revert p. induction fuel as [|fuel IH]; intros p Hp Hpass Hf.
  - pose proof (dist_range C ltac:(lia) (start C h) p). lia.
  - cbn [Probe_loop]. destruct (arr_get_lt tbl p) as [e He]; [rewrite (wf_size _ _ Hwf); exact Hp|].
    rewrite He. cbn [mbind option_bind]. pose proof (slot_get tbl p e He) as Hsl. destruct (key e) as [k'|] eqn:Ek.
    2: { exists p. split; [done|]. split; [done|]. right. by rewrite Hsl. }
    cbn in Hsl. destruct (negb (h =? hash e) || negb (match_ k k')) eqn:E.
    + assert (Hns : ~ same k h (k', value e, hash e)).
      { intros [-> Hm]. rewrite Z.eqb_refl, Hm in E. done. }
      destruct (empty_slot tbl) as (j & Hj & Hej); [by rewrite (wf_size _ _ Hwf)|]. rewrite (wf_size _ _ Hwf) in Hj.
      assert (Hdj : dist C (start C h) p < dist C (start C h) j).
      { destruct (Z.lt_trichotomy (dist C (start C h) p) (dist C (start C h) j)) as [|[Heq|Hlt]]; [done| |].
        - apply (dist_inj C ltac:(lia)) in Heq; [|done..]. subst j. by rewrite Hsl in Hej.
        - destruct (Hpass j Hj Hlt) as (x & Hx & _). by rewrite Hx in Hej. }
      pose proof (dist_range C ltac:(lia) (start C h) j).
      assert (Hd : dist C (start C h) (succ_index C p) = dist C (start C h) p + 1) by (apply dist_succ; done || lia).
      apply IH; [by apply succ_in; [lia|]| |rewrite Hd; lia].
      intros i Hi Hlt. rewrite Hd in Hlt. destruct (Z.eq_dec (dist C (start C h) i) (dist C (start C h) p)) as [Heq|Hne].
      * apply (dist_inj C ltac:(lia)) in Heq; [|done..]. subst i. by exists (k', value e, hash e).
      * apply Hpass; [done|lia].
    + exists p. split; [done|]. split; [done|]. left. exists (k', value e, hash e). split; [done|].
      zbool. by split.
Qed.

Lemma Probe_spec st k h : map_ st = tbl -> hm_capacity st = C ->
  exists p, Probe match_ st k h = Some p /\ in_table C p /\
    ((exists x, slot tbl p = Some x /\ same k h x) \/
     (slot tbl p = None /\ (forall i x, slot tbl i = Some x -> ~ same k h x) /\
      forall j, in_table C j -> slot tbl j = None -> dist C (start C h) p <= dist C (start C h) j)).
Proof using Hwf Hroom.
  intros Hst HCst. unfold Probe. rewrite Hst, HCst, mask_start by apply Hwf. pose proof (wf_C _ _ Hwf) as HC.
  assert (Hd0 : dist C (start C h) (start C h) = 0) by (unfold dist; rewrite Z.sub_diag; apply Z.mod_0_l; lia).
  destruct (Probe_loop_spec (S (Z.to_nat C)) k h (start C h)) as (p & Hp & Hin & Hor).
  - apply start_in. lia.
  - intros i Hi Hlt. rewrite Hd0 in Hlt. pose proof (dist_range C ltac:(lia) (start C h) i). lia.
  - rewrite Hd0. lia.
  - exists p. split; [done|]. split; [done|]. destruct Hor as [?|[Hn Hpass]]; [by left|right]. split; [done|]. split.
    + intros i [[k' v'] h'] Hi [-> Hm].
      pose proof (wf_chain _ _ Hwf _ _ _ _ _ Hi Hin Hn) as Hlt.
      destruct (Hpass i (slot_in _ _ _ _ (wf_size _ _ Hwf) Hi) Hlt) as (x & Hx & Hns). rewrite Hi in Hx.
      injection Hx as <-. apply Hns. by split.
    + intros j Hj Hnj. destruct (Z.le_gt_cases (dist C (start C h) p) (dist C (start C h) j)) as [|Hgt]; [done|].
      destruct (Hpass j Hj ltac:(lia)) as (x & Hx & _). by rewrite Hx in Hnj.
Qed.
End Probe.

(** ** Changing one slot *)

(** Only keys and hashes matter to the invariant. *)
Definition shape (x : K * option V * Z) : K * Z := let '(k, _, h) := x in (k, h).
Lemma wf_shape C tbl tbl' :
  wf_table C tbl -> zlen tbl' = zlen tbl -> (forall i, shape <$> slot tbl' i = shape <$> slot tbl i) -> wf_table C tbl'.
Proof using.
  intros [Hz Hp Hh Hc Hu] Hlen Hs.
  assert (Hback : forall i k v h, slot tbl' i = Some (k, v, h) -> exists v', slot tbl i = Some (k, v', h)).
  { intros i k v h Hi. specialize (Hs i). rewrite Hi in Hs. destruct (slot tbl i) as [[[k' v'] h']|]; [|done].
    injection Hs as <- <-. by exists v'. }
  assert (Hnone : forall i, slot tbl' i = None -> slot tbl i = None).
  { intros i Hi. specialize (Hs i). rewrite Hi in Hs. by destruct (slot tbl i). }
  split; [lia|done| | |].
  - intros i k v h Hi. destruct (Hback i k v h Hi) as [v' Hv]. by eapply Hh.
  - intros i k v h j Hi Hj Hn. destruct (Hback i k v h Hi) as [v' Hv]. eapply Hc; [exact Hv|done|by apply Hnone].
  - intros i j k v h [[k2 v2] h2] Hi Hj Hsame. destruct (Hback i k v h Hi) as [v' Hv]. destruct (Hback j k2 v2 h2 Hj) as [v2' Hv2].
    eapply Hu; [exact Hv|exact Hv2|exact Hsame].
Qed.

Lemma SetValue_spec st p k v0 h v :
  wf_map st -> slot (map_ st) p = Some (k, v0, h) ->
  exists st', SetValue st p v = Some st' /\ wf_map st' /\ hm_capacity st' = hm_capacity st /\
    occupancy_ st' = occupancy_ st /\ slot (map_ st') p = Some (k, v, h) /\
    forall i, i <> p -> slot (map_ st') i = slot (map_ st) i.
Proof using.
  intros [Hwf Hc Hr] Hs. unfold SetValue. unfold slot in Hs. destruct (arr_get (map_ st) p) as [e|] eqn:He; [|done].
  cbn in Hs. destruct (key e) as [k0|] eqn:Ek; [|done]. injection Hs as -> <- <-.
  destruct (arr_set_in (map_ st) p (MkEntry (Some k) v (hash e))) as [tbl Ht]; [by apply arr_get_Some in He|].
  cbn [mbind option_bind]. rewrite Ek, Ht. eexists. split; [reflexivity|].
  pose proof (slot_get _ _ _ He) as Hsl. rewrite Ek in Hsl. cbn in Hsl.
  assert (Hnew : forall i, slot tbl i = if p =? i then Some (k, v, hash e) else slot (map_ st) i) by (intros i; by rewrite (slot_set _ _ _ _ _ Ht)).
  split; [split; cbn|cbn].
  - apply (wf_shape _ (map_ st) tbl Hwf); [by apply arr_set_length in Ht|]. intros i. rewrite Hnew.
    destruct (Z.eqb_spec p i) as [<-|]; [by rewrite Hsl|done].
  - rewrite (count_set _ _ _ _ _ He Ht). unfold occ. rewrite Ek. cbn. lia.
  - done.
  - split; [done|]. split; [done|]. split; [by rewrite Hnew, Z.eqb_refl|].
    intros i Hi. rewrite Hnew. destruct (Z.eqb_spec p i); [done|done].
Qed.

Lemma insert_spec C tbl p k h :
  wf_table C tbl -> is_uint 32 h -> in_table C p -> slot tbl p = None ->
  (forall i x, slot tbl i = Some x -> ~ same k h x) ->
  (forall j, in_table C j -> slot tbl j = None -> dist C (start C h) p <= dist C (start C h) j) ->
  exists tbl', arr_set tbl p (MkEntry (Some k) None h) = Some tbl' /\ wf_table C tbl' /\ count tbl' = count tbl + 1 /\
    slot tbl' p = Some (k, None, h) /\ forall i, i <> p -> slot tbl' i = slot tbl i.
Proof using MatchFun0.
  intros Hwf Hh Hp Hn Habs Hfirst. pose proof (wf_C _ _ Hwf) as HC. pose proof (wf_size _ _ Hwf) as Hz.
  destruct (arr_set_in tbl p (MkEntry (Some k) None h)) as [tbl' Ht]; [by rewrite Hz|]. exists tbl'. split; [done|].
  assert (Hnew : forall i, slot tbl' i = if p =? i then Some (k, None, h) else slot tbl i) by (intros i; by rewrite (slot_set _ _ _ _ _ Ht)).
  split; [|split; [|split]].
  - split.
    + by rewrite (arr_set_length _ _ _ _ Ht).
    + apply Hwf.
    + intros i k0 v0 h0 Hi. rewrite Hnew in Hi. destruct (p =? i); [by injection Hi as <- <- <-|by eapply (wf_hash _ _ Hwf)].
    + intros i k0 v0 h0 j Hi Hj Hnj. rewrite Hnew in Hi, Hnj. destruct (Z.eqb_spec p j) as [|Hpj]; [done|].
      destruct (Z.eqb_spec p i) as [<-|Hpi]; [|by eapply (wf_chain _ _ Hwf)]. injection Hi as <- <- <-.
      specialize (Hfirst j Hj Hnj). destruct (Z.eq_dec (dist C (start C h) p) (dist C (start C h) j)) as [He|]; [|lia].
      apply (dist_inj C ltac:(lia)) in He; [done|apply start_in; lia|done|done].
    + intros i j k0 v0 h0 x Hi Hj Hsame. rewrite Hnew in Hi, Hj.
      destruct (Z.eqb_spec p i) as [<-|Hpi], (Z.eqb_spec p j) as [<-|Hpj]; [done| | |by eapply (wf_unique _ _ Hwf)].
      * injection Hi as <- <- <-. exfalso. by eapply Habs.
      * injection Hj as <-. exfalso. apply (Habs i _ Hi). destruct Hsame as [-> Hm]. split; [done|]. by apply match_sym.
  - unfold slot in Hn. destruct (arr_get tbl p) as [e|] eqn:He.
    2: { apply arr_get_None in He. unfold in_table in Hp. lia. }
    rewrite (count_set _ _ _ _ _ He Ht). unfold occ. cbn in Hn |- *. destruct (key e); [done|]. lia.
  - by rewrite Hnew, Z.eqb_refl.
  - intros i Hi. rewrite Hnew. by destruct (Z.eqb_spec p i).
Qed.

(** What the changes mean for the contents. *)
Lemma holds_update tbl tbl' p k v h k0 h0 w :
  slot tbl' p = Some (k, v, h) -> (forall i, i <> p -> slot tbl' i = slot tbl i) ->
  (forall x, slot tbl p = Some x -> same k h x) -> (forall i x, slot tbl i = Some x -> same k h x -> i = p) ->
  holds tbl' k0 h0 w <-> if (h0 =? h) && match_ k0 k then w = v else holds tbl k0 h0 w.
Proof using MatchFun0.
  intros Hp Hother Hold Hun. unfold holds. split.
  - intros (i & k' & Hi & Hm). destruct (Z.eq_dec i p) as [->|Hne].
    + rewrite Hp in Hi. injection Hi as <- <- <-. by rewrite Z.eqb_refl, Hm.
    + rewrite Hother in Hi by done. destruct ((h0 =? h) && match_ k0 k) eqn:E; [|by exists i, k'].
      zbool. subst h0. exfalso. apply Hne. apply (Hun i _ Hi). split; [done|].
      eapply match_trans; [by apply match_sym|done].
  - destruct ((h0 =? h) && match_ k0 k) eqn:E.
    + zbool. subst h0. intros ->. by exists p, k.
    + intros (i & k' & Hi & Hm). destruct (Z.eq_dec i p) as [->|Hne]; [|exists i, k'; by rewrite Hother].
      destruct (Hold _ Hi) as [-> Hm']. exfalso. rewrite Z.eqb_refl in E. cbn in E.
      assert (match_ k0 k = true) by (eapply match_trans; [exact Hm|by apply match_sym]). congruence.
Qed.

(** Storing into an occupied entry rebinds its key. *)
Lemma SetValue_holds st p k v0 h v : wf_map st -> slot (map_ st) p = Some (k, v0, h) ->
  exists st', SetValue st p v = Some st' /\ wf_map st' /\ hm_capacity st' = hm_capacity st /\ occupancy_ st' = occupancy_ st /\
    forall k0 h0 w, holds (map_ st') k0 h0 w <-> if (h0 =? h) && match_ k0 k then w = v else holds (map_ st) k0 h0 w.
Proof using MatchFun0.
  intros Hwf Hs. destruct (SetValue_spec st p k v0 h v Hwf Hs) as (st' & -> & Hwf' & HC & Ho & Hs' & Hother).
  exists st'. do 4 (split; [done|]). intros k0 h0 w. apply (holds_update _ _ p k v h k0 h0 w Hs' Hother).
  - intros x Hx. rewrite Hs in Hx. injection Hx as <-. split; [done|apply match_refl].
  - intros i x Hx Hsame. symmetry. eapply (wf_unique _ _ (wf_tbl _ Hwf)); [exact Hs|exact Hx|exact Hsame].
Qed.

(** Matching keys match the same keys. *)
Lemma match_class k0 k k1 : match_ k0 k = true -> match_ k0 k1 = match_ k k1.
Proof using MatchFun0.
  intros Hm. apply eq_true_iff_eq. split; intros; eapply match_trans; try done; by apply match_sym.
Qed.

(** ** Lookup and growth *)

(** The outcome of an insertion: the entry holds the key with a null value,
    nothing else has changed. *)
Definition inserted st (k : K) (h p : Z) st' : Prop :=
  wf_map st' /\ (exists k', slot (map_ st') p = Some (k', None, h) /\ match_ k k' = true) /\
  forall k0 h0 w, holds (map_ st') k0 h0 w <-> if (h0 =? h) && match_ k0 k then w = None else holds (map_ st) k0 h0 w.

Lemma Lookup_present depth st k h insert p x :
  wf_map st -> Probe match_ st k h = Some p -> slot (map_ st) p = Some x ->
  Lookup_depth match_ depth st k h insert = Some (Some p, st).
Proof using.
  intros Hwf Hp Hs. unfold slot in Hs. destruct (arr_get (map_ st) p) as [e|] eqn:He; [|done]. cbn in Hs.
  destruct (key e) as [k'|] eqn:Ek; [|done].
  destruct depth; cbn [Lookup_depth]; rewrite Hp; cbn [mbind option_bind]; rewrite He; cbn [mbind option_bind]; by rewrite Ek.
Qed.

Lemma Lookup_absent depth st k h p :
  wf_map st -> Probe match_ st k h = Some p -> in_table (hm_capacity st) p -> slot (map_ st) p = None ->
  Lookup_depth match_ depth st k h false = Some (None, st).
Proof using.
  intros Hwf Hp Hin Hs. destruct (arr_get_lt (map_ st) p) as [e He]; [rewrite (wf_size _ _ (wf_tbl _ Hwf)); exact Hin|].
  rewrite (slot_get _ _ _ He) in Hs. destruct (key e) as [k'|] eqn:Ek; [done|].
  destruct depth; cbn [Lookup_depth]; rewrite Hp; cbn [mbind option_bind]; rewrite He; cbn [mbind option_bind]; by rewrite Ek.
Qed.

(** An insertion up to the test for growth. *)
Lemma Lookup_insert_step depth st k h p :
  wf_map st -> is_uint 32 h -> Probe match_ st k h = Some p -> in_table (hm_capacity st) p -> slot (map_ st) p = None ->
  (forall i x, slot (map_ st) i = Some x -> ~ same k h x) ->
  (forall j, in_table (hm_capacity st) j -> slot (map_ st) j = None ->
     dist (hm_capacity st) (start (hm_capacity st) h) p <= dist (hm_capacity st) (start (hm_capacity st) h) j) ->
  exists tbl, let st1 := MkHashMap tbl (hm_capacity st) (occupancy_ st + 1) in
    wf_table (hm_capacity st) tbl /\ count tbl = occupancy_ st + 1 /\ slot tbl p = Some (k, None, h) /\
    (forall k0 h0 w, holds tbl k0 h0 w <-> if (h0 =? h) && match_ k0 k then w = None else holds (map_ st) k0 h0 w) /\
    Lookup_depth match_ depth st k h true =
      if occupancy_ st + 1 + (occupancy_ st + 1) / 4 >=? hm_capacity st then
        match depth with
        | O => None
        | S d => st ← Resize_with (fun st k h => Lookup_depth match_ d st k h true) st1; p ← Probe match_ st k h; Some (Some p, st)
        end
      else Some (Some p, st1).
Proof using MatchFun0.
  intros Hwf Hh Hp Hin Hn Habs Hfirst. pose proof (wf_tbl _ Hwf) as Ht. pose proof (wf_C _ _ Ht) as HC.
  destruct (insert_spec _ _ p k h Ht Hh Hin Hn Habs Hfirst) as (tbl & Hset & Hwt & Hcnt & Hs & Hother).
  exists tbl. pose proof (wf_count _ Hwf) as Hoc. pose proof (wf_room _ Hwf) as Hroom. pose proof (count_range (map_ st)).
  split; [done|]. split; [lia|]. split; [done|]. split.
  { intros k0 h0 w. apply (holds_update _ _ p k None h); [done|done| |].
    - intros x Hx. by rewrite Hx in Hn.
    - intros i x Hx Hsame. by destruct (Habs i x Hx). }
  destruct (arr_get_lt (map_ st) p) as [e He]; [rewrite (wf_size _ _ Ht); exact Hin|].
  rewrite (slot_get _ _ _ He) in Hn. destruct (key e) as [k'|] eqn:Ek; [done|].
  assert (Hu1 : u32 (occupancy_ st + 1) = occupancy_ st + 1) by (apply uwrap_id; unfold is_uint; lia).
  assert (Hu2 : u32 (occupancy_ st + 1 + (occupancy_ st + 1) / 4) = occupancy_ st + 1 + (occupancy_ st + 1) / 4)
    by (apply uwrap_id; unfold is_uint; divlia).
  destruct depth; cbn [Lookup_depth]; rewrite Hp; cbn [mbind option_bind]; rewrite He; cbn [mbind option_bind];
    rewrite Ek, Hset; cbn [mbind option_bind]; rewrite Hu1, Hu2; done.
Qed.

Lemma Lookup_insert_small depth st k h :
  wf_map st -> is_uint 32 h -> (forall i x, slot (map_ st) i = Some x -> ~ same k h x) ->
  occupancy_ st + 1 + (occupancy_ st + 1) / 4 < hm_capacity st ->
  exists p st', Lookup_depth match_ depth st k h true = Some (Some p, st') /\ inserted st k h p st' /\
    slot (map_ st') p = Some (k, None, h) /\ hm_capacity st' = hm_capacity st /\ occupancy_ st' = occupancy_ st + 1.
Proof using MatchFun0.
  intros Hwf Hh Habs Hroom. pose proof (wf_tbl _ Hwf) as Ht. pose proof (wf_C _ _ Ht) as HC.
  destruct (Probe_spec (hm_capacity st) (map_ st) Ht ltac:(rewrite <- (wf_count _ Hwf); apply Hwf) st k h eq_refl eq_refl)
    as (p & Hp & Hin & [(x & Hx & Hs)|(Hn & _ & Hfirst)]); [by destruct (Habs p x Hx)|].
  destruct (Lookup_insert_step depth st k h p) as (tbl & Hwt & Hcnt & Hs & Hholds & Heq); try done. cbv zeta in Heq.
  rewrite Heq, Z.geb_leb. destruct (Z.leb_spec (hm_capacity st) (occupancy_ st + 1 + (occupancy_ st + 1) / 4)); [lia|].
  eexists p, _. split; [reflexivity|]. cbn. split; [|done]. split; [|split].
  - split; cbn; [done|lia|]. pose proof (wf_count _ Hwf). pose proof (count_range (map_ st)). divlia.
  - exists k. split; [done|apply match_refl].
  - done.
Qed.

Lemma slot_none_holds tbl k h v : (forall i, slot tbl i = None) -> ~ holds tbl k h v.
Proof using. intros Hn (i & k' & Hi & _). by rewrite Hn in Hi. Qed.

Lemma Initialize_wf c : 0 <= c <= 30 ->
  wf_map (Initialize (2 ^ c)) /\ (forall i, slot (map_ (@Initialize K V (2 ^ c))) i = None).
Proof using.
  intros Hc. assert (Hslot : forall n i, slot (replicate n (@Entry_new K V)) i = None).
  { intros n i. unfold slot, arr_get. destruct (0 <=? i); [|done]. destruct (_ !! _) as [e|] eqn:E; [|done].
    by apply lookup_replicate in E as [-> _]. }
  assert (Hp : 0 < 2 ^ c) by lia.
  split; [|intros i; apply Hslot]. split; cbn.
  - split.
    + unfold zlen. rewrite length_replicate. lia.
    + by exists c.
    + intros i k v h Hi. by rewrite Hslot in Hi.
    + intros i k v h j Hi. by rewrite Hslot in Hi.
    + intros i j k v h x Hi. by rewrite Hslot in Hi.
  - induction (Z.to_nat (2 ^ c)); [done|]. cbn [replicate count]. rewrite <- IHn. done.
  - done.
Qed.

Lemma slot_cons e tbl i : slot (e :: tbl) i = if i =? 0 then k ← key e; Some (k, value e, hash e) else slot tbl (i - 1).
Proof using.
  unfold slot, arr_get. destruct (Z.eqb_spec i 0) as [->|Hne]; [done|].
  destruct (Z.leb_spec 0 i), (Z.leb_spec 0 (i - 1)); try lia; [|done].
  by replace (Z.to_nat i) with (S (Z.to_nat (i - 1))) by lia.
Qed.
Lemma slot_tail e tbl i x : slot tbl i = Some x -> slot (e :: tbl) (i + 1) = Some x.
Proof using.
  intros Hi. rewrite slot_cons. destruct (Z.eqb_spec (i + 1) 0) as [He|].
  - unfold slot, arr_get in Hi. destruct (Z.leb_spec 0 i); [lia|done].
  - by replace (i + 1 - 1) with i by lia.
Qed.

Lemma count_0 tbl : count tbl = 0 -> forall i, slot tbl i = None.
Proof using.
  induction tbl as [|e tbl IH]; intros Hc i; [unfold slot, arr_get; by destruct (0 <=? i)|].
  cbn [count] in Hc. pose proof (count_range tbl). unfold occ in Hc. destruct (key e) eqn:Ek; [lia|].
  rewrite slot_cons, Ek. destruct (i =? 0); [done|]. apply IH. lia.
Qed.

Lemma holds_cons e tbl k h v : holds (e :: tbl) k h v <->
  (exists k', key e = Some k' /\ value e = v /\ hash e = h /\ match_ k k' = true) \/ holds tbl k h v.
Proof using.
  split.
  - intros (i & k' & Hi & Hm). rewrite slot_cons in Hi. destruct (i =? 0); [left|right; by exists (i - 1), k'].
    destruct (key e) as [k0|]; [|done]. injection Hi as -> <- <-. by exists k'.
  - intros [(k' & Hk & Hv & Hh & Hm)|(i & k' & Hi & Hm)].
    + exists 0, k'. rewrite slot_cons, Z.eqb_refl, Hk. cbn. by rewrite Hv, Hh.
    + exists (i + 1), k'. split; [by apply slot_tail|done].
Qed.

(** One round of the loop of [Resize]. *)
Lemma rehash_entry st k h v :
  wf_map st -> is_uint 32 h -> (forall i x, slot (map_ st) i = Some x -> ~ same k h x) ->
  occupancy_ st + 1 + (occupancy_ st + 1) / 4 < hm_capacity st ->
  exists p st1 st2, Lookup_depth match_ 0 st k h true = Some (Some p, st1) /\ SetValue st1 p v = Some st2 /\ wf_map st2 /\
    hm_capacity st2 = hm_capacity st /\ occupancy_ st2 = occupancy_ st + 1 /\
    forall k0 h0 w, holds (map_ st2) k0 h0 w <-> if (h0 =? h) && match_ k0 k then w = v else holds (map_ st) k0 h0 w.
Proof using MatchFun0.
  intros Hwf Hh Hno Hroom.
  destruct (Lookup_insert_small 0 st k h Hwf Hh Hno Hroom) as (p & st1 & HL & (Hwf1 & _ & Hholds1) & Hs1 & HC1 & Ho1).
  destruct (SetValue_holds st1 p k None h v Hwf1 Hs1) as (st2 & HS & Hwf2 & HC2 & Ho2 & Hholds2).
  exists p, st1, st2. do 3 (split; [done|]). split; [lia|]. split; [lia|]. intros k0 h0 w. rewrite Hholds2.
  specialize (Hholds1 k0 h0 w). by destruct ((h0 =? h) && match_ k0 k).
Qed.

(** What has been moved and what is left make up the contents. *)
Lemma holds_moved tbl e old k : key e = Some k -> (forall j x, slot tbl j = Some x -> ~ same k (hash e) x) ->
  forall k0 h0 w, ((if (h0 =? hash e) && match_ k0 k then w = value e else holds tbl k0 h0 w) \/ holds old k0 h0 w) <->
    holds tbl k0 h0 w \/ holds (e :: old) k0 h0 w.
Proof using MatchFun0.
  intros Ek Hno k0 h0 w. rewrite holds_cons. destruct ((h0 =? hash e) && match_ k0 k) eqn:Em.
  - zbool. subst h0. split.
    + intros [->|Hold]; [right; left; by exists k|by right; right].
    + intros [Hst|[(k' & Hk' & <- & _ & _)|Hold]]; [exfalso|by left|by right].
      destruct Hst as (j & k' & Hj & Hm'). apply (Hno j _ Hj). split; [done|].
      eapply match_trans; [apply match_sym; eassumption|done].
  - split; [intros [?|?]; [by left|by right; right]|].
    intros [?|[(k' & Hk' & _ & <- & Hm)|?]]; [by left| |by right]. rewrite Ek in Hk'. injection Hk' as <-.
    rewrite Z.eqb_refl, Hm in Em. done.
Qed.

(** Moving the entries of the old table, which match neither each other nor
    an entry of the new one. *)
Lemma Resize_loop_spec C old st :
  wf_map st -> hm_capacity st = 2 * C -> occupancy_ st + count old <= C ->
  (forall i k v h, slot old i = Some (k, v, h) -> is_uint 32 h /\ forall j x, slot (map_ st) j = Some x -> ~ same k h x) ->
  (forall i j k v h x, slot old i = Some (k, v, h) -> slot old j = Some x -> same k h x -> i = j) ->
  exists st', Resize_loop (fun st k h => Lookup_depth match_ 0 st k h true) old (count old) st = Some st' /\
    wf_map st' /\ hm_capacity st' = 2 * C /\ occupancy_ st' = occupancy_ st + count old /\
    forall k h v, holds (map_ st') k h v <-> holds (map_ st) k h v \/ holds old k h v.
Proof using MatchFun0.
  revert st. induction old as [|e old IH]; intros st Hwf HC Hroom Hdis Hun.
  - exists st. cbn. split; [done|]. do 2 (split; [done|]). split; [lia|]. intros k h v. split; [by left|].
    intros [?|(i & k' & Hi & _)]; [done|]. unfold slot, arr_get in Hi. by destruct (0 <=? i).
  - cbn [Resize_loop count]. cbn [count] in Hroom. pose proof (count_range old) as Hco.
    assert (Hdis' : forall i k v h, slot old i = Some (k, v, h) -> is_uint 32 h /\ forall j x, slot (map_ st) j = Some x -> ~ same k h x)
      by (intros i k v h Hi; by eapply Hdis, slot_tail).
    assert (Hun' : forall i j k v h x, slot old i = Some (k, v, h) -> slot old j = Some x -> same k h x -> i = j).
    { intros i j k v h x Hi Hj Hs. assert (i + 1 = j + 1); [|lia].
      eapply Hun; [by apply slot_tail|by apply slot_tail|done]. }
    destruct (occ e + count old >? 0) eqn:E.
    2: { assert (Hc0 : count (e :: old) = 0) by (cbn [count]; unfold occ in *; destruct (key e); zbool; lia).
         exists st. split; [done|]. split; [done|]. split; [done|]. split; [cbn [count] in Hc0; lia|].
         intros k h v. split; [by left|]. intros [?|Hh]; [done|]. by apply slot_none_holds in Hh; [|apply count_0]. }
    unfold occ in *. destruct (key e) as [k|] eqn:Ek.
    + assert (H0 : slot (e :: old) 0 = Some (k, value e, hash e)) by (rewrite slot_cons, Z.eqb_refl, Ek; done).
      destruct (Hdis 0 k (value e) (hash e) H0) as [Hh Hno].
      destruct (rehash_entry st k (hash e) (value e) Hwf Hh Hno) as (p & st1 & st2 & -> & HS & Hwf2 & HC2 & Ho2 & Hholds2).
      { pose proof (wf_count _ Hwf). pose proof (count_range (map_ st)). rewrite HC. divlia. }
      cbn [mbind option_bind]. rewrite HS. cbn [mbind option_bind]. replace (1 + count old - 1) with (count old) by lia.
      destruct (IH st2) as (st' & Hst' & Hwf' & HC' & Ho' & Hholds'); [done|lia|lia| |done|].
      { intros i k1 v1 h1 Hi. split; [by apply (Hdis' i k1 v1 h1)|]. intros j x Hj Hsame.
        assert (Hcon : holds (map_ st2) k1 h1 x.1.2).
        { destruct x as [[k2 v2] h2]. destruct Hsame as [-> Hm]. exists j, k2. done. }
        rewrite Hholds2 in Hcon. destruct ((h1 =? hash e) && match_ k1 k) eqn:Em.
        - zbool. subst h1. assert (i + 1 = 0); [|pose proof (slot_in _ _ _ _ eq_refl Hi) as [? _]; lia].
          eapply Hun; [by apply slot_tail|exact H0|by split].
        - destruct Hcon as (j' & k' & Hj' & Hm'). destruct (Hdis' i k1 v1 h1 Hi) as [_ Hno']. apply (Hno' j' _ Hj'). by split. }
      exists st'. split; [done|]. split; [done|]. split; [done|]. split; [lia|].
      intros k0 h0 w. rewrite Hholds', Hholds2. by apply holds_moved.
    + rewrite Z.add_0_l. rewrite Z.add_0_l in Hroom. destruct (IH st) as (st' & Hst' & Hwf' & HC' & Ho' & Hholds'); [done..|].
      exists st'. split; [done|]. split; [done|]. split; [done|]. split; [done|]. intros k h v.
      rewrite Hholds', holds_cons. split; [intros [?|?]; [by left|by right; right]|].
      intros [?|[(k' & Hk' & _)|?]]; [by left| |by right]. by rewrite Ek in Hk'.
Qed.

(** [Resize], also of a full table. *)
Lemma Resize_with_spec C tbl occupancy :
  wf_table C tbl -> C <= 2 ^ 29 -> occupancy = count tbl ->
  exists st', Resize_with (fun st k h => Lookup_depth match_ 0 st k h true) (MkHashMap tbl C occupancy) = Some st' /\
    wf_map st' /\ hm_capacity st' = 2 * C /\ occupancy_ st' = occupancy /\
    forall k h v, holds (map_ st') k h v <-> holds tbl k h v.
Proof using MatchFun0.
  intros Hwf HC ->. destruct Hwf as [Hz (c & Hc & ->) Hh Hchain Hun]. unfold Resize_with. cbn [map_ hm_capacity occupancy_].
  assert (Hu : u32 (2 ^ c * 2) = 2 ^ (c + 1)).
  { rewrite Z.pow_add_r by lia. apply uwrap_id. unfold is_uint. lia. }
  rewrite Hu. assert (Hc1 : c + 1 <= 30).
  { apply Z.pow_le_mono_r_iff in HC; lia. }
  destruct (Initialize_wf (c + 1)) as [Hi Hempty]; [lia|]. pose proof (count_range tbl) as Hcr. rewrite Hz in Hcr.
  destruct (Resize_loop_spec (2 ^ c) tbl (Initialize (2 ^ (c + 1)))) as (st' & Hst & Hwf' & HC' & Ho & Hholds); try done.
  - cbn. rewrite Z.pow_add_r by lia. lia.
  - cbn. lia.
  - intros i k v h Hs. split; [by eapply Hh|]. intros j x Hj. by rewrite Hempty in Hj.
  - exists st'. split; [done|]. split; [done|]. split; [done|]. split; [done|]. intros k h v. rewrite Hholds.
    split; [|by right]. intros [Hx|?]; [|done]. by apply slot_none_holds in Hx.
Qed.

Lemma Lookup_spec st k h : wf_map st -> is_uint 32 h -> hm_capacity st <= 2 ^ 29 ->
  (exists p x, slot (map_ st) p = Some x /\ same k h x /\ forall insert, Lookup match_ st k h insert = Some (Some p, st)) \/
  ((forall i x, slot (map_ st) i = Some x -> ~ same k h x) /\
   Lookup match_ st k h false = Some (None, st) /\
   exists p st', Lookup match_ st k h true = Some (Some p, st') /\ inserted st k h p st' /\
     hm_capacity st <= hm_capacity st' <= 2 * hm_capacity st).
Proof using MatchFun0.
  intros Hwf Hh HC. pose proof (wf_tbl _ Hwf) as Ht. pose proof (wf_C _ _ Ht) as HC0.
  assert (Hroom : count (map_ st) < hm_capacity st) by (rewrite <- (wf_count _ Hwf); apply Hwf).
  destruct (Probe_spec (hm_capacity st) (map_ st) Ht Hroom st k h eq_refl eq_refl)
    as (p & Hp & Hin & [(x & Hx & Hs)|(Hn & Habs & Hfirst)]).
  { left. exists p, x. split; [done|]. split; [done|]. intros insert. by eapply Lookup_present. }
  right. split; [done|]. split; [by eapply Lookup_absent|].
  destruct (Lookup_insert_step 1 st k h p) as (tbl & Hwt & Hcnt & Hs & Hholds & Heq); try done. cbv zeta in Heq.
  unfold Lookup. rewrite Heq, Z.geb_leb. pose proof (wf_count _ Hwf) as Hoc. pose proof (count_range (map_ st)).
  destruct (Z.leb_spec (hm_capacity st) (occupancy_ st + 1 + (occupancy_ st + 1) / 4)) as [Hg|Hg].
  - destruct (Resize_with_spec (hm_capacity st) tbl (occupancy_ st + 1)) as (st2 & -> & Hwf2 & HC2 & Ho2 & Hholds2); [done|done|lia|].
    cbn [mbind option_bind]. pose proof (wf_tbl _ Hwf2) as Ht2.
    destruct (Probe_spec (hm_capacity st2) (map_ st2) Ht2 ltac:(rewrite <- (wf_count _ Hwf2); apply Hwf2) st2 k h eq_refl eq_refl)
      as (p2 & -> & _ & Hor). cbn [mbind option_bind].
    assert (Hk : holds (map_ st2) k h None).
    { apply Hholds2, Hholds. by rewrite Z.eqb_refl, match_refl. }
    destruct Hk as (i & k' & Hi & Hm).
    destruct Hor as [([[k2 v2] h2] & Hx & [<- Hm2])|(_ & Habs2 & _)]; [|exfalso; by apply (Habs2 i _ Hi)].
    assert (i = p2) as ->.
    { eapply (wf_unique _ _ Ht2); [exact Hi|exact Hx|]. split; [done|]. eapply match_trans; [by apply match_sym|done]. }
    exists p2, st2. split; [done|]. split; [|lia]. split; [done|]. split; [by exists k'|].
    intros k0 h0 w. rewrite Hholds2. apply Hholds.
  - eexists p, _. split; [reflexivity|]. cbn. split; [|lia]. split; [|split].
    + split; cbn; [done|lia|]. divlia.
    + exists k. split; [done|apply match_refl].
    + done.
Qed.

(** ** Removal *)

(** The invariant with a hole at [c], whose contents no longer count. *)
Record hole_inv (C : Z) tbl (c : Z) : Prop := {
  hole_size : zlen tbl = C;
  hole_pow2 : exists n, 0 <= n <= 30 /\ C = 2 ^ n;
  hole_full : exists x, slot tbl c = Some x;
  hole_hash : forall i k v h, i <> c -> slot tbl i = Some (k, v, h) -> is_uint 32 h;
  hole_chain : forall i k v h j, i <> c -> slot tbl i = Some (k, v, h) -> in_table C j -> slot tbl j = None ->
    dist C (start C h) i < dist C (start C h) j;
  hole_unique : forall i j k v h x, i <> c -> j <> c -> slot tbl i = Some (k, v, h) -> slot tbl j = Some x -> same k h x -> i = j }.
(** The entries up to [p] are found without passing the hole. *)
Definition scanned (C : Z) tbl (c p : Z) : Prop :=
  forall i k v h, i <> c -> slot tbl i = Some (k, v, h) -> dist C c i <= dist C c p ->
    dist C (start C h) i < dist C (start C h) c.
Definition others tbl (c : Z) (x : K * option V * Z) : Prop := exists i, i <> c /\ slot tbl i = Some x.

(** Moving the entry at [p] into the hole leaves a hole at [p]. *)
Lemma move_spec C tbl c p e k :
  hole_inv C tbl c -> in_table C p -> c <> p -> arr_get tbl p = Some e -> key e = Some k ->
  dist C c p <= dist C (start C (hash e)) p ->
  exists tbl', arr_set tbl c e = Some tbl' /\ hole_inv C tbl' p /\ count tbl' = count tbl /\
    (forall x, others tbl' p x <-> others tbl c x) /\ (forall i, slot tbl' i = None <-> slot tbl i = None).
Proof using.
  intros [Hz Hp2 [xc Hxc] Hh Hchain Hun] Hp Hne He Ek Hd.
  pose proof (slot_in _ _ _ _ Hz Hxc) as Hc. assert (HC : 0 < C) by (unfold in_table in Hp; lia).
  destruct (arr_set_in tbl c e) as [tbl' Ht]; [by rewrite Hz|]. exists tbl'. split; [done|].
  pose proof (slot_get _ _ _ He) as Hsp. rewrite Ek in Hsp. cbn in Hsp.
  assert (Hnew : forall i, slot tbl' i = if c =? i then Some (k, value e, hash e) else slot tbl i)
    by (intros i; rewrite (slot_set _ _ _ _ _ Ht), Ek; done).
  assert (Hnone : forall i, slot tbl' i = None <-> slot tbl i = None).
  { intros i. rewrite Hnew. destruct (Z.eqb_spec c i) as [<-|]; [by rewrite Hxc|done]. }
  (* an entry other than the new hole, seen in the old table *)
  assert (Hback : forall i x, i <> p -> slot tbl' i = Some x -> exists i', i' <> c /\ slot tbl i' = Some x /\ (i = c /\ i' = p \/ i <> c /\ i' = i)).
  { intros i x Hi Hx. rewrite Hnew in Hx. destruct (Z.eqb_spec c i) as [<-|Hci].
    - exists p. split; [done|]. split; [congruence|]. by left.
    - exists i. split; [done|]. split; [done|]. right. done. }
  split; [|split; [|split; [|done]]].
  - split.
    + by rewrite (arr_set_length _ _ _ _ Ht).
    + done.
    + exists (k, value e, hash e). rewrite Hnew. by destruct (c =? p).
    + intros i k0 v0 h0 Hi Hx. destruct (Hback i _ Hi Hx) as (i' & Hi' & Hs & _). by eapply Hh.
    + intros i k0 v0 h0 j Hi Hx Hj Hnj. apply Hnone in Hnj.
      destruct (Hback i _ Hi Hx) as (i' & Hi' & Hs & [[-> ->]|[_ ->]]); [|by eapply Hchain].
      rewrite Hsp in Hs. injection Hs as <- <- <-. pose proof (Hchain p _ _ _ j (not_eq_sym Hne) Hsp Hj Hnj).
      pose proof (dist_moved C HC c p (start C (hash e)) Hc Hp (start_in C (hash e) HC) Hd). lia.
    + intros i j k0 v0 h0 x Hi Hj Hx Hy Hsame.
      destruct (Hback i _ Hi Hx) as (i' & Hi' & Hs & Hor1). destruct (Hback j _ Hj Hy) as (j' & Hj' & Hs' & Hor2).
      pose proof (Hun i' j' _ _ _ _ Hi' Hj' Hs Hs' Hsame). lia.
  - unfold slot in Hxc. destruct (arr_get tbl c) as [ec|] eqn:Hec; [|done]. rewrite (count_set _ _ _ _ _ Hec Ht).
    unfold occ. rewrite Ek. cbn in Hxc. destruct (key ec); [lia|done].
  - intros x. split.
    + intros (i & Hi & Hx). destruct (Hback i x Hi Hx) as (i' & Hi' & Hs & _). by exists i'.
    + intros (i & Hi & Hx). destruct (Z.eq_dec i p) as [->|Hip].
      * exists c. split; [done|]. rewrite Hnew, Z.eqb_refl. congruence.
      * exists i. split; [done|]. rewrite Hnew. by destruct (Z.eqb_spec c i) as [<-|].
Qed.

Lemma Remove_loop_spec C fuel tbl c p empty :
  hole_inv C tbl c -> in_table C p -> scanned C tbl c p ->
  in_table C empty -> slot tbl empty = None -> dist C c p < dist C c empty ->
  dist C c empty - dist C c p <= Z.of_nat fuel ->
  exists tbl' c', Remove_loop fuel tbl C c p = Some (tbl', c') /\ hole_inv C tbl' c' /\ count tbl' = count tbl /\
    (forall x, others tbl' c' x <-> others tbl c x) /\
    (forall i k v h, i <> c' -> slot tbl' i = Some (k, v, h) -> dist C (start C h) i < dist C (start C h) c').
Proof using.
  revert tbl c p. induction fuel as [|fuel IH]; intros tbl c p Hinv Hp Hscan Hem Hnone Hlt Hf; [lia|].
  assert (HC : 0 < C) by (unfold in_table in Hp; lia). destruct (hole_full _ _ _ Hinv) as [xc Hxc].
  pose proof (slot_in _ _ _ _ (hole_size _ _ _ Hinv) Hxc) as Hc.
  cbn [Remove_loop]. cbv zeta. set (nx := succ_index C p).
  assert (Hnx : in_table C nx) by (by apply succ_in).
  pose proof (dist_range C HC c empty) as Hde.
  assert (Hdnx : dist C c nx = dist C c p + 1) by (apply dist_succ; done || lia).
  assert (Hcnx : c <> nx) by (intros Heq; rewrite <- Heq, dist_refl in Hdnx by lia; pose proof (dist_range C HC c p); lia).
  destruct (arr_get_lt tbl nx) as [e He]; [rewrite (hole_size _ _ _ Hinv); exact Hnx|]. rewrite He. cbn [mbind option_bind].
  pose proof (slot_get _ _ _ He) as Hs. destruct (key e) as [k|] eqn:Ek; cbn in Hs.
  - assert (Hnxe : nx <> empty) by (intros ->; by rewrite Hnone in Hs).
    assert (Hdlt : dist C c nx < dist C c empty).
    { destruct (Z.eq_dec (dist C c nx) (dist C c empty)) as [Heq|]; [|lia]. apply (dist_inj C HC) in Heq; done. }
    rewrite mask_start by apply Hinv. pose proof (start_in C (hash e) HC) as Hst.
    rewrite (moves_dist C HC) by done. destruct (Z.leb_spec (dist C c nx) (dist C (start C (hash e)) nx)) as [Hmv|Hkeep].
    + destruct (move_spec C tbl c nx e k Hinv Hnx Hcnx He Ek Hmv) as (tbl1 & -> & Hinv1 & Hc1 & Ho1 & Hn1).
      cbn [mbind option_bind]. pose proof (dist_sub C HC c nx empty Hc Hnx Hem ltac:(lia)) as Hsub.
      destruct (IH tbl1 nx nx) as (tbl' & c' & HR & Hinv' & Hc' & Ho' & Hfin).
      * done.
      * done.
      * intros i k0 v0 h0 Hi Hx Hd. rewrite dist_refl in Hd by lia. pose proof (dist_range C HC nx i).
        exfalso. apply Hi. symmetry. apply (dist_inj C HC nx); [done..| |rewrite dist_refl by lia; lia].
        by apply (slot_in _ _ _ _ (hole_size _ _ _ Hinv1) Hx).
      * done.
      * by apply Hn1.
      * rewrite dist_refl by lia. lia.
      * rewrite dist_refl by lia. lia.
      * exists tbl', c'. split; [done|]. split; [done|]. split; [lia|]. split; [|done]. intros x. by rewrite Ho', Ho1.
    + apply IH; try done; [|lia].
      intros i k0 v0 h0 Hi Hx Hd. destruct (Z.eq_dec i nx) as [->|Hinx].
      * rewrite Hs in Hx. injection Hx as <- <- <-. by apply dist_kept.
      * apply (Hscan i k0 v0 h0 Hi Hx). pose proof (slot_in _ _ _ _ (hole_size _ _ _ Hinv) Hx) as Hin.
        destruct (Z.eq_dec (dist C c i) (dist C c nx)) as [Heq|]; [|lia]. apply (dist_inj C HC) in Heq; done.
  - exists tbl, c. split; [done|]. split; [done|]. split; [done|]. split; [done|].
    intros i k0 v0 h0 Hi Hx. pose proof (slot_in _ _ _ _ (hole_size _ _ _ Hinv) Hx) as Hin.
    destruct (Z.le_gt_cases (dist C c i) (dist C c p)) as [Hle|Hgt]; [by eapply Hscan|].
    apply (dist_beyond C HC c nx i); [done..|by apply start_in| |by eapply (hole_chain _ _ _ Hinv)].
    destruct (Z.eq_dec (dist C c i) (dist C c nx)) as [Heq|]; [|lia].
    apply (dist_inj C HC) in Heq; [|done..]. subst i. by rewrite Hs in Hx.
Qed.

(** Clearing a hole that no search passes. *)
Lemma clear_spec C tbl c :
  hole_inv C tbl c ->
  (forall i k v h, i <> c -> slot tbl i = Some (k, v, h) -> dist C (start C h) i < dist C (start C h) c) ->
  exists e tbl', arr_get tbl c = Some e /\ arr_set tbl c (MkEntry None (value e) (hash e)) = Some tbl' /\
    wf_table C tbl' /\ count tbl' = count tbl - 1 /\ forall i x, slot tbl' i = Some x <-> i <> c /\ slot tbl i = Some x.
Proof using.
  intros [Hz Hp2 [xc Hxc] Hh Hchain Hun] Hfin. unfold slot in Hxc. destruct (arr_get tbl c) as [e|] eqn:He; [|done].
  destruct (arr_set_in tbl c (MkEntry None (value e) (hash e))) as [tbl' Ht]; [by apply arr_get_Some in He|].
  exists e, tbl'. split; [done|]. split; [done|].
  assert (Hnew : forall i, slot tbl' i = if c =? i then None else slot tbl i) by (intros i; by rewrite (slot_set _ _ _ _ _ Ht)).
  assert (Hsome : forall i x, slot tbl' i = Some x <-> i <> c /\ slot tbl i = Some x).
  { intros i x. rewrite Hnew. destruct (Z.eqb_spec c i) as [->|Hne]; [|split; [by intros|by intros [_ ?]]].
    split; [done|by intros [? _]]. }
  split; [|split; [|done]].
  - split.
    + by rewrite (arr_set_length _ _ _ _ Ht).
    + done.
    + intros i k v h [Hi Hs]%Hsome. by eapply Hh.
    + intros i k v h j [Hi Hs]%Hsome Hj Hnj. rewrite Hnew in Hnj. destruct (Z.eqb_spec c j) as [<-|Hcj]; [by eapply Hfin|by eapply Hchain].
    + intros i j k v h x [Hi Hs]%Hsome [Hj Hs']%Hsome Hsame. by apply (Hun i j k v h x).
  - rewrite (count_set _ _ _ _ _ He Ht). unfold occ. cbn in Hxc |- *. destruct (key e); [lia|done].
Qed.

(** Without the slot [c] of a key, the contents are those of the other keys. *)
Lemma others_holds C tbl tbl' c k k' v' h : wf_table C tbl -> slot tbl c = Some (k', v', h) -> match_ k k' = true ->
  (forall x, (exists i, slot tbl' i = Some x) <-> others tbl c x) ->
  forall k0 h0 w, holds tbl' k0 h0 w <-> if (h0 =? h) && match_ k0 k then False else holds tbl k0 h0 w.
Proof using MatchFun0.
  intros Ht Hx Hm Hall k0 h0 w. transitivity (exists k1, others tbl c (k1, w, h0) /\ match_ k0 k1 = true).
  { unfold holds. split.
    - intros (i & k1 & Hi & Hm1). exists k1. split; [|done]. apply Hall. by exists i.
    - intros (k1 & [i Hi]%Hall & Hm1). by exists i, k1. }
  unfold others. destruct ((h0 =? h) && match_ k0 k) eqn:E.
  - zbool. subst h0. split; [|done]. intros (k1 & (i & Hi & Hs) & Hm1).
    rewrite (match_class k0 k k1) in Hm1 by done.
    apply Hi. eapply (wf_unique _ _ Ht); [exact Hs|exact Hx|]. split; [done|].
    eapply match_trans; [by apply match_sym|done].
  - split; [intros (k1 & (i & _ & Hs) & Hm1); by exists i, k1|].
    intros (i & k1 & Hs & Hm1). exists k1. split; [|done]. exists i. split; [|done]. intros ->. rewrite Hx in Hs.
    injection Hs as -> -> ->. rewrite Z.eqb_refl in E. cbn in E.
    assert (match_ k0 k = true) by (eapply match_trans; [exact Hm1|by apply match_sym]). congruence.
Qed.

Lemma Remove_spec st k h : wf_map st -> is_uint 32 h ->
  exists st', Remove match_ st k h = Some st' /\ wf_map st' /\ hm_capacity st' = hm_capacity st /\
    forall k0 h0 w, holds (map_ st') k0 h0 w <-> if (h0 =? h) && match_ k0 k then False else holds (map_ st) k0 h0 w.
Proof using MatchFun0.
  intros Hwf Hh. pose proof (wf_tbl _ Hwf) as Ht. pose proof (wf_C _ _ Ht) as HC. set (C := hm_capacity st) in *.
  assert (Hroom : count (map_ st) < C) by (rewrite <- (wf_count _ Hwf); apply Hwf).
  unfold Remove. fold C. destruct (Probe_spec C (map_ st) Ht Hroom st k h eq_refl eq_refl)
    as (c & -> & Hin & [([[k' v'] h'] & Hx & [<- Hm])|(Hn & Habs & _)]); cbn [mbind option_bind].
  2: { destruct (arr_get_lt (map_ st) c) as [e He]; [rewrite (wf_size _ _ Ht); exact Hin|]. rewrite He. cbn [mbind option_bind].
       rewrite (slot_get _ _ _ He) in Hn. destruct (key e); [done|]. exists st. split; [done|]. split; [done|]. split; [done|].
       intros k0 h0 w. destruct ((h0 =? h) && match_ k0 k) eqn:E; [|done]. split; [|done].
       intros (i & k1 & Hi & Hm1). apply (Habs i _ Hi). zbool. rewrite (match_class k0 k k1) in Hm1 by done. by split. }
  destruct (arr_get (map_ st) c) as [e|] eqn:He; [|by unfold slot in Hx; rewrite He in Hx].
  assert (Hxe := Hx). rewrite (slot_get _ _ _ He) in Hxe. cbn [mbind option_bind].
  destruct (key e) as [ke|] eqn:Ek; [|done]. clear Hxe.
  destruct (empty_slot (map_ st)) as (j & Hj & Hnj); [by rewrite (wf_size _ _ Ht)|]. rewrite (wf_size _ _ Ht) in Hj.
  assert (Hcj : c <> j) by (intros ->; by rewrite Hx in Hnj).
  assert (Hinv : hole_inv C (map_ st) c).
  { destruct Ht as [Hz Hp2 Hha Hch Hun]. split; [done|done|by eexists|..].
    - intros; by eapply Hha.
    - intros; by eapply Hch.
    - intros; by eapply Hun. }
  pose proof (dist_range C ltac:(lia) c j) as Hdj.
  destruct (Remove_loop_spec C (Z.to_nat C) (map_ st) c c j) as (tbl & c' & -> & Hinv' & Hcnt & Hoth & Hfin); try done.
  { intros i k0 v0 h0 Hi Hs Hd. rewrite dist_refl in Hd by lia. pose proof (dist_range C ltac:(lia) c i).
    exfalso. apply Hi. symmetry. apply (dist_inj C ltac:(lia) c); [done..| |rewrite dist_refl by lia; lia].
    by apply (slot_in _ _ _ _ (wf_size _ _ Ht) Hs). }
  { rewrite dist_refl by lia. destruct (Z.eq_dec (dist C c j) 0) as [Heq|]; [|lia].
    exfalso. apply Hcj. apply (dist_inj C ltac:(lia) c); [done..|]. rewrite dist_refl by lia. lia. }
  { rewrite dist_refl by lia. lia. }
  cbn [mbind option_bind]. destruct (clear_spec C tbl c' Hinv' Hfin) as (e' & tbl2 & -> & Hset & Hwf2 & Hc2 & Hs2).
  cbn [mbind option_bind]. rewrite Hset. cbn [mbind option_bind].
  pose proof (wf_count _ Hwf) as Hoc. pose proof (count_range tbl2) as Hcr. pose proof (wf_size _ _ Hwf2).
  eexists. split; [reflexivity|]. cbn [hm_capacity map_ occupancy_]. split; [|split; [done|]].
  - split; cbn; [done| |]; rewrite uwrap_id by (unfold is_uint; lia); lia.
  - apply (others_holds C (map_ st) tbl2 c k k' v' h Ht Hx Hm). intros x. rewrite <- Hoth. unfold others.
    setoid_rewrite Hs2. done.
Qed.

(** ** The map as a function *)

(** The client's lookup and update. *)
Definition find st (k : K) (h : Z) : option (option V) :=
  match Lookup match_ st k h false with
  | Some (Some p, st) => e ← arr_get (map_ st) p; Some (value e)
  | _ => None
  end.
Definition Insert st (k : K) (h : Z) (v : option V) : option (SimpleHashMap K V) :=
  '(p, st) ← Lookup match_ st k h true; p ← (p : option Z); SetValue st p v.

Lemma find_holds st k h v : wf_map st -> find st k h = Some v <-> holds (map_ st) k h v.
Proof using MatchFun0.
  intros Hwf. pose proof (wf_tbl _ Hwf) as Ht. unfold find, Lookup.
  assert (Hroom : count (map_ st) < hm_capacity st) by (rewrite <- (wf_count _ Hwf); apply Hwf).
  destruct (Probe_spec (hm_capacity st) (map_ st) Ht Hroom st k h eq_refl eq_refl)
    as (p & Hp & Hin & [([[k' v'] h'] & Hx & [<- Hm])|(Hn & Habs & _)]).
  - rewrite (Lookup_present _ _ _ _ _ _ _ Hwf Hp Hx). destruct (arr_get (map_ st) p) as [e|] eqn:He.
    2: { by unfold slot in Hx; rewrite He in Hx. }
    assert (Hv : value e = v').
    { rewrite (slot_get _ _ _ He) in Hx. destruct (key e); [|done]. cbn in Hx. congruence. }
    cbn. rewrite Hv. split; [intros [= <-]; by exists p, k'|]. intros (i & k1 & Hi & Hm1).
    assert (i = p) as ->; [|congruence]. eapply (wf_unique _ _ Ht); [exact Hi|exact Hx|]. split; [done|].
    eapply match_trans; [by apply match_sym|done].
  - rewrite (Lookup_absent _ _ _ _ _ Hwf Hp Hin Hn). split; [done|]. intros (i & k1 & Hi & Hm1).
    exfalso. apply (Habs i _ Hi). by split.
Qed.

(** Two maps with the same contents up to one key have the same lookups. *)
Lemma find_update st st' k h r : wf_map st -> wf_map st' ->
  (forall k0 h0 w, holds (map_ st') k0 h0 w <-> if (h0 =? h) && match_ k0 k then r = Some w else holds (map_ st) k0 h0 w) ->
  forall k0 h0, find st' k0 h0 = if (h0 =? h) && match_ k0 k then r else find st k0 h0.
Proof using MatchFun0.
  intros Hwf Hwf' Hholds k0 h0. apply option_eq. intros w. rewrite find_holds, Hholds by done.
  destruct ((h0 =? h) && match_ k0 k); [done|]. by rewrite find_holds.
Qed.

Lemma Insert_spec st k h v : wf_map st -> is_uint 32 h -> hm_capacity st <= 2 ^ 29 ->
  exists st', Insert st k h v = Some st' /\ wf_map st' /\ hm_capacity st <= hm_capacity st' <= 2 * hm_capacity st /\
    forall k0 h0 w, holds (map_ st') k0 h0 w <-> if (h0 =? h) && match_ k0 k then Some v = Some w else holds (map_ st) k0 h0 w.
Proof using MatchFun0.
  intros Hwf Hh HC. pose proof (wf_C _ _ (wf_tbl _ Hwf)) as HC0.
  (* the entry found or made, and the contents around it *)
  assert (Hp : exists p st1 k' v', Lookup match_ st k h true = Some (Some p, st1) /\ wf_map st1 /\
    hm_capacity st <= hm_capacity st1 <= 2 * hm_capacity st /\ slot (map_ st1) p = Some (k', v', h) /\ match_ k k' = true /\
    forall k0 h0 w, (h0 =? h) && match_ k0 k = false -> holds (map_ st1) k0 h0 w <-> holds (map_ st) k0 h0 w).
  { destruct (Lookup_spec st k h Hwf Hh HC) as [(p & [[k' v'] h'] & Hx & [<- Hm] & HL)|(Habs & _ & p & st1 & HL & (Hwf1 & (k' & Hs & Hm) & Hh1) & HC1)].
    - exists p, st, k', v'. rewrite HL. do 2 (split; [done|]). split; [lia|]. done.
    - exists p, st1, k', None. rewrite HL. do 2 (split; [done|]). split; [lia|]. split; [done|]. split; [done|].
      intros k0 h0 w E. by rewrite Hh1, E. }
  destruct Hp as (p & st1 & k' & v' & HL & Hwf1 & HC1 & Hs & Hm & Hrest). unfold Insert. rewrite HL. cbn [mbind option_bind].
  destruct (SetValue_holds st1 p k' v' h v Hwf1 Hs) as (st2 & -> & Hwf2 & HC2 & _ & Hholds).
  exists st2. split; [done|]. split; [done|]. split; [lia|]. intros k0 h0 w. rewrite Hholds.
  replace (match_ k0 k') with (match_ k0 k).
  - destruct ((h0 =? h) && match_ k0 k) eqn:E; [split; congruence|]. by apply Hrest.
  - apply eq_true_iff_eq. split; intros; eapply match_trans; try done; by apply match_sym.
Qed.

Lemma Clear_spec st : wf_map st ->
  wf_map (snd (Clear st)) /\ (forall i, slot (map_ (snd (Clear st))) i = None) /\ zlen (fst (Clear st)) = occupancy_ st.
Proof using.
  intros [Hwf Hc Hr]. unfold Clear. cbn [fst snd map_ hm_capacity occupancy_].
  set (tbl := (fun e => MkEntry None (value e) (hash e)) <$> map_ st).
  assert (Hslot : forall i, slot tbl i = None).
  { intros i. unfold slot, tbl, arr_get. destruct (0 <=? i); [|done]. rewrite list_lookup_fmap. by destruct (map_ st !! Z.to_nat i). }
  split; [|split; [done|]].
  - split; cbn.
    + split; try (intros; by rewrite Hslot in * ).
      * unfold zlen, tbl. rewrite length_fmap. apply Hwf.
      * apply Hwf.
    + unfold tbl. clear. induction (map_ st) as [|e l IH]; [done|]. cbn in IH |- *. by rewrite <- IH.
    + pose proof (wf_C _ _ Hwf). lia.
  - rewrite Hc. unfold zlen. clear. induction (map_ st) as [|e l IH]; [done|]. cbn [count]. rewrite <- IH.
    unfold omap. cbn [list_omap]. unfold occ. destruct (key e); cbn [mbind option_bind length]; lia.
Qed.
(** What iteration from [p] on delivers: the next occupied slot. *)
Definition next_of tbl (C p : Z) (r : option Z) : Prop :=
  match r with
  | Some q => p < q < C /\ (exists x, slot tbl q = Some x) /\ forall i, p < i < q -> slot tbl i = None
  | None => forall i, p < i < C -> slot tbl i = None
  end.
Lemma Next_loop_spec tbl n p : 0 <= p -> p + Z.of_nat n = zlen tbl ->
  exists r, Next_loop n tbl p = Some r /\ next_of tbl (zlen tbl) (p - 1) r.
Proof using.
  revert p. induction n as [|n IH]; intros p Hp Hn; cbn [Next_loop].
  - exists None. split; [done|]. intros i Hi. lia.
  - destruct (arr_get_lt tbl p) as [e He]; [lia|]. rewrite He. cbn [mbind option_bind].
    pose proof (slot_get _ _ _ He) as Hs. destruct (key e) as [k|].
    + exists (Some p). split; [done|]. split; [lia|]. split; [by eexists|]. intros i Hi. lia.
    + destruct (IH (p + 1)) as (r & -> & Hr); [lia..|]. exists r. split; [done|].
      replace (p + 1 - 1) with p in Hr by lia. destruct r as [q|]; cbn in Hr |- *.
      * destruct Hr as (Hq & Hx & Hno). split; [lia|]. split; [done|]. intros i Hi.
        destruct (Z.eq_dec i p) as [->|]; [done|]. apply Hno. lia.
      * intros i Hi. destruct (Z.eq_dec i p) as [->|]; [done|]. apply Hr. lia.
Qed.
Lemma Next_spec st p : wf_map st -> -1 <= p < hm_capacity st ->
  exists r, Next st p = Some r /\ next_of (map_ st) (hm_capacity st) p r.
Proof using.
  intros Hwf Hp. pose proof (wf_size _ _ (wf_tbl _ Hwf)) as Hz. unfold Next.
  destruct (Next_loop_spec (map_ st) (Z.to_nat (hm_capacity st - (p + 1))) (p + 1)) as (r & Hr & Hn); [lia..|].
  exists r. split; [done|]. rewrite Hz in Hn. by replace (p + 1 - 1) with p in Hn by lia.
Qed.
End Table.

(** C35: [SimpleHashMap] is a finite map on keys with their hashes, up to the
    match function: storing through [Lookup(key, hash, true)] changes the
    binding of the matching keys and no other, [Remove] with its moving of
    entries deletes exactly that binding, [Clear] deletes all and calls
    [clear] once per entry, [Next] visits the occupied slots in order, and
    each operation ends, keeps the probing invariant and leaves an empty
    slot; growth and rehashing are invisible. *)
Theorem SimpleHashMap_refines {K V} (match_ : K -> K -> bool) `{!MatchFun match_} (st : SimpleHashMap K V) k h :
  wf_map match_ st -> hm_capacity st <= 2 ^ 29 -> is_uint 32 h ->
  (forall v, exists st', Insert match_ st k h v = Some st' /\ wf_map match_ st' /\
     forall k0 h0, find match_ st' k0 h0 = if (h0 =? h) && match_ k0 k then Some v else find match_ st k0 h0) /\
  (exists st', Remove match_ st k h = Some st' /\ wf_map match_ st' /\
     forall k0 h0, find match_ st' k0 h0 = if (h0 =? h) && match_ k0 k then None else find match_ st k0 h0) /\
  (wf_map match_ (snd (Clear st)) /\ zlen (fst (Clear st)) = occupancy_ st /\
     forall k0 h0, find match_ (snd (Clear st)) k0 h0 = None) /\
  (forall p, -1 <= p < hm_capacity st -> exists r, Next st p = Some r /\ next_of (map_ st) (hm_capacity st) p r).
Proof.
  intros Hwf HC Hh. split; [|split; [|split; [|intros p; by apply Next_spec with match_]]].
  - intros v. destruct (Insert_spec match_ st k h v Hwf Hh HC) as (st' & HI & Hwf' & _ & Hholds).
    exists st'. split; [done|]. split; [done|]. by apply (find_update match_ st st' k h (Some v)).
  - destruct (Remove_spec match_ st k h Hwf Hh) as (st' & HR & Hwf' & _ & Hholds). exists st'. split; [done|]. split; [done|].
    apply (find_update match_ st st' k h None Hwf Hwf'). intros k0 h0 w. rewrite Hholds. by destruct ((h0 =? h) && match_ k0 k).
  - destruct (Clear_spec match_ st Hwf) as (Hwf' & Hn & Hlen). split; [done|]. split; [done|].
    intros k0 h0. apply option_eq. intros w. rewrite find_holds by done. split; [|done]. intros (i & k' & Hi & _). by rewrite Hn in Hi.
Qed.
#[export] Instance Zeqb_match : MatchFun Z.eqb.
Proof. split; intros *; rewrite !Z.eqb_eq; congruence. Qed.
(** Two colliding keys, the first of which is removed. *)
Lemma SimpleHashMap_refines_witness :
  (st ← Insert Z.eqb (@Initialize Z Z 8) 10 3 (Some 1); st ← Insert Z.eqb st 20 11 (Some 2); st ← Remove Z.eqb st 10 3;
   find Z.eqb st 20 11) = Some (Some 2) /\
  exists st', Insert Z.eqb (@Initialize Z Z 8) 10 3 (Some 1) = Some st' /\ wf_map Z.eqb st' /\
    forall k0 h0, find Z.eqb st' k0 h0 = if (h0 =? 3) && (k0 =? 10) then Some (Some 1) else find Z.eqb (Initialize 8) k0 h0.
Proof.
  split; [reflexivity|]. apply (SimpleHashMap_refines Z.eqb (@Initialize Z Z 8) 10 3).
  - apply (Initialize_wf Z.eqb 3). lia.
  - cbn. lia.
  - unfold is_uint. lia.
Defined.
