(* ===== verification/ParallelMove.v ===== *)
(** * The parallel move resolver
    (src/runtime/vm/compiler/backend/flow_graph_compiler.{h,cc}, with the x64
    code of flow_graph_compiler_x64.cc, il_x64.cc and assembler_x64.h)

    The register allocator leaves sets of moves that take effect at once;
    [ParallelMoveResolver] emits a sequence of moves and swaps for them. The
    emitted code is a list of machine instructions with a semantics on a store
    that maps locations to values; distinct locations are disjoint, as
    locations.h demands. [UNREACHABLE] and running out of fuel are [None].

    Pair and unallocated locations never reach the resolver and are not
    locations of the model. *)
From S2P Require Import Prelude.
Local Open Scope Z_scope.
Local Open Scope vm_scope.

(** ** Locations and moves *)

(** [raw_] is the object pointer of the constant, [int_] its value as an
    unboxed integer, [double_] the bits of its value as a double. *)
Record ConstantInstr := MkConstant { unboxed_integer : bool; raw_ : Z; int_ : Z; double_ : Z }.
#[export] Instance ConstantInstr_eq_dec : EqDecision ConstantInstr.
Proof. solve_decision. Defined.

Inductive Location :=
  | NoLocation
  | Constant (c : ConstantInstr)
  | Register_ (reg : Z)
  | FpuRegister (reg : Z)
  | StackSlot (stack_index base : Z)
  | DoubleStackSlot (stack_index base : Z)
  | QuadStackSlot (stack_index base : Z).
#[export] Instance Location_eq_dec : EqDecision Location.
Proof. solve_decision. Defined.

Definition Location_Equals (a b : Location) : bool := bool_decide (a = b).
Definition IsInvalid (l : Location) : bool := Location_Equals l NoLocation.
Definition Location_IsConstant (l : Location) : bool := match l with Constant _ => true | _ => false end.
Definition IsFpuRegister (l : Location) : bool := match l with FpuRegister _ => true | _ => false end.

Record MoveOperands := MkMove { dest_ : Location; src_ : Location }.
Definition MarkPending (m : MoveOperands) : MoveOperands := MkMove NoLocation (src_ m).
Definition ClearPending (m : MoveOperands) (dest : Location) : MoveOperands := MkMove dest (src_ m).
Definition IsEliminated (m : MoveOperands) : bool := IsInvalid (src_ m).
Definition IsPending (m : MoveOperands) : bool := IsInvalid (dest_ m) && negb (IsInvalid (src_ m)).
Definition Blocks (m : MoveOperands) (loc : Location) : bool := negb (IsEliminated m) && Location_Equals (src_ m) loc.
Definition IsRedundant (m : MoveOperands) : bool :=
  IsEliminated m || IsInvalid (dest_ m) || Location_Equals (src_ m) (dest_ m).
Definition Eliminate : MoveOperands := MkMove NoLocation NoLocation.
Definition set_src (m : MoveOperands) (l : Location) : MoveOperands := MkMove (dest_ m) l.

(** ** The target *)
Definition SPREG : Z := 4.
Definition FPREG : Z := 5.
Definition ARGS_DESC_REG : Z := 10.
Definition TMP : Z := 11.
Definition CODE_REG : Z := 12.
Definition THR : Z := 14.
Definition PP : Z := 15.
Definition FpuTMP : Z := 15.
Definition kNumberOfCpuRegisters : Z := 16.
Definition kNumberOfFpuRegisters : Z := 16.
Definition kNoRegister : Z := -1.
Definition kReservedCpuRegisters : Z :=
  (1 <<< SPREG) ||| (1 <<< FPREG) ||| (1 <<< TMP) ||| (1 <<< PP) ||| (1 <<< THR).

Inductive instr :=
  | mov (dst src : Location)             (* movq, movaps, movsd, movups *)
  | xchg (a b : Location)
  | xor (dst src : Location)
  | push (reg : Location)
  | pop (reg : Location)
  | load_imm (dst : Location) (v : Z)    (* movq of an immediate, xorl, xorps *)
  | load_object (reg : Location) (c : ConstantInstr)
  | store_object (dst : Location) (c : ConstantInstr)
  | load_double (dst : Location) (reg : Location). (* movsd from a field of an object *)

(** ** The resolver *)
Inductive RegisterKind := kRegister | kFpuRegister.
Definition MachineRegisterLocation (kind : RegisterKind) (reg : Z) : Location :=
  match kind with kRegister => Register_ reg | kFpuRegister => FpuRegister reg end.

Definition RegMaskBit (reg : Z) : Z := if negb (reg =? kNoRegister) then 1 <<< reg else 0.

Definition IsScratchLocation (moves : list MoveOperands) (loc : Location) : bool :=
  if existsb (fun m => Blocks m loc) moves then false
  else existsb (fun m => Location_Equals (dest_ m) loc) moves.

(** The registers from [first] on, [n] of them. *)
Fixpoint find_register (p : Z -> bool) (n : nat) (reg : Z) : Z :=
  match n with
  | O => -1
  | S n => if p reg then reg else find_register p n (reg + 1)
  end.
(** The register and whether it has to be spilled. *)
Definition AllocateScratchRegister (moves : list MoveOperands) (kind : RegisterKind)
    (blocked_mask first_free_register last_free_register : Z) : Z * bool :=
  let n := Z.to_nat (last_free_register - first_free_register + 1) in
  let free reg := (1 <<< reg) &&& blocked_mask =? 0 in
  let scratch := find_register (fun reg => free reg && IsScratchLocation moves (MachineRegisterLocation kind reg)) n first_free_register in
  if scratch =? -1 then (find_register free n first_free_register, true) else (scratch, false).

Definition AllocateTemporary (moves : list MoveOperands) (intrinsic_mode : bool) (blocked : Z) : Z * bool :=
  let blocked_mask := RegMaskBit blocked ||| kReservedCpuRegisters in
  let blocked_mask :=
    if intrinsic_mode then blocked_mask ||| RegMaskBit ARGS_DESC_REG ||| RegMaskBit CODE_REG else blocked_mask in
  AllocateScratchRegister moves kRegister blocked_mask 0 (kNumberOfCpuRegisters - 1).
Definition ScratchFpuRegisterScope (moves : list MoveOperands) (blocked : Z) : Z * bool :=
  let blocked_mask := RegMaskBit blocked ||| (1 <<< FpuTMP) in
  AllocateScratchRegister moves kFpuRegister blocked_mask 0 (kNumberOfFpuRegisters - 1).
(** The code [body] between the spilling and the restoring of its register. *)
Definition with_scratch (scratch : Location) (spilled : bool) (body : list instr) : list instr :=
  if spilled then push scratch :: body ++ [pop scratch] else body.

(** The constant 0.0 has no bit set. *)
Definition EmitMoveToLocation (c : ConstantInstr) (destination : Location) (tmp : Z) : option (list instr) :=
  match destination with
  | Register_ _ => Some (if unboxed_integer c then [load_imm destination (int_ c)] else [load_object destination c])
  | FpuRegister _ =>
      Some (if double_ c =? 0 then [load_imm destination 0]
            else [load_object (Register_ tmp) c; load_double destination (Register_ tmp)])
  | DoubleStackSlot _ _ =>
      Some ((if double_ c =? 0 then [load_imm (FpuRegister FpuTMP) 0]
             else [load_object (Register_ tmp) c; load_double (FpuRegister FpuTMP) (Register_ tmp)]) ++
            [mov destination (FpuRegister FpuTMP)])
  | StackSlot _ _ => Some (if unboxed_integer c then [load_imm destination (int_ c)] else [store_object destination c])
  | _ => None
  end.

Definition MoveMemoryToMemory (dst src : Location) : list instr := [mov (Register_ TMP) src; mov dst (Register_ TMP)].
Definition Exchange_reg (reg mem : Location) : list instr :=
  [mov (Register_ TMP) mem; mov mem reg; mov reg (Register_ TMP)].
Definition Exchange_mem (mem1 mem2 : Location) : list instr :=
  [mov (Register_ TMP) mem1; xor (Register_ TMP) mem2; xor mem1 (Register_ TMP); xor mem2 (Register_ TMP)].
(** Through [FpuTMP]. *)
Definition fpu_copy (dst src : Location) : list instr := [mov (FpuRegister FpuTMP) src; mov dst (FpuRegister FpuTMP)].

(** [FlowGraphCompiler::EmitMove]; [moves] and [intrinsic_mode] serve the
    allocation of the temporary. *)
Definition FlowGraphCompiler_EmitMove (intrinsic_mode : bool) (moves : list MoveOperands) (destination source : Location)
    : option (list instr) :=
  if Location_Equals destination source then Some []
  else
    match source, destination with
    | Register_ _, Register_ _ | Register_ _, StackSlot _ _ => Some [mov destination source]
    | StackSlot _ _, Register_ _ => Some [mov destination source]
    | StackSlot _ _, FpuRegister _ => Some [mov (Register_ TMP) source; mov destination (Register_ TMP)]
    | StackSlot _ _, StackSlot _ _ => Some (MoveMemoryToMemory destination source)
    | FpuRegister _, FpuRegister _ | FpuRegister _, DoubleStackSlot _ _ | FpuRegister _, QuadStackSlot _ _ =>
        Some [mov destination source]
    | DoubleStackSlot _ _, FpuRegister _ => Some [mov destination source]
    | DoubleStackSlot _ _, DoubleStackSlot _ _ | DoubleStackSlot _ _, StackSlot _ _ => Some (fpu_copy destination source)
    | QuadStackSlot _ _, FpuRegister _ => Some [mov destination source]
    | QuadStackSlot _ _, QuadStackSlot _ _ => Some (fpu_copy destination source)
    | Constant c, FpuRegister _ | Constant c, DoubleStackSlot _ _ =>
        let '(scratch, spilled) := AllocateTemporary moves intrinsic_mode kNoRegister in
        code ← EmitMoveToLocation c destination scratch;
        Some (with_scratch (Register_ scratch) spilled code)
    | Constant c, _ => EmitMoveToLocation c destination kNoRegister
    | _, _ => None
    end.

(** The code of [EmitSwap]. *)
Definition EmitSwap_code (moves : list MoveOperands) (source destination : Location) : option (list instr) :=
  match source, destination with
  | Register_ _, Register_ _ => Some [xchg destination source]
  | Register_ _, StackSlot _ _ => Some (Exchange_reg source destination)
  | StackSlot _ _, Register_ _ => Some (Exchange_reg destination source)
  | StackSlot _ _, StackSlot _ _ => Some (Exchange_mem destination source)
  | FpuRegister _, FpuRegister _ =>
      Some [mov (FpuRegister FpuTMP) source; mov source destination; mov destination (FpuRegister FpuTMP)]
  | FpuRegister _, DoubleStackSlot _ _ | FpuRegister _, QuadStackSlot _ _ =>
      Some [mov (FpuRegister FpuTMP) destination; mov destination source; mov source (FpuRegister FpuTMP)]
  | DoubleStackSlot _ _, FpuRegister _ | QuadStackSlot _ _, FpuRegister _ =>
      Some [mov (FpuRegister FpuTMP) source; mov source destination; mov destination (FpuRegister FpuTMP)]
  | DoubleStackSlot _ _, DoubleStackSlot _ _ | QuadStackSlot _ _, QuadStackSlot _ _ =>
      let '(scratch, spilled) := ScratchFpuRegisterScope moves FpuTMP in
      Some (with_scratch (FpuRegister scratch) spilled
              [mov (FpuRegister FpuTMP) source; mov (FpuRegister scratch) destination;
               mov destination (FpuRegister FpuTMP); mov source (FpuRegister scratch)])
  | _, _ => None
  end.

(** [moves_] and the code emitted so far. *)
Record Resolver := MkResolver { moves_ : list MoveOperands; code_ : list instr }.
Definition set_move (st : Resolver) (index : nat) (m : MoveOperands) : Resolver :=
  MkResolver (<[index := m]> (moves_ st)) (code_ st).
Definition emit (st : Resolver) (code : list instr) : Resolver := MkResolver (moves_ st) (code_ st ++ code).

Section Resolver.
Context (intrinsic_mode : bool).

Definition EmitMove (st : Resolver) (index : nat) : option Resolver :=
  move ← moves_ st !! index;
  code ← FlowGraphCompiler_EmitMove intrinsic_mode (moves_ st) (dest_ move) (src_ move);
  Some (set_move (emit st code) index Eliminate).

Definition swap_source (source destination : Location) (m : MoveOperands) : MoveOperands :=
  if Blocks m source then set_src m destination
  else if Blocks m destination then set_src m source
  else m.
Definition EmitSwap (st : Resolver) (index : nat) : option Resolver :=
  move ← moves_ st !! index;
  let source := src_ move in
  let destination := dest_ move in
  code ← EmitSwap_code (moves_ st) source destination;
  let st := set_move (emit st code) index Eliminate in
  Some (MkResolver (swap_source source destination <$> moves_ st) (code_ st)).

(** The loop over the moves that block [destination], with [PerformMove] as
    [perform] and the indices that are left. *)
Fixpoint PerformMove_loop (perform : nat -> Resolver -> option Resolver) (destination : Location)
    (indices : list nat) (st : Resolver) : option Resolver :=
  match indices with
  | [] => Some st
  | i :: indices =>
      other_move ← moves_ st !! i;
      st ← (if Blocks other_move destination && negb (IsPending other_move) then perform i st else Some st);
      PerformMove_loop perform destination indices st
  end.
(** The fuel bounds the moves that are pending at once. *)
Fixpoint PerformMove (fuel : nat) (index : nat) (st : Resolver) : option Resolver :=
  match fuel with
  | O => None
  | S fuel =>
      move ← moves_ st !! index;
      let destination := dest_ move in
      let st := set_move st index (MarkPending move) in
      st ← PerformMove_loop (PerformMove fuel) destination (seq 0 (length (moves_ st))) st;
      move ← moves_ st !! index;
      let move := ClearPending move destination in
      let st := set_move st index move in
      if Location_Equals (src_ move) destination then Some (set_move st index Eliminate)
      else if existsb (fun other_move => Blocks other_move destination) (moves_ st) then EmitSwap st index
      else EmitMove st index
  end.

Definition BuildInitialMoveList (parallel_move : list MoveOperands) : list MoveOperands :=
  filter (fun m => IsRedundant m = false) parallel_move.

Fixpoint perform_all (indices : list nat) (st : Resolver) : option Resolver :=
  match indices with
  | [] => Some st
  | i :: indices =>
      move ← moves_ st !! i;
      st ← (if negb (IsEliminated move) && negb (Location_IsConstant (src_ move))
            then PerformMove (S (length (moves_ st))) i st else Some st);
      perform_all indices st
  end.
Fixpoint emit_constants (indices : list nat) (st : Resolver) : option Resolver :=
  match indices with
  | [] => Some st
  | i :: indices =>
      move ← moves_ st !! i;
      st ← (if negb (IsEliminated move) then EmitMove st i else Some st);
      emit_constants indices st
  end.
Definition EmitNativeCode (parallel_move : list MoveOperands) : option (list instr) :=
  let moves := BuildInitialMoveList parallel_move in
  st ← perform_all (seq 0 (length moves)) (MkResolver moves []);
  st ← emit_constants (seq 0 (length moves)) st;
  Some (code_ st).
End Resolver.

(** ** The semantics of the emitted code *)
Definition store := Location -> Z.
Definition upd (s : store) (l : Location) (v : Z) : store := fun l' => if decide (l' = l) then v else s l'.
Record machine := MkMachine { store_ : store; spilled_ : list Z }.

Section Semantics.
(** The double that an object pointer refers to. *)
Context (double_at : Z -> Z).

(** Slots relative to the stack pointer move when a register is spilled. *)
Definition accessible (m : machine) (l : Location) : bool :=
  match l with
  | NoLocation | Constant _ => false
  | StackSlot _ base | DoubleStackSlot _ base | QuadStackSlot _ base =>
      negb (base =? SPREG) || match spilled_ m with [] => true | _ => false end
  | _ => true
  end.
Definition write (m : machine) (l : Location) (v : Z) : option machine :=
  if accessible m l then Some (MkMachine (upd (store_ m) l v) (spilled_ m)) else None.
Definition read (m : machine) (l : Location) : option Z :=
  if accessible m l then Some (store_ m l) else None.

(** [StoreObject] goes through [TMP]. *)
Definition step (i : instr) (m : machine) : option machine :=
  match i with
  | mov dst src => v ← read m src; write m dst v
  | xchg a b => x ← read m a; y ← read m b; m ← write m a y; write m b x
  | xor dst src => x ← read m dst; y ← read m src; write m dst (x ^^^ y)
  | push r => v ← read m r; Some (MkMachine (store_ m) (v :: spilled_ m))
  | pop r =>
      match spilled_ m with
      | [] => None
      | v :: rest => write (MkMachine (store_ m) rest) r v
      end
  | load_imm dst v => write m dst v
  | load_object r c => write m r (raw_ c)
  | store_object dst c => m ← write m (Register_ TMP) (raw_ c); write m dst (raw_ c)
  | load_double dst r => p ← read m r; write m dst (double_at p)
  end.
Fixpoint exec (code : list instr) (m : machine) : option machine :=
  match code with
  | [] => Some m
  | i :: code => m ← step i m; exec code m
  end.
End Semantics.

(** ** Well-formed parallel moves *)

(** The reserved registers of the assembler are not locations of values. *)
Definition temp (l : Location) : Prop := l = Register_ TMP \/ l = FpuRegister FpuTMP.
Definition place (l : Location) : Prop :=
  match l with
  | NoLocation | Constant _ => False
  | Register_ r => r <> TMP
  | FpuRegister r => r <> FpuTMP
  | StackSlot _ base | DoubleStackSlot _ base | QuadStackSlot _ base => base <> SPREG
  end.
(** What a location can hold. *)
Inductive Rep := Word | Double | Quad.
Definition has_rep (l : Location) (r : Rep) : Prop :=
  match l with
  | Register_ _ | StackSlot _ _ => r = Word
  | FpuRegister _ => r <> Word
  | DoubleStackSlot _ _ => r = Double
  | QuadStackSlot _ _ => r = Quad
  | _ => False
  end.

Definition constant_value (dest : Location) (c : ConstantInstr) : Z :=
  match dest with
  | Register_ _ | StackSlot _ _ => if unboxed_integer c then int_ c else raw_ c
  | _ => double_ c
  end.
(** The value that a move transfers, in the store before the moves. *)
Definition move_value (s : store) (m : MoveOperands) : Z :=
  match src_ m with Constant c => constant_value (dest_ m) c | l => s l end.

(** [rep] is what each location holds. *)
Record wf_move (double_at : Z -> Z) (rep : Location -> Rep) (m : MoveOperands) : Prop := {
  wf_dest : place (dest_ m) /\ has_rep (dest_ m) (rep (dest_ m));
  wf_src : match src_ m with
    | Constant c => rep (dest_ m) <> Quad /\ double_at (raw_ c) = double_ c
    | l => place l /\ has_rep l (rep l) /\ rep l = rep (dest_ m)
    end }.
Record wf_moves (double_at : Z -> Z) (rep : Location -> Rep) (ms : list MoveOperands) : Prop := {
  wf_each : Forall (wf_move double_at rep) ms;
  wf_dests : NoDup (dest_ <$> ms) }.

(** ** Running emitted code *)
Section Exec.
Context (double_at : Z -> Z).
Abbreviation execs := (exec double_at).

Lemma exec_app code1 code2 m : execs (code1 ++ code2) m = m ← execs code1 m; execs code2 m.
Proof.
  revert m. induction code1 as [|i code1 IH]; intros m; [done|]. cbn [app exec].
  destruct (step double_at i m); [|done]. cbn [mbind option_bind]. apply IH.
Qed.

Lemma place_accessible m l : place l -> accessible m l = true.
Proof. destruct l; try done; cbn; intros Hb; destruct (Z.eqb_spec base SPREG); done. Qed.
Lemma place_not_temp l : place l -> ~ temp l.
Proof. intros Hp [->| ->]; by apply Hp. Qed.

Lemma find_register_spec p n r :
  let x := find_register p n r in (x = -1 /\ forall i, r <= i < r + Z.of_nat n -> p i = false) \/
  (r <= x < r + Z.of_nat n /\ p x = true).
Proof.
  revert r. induction n as [|n IH]; intros r; cbn [find_register].
  - left. split; [done|]. intros. lia.
  - destruct (p r) eqn:E; [right; split; [lia|done]|]. destruct (IH (r + 1)) as [[H1 H2]|[H1 H2]].
    + left. split; [done|]. intros i Hi. destruct (Z.eq_dec i r) as [->|]; [done|]. apply H2. lia.
    + right. split; [lia|done].
Qed.

(** A register is found as long as register 0 is not blocked. It is a
    scratch location unless it is spilled. *)
Lemma AllocateScratchRegister_spec ms kind mask : mask &&& 1 = 0 ->
  exists r spilled, AllocateScratchRegister ms kind mask 0 15 = (r, spilled) /\ 0 <= r < 16 /\
    (1 <<< r) &&& mask = 0 /\ (spilled = false -> IsScratchLocation ms (MachineRegisterLocation kind r) = true).
Proof.
  intros Hm. unfold AllocateScratchRegister. cbv zeta. change (Z.to_nat (15 - 0 + 1)) with 16%nat.
  set (free reg := (1 <<< reg) &&& mask =? 0).
  set (p reg := ((1 <<< reg) &&& mask =? 0) && IsScratchLocation ms (MachineRegisterLocation kind reg)).
  destruct (find_register_spec p 16 0) as [[-> _]|[Hx Hp]].
  - cbn [Z.eqb]. destruct (find_register_spec free 16 0) as [[Hx Hall]|[Hx Hp]].
    + exfalso. specialize (Hall 0 ltac:(lia)). unfold free in Hall. rewrite Z.shiftl_0_r, Z.land_comm, Hm in Hall. done.
    + eexists _, _. split; [reflexivity|]. split; [lia|]. split; [by apply Z.eqb_eq|done].
  - destruct (Z.eqb_spec (find_register p 16 0) (-1)); [lia|]. eexists _, _. split; [reflexivity|].
    split; [lia|]. unfold p in Hp. zbool. done.
Qed.
Lemma blocked_bit r mask : 0 <= r -> (1 <<< r) &&& mask = 0 -> Z.testbit mask r = false.
Proof.
  intros Hr H. apply (f_equal (fun x => Z.testbit x r)) in H.
  rewrite Z.land_spec, Z.shiftl_1_l, Z.pow2_bits_true, Z.bits_0 in H by done. done.
Qed.

Lemma AllocateTemporary_spec ms intrinsic :
  exists r spilled, AllocateTemporary ms intrinsic kNoRegister = (r, spilled) /\ r <> TMP /\
    (spilled = false -> IsScratchLocation ms (Register_ r) = true).
Proof.
  unfold AllocateTemporary. change (kNumberOfCpuRegisters - 1) with 15.
  set (mask := if intrinsic then _ else _).
  destruct (AllocateScratchRegister_spec ms kRegister mask) as (r & spilled & -> & Hr & Hb & Hs); [by destruct intrinsic|].
  exists r, spilled. split; [done|]. split; [|done]. intros ->. by destruct intrinsic.
Qed.
Lemma ScratchFpuRegisterScope_spec ms :
  exists r spilled, ScratchFpuRegisterScope ms FpuTMP = (r, spilled) /\ r <> FpuTMP /\
    (spilled = false -> IsScratchLocation ms (FpuRegister r) = true).
Proof.
  unfold ScratchFpuRegisterScope. change (kNumberOfFpuRegisters - 1) with 15.
  destruct (AllocateScratchRegister_spec ms kFpuRegister (RegMaskBit FpuTMP ||| (1 <<< FpuTMP)))
    as (r & spilled & -> & Hr & Hb & Hs); [done|].
  exists r, spilled. split; [done|]. split; [|done]. by intros ->.
Qed.

Lemma upd_eq s l v : upd s l v l = v.
Proof. unfold upd. by rewrite decide_True. Qed.
Lemma upd_ne s l v l' : l' <> l -> upd s l v l' = s l'.
Proof. intros. unfold upd. by rewrite decide_False. Qed.

(** What code that fills [dst] may do to a store: [keep] says what stays. *)
Definition keeps (ms : list MoveOperands) (except : list Location) (s s' : store) : Prop :=
  forall l, l ∉ except -> ~ temp l -> IsScratchLocation ms l = false -> s' l = s l.

(** Locations that can be accessed in every state. *)
Definition usable (l : Location) : Prop := forall m, accessible m l = true.
Lemma usable_place l : place l -> usable l.
Proof. intros Hp m. by apply place_accessible. Qed.
Lemma usable_register r : usable (Register_ r).
Proof. done. Qed.
Lemma usable_fpu r : usable (FpuRegister r).
Proof. done. Qed.

Lemma step_mov s sp dst src : usable dst -> usable src ->
  step double_at (mov dst src) (MkMachine s sp) = Some (MkMachine (upd s dst (s src)) sp).
Proof. intros Hd Hs. cbn. unfold read, write. by rewrite Hd, Hs. Qed.
Lemma step_xchg s sp a b : usable a -> usable b ->
  step double_at (xchg a b) (MkMachine s sp) = Some (MkMachine (upd (upd s a (s b)) b (s a)) sp).
Proof. intros Ha Hb. cbn. unfold read, write. do 3 (rewrite ?Ha, ?Hb; cbn). done. Qed.
Lemma step_xor s sp a b : usable a -> usable b ->
  step double_at (xor a b) (MkMachine s sp) = Some (MkMachine (upd s a (s a ^^^ s b)) sp).
Proof. intros Ha Hb. cbn. unfold read, write. by rewrite Ha, Hb. Qed.
Lemma step_push s sp a : usable a -> step double_at (push a) (MkMachine s sp) = Some (MkMachine s (s a :: sp)).
Proof. intros Ha. cbn. unfold read. by rewrite Ha. Qed.
Lemma step_pop s sp v a : usable a -> step double_at (pop a) (MkMachine s (v :: sp)) = Some (MkMachine (upd s a v) sp).
Proof. intros Ha. cbn. unfold write. by rewrite Ha. Qed.
Lemma step_imm s sp a v : usable a -> step double_at (load_imm a v) (MkMachine s sp) = Some (MkMachine (upd s a v) sp).
Proof. intros Ha. cbn. unfold write. by rewrite Ha. Qed.
Lemma step_object s sp a c : usable a ->
  step double_at (load_object a c) (MkMachine s sp) = Some (MkMachine (upd s a (raw_ c)) sp).
Proof. intros Ha. cbn. unfold write. by rewrite Ha. Qed.
Lemma step_store s sp a c : usable a ->
  step double_at (store_object a c) (MkMachine s sp) =
  Some (MkMachine (upd (upd s (Register_ TMP) (raw_ c)) a (raw_ c)) sp).
Proof. intros Ha. cbn. unfold write. cbn. by rewrite Ha. Qed.
Lemma step_double s sp a r : usable a -> usable r ->
  step double_at (load_double a r) (MkMachine s sp) = Some (MkMachine (upd s a (double_at (s r))) sp).
Proof. intros Ha Hr. cbn. unfold read, write. by rewrite Hr, Ha. Qed.
End Exec.
#[export] Hint Resolve place_not_temp usable_place usable_register usable_fpu : vm.
Create Rewrite HintDb run.
#[export] Hint Rewrite step_mov step_xchg step_xor step_push step_pop step_imm step_object step_store step_double
  using (by auto with vm) : run.

(** [run] executes straight-line code, [upds] compares stores. *)
Ltac run := repeat (cbn [exec app mbind option_bind]; progress autorewrite with run); cbn [exec app mbind option_bind].
Ltac upds := unfold upd; repeat case_decide; simplify_eq; try done.

Section Code.
Context (double_at : Z -> Z).
Abbreviation execs := (exec double_at).

(** Spilling saves the scratch register around code that does not spill. *)
Lemma with_scratch_exec ms s r spilled body s' except :
  usable r -> (spilled = false -> IsScratchLocation ms r = true) ->
  (forall sp, execs body (MkMachine s sp) = Some (MkMachine s' sp)) ->
  (forall l, l ∉ except -> ~ temp l -> l <> r -> s' l = s l) -> r ∉ except ->
  exists s'', execs (with_scratch r spilled body) (MkMachine s []) = Some (MkMachine s'' []) /\
    keeps ms except s s'' /\ forall l, l ∈ except -> s'' l = s' l.
Proof.
  intros Hu Hs Hb Hk Hr. unfold with_scratch. destruct spilled.
  - exists (upd s' r (s r)). cbn [exec]. rewrite step_push by done. cbn [mbind option_bind].
    rewrite exec_app, Hb. cbn [mbind option_bind exec]. rewrite step_pop by done. split; [done|]. split.
    + intros l Hl Ht _. destruct (decide (l = r)) as [->|]; [by rewrite upd_eq|]. rewrite upd_ne by done. by apply Hk.
    + intros l Hl. apply upd_ne. by intros ->.
  - exists s'. split; [apply Hb|]. split; [|done]. intros l Hl Ht Hns. apply Hk; try done. intros ->. by rewrite Hs in Hns.
Qed.

Lemma lxor_cancel x y : x ^^^ (y ^^^ x) = y.
Proof. by rewrite (Z.lxor_comm y), <- Z.lxor_assoc, Z.lxor_nilpotent, Z.lxor_0_l. Qed.
Lemma lxor_cancel' x y : y ^^^ (y ^^^ x) = x.
Proof. by rewrite <- Z.lxor_assoc, Z.lxor_nilpotent, Z.lxor_0_l. Qed.
Lemma not_in_two (a b l : Location) : l ∉ [a; b] -> l <> a /\ l <> b.
Proof. rewrite !not_elem_of_cons. tauto. Qed.

(** Two slots are swapped through [FpuTMP] and another register. *)
Lemma swap_slots_exec ms s a b :
  place a -> place b -> a <> b -> IsFpuRegister a = false -> IsFpuRegister b = false ->
  let '(x, spilled) := ScratchFpuRegisterScope ms FpuTMP in
  exists s', execs (with_scratch (FpuRegister x) spilled
      [mov (FpuRegister FpuTMP) a; mov (FpuRegister x) b; mov b (FpuRegister FpuTMP); mov a (FpuRegister x)])
      (MkMachine s []) = Some (MkMachine s' []) /\ s' a = s b /\ s' b = s a /\ keeps ms [a; b] s s'.
Proof.
  intros Ha Hb Hne Hfa Hfb. destruct (ScratchFpuRegisterScope_spec ms) as (x & spilled & -> & Hx & Hs).
  assert (Hra : forall r, a <> FpuRegister r) by (by intros r ->).
  assert (Hrb : forall r, b <> FpuRegister r) by (by intros r ->).
  edestruct (with_scratch_exec ms s (FpuRegister x) spilled
    [mov (FpuRegister FpuTMP) a; mov (FpuRegister x) b; mov b (FpuRegister FpuTMP); mov a (FpuRegister x)])
    as (s' & Hex & Hk & Hin); [done|done| | | |].
  { intros sp. run. reflexivity. }
  { intros l [Hl1 Hl2]%(not_in_two a b) Hl3 Hl4. unfold temp in Hl3. upds. tauto. }
  { rewrite !not_elem_of_cons. split; [|split; [|apply not_elem_of_nil]]; congruence. }
  exists s'. split; [done|]. rewrite !Hin by (rewrite !elem_of_cons; tauto).
  pose proof (Hra FpuTMP). pose proof (Hrb FpuTMP). pose proof (Hra x). pose proof (Hrb x). upds.
Qed.

Lemma EmitSwap_code_exec ms s a b r :
  place a -> place b -> a <> b -> has_rep a r -> has_rep b r ->
  exists code s', EmitSwap_code ms a b = Some code /\ execs code (MkMachine s []) = Some (MkMachine s' []) /\
    s' a = s b /\ s' b = s a /\ keeps ms [a; b] s s'.
Proof.
  intros Ha Hb Hne Hra Hrb.
  assert (Hta : ~ temp a) by auto with vm. assert (Htb : ~ temp b) by auto with vm. unfold temp in *.
  destruct (ScratchFpuRegisterScope_spec ms) as (x & spilled & Hx & Hx15 & Hsp).
  destruct a, b; try done; cbn in Hra, Hrb; try congruence; cbn [EmitSwap_code]; try rewrite Hx.
  all: try (eexists _, _; split; [reflexivity|]; unfold Exchange_reg, Exchange_mem; run; split; [reflexivity|];
    split; [|split; [|intros l [Hl1 Hl2]%not_in_two Hl3 _; unfold temp in Hl3; upds; tauto]]; upds; try tauto;
    rewrite ?Z.lxor_assoc, ?Z.lxor_nilpotent, ?Z.lxor_0_r, ?lxor_cancel, ?lxor_cancel'; try done).
  all: pose proof (swap_slots_exec ms s _ _ Ha Hb Hne eq_refl eq_refl) as Hsw; rewrite Hx in Hsw;
    destruct Hsw as (s' & ?); by eexists _, s'.
Qed.

(** A constant is loaded, through the register [tmp] for a double. *)
Lemma EmitMoveToLocation_exec s c d tmp r :
  place d -> has_rep d r -> r <> Quad -> double_at (raw_ c) = double_ c -> (r = Double -> d <> Register_ tmp) ->
  exists code s', EmitMoveToLocation c d tmp = Some code /\
    (forall sp, execs code (MkMachine s sp) = Some (MkMachine s' sp)) /\ s' d = constant_value d c /\
    forall l, l ∉ [d] -> ~ temp l -> (r = Double -> l <> Register_ tmp) -> s' l = s l.
Proof.
  intros Hd Hr Hq Hc Htmp. assert (Ht : ~ temp d) by auto with vm. unfold temp in Ht.
  assert (Hoff : forall l : Location, l ∉ [d] -> l <> d) by (intros l; rewrite not_elem_of_cons; tauto).
  assert (Hdbl : r <> Word -> r = Double) by (by destruct r).
  destruct d; try done; cbn in Hr; simplify_eq; cbn [EmitMoveToLocation constant_value].
  all: destruct (unboxed_integer c), (Z.eqb_spec (double_ c) 0).
  all: eexists _, _; split; [reflexivity|]; split; [intros sp; run; reflexivity|].
  all: split; [upds; rewrite ?Hc; naive_solver|].
  all: intros l Hl%Hoff Hl3 Hl4; unfold temp in Hl3; upds; naive_solver.
Qed.

Lemma FlowGraphCompiler_EmitMove_exec intrinsic ms s d src r :
  place d -> has_rep d r -> d <> src ->
  match src with Constant c => r <> Quad /\ double_at (raw_ c) = double_ c | l => place l /\ has_rep l r end ->
  exists code s', FlowGraphCompiler_EmitMove intrinsic ms d src = Some code /\
    execs code (MkMachine s []) = Some (MkMachine s' []) /\ s' d = move_value s (MkMove d src) /\ keeps ms [d] s s'.
Proof.
  intros Hd Hr Hne Hsrc. unfold FlowGraphCompiler_EmitMove, Location_Equals. rewrite bool_decide_eq_false_2 by done.
  assert (Htd : ~ temp d) by auto with vm. unfold temp in Htd.
  assert (Hoff : forall l : Location, l ∉ [d] -> l <> d) by (intros l; rewrite not_elem_of_cons; tauto).
  assert (Hcase : (exists c, src = Constant c) \/ forall c, src <> Constant c) 
    by (destruct src; first [by right | left; by eexists]).
  destruct Hcase as [[c ->]|Hnc].
  - destruct Hsrc as [Hq Hc]. destruct (AllocateTemporary_spec ms intrinsic) as (x & spilled & HA & Hx & Hs).
    destruct (EmitMoveToLocation_exec s c d x r Hd Hr Hq Hc) as (code & s' & HE & Hex & Hval & Hkeep).
    { intros -> ->. done. }
    destruct (EmitMoveToLocation_exec s c d kNoRegister r Hd Hr Hq Hc) as (code0 & s0 & HE0 & Hex0 & Hval0 & Hkeep0).
    { intros -> ->. done. }
    destruct d; try done; rewrite ?HA; cbn in Hr.
    all: try (exists code0, s0; split; [done|]; split; [apply Hex0|]; split; [done|]; intros l Hl Hl3 _;
              apply Hkeep0; try done; by intros ->).
    all: rewrite HE; cbn [mbind option_bind];
      edestruct (with_scratch_exec ms s (Register_ x) spilled code s') as (s2 & Hs2 & Hk2 & Hin2);
        [done|done|done| | |eexists _, s2; split; [reflexivity|]; split; [exact Hs2|]; split; [|exact Hk2]; rewrite Hin2; [done|apply list_elem_of_singleton; reflexivity]];
      [intros l Hl Ht Hlx; by apply Hkeep|rewrite not_elem_of_cons; split; [done|apply not_elem_of_nil]].
  - assert (Hps : place src /\ has_rep src r) by (destruct src; try done; by edestruct Hnc).
    destruct Hps as [Hp Hrs]. assert (Hts : ~ temp src) by auto with vm. unfold temp in Hts.
    destruct src, d; try done; cbn in Hr, Hrs; try congruence;
      (eexists _, _; split; [reflexivity|]; unfold MoveMemoryToMemory, fpu_copy; run; split; [reflexivity|];
       split; [unfold move_value; cbn [src_]; upds; tauto|];
       intros l Hl%Hoff Hl3 _; unfold temp in Hl3; upds; tauto).
Qed.
End Code.

(** ** The invariant of the resolver

    [orig] are the moves to perform, [s0] the store before them. At any time
    a live move has its original value in its current source, an eliminated
    one in its destination; [path] are the pending moves, innermost first,
    each of which is blocked by the one before it. *)
Section Invariant.
Context (double_at : Z -> Z) (rep : Location -> Rep) (intrinsic_mode : bool) (s0 : store).
Context (orig : list MoveOperands) (Hwf : wf_moves double_at rep orig).
Abbreviation execs := (exec double_at).

Definition good (s : store) (m o : MoveOperands) : Prop :=
  match src_ o with
  | Constant c => src_ m = Constant c
  | l => place (src_ m) /\ has_rep (src_ m) (rep (src_ m)) /\ rep (src_ m) = rep (dest_ o) /\ s (src_ m) = s0 l
  end.

Record inv (path : list nat) (ms : list MoveOperands) (s : store) : Prop := {
  inv_length : length ms = length orig;
  inv_nodup : NoDup path;
  inv_pending : forall i, i ∈ path -> exists m, ms !! i = Some m /\ src_ m <> NoLocation /\ dest_ m = NoLocation;
  inv_done : forall i m o, ms !! i = Some m -> orig !! i = Some o -> src_ m = NoLocation ->
    dest_ m = NoLocation /\ s (dest_ o) = move_value s0 o;
  inv_live : forall i m o, ms !! i = Some m -> orig !! i = Some o -> src_ m <> NoLocation ->
    (i ∉ path -> dest_ m = dest_ o) /\ good s m o;
  inv_rest : forall l, place l -> (forall o, o ∈ orig -> dest_ o <> l) -> s l = s0 l;
  inv_chain : forall k i j m o, path !! k = Some i -> path !! S k = Some j -> ms !! i = Some m -> orig !! j = Some o ->
    src_ m = dest_ o }.

Lemma orig_wf i o : orig !! i = Some o -> wf_move double_at rep o.
Proof using Hwf. intros Ho. by apply (Forall_lookup_1 _ _ _ _ (wf_each _ _ _ Hwf) Ho). Qed.
Lemma dest_inj i j oi oj : orig !! i = Some oi -> orig !! j = Some oj -> dest_ oi = dest_ oj -> i = j.
Proof using Hwf.
  intros Hi Hj He. apply (NoDup_lookup _ i j (dest_ oi) (wf_dests _ _ _ Hwf)).
  - by rewrite list_lookup_fmap, Hi.
  - by rewrite list_lookup_fmap, Hj, He.
Qed.
Lemma place_valid l : place l -> l <> NoLocation.
Proof using. by intros Hp ->. Qed.

Section Inv.
Context (path : list nat) (ms : list MoveOperands) (s : store) (Hinv : inv path ms s).

Lemma inv_orig i m : ms !! i = Some m -> exists o, orig !! i = Some o.
Proof using Hinv.
  intros Hm. apply lookup_lt_Some in Hm. rewrite (inv_length _ _ _ Hinv) in Hm. by apply lookup_lt_is_Some_2.
Qed.

(** Only moves that are neither performed nor pending show a destination. *)
Lemma inv_dest i m o : ms !! i = Some m -> orig !! i = Some o -> dest_ m <> NoLocation ->
  dest_ m = dest_ o /\ src_ m <> NoLocation /\ i ∉ path.
Proof using Hinv.
  intros Hm Ho Hd. assert (Hs : src_ m <> NoLocation) by (intros Hs; by destruct (inv_done _ _ _ Hinv i m o Hm Ho Hs)).
  assert (Hp : i ∉ path) by (intros (m' & Hm' & _ & Hd')%(inv_pending _ _ _ Hinv); congruence).
  split; [|done]. by apply (inv_live _ _ _ Hinv i m o Hm Ho Hs).
Qed.

Lemma Blocks_spec m l : place l -> Blocks m l = bool_decide (src_ m = l).
Proof using.
  intros Hl. unfold Blocks, IsEliminated, IsInvalid, Location_Equals.
  destruct (decide (src_ m = l)) as [->|Hne].
  - rewrite (bool_decide_eq_true_2 (l = l)) by done. by rewrite bool_decide_eq_false_2 by by apply place_valid.
  - by rewrite (bool_decide_eq_false_2 (src_ m = l)), andb_false_r by done.
Qed.

(** A scratch location is the destination of a move still to be performed
    and the source of none. *)
Lemma scratch_spec l : place l -> IsScratchLocation ms l = true ->
  (forall i m, ms !! i = Some m -> src_ m <> l) /\
  exists i m o, ms !! i = Some m /\ orig !! i = Some o /\ dest_ o = l /\ src_ m <> NoLocation /\ i ∉ path.
Proof using Hinv.
  intros Hl Hs. unfold IsScratchLocation in Hs. destruct (existsb (fun m => Blocks m l) ms) eqn:E; [done|]. split.
  - intros i m Hm He. rewrite <- not_true_iff_false in E. apply E, existsb_exists. exists m.
    split; [by eapply list_elem_of_In, list_elem_of_lookup_2|]. rewrite Blocks_spec by done. by apply bool_decide_eq_true_2.
  - apply existsb_exists in Hs as (m & [i Hi]%list_elem_of_In%list_elem_of_lookup_1 & He).
    apply bool_decide_eq_true_1 in He. destruct (inv_orig i m Hi) as [o Ho]. exists i, m, o.
    destruct (inv_dest i m o Hi Ho) as (Hd & Hlive & Hp); [rewrite He; by apply place_valid|].
    do 2 (split; [done|]). split; [congruence|]. done.
Qed.

(** The current source of a live move. *)
Lemma live_src i m o : ms !! i = Some m -> orig !! i = Some o -> src_ m <> NoLocation ->
  good s m o /\ (place (src_ m) \/ exists c, src_ m = Constant c).
Proof using Hinv.
  intros Hm Ho Hs. destruct (inv_live _ _ _ Hinv i m o Hm Ho Hs) as [_ Hg]. split; [done|].
  unfold good in Hg. destruct (src_ o); first [by left | right; by eexists | destruct Hg as (Hp & _); by left].
Qed.

(** The destination of a performed or pending move is not scratch, nor is a
    source, nor what the moves do not mention. *)
Lemma not_scratch_done i m o : ms !! i = Some m -> orig !! i = Some o -> src_ m = NoLocation ->
  IsScratchLocation ms (dest_ o) = false.
Proof using Hinv Hwf.
  intros Hm Ho Hs. apply not_true_iff_false. intros Hsc.
  apply scratch_spec in Hsc as (_ & j & mj & oj & Hj & Hoj & He & Hlive & _); [|apply (orig_wf i o Ho)].
  assert (j = i) as -> by by apply (dest_inj j i oj o). congruence.
Qed.
Lemma not_scratch_src i m : ms !! i = Some m -> place (src_ m) -> IsScratchLocation ms (src_ m) = false.
Proof using Hinv.
  intros Hm Hp. apply not_true_iff_false. intros [Hno _]%scratch_spec; [|done]. by apply (Hno i m).
Qed.
Lemma not_scratch_rest l : place l -> (forall o, o ∈ orig -> dest_ o <> l) -> IsScratchLocation ms l = false.
Proof using Hinv.
  intros Hp Hl. apply not_true_iff_false. intros (_ & j & mj & oj & _ & Hoj & He & _)%scratch_spec; [|done].
  apply (Hl oj); [by eapply list_elem_of_lookup_2|done].
Qed.
End Inv.

(** Performing a move that nothing depends on, or that changes nothing. *)
Lemma inv_eliminate path ms s s' i m o :
  inv path ms s -> i ∉ path -> ms !! i = Some m -> orig !! i = Some o -> src_ m <> NoLocation ->
  s' (dest_ o) = move_value s0 o ->
  (forall j mj, j <> i -> ms !! j = Some mj -> src_ mj = dest_ o -> s' (dest_ o) = s (dest_ o)) ->
  keeps ms [dest_ o] s s' ->
  inv path (<[i := Eliminate]> ms) s'.
Proof using Hwf.
  intros Hinv Hi Hm Ho Hlive Hval Hno Hk. pose proof (orig_wf i o Ho) as Hwo.
  assert (Hlt : (i < length ms)%nat) by by eapply lookup_lt_Some.
  assert (Hkeep : forall l, l <> dest_ o -> place l -> IsScratchLocation ms l = false -> s' l = s l).
  { intros l Hl Hp Hsc. apply Hk; [by rewrite list_elem_of_singleton|by apply place_not_temp|done]. }
  split.
  - rewrite length_insert. apply Hinv.
  - apply Hinv.
  - intros j Hj. rewrite list_lookup_insert_ne by (by intros ->). by apply Hinv.
  - intros j mj oj Hmj Hoj Hs. destruct (decide (j = i)) as [->|Hne].
    { rewrite list_lookup_insert_eq in Hmj by done. assert (oj = o) as -> by congruence. injection Hmj as <-. done. }
    rewrite list_lookup_insert_ne in Hmj by done. destruct (inv_done _ _ _ Hinv j mj oj Hmj Hoj Hs) as [? Hv]. split; [done|].
    rewrite <- Hv. apply Hkeep; [|apply (orig_wf j oj Hoj)|by apply (not_scratch_done path ms s Hinv j mj oj)].
    intros He. by apply Hne, (dest_inj j i oj o).
  - intros j mj oj Hmj Hoj Hs. destruct (decide (j = i)) as [->|Hne].
    { rewrite list_lookup_insert_eq in Hmj by done. by injection Hmj as <-. }
    rewrite list_lookup_insert_ne in Hmj by done. destruct (inv_live _ _ _ Hinv j mj oj Hmj Hoj Hs) as [Hd Hg].
    split; [done|]. unfold good in *. destruct (src_ oj); try done;
      (destruct Hg as (Hp & Hr & Hrr & <-); do 3 (split; [done|]);
       destruct (decide (src_ mj = dest_ o)) as [He|He]; [rewrite He; by apply (Hno j mj)|];
       apply Hkeep; [done|done|by apply (not_scratch_src path ms s Hinv j mj)]).
  - intros l Hp Hl. rewrite <- (inv_rest _ _ _ Hinv l Hp Hl). apply Hkeep; [|done|by apply (not_scratch_rest path ms s Hinv)].
    intros ->. by apply (Hl o); [eapply list_elem_of_lookup_2|].
  - intros k j1 j2 mj oj Hk1 Hk2 Hmj Hoj. rewrite list_lookup_insert_ne in Hmj; [by apply (inv_chain _ _ _ Hinv k j1 j2)|].
    intros ->. apply Hi. by eapply list_elem_of_lookup_2.
Qed.

(** Swapping the source and the destination of a move that a pending move
    waits for: the source is the destination of the move that waits for it. *)
Lemma inv_swap path ms s s' i m o p op :
  inv path ms s -> i ∉ path -> ms !! i = Some m -> orig !! i = Some o -> place (src_ m) ->
  rep (src_ m) = rep (dest_ o) -> has_rep (src_ m) (rep (src_ m)) ->
  head path = Some p -> orig !! p = Some op -> src_ m = dest_ op ->
  s (src_ m) = move_value s0 o ->
  s' (src_ m) = s (dest_ o) -> s' (dest_ o) = s (src_ m) -> keeps ms [src_ m; dest_ o] s s' ->
  inv path (swap_source (src_ m) (dest_ o) <$> <[i := Eliminate]> ms) s'.
Proof using Hwf.
  intros Hinv Hi Hm Ho Hps Hrep Hhas Hhd Hop Hsrc Hval Hs1 Hs2 Hk. set (a := src_ m) in *. set (b := dest_ o) in *.
  destruct (wf_dest _ _ _ (orig_wf i o Ho)) as [Hpb Hhb]. fold b in Hpb, Hhb.
  assert (Hlt : (i < length ms)%nat) by by eapply lookup_lt_Some.
  assert (Hpin : p ∈ path) by (destruct path; [done|]; injection Hhd as ->; by left).
  assert (Hkeep : forall l, l <> a -> l <> b -> place l -> IsScratchLocation ms l = false -> s' l = s l).
  { intros l Ha Hb Hp Hsc. apply Hk; [rewrite !not_elem_of_cons; split; [done|split; [done|apply not_elem_of_nil]]|by apply place_not_temp|done]. }
  assert (Hget : forall j mj, j <> i -> (swap_source a b <$> <[i:=Eliminate]> ms) !! j = Some mj ->
    exists mj0, ms !! j = Some mj0 /\ mj = swap_source a b mj0).
  { intros j mj Hne Hj. rewrite list_lookup_fmap, list_lookup_insert_ne in Hj by done.
    destruct (ms !! j) as [mj0|]; [|done]. injection Hj as <-. by exists mj0. }
  assert (Hgeti : (swap_source a b <$> <[i:=Eliminate]> ms) !! i = Some Eliminate)
    by (rewrite list_lookup_fmap, list_lookup_insert_eq by done; done).
  assert (Hswap : forall x, swap_source a b x = if decide (src_ x = a) then set_src x b else
                    if decide (src_ x = b) then set_src x a else x).
  { intros x. unfold swap_source. rewrite !Blocks_spec by done. repeat case_decide; repeat case_bool_decide; done. }
  assert (Hnc : forall l, place l -> forall c, l <> Constant c) by (by intros l Hl c ->).
  assert (Hva : a <> NoLocation) by by apply place_valid. assert (Hvb : b <> NoLocation) by by apply place_valid.
  split.
  - rewrite length_fmap, length_insert. apply Hinv.
  - apply Hinv.
  - intros j Hj. destruct (inv_pending _ _ _ Hinv j Hj) as (mj & Hmj & Hs & Hd).
    exists (swap_source a b mj). rewrite list_lookup_fmap, list_lookup_insert_ne by (by intros ->). rewrite Hmj.
    split; [done|]. rewrite Hswap. repeat case_decide; done.
  - intros j mj oj Hmj Hoj Hs. destruct (decide (j = i)) as [->|Hne].
    { rewrite Hgeti in Hmj. assert (oj = o) as -> by congruence. injection Hmj as <-. split; [done|]. by rewrite <- Hval, <- Hs2. }
    apply Hget in Hmj as (mj0 & Hmj & ->); [|done].
    assert (Hs0 : src_ mj0 = NoLocation) by (rewrite Hswap in Hs; repeat case_decide; done).
    replace (swap_source a b mj0) with mj0 by (rewrite Hswap; repeat case_decide; congruence).
    destruct (inv_done _ _ _ Hinv j mj0 oj Hmj Hoj Hs0) as [? Hv]. split; [done|].
    rewrite <- Hv. apply Hkeep; [| |apply (orig_wf j oj Hoj)|by apply (not_scratch_done path ms s Hinv j mj0 oj)].
    + rewrite Hsrc. intros He. assert (j = p) as -> by by apply (dest_inj j p oj op).
      destruct (inv_pending _ _ _ Hinv p Hpin) as (m' & Hm' & Hs' & _). congruence.
    + intros He. by apply Hne, (dest_inj j i oj o).
  - intros j mj oj Hmj Hoj Hs. destruct (decide (j = i)) as [->|Hne]; [rewrite Hgeti in Hmj; by injection Hmj as <-|].
    apply Hget in Hmj as (mj0 & Hmj & ->); [|done].
    assert (Hs0 : src_ mj0 <> NoLocation) by (intros Hs0; apply Hs; rewrite Hswap; repeat case_decide; congruence).
    destruct (inv_live _ _ _ Hinv j mj0 oj Hmj Hoj Hs0) as [Hd Hg]. split.
    { intros Hj. rewrite Hswap. repeat case_decide; cbn; by apply Hd. }
    unfold good in *. destruct (src_ oj) eqn:Esrc;
      try (destruct Hg as (Hp & Hr & Hrr & <-); rewrite Hswap; repeat case_decide; cbn;
        [rewrite Hs2; repeat split; congruence | rewrite Hs1; repeat split; congruence |
         do 3 (split; [done|]); apply Hkeep; [done|done|done|by apply (not_scratch_src path ms s Hinv j mj0)]]).
    rewrite Hswap. repeat case_decide; [| |done]; exfalso; [apply (Hnc a Hps c)|apply (Hnc b Hpb c)]; congruence.
  - intros l Hp Hl. rewrite <- (inv_rest _ _ _ Hinv l Hp Hl). apply Hkeep; [| |done|by apply (not_scratch_rest path ms s Hinv)].
    + rewrite Hsrc. intros ->. by apply (Hl op); [eapply list_elem_of_lookup_2|].
    + intros ->. by apply (Hl o); [eapply list_elem_of_lookup_2|].
  - intros k j1 j2 mj oj Hk1 Hk2 Hmj Hoj. assert (Hne : j1 <> i) by (intros ->; apply Hi; by eapply list_elem_of_lookup_2).
    apply Hget in Hmj as (mj0 & Hmj & ->); [|done]. pose proof (inv_chain _ _ _ Hinv k j1 j2 mj0 oj Hk1 Hk2 Hmj Hoj) as Hc.
    rewrite Hswap. rewrite decide_False; [rewrite decide_False; [done|]|].
    + rewrite Hc. intros He. apply Hi. assert (j2 = i) as -> by by apply (dest_inj j2 i oj o). by eapply list_elem_of_lookup_2.
    + rewrite Hc, Hsrc. intros He. assert (j2 = p) as -> by by apply (dest_inj j2 p oj op).
      destruct path as [|p' path]; [done|]. injection Hhd as ->.
      pose proof (NoDup_lookup _ 0 (S k) p (inv_nodup _ _ _ Hinv) eq_refl Hk2). lia.
Qed.

(** Entering and leaving a move. *)
Lemma inv_push path ms s i m o :
  inv path ms s -> i ∉ path -> ms !! i = Some m -> orig !! i = Some o -> src_ m <> NoLocation ->
  (forall p op, head path = Some p -> orig !! p = Some op -> src_ m = dest_ op) ->
  inv (i :: path) (<[i := MarkPending m]> ms) s.
Proof using Hwf.
  intros Hinv Hi Hm Ho Hlive Hhd. assert (Hlt : (i < length ms)%nat) by by eapply lookup_lt_Some.
  assert (Hne : forall j, j ∈ path -> j <> i) by (by intros j Hj ->). split.
  - rewrite length_insert. apply Hinv.
  - constructor; [done|apply Hinv].
  - intros j [->|Hj]%elem_of_cons; [exists (MarkPending m); by rewrite list_lookup_insert_eq by done|].
    rewrite list_lookup_insert_ne by (by symmetry; apply Hne). by apply Hinv.
  - intros j mj oj Hmj Hoj Hs. destruct (decide (j = i)) as [->|Hji].
    { rewrite list_lookup_insert_eq in Hmj by done. by injection Hmj as <-. }
    rewrite list_lookup_insert_ne in Hmj by done. by apply (inv_done _ _ _ Hinv j mj).
  - intros j mj oj Hmj Hoj Hs. destruct (decide (j = i)) as [->|Hji].
    { rewrite list_lookup_insert_eq in Hmj by done. injection Hmj as <-. split; [intros []; by left|].
      apply (inv_live _ _ _ Hinv i m oj Hm Hoj Hlive). }
    rewrite list_lookup_insert_ne in Hmj by done. destruct (inv_live _ _ _ Hinv j mj oj Hmj Hoj Hs) as [Hd Hg].
    split; [|done]. intros Hj. apply Hd. intros ?. apply Hj. by right.
  - apply Hinv.
  - intros k j1 j2 mj oj Hk1 Hk2 Hmj Hoj. destruct k as [|k]; cbn in Hk1, Hk2.
    + injection Hk1 as <-. rewrite list_lookup_insert_eq in Hmj by done. injection Hmj as <-.
      apply (Hhd j2 oj); [by destruct path|done].
    + rewrite list_lookup_insert_ne in Hmj by (symmetry; apply Hne; by eapply list_elem_of_lookup_2).
      by apply (inv_chain _ _ _ Hinv k j1 j2).
Qed.
Lemma inv_pop path ms s i m o :
  inv (i :: path) ms s -> ms !! i = Some m -> orig !! i = Some o ->
  inv path (<[i := ClearPending m (dest_ o)]> ms) s.
Proof using Hwf.
  intros Hinv Hm Ho. pose proof (NoDup_cons_1_1 _ _ (inv_nodup _ _ _ Hinv)) as Hi. pose proof (NoDup_cons_1_2 _ _ (inv_nodup _ _ _ Hinv)) as Hnd.
  assert (Hlt : (i < length ms)%nat) by by eapply lookup_lt_Some.
  assert (Hne : forall j, j ∈ path -> j <> i) by (by intros j Hj ->).
  destruct (inv_pending _ _ _ Hinv i ltac:(by left)) as (m' & Hm' & Hlive & _). assert (m' = m) as -> by congruence. split.
  - rewrite length_insert. apply Hinv.
  - done.
  - intros j Hj. rewrite list_lookup_insert_ne by (by symmetry; apply Hne). apply Hinv. by right.
  - intros j mj oj Hmj Hoj Hs. destruct (decide (j = i)) as [->|Hji].
    { rewrite list_lookup_insert_eq in Hmj by done. by injection Hmj as <-. }
    rewrite list_lookup_insert_ne in Hmj by done. by apply (inv_done _ _ _ Hinv j mj).
  - intros j mj oj Hmj Hoj Hs. destruct (decide (j = i)) as [->|Hji].
    { rewrite list_lookup_insert_eq in Hmj by done. injection Hmj as <-. split; [cbn; congruence|].
      apply (inv_live _ _ _ Hinv i m oj Hm Hoj Hlive). }
    rewrite list_lookup_insert_ne in Hmj by done. destruct (inv_live _ _ _ Hinv j mj oj Hmj Hoj Hs) as [Hd Hg].
    split; [|done]. intros Hj. apply Hd. by intros [?|?]%elem_of_cons.
  - apply Hinv.
  - intros k j1 j2 mj oj Hk1 Hk2 Hmj Hoj.
    rewrite list_lookup_insert_ne in Hmj by (symmetry; apply Hne; by eapply list_elem_of_lookup_2).
    by apply (inv_chain _ _ _ Hinv (S k) j1 j2).
Qed.

(** What a call of [PerformMove] does for its callers: it performs moves,
    and creates no move that blocks a pending one. *)
Record progress_to (path : list nat) (ms ms' : list MoveOperands) : Prop := {
  no_new_block : forall a oa j mj', a ∈ path -> orig !! a = Some oa -> j ∉ path -> ms' !! j = Some mj' ->
    src_ mj' = dest_ oa -> exists mj, ms !! j = Some mj /\ src_ mj = dest_ oa;
  still_done : forall j mj, ms !! j = Some mj -> src_ mj = NoLocation ->
    exists mj', ms' !! j = Some mj' /\ src_ mj' = NoLocation }.
Lemma progress_refl path ms : progress_to path ms ms.
Proof using. split; eauto. Qed.
Lemma progress_trans path ms1 ms2 ms3 : progress_to path ms1 ms2 -> progress_to path ms2 ms3 -> progress_to path ms1 ms3.
Proof using.
  intros [Hb1 Hd1] [Hb2 Hd2]. split.
  - intros a oa j mj' Ha Hoa Hj Hmj He. destruct (Hb2 a oa j mj' Ha Hoa Hj Hmj He) as (mj & Hmj2 & He2). by apply (Hb1 a oa j mj).
  - intros j mj Hmj Hs. destruct (Hd1 j mj Hmj Hs) as (mj2 & Hmj2 & Hs2). by apply (Hd2 j mj2).
Qed.

(** The state of the resolver: the invariant holds of the store in which the
    code emitted so far ends. *)
Definition reaches (path : list nat) (st : Resolver) (s : store) : Prop :=
  execs (code_ st) (MkMachine s0 []) = Some (MkMachine s []) /\ inv path (moves_ st) s.
Lemma reaches_path path st s : reaches path st s -> (length path <= length orig)%nat.
Proof using.
  intros [_ Hinv]. rewrite <- (length_seq (length orig) 0).
  apply submseteq_length, NoDup_submseteq; [apply Hinv|]. intros i Hi.
  destruct (inv_pending _ _ _ Hinv i Hi) as (m & Hm & _). apply elem_of_seq.
  apply lookup_lt_Some in Hm. rewrite (inv_length _ _ _ Hinv) in Hm. lia.
Qed.

Lemma EmitMove_spec path st s i m o :
  reaches path st s -> i ∉ path -> moves_ st !! i = Some m -> orig !! i = Some o -> src_ m <> NoLocation -> src_ m <> dest_ o ->
  (forall j mj, j <> i -> moves_ st !! j = Some mj -> src_ mj <> dest_ o) ->
  exists st' s', EmitMove intrinsic_mode st i = Some st' /\ reaches path st' s' /\
    moves_ st' = <[i := Eliminate]> (moves_ st).
Proof using Hwf.
  intros [Hex Hinv] Hi Hm Ho Hlive Hne Hno. destruct (inv_live _ _ _ Hinv i m o Hm Ho Hlive) as [Hd Hg].
  specialize (Hd Hi). destruct (orig_wf i o Ho) as [[Hpd Hrd] Hws].
  destruct (FlowGraphCompiler_EmitMove_exec double_at intrinsic_mode (moves_ st) s (dest_ o) (src_ m) (rep (dest_ o)))
    as (code & s' & Hcode & Hex' & Hv & Hk); [done|done|congruence| |].
  { unfold good in Hg. destruct (src_ o); try (destruct Hg as (Hp & Hr & <- & _); by destruct (src_ m)).
    by rewrite Hg. }
  exists (set_move (emit st code) i Eliminate), s'. unfold EmitMove. rewrite Hm. cbn [mbind option_bind]. rewrite Hd, Hcode.
  split; [done|]. split; [|done]. split.
  - cbn. by rewrite exec_app, Hex.
  - cbn. apply (inv_eliminate path (moves_ st) s s' i m o); try done; [|intros j mj Hj Hmj He; by destruct (Hno j mj)].
    rewrite Hv. unfold move_value, good in *. cbn.
    destruct (src_ o); try (destruct Hg as (Hp & _ & _ & <-); by destruct (src_ m)). by rewrite Hg.
Qed.

Lemma EmitSwap_spec path st s i m o p op :
  reaches path st s -> i ∉ path -> moves_ st !! i = Some m -> orig !! i = Some o -> place (src_ m) -> src_ m <> dest_ o ->
  head path = Some p -> orig !! p = Some op -> src_ m = dest_ op ->
  exists st' s', EmitSwap st i = Some st' /\ reaches path st' s' /\
    moves_ st' = swap_source (src_ m) (dest_ o) <$> <[i := Eliminate]> (moves_ st).
Proof using Hwf.
  intros [Hex Hinv] Hi Hm Ho Hps Hne Hhd Hop Hsrc. pose proof (place_valid _ Hps) as Hlive.
  destruct (inv_live _ _ _ Hinv i m o Hm Ho Hlive) as [Hd Hg]. specialize (Hd Hi).
  destruct (orig_wf i o Ho) as [[Hpd Hrd] Hws].
  assert (Hg' : has_rep (src_ m) (rep (src_ m)) /\ rep (src_ m) = rep (dest_ o) /\ s (src_ m) = move_value s0 o).
  { unfold good, move_value in *. destruct (src_ o); try (by destruct Hg as (_ & ? & ? & ?)). by rewrite Hg in Hps. }
  destruct Hg' as (Hr & Hrr & Hv).
  destruct (EmitSwap_code_exec double_at (moves_ st) s (src_ m) (dest_ o) (rep (dest_ o)))
    as (code & s' & Hcode & Hex' & Hs1 & Hs2 & Hk); [done|done|done|congruence|done|].
  eexists _, s'. unfold EmitSwap. rewrite Hm. cbn [mbind option_bind]. rewrite Hd, Hcode. split; [reflexivity|]. split; [|done]. split.
  - cbn. by rewrite exec_app, Hex.
  - cbn [moves_ set_move emit]. by apply (inv_swap path (moves_ st) s s' i m o p op).
Qed.

(** After a swap, no move outside the path has taken over the place of a
    pending one. *)
Lemma swap_progress path ms i m o p op :
  i ∉ path -> ms !! i = Some m -> orig !! i = Some o -> place (src_ m) -> p ∈ path -> orig !! p = Some op -> src_ m = dest_ op ->
  (forall j mj, j ∉ path -> j <> i -> ms !! j = Some mj -> src_ mj <> dest_ o) ->
  progress_to path ms (swap_source (src_ m) (dest_ o) <$> <[i := Eliminate]> ms).
Proof using Hwf.
  intros Hi Hm Ho Hps Hp Hop Hsrc Hno. pose proof (wf_dest _ _ _ (orig_wf i o Ho)) as [Hpd _].
  assert (Hlt : (i < length ms)%nat) by by eapply lookup_lt_Some.
  split.
  - intros a oa j mj' Ha Hoa Hj Hmj He. destruct (decide (j = i)) as [->|Hne].
    { rewrite list_lookup_fmap, list_lookup_insert_eq in Hmj by done. injection Hmj as <-.
      by destruct (place_valid _ (proj1 (wf_dest _ _ _ (orig_wf a oa Hoa)))). }
    rewrite list_lookup_fmap, list_lookup_insert_ne in Hmj by done.
    destruct (ms !! j) as [mj|] eqn:Ej; [|done]. injection Hmj as <-. exists mj. split; [done|].
    revert He. unfold swap_source. rewrite !Blocks_spec by done. case_bool_decide; [|case_bool_decide]; cbn; [| |done].
    + intros He. destruct Hi. by rewrite (dest_inj i a o oa).
    + intros _. by destruct (Hno j mj).
  - intros j mj Hmj Hs. rewrite list_lookup_fmap. destruct (decide (j = i)) as [->|Hne].
    + rewrite list_lookup_insert_eq by done. by exists Eliminate.
    + rewrite list_lookup_insert_ne, Hmj by done. eexists. split; [reflexivity|]. unfold swap_source.
      rewrite !Blocks_spec by done. pose proof (place_valid _ Hps). pose proof (place_valid _ Hpd).
      repeat case_bool_decide; congruence.
Qed.
Lemma eliminate_progress path ms i m : ms !! i = Some m -> progress_to path ms (<[i := Eliminate]> ms).
Proof using Hwf.
  intros Hm. assert (Hlt : (i < length ms)%nat) by by eapply lookup_lt_Some. split.
  - intros a oa j mj' Ha Hoa Hj Hmj He. destruct (decide (j = i)) as [->|Hne].
    + rewrite list_lookup_insert_eq in Hmj by done. injection Hmj as <-.
      by destruct (place_valid _ (proj1 (wf_dest _ _ _ (orig_wf a oa Hoa)))).
    + rewrite list_lookup_insert_ne in Hmj by done. by exists mj'.
  - intros j mj Hmj Hs. destruct (decide (j = i)) as [->|Hne].
    + rewrite list_lookup_insert_eq by done. by exists Eliminate.
    + rewrite list_lookup_insert_ne by done. by exists mj.
Qed.

(** What [PerformMove] promises for a move outside of [path] whose source is
    the destination of the innermost pending move. *)
Definition performs (path : list nat) (perform : nat -> Resolver -> option Resolver) : Prop :=
  forall i st s m, reaches path st s -> moves_ st !! i = Some m -> place (src_ m) -> i ∉ path ->
    (forall p op, head path = Some p -> orig !! p = Some op -> src_ m = dest_ op) ->
    exists st' s', perform i st = Some st' /\ reaches path st' s' /\ progress_to path (moves_ st) (moves_ st') /\
      moves_ st' !! i = Some Eliminate.

(** The loop performs every blocking move that is not pending. *)
Lemma PerformMove_loop_spec path i o perform indices st s :
  performs (i :: path) perform -> orig !! i = Some o -> reaches (i :: path) st s ->
  (forall j, j ∈ indices -> (j < length orig)%nat) ->
  exists st' s', PerformMove_loop perform (dest_ o) indices st = Some st' /\ reaches (i :: path) st' s' /\
    progress_to (i :: path) (moves_ st) (moves_ st') /\
    forall j mj, j ∈ indices -> j ∉ i :: path -> moves_ st' !! j = Some mj -> src_ mj <> dest_ o.
Proof using Hwf.
  intros Hperf Ho. pose proof (wf_dest _ _ _ (orig_wf i o Ho)) as [Hpd _]. pose proof (place_valid _ Hpd) as Hvd.
  revert st s. induction indices as [|j indices IH]; intros st s Hr Hin.
  - exists st, s. split; [done|]. split; [done|]. split; [apply progress_refl|]. intros j mj Hj. by apply not_elem_of_nil in Hj.
  - cbn [PerformMove_loop]. destruct (lookup_lt_is_Some_2 (moves_ st) j) as [mj Hmj].
    { rewrite (inv_length _ _ _ (proj2 Hr)). apply Hin. by left. }
    rewrite Hmj. cbn [mbind option_bind]. rewrite Blocks_spec by done.
    (* one round: afterwards [j] does not block *)
    assert (Hround : exists st1 s1,
      (if bool_decide (src_ mj = dest_ o) && negb (IsPending mj) then perform j st else Some st) = Some st1 /\
      reaches (i :: path) st1 s1 /\ progress_to (i :: path) (moves_ st) (moves_ st1) /\
      (j ∉ i :: path -> forall m', moves_ st1 !! j = Some m' -> src_ m' <> dest_ o)).
    { case_bool_decide as Hb; cbn [andb].
      2: { exists st, s. split; [done|]. split; [done|]. split; [apply progress_refl|]. intros _ m' Hm'. congruence. }
      unfold IsPending, IsInvalid, Location_Equals. case_bool_decide as Hd; cbn [andb negb].
      - rewrite (bool_decide_eq_false_2 (src_ mj = NoLocation)) by congruence. cbn [negb].
        exists st, s. split; [done|]. split; [done|]. split; [apply progress_refl|]. intros Hj. exfalso.
        destruct (inv_orig _ _ _ (proj2 Hr) j mj Hmj) as [oj Hoj].
        destruct (inv_live _ _ _ (proj2 Hr) j mj oj Hmj Hoj ltac:(congruence)) as [Hdj _]. specialize (Hdj Hj).
        apply (place_valid (dest_ oj)); [apply (orig_wf j oj Hoj)|congruence].
      - destruct (inv_orig _ _ _ (proj2 Hr) j mj Hmj) as [oj Hoj].
        destruct (inv_dest _ _ _ (proj2 Hr) j mj oj Hmj Hoj Hd) as (_ & _ & Hj).
        destruct (Hperf j st s mj Hr Hmj ltac:(congruence) Hj) as (st1 & s1 & He & Hr1 & Hp1 & Hel).
        { intros p op Hp Hop. injection Hp as <-. congruence. }
        exists st1, s1. do 3 (split; [done|]). intros _ m' Hm'. rewrite Hel in Hm'. injection Hm' as <-. cbn. congruence. }
    destruct Hround as (st1 & s1 & -> & Hr1 & Hp1 & Hj1). cbn [mbind option_bind].
    destruct (IH st1 s1 Hr1) as (st' & s' & Hloop & Hr' & Hp' & Hall); [intros; apply Hin; by right|].
    exists st', s'. split; [done|]. split; [done|]. split; [by eapply progress_trans|].
    intros j' mj' [->|Hj']%elem_of_cons Hnp Hm'; [|by apply (Hall j')].
    intros He. destruct (no_new_block _ _ _ Hp' i o j mj' ltac:(by left) Ho Hnp Hm' He) as (m1 & Hm1 & He1).
    by apply (Hj1 Hnp m1).
Qed.

(** Leaving a move when the loop is done: it is eliminated, swapped or
    emitted. *)
Lemma finish_spec path st s i m o :
  reaches (i :: path) st s -> moves_ st !! i = Some m -> orig !! i = Some o -> place (src_ m) ->
  (forall j mj, j ∉ i :: path -> moves_ st !! j = Some mj -> src_ mj <> dest_ o) ->
  let st1 := set_move st i (ClearPending m (dest_ o)) in
  exists st' s',
    (if Location_Equals (src_ m) (dest_ o) then Some (set_move st1 i Eliminate)
     else if existsb (fun other_move => Blocks other_move (dest_ o)) (moves_ st1) then EmitSwap st1 i
     else EmitMove intrinsic_mode st1 i) = Some st' /\
    reaches path st' s' /\ progress_to path (moves_ st1) (moves_ st') /\ moves_ st' !! i = Some Eliminate.
Proof using Hwf.
  intros [Hex Hinv] Hm Ho Hps Hno st1. pose proof (NoDup_cons_1_1 _ _ (inv_nodup _ _ _ Hinv)) as Hi.
  pose proof (wf_dest _ _ _ (orig_wf i o Ho)) as [Hpd _].
  assert (Hlt : (i < length (moves_ st))%nat) by by eapply lookup_lt_Some.
  pose proof (inv_pop path (moves_ st) s i m o Hinv Hm Ho) as Hinv1.
  assert (Hm1 : moves_ st1 !! i = Some (ClearPending m (dest_ o))) by by apply list_lookup_insert_eq.
  assert (Hr1 : reaches path st1 s) by (by split).
  assert (Hno1 : forall j mj, j ∉ path -> j <> i -> moves_ st1 !! j = Some mj -> src_ mj <> dest_ o).
  { intros j mj Hj Hji Hmj. cbn in Hmj. rewrite list_lookup_insert_ne in Hmj by done.
    apply (Hno j mj); [|done]. by intros [?|?]%elem_of_cons. }
  assert (Heli : forall ms : list MoveOperands, length ms = length (moves_ st) -> <[i := Eliminate]> ms !! i = Some Eliminate)
    by (intros ms Hms; apply list_lookup_insert_eq; lia).
  assert (Hlen1 : length (moves_ st1) = length (moves_ st)) by apply length_insert.
  unfold Location_Equals. case_bool_decide as Heq.
  - exists (set_move st1 i Eliminate), s. split; [done|]. split; [|split; [by eapply eliminate_progress|by apply Heli]].
    split; [done|]. apply (inv_eliminate path (moves_ st1) s s i (ClearPending m (dest_ o)) o); try done.
    + by apply place_valid.
    + destruct (inv_live _ _ _ Hinv i m o Hm Ho (place_valid _ Hps)) as [_ Hg]. rewrite <- Heq. unfold good, move_value in *.
      destruct (src_ o); try (by destruct Hg as (_ & _ & _ & ?)). by rewrite Hg in Hps.
  - destruct (existsb _ _) eqn:Eb.
    + apply existsb_exists in Eb as (mj & [j Hj]%list_elem_of_In%list_elem_of_lookup_1 & Hb).
      rewrite Blocks_spec in Hb by done. apply bool_decide_eq_true_1 in Hb.
      assert (Hji : j <> i) by (intros ->; rewrite Hm1 in Hj; injection Hj as <-; done).
      assert (Hjp : j ∈ path) by (destruct (decide (j ∈ path)); [done|]; by destruct (Hno1 j mj)).
      destruct path as [|p path']; [by apply not_elem_of_nil in Hjp|].
      destruct (inv_pending _ _ _ Hinv p) as (mp & Hmp & _); [right; by left|].
      destruct (inv_orig _ _ _ Hinv p mp Hmp) as [op Hop].
      pose proof (inv_chain _ _ _ Hinv 0 i p m op eq_refl eq_refl Hm Hop) as Hsrc.
      destruct (EmitSwap_spec (p :: path') st1 s i (ClearPending m (dest_ o)) o p op) as (st' & s' & -> & Hr' & Hms'); try done.
      exists st', s'. split; [done|]. split; [done|]. rewrite Hms'. split.
      * apply (swap_progress (p :: path') (moves_ st1) i (ClearPending m (dest_ o)) o p op); try done. by left.
      * rewrite list_lookup_fmap, Heli by done. done.
    + destruct (EmitMove_spec path st1 s i (ClearPending m (dest_ o)) o) as (st' & s' & -> & Hr' & Hms'); try done.
      * by apply place_valid.
      * intros j mj Hji Hmj He. rewrite <- not_true_iff_false in Eb. apply Eb, existsb_exists. exists mj.
        split; [by eapply list_elem_of_In, list_elem_of_lookup_2|]. rewrite Blocks_spec by done. by apply bool_decide_eq_true_2.
      * exists st', s'. split; [done|]. split; [done|]. rewrite Hms'. split; [by eapply eliminate_progress|by apply Heli].
Qed.

Lemma PerformMove_spec fuel path : (length orig < length path + fuel)%nat -> performs path (PerformMove intrinsic_mode fuel).
Proof using Hwf.
  revert path. induction fuel as [|fuel IH]; intros path Hf i st s m Hr Hm Hps Hi Hhd.
  { apply reaches_path in Hr. lia. }
  destruct (inv_orig _ _ _ (proj2 Hr) i m Hm) as [o Ho]. pose proof (place_valid _ Hps) as Hlive.
  destruct (inv_live _ _ _ (proj2 Hr) i m o Hm Ho Hlive) as [Hd Hg]. specialize (Hd Hi).
  cbn [PerformMove]. rewrite Hm. cbn [mbind option_bind]. rewrite Hd.
  set (st1 := set_move st i (MarkPending m)).
  assert (Hr1 : reaches (i :: path) st1 s) by (split; [apply Hr|by apply (inv_push path (moves_ st) s i m o); [apply Hr|..]]).
  destruct (PerformMove_loop_spec path i o (PerformMove intrinsic_mode fuel) (seq 0 (length (moves_ st1))) st1 s)
    as (st2 & s2 & -> & Hr2 & Hp2 & Hno); [apply IH; cbn; lia|done|done| |].
  { intros j Hj%elem_of_seq. rewrite (inv_length _ _ _ (proj2 Hr1)) in Hj. lia. }
  cbn [mbind option_bind]. destruct (inv_pending _ _ _ (proj2 Hr2) i) as (m2 & Hm2 & Hlive2 & _); [by left|].
  rewrite Hm2. cbn [mbind option_bind].
  assert (Hps2 : place (src_ m2)).
  { destruct (inv_live _ _ _ (proj2 Hr2) i m2 o Hm2 Ho Hlive2) as [_ Hg2]. unfold good in Hg, Hg2.
    destruct (src_ o); try (by destruct Hg2). by rewrite Hg in Hps. }
  assert (Hno2 : forall j mj, j ∉ i :: path -> moves_ st2 !! j = Some mj -> src_ mj <> dest_ o).
  { intros j mj Hj Hmj. apply (Hno j mj); [|done|done]. apply elem_of_seq. apply lookup_lt_Some in Hmj.
    rewrite (inv_length _ _ _ (proj2 Hr2)) in Hmj. rewrite (inv_length _ _ _ (proj2 Hr1)). lia. }
  destruct (finish_spec path st2 s2 i m2 o Hr2 Hm2 Ho Hps2 Hno2) as (st' & s' & He & Hr' & Hp' & Hel).
  exists st', s'. split; [exact He|]. split; [done|]. split; [|done].
  (* what the caller sees *)
  assert (Hlt : (i < length (moves_ st))%nat) by by eapply lookup_lt_Some.
  split.
  - intros a oa j mj' Ha Hoa Hj Hmj' Hea.
    destruct (no_new_block _ _ _ Hp' a oa j mj' Ha Hoa Hj Hmj' Hea) as (mj1 & Hmj1 & He1). cbn in Hmj1.
    destruct (decide (j = i)) as [->|Hji].
    { rewrite Hel in Hmj'. injection Hmj' as <-. by destruct (place_valid _ (proj1 (wf_dest _ _ _ (orig_wf a oa Hoa)))). }
    rewrite list_lookup_insert_ne in Hmj1 by done.
    destruct (no_new_block _ _ _ Hp2 a oa j mj1) as (mj2 & Hmj2 & He2); [by right|done|by intros [?|?]%elem_of_cons|done|done|].
    cbn in Hmj2. rewrite list_lookup_insert_ne in Hmj2 by done. by exists mj2.
  - intros j mj Hmj Hs. assert (Hji : j <> i) by (intros ->; congruence).
    destruct (still_done _ _ _ Hp2 j mj) as (mj2 & Hmj2 & Hs2); [cbn; by rewrite list_lookup_insert_ne by done|done|].
    apply (still_done _ _ _ Hp' j mj2); [cbn; by rewrite list_lookup_insert_ne by done|done].
Qed.

(** Every move with a location as its source is performed; then the
    constants are loaded. *)
Lemma perform_all_spec indices st s :
  reaches [] st s -> (forall j, j ∈ indices -> (j < length orig)%nat) ->
  exists st' s', perform_all intrinsic_mode indices st = Some st' /\ reaches [] st' s' /\ progress_to [] (moves_ st) (moves_ st') /\
    forall j m, j ∈ indices -> moves_ st' !! j = Some m -> src_ m = NoLocation \/ exists c, src_ m = Constant c.
Proof using Hwf.
  revert st s. induction indices as [|i indices IH]; intros st s Hr Hin.
  { exists st, s. split; [done|]. split; [done|]. split; [apply progress_refl|]. intros j m Hj. by apply not_elem_of_nil in Hj. }
  cbn [perform_all]. destruct (lookup_lt_is_Some_2 (moves_ st) i) as [m Hm].
  { rewrite (inv_length _ _ _ (proj2 Hr)). apply Hin. by left. }
  rewrite Hm. cbn [mbind option_bind]. destruct (inv_orig _ _ _ (proj2 Hr) i m Hm) as [o Ho].
  assert (Hround : exists st1 s1,
    (if negb (IsEliminated m) && negb (Location_IsConstant (src_ m))
     then PerformMove intrinsic_mode (S (length (moves_ st))) i st else Some st) = Some st1 /\
    reaches [] st1 s1 /\ progress_to [] (moves_ st) (moves_ st1) /\
    ((exists m', moves_ st1 !! i = Some m' /\ src_ m' = NoLocation) \/ exists c, src_ o = Constant c)).
  { unfold IsEliminated, IsInvalid, Location_Equals. case_bool_decide as Hs; cbn [negb andb].
    { exists st, s. split; [done|]. split; [done|]. split; [apply progress_refl|]. left. by exists m. }
    destruct (live_src _ _ _ (proj2 Hr) i m o Hm Ho Hs) as [Hg [Hp|[c Hc]]].
    - assert (Hnc : Location_IsConstant (src_ m) = false) by by destruct (src_ m). rewrite Hnc. cbn [negb].
      destruct (PerformMove_spec (S (length (moves_ st))) [] ltac:(cbn; rewrite (inv_length _ _ _ (proj2 Hr)); lia) i st s m Hr Hm Hp)
        as (st1 & s1 & He & Hr1 & Hp1 & Hel); [apply not_elem_of_nil|done|].
      exists st1, s1. do 3 (split; [done|]). left. by eexists.
    - rewrite Hc. cbn. exists st, s. split; [done|]. split; [done|]. split; [apply progress_refl|]. right.
      unfold good in Hg. destruct (src_ o); try (by destruct Hg as (Hp & _); rewrite Hc in Hp). by eexists. }
  destruct Hround as (st1 & s1 & -> & Hr1 & Hp1 & Hdone). cbn [mbind option_bind].
  destruct (IH st1 s1 Hr1) as (st' & s' & Hall & Hr' & Hp' & Hj); [intros; apply Hin; by right|].
  exists st', s'. split; [done|]. split; [done|]. split; [by eapply progress_trans|].
  intros j mj [->|Hji]%elem_of_cons Hmj; [|by apply (Hj j)]. destruct Hdone as [(m' & Hm' & Hs')|[c Hc]].
  - destruct (still_done _ _ _ Hp' i m' Hm' Hs') as (m2 & Hm2 & Hs2). left. congruence.
  - destruct (decide (src_ mj = NoLocation)) as [|Hlive]; [by left|]. right. exists c.
    destruct (inv_live _ _ _ (proj2 Hr') i mj o Hmj Ho Hlive) as [_ Hg]. unfold good in Hg. by rewrite Hc in Hg.
Qed.
Lemma emit_constants_spec indices st s :
  reaches [] st s -> (forall j, j ∈ indices -> (j < length orig)%nat) ->
  (forall j m, moves_ st !! j = Some m -> src_ m = NoLocation \/ exists c, src_ m = Constant c) ->
  exists st' s', emit_constants intrinsic_mode indices st = Some st' /\ reaches [] st' s' /\ progress_to [] (moves_ st) (moves_ st') /\
    forall j m, j ∈ indices -> moves_ st' !! j = Some m -> src_ m = NoLocation.
Proof using Hwf.
  revert st s. induction indices as [|i indices IH]; intros st s Hr Hin Hcs.
  { exists st, s. split; [done|]. split; [done|]. split; [apply progress_refl|]. intros j m Hj. by apply not_elem_of_nil in Hj. }
  cbn [emit_constants]. destruct (lookup_lt_is_Some_2 (moves_ st) i) as [m Hm].
  { rewrite (inv_length _ _ _ (proj2 Hr)). apply Hin. by left. }
  rewrite Hm. cbn [mbind option_bind]. destruct (inv_orig _ _ _ (proj2 Hr) i m Hm) as [o Ho].
  pose proof (wf_dest _ _ _ (orig_wf i o Ho)) as [Hpd _].
  assert (Hround : exists st1 s1, (if negb (IsEliminated m) then EmitMove intrinsic_mode st i else Some st) = Some st1 /\
    reaches [] st1 s1 /\ progress_to [] (moves_ st) (moves_ st1) /\
    (exists m', moves_ st1 !! i = Some m' /\ src_ m' = NoLocation) /\
    forall j m, moves_ st1 !! j = Some m -> src_ m = NoLocation \/ exists c, src_ m = Constant c).
  { unfold IsEliminated, IsInvalid, Location_Equals. case_bool_decide as Hs; cbn [negb].
    { exists st, s. split; [done|]. split; [done|]. split; [apply progress_refl|]. split; [by exists m|done]. }
    assert (Hnd : forall j mj, moves_ st !! j = Some mj -> src_ mj <> dest_ o).
    { intros j mj Hmj He. destruct (Hcs j mj Hmj) as [Hn|[c Hc]]; [by destruct (place_valid _ Hpd); congruence|].
      rewrite <- He, Hc in Hpd. done. }
    destruct (EmitMove_spec [] st s i m o Hr (not_elem_of_nil i) Hm Ho Hs (Hnd i m Hm)) as (st1 & s1 & He & Hr1 & Hms); [eauto|].
    exists st1, s1. split; [done|]. split; [done|]. rewrite Hms. split; [by eapply eliminate_progress|].
    split; [exists Eliminate; rewrite list_lookup_insert_eq; [done|by eapply lookup_lt_Some]|].
    intros j mj Hmj. destruct (decide (j = i)) as [->|Hji].
    - rewrite list_lookup_insert_eq in Hmj by (by eapply lookup_lt_Some). injection Hmj as <-. by left.
    - rewrite list_lookup_insert_ne in Hmj by done. by apply (Hcs j). }
  destruct Hround as (st1 & s1 & -> & Hr1 & Hp1 & (m' & Hm' & Hs') & Hcs1). cbn [mbind option_bind].
  destruct (IH st1 s1 Hr1) as (st' & s' & Hall & Hr' & Hp' & Hj); [intros; apply Hin; by right|done|].
  exists st', s'. split; [done|]. split; [done|]. split; [by eapply progress_trans|].
  intros j mj [->|Hji]%elem_of_cons Hmj; [|by apply (Hj j)].
  destruct (still_done _ _ _ Hp' i m' Hm' Hs') as (m2 & Hm2 & Hs2). congruence.
Qed.
End Invariant.

Lemma initial_inv double_at rep s0 pm : wf_moves double_at rep (BuildInitialMoveList pm) ->
  inv rep s0 (BuildInitialMoveList pm) [] (BuildInitialMoveList pm) s0.
Proof.
  intros Hwf. split; try done.
  - constructor.
  - intros i Hi. by apply not_elem_of_nil in Hi.
  - intros i m o Hm Ho Hs. exfalso. assert (Hin : m ∈ BuildInitialMoveList pm) by by eapply list_elem_of_lookup_2.
    apply list_elem_of_filter in Hin as [Hr _]. unfold IsRedundant, IsEliminated, IsInvalid, Location_Equals in Hr.
    by rewrite Hs, bool_decide_eq_true_2 in Hr.
  - intros i m o Hm Ho Hs. assert (o = m) as -> by congruence. split; [done|].
    pose proof (wf_src _ _ _ (orig_wf double_at rep _ Hwf i m Hm)) as Hsrc. unfold good. destruct (src_ m); try done; by destruct Hsrc as (? & ? & ?).
Qed.

(** C4: The resolver implements parallel moves. For every set of moves with
    distinct destinations that holds one representation per location,
    [EmitNativeCode] ends and emits code without [UNREACHABLE]; run in any
    store, the code leaves in every destination the value that the source had
    before the moves (or the constant), and all other locations as they were,
    except for the assembler's temporaries: cycles are broken by swaps,
    scratch registers are spilled or still to be overwritten.  The moves must not
    name the assembler's own temporaries [TMP] and [FpuTMP] nor slots addressed from the stack
    pointer, which pushing a scratch register moves ([wf_moves]): the allocator
    blocks the former and addresses frame slots from the frame pointer. *)
Theorem EmitNativeCode_parallel double_at rep intrinsic_mode pm :
  wf_moves double_at rep (BuildInitialMoveList pm) ->
  exists code, EmitNativeCode intrinsic_mode pm = Some code /\
    forall s0, exists s, exec double_at code (MkMachine s0 []) = Some (MkMachine s []) /\
      (forall m, m ∈ pm -> IsRedundant m = false -> s (dest_ m) = move_value s0 m) /\
      (forall l, place l -> (forall m, m ∈ pm -> IsRedundant m = false -> dest_ m <> l) -> s l = s0 l).
Proof.
  intros Hwf. set (orig := BuildInitialMoveList pm) in *.
  assert (Hrun : forall s0, exists code s, EmitNativeCode intrinsic_mode pm = Some code /\
    exec double_at code (MkMachine s0 []) = Some (MkMachine s []) /\
    (forall o, o ∈ orig -> s (dest_ o) = move_value s0 o) /\
    (forall l, place l -> (forall o, o ∈ orig -> dest_ o <> l) -> s l = s0 l)).
  { intros s0. assert (Hseq : forall j, j ∈ seq 0 (length orig) -> (j < length orig)%nat) by (intros j Hj%elem_of_seq; lia).
    destruct (perform_all_spec double_at rep intrinsic_mode s0 orig Hwf (seq 0 (length orig)) (MkResolver orig []) s0)
      as (st1 & s1 & H1 & Hr1 & _ & Hc1); [split; [done|by eapply initial_inv]|done|].
    destruct (emit_constants_spec double_at rep intrinsic_mode s0 orig Hwf (seq 0 (length orig)) st1 s1)
      as (st2 & s2 & H2 & [Hex Hinv] & _ & Hc2); [done|done| |].
    { intros j m Hm. apply (Hc1 j m); [|done]. apply elem_of_seq. apply lookup_lt_Some in Hm.
      rewrite (inv_length _ _ _ _ _ _ (proj2 Hr1)) in Hm. lia. }
    exists (code_ st2), s2. unfold EmitNativeCode. fold orig. rewrite H1. cbn [mbind option_bind]. rewrite H2.
    split; [done|]. split; [done|]. split; [|apply Hinv]. intros o [i Ho]%list_elem_of_lookup_1.
    assert (Hi : (i < length orig)%nat) by by eapply lookup_lt_Some.
    destruct (lookup_lt_is_Some_2 (moves_ st2) i) as [m Hm]; [by rewrite (inv_length _ _ _ _ _ _ Hinv)|].
    apply (inv_done _ _ _ _ _ _ Hinv i m o Hm Ho), (Hc2 i m); [|done]. apply elem_of_seq. lia. }
  destruct (Hrun (fun _ => 0)) as (code & _ & Hcode & _). exists code. split; [done|]. intros s0.
  destruct (Hrun s0) as (code' & s & Hcode' & Hex & Hd & Hl). assert (code' = code) as -> by congruence.
  exists s. split; [done|]. split.
  - intros m Hm Hr. apply Hd. by apply list_elem_of_filter.
  - intros l Hp Hnl. apply Hl; [done|]. intros o [Hr Ho]%list_elem_of_filter. by apply Hnl.
Qed.

(** A cycle of registers with a side exit, two slots that change places and
    a constant: one swap per cycle edge but one. *)
Definition example_moves : list MoveOperands :=
  [MkMove (Register_ 1) (Register_ 0); MkMove (Register_ 2) (Register_ 1); MkMove (Register_ 0) (Register_ 2);
   MkMove (StackSlot (-3) FPREG) (Register_ 1);
   MkMove (DoubleStackSlot (-1) FPREG) (DoubleStackSlot (-2) FPREG);
   MkMove (DoubleStackSlot (-2) FPREG) (DoubleStackSlot (-1) FPREG);
   MkMove (FpuRegister 1) (Constant (MkConstant false 4096 0 77))].
Definition example_rep (l : Location) : Rep :=
  match l with FpuRegister _ | DoubleStackSlot _ _ => Double | QuadStackSlot _ _ => Quad | _ => Word end.
Lemma EmitNativeCode_parallel_witness :
  EmitNativeCode false (take 4 example_moves) =
    Some [xchg (Register_ 0) (Register_ 2); xchg (Register_ 2) (Register_ 1); mov (StackSlot (-3) FPREG) (Register_ 2)] /\
  exists code, EmitNativeCode false example_moves = Some code /\
    forall s0, exists s, exec (fun _ => 77) code (MkMachine s0 []) = Some (MkMachine s []) /\
      (forall m, m ∈ example_moves -> IsRedundant m = false -> s (dest_ m) = move_value s0 m) /\
      (forall l, place l -> (forall m, m ∈ example_moves -> IsRedundant m = false -> dest_ m <> l) -> s l = s0 l).
Proof.
  split; [vm_compute; reflexivity|]. apply (EmitNativeCode_parallel (fun _ => 77) example_rep). split.
  - repeat constructor; cbn; try done.
  - refine (bool_decide_unpack _ _). vm_compute. exact I.
Defined.
