(* ===== verification/BitSet.v ===== *)
(** * Bit fields and fixed-size bit sets (src/runtime/vm/bitfield.h, bit_set.h)

    [BitField<S, T, position, size>] on the value as a number; [BitSet<N>] as
    its array of words. An index outside the array is [None]. *)
From S2P Require Import Prelude Utils.
Local Open Scope Z_scope.
Local Open Scope vm_scope.

(** ** Bit fields *)
Definition mask_in_place (position size : Z) : Z := ((1 <<< size) - 1) <<< position.
Definition BitField_encode (position value : Z) : Z := value <<< position.
Definition BitField_decode (position size value : Z) : Z := (value >>> position) &&& ((1 <<< size) - 1).
Definition BitField_update (position size value original : Z) : Z :=
  (value <<< position) ||| (Z.lnot (mask_in_place position size) &&& original).

Lemma testbit_mask position size i : 0 <= position -> 0 <= size -> 0 <= i ->
  Z.testbit (mask_in_place position size) i = (position <=? i) && (i <? position + size).
Proof.
  intros Hp Hs Hi. unfold mask_in_place. rewrite Z.shiftl_1_l.
  replace (2 ^ size - 1) with (Z.ones size) by (rewrite Z.ones_equiv; lia). rewrite Z.shiftl_spec by done.
  destruct (Z.leb_spec position i); cbn [andb]; [|apply Z.testbit_neg_r; lia].
  rewrite Z.testbit_ones_nonneg by lia. destruct (Z.ltb_spec (i - position) size), (Z.ltb_spec i (position + size)); lia || done.
Qed.

(** The field of an updated word is the value, for every value that fits. *)
Lemma BitField_decode_update position size value original : 0 <= position -> is_uint size value -> 0 <= size ->
  BitField_decode position size (BitField_update position size value original) = value.
Proof.
  intros Hp Hv Hs. unfold BitField_decode, BitField_update. rewrite Z.shiftl_1_l, land_low by done.
  rewrite Z.shiftr_lor, Z.shiftr_shiftl_l, Z.sub_diag, Z.shiftl_0_r by lia.
  apply Z.bits_inj'. intros i Hi. change (_ mod _) with (uwrap size (value ||| (Z.lnot (mask_in_place position size) &&& original) >>> position)).
  rewrite testbit_uwrap, Z.lor_spec, Z.shiftr_spec, Z.land_spec, Z.lnot_spec, testbit_mask by lia.
  destruct (Z.ltb_spec i size); cbn [andb].
  - destruct (Z.leb_spec position (i + position)); [|lia]. destruct (Z.ltb_spec (i + position) (position + size)); [|lia].
    cbn. by rewrite orb_false_r.
  - by rewrite (testbit_small size value i).
Qed.
(** An update leaves the other fields alone. *)
Lemma BitField_decode_other position size value original position' size' :
  0 <= position -> is_uint size value -> 0 <= size -> 0 <= size' -> 0 <= position' ->
  position' + size' <= position \/ position + size <= position' ->
  BitField_decode position' size' (BitField_update position size value original) = BitField_decode position' size' original.
Proof.
  intros Hp Hv Hs Hs' Hp' Hdis. unfold BitField_decode, BitField_update. rewrite Z.shiftl_1_l, !land_low by done.
  apply Z.bits_inj'. intros i Hi.
  change (((value <<< position) ||| (Z.lnot (mask_in_place position size) &&& original)) >>> position' mod 2 ^ size')
    with (uwrap size' (((value <<< position) ||| (Z.lnot (mask_in_place position size) &&& original)) >>> position')).
  change (original >>> position' mod 2 ^ size') with (uwrap size' (original >>> position')).
  rewrite !testbit_uwrap, !Z.shiftr_spec, Z.lor_spec, Z.land_spec, Z.lnot_spec, testbit_mask, Z.shiftl_spec by lia.
  destruct (Z.ltb_spec i size'); cbn [andb]; [|done].
  replace (Z.testbit value (i + position' - position)) with false.
  - destruct (Z.leb_spec position (i + position')), (Z.ltb_spec (i + position') (position + size)); try lia; done.
  - symmetry. destruct (Z.ltb_spec (i + position' - position) 0); [by apply Z.testbit_neg_r|].
    apply (testbit_small size); [done|lia].
Qed.

(** ** Bit sets *)
Definition kLengthInWords (N : Z) : Z := 1 + (N - 1) / kBitsPerWord.
Definition BitSet_Reset (N : Z) : list Z := replicate (Z.to_nat (kLengthInWords N)) 0.
Definition word_mask (i : Z) : Z := u64 (1 <<< (i &&& (kBitsPerWord - 1))).

Definition BitSet_Set (data : list Z) (i : Z) (value : bool) : option (list Z) :=
  let w := i >>> kBitsPerWordLog2 in
  d ← arr_get data w;
  arr_set data w (if value then d ||| word_mask i else d &&& u64 (Z.lnot (word_mask i))).
Definition BitSet_Test (data : list Z) (i : Z) : option bool :=
  d ← arr_get data (i >>> kBitsPerWordLog2);
  Some (negb (d &&& word_mask i =? 0)).

(** [n] words are left behind the word [w]. *)
Fixpoint Next_words (n : nat) (data : list Z) (w : Z) : option Z :=
  match n with
  | O => Some (-1)
  | S n =>
      let w := w + 1 in
      d ← arr_get data w;
      if negb (d =? 0) then Some ((w <<< kBitsPerWordLog2) + CountTrailingZeros d) else Next_words n data w
  end.
Definition BitSet_Next (data : list Z) (i : Z) : option Z :=
  let w := i >>> kBitsPerWordLog2 in
  let mask := u64 (Z.lnot 0 <<< (i &&& (kBitsPerWord - 1))) in
  d ← arr_get data w;
  if negb (d &&& mask =? 0) then Some ((w <<< kBitsPerWordLog2) + CountTrailingZeros (d &&& mask))
  else Next_words (Z.to_nat (zlen data - 1 - w)) data w.

(** [n] words are left, the last of which is [n - 1]. *)
Fixpoint Last_words (n : nat) (data : list Z) : option Z :=
  match n with
  | O => Some (-1)
  | S n =>
      let w := Z.of_nat n in
      d ← arr_get data w;
      if negb (d =? 0) then Some (((w + 1) <<< kBitsPerWordLog2) - CountLeadingZeros d - 1) else Last_words n data
  end.
Definition BitSet_Last (data : list Z) : option Z := Last_words (length data) data.

(** The backward search for a word that is not zero: the word and its index. *)
Fixpoint previous_word (n : nat) (data : list Z) (bits : Z) : option (Z * Z) :=
  match n with
  | O => Some (bits, 0)
  | S n' =>
      if bits =? 0 then bits ← arr_get data (Z.of_nat n'); previous_word n' data bits else Some (bits, Z.of_nat n)
  end.
Definition ClearLastAndFindPrevious (data : list Z) (current_last : Z) : option (Z * list Z) :=
  let w := current_last >>> kBitsPerWordLog2 in
  bits ← arr_get data w;
  let bits := bits ^^^ word_mask current_last in
  data ← arr_set data w bits;
  '(bits, w) ← previous_word (Z.to_nat w) data bits;
  Some (if bits =? 0 then -1 else ((w + 1) <<< kBitsPerWordLog2) - CountLeadingZeros bits - 1, data).

(** ** The set of a bit set *)
Definition member (data : list Z) (i : Z) : bool :=
  match arr_get data (i / 64) with Some d => Z.testbit d (i mod 64) | None => false end.
Definition wf_bits (data : list Z) : Prop := Forall (is_uint 64) data.

Lemma word_index i : i >>> kBitsPerWordLog2 = i / 64.
Proof. unfold kBitsPerWordLog2. by rewrite Z.shiftr_div_pow2. Qed.
Lemma word_offset w : w <<< kBitsPerWordLog2 = 64 * w.
Proof. unfold kBitsPerWordLog2. rewrite Z.shiftl_mul_pow2 by lia. lia. Qed.
Lemma bit_index64 i : i &&& (kBitsPerWord - 1) = i mod 64.
Proof. unfold kBitsPerWord. change (64 - 1) with (2 ^ 6 - 1). by rewrite land_low by lia. Qed.
Lemma word_mask_eq i : word_mask i = 2 ^ (i mod 64).
Proof.
  unfold word_mask. rewrite bit_index64, Z.shiftl_1_l. apply uwrap_id. pose proof (Z.mod_pos_bound i 64 ltac:(lia)).
  unfold is_uint. split; [lia|]. apply Z.pow_lt_mono_r; lia.
Qed.
Lemma split64 i : i = 64 * (i / 64) + i mod 64 /\ 0 <= i mod 64 < 64.
Proof. split; [apply Z.div_mod; lia|apply Z.mod_pos_bound; lia]. Qed.
Lemma member_word data w d j : arr_get data w = Some d -> 0 <= j < 64 -> member data (64 * w + j) = Z.testbit d j.
Proof.
  intros Hd Hj. unfold member. replace ((64 * w + j) / 64) with w by (apply Z.div_unique with j; lia).
  replace ((64 * w + j) mod 64) with j by (apply Z.mod_unique with w; lia). by rewrite Hd.
Qed.
Lemma member_out data i : i < 0 \/ 64 * zlen data <= i -> member data i = false.
Proof.
  intros Hi. unfold member. destruct (arr_get data (i / 64)) eqn:E; [|done]. apply arr_get_Some in E.
  pose proof (split64 i). lia.
Qed.
Lemma wf_word data w d : wf_bits data -> arr_get data w = Some d -> is_uint 64 d.
Proof.
  intros Hw Hd. unfold arr_get in Hd. zif_in Hd; [|done]. by apply (Forall_lookup_1 _ _ _ _ Hw Hd).
Qed.

Lemma ctz_spec d : is_uint 64 d -> d <> 0 ->
  0 <= CountTrailingZeros d < 64 /\ Z.testbit d (CountTrailingZeros d) = true /\
  forall j, j < CountTrailingZeros d -> Z.testbit d j = false.
Proof.
  intros [Hd0 Hd] Hne. destruct d as [|p|p]; [done| |lia]. cbn [CountTrailingZeros].
  assert (H : 0 <= ctz_pos p /\ Z.testbit (Zpos p) (ctz_pos p) = true /\ forall j, j < ctz_pos p -> Z.testbit (Zpos p) j = false).
  { clear. induction p as [p IH|p IH|]; cbn [ctz_pos].
    - split; [lia|]. split; [done|]. intros j Hj. by apply Z.testbit_neg_r.
    - destruct IH as (H0 & H1 & H2). split; [lia|]. change (Zpos p~0) with (2 * Zpos p). split.
      + rewrite <- H1. replace (1 + ctz_pos p) with (Z.succ (ctz_pos p)) by lia. apply Z.testbit_even_succ. lia.
      + intros j Hj. destruct (Z.ltb_spec j 0); [by apply Z.testbit_neg_r|].
        destruct (Z.eq_dec j 0) as [->|]; [apply Z.testbit_even_0|].
        replace j with (Z.succ (j - 1)) by lia. rewrite Z.testbit_even_succ by lia. apply H2. lia.
    - split; [lia|]. split; [done|]. intros j Hj. by apply Z.testbit_neg_r. }
  destruct H as (H0 & H1 & H2). split; [split; [done|]|done].
  destruct (Z.lt_ge_cases (ctz_pos p) 64); [done|]. by rewrite (testbit_small 64) in H1.
Qed.
Lemma log2_spec d : is_uint 64 d -> d <> 0 ->
  0 <= Z.log2 d < 64 /\ Z.testbit d (Z.log2 d) = true /\ forall j, Z.log2 d < j -> Z.testbit d j = false.
Proof.
  intros [Hd0 Hd] Hne. split; [split; [apply Z.log2_nonneg|]|split].
  - apply Z.log2_lt_pow2; lia.
  - apply Z.bit_log2. lia.
  - intros j Hj. apply Z.bits_above_log2; lia.
Qed.
Lemma zero_bits d : (forall j, 0 <= j < 64 -> Z.testbit d j = false) -> is_uint 64 d -> d = 0.
Proof.
  intros H Hd. apply Z.bits_inj'. intros j Hj. rewrite Z.bits_0. destruct (Z.lt_ge_cases j 64); [by apply H|].
  by apply (testbit_small 64).
Qed.

Lemma mask_test d i : negb (d &&& word_mask i =? 0) = Z.testbit d (i mod 64).
Proof.
  rewrite word_mask_eq. pose proof (proj2 (split64 i)). destruct (Z.testbit d (i mod 64)) eqn:E.
  - apply negb_true_iff, Z.eqb_neq. intros H0. apply (f_equal (fun x => Z.testbit x (i mod 64))) in H0.
    by rewrite Z.land_spec, E, Z.pow2_bits_true, Z.bits_0 in H0 by lia.
  - apply negb_false_iff, Z.eqb_eq, Z.bits_inj'. intros j Hj. rewrite Z.land_spec, Z.bits_0.
    destruct (Z.eq_dec j (i mod 64)) as [->|]; [by rewrite E|]. by rewrite Z.pow2_bits_false, andb_false_r by lia.
Qed.

Section BitSet.
Context (data : list Z) (Hwf : wf_bits data).

Lemma in_words i : 0 <= i < 64 * zlen data -> exists d, arr_get data (i / 64) = Some d /\ is_uint 64 d.
Proof using Hwf.
  intros Hi. destruct (arr_get_lt data (i / 64)) as [d Hd]; [pose proof (split64 i); lia|].
  exists d. split; [done|]. by eapply wf_word.
Qed.

Lemma BitSet_Test_spec i : 0 <= i < 64 * zlen data -> BitSet_Test data i = Some (member data i).
Proof using Hwf.
  intros Hi. destruct (in_words i Hi) as (d & Hd & _). unfold BitSet_Test. rewrite word_index, Hd. cbn [mbind option_bind].
  rewrite mask_test. unfold member. by rewrite Hd.
Qed.

Lemma BitSet_Set_spec i v : 0 <= i < 64 * zlen data ->
  exists data', BitSet_Set data i v = Some data' /\ wf_bits data' /\ zlen data' = zlen data /\
    forall j, member data' j = if j =? i then v else member data j.
Proof using Hwf.
  intros Hi. destruct (in_words i Hi) as (d & Hd & Hu). pose proof (split64 i) as [Hi64 Hm].
  unfold BitSet_Set. rewrite word_index, Hd. cbn [mbind option_bind]. rewrite word_mask_eq.
  set (d' := if v then _ else _).
  assert (Hbits : forall j, 0 <= j < 64 -> Z.testbit d' j = if j =? i mod 64 then v else Z.testbit d j).
  { intros j Hj. unfold d'. destruct v; [rewrite Z.lor_spec|rewrite Z.land_spec, testbit_uwrap, Z.lnot_spec by lia];
      destruct (Z.eqb_spec j (i mod 64)) as [->|Hne].
    - by rewrite Z.pow2_bits_true, orb_true_r by lia.
    - by rewrite Z.pow2_bits_false, orb_false_r by lia.
    - by rewrite Z.pow2_bits_true, !andb_false_r by lia.
    - destruct (Z.ltb_spec j 64); [|lia]. by rewrite Z.pow2_bits_false, andb_true_r by lia. }
  assert (Hu' : is_uint 64 d').
  { unfold d'. destruct v; [|apply uint_land_r; [lia|apply uwrap_range; lia]]. apply uint_lor; [lia|done|].
    split; [lia|]. apply Z.pow_lt_mono_r; lia. }
  destruct (arr_set data (i / 64) d') as [data'|] eqn:Es.
  2: { unfold arr_set in Es. zif_in Es; [done|]. pose proof (arr_get_Some _ _ _ Hd). unfold zlen in *. lia. }
  exists data'. split; [done|]. split.
  { apply arr_set_Some in Es as [_ ->]. by apply Forall_insert. }
  split; [by eapply arr_set_length|]. intros j. unfold member at 1. rewrite (arr_get_set _ _ _ _ _ Es).
  pose proof (split64 j) as [Hj64 Hjm]. destruct (Z.eqb_spec (i / 64) (j / 64)) as [He|Hne].
  - rewrite Hbits by done. unfold member. rewrite <- He, Hd.
    destruct (Z.eqb_spec (j mod 64) (i mod 64)), (Z.eqb_spec j i); try done; lia.
  - destruct (Z.eqb_spec j i) as [->|]; [lia|done].
Qed.

(** [r] is the least member from [i] on, or -1. *)
Definition least_from (i r : Z) : Prop :=
  (r = -1 /\ forall j, i <= j -> member data j = false) \/
  (i <= r /\ member data r = true /\ forall j, i <= j < r -> member data j = false).

Lemma Next_words_spec n w : 0 <= w + 1 -> Z.of_nat n = zlen data - 1 - w ->
  exists r, Next_words n data w = Some r /\ least_from (64 * (w + 1)) r.
Proof using Hwf.
  revert w. induction n as [|n IH]; intros w Hw Hn; cbn [Next_words].
  - exists (-1). split; [done|]. left. split; [done|]. intros j Hj. apply member_out. lia.
  - destruct (arr_get_lt data (w + 1)) as [d Hd]; [lia|]. rewrite Hd. cbn [mbind option_bind].
    pose proof (wf_word _ _ _ Hwf Hd) as Hu. destruct (Z.eqb_spec d 0) as [->|Hne]; cbn [negb].
    + destruct (IH (w + 1)) as (r & Hr & Hl); [lia|lia|]. exists r. split; [done|].
      assert (Hz : forall j, 64 * (w + 1) <= j < 64 * (w + 1 + 1) -> member data j = false).
      { intros j Hj. replace j with (64 * (w + 1) + (j - 64 * (w + 1))) by lia.
        rewrite (member_word _ _ _ _ Hd) by lia. apply Z.bits_0. }
      destruct Hl as [[-> Hl]|(Hr1 & Hr2 & Hr3)]; [left|right].
      * split; [done|]. intros j Hj. destruct (Z.lt_ge_cases j (64 * (w + 1 + 1))); [apply Hz; lia|apply Hl; lia].
      * split; [lia|]. split; [done|]. intros j Hj. destruct (Z.lt_ge_cases j (64 * (w + 1 + 1))); [apply Hz; lia|apply Hr3; lia].
    + destruct (ctz_spec d Hu Hne) as (Hc & Ht & Hlow). rewrite word_offset. eexists. split; [reflexivity|]. right.
      split; [lia|]. split; [by rewrite (member_word _ _ _ _ Hd) by lia|]. intros j Hj.
      replace j with (64 * (w + 1) + (j - 64 * (w + 1))) by lia. rewrite (member_word _ _ _ _ Hd) by lia. apply Hlow. lia.
Qed.

Lemma BitSet_Next_spec i : 0 <= i < 64 * zlen data -> exists r, BitSet_Next data i = Some r /\ least_from i r.
Proof using Hwf.
  intros Hi. destruct (in_words i Hi) as (d & Hd & Hu). pose proof (split64 i) as [Hi64 Hm].
  unfold BitSet_Next. rewrite word_index, bit_index64, Hd. cbn [mbind option_bind]. set (mask := u64 _).
  assert (Hbits : forall j, 0 <= j < 64 -> Z.testbit (d &&& mask) j = (i mod 64 <=? j) && Z.testbit d j).
  { intros j Hj. unfold mask. rewrite Z.land_spec, testbit_uwrap, Z.shiftl_spec by lia.
    destruct (Z.ltb_spec j 64); [|lia]. cbn [andb]. destruct (Z.leb_spec (i mod 64) j); cbn [andb].
    - by rewrite Z.lnot_spec, Z.bits_0, andb_true_r by lia.
    - by rewrite (Z.testbit_neg_r (Z.lnot 0)), andb_false_r by lia. }
  assert (Hu' : is_uint 64 (d &&& mask)) by (apply uint_land_r; [lia|apply uwrap_range; lia]).
  destruct (Z.eqb_spec (d &&& mask) 0) as [Hz|Hne]; cbn [negb].
  - assert (Hno : forall j, i <= j < 64 * (i / 64 + 1) -> member data j = false).
    { intros j Hj. replace j with (64 * (i / 64) + (j - 64 * (i / 64))) by lia. rewrite (member_word _ _ _ _ Hd) by lia.
      pose proof (Hbits (j - 64 * (i / 64)) ltac:(lia)) as Hb. rewrite Hz, Z.bits_0 in Hb.
      destruct (Z.leb_spec (i mod 64) (j - 64 * (i / 64))); [done|lia]. }
    pose proof (arr_get_Some _ _ _ Hd) as Hwi.
    destruct (Next_words_spec (Z.to_nat (zlen data - 1 - i / 64)) (i / 64)) as (r & Hr & Hl); [lia|lia|].
    exists r. split; [done|]. destruct Hl as [[-> Hl]|(Hr1 & Hr2 & Hr3)]; [left|right].
    + split; [done|]. intros j Hj. destruct (Z.lt_ge_cases j (64 * (i / 64 + 1))); [apply Hno; lia|apply Hl; lia].
    + split; [lia|]. split; [done|]. intros j Hj. destruct (Z.lt_ge_cases j (64 * (i / 64 + 1))); [apply Hno; lia|apply Hr3; lia].
  - destruct (ctz_spec _ Hu' Hne) as (Hc & Ht & Hlow). rewrite Hbits in Ht by lia. zbool.
    rewrite word_offset. eexists. split; [reflexivity|]. right. split; [lia|]. split; [by rewrite (member_word _ _ _ _ Hd) by lia|].
    intros j Hj. replace j with (64 * (i / 64) + (j - 64 * (i / 64))) by lia. rewrite (member_word _ _ _ _ Hd) by lia.
    pose proof (Hlow (j - 64 * (i / 64)) ltac:(lia)) as Hb. rewrite Hbits in Hb by lia.
    destruct (Z.leb_spec (i mod 64) (j - 64 * (i / 64))); [done|lia].
Qed.

(** [r] is the greatest member below [64 * w], or -1. *)
Definition greatest_below (w r : Z) : Prop :=
  (r = -1 /\ forall j, j < 64 * w -> member data j = false) \/
  (0 <= r < 64 * w /\ member data r = true /\ forall j, r < j < 64 * w -> member data j = false).
Lemma greatest_word w d : arr_get data w = Some d -> d <> 0 ->
  greatest_below (w + 1) (((w + 1) <<< kBitsPerWordLog2) - CountLeadingZeros d - 1).
Proof using Hwf.
  intros Hd Hne. destruct (log2_spec d (wf_word _ _ _ Hwf Hd) Hne) as (Hl & Ht & Hhigh). rewrite word_offset.
  pose proof (arr_get_Some _ _ _ Hd). unfold CountLeadingZeros. right. split; [lia|].
  replace (64 * (w + 1) - (63 - Z.log2 d) - 1) with (64 * w + Z.log2 d) by lia.
  split; [by rewrite (member_word _ _ _ _ Hd) by lia|]. intros j Hj.
  replace j with (64 * w + (j - 64 * w)) by lia. rewrite (member_word _ _ _ _ Hd) by lia. apply Hhigh. lia.
Qed.
Lemma zero_word w r : arr_get data w = Some 0 -> greatest_below w r -> greatest_below (w + 1) r.
Proof using.
  intros Hd Hg. assert (Hz : forall j, 64 * w <= j < 64 * (w + 1) -> member data j = false).
  { intros j Hj. replace j with (64 * w + (j - 64 * w)) by lia. rewrite (member_word _ _ _ _ Hd) by lia. apply Z.bits_0. }
  destruct Hg as [[-> Hg]|(H1 & H2 & H3)]; [left|right].
  - split; [done|]. intros j Hj. destruct (Z.lt_ge_cases j (64 * w)); [by apply Hg|apply Hz; lia].
  - split; [lia|]. split; [done|]. intros j Hj. destruct (Z.lt_ge_cases j (64 * w)); [apply H3; lia|apply Hz; lia].
Qed.
Lemma Last_words_spec n : Z.of_nat n <= zlen data -> exists r, Last_words n data = Some r /\ greatest_below (Z.of_nat n) r.
Proof using Hwf.
  induction n as [|n IH]; intros Hn; cbn [Last_words].
  - exists (-1). split; [done|]. left. split; [done|]. intros j Hj. apply member_out. lia.
  - destruct (arr_get_lt data (Z.of_nat n)) as [d Hd]; [lia|]. rewrite Hd. cbn [mbind option_bind].
    replace (Z.of_nat (S n)) with (Z.of_nat n + 1) by lia. destruct (Z.eqb_spec d 0) as [->|Hne]; cbn [negb].
    + destruct IH as (r & Hr & Hg); [lia|]. exists r. split; [done|]. by apply zero_word.
    + eexists. split; [reflexivity|]. by apply greatest_word.
Qed.
Lemma previous_word_spec n bits : arr_get data (Z.of_nat n) = Some bits ->
  exists d w, previous_word n data bits = Some (d, w) /\
    greatest_below (Z.of_nat n + 1) (if d =? 0 then -1 else ((w + 1) <<< kBitsPerWordLog2) - CountLeadingZeros d - 1).
Proof using Hwf.
  revert bits. induction n as [|n IH]; intros bits Hb; cbn [previous_word].
  - exists bits, 0. split; [done|]. destruct (Z.eqb_spec bits 0) as [->|Hne]; [|by apply (greatest_word 0)].
    apply zero_word; [done|]. left. split; [done|]. intros j Hj. apply member_out. lia.
  - destruct (Z.eqb_spec bits 0) as [->|Hne].
    + pose proof (arr_get_Some _ _ _ Hb). destruct (arr_get_lt data (Z.of_nat n)) as [d Hd]; [lia|]. rewrite Hd. cbn [mbind option_bind].
      destruct (IH d Hd) as (d' & w & Hp & Hg). exists d', w. split; [done|]. apply zero_word; [done|].
      by replace (Z.of_nat (S n)) with (Z.of_nat n + 1) by lia.
    + exists bits, (Z.of_nat (S n)). split; [done|]. destruct (Z.eqb_spec bits 0); [done|]. by apply greatest_word.
Qed.
End BitSet.

Lemma BitSet_Reset_spec N : 0 < N -> wf_bits (BitSet_Reset N) /\ N <= 64 * zlen (BitSet_Reset N) /\ forall i, member (BitSet_Reset N) i = false.
Proof.
  intros HN. unfold BitSet_Reset. split; [apply Forall_replicate; unfold is_uint; lia|]. split.
  - unfold zlen. rewrite length_replicate. unfold kLengthInWords, kBitsPerWord.
    pose proof (Z.div_pos (N - 1) 64 ltac:(lia) ltac:(lia)). pose proof (Z.mod_pos_bound (N - 1) 64 ltac:(lia)).
    pose proof (Z.div_mod (N - 1) 64 ltac:(lia)). lia.
  - intros i. unfold member. destruct (arr_get _ _) as [d|] eqn:E; [|done]. unfold arr_get in E. zif_in E; [|done].
    apply lookup_replicate_1 in E as [-> _]. apply Z.bits_0.
Qed.

(** Clearing the greatest member yields the next greatest. *)
Lemma ClearLast_spec data cur : wf_bits data -> 0 <= cur < 64 * zlen data -> member data cur = true ->
  (forall j, cur < j -> member data j = false) ->
  exists r data', ClearLastAndFindPrevious data cur = Some (r, data') /\ wf_bits data' /\ zlen data' = zlen data /\
    (forall j, member data' j = if j =? cur then false else member data j) /\ greatest_below data' (zlen data') r.
Proof.
  intros Hwf Hc Hm Hlast. destruct (BitSet_Set_spec data Hwf cur false Hc) as (data' & Hs & Hwf' & Hl & Hmem).
  destruct (in_words data Hwf cur Hc) as (d & Hd & Hu). pose proof (split64 cur) as [H64 Hm64].
  assert (Hx : d ^^^ word_mask cur = d &&& u64 (Z.lnot (word_mask cur))).
  { rewrite word_mask_eq. unfold member in Hm. rewrite Hd in Hm. apply Z.bits_inj'. intros j Hj.
    rewrite Z.lxor_spec, Z.land_spec, testbit_uwrap, Z.lnot_spec by lia.
    destruct (Z.eq_dec j (cur mod 64)) as [->|Hne].
    - rewrite Hm, Z.pow2_bits_true by lia. by rewrite andb_false_r.
    - rewrite Z.pow2_bits_false, xorb_false_r by lia. destruct (Z.ltb_spec j 64); [by rewrite andb_true_r|].
      by rewrite (testbit_small 64). }
  unfold BitSet_Set in Hs. unfold ClearLastAndFindPrevious. rewrite word_index, Hd in *. cbn [mbind option_bind] in Hs |- *.
  rewrite Hx, Hs. cbn [mbind option_bind]. pose proof (arr_get_Some _ _ _ Hd) as Hw.
  assert (Hget : arr_get data' (cur / 64) = Some (d &&& u64 (Z.lnot (word_mask cur)))).
  { rewrite (arr_get_set _ _ _ _ _ Hs). by rewrite Z.eqb_refl. }
  destruct (previous_word_spec data' Hwf' (Z.to_nat (cur / 64)) (d &&& u64 (Z.lnot (word_mask cur)))) as (d' & w & Hp & Hg).
  { by rewrite Z2Nat.id by lia. }
  rewrite Hp. cbn [mbind option_bind]. eexists _, _. split; [reflexivity|]. split; [done|]. split; [done|]. split; [done|].
  rewrite Z2Nat.id in Hg by lia.
  assert (Hno : forall j, 64 * (cur / 64 + 1) <= j -> member data' j = false).
  { intros j Hj. rewrite Hmem. destruct (Z.eqb_spec j cur); [done|]. apply Hlast. lia. }
  destruct Hg as [[-> Hg]|(H1 & H2 & H3)]; [left|right].
  - split; [done|]. intros j Hj. destruct (Z.lt_ge_cases j (64 * (cur / 64 + 1))); [by apply Hg|by apply Hno].
  - split; [lia|]. split; [done|]. intros j Hj. destruct (Z.lt_ge_cases j (64 * (cur / 64 + 1))); [apply H3; lia|by apply Hno].
Qed.
