(* ===== verification/BitVector.v ===== *)
(** * Bit vectors (src/runtime/vm/bit_vector.{h,cc})

    A [BitVector] is a length in bits and an array of words; the set it stands
    for is [member] of BitSet.v on those words. Bits at and above the length
    exist in the last word: [SetAll] sets them, [Equals] ignores them and the
    iterator visits them. *)
From S2P Require Import Prelude Utils BitSet.
Local Open Scope Z_scope.
Local Open Scope vm_scope.

Record BitVector := MkBitVector { length_ : Z; data_ : list Z }.

(** C++ division rounds to zero, so an empty vector has one word. *)
Definition SizeFor (length : Z) : Z := 1 + Z.quot (length - 1) kBitsPerWord.

(** [for (intptr_t i = 0; i < data_length_; i++)], with [n] iterations left,
    over the flag [changed] and the array. *)
Fixpoint for_words (n : nat) (i : Z) (body : Z -> bool -> list Z -> option (bool * list Z))
    (changed : bool) (data : list Z) : option (bool * list Z) :=
  match n with
  | O => Some (changed, data)
  | S n => '(changed, data) ← body i changed data; for_words n (i + 1) body changed data
  end.
Definition over_words (self : BitVector) (body : Z -> bool -> list Z -> option (bool * list Z)) : option (bool * BitVector) :=
  '(changed, data) ← for_words (length (data_ self)) 0 body false (data_ self);
  Some (changed, MkBitVector (length_ self) data).

Definition fill_word (x i : Z) (changed : bool) (data : list Z) : option (bool * list Z) :=
  data ← arr_set data i x; Some (changed, data).
Definition BitVector_Clear (self : BitVector) : option BitVector := snd <$> over_words self (fill_word 0).
Definition BitVector_SetAll (self : BitVector) : option BitVector := snd <$> over_words self (fill_word (u64 (-1))).

(** The words are zero after the constructor's [Clear], whatever [Alloc] returned. *)
Definition BitVector_new (length : Z) : BitVector :=
  MkBitVector length (replicate (Z.to_nat (SizeFor length)) 0).

(** A shift by a negative amount is undefined. *)
Definition element_mask (i : Z) : option Z :=
  let shift := Z.rem i kBitsPerWord in if shift <? 0 then None else Some (u64 (1 <<< shift)).
Definition BitVector_Add (self : BitVector) (i : Z) : option BitVector :=
  let w := Z.quot i kBitsPerWord in
  mask ← element_mask i;
  d ← arr_get (data_ self) w;
  data ← arr_set (data_ self) w (d ||| mask);
  Some (MkBitVector (length_ self) data).
Definition BitVector_Remove (self : BitVector) (i : Z) : option BitVector :=
  let w := Z.quot i kBitsPerWord in
  mask ← element_mask i;
  d ← arr_get (data_ self) w;
  data ← arr_set (data_ self) w (d &&& u64 (Z.lnot mask));
  Some (MkBitVector (length_ self) data).
Definition BitVector_Contains (self : BitVector) (i : Z) : option bool :=
  mask ← element_mask i;
  block ← arr_get (data_ self) (Z.quot i kBitsPerWord);
  Some (negb (block &&& mask =? 0)).

Definition BitVector_AddAll (self from : BitVector) : option (bool * BitVector) :=
  over_words self (fun i changed data =>
    before ← arr_get data i;
    f ← arr_get (data_ from) i;
    let after := before ||| f in
    if negb (before =? after) then data ← arr_set data i after; Some (true, data) else Some (changed, data)).
Definition BitVector_RemoveAll (self from : BitVector) : option (bool * BitVector) :=
  over_words self (fun i changed data =>
    before ← arr_get data i;
    f ← arr_get (data_ from) i;
    let after := before &&& u64 (Z.lnot f) in
    if negb (before =? after) then data ← arr_set data i after; Some (true, data) else Some (changed, data)).
Definition BitVector_KillAndAdd (self kill gen : BitVector) : option (bool * BitVector) :=
  over_words self (fun i changed data =>
    before ← arr_get data i;
    g ← arr_get (data_ gen) i;
    k ← arr_get (data_ kill) i;
    let after := before ||| (g &&& u64 (Z.lnot k)) in
    let changed := if negb (before =? after) then true else changed in
    data ← arr_set data i after;
    Some (changed, data)).
Definition BitVector_Intersect (self other : BitVector) : option BitVector :=
  snd <$> over_words self (fun i changed data =>
    d ← arr_get data i;
    o ← arr_get (data_ other) i;
    data ← arr_set data i (d &&& o);
    Some (changed, data)).
Definition BitVector_CopyFrom (self other : BitVector) : option BitVector :=
  self ← BitVector_Clear self; snd <$> BitVector_AddAll self other.

Definition BitVector_IsEmpty (self : BitVector) : bool := forallb (fun d => d =? 0) (data_ self).

(** The words before the last, from [i] on, [n] of them left. *)
Fixpoint equal_words (n : nat) (i : Z) (a b : list Z) : option bool :=
  match n with
  | O => Some true
  | S n => x ← arr_get a i; y ← arr_get b i; if negb (x =? y) then Some false else equal_words n (i + 1) a b
  end.
Definition BitVector_Equals (self other : BitVector) : option bool :=
  if negb (length_ self =? length_ other) then Some false
  else
    let n := zlen (data_ self) in
    same ← equal_words (Z.to_nat (n - 1)) 0 (data_ self) (data_ other);
    if negb same then Some false
    else
      let i := Z.max 0 (n - 1) in
      if i <? n then
        let shift_size := (kBitsPerWord - length_ self) &&& (kBitsPerWord - 1) in
        let mask := u64 (-1) >>> shift_size in
        x ← arr_get (data_ self) i; y ← arr_get (data_ other) i;
        Some (x &&& mask =? y &&& mask)
      else Some true.

(** ** The iterator *)
Record BitVector_Iterator := MkBitIterator { bit_index_ : Z; word_index_ : Z; current_word_ : Z }.

Definition BitVector_Done (target : BitVector) (it : BitVector_Iterator) : bool := zlen (data_ target) <=? word_index_ it.

(** The [do] loop over zero words: the index of the next word and, unless the
    iterator is done, the word. *)
Fixpoint skip_words (n : nat) (target : BitVector) (word_index : Z) : option (Z * option Z) :=
  match n with
  | O => None
  | S n =>
      let word_index := word_index + 1 in
      if zlen (data_ target) <=? word_index then Some (word_index, None)
      else
        current_word ← arr_get (data_ target) word_index;
        if current_word =? 0 then skip_words n target word_index else Some (word_index, Some current_word)
  end.
Fixpoint skip_bytes (n : nat) (current_word bit_index : Z) : option (Z * Z) :=
  match n with
  | O => None
  | S n => if current_word &&& 255 =? 0 then skip_bytes n (current_word >>> 8) (bit_index + 8) else Some (current_word, bit_index)
  end.
Fixpoint skip_bits (n : nat) (current_word bit_index : Z) : option (Z * Z) :=
  match n with
  | O => None
  | S n => if current_word &&& 1 =? 0 then skip_bits n (current_word >>> 1) (bit_index + 1) else Some (current_word, bit_index)
  end.
(** A word has eight bytes and a byte eight bits. *)
Definition skip_zeros (word_index current_word bit_index : Z) : option BitVector_Iterator :=
  '(current_word, bit_index) ← skip_bytes 8 current_word bit_index;
  '(current_word, bit_index) ← skip_bits 8 current_word bit_index;
  Some (MkBitIterator bit_index word_index (current_word >>> 1)).
Definition BitVector_Advance (target : BitVector) (it : BitVector_Iterator) : option BitVector_Iterator :=
  let bit_index := bit_index_ it + 1 in
  if current_word_ it =? 0 then
    '(word_index, word) ← skip_words (S (length (data_ target))) target (word_index_ it);
    match word with
    | None => Some (MkBitIterator bit_index word_index (current_word_ it))
    | Some current_word => skip_zeros word_index current_word (word_index * kBitsPerWord)
    end
  else skip_zeros (word_index_ it) (current_word_ it) bit_index.
Definition BitVector_Iterator_new (target : BitVector) : option BitVector_Iterator :=
  current_word ← arr_get (data_ target) 0;
  BitVector_Advance target (MkBitIterator (-1) 0 current_word).

(** [for (BitVector::Iterator it(v); !it.Done(); it.Advance())], collecting
    [it.Current()]. *)
Fixpoint iterate_from (fuel : nat) (target : BitVector) (it : BitVector_Iterator) : option (list Z) :=
  match fuel with
  | O => None
  | S fuel =>
      if BitVector_Done target it then Some []
      else
        next ← BitVector_Advance target it;
        rest ← iterate_from fuel target next;
        Some (bit_index_ it :: rest)
  end.
Definition iterate (fuel : nat) (target : BitVector) : option (list Z) :=
  it ← BitVector_Iterator_new target; iterate_from fuel target it.

(** ** The set of a bit vector *)
Definition contents (v : BitVector) (i : Z) : bool := member (data_ v) i.
(** [v] is a vector for [n] elements. *)
Definition wf_vector (n : Z) (v : BitVector) : Prop :=
  length_ v = n /\ zlen (data_ v) = SizeFor n /\ wf_bits (data_ v).

Lemma SizeFor_spec n : 0 <= n -> 0 < SizeFor n /\ n <= 64 * SizeFor n.
Proof.
  intros Hn. unfold SizeFor, kBitsPerWord. destruct (Z.eq_dec n 0) as [->|]; [vm_compute; split; done|].
  rewrite Z.quot_div_nonneg by lia. divlia.
Qed.
Lemma wf_room n v i : wf_vector n v -> 0 <= i < n -> 0 <= i < 64 * zlen (data_ v).
Proof. intros (_ & -> & _) Hi. pose proof (SizeFor_spec n ltac:(lia)). lia. Qed.

Lemma element_mask_eq i : 0 <= i -> element_mask i = Some (word_mask i).
Proof.
  intros Hi. unfold element_mask, word_mask. rewrite bit_index64. unfold kBitsPerWord. rewrite Z.rem_mod_nonneg by lia.
  pose proof (Z.mod_pos_bound i 64). zif; [lia|done].
Qed.
Lemma quot_word i : 0 <= i -> Z.quot i kBitsPerWord = i >>> kBitsPerWordLog2.
Proof. intros Hi. rewrite word_index. unfold kBitsPerWord. by apply Z.quot_div_nonneg. Qed.

(** *** Single elements *)
Section Elements.
Context (n : Z) (v : BitVector) (Hwf : wf_vector n v).

Lemma BitVector_Contains_spec i : 0 <= i < n -> BitVector_Contains v i = Some (contents v i).
Proof using Hwf.
  intros Hi. pose proof (wf_room _ _ _ Hwf Hi) as Hr. destruct Hwf as (_ & _ & Hb).
  unfold contents. rewrite <- (BitSet_Test_spec _ Hb i Hr). unfold BitVector_Contains, BitSet_Test.
  rewrite quot_word, element_mask_eq by lia. done.
Qed.
Lemma set_spec i b v' : 0 <= i < n -> (data ← BitSet_Set (data_ v) i b; Some (MkBitVector (length_ v) data)) = v' ->
  exists w, v' = Some w /\ wf_vector n w /\ forall j, contents w j = if j =? i then b else contents v j.
Proof using Hwf.
  intros Hi <-. pose proof (wf_room _ _ _ Hwf Hi) as Hr. destruct Hwf as (Hn & Hl & Hb).
  destruct (BitSet_Set_spec _ Hb i b Hr) as (data' & -> & Hb' & Hl' & Hm). cbn [mbind option_bind].
  eexists. split; [reflexivity|]. split; [|done]. split; [done|]. split; [|done]. cbn [data_]. lia.
Qed.
Lemma BitVector_Add_spec i : 0 <= i < n ->
  exists w, BitVector_Add v i = Some w /\ wf_vector n w /\ forall j, contents w j = if j =? i then true else contents v j.
Proof using Hwf.
  intros Hi. eapply set_spec; [done|]. unfold BitVector_Add, BitSet_Set. rewrite quot_word, element_mask_eq by lia.
  cbn [mbind option_bind]. by destruct (arr_get _ _).
Qed.
Lemma BitVector_Remove_spec i : 0 <= i < n ->
  exists w, BitVector_Remove v i = Some w /\ wf_vector n w /\ forall j, contents w j = if j =? i then false else contents v j.
Proof using Hwf.
  intros Hi. eapply set_spec; [done|]. unfold BitVector_Remove, BitSet_Set. rewrite quot_word, element_mask_eq by lia.
  cbn [mbind option_bind]. by destruct (arr_get _ _).
Qed.
End Elements.

(** *** All words *)
(** The loop over the words computes [new i] from the word at each index [i]
    and sets the flag where that is a change. *)
Section Words.
Context (data0 : list Z) (body : Z -> bool -> list Z -> option (bool * list Z)) (new : Z -> Z -> Z) (flag : bool).
Hypothesis Hbody : forall i c data d, arr_get data0 i = Some d -> arr_get data i = Some d -> length data = length data0 ->
  body i c data = Some (c || (flag && negb (d =? new i d)), <[Z.to_nat i := new i d]> data).

Lemma for_words_spec m i c data : 0 <= i -> i + Z.of_nat m = zlen data0 -> length data = length data0 ->
  (forall j, i <= j -> arr_get data j = arr_get data0 j) ->
  exists c' data', for_words m i body c data = Some (c', data') /\ length data' = length data0 /\
    (forall j, arr_get data' j = if i <=? j then (fun d => new j d) <$> arr_get data0 j else arr_get data j) /\
    (c' = true <-> c = true \/ flag = true /\ exists j d, i <= j /\ arr_get data0 j = Some d /\ d <> new j d).
Proof using Hbody.
  revert i c data. induction m as [|m IH]; intros i c data Hi Hm Hl Heq; cbn [for_words].
  - exists c, data. split; [done|]. split; [done|]. split.
    + intros j. zif; [|done]. assert (arr_get data0 j = None) as E0 by (apply arr_get_None; lia).
      rewrite E0, Heq by lia. done.
    + split; [tauto|]. intros [?|[_ (j & d & Hj & Hd & _)]]; [done|]. apply arr_get_Some in Hd. lia.
  - destruct (arr_get_lt data0 i) as [d Hd]; [lia|].
    rewrite (Hbody i c data d Hd) by (done || by rewrite Heq by lia). cbn [mbind option_bind].
    assert (Hs : arr_set data i (new i d) = Some (<[Z.to_nat i := new i d]> data)).
    { apply arr_set_Some. split; [|done]. unfold zlen in *. lia. }
    destruct (IH (i + 1) (c || (flag && negb (d =? new i d))) (<[Z.to_nat i := new i d]> data))
      as (c' & data' & Hf & Hl' & Hg & Hc); [lia|lia|by rewrite length_insert| |].
    { intros j Hj. rewrite (arr_get_set _ _ _ _ _ Hs). zif; [lia|]. apply Heq. lia. }
    exists c', data'. split; [done|]. split; [done|]. split.
    + intros j. rewrite Hg, (arr_get_set _ _ _ _ _ Hs). zifs; try lia; subst; try done. by rewrite Hd.
    + rewrite Hc. split.
      * intros [Hor|(Hfl & j & d' & Hj & Hd' & Hne)]; [|right; split; [done|]; exists j, d'; split; [lia|done]].
        apply orb_true_iff in Hor as [?|Hor]; [by left|]. right. zbool. split; [done|]. exists i, d. split; [lia|done].
      * intros [->|(Hfl & j & d' & Hj & Hd' & Hne)]; [by left|]. destruct (Z.eq_dec j i) as [->|].
        -- left. assert (d' = d) as -> by congruence. rewrite Hfl. apply Z.eqb_neq in Hne. rewrite Hne. apply orb_true_r.
        -- right. split; [done|]. exists j, d'. split; [lia|done].
Qed.
End Words.

Lemma element_word (data : list Z) i : 0 <= i < 64 * zlen data ->
  exists w k d, i = 64 * w + k /\ 0 <= k < 64 /\ 0 <= w /\ arr_get data w = Some d.
Proof.
  intros Hi. destruct (split64 i) as [H64 Hm]. destruct (arr_get_lt data (i / 64)) as [d Hd]; [lia|].
  exists (i / 64), (i mod 64), d. split; [done|]. split; [done|]. split; [lia|done].
Qed.

(** The same in terms of elements: [newbit i] says whether [i] is in the set
    from whether it was. *)
Section Sets.
Context (n : Z) (v : BitVector) (Hwf : wf_vector n v).

Lemma over_words_spec body new flag newbit :
  (forall i c data d, arr_get (data_ v) i = Some d -> arr_get data i = Some d -> length data = length (data_ v) ->
    body i c data = Some (c || (flag && negb (d =? new i d)), <[Z.to_nat i := new i d]> data)) ->
  (forall w d, arr_get (data_ v) w = Some d -> is_uint 64 (new w d) /\
    forall k, 0 <= k < 64 -> Z.testbit (new w d) k = newbit (64 * w + k) (Z.testbit d k)) ->
  exists c w, over_words v body = Some (c, w) /\ wf_vector n w /\
    (forall i, 0 <= i < 64 * SizeFor n -> contents w i = newbit i (contents v i)) /\
    (c = true <-> flag = true /\ exists i, 0 <= i < 64 * SizeFor n /\ contents v i <> newbit i (contents v i)).
Proof using Hwf.
  intros Hbody Hnew. destruct Hwf as (Hn & Hl & Hb). unfold over_words.
  destruct (for_words_spec (data_ v) body new flag Hbody (length (data_ v)) 0 false (data_ v)) as (c & data' & -> & Hl' & Hg & Hc);
    [lia|unfold zlen; lia|done|done|]. cbn [mbind option_bind].
  assert (Hg' : forall w d', arr_get data' w = Some d' -> exists d, arr_get (data_ v) w = Some d /\ d' = new w d).
  { intros w d' Hd'. pose proof (arr_get_Some _ _ _ Hd'). rewrite Hg in Hd'. zif_in Hd'; [|lia].
    destruct (arr_get (data_ v) w) as [d|]; [|done]. injection Hd' as <-. eauto. }
  eexists c, _. split; [reflexivity|]. split; [split; [done|split]|split].
  - unfold zlen in *. cbn [data_]. by rewrite Hl'.
  - apply Forall_lookup. intros k d' Hk. cbn [data_] in Hk.
    destruct (Hg' (Z.of_nat k) d') as (d & Hd & ->); [|by apply Hnew].
    unfold arr_get. zif; [|lia]. by rewrite Nat2Z.id.
  - intros i Hi. rewrite <- Hl in Hi. destruct (element_word _ _ Hi) as (w & k & d & -> & Hk & Hw & Hd).
    unfold contents. cbn [data_]. rewrite (member_word _ _ _ _ Hd) by done.
    rewrite (member_word _ _ (new w d)) by (done || (rewrite Hg, Hd; zif; [done|lia])). by apply Hnew.
  - rewrite Hc. split; [intros [?|(Hf & w & d & Hw & Hd & Hne)]; [done|]|].
    + split; [done|]. destruct (Hnew w d Hd) as [Hu Hbits].
      destruct (decide (Forall (fun k => Z.testbit d (Z.of_nat k) = Z.testbit (new w d) (Z.of_nat k)) (seq 0 64))) as [Hall|Hex].
      * destruct Hne. apply Z.bits_inj'. intros k Hk. destruct (Z.lt_ge_cases k 64).
        -- rewrite List.Forall_forall in Hall. specialize (Hall (Z.to_nat k)). rewrite Z2Nat.id in Hall by lia. apply Hall, in_seq. lia.
        -- by rewrite !(testbit_small 64) by (done || lia || by eapply wf_word).
      * apply not_Forall_Exists in Hex; [|intros ?; apply _]. apply Exists_exists in Hex as (k & Hk & Hne').
        apply in_seq in Hk. exists (64 * w + Z.of_nat k). pose proof (arr_get_Some _ _ _ Hd). split; [lia|].
        unfold contents. rewrite (member_word _ _ d), <- Hbits by (done || lia). done.
    + intros [Hf (i & Hi & Hne)]. right. split; [done|]. rewrite <- Hl in Hi.
      destruct (element_word _ _ Hi) as (w & k & d & -> & Hk & Hw & Hd). exists w, d. split; [done|]. split; [done|].
      intros Heq. apply Hne. unfold contents. rewrite (member_word _ _ _ _ Hd) by done.
      by rewrite <- (proj2 (Hnew _ _ Hd)), <- Heq.
Qed.

(** A word of another vector of the same size. *)
Lemma other_word u w d : wf_vector n u -> arr_get (data_ v) w = Some d -> exists d', arr_get (data_ u) w = Some d' /\ is_uint 64 d'.
Proof using Hwf.
  intros (_ & Hl' & Hb') Hd. destruct Hwf as (_ & Hl & _). apply arr_get_Some in Hd.
  destruct (arr_get_lt (data_ u) w) as [d' Hd']; [lia|]. exists d'. split; [done|]. by eapply wf_word.
Qed.
Definition word_at (u : BitVector) (w : Z) : Z := default 0 (arr_get (data_ u) w).
Lemma word_at_contents u w d k : arr_get (data_ u) w = Some d -> 0 <= k < 64 -> contents u (64 * w + k) = Z.testbit (word_at u w) k.
Proof using. intros Hd Hk. unfold contents, word_at. by rewrite (member_word _ _ _ _ Hd), Hd. Qed.

Lemma insert_same (data : list Z) i (d : Z) : arr_get data i = Some d -> <[Z.to_nat i := d]> data = data.
Proof using. unfold arr_get. zif; [|done]. apply list_insert_id. Qed.

Lemma set_word (data : list Z) i d x : arr_get data i = Some d -> arr_set data i x = Some (<[Z.to_nat i := x]> data).
Proof using. intros Hd. apply arr_set_Some. split; [|done]. by eapply arr_get_Some. Qed.

Lemma BitVector_AddAll_spec u : wf_vector n u ->
  exists c w, BitVector_AddAll v u = Some (c, w) /\ wf_vector n w /\
    (forall i, 0 <= i < 64 * SizeFor n -> contents w i = contents v i || contents u i) /\
    (c = true <-> exists i, 0 <= i < 64 * SizeFor n /\ contents v i = false /\ contents u i = true).
Proof using Hwf.
  intros Hu. destruct (over_words_spec (fun i changed data =>
    before ← arr_get data i; f ← arr_get (data_ u) i;
    let after := before ||| f in
    if negb (before =? after) then data ← arr_set data i after; Some (true, data) else Some (changed, data))
    (fun i d => d ||| word_at u i) true (fun i b => b || contents u i)) as (c & w & Hf & Hw & Hbits & Hc).
  - intros i c data d Hd0 Hd Hl. destruct (other_word u i d Hu Hd0) as (d' & Hd' & _). unfold word_at. rewrite Hd, Hd'. cbn.
    zif; cbn.
    + rewrite (set_word _ _ _ _ Hd). cbn. by rewrite orb_true_r.
    + rewrite <- E, orb_false_r, insert_same by congruence. done.
  - intros w d Hd. destruct (other_word u w d Hu Hd) as (d' & Hd' & Hu'). split.
    + unfold word_at. rewrite Hd'. apply uint_lor; [lia| |done]. by eapply wf_word; [apply Hwf|].
    + intros k Hk. by rewrite Z.lor_spec, (word_at_contents _ _ _ _ Hd').
  - exists c, w. split; [exact Hf|]. split; [done|]. split; [done|]. rewrite Hc. split.
    + intros (_ & i & Hi & Hne). exists i. split; [done|]. by destruct (contents v i), (contents u i).
    + intros (i & Hi & H1 & H2). split; [done|]. exists i. split; [done|]. by rewrite H1, H2.
Qed.
Lemma BitVector_RemoveAll_spec u : wf_vector n u ->
  exists c w, BitVector_RemoveAll v u = Some (c, w) /\ wf_vector n w /\
    (forall i, 0 <= i < 64 * SizeFor n -> contents w i = contents v i && negb (contents u i)) /\
    (c = true <-> exists i, 0 <= i < 64 * SizeFor n /\ contents v i = true /\ contents u i = true).
Proof using Hwf.
  intros Hu. destruct (over_words_spec (fun i changed data =>
    before ← arr_get data i; f ← arr_get (data_ u) i;
    let after := before &&& u64 (Z.lnot f) in
    if negb (before =? after) then data ← arr_set data i after; Some (true, data) else Some (changed, data))
    (fun i d => d &&& u64 (Z.lnot (word_at u i))) true (fun i b => b && negb (contents u i))) as (c & w & Hf & Hw & Hbits & Hc).
  - intros i c data d Hd0 Hd Hl. destruct (other_word u i d Hu Hd0) as (d' & Hd' & _). unfold word_at. rewrite Hd, Hd'. cbn.
    zif; cbn.
    + rewrite (set_word _ _ _ _ Hd). cbn. by rewrite orb_true_r.
    + rewrite <- E, orb_false_r, insert_same by congruence. done.
  - intros w d Hd. destruct (other_word u w d Hu Hd) as (d' & Hd' & Hu'). split.
    + apply uint_land_r; [lia|]. apply uwrap_range. lia.
    + intros k Hk. rewrite Z.land_spec, testbit_uwrap, Z.lnot_spec, (word_at_contents _ _ _ _ Hd') by lia. destruct (Z.ltb_spec k 64); [done|lia].
  - exists c, w. split; [exact Hf|]. split; [done|]. split; [done|]. rewrite Hc. split.
    + intros (_ & i & Hi & Hne). exists i. split; [done|]. by destruct (contents v i), (contents u i).
    + intros (i & Hi & H1 & H2). split; [done|]. exists i. split; [done|]. by rewrite H1, H2.
Qed.
Lemma BitVector_KillAndAdd_spec kill gen : wf_vector n kill -> wf_vector n gen ->
  exists c w, BitVector_KillAndAdd v kill gen = Some (c, w) /\ wf_vector n w /\
    (forall i, 0 <= i < 64 * SizeFor n -> contents w i = contents v i || (contents gen i && negb (contents kill i))) /\
    (c = true <-> exists i, 0 <= i < 64 * SizeFor n /\ contents v i = false /\ contents gen i = true /\ contents kill i = false).
Proof using Hwf.
  intros Hk Hg. destruct (over_words_spec (fun i changed data =>
    before ← arr_get data i; g ← arr_get (data_ gen) i; k ← arr_get (data_ kill) i;
    let after := before ||| (g &&& u64 (Z.lnot k)) in
    let changed := if negb (before =? after) then true else changed in
    data ← arr_set data i after; Some (changed, data))
    (fun i d => d ||| (word_at gen i &&& u64 (Z.lnot (word_at kill i)))) true
    (fun i b => b || (contents gen i && negb (contents kill i)))) as (c & w & Hf & Hw & Hbits & Hc).
  - intros i c data d Hd0 Hd Hl. destruct (other_word kill i d Hk Hd0) as (dk & Hdk & _).
    destruct (other_word gen i d Hg Hd0) as (dg & Hdg & _). unfold word_at. rewrite Hd, Hdk, Hdg. cbn.
    rewrite (set_word _ _ _ _ Hd). cbn. by destruct (_ =? _), c.
  - intros w d Hd. destruct (other_word kill w d Hk Hd) as (dk & Hdk & _). destruct (other_word gen w d Hg Hd) as (dg & Hdg & _). split.
    + apply uint_lor; [lia|by eapply wf_word; [apply Hwf|]|]. apply uint_land_r; [lia|]. apply uwrap_range. lia.
    + intros k Hk'. rewrite Z.lor_spec, Z.land_spec, testbit_uwrap, Z.lnot_spec by lia.
      rewrite (word_at_contents _ _ _ _ Hdk), (word_at_contents _ _ _ _ Hdg) by lia. destruct (Z.ltb_spec k 64); [done|lia].
  - exists c, w. split; [exact Hf|]. split; [done|]. split; [done|]. rewrite Hc. split.
    + intros (_ & i & Hi & Hne). exists i. split; [done|]. by destruct (contents v i), (contents gen i), (contents kill i).
    + intros (i & Hi & H1 & H2 & H3). split; [done|]. exists i. split; [done|]. by rewrite H1, H2, H3.
Qed.
Lemma BitVector_Intersect_spec u : wf_vector n u ->
  exists w, BitVector_Intersect v u = Some w /\ wf_vector n w /\
    (forall i, 0 <= i < 64 * SizeFor n -> contents w i = contents v i && contents u i).
Proof using Hwf.
  intros Hu. destruct (over_words_spec (fun i (changed : bool) data =>
    d ← arr_get data i; o ← arr_get (data_ u) i; data ← arr_set data i (d &&& o); Some (changed, data))
    (fun i d => d &&& word_at u i) false (fun i b => b && contents u i)) as (c & w & Hf & Hw & Hbits & _).
  - intros i c data d Hd0 Hd Hl. destruct (other_word u i d Hu Hd0) as (d' & Hd' & _). unfold word_at. rewrite Hd, Hd'. cbn.
    rewrite (set_word _ _ _ _ Hd). cbn. by rewrite orb_false_r.
  - intros w d Hd. destruct (other_word u w d Hu Hd) as (d' & Hd' & Hu'). split.
    + apply uint_land_r; [lia|]. unfold word_at. by rewrite Hd'.
    + intros k Hk. by rewrite Z.land_spec, (word_at_contents _ _ _ _ Hd').
  - exists w. unfold BitVector_Intersect. rewrite Hf. done.
Qed.
Lemma fill_spec x b : is_uint 64 x -> (forall k, 0 <= k < 64 -> Z.testbit x k = b) ->
  exists w, snd <$> over_words v (fill_word x) = Some w /\ wf_vector n w /\ forall i, 0 <= i < 64 * SizeFor n -> contents w i = b.
Proof using Hwf.
  intros Hx Hb. destruct (over_words_spec (fill_word x) (fun _ _ => x) false (fun _ _ => b)) as (c & w & Hf & Hw & Hbits & _).
  - intros i c data d _ Hd _. unfold fill_word. rewrite (set_word _ _ _ _ Hd). cbn. by rewrite orb_false_r.
  - intros w d Hd. split; [done|]. intros k Hk. by apply Hb.
  - exists w. by rewrite Hf.
Qed.
Lemma BitVector_Clear_spec : exists w, BitVector_Clear v = Some w /\ wf_vector n w /\ forall i, 0 <= i < 64 * SizeFor n -> contents w i = false.
Proof using Hwf. apply fill_spec; [split; lia|]. intros. apply Z.bits_0. Qed.
Lemma BitVector_SetAll_spec : exists w, BitVector_SetAll v = Some w /\ wf_vector n w /\ forall i, 0 <= i < 64 * SizeFor n -> contents w i = true.
Proof using Hwf.
  apply fill_spec; [apply uwrap_range; lia|]. intros k Hk. rewrite testbit_uwrap by lia. destruct (Z.ltb_spec k 64); [|lia].
  cbn [andb]. by rewrite Z.bits_m1 by lia.
Qed.
End Sets.

Lemma BitVector_CopyFrom_spec n v u : wf_vector n v -> wf_vector n u ->
  exists w, BitVector_CopyFrom v u = Some w /\ wf_vector n w /\ forall i, 0 <= i < 64 * SizeFor n -> contents w i = contents u i.
Proof.
  intros Hv Hu. unfold BitVector_CopyFrom. destruct (BitVector_Clear_spec n v Hv) as (w & -> & Hw & Hc). cbn [mbind option_bind].
  destruct (BitVector_AddAll_spec n w Hw u Hu) as (c & w' & -> & Hw' & Hc' & _). exists w'. split; [done|]. split; [done|].
  intros i Hi. by rewrite Hc', Hc.
Qed.
Lemma BitVector_new_spec n : 0 <= n -> wf_vector n (BitVector_new n) /\ forall i, contents (BitVector_new n) i = false.
Proof.
  intros Hn. pose proof (SizeFor_spec n Hn). split; [split; [done|split]|].
  - unfold zlen. cbn. rewrite length_replicate. lia.
  - apply Forall_replicate. unfold is_uint. lia.
  - intros i. unfold contents, member, BitVector_new. cbn [data_]. destruct (arr_get _ _) as [d|] eqn:E; [|done].
    unfold arr_get in E. zif_in E; [|done]. apply lookup_replicate_1 in E as [-> _]. apply Z.bits_0.
Qed.

(** *** Comparison *)
Lemma BitVector_IsEmpty_spec n v : wf_vector n v -> BitVector_IsEmpty v = true <-> forall i, contents v i = false.
Proof.
  intros (_ & _ & Hb). unfold BitVector_IsEmpty. rewrite forallb_forall. split.
  - intros Hz i. unfold contents, member. destruct (arr_get _ _) as [d|] eqn:E; [|done].
    unfold arr_get in E. zif_in E; [|done]. apply list_elem_of_lookup_2, list_elem_of_In, Hz in E. zbool. subst. apply Z.bits_0.
  - intros Hz d Hd. apply Z.eqb_eq. apply list_elem_of_In, list_elem_of_lookup in Hd as [k Hk].
    assert (Hd : arr_get (data_ v) (Z.of_nat k) = Some d) by (unfold arr_get; zif; [by rewrite Nat2Z.id|lia]).
    apply zero_bits; [|by eapply wf_word]. intros j Hj. rewrite <- (Hz (64 * Z.of_nat k + j)). symmetry. by apply member_word.
Qed.

Lemma equal_words_spec m i a b : 0 <= i -> i + Z.of_nat m <= zlen a -> i + Z.of_nat m <= zlen b ->
  exists r, equal_words m i a b = Some r /\ (r = true <-> forall j, i <= j < i + Z.of_nat m -> arr_get a j = arr_get b j).
Proof.
  revert i. induction m as [|m IH]; intros i Hi Ha Hb; cbn [equal_words].
  - exists true. split; [done|]. split; [|done]. intros _ j Hj. lia.
  - destruct (arr_get_lt a i) as [x Hx]; [lia|]. destruct (arr_get_lt b i) as [y Hy]; [lia|]. rewrite Hx, Hy. cbn [mbind option_bind].
    destruct (Z.eqb_spec x y) as [->|Hne]; cbn [negb].
    + destruct (IH (i + 1)) as (r & Hr & Hiff); [lia..|]. exists r. split; [done|]. rewrite Hiff. split; intros H j Hj.
      * destruct (Z.eq_dec j i) as [->|]; [congruence|]. apply H. lia.
      * apply H. lia.
    + exists false. split; [done|]. split; [done|]. intros H. specialize (H i ltac:(lia)). congruence.
Qed.
(** Words are equal below the bit [m] when their bits are. *)
Lemma masked_eq x y m : 0 <= m <= 64 ->
  (x &&& (u64 (-1) >>> (64 - m)) =? y &&& (u64 (-1) >>> (64 - m))) = true <-> forall k, 0 <= k < m -> Z.testbit x k = Z.testbit y k.
Proof.
  intros Hm. rewrite Z.eqb_eq.
  assert (Hb : forall z k, 0 <= k -> Z.testbit (z &&& (u64 (-1) >>> (64 - m))) k = (k <? m) && Z.testbit z k).
  { intros z k Hk. rewrite Z.land_spec, Z.shiftr_spec, testbit_uwrap, Z.bits_m1 by lia.
    destruct (Z.ltb_spec (k + (64 - m)) 64), (Z.ltb_spec k m); try lia; cbn [andb]; by rewrite ?andb_true_r, ?andb_false_r. }
  split.
  - intros He k Hk. apply (f_equal (fun z => Z.testbit z k)) in He. rewrite !Hb in He by lia.
    destruct (Z.ltb_spec k m); [done|lia].
  - intros H. apply Z.bits_inj'. intros k Hk. rewrite !Hb by lia. destruct (Z.ltb_spec k m); [|done]. apply H. lia.
Qed.
(** [Equals] compares the elements below the length, and those only. *)
Lemma BitVector_Equals_spec n u v : 0 < n -> wf_vector n u -> wf_vector n v ->
  exists r, BitVector_Equals u v = Some r /\ (r = true <-> forall i, 0 <= i < n -> contents u i = contents v i).
Proof.
  intros Hn (Hu & Hlu & Hbu) (Hv & Hlv & Hbv). unfold BitVector_Equals. rewrite Hu, Hv, Z.eqb_refl. cbn [negb].
  pose proof (SizeFor_spec n ltac:(lia)) as [Hs0 Hs1]. rewrite Hlu.
  assert (Hs2 : 64 * (SizeFor n - 1) < n) by (unfold SizeFor, kBitsPerWord; rewrite Z.quot_div_nonneg by lia; divlia).
  destruct (equal_words_spec (Z.to_nat (SizeFor n - 1)) 0 (data_ u) (data_ v)) as (r & -> & Hr); [lia..|].
  cbn [mbind option_bind]. rewrite Z.add_0_l, Z2Nat.id in Hr by lia.
  assert (Hword : forall w d d' m, 0 <= m <= 64 -> arr_get (data_ u) w = Some d -> arr_get (data_ v) w = Some d' ->
    (forall k, 0 <= k < m -> Z.testbit d k = Z.testbit d' k) <-> (forall i, 64 * w <= i < 64 * w + m -> contents u i = contents v i)).
  { intros w d d' m Hm Hd Hd'. unfold contents. split.
    - intros H i Hi. replace i with (64 * w + (i - 64 * w)) by lia. rewrite (member_word _ _ _ _ Hd), (member_word _ _ _ _ Hd') by lia. apply H. lia.
    - intros H k Hk. rewrite <- (member_word _ _ _ _ Hd), <- (member_word _ _ _ _ Hd') by lia. apply H. lia. }
  assert (Hr' : r = true <-> forall i, 0 <= i < 64 * (SizeFor n - 1) -> contents u i = contents v i).
  { rewrite Hr. split.
    - intros H i Hi. unfold contents, member. rewrite (H (i / 64)); [done|]. divlia.
    - intros H j Hj. destruct (arr_get_lt (data_ u) j) as [d Hd]; [lia|]. destruct (arr_get_lt (data_ v) j) as [d' Hd']; [lia|].
      rewrite Hd, Hd'. f_equal. apply Z.bits_inj'. intros k Hk. destruct (Z.lt_ge_cases k 64).
      + apply (proj2 (Hword j d d' 64 ltac:(lia) Hd Hd')); [|lia]. intros i Hi. apply H. lia.
      + by rewrite !(testbit_small 64) by (lia || apply (wf_word _ _ _ Hbu Hd) || apply (wf_word _ _ _ Hbv Hd')). }
  destruct r; cbn [negb].
  2: { exists false. split; [done|]. split; [done|]. intros H. apply Hr'. intros i Hi. apply H. lia. }
  rewrite Z.max_r by lia. destruct (Z.ltb_spec (SizeFor n - 1) (SizeFor n)) as [_|]; [|lia].
  destruct (arr_get_lt (data_ u) (SizeFor n - 1)) as [d Hd]; [lia|]. destruct (arr_get_lt (data_ v) (SizeFor n - 1)) as [d' Hd']; [lia|].
  rewrite Hd, Hd'. cbn [mbind option_bind]. eexists. split; [reflexivity|].
  replace ((kBitsPerWord - n) &&& (kBitsPerWord - 1)) with (64 - (n - 64 * (SizeFor n - 1))).
  2: { rewrite bit_index64. unfold kBitsPerWord. apply Z.mod_unique with (1 - SizeFor n); lia. }
  rewrite masked_eq, (Hword _ _ _ (n - 64 * (SizeFor n - 1)) ltac:(lia) Hd Hd') by lia. pose proof (proj1 Hr' eq_refl) as Hlow. split; intros H i Hi; [|apply H; lia].
  destruct (Z.lt_ge_cases i (64 * (SizeFor n - 1))); [by apply Hlow; lia|apply H; lia].
Qed.

(** *** Iteration *)
Lemma skip_bytes_spec m cur b : 0 < cur < 2 ^ (8 * Z.of_nat m) ->
  exists k, skip_bytes m cur b = Some (cur >>> k, b + k) /\ 0 <= k /\ (cur >>> k) mod 2 ^ 8 <> 0 /\ forall j, 0 <= j < k -> Z.testbit cur j = false.
Proof.
  revert cur b. induction m as [|m IH]; intros cur b Hc; [cbn in Hc; lia|]. cbn [skip_bytes].
  change 255 with (2 ^ 8 - 1). rewrite land_low by lia. destruct (Z.eqb_spec (cur mod 2 ^ 8) 0) as [Hz|Hnz].
  - assert (Hsh : cur >>> 8 = cur / 2 ^ 8) by (apply Z.shiftr_div_pow2; lia).
    destruct (IH (cur >>> 8) (b + 8)) as (k & -> & Hk & Hnz & Hlow).
    { rewrite Hsh. replace (2 ^ (8 * Z.of_nat (S m))) with (2 ^ 8 * 2 ^ (8 * Z.of_nat m)) in Hc by (rewrite <- Z.pow_add_r by lia; f_equal; lia).
      assert (2 ^ 8 = 256) as E8 by done. rewrite E8 in *. divlia. }
    exists (8 + k). rewrite Z.shiftr_shiftr in * by lia. split; [do 2 f_equal; lia|]. split; [lia|]. split; [done|].
    intros j Hj. destruct (Z.lt_ge_cases j 8).
    + rewrite <- (Z.mod_pow2_bits_low cur 8) by lia. by rewrite Hz, Z.bits_0.
    + replace j with (j - 8 + 8) by lia. rewrite <- Z.shiftr_spec by lia. apply Hlow. lia.
  - exists 0. rewrite Z.shiftr_0_r, Z.add_0_r. split; [done|]. split; [done|]. split; [done|]. lia.
Qed.
Lemma skip_bits_spec m cur b : cur mod 2 ^ Z.of_nat m <> 0 ->
  exists k, skip_bits m cur b = Some (cur >>> k, b + k) /\ 0 <= k /\ Z.testbit cur k = true /\ forall j, 0 <= j < k -> Z.testbit cur j = false.
Proof.
  revert cur b. induction m as [|m IH]; intros cur b Hc; [by rewrite Z.mod_1_r in Hc|]. cbn [skip_bits].
  change 1 with (2 ^ 1 - 1) at 1. rewrite land_low by lia. change (2 ^ 1) with 2.
  destruct (Z.eqb_spec (cur mod 2) 0) as [Hz|Hnz].
  - assert (H0 : Z.testbit cur 0 = false) by (by rewrite Z.bit0_eqb, Hz).
    destruct (IH (cur >>> 1) (b + 1)) as (k & -> & Hk & Ht & Hlow).
    { rewrite Z.shiftr_div_pow2 by lia. change (2 ^ 1) with 2. intros H. apply Hc. rewrite Nat2Z.inj_succ, Z.pow_succ_r by lia.
      rewrite Z.rem_mul_r by lia. lia. }
    rewrite Z.shiftr_spec in Ht by lia. exists (1 + k). rewrite Z.shiftr_shiftr by lia. split; [do 2 f_equal; lia|]. split; [lia|].
    split; [by rewrite Z.add_comm|]. intros j Hj. destruct (Z.eq_dec j 0) as [->|]; [done|].
    replace j with (j - 1 + 1) by lia. rewrite <- Z.shiftr_spec by lia. apply Hlow. lia.
  - exists 0. rewrite Z.shiftr_0_r, Z.add_0_r. split; [done|]. split; [done|]. split; [|lia].
    rewrite Z.bit0_eqb. apply Z.eqb_eq. pose proof (Z.mod_pos_bound cur 2 ltac:(lia)). lia.
Qed.
Lemma skip_zeros_spec w cur b : 0 < cur < 2 ^ 64 ->
  exists k, skip_zeros w cur b = Some (MkBitIterator (b + k) w (cur >>> (k + 1))) /\ 0 <= k < 64 /\
    Z.testbit cur k = true /\ forall j, 0 <= j < k -> Z.testbit cur j = false.
Proof.
  intros Hc. unfold skip_zeros. destruct (skip_bytes_spec 8 cur b Hc) as (k & -> & Hk & Hnz & Hlow). cbn [mbind option_bind].
  destruct (skip_bits_spec 8 (cur >>> k) (b + k) Hnz) as (k' & -> & Hk' & Ht & Hlow'). cbn [mbind option_bind].
  rewrite Z.shiftr_spec in Ht by lia. exists (k + k'). rewrite !Z.shiftr_shiftr by lia. split; [f_equal; f_equal; [lia|f_equal; lia]|]. split.
  - split; [lia|]. destruct (Z.lt_ge_cases (k + k') 64) as [|Hge]; [done|]. rewrite (testbit_small 64 cur) in Ht; [done|unfold is_uint; lia|lia].
  - split; [by rewrite Z.add_comm|]. intros j Hj. destruct (Z.lt_ge_cases j k); [apply Hlow; lia|].
    replace j with (j - k + k) by lia. rewrite <- Z.shiftr_spec by lia. apply Hlow'. lia.
Qed.
Lemma skip_words_spec m v w : 0 <= w < zlen (data_ v) -> zlen (data_ v) <= w + Z.of_nat m ->
  (skip_words m v w = Some (zlen (data_ v), None) /\ forall i, 64 * (w + 1) <= i -> contents v i = false) \/
  exists w' d, skip_words m v w = Some (w', Some d) /\ w < w' /\ arr_get (data_ v) w' = Some d /\ d <> 0 /\
    forall i, 64 * (w + 1) <= i < 64 * w' -> contents v i = false.
Proof.
  revert w. induction m as [|m IH]; intros w Hw Hm; [lia|]. cbn [skip_words]. destruct (Z.leb_spec (zlen (data_ v)) (w + 1)) as [Hd|Hlt].
  - left. split; [do 2 f_equal; lia|]. intros i Hi. apply member_out. lia.
  - destruct (arr_get_lt (data_ v) (w + 1)) as [d Hd]; [lia|]. rewrite Hd. cbn [mbind option_bind].
    destruct (Z.eqb_spec d 0) as [->|Hne].
    + assert (Hz : forall i, 64 * (w + 1) <= i < 64 * (w + 1 + 1) -> contents v i = false).
      { intros i Hi. replace i with (64 * (w + 1) + (i - 64 * (w + 1))) by lia. unfold contents. rewrite (member_word _ _ _ _ Hd) by lia. apply Z.bits_0. }
      destruct (IH (w + 1)) as [[-> H]|(w' & d & -> & Hw' & Hd' & Hne & H)]; [lia|lia|left|right].
      * split; [done|]. intros i Hi. destruct (Z.lt_ge_cases i (64 * (w + 1 + 1))); [apply Hz|apply H]; lia.
      * exists w', d. split; [done|]. split; [lia|]. split; [done|]. split; [done|].
        intros i Hi. destruct (Z.lt_ge_cases i (64 * (w + 1 + 1))); [apply Hz|apply H]; lia.
    + right. exists (w + 1), d. split; [done|]. split; [lia|]. split; [done|]. split; [done|]. lia.
Qed.

(** Where an iterator that is not done stands: what is left of its word starts
    behind its bit. *)
Definition stands (v : BitVector) (it : BitVector_Iterator) : Prop :=
  exists d, arr_get (data_ v) (word_index_ it) = Some d /\
    64 * word_index_ it <= bit_index_ it + 1 <= 64 * word_index_ it + 64 /\
    current_word_ it = d >>> (bit_index_ it + 1 - 64 * word_index_ it).

Lemma skip_zeros_least v w d m b : wf_bits (data_ v) -> arr_get (data_ v) w = Some d -> 0 <= m <= 64 -> d >>> m <> 0 -> b = 64 * w + m ->
  exists it r, skip_zeros w (d >>> m) b = Some it /\ least_from (data_ v) b r /\ r = bit_index_ it /\ 0 <= r /\ BitVector_Done v it = false /\ stands v it.
Proof.
  intros Hb Hd Hm Hne ->. pose proof (wf_word _ _ _ Hb Hd) as [Hd0 Hd64]. pose proof (arr_get_Some _ _ _ Hd) as Hw.
  assert (Hcur : 0 < d >>> m < 2 ^ 64).
  { pose proof (proj2 (Z.shiftr_nonneg d m) Hd0). split; [lia|]. rewrite Z.shiftr_div_pow2 by lia.
    apply Z.le_lt_trans with d; [|done]. apply Z.div_le_upper_bound; [lia|]. assert (0 < 2 ^ m) by lia. nia. }
  destruct (skip_zeros_spec w (d >>> m) (64 * w + m) Hcur) as (k & -> & Hk & Ht & Hlow). rewrite Z.shiftr_spec in Ht by lia.
  assert (k + m < 64).
  { destruct (Z.lt_ge_cases (k + m) 64) as [|Hge]; [done|]. by rewrite (testbit_small 64) in Ht by (done || lia). }
  eexists _, (64 * w + m + k). split; [reflexivity|]. cbn. split; [|split; [done|split; [lia|split]]].
  - right. split; [lia|]. split.
    + replace (64 * w + m + k) with (64 * w + (k + m)) by lia. by rewrite (member_word _ _ _ _ Hd) by lia.
    + intros j Hj. replace j with (64 * w + (j - 64 * w)) by lia. rewrite (member_word _ _ _ _ Hd) by lia.
      specialize (Hlow (j - 64 * w - m) ltac:(lia)). rewrite Z.shiftr_spec in Hlow by lia. by replace (j - 64 * w) with (j - 64 * w - m + m) by lia.
  - unfold BitVector_Done. cbn. apply Z.leb_gt. lia.
  - exists d. cbn. split; [done|]. split; [lia|]. rewrite Z.shiftr_shiftr by lia. f_equal. lia.
Qed.
Lemma BitVector_Advance_spec v it : wf_bits (data_ v) -> stands v it ->
  exists it' r, BitVector_Advance v it = Some it' /\ least_from (data_ v) (bit_index_ it + 1) r /\
    ((r = -1 /\ BitVector_Done v it' = true) \/ (r = bit_index_ it' /\ 0 <= r /\ BitVector_Done v it' = false /\ stands v it')).
Proof.
  intros Hb (d & Hd & Hbit & Hcur). pose proof (arr_get_Some _ _ _ Hd) as Hw. unfold BitVector_Advance.
  destruct (Z.eqb_spec (current_word_ it) 0) as [Hz|Hne].
  - assert (Hrest : forall i, bit_index_ it + 1 <= i < 64 * (word_index_ it + 1) -> contents v i = false).
    { intros i Hi. unfold contents. replace i with (64 * word_index_ it + (i - 64 * word_index_ it)) by lia.
      rewrite (member_word _ _ _ _ Hd) by lia. rewrite Hcur in Hz. apply (f_equal (fun x => Z.testbit x (i - (bit_index_ it + 1)))) in Hz.
      rewrite Z.shiftr_spec, Z.bits_0 in Hz by lia. by replace (i - 64 * word_index_ it) with (i - (bit_index_ it + 1) + (bit_index_ it + 1 - 64 * word_index_ it)) by lia. }
    destruct (skip_words_spec (S (length (data_ v))) v (word_index_ it)) as [[-> H]|(w' & d' & -> & Hw' & Hd' & Hne & H)];
      [done|unfold zlen in *; lia| |]; cbn [mbind option_bind].
    + eexists _, (-1). split; [reflexivity|]. split.
      * left. split; [done|]. intros j Hj. destruct (Z.lt_ge_cases j (64 * (word_index_ it + 1))); [apply Hrest|apply H]; lia.
      * left. split; [done|]. unfold BitVector_Done. cbn. apply Z.leb_refl.
    + destruct (skip_zeros_least v w' d' 0 (w' * kBitsPerWord) Hb Hd') as (it' & r & He & Hl & Hr & Hr0 & Hdn & Hs);
        [lia|by rewrite Z.shiftr_0_r|unfold kBitsPerWord; lia|]. rewrite Z.shiftr_0_r in He. rewrite He.
      exists it', r. split; [done|]. split; [|by right]. unfold kBitsPerWord in Hl. destruct Hl as [[-> _]|(H1 & H2 & H3)]; [lia|]. right.
      split; [lia|]. split; [done|]. intros j Hj. destruct (Z.lt_ge_cases j (64 * (word_index_ it + 1))); [by apply Hrest; lia|].
      destruct (Z.lt_ge_cases j (w' * 64)); [apply H; lia|apply H3; lia].
  - rewrite Hcur in Hne |- *.
    destruct (skip_zeros_least v _ d (bit_index_ it + 1 - 64 * word_index_ it) (bit_index_ it + 1) Hb Hd ltac:(lia) Hne ltac:(lia)) as (it' & r & He & Hl & Hr & Hr0 & Hdn & Hs).
    exists it', r. split; [done|]. split; [done|]. by right.
Qed.

(** The elements of [v] from [i] on. *)
Definition elements_from (v : BitVector) (i : Z) : list Z :=
  filter (fun j => contents v j = true) (seqZ i (64 * zlen (data_ v) - i)).
Lemma filter_none v l : (forall j, j ∈ l -> contents v j = false) -> filter (fun j => contents v j = true) l = [].
Proof.
  induction l as [|x l IH]; intros H; [done|]. rewrite filter_cons_False by (rewrite H; [done|left]).
  apply IH. intros j Hj. apply H. by right.
Qed.
Lemma elements_from_none v i : (forall j, i <= j -> contents v j = false) -> elements_from v i = [].
Proof.
  intros H. unfold elements_from. apply filter_none. intros j Hj. apply elem_of_seqZ in Hj. apply H. lia.
Qed.
Lemma elements_from_least v i r : i <= r -> contents v r = true -> (forall j, i <= j < r -> contents v j = false) ->
  elements_from v i = r :: elements_from v (r + 1).
Proof.
  intros Hi Hr H. assert (Hlen : r < 64 * zlen (data_ v)).
  { destruct (Z.lt_ge_cases r (64 * zlen (data_ v))); [done|]. unfold contents in Hr. by rewrite member_out in Hr by lia. }
  unfold elements_from. replace (64 * zlen (data_ v) - i) with ((r - i) + (64 * zlen (data_ v) - r)) by lia.
  rewrite seqZ_app, list.filter_app by lia. replace (i + (r - i)) with r by lia.
  rewrite (filter_none v (seqZ i (r - i))).
  - cbn [app]. rewrite seqZ_cons by lia. rewrite filter_cons_True by done. f_equal. unfold elements_from. do 2 f_equal; lia.
  - intros j Hj. apply elem_of_seqZ in Hj. apply H. lia.
Qed.

Lemma least_from_elements v i r : least_from (data_ v) i r -> elements_from v i = if r =? -1 then [] else r :: elements_from v (r + 1).
Proof.
  intros [[-> H]|(Hi & Hr & H)]; [by apply elements_from_none|]. destruct (Z.eqb_spec r (-1)) as [->|].
  - by rewrite member_out in Hr by lia.
  - by apply elements_from_least.
Qed.

Lemma iterate_from_spec fuel v it : wf_bits (data_ v) ->
  (BitVector_Done v it = true /\ (0 < fuel)%nat) \/
  (BitVector_Done v it = false /\ stands v it /\ contents v (bit_index_ it) = true /\ 64 * zlen (data_ v) - bit_index_ it < Z.of_nat fuel) ->
  iterate_from fuel v it = Some (if BitVector_Done v it then [] else bit_index_ it :: elements_from v (bit_index_ it + 1)).
Proof.
  intros Hb. revert it. induction fuel as [|fuel IH]; intros it [[Hd Hf]|(Hd & Hs & Hc & Hf)]; cbn [iterate_from]; rewrite ?Hd; [lia| |done|].
  - destruct (Z.lt_ge_cases (bit_index_ it) (64 * zlen (data_ v))); [lia|]. unfold contents in Hc. by rewrite member_out in Hc by lia.
  - assert (bit_index_ it < 64 * zlen (data_ v)).
    { destruct (Z.lt_ge_cases (bit_index_ it) (64 * zlen (data_ v))); [done|]. unfold contents in Hc. by rewrite member_out in Hc by lia. }
    destruct (BitVector_Advance_spec v it Hb Hs) as (it' & r & -> & Hl & Hr). cbn [mbind option_bind].
    rewrite (least_from_elements _ _ _ Hl). destruct Hr as [[-> Hd']|(-> & Hr0 & Hd' & Hs')].
    + rewrite IH, Hd'; [done|]. left. split; [done|lia].
    + destruct Hl as [[? _]|(H1 & H2 & H3)]; [lia|]. rewrite IH, Hd'; [by destruct (Z.eqb_spec (bit_index_ it') (-1)); [lia|]|].
      right. split; [done|]. split; [done|]. split; [done|lia].
Qed.

(** Iterating a bit vector visits its elements, the set bits of its words,
    once each and in ascending order, and ends. *)
Theorem BitVector_iterate_exact n v fuel : 0 <= n -> wf_vector n v -> 64 * SizeFor n < Z.of_nat fuel ->
  iterate fuel v = Some (elements_from v 0).
Proof.
  intros Hn (_ & Hl & Hb) Hfuel. pose proof (SizeFor_spec n Hn). rewrite <- Hl in *. unfold iterate, BitVector_Iterator_new.
  destruct (arr_get_lt (data_ v) 0) as [d Hd]; [lia|]. rewrite Hd. cbn [mbind option_bind].
  destruct (BitVector_Advance_spec v (MkBitIterator (-1) 0 d) Hb) as (it & r & -> & Hl' & Hr).
  { exists d. cbn. split; [done|]. split; [lia|]. by rewrite Z.shiftr_0_r. }
  cbn [mbind option_bind bit_index_] in *. change (-1 + 1) with 0 in Hl'. rewrite (least_from_elements _ _ _ Hl'). destruct Hr as [[-> Hd']|(-> & Hr0 & Hd' & Hs')].
  - rewrite iterate_from_spec, Hd'; [done|done|]. left. split; [done|lia].
  - destruct Hl' as [[? _]|(H1 & H2 & H3)]; [lia|]. rewrite iterate_from_spec, Hd'; [|done|].
    + by destruct (Z.eqb_spec (bit_index_ it) (-1)); [lia|].
    + right. split; [done|]. split; [done|]. split; [done|]. lia.
Qed.

(** The iterator does not stop at the length: after [SetAll] it visits every bit
    of the last word. *)
Theorem iterate_after_SetAll : (v ← BitVector_SetAll (BitVector_new 3); iterate 100 v) = Some (seqZ 0 64).
Proof. vm_compute. reflexivity. Qed.
