(* ===== verification/Liveness.v ===== *)
(** * Liveness analysis (src/runtime/vm/compiler/backend/flow_graph.{h,cc})

    [LivenessAnalysis]: the live-out, kill and live-in sets of the blocks of a
    flow graph, as bit vectors indexed by postorder number, and the iteration
    that completes the initial sets of a subclass. The virtual
    [ComputeInitialSets] is a member of the class [LivenessClient]; what a
    subclass promises is [LivenessClientLaws], against which [Analyze] is
    proved to compute exactly the variables that some path of the graph uses
    before it defines them. *)
From S2P Require Import Prelude Utils BitSet BitVector.
Local Open Scope Z_scope.
Local Open Scope vm_scope.

(** What the analysis reads of a [BlockEntryInstr]: its postorder number and
    those of the successors of its last instruction. *)
Record FlowBlock := MkFlowBlock { postorder_number : Z; successors : list Z }.

Record LivenessAnalysis := MkLiveness { live_out_ : list BitVector; kill_ : list BitVector; live_in_ : list BitVector }.

Fixpoint UpdateLiveOut_loop (succs : list Z) (live_in : list BitVector) (changed : bool) (live_out : BitVector) : option (bool * BitVector) :=
  match succs with
  | [] => Some (changed, live_out)
  | succ :: succs =>
      succ_in ← arr_get live_in succ;
      '(added, live_out) ← BitVector_AddAll live_out succ_in;
      UpdateLiveOut_loop succs live_in (if added : bool then true else changed) live_out
  end.
Definition UpdateLiveOut (block : FlowBlock) (s : LivenessAnalysis) : option (bool * LivenessAnalysis) :=
  live_out ← arr_get (live_out_ s) (postorder_number block);
  '(changed, live_out) ← UpdateLiveOut_loop (successors block) (live_in_ s) false live_out;
  outs ← arr_set (live_out_ s) (postorder_number block) live_out;
  Some (changed, MkLiveness outs (kill_ s) (live_in_ s)).
Definition UpdateLiveIn (block : FlowBlock) (s : LivenessAnalysis) : option (bool * LivenessAnalysis) :=
  live_out ← arr_get (live_out_ s) (postorder_number block);
  kill ← arr_get (kill_ s) (postorder_number block);
  live_in ← arr_get (live_in_ s) (postorder_number block);
  '(changed, live_in) ← BitVector_KillAndAdd live_in kill live_out;
  ins ← arr_set (live_in_ s) (postorder_number block) live_in;
  Some (changed, MkLiveness (live_out_ s) (kill_ s) ins).

(** [UpdateLiveOut(block) && UpdateLiveIn(block)]. *)
Definition update_block (block : FlowBlock) (s : LivenessAnalysis) : option (bool * LivenessAnalysis) :=
  '(changed, s) ← UpdateLiveOut block s;
  if changed : bool then UpdateLiveIn block s else Some (false, s).
(** One round over the blocks. *)
Fixpoint update_blocks (blocks : list FlowBlock) (changed : bool) (s : LivenessAnalysis) : option (bool * LivenessAnalysis) :=
  match blocks with
  | [] => Some (changed, s)
  | block :: blocks => '(c, s) ← update_block block s; update_blocks blocks (if c : bool then true else changed) s
  end.
Fixpoint ComputeLiveInAndLiveOutSets (fuel : nat) (postorder : list FlowBlock) (s : LivenessAnalysis) : option LivenessAnalysis :=
  match fuel with
  | O => None
  | S fuel =>
      '(changed, s) ← update_blocks postorder false s;
      if changed : bool then ComputeLiveInAndLiveOutSets fuel postorder s else Some s
  end.

(** ** Subclasses *)
(** [T] is the object of the subclass, with the graph whose instructions
    [ComputeInitialSets] may mark. *)
Class LivenessClient (T : Type) := {
  client_postorder : T -> list FlowBlock;
  variable_count_ : T -> Z;
  ComputeInitialSets : T -> LivenessAnalysis -> option (T * LivenessAnalysis) }.

Definition new_sets (block_count : nat) (variable_count : Z) : LivenessAnalysis :=
  let sets := replicate block_count (BitVector_new variable_count) in MkLiveness sets sets sets.
Definition Analyze {T} `{LivenessClient T} (fuel : nat) (t : T) : option (T * LivenessAnalysis) :=
  let s := new_sets (length (client_postorder t)) (variable_count_ t) in
  '(t, s) ← ComputeInitialSets t s;
  s ← ComputeLiveInAndLiveOutSets fuel (client_postorder t) s;
  Some (t, s).

(** [GetLiveInSet], [GetLiveOutSet] and [GetKillSet] by postorder number, then
    [Contains]. *)
Definition set_contains (sets : list BitVector) (b v : Z) : bool :=
  match arr_get sets b with Some x => contents x v | None => false end.

(** ** Paths *)
(** [v] is live at the start of [b]: a path of blocks that do not define it
    ends at one that uses it. *)
Inductive live_at_start (blocks : list FlowBlock) (use def : Z -> Z -> Prop) (v : Z) : Z -> Prop :=
  | live_use b : use b v -> live_at_start blocks use def v b
  | live_through b block b' :
      arr_get blocks b = Some block -> b' ∈ successors block -> ~ def b v -> live_at_start blocks use def v b' -> live_at_start blocks use def v b.
Definition live_at_end (blocks : list FlowBlock) (use def : Z -> Z -> Prop) (v b : Z) : Prop :=
  exists block b', arr_get blocks b = Some block /\ b' ∈ successors block /\ live_at_start blocks use def v b'.

Lemma live_ext blocks use def use' def' v b :
  (forall b, 0 <= b < zlen blocks -> use b v <-> use' b v) -> (forall b, 0 <= b < zlen blocks -> def b v <-> def' b v) ->
  (forall b block s, arr_get blocks b = Some block -> s ∈ successors block -> 0 <= s < zlen blocks) -> 0 <= b < zlen blocks ->
  live_at_start blocks use def v b -> live_at_start blocks use' def' v b.
Proof.
  intros Hu Hd Hs Hb Hl. induction Hl as [b Hub|b block b' Hbl Hin Hnd Hl IH].
  - left. by apply Hu.
  - eapply live_through; [done|done|by rewrite <- Hd|]. apply IH. by eapply Hs.
Qed.

(** The blocks are numbered by their place in the postorder. *)
Definition wf_blocks (blocks : list FlowBlock) : Prop :=
  forall i block, arr_get blocks i = Some block ->
    postorder_number block = i /\ forall s, s ∈ successors block -> 0 <= s < zlen blocks.
Definition wf_sets (n : Z) (blocks : list FlowBlock) (sets : list BitVector) : Prop :=
  length sets = length blocks /\ Forall (wf_vector n) sets.

Class LivenessClientLaws (T : Type) `{LivenessClient T} := {
  (** the uses of a block that no definition of the block precedes, and its definitions *)
  client_use : T -> Z -> Z -> Prop;
  client_def : T -> Z -> Z -> Prop;
  client_wf : T -> Prop;
  client_blocks_wf t : client_wf t -> 0 <= variable_count_ t /\ wf_blocks (client_postorder t);
  ComputeInitialSets_spec t : client_wf t ->
    exists t' s, ComputeInitialSets t (new_sets (length (client_postorder t)) (variable_count_ t)) = Some (t', s) /\
      client_postorder t' = client_postorder t /\
      wf_sets (variable_count_ t) (client_postorder t) (live_in_ s) /\ wf_sets (variable_count_ t) (client_postorder t) (kill_ s) /\
      live_out_ s = live_out_ (new_sets (length (client_postorder t)) (variable_count_ t)) /\
      forall b v, 0 <= b < zlen (client_postorder t) -> 0 <= v < variable_count_ t ->
        (set_contains (live_in_ s) b v = true <-> client_use t b v) /\ (set_contains (kill_ s) b v = true <-> client_def t b v) }.

(** ** The iteration *)
(** How many bits of the words of a vector are not set. *)
Definition missing (n : Z) (x : BitVector) : nat := length (filter (fun i => contents x i = false) (seqZ 0 (64 * SizeFor n))).
Definition total_missing (n : Z) (sets : list BitVector) : nat := foldr (fun x a => (missing n x + a)%nat) 0%nat sets.

Lemma filter_length_le {A} (P Q : A -> Prop) `{!forall x, Decision (P x), !forall x, Decision (Q x)} l :
  (forall x, x ∈ l -> P x -> Q x) -> (length (filter P l) <= length (filter Q l))%nat.
Proof.
  induction l as [|x l IH]; intros Himp; [done|]. rewrite !filter_cons.
  assert ((length (filter P l) <= length (filter Q l))%nat) by (apply IH; intros; apply Himp; [by right|done]).
  destruct (decide (P x)), (decide (Q x)); cbn; try lia. exfalso. eauto using list_elem_of_here.
Qed.
Lemma filter_length_lt {A} (P Q : A -> Prop) `{!forall x, Decision (P x), !forall x, Decision (Q x)} l y :
  (forall x, x ∈ l -> P x -> Q x) -> y ∈ l -> Q y -> ~ P y -> (length (filter P l) < length (filter Q l))%nat.
Proof.
  intros Himp Hy HQ HP. induction l as [|x l IH]; [by apply not_elem_of_nil in Hy|]. rewrite !filter_cons.
  assert (Hl : forall z, z ∈ l -> P z -> Q z) by (intros; apply Himp; [by right|done]).
  pose proof (filter_length_le P Q l Hl). apply elem_of_cons in Hy as [->|Hy].
  - destruct (decide (P x)), (decide (Q x)); try done. cbn. lia.
  - specialize (IH Hl Hy). destruct (decide (P x)) as [Hp|], (decide (Q x)) as [|Hq]; cbn; try lia. destruct Hq. by apply Himp; [left|].
Qed.
Lemma missing_le n x y : (forall i, 0 <= i < 64 * SizeFor n -> contents x i = true -> contents y i = true) -> (missing n y <= missing n x)%nat.
Proof.
  intros H. apply filter_length_le. intros i Hi Hy. apply elem_of_seqZ in Hi.
  destruct (contents x i) eqn:E; [|done]. by rewrite H in Hy by (done || lia).
Qed.
Lemma missing_lt n x y i : (forall i, 0 <= i < 64 * SizeFor n -> contents x i = true -> contents y i = true) ->
  0 <= i < 64 * SizeFor n -> contents x i = false -> contents y i = true -> (missing n y < missing n x)%nat.
Proof.
  intros H Hi Hx Hy. apply filter_length_lt with i; [|apply elem_of_seqZ; lia|done|by rewrite Hy].
  intros j Hj Hc. apply elem_of_seqZ in Hj. destruct (contents x j) eqn:E; [|done]. by rewrite H in Hc by (done || lia).
Qed.
Lemma missing_total n sets : 0 <= n -> (total_missing n sets <= length sets * Z.to_nat (64 * SizeFor n))%nat.
Proof.
  intros Hn. induction sets as [|x sets IH]; [done|]. cbn [total_missing foldr length]. fold (total_missing n sets).
  assert ((missing n x <= Z.to_nat (64 * SizeFor n))%nat); [|lia].
  unfold missing. etrans; [apply length_filter|]. by rewrite length_seqZ.
Qed.
Lemma total_missing_cons n x sets : total_missing n (x :: sets) = (missing n x + total_missing n sets)%nat.
Proof. done. Qed.
Lemma total_missing_set n sets b x y sets' : arr_get sets b = Some x -> arr_set sets b y = Some sets' ->
  (total_missing n sets' + missing n x = total_missing n sets + missing n y)%nat.
Proof.
  intros Hx [Hb ->]%arr_set_Some. unfold arr_get in Hx. zif_in Hx; [|done]. clear E Hb. revert sets Hx.
  induction (Z.to_nat b) as [|k IH]; intros [|z sets] Hx; try done.
  - injection Hx as ->. cbn [insert list_insert total_missing foldr]. lia.
  - specialize (IH sets Hx). change (<[S k := y]> (z :: sets)) with (z :: <[k := y]> sets). rewrite !total_missing_cons. lia.
Qed.

Lemma set_contains_set sets b x sets' b' v : arr_set sets b x = Some sets' ->
  set_contains sets' b' v = if b =? b' then contents x v else set_contains sets b' v.
Proof. intros Hs. unfold set_contains. rewrite (arr_get_set _ _ _ _ _ Hs). by destruct (b =? b'). Qed.
Lemma wf_sets_get n blocks sets b : wf_sets n blocks sets -> 0 <= b < zlen blocks ->
  exists x, arr_get sets b = Some x /\ wf_vector n x /\ forall v, set_contains sets b v = contents x v.
Proof.
  intros [Hl Hf] Hb. destruct (arr_get_lt sets b) as [x Hx]; [unfold zlen in *; lia|]. exists x. split; [done|]. split.
  - unfold arr_get in Hx. zif_in Hx; [|done]. by eapply Forall_lookup_1.
  - intros v. unfold set_contains. by rewrite Hx.
Qed.
Lemma wf_sets_set n blocks sets b x : wf_sets n blocks sets -> 0 <= b < zlen blocks -> wf_vector n x ->
  exists sets', arr_set sets b x = Some sets' /\ wf_sets n blocks sets'.
Proof.
  intros [Hl Hf] Hb Hx. eexists. split; [apply arr_set_Some; split; [unfold zlen in *; lia|reflexivity]|].
  split; [by rewrite length_insert|by apply Forall_insert].
Qed.

Section Iteration.
Context (n : Z) (Hn : 0 <= n) (blocks : list FlowBlock) (Hblocks : wf_blocks blocks) (s0 : LivenessAnalysis).
Context (Hin0 : wf_sets n blocks (live_in_ s0)) (Hkill0 : wf_sets n blocks (kill_ s0)) (Hout0 : wf_sets n blocks (live_out_ s0)).

Local Abbreviation bit v := (0 <= v < 64 * SizeFor n).
Local Abbreviation use0 := (fun b v => set_contains (live_in_ s0) b v = true).
Local Abbreviation def0 := (fun b v => set_contains (kill_ s0) b v = true).
(** What is live out of a block before the iteration is live into it, unless
    the block defines it. *)
Context (Hflow0 : forall b v, 0 <= b < zlen blocks -> bit v -> set_contains (live_out_ s0) b v = true ->
  set_contains (kill_ s0) b v = false -> set_contains (live_in_ s0) b v = true).

(** Every set is between the initial one and the paths of the graph, and the
    live-in sets follow the live-out sets, except perhaps at the block [p]. *)
Record sets_inv (p : Z) (s : LivenessAnalysis) : Prop := {
  si_kill : kill_ s = kill_ s0;
  si_in_wf : wf_sets n blocks (live_in_ s);
  si_out_wf : wf_sets n blocks (live_out_ s);
  si_in_ge b v : 0 <= b < zlen blocks -> bit v -> set_contains (live_in_ s0) b v = true -> set_contains (live_in_ s) b v = true;
  si_out_ge b v : 0 <= b < zlen blocks -> bit v -> set_contains (live_out_ s0) b v = true -> set_contains (live_out_ s) b v = true;
  si_in_le b v : 0 <= b < zlen blocks -> bit v -> set_contains (live_in_ s) b v = true -> live_at_start blocks use0 def0 v b;
  si_out_le b v : 0 <= b < zlen blocks -> bit v -> set_contains (live_out_ s) b v = true ->
    set_contains (live_out_ s0) b v = true \/ live_at_end blocks use0 def0 v b;
  si_flow b v : 0 <= b < zlen blocks -> b <> p -> bit v -> set_contains (live_out_ s) b v = true -> set_contains (kill_ s0) b v = false ->
    set_contains (live_in_ s) b v = true }.

Lemma sets_inv_init : sets_inv (-1) s0.
Proof using Hin0 Hout0 Hflow0. split; try done; [by left|by left|]. intros b v Hb _. by apply Hflow0. Qed.

Lemma UpdateLiveOut_loop_spec ins succs c x : wf_sets n blocks ins -> (forall b, b ∈ succs -> 0 <= b < zlen blocks) -> wf_vector n x ->
  exists c' x', UpdateLiveOut_loop succs ins c x = Some (c', x') /\ wf_vector n x' /\
    (forall v, bit v -> contents x' v = true <-> contents x v = true \/ exists b, b ∈ succs /\ set_contains ins b v = true) /\
    (c' = false -> c = false /\ forall v, bit v -> contents x' v = contents x v).
Proof using.
  intros Hins. revert c x. induction succs as [|b succs IH]; intros c x Hs Hx; cbn [UpdateLiveOut_loop].
  - exists c, x. split; [done|]. split; [done|]. split; [|done]. intros v _. split; [by left|]. intros [?|(b & Hb & _)]; [done|].
    by apply not_elem_of_nil in Hb.
  - destruct (wf_sets_get _ _ _ b Hins) as (y & Hy & Hwy & Hcy); [apply Hs; left|]. rewrite Hy. cbn [mbind option_bind].
    destruct (BitVector_AddAll_spec n x Hx y Hwy) as (added & x1 & -> & Hx1 & Hc1 & Hadded). cbn [mbind option_bind].
    destruct (IH (if added then true else c) x1) as (c' & x' & -> & Hx' & Hc' & Hsame); [intros b' Hb'; apply Hs; by right|done|].
    exists c', x'. split; [done|]. split; [done|]. split.
    + intros v Hv. rewrite Hc', Hc1, orb_true_iff, <- Hcy by done. split.
      * intros [[?|?]|(b' & Hb' & Hin)]; [by left|right; exists b; split; [left|done]|right; exists b'; split; [by right|done]].
      * intros [?|(b' & Hb' & Hin)]; [by left; left|]. apply elem_of_cons in Hb' as [->|Hb']; [by left; right|]. right. eauto.
    + intros Hf. destruct (Hsame Hf) as [Hadd Hsm]. destruct added; [done|]. split; [done|]. intros v Hv. rewrite Hsm, Hc1 by done.
      destruct (contents x v) eqn:Ex; [done|]. destruct (contents y v) eqn:Ey; [|done].
      assert (false = true) by (apply Hadded; eauto). done.
Qed.

(** What the update of one block, or of several, does to a state: the sets grow
    towards the paths, and the flag tells whether a live-in set did. *)
Definition grows (c : bool) (s s' : LivenessAnalysis) : Prop :=
  sets_inv (-1) s' /\ (total_missing n (live_in_ s') <= total_missing n (live_in_ s))%nat /\
  (c = true -> (total_missing n (live_in_ s') < total_missing n (live_in_ s))%nat) /\
  (c = false -> forall b v, bit v -> set_contains (live_in_ s') b v = set_contains (live_in_ s) b v) /\
  (forall b v, bit v -> set_contains (live_out_ s) b v = true -> set_contains (live_out_ s') b v = true).
(** The live-out set of [block] has what is live into its successors. *)
Definition closed_at (ins outs : list BitVector) (block : FlowBlock) : Prop :=
  forall b v, b ∈ successors block -> bit v -> set_contains ins b v = true -> set_contains outs (postorder_number block) v = true.

Lemma UpdateLiveOut_spec b block s : sets_inv (-1) s -> arr_get blocks b = Some block ->
  exists c s', UpdateLiveOut block s = Some (c, s') /\ live_in_ s' = live_in_ s /\ sets_inv (if c : bool then b else -1) s' /\
    (forall b v, bit v -> set_contains (live_out_ s) b v = true -> set_contains (live_out_ s') b v = true) /\
    closed_at (live_in_ s) (live_out_ s') block.
Proof using Hblocks.
  intros [K IW OW IG OG IL OL FL] Hb. pose proof (arr_get_Some _ _ _ Hb) as Hbr. destruct (Hblocks _ _ Hb) as [Hnum Hsucc].
  unfold UpdateLiveOut. rewrite Hnum. destruct (wf_sets_get _ _ _ b OW Hbr) as (x & Hx & Hwx & Hcx). rewrite Hx. cbn [mbind option_bind].
  destruct (UpdateLiveOut_loop_spec (live_in_ s) (successors block) false x IW Hsucc Hwx) as (c & x' & -> & Hwx' & Hcx' & Hsame). cbn [mbind option_bind].
  destruct (wf_sets_set _ _ _ b x' OW Hbr Hwx') as (outs & Houts & OW'). rewrite Houts. cbn [mbind option_bind].
  assert (Hout : forall b' v, set_contains outs b' v = if b =? b' then contents x' v else set_contains (live_out_ s) b' v) by (intros; by apply set_contains_set).
  assert (Hmono : forall b' v, bit v -> set_contains (live_out_ s) b' v = true -> set_contains outs b' v = true).
  { intros b' v Hv Hc. rewrite Hout. zif; [|done]. subst b'. apply Hcx'; [done|]. left. by rewrite <- Hcx. }
  eexists c, _. split; [reflexivity|]. cbn [live_in_ live_out_]. split; [done|]. split; [split; cbn [kill_ live_in_ live_out_]; try done|split; [done|]].
  - intros b' v Hb' Hv Hc. by apply Hmono, OG.
  - intros b' v Hb' Hv Hc. rewrite Hout in Hc. zif_in Hc; [|by apply OL]. subst b'. apply Hcx' in Hc as [Hc|(b' & Hb'' & Hc)]; [|right|done].
    + apply OL; [done|done|]. by rewrite Hcx.
    + exists block, b'. split; [done|]. split; [done|]. apply IL; [by apply Hsucc|done|done].
  - intros b' v Hb' Hne Hv Hc1 Hc2. apply FL; [done|lia|done| |done]. rewrite Hout in Hc1. zif_in Hc1; [|done]. subst b'.
    destruct c; [done|]. destruct (Hsame eq_refl) as [_ Hsm]. by rewrite Hcx, <- Hsm.
  - intros b' v Hb' Hv Hc. rewrite Hnum, Hout, Z.eqb_refl. apply Hcx'; [done|]. right. eauto.
Qed.
Lemma UpdateLiveIn_spec b block s : sets_inv b s -> arr_get blocks b = Some block ->
  exists c s', UpdateLiveIn block s = Some (c, s') /\ live_out_ s' = live_out_ s /\ grows c s s'.
Proof using Hblocks Hkill0 Hflow0.
  intros [K IW OW IG OG IL OL FL] Hb. pose proof (arr_get_Some _ _ _ Hb) as Hbr. destruct (Hblocks _ _ Hb) as [Hnum Hsucc].
  unfold UpdateLiveIn. rewrite Hnum, K.
  destruct (wf_sets_get _ _ _ b OW Hbr) as (x & Hx & Hwx & Hcx). destruct (wf_sets_get _ _ _ b Hkill0 Hbr) as (k & Hk & Hwk & Hck).
  destruct (wf_sets_get _ _ _ b IW Hbr) as (i & Hi & Hwi & Hci). rewrite Hx, Hk, Hi. cbn [mbind option_bind].
  destruct (BitVector_KillAndAdd_spec n i Hwi k x Hwk Hwx) as (c & i' & -> & Hwi' & Hci' & Hc). cbn [mbind option_bind].
  destruct (wf_sets_set _ _ _ b i' IW Hbr Hwi') as (ins & Hins & IW'). rewrite Hins. cbn [mbind option_bind].
  assert (Hin : forall b' v, set_contains ins b' v = if b =? b' then contents i' v else set_contains (live_in_ s) b' v) by (intros; by apply set_contains_set).
  assert (Himono : forall v, bit v -> contents i v = true -> contents i' v = true) by (intros v Hv Hc'; by rewrite Hci', Hc').
  pose proof (total_missing_set n _ _ _ _ _ Hi Hins) as Hm. pose proof (missing_le n i i' Himono) as Hle.
  eexists c, _. split; [reflexivity|]. split; [done|]. unfold grows. cbn [live_in_ live_out_].
  split; [split; cbn [kill_ live_in_ live_out_]; try done|split; [lia|split; [|split; [|done]]]].
  - intros b' v Hb' Hv Hc'. rewrite Hin. zif; [|by apply IG]. subst b'. apply Himono; [done|]. rewrite <- Hci. by apply IG.
  - intros b' v Hb' Hv Hc'. rewrite Hin in Hc'. zif_in Hc'; [|by apply IL]. subst b'. rewrite Hci' in Hc' by done.
    apply orb_true_iff in Hc' as [Hc'|[Hc1 Hc2]%andb_true_iff]; [apply IL; [done|done|by rewrite Hci]|].
    rewrite <- Hcx in Hc1. rewrite <- Hck in Hc2. apply negb_true_iff in Hc2.
    destruct (OL b v Hbr Hv Hc1) as [Ho|(bl & b' & Hbl & Hb'' & Hl)].
    + left. by apply Hflow0.
    + eapply live_through; [done|done|by rewrite Hc2|done].
  - intros b' v Hb' _ Hv Hc1 Hc2. rewrite Hin. zif; [|by apply FL; [|congruence| | |]]. subst b'.
    rewrite Hci', <- Hcx, <- Hck, Hc1, Hc2 by done. apply orb_true_r.
  - intros ->. destruct (proj1 Hc eq_refl) as (v & Hv & H1 & H2 & H3). pose proof (missing_lt n i i' v Himono Hv H1) as Hlt.
    rewrite Hci', H1, H2, H3 in Hlt by done. specialize (Hlt eq_refl). lia.
  - intros ->. intros b' v Hv. rewrite Hin. zif; [|done]. subst b'. rewrite Hci, Hci' by done.
    destruct (contents i v) eqn:E1; [done|]. destruct (contents x v) eqn:E2; [|done]. destruct (contents k v) eqn:E3; [done|].
    assert (false = true) by (apply Hc; eauto). done.
Qed.
Lemma update_block_spec b block s : sets_inv (-1) s -> arr_get blocks b = Some block ->
  exists c s', update_block block s = Some (c, s') /\ grows c s s' /\ closed_at (live_in_ s) (live_out_ s') block.
Proof using Hblocks Hkill0 Hflow0.
  intros Hi Hb. unfold update_block. destruct (UpdateLiveOut_spec b block s Hi Hb) as (c & s1 & -> & Hin & Hi1 & Hmono & Hcl). cbn [mbind option_bind].
  destruct c.
  - destruct (UpdateLiveIn_spec b block s1 Hi1 Hb) as (c & s2 & -> & Hout & H1 & H2 & H3 & H4 & H5). exists c, s2. split; [done|].
    rewrite Hin, Hout in *. split; [|done]. split; [done|]. split; [done|]. split; [done|]. split; [done|]. intros. by rewrite Hout; apply Hmono.
  - exists false, s1. split; [done|]. split; [|done]. split; [done|]. rewrite Hin. split; [lia|done].
Qed.

Lemma grows_trans c1 c2 s s1 s2 : grows c1 s s1 -> grows c2 s1 s2 -> grows (c1 || c2) s s2.
Proof using.
  intros (_ & L1 & T1 & F1 & M1) (I2 & L2 & T2 & F2 & M2). split; [done|]. split; [lia|]. split; [|split].
  - intros [->| ->]%orb_true_iff; [specialize (T1 eq_refl)|specialize (T2 eq_refl)]; lia.
  - intros [-> ->]%orb_false_iff b v Hv. by rewrite F2, F1.
  - intros b v Hv Hc. by apply M2, M1.
Qed.
Lemma update_blocks_spec bs c s : sets_inv (-1) s -> Forall (fun block => arr_get blocks (postorder_number block) = Some block) bs ->
  exists c' s', update_blocks bs c s = Some (c || c', s') /\ grows c' s s' /\
    (c' = false -> Forall (closed_at (live_in_ s') (live_out_ s')) bs).
Proof using Hblocks Hkill0 Hflow0.
  revert c s. induction bs as [|block bs IH]; intros c s Hi Hbs; cbn [update_blocks].
  - exists false, s. rewrite orb_false_r. split; [done|]. split; [|done]. split; [done|]. split; [lia|done].
  - inversion_clear Hbs as [|? ? Hb Hbs']. destruct (update_block_spec _ _ s Hi Hb) as (c1 & s1 & -> & Hg1 & Hcl). cbn [mbind option_bind].
    destruct (IH (if c1 then true else c) s1 (proj1 Hg1) Hbs') as (c2 & s2 & -> & Hg2 & Hcl2). exists (c1 || c2), s2. split; [by destruct c, c1|].
    split; [by eapply grows_trans|]. intros [-> ->]%orb_false_iff. constructor; [|by apply Hcl2].
    destruct Hg1 as (_ & _ & _ & F1 & _), Hg2 as (_ & _ & _ & F2 & M2). intros b v Hb' Hv Hc.
    apply M2; [done|]. apply (Hcl b); [done|done|]. by rewrite <- F1, <- F2.
Qed.

Definition exact (s : LivenessAnalysis) : Prop :=
  kill_ s = kill_ s0 /\ wf_sets n blocks (live_in_ s) /\ wf_sets n blocks (live_out_ s) /\
  forall b v, 0 <= b < zlen blocks -> bit v ->
    (set_contains (live_in_ s) b v = true <-> live_at_start blocks use0 def0 v b) /\
    (set_contains (live_out_ s) b v = true <-> set_contains (live_out_ s0) b v = true \/ live_at_end blocks use0 def0 v b).

(** Closed sets contain every path. *)
Lemma closed_exact s : sets_inv (-1) s -> Forall (closed_at (live_in_ s) (live_out_ s)) blocks -> exact s.
Proof using Hblocks.
  intros Hi Hcl.
  assert (Hsucc : forall b block b' v, arr_get blocks b = Some block -> b' ∈ successors block -> bit v ->
    set_contains (live_in_ s) b' v = true -> set_contains (live_out_ s) b v = true).
  { intros b block b' v Hb Hb' Hv Hc. destruct (Hblocks _ _ Hb) as [<- _]. unfold arr_get in Hb. zif_in Hb; [|done].
    by apply (Forall_lookup_1 _ _ _ _ Hcl Hb b'). }
  assert (Hlive : forall b v, 0 <= b < zlen blocks -> bit v -> live_at_start blocks use0 def0 v b -> set_contains (live_in_ s) b v = true).
  { intros b v Hb Hv Hl. induction Hl as [b Hu|b block b' Hbl Hb' Hd Hl IH]; [by apply (si_in_ge _ _ Hi)|].
    apply (si_flow _ _ Hi); [done|lia|done| |by apply not_true_is_false]. eapply Hsucc; [done|done|done|]. apply IH. by eapply Hblocks. }
  split; [apply Hi|]. split; [apply Hi|]. split; [apply Hi|]. intros b v Hb Hv. split.
  - split; [by apply (si_in_le _ _ Hi)|by apply Hlive].
  - split; [by apply (si_out_le _ _ Hi)|]. intros [Ho|(block & b' & Hbl & Hb' & Hl)]; [by apply (si_out_ge _ _ Hi)|].
    eapply Hsucc; [done|done|done|]. apply Hlive; [by eapply Hblocks|done|done].
Qed.

Lemma ComputeLiveInAndLiveOutSets_from fuel s : sets_inv (-1) s -> (total_missing n (live_in_ s) < fuel)%nat ->
  exists s', ComputeLiveInAndLiveOutSets fuel blocks s = Some s' /\ exact s'.
Proof using Hblocks Hkill0 Hflow0.
  revert s. induction fuel as [|fuel IH]; intros s Hi Hf; [lia|]. cbn [ComputeLiveInAndLiveOutSets].
  destruct (update_blocks_spec blocks false s Hi) as (c & s' & -> & Hg & Hcl).
  { apply Forall_lookup. intros k block Hk. assert (Hb : arr_get blocks (Z.of_nat k) = Some block) by (unfold arr_get; zif; [by rewrite Nat2Z.id|lia]).
    by rewrite (proj1 (Hblocks _ _ Hb)). }
  cbn [mbind option_bind orb]. destruct Hg as (Hi' & _ & Ht & _). destruct c.
  - apply IH; [done|]. specialize (Ht eq_refl). lia.
  - exists s'. split; [done|]. apply closed_exact; [done|by apply Hcl].
Qed.
(** Every round but the last adds a bit to a live-in set. *)
Lemma ComputeLiveInAndLiveOutSets_exact fuel : (length blocks * Z.to_nat (64 * SizeFor n) < fuel)%nat ->
  exists s, ComputeLiveInAndLiveOutSets fuel blocks s0 = Some s /\ exact s.
Proof using Hn Hblocks Hin0 Hkill0 Hout0 Hflow0.
  intros Hf. apply ComputeLiveInAndLiveOutSets_from; [apply sets_inv_init|].
  pose proof (missing_total n (live_in_ s0) Hn). destruct Hin0 as [Hl _]. rewrite Hl in *. lia.
Qed.
End Iteration.

(** ** The analysis *)
Lemma new_sets_spec (k : nat) n blocks : 0 <= n -> k = length blocks ->
  wf_sets n blocks (live_out_ (new_sets k n)) /\ forall b v, set_contains (live_out_ (new_sets k n)) b v = false.
Proof.
  intros Hn ->. destruct (BitVector_new_spec n Hn) as [Hw Hc]. cbn. split.
  - split; [apply length_replicate|by apply Forall_replicate].
  - intros b v. unfold set_contains. destruct (arr_get _ _) as [x|] eqn:E; [|done]. unfold arr_get in E. zif_in E; [|done].
    apply lookup_replicate_1 in E as [-> _]. apply Hc.
Qed.

(** For every subclass, [Analyze] ends, and computes for each block exactly
    the variables that are live at its start and at its end: those that some path
    of the flow graph from there uses before any block of the path defines them. *)
Lemma Analyze_exact {T} `{LivenessClientLaws T} (t : T) fuel : client_wf t ->
  (length (client_postorder t) * Z.to_nat (64 * SizeFor (variable_count_ t)) < fuel)%nat ->
  exists t' s0 s, ComputeInitialSets t (new_sets (length (client_postorder t)) (variable_count_ t)) = Some (t', s0) /\
    Analyze fuel t = Some (t', s) /\ kill_ s = kill_ s0 /\
    (wf_sets (variable_count_ t) (client_postorder t) (live_in_ s) /\ wf_sets (variable_count_ t) (client_postorder t) (live_out_ s) /\
     wf_sets (variable_count_ t) (client_postorder t) (kill_ s)) /\
    forall b v, 0 <= b < zlen (client_postorder t) -> 0 <= v < variable_count_ t ->
      (set_contains (live_in_ s) b v = true <-> live_at_start (client_postorder t) (client_use t) (client_def t) v b) /\
      (set_contains (live_out_ s) b v = true <-> live_at_end (client_postorder t) (client_use t) (client_def t) v b).
Proof.
  intros Hwf Hf. destruct (client_blocks_wf t Hwf) as [Hn Hb].
  destruct (ComputeInitialSets_spec t Hwf) as (t' & s0 & Hi & Hpost & Hin & Hkill & Hout & Hsets).
  destruct (new_sets_spec (length (client_postorder t)) (variable_count_ t) (client_postorder t) Hn eq_refl) as [Hwout Hempty]. rewrite <- Hout in *.
  destruct (ComputeLiveInAndLiveOutSets_exact _ Hn _ Hb s0 Hin Hkill Hwout) with (fuel := fuel) as (s & Hs & Hk & Hws1 & Hws2 & He);
    [intros b v _ _ Ho; by rewrite Hempty in Ho|done|].
  exists t', s0, s. split; [done|]. split; [unfold Analyze; rewrite Hi; cbn [mbind option_bind]; by rewrite Hpost, Hs|]. split; [done|]. split; [by rewrite Hk|].
  intros b v Hbr Hv. pose proof (SizeFor_spec _ Hn) as [_ Hsz]. destruct (He b v Hbr ltac:(lia)) as [He1 He2].
  assert (Hiff : forall b, 0 <= b < zlen (client_postorder t) ->
    live_at_start (client_postorder t) (fun b v => set_contains (live_in_ s0) b v = true) (fun b v => set_contains (kill_ s0) b v = true) v b <->
    live_at_start (client_postorder t) (client_use t) (client_def t) v b).
  { intros b' Hb'. split; apply live_ext; try done; try (intros b0 Hb0; destruct (Hsets b0 v Hb0 Hv); tauto);
      intros b0 block s1 Hbl Hs1; by apply (proj2 (Hb _ _ Hbl)). }
  split; [by rewrite He1, Hiff|]. rewrite He2, Hempty. split.
  - intros [?|(block & b' & Hbl & Hb' & Hl)]; [done|]. exists block, b'. split; [done|]. split; [done|]. apply Hiff; [|done]. by apply (proj2 (Hb _ _ Hbl)).
  - intros (block & b' & Hbl & Hb' & Hl). right. exists block, b'. split; [done|]. split; [done|]. apply Hiff; [|done]. by apply (proj2 (Hb _ _ Hbl)).
Qed.
