(* ===== verification/VariableLiveness.v ===== *)
(** * Liveness of local variables (src/runtime/vm/compiler/backend/flow_graph.cc)

    [VariableLivenessAnalysis]: the initial sets of the analysis of Liveness.v
    for the local variables of a function, with the marks that they leave on
    loads and stores, and the queries of SSA construction ([IsStoreAlive],
    [IsLastLoad], [ComputeAssignedVars]). *)
From S2P Require Import Prelude Utils BitSet BitVector Liveness.
Local Open Scope Z_scope.
Local Open Scope vm_scope.

(** ** Local variables (src/runtime/vm/scopes.{h,cc}) *)
(** [index_] is [kInvalidIndex] for a variable without an index; the context
    level is that of the owner's scope. *)
Record LocalVariable := MkLocal { index_ : Z; is_captured_ : bool; owner_context_level : Z }.
Definition HasIndex (v : LocalVariable) : bool := negb (index_ v =? kMinInt32).
Definition LocalVariable_Equals (v other : LocalVariable) : bool :=
  if HasIndex v && HasIndex other && (index_ v =? index_ other) then
    if Bool.eqb (is_captured_ v) (is_captured_ other) then
      if negb (is_captured_ v) then true
      else owner_context_level v =? owner_context_level other
    else false
  else false.

(** ** The graph *)
(** Instructions, as far as the analysis looks at them, with their marks. *)
Inductive LocalInstr :=
  | LoadLocal (local : LocalVariable) (is_last : bool)
  | StoreLocal (local : LocalVariable) (is_dead is_last : bool)
  | OtherInstr.
Inductive EntryKind := FunctionEntry | OsrEntry | CatchBlockEntry | OtherEntry.
#[export] Instance EntryKind_eq_dec : EqDecision EntryKind.
Proof. solve_decision. Defined.
Record VBlock := MkVBlock { flow : FlowBlock; entry : EntryKind; try_index_ : Z; instructions : list LocalInstr }.
Definition InsideTryBlock (block : VBlock) : bool := negb (try_index_ block =? -1).

(** What the analysis reads of the [FlowGraph]; [preorder_] lists the blocks by
    their postorder numbers, [arg_desc_var] is [None] without such a variable. *)
Record VGraph := MkVGraph {
  num_direct_parameters_ : Z;
  num_stack_locals : Z;
  current_context_var : LocalVariable;
  arg_desc_var : option LocalVariable;
  preorder_ : list Z;
  postorder_ : list VBlock }.
Definition variable_count (g : VGraph) : Z := num_direct_parameters_ g + num_stack_locals g.
Definition EnvIndex (g : VGraph) (variable : LocalVariable) : Z := num_direct_parameters_ g - index_ variable.

(** ** Initial sets *)
Record Scan := MkScan { sc_kill : BitVector; sc_live_in : BitVector; sc_last_loads : BitVector }.

Definition visit_load (g : VGraph) (local : LocalVariable) (is_last : bool) (sc : Scan) : option (LocalInstr * Scan) :=
  let index := EnvIndex g local in
  if length_ (sc_live_in sc) <=? index then Some (LoadLocal local is_last, sc)
  else
    live_in ← BitVector_Add (sc_live_in sc) index;
    seen ← BitVector_Contains (sc_last_loads sc) index;
    if negb seen then
      last_loads ← BitVector_Add (sc_last_loads sc) index;
      Some (LoadLocal local true, MkScan (sc_kill sc) live_in last_loads)
    else Some (LoadLocal local is_last, MkScan (sc_kill sc) live_in (sc_last_loads sc)).
Definition visit_store (g : VGraph) (local : LocalVariable) (is_dead is_last : bool) (sc : Scan) : option (LocalInstr * Scan) :=
  let index := EnvIndex g local in
  if length_ (sc_live_in sc) <=? index then Some (StoreLocal local is_dead is_last, sc)
  else
    killed ← BitVector_Contains (sc_kill sc) index;
    live ← BitVector_Contains (sc_live_in sc) index;
    '(store, kill) ←
      (if killed : bool then Some (StoreLocal local (if negb live then true else is_dead) is_last, sc_kill sc)
       else
         kill ← BitVector_Add (sc_kill sc) index;
         Some (StoreLocal local is_dead (if negb live then true else is_last), kill));
    live_in ← BitVector_Remove (sc_live_in sc) index;
    Some (store, MkScan kill live_in (sc_last_loads sc)).
Definition visit_instr (g : VGraph) (current : LocalInstr) (sc : Scan) : option (LocalInstr * Scan) :=
  match current with
  | LoadLocal local is_last => visit_load g local is_last sc
  | StoreLocal local is_dead is_last => visit_store g local is_dead is_last sc
  | OtherInstr => Some (OtherInstr, sc)
  end.
(** The backward iteration over the instructions of a block. *)
Fixpoint scan_backward (g : VGraph) (instrs : list LocalInstr) (sc : Scan) : option (list LocalInstr * Scan) :=
  match instrs with
  | [] => Some ([], sc)
  | current :: rest =>
      '(rest, sc) ← scan_backward g rest sc;
      '(current, sc) ← visit_instr g current sc;
      Some (current :: rest, sc)
  end.

Definition define_at_entry (i : Z) (sets : BitVector * BitVector) : option (BitVector * BitVector) :=
  let '(kill, live_in) := sets in
  live_in ← BitVector_Remove live_in i; kill ← BitVector_Add kill i; Some (kill, live_in).
(** [n] parameters are left, from [i] on. *)
Fixpoint define_parameters (n : nat) (i : Z) (sets : BitVector * BitVector) : option (BitVector * BitVector) :=
  match n with
  | O => Some sets
  | S n => sets ← define_at_entry i sets; define_parameters n (i + 1) sets
  end.
Definition define_entry (g : VGraph) (block : VBlock) (sets : BitVector * BitVector) : option (BitVector * BitVector) :=
  let is_function_entry := bool_decide (entry block = FunctionEntry) in
  let is_osr_entry := bool_decide (entry block = OsrEntry) in
  sets ←
    (if is_function_entry || is_osr_entry || bool_decide (entry block = CatchBlockEntry) then
       let parameter_count := if is_osr_entry then variable_count g else num_direct_parameters_ g in
       define_parameters (Z.to_nat parameter_count) 0 sets
     else Some sets);
  if is_function_entry then
    match arg_desc_var g with
    | Some var => define_at_entry (EnvIndex g var) sets
    | None => Some sets
    end
  else Some sets.

(** The sets of one block: the block with its marks, kill, live-in, last loads. *)
Definition initial_sets_of (g : VGraph) (block : VBlock) (sc : Scan) : option (VBlock * Scan) :=
  last_loads ← BitVector_Clear (sc_last_loads sc);
  if InsideTryBlock block then
    live_in ← BitVector_SetAll (sc_live_in sc);
    Some (block, MkScan (sc_kill sc) live_in last_loads)
  else
    '(instrs, sc) ← scan_backward g (instructions block) (MkScan (sc_kill sc) (sc_live_in sc) last_loads);
    '(kill, live_in) ← define_entry g block (sc_kill sc, sc_live_in sc);
    Some (MkVBlock (flow block) (entry block) (try_index_ block) instrs, MkScan kill live_in (sc_last_loads sc)).
Fixpoint VariableLiveness_loop (g : VGraph) (i : Z) (blocks : list VBlock) (last_loads : BitVector) (s : LivenessAnalysis)
    : option (list VBlock * LivenessAnalysis) :=
  match blocks with
  | [] => Some ([], s)
  | block :: blocks =>
      kill ← arr_get (kill_ s) i;
      live_in ← arr_get (live_in_ s) i;
      '(block, sc) ← initial_sets_of g block (MkScan kill live_in last_loads);
      kills ← arr_set (kill_ s) i (sc_kill sc);
      ins ← arr_set (live_in_ s) i (sc_live_in sc);
      '(blocks, s) ← VariableLiveness_loop g (i + 1) blocks (sc_last_loads sc) (MkLiveness (live_out_ s) kills ins);
      Some (block :: blocks, s)
  end.
Definition with_postorder (g : VGraph) (blocks : list VBlock) : VGraph :=
  MkVGraph (num_direct_parameters_ g) (num_stack_locals g) (current_context_var g) (arg_desc_var g) (preorder_ g) blocks.
Definition VariableLiveness_ComputeInitialSets (g : VGraph) (s : LivenessAnalysis) : option (VGraph * LivenessAnalysis) :=
  '(blocks, s) ← VariableLiveness_loop g 0 (postorder_ g) (BitVector_new (variable_count g)) s;
  Some (with_postorder g blocks, s).

#[export] Instance VariableLiveness : LivenessClient VGraph := {
  client_postorder g := flow <$> postorder_ g;
  variable_count_ := variable_count;
  ComputeInitialSets := VariableLiveness_ComputeInitialSets }.

(** ** Queries *)
Definition IsStoreAlive (g : VGraph) (s : LivenessAnalysis) (block : VBlock) (local : LocalVariable) (is_dead is_last : bool) : option bool :=
  if LocalVariable_Equals local (current_context_var g) then Some true
  else if is_dead then Some false
  else if is_last then
    let index := EnvIndex g local in
    live_out ← arr_get (live_out_ s) (postorder_number (flow block));
    BitVector_Contains live_out index
  else Some true.
Definition IsLastLoad (g : VGraph) (s : LivenessAnalysis) (block : VBlock) (local : LocalVariable) (is_last : bool) : option bool :=
  if LocalVariable_Equals local (current_context_var g) then Some false
  else
    let index := EnvIndex g local in
    if is_last then
      live_out ← arr_get (live_out_ s) (postorder_number (flow block));
      negb <$> BitVector_Contains live_out index
    else Some false.

(** The kill sets are updated in place, in preorder. *)
Fixpoint ComputeAssignedVars_loop (g : VGraph) (preorder : list Z) (s : LivenessAnalysis) (assigned : list BitVector) : option (list BitVector * LivenessAnalysis) :=
  match preorder with
  | [] => Some (assigned, s)
  | number :: preorder =>
      block ← arr_get (postorder_ g) number;
      kill ← arr_get (kill_ s) number;
      live_out ← arr_get (live_out_ s) number;
      kill ← (if InsideTryBlock block then BitVector_SetAll kill else BitVector_Intersect kill live_out);
      kills ← arr_set (kill_ s) number kill;
      ComputeAssignedVars_loop g preorder (MkLiveness (live_out_ s) kills (live_in_ s)) (assigned ++ [kill])
  end.
Definition ComputeAssignedVars (g : VGraph) (s : LivenessAnalysis) : option (list BitVector * LivenessAnalysis) :=
  ComputeAssignedVars_loop g (preorder_ g) s [].

(** ** What the scan of a block computes *)
Section Block.
Context (g : VGraph).

Definition loads (v : Z) (i : LocalInstr) : bool := match i with LoadLocal x _ => EnvIndex g x =? v | _ => false end.
Definition stores (v : Z) (i : LocalInstr) : bool := match i with StoreLocal x _ _ => EnvIndex g x =? v | _ => false end.
(** The first access to [v] is a load. *)
Fixpoint loaded_first (l : list LocalInstr) (v : Z) : bool :=
  match l with [] => false | i :: l => loads v i || (negb (stores v i) && loaded_first l v) end.
Definition stored (l : list LocalInstr) (v : Z) : bool := existsb (stores v) l.
Definition loaded (l : list LocalInstr) (v : Z) : bool := existsb (loads v) l.

(** The mark of an instruction depends on those that follow it. *)
Definition mark (i : LocalInstr) (rest : list LocalInstr) : LocalInstr :=
  match i with
  | LoadLocal x last =>
      if variable_count g <=? EnvIndex g x then i
      else if negb (loaded rest (EnvIndex g x)) then LoadLocal x true else i
  | StoreLocal x dead last =>
      if variable_count g <=? EnvIndex g x then i
      else if loaded_first rest (EnvIndex g x) then i
      else if stored rest (EnvIndex g x) then StoreLocal x true last
      else StoreLocal x dead true
  | OtherInstr => i
  end.
Fixpoint marked (l : list LocalInstr) : list LocalInstr :=
  match l with [] => [] | i :: rest => mark i rest :: marked rest end.

Definition wf_instr (i : LocalInstr) : Prop :=
  match i with LoadLocal x _ => 0 <= EnvIndex g x | StoreLocal x _ _ => 0 <= EnvIndex g x | OtherInstr => True end.

Definition wf_scan (sc : Scan) : Prop :=
  wf_vector (variable_count g) (sc_kill sc) /\ wf_vector (variable_count g) (sc_live_in sc) /\ wf_vector (variable_count g) (sc_last_loads sc).
Definition scanned (l : list LocalInstr) (sc : Scan) : Prop :=
  wf_scan sc /\ forall v, 0 <= v < variable_count g ->
    contents (sc_kill sc) v = stored l v /\ contents (sc_live_in sc) v = loaded_first l v /\ contents (sc_last_loads sc) v = loaded l v.

Lemma visit_load_spec x last rest sc : 0 <= EnvIndex g x -> scanned rest sc ->
  exists sc', visit_load g x last sc = Some (mark (LoadLocal x last) rest, sc') /\ scanned (LoadLocal x last :: rest) sc'.
Proof using.
  intros Hx [(Hk & Hi & Hl) Hc]. unfold visit_load, mark. rewrite (proj1 Hi). destruct (Z.leb_spec (variable_count g) (EnvIndex g x)) as [Ht|Ht].
  - exists sc. split; [done|]. split; [done|]. intros v Hv. destruct (Hc v Hv) as (H1 & H2 & H3). cbn. destruct (Z.eqb_spec (EnvIndex g x) v); [lia|done].
  - destruct (BitVector_Add_spec _ _ Hi (EnvIndex g x)) as (i' & -> & Hi' & Hci); [lia|]. cbn [mbind option_bind].
    rewrite (BitVector_Contains_spec _ _ Hl) by lia. cbn [mbind option_bind]. destruct (Hc (EnvIndex g x)) as (_ & _ & Hlx); [lia|]. rewrite Hlx.
    assert (Hgo : forall v, 0 <= v < variable_count g ->
      contents (sc_kill sc) v = stored (LoadLocal x last :: rest) v /\ contents i' v = loaded_first (LoadLocal x last :: rest) v).
    { intros v Hv. destruct (Hc v Hv) as (H1 & H2 & H3). cbn. rewrite Hci, Z.eqb_sym. split; [done|]. by destruct (EnvIndex g x =? v). }
    destruct (loaded rest (EnvIndex g x)) eqn:E; cbn [negb].
    + eexists. split; [reflexivity|]. split; [done|]. intros v Hv. destruct (Hgo v Hv) as [H1 H2]. split; [done|]. split; [done|].
      cbn. destruct (Hc v Hv) as (_ & _ & ->). destruct (Z.eqb_spec (EnvIndex g x) v) as [<-|]; [done|done].
    + destruct (BitVector_Add_spec _ _ Hl (EnvIndex g x)) as (l' & -> & Hl' & Hcl); [lia|]. cbn [mbind option_bind].
      eexists. split; [reflexivity|]. split; [done|]. intros v Hv. destruct (Hgo v Hv) as [H1 H2]. split; [done|]. split; [done|].
      cbn. rewrite Hcl, Z.eqb_sym. destruct (Hc v Hv) as (_ & _ & ->). by destruct (EnvIndex g x =? v).
Qed.
Lemma visit_store_spec x dead last rest sc : 0 <= EnvIndex g x -> scanned rest sc ->
  exists sc', visit_store g x dead last sc = Some (mark (StoreLocal x dead last) rest, sc') /\ scanned (StoreLocal x dead last :: rest) sc'.
Proof using.
  intros Hx [(Hk & Hi & Hl) Hc]. unfold visit_store, mark. rewrite (proj1 Hi). destruct (Z.leb_spec (variable_count g) (EnvIndex g x)) as [Ht|Ht].
  - exists sc. split; [done|]. split; [done|]. intros v Hv. destruct (Hc v Hv) as (H1 & H2 & H3). cbn. destruct (Z.eqb_spec (EnvIndex g x) v); [lia|done].
  - rewrite (BitVector_Contains_spec _ _ Hk), (BitVector_Contains_spec _ _ Hi) by lia. cbn [mbind option_bind].
    destruct (Hc (EnvIndex g x)) as (Hkx & Hix & _); [lia|]. rewrite Hkx, Hix.
    destruct (BitVector_Remove_spec _ _ Hi (EnvIndex g x)) as (i' & Hr & Hi' & Hci); [lia|].
    destruct (BitVector_Add_spec _ _ Hk (EnvIndex g x)) as (k' & Ha & Hk' & Hck); [lia|].
    assert (Hgo : forall k, wf_vector (variable_count g) k -> (forall v, 0 <= v < variable_count g -> contents k v = (EnvIndex g x =? v) || contents (sc_kill sc) v) ->
      scanned (StoreLocal x dead last :: rest) (MkScan k i' (sc_last_loads sc))).
    { intros k Hwk Hkc. split; [done|]. intros v Hv. destruct (Hc v Hv) as (H1 & H2 & H3). cbn. rewrite Hkc, Hci, (Z.eqb_sym v), H1, H2, H3 by done.
      by destruct (EnvIndex g x =? v). }
    destruct (stored rest (EnvIndex g x)) eqn:E; cbn [mbind option_bind].
    + rewrite Hr. cbn [mbind option_bind]. eexists. split; [by destruct (loaded_first rest (EnvIndex g x))|]. apply Hgo; [done|].
      intros v Hv. destruct (Z.eqb_spec (EnvIndex g x) v) as [<-|]; [by rewrite Hkx|done].
    + rewrite Ha. cbn [mbind option_bind]. rewrite Hr. cbn [mbind option_bind]. eexists. split; [by destruct (loaded_first rest (EnvIndex g x))|].
      apply Hgo; [done|]. intros v Hv. rewrite Hck, Z.eqb_sym. by destruct (EnvIndex g x =? v).
Qed.
Lemma scan_backward_spec l sc : Forall wf_instr l -> scanned [] sc ->
  exists sc', scan_backward g l sc = Some (marked l, sc') /\ scanned l sc'.
Proof using.
  intros Hw Hs. induction Hw as [|i l Hi Hw IH]; cbn [scan_backward marked]; [by exists sc|].
  destruct IH as (sc1 & -> & Hs1). cbn [mbind option_bind].
  destruct i as [x last|x dead last|]; cbn [visit_instr].
  - destruct (visit_load_spec x last l sc1 Hi Hs1) as (sc2 & -> & Hs2). by exists sc2.
  - destruct (visit_store_spec x dead last l sc1 Hi Hs1) as (sc2 & -> & Hs2). by exists sc2.
  - by exists sc1.
Qed.

(** The variables that a block defines at its entry. *)
Definition entry_defines (block : VBlock) (v : Z) : bool :=
  match entry block with
  | FunctionEntry => (v <? num_direct_parameters_ g) || match arg_desc_var g with Some x => EnvIndex g x =? v | None => false end
  | OsrEntry => true
  | CatchBlockEntry => v <? num_direct_parameters_ g
  | OtherEntry => false
  end.

Definition defined_by (D : Z -> bool) (sets sets' : BitVector * BitVector) : Prop :=
  wf_vector (variable_count g) (fst sets') /\ wf_vector (variable_count g) (snd sets') /\
  forall v, 0 <= v < variable_count g ->
    contents (fst sets') v = D v || contents (fst sets) v /\ contents (snd sets') v = negb (D v) && contents (snd sets) v.

Lemma define_at_entry_spec i sets : 0 <= i < variable_count g ->
  wf_vector (variable_count g) (fst sets) -> wf_vector (variable_count g) (snd sets) ->
  exists sets', define_at_entry i sets = Some sets' /\ defined_by (fun v => i =? v) sets sets'.
Proof using.
  destruct sets as [k l]. cbn. intros Hi Hk Hl. destruct (BitVector_Remove_spec _ _ Hl i Hi) as (l' & -> & Hl' & Hcl).
  destruct (BitVector_Add_spec _ _ Hk i Hi) as (k' & Ha & Hk' & Hck). cbn [mbind option_bind]. rewrite Ha. cbn [mbind option_bind].
  eexists. split; [reflexivity|]. split; [done|]. split; [done|]. intros v Hv. cbn. rewrite Hcl, Hck, Z.eqb_sym. by destruct (i =? v).
Qed.
Lemma defined_by_trans D1 D2 s1 s2 s3 : defined_by D1 s1 s2 -> defined_by D2 s2 s3 -> defined_by (fun v => D1 v || D2 v) s1 s3.
Proof using.
  intros (_ & _ & H1) (K & L & H2). split; [done|]. split; [done|]. intros v Hv. destruct (H1 v Hv) as [A1 B1], (H2 v Hv) as [A2 B2].
  rewrite A2, B2, A1, B1. by destruct (D1 v), (D2 v).
Qed.
Lemma define_parameters_spec m i sets : 0 <= i -> i + Z.of_nat m <= variable_count g ->
  wf_vector (variable_count g) (fst sets) -> wf_vector (variable_count g) (snd sets) ->
  exists sets', define_parameters m i sets = Some sets' /\ defined_by (fun v => (i <=? v) && (v <? i + Z.of_nat m)) sets sets'.
Proof using.
  revert i sets. induction m as [|m IH]; intros i sets Hi Hm Hk Hl; cbn [define_parameters].
  - exists sets. split; [done|]. split; [done|]. split; [done|]. intros v Hv. destruct (Z.leb_spec i v), (Z.ltb_spec v (i + Z.of_nat 0)); try lia; done.
  - destruct (define_at_entry_spec i sets) as (s1 & -> & H1); [lia|done|done|]. cbn [mbind option_bind].
    destruct (IH (i + 1) s1) as (s2 & -> & H2); [lia|lia|apply H1|apply H1|]. exists s2. split; [done|].
    destruct (defined_by_trans _ _ _ _ _ H1 H2) as (K & L & H3). split; [done|]. split; [done|]. intros v Hv. destruct (H3 v Hv) as [-> ->].
    replace ((i =? v) || (i + 1 <=? v) && (v <? i + 1 + Z.of_nat m)) with ((i <=? v) && (v <? i + Z.of_nat (S m))); [done|].
    destruct (Z.eqb_spec i v), (Z.leb_spec i v), (Z.leb_spec (i + 1) v), (Z.ltb_spec v (i + Z.of_nat (S m))), (Z.ltb_spec v (i + 1 + Z.of_nat m)); try lia; done.
Qed.
Definition wf_graph : Prop :=
  0 <= num_direct_parameters_ g /\ 0 <= num_stack_locals g /\
  (forall x, arg_desc_var g = Some x -> 0 <= EnvIndex g x < variable_count g) /\
  Forall (fun block => Forall wf_instr (instructions block)) (postorder_ g) /\ wf_blocks (flow <$> postorder_ g).

Lemma defined_by_refl D sets : wf_vector (variable_count g) (fst sets) -> wf_vector (variable_count g) (snd sets) ->
  (forall v, 0 <= v < variable_count g -> D v = false) -> defined_by D sets sets.
Proof using. intros Hk Hl HD. split; [done|]. split; [done|]. intros v Hv. by rewrite HD. Qed.
Lemma defined_by_ext D D' sets sets' : (forall v, 0 <= v < variable_count g -> D v = D' v) -> defined_by D sets sets' -> defined_by D' sets sets'.
Proof using. intros HD (Hk & Hl & H). split; [done|]. split; [done|]. intros v Hv. rewrite <- HD by done. by apply H. Qed.

Lemma define_entry_spec block sets : wf_graph -> wf_vector (variable_count g) (fst sets) -> wf_vector (variable_count g) (snd sets) ->
  exists sets', define_entry g block sets = Some sets' /\ defined_by (entry_defines block) sets sets'.
Proof using.
  intros (Hd & Hs & Harg & _) Hk Hl. unfold define_entry, entry_defines.
  assert (Hvc : num_direct_parameters_ g <= variable_count g) by (unfold variable_count; lia).
  assert (Hp : forall m, 0 <= m <= variable_count g -> exists sets', define_parameters (Z.to_nat m) 0 sets = Some sets' /\ defined_by (fun v => v <? m) sets sets').
  { intros m Hm. destruct (define_parameters_spec (Z.to_nat m) 0 sets) as (s' & He & Hs'); [lia|lia|done|done|]. exists s'. split; [done|].
    eapply defined_by_ext; [|done]. intros v Hv. cbn beta. rewrite Z2Nat.id by lia. destruct (Z.leb_spec 0 v); [done|lia]. }
  destruct (entry block); repeat (case_bool_decide; try done); cbn [orb].
  - destruct (Hp (num_direct_parameters_ g)) as (s1 & He & Hd1); [lia|]. rewrite He. cbn [mbind option_bind].
    destruct (arg_desc_var g) as [x|] eqn:Ex.
    + destruct (define_at_entry_spec (EnvIndex g x) s1) as (s2 & -> & Hd2); [by apply Harg|apply Hd1|apply Hd1|]. exists s2. split; [done|].
      by eapply defined_by_trans.
    + exists s1. split; [done|]. eapply defined_by_ext; [|done]. intros v _. by rewrite orb_false_r.
  - destruct (Hp (variable_count g)) as (s1 & He & Hd1); [lia|]. rewrite He. exists s1. split; [done|].
    eapply defined_by_ext; [|done]. intros v Hv. apply Z.ltb_lt. lia.
  - destruct (Hp (num_direct_parameters_ g)) as (s1 & He & Hd1); [lia|]. rewrite He. by exists s1.
  - exists sets. split; [done|]. by apply defined_by_refl.
Qed.

(** Inside a try block every variable counts as used and none as defined. *)
Definition block_use (block : VBlock) (v : Z) : bool :=
  InsideTryBlock block || (negb (entry_defines block v) && loaded_first (instructions block) v).
Definition block_def (block : VBlock) (v : Z) : bool :=
  negb (InsideTryBlock block) && (entry_defines block v || stored (instructions block) v).
Definition marked_block (block : VBlock) : VBlock :=
  if InsideTryBlock block then block else MkVBlock (flow block) (entry block) (try_index_ block) (marked (instructions block)).

Lemma initial_sets_of_spec block sc : wf_graph -> Forall wf_instr (instructions block) -> wf_scan sc ->
  (forall v, 0 <= v < variable_count g -> contents (sc_kill sc) v = false /\ contents (sc_live_in sc) v = false) ->
  exists sc', initial_sets_of g block sc = Some (marked_block block, sc') /\ wf_scan sc' /\
    forall v, 0 <= v < variable_count g -> contents (sc_kill sc') v = block_def block v /\ contents (sc_live_in sc') v = block_use block v.
Proof using.
  intros Hg Hw (Hk & Hi & Hl) H0. unfold initial_sets_of, marked_block, block_use, block_def.
  assert (Hvc : 0 <= variable_count g) by (destruct Hg as (? & ? & _); unfold variable_count; lia). pose proof (SizeFor_spec _ Hvc) as [_ Hsz].
  destruct (BitVector_Clear_spec _ _ Hl) as (l & -> & Hl' & Hcl). cbn [mbind option_bind]. destruct (InsideTryBlock block).
  - destruct (BitVector_SetAll_spec _ _ Hi) as (i & -> & Hi' & Hci). cbn [mbind option_bind]. eexists. split; [reflexivity|]. split; [done|].
    intros v Hv. cbn. split; [by apply H0|]. apply Hci. lia.
  - destruct (scan_backward_spec (instructions block) (MkScan (sc_kill sc) (sc_live_in sc) l) Hw) as (sc1 & -> & (Hk1 & Hi1 & Hl1) & Hsc1).
    { split; [done|]. intros v Hv. destruct (H0 v Hv). split; [done|]. split; [done|]. apply Hcl. lia. }
    cbn [mbind option_bind]. destruct (define_entry_spec block (sc_kill sc1, sc_live_in sc1) Hg Hk1 Hi1) as ([k2 i2] & -> & Hk2 & Hi2 & Hc2).
    cbn [mbind option_bind fst snd] in *. eexists. split; [reflexivity|]. split; [done|]. intros v Hv. cbn.
    destruct (Hc2 v Hv) as [-> ->], (Hsc1 v Hv) as (-> & -> & _). done.
Qed.

Lemma VariableLiveness_loop_spec (all : list VBlock) bs i last_loads s : wf_graph ->
  Forall (fun block => Forall wf_instr (instructions block)) bs -> 0 <= i -> i + zlen bs = zlen all ->
  wf_sets (variable_count g) (flow <$> all) (kill_ s) -> wf_sets (variable_count g) (flow <$> all) (live_in_ s) ->
  wf_vector (variable_count g) last_loads ->
  (forall j v, i <= j -> 0 <= v < variable_count g -> set_contains (kill_ s) j v = false /\ set_contains (live_in_ s) j v = false) ->
  exists s', VariableLiveness_loop g i bs last_loads s = Some (marked_block <$> bs, s') /\ live_out_ s' = live_out_ s /\
    wf_sets (variable_count g) (flow <$> all) (kill_ s') /\ wf_sets (variable_count g) (flow <$> all) (live_in_ s') /\
    forall j v, 0 <= v < variable_count g ->
      set_contains (kill_ s') j v = (if i <=? j then match arr_get bs (j - i) with Some b => block_def b v | None => set_contains (kill_ s) j v end else set_contains (kill_ s) j v) /\
      set_contains (live_in_ s') j v = (if i <=? j then match arr_get bs (j - i) with Some b => block_use b v | None => set_contains (live_in_ s) j v end else set_contains (live_in_ s) j v).
Proof using.
  intros Hg. revert i last_loads s. induction bs as [|block bs IH]; intros i last_loads s Hw Hi Hlen Hk Hin Hll H0; cbn [VariableLiveness_loop].
  - exists s. split; [done|]. split; [done|]. split; [done|]. split; [done|]. intros j v Hv. unfold arr_get. cbn. by destruct (i <=? j), (0 <=? j - i).
  - inversion_clear Hw as [|? ? Hw1 Hw2]. assert (Hir : 0 <= i < zlen (flow <$> all)) by (unfold zlen in *; rewrite length_fmap; cbn in Hlen; lia).
    destruct (wf_sets_get _ _ _ i Hk Hir) as (k & -> & Hwk & Hck). destruct (wf_sets_get _ _ _ i Hin Hir) as (l & -> & Hwl & Hcl). cbn [mbind option_bind].
    destruct (initial_sets_of_spec block (MkScan k l last_loads) Hg Hw1) as (sc & -> & (Hk1 & Hi1 & Hl1) & Hsc).
    { by split; [|split]. }
    { intros v Hv. cbn. rewrite <- Hck, <- Hcl. by apply H0. }
    cbn [mbind option_bind]. destruct (wf_sets_set _ _ _ i (sc_kill sc) Hk Hir Hk1) as (ks & Hks & Hwks). rewrite Hks. cbn [mbind option_bind].
    destruct (wf_sets_set _ _ _ i (sc_live_in sc) Hin Hir Hi1) as (ins & Hins & Hwins). rewrite Hins. cbn [mbind option_bind].
    destruct (IH (i + 1) (sc_last_loads sc) (MkLiveness (live_out_ s) ks ins)) as (s' & -> & Hout & Hk' & Hin' & Hc'); cbn [kill_ live_in_]; try done.
    + lia.
    + unfold zlen in *. cbn [length] in Hlen. lia.
    + intros j v Hj Hv. rewrite (set_contains_set _ _ _ _ _ _ Hks), (set_contains_set _ _ _ _ _ _ Hins). zifs; try lia. apply H0; lia.
    + exists s'. split; [done|]. split; [done|]. split; [done|]. split; [done|]. intros j v Hv. destruct (Hc' j v Hv) as [-> ->].
      cbn [kill_ live_in_]. rewrite (set_contains_set _ _ _ _ _ _ Hks), (set_contains_set _ _ _ _ _ _ Hins).
      destruct (Z.leb_spec i j), (Z.leb_spec (i + 1) j), (Z.eqb_spec i j); try lia; try done.
      * replace (arr_get (block :: bs) (j - i)) with (arr_get bs (j - (i + 1))); [done|].
        unfold arr_get. zifs; try lia. replace (Z.to_nat (j - i)) with (S (Z.to_nat (j - (i + 1)))) by lia. done.
      * subst j. rewrite Z.sub_diag. cbn. by apply Hsc.
Qed.
End Block.

(** ** The subclass keeps its promise *)
Definition variable_use (g : VGraph) (b v : Z) : Prop := exists block, arr_get (postorder_ g) b = Some block /\ block_use g block v = true.
Definition variable_def (g : VGraph) (b v : Z) : Prop := exists block, arr_get (postorder_ g) b = Some block /\ block_def g block v = true.

Lemma wf_graph_count g : wf_graph g -> 0 <= variable_count g /\ wf_blocks (flow <$> postorder_ g).
Proof. intros (? & ? & _ & _ & Hb). split; [unfold variable_count; lia|done]. Qed.
Lemma flow_marked g (blocks : list VBlock) : flow <$> (marked_block g <$> blocks) = flow <$> blocks.
Proof. rewrite <- list_fmap_compose. apply list_fmap_ext. intros i b _. unfold compose, marked_block. by destruct (InsideTryBlock b). Qed.

Lemma VariableLiveness_initial g : wf_graph g ->
  exists s, VariableLiveness_ComputeInitialSets g (new_sets (length (flow <$> postorder_ g)) (variable_count g)) =
      Some (with_postorder g (marked_block g <$> postorder_ g), s) /\
    wf_sets (variable_count g) (flow <$> postorder_ g) (live_in_ s) /\ wf_sets (variable_count g) (flow <$> postorder_ g) (kill_ s) /\
    live_out_ s = live_out_ (new_sets (length (flow <$> postorder_ g)) (variable_count g)) /\
    forall b v, 0 <= b < zlen (flow <$> postorder_ g) -> 0 <= v < variable_count g ->
      (set_contains (live_in_ s) b v = true <-> variable_use g b v) /\ (set_contains (kill_ s) b v = true <-> variable_def g b v).
Proof.
  intros Hg. destruct (wf_graph_count g Hg) as [Hn Hb]. unfold VariableLiveness_ComputeInitialSets.
  destruct (new_sets_spec (length (flow <$> postorder_ g)) (variable_count g) (flow <$> postorder_ g) Hn eq_refl) as [Hw He].
  destruct (VariableLiveness_loop_spec g (postorder_ g) (postorder_ g) 0 (BitVector_new (variable_count g))
    (new_sets (length (flow <$> postorder_ g)) (variable_count g)) Hg) as (s & -> & Hout & Hk & Hi & Hc); try done.
  - apply Hg.
  - by apply BitVector_new_spec.
  - exists s. split; [done|]. split; [done|]. split; [done|]. split; [done|]. intros b v Hbr Hv. destruct (Hc b v Hv) as [-> ->].
    rewrite Z.sub_0_r. unfold variable_use, variable_def. destruct (Z.leb_spec 0 b); [|lia].
    destruct (arr_get_lt (postorder_ g) b) as [block Hbl]; [unfold zlen in *; rewrite length_fmap in Hbr; lia|]. rewrite Hbl.
    split; (split; [intros Hu; by exists block|intros (block' & [= <-] & Hu); done]).
Qed.

#[export] Instance VariableLiveness_laws : LivenessClientLaws VGraph.
Proof.
  refine {| client_use := variable_use; client_def := variable_def; client_wf := wf_graph; client_blocks_wf := wf_graph_count |}.
  intros g Hg. destruct (VariableLiveness_initial g Hg) as (s & He & Hi & Hk & Ho & Hc). exists (with_postorder g (marked_block g <$> postorder_ g)), s.
  split; [exact He|]. split; [apply flow_marked|]. done.
Defined.

(** ** Reads *)
(** The value that [v] has before the instructions [l], the last ones of block
    [b], is loaded later: some path reaches a load of [v] before a store to [v]
    or a block entry that defines [v]. *)
Inductive loaded_later (g : VGraph) (v : Z) : Z -> list LocalInstr -> Prop :=
  | loaded_here b i l : loads g v i = true -> loaded_later g v b (i :: l)
  | loaded_skip b i l : stores g v i = false -> loaded_later g v b l -> loaded_later g v b (i :: l)
  | loaded_next b block b' block' :
      arr_get (postorder_ g) b = Some block -> b' ∈ successors (flow block) ->
      arr_get (postorder_ g) b' = Some block' -> entry_defines g block' v = false ->
      loaded_later g v b' (instructions block') -> loaded_later g v b [].
(** Some path is inside a try block before a store to [v] outside of one. *)
Inductive enters_try (g : VGraph) (v : Z) : Z -> list LocalInstr -> Prop :=
  | try_here b block l : arr_get (postorder_ g) b = Some block -> InsideTryBlock block = true -> enters_try g v b l
  | try_skip b i l : stores g v i = false -> enters_try g v b l -> enters_try g v b (i :: l)
  | try_next b block b' block' :
      arr_get (postorder_ g) b = Some block -> b' ∈ successors (flow block) ->
      arr_get (postorder_ g) b' = Some block' -> InsideTryBlock block' || negb (entry_defines g block' v) = true ->
      enters_try g v b' (instructions block') -> enters_try g v b [].
(** What the analysis takes for a read: a load, and every variable inside a try
    block, where any call may continue at the catch entry.  That is the
    approximation of the comment in [ComputeInitialSets]: a variable of a try block
    that neither the block nor the handler loads counts as read. *)
Inductive live_later (g : VGraph) (v : Z) : Z -> list LocalInstr -> Prop :=
  | read_in_try b block l : arr_get (postorder_ g) b = Some block -> InsideTryBlock block = true -> live_later g v b l
  | read_load b i l : loads g v i = true -> live_later g v b (i :: l)
  | read_skip b i l : stores g v i = false -> live_later g v b l -> live_later g v b (i :: l)
  | read_next b block b' block' :
      arr_get (postorder_ g) b = Some block -> b' ∈ successors (flow block) ->
      arr_get (postorder_ g) b' = Some block' -> InsideTryBlock block' || negb (entry_defines g block' v) = true ->
      live_later g v b' (instructions block') -> live_later g v b [].

Lemma live_later_iff g v b l : live_later g v b l <-> loaded_later g v b l \/ enters_try g v b l.
Proof.
  split.
  - induction 1 as [b block l Hb Ht|b i l Hi|b i l Hi _ [IH|IH]|b block b' block' Hb Hs Hb' Hok _ IH].
    + right. by eapply try_here.
    + left. by apply loaded_here.
    + left. by apply loaded_skip.
    + right. by apply try_skip.
    + destruct (InsideTryBlock block') eqn:Ht; [right; eapply try_next; [done..|by rewrite Ht|by eapply try_here]|].
      cbn in Hok. destruct IH as [IH|IH]; [left; eapply loaded_next; try done; by apply negb_true_iff|right; eapply try_next; try done; by rewrite Ht].
  - intros [H|H]; induction H; eauto using live_later.
    eapply read_next; try done. apply orb_true_iff. right. by apply negb_true_iff.
Qed.
(** Without try blocks the analysis is that of the loads. *)
Lemma enters_try_block g v b l : enters_try g v b l -> exists block, block ∈ postorder_ g /\ InsideTryBlock block = true.
Proof.
  induction 1 as [b block l Hb Ht| |]; [|done..]. exists block. split; [|done]. unfold arr_get in Hb. destruct (0 <=? b); [|done]. by eapply list_elem_of_lookup_2.
Qed.

Section Reads.
Context (g : VGraph) (Hg : wf_graph g) (v : Z).
Local Abbreviation live_in_block := (live_at_start (flow <$> postorder_ g) (variable_use g) (variable_def g) v).
Local Abbreviation live_out_block := (live_at_end (flow <$> postorder_ g) (variable_use g) (variable_def g) v).

Lemma loaded_first_read b l : loaded_first g l v = true -> live_later g v b l.
Proof using.
  induction l as [|i l IH]; [done|]. cbn. intros [Hl|[Hs Hl]%andb_true_iff]%orb_true_iff; [by apply read_load|].
  apply read_skip; [by apply negb_true_iff|by apply IH].
Qed.
Lemma untouched_read b l : stored g l v = false -> live_later g v b [] -> live_later g v b l.
Proof using.
  induction l as [|i l IH]; [done|]. cbn. intros [Hs Hl]%orb_false_iff Hr. apply read_skip; [done|by apply IH].
Qed.

(** A path of the analysis reads. *)
Lemma live_read b block : live_in_block b -> arr_get (postorder_ g) b = Some block ->
  InsideTryBlock block || negb (entry_defines g block v) = true /\ live_later g v b (instructions block).
Proof using Hg.
  intros Hl. revert block. induction Hl as [b (block' & Hb & Hu)|b fb b' Hfb Hb' Hd Hl IH]; intros block Hbl.
  - assert (block' = block) as -> by congruence. unfold block_use in Hu. destruct (InsideTryBlock block) eqn:Ht; cbn [orb] in *.
    + split; [done|]. by eapply read_in_try.
    + apply andb_true_iff in Hu as [He Hu]. split; [done|by apply loaded_first_read].
  - rewrite arr_get_fmap, Hbl in Hfb. cbn in Hfb. injection Hfb as <-.
    assert (Hb'r : 0 <= b' < zlen (flow <$> postorder_ g)) by (eapply (wf_graph_count g Hg); [rewrite arr_get_fmap, Hbl; done|done]).
    destruct (arr_get_lt (postorder_ g) b') as [block' Hbl']; [unfold zlen in *; rewrite length_fmap in Hb'r; lia|].
    destruct (IH _ Hbl') as [Hok Hr]. destruct (InsideTryBlock block) eqn:Ht; [split; [done|]; by eapply read_in_try|].
    assert (Hnd : block_def g block v = false) by (apply not_true_is_false; intros H; apply Hd; by exists block).
    unfold block_def in Hnd. rewrite Ht in Hnd. cbn [negb andb] in Hnd. apply orb_false_iff in Hnd as [He Hs]. rewrite He. split; [done|].
    apply untouched_read; [done|]. by eapply read_next.
Qed.
(** What is read is live, at the start of a block and behind any instruction. *)
Lemma read_live b l block pre : live_later g v b l -> arr_get (postorder_ g) b = Some block -> instructions block = pre ++ l ->
  InsideTryBlock block = true \/ loaded_first g l v = true \/ (stored g l v = false /\ loaded g l v = false /\ live_out_block b).
Proof using Hg.
  intros Hr. revert block pre. induction Hr as [b bl l Hb Ht|b i l Hi|b i l Hi Hr IH|b bl b' block' Hb Hb' Hbl' Hok Hr IH]; intros block pre Hbl Hl.
  - left. congruence.
  - right. left. cbn. by rewrite Hi.
  - destruct (IH block (pre ++ [i]) Hbl) as [Ht|[Hf|(Hs & Hn & Ho)]]; [by rewrite <- app_assoc|by left| |].
    + right. left. cbn. rewrite Hi, Hf. apply orb_true_r.
    + right. unfold stored, loaded in *. cbn. rewrite Hi, Hs, Hn. destruct (loads g v i); [by left|by right].
  - right. right. split; [done|]. split; [done|]. exists (flow bl), b'. rewrite arr_get_fmap, Hb. split; [done|]. split; [done|].
    destruct (IH block' [] Hbl' eq_refl) as [Ht|[Hf|(Hs & Hn & fb & b2 & Hfb & Hb2 & Hl2)]].
    + left. exists block'. split; [done|]. unfold block_use. by rewrite Ht.
    + left. exists block'. split; [done|]. unfold block_use. destruct (InsideTryBlock block'); [done|]. cbn [orb] in *. by rewrite Hok, Hf.
    + destruct (InsideTryBlock block') eqn:Ht; [left; exists block'; split; [done|]; unfold block_use; by rewrite Ht|]. cbn [orb] in Hok.
      eapply live_through; [done|done| |done]. intros (bl2 & Hbl2 & Hd). assert (bl2 = block') as -> by congruence.
      unfold block_def in Hd. apply negb_true_iff in Hok. by rewrite Hok, Hs, andb_false_r in Hd.
Qed.
Lemma live_out_read b block : live_out_block b -> arr_get (postorder_ g) b = Some block -> live_later g v b [].
Proof using Hg.
  intros (fb & b' & Hfb & Hb' & Hl) Hbl. rewrite arr_get_fmap, Hbl in Hfb. cbn in Hfb. injection Hfb as <-.
  assert (Hb'r : 0 <= b' < zlen (flow <$> postorder_ g)) by (eapply (wf_graph_count g Hg); [rewrite arr_get_fmap, Hbl; done|done]).
  destruct (arr_get_lt (postorder_ g) b') as [block' Hbl']; [unfold zlen in *; rewrite length_fmap in Hb'r; lia|].
  destruct (live_read b' block' Hl Hbl') as [Hok Hr]. by eapply read_next.
Qed.
End Reads.

Lemma marked_lookup g pre i rest : marked g (pre ++ i :: rest) !! length pre = Some (mark g i rest).
Proof. induction pre as [|j pre IH]; [done|]. cbn. apply IH. Qed.
Lemma loaded_first_loaded g l v : loaded_first g l v = true -> loaded g l v = true.
Proof.
  unfold loaded. induction l as [|i l IH]; [done|]. cbn. intros [->|[_ Hl]%andb_true_iff]%orb_true_iff; [done|]. rewrite IH by done. apply orb_true_r.
Qed.

(** The number of rounds of the iteration is below this. *)
Definition rounds (g : VGraph) : nat := length (postorder_ g) * Z.to_nat (64 * SizeFor (variable_count g)).

Lemma Analyze_variables g fuel : wf_graph g -> (rounds g < fuel)%nat ->
  exists s, Analyze fuel g = Some (with_postorder g (marked_block g <$> postorder_ g), s) /\
    (wf_sets (variable_count g) (flow <$> postorder_ g) (kill_ s) /\ wf_sets (variable_count g) (flow <$> postorder_ g) (live_out_ s)) /\
    forall b v, 0 <= b < zlen (postorder_ g) -> 0 <= v < variable_count g ->
      (set_contains (kill_ s) b v = true <-> variable_def g b v) /\
      (set_contains (live_out_ s) b v = true <-> live_at_end (flow <$> postorder_ g) (variable_use g) (variable_def g) v b).
Proof.
  intros Hg Hf. destruct (VariableLiveness_initial g Hg) as (s0 & Hi & _ & _ & _ & Hk0).
  destruct (@Analyze_exact VGraph VariableLiveness VariableLiveness_laws g fuel Hg) as (g' & s0' & s & Hi' & Ha & Hk & (_ & Hw1 & Hw2) & Hc).
  { unfold rounds in Hf. cbn. by rewrite length_fmap. }
  cbn [ComputeInitialSets VariableLiveness client_postorder variable_count_] in *. rewrite Hi in Hi'. injection Hi' as <- <-.
  exists s. split; [done|]. split; [done|]. intros b v Hb Hv.
  assert (Hb' : 0 <= b < zlen (flow <$> postorder_ g)) by (unfold zlen in *; by rewrite length_fmap).
  split; [rewrite Hk; by apply Hk0|by apply Hc].
Qed.

(** A block and its instructions after the analysis, and its live-out set. *)
Lemma after_marks g b block pre i rest : arr_get (postorder_ g) b = Some block -> instructions block = pre ++ i :: rest ->
  arr_get (postorder_ (with_postorder g (marked_block g <$> postorder_ g))) b = Some (marked_block g block) /\
  instructions (marked_block g block) !! length pre = Some (if InsideTryBlock block then i else mark g i rest).
Proof.
  intros Hb Hl. cbn. rewrite arr_get_fmap, Hb. split; [done|]. unfold marked_block.
  destruct (InsideTryBlock block); cbn [instructions]; rewrite Hl; [by rewrite lookup_app_r, Nat.sub_diag|apply marked_lookup].
Qed.
Lemma live_out_query g s b block v : wf_graph g -> wf_sets (variable_count g) (flow <$> postorder_ g) (live_out_ s) ->
  arr_get (postorder_ g) b = Some block -> 0 <= v < variable_count g ->
  exists out, arr_get (live_out_ s) (postorder_number (flow (marked_block g block))) = Some out /\
    BitVector_Contains out v = Some (set_contains (live_out_ s) b v).
Proof.
  intros Hg Hw Hb Hv. assert (Hb' : arr_get (flow <$> postorder_ g) b = Some (flow block)) by (by rewrite arr_get_fmap, Hb).
  destruct (proj2 (wf_graph_count g Hg) _ _ Hb') as [Hnum _].
  destruct (wf_sets_get _ _ _ b Hw (arr_get_Some _ _ _ Hb')) as (out & Ho & Hwo & Hco). exists out.
  replace (flow (marked_block g block)) with (flow block) by (unfold marked_block; by destruct (InsideTryBlock block)).
  rewrite Hnum. split; [done|]. rewrite Hco. by apply (BitVector_Contains_spec (variable_count g)).
Qed.
Lemma wf_graph_instr g b block pre i rest : wf_graph g -> arr_get (postorder_ g) b = Some block -> instructions block = pre ++ i :: rest -> wf_instr g i.
Proof.
  intros (_ & _ & _ & Hw & _) Hb Hl. unfold arr_get in Hb. zif_in Hb; [|done]. pose proof (Forall_lookup_1 _ _ _ _ Hw Hb) as Hwb. cbn in Hwb.
  rewrite Hl in Hwb. apply Forall_app in Hwb as [_ Hwb]. by inversion Hwb.
Qed.

(** The answer for a tracked variable in a block outside try blocks. *)
Lemma mark_alive g b block pre x rest out : wf_graph g -> arr_get (postorder_ g) b = Some block ->
  instructions block = pre ++ StoreLocal x false false :: rest -> InsideTryBlock block = false -> EnvIndex g x < variable_count g ->
  (out = true <-> live_at_end (flow <$> postorder_ g) (variable_use g) (variable_def g) (EnvIndex g x) b) ->
  exists dead last, mark g (StoreLocal x false false) rest = StoreLocal x dead last /\
    ((if dead : bool then false else if last : bool then out else true) = true <-> live_later g (EnvIndex g x) b rest).
Proof.
  intros Hg Hb Hl Ht Hx Hout. unfold mark. destruct (Z.leb_spec (variable_count g) (EnvIndex g x)); [lia|].
  assert (Hr : live_later g (EnvIndex g x) b rest -> loaded_first g rest (EnvIndex g x) = true \/ stored g rest (EnvIndex g x) = false /\ out = true).
  { intros Hr. destruct (read_live g Hg _ b rest block (pre ++ [StoreLocal x false false]) Hr Hb) as [?|[?|(Hs & _ & Ho)]];
      [by rewrite <- app_assoc|congruence|by left|right; split; [done|by apply Hout]]. }
  destruct (loaded_first g rest (EnvIndex g x)) eqn:El; [|destruct (stored g rest (EnvIndex g x)) eqn:Es]; eexists _, _; (split; [reflexivity|]); cbn.
  - split; [|done]. intros _. by apply loaded_first_read.
  - split; [done|]. intros [?|[? _]]%Hr; done.
  - split; [|by intros [?|[_ ?]]%Hr]. intros Ho. apply untouched_read; [done|]. eapply live_out_read; [done|by apply Hout|done].
Qed.

(** C16: the analysis ends, and SSA construction then takes a store to be alive
    exactly if it is one to the context variable or to a temporary, or if some
    path of the flow graph loads the stored value, or if some path is inside a
    try block before the value is overwritten (the store's own block included):
    there every variable counts as read, the approximation that the code
    documents.  So a store that is dropped is never loaded, and in a graph without
    try blocks every other store to a tracked variable is loaded on some path. *)
Theorem IsStoreAlive_exact g fuel : wf_graph g -> (rounds g < fuel)%nat ->
  exists g' s, Analyze fuel g = Some (g', s) /\
  forall b block pre x rest, arr_get (postorder_ g) b = Some block -> instructions block = pre ++ StoreLocal x false false :: rest ->
    exists block' dead last alive, arr_get (postorder_ g') b = Some block' /\
      instructions block' !! length pre = Some (StoreLocal x dead last) /\ IsStoreAlive g' s block' x dead last = Some alive /\
      (alive = true <-> LocalVariable_Equals x (current_context_var g) = true \/ variable_count g <= EnvIndex g x \/
        loaded_later g (EnvIndex g x) b rest \/ enters_try g (EnvIndex g x) b rest) /\
      ((forall other, other ∈ postorder_ g -> InsideTryBlock other = false) -> ~ enters_try g (EnvIndex g x) b rest).
Proof.
  intros Hg Hf. destruct (Analyze_variables g fuel Hg Hf) as (s & Ha & (_ & Hwo) & Hc). eexists _, s. split; [exact Ha|].
  intros b block pre x rest Hb Hl. pose proof (wf_graph_instr _ _ _ _ _ _ Hg Hb Hl) as Hx. cbn in Hx.
  destruct (after_marks g b block pre _ rest Hb Hl) as [Hb' Hi].
  assert (Hno : (forall other, other ∈ postorder_ g -> InsideTryBlock other = false) -> ~ enters_try g (EnvIndex g x) b rest)
    by (intros Hall (other & Hin & Ho)%enters_try_block; by rewrite Hall in Ho).
  setoid_rewrite <- live_later_iff.
  destruct (InsideTryBlock block) eqn:Ht.
  { eexists _, _, _, true. split; [exact Hb'|]. split; [exact Hi|]. split; [unfold IsStoreAlive; by destruct (LocalVariable_Equals _ _)|].
    split; [|done]. split; [|done]. intros _. right. right. by eapply read_in_try. }
  destruct (Z.lt_ge_cases (EnvIndex g x) (variable_count g)) as [Hlt|Hge].
  2: { cbn [mark] in Hi. destruct (Z.leb_spec (variable_count g) (EnvIndex g x)); [|lia].
    eexists _, _, _, true. split; [exact Hb'|]. split; [exact Hi|]. split; [unfold IsStoreAlive; by destruct (LocalVariable_Equals _ _)|].
    split; [|done]. split; [|done]. intros _. by right; left. }
  destruct (live_out_query g s b block (EnvIndex g x) Hg Hwo Hb) as (out & Ho & Hco); [lia|].
  destruct (mark_alive g b block pre x rest (set_contains (live_out_ s) b (EnvIndex g x)) Hg Hb Hl Ht Hlt) as (dead & last & Hm & Hiff).
  { apply Hc; [by eapply arr_get_Some|lia]. }
  rewrite Hm in Hi. unfold IsStoreAlive. cbn [current_context_var with_postorder].
  change (EnvIndex (with_postorder g (marked_block g <$> postorder_ g)) x) with (EnvIndex g x).
  destruct (LocalVariable_Equals x (current_context_var g)) eqn:Ex.
  - eexists _, dead, last, true. split; [exact Hb'|]. split; [exact Hi|]. split; [done|]. split; [|done]. tauto.
  - eexists _, dead, last, _. split; [exact Hb'|]. split; [exact Hi|]. split; [rewrite Ho; cbn [mbind option_bind]; rewrite Hco|].
    + instantiate (1 := if dead then false else if last then set_contains (live_out_ s) b (EnvIndex g x) else true). by destruct dead, last.
    + split; [|done]. rewrite Hiff. split; [by right; right|]. intros [?|[?|?]]; [done|lia|done].
Qed.

(** A load that is taken to be the last one of its variable is not followed by
    another load of the same value, so its register may be forgotten. *)
Theorem IsLastLoad_sound g fuel : wf_graph g -> (rounds g < fuel)%nat ->
  exists g' s, Analyze fuel g = Some (g', s) /\
  forall b block pre x rest, arr_get (postorder_ g) b = Some block -> instructions block = pre ++ LoadLocal x false :: rest ->
    exists block' last r, arr_get (postorder_ g') b = Some block' /\ instructions block' !! length pre = Some (LoadLocal x last) /\
      IsLastLoad g' s block' x last = Some r /\ (r = true -> ~ live_later g (EnvIndex g x) b rest).
Proof.
  intros Hg Hf. destruct (Analyze_variables g fuel Hg Hf) as (s & Ha & (_ & Hwo) & Hc). eexists _, s. split; [exact Ha|].
  intros b block pre x rest Hb Hl. pose proof (wf_graph_instr _ _ _ _ _ _ Hg Hb Hl) as Hx. cbn in Hx.
  destruct (after_marks g b block pre _ rest Hb Hl) as [Hb' Hi]. exists (marked_block g block). unfold IsLastLoad. cbn [current_context_var with_postorder].
  change (EnvIndex (with_postorder g (marked_block g <$> postorder_ g)) x) with (EnvIndex g x).
  assert (Hno : forall last, instructions (marked_block g block) !! length pre = Some (LoadLocal x last) ->
    last = false \/ LocalVariable_Equals x (current_context_var g) = true ->
    exists last r, arr_get (postorder_ (with_postorder g (marked_block g <$> postorder_ g))) b = Some (marked_block g block) /\
      instructions (marked_block g block) !! length pre = Some (LoadLocal x last) /\
      (if LocalVariable_Equals x (current_context_var g) then Some false else if last : bool then
         live_out ← arr_get (live_out_ s) (postorder_number (flow (marked_block g block))); negb <$> BitVector_Contains live_out (EnvIndex g x)
       else Some false) = Some r /\ (r = true -> ~ live_later g (EnvIndex g x) b rest)).
  { intros last Hlast Hor. exists last, false. split; [done|]. split; [done|]. split; [|done].
    destruct (LocalVariable_Equals _ _); [done|]. destruct Hor as [->|?]; done. }
  destruct (InsideTryBlock block) eqn:Ht; [by apply (Hno false); [|left]|]. cbn [mark] in Hi.
  destruct (Z.leb_spec (variable_count g) (EnvIndex g x)) as [Hge|Hlt]; [by apply (Hno false); [|left]|].
  destruct (loaded g rest (EnvIndex g x)) eqn:El; cbn [negb] in Hi; [by apply (Hno false); [|left]|].
  destruct (LocalVariable_Equals x (current_context_var g)) eqn:Ex; [by apply (Hno true); [|right]|].
  destruct (live_out_query g s b block (EnvIndex g x) Hg Hwo Hb) as (out & Ho & Hco); [lia|].
  eexists true, _. split; [exact Hb'|]. split; [exact Hi|]. split; [rewrite Ho; cbn [mbind option_bind]; rewrite Hco; reflexivity|].
  intros Hn%negb_true_iff Hr. destruct (read_live g Hg _ b rest block (pre ++ [LoadLocal x false]) Hr Hb) as [?|[Hlf|(_ & _ & Hlive)]];
    [by rewrite <- app_assoc|congruence|by rewrite (loaded_first_loaded _ _ _ Hlf) in El|].
  apply Hc in Hlive; [congruence|by eapply arr_get_Some|lia].
Qed.

(** ** Assigned variables *)
Definition assigned_set (g : VGraph) (s : LivenessAnalysis) (number : Z) (x : BitVector) : Prop :=
  exists block, arr_get (postorder_ g) number = Some block /\ wf_vector (variable_count g) x /\
    forall v, 0 <= v < variable_count g ->
      contents x v = InsideTryBlock block || (set_contains (kill_ s) number v && set_contains (live_out_ s) number v).

Lemma ComputeAssignedVars_loop_spec g pre s assigned : 0 <= variable_count g -> NoDup pre -> Forall (fun b => 0 <= b < zlen (postorder_ g)) pre ->
  wf_sets (variable_count g) (flow <$> postorder_ g) (kill_ s) -> wf_sets (variable_count g) (flow <$> postorder_ g) (live_out_ s) ->
  exists new s', ComputeAssignedVars_loop g pre s assigned = Some (assigned ++ new, s') /\ Forall2 (assigned_set g s) pre new.
Proof.
  intros Hn. pose proof (SizeFor_spec _ Hn) as [_ Hsz]. revert s assigned.
  induction pre as [|b pre IH]; intros s assigned Hd Hr Hk Ho; cbn [ComputeAssignedVars_loop].
  - exists [], s. rewrite app_nil_r. split; [done|constructor].
  - apply list.NoDup_cons in Hd as [Hnin Hd]. inversion_clear Hr as [|? ? Hb Hr']. destruct (arr_get_lt (postorder_ g) b Hb) as [block Hbl]. rewrite Hbl.
    assert (Hb' : 0 <= b < zlen (flow <$> postorder_ g)) by (unfold zlen in *; by rewrite length_fmap).
    destruct (wf_sets_get _ _ _ b Hk Hb') as (k & Hgk & Hwk & Hck). destruct (wf_sets_get _ _ _ b Ho Hb') as (o & Hgo & Hwo & Hco).
    rewrite Hgk, Hgo. cbn [mbind option_bind].
    assert (Hx : exists x, (if InsideTryBlock block then BitVector_SetAll k else BitVector_Intersect k o) = Some x /\ wf_vector (variable_count g) x /\
      forall v, 0 <= v < variable_count g -> contents x v = InsideTryBlock block || (contents k v && contents o v)).
    { destruct (InsideTryBlock block).
      - destruct (BitVector_SetAll_spec _ _ Hwk) as (x & -> & Hwx & Hcx). exists x. split; [done|]. split; [done|]. intros v Hv. apply Hcx. lia.
      - destruct (BitVector_Intersect_spec _ _ Hwk o Hwo) as (x & -> & Hwx & Hcx). exists x. split; [done|]. split; [done|]. intros v Hv. apply Hcx. lia. }
    destruct Hx as (x & -> & Hwx & Hcx). cbn [mbind option_bind].
    destruct (wf_sets_set _ _ _ b x Hk Hb' Hwx) as (kills & Hks & Hwks). rewrite Hks. cbn [mbind option_bind].
    destruct (IH (MkLiveness (live_out_ s) kills (live_in_ s)) (assigned ++ [x]) Hd Hr' Hwks Ho) as (new & s' & -> & Hf).
    exists (x :: new), s'. rewrite <- app_assoc. split; [done|]. constructor.
    + exists block. split; [done|]. split; [done|]. intros v Hv. by rewrite Hck, Hco, Hcx.
    + clear - Hf Hnin Hks. cbn in Hf. induction Hf as [|b' y pre' new (bl & Hbl & Hwy & Hcy) Hf IHf]; constructor.
      * exists bl. split; [done|]. split; [done|]. intros v Hv. rewrite Hcy by done. cbn. rewrite (set_contains_set _ _ _ _ _ _ Hks).
        destruct (Z.eqb_spec b b') as [->|]; [|done]. destruct Hnin. left.
      * apply IHf. intros Hin. apply Hnin. by right.
Qed.
(** Phis are inserted for the variables that a block assigns and that are live
    at its end, and for all variables inside a try block. *)
Theorem ComputeAssignedVars_exact g fuel : wf_graph g -> (rounds g < fuel)%nat ->
  NoDup (preorder_ g) -> Forall (fun b => 0 <= b < zlen (postorder_ g)) (preorder_ g) ->
  exists g' s assigned s', Analyze fuel g = Some (g', s) /\ ComputeAssignedVars g' s = Some (assigned, s') /\
    Forall2 (fun b x => exists block, arr_get (postorder_ g) b = Some block /\
      forall v, 0 <= v < variable_count g ->
        (contents x v = true <-> InsideTryBlock block = true \/
          (variable_def g b v /\ live_at_end (flow <$> postorder_ g) (variable_use g) (variable_def g) v b))) (preorder_ g) assigned.
Proof.
  intros Hg Hf Hd Hr. destruct (Analyze_variables g fuel Hg Hf) as (s & Ha & (Hwk & Hwo) & Hc).
  set (g' := with_postorder g (marked_block g <$> postorder_ g)) in *.
  assert (Hlen : zlen (postorder_ g') = zlen (postorder_ g)) by (unfold zlen; cbn; by rewrite length_fmap).
  assert (Hflow : flow <$> postorder_ g' = flow <$> postorder_ g) by apply flow_marked.
  destruct (ComputeAssignedVars_loop_spec g' (preorder_ g) s [] (proj1 (wf_graph_count g Hg)) Hd) as (assigned & s' & Hca & Hall);
    [by rewrite Hlen|by rewrite Hflow..|].
  exists g', s, assigned, s'. split; [exact Ha|]. split; [exact Hca|]. eapply Forall2_impl; [|exact Hall].
  intros b x (block' & Hb' & _ & Hx). cbn in Hb'. rewrite arr_get_fmap in Hb'. destruct (arr_get (postorder_ g) b) as [block|] eqn:Hb; [|done].
  injection Hb' as <-. exists block. split; [done|]. intros v Hv. rewrite Hx by done.
  replace (InsideTryBlock (marked_block g block)) with (InsideTryBlock block) by (unfold marked_block; by destruct (InsideTryBlock block) eqn:E).
  destruct (Hc b v (arr_get_Some _ _ _ Hb) Hv) as [<- <-]. by rewrite orb_true_iff, andb_true_iff.
Qed.

(** ** An example *)
(** A loop that writes a variable twice and then reads it behind the loop; the
    entry stores to another variable that nothing reads. *)
Definition example_context : LocalVariable := MkLocal 0 false 0.
Definition example_x : LocalVariable := MkLocal (-1) false 0.
Definition example_y : LocalVariable := MkLocal (-2) false 0.
Definition example_graph : VGraph :=
  MkVGraph 1 3 example_context None [2; 1; 0]
    [MkVBlock (MkFlowBlock 0 []) OtherEntry (-1) [LoadLocal example_x false; OtherInstr];
     MkVBlock (MkFlowBlock 1 [0; 1]) OtherEntry (-1) [StoreLocal example_x false false; OtherInstr; StoreLocal example_x false false];
     MkVBlock (MkFlowBlock 2 [1]) FunctionEntry (-1) [StoreLocal example_y false false; StoreLocal example_context false false]].
Lemma example_graph_wf : wf_graph example_graph.
Proof.
  split; [done|]. split; [done|]. split; [done|]. split; [repeat constructor; done|].
  intros i block Hi. pose proof (arr_get_Some _ _ _ Hi) as Hr. change (zlen _) with 3 in *.
  assert (i = 0 \/ i = 1 \/ i = 2) as [-> |[-> | ->]] by lia; injection Hi as <-; (split; [done|]); intros s Hs;
    repeat (apply elem_of_cons in Hs as [->|Hs]; [lia|]); by apply not_elem_of_nil in Hs.
Qed.
(** What the definitions compute on it. *)
Example example_stores :
  match Analyze 1000 example_graph with
  | Some (g', s) =>
      (fun block => (fun i => match i with StoreLocal x dead last => IsStoreAlive g' s block x dead last | _ => None end) <$> instructions block) <$> postorder_ g'
  | None => []
  end = [[None; None]; [Some false; None; Some true]; [Some false; Some true]].
Proof. vm_compute. reflexivity. Qed.
Lemma IsStoreAlive_exact_witness :
  exists g' s, Analyze 1000 example_graph = Some (g', s) /\
  exists block' dead last alive, arr_get (postorder_ g') 1 = Some block' /\
      instructions block' !! 2%nat = Some (StoreLocal example_x dead last) /\ IsStoreAlive g' s block' example_x dead last = Some alive /\
      (alive = true <-> LocalVariable_Equals example_x (current_context_var example_graph) = true \/
        variable_count example_graph <= EnvIndex example_graph example_x \/ loaded_later example_graph (EnvIndex example_graph example_x) 1 [] \/
        enters_try example_graph (EnvIndex example_graph example_x) 1 []) /\
      ((forall other, other ∈ postorder_ example_graph -> InsideTryBlock other = false) -> ~ enters_try example_graph (EnvIndex example_graph example_x) 1 []).
Proof.
  destruct (IsStoreAlive_exact example_graph 1000 example_graph_wf ltac:(vm_compute; lia)) as (g' & s & Ha & H).
  exists g', s. split; [exact Ha|].
  exact (H 1 (MkVBlock (MkFlowBlock 1 [0; 1]) OtherEntry (-1) [StoreLocal example_x false false; OtherInstr; StoreLocal example_x false false])
    [StoreLocal example_x false false; OtherInstr] example_x [] eq_refl eq_refl).
Defined.
