(* ===== verification/FreeList.v ===== *)
(** * The free list of old space (src/runtime/vm/heap/freelist.{h,cc})

    [FreeListElement] headers live in the heap: [mem] maps an address to the
    header there (the tags, the link and, for large elements, the size word
    behind it), and [writable] says which pages may be written. [None] is a
    memory fault: a dereferenced [NULL] or a write to a protected page. The
    page size is a parameter. Locking is left out: every operation runs under
    the mutex. *)
From stdpp Require Import gmap sorting.
From S2P Require Import Prelude Utils BitSet.
Local Open Scope Z_scope.
Local Open Scope vm_scope.

(** ** Elements *)
Definition kObjectAlignment : Z := 2 * kWordSize.
Definition kObjectAlignmentLog2 : Z := kWordSizeLog2 + 1.
Definition kSizeTagPos : Z := 8.
Definition kSizeTagSize : Z := 8.
Definition kClassIdTagPos : Z := 16.
Definition kClassIdTagSize : Z := 16.
Definition kOldAndNotMarkedBit : Z := 1.
Definition kNewBit : Z := 2.
Definition kOldBit : Z := 3.
Definition kOldAndNotRememberedBit : Z := 4.
Definition kFreeListElement : Z := 2.
Definition kMaxSizeTag : Z := ((1 <<< kSizeTagSize) - 1) <<< kObjectAlignmentLog2.

Definition SizeToTagValue (size : Z) : Z := if size >? kMaxSizeTag then 0 else size >>> kObjectAlignmentLog2.
Definition SizeTag_update (size tag : Z) : Z := BitField_update kSizeTagPos kSizeTagSize (SizeToTagValue size) tag.
Definition SizeTag_decode (tag : Z) : Z := BitField_decode kSizeTagPos kSizeTagSize tag <<< kObjectAlignmentLog2.

Record Element := MkElement { tags_ : Z; next_ : Z; size_word : Z }.
Definition HeapSize (e : Element) : Z :=
  let size := SizeTag_decode (tags_ e) in
  if negb (size =? 0) then size else size_word e.
Definition HeaderSizeFor (size : Z) : Z :=
  if size =? 0 then 0 else (if size >? kMaxSizeTag then 3 else 2) * kWordSize.
(** The header that [AsElement] writes; [old] is the size word there before. *)
Definition element_header (old size : Z) : Element :=
  let tags := SizeTag_update size 0 in
  let tags := BitField_update kClassIdTagPos kClassIdTagSize kFreeListElement tags in
  let tags := BitField_update kOldBit 1 1 tags in
  let tags := BitField_update kOldAndNotMarkedBit 1 1 tags in
  let tags := BitField_update kOldAndNotRememberedBit 1 1 tags in
  let tags := BitField_update kNewBit 1 0 tags in
  MkElement tags 0 (if size >? kMaxSizeTag then size else old).

(** ** The free list *)
Definition kNumLists : Z := 128.
Definition kInitialFreeListSearchBudget : Z := 1000.

Record FreeList := MkFreeList {
  mem : gmap Z Element;
  writable : Z -> bool;
  free_map_ : list Z;
  free_lists_ : list Z;
  freelist_search_budget_ : Z;
  last_free_small_size_ : Z }.
Definition set_mem (st : FreeList) m : FreeList :=
  MkFreeList m (writable st) (free_map_ st) (free_lists_ st) (freelist_search_budget_ st) (last_free_small_size_ st).
Definition set_writable (st : FreeList) w : FreeList :=
  MkFreeList (mem st) w (free_map_ st) (free_lists_ st) (freelist_search_budget_ st) (last_free_small_size_ st).
Definition set_free_map (st : FreeList) m : FreeList :=
  MkFreeList (mem st) (writable st) m (free_lists_ st) (freelist_search_budget_ st) (last_free_small_size_ st).
Definition set_free_lists (st : FreeList) l : FreeList :=
  MkFreeList (mem st) (writable st) (free_map_ st) l (freelist_search_budget_ st) (last_free_small_size_ st).
Definition set_budget (st : FreeList) b : FreeList :=
  MkFreeList (mem st) (writable st) (free_map_ st) (free_lists_ st) b (last_free_small_size_ st).
Definition set_last (st : FreeList) s : FreeList :=
  MkFreeList (mem st) (writable st) (free_map_ st) (free_lists_ st) (freelist_search_budget_ st) s.

Definition IndexForSize (size : Z) : Z :=
  let index := size >>> kObjectAlignmentLog2 in
  if index >=? kNumLists then kNumLists else index.

Section FreeList.
Context (page_size : Z).

Definition InSamePage (address0 address1 : Z) : bool := RoundDown address0 page_size =? RoundDown address1 page_size.
Inductive Protection := kReadWrite | kReadExecute.
(** [mprotect] applies to the pages that the range touches. *)
Definition Protect (st : FreeList) (address size : Z) (mode : Protection) : FreeList :=
  let page_address := RoundDown address page_size in
  set_writable st (fun page =>
    if (page_address <=? page * page_size) && (page * page_size <? address + size)
    then match mode with kReadWrite => true | kReadExecute => false end
    else writable st page).
Definition can_write (st : FreeList) (address : Z) : bool := writable st (address / page_size).

Definition set_next (st : FreeList) (element next : Z) : option FreeList :=
  e ← mem st !! element;
  if can_write st (element + kWordSize) then Some (set_mem st (<[element := MkElement (tags_ e) next (size_word e)]> (mem st))) else None.
Definition AsElement (st : FreeList) (addr size : Z) : option FreeList :=
  if can_write st addr && (if size >? kMaxSizeTag then can_write st (addr + 2 * kWordSize) else true)
  then
    let old := match mem st !! addr with Some e => size_word e | None => 0 end in
    Some (set_mem st (<[addr := element_header old size]> (mem st)))
  else None.

Definition EnqueueElement (st : FreeList) (element index : Z) : option FreeList :=
  next ← arr_get (free_lists_ st) index;
  st ← (if (next =? 0) && negb (index =? kNumLists) then
          free_map ← BitSet_Set (free_map_ st) index true;
          Some (set_last (set_free_map st free_map)
                  (Maximum (last_free_small_size_ st) (index <<< kObjectAlignmentLog2)))
        else Some st);
  st ← set_next st element next;
  free_lists ← arr_set (free_lists_ st) index element;
  Some (set_free_lists st free_lists).

(** The element and the new state. *)
Definition DequeueElement (st : FreeList) (index : Z) : option (Z * FreeList) :=
  result ← arr_get (free_lists_ st) index;
  e ← mem st !! result;
  let next := next_ e in
  st ← (if (next =? 0) && negb (index =? kNumLists) then
          if index <<< kObjectAlignmentLog2 =? last_free_small_size_ st then
            '(previous, free_map) ← ClearLastAndFindPrevious (free_map_ st) index;
            Some (set_last (set_free_map st free_map) (previous * kObjectAlignment))
          else
            free_map ← BitSet_Set (free_map_ st) index false;
            Some (set_free_map st free_map)
        else Some st);
  free_lists ← arr_set (free_lists_ st) index next;
  Some (result, set_free_lists st free_lists).

Definition SplitElementAfterAndEnqueue (st : FreeList) (element size : Z) (is_protected : bool) : option FreeList :=
  e ← mem st !! element;
  let remainder_size := HeapSize e - size in
  if remainder_size =? 0 then Some st
  else
    let remainder_address := element + size in
    st ← AsElement st remainder_address remainder_size;
    st ← EnqueueElement st remainder_address (IndexForSize remainder_size);
    Some (if is_protected && negb (InSamePage (remainder_address - 1) remainder_address)
          then Protect st remainder_address remainder_size kReadExecute else st).

(** [previous->set_next(current->next())], unprotecting the link if needed. *)
Definition unlink (st : FreeList) (previous current region_size : Z) (is_protected : bool) : option FreeList :=
  e ← mem st !! current;
  if previous =? 0 then
    free_lists ← arr_set (free_lists_ st) kNumLists (next_ e);
    Some (set_free_lists st free_lists)
  else
    let writable_start := current in
    let writable_end := writable_start + region_size - 1 in
    let target_address := previous + kWordSize in
    let target_is_protected :=
      is_protected && (negb (InSamePage target_address writable_start) && negb (InSamePage target_address writable_end)) in
    let st := if target_is_protected then Protect st target_address kWordSize kReadWrite else st in
    st ← set_next st previous (next_ e);
    Some (if target_is_protected then Protect st target_address kWordSize kReadExecute else st).

(** The search of the list of large elements; 0 is [NULL]. *)
Fixpoint search_large (fuel : nat) (st : FreeList) (size : Z) (is_protected : bool) (previous current tries_left : Z)
    : option (Z * FreeList) :=
  match fuel with
  | O => None
  | S fuel =>
      if current =? 0 then Some (0, st)
      else
        e ← mem st !! current;
        if HeapSize e >=? size then
          let remainder_size := HeapSize e - size in
          let region_size := size + HeaderSizeFor remainder_size in
          let st := if is_protected then Protect st current region_size kReadWrite else st in
          st ← unlink st previous current region_size is_protected;
          st ← SplitElementAfterAndEnqueue st current size is_protected;
          Some (current, set_budget st (Minimum tries_left kInitialFreeListSearchBudget))
        else if tries_left <? 0 then Some (0, set_budget st kInitialFreeListSearchBudget)
        else search_large fuel st size is_protected current (next_ e) (tries_left - 1)
  end.

Definition TryAllocateLocked (st : FreeList) (size : Z) (is_protected : bool) : option (Z * FreeList) :=
  let index := IndexForSize size in
  small ← (if negb (index =? kNumLists) then BitSet_Test (free_map_ st) index else Some false);
  if (small : bool) then
    '(element, st) ← DequeueElement st index;
    Some (element, if is_protected then Protect st element size kReadWrite else st)
  else
    next_index ← (if index + 1 <? kNumLists then BitSet_Next (free_map_ st) (index + 1) else Some (-1));
    if negb (next_index =? -1) then
      '(element, st) ← DequeueElement st next_index;
      e ← mem st !! element;
      let region_size := size + HeaderSizeFor (HeapSize e - size) in
      let st := if is_protected then Protect st element region_size kReadWrite else st in
      st ← SplitElementAfterAndEnqueue st element size is_protected;
      Some (element, st)
    else
      first ← arr_get (free_lists_ st) kNumLists;
      search_large (S (base.size (mem st))) st size is_protected 0 first
        (freelist_search_budget_ st + (size >>> kWordSizeLog2)).

Definition TryAllocateSmallLocked (st : FreeList) (size : Z) : option (Z * FreeList) :=
  if size >? last_free_small_size_ st then Some (0, st)
  else
    let index := IndexForSize size in
    small ← (if negb (index =? kNumLists) then BitSet_Test (free_map_ st) index else Some false);
    if (small : bool) then DequeueElement st index
    else
      next_index ← (if index + 1 <? kNumLists then BitSet_Next (free_map_ st) (index + 1) else Some (-1));
      if negb (next_index =? -1) then
        '(element, st) ← DequeueElement st next_index;
        st ← SplitElementAfterAndEnqueue st element size false;
        Some (element, st)
      else Some (0, st).

Fixpoint search_whole (fuel : nat) (st : FreeList) (minimum_size previous current tries_left : Z) : option (Z * FreeList) :=
  match fuel with
  | O => None
  | S fuel =>
      if current =? 0 then Some (0, st)
      else
        e ← mem st !! current;
        if HeapSize e >=? minimum_size then
          st ← unlink st previous current 0 false;
          Some (current, set_budget st (Minimum tries_left kInitialFreeListSearchBudget))
        else if tries_left <? 0 then Some (0, set_budget st kInitialFreeListSearchBudget)
        else search_whole fuel st minimum_size current (next_ e) (tries_left - 1)
  end.
Definition TryAllocateLargeLocked (st : FreeList) (minimum_size : Z) : option (Z * FreeList) :=
  first ← arr_get (free_lists_ st) kNumLists;
  search_whole (S (base.size (mem st))) st minimum_size 0 first
    (freelist_search_budget_ st + (minimum_size >>> kWordSizeLog2)).

Definition FreeLocked (st : FreeList) (addr size : Z) : option FreeList :=
  let index := IndexForSize size in
  st ← AsElement st addr size;
  EnqueueElement st addr index.

Definition Reset (st : FreeList) : FreeList :=
  MkFreeList (mem st) (writable st) (BitSet_Reset kNumLists) (replicate (Z.to_nat (kNumLists + 1)) 0)
    (freelist_search_budget_ st) (-1).
Definition FreeList_new (m : gmap Z Element) (w : Z -> bool) : FreeList :=
  Reset (MkFreeList m w [] [] kInitialFreeListSearchBudget 0).

Fixpoint Length_loop (fuel : nat) (st : FreeList) (element result : Z) : option Z :=
  match fuel with
  | O => None
  | S fuel => if element =? 0 then Some result else e ← mem st !! element; Length_loop fuel st (next_ e) (result + 1)
  end.
Definition LengthLocked (st : FreeList) (index : Z) : option Z :=
  first ← arr_get (free_lists_ st) index; Length_loop (S (base.size (mem st))) st first 0.
End FreeList.

(** ** Free granules

    The abstract state: the 16-byte granules that are free. *)
Definition block : Type := Z * Z.
Definition granules (b : block) : list Z := seqZ (b.1 / 16) (b.2 / 16).
Definition granules_of (bs : list block) : list Z := bs ≫= granules.
Definition free_granules (L : list (list block)) : list Z := granules_of (mjoin L).

(** An address inside of a block, in granules. *)
Definition good_block (b : block) : Prop := (16 | b.1) /\ (16 | b.2) /\ 0 < b.1 /\ 16 <= b.2.

Lemma elem_granules b g : good_block b -> g ∈ granules b <-> b.1 <= 16 * g < b.1 + b.2.
Proof.
  intros ([x Hx] & [y Hy] & Ha & Hs). unfold granules. rewrite elem_of_seqZ, Hx, Hy, !Z.div_mul by lia. lia.
Qed.
Lemma granules_cons b bs : granules_of (b :: bs) = granules b ++ granules_of bs.
Proof. done. Qed.
Lemma granules_app bs1 bs2 : granules_of (bs1 ++ bs2) = granules_of bs1 ++ granules_of bs2.
Proof. apply bind_app. Qed.
Lemma granules_split a s1 s2 : (16 | s1) -> 0 <= s1 -> (16 | s2) -> 0 <= s2 -> (16 | a) ->
  granules (a, s1 + s2) = granules (a, s1) ++ granules (a + s1, s2).
Proof.
  intros [x ->] Hx [y ->] Hy [z ->]. unfold granules. cbn [fst snd].
  rewrite <- !Z.mul_add_distr_r, !Z.div_mul by lia. rewrite seqZ_app by lia. done.
Qed.
Lemma in_granules_of b bs g : b ∈ bs -> g ∈ granules b -> g ∈ granules_of bs.
Proof. intros Hb Hg. apply list_elem_of_bind. by exists b. Qed.

(** The lists other than [i]. *)
Lemma free_granules_at L i l : L !! i = Some l ->
  exists G, free_granules L ≡ₚ granules_of l ++ G /\
    forall l', free_granules (<[i := l']> L) ≡ₚ granules_of l' ++ G.
Proof.
  intros Hi. exists (granules_of (mjoin (take i L)) ++ granules_of (mjoin (drop (S i) L))). unfold free_granules.
  assert (H : forall l', mjoin (take i L ++ l' :: drop (S i) L) = mjoin (take i L) ++ l' ++ mjoin (drop (S i) L))
    by (intros l'; by rewrite join_app).
  split.
  - rewrite <- (take_drop_middle L i l Hi) at 1. rewrite H, !granules_app. by rewrite Permutation_app_swap_app.
  - intros l'. rewrite insert_take_drop by by eapply lookup_lt_Some. rewrite H, !granules_app. by rewrite Permutation_app_swap_app.
Qed.

(** ** The representation *)
Fixpoint chain (m : gmap Z Element) (p : Z) (l : list block) : Prop :=
  match l with
  | [] => p = 0
  | (a, s) :: l => p = a /\ exists e, m !! a = Some e /\ HeapSize e = s /\ chain m (next_ e) l
  end.

Record wf_free (st : FreeList) (L : list (list block)) : Prop := {
  wf_lists : zlen L = kNumLists + 1 /\ zlen (free_lists_ st) = kNumLists + 1;
  wf_chain : forall i l p, arr_get L i = Some l -> arr_get (free_lists_ st) i = Some p -> chain (mem st) p l;
  wf_block : forall i l b, arr_get L i = Some l -> b ∈ l -> good_block b /\ IndexForSize b.2 = i;
  wf_disjoint : NoDup (free_granules L);
  wf_map : wf_bits (free_map_ st) /\ zlen (free_map_ st) = 2;
  wf_member : forall i l, arr_get L i = Some l -> i < kNumLists -> member (free_map_ st) i = bool_decide (l <> []);
  wf_last : (last_free_small_size_ st < 0 /\ forall j, member (free_map_ st) j = false) \/
    (exists k, last_free_small_size_ st = 16 * k /\ member (free_map_ st) k = true /\
       forall j, k < j -> member (free_map_ st) j = false) }.

Lemma IndexForSize_spec s : (16 | s) -> 16 <= s -> IndexForSize s = if s <? 2048 then s / 16 else 128.
Proof.
  intros [x ->] Hs. unfold IndexForSize, kObjectAlignmentLog2, kNumLists. change (kWordSizeLog2 + 1) with 4.
  rewrite Z.shiftr_div_pow2 by lia. change (2 ^ 4) with 16. rewrite Z.div_mul, Z.geb_leb by lia. repeat zif; lia.
Qed.
Lemma IndexForSize_range s : (16 | s) -> 16 <= s -> 1 <= IndexForSize s <= 128.
Proof. intros [x ->] Hs. rewrite IndexForSize_spec by (done || by exists x). rewrite Z.div_mul by lia. zif; lia. Qed.

(** The size survives in the header. *)
Lemma HeapSize_header old size next : (16 | size) -> 16 <= size ->
  HeapSize (MkElement (tags_ (element_header old size)) next (size_word (element_header old size))) = size.
Proof.
  intros [x ->] Hs. unfold HeapSize, element_header, SizeTag_decode, SizeTag_update. cbn [tags_ size_word].
  assert (H1 : forall v, v = 0 \/ v = 1 -> is_uint 1 v) by (unfold is_uint; lia).
  assert (Hx : is_uint 8 (SizeToTagValue (x * 16))).
  { unfold SizeToTagValue, kMaxSizeTag, kSizeTagSize, kObjectAlignmentLog2. change (kWordSizeLog2 + 1) with 4.
    rewrite Z.shiftr_div_pow2 by lia. change (2 ^ 4) with 16. rewrite Z.div_mul by lia.
    change (((1 <<< 8) - 1) <<< 4) with 4080. unfold is_uint. zif; lia. }
  rewrite !BitField_decode_other by (unfold kNewBit, kOldAndNotRememberedBit, kOldAndNotMarkedBit, kOldBit, kClassIdTagPos,
    kClassIdTagSize, kSizeTagPos, kSizeTagSize, kFreeListElement, is_uint in *; lia).
  rewrite BitField_decode_update by (done || unfold kSizeTagPos, kSizeTagSize; lia).
  unfold SizeToTagValue, kObjectAlignmentLog2. change (kWordSizeLog2 + 1) with 4.
  change kMaxSizeTag with 4080. rewrite Z.shiftr_div_pow2 by lia. change (2 ^ 4) with 16. rewrite Z.div_mul by lia.
  rewrite Z.gtb_ltb. destruct (Z.ltb_spec 4080 (x * 16)); [done|].
  rewrite Z.shiftl_mul_pow2 by lia. change (2 ^ 4) with 16. destruct (Z.eqb_spec (x * 16) 0); [lia|done].
Qed.

Lemma chain_frame m p l a e : chain m p l -> a ∉ l.*1 -> chain (<[a := e]> m) p l.
Proof.
  revert p. induction l as [|[b s] l IH]; intros p; [done|]. intros [-> (e' & He & Hs & Hc)] [Hne Hni]%not_elem_of_cons.
  split; [done|]. exists e'. rewrite lookup_insert_ne by done. split; [done|]. split; [done|]. by apply IH.
Qed.
Lemma chain_in m p l a : chain m p l -> a ∈ l.*1 -> exists e, m !! a = Some e.
Proof.
  revert p. induction l as [|[b s] l IH]; intros p; [by intros _ Ha%not_elem_of_nil|].
  intros [-> (e & He & _ & Hc)] [->|Ha]%elem_of_cons; [by exists e|by eapply IH].
Qed.

Section Wf.
Context (st : FreeList) (L : list (list block)) (Hwf : wf_free st L).

Lemma list_at i : 0 <= i <= 128 -> exists l p, arr_get L i = Some l /\ arr_get (free_lists_ st) i = Some p /\ chain (mem st) p l.
Proof using Hwf.
  intros Hi. destruct (wf_lists _ _ Hwf) as [H1 H2]. unfold kNumLists in *.
  destruct (arr_get_lt L i) as [l Hl]; [lia|]. destruct (arr_get_lt (free_lists_ st) i) as [p Hp]; [lia|].
  exists l, p. split; [done|]. split; [done|]. by apply (wf_chain _ _ Hwf i).
Qed.
Lemma arr_lookup i l : arr_get L i = Some l -> L !! Z.to_nat i = Some l.
Proof using. unfold arr_get. zif; done. Qed.

(** A block of a list is free. *)
Lemma block_free i l b g : arr_get L i = Some l -> b ∈ l -> g ∈ granules b -> g ∈ free_granules L.
Proof using.
  intros Hl Hb Hg. eapply in_granules_of; [|done]. apply list_elem_of_join. exists l.
  split; [done|]. apply arr_lookup in Hl. by eapply list_elem_of_lookup_2.
Qed.
Lemma head_free i l b : arr_get L i = Some l -> b ∈ l -> b.1 / 16 ∈ free_granules L.
Proof using Hwf.
  intros Hl Hb. destruct (wf_block _ _ Hwf i l b Hl Hb) as [Hg _]. eapply block_free; [done|done|].
  apply elem_granules; [done|]. destruct Hg as ([x Hx] & _ & ? & ?). rewrite Hx, Z.div_mul by lia. lia.
Qed.
(** The header of a block that is not free is not part of a list. *)
Lemma not_linked i l r : arr_get L i = Some l -> (16 | r) -> r / 16 ∉ free_granules L -> r ∉ l.*1.
Proof using Hwf.
  intros Hl Hr Hn ([a s] & -> & Hin)%list_elem_of_fmap. apply Hn. by apply (head_free i l (a, s)).
Qed.
(** Distinct blocks of a list have distinct addresses. *)
Lemma addresses_nodup i l : arr_get L i = Some l -> NoDup (l.*1).
Proof using Hwf.
  intros Hl. destruct (free_granules_at L (Z.to_nat i) l (arr_lookup i l Hl)) as (G & HG & _).
  pose proof (wf_disjoint _ _ Hwf) as Hnd. rewrite HG in Hnd. apply list.NoDup_app in Hnd as (Hnd & _ & _).
  assert (Hgood : forall b, b ∈ l -> good_block b) by (intros b Hb; by apply (wf_block _ _ Hwf i l b Hl)).
  clear -Hnd Hgood. induction l as [|[a s] l IH]; [constructor|]. rewrite granules_cons in Hnd.
  apply list.NoDup_app in Hnd as (_ & Hd & Hnd). constructor; [|apply IH; [done|intros; apply Hgood; by right]].
  intros ([a' s'] & He & Hin)%list_elem_of_fmap. cbn in He. subst a'.
  assert (H1 : good_block (a, s)) by (apply Hgood; by left). assert (H2 : good_block (a, s')) by (apply Hgood; by right).
  assert (Ha : forall s, good_block (a, s) -> a / 16 ∈ granules (a, s)).
  { intros s0 Hg. apply elem_granules; [done|]. destruct Hg as ([x Hx] & _ & ? & ?). cbn in *. rewrite Hx, Z.div_mul by lia. lia. }
  apply (Hd (a / 16)); [by apply Ha|]. eapply in_granules_of; [done|]. by apply Ha.
Qed.
End Wf.

(** Changing one list. *)
Lemma wf_change st L i l l' p' st' :
  wf_free st L -> arr_get L i = Some l -> free_lists_ st' = <[Z.to_nat i := p']> (free_lists_ st) ->
  chain (mem st') p' l' ->
  (forall j l0 p0, j <> i -> arr_get L j = Some l0 -> chain (mem st) p0 l0 -> chain (mem st') p0 l0) ->
  (forall b, b ∈ l' -> good_block b /\ IndexForSize b.2 = i) ->
  NoDup (free_granules (<[Z.to_nat i := l']> L)) ->
  wf_bits (free_map_ st') /\ zlen (free_map_ st') = 2 ->
  (i < kNumLists -> member (free_map_ st') i = bool_decide (l' <> [])) ->
  (forall j, j <> i -> member (free_map_ st') j = member (free_map_ st) j) ->
  (last_free_small_size_ st' < 0 /\ forall j, member (free_map_ st') j = false) \/
    (exists k, last_free_small_size_ st' = 16 * k /\ member (free_map_ st') k = true /\
       forall j, k < j -> member (free_map_ st') j = false) ->
  wf_free st' (<[Z.to_nat i := l']> L).
Proof.
  intros Hwf Hl Hfl Hc Hcs Hb Hnd Hbits Hm Hms Hlast. destruct (wf_lists _ _ Hwf) as [H1 H2]. unfold zlen in H1, H2.
  pose proof (arr_get_Some _ _ _ Hl) as Hi. unfold zlen in Hi.
  assert (Hget : forall {A} (x : A) (xs : list A) j, length xs = length L -> arr_get (<[Z.to_nat i := x]> xs) j = if j =? i then Some x else arr_get xs j).
  { intros A x xs j Hlen. unfold arr_get. destruct (Z.eqb_spec j i) as [->|Hne].
    - zif; [|lia]. rewrite list_lookup_insert_eq by lia. done.
    - zif; [|done]. by rewrite list_lookup_insert_ne by lia. }
  split; try done.
  - unfold zlen. rewrite Hfl, !length_insert. lia.
  - intros j l0 p0. rewrite Hfl, !Hget by lia. destruct (Z.eqb_spec j i) as [->|Hne]; [by intros [= <-] [= <-]|].
    intros Hl0 Hp0. apply (Hcs j); [done|done|]. by apply (wf_chain _ _ Hwf j).
  - intros j l0 b. rewrite Hget by lia. destruct (Z.eqb_spec j i) as [->|Hne]; [intros [= <-]; apply Hb|]. by apply (wf_block _ _ Hwf).
  - intros j l0. rewrite Hget by lia. destruct (Z.eqb_spec j i) as [->|Hne]; [by intros [= <-]|].
    intros Hl0 Hj. rewrite Hms by done. by apply (wf_member _ _ Hwf).
Qed.

Section Ops.
Context (k : Z) (Hk : 4 <= k).
Abbreviation page_size := (2 ^ k).

(** An empty list has the null pointer, and the others have not. *)
Lemma chain_null m p l : chain m p l -> (forall b, b ∈ l -> good_block b) -> p = 0 <-> l = [].
Proof using.
  destruct l as [|[a s] l]; cbn; [done|]. intros [-> _] Hg. split; [|done]. intros ->.
  destruct (Hg (0, s)) as (_ & _ & H & _); [by left|]. cbn in H. lia.
Qed.
Lemma member_out2 st L : wf_free st L -> forall j, j < 0 \/ 128 <= j -> member (free_map_ st) j = false.
Proof using. intros Hwf j Hj. apply member_out. destruct (wf_map _ _ Hwf) as [_ ->]. lia. Qed.

(** The map and the largest size after an insertion. *)
Lemma enqueue_map st L i l p : wf_free st L -> 1 <= i <= 128 -> arr_get L i = Some l -> arr_get (free_lists_ st) i = Some p ->
  exists st', (if (p =? 0) && negb (i =? kNumLists) then
       free_map ← BitSet_Set (free_map_ st) i true;
       Some (set_last (set_free_map st free_map) (Maximum (last_free_small_size_ st) (i <<< kObjectAlignmentLog2)))
     else Some st) = Some st' /\
    mem st' = mem st /\ writable st' = writable st /\ free_lists_ st' = free_lists_ st /\
    freelist_search_budget_ st' = freelist_search_budget_ st /\
    wf_bits (free_map_ st') /\ zlen (free_map_ st') = 2 /\
    (i < kNumLists -> member (free_map_ st') i = true) /\
    (forall j, j <> i -> member (free_map_ st') j = member (free_map_ st) j) /\
    ((last_free_small_size_ st' < 0 /\ forall j, member (free_map_ st') j = false) \/
     (exists k, last_free_small_size_ st' = 16 * k /\ member (free_map_ st') k = true /\
        forall j, k < j -> member (free_map_ st') j = false)).
Proof using.
  intros Hwf Hi Hl Hp. destruct (wf_map _ _ Hwf) as [Hb Hz]. unfold kNumLists.
  assert (Hn : p = 0 <-> l = []) by (apply (chain_null (mem st)); [by apply (wf_chain _ _ Hwf i)|intros b Hb'; by apply (wf_block _ _ Hwf i l)]).
  destruct ((p =? 0) && negb (i =? 128)) eqn:E.
  - zbool. destruct (BitSet_Set_spec (free_map_ st) Hb i true) as (fm & -> & Hb' & Hz' & Hmem); [lia|].
    eexists. split; [reflexivity|]. cbn. do 5 (split; [done || lia|]). split; [lia|]. split; [intros _; rewrite Hmem; by rewrite Z.eqb_refl|].
    split; [intros j Hj; rewrite Hmem; by destruct (Z.eqb_spec j i)|]. right.
    rewrite Maximum_eq. replace (i <<< kObjectAlignmentLog2) with (16 * i).
    2: { unfold kObjectAlignmentLog2. change (kWordSizeLog2 + 1) with 4. rewrite Z.shiftl_mul_pow2 by lia. lia. }
    destruct (wf_last _ _ Hwf) as [[Hneg Hall]|(k0 & Hk0 & Hm0 & Hgt)].
    + exists i. split; [lia|]. split; [rewrite Hmem; by rewrite Z.eqb_refl|]. intros j Hj. rewrite Hmem.
      destruct (Z.eqb_spec j i); [lia|apply Hall].
    + exists (Z.max k0 i). split; [lia|]. split.
      * rewrite Hmem. destruct (Z.eqb_spec (Z.max k0 i) i); [done|]. by replace (Z.max k0 i) with k0 by lia.
      * intros j Hj. rewrite Hmem. destruct (Z.eqb_spec j i); [lia|]. apply Hgt. lia.
  - exists st. split; [done|]. do 6 (split; [done|]). split; [|split; [done|apply Hwf]]. intros Hi128.
    rewrite (wf_member _ _ Hwf i l Hl) by done. apply bool_decide_eq_true_2. intros Hnil. apply Hn in Hnil. zbool. lia.
Qed.

Lemma FreeLocked_spec st L r s :
  wf_free st L -> good_block (r, s) -> NoDup (granules (r, s) ++ free_granules L) ->
  (forall x, r <= x < r + HeaderSizeFor s -> can_write page_size st x = true) ->
  exists st' L', FreeLocked page_size st r s = Some st' /\ wf_free st' L' /\
    free_granules L' ≡ₚ granules (r, s) ++ free_granules L /\ writable st' = writable st /\
    freelist_search_budget_ st' = freelist_search_budget_ st.
Proof using Hk.
  intros Hwf Hg Hnd Hw. pose proof Hg as (Hr16 & Hs16 & Hr & Hs). cbn in Hr16, Hs16, Hr, Hs.
  unfold HeaderSizeFor in Hw. change kWordSize with 8 in Hw. change kMaxSizeTag with 4080 in Hw.
  assert (H16 : (if s >? 4080 then 3 else 2) * 8 >= 16) by (zif; lia).
  destruct (Z.eqb_spec s 0) as [|_]; [lia|].
  pose proof (IndexForSize_range s Hs16 Hs) as Hi. set (i := IndexForSize s) in *.
  destruct (list_at st L Hwf i ltac:(lia)) as (l & p & Hl & Hp & Hc).
  assert (Hrn : r / 16 ∉ free_granules L).
  { apply list.NoDup_app in Hnd as (_ & Hd & _). apply Hd. apply elem_granules; [done|]. cbn.
    destruct Hr16 as [x ->]. rewrite Z.div_mul by lia. lia. }
  unfold FreeLocked, AsElement. fold i. rewrite Hw by lia. change kMaxSizeTag with 4080. change (2 * kWordSize) with 16. cbn [andb].
  replace (if s >? 4080 then can_write page_size st (r + 16) else true) with true.
  2: { symmetry. destruct (s >? 4080) eqn:E; [|done]. apply Hw. lia. }
  cbn [mbind option_bind]. set (old := match mem st !! r with Some _ => _ | None => _ end).
  set (st1 := set_mem st (<[r := element_header old s]> (mem st))).
  assert (Hframe : forall j l0 p0 e, arr_get L j = Some l0 -> chain (mem st) p0 l0 -> chain (<[r := e]> (mem st)) p0 l0).
  { intros j l0 p0 e Hl0 Hc0. apply chain_frame; [done|]. by apply (not_linked st L Hwf j). }
  assert (Hwf1 : wf_free st1 L).
  { destruct Hwf. split; try done. intros j l0 p0 Hl0 Hp0. apply (Hframe j); [done|]. by apply (wf_chain0 j). }
  unfold EnqueueElement. change (free_lists_ st1) with (free_lists_ st). rewrite Hp. cbn [mbind option_bind].
  destruct (enqueue_map st1 L i l p Hwf1 Hi Hl Hp) as (st2 & -> & Hm2 & Hw2 & Hf2 & Hbu2 & Hb2 & Hz2 & Hmi & Hmj & Hlast).
  cbn [mbind option_bind]. unfold set_next. rewrite Hm2. cbn [st1 set_mem mem]. rewrite lookup_insert_eq. cbn [mbind option_bind].
  replace (can_write page_size st2 (r + kWordSize)) with true.
  2: { symmetry. unfold can_write. rewrite Hw2. apply (Hw (r + 8)). lia. }
  rewrite insert_insert_eq. cbn [mbind option_bind set_mem free_lists_]. rewrite Hf2. change (free_lists_ st1) with (free_lists_ st).
  destruct (arr_set (free_lists_ st) i r) as [fl|] eqn:Efl.
  2: { exfalso. unfold arr_set in Efl. pose proof (arr_get_Some _ _ _ Hp) as Hpi. unfold zlen in Hpi. zif_in Efl; [done|lia]. }
  cbn [mbind option_bind]. apply arr_set_Some in Efl as [_ ->]. pose proof (arr_lookup L i l Hl) as Hln.
  destruct (free_granules_at L (Z.to_nat i) l Hln) as (G & HG & HG'). specialize (HG' ((r, s) :: l)).
  assert (Hperm : free_granules (<[Z.to_nat i := (r, s) :: l]> L) ≡ₚ granules (r, s) ++ free_granules L).
  { rewrite HG', HG, granules_cons. by rewrite app_assoc. }
  eexists _, (<[Z.to_nat i := (r, s) :: l]> L). split; [reflexivity|]. split; [|split; [done|split; [done|done]]].
  eapply (wf_change st L i l ((r, s) :: l)); try done; cbn.
  - split; [done|]. eexists. rewrite lookup_insert_eq. split; [reflexivity|]. split; [by apply HeapSize_header|].
    cbn. by apply (Hframe i).
  - intros j l0 p0 _ Hl0. by apply (Hframe j).
  - intros b [->|Hb]%elem_of_cons; [done|]. by apply (wf_block _ _ Hwf i l).
  - by rewrite Hperm.
Qed.

(** ** Protection of pages *)
Lemma page_pos : 0 < page_size.
Proof using Hk. apply Z.pow_pos_nonneg; lia. Qed.
Lemma granule_page g x : 16 * g <= x < 16 * g + 16 -> x / page_size = 16 * g / page_size.
Proof using Hk.
  intros Hx. replace page_size with (16 * 2 ^ (k - 4)) by (change 16 with (2 ^ 4); rewrite <- Z.pow_add_r by lia; f_equal; lia).
  assert (0 < 2 ^ (k - 4)) by (apply Z.pow_pos_nonneg; lia). rewrite <- !Z.div_div by lia. f_equal.
  rewrite (Z.mul_comm 16 g), Z.div_mul by lia. symmetry. apply Z.div_unique with (x - 16 * g); lia.
Qed.
Lemma granule_write st g x : 16 * g <= x < 16 * g + 16 -> can_write page_size st x = can_write page_size st (16 * g).
Proof using Hk. intros Hx. unfold can_write. by rewrite (granule_page g x Hx). Qed.

Lemma Protect_rw st a sz x : a <= x < a + sz -> can_write page_size (Protect page_size st a sz kReadWrite) x = true.
Proof using Hk.
  intros Hx. unfold can_write, Protect. cbn. rewrite RoundDown_eq by lia. pose proof page_pos.
  pose proof (Z.div_le_mono a x page_size ltac:(lia) ltac:(lia)). pose proof (Z.mul_div_le x page_size ltac:(lia)).
  destruct (_ && _) eqn:E; [done|]. zbool. destruct E as [E|E]; zbool; nia.
Qed.
Lemma Protect_rw_mono st a sz x :
  can_write page_size st x = true -> can_write page_size (Protect page_size st a sz kReadWrite) x = true.
Proof using. unfold can_write, Protect. cbn. by destruct (_ && _). Qed.
Lemma Protect_rx_below st r sz x : InSamePage page_size (r - 1) r = false -> x < r ->
  can_write page_size (Protect page_size st r sz kReadExecute) x = can_write page_size st x.
Proof using Hk.
  intros Hp Hx. unfold can_write, Protect, InSamePage in *. cbn. rewrite !RoundDown_eq in * by lia. pose proof page_pos. zbool.
  destruct (_ && _) eqn:E; [|done]. exfalso. zbool.
  pose proof (Z.div_mod r page_size ltac:(lia)) as Hr. pose proof (Z.mod_pos_bound r page_size ltac:(lia)).
  pose proof (Z.mul_div_le x page_size ltac:(lia)) as Hx'. rewrite (Z.mul_comm page_size) in Hr, Hx'.
  clear Hk. remember page_size as ps eqn:Eps; clear Eps.
  assert (r mod ps = 0 \/ 0 < r mod ps) as [Hm|Hm] by lia; [nia|].
  apply Hp. f_equal. symmetry. apply Z.div_unique with (r mod ps - 1); nia.
Qed.
Lemma Protect_rx_word st t x : (16 | t - 8) -> x / page_size <> t / page_size ->
  can_write page_size (Protect page_size st t 8 kReadExecute) x = can_write page_size st x.
Proof using Hk.
  intros [g Hg] Hx. unfold can_write, Protect. cbn. rewrite RoundDown_eq by lia. pose proof page_pos.
  destruct (_ && _) eqn:E; [|done]. exfalso. zbool. apply Hx.
  assert (Hlo : t / page_size <= x / page_size) by nia.
  assert (Hhi : x / page_size <= (t + 7) / page_size) by (apply Z.div_le_lower_bound; lia).
  rewrite (granule_page g (t + 7)), <- (granule_page g t) in Hhi by lia. lia.
Qed.

(** ** Taking blocks out *)
Lemma DequeueElement_spec st L i a s l :
  wf_free st L -> 0 <= i < 128 -> arr_get L i = Some ((a, s) :: l) ->
  exists st', DequeueElement st i = Some (a, st') /\ wf_free st' (<[Z.to_nat i := l]> L) /\
    free_granules L ≡ₚ granules (a, s) ++ free_granules (<[Z.to_nat i := l]> L) /\
    mem st' = mem st /\ writable st' = writable st /\ freelist_search_budget_ st' = freelist_search_budget_ st /\
    exists e, mem st !! a = Some e /\ HeapSize e = s.
Proof using.
  intros Hwf Hi Hl. destruct (list_at st L Hwf i ltac:(lia)) as (l0 & p & Hl0 & Hp & Hc).
  assert (l0 = (a, s) :: l) as -> by congruence. destruct Hc as [-> (e & He & Hs & Hc)].
  destruct (wf_map _ _ Hwf) as [Hb Hz].
  assert (Hblocks : forall b, b ∈ l -> good_block b /\ IndexForSize b.2 = i) by (intros b Hin; apply (wf_block _ _ Hwf i _ b Hl); by right).
  assert (Hn : next_ e = 0 <-> l = []) by (apply (chain_null (mem st)); [done|intros b Hin; by apply Hblocks]).
  assert (Hmi : member (free_map_ st) i = true) by (rewrite (wf_member _ _ Hwf i _ Hl); [done|unfold kNumLists; lia]).
  destruct (free_granules_at L (Z.to_nat i) _ (arr_lookup L i _ Hl)) as (G & HG & HG'). specialize (HG' l).
  assert (Hperm : free_granules L ≡ₚ granules (a, s) ++ free_granules (<[Z.to_nat i := l]> L)).
  { by rewrite HG, HG', granules_cons, app_assoc. }
  assert (Hset : exists fl, arr_set (free_lists_ st) i (next_ e) = Some fl /\ fl = <[Z.to_nat i := next_ e]> (free_lists_ st)).
  { pose proof (arr_get_Some _ _ _ Hp). eexists. split; [|done]. by apply arr_set_Some. }
  destruct Hset as (fl & Hfl & Hfl').
  assert (Hmap : exists fm last,
    (if (next_ e =? 0) && negb (i =? kNumLists) then
       if i <<< kObjectAlignmentLog2 =? last_free_small_size_ st then
         '(previous, free_map) ← ClearLastAndFindPrevious (free_map_ st) i;
         Some (set_last (set_free_map st free_map) (previous * kObjectAlignment))
       else free_map ← BitSet_Set (free_map_ st) i false; Some (set_free_map st free_map)
     else Some st) = Some (set_last (set_free_map st fm) last) /\
    (wf_bits fm /\ zlen fm = 2) /\ member fm i = bool_decide (l <> []) /\
    (forall j, j <> i -> member fm j = member (free_map_ st) j) /\
    ((last < 0 /\ forall j, member fm j = false) \/
     (exists k, last = 16 * k /\ member fm k = true /\ forall j, k < j -> member fm j = false))).
  { unfold kNumLists. destruct (Z.eqb_spec i 128) as [|_]; [lia|]. cbn [negb andb].
    replace (i <<< kObjectAlignmentLog2) with (16 * i).
    2: { unfold kObjectAlignmentLog2. change (kWordSizeLog2 + 1) with 4. rewrite Z.shiftl_mul_pow2 by lia. lia. }
    destruct (Z.eqb_spec (next_ e) 0) as [H0|H0]; cbn [andb].
    2: { exists (free_map_ st), (last_free_small_size_ st). split; [by destruct st|]. split; [done|]. split; [|split; [done|apply Hwf]].
         rewrite Hmi. symmetry. apply bool_decide_eq_true_2. by intros Hnil%Hn. }
    apply Hn in H0 as Hnil. subst l.
    destruct (wf_last _ _ Hwf) as [[_ Hall]|(k0 & Hk0 & Hm0 & Hgt)]; [by rewrite Hall in Hmi|].
    assert (Hik : i <= k0) by (destruct (Z.le_gt_cases i k0); [done|]; by rewrite Hgt in Hmi by lia).
    destruct (Z.eqb_spec (16 * i) (last_free_small_size_ st)) as [Heq|Hne].
    - assert (k0 = i) as -> by lia.
      destruct (ClearLast_spec (free_map_ st) i Hb) as (r & fm & -> & Hb' & Hz' & Hmem & Hgr); [lia|done|done|].
      cbn [mbind option_bind]. exists fm, (r * kObjectAlignment). split; [done|]. split; [split; [done|lia]|].
      split; [rewrite Hmem, Z.eqb_refl; done|]. split; [intros j Hj; rewrite Hmem; by destruct (Z.eqb_spec j i)|].
      unfold kObjectAlignment. change (2 * kWordSize) with 16.
      destruct Hgr as [[-> Hgr]|(Hr1 & Hr2 & Hr3)]; [left|right].
      + split; [lia|]. intros j. destruct (Z.lt_ge_cases j (64 * zlen fm)); [by apply Hgr|apply member_out; lia].
      + exists r. split; [lia|]. split; [done|]. intros j Hj.
        destruct (Z.lt_ge_cases j (64 * zlen fm)); [apply Hr3; lia|apply member_out; lia].
    - destruct (BitSet_Set_spec (free_map_ st) Hb i false) as (fm & -> & Hb' & Hz' & Hmem); [lia|].
      cbn [mbind option_bind]. exists fm, (last_free_small_size_ st). split; [done|]. split; [split; [done|lia]|].
      split; [rewrite Hmem, Z.eqb_refl; done|]. split; [intros j Hj; rewrite Hmem; by destruct (Z.eqb_spec j i)|].
      right. exists k0. split; [done|]. split; [rewrite Hmem; destruct (Z.eqb_spec k0 i); [lia|done]|].
      intros j Hj. rewrite Hmem. destruct (Z.eqb_spec j i); [done|by apply Hgt]. }
  destruct Hmap as (fm & last & Hif & Hbz & Hfi & Hfj & Hlast).
  unfold DequeueElement. rewrite Hp. cbn [mbind option_bind]. rewrite He. cbn [mbind option_bind]. rewrite Hif. cbn [mbind option_bind].
  change (free_lists_ (set_last (set_free_map st fm) last)) with (free_lists_ st). rewrite Hfl. cbn [mbind option_bind].
  eexists. split; [reflexivity|]. split; [|split; [done|split; [done|split; [done|split; [done|by exists e]]]]].
  eapply (wf_change st L i _ l); try done; cbn; try (by intros j l0 p0 _ _).
  pose proof (wf_disjoint _ _ Hwf) as Hnd. rewrite Hperm in Hnd. by apply list.NoDup_app in Hnd as (_ & _ & ?).
Qed.
End Ops.
