(* ===== verification/FreeListAlloc.v ===== *)
(** * Allocation from the free list (src/runtime/vm/heap/freelist.cc)

    Every path of the allocator: splitting a block, unlinking it from the list
    of large elements (write-protected pages included), the bounded search, and
    the theorems about [TryAllocateLocked], [TryAllocateSmallLocked],
    [TryAllocateLargeLocked] and [FreeLocked]. *)
From stdpp Require Import gmap sorting.
From S2P Require Import Prelude Utils BitSet FreeList.
Local Open Scope Z_scope.
Local Open Scope vm_scope.

Section Alloc.
Context (k : Z) (Hk : 4 <= k).
Abbreviation page_size := (2 ^ k).

Lemma HeaderSizeFor_le s : (16 | s) -> 0 <= s -> 0 <= HeaderSizeFor s <= s.
Proof using.
  intros [x ->] Hs. unfold HeaderSizeFor. change kWordSize with 8. change kMaxSizeTag with 4080. repeat zif; lia.
Qed.

Lemma Split_spec st L a s size is_protected e :
  wf_free st L -> mem st !! a = Some e -> HeapSize e = s -> good_block (a, s) -> (16 | size) -> 16 <= size <= s ->
  NoDup (granules (a, s) ++ free_granules L) ->
  (forall x, a <= x < a + size + HeaderSizeFor (s - size) -> can_write page_size st x = true) ->
  exists st' L', SplitElementAfterAndEnqueue page_size st a size is_protected = Some st' /\ wf_free st' L' /\
    granules (a, s) ++ free_granules L ≡ₚ granules (a, size) ++ free_granules L' /\
    (forall x, x < a + size -> can_write page_size st' x = can_write page_size st x) /\
    (is_protected = false -> writable st' = writable st).
Proof using Hk.
  intros Hwf He Hs Hg H16 Hsize Hnd Hw. unfold SplitElementAfterAndEnqueue. rewrite He. cbn [mbind option_bind]. rewrite Hs.
  destruct Hg as (Ha16 & Hs16 & Ha & _). cbn in Ha16, Hs16, Ha.
  destruct (Z.eqb_spec (s - size) 0) as [H0|H0].
  { exists st, L. replace size with s by lia. done. }
  assert (Hr16 : (16 | s - size)) by by apply Z.divide_sub_r.
  assert (Hge : 16 <= s - size) by (destruct Hr16 as [x Hx]; lia).
  assert (Hgr : granules (a, s) = granules (a, size) ++ granules (a + size, s - size)).
  { replace s with (size + (s - size)) at 1 by lia. apply granules_split; done || lia. }
  rewrite Hgr, <- app_assoc in Hnd.
  destruct (FreeLocked_spec k Hk st L (a + size) (s - size) Hwf) as (st1 & L1 & Hf & Hwf1 & Hp & Hw1 & _).
  - split; [by apply Z.divide_add_r|]. split; [done|]. cbn. lia.
  - by apply list.NoDup_app in Hnd as (_ & _ & ?).
  - intros x Hx. apply Hw. lia.
  - unfold FreeLocked in Hf. destruct (AsElement _ st _ _) as [st0|]; [|done]. cbn [mbind option_bind] in *. rewrite Hf. cbn [mbind option_bind].
    eexists _, L1. split; [reflexivity|].
    split; [|split; [rewrite Hgr, <- app_assoc; by rewrite Hp|]].
    + destruct (_ && _); [|done]. destruct Hwf1; by split.
    + split; [|intros ->; done]. intros x Hx. destruct (is_protected && _) eqn:E.
      * apply andb_true_iff in E as [_ E]. apply negb_true_iff in E. rewrite Protect_rx_below by done. unfold can_write. by rewrite Hw1.
      * unfold can_write. by rewrite Hw1.
Qed.

(** ** Unlinking *)
Lemma chain_head m p a s l : chain m p ((a, s) :: l) -> p = a.
Proof using. by intros [-> _]. Qed.
Lemma chain_app m p l1 l2 : chain m p (l1 ++ l2) -> exists q, chain m q l2.
Proof using.
  revert p. induction l1 as [|[a s] l1 IH]; intros p Hc; [by exists p|]. destruct Hc as [_ (e & _ & _ & Hc)]. by eapply IH.
Qed.
Lemma chain_unlink m p l0 pa ps a s l2 ep e :
  chain m p (l0 ++ (pa, ps) :: (a, s) :: l2) -> NoDup ((l0 ++ (pa, ps) :: (a, s) :: l2).*1) ->
  m !! pa = Some ep -> m !! a = Some e ->
  chain (<[pa := MkElement (tags_ ep) (next_ e) (size_word ep)]> m) p (l0 ++ (pa, ps) :: l2).
Proof using.
  revert p. induction l0 as [|[b t] l0 IH]; intros p; cbn [app].
  - intros [-> (e1 & He1 & Hs1 & [_ (e2 & He2 & Hs2 & Hc)])] [H1 H2]%list.NoDup_cons Hp Ha.
    assert (e1 = ep) as -> by congruence. assert (e2 = e) as -> by congruence.
    split; [done|]. eexists. rewrite lookup_insert_eq. split; [done|]. split; [done|]. cbn. apply chain_frame; [done|].
    intros Hin. apply H1. by right.
  - intros [-> (e1 & He1 & Hs1 & Hc)] [H1 H2]%list.NoDup_cons Hp Ha. split; [done|]. exists e1.
    rewrite lookup_insert_ne. { split; [done|]. split; [done|]. by apply IH. }
    intros ->. apply H1. apply list_elem_of_fmap. exists (b, ps). split; [done|]. apply elem_of_app. right. by left.
Qed.

(** [previous] is the last block of [l1], or null. *)
Definition last_address (previous : Z) (l1 : list block) : Prop :=
  match list.last l1 with None => previous = 0 | Some b => previous = b.1 end.

Definition is_writable (st : FreeList) (L : list (list block)) : Prop :=
  forall g, g ∈ free_granules L -> can_write page_size st (16 * g) = true.

(** The page of a link outside of a region is not one of the region's pages,
    unless it is the first or the last one. *)
Lemma target_page t r n x : r <= x < r + n -> t < r \/ r + n <= t ->
  InSamePage page_size t r = false -> InSamePage page_size t (r + n - 1) = false -> x / page_size <> t / page_size.
Proof using Hk.
  unfold InSamePage. rewrite !RoundDown_eq by lia. pose proof (page_pos k Hk). intros Hx Ht H1 H2 Heq. zbool.
  destruct Ht as [Ht|Ht].
  - apply H1. f_equal. pose proof (Z.div_le_mono t r page_size ltac:(lia) ltac:(lia)).
    pose proof (Z.div_le_mono r x page_size ltac:(lia) ltac:(lia)). lia.
  - apply H2. f_equal. pose proof (Z.div_le_mono x (r + n - 1) page_size ltac:(lia) ltac:(lia)).
    pose proof (Z.div_le_mono (r + n - 1) t page_size ltac:(lia) ltac:(lia)). lia.
Qed.
Lemma same_page_write st x y : InSamePage page_size x y = true -> can_write page_size st y = true -> can_write page_size st x = true.
Proof using Hk.
  unfold InSamePage, can_write. rewrite !RoundDown_eq by lia. pose proof (page_pos k Hk). intros H1 H2. zbool.
  assert (x / page_size = y / page_size) as -> by nia. done.
Qed.
Lemma wf_writable st L w : wf_free st L -> wf_free (set_writable st w) L.
Proof using. intros []. by split. Qed.
Lemma wf_budget st L b : wf_free st L -> wf_free (set_budget st b) L.
Proof using. intros []. by split. Qed.

Lemma arr_get_insert_ne {A} (xs : list A) (i j : Z) x : i <> j -> 0 <= i -> arr_get (<[Z.to_nat i := x]> xs) j = arr_get xs j.
Proof using. intros Hne Hi. unfold arr_get. zif; [|done]. by rewrite list_lookup_insert_ne by lia. Qed.
Lemma arr_get_lookup {A} (xs : list A) i x : arr_get xs i = Some x -> xs !! Z.to_nat i = Some x.
Proof using. unfold arr_get. zif; done. Qed.
(** A block of one list is in no other list. *)
Lemma lists_apart st L i j l m b : wf_free st L -> i <> j -> arr_get L i = Some l -> arr_get L j = Some m ->
  b ∈ l -> b.1 ∉ m.*1.
Proof using.
  intros Hwf Hne Hl Hm Hb (b' & Heq & Hb')%list_elem_of_fmap.
  destruct (wf_block _ _ Hwf i l b Hl Hb) as [Hg _]. destruct (wf_block _ _ Hwf j m b' Hm Hb') as [Hg' _].
  destruct (free_granules_at L (Z.to_nat i) l (arr_lookup L i l Hl)) as (G & HG & HG').
  pose proof (wf_disjoint _ _ Hwf) as Hnd. rewrite HG in Hnd. apply list.NoDup_app in Hnd as (_ & Hd & _).
  assert (Hin : forall c, good_block c -> c.1 / 16 ∈ granules c).
  { intros c Hc. apply elem_granules; [done|]. destruct Hc as ([x Hx] & _ & ? & ?). rewrite Hx, Z.div_mul by lia. lia. }
  apply (Hd (b.1 / 16)); [eapply in_granules_of; [done|by apply Hin]|].
  specialize (HG' []). cbn in HG'. rewrite <- HG', Heq. pose proof (arr_get_Some _ _ _ Hl).
  eapply (block_free _ j m); [rewrite arr_get_insert_ne; [done|done|lia]|done|by apply Hin].
Qed.

Section Unlink.
Context (st : FreeList) (L : list (list block)) (Hwf : wf_free st L).
Context (l1 l2 : list block) (a s : Z) (Hl : arr_get L 128 = Some (l1 ++ (a, s) :: l2)).

Lemma large_good b : b ∈ l1 ++ (a, s) :: l2 -> good_block b /\ IndexForSize b.2 = 128.
Proof using Hwf Hl. by apply (wf_block _ _ Hwf). Qed.
Lemma large_good' b : b ∈ l1 ++ l2 -> good_block b /\ IndexForSize b.2 = 128.
Proof using Hwf Hl. intros Hb. apply large_good. apply elem_of_app in Hb as [Hb|Hb]; apply elem_of_app; [by left|right; by right]. Qed.
Lemma unlink_granules : free_granules L ≡ₚ granules (a, s) ++ free_granules (<[Z.to_nat 128 := l1 ++ l2]> L).
Proof using Hl.
  destruct (free_granules_at L (Z.to_nat 128) _ (arr_lookup L 128 _ Hl)) as (G & HG & HG'). rewrite HG, HG'.
  rewrite !granules_app, granules_cons, <- !app_assoc. apply Permutation_app_swap_app.
Qed.
Lemma unlink_nodup : NoDup (granules (a, s) ++ free_granules (<[Z.to_nat 128 := l1 ++ l2]> L)).
Proof using Hl Hwf. rewrite <- unlink_granules. apply Hwf. Qed.

(** The state without the block, when only the list of large elements and
    the link of a large element change. *)
Lemma unlink_wf st' p' : free_lists_ st' = <[Z.to_nat 128 := p']> (free_lists_ st) ->
  chain (mem st') p' (l1 ++ l2) ->
  (forall j l0 p0, j <> 128 -> arr_get L j = Some l0 -> chain (mem st) p0 l0 -> chain (mem st') p0 l0) ->
  free_map_ st' = free_map_ st -> last_free_small_size_ st' = last_free_small_size_ st ->
  wf_free st' (<[Z.to_nat 128 := l1 ++ l2]> L).
Proof using Hwf Hl.
  intros Hf Hc Hcs Hm Hlast. eapply (wf_change st L 128); try done; rewrite ?Hm, ?Hlast; try apply Hwf; try done.
  - apply large_good'.
  - pose proof unlink_nodup as Hnd. by apply list.NoDup_app in Hnd as (_ & _ & ?).
Qed.

(** The blocks of the list before and after are apart. *)
Lemma previous_apart b : b ∈ l1 ++ l2 -> b.1 + b.2 <= a \/ a + s <= b.1.
Proof using Hwf Hl.
  intros Hb. assert (H1 : good_block b) by by apply large_good'.
  assert (H2 : good_block (a, s)) by (apply large_good; apply elem_of_app; right; by left).
  pose proof unlink_nodup as Hnd. apply list.NoDup_app in Hnd as (_ & Hd & _).
  assert (Hin : forall g, g ∈ granules b -> g ∈ free_granules (<[Z.to_nat 128 := l1 ++ l2]> L)).
  { intros g Hg. eapply in_granules_of; [|done]. apply list_elem_of_join. exists (l1 ++ l2). split; [done|].
    apply list_elem_of_lookup. exists (Z.to_nat 128). apply list_lookup_insert_eq. by eapply lookup_lt_Some, arr_lookup. }
  destruct (Z.le_gt_cases (b.1 + b.2) a); [by left|]. destruct (Z.le_gt_cases (a + s) b.1); [by right|]. exfalso.
  destruct H1 as ([x Hx] & [y Hy] & ? & ?); destruct H2 as ([x' Hx'] & [y' Hy'] & ? & ?). cbn in *.
  apply (Hd (Z.max x x')).
  - apply elem_granules; [split; [by exists x'|]; split; [by exists y'|]; cbn; lia|]. cbn. lia.
  - apply Hin. apply elem_granules; [split; [by exists x|]; split; [by exists y|]; lia|]. lia.
Qed.

End Unlink.

Lemma unlink_spec st L l1 l2 a s previous n (is_protected : bool) e :
  wf_free st L -> arr_get L 128 = Some (l1 ++ (a, s) :: l2) -> last_address previous l1 -> mem st !! a = Some e -> 0 <= n <= s ->
  (if is_protected then forall x, a <= x < a + n -> can_write page_size st x = true else is_writable st L) ->
  (is_protected = true -> 0 < n) ->
  exists st', unlink page_size st previous a n is_protected = Some st' /\ wf_free st' (<[Z.to_nat 128 := l1 ++ l2]> L) /\
    mem st' !! a = Some e /\
    (if is_protected then forall x, a <= x < a + n -> can_write page_size st' x = true else writable st' = writable st).
Proof using Hk.
  intros Hwf Hl Hlast He Hn Hw Hn0. unfold unlink. rewrite He. cbn [mbind option_bind].
  destruct (list_at st L Hwf 128 ltac:(lia)) as (l & p & Hl' & Hp & Hc). rewrite Hl in Hl'. injection Hl' as <-.
  pose proof (addresses_nodup st L Hwf 128 _ Hl) as Hnd. change kNumLists with 128. unfold last_address in Hlast.
  destruct (list.last (A := block) l1) as [[pa ps]|] eqn:El; cbn in Hlast; rewrite Hlast; clear Hlast.
  2: { apply last_None in El. subst l1. cbn. cbn in Hc. destruct Hc as [-> (e' & He' & _ & Hc)]. assert (e' = e) as -> by congruence.
    assert (Hset : arr_set (free_lists_ st) 128 (next_ e) = Some (<[Z.to_nat 128 := next_ e]> (free_lists_ st))).
    { pose proof (arr_get_Some _ _ _ Hp). by apply arr_set_Some. }
    rewrite Hset. cbn [mbind option_bind]. eexists. split; [reflexivity|]. split; [by eapply (unlink_wf st L Hwf [] l2 a s Hl)|].
    split; [done|]. by destruct is_protected. }
  apply last_Some in El as [l0 ->].
  assert (Hpa : (pa, ps) ∈ (l0 ++ [(pa, ps)]) ++ l2) by (apply elem_of_app; left; apply elem_of_app; right; by left).
  destruct (large_good' st L Hwf _ _ _ _ Hl _ Hpa) as [(H16 & _ & Hpos & Hps) _]. cbn in H16, Hpos, Hps.
  pose proof (previous_apart st L Hwf _ _ _ _ Hl _ Hpa) as Hap. cbn in Hap.
  destruct (Z.eqb_spec pa 0) as [|_]; [lia|]. change kWordSize with 8.
  rewrite <- app_assoc in Hc, Hnd. cbn [app] in Hc, Hnd.
  assert (exists ep, mem st !! pa = Some ep) as [ep Hep].
  { apply (chain_in (mem st) p _ pa Hc). apply list_elem_of_fmap. exists (pa, ps). split; [done|]. apply elem_of_app. right. by left. }
  pose proof (chain_unlink (mem st) p l0 pa ps a s l2 ep e Hc Hnd Hep He) as Hc'.
  assert (Hne : pa <> a) by (destruct (large_good st L Hwf _ _ _ _ Hl (a, s)) as [(_ & _ & _ & ?) _]; [apply elem_of_app; right; by left|]; cbn in *; lia).
  set (tp := is_protected && _). set (st1 := if tp then _ else st).
  assert (Hst1 : mem st1 = mem st /\ free_lists_ st1 = free_lists_ st /\ free_map_ st1 = free_map_ st /\
                 last_free_small_size_ st1 = last_free_small_size_ st) by (unfold st1; by destruct tp).
  destruct Hst1 as (Hm1 & Hf1 & Hfm1 & Hl1).
  assert (Htw : can_write page_size st1 (pa + 8) = true).
  { unfold st1, tp. destruct is_protected; cbn [andb].
    - destruct (InSamePage page_size (pa + 8) a) eqn:E1; cbn [negb andb]; [eapply same_page_write; [done|apply Hw; lia]|].
      destruct (InSamePage page_size (pa + 8) (a + n - 1)) eqn:E2; cbn [negb andb]; [eapply same_page_write; [done|apply Hw; lia]|].
      apply Protect_rw; [done|lia].
    - destruct H16 as [g Hg]. rewrite (granule_write k Hk st g) by lia. apply Hw.
      eapply (block_free L 128 _ (pa, ps)); [done| |].
      + rewrite <- app_assoc. apply elem_of_app. right. by left.
      + apply elem_granules; [split; [by exists g|]; split; [apply (large_good' st L Hwf _ _ _ _ Hl _ Hpa)|cbn; lia]|]. cbn. lia. }
  unfold set_next. rewrite Hm1, Hep. change kWordSize with 8. cbn [mbind option_bind]. rewrite Htw. cbn [mbind option_bind].
  eexists. split; [reflexivity|].
  assert (Hwf' : wf_free (set_mem st1 (<[pa:=MkElement (tags_ ep) (next_ e) (size_word ep)]> (mem st))) (<[Z.to_nat 128:=(l0 ++ [(pa, ps)]) ++ l2]> L)).
  { apply (unlink_wf st L Hwf _ _ _ _ Hl _ p); cbn; try done.
    - rewrite Hf1, list_insert_id; [done|by apply arr_get_lookup].
    - rewrite <- app_assoc. done.
    - intros j m0 p0 Hj Hm0 Hc0. apply chain_frame; [done|]. apply (lists_apart st L 128 j _ m0 (pa, ps) Hwf ltac:(done) Hl Hm0).
      rewrite <- app_assoc. apply elem_of_app. right. by left. }
  split; [destruct tp; [by apply wf_writable|done]|]. split.
  - destruct tp; cbn; by rewrite lookup_insert_ne.
  - unfold st1, tp. destruct is_protected; cbn [andb]; [|done]. intros x Hx.
    destruct (InSamePage page_size (pa + 8) a) eqn:E1; cbn [negb andb]; [by apply Hw|].
    destruct (InSamePage page_size (pa + 8) (a + n - 1)) eqn:E2; cbn [negb andb]; [by apply Hw|].
    rewrite Protect_rx_word; [|done|by replace (pa + 8 - 8) with pa by lia|eapply target_page; try done; lia].
    apply Protect_rw_mono. by apply Hw.
Qed.
(** ** What an allocation promises *)
Definition accessible (is_protected : bool) (st : FreeList) (L : list (list block)) : Prop :=
  is_protected = false -> is_writable st L.
Definition allocated (is_protected : bool) (st : FreeList) (L : list (list block)) (addr size : Z) (st' : FreeList) : Prop :=
  exists L', wf_free st' L' /\ good_block (addr, size) /\ free_granules L ≡ₚ granules (addr, size) ++ free_granules L' /\
    (forall x, addr <= x < addr + size -> can_write page_size st' x = true) /\
    (is_protected = false -> writable st' = writable st).

Lemma block_writable st L g x : is_writable st L -> g ∈ free_granules L -> 16 * g <= x < 16 * g + 16 -> can_write page_size st x = true.
Proof using Hk. intros Hw Hg Hx. rewrite (granule_write k Hk st g x Hx). by apply Hw. Qed.
Lemma free_writable st L a s x : is_writable st L -> good_block (a, s) ->
  (forall g, g ∈ granules (a, s) -> g ∈ free_granules L) -> a <= x < a + s -> can_write page_size st x = true.
Proof using Hk.
  intros Hw Hg Hin Hx. pose proof (Z.div_mod x 16 ltac:(lia)). pose proof (Z.mod_pos_bound x 16 ltac:(lia)).
  apply (block_writable st L (x / 16)); [done| |lia]. apply Hin. apply elem_granules; [done|]. cbn.
  destruct Hg as ([y Hy] & [z Hz] & _ & _). cbn in Hy, Hz. lia.
Qed.

(** Splitting a block that was just taken out of its list. *)
Lemma split_allocated is_protected st L st1 L1 a s size e :
  wf_free st1 L1 -> free_granules L ≡ₚ granules (a, s) ++ free_granules L1 -> NoDup (free_granules L) ->
  mem st1 !! a = Some e -> HeapSize e = s -> good_block (a, s) -> (16 | size) -> 16 <= size <= s ->
  (forall x, a <= x < a + size + HeaderSizeFor (s - size) -> can_write page_size st1 x = true) ->
  (is_protected = false -> writable st1 = writable st) ->
  exists st2, SplitElementAfterAndEnqueue page_size st1 a size is_protected = Some st2 /\ allocated is_protected st L a size st2.
Proof using Hk.
  intros Hwf HL Hnd He Hs Hg H16 Hsize Hw Hw0. rewrite HL in Hnd.
  destruct (Split_spec st1 L1 a s size is_protected e Hwf He Hs Hg H16 Hsize Hnd Hw) as (st2 & L2 & Hsp & Hwf2 & Hp & Hw2 & Hw20).
  exists st2. split; [done|]. exists L2. split; [done|]. destruct Hg as (? & ? & ? & ?). cbn in *.
  assert (Hr16 : (16 | s - size)) by by apply Z.divide_sub_r.
  pose proof (HeaderSizeFor_le (s - size) Hr16 ltac:(lia)).
  split; [split; [done|split; [done|cbn; lia]]|]. split; [by rewrite HL|]. split.
  - intros x Hx. rewrite Hw2 by lia. apply Hw. lia.
  - intros ->. rewrite Hw20 by done. by apply Hw0.
Qed.

(** ** The search of the list of large elements *)
Lemma search_large_spec st L size is_protected : wf_free st L -> (16 | size) -> 16 <= size -> accessible is_protected st L ->
  forall fuel l1 l2 previous current tries,
  arr_get L 128 = Some (l1 ++ l2) -> chain (mem st) current l2 -> last_address previous l1 -> (length l2 < fuel)%nat ->
  exists r st', search_large page_size fuel st size is_protected previous current tries = Some (r, st') /\
    ((r <> 0 /\ allocated is_protected st L r size st') \/
     (r = 0 /\ (exists b, st' = set_budget st b) /\
      forall i b, l2 !! i = Some b -> Z.of_nat i <= Z.max 0 (tries + 1) -> b.2 < size)).
Proof using Hk.
  intros Hwf H16 Hsize Hacc fuel. induction fuel as [|fuel IH]; intros l1 l2 previous current tries Hl Hc Hlast Hf; [lia|].
  cbn [search_large]. destruct l2 as [|[a s] l2].
  { cbn in Hc. subst current. exists 0, st. split; [done|]. right. split; [done|]. split; [|done].
    exists (freelist_search_budget_ st). by destruct st. }
  destruct Hc as [-> (e & He & Hs & Hc)].
  destruct (large_good st L Hwf l1 l2 a s Hl (a, s)) as [Hg _]; [apply elem_of_app; right; by left|].
  pose proof Hg as (_ & Hs16 & Ha & _). cbn in Ha, Hs16. destruct (Z.eqb_spec a 0) as [|_]; [lia|].
  rewrite He. cbn [mbind option_bind]. rewrite Hs. rewrite Z.geb_leb. destruct (Z.leb_spec size s) as [Hle|Hgt].
  - assert (Hr16 : (16 | s - size)) by by apply Z.divide_sub_r.
    pose proof (HeaderSizeFor_le (s - size) Hr16 ltac:(lia)) as Hh.
    set (st0 := if is_protected then _ else st).
    assert (Hst0 : wf_free st0 L /\ mem st0 = mem st) by (unfold st0; destruct is_protected; [by split; [apply wf_writable|]|done]).
    destruct Hst0 as [Hwf0 Hm0].
    assert (Hw0 : forall x, a <= x < a + (size + HeaderSizeFor (s - size)) -> can_write page_size st0 x = true).
    { intros x Hx. unfold st0. destruct is_protected; [by apply Protect_rw|].
      apply (free_writable st L a s); [by apply Hacc|done| |lia]. intros g Hgr. eapply (block_free L 128); [done| |done].
      apply elem_of_app. right. by left. }
    destruct (unlink_spec st0 L l1 l2 a s previous (size + HeaderSizeFor (s - size)) is_protected e Hwf0 Hl Hlast)
      as (st1 & -> & Hwf1 & He1 & Hw1); [by rewrite Hm0|lia| |lia|].
    { destruct is_protected; [done|]. unfold st0. by apply Hacc. }
    cbn [mbind option_bind].
    destruct (split_allocated is_protected st L st1 (<[Z.to_nat 128 := l1 ++ l2]> L) a s size e) as (st2 & -> & Hal); try done.
    + by apply (unlink_granules L l1 l2 a s).
    + apply Hwf.
    + intros x Hx. destruct is_protected; [apply Hw1; lia|]. unfold can_write. rewrite Hw1. apply Hw0. lia.
    + intros ->. by rewrite Hw1.
    + cbn [mbind option_bind]. eexists a, _. split; [reflexivity|]. left. split; [lia|].
      destruct Hal as (L' & ? & ? & ? & ?). exists L'. split; [by apply wf_budget|]. done.
  - destruct (Z.ltb_spec tries 0) as [Ht|Ht].
    + eexists 0, _. split; [reflexivity|]. right. split; [done|]. split; [by eexists|]. intros [|i] b Hb Hi; [|lia].
      cbn in Hb. by injection Hb as <-.
    + destruct (IH (l1 ++ [(a, s)]) l2 a (next_ e) (tries - 1)) as (r & st' & Heq & Hr); try done.
      * by rewrite <- app_assoc.
      * unfold last_address. by rewrite last_snoc.
      * cbn in Hf. lia.
      * exists r, st'. split; [done|]. destruct Hr as [Hr|(Hr0 & Hb & Hr)]; [by left|]. right. split; [done|]. split; [done|].
        intros [|i] b Hb' Hi; [cbn in Hb'; by injection Hb' as <-|]. apply (Hr i b Hb'). lia.
Qed.
Lemma search_whole_spec st L minimum_size : wf_free st L -> is_writable st L ->
  forall fuel l1 l2 previous current tries,
  arr_get L 128 = Some (l1 ++ l2) -> chain (mem st) current l2 -> last_address previous l1 -> (length l2 < fuel)%nat ->
  exists r st', search_whole page_size fuel st minimum_size previous current tries = Some (r, st') /\
    ((exists s e, r <> 0 /\ minimum_size <= s /\ mem st' !! r = Some e /\ HeapSize e = s /\ allocated false st L r s st') \/
     (r = 0 /\ (exists b, st' = set_budget st b) /\
      forall i b, l2 !! i = Some b -> Z.of_nat i <= Z.max 0 (tries + 1) -> b.2 < minimum_size)).
Proof using Hk.
  intros Hwf Hacc fuel. induction fuel as [|fuel IH]; intros l1 l2 previous current tries Hl Hc Hlast Hf; [lia|].
  cbn [search_whole]. destruct l2 as [|[a s] l2].
  { cbn in Hc. subst current. exists 0, st. split; [done|]. right. split; [done|]. split; [|done].
    exists (freelist_search_budget_ st). by destruct st. }
  destruct Hc as [-> (e & He & Hs & Hc)].
  destruct (large_good st L Hwf l1 l2 a s Hl (a, s)) as [Hg _]; [apply elem_of_app; right; by left|].
  pose proof Hg as (_ & _ & Ha & Hs1). cbn in Ha, Hs1. destruct (Z.eqb_spec a 0) as [|_]; [lia|].
  rewrite He. cbn [mbind option_bind]. rewrite Hs. rewrite Z.geb_leb. destruct (Z.leb_spec minimum_size s) as [Hle|Hgt].
  - destruct (unlink_spec st L l1 l2 a s previous 0 false e Hwf Hl Hlast He) as (st1 & -> & Hwf1 & He1 & Hw1); [lia|done|done|].
    cbn [mbind option_bind]. eexists a, _. split; [reflexivity|]. left. exists s, e. split; [lia|]. split; [done|]. split; [done|]. split; [done|].
    eexists. split; [apply wf_budget, Hwf1|]. split; [done|]. split; [by apply (unlink_granules L l1 l2 a s)|]. split.
    + intros x Hx. unfold can_write. cbn. rewrite Hw1. apply (free_writable st L a s); try done.
      intros g Hgr. eapply (block_free L 128); [done| |done]. apply elem_of_app. right. by left.
    + intros _. cbn. by rewrite Hw1.
  - destruct (Z.ltb_spec tries 0) as [Ht|Ht].
    + eexists 0, _. split; [reflexivity|]. right. split; [done|]. split; [by eexists|]. intros [|i] b Hb Hi; [|lia].
      cbn in Hb. by injection Hb as <-.
    + destruct (IH (l1 ++ [(a, s)]) l2 a (next_ e) (tries - 1)) as (r & st' & Heq & Hr); try done.
      * by rewrite <- app_assoc.
      * unfold last_address. by rewrite last_snoc.
      * cbn in Hf. lia.
      * exists r, st'. split; [done|]. destruct Hr as [Hr|(Hr0 & Hb & Hr)]; [by left|]. right. split; [done|]. split; [done|].
        intros [|i] b Hb' Hi; [cbn in Hb'; by injection Hb' as <-|]. apply (Hr i b Hb'). lia.
Qed.

(** Every chain fits in the memory: the fuel is enough. *)
Lemma chain_length m p l : chain m p l -> NoDup (l.*1) -> (length l <= size m)%nat.
Proof using.
  intros Hc Hnd. assert (length l = length (l.*1)) as -> by (symmetry; apply length_fmap).
  rewrite <- length_map_to_list, <- (length_fmap fst (map_to_list m)).
  apply submseteq_length, NoDup_submseteq; [done|]. intros a Ha. destruct (chain_in m p l a Hc Ha) as [e He].
  apply list_elem_of_fmap. exists (a, e). split; [done|]. by apply elem_of_map_to_list.
Qed.

(** ** The three allocators *)
Lemma small_bit st L i : wf_free st L -> 0 <= i < 128 -> exists l, arr_get L i = Some l /\ member (free_map_ st) i = bool_decide (l <> []).
Proof using.
  intros Hwf Hi. destruct (list_at st L Hwf i ltac:(lia)) as (l & p & Hl & _ & _). exists l. split; [done|].
  apply (wf_member _ _ Hwf); [done|unfold kNumLists; lia].
Qed.
(** The first block of a list that the map says is not empty. *)
Lemma small_block st L i : wf_free st L -> 0 <= i < 128 -> member (free_map_ st) i = true ->
  exists a s l, arr_get L i = Some ((a, s) :: l) /\ good_block (a, s) /\ s = 16 * i.
Proof using.
  intros Hwf Hi Hm. destruct (small_bit st L i Hwf Hi) as (l & Hl & Hb). rewrite Hm in Hb. symmetry in Hb. apply bool_decide_eq_true_1 in Hb.
  destruct l as [|[a s] l]; [done|]. exists a, s, l. split; [done|].
  destruct (wf_block _ _ Hwf i _ (a, s) Hl) as [Hg Hx]; [by left|]. split; [done|]. destruct Hg as (_ & H16 & _ & Hs). cbn in *.
  rewrite IndexForSize_spec in Hx by done. destruct (Z.ltb_spec s 2048); [|lia]. destruct H16 as [y ->]. rewrite Z.div_mul in Hx by lia. lia.
Qed.
Lemma small_empty st L i l b : wf_free st L -> 0 <= i < 128 -> member (free_map_ st) i = false -> arr_get L i = Some l -> b ∉ l.
Proof using.
  intros Hwf Hi Hm Hl Hb. destruct (small_bit st L i Hwf Hi) as (l' & Hl' & Hb'). rewrite Hm in Hb'. symmetry in Hb'.
  apply bool_decide_eq_false_1 in Hb'. assert (l' = l) as -> by congruence. apply Hb'. intros ->. by apply not_elem_of_nil in Hb.
Qed.

(** The two questions that the map answers. *)
Lemma small_choice st L size : wf_free st L -> (16 | size) -> 16 <= size ->
  exists small next_index,
    (if negb (IndexForSize size =? kNumLists) then BitSet_Test (free_map_ st) (IndexForSize size) else Some false) = Some small /\
    (if IndexForSize size + 1 <? kNumLists then BitSet_Next (free_map_ st) (IndexForSize size + 1) else Some (-1)) = Some next_index /\
    if (small : bool) then IndexForSize size < 128 /\ member (free_map_ st) (IndexForSize size) = true
    else (next_index = -1 /\ forall j, IndexForSize size <= j < 128 -> member (free_map_ st) j = false) \/
         (IndexForSize size < next_index < 128 /\ member (free_map_ st) next_index = true).
Proof using.
  intros Hwf H16 Hs. pose proof (IndexForSize_range size H16 Hs) as Hi. set (i := IndexForSize size) in *.
  destruct (wf_map _ _ Hwf) as [Hb Hz]. change kNumLists with 128.
  assert (Hnext : exists n, (if i + 1 <? 128 then BitSet_Next (free_map_ st) (i + 1) else Some (-1)) = Some n /\
    ((n = -1 /\ forall j, i < j < 128 -> member (free_map_ st) j = false) \/ (i < n < 128 /\ member (free_map_ st) n = true))).
  { destruct (Z.ltb_spec (i + 1) 128).
    - destruct (BitSet_Next_spec (free_map_ st) Hb (i + 1)) as (n & -> & Hn); [lia|]. exists n. split; [done|].
      destruct Hn as [[-> Hn]|(H1 & H2 & _)]; [left; split; [done|]; intros j Hj; apply Hn; lia|right]. split; [|done]. split; [lia|].
      destruct (Z.lt_ge_cases n 128); [done|]. rewrite member_out in H2; [done|lia].
    - exists (-1). split; [done|]. left. split; [done|]. intros j Hj. lia. }
  destruct Hnext as (n & Hn & Hn'). destruct (Z.eqb_spec i 128) as [Hi128|Hi128]; cbn [negb].
  - exists false, n. split; [done|]. split; [done|]. left. destruct Hn' as [[-> _]|[? _]]; [|lia]. split; [done|]. intros j Hj. lia.
  - rewrite BitSet_Test_spec by (done || lia). exists (member (free_map_ st) i), n. split; [done|]. split; [done|].
    destruct (member (free_map_ st) i) eqn:Em; [split; [lia|done]|]. destruct Hn' as [[-> H]|H]; [left|by right].
    split; [done|]. intros j Hj. destruct (Z.eq_dec j i) as [->|]; [done|]. apply H. lia.
Qed.
Lemma small_sizes st L size : wf_free st L -> (16 | size) -> 16 <= size ->
  (forall j, IndexForSize size <= j < 128 -> member (free_map_ st) j = false) ->
  forall i l b, arr_get L i = Some l -> i < 128 -> b ∈ l -> b.2 < size.
Proof using.
  intros Hwf H16 Hs Hall i l b Hl Hi Hb. destruct (wf_block _ _ Hwf i l b Hl Hb) as [(_ & Hb16 & _ & Hb0) Hx].
  pose proof (IndexForSize_range _ Hb16 Hb0). destruct (Z.lt_ge_cases b.2 size) as [|Hge]; [done|]. exfalso.
  assert (Hle : IndexForSize size <= i).
  { rewrite <- Hx, !IndexForSize_spec by done. destruct H16 as [y ->], Hb16 as [z Hz]. rewrite Hz in *. rewrite !Z.div_mul by lia. repeat zif; lia. }
  apply (small_empty st L i l b Hwf); [lia|apply Hall; lia|done|done].
Qed.
Lemma dequeue_writable st L i l a s size st' : wf_free st L -> is_writable st L -> arr_get L i = Some ((a, s) :: l) -> size <= s ->
  writable st' = writable st -> forall x, a <= x < a + size -> can_write page_size st' x = true.
Proof using Hk.
  intros Hwf Hw Hl Hs Hww x Hx. unfold can_write. rewrite Hww. destruct (wf_block _ _ Hwf i _ (a, s) Hl) as [Hg _]; [by left|].
  apply (free_writable st L a s); try done; [|lia]. intros g Hgr. eapply (block_free L i); [done|by left|done].
Qed.

(** A block of the list for exactly [size]. *)
Lemma take_exact is_protected st L size : wf_free st L -> (16 | size) -> 16 <= size -> accessible is_protected st L ->
  IndexForSize size < 128 -> member (free_map_ st) (IndexForSize size) = true ->
  exists a st1, DequeueElement st (IndexForSize size) = Some (a, st1) /\ a <> 0 /\
    allocated is_protected st L a size (if is_protected then Protect page_size st1 a size kReadWrite else st1).
Proof using Hk.
  intros Hwf H16 Hs Hacc Hi Hm. pose proof (IndexForSize_range _ H16 Hs).
  destruct (small_block st L (IndexForSize size) Hwf ltac:(lia) Hm) as (a & s & l & Hl & Hg & Heq).
  assert (s = size) as ->.
  { revert Heq Hi. rewrite IndexForSize_spec by done. destruct H16 as [y ->]. rewrite Z.div_mul by lia. zif; lia. }
  destruct (DequeueElement_spec st L (IndexForSize size) a size l Hwf ltac:(lia) Hl) as (st1 & Hd & Hwf1 & Hp & _ & Hw1 & _ & _).
  exists a, st1. split; [done|]. split; [destruct Hg as (_ & _ & ? & _); cbn in *; lia|]. eexists.
  split; [destruct is_protected; [by apply wf_writable|done]|]. split; [done|]. split; [done|]. split; [|by intros ->].
  destruct is_protected; [intros x Hx; by apply Protect_rw|]. by apply (dequeue_writable st L _ l a size size st1 Hwf (Hacc eq_refl) Hl).
Qed.
(** A block of a list for a larger size is split. *)
Lemma take_split is_protected st L size i : wf_free st L -> (16 | size) -> 16 <= size -> accessible is_protected st L ->
  IndexForSize size < i < 128 -> member (free_map_ st) i = true ->
  exists a st1 e st3, DequeueElement st i = Some (a, st1) /\ mem st1 !! a = Some e /\
    SplitElementAfterAndEnqueue page_size
      (if is_protected then Protect page_size st1 a (size + HeaderSizeFor (HeapSize e - size)) kReadWrite else st1) a size is_protected = Some st3 /\
    a <> 0 /\ allocated is_protected st L a size st3.
Proof using Hk.
  intros Hwf H16 Hs Hacc Hi Hm. pose proof (IndexForSize_range _ H16 Hs).
  destruct (small_block st L i Hwf ltac:(lia) Hm) as (a & s & l & Hl & Hg & Heq).
  assert (Hlt : size <= s).
  { revert Hi. rewrite IndexForSize_spec by done. destruct H16 as [y ->]. rewrite Z.div_mul by lia. zif; lia. }
  destruct (DequeueElement_spec st L i a s l Hwf ltac:(lia) Hl) as (st1 & Hd & Hwf1 & Hp & Hm1 & Hw1 & _ & e & He & Hes).
  exists a, st1, e. rewrite Hm1. set (st2 := if is_protected then _ else st1).
  assert (Hr16 : (16 | s - size)) by (destruct Hg as (_ & ? & _); by apply Z.divide_sub_r).
  pose proof (HeaderSizeFor_le (s - size) Hr16 ltac:(lia)) as Hh.
  destruct (split_allocated is_protected st L st2 (<[Z.to_nat i := l]> L) a s size e) as (st3 & Hsp & Hal); try done.
  - unfold st2. destruct is_protected; [by apply wf_writable|done].
  - apply Hwf.
  - unfold st2. destruct is_protected; cbn; by rewrite Hm1.
  - intros x Hx. unfold st2. destruct is_protected; [apply Protect_rw; [done|rewrite Hes; lia]|].
    apply (dequeue_writable st L i l a s (size + HeaderSizeFor (s - size)) st1 Hwf (Hacc eq_refl) Hl); try done; lia.
  - intros ->. done.
  - exists st3. split; [done|]. split; [done|]. split; [done|]. split; [|done]. destruct Hg as (_ & _ & ? & _). cbn in *. lia.
Qed.

Definition small_too_small (L : list (list block)) (size : Z) : Prop :=
  forall i l b, arr_get L i = Some l -> i < kNumLists -> b ∈ l -> b.2 < size.
(** The large blocks that the search looks at before it gives up. *)
Definition large_too_small (L : list (list block)) (size budget : Z) : Prop :=
  forall l i b, arr_get L kNumLists = Some l -> l !! i = Some b -> Z.of_nat i <= Z.max 0 (budget + 1) -> b.2 < size.

Lemma TryAllocateLocked_spec is_protected st L size :
  wf_free st L -> (16 | size) -> 16 <= size -> accessible is_protected st L ->
  exists r st', TryAllocateLocked page_size st size is_protected = Some (r, st') /\
    ((r <> 0 /\ allocated is_protected st L r size st') \/
     (r = 0 /\ (exists b, st' = set_budget st b) /\ small_too_small L size /\
      large_too_small L size (freelist_search_budget_ st + (size >>> kWordSizeLog2)))).
Proof using Hk.
  intros Hwf H16 Hs Hacc. unfold TryAllocateLocked.
  destruct (small_choice st L size Hwf H16 Hs) as (small & n & -> & Hn & Hc). cbn [mbind option_bind]. destruct small.
  { destruct (take_exact is_protected st L size Hwf H16 Hs Hacc) as (a & st1 & -> & Ha & Hal); try apply Hc. cbn [mbind option_bind].
    eexists a, _. split; [reflexivity|]. by left. }
  rewrite Hn. cbn [mbind option_bind]. destruct Hc as [[-> Hall]|[Hi Hm]]; cbn [Z.eqb Pos.eqb negb].
  - destruct (list_at st L Hwf 128 ltac:(lia)) as (l & p & Hl & Hp & Hch). change kNumLists with 128. rewrite Hp. cbn [mbind option_bind].
    pose proof (chain_length _ _ _ Hch (addresses_nodup st L Hwf 128 l Hl)).
    destruct (search_large_spec st L size is_protected Hwf H16 Hs Hacc (S (base.size (mem st))) [] l 0 p
      (freelist_search_budget_ st + (size >>> kWordSizeLog2))) as (r & st' & Heq & Hr); [done|done|done|lia|].
    exists r, st'. split; [done|]. destruct Hr as [Hr|(Hr0 & Hb & Hr)]; [by left|]. right. split; [done|]. split; [done|]. split.
    + intros i m b. change kNumLists with 128. by apply (small_sizes st L size).
    + intros m i b Hm' Hb' Hib. change kNumLists with 128 in Hm'. assert (m = l) as -> by congruence. by apply (Hr i).
  - destruct (Z.eqb_spec n (-1)); [pose proof (IndexForSize_range _ H16 Hs); lia|]. cbn [negb].
    destruct (take_split is_protected st L size n Hwf H16 Hs Hacc Hi Hm) as (a & st1 & e & st3 & -> & He & Hsp & Ha & Hal).
    cbn [mbind option_bind]. rewrite He. cbn [mbind option_bind]. rewrite Hsp. cbn [mbind option_bind]. exists a, st3. split; [done|]. by left.
Qed.
Lemma TryAllocateSmallLocked_spec st L size : wf_free st L -> (16 | size) -> 16 <= size -> is_writable st L ->
  exists r st', TryAllocateSmallLocked page_size st size = Some (r, st') /\
    ((r <> 0 /\ allocated false st L r size st') \/ (r = 0 /\ st' = st /\ small_too_small L size)).
Proof using Hk.
  intros Hwf H16 Hs Hw. unfold TryAllocateSmallLocked. rewrite Z.gtb_ltb.
  destruct (Z.ltb_spec (last_free_small_size_ st) size) as [Hlast|_].
  { exists 0, st. split; [done|]. right. split; [done|]. split; [done|]. intros i l b. change kNumLists with 128.
    apply (small_sizes st L size); [done..|]. intros j Hj. destruct (wf_last _ _ Hwf) as [[_ Hall]|(k0 & Hk0 & _ & Hgt)]; [done|].
    apply Hgt. revert Hj. rewrite IndexForSize_spec by done. destruct H16 as [y ->]. rewrite Z.div_mul by lia. zif; lia. }
  destruct (small_choice st L size Hwf H16 Hs) as (small & n & -> & Hn & Hc). cbn [mbind option_bind]. destruct small.
  { destruct (take_exact false st L size Hwf H16 Hs (fun _ => Hw)) as (a & st1 & -> & Ha & Hal); try apply Hc.
    exists a, st1. split; [reflexivity|]. by left. }
  rewrite Hn. cbn [mbind option_bind]. destruct Hc as [[-> Hall]|[Hi Hm]]; cbn [Z.eqb Pos.eqb negb].
  - exists 0, st. split; [done|]. right. split; [done|]. split; [done|]. intros i l b. change kNumLists with 128. by apply (small_sizes st L size).
  - destruct (Z.eqb_spec n (-1)); [pose proof (IndexForSize_range _ H16 Hs); lia|]. cbn [negb].
    destruct (take_split false st L size n Hwf H16 Hs (fun _ => Hw) Hi Hm) as (a & st1 & e & st3 & -> & He & Hsp & Ha & Hal).
    cbn [mbind option_bind]. rewrite Hsp. cbn [mbind option_bind]. exists a, st3. split; [done|]. by left.
Qed.
Lemma TryAllocateLargeLocked_spec st L minimum_size : wf_free st L -> is_writable st L ->
  exists r st', TryAllocateLargeLocked page_size st minimum_size = Some (r, st') /\
    ((exists s e, r <> 0 /\ minimum_size <= s /\ mem st' !! r = Some e /\ HeapSize e = s /\ allocated false st L r s st') \/
     (r = 0 /\ (exists b, st' = set_budget st b) /\
      large_too_small L minimum_size (freelist_search_budget_ st + (minimum_size >>> kWordSizeLog2)))).
Proof using Hk.
  intros Hwf Hw. unfold TryAllocateLargeLocked.
  destruct (list_at st L Hwf 128 ltac:(lia)) as (l & p & Hl & Hp & Hch). change kNumLists with 128. rewrite Hp. cbn [mbind option_bind].
  pose proof (chain_length _ _ _ Hch (addresses_nodup st L Hwf 128 l Hl)).
  destruct (search_whole_spec st L minimum_size Hwf Hw (S (base.size (mem st))) [] l 0 p
    (freelist_search_budget_ st + (minimum_size >>> kWordSizeLog2))) as (r & st' & Heq & Hr); [done|done|done|lia|].
  exists r, st'. split; [done|]. destruct Hr as [Hr|(Hr0 & Hb & Hr)]; [by left|]. right. split; [done|]. split; [done|].
  intros m i b Hm' Hb' Hib. change kNumLists with 128 in Hm'. assert (m = l) as -> by congruence. by apply (Hr i).
Qed.

(** ** A heap and its free list

    [owned] are the granules that are not on the free list: allocated objects
    and memory being swept. The mutator may write anything there. *)
Inductive heap_step (region : list Z) : FreeList * list Z -> FreeList * list Z -> Prop :=
| step_free st owned owned' addr size st' :
    good_block (addr, size) -> owned ≡ₚ granules (addr, size) ++ owned' ->
    FreeLocked page_size st addr size = Some st' -> heap_step region (st, owned) (st', owned')
| step_allocate st owned size r st' :
    (16 | size) -> 16 <= size -> TryAllocateLocked page_size st size false = Some (r, st') ->
    heap_step region (st, owned) (st', if r =? 0 then owned else granules (r, size) ++ owned)
| step_allocate_small st owned size r st' :
    (16 | size) -> 16 <= size -> TryAllocateSmallLocked page_size st size = Some (r, st') ->
    heap_step region (st, owned) (st', if r =? 0 then owned else granules (r, size) ++ owned)
| step_allocate_large st owned minimum_size r st' :
    TryAllocateLargeLocked page_size st minimum_size = Some (r, st') ->
    heap_step region (st, owned)
      (st', match mem st' !! r with Some e => if r =? 0 then owned else granules (r, HeapSize e) ++ owned | None => owned end)
| step_mutate st owned m :
    (forall a, a / 16 ∉ owned -> m !! a = mem st !! a) -> heap_step region (st, owned) (set_mem st m, owned)
| step_reset st owned : heap_step region (st, owned) (Reset st, region).

Definition heap_inv (region : list Z) (s : FreeList * list Z) : Prop :=
  exists L, wf_free s.1 L /\ s.2 ++ free_granules L ≡ₚ region /\ forall page, writable s.1 page = true.

Lemma Reset_wf st : wf_free (Reset st) (replicate 129 []).
Proof using.
  assert (Hg : forall i (l : list block), arr_get (replicate 129 []) i = Some l -> l = []).
  { intros i l Hl%arr_get_lookup. by apply lookup_replicate in Hl as [-> _]. }
  assert (Hm : forall j, member (BitSet_Reset kNumLists) j = false) by (intros j; by apply BitSet_Reset_spec).
  split; try done.
  - intros i l p Hl%Hg. subst l. intros Hp%arr_get_lookup. cbn [Reset free_lists_] in Hp. by apply lookup_replicate in Hp as [-> _].
  - intros i l b Hl%Hg. subst l. by intros ?%not_elem_of_nil.
  - cbn. constructor.
  - split; [|done]. by apply (BitSet_Reset_spec kNumLists).
  - intros i l Hl%Hg _. subst l. cbn. by rewrite Hm.
  - left. cbn. split; [lia|done].
Qed.
Lemma chain_agree m m' p l : chain m p l -> (forall a, a ∈ l.*1 -> m' !! a = m !! a) -> chain m' p l.
Proof using.
  revert p. induction l as [|[a s] l IH]; intros p; [done|]. intros [-> (e & He & Hs & Hc)] Ha. split; [done|]. exists e.
  rewrite Ha by (by left). split; [done|]. split; [done|]. apply IH; [done|]. intros b Hb. apply Ha. by right.
Qed.
Lemma is_writable_all st L : (forall page, writable st page = true) -> is_writable st L.
Proof using. intros H g _. apply H. Qed.
Lemma inv_allocated region st owned L r size st' : wf_free st L -> owned ++ free_granules L ≡ₚ region ->
  (forall page, writable st page = true) -> allocated false st L r size st' -> heap_inv region (st', granules (r, size) ++ owned).
Proof using.
  intros Hwf Hp Hw (L' & Hwf' & _ & Hp' & _ & Hw'). exists L'. split; [done|]. split; [|intros page; cbn; by rewrite Hw'].
  cbn. rewrite <- Hp, Hp'. rewrite <- app_assoc. apply Permutation_app_swap_app.
Qed.
Lemma heap_step_inv region s s' : NoDup region -> heap_inv region s -> heap_step region s s' -> heap_inv region s'.
Proof using Hk.
  intros Hnd (L & Hwf & Hp & Hw) Hstep. destruct Hstep as [st owned owned' addr size st' Hg Ho Hf|st owned size r st' H16 Hs Ht|st owned size r st' H16 Hs Ht|st owned size r st' Ht|st owned m Hm|st owned]; cbn [fst snd] in *.
  - rewrite Ho, <- app_assoc in Hp. rewrite <- Hp in Hnd.
    destruct (FreeLocked_spec k Hk st L addr size Hwf Hg) as (st1 & L1 & Hf1 & Hwf1 & Hp1 & Hw1 & _); [|intros; apply Hw|].
    { rewrite (Permutation_app_swap_app (granules _)) in Hnd. by apply list.NoDup_app in Hnd as (_ & _ & ?). }
    rewrite Hf in Hf1. injection Hf1 as <-. exists L1. cbn. split; [done|]. rewrite Hw1. split; [|done].
    rewrite Hp1, <- Hp. apply Permutation_app_swap_app.
  - destruct (TryAllocateLocked_spec false st L size Hwf H16 Hs) as (r1 & st1 & Ht1 & Hr); [intros _; by apply is_writable_all|].
    rewrite Ht in Ht1. injection Ht1 as <- <-. destruct Hr as [[Hr Hal]|(-> & [b ->] & _)].
    + destruct (Z.eqb_spec r 0); [done|]. by apply (inv_allocated region st owned L).
    + cbn. exists L. split; [by apply wf_budget|]. done.
  - destruct (TryAllocateSmallLocked_spec st L size Hwf H16 Hs) as (r1 & st1 & Ht1 & Hr); [by apply is_writable_all|].
    rewrite Ht in Ht1. injection Ht1 as <- <-. destruct Hr as [[Hr Hal]|(-> & -> & _)].
    + destruct (Z.eqb_spec r 0); [done|]. by apply (inv_allocated region st owned L).
    + cbn. by exists L.
  - destruct (TryAllocateLargeLocked_spec st L size Hwf) as (r1 & st1 & Ht1 & Hr); [by apply is_writable_all|].
    rewrite Ht in Ht1. injection Ht1 as <- <-. destruct Hr as [(s & e & Hr & _ & He & <- & Hal)|(-> & [b ->] & _)].
    + rewrite He. destruct (Z.eqb_spec r 0); [done|]. by apply (inv_allocated region st owned L).
    + cbn. exists L. split; [by apply wf_budget|]. cbn. by destruct (mem st !! 0).
  - exists L. cbn. split; [|done]. pose proof Hwf as []. split; try done. cbn. intros i l p Hl Hfp.
    apply (chain_agree (mem st)); [by apply (wf_chain i)|]. intros a Ha. apply Hm. intros Ho.
    rewrite <- Hp in Hnd. apply list.NoDup_app in Hnd as (_ & Hd & _). apply (Hd _ Ho).
    apply list_elem_of_fmap in Ha as ([a' s] & -> & Hin). by apply (head_free st L Hwf i l (a', s)).
  - exists (replicate 129 []). split; [apply Reset_wf|]. split; [|done]. cbn. by rewrite app_nil_r.
Qed.
(** C20: [TryAllocateLocked] refines taking [size] bytes out of the set of free
    granules: from a well-formed free list it never faults and always returns;
    a non-null result is an aligned block of exactly the granules that stop
    being free, all of it writable (in protected mode as well), and the lists
    stay well formed; null is returned only when no block of the exact-size
    lists, and none of the large blocks within the search budget, is big enough,
    and then only the budget changes. *)
Theorem TryAllocateLocked_refines is_protected st L size :
  wf_free st L -> (16 | size) -> 16 <= size -> accessible is_protected st L ->
  exists r st', TryAllocateLocked page_size st size is_protected = Some (r, st') /\
    ((r <> 0 /\ allocated is_protected st L r size st') \/
     (r = 0 /\ (exists b, st' = set_budget st b) /\ small_too_small L size /\
      large_too_small L size (freelist_search_budget_ st + (size >>> kWordSizeLog2)))).
Proof using Hk. apply TryAllocateLocked_spec. Qed.

(** C21: the invariant of a heap and its free list: starting from an empty free
    list, after any sequence of [FreeLocked] of owned blocks, allocations of the
    three kinds, [Reset]s and writes of the mutator to memory it owns, the free
    lists are well formed (the links, the sizes in the headers, the bitmap and
    the largest small size agree) and every granule of the region is either
    owned or free, never both: nothing is handed out twice and nothing is lost.  The
    steps allocate with [is_protected] false, and all pages are writable; [TryAllocateLocked_refines] covers protected mode for one
    allocation. *)
Theorem FreeList_invariant region m w s : NoDup region -> (forall page, w page = true) ->
  rtc (heap_step region) (FreeList_new m w, region) s ->
  exists L, wf_free s.1 L /\ s.2 ++ free_granules L ≡ₚ region /\ NoDup (s.2 ++ free_granules L).
Proof using Hk.
  intros Hnd Hw Hs. assert (Hinv : heap_inv region s).
  { remember (FreeList_new m w, region) as s0 eqn:E. assert (H0 : heap_inv region s0).
    { subst s0. exists (replicate 129 []). split; [apply Reset_wf|]. split; [cbn; by rewrite app_nil_r|done]. }
    clear E. induction Hs as [|s1 s2 s3 H12 _ IH]; [done|]. apply IH. by apply (heap_step_inv region s1). }
  destruct Hinv as (L & Hwf & Hp & _). exists L. split; [done|]. split; [done|]. by rewrite Hp.
Qed.
End Alloc.

(** A block of 64 bytes at 4096 freed, and 32 bytes of it allocated. *)
Lemma TryAllocateLocked_refines_witness : exists st L, wf_free st L /\ free_granules L ≡ₚ [256; 257; 258; 259] /\
  exists r st', TryAllocateLocked (2 ^ 12) st 32 true = Some (r, st') /\
    ((r <> 0 /\ allocated 12 true st L r 32 st') \/
     (r = 0 /\ (exists b, st' = set_budget st b) /\ small_too_small L 32 /\
      large_too_small L 32 (freelist_search_budget_ st + (32 >>> kWordSizeLog2)))).
Proof.
  assert (Hg : good_block (4096, 64)) by (split; [by exists 256|]; split; [by exists 4|]; cbn; lia).
  destruct (FreeLocked_spec 12 ltac:(lia) (FreeList_new ∅ (fun _ => true)) (replicate 129 []) 4096 64) as (st & L & _ & Hwf & Hp & _);
    [apply Reset_wf|done|apply (bool_decide_unpack _); by vm_compute|done|].
  exists st, L. split; [done|]. split; [by rewrite Hp|]. apply (TryAllocateLocked_refines 12 ltac:(lia) true st L 32 Hwf); [by exists 2|lia|done].
Defined.
Lemma FreeList_invariant_witness : exists st owned L, rtc (heap_step 12 [256; 257; 258; 259]) (FreeList_new ∅ (fun _ => true), [256; 257; 258; 259]) (st, owned) /\
  owned = [256; 257] /\ wf_free st L /\ owned ++ free_granules L ≡ₚ [256; 257; 258; 259].
Proof.
  assert (Hg : good_block (4096, 64)) by (split; [by exists 256|]; split; [by exists 4|]; cbn; lia).
  assert (Ht : exists st, rtc (heap_step 12 [256; 257; 258; 259]) (FreeList_new ∅ (fun _ => true), [256; 257; 258; 259]) (st, [256; 257])).
  { eexists. eapply rtc_l; [eapply (step_free 12 _ _ _ [] 4096 64); [done|by rewrite app_nil_r|vm_compute; reflexivity]|].
    eapply rtc_l; [eapply (step_allocate 12 _ _ _ 32); [by exists 2|lia|vm_compute; reflexivity]|]. apply rtc_refl. }
  assert (Hnd : NoDup [256; 257; 258; 259]) by (apply (bool_decide_unpack _); by vm_compute).
  destruct Ht as [st Hs]. destruct (FreeList_invariant 12 ltac:(lia) _ _ _ _ Hnd (fun _ => eq_refl) Hs) as (L & Hwf & Hp & _).
  by exists st, [256; 257], L.
Defined.
