(* ===== verification/Messages.v ===== *)
(** * Messages, message queues and message handlers
    (src/runtime/vm/message.{h,cc}, message_handler.{h,cc})

    A [MessageQueue] is a singly linked list of the messages that it owns:
    [store] maps the address of a message to the message, the null pointer is
    0, and [None] is a dereferenced pointer to no live message. A
    [MessageHandler] has two queues and handles messages while its monitor is
    released: what a handler does and what other threads post meanwhile is a
    parameter, a tree of what it calls on the handler: posts, changes of [paused_]
    and, at interrupts, [HandleOOBMessages] again. *)
From stdpp Require Import gmap.
From S2P Require Import Prelude.
Local Open Scope Z_scope.

(** ** Messages *)
Inductive Priority := kNormalPriority | kOOBPriority.
#[global] Instance Priority_eq_dec : EqDecision Priority.
Proof. solve_decision. Defined.
Definition kIllegalPort : Z := 0.

Record Message := MkMessage {
  msg_next : Z; dest_port_ : Z; delivery_failure_port_ : Z; snapshot_ : Z; snapshot_length_ : Z; priority_ : Priority }.
Definition set_msg_next (m : Message) (next : Z) : Message :=
  MkMessage next (dest_port_ m) (delivery_failure_port_ m) (snapshot_ m) (snapshot_length_ m) (priority_ m).
Definition IsOOB (m : Message) : bool := match priority_ m with kOOBPriority => true | kNormalPriority => false end.
(** [None]: there is no port to redirect the message to. *)
Definition RedirectToDeliveryFailurePort (m : Message) : option Message :=
  if delivery_failure_port_ m =? kIllegalPort then None
  else Some (MkMessage (msg_next m) (delivery_failure_port_ m) kIllegalPort (snapshot_ m) (snapshot_length_ m) (priority_ m)).

(** ** Message queues *)
Record MessageQueue := MkQueue { store : gmap Z Message; head_ : Z; tail_ : Z }.
Definition MessageQueue_new : MessageQueue := MkQueue ∅ 0 0.
Definition link (s : gmap Z Message) (p next : Z) : option (gmap Z Message) :=
  m ← s !! p; Some (<[p := set_msg_next m next]> s).

Definition append (s : gmap Z Message) (head tail msg : Z) : option MessageQueue :=
  s ← link s tail msg; Some (MkQueue s head msg).
(** The search for the break after the isolate library messages. *)
Fixpoint splice (fuel : nat) (s : gmap Z Message) (head tail msg cur : Z) : option MessageQueue :=
  match fuel with
  | O => None
  | S fuel =>
      c ← s !! cur;
      if negb (msg_next c =? 0) then
        n ← s !! msg_next c;
        if negb (dest_port_ n =? kIllegalPort) then
          s ← link s msg (msg_next c);
          s ← link s cur msg;
          Some (MkQueue s head tail)
        else splice fuel s head tail msg (msg_next c)
      else append s head tail msg
  end.
Definition Enqueue (q : MessageQueue) (msg : Z) (m : Message) (before_events : bool) : option MessageQueue :=
  let s := <[msg := m]> (store q) in
  if head_ q =? 0 then Some (MkQueue s msg msg)
  else if negb before_events then append s (head_ q) (tail_ q) msg
  else
    h ← s !! head_ q;
    if negb (dest_port_ h =? kIllegalPort) then
      s ← link s msg (head_ q);
      Some (MkQueue s msg (tail_ q))
    else splice (S (size s)) s (head_ q) (tail_ q) msg (head_ q).
(** The message that leaves the queue with its address, if there is one. *)
Definition Dequeue (q : MessageQueue) : option (option (Z * Message) * MessageQueue) :=
  if head_ q =? 0 then Some (None, q)
  else
    result ← store q !! head_ q;
    let head := msg_next result in
    Some (Some (head_ q, result), MkQueue (delete (head_ q) (store q)) head (if head =? 0 then 0 else tail_ q)).
Definition IsEmpty (q : MessageQueue) : bool := head_ q =? 0.
Fixpoint MessageQueue_Clear_loop (fuel : nat) (s : gmap Z Message) (cur : Z) : option (list (Z * Message)) :=
  match fuel with
  | O => None
  | S fuel =>
      if cur =? 0 then Some []
      else
        c ← s !! cur;
        rest ← MessageQueue_Clear_loop fuel s (msg_next c);
        Some (match RedirectToDeliveryFailurePort c with Some c => (cur, c) :: rest | None => rest end)
  end.
(** The messages to post to their delivery failure ports, in order. *)
Definition MessageQueue_Clear (q : MessageQueue) : option (list (Z * Message) * MessageQueue) :=
  l ← MessageQueue_Clear_loop (S (size (store q))) (store q) (head_ q); Some (l, MessageQueue_new).
Fixpoint Length_queue (fuel : nat) (s : gmap Z Message) (next : Z) (length : Z) : option Z :=
  match fuel with
  | O => None
  | S fuel => if next =? 0 then Some length else c ← s !! next; Length_queue fuel s (msg_next c) (length + 1)
  end.
Definition Length (q : MessageQueue) : option Z := Length_queue (S (size (store q))) (store q) (head_ q) 0.
Fixpoint FindMessageById_loop (fuel : nat) (s : gmap Z Message) (next id : Z) : option Z :=
  match fuel with
  | O => None
  | S fuel => if next =? 0 then Some 0 else c ← s !! next; if next =? id then Some next else FindMessageById_loop fuel s (msg_next c) id
  end.
Definition FindMessageById (q : MessageQueue) (id : Z) : option Z :=
  FindMessageById_loop (S (size (store q))) (store q) (head_ q) id.

(** ** The queue as a list *)
(** Messages with their addresses; the links are not part of the contents. *)
Definition message_body (m : Message) : Message := set_msg_next m 0.
Fixpoint linked (s : gmap Z Message) (p : Z) (l : list (Z * Message)) : Prop :=
  match l with
  | [] => p = 0
  | (a, b) :: l => p = a /\ a <> 0 /\ exists m, s !! a = Some m /\ message_body m = b /\ linked s (msg_next m) l
  end.
Definition last_message (l : list (Z * Message)) : Z := match list.last l with Some x => x.1 | None => 0 end.
Record queue_rep (q : MessageQueue) (l : list (Z * Message)) : Prop := {
  rep_linked : linked (store q) (head_ q) l;
  rep_nodup : NoDup (l.*1);
  rep_tail : tail_ q = last_message l;
  rep_dom : forall a, is_Some (store q !! a) <-> a ∈ l.*1 }.

Definition is_event (x : Z * Message) : bool := negb (dest_port_ x.2 =? kIllegalPort).
(** Insertion before the first event. *)
Fixpoint before_first_event (x : Z * Message) (l : list (Z * Message)) : list (Z * Message) :=
  match l with
  | [] => [x]
  | y :: l' => if is_event y then x :: l else y :: before_first_event x l'
  end.
Definition enqueue_spec (x : Z * Message) (before_events : bool) (l : list (Z * Message)) : list (Z * Message) :=
  if before_events then before_first_event x l else l ++ [x].

Lemma linked_frame s p l a m : linked s p l -> a ∉ l.*1 -> linked (<[a := m]> s) p l.
Proof.
  revert p. induction l as [|[b c] l IH]; intros p; [done|]. intros (-> & Hne & m' & Hm & Hc & Hl) [Ha Hni]%not_elem_of_cons.
  split; [done|]. split; [done|]. exists m'. rewrite lookup_insert_ne by done. split; [done|]. split; [done|]. by apply IH.
Qed.
Lemma linked_delete s p l a : linked s p l -> a ∉ l.*1 -> linked (delete a s) p l.
Proof.
  revert p. induction l as [|[b c] l IH]; intros p; [done|]. intros (-> & Hne & m' & Hm & Hc & Hl) [Ha Hni]%not_elem_of_cons.
  split; [done|]. split; [done|]. exists m'. rewrite lookup_delete_ne by done. split; [done|]. split; [done|]. by apply IH.
Qed.
Lemma linked_null s p l : linked s p l -> p = 0 <-> l = [].
Proof. destruct l as [|[a b] l]; [done|]. intros (-> & Hne & _). split; [done|]. by intros. Qed.
Lemma linked_length s p l : linked s p l -> NoDup (l.*1) -> (length l <= size s)%nat.
Proof.
  intros Hl Hnd. assert (length l = length (l.*1)) as -> by (symmetry; apply length_fmap).
  rewrite <- length_map_to_list, <- (length_fmap fst (map_to_list s)). apply submseteq_length, NoDup_submseteq; [done|].
  intros a Ha. assert (exists m, s !! a = Some m) as [m Hm].
  { clear Hnd. revert p Hl. induction l as [|[b c] l IH]; intros p Hl; [by apply not_elem_of_nil in Ha|].
    destruct Hl as (-> & _ & m & Hm & _ & Hl). apply elem_of_cons in Ha as [->|Ha]; [by exists m|by eapply IH]. }
  apply list_elem_of_fmap. exists (a, m). split; [done|]. by apply elem_of_map_to_list.
Qed.
(** Inserting a message behind another one. *)
Lemma linked_mid s p l1 a b l2 : linked s p (l1 ++ (a, b) :: l2) ->
  a <> 0 /\ exists m, s !! a = Some m /\ message_body m = b /\ linked s (msg_next m) l2.
Proof.
  revert p. induction l1 as [|[c d] l1 IH]; intros p; [by intros (-> & ? & m & ?); split; [|exists m]|].
  intros (_ & _ & m & _ & _ & Hl). by eapply IH.
Qed.
Lemma linked_insert s p l1 a b l2 x m ma :
  linked s p (l1 ++ (a, b) :: l2) -> NoDup ((l1 ++ (a, b) :: l2).*1) -> x ∉ (l1 ++ (a, b) :: l2).*1 -> x <> 0 ->
  s !! x = Some m -> s !! a = Some ma -> msg_next m = msg_next ma ->
  linked (<[a := set_msg_next ma x]> s) p (l1 ++ (a, b) :: (x, message_body m) :: l2).
Proof.
  intros Hl Hnd Hx Hx0 Hm Hma Hn. revert p Hl Hnd Hx. induction l1 as [|[c d] l1 IH]; intros p Hl Hnd Hx.
  - destruct Hl as (-> & Hne & m' & Hm' & Hc & Hl). assert (m' = ma) as -> by congruence. cbn in Hnd, Hx.
    apply list.NoDup_cons in Hnd as [Hnd _]. apply not_elem_of_cons in Hx as [Hxa Hx].
    split; [done|]. split; [done|]. eexists. rewrite lookup_insert_eq. split; [done|]. split; [done|]. split; [done|]. split; [done|].
    exists m. rewrite lookup_insert_ne by done. split; [done|]. split; [done|]. rewrite Hn. by apply linked_frame.
  - destruct Hl as (-> & Hne & m' & Hm' & Hd & Hl). cbn in Hnd, Hx. apply list.NoDup_cons in Hnd as [Hc Hnd].
    apply not_elem_of_cons in Hx as [_ Hx]. split; [done|]. split; [done|].
    exists m'. rewrite lookup_insert_ne. { split; [done|]. split; [done|]. by apply IH. }
    intros ->. apply Hc. apply list_elem_of_fmap. exists (c, b). split; [done|]. apply elem_of_app. right. by left.
Qed.
Lemma insert_dom (s : gmap Z Message) a m m' : s !! a = Some m -> forall c, is_Some (<[a := m']> s !! c) <-> is_Some (s !! c).
Proof.
  intros Ha c. destruct (decide (a = c)) as [->|Hne]; [by rewrite lookup_insert_eq, Ha|by rewrite lookup_insert_ne].
Qed.

(** What an insertion into the store [s], which has the new message, does. *)
Definition queue_inserted (s : gmap Z Message) (head : Z) (l : list (Z * Message)) (q : MessageQueue) : Prop :=
  linked (store q) (head_ q) l /\ tail_ q = last_message l /\ forall c, is_Some (store q !! c) <-> is_Some (s !! c).

Section Insert.
Context (s : gmap Z Message) (head x : Z) (m : Message) (Hx0 : x <> 0) (Hx : s !! x = Some m) (Hn : msg_next m = 0).

Lemma append_spec l0 a b : linked s head (l0 ++ [(a, b)]) -> NoDup ((l0 ++ [(a, b)]).*1) -> x ∉ (l0 ++ [(a, b)]).*1 ->
  exists q, append s head a x = Some q /\ queue_inserted s head (l0 ++ [(a, b); (x, message_body m)]) q.
Proof using Hx0 Hx Hn.
  intros Hl Hnd Hxl. destruct (linked_mid s head l0 a b [] Hl) as (_ & ma & Hma & _ & Hnext). unfold append, link. rewrite Hma.
  cbn [mbind option_bind]. eexists. split; [reflexivity|]. cbn in Hnext. split; [|split; [|by eapply insert_dom]].
  - by apply linked_insert; try done; rewrite Hn, Hnext.
  - unfold last_message. cbn. by rewrite last_app.
Qed.
Lemma splice_spec fuel : forall l1 cur b l2 tail, linked s head (l1 ++ (cur, b) :: l2) -> NoDup ((l1 ++ (cur, b) :: l2).*1) ->
  x ∉ (l1 ++ (cur, b) :: l2).*1 -> tail = last_message (l1 ++ (cur, b) :: l2) -> (length l2 < fuel)%nat ->
  exists q, splice fuel s head tail x cur = Some q /\ queue_inserted s head (l1 ++ (cur, b) :: before_first_event (x, message_body m) l2) q.
Proof using Hx0 Hx Hn.
  induction fuel as [|fuel IH]; intros l1 cur b l2 tail Hl Hnd Hxl Ht Hf; [lia|]. cbn [splice].
  destruct (linked_mid s head l1 cur b l2 Hl) as (Hc0 & c & Hc & Hb & Hnext). rewrite Hc. cbn [mbind option_bind].
  destruct l2 as [|[n d] l2]; cbn in Hnext.
  - rewrite Hnext. cbn. rewrite Ht. unfold last_message. rewrite last_app. cbn. by apply append_spec.
  - destruct Hnext as (Hn' & Hn0 & mn & Hmn & Hd & Hl2). rewrite Hn'. destruct (Z.eqb_spec n 0) as [|_]; [done|]. cbn [negb].
    rewrite Hmn. cbn [mbind option_bind before_first_event]. unfold is_event. cbn [snd]. subst d. cbn [message_body set_msg_next dest_port_].
    destruct (negb (dest_port_ mn =? kIllegalPort)) eqn:E.
    + assert (Hxc : x <> cur).
      { intros ->. apply Hxl. apply list_elem_of_fmap. exists (cur, b). split; [done|]. apply elem_of_app. right. by left. }
      assert (link s x n = Some (<[x := set_msg_next m n]> s)) as -> by (unfold link; by rewrite Hx). cbn [mbind option_bind].
      unfold link. rewrite lookup_insert_ne by done. rewrite Hc. cbn [mbind option_bind]. eexists. split; [reflexivity|]. split; [|split].
      * apply (linked_insert _ _ _ _ _ _ x (set_msg_next m n)); try done; [by apply linked_frame|by rewrite lookup_insert_eq|].
        by rewrite lookup_insert_ne.
      * cbn. rewrite Ht. unfold last_message. by rewrite !last_app.
      * intros c'. cbn. rewrite (insert_dom _ cur c); [by apply (insert_dom s x m)|]. by rewrite lookup_insert_ne.
    + destruct (IH (l1 ++ [(cur, b)]) n (message_body mn) l2 tail) as (q & Hq & Hins); rewrite <- ?app_assoc; try done; [cbn in Hf; lia|].
      exists q. split; [done|]. by rewrite <- app_assoc in Hins.
Qed.
End Insert.

Lemma elem_enqueue x be l y : y ∈ enqueue_spec x be l <-> y = x \/ y ∈ l.
Proof.
  unfold enqueue_spec. destruct be; [|rewrite elem_of_app, list_elem_of_singleton; tauto].
  induction l as [|z l IH]; cbn; [by rewrite list_elem_of_singleton; split; [left|intros [?|?%not_elem_of_nil]]|].
  destruct (is_event z); rewrite !elem_of_cons, ?IH; tauto.
Qed.
Lemma perm_enqueue x be l : enqueue_spec x be l ≡ₚ x :: l.
Proof.
  unfold enqueue_spec. destruct be; [|by rewrite Permutation_app_comm].
  induction l as [|z l IH]; cbn; [done|]. destruct (is_event z); [done|]. rewrite IH. apply perm_swap.
Qed.
Lemma queue_rep_new : queue_rep MessageQueue_new [].
Proof.
  split; cbn; try done; [constructor|]. intros a. unfold MessageQueue_new; cbn. rewrite lookup_empty. split; [by intros []|by intros ?%not_elem_of_nil].
Qed.
Lemma Enqueue_spec q l x m be : queue_rep q l -> x <> 0 -> x ∉ l.*1 -> msg_next m = 0 ->
  exists q', Enqueue q x m be = Some q' /\ queue_rep q' (enqueue_spec (x, message_body m) be l).
Proof.
  intros [Hl Hnd Ht Hd] Hx0 Hx Hn.
  assert (Hl' : linked (<[x := m]> (store q)) (head_ q) l) by by apply linked_frame.
  assert (Hxm : <[x := m]> (store q) !! x = Some m) by by rewrite lookup_insert_eq.
  assert (Hrep : forall q', queue_inserted (<[x := m]> (store q)) (head_ q) (enqueue_spec (x, message_body m) be l) q' ->
    queue_rep q' (enqueue_spec (x, message_body m) be l)).
  { intros q' (H1 & H2 & H3). split; [done| |done|].
    - rewrite perm_enqueue. cbn. by constructor.
    - intros a. rewrite H3, perm_enqueue. cbn. rewrite elem_of_cons, <- Hd. destruct (decide (x = a)) as [->|Hne].
      + rewrite lookup_insert_eq. split; [by left|done].
      + rewrite lookup_insert_ne by done. split; [by right|]. intros [?|?]; [by subst a|done]. }
  unfold Enqueue. destruct (Z.eqb_spec (head_ q) 0) as [H0|H0].
  { apply (linked_null _ _ _ Hl) in H0. subst l. eexists. split; [reflexivity|]. apply Hrep. split; [|split; [by destruct be|done]].
    destruct be; cbn; (split; [done|]; split; [done|]; exists m; by rewrite lookup_insert_eq). }
  destruct l as [|[h b] l] using rev_ind; [by destruct H0|]. clear IHl.
  destruct be; cbn [negb].
  2: { destruct (append_spec _ (head_ q) x m Hx0 Hxm Hn l h b) as (q' & Hq & Hins); [done|done|done|].
       rewrite Ht. unfold last_message. rewrite last_app. cbn. exists q'. split; [done|]. apply Hrep. unfold enqueue_spec. by rewrite <- app_assoc. }
  destruct (l ++ [(h, b)]) as [|[h' b'] l'] eqn:El; [by destruct l|]. clear El h b l.
  destruct Hl' as (Hh & Hh0 & mh & Hmh & Hb & Hl'). rewrite Hh, Hmh. cbn [mbind option_bind].
  subst b'. change (negb (dest_port_ mh =? kIllegalPort)) with (is_event (h', message_body mh)).
  destruct (is_event (h', message_body mh)) eqn:E.
  - unfold link. rewrite Hxm. cbn [mbind option_bind]. eexists. split; [reflexivity|]. apply Hrep. rewrite insert_insert_eq.
    cbn [enqueue_spec before_first_event]. rewrite E. split; [|split].
    + cbn. split; [done|]. split; [done|]. eexists. rewrite lookup_insert_eq. split; [done|]. split; [done|].
      pose proof (linked_frame _ _ _ x (set_msg_next m h') Hl Hx) as Hf. rewrite Hh in Hf. exact Hf.
    + cbn. rewrite Ht. done.
    + intros c. cbn. destruct (decide (x = c)) as [->|]; [by rewrite !lookup_insert_eq|by rewrite !lookup_insert_ne].
  - destruct (splice_spec (<[x := m]> (store q)) (head_ q) x m Hx0 Hxm Hn (S (size (<[x := m]> (store q)))) [] h' (message_body mh) l' (tail_ q))
      as (q' & Hq & Hins); try done; [by apply linked_frame| |].
    + pose proof (linked_length _ _ _ Hl Hnd) as Hlen. cbn in Hlen. rewrite map_size_insert. destruct (store q !! x); unfold id; lia.
    + rewrite Hh in Hq. exists q'. split; [done|]. apply Hrep. cbn [enqueue_spec before_first_event]. by rewrite E.
Qed.
Lemma Dequeue_spec q l : queue_rep q l ->
  match l with
  | [] => Dequeue q = Some (None, q)
  | (a, b) :: l => exists m q', Dequeue q = Some (Some (a, m), q') /\ message_body m = b /\ queue_rep q' l
  end.
Proof.
  intros [Hl Hnd Ht Hd]. unfold Dequeue. destruct l as [|[a b] l]; cbn in Hl; [by rewrite Hl|]. 
  destruct Hl as (Heq & Ha0 & m & Hm & Hb & Hl). subst a. destruct (Z.eqb_spec (head_ q) 0) as [|_]; [done|]. rewrite Hm. cbn [mbind option_bind].
  cbn in Hnd. apply list.NoDup_cons in Hnd as [Ha Hnd]. eexists m, _. split; [reflexivity|]. split; [done|]. split; cbn; [by apply linked_delete|done| |].
  - pose proof (linked_null _ _ _ Hl) as Hnull. destruct (Z.eqb_spec (msg_next m) 0) as [H0|H0].
    + apply Hnull in H0. by subst l.
    + destruct l as [|y l]; [by destruct H0; apply Hnull|]. done.
  - intros c. destruct (decide (head_ q = c)) as [<-|Hne].
    + rewrite lookup_delete_eq. split; [by intros []|done].
    + rewrite lookup_delete_ne, Hd by done. cbn. rewrite elem_of_cons. split; [by intros [->|]|by right].
Qed.
Definition redirected (x : Z * Message) : option (Z * Message) := m ← RedirectToDeliveryFailurePort x.2; Some (x.1, m).
Lemma MessageQueue_Clear_spec q l : queue_rep q l -> exists r, MessageQueue_Clear q = Some (r, MessageQueue_new) /\
  (fun x => (x.1, message_body x.2)) <$> r = omap redirected l.
Proof.
  intros [Hl Hnd _ _]. unfold MessageQueue_Clear. pose proof (linked_length _ _ _ Hl Hnd) as Hlen. revert Hlen. generalize (size (store q)) as n.
  assert (H : forall n p, linked (store q) p l -> (length l <= n)%nat ->
    exists r, MessageQueue_Clear_loop (S n) (store q) p = Some r /\ (fun x => (x.1, message_body x.2)) <$> r = omap redirected l).
  { clear Hl Hnd. induction l as [|[a b] l IH]; intros n p Hl Hn.
    { cbn in Hl. subst p. by exists []. }
    destruct Hl as (-> & Ha0 & m & Hm & Hb & Hl). cbn in Hn. destruct n as [|n]; [lia|].
    destruct (IH n (msg_next m) Hl ltac:(lia)) as (r & Hr & Hr'). cbn [MessageQueue_Clear_loop]. destruct (Z.eqb_spec a 0); [done|].
    rewrite Hm. cbn [mbind option_bind]. cbn [MessageQueue_Clear_loop] in Hr. rewrite Hr. cbn [mbind option_bind]. eexists. split; [reflexivity|].
    cbn [omap list_omap]. unfold redirected at 1. cbn [fst snd]. subst b. unfold RedirectToDeliveryFailurePort. cbn [message_body set_msg_next delivery_failure_port_].
    destruct (_ =? kIllegalPort); cbn [mbind option_bind]; [done|]. cbn. f_equal. exact Hr'. }
  intros n Hlen. destruct (H n _ Hl Hlen) as (r & Hr & Hr'). exists r. rewrite Hr. done.
Qed.
Lemma Length_spec q l : queue_rep q l -> Length q = Some (zlen l).
Proof.
  intros [Hl Hnd _ _]. unfold Length, zlen. pose proof (linked_length _ _ _ Hl Hnd) as Hlen. revert Hl Hlen.
  generalize (size (store q)) (head_ q). clear Hnd. rewrite <- (Z.add_0_l (Z.of_nat (length l))). generalize 0.
  induction l as [|[a b] l IH]; intros k n p Hl Hn.
  - cbn in Hl. subst p. cbn. by rewrite Z.add_0_r.
  - destruct Hl as (-> & Ha0 & m & Hm & _ & Hl). cbn in Hn. destruct n as [|n]; [lia|]. cbn [Length_queue]. destruct (Z.eqb_spec a 0); [done|].
    rewrite Hm. cbn [mbind option_bind]. etransitivity; [apply (IH (k + 1) n); [done|lia]|]. f_equal. cbn [length]. lia.
Qed.
Lemma FindMessageById_spec q l id : queue_rep q l -> FindMessageById q id = Some (if decide (id ∈ l.*1) then id else 0).
Proof.
  intros [Hl Hnd _ _]. unfold FindMessageById. pose proof (linked_length _ _ _ Hl Hnd) as Hlen. revert Hl Hlen.
  generalize (size (store q)) (head_ q). clear Hnd. induction l as [|[a b] l IH]; intros n p Hl Hn.
  - cbn in Hl. subst p. cbn. destruct (decide _) as [?%not_elem_of_nil|]; done.
  - destruct Hl as (-> & Ha0 & m & Hm & _ & Hl). cbn in Hn. destruct n as [|n]; [lia|]. cbn [FindMessageById_loop]. destruct (Z.eqb_spec a 0); [done|].
    rewrite Hm. cbn [mbind option_bind]. destruct (Z.eqb_spec a id) as [->|Hne].
    + rewrite decide_True; [done|]. by left.
    + etransitivity; [apply (IH n); [done|lia]|]. f_equal. apply decide_ext. cbn. rewrite elem_of_cons. split; [by right|by intros [->|]].
Qed.

(** ** Message handlers *)
Inductive MessageStatus := kOK | kError | kRestart | kShutdown.
#[global] Instance MessageStatus_eq_dec : EqDecision MessageStatus.
Proof. solve_decision. Defined.
Definition status_value (s : MessageStatus) : Z := match s with kOK => 0 | kError => 1 | kRestart => 2 | kShutdown => 3 end.

Record MessageHandler := MkHandler {
  queue_ : MessageQueue;
  oob_queue_ : MessageQueue;
  oob_message_handling_allowed_ : bool;
  live_ports_ : Z;
  paused_ : Z;
  delete_me_ : bool;
  pool_ : bool;
  task_ : bool;
  idle_start_time_ : Z }.
Definition set_queue (h : MessageHandler) q : MessageHandler :=
  MkHandler q (oob_queue_ h) (oob_message_handling_allowed_ h) (live_ports_ h) (paused_ h) (delete_me_ h) (pool_ h) (task_ h) (idle_start_time_ h).
Definition set_oob_queue (h : MessageHandler) q : MessageHandler :=
  MkHandler (queue_ h) q (oob_message_handling_allowed_ h) (live_ports_ h) (paused_ h) (delete_me_ h) (pool_ h) (task_ h) (idle_start_time_ h).
Definition set_live_ports (h : MessageHandler) n : MessageHandler :=
  MkHandler (queue_ h) (oob_queue_ h) (oob_message_handling_allowed_ h) n (paused_ h) (delete_me_ h) (pool_ h) (task_ h) (idle_start_time_ h).
Definition set_paused (h : MessageHandler) p : MessageHandler :=
  MkHandler (queue_ h) (oob_queue_ h) (oob_message_handling_allowed_ h) (live_ports_ h) p (delete_me_ h) (pool_ h) (task_ h) (idle_start_time_ h).
Definition set_task (h : MessageHandler) t : MessageHandler :=
  MkHandler (queue_ h) (oob_queue_ h) (oob_message_handling_allowed_ h) (live_ports_ h) (paused_ h) (delete_me_ h) (pool_ h) t (idle_start_time_ h).
Definition set_idle_start_time (h : MessageHandler) t : MessageHandler :=
  MkHandler (queue_ h) (oob_queue_ h) (oob_message_handling_allowed_ h) (live_ports_ h) (paused_ h) (delete_me_ h) (pool_ h) (task_ h) t.
Definition set_delete_me (h : MessageHandler) d : MessageHandler :=
  MkHandler (queue_ h) (oob_queue_ h) (oob_message_handling_allowed_ h) (live_ports_ h) (paused_ h) d (pool_ h) (task_ h) (idle_start_time_ h).
Definition MessageHandler_new : MessageHandler := MkHandler MessageQueue_new MessageQueue_new true 0 0 false false false 0.

Definition Handler_PostMessage (h : MessageHandler) (x : Z) (m : Message) (before_events : bool) : option MessageHandler :=
  h ← (if IsOOB m then q ← Enqueue (oob_queue_ h) x m before_events; Some (set_oob_queue h q)
       else q ← Enqueue (queue_ h) x m before_events; Some (set_queue h q));
  Some (if pool_ h && negb (task_ h) then set_task h true else h).
Definition DequeueMessage (h : MessageHandler) (min_priority : Priority) : option (option (Z * Message) * MessageHandler) :=
  '(message, q) ← Dequeue (oob_queue_ h);
  let h := set_oob_queue h q in
  match message, min_priority with
  | None, kNormalPriority => '(message, q) ← Dequeue (queue_ h); Some (message, set_queue h q)
  | _, _ => Some (message, h)
  end.
Definition CloseAllPorts (h : MessageHandler) : option (list (Z * Message) * MessageHandler) :=
  '(r1, q) ← MessageQueue_Clear (queue_ h);
  '(r2, oob) ← MessageQueue_Clear (oob_queue_ h);
  Some (r1 ++ r2, set_oob_queue (set_queue h q) oob).
Definition HasLivePorts (h : MessageHandler) : bool := live_ports_ h >? 0.
Definition HasOOBMessages (h : MessageHandler) : bool := negb (IsEmpty (oob_queue_ h)).
Definition HasMessages (h : MessageHandler) : bool := negb (IsEmpty (queue_ h)).

(** The address of a new message: one that no queued message has. *)
Definition above (s : gmap Z Message) : Z := foldr (fun x r => Z.max (x.1 + 1) r) 1 (map_to_list s).
Definition new_address (h : MessageHandler) : Z := Z.max (above (store (queue_ h))) (above (store (oob_queue_ h))).

Section HandleMessages.
Context {Env : Type}.
(** What happens to the handler while a message is handled, with the monitor
    released: messages are posted (by the isolate or by other threads), [paused_] is
    changed by [d], and [HandleOOBMessages] is called again when the code that
    runs checks for interrupts ([Thread::HandleInterrupts]); what follows depends on its status. *)
Inductive Handling :=
| Handled (env : Env) (status : MessageStatus)
| Posting (m : Message) (before_events : bool) (rest : Handling)
| Pausing (d : Z) (rest : Handling)
| HandlingOOB (env : Env) (rest : Env -> MessageStatus -> Handling).
Context (HandleMessage : Env -> Z * Message -> Handling).
Context (PostToPort : Env -> Z * Message -> Env).
Context (FLAG_idle_timeout_micros : Z) (GetCurrentMonotonicMicros : Env -> Z).

(** [oob] is [HandleOOBMessages]; the messages that were handled, in order,
    come with the result. *)
Fixpoint run_handling (oob : Env -> MessageHandler -> option (Env * MessageHandler * MessageStatus * list (Z * Message))) (h : MessageHandler) (a : Handling)
    : option (Env * MessageHandler * MessageStatus * list (Z * Message)) :=
  match a with
  | Handled env status => Some (env, h, status, [])
  | Posting m before_events rest => h ← Handler_PostMessage h (new_address h) (message_body m) before_events; run_handling oob h rest
  | Pausing d rest => run_handling oob (set_paused h (paused_ h + d)) rest
  | HandlingOOB env rest =>
      '(env, h, status, log) ← oob env h;
      '(env, h, status, log') ← run_handling oob h (rest env status);
      Some (env, h, status, log ++ log')
  end.

Definition min_priority (max_status : MessageStatus) (allow_normal_messages : bool) (h : MessageHandler) : Priority :=
  if bool_decide (max_status = kOK) && allow_normal_messages && negb (paused_ h >? 0) then kNormalPriority else kOOBPriority.
(** A nested [HandleOOBMessages] is this loop again, from [HandleMessages]
    with [false] twice. *)
Fixpoint HandleMessages_loop (fuel : nat) (env : Env) (h : MessageHandler) (allow_normal_messages allow_multiple_normal_messages : bool)
    (max_status : MessageStatus) (message : option (Z * Message)) (log : list (Z * Message))
    : option (Env * MessageHandler * MessageStatus * list (Z * Message)) :=
  match fuel with
  | O => None
  | S fuel =>
      match message with
      | None => Some (env, h, max_status, log)
      | Some (x, m) =>
          let oob env h :=
            if negb (oob_message_handling_allowed_ h) then Some (env, h, kOK, [])
            else
              '(message, h) ← DequeueMessage h (min_priority kOK false h);
              HandleMessages_loop fuel env h false false kOK message [] in
          '(env, h, status, nested) ← run_handling oob h (HandleMessage env (x, message_body m));
          let max_status := if status_value status >? status_value max_status then status else max_status in
          let log := log ++ (x, message_body m) :: nested in
          match status with
          | kShutdown =>
              '(redirected, q) ← MessageQueue_Clear (oob_queue_ h);
              Some (foldl PostToPort env redirected, set_oob_queue h q, max_status, log)
          | _ =>
              let h := if negb (FLAG_idle_timeout_micros =? 0) && negb (IsOOB m)
                       then set_idle_start_time h (GetCurrentMonotonicMicros env) else h in
              let allow_normal_messages :=
                if negb (IsOOB m) && negb allow_multiple_normal_messages then false else allow_normal_messages in
              '(message, h) ← DequeueMessage h (min_priority max_status allow_normal_messages h);
              HandleMessages_loop fuel env h allow_normal_messages allow_multiple_normal_messages max_status message log
          end
      end
  end.
Definition HandleMessages (fuel : nat) (env : Env) (h : MessageHandler) (allow_normal_messages allow_multiple_normal_messages : bool)
    : option (Env * MessageHandler * MessageStatus * list (Z * Message)) :=
  '(message, h) ← DequeueMessage h (min_priority kOK allow_normal_messages h);
  HandleMessages_loop fuel env h allow_normal_messages allow_multiple_normal_messages kOK message [].
Definition HandleNextMessage (fuel : nat) (env : Env) (h : MessageHandler) := HandleMessages fuel env h true false.
Definition HandleOOBMessages (fuel : nat) (env : Env) (h : MessageHandler) :=
  if negb (oob_message_handling_allowed_ h) then Some (env, h, kOK, []) else HandleMessages fuel env h false false.

(** ** What a handler delivers *)
(** The next message: an OOB message, or a normal one if that is allowed. *)
Definition next_message (normal : bool) (o n : list (Z * Message)) : option (Z * Message * list (Z * Message) * list (Z * Message)) :=
  match o, n with
  | x :: o, n => Some (x, o, n)
  | [], x :: n => if normal then Some (x, [], n) else None
  | [], [] => None
  end.
Definition normal_allowed (max_status : MessageStatus) (allow_normal_messages : bool) (paused : Z) : bool :=
  bool_decide (max_status = kOK) && allow_normal_messages && negb (paused >? 0).
Definition worst (status max_status : MessageStatus) : MessageStatus :=
  if status_value status >? status_value max_status then status else max_status.

(** [delivery]: messages are taken one by one, OOB messages first; [handling]:
    what happens during one of them, under fresh addresses for what arrives.  The last argument is the list of the messages
    handled. *)
Inductive delivery (oob_allowed : bool) : bool -> Env -> bool -> MessageStatus -> Z -> list (Z * Message) -> list (Z * Message) ->
    Env -> MessageStatus -> Z -> list (Z * Message) -> list (Z * Message) -> list (Z * Message) -> Prop :=
| delivery_done multiple env allow max_status paused o n :
    next_message (normal_allowed max_status allow paused) o n = None ->
    delivery oob_allowed multiple env allow max_status paused o n env max_status paused o n []
| delivery_shutdown multiple env allow max_status paused o n x o1 n1 env' paused' o2 n2 log redirected' :
    next_message (normal_allowed max_status allow paused) o n = Some (x, o1, n1) ->
    handling oob_allowed paused o1 n1 (HandleMessage env x) env' kShutdown paused' o2 n2 log ->
    (fun x => (x.1, message_body x.2)) <$> redirected' = omap redirected o2 ->
    delivery oob_allowed multiple env allow max_status paused o n (foldl PostToPort env' redirected') kShutdown paused' [] n2 (x :: log)
| delivery_step multiple env allow max_status paused o n x o1 n1 env1 status paused1 o2 n2 log1 env' status' paused' o' n' log :
    next_message (normal_allowed max_status allow paused) o n = Some (x, o1, n1) ->
    handling oob_allowed paused o1 n1 (HandleMessage env x) env1 status paused1 o2 n2 log1 -> status <> kShutdown ->
    delivery oob_allowed multiple env1 (if negb (IsOOB x.2) && negb multiple then false else allow) (worst status max_status) paused1 o2 n2
      env' status' paused' o' n' log ->
    delivery oob_allowed multiple env allow max_status paused o n env' status' paused' o' n' (x :: log1 ++ log)
with handling (oob_allowed : bool) : Z -> list (Z * Message) -> list (Z * Message) -> Handling ->
    Env -> MessageStatus -> Z -> list (Z * Message) -> list (Z * Message) -> list (Z * Message) -> Prop :=
| handling_done env status paused o n : handling oob_allowed paused o n (Handled env status) env status paused o n []
| handling_post_oob m before_events rest x paused o n env' status paused' o' n' log :
    x ∉ o.*1 -> x ∉ n.*1 -> IsOOB m = true ->
    handling oob_allowed paused (enqueue_spec (x, message_body m) before_events o) n rest env' status paused' o' n' log ->
    handling oob_allowed paused o n (Posting m before_events rest) env' status paused' o' n' log
| handling_post_normal m before_events rest x paused o n env' status paused' o' n' log :
    x ∉ o.*1 -> x ∉ n.*1 -> IsOOB m = false ->
    handling oob_allowed paused o (enqueue_spec (x, message_body m) before_events n) rest env' status paused' o' n' log ->
    handling oob_allowed paused o n (Posting m before_events rest) env' status paused' o' n' log
| handling_pause d rest paused o n env' status paused' o' n' log :
    handling oob_allowed (paused + d) o n rest env' status paused' o' n' log ->
    handling oob_allowed paused o n (Pausing d rest) env' status paused' o' n' log
| handling_ignored env rest paused o n env' status paused' o' n' log :
    oob_allowed = false -> handling oob_allowed paused o n (rest env kOK) env' status paused' o' n' log ->
    handling oob_allowed paused o n (HandlingOOB env rest) env' status paused' o' n' log
| handling_nested env rest paused o n env1 status1 paused1 o1 n1 log1 env' status paused' o' n' log :
    oob_allowed = true -> delivery oob_allowed false env false kOK paused o n env1 status1 paused1 o1 n1 log1 ->
    handling oob_allowed paused1 o1 n1 (rest env1 status1) env' status paused' o' n' log ->
    handling oob_allowed paused o n (HandlingOOB env rest) env' status paused' o' n' (log1 ++ log).

Record handler_rep (h : MessageHandler) (o n : list (Z * Message)) : Prop := {
  rep_oob : queue_rep (oob_queue_ h) o;
  rep_normal : queue_rep (queue_ h) n }.

Local Ltac handler_tac := repeat match goal with |- _ /\ _ => split | |- handler_rep _ _ _ => split end; try done.

Lemma above_gt (s : gmap Z Message) a : is_Some (s !! a) -> a < above s.
Proof using.
  intros [m Hm]. apply elem_of_map_to_list in Hm. unfold above. induction (map_to_list s) as [|y l IH]; [by apply not_elem_of_nil in Hm|].
  cbn. apply elem_of_cons in Hm as [<-|Hm]; [cbn; lia|]. specialize (IH Hm). lia.
Qed.
Lemma above_pos (s : gmap Z Message) : 0 < above s.
Proof using. unfold above. induction (map_to_list s) as [|y l IH]; cbn; lia. Qed.
Lemma new_address_fresh h o n : handler_rep h o n -> (new_address h <> 0) /\ (new_address h ∉ o.*1) /\ (new_address h ∉ n.*1).
Proof using.
  intros [Ho Hn]. unfold new_address. pose proof (above_pos (store (queue_ h))). pose proof (above_pos (store (oob_queue_ h))).
  split; [lia|]. split.
  - intros Hin. apply (rep_dom _ _ Ho) in Hin. apply above_gt in Hin. lia.
  - intros Hin. apply (rep_dom _ _ Hn) in Hin. apply above_gt in Hin. lia.
Qed.
Lemma handler_rep_eq h h' o n : queue_ h' = queue_ h -> oob_queue_ h' = oob_queue_ h -> handler_rep h o n -> handler_rep h' o n.
Proof using. intros H1 H2 [Ho Hn]. split; [by rewrite H2|by rewrite H1]. Qed.

Lemma Handler_PostMessage_spec h o n x m be : handler_rep h o n -> x <> 0 -> x ∉ o.*1 -> x ∉ n.*1 -> msg_next m = 0 ->
  exists h', Handler_PostMessage h x m be = Some h' /\ paused_ h' = paused_ h /\ live_ports_ h' = live_ports_ h /\
    (pool_ h = true -> task_ h' = true) /\
    if IsOOB m then handler_rep h' (enqueue_spec (x, message_body m) be o) n else handler_rep h' o (enqueue_spec (x, message_body m) be n).
Proof using.
  intros [Ho Hn] Hx0 Hxo Hxn Hnext. unfold Handler_PostMessage. destruct (IsOOB m).
  - destruct (Enqueue_spec _ _ x m be Ho Hx0 Hxo Hnext) as (q & -> & Hq). cbn [mbind option_bind]. eexists. split; [reflexivity|].
    destruct (pool_ h) eqn:Ep, (task_ h) eqn:Et; cbn; rewrite ?Ep, ?Et; handler_tac.
  - destruct (Enqueue_spec _ _ x m be Hn Hx0 Hxn Hnext) as (q & -> & Hq). cbn [mbind option_bind]. eexists. split; [reflexivity|].
    destruct (pool_ h) eqn:Ep, (task_ h) eqn:Et; cbn; rewrite ?Ep, ?Et; handler_tac.
Qed.
Lemma Handler_PostMessage_allowed h x m be h' : Handler_PostMessage h x m be = Some h' -> oob_message_handling_allowed_ h' = oob_message_handling_allowed_ h.
Proof using. unfold Handler_PostMessage. intros H. destruct (IsOOB m), (Enqueue _ x m be); cbn in H; try done; injection H as <-; by destruct (pool_ h), (task_ h). Qed.
Lemma DequeueMessage_allowed h p r h' : DequeueMessage h p = Some (r, h') -> oob_message_handling_allowed_ h' = oob_message_handling_allowed_ h.
Proof using.
  unfold DequeueMessage. intros H. destruct (Dequeue (oob_queue_ h)) as [[[?|] q]|]; cbn in H; [by destruct p; injection H as _ <-| |done].
  destruct p; [|by injection H as _ <-]. destruct (Dequeue (queue_ h)) as [[? ?]|]; cbn in H; [|done]. by injection H as _ <-.
Qed.
Lemma DequeueMessage_spec h o n p : handler_rep h o n ->
  exists r h', DequeueMessage h p = Some (r, h') /\ paused_ h' = paused_ h /\
    match next_message (bool_decide (p = kNormalPriority)) o n with
    | Some (x, o', n') => exists m, r = Some (x.1, m) /\ message_body m = x.2 /\ handler_rep h' o' n'
    | None => r = None /\ handler_rep h' o n
    end.
Proof using.
  intros [Ho Hn]. unfold DequeueMessage. pose proof (Dequeue_spec _ _ Ho) as Hd. destruct o as [|[a b] o].
  - rewrite Hd. cbn [mbind option_bind]. destruct p.
    + change (queue_ (set_oob_queue h (oob_queue_ h))) with (queue_ h). pose proof (Dequeue_spec _ _ Hn) as Hd'.
      destruct n as [|[a b] n]; cbn [next_message].
      * rewrite Hd'. cbn [mbind option_bind]. eexists _, _. split; [reflexivity|]. handler_tac.
      * destruct Hd' as (m & q & -> & Hm & Hq). cbn [mbind option_bind bool_decide]. eexists _, _. split; [reflexivity|]. split; [done|].
        rewrite bool_decide_true by done. exists m. handler_tac.
    + eexists _, _. split; [reflexivity|]. split; [done|]. rewrite bool_decide_false by done. destruct n; handler_tac.
  - destruct Hd as (m & q & -> & Hm & Hq). cbn [mbind option_bind next_message]. eexists _, _. split; [by destruct p|]. split; [done|].
    exists m. handler_tac.
Qed.

(** The work that is pending, for a weight of messages. *)
Definition total_weight (weight : Message -> nat) (l : list (Z * Message)) : nat := foldr (fun x r => weight x.2 + r)%nat O l.
Abbreviation pending weight o n := (total_weight weight o + total_weight weight n)%nat.
(** At most [budget] is posted. *)
Fixpoint posts_within (weight : Message -> nat) (budget : nat) (a : Handling) : Prop :=
  match a with
  | Handled _ _ => True
  | Posting m _ rest => (weight (message_body m) <= budget)%nat /\ posts_within weight (budget - weight (message_body m)) rest
  | Pausing _ rest => posts_within weight budget rest
  | HandlingOOB _ rest => forall env status, posts_within weight budget (rest env status)
  end.

Lemma total_weight_perm weight l l' : l ≡ₚ l' -> total_weight weight l = total_weight weight l'.
Proof using. unfold total_weight. induction 1; cbn; lia. Qed.
Lemma total_weight_enqueue weight x be l : total_weight weight (enqueue_spec x be l) = (weight x.2 + total_weight weight l)%nat.
Proof using. rewrite (total_weight_perm weight _ (x :: l)); [done|apply perm_enqueue]. Qed.
Lemma next_message_weight weight normal o n x o' n' : next_message normal o n = Some (x, o', n') ->
  (total_weight weight o + total_weight weight n = weight x.2 + total_weight weight o' + total_weight weight n')%nat.
Proof using.
  unfold next_message, total_weight. destruct o as [|y o]; [destruct n as [|y n]; [done|]; destruct normal; [|done]|]; intros [= -> <- <-]; cbn; lia.
Qed.
Lemma min_priority_normal max_status allow h :
  bool_decide (min_priority max_status allow h = kNormalPriority) = normal_allowed max_status allow (paused_ h).
Proof using. unfold min_priority, normal_allowed. by destruct (_ && _ && _). Qed.

Section Deliver.
(** Handling a message posts less work than it does: no cycle of messages. *)
Context (weight : Message -> nat).
Context (Hweight : forall env x, (0 < weight x.2)%nat /\ posts_within weight (weight x.2 - 1) (HandleMessage env x)).

(** A call of [HandleMessages], or a nested one. *)
Definition delivers (allowed multiple : bool) (f : Env -> MessageHandler -> option (Env * MessageHandler * MessageStatus * list (Z * Message)))
    (fuel : nat) (allow : bool) (max_status : MessageStatus) (log : list (Z * Message)) : Prop :=
  forall env h o n, handler_rep h o n -> oob_message_handling_allowed_ h = allowed -> (pending weight o n < fuel)%nat ->
  exists env' h' status' log' o' n', f env h = Some (env', h', status', log ++ log') /\
    handler_rep h' o' n' /\ oob_message_handling_allowed_ h' = allowed /\ (pending weight o' n' <= pending weight o n)%nat /\
    delivery allowed multiple env allow max_status (paused_ h) o n env' status' (paused_ h') o' n' log'.
Lemma run_handling_spec allowed fuel oob a : (allowed = true -> delivers allowed false oob fuel false kOK []) -> (allowed = false -> forall env h, oob_message_handling_allowed_ h = allowed -> oob env h = Some (env, h, kOK, [])) ->
  forall h o n budget, handler_rep h o n -> oob_message_handling_allowed_ h = allowed -> posts_within weight budget a -> (pending weight o n + budget < fuel)%nat ->
  exists env' h' status o' n' log, run_handling oob h a = Some (env', h', status, log) /\ handler_rep h' o' n' /\ oob_message_handling_allowed_ h' = allowed /\
    (pending weight o' n' <= pending weight o n + budget)%nat /\ handling allowed (paused_ h) o n a env' status (paused_ h') o' n' log.
Proof using.
  intros Hon Hoff. induction a as [env status|m be rest IH|d rest IH|env rest IH]; intros h o n budget Hr Hal Hp Hf; cbn [run_handling posts_within] in *.
  - exists env, h, status, o, n, []. split; [done|]. split; [done|]. split; [done|]. split; [lia|constructor].
  - destruct (new_address_fresh h o n Hr) as (H0 & Ho & Hn). destruct Hp as [Hle Hp].
    destruct (Handler_PostMessage_spec h o n _ (message_body m) be Hr H0 Ho Hn eq_refl) as (h1 & Hpost & Hp1 & _ & _ & Hr1). rewrite Hpost. cbn [mbind option_bind].
    change (IsOOB (message_body m)) with (IsOOB m) in Hr1. change (message_body (message_body m)) with (message_body m) in Hr1. rewrite <- (Handler_PostMessage_allowed _ _ _ _ _ Hpost) in Hal.
    destruct (IsOOB m) eqn:E; (destruct (IH _ _ _ (budget - weight (message_body m))%nat Hr1 Hal Hp) as (env' & h' & status & o' & n' & log & -> & Hr' & Hal' & Hw & Hh);
      [rewrite total_weight_enqueue; cbn [snd]; lia|]; rewrite total_weight_enqueue in Hw; cbn [snd] in Hw;
      exists env', h', status, o', n', log; split; [done|]; split; [done|]; split; [done|]; split; [lia|]; rewrite Hp1 in Hh);
      [by eapply handling_post_oob|by eapply handling_post_normal].
  - destruct (IH (set_paused h (paused_ h + d)) o n budget) as (env' & h' & status & o' & n' & log & -> & Hr' & Hal' & Hw & Hh); [by apply (handler_rep_eq h)|done|done|done|].
    exists env', h', status, o', n', log. do 4 (split; [done|]). by apply handling_pause.
  - destruct allowed.
    + destruct (Hon eq_refl env h o n Hr Hal) as (env1 & h1 & status1 & log1 & o1 & n1 & -> & Hr1 & Hal1 & Hw1 & Hd1); [lia|]. cbn [mbind option_bind app].
      destruct (IH env1 status1 h1 o1 n1 budget Hr1 Hal1 (Hp _ _)) as (env' & h' & status & o' & n' & log & -> & Hr' & Hal' & Hw & Hh); [lia|]. cbn [mbind option_bind].
      exists env', h', status, o', n', (log1 ++ log). split; [done|]. split; [done|]. split; [done|]. split; [lia|]. by eapply handling_nested.
    + rewrite Hoff by done. cbn [mbind option_bind]. destruct (IH env kOK h o n budget Hr Hal (Hp _ _)) as (env' & h' & status & o' & n' & log & -> & Hr' & Hal' & Hw & Hh); [lia|].
      cbn [mbind option_bind]. exists env', h', status, o', n', log. do 4 (split; [done|]). by apply handling_ignored.
Qed.

Lemma HandleMessages_deliver allowed multiple fuel allow max_status log :
  delivers allowed multiple (fun env h => '(message, h) ← DequeueMessage h (min_priority max_status allow h);
     HandleMessages_loop fuel env h allow multiple max_status message log) fuel allow max_status log.
Proof using Hweight.
  revert multiple allow max_status log. induction fuel as [|fuel IH]; intros multiple allow max_status log env h o n Hr Hal Hf; [lia|].
  destruct (DequeueMessage_spec h o n (min_priority max_status allow h) Hr) as (r & h1 & Hd & Hp1 & Hnext).
  rewrite Hd. cbn [mbind option_bind HandleMessages_loop]. rewrite min_priority_normal in Hnext. pose proof (DequeueMessage_allowed _ _ _ _ Hd) as Hal1. rewrite Hal in Hal1.
  destruct (next_message _ o n) as [[[[x b] o1] n1]|] eqn:En.
  2: { destruct Hnext as [-> Hr1]. exists env, h1, max_status, [], o, n. rewrite app_nil_r, Hp1. do 3 (split; [done|]). split; [lia|]. by constructor. }
  destruct Hnext as (m & -> & Hm & Hr1). cbn [fst snd] in *. subst b. pose proof (next_message_weight weight _ _ _ _ _ _ En) as Hw1. cbn [snd] in Hw1.
  set (oob := fun (env : Env) (h : MessageHandler) => if negb (oob_message_handling_allowed_ h) then _ else _).
  destruct (Hweight env (x, message_body m)) as [Hpos Hposts]. cbn [snd] in Hpos, Hposts.
  destruct (run_handling_spec allowed fuel oob (HandleMessage env (x, message_body m))) with (h := h1) (o := o1) (n := n1) (budget := (weight (message_body m) - 1)%nat)
    as (env1 & h2 & status & o2 & n2 & nested & -> & Hr2 & Hal2 & Hw2 & Hh); [| |done|done|done|lia|].
  { intros -> env0 h0 o0 n0 Hr0 Hal0 Hf0. unfold oob. rewrite Hal0. cbn [negb]. by apply (IH false false kOK []). }
  { intros -> env0 h0 Hal0. unfold oob. by rewrite Hal0. }
  rewrite Hp1 in Hh. clear oob. cbn [mbind option_bind].
  destruct (decide (status = kShutdown)) as [->|Hns].
  - destruct (MessageQueue_Clear_spec _ _ (rep_oob _ _ _ Hr2)) as (r & -> & Hcl). cbn [mbind option_bind].
    replace (if status_value kShutdown >? status_value max_status then kShutdown else max_status) with kShutdown by (by destruct max_status).
    eexists _, _, _, ((x, message_body m) :: nested), [], n2. split; [reflexivity|]. split; [split; [apply queue_rep_new|apply Hr2]|]. split; [done|]. split; [cbn; lia|]. by eapply delivery_shutdown.
  - set (h3 := if negb (FLAG_idle_timeout_micros =? 0) && negb (IsOOB m) then set_idle_start_time h2 (GetCurrentMonotonicMicros env1) else h2).
    set (allow' := if negb (IsOOB m) && negb multiple then false else allow).
    assert (Hr3 : handler_rep h3 o2 n2) by (unfold h3; destruct (_ && _); [by apply (handler_rep_eq h2)|done]).
    assert (Hp3 : paused_ h3 = paused_ h2 /\ oob_message_handling_allowed_ h3 = allowed) by (unfold h3; by destruct (_ && _)). destruct Hp3 as [Hp3 Hal3].
    destruct (IH multiple allow' (worst status max_status) (log ++ (x, message_body m) :: nested) env1 h3 o2 n2 Hr3 Hal3 ltac:(lia))
      as (env' & h' & status' & log' & o' & n' & Heq & Hr' & Hal' & Hw & Hdel).
    exists env', h', status', ((x, message_body m) :: nested ++ log'), o', n'. split; [|split; [done|split; [done|split; [lia|]]]].
    + rewrite <- app_assoc in Heq. cbn [app] in Heq. unfold worst in Heq. by destruct status.
    + rewrite Hp3 in Hdel. by eapply delivery_step.
Qed.

Lemma next_message_None normal o n : next_message normal o n = None -> o = [] /\ (normal = true -> n = []).
Proof using. destruct o; [|done]. destruct n as [|x n]; [done|]. cbn. by destruct normal. Qed.
Lemma delivery_end allowed multiple env allow max_status paused o n env' status' paused' o' n' log :
  delivery allowed multiple env allow max_status paused o n env' status' paused' o' n' log ->
  o' = [] /\ (multiple = true -> allow = true -> status' = kOK -> paused' <= 0 -> n' = []).
Proof using.
  induction 1 as [multiple env allow max_status paused o n Hn|multiple env allow max_status paused o n x o1 n1 env' paused' o2 n2 log r _ _ _|
    multiple env allow max_status paused o n x o1 n1 env1 status paused1 o2 n2 log1 env' status' paused' o' n' log _ _ _ _ IH].
  - apply next_message_None in Hn as [-> Hn]. split; [done|]. intros _ -> -> Hp. apply Hn. unfold normal_allowed. rewrite Z.gtb_ltb.
    destruct (Z.ltb_spec 0 paused); [lia|done].
  - by split.
  - destruct IH as [-> IH]. split; [done|]. intros -> -> Hs Hp. apply IH; try done. by rewrite andb_false_r.
Qed.
End Deliver.

(** C28: handling messages terminates and misses nothing: if handling a message
    posts less work than the message itself (no cycle of messages), [HandleMessages] returns, also when the code that
    handles a message calls [HandleOOBMessages] again, as at interrupts; it
    delivers the messages one by one, an OOB message before every normal one and
    each queue in order, together with those that arrive meanwhile, nested calls taking only
    OOB messages; when it
    returns the OOB queue is empty, as [TaskCallback] asserts. The normal queue is empty too
    if normal messages are allowed, and several of them ([allow_multiple_normal_messages], not so for
    [HandleNextMessage]), no status is bad and the handler is not paused. What a message's
    handling does to the handler is a parameter: posts, changes of [paused_] and nested [HandleOOBMessages]. *)
Theorem HandleMessages_live weight multiple fuel env h allow o n :
  (forall env x, (0 < weight x.2)%nat /\ posts_within weight (weight x.2 - 1) (HandleMessage env x)) ->
  handler_rep h o n -> (total_weight weight o + total_weight weight n < fuel)%nat ->
  exists env' h' status log n', HandleMessages fuel env h allow multiple = Some (env', h', status, log) /\
    handler_rep h' [] n' /\ HasOOBMessages h' = false /\
    delivery (oob_message_handling_allowed_ h) multiple env allow kOK (paused_ h) o n env' status (paused_ h') [] n' log /\
    (multiple = true -> allow = true -> status = kOK -> paused_ h' <= 0 -> HasMessages h' = false).
Proof using.
  intros Hw Hr Hf.
  destruct (HandleMessages_deliver weight Hw (oob_message_handling_allowed_ h) multiple fuel allow kOK [] env h o n Hr eq_refl Hf) as (env' & h' & status & log & o' & n' & Heq & Hr' & _ & _ & Hd).
  destruct (delivery_end _ _ _ _ _ _ _ _ _ _ _ _ _ _ Hd) as [-> Hn']. exists env', h', status, log, n'.
  assert (Hempty : forall q, queue_rep q [] -> negb (IsEmpty q) = false).
  { intros q [Hq _ _ _]. cbn in Hq. unfold IsEmpty. by rewrite Hq. }
  split; [exact Heq|]. split; [done|]. split; [apply Hempty, Hr'|]. split; [done|].
  intros H1 H2 H3 H4. rewrite (Hn' H1 H2 H3 H4) in Hr'. apply Hempty, Hr'.
Qed.
End HandleMessages.
Arguments Handled {Env} env status.
Arguments Posting {Env} m before_events rest.
Arguments Pausing {Env} d rest.
Arguments HandlingOOB {Env} env rest.

(** A normal message whose handling posts an OOB message, which is then handled
    at an interrupt. *)
Lemma HandleMessages_live_witness :
  let normal := MkMessage 0 7 0 0 0 kNormalPriority in
  let oob := MkMessage 0 7 0 0 0 kOOBPriority in
  let handle (env : unit) (x : Z * Message) :=
    if IsOOB x.2 then Handled env kOK else Posting oob false (HandlingOOB env (fun env status => Handled env status)) in
  let weight m := if IsOOB m then 1%nat else 2%nat in
  exists h, Handler_PostMessage MessageHandler_new 16 normal false = Some h /\
    exists env' h' status log n', HandleMessages handle (fun env _ => env) 0 (fun _ => 0) 3 tt h true true = Some (env', h', status, log) /\
      handler_rep h' [] n' /\ HasOOBMessages h' = false /\
      delivery handle (fun env _ => env) (oob_message_handling_allowed_ h) true tt true kOK (paused_ h) [] [(16, normal)] env' status (paused_ h') [] n' log /\
      (true = true -> true = true -> status = kOK -> paused_ h' <= 0 -> HasMessages h' = false).
Proof.
  intros normal oob handle weight.
  destruct (Handler_PostMessage_spec MessageHandler_new [] [] 16 normal false) as (h & Hh & _ & _ & _ & Hr);
    [split; apply queue_rep_new|done|by intros ?%not_elem_of_nil|by intros ?%not_elem_of_nil|done|].
  exists h. split; [done|]. apply (HandleMessages_live handle _ _ _ weight).
  - intros env x. unfold weight, handle. destruct (IsOOB x.2); cbn; repeat split; lia.
  - exact Hr.
  - cbn. lia.
Defined.
(** The nested call delivers it: both messages are in the list. *)
Example HandleMessages_nested :
  let oob := MkMessage 0 7 0 0 0 kOOBPriority in
  let handle (env : unit) (x : Z * Message) :=
    if IsOOB x.2 then Handled env kOK else Posting oob false (HandlingOOB env (fun env status => Handled env status)) in
  (h ← Handler_PostMessage MessageHandler_new 16 (MkMessage 0 7 0 0 0 kNormalPriority) false;
   '(_, _, status, log) ← HandleMessages handle (fun env _ => env) 0 (fun _ => 0) 3 tt h true false;
   Some (status, (fun x : Z * Message => IsOOB x.2) <$> log) : option (MessageStatus * list bool)) = Some (kOK, [false; true]).
Proof. vm_compute. reflexivity. Qed.

(** C29: [MessageQueue] implements a list of messages: [Enqueue] appends, or with
    [before_events] inserts behind the leading isolate library messages (which go
    to the illegal port) and so before every event, [Dequeue] takes the first message out, [Clear] empties
    the queue and hands over exactly the messages with a delivery failure port,
    and [IsEmpty], [Length] and [FindMessageById] see the list; none of them
    follows a dangling pointer. *)
Theorem MessageQueue_refines q l : queue_rep q l ->
  (forall x m before_events, x <> 0 -> x ∉ l.*1 -> msg_next m = 0 ->
     exists q', Enqueue q x m before_events = Some q' /\ queue_rep q' (enqueue_spec (x, message_body m) before_events l)) /\
  (match l with
   | [] => Dequeue q = Some (None, q)
   | (a, b) :: l' => exists m q', Dequeue q = Some (Some (a, m), q') /\ message_body m = b /\ queue_rep q' l'
   end) /\
  IsEmpty q = bool_decide (l = []) /\ Length q = Some (zlen l) /\
  (forall id, FindMessageById q id = Some (if decide (id ∈ l.*1) then id else 0)) /\
  exists r, MessageQueue_Clear q = Some (r, MessageQueue_new) /\ (fun x => (x.1, message_body x.2)) <$> r = omap redirected l.
Proof.
  intros Hr. split; [intros x m be; by apply Enqueue_spec|]. split; [by apply Dequeue_spec|].
  split; [|split; [by apply Length_spec|split; [intros id; by apply FindMessageById_spec|by apply MessageQueue_Clear_spec]]].
  unfold IsEmpty. pose proof (linked_null _ _ _ (rep_linked _ _ Hr)). case_bool_decide; destruct (Z.eqb_spec (head_ q) 0); tauto.
Qed.
Lemma MessageQueue_refines_witness :
  let control := MkMessage 0 0 0 0 0 kNormalPriority in
  exists q, Enqueue MessageQueue_new 16 control false = Some q /\ queue_rep q [(16, control)] /\
    exists q', Enqueue q 32 control true = Some q' /\ queue_rep q' [(16, control); (32, control)].
Proof.
  intros control. destruct (Enqueue_spec MessageQueue_new [] 16 control false queue_rep_new) as (q & Hq & Hr);
    [done|by intros ?%not_elem_of_nil|done|].
  exists q. split; [done|]. split; [done|]. apply (proj1 (MessageQueue_refines q _ Hr) 32 control true); [done| |done].
  cbn. by rewrite list_elem_of_singleton.
Defined.

(** A message that [Clear] redirects keeps its link to the next message of the
    old queue, which is freed: the queue that receives it has a dangling
    pointer. *)
Theorem Clear_redirect_dangling :
  let first := MkMessage 0 7 9 0 0 kNormalPriority in
  let second := MkMessage 0 7 0 0 0 kNormalPriority in
  let r :=
    q ← Enqueue MessageQueue_new 16 first false;
    q ← Enqueue q 32 second false;
    '(redirected, _) ← MessageQueue_Clear q;
    '(x, m) ← head redirected;
    Some (x, msg_next m, Enqueue MessageQueue_new x m false) in
  exists q, r = Some (16, 32, Some q) /\ head_ q = 16 /\ Length q = None.
Proof. eexists. split; [vm_compute; reflexivity|]. split; vm_compute; reflexivity. Qed.
