(* ===== verification/Ports.v ===== *)
(** * Ports and their handlers (src/runtime/vm/port.{h,cc}, random.cc)

    The port map is a hash table with linear probing whose slots are free,
    deleted or used; [handler] is the address of a [MessageHandler], 0 the null
    pointer and 1 [deleted_entry_]. A [World] has the port map, the message
    handlers and the random number generator. Every operation runs under the
    mutex of the port map, so operations are modelled one after the other.
    [None] is a memory fault or a loop that does not end. *)
From stdpp Require Import gmap.
From S2P Require Import Prelude Messages.
Local Open Scope Z_scope.
Local Open Scope vm_scope.

(** ** Random numbers *)
Definition NextState (state : Z) : Z :=
  let MASK_32 := 0xffffffff in
  let A := 0xffffda61 in
  let state_lo := state &&& MASK_32 in
  let state_hi := (state >>> 32) &&& MASK_32 in
  u64 (A * state_lo + state_hi).
Definition Random_Initialize (seed : Z) : Z := NextState (NextState (NextState (NextState seed))).
(** The number and the new state. *)
Definition NextUInt32 (state : Z) : Z * Z :=
  let state := NextState state in (state &&& 0xffffffff, state).

(** ** The port map *)
Inductive PortState := kNewPort | kLivePort | kControlPort.
#[global] Instance PortState_eq_dec : EqDecision PortState.
Proof. solve_decision. Defined.
Record PortEntry := MkPortEntry { port : Z; handler : Z; state : PortState }.
Definition deleted_entry_ : Z := 1.
Definition zero_entry : PortEntry := MkPortEntry 0 0 kNewPort.
Record PortMap := MkPortMap { pm_map : list PortEntry; pm_capacity : Z; pm_used : Z; pm_deleted : Z }.

Fixpoint FindPort_loop (fuel : nat) (map : list PortEntry) (capacity p index : Z) : option Z :=
  match fuel with
  | O => None
  | S fuel =>
      entry ← arr_get map index;
      if negb (handler entry =? 0) then
        if port entry =? p then Some index else FindPort_loop fuel map capacity p (Z.rem (index + 1) capacity)
      else Some (-1)
  end.
Definition FindPort (pm : PortMap) (p : Z) : option Z :=
  if p =? kIllegalPort then Some (-1)
  else FindPort_loop (S (length (pm_map pm))) (pm_map pm) (pm_capacity pm) p (Z.rem p (pm_capacity pm)).

(** The first slot, from [index] on, without a port. *)
Fixpoint unused_slot (fuel : nat) (map : list PortEntry) (capacity index : Z) : option Z :=
  match fuel with
  | O => None
  | S fuel =>
      cur ← arr_get map index;
      if negb (port cur =? 0) then unused_slot fuel map capacity (Z.rem (index + 1) capacity) else Some index
  end.
Fixpoint Rehash_loop (entries new_ports : list PortEntry) (new_capacity : Z) : option (list PortEntry) :=
  match entries with
  | [] => Some new_ports
  | entry :: entries =>
      new_ports ← (if negb (port entry =? 0) then
                     new_index ← unused_slot (S (length new_ports)) new_ports new_capacity (Z.rem (port entry) new_capacity);
                     arr_set new_ports new_index entry
                   else Some new_ports);
      Rehash_loop entries new_ports new_capacity
  end.
Definition Rehash (pm : PortMap) (new_capacity : Z) : option PortMap :=
  new_ports ← Rehash_loop (pm_map pm) (replicate (Z.to_nat new_capacity) zero_entry) new_capacity;
  Some (MkPortMap new_ports new_capacity (pm_used pm) 0).
Definition MaintainInvariants (pm : PortMap) : option PortMap :=
  let empty := pm_capacity pm - pm_used pm - pm_deleted pm in
  if pm_used pm >? pm_capacity pm / 4 * 3 then Rehash pm (pm_capacity pm * 2)
  else if empty <? pm_deleted pm then Rehash pm (pm_capacity pm)
  else Some pm.

Definition kMASK : Z := 0x3fffffff.
(** [fuel] bounds the numbers that are drawn. *)
Fixpoint AllocatePort (fuel : nat) (pm : PortMap) (prng : Z) : option (Z * Z) :=
  match fuel with
  | O => None
  | S fuel =>
      let '(number, prng) := NextUInt32 prng in
      let result := number &&& kMASK in
      if result =? 0 then AllocatePort fuel pm prng
      else
        index ← FindPort pm result;
        if index >=? 0 then AllocatePort fuel pm prng else Some (result, prng)
  end.

(** The new entry in the first unused slot. *)
Definition insert_port (pm : PortMap) (entry : PortEntry) : option PortMap :=
  index ← unused_slot (S (length (pm_map pm))) (pm_map pm) (pm_capacity pm) (Z.rem (port entry) (pm_capacity pm));
  old ← arr_get (pm_map pm) index;
  let deleted := if handler old =? deleted_entry_ then pm_deleted pm - 1 else pm_deleted pm in
  map ← arr_set (pm_map pm) index entry;
  MaintainInvariants (MkPortMap map (pm_capacity pm) (pm_used pm + 1) deleted).
(** A slot marked as deleted; its entry is returned. *)
Definition delete_slot (pm : PortMap) (index : Z) : option (PortEntry * PortMap) :=
  entry ← arr_get (pm_map pm) index;
  map ← arr_set (pm_map pm) index (MkPortEntry 0 deleted_entry_ (state entry));
  Some (entry, MkPortMap map (pm_capacity pm) (pm_used pm - 1) (pm_deleted pm + 1)).

(** ** Handlers *)
Record World := MkWorld { ports : PortMap; handlers : gmap Z MessageHandler; prng_ : Z }.
Definition set_ports (w : World) pm : World := MkWorld pm (handlers w) (prng_ w).
Definition set_handlers (w : World) hs : World := MkWorld (ports w) hs (prng_ w).
Definition update_handler (w : World) (h : Z) (f : MessageHandler -> option MessageHandler) : option World :=
  hd ← handlers w !! h; hd ← f hd; Some (set_handlers w (<[h := hd]> (handlers w))).
Definition increment_live_ports (w : World) (h : Z) : option World :=
  update_handler w h (fun hd => Some (set_live_ports hd (live_ports_ hd + 1))).
Definition decrement_live_ports (w : World) (h : Z) : option World :=
  update_handler w h (fun hd => Some (set_live_ports hd (live_ports_ hd - 1))).

Definition PostMessage (w : World) (x : Z) (m : Message) (before_events : bool) : option (bool * World) :=
  index ← FindPort (ports w) (dest_port_ m);
  if index <? 0 then Some (false, w)
  else
    entry ← arr_get (pm_map (ports w)) index;
    w ← update_handler w (handler entry) (fun hd => Handler_PostMessage hd x m before_events);
    Some (true, w).
Fixpoint post_redirected (w : World) (l : list (Z * Message)) : option World :=
  match l with
  | [] => Some w
  | (x, m) :: l => '(_, w) ← PostMessage w x m false; post_redirected w l
  end.

Definition SetPortState (w : World) (p : Z) (s : PortState) : option World :=
  index ← FindPort (ports w) p;
  entry ← arr_get (pm_map (ports w)) index;
  map ← arr_set (pm_map (ports w)) index (MkPortEntry (port entry) (handler entry) s);
  let pm := ports w in
  let w := set_ports w (MkPortMap map (pm_capacity pm) (pm_used pm) (pm_deleted pm)) in
  match s with kLivePort => increment_live_ports w (handler entry) | _ => Some w end.
Definition CreatePort (fuel : nat) (w : World) (h : Z) : option (Z * World) :=
  '(p, prng) ← AllocatePort fuel (ports w) (prng_ w);
  pm ← insert_port (ports w) (MkPortEntry p h kNewPort);
  Some (p, MkWorld pm (handlers w) prng).

(** [~MessageHandler] clears the queues; then the handler is gone. *)
Definition delete_handler (w : World) (h : Z) : option World :=
  hd ← handlers w !! h;
  '(redirected, _) ← CloseAllPorts hd;
  post_redirected (set_handlers w (delete h (handlers w))) redirected.
Definition RequestDeletion (w : World) (h : Z) : option World :=
  hd ← handlers w !! h;
  if task_ hd then Some (set_handlers w (<[h := set_delete_me hd true]> (handlers w)))
  else delete_handler w h.

Section PortMap.
Context (OwnedByPortMap : Z -> bool).

Definition ClosePort (w : World) (p : Z) : option (bool * World) :=
  index ← FindPort (ports w) p;
  if index <? 0 then Some (false, w)
  else
    '(entry, pm) ← delete_slot (ports w) index;
    let w := set_ports w pm in
    w ← (match state entry with kLivePort => decrement_live_ports w (handler entry) | _ => Some w end);
    pm ← MaintainInvariants (ports w);
    let w := set_ports w pm in
    hd ← handlers w !! handler entry;
    w ← (if negb (HasLivePorts hd) && OwnedByPortMap (handler entry) then RequestDeletion w (handler entry) else Some w);
    Some (true, w).
Fixpoint ClosePorts_loop (n : nat) (w : World) (h i : Z) : option World :=
  match n with
  | O => Some w
  | S n =>
      entry ← arr_get (pm_map (ports w)) i;
      w ← (if handler entry =? h then
             '(entry, pm) ← delete_slot (ports w) i;
             let w := set_ports w pm in
             match state entry with kLivePort => decrement_live_ports w h | _ => Some w end
           else Some w);
      ClosePorts_loop n w h (i + 1)
  end.
Definition ClosePorts (w : World) (h : Z) : option World :=
  w ← ClosePorts_loop (Z.to_nat (pm_capacity (ports w))) w h 0;
  pm ← MaintainInvariants (ports w);
  let w := set_ports w pm in
  hd ← handlers w !! h;
  '(redirected, hd) ← CloseAllPorts hd;
  post_redirected (set_handlers w (<[h := hd]> (handlers w))) redirected.
(** The handler of a slot, or null, is all that the loop looks at. *)
Fixpoint Cleanup_loop (n : nat) (w : World) (i : Z) : option World :=
  match n with
  | O => Some w
  | S n =>
      if i <? pm_capacity (ports w) then
        entry ← arr_get (pm_map (ports w)) i;
        w ← (if negb (handler entry =? 0) && negb (handler entry =? deleted_entry_) then
               w ← ClosePorts w (handler entry); delete_handler w (handler entry)
             else Some w);
        Cleanup_loop n w (i + 1)
      else Some w
  end.
Definition Cleanup (w : World) : option World := Cleanup_loop (Z.to_nat (pm_capacity (ports w))) w 0.
End PortMap.

Definition kInitialCapacity : Z := 8.
Definition Init (hs : gmap Z MessageHandler) (seed : Z) : World :=
  MkWorld (MkPortMap (replicate (Z.to_nat kInitialCapacity) zero_entry) kInitialCapacity 0 0) hs (Random_Initialize seed).

(** ** Counting slots *)
Fixpoint cnt (f : PortEntry -> bool) (l : list PortEntry) : Z :=
  match l with [] => 0 | e :: l => Z.b2z (f e) + cnt f l end.
Lemma cnt_nonneg f l : 0 <= cnt f l.
Proof. induction l as [|e l IH]; cbn; [lia|]. destruct (f e); cbn; lia. Qed.
Lemma cnt_set f l i e e' l' : arr_get l i = Some e -> arr_set l i e' = Some l' -> cnt f l' = cnt f l - Z.b2z (f e) + Z.b2z (f e').
Proof.
  intros He [Hi ->]%arr_set_Some. unfold arr_get in He. zif_in He; [|done]. clear Hi. revert He. generalize (Z.to_nat i). clear.
  induction l as [|y l IH]; intros [|n] He; [done|done|injection He as ->; cbn; lia|].
  change (cnt f (<[S n := e']> (y :: l))) with (Z.b2z (f y) + cnt f (<[n := e']> l)). rewrite (IH n He). cbn. lia.
Qed.
Lemma cnt_le f g l : (forall e, f e = true -> g e = true) -> cnt f l <= cnt g l.
Proof.
  intros H. induction l as [|e l IH]; cbn; [lia|]. specialize (H e). destruct (f e), (g e); cbn; try lia; by specialize (H eq_refl).
Qed.
Lemma cnt_lt_slot f l : cnt f l < zlen l -> exists i e, arr_get l i = Some e /\ f e = false.
Proof.
  unfold zlen. induction l as [|e l IH]; cbn [cnt length]; [cbn; lia|]. intros H. destruct (f e) eqn:E.
  - destruct IH as (i & e' & Hi & He); [cbn in H; lia|]. exists (i + 1), e'. split; [|done].
    pose proof (arr_get_Some _ _ _ Hi). unfold arr_get in *. zif_in Hi; [|done]. zif; [|lia]. by replace (Z.to_nat (i + 1)) with (S (Z.to_nat i)) by lia.
  - by exists 0, e.
Qed.
Lemma cnt_replicate f n e : f e = false -> cnt f (replicate n e) = 0.
Proof. intros H. induction n as [|n IH]; cbn; [done|]. rewrite H, IH. done. Qed.
Lemma cnt_ext f g l : (forall e, e ∈ l -> f e = g e) -> cnt f l = cnt g l.
Proof.
  induction l as [|e l IH]; intros H; cbn; [done|]. rewrite (H e) by by left. rewrite IH; [done|]. intros e' He'. apply H. by right.
Qed.
Lemma cnt_split f g h l : (forall e, e ∈ l -> Z.b2z (f e) = Z.b2z (g e) + Z.b2z (h e)) -> cnt f l = cnt g l + cnt h l.
Proof.
  induction l as [|e l IH]; intros H; cbn; [done|]. rewrite (H e) by by left. rewrite IH; [lia|]. intros e' He'. apply H. by right.
Qed.
Lemma elem_get (l : list PortEntry) e : e ∈ l <-> exists i, arr_get l i = Some e.
Proof.
  split.
  - intros [n Hn]%list_elem_of_lookup. exists (Z.of_nat n). unfold arr_get. zif; [by rewrite Nat2Z.id|lia].
  - intros [i Hi]. unfold arr_get in Hi. zif_in Hi; [|done]. by eapply list_elem_of_lookup_2.
Qed.

(** ** The hash table *)
Definition is_used (e : PortEntry) : bool := negb (port e =? 0).
Definition is_deleted (e : PortEntry) : bool := handler e =? deleted_entry_.
Definition is_free (e : PortEntry) : bool := handler e =? 0.
Definition slot_ok (e : PortEntry) : Prop :=
  (port e = 0 /\ (handler e = 0 \/ handler e = 1)) \/ (0 < port e /\ handler e <> 0 /\ handler e <> 1).
Definition holds (map : list PortEntry) (e : PortEntry) : Prop := e ∈ map /\ port e <> 0.

Record wf_ports (cap : Z) (map : list PortEntry) : Prop := {
  t_len : zlen map = cap /\ 0 < cap;
  t_slot : forall e, e ∈ map -> slot_ok e;
  t_unique : forall i j e e', arr_get map i = Some e -> arr_get map j = Some e' -> port e = port e' -> port e <> 0 -> i = j;
  t_probe : forall i e, arr_get map i = Some e -> port e <> 0 ->
    exists d, 0 <= d < cap /\ i = (port e + d) mod cap /\
      forall c e', 0 <= c < d -> arr_get map ((port e + c) mod cap) = Some e' -> handler e' <> 0 }.

Section Table.
Context (cap : Z) (map : list PortEntry) (Hwf : wf_ports cap map).

Lemma slot_at i : exists e, arr_get map (i mod cap) = Some e.
Proof using Hwf. destruct (t_len _ _ Hwf) as [Hl Hc]. apply arr_get_lt. rewrite Hl. apply Z.mod_pos_bound. lia. Qed.
Lemma next_index i : Z.rem (i mod cap + 1) cap = (i + 1) mod cap.
Proof using Hwf.
  destruct (t_len _ _ Hwf) as [_ Hc]. pose proof (Z.mod_pos_bound i cap Hc). rewrite Z.rem_mod_nonneg by lia.
  by rewrite Zplus_mod_idemp_l.
Qed.
Lemma get_ok i e : arr_get map i = Some e -> slot_ok e.
Proof using Hwf. intros He. apply (t_slot _ _ Hwf), elem_get. by exists i. Qed.
(** The offset of a slot from a port's home. *)
Lemma offset_of p i e : arr_get map i = Some e -> exists d, 0 <= d < cap /\ i = (p + d) mod cap.
Proof using Hwf.
  intros He. destruct (t_len _ _ Hwf) as [Hl Hc]. apply arr_get_Some in He. rewrite Hl in He. exists ((i - p) mod cap).
  split; [by apply Z.mod_pos_bound|]. rewrite Zplus_mod_idemp_r. replace (p + (i - p)) with i by lia. by rewrite Z.mod_small.
Qed.

Lemma FindPort_loop_spec p f : 0 < p -> (forall e, arr_get map ((p + f) mod cap) = Some e -> handler e = 0) -> f < cap ->
  forall fuel c, 0 <= c <= f -> f - c < Z.of_nat fuel ->
  (forall c' e, 0 <= c' < c -> arr_get map ((p + c') mod cap) = Some e -> handler e <> 0 /\ port e <> p) ->
  (exists i e, FindPort_loop fuel map cap p ((p + c) mod cap) = Some i /\ arr_get map i = Some e /\ port e = p) \/
  (FindPort_loop fuel map cap p ((p + c) mod cap) = Some (-1) /\ forall e, e ∈ map -> port e <> p).
Proof using Hwf.
  intros Hp Hfree Hf. induction fuel as [|fuel IH]; intros c Hc Hfuel Hpre; [lia|]. cbn [FindPort_loop].
  destruct (slot_at (p + c)) as [e He]. rewrite He. cbn [mbind option_bind].
  destruct (Z.eqb_spec (handler e) 0) as [H0|H0]; cbn [negb].
  - right. split; [done|]. intros e' [i Hi]%elem_get Hpe.
    destruct (t_probe _ _ Hwf i e' Hi ltac:(lia)) as (d & Hd & -> & Hpath). rewrite Hpe in *.
    destruct (Z.lt_trichotomy d c) as [H|[->|H]].
    + by destruct (Hpre d e' ltac:(lia) Hi).
    + assert (e' = e) as -> by congruence. destruct (get_ok _ _ He) as [[? _]|(_ & ? & _)]; [lia|done].
    + by apply (Hpath c e ltac:(lia)) in He.
  - destruct (Z.eqb_spec (port e) p) as [Hpe|Hpe]; [left; by eexists _, e|].
    rewrite next_index. replace (p + c + 1) with (p + (c + 1)) by lia.
    assert (c <> f) by (intros ->; by apply Hfree in He). apply IH; [lia|lia|]. intros c' e' Hc' He'.
    destruct (Z.eq_dec c' c) as [->|]; [|apply (Hpre c'); [lia|done]]. by assert (e' = e) as -> by congruence.
Qed.
Lemma FindPort_spec pm p : pm_map pm = map -> pm_capacity pm = cap -> (exists e, e ∈ map /\ handler e = 0) -> 0 <= p ->
  (exists i e, FindPort pm p = Some i /\ arr_get map i = Some e /\ port e = p /\ p <> 0) \/
  (FindPort pm p = Some (-1) /\ forall e, holds map e -> port e <> p).
Proof using Hwf.
  intros Hm Hc (ef & [j Hj]%elem_get & H0) Hp. unfold FindPort, kIllegalPort. rewrite Hm, Hc.
  destruct (Z.eqb_spec p 0) as [->|Hp0]; [right; by split; [|intros e []]|].
  destruct (t_len _ _ Hwf) as [Hl Hcap]. destruct (offset_of p j ef Hj) as (f & Hf & ->). unfold zlen in Hl.
  rewrite Z.rem_mod_nonneg by lia. replace (p mod cap) with ((p + 0) mod cap) by (f_equal; lia).
  destruct (FindPort_loop_spec p f ltac:(lia) ltac:(intros e He; by assert (e = ef) as -> by congruence) ltac:(lia) (S (length map)) 0)
    as [(i & e & -> & He & Hpe)|[-> Hn]]; [lia|lia|lia|left; by exists i, e|right; split; [done|]; intros e [He _]; by apply Hn].
Qed.
(** The first slot without a port, from a port's home on. *)
Lemma unused_slot_spec p f : 0 <= p -> (forall e, arr_get map ((p + f) mod cap) = Some e -> port e = 0) -> f < cap ->
  forall fuel c, 0 <= c <= f -> f - c < Z.of_nat fuel ->
  (forall c' e, 0 <= c' < c -> arr_get map ((p + c') mod cap) = Some e -> port e <> 0) ->
  exists d e, unused_slot fuel map cap ((p + c) mod cap) = Some ((p + d) mod cap) /\ 0 <= d < cap /\
    arr_get map ((p + d) mod cap) = Some e /\ port e = 0 /\
    forall c' e, 0 <= c' < d -> arr_get map ((p + c') mod cap) = Some e -> port e <> 0.
Proof using Hwf.
  intros Hp Hfree Hf. induction fuel as [|fuel IH]; intros c Hc Hfuel Hpre; [lia|]. cbn [unused_slot].
  destruct (slot_at (p + c)) as [e He]. rewrite He. cbn [mbind option_bind].
  destruct (Z.eqb_spec (port e) 0) as [H0|H0]; cbn [negb]; [exists c, e; by repeat split; try lia|].
  rewrite next_index. replace (p + c + 1) with (p + (c + 1)) by lia.
  assert (c <> f) by (intros ->; by apply Hfree in He). apply IH; [lia|lia|]. intros c' e' Hc' He'.
  destruct (Z.eq_dec c' c) as [->|]; [|apply (Hpre c'); [lia|done]]. by assert (e' = e) as -> by congruence.
Qed.
Lemma unused_slot_home p : 0 <= p -> (exists e, e ∈ map /\ port e = 0) ->
  exists d e, unused_slot (S (length map)) map cap (Z.rem p cap) = Some ((p + d) mod cap) /\ 0 <= d < cap /\
    arr_get map ((p + d) mod cap) = Some e /\ port e = 0 /\
    forall c' e, 0 <= c' < d -> arr_get map ((p + c') mod cap) = Some e -> port e <> 0.
Proof using Hwf.
  intros Hp (ef & [j Hj]%elem_get & H0). destruct (t_len _ _ Hwf) as [Hl Hcap]. destruct (offset_of p j ef Hj) as (f & Hf & ->).
  unfold zlen in Hl. rewrite Z.rem_mod_nonneg by lia. replace (p mod cap) with ((p + 0) mod cap) by (f_equal; lia).
  apply (unused_slot_spec p f); try lia. intros e He. by assert (e = ef) as -> by congruence.
Qed.

(** A new entry in that slot. *)
Lemma wf_insert p d old e map' : 0 < p -> port e = p -> handler e <> 0 -> handler e <> 1 -> (forall e, e ∈ map -> port e <> p) ->
  0 <= d < cap -> arr_get map ((p + d) mod cap) = Some old -> port old = 0 ->
  (forall c' e, 0 <= c' < d -> arr_get map ((p + c') mod cap) = Some e -> port e <> 0) ->
  arr_set map ((p + d) mod cap) e = Some map' ->
  wf_ports cap map' /\ forall e', holds map' e' <-> e' = e \/ holds map e'.
Proof using Hwf.
  intros Hp Hpe Hh0 Hh1 Hnew Hd Hold Hpo Hpath Hset. pose proof (fun j => arr_get_set _ _ j _ _ Hset) as Hget.
  set (i := (p + d) mod cap) in *.
  assert (Hin : forall j e', arr_get map' j = Some e' -> (j = i /\ e' = e) \/ (j <> i /\ arr_get map j = Some e')).
  { intros j e' Hj. rewrite Hget in Hj. destruct (Z.eqb_spec i j) as [->|Hne]; [left; by injection Hj as <-|right; by split]. }
  assert (Hnon : forall j e', arr_get map j = Some e' -> handler e' <> 0 -> exists e2, arr_get map' j = Some e2 /\ handler e2 <> 0).
  { intros j e' Hj Hn. rewrite Hget. destruct (i =? j); [by exists e|by exists e']. }
  split; [split|].
  - rewrite (arr_set_length _ _ _ _ Hset). apply Hwf.
  - intros e' [j [[-> ->]|[_ Hj]]%Hin]%elem_get; [right; lia|]. by eapply get_ok.
  - intros j1 j2 e1 e2 [[-> ->]|[Hj1 H1]]%Hin [[-> ->]|[Hj2 H2]]%Hin Heq Hne; [done| | |by eapply (t_unique _ _ Hwf)].
    + exfalso. apply (Hnew e2); [apply elem_get; by exists j2|lia].
    + exfalso. apply (Hnew e1); [apply elem_get; by exists j1|lia].
  - intros j e' [[-> ->]|[Hj H]]%Hin Hne.
    + exists d. rewrite Hpe. split; [done|]. split; [done|]. intros c e2 Hc [[_ ->]|[_ H2]]%Hin; [done|].
      specialize (Hpath c e2 Hc H2). destruct (get_ok _ _ H2) as [[? _]|(_ & ? & _)]; [lia|done].
    + destruct (t_probe _ _ Hwf j e' H Hne) as (d' & Hd' & Hj' & Hp'). exists d'. split; [done|]. split; [done|].
      intros c e2 Hc [[_ ->]|[_ H2]]%Hin; [done|by apply (Hp' c)].
  - intros e'. unfold holds. split.
    + intros [[j [[_ ->]|[_ Hj]]%Hin]%elem_get Hne]; [by left|right]. split; [apply elem_get; by exists j|done].
    + intros [->|[[j Hj]%elem_get Hne]]; (split; [apply elem_get|lia || done]).
      * exists i. rewrite Hget, Z.eqb_refl. done.
      * exists j. rewrite Hget. destruct (Z.eqb_spec i j) as [->|]; [congruence|done].
Qed.
(** A slot that becomes deleted. *)
Lemma wf_delete i e map' : arr_get map i = Some e -> port e <> 0 ->
  arr_set map i (MkPortEntry 0 deleted_entry_ (state e)) = Some map' ->
  wf_ports cap map' /\ forall e', holds map' e' <-> holds map e' /\ port e' <> port e.
Proof using Hwf.
  intros He Hpe Hset. pose proof (fun j => arr_get_set _ _ j _ _ Hset) as Hget.
  assert (Hin : forall j e', arr_get map' j = Some e' -> (j = i /\ e' = MkPortEntry 0 deleted_entry_ (state e)) \/ (j <> i /\ arr_get map j = Some e')).
  { intros j e' Hj. rewrite Hget in Hj. destruct (Z.eqb_spec i j) as [->|Hne]; [left; by injection Hj as <-|right; by split]. }
  split; [split|].
  - rewrite (arr_set_length _ _ _ _ Hset). apply Hwf.
  - intros e' [j [[-> ->]|[_ Hj]]%Hin]%elem_get; [left; cbn; by split; [|right]|]. by eapply get_ok.
  - intros j1 j2 e1 e2 [[-> ->]|[Hj1 H1]]%Hin [[-> ->]|[Hj2 H2]]%Hin Heq Hne; [done|by cbn in *|by cbn in *; congruence|by eapply (t_unique _ _ Hwf)].
  - intros j e' [[-> ->]|[Hj H]]%Hin Hne; [by cbn in *|].
    destruct (t_probe _ _ Hwf j e' H Hne) as (d' & Hd' & Hj' & Hp'). exists d'. split; [done|]. split; [done|].
    intros c e2 Hc [[_ ->]|[_ H2]]%Hin; [done|by apply (Hp' c)].
  - intros e'. unfold holds. split.
    + intros [[j [[_ ->]|[Hne' Hj]]%Hin]%elem_get Hne]; [by cbn in *|]. split; [split; [apply elem_get; by exists j|done]|].
      intros Heq. apply Hne'. by eapply (t_unique _ _ Hwf).
    + intros [[[j Hj]%elem_get Hne] Hne']. split; [|done]. apply elem_get. exists j. rewrite Hget. destruct (Z.eqb_spec i j) as [->|]; [congruence|done].
Qed.
End Table.

(** ** Rehashing *)
Definition unique_ports (l : list PortEntry) : Prop :=
  forall i j e e', l !! i = Some e -> l !! j = Some e' -> port e = port e' -> port e <> 0 -> i = j.
Lemma wf_unique cap map : wf_ports cap map -> unique_ports map.
Proof.
  intros Hwf i j e e' Hi Hj Heq Hne. apply Nat2Z.inj, (t_unique _ _ Hwf _ _ e e'); [..|done|done]; unfold arr_get; (zif; [by rewrite Nat2Z.id|lia]).
Qed.
Lemma wf_zero cap : 0 < cap -> wf_ports cap (replicate (Z.to_nat cap) zero_entry).
Proof.
  intros Hc. assert (Hz : forall e, e ∈ replicate (Z.to_nat cap) zero_entry -> e = zero_entry) by by intros e [-> _]%elem_of_replicate.
  split.
  - unfold zlen. rewrite length_replicate. lia.
  - intros e ->%Hz. left. cbn. split; [done|by left].
  - intros i j e e' Hi _ _ Hne. destruct Hne. assert (e = zero_entry) as -> by (apply Hz, elem_get; by exists i). done.
  - intros i e Hi Hne. destruct Hne. assert (e = zero_entry) as -> by (apply Hz, elem_get; by exists i). done.
Qed.
(** What a predicate on used slots counts. *)
Definition only_used (f : PortEntry -> bool) : Prop := forall e, port e = 0 -> f e = false.
Lemma only_used_is_used : only_used is_used.
Proof. intros e He. unfold is_used. by rewrite He. Qed.
#[local] Hint Resolve only_used_is_used : core.

Lemma unused_exists cap map : wf_ports cap map -> cnt is_used map < cap -> exists e, e ∈ map /\ port e = 0.
Proof.
  intros Hwf Hc. destruct (t_len _ _ Hwf) as [Hl _]. rewrite <- Hl in Hc. apply cnt_lt_slot in Hc as (i & e & Hi & He).
  exists e. split; [apply elem_get; by exists i|]. unfold is_used in He. by destruct (Z.eqb_spec (port e) 0).
Qed.
Lemma port_holds_cons e l e' : holds (e :: l) e' <-> (e' = e /\ port e <> 0) \/ holds l e'.
Proof. unfold holds. rewrite elem_of_cons. split; [intros [[->|?] ?]; tauto|intros [[-> ?]|?]; tauto]. Qed.
Lemma Rehash_loop_spec cap entries : forall nt, wf_ports cap nt -> cnt is_deleted nt = 0 ->
  (forall e, e ∈ entries -> slot_ok e) -> unique_ports entries ->
  (forall e e', holds nt e -> holds entries e' -> port e <> port e') -> cnt is_used nt + cnt is_used entries < cap ->
  exists nt', Rehash_loop entries nt cap = Some nt' /\ wf_ports cap nt' /\ cnt is_deleted nt' = 0 /\
    (forall e, holds nt' e <-> holds nt e \/ holds entries e) /\
    forall f, only_used f -> cnt f nt' = cnt f nt + cnt f entries.
Proof.
  induction entries as [|e entries IH]; intros nt Hwf Hdel Hok Huni Hdis Hcnt.
  { exists nt. split; [done|]. split; [done|]. split; [done|]. split; [|intros f _; cbn; lia].
    intros e. split; [by left|]. intros [?|[?%not_elem_of_nil _]]; done. }
  cbn [Rehash_loop]. cbn [cnt] in Hcnt. pose proof (cnt_nonneg is_used entries).
  assert (Huni' : unique_ports entries).
  { intros i j e1 e2 Hi Hj Heq Hne. by assert (S i = S j) as [= ->] by by apply (Huni (S i) (S j) e1 e2). }
  assert (Hok' : forall e, e ∈ entries -> slot_ok e) by (intros e' He'; apply Hok; by right).
  unfold is_used at 2 in Hcnt. destruct (Z.eqb_spec (port e) 0) as [H0|H0]; cbn [negb] in *.
  - cbn [mbind option_bind]. destruct (IH nt) as (nt' & Hr & Hwf' & Hdel' & Hh & Hf); try done.
    + intros e1 e2 H1 [H2 Hne]. apply Hdis; [done|]. split; [by right|done].
    + exists nt'. split; [done|]. split; [done|]. split; [done|]. split.
      * intros e'. rewrite Hh, port_holds_cons. tauto.
      * intros f Hfu. rewrite Hf by done. cbn [cnt]. rewrite (Hfu e) by done. cbn. lia.
  - assert (Hoke : slot_ok e) by (apply Hok; by left). destruct Hoke as [[? _]|(Hp & Hh0 & Hh1)]; [lia|].
    cbn in Hcnt. destruct (unused_slot_home cap nt Hwf (port e)) as (d & old & -> & Hd & Hold & Hpo & Hpath); [lia|apply (unused_exists cap); [done|lia]|].
    cbn [mbind option_bind].
    assert (exists nt1, arr_set nt ((port e + d) mod cap) e = Some nt1) as [nt1 Hset].
    { eexists. apply arr_set_Some. split; [by eapply arr_get_Some|done]. }
    rewrite Hset. cbn [mbind option_bind].
    assert (Hnew : forall e', e' ∈ nt -> port e' <> port e).
    { intros e' He' Heq. apply (Hdis e' e); [split; [done|lia]|split; [by left|done]|done]. }
    destruct (wf_insert cap nt Hwf (port e) d old e nt1) as [Hwf1 Hh1']; try done.
    assert (Hold_ok : slot_ok old) by by eapply (get_ok cap nt Hwf).
    pose proof (fun f => cnt_set f _ _ _ _ _ Hold Hset) as Hc1.
    destruct (IH nt1) as (nt' & Hr & Hwf' & Hdel' & Hh & Hf); try done.
    + rewrite Hc1, Hdel. unfold is_deleted, deleted_entry_. destruct (Z.eqb_spec (handler e) 1); [done|].
      pose proof (cnt_nonneg is_deleted nt1) as Hnn. rewrite Hc1, Hdel in Hnn. unfold is_deleted, deleted_entry_ in Hnn.
      destruct (Z.eqb_spec (handler e) 1); [done|]. destruct (handler old =? 1); cbn in *; lia.
    + intros e1 e2 [->|H1]%Hh1' [H2 Hne].
      * intros Heq. apply list_elem_of_lookup in H2 as [j Hj]. by assert (O = S j) by by apply (Huni O (S j) e e2).
      * apply Hdis; [done|]. split; [by right|done].
    + rewrite Hc1. unfold is_used at 2 3. rewrite Hpo. destruct (Z.eqb_spec (port e) 0); [done|]. cbn. lia.
    + exists nt'. split; [done|]. split; [done|]. split; [done|]. split.
      * intros e'. rewrite Hh, Hh1', port_holds_cons. tauto.
      * intros f Hfu. rewrite Hf, Hc1 by done. cbn [cnt]. rewrite (Hfu old) by done. cbn. lia.
Qed.
Lemma Rehash_spec pm cap' : wf_ports (pm_capacity pm) (pm_map pm) -> 0 < cap' -> cnt is_used (pm_map pm) < cap' ->
  exists map', Rehash pm cap' = Some (MkPortMap map' cap' (pm_used pm) 0) /\ wf_ports cap' map' /\ cnt is_deleted map' = 0 /\
    (forall e, holds map' e <-> holds (pm_map pm) e) /\ forall f, only_used f -> cnt f map' = cnt f (pm_map pm).
Proof.
  intros Hwf Hc Hcnt. set (z := replicate (Z.to_nat cap') zero_entry).
  assert (Hz : forall e, ~ holds z e) by by intros e [[-> _]%elem_of_replicate Hne].
  destruct (Rehash_loop_spec cap' (pm_map pm) z) as (map' & Hr & Hwf' & Hd & Hh & Hf).
  - by apply wf_zero.
  - by apply cnt_replicate.
  - apply Hwf.
  - by eapply wf_unique.
  - by intros e e' ?%Hz.
  - unfold z. rewrite cnt_replicate by done. lia.
  - exists map'. unfold Rehash. fold z. rewrite Hr. split; [done|]. split; [done|]. split; [done|]. split.
    + intros e. rewrite Hh. specialize (Hz e). tauto.
    + intros f Hfu. rewrite Hf by done. unfold z. rewrite cnt_replicate by by apply Hfu. lia.
Qed.

(** ** The invariant of the port map *)
Record wf_pm (pm : PortMap) : Prop := {
  pm_table : wf_ports (pm_capacity pm) (pm_map pm);
  pm_counts : pm_used pm = cnt is_used (pm_map pm) /\ pm_deleted pm = cnt is_deleted (pm_map pm);
  pm_size : 8 <= pm_capacity pm /\ (4 | pm_capacity pm);
  pm_load : pm_used pm <= pm_capacity pm / 4 * 3 /\ pm_deleted pm <= pm_capacity pm - pm_used pm - pm_deleted pm }.

Lemma MaintainInvariants_spec pm : wf_ports (pm_capacity pm) (pm_map pm) ->
  pm_used pm = cnt is_used (pm_map pm) /\ pm_deleted pm = cnt is_deleted (pm_map pm) ->
  8 <= pm_capacity pm /\ (4 | pm_capacity pm) -> pm_used pm <= pm_capacity pm / 4 * 3 + 1 ->
  exists pm', MaintainInvariants pm = Some pm' /\ wf_pm pm' /\ (forall e, holds (pm_map pm') e <-> holds (pm_map pm) e) /\
    forall f, only_used f -> cnt f (pm_map pm') = cnt f (pm_map pm).
Proof.
  intros Hwf [Hu Hd] [Hc [k Hk]] Hload. unfold MaintainInvariants. rewrite Hk in *. rewrite Z.div_mul in * by lia. rewrite Z.gtb_ltb.
  destruct (Z.ltb_spec (k * 3) (pm_used pm)) as [H1|H1].
  - rewrite <- Hk in Hwf. destruct (Rehash_spec pm (k * 4 * 2)) as (map' & -> & Hwf' & Hdel & Hh & Hf); [done|lia|lia|].
    eexists. split; [reflexivity|]. split; [|done]. split; cbn; [done|by rewrite Hf|split; [lia|exists (2 * k); lia]|].
    replace (k * 4 * 2) with (k * 2 * 4) by lia. rewrite Z.div_mul by lia. lia.
  - destruct (Z.ltb_spec (k * 4 - pm_used pm - pm_deleted pm) (pm_deleted pm)) as [H2|H2].
    + rewrite <- Hk in Hwf. destruct (Rehash_spec pm (k * 4)) as (map' & -> & Hwf' & Hdel & Hh & Hf); [done|lia|lia|].
      eexists. split; [reflexivity|]. split; [|done]. split; cbn; [done|by rewrite Hf|split; [lia|by exists k]|].
      rewrite Z.div_mul by lia. lia.
    + exists pm. split; [done|]. split; [|done]. rewrite <- Hk in Hwf. split; [done|done|rewrite Hk; split; [lia|by exists k]|].
      rewrite Hk, Z.div_mul by lia. lia.
Qed.
Lemma pm_free pm : wf_pm pm -> exists e, e ∈ pm_map pm /\ handler e = 0.
Proof.
  intros [Hwf [Hu Hd] [Hc [k Hk]] [Hl1 Hl2]]. destruct (t_len _ _ Hwf) as [Hlen _].
  assert (Hs : cnt (fun e => is_used e || is_deleted e) (pm_map pm) = cnt is_used (pm_map pm) + cnt is_deleted (pm_map pm)).
  { apply cnt_split. intros e He. destruct (t_slot _ _ Hwf e He) as [[Hp Hh]|(Hp & Hh0 & Hh1)]; unfold is_used, is_deleted, deleted_entry_.
    - rewrite Hp. cbn. done.
    - destruct (Z.eqb_spec (handler e) 1); [done|]. rewrite orb_false_r. cbn. lia. }
  rewrite Hk, Z.div_mul in Hl1 by lia.
  destruct (cnt_lt_slot (fun e => is_used e || is_deleted e) (pm_map pm)) as (i & e & Hi & He); [rewrite Hs, Hlen; lia|].
  exists e. split; [apply elem_get; by exists i|]. destruct (get_ok _ _ Hwf i e Hi) as [[Hp [Hh|Hh]]|(Hp & _)]; [done| |].
  - unfold is_used, is_deleted, deleted_entry_ in He. rewrite Hp, Hh in He. done.
  - unfold is_used in He. destruct (Z.eqb_spec (port e) 0); [lia|done].
Qed.

(** ** The port map as a map from ports to handlers *)
Definition lookup_port (pm : PortMap) (p : Z) : option (Z * PortState) :=
  i ← FindPort pm p;
  if i <? 0 then None else e ← arr_get (pm_map pm) i; Some (handler e, state e).

Lemma FindPort_wf pm p : wf_pm pm -> 0 <= p ->
  (exists i e, FindPort pm p = Some i /\ arr_get (pm_map pm) i = Some e /\ port e = p /\ p <> 0) \/
  (FindPort pm p = Some (-1) /\ forall e, holds (pm_map pm) e -> port e <> p).
Proof. intros Hwf Hp. apply (FindPort_spec (pm_capacity pm)); [apply Hwf|done|done|by apply pm_free|done]. Qed.
Lemma lookup_port_spec pm p h s : wf_pm pm -> 0 <= p -> lookup_port pm p = Some (h, s) <-> holds (pm_map pm) (MkPortEntry p h s).
Proof.
  intros Hwf Hp. unfold lookup_port. destruct (FindPort_wf pm p Hwf Hp) as [(i & e & -> & He & Hpe & Hp0)|[-> Hn]].
  - cbn [mbind option_bind]. pose proof (arr_get_Some _ _ _ He). destruct (Z.ltb_spec i 0); [lia|]. rewrite He. cbn [mbind option_bind]. split.
    + intros [= <- <-]. split; [apply elem_get; exists i; by destruct e; cbn in *; subst|done].
    + intros [[j Hj]%elem_get Hne]. assert (i = j) as -> by by apply (t_unique _ _ (pm_table _ Hwf) i j e (MkPortEntry p h s)); cbn; subst.
      rewrite He in Hj. by injection Hj as ->.
  - cbn. split; [done|]. by intros Hh%Hn.
Qed.
Lemma lookup_port_eq pm pm' q : wf_pm pm -> wf_pm pm' -> 0 <= q ->
  (forall h s, holds (pm_map pm') (MkPortEntry q h s) <-> holds (pm_map pm) (MkPortEntry q h s)) -> lookup_port pm' q = lookup_port pm q.
Proof.
  intros Hwf Hwf' Hq H. destruct (lookup_port pm q) as [[h s]|] eqn:E.
  - apply lookup_port_spec, H; [done..|]. by apply lookup_port_spec.
  - destruct (lookup_port pm' q) as [[h s]|] eqn:E'; [|done]. apply lookup_port_spec, H in E'; [|done..].
    apply lookup_port_spec in E'; [congruence|done..].
Qed.
Lemma lookup_port_None pm q : wf_pm pm -> 0 <= q -> lookup_port pm q = None <-> forall e, holds (pm_map pm) e -> port e <> q.
Proof.
  intros Hwf Hq. split.
  - intros Hn [p h s] He Hp. cbn in Hp. subst p. apply (lookup_port_spec pm q h s Hwf Hq) in He. congruence.
  - intros H. destruct (lookup_port pm q) as [[h s]|] eqn:E; [|done]. apply lookup_port_spec in E; [|done..]. by apply H in E.
Qed.

(** Inserting and deleting. *)
Lemma insert_port_spec pm e : wf_pm pm -> 0 < port e -> handler e <> 0 -> handler e <> 1 -> lookup_port pm (port e) = None ->
  exists pm', insert_port pm e = Some pm' /\ wf_pm pm' /\ (forall e', holds (pm_map pm') e' <-> e' = e \/ holds (pm_map pm) e') /\
    forall f, only_used f -> cnt f (pm_map pm') = cnt f (pm_map pm) + Z.b2z (f e).
Proof.
  intros Hwf Hp Hh0 Hh1 Hn. pose proof (proj1 (lookup_port_None pm (port e) Hwf ltac:(lia)) Hn) as Hnew.
  destruct Hwf as [Ht [Hu Hd] [Hc [k Hk]] [Hl1 Hl2]]. unfold insert_port.
  destruct (unused_slot_home _ _ Ht (port e)) as (d & old & -> & Hdr & Hold & Hpo & Hpath); [lia| |].
  { apply (unused_exists (pm_capacity pm)); [done|]. rewrite Hk, Z.div_mul in Hl1 by lia. lia. }
  cbn [mbind option_bind]. rewrite Hold. cbn [mbind option_bind].
  destruct (arr_set (pm_map pm) ((port e + d) mod pm_capacity pm) e) as [map|] eqn:Hset.
  2: { exfalso. assert (arr_set (pm_map pm) ((port e + d) mod pm_capacity pm) e = Some (<[Z.to_nat ((port e + d) mod pm_capacity pm) := e]> (pm_map pm)))
         by (apply arr_set_Some; split; [by eapply arr_get_Some|done]). congruence. }
  cbn [mbind option_bind]. pose proof (fun f => cnt_set f _ _ _ _ _ Hold Hset) as Hcs.
  destruct (wf_insert _ _ Ht (port e) d old e map) as [Ht' Hh]; try done.
  { intros e' He' Heq. apply (Hnew e'); [split; [done|lia]|done]. }
  assert (Hd1 : is_deleted e = false) by (unfold is_deleted, deleted_entry_; by destruct (Z.eqb_spec (handler e) 1)).
  assert (Hu1 : is_used e = true) by (unfold is_used; destruct (Z.eqb_spec (port e) 0); [lia|done]).
  assert (Hu0 : is_used old = false) by by apply only_used_is_used.
  destruct (MaintainInvariants_spec (MkPortMap map (pm_capacity pm) (pm_used pm + 1)
     (if handler old =? deleted_entry_ then pm_deleted pm - 1 else pm_deleted pm))) as (pm' & Hm & Hwf' & Hh' & Hf'); cbn; [done| | |lia|].
  - change (handler old =? deleted_entry_) with (is_deleted old). rewrite !Hcs, Hd1, Hu1, Hu0. destruct (is_deleted old); cbn; lia.
  - split; [done|by exists k].
  - exists pm'. split; [done|]. split; [done|]. cbn in *. split; [intros e'; by rewrite Hh'|].
    intros f Hf. rewrite Hf', Hcs by done. rewrite (Hf old) by done. cbn. lia.
Qed.
(** A table before [MaintainInvariants]: the load may be off by one. *)
Record table_ok (pm : PortMap) : Prop := {
  ok_table : wf_ports (pm_capacity pm) (pm_map pm);
  ok_counts : pm_used pm = cnt is_used (pm_map pm) /\ pm_deleted pm = cnt is_deleted (pm_map pm);
  ok_size : 8 <= pm_capacity pm /\ (4 | pm_capacity pm);
  ok_load : pm_used pm <= pm_capacity pm / 4 * 3 + 1 }.
Lemma wf_table_ok pm : wf_pm pm -> table_ok pm.
Proof. intros [? ? ? [? ?]]. split; [done..|lia]. Qed.
Lemma table_ok_maintain pm : table_ok pm ->
  exists pm', MaintainInvariants pm = Some pm' /\ wf_pm pm' /\ (forall e, holds (pm_map pm') e <-> holds (pm_map pm) e) /\
    forall f, only_used f -> cnt f (pm_map pm') = cnt f (pm_map pm).
Proof. intros []. by apply MaintainInvariants_spec. Qed.
Lemma delete_slot_spec pm i e : table_ok pm -> arr_get (pm_map pm) i = Some e -> port e <> 0 ->
  exists pm', delete_slot pm i = Some (e, pm') /\ table_ok pm' /\ pm_capacity pm' = pm_capacity pm /\
    (forall e', holds (pm_map pm') e' <-> holds (pm_map pm) e' /\ port e' <> port e) /\
    (forall j, j <> i -> arr_get (pm_map pm') j = arr_get (pm_map pm) j) /\
    (forall e', arr_get (pm_map pm') i = Some e' -> handler e' = deleted_entry_) /\
    forall f, only_used f -> cnt f (pm_map pm') = cnt f (pm_map pm) - Z.b2z (f e).
Proof.
  intros [Ht [Hu Hd] Hs Hl] He Hpe. unfold delete_slot. rewrite He. cbn [mbind option_bind].
  destruct (arr_set (pm_map pm) i (MkPortEntry 0 deleted_entry_ (state e))) as [map|] eqn:Hset.
  2: { exfalso. assert (arr_set (pm_map pm) i (MkPortEntry 0 deleted_entry_ (state e)) = Some (<[Z.to_nat i := MkPortEntry 0 deleted_entry_ (state e)]> (pm_map pm)))
         by (apply arr_set_Some; split; [by eapply arr_get_Some|done]). congruence. }
  cbn [mbind option_bind]. pose proof (fun f => cnt_set f _ _ _ _ _ He Hset) as Hcs.
  destruct (wf_delete _ _ Ht i e map) as [Ht' Hh]; try done. eexists. split; [reflexivity|]. cbn.
  assert (Hu1 : is_used e = true) by (unfold is_used; by destruct (Z.eqb_spec (port e) 0)).
  assert (Hd1 : is_deleted e = false).
  { destruct (get_ok _ _ Ht i e He) as [[? _]|(_ & _ & ?)]; [done|]. unfold is_deleted, deleted_entry_. by destruct (Z.eqb_spec (handler e) 1). }
  split; [|split; [done|split; [done|split; [|split]]]].
  - split; cbn; [done| |done|lia]. rewrite !Hcs, Hu1, Hd1. cbn. lia.
  - intros j Hj. rewrite (arr_get_set _ _ _ _ _ Hset). by destruct (Z.eqb_spec i j).
  - intros e'. rewrite (arr_get_set _ _ _ _ _ Hset), Z.eqb_refl. by intros [= <-].
  - intros f Hf. rewrite Hcs. rewrite (Hf (MkPortEntry 0 deleted_entry_ (state e))) by done. cbn. lia.
Qed.

(** ** Worlds *)
Definition live_of (h : Z) (e : PortEntry) : bool := is_used e && (handler e =? h) && bool_decide (state e = kLivePort).
Lemma only_used_live h : only_used (live_of h).
Proof. intros e He. unfold live_of. by rewrite (only_used_is_used e He). Qed.
#[local] Hint Resolve only_used_live only_used_is_used : core.
(** No queued message has a delivery failure port. *)
Definition undirected (l : list (Z * Message)) : Prop := forall x, x ∈ l -> delivery_failure_port_ x.2 = kIllegalPort.
Definition queues_ok (hd : MessageHandler) : Prop := exists o n, handler_rep hd o n /\ undirected o /\ undirected n.
Record wf_world (w : World) : Prop := {
  world_pm : wf_pm (ports w);
  world_handlers : forall e, holds (pm_map (ports w)) e -> is_Some (handlers w !! handler e);
  world_live : forall h hd, handlers w !! h = Some hd ->
    h <> 0 /\ h <> 1 /\ live_ports_ hd = cnt (live_of h) (pm_map (ports w));
  world_queues : forall h hd, handlers w !! h = Some hd -> queues_ok hd }.

Lemma queues_ok_eq hd hd' : queue_ hd' = queue_ hd -> oob_queue_ hd' = oob_queue_ hd -> queues_ok hd -> queues_ok hd'.
Proof. intros H1 H2 (o & n & Hr & Ho & Hn). exists o, n. split; [by apply (handler_rep_eq hd)|done]. Qed.
Lemma redirected_none l : undirected l -> omap redirected l = [].
Proof.
  induction l as [|x l IH]; intros Hu; [done|]. cbn. unfold redirected at 1, RedirectToDeliveryFailurePort. rewrite Hu by by left. cbn.
  apply IH. intros y Hy. apply Hu. by right.
Qed.
(** A handler without its queues and its live ports. *)
Definition stripped (hd : MessageHandler) : MessageHandler := set_oob_queue (set_queue (set_live_ports hd 0) MessageQueue_new) MessageQueue_new.
Lemma CloseAllPorts_spec hd : queues_ok hd -> exists hd', CloseAllPorts hd = Some ([], hd') /\
  live_ports_ hd' = live_ports_ hd /\ handler_rep hd' [] [] /\ stripped hd' = stripped hd.
Proof.
  intros (o & n & [Ho Hn] & Huo & Hun). unfold CloseAllPorts.
  destruct (MessageQueue_Clear_spec _ _ Hn) as (r1 & -> & H1). destruct (MessageQueue_Clear_spec _ _ Ho) as (r2 & H2 & H2').
  cbn [mbind option_bind]. rewrite H2. cbn [mbind option_bind]. rewrite redirected_none in H1, H2' by done.
  apply fmap_nil_inv in H1 as ->. apply fmap_nil_inv in H2' as ->. eexists. split; [reflexivity|]. split; [done|]. split; [split; apply queue_rep_new|done].
Qed.

(** *** [AllocatePort] and [CreatePort] *)
Fixpoint draw (n : nat) (prng : Z) : Z :=
  match n with O => (NextUInt32 prng).1 &&& kMASK | S n => draw n (NextUInt32 prng).2 end.
Definition usable (pm : PortMap) (p : Z) : Prop := p <> 0 /\ lookup_port pm p = None.
Lemma mask_range x : 0 <= x &&& kMASK <= kMASK.
Proof.
  unfold kMASK. change 0x3fffffff with (Z.ones 30). rewrite Z.land_ones by lia. pose proof (Z.mod_pos_bound x (2 ^ 30) ltac:(lia)).
  change (Z.ones 30) with (2 ^ 30 - 1). lia.
Qed.
Lemma FindPort_lookup pm p : wf_pm pm -> 0 <= p -> exists i, FindPort pm p = Some i /\ ((i <? 0) = true <-> lookup_port pm p = None).
Proof.
  intros Hwf Hp. unfold lookup_port. destruct (FindPort_wf pm p Hwf Hp) as [(i & e & -> & He & _)|[-> _]].
  - exists i. split; [done|]. cbn. pose proof (arr_get_Some _ _ _ He). destruct (Z.ltb_spec i 0); [lia|]. rewrite He. done.
  - by exists (-1).
Qed.
Lemma AllocatePort_spec fuel pm : wf_pm pm -> forall prng,
  (forall p prng', AllocatePort fuel pm prng = Some (p, prng') -> 0 < p <= kMASK /\ usable pm p) /\
  ((exists n, (n < fuel)%nat /\ usable pm (draw n prng)) -> exists p prng', AllocatePort fuel pm prng = Some (p, prng')).
Proof.
  intros Hwf. induction fuel as [|fuel IH]; intros prng; [split; [done|intros (n & ? & _); lia]|].
  cbn [AllocatePort]. destruct (NextUInt32 prng) as [number prng1] eqn:En. pose proof (mask_range number) as Hr.
  destruct (IH prng1) as [IH1 IH2].
  assert (Hnext : ~ usable pm (number &&& kMASK) -> (exists n, (n < S fuel)%nat /\ usable pm (draw n prng)) ->
                  exists n, (n < fuel)%nat /\ usable pm (draw n prng1)).
  { intros Hno (n & Hn & Hu). destruct n as [|n]; cbn [draw] in Hu; rewrite En in Hu; [done|]. exists n. split; [lia|done]. }
  destruct (Z.eqb_spec (number &&& kMASK) 0) as [H0|H0].
  - split; [done|]. intros H. apply IH2, Hnext; [|done]. by intros [? _].
  - destruct (FindPort_lookup pm (number &&& kMASK) Hwf ltac:(lia)) as (i & -> & Hi). cbn [mbind option_bind].
    rewrite Z.geb_leb, Z.leb_antisym. destruct (i <? 0); cbn [negb].
    + split; [|by eauto]. intros p prng' [= <- <-]. split; [lia|]. split; [done|by apply Hi].
    + split; [done|]. intros H. apply IH2, Hnext; [|done]. intros [_ Hl]. by apply Hi in Hl.
Qed.
Lemma CreatePort_spec fuel w h hd p prng' : wf_world w -> handlers w !! h = Some hd -> AllocatePort fuel (ports w) (prng_ w) = Some (p, prng') ->
  exists w', CreatePort fuel w h = Some (p, w') /\ wf_world w' /\ handlers w' = handlers w /\ lookup_port (ports w) p = None /\ 0 < p <= kMASK /\
    forall q, 0 <= q -> lookup_port (ports w') q = if q =? p then Some (h, kNewPort) else lookup_port (ports w) q.
Proof.
  intros [Hpm Hh Hl Hq] Hhd Ha. destruct (proj1 (AllocatePort_spec fuel _ Hpm (prng_ w)) p prng' Ha) as [Hp [Hp0 Hn]].
  destruct (Hl h hd Hhd) as (Hh0 & Hh1 & Hlive). unfold CreatePort. rewrite Ha. cbn [mbind option_bind].
  destruct (insert_port_spec (ports w) (MkPortEntry p h kNewPort) Hpm) as (pm' & -> & Hpm' & Hholds & Hcnt); [cbn; lia|done|done|done|].
  cbn [mbind option_bind]. eexists. split; [reflexivity|]. split; [|split; [done|split; [done|split; [done|]]]].
  - split; cbn; [done| | |done].
    + intros e [->|He]%Hholds; [cbn; by rewrite Hhd|by apply Hh].
    + intros h' hd' Hhd'. destruct (Hl h' hd' Hhd') as (? & ? & ->). split; [done|]. split; [done|]. rewrite Hcnt by done.
      unfold live_of at 3. cbn. rewrite andb_false_r. cbn. lia.
  - intros q Hq'. cbn. destruct (Z.eqb_spec q p) as [->|Hne].
    + apply lookup_port_spec; [done..|]. apply Hholds. by left.
    + apply lookup_port_eq; [done..|]. intros h' s. rewrite Hholds. split; [intros [[= ->]|?]; [done|done]|by right].
Qed.

(** *** [SetPortState] *)
Lemma wf_ports_state cap map i e s map' : wf_ports cap map -> arr_get map i = Some e -> port e <> 0 ->
  arr_set map i (MkPortEntry (port e) (handler e) s) = Some map' ->
  wf_ports cap map' /\ forall e', holds map' e' <-> (e' = MkPortEntry (port e) (handler e) s) \/ (holds map e' /\ port e' <> port e).
Proof.
  intros Hwf He Hpe Hset. pose proof (fun j => arr_get_set _ _ j _ _ Hset) as Hget.
  assert (Hin : forall j e', arr_get map' j = Some e' ->
    exists e0, arr_get map j = Some e0 /\ port e0 = port e' /\ handler e0 = handler e' /\ (j <> i -> e0 = e')).
  { intros j e' Hj. rewrite Hget in Hj. destruct (Z.eqb_spec i j) as [<-|Hne]; [injection Hj as <-; by exists e|by exists e']. }
  split; [split|].
  - rewrite (arr_set_length _ _ _ _ Hset). apply Hwf.
  - intros e' [j (e0 & Hj & Hp0 & Hh0 & _)%Hin]%elem_get. pose proof (get_ok _ _ Hwf j e0 Hj) as Hok. unfold slot_ok in *. by rewrite <- Hp0, <- Hh0.
  - intros j1 j2 e1 e2 (x1 & H1 & Hp1 & _)%Hin (x2 & H2 & Hp2 & _)%Hin Heq Hne. apply (t_unique _ _ Hwf j1 j2 x1 x2); congruence.
  - intros j e' (e0 & Hj & Hp0 & Hh0 & _)%Hin Hne. rewrite <- Hp0 in *. destruct (t_probe _ _ Hwf j e0 Hj Hne) as (d & Hd & Heq & Hpath).
    exists d. split; [done|]. split; [done|]. intros c e2 Hc (x2 & H2 & _ & Hh2 & _)%Hin. rewrite <- Hh2. by apply (Hpath c).
  - intros e'. split.
    + intros [[j Hj]%elem_get Hne]. pose proof Hj as (e0 & Hj0 & Hp0 & _ & Hsame)%Hin. destruct (Z.eq_dec j i) as [->|Hji].
      * left. rewrite Hget, Z.eqb_refl in Hj. by injection Hj as <-.
      * right. rewrite (Hsame Hji) in *. split; [split; [apply elem_get; by exists j|done]|].
        intros Heq. apply Hji. by apply (t_unique _ _ Hwf j i e' e).
    + intros [->|[[[j Hj]%elem_get Hne] Hne']].
      * split; [|done]. apply elem_get. exists i. by rewrite Hget, Z.eqb_refl.
      * split; [|done]. apply elem_get. exists j. rewrite Hget. destruct (Z.eqb_spec i j) as [->|]; [congruence|done].
Qed.
(** Changing the state of a port that was new. *)
Lemma live_state h e s : port e <> 0 -> state e = kNewPort ->
  Z.b2z (live_of h (MkPortEntry (port e) (handler e) s)) - Z.b2z (live_of h e) =
  Z.b2z ((handler e =? h) && bool_decide (s = kLivePort)).
Proof.
  intros Hp Hs. unfold live_of, is_used. cbn. rewrite Hs. destruct (Z.eqb_spec (port e) 0); [done|]. cbn [negb andb].
  rewrite (bool_decide_false (kNewPort = kLivePort)), andb_false_r by done.
  destruct (handler e =? h), s; reflexivity.
Qed.
(** How opening and closing a port in the state [s] changes its handler. *)
Definition count_up (s : PortState) (hd : MessageHandler) : MessageHandler :=
  match s with kLivePort => set_live_ports hd (live_ports_ hd + 1) | _ => hd end.
Definition count_down (s : PortState) (hd : MessageHandler) : MessageHandler :=
  match s with kLivePort => set_live_ports hd (live_ports_ hd - 1) | _ => hd end.
Lemma SetPortState_spec w p s h : wf_world w -> 0 <= p -> lookup_port (ports w) p = Some (h, kNewPort) ->
  exists w', SetPortState w p s = Some w' /\ wf_world w' /\
    (forall q, 0 <= q -> lookup_port (ports w') q = if q =? p then Some (h, s) else lookup_port (ports w) q) /\
    forall h', handlers w' !! h' = if h' =? h then count_up s <$> handlers w !! h' else handlers w !! h'.
Proof.
  intros [Hpm Hh Hl Hq] Hp Hlk. unfold SetPortState. pose proof Hlk as Hhold. apply lookup_port_spec in Hhold; [|done..].
  destruct (FindPort_wf (ports w) p Hpm Hp) as [(i & e & -> & He & Hpe & Hp0)|[_ Hn]]; [|by apply Hn in Hhold].
  cbn [mbind option_bind]. rewrite He. cbn [mbind option_bind].
  assert (e = MkPortEntry p h kNewPort) as ->.
  { destruct Hhold as [[j Hj]%elem_get _]. assert (i = j) as -> by (apply (t_unique _ _ (pm_table _ Hpm) i j e _ He Hj); cbn; congruence). congruence. }
  cbn [port handler state] in *. destruct (arr_set (pm_map (ports w)) i (MkPortEntry p h s)) as [map'|] eqn:Hset.
  2: { exfalso. assert (arr_set (pm_map (ports w)) i (MkPortEntry p h s) = Some (<[Z.to_nat i := MkPortEntry p h s]> (pm_map (ports w))))
         by (apply arr_set_Some; split; [by eapply arr_get_Some|done]). congruence. }
  cbn [mbind option_bind]. pose proof (fun f => cnt_set f _ _ _ _ _ He Hset) as Hcs.
  destruct (wf_ports_state _ _ i _ s map' (pm_table _ Hpm) He Hp0 Hset) as [Ht' Hholds]. cbn [port handler] in Hholds.
  set (pm' := MkPortMap map' _ _ _).
  assert (Hpm' : wf_pm pm').
  { destruct Hpm as [Ht [Hu Hd] Hs' Hld]. split; cbn; [done| |done|done]. rewrite !Hcs. unfold is_used, is_deleted in *. cbn. lia. }
  assert (Hlookup : forall q, 0 <= q -> lookup_port pm' q = if q =? p then Some (h, s) else lookup_port (ports w) q).
  { intros q Hq'. destruct (Z.eqb_spec q p) as [->|Hne].
    - apply lookup_port_spec; [done..|]. apply Hholds. by left.
    - apply lookup_port_eq; [done..|]. intros h' s'. cbn [pm' pm_map]. rewrite Hholds. split; [intros [[= ->]|[? _]]; done|intros ?; right; by split]. }
  assert (Hhs : forall e, holds map' e -> is_Some (handlers w !! handler e)).
  { intros e [->|[He' _]]%Hholds; [apply (Hh _ Hhold)|by apply Hh]. }
  assert (Hlive' : forall h' hd, handlers w !! h' = Some hd ->
    cnt (live_of h') map' = live_ports_ hd + Z.b2z ((h =? h') && bool_decide (s = kLivePort))).
  { intros h' hd Hhd. destruct (Hl h' hd Hhd) as (_ & _ & ->). rewrite Hcs. pose proof (live_state h' (MkPortEntry p h kNewPort) s Hp0 eq_refl) as Hls.
    cbn in Hls. lia. }
  destruct (decide (s = kLivePort)) as [->|Hns].
  - unfold increment_live_ports, update_handler. cbn [set_ports handlers]. destruct (Hh _ Hhold) as [hd Hhd]. cbn in Hhd. rewrite Hhd. cbn [mbind option_bind].
    eexists. split; [reflexivity|]. split; [|split; [done|]].
    2: { intros h'. cbn. destruct (Z.eqb_spec h' h) as [->|Hne]; [by rewrite lookup_insert_eq, Hhd|by rewrite lookup_insert_ne]. }
    split; cbn; [done| | |].
    + intros e He'. destruct (decide (h = handler e)) as [->|Hne]; [rewrite lookup_insert_eq; done|rewrite lookup_insert_ne by done; by apply Hhs].
    + intros h' hd'. destruct (decide (h = h')) as [->|Hne].
      * rewrite lookup_insert_eq. intros [= <-]. destruct (Hl h' hd Hhd) as (? & ? & _). split; [done|]. split; [done|]. cbn.
        by rewrite (Hlive' h' hd Hhd), Z.eqb_refl.
      * rewrite lookup_insert_ne by done. intros Hhd'. destruct (Hl h' hd' Hhd') as (? & ? & _). split; [done|]. split; [done|].
        rewrite (Hlive' h' hd' Hhd'). destruct (Z.eqb_spec h h'); [done|]. cbn. lia.
    + intros h' hd'. destruct (decide (h = h')) as [->|Hne]; [|rewrite lookup_insert_ne by done; apply Hq].
      rewrite lookup_insert_eq. intros [= <-]. by apply (queues_ok_eq hd), (Hq h').
  - exists (set_ports w pm'). split; [by destruct s|]. split; [|split; [done|]].
    2: { intros h'. cbn. destruct (h' =? h); [|done]. destruct s; [|done|]; by destruct (handlers w !! h'). }
    split; cbn; [done|done| |done]. intros h' hd' Hhd'. destruct (Hl h' hd' Hhd') as (? & ? & _). split; [done|]. split; [done|].
    rewrite (Hlive' h' hd' Hhd'), (bool_decide_false (s = kLivePort)), andb_false_r by done. cbn. lia.
Qed.

(** *** [PostMessage] *)
Definition handler_at (w : World) (h : Z) (o n : list (Z * Message)) : Prop :=
  exists hd, handlers w !! h = Some hd /\ handler_rep hd o n.
Lemma PostMessage_spec w x m be : wf_world w -> 0 <= dest_port_ m -> msg_next m = 0 -> x <> 0 -> delivery_failure_port_ m = kIllegalPort ->
  match lookup_port (ports w) (dest_port_ m) with
  | None => PostMessage w x m be = Some (false, w)
  | Some (h, _) => forall o n, handler_at w h o n -> x ∉ o.*1 -> x ∉ n.*1 -> undirected o -> undirected n ->
      exists w', PostMessage w x m be = Some (true, w') /\ wf_world w' /\ ports w' = ports w /\
        (forall h', h' <> h -> handlers w' !! h' = handlers w !! h') /\
        if IsOOB m then handler_at w' h (enqueue_spec (x, message_body m) be o) n
        else handler_at w' h o (enqueue_spec (x, message_body m) be n)
  end.
Proof.
  intros [Hpm Hh Hl Hq] Hp Hnext Hx0 Hdf. unfold PostMessage.
  destruct (lookup_port (ports w) (dest_port_ m)) as [[h s]|] eqn:Hlk.
  2: { destruct (FindPort_lookup (ports w) (dest_port_ m) Hpm Hp) as (i & -> & Hi). cbn [mbind option_bind].
       apply Hi in Hlk. by rewrite Hlk. }
  intros o n (hd & Hhd & Hr) Hxo Hxn Huo Hun. pose proof Hlk as Hhold. apply lookup_port_spec in Hhold; [|done..].
  destruct (FindPort_wf (ports w) _ Hpm Hp) as [(i & e & -> & He & Hpe & Hp0)|[_ Hn]]; [|by apply Hn in Hhold].
  assert (e = MkPortEntry (dest_port_ m) h s) as ->.
  { destruct Hhold as [[j Hj]%elem_get _]. assert (i = j) as -> by (apply (t_unique _ _ (pm_table _ Hpm) i j e _ He Hj); cbn; congruence). congruence. }
  cbn [mbind option_bind]. pose proof (arr_get_Some _ _ _ He). destruct (Z.ltb_spec i 0); [lia|]. rewrite He. cbn [mbind option_bind handler].
  unfold update_handler. rewrite Hhd. cbn [mbind option_bind].
  destruct (Handler_PostMessage_spec hd o n x m be Hr Hx0 Hxo Hxn Hnext) as (hd' & -> & _ & Hlp & _ & Hr'). cbn [mbind option_bind].
  assert (Hu : forall l, undirected l -> undirected (enqueue_spec (x, message_body m) be l)).
  { intros l Hul y. rewrite elem_enqueue. intros [->|Hy]; [done|by apply Hul]. }
  eexists. split; [reflexivity|]. split; [split; cbn; [done| | |]|split; [done|split]].
  - intros e He'. destruct (decide (h = handler e)) as [->|Hne]; [rewrite lookup_insert_eq; done|rewrite lookup_insert_ne by done; by apply Hh].
  - intros h' hd0. destruct (decide (h = h')) as [<-|Hne]; [|rewrite lookup_insert_ne by done; apply Hl].
    rewrite lookup_insert_eq. intros [= <-]. rewrite Hlp. by apply Hl.
  - intros h' hd0. destruct (decide (h = h')) as [<-|Hne]; [|rewrite lookup_insert_ne by done; apply Hq].
    rewrite lookup_insert_eq. intros [= <-]. destruct (IsOOB m); [eexists _, n|eexists o, _]; (split; [done|]; split; [auto|auto]).
  - intros h' Hne. cbn. by rewrite lookup_insert_ne.
  - destruct (IsOOB m); exists hd'; cbn; (split; [by rewrite lookup_insert_eq|done]).
Qed.

(** *** [ClosePort] *)
Lemma cnt_0 f l : (forall e, e ∈ l -> f e = false) -> cnt f l = 0.
Proof. induction l as [|e l IH]; intros H; cbn; [done|]. rewrite (H e) by by left. rewrite IH; [done|]. intros e' He'. apply H. by right. Qed.
(** The live ports of the handlers after an entry is removed. *)
Definition after_close (w : World) (h : Z) (e : PortEntry) (hs : gmap Z MessageHandler) : Prop :=
  exists hd hd', handlers w !! h = Some hd /\ hs = <[h := hd']> (handlers w) /\
    queue_ hd' = queue_ hd /\ oob_queue_ hd' = oob_queue_ hd /\ task_ hd' = task_ hd /\
    live_ports_ hd' = live_ports_ hd - Z.b2z (bool_decide (state e = kLivePort)) /\ hd' = count_down (state e) hd.
Lemma close_live w pm h e : is_Some (handlers w !! h) ->
  exists hs, (match state e with kLivePort => decrement_live_ports (set_ports w pm) h | _ => Some (set_ports w pm) end) =
    Some (MkWorld pm hs (prng_ w)) /\ after_close w h e hs.
Proof.
  intros [hd Hhd]. destruct (state e) eqn:Es.
  2: { unfold decrement_live_ports, update_handler. cbn [set_ports handlers]. rewrite Hhd. cbn [mbind option_bind].
       eexists. split; [reflexivity|]. eexists hd, _. do 5 (split; [done|]). rewrite Es. split; [by rewrite bool_decide_true|done]. }
  all: exists (handlers w); (split; [done|]); exists hd, hd; rewrite insert_id by done; do 5 (split; [done|]); rewrite Es; (split; [|done]); rewrite bool_decide_false by done; cbn; lia.
Qed.
Lemma live_used h e : port e <> 0 -> handler e = h -> live_of h e = bool_decide (state e = kLivePort).
Proof. intros Hp <-. unfold live_of, is_used. destruct (Z.eqb_spec (port e) 0); [done|]. by rewrite Z.eqb_refl. Qed.
Lemma live_other h e : handler e <> h -> live_of h e = false.
Proof. intros Hne. unfold live_of. destruct (Z.eqb_spec (handler e) h); [done|]. by rewrite andb_false_r. Qed.

(** The table and the handlers agree again once an entry is gone. *)
Lemma after_close_live w e hs map' : wf_world w -> port e <> 0 -> after_close w (handler e) e hs ->
  (forall f, only_used f -> cnt f map' = cnt f (pm_map (ports w)) - Z.b2z (f e)) ->
  (forall h hd, hs !! h = Some hd -> h <> 0 /\ h <> 1 /\ live_ports_ hd = cnt (live_of h) map') /\
  (forall h hd, hs !! h = Some hd -> queues_ok hd) /\ (forall h, is_Some (handlers w !! h) -> is_Some (hs !! h)).
Proof.
  intros [Hpm Hh Hl Hq] Hp (hd & hd' & Hhd & -> & Hq1 & Hq2 & _ & Hlp & _) Hcnt. split; [|split].
  - intros h hd0. rewrite Hcnt by done. destruct (decide (handler e = h)) as [<-|Hne].
    + rewrite lookup_insert_eq. intros [= <-]. destruct (Hl _ _ Hhd) as (? & ? & Hlive). rewrite Hlp, Hlive, live_used by done. done.
    + rewrite lookup_insert_ne by done. intros Hhd0. rewrite live_other by done. destruct (Hl _ _ Hhd0) as (? & ? & ->). cbn. lia.
  - intros h hd0. destruct (decide (handler e = h)) as [<-|Hne]; [|rewrite lookup_insert_ne by done; apply Hq].
    rewrite lookup_insert_eq. intros [= <-]. by apply (queues_ok_eq hd), (Hq (handler e)).
  - intros h Hs. destruct (decide (handler e = h)) as [<-|Hne]; [by rewrite lookup_insert_eq|by rewrite lookup_insert_ne].
Qed.

Section Close.
Context (OwnedByPortMap : Z -> bool).

(** The handler may go only if it has no port left. *)
Lemma RequestDeletion_spec w h hd : wf_world w -> handlers w !! h = Some hd -> (forall e, holds (pm_map (ports w)) e -> handler e <> h) ->
  exists w', RequestDeletion w h = Some w' /\ wf_world w' /\ ports w' = ports w /\ (forall h', h' <> h -> handlers w' !! h' = handlers w !! h') /\
    handlers w' !! h = if task_ hd then Some (set_delete_me hd true) else None.
Proof using.
  intros [Hpm Hh Hl Hq] Hhd Hno. unfold RequestDeletion. rewrite Hhd. cbn [mbind option_bind]. destruct (task_ hd).
  - eexists. split; [reflexivity|]. split; [|split; [done|split; [intros h' Hne; cbn; by rewrite lookup_insert_ne|apply lookup_insert_eq]]]. split; cbn; [done| | |].
    + intros e He. rewrite lookup_insert_ne by (intros Heq; by apply (Hno e)). by apply Hh.
    + intros h' hd'. destruct (decide (h = h')) as [<-|Hne]; [|rewrite lookup_insert_ne by done; apply Hl].
      rewrite lookup_insert_eq. intros [= <-]. cbn. by apply Hl.
    + intros h' hd'. destruct (decide (h = h')) as [<-|Hne]; [|rewrite lookup_insert_ne by done; apply Hq].
      rewrite lookup_insert_eq. intros [= <-]. by apply (queues_ok_eq hd), (Hq h).
  - unfold delete_handler. rewrite Hhd. cbn [mbind option_bind]. destruct (CloseAllPorts_spec hd (Hq h hd Hhd)) as (hd' & -> & _).
    cbn [mbind option_bind post_redirected]. eexists. split; [reflexivity|]. split; [|split; [done|split; [intros h' Hne; cbn; by rewrite lookup_delete_ne|apply lookup_delete_eq]]].
    split; cbn; [done| | |].
    + intros e He. rewrite lookup_delete_ne by (intros Heq; by apply (Hno e)). by apply Hh.
    + intros h' hd0 [_ Hhd0]%lookup_delete_Some. by apply Hl.
    + intros h' hd0 [_ Hhd0]%lookup_delete_Some. by apply (Hq h').
Qed.

(** What becomes of the handler of a port that is closed. *)
Definition after_last_port (owned : bool) (hd : MessageHandler) : option MessageHandler :=
  if negb (HasLivePorts hd) && owned then if task_ hd then Some (set_delete_me hd true) else None else Some hd.
Lemma ClosePort_spec w p : wf_world w -> 0 <= p ->
  match lookup_port (ports w) p with
  | None => ClosePort OwnedByPortMap w p = Some (false, w)
  | Some (h, s) =>
      (OwnedByPortMap h = true -> forall q s, 0 <= q -> lookup_port (ports w) q = Some (h, s) -> q = p) ->
      exists w', ClosePort OwnedByPortMap w p = Some (true, w') /\ wf_world w' /\
        (forall q, 0 <= q -> lookup_port (ports w') q = if q =? p then None else lookup_port (ports w) q) /\
        forall h', handlers w' !! h' = if h' =? h then hd ← handlers w !! h'; after_last_port (OwnedByPortMap h) (count_down s hd) else handlers w !! h'
  end.
Proof using.
  intros Hw Hp. pose proof Hw as [Hpm Hh Hl Hq]. unfold ClosePort.
  destruct (lookup_port (ports w) p) as [[h s]|] eqn:Hlk.
  2: { destruct (FindPort_lookup (ports w) p Hpm Hp) as (i & -> & Hi). cbn [mbind option_bind]. apply Hi in Hlk. by rewrite Hlk. }
  intros Hown. pose proof Hlk as Hhold. apply lookup_port_spec in Hhold; [|done..].
  destruct (FindPort_wf (ports w) p Hpm Hp) as [(i & e & -> & He & Hpe & Hp0)|[_ Hn]]; [|by apply Hn in Hhold].
  assert (e = MkPortEntry p h s) as ->.
  { destruct Hhold as [[j Hj]%elem_get _]. assert (i = j) as -> by (apply (t_unique _ _ (pm_table _ Hpm) i j e _ He Hj); cbn; congruence). congruence. }
  cbn [mbind option_bind]. pose proof (arr_get_Some _ _ _ He). destruct (Z.ltb_spec i 0); [lia|].
  destruct (delete_slot_spec (ports w) i (MkPortEntry p h s) (wf_table_ok _ Hpm) He Hp0) as (pm1 & -> & Hok1 & _ & Hh1 & _ & _ & Hc1).
  cbn [mbind option_bind]. destruct (close_live w pm1 h (MkPortEntry p h s) (Hh _ Hhold)) as (hs & Hcl & Hafter). cbn [handler].
  rewrite Hcl. cbn [mbind option_bind ports]. destruct (table_ok_maintain pm1 Hok1) as (pm2 & -> & Hwf2 & Hh2 & Hc2).
  cbn [mbind option_bind set_ports handlers prng_].
  destruct (after_close_live w (MkPortEntry p h s) hs (pm_map pm2) Hw Hp0 Hafter) as (Hl' & Hq' & Hs').
  { intros f Hf. rewrite Hc2, Hc1 by done. done. }
  assert (Hholds : forall e, holds (pm_map pm2) e <-> holds (pm_map (ports w)) e /\ port e <> p) by (intros e; rewrite Hh2, Hh1; done).
  set (w1 := MkWorld pm2 hs (prng_ w)).
  assert (Hw1 : wf_world w1).
  { split; cbn; [done| |done|done]. intros e [He' _]%Hholds. by apply Hs', Hh. }
  assert (Hlook : forall q, 0 <= q -> lookup_port pm2 q = if q =? p then None else lookup_port (ports w) q).
  { intros q Hq0. destruct (Z.eqb_spec q p) as [->|Hne].
    - apply lookup_port_None; [done..|]. by intros e [_ ?]%Hholds.
    - apply lookup_port_eq; [done..|]. intros h' s'. rewrite Hholds. split; [by intros [? _]|by intros]. }
  destruct Hafter as (hd & hd' & Hhd & -> & Hq1 & Hq2 & _ & _ & Hcd). cbn [state] in Hcd.
  assert (Hdone : forall w2, (forall h', h' <> h -> handlers w2 !! h' = handlers w1 !! h') -> handlers w2 !! h = after_last_port (OwnedByPortMap h) hd' ->
    forall h', handlers w2 !! h' = if h' =? h then hd ← handlers w !! h'; after_last_port (OwnedByPortMap h) (count_down s hd) else handlers w !! h').
  { intros w2 Hoth Hat h'. destruct (Z.eqb_spec h' h) as [->|Hne]; [rewrite Hhd; cbn [mbind option_bind]; by rewrite <- Hcd|]. rewrite Hoth by done. cbn. by rewrite lookup_insert_ne. }
  rewrite lookup_insert_eq. cbn [mbind option_bind].
  destruct (negb (HasLivePorts hd') && OwnedByPortMap h) eqn:Eo.
  - pose proof Eo as [_ Ho]%andb_true_iff. match goal with |- context [RequestDeletion ?x h] => change x with w1 end.
    destruct (RequestDeletion_spec w1 h hd' Hw1) as (w2 & -> & Hw2 & Hp2 & Hoth2 & Hat2); [cbn; by rewrite lookup_insert_eq| |].
    { intros [q h' s'] [He' Hne]%Hholds Heq. cbn in Heq, Hne. subst h'. apply Hne. apply (Hown Ho q s').
      - pose proof (proj1 He') as Hin. destruct (t_slot _ _ (pm_table _ Hpm) _ Hin) as [[Hz _]|(? & _)]; [by destruct He'|cbn in *; lia].
      - apply lookup_port_spec; [done| |done]. destruct He' as [Hin Hnz]. destruct (t_slot _ _ (pm_table _ Hpm) _ Hin) as [[Hz _]|(? & _)]; cbn in *; lia. }
    cbn [mbind option_bind]. exists w2. split; [done|]. split; [done|]. split; [intros q Hq0; rewrite Hp2; by apply Hlook|].
    apply Hdone; [done|]. rewrite Hat2. unfold after_last_port. by rewrite Eo.
  - cbn [mbind option_bind]. exists w1. split; [done|]. split; [done|]. split; [done|]. apply Hdone; [done|]. cbn. rewrite lookup_insert_eq. unfold after_last_port. by rewrite Eo.
Qed.
End Close.

(** *** [ClosePorts] *)
Section ClosePorts.
Context (h : Z) (Hh0 : h <> 0) (Hh1 : h <> 1).

(** [hs] has the handler's live ports counted down, and nothing else. *)
Definition only_live_ports (hs hs' : gmap Z MessageHandler) : Prop :=
  exists hd hd', hs !! h = Some hd /\ hs' = <[h := hd']> hs /\ queue_ hd' = queue_ hd /\ oob_queue_ hd' = oob_queue_ hd /\ stripped hd' = stripped hd.
Lemma only_live_ports_refl hs hd : hs !! h = Some hd -> only_live_ports hs hs.
Proof using. intros Hhd. exists hd, hd. by rewrite insert_id. Qed.
Lemma only_live_ports_trans hs1 hs2 hs3 : only_live_ports hs1 hs2 -> only_live_ports hs2 hs3 -> only_live_ports hs1 hs3.
Proof using.
  intros (a & b & Ha & -> & Hq1 & Hq2 & Hs1) (c & d & Hc & -> & Hq3 & Hq4 & Hs2). rewrite lookup_insert_eq in Hc. injection Hc as <-.
  exists a, d. rewrite insert_insert_eq. split; [done|]. split; [done|]. split; [congruence|]. split; congruence.
Qed.

Lemma ClosePorts_loop_spec n : forall w i hd, table_ok (ports w) -> handlers w !! h = Some hd ->
  live_ports_ hd = cnt (live_of h) (pm_map (ports w)) -> 0 <= i -> i + Z.of_nat n = pm_capacity (ports w) ->
  (forall j e, arr_get (pm_map (ports w)) j = Some e -> j < i -> handler e <> h) ->
  exists w' hd', ClosePorts_loop n w h i = Some w' /\ table_ok (ports w') /\
    (forall e, holds (pm_map (ports w')) e <-> holds (pm_map (ports w)) e /\ handler e <> h) /\
    only_live_ports (handlers w) (handlers w') /\ handlers w' !! h = Some hd' /\ live_ports_ hd' = cnt (live_of h) (pm_map (ports w')) /\
    forall f, only_used f -> (forall e, handler e = h -> f e = false) -> cnt f (pm_map (ports w')) = cnt f (pm_map (ports w)).
Proof using Hh0 Hh1.
  induction n as [|n IH]; intros w i hd Hok Hhd Hlive Hi Hn Hpre.
  { exists w, hd. split; [done|]. split; [done|]. split; [|split; [by eapply only_live_ports_refl|done]].
    intros e. split; [|by intros [? _]]. intros [[j Hj]%elem_get Hne]. split; [split; [apply elem_get; by exists j|done]|].
    apply (Hpre j); [done|]. apply arr_get_Some in Hj. destruct (t_len _ _ (ok_table _ Hok)) as [Hlen _]. lia. }
  cbn [ClosePorts_loop]. destruct (t_len _ _ (ok_table _ Hok)) as [Hlen _].
  destruct (arr_get_lt (pm_map (ports w)) i) as [e He]; [lia|]. rewrite He. cbn [mbind option_bind].
  destruct (Z.eqb_spec (handler e) h) as [Heh|Heh].
  2: { cbn [mbind option_bind]. apply (IH w (i + 1) hd); try done; [lia|lia|]. intros j e' Hj Hlt.
       destruct (Z.eq_dec j i) as [->|]; [congruence|apply (Hpre j); [done|lia]]. }
  assert (Hpe : port e <> 0) by (destruct (get_ok _ _ (ok_table _ Hok) i e He) as [[? [?|?]]|(? & _)]; lia).
  destruct (delete_slot_spec (ports w) i e Hok He Hpe) as (pm1 & -> & Hok1 & Hcap1 & Hh1' & Hj1 & Hi1 & Hc1). cbn [mbind option_bind].
  destruct (close_live w pm1 h e ltac:(by rewrite Hhd)) as (hs & -> & (hd0 & hd1 & Hhd0 & -> & Hq1 & Hq2 & _ & Hlp & Hcd)). cbn [mbind option_bind].
  assert (hd0 = hd) as -> by congruence.
  destruct (IH (MkWorld pm1 (<[h := hd1]> (handlers w)) (prng_ w)) (i + 1) hd1) as (w' & hd' & Hw' & Hok' & Hh' & Hol & Hhd' & Hlive' & Hc'); cbn.
  - done.
  - by rewrite lookup_insert_eq.
  - rewrite Hc1, Hlp, Hlive, live_used by done. done.
  - lia.
  - lia.
  - intros j e' Hj Hlt. destruct (Z.eq_dec j i) as [->|Hne]; [rewrite (Hi1 e' Hj); unfold deleted_entry_; lia|].
    rewrite Hj1 in Hj by done. apply (Hpre j); [done|lia].
  - exists w', hd'. split; [done|]. split; [done|]. cbn in *. split; [|split; [|split; [done|split; [done|]]]].
    + intros e'. rewrite Hh', Hh1'. split; [intros [[? ?] ?]; by split|]. intros [He' Hne]. split; [split; [done|]|done].
      intros Heq. apply Hne. destruct He' as [[j Hj]%elem_get Hnz].
      assert (j = i) as -> by by apply (t_unique _ _ (ok_table _ Hok) j i e' e). congruence.
    + eapply only_live_ports_trans; [|exact Hol]. exists hd, hd1. do 4 (split; [done|]). rewrite Hcd. by destruct (state e).
    + intros f Hf Hfh. rewrite Hc', Hc1 by done. rewrite (Hfh e Heh). cbn. lia.
Qed.

Lemma ClosePorts_spec w hd : wf_world w -> handlers w !! h = Some hd ->
  exists w' hd', ClosePorts w h = Some w' /\ wf_world w' /\ handlers w' !! h = Some hd' /\ live_ports_ hd' = 0 /\ handler_rep hd' [] [] /\ stripped hd' = stripped hd /\
    (forall q, 0 <= q -> lookup_port (ports w') q =
       match lookup_port (ports w) q with Some (h', s) => if h' =? h then None else Some (h', s) | None => None end) /\
    forall h', h' <> h -> handlers w' !! h' = handlers w !! h'.
Proof using Hh0 Hh1.
  intros [Hpm Hhs Hl Hq] Hhd. unfold ClosePorts.
  destruct (Hl h hd Hhd) as (_ & _ & Hlive).
  destruct (ClosePorts_loop_spec (Z.to_nat (pm_capacity (ports w))) w 0 hd (wf_table_ok _ Hpm) Hhd Hlive) as
    (w1 & hd1 & -> & Hok1 & Hh1' & (hd0 & hd0' & Hhd0 & Heq & Hq1 & Hq2 & Hst) & Hhd1 & Hlive1 & Hc1); [lia| | |].
  { destruct (pm_size _ Hpm). lia. }
  { intros j e Hj Hlt. apply arr_get_Some in Hj. lia. }
  assert (hd0 = hd) as -> by congruence. rewrite Heq, lookup_insert_eq in Hhd1. injection Hhd1 as ->.
  cbn [mbind option_bind]. destruct (table_ok_maintain _ Hok1) as (pm2 & -> & Hwf2 & Hh2 & Hc2). cbn [mbind option_bind set_ports handlers].
  rewrite Heq, lookup_insert_eq. cbn [mbind option_bind].
  assert (Hq1' : queues_ok hd1) by by apply (queues_ok_eq hd), (Hq h).
  destruct (CloseAllPorts_spec hd1 Hq1') as (hd2 & -> & Hlp2 & Hr2 & Hst2). cbn [mbind option_bind post_redirected].
  assert (Hholds : forall e, holds (pm_map pm2) e <-> holds (pm_map (ports w)) e /\ handler e <> h) by (intros e; by rewrite Hh2, Hh1').
  assert (Hzero : cnt (live_of h) (pm_map pm2) = 0).
  { apply cnt_0. intros e He. destruct (Z.eq_dec (port e) 0) as [H0|H0]; [by apply only_used_live|].
    apply live_other. by apply (Hholds e). }
  eexists _, hd2. split; [reflexivity|]. cbn. rewrite insert_insert_eq, lookup_insert_eq.
  rewrite Hlp2, Hlive1, <- Hc2, Hzero by done. split; [|split; [done|split; [done|split; [done|split; [congruence|split]]]]].
  - split; cbn; [done| | |].
    + intros e [He Hne]%Hholds. rewrite lookup_insert_ne by done. by apply Hhs.
    + intros h' hd'. destruct (decide (h = h')) as [<-|Hne].
      * rewrite lookup_insert_eq. intros [= <-]. split; [done|]. split; [done|]. by rewrite Hlp2, Hlive1, <- Hc2.
      * rewrite lookup_insert_ne by done. intros Hhd'. destruct (Hl h' hd' Hhd') as (? & ? & ->). split; [done|]. split; [done|].
        rewrite Hc2, Hc1; [done|done| |done]. intros e <-. by apply live_other.
    + intros h' hd'. destruct (decide (h = h')) as [<-|Hne]; [|rewrite lookup_insert_ne by done; apply Hq].
      rewrite lookup_insert_eq. intros [= <-]. exists [], []. split; [done|]. by split; intros x ?%not_elem_of_nil.
  - intros q Hq0. destruct (lookup_port (ports w) q) as [[h' s]|] eqn:E.
    + apply lookup_port_spec in E; [|done..]. destruct (Z.eqb_spec h' h) as [->|Hne].
      * apply lookup_port_None; [done..|]. intros e [[Hin Hnz] Hne]%Hholds Hpe. apply Hne.
        assert (He : holds (pm_map (ports w)) e) by done. destruct e as [pe he se]. cbn in *. subst pe.
        assert (H1 : lookup_port (ports w) q = Some (he, se)) by by apply lookup_port_spec.
        assert (H2 : lookup_port (ports w) q = Some (h, s)) by by apply lookup_port_spec. congruence.
      * apply lookup_port_spec; [done..|]. apply Hholds. by split.
    + apply lookup_port_None; [done..|]. intros e [He _]%Hholds. by apply (proj1 (lookup_port_None (ports w) q Hpm Hq0) E).
  - intros h' Hne. cbn. by rewrite lookup_insert_ne.
Qed.
End ClosePorts.

(** ** The generator *)
(** Multiply with carry: no bit is lost, and a step divides by 2^32 modulo A 2^32 - 1. *)
Lemma NextState_mwc s : is_uint 64 s ->
  is_uint 64 (NextState s) /\ (NextState s * 2 ^ 32) mod (0xffffda61 * 2 ^ 32 - 1) = s mod (0xffffda61 * 2 ^ 32 - 1) /\
  (s <> 0 -> NextState s <> 0).
Proof.
  unfold is_uint. intros Hs. unfold NextState. change 0xffffffff with (Z.ones 32). rewrite !Z.land_ones, Z.shiftr_div_pow2 by lia.
  pose proof (Z.mod_pos_bound s (2 ^ 32) ltac:(lia)). pose proof (Z.div_mod s (2 ^ 32) ltac:(lia)) as Hdm.
  assert (0 <= s / 2 ^ 32 < 2 ^ 32) by (split; [apply Z.div_pos; lia|apply Z.div_lt_upper_bound; lia]).
  rewrite (Z.mod_small (s / 2 ^ 32)) by lia. set (lo := s mod 2 ^ 32) in *. set (hi := s / 2 ^ 32) in *.
  rewrite uwrap_id by (unfold is_uint; lia). split; [lia|]. split; [|lia].
  replace ((0xffffda61 * lo + hi) * 2 ^ 32) with (s + lo * (0xffffda61 * 2 ^ 32 - 1)) by lia. apply Z_mod_plus_full.
Qed.

(** ** The theorems *)
(** C26: the port map refines a finite map from non-negative ports to handlers,
    and changes no more of the handlers than it says: as long as
    the generator draws an unused number, [CreatePort] returns a fresh positive
    port, adds exactly it and changes no handler; [SetPortState] changes the state of a new port, and of the
    handlers only the count of live ports of its own, up by one if the port becomes live; [ClosePort]
    removes one port and tells whether there was one, and changes only the port's handler:
    it counts a live port down, keeps the queues, and only a handler that is owned by the map and has
    no live port left is deleted or, while its task runs, marked for deletion; [ClosePorts] removes exactly the ports
    of a handler, drops its messages and changes nothing else of it or of another handler; searches end
    and the table stays well formed. Assumed: ports are not negative ([FindPort] is undefined on others), no queued
    message has a delivery failure port ([wf_world]), and for [ClosePort] that the closed port of a handler owned by the map is
    its only one, as for the ports of the native API, so that no port of a deleted handler stays in the table. *)
Theorem PortMap_refines OwnedByPortMap w : wf_world w ->
  (forall fuel h hd, handlers w !! h = Some hd -> (exists n, (n < fuel)%nat /\ usable (ports w) (draw n (prng_ w))) ->
     exists p w', CreatePort fuel w h = Some (p, w') /\ wf_world w' /\ handlers w' = handlers w /\
       lookup_port (ports w) p = None /\ 0 < p <= kMASK /\
       forall q, 0 <= q -> lookup_port (ports w') q = if q =? p then Some (h, kNewPort) else lookup_port (ports w) q) /\
  (forall p s h, 0 <= p -> lookup_port (ports w) p = Some (h, kNewPort) ->
     exists w', SetPortState w p s = Some w' /\ wf_world w' /\
       (forall q, 0 <= q -> lookup_port (ports w') q = if q =? p then Some (h, s) else lookup_port (ports w) q) /\
       forall h', handlers w' !! h' = if h' =? h then count_up s <$> handlers w !! h' else handlers w !! h') /\
  (forall p, 0 <= p ->
     match lookup_port (ports w) p with
     | None => ClosePort OwnedByPortMap w p = Some (false, w)
     | Some (h, s) =>
         (OwnedByPortMap h = true -> forall q s, 0 <= q -> lookup_port (ports w) q = Some (h, s) -> q = p) ->
         exists w', ClosePort OwnedByPortMap w p = Some (true, w') /\ wf_world w' /\
           (forall q, 0 <= q -> lookup_port (ports w') q = if q =? p then None else lookup_port (ports w) q) /\
           forall h', handlers w' !! h' =
             if h' =? h then hd ← handlers w !! h'; after_last_port (OwnedByPortMap h) (count_down s hd) else handlers w !! h'
     end) /\
  (forall h hd, handlers w !! h = Some hd ->
     exists w' hd', ClosePorts w h = Some w' /\ wf_world w' /\ handlers w' !! h = Some hd' /\
       HasLivePorts hd' = false /\ handler_rep hd' [] [] /\ stripped hd' = stripped hd /\
       (forall q, 0 <= q -> lookup_port (ports w') q =
          match lookup_port (ports w) q with Some (h', s) => if h' =? h then None else Some (h', s) | None => None end) /\
       forall h', h' <> h -> handlers w' !! h' = handlers w !! h').
Proof.
  intros Hw. pose proof (world_pm _ Hw) as Hpm. split; [|split; [|split]].
  - intros fuel h hd Hhd Hu. destruct (proj2 (AllocatePort_spec fuel _ Hpm (prng_ w)) Hu) as (p & prng' & Ha).
    destruct (CreatePort_spec fuel w h hd p prng' Hw Hhd Ha) as (w' & ?). by exists p, w'.
  - intros p s h. by apply SetPortState_spec.
  - intros p Hp. apply (ClosePort_spec OwnedByPortMap w p Hw Hp).
  - intros h hd Hhd. destruct (world_live _ Hw h hd Hhd) as (Hh0 & Hh1 & _).
    destruct (ClosePorts_spec h Hh0 Hh1 w hd Hw Hhd) as (w' & hd' & ? & ? & ? & Hlp & ? & ? & ? & ?). exists w', hd'.
    unfold HasLivePorts. by rewrite Hlp.
Qed.

(** posting: a message to a port that is not open is refused and changes
    nothing; one to an open port is accepted and is put in the queue of its
    priority of the port's handler (behind the messages there, or before the events),
    and no other handler and no port changes. *)
Theorem PostMessage_delivers w x m before_events :
  wf_world w -> 0 <= dest_port_ m -> msg_next m = 0 -> x <> 0 -> delivery_failure_port_ m = kIllegalPort ->
  match lookup_port (ports w) (dest_port_ m) with
  | None => PostMessage w x m before_events = Some (false, w)
  | Some (h, _) => forall o n, handler_at w h o n -> x ∉ o.*1 -> x ∉ n.*1 -> undirected o -> undirected n ->
      exists w', PostMessage w x m before_events = Some (true, w') /\ wf_world w' /\ ports w' = ports w /\
        (forall h', h' <> h -> handlers w' !! h' = handlers w !! h') /\
        if IsOOB m then handler_at w' h (enqueue_spec (x, message_body m) before_events o) n
        else handler_at w' h o (enqueue_spec (x, message_body m) before_events n)
  end.
Proof. apply PostMessage_spec. Qed.

(** *** Reachable worlds *)
Section Reachable.
Context (OwnedByPortMap : Z -> bool).
Inductive world_step : World -> World -> Prop :=
| step_create w fuel h hd p w' : handlers w !! h = Some hd -> CreatePort fuel w h = Some (p, w') -> world_step w w'
| step_state w p s h w' : 0 <= p -> lookup_port (ports w) p = Some (h, kNewPort) -> SetPortState w p s = Some w' -> world_step w w'
| step_close w p b w' : 0 <= p ->
    (forall h s, lookup_port (ports w) p = Some (h, s) -> OwnedByPortMap h = true ->
       forall q s, 0 <= q -> lookup_port (ports w) q = Some (h, s) -> q = p) ->
    ClosePort OwnedByPortMap w p = Some (b, w') -> world_step w w'
| step_close_all w h hd w' : handlers w !! h = Some hd -> ClosePorts w h = Some w' -> world_step w w'
| step_post w x m before_events b w' : 0 <= dest_port_ m -> msg_next m = 0 -> x <> 0 -> delivery_failure_port_ m = kIllegalPort ->
    (forall h hd, handlers w !! h = Some hd -> store (queue_ hd) !! x = None /\ store (oob_queue_ hd) !! x = None) ->
    PostMessage w x m before_events = Some (b, w') -> world_step w w'
| step_new_handler w h : handlers w !! h = None -> h <> 0 -> h <> 1 ->
    world_step w (set_handlers w (<[h := MessageHandler_new]> (handlers w))).

Lemma queues_ok_new : queues_ok MessageHandler_new.
Proof using. exists [], []. split; [split; apply queue_rep_new|]. by split; intros x ?%not_elem_of_nil. Qed.
Lemma Init_wf seed : wf_world (Init ∅ seed).
Proof using.
  assert (Hn : forall e, ~ holds (replicate (Z.to_nat kInitialCapacity) zero_entry) e) by by intros e [[-> _]%elem_of_replicate Hne].
  split; cbn.
  - split; cbn; [by apply wf_zero|done| |done]. split; [unfold kInitialCapacity; lia|by exists 2].
  - by intros e ?%Hn.
  - intros h hd. by rewrite lookup_empty.
  - intros h hd. by rewrite lookup_empty.
Qed.
Lemma world_step_wf w w' : wf_world w -> world_step w w' -> wf_world w'.
Proof using.
  intros Hw Hs. pose proof Hw as [Hpm Hh Hl Hq]. destruct Hs as [w fuel h hd p w' Hhd Hc|w p s h w' Hp Hlk Hc|w p b w' Hp Hown Hc|w h hd w' Hhd Hc|w x m be b w' Hd Hn Hx Hf Hfresh Hc|w h Hnone Hh0 Hh1].
  - unfold CreatePort in Hc. destruct (AllocatePort fuel (ports w) (prng_ w)) as [[p' prng']|] eqn:Ha; [|done].
    destruct (CreatePort_spec fuel w h hd p' prng' Hw Hhd Ha) as (w1 & Hc1 & Hw1 & _). unfold CreatePort in Hc1. rewrite Ha in Hc1. congruence.
  - destruct (SetPortState_spec w p s h Hw Hp Hlk) as (w1 & Hc1 & Hw1 & _). congruence.
  - pose proof (ClosePort_spec OwnedByPortMap w p Hw Hp) as Hcs. destruct (lookup_port (ports w) p) as [[h s]|].
    + destruct (Hcs (Hown h s eq_refl)) as (w1 & Hc1 & Hw1 & _). congruence.
    + congruence.
  - destruct (Hl h hd Hhd) as (Hh0 & Hh1 & _). destruct (ClosePorts_spec h Hh0 Hh1 w hd Hw Hhd) as (w1 & hd1 & Hc1 & Hw1 & _). congruence.
  - pose proof (PostMessage_spec w x m be Hw Hd Hn Hx Hf) as Hps. destruct (lookup_port (ports w) (dest_port_ m)) as [[h s]|] eqn:E; [|congruence].
    apply lookup_port_spec in E; [|done..]. destruct (Hh _ E) as [hd Hhd]. cbn in Hhd. destruct (Hq h hd Hhd) as (o & n & Hr & Ho & Hn').
    destruct (Hfresh h hd Hhd) as [Hf1 Hf2].
    destruct (Hps o n) as (w1 & Hc1 & Hw1 & _); [by exists hd| | |done|done|congruence].
    + intros Hin. apply (rep_dom _ _ (rep_oob _ _ _ Hr)) in Hin. rewrite Hf2 in Hin. by destruct Hin.
    + intros Hin. apply (rep_dom _ _ (rep_normal _ _ _ Hr)) in Hin. rewrite Hf1 in Hin. by destruct Hin.
  - assert (Hnot : forall e, holds (pm_map (ports w)) e -> handler e <> h).
    { intros e He <-. destruct (Hh e He) as [hd Hhd]. congruence. }
    split; cbn; [done| | |].
    + intros e He. rewrite lookup_insert_ne by (intros Heq; by apply (Hnot e)). by apply Hh.
    + intros h' hd'. destruct (decide (h = h')) as [<-|Hne]; [|rewrite lookup_insert_ne by done; apply Hl].
      rewrite lookup_insert_eq. intros [= <-]. split; [done|]. split; [done|]. cbn. symmetry. apply cnt_0. intros e He.
      destruct (Z.eq_dec (port e) 0) as [H0|H0]; [by apply only_used_live|]. apply live_other. by apply Hnot.
    + intros h' hd'. destruct (decide (h = h')) as [<-|Hne]; [|rewrite lookup_insert_ne by done; apply Hq].
      rewrite lookup_insert_eq. intros [= <-]. apply queues_ok_new.
Qed.

(** C27: the invariant of ports and handlers: after [Init] and any sequence of
    port creations, state changes, closings and posts, the count of live ports
    of every handler is the number of its live ports in the map, every port's
    handler exists, at most three quarters of the table are used and there are no more deleted slots
    than empty ones, so that the search for any port ends.  The steps ([world_step]) close and post to
    ports that are not negative, post messages without a delivery failure port under addresses that are not
    in use, and close a port of a handler owned by the map only if it is the handler's only port; the code does not
    check these. *)
Theorem PortMap_invariant seed w : rtc world_step (Init ∅ seed) w ->
  (forall h hd, handlers w !! h = Some hd -> live_ports_ hd = cnt (live_of h) (pm_map (ports w))) /\
  (forall e, holds (pm_map (ports w)) e -> is_Some (handlers w !! handler e)) /\
  pm_used (ports w) = cnt is_used (pm_map (ports w)) /\ pm_used (ports w) <= pm_capacity (ports w) / 4 * 3 /\
  pm_deleted (ports w) <= pm_capacity (ports w) - pm_used (ports w) - pm_deleted (ports w) /\
  forall p, 0 <= p -> is_Some (FindPort (ports w) p).
Proof using.
  intros Hs. assert (Hw : wf_world w).
  { remember (Init ∅ seed) as w0 eqn:E. assert (H0 : wf_world w0) by (subst w0; apply Init_wf). clear E.
    induction Hs as [|w1 w2 w3 H12 _ IH]; [done|]. apply IH. by apply (world_step_wf w1). }
  destruct Hw as [Hpm Hh Hl Hq]. split; [intros h hd Hhd; by apply (Hl h hd)|]. split; [done|].
  destruct (pm_counts _ Hpm) as [Hu _]. destruct (pm_load _ Hpm). do 3 (split; [done|]).
  intros p Hp. destruct (FindPort_lookup (ports w) p Hpm Hp) as (i & -> & _). by eexists.
Qed.
End Reachable.

(** ** Witnesses *)
Definition demo_world : World := set_handlers (Init ∅ 1) {[ 16 := MessageHandler_new ]}.
Lemma demo_step : world_step (fun _ => false) (Init ∅ 1) demo_world.
Proof. by apply (step_new_handler _ (Init ∅ 1) 16). Qed.
Lemma demo_wf : wf_world demo_world.
Proof. apply (world_step_wf (fun _ => false) (Init ∅ 1)); [apply Init_wf|apply demo_step]. Qed.
Lemma demo_draw : usable (ports demo_world) (draw 0 (prng_ demo_world)).
Proof. split; [by vm_compute|]. by vm_compute. Qed.
Lemma demo_port : exists p w, CreatePort 1 demo_world 16 = Some (p, w) /\ wf_world w /\ 0 < p /\ lookup_port (ports w) p = Some (16, kNewPort) /\
  handlers w = handlers demo_world.
Proof.
  destruct (proj2 (AllocatePort_spec 1 _ (world_pm _ demo_wf) (prng_ demo_world))) as (p & prng' & Ha); [exists O; split; [lia|apply demo_draw]|].
  destruct (CreatePort_spec 1 demo_world 16 MessageHandler_new p prng' demo_wf eq_refl Ha) as (w & Hc & Hw & Hhs & _ & Hp & Hlk).
  exists p, w. split; [done|]. split; [done|]. split; [lia|]. split; [rewrite Hlk by lia; by rewrite Z.eqb_refl|done].
Qed.

Lemma PortMap_refines_witness : exists p w', CreatePort 1 demo_world 16 = Some (p, w') /\ wf_world w' /\ handlers w' = handlers demo_world /\
  lookup_port (ports demo_world) p = None /\ 0 < p <= kMASK /\
  forall q, 0 <= q -> lookup_port (ports w') q = if q =? p then Some (16, kNewPort) else lookup_port (ports demo_world) q.
Proof.
  apply (proj1 (PortMap_refines (fun _ => false) demo_world demo_wf) 1%nat 16 MessageHandler_new); [done|].
  exists O. split; [lia|apply demo_draw].
Defined.
Lemma PostMessage_delivers_witness : exists p w w', lookup_port (ports w) p = Some (16, kNewPort) /\
  PostMessage w 32 (MkMessage 0 p 0 0 0 kNormalPriority) false = Some (true, w') /\
  handler_at w' 16 [] [(32, MkMessage 0 p 0 0 0 kNormalPriority)].
Proof.
  destruct demo_port as (p & w & _ & Hw & Hp & Hlk & Hhs).
  pose proof (PostMessage_delivers w 32 (MkMessage 0 p 0 0 0 kNormalPriority) false Hw ltac:(cbn; lia) eq_refl ltac:(lia) eq_refl) as H.
  cbn [dest_port_] in H. rewrite Hlk in H. destruct (H [] []) as (w' & Hpost & _ & _ & _ & Hat).
  - exists MessageHandler_new. split; [by rewrite Hhs|split; apply queue_rep_new].
  - by intros ?%not_elem_of_nil.
  - by intros ?%not_elem_of_nil.
  - by intros x ?%not_elem_of_nil.
  - by intros x ?%not_elem_of_nil.
  - by exists p, w, w'.
Defined.
Lemma PortMap_invariant_witness : exists p w, rtc (world_step (fun _ => false)) (Init ∅ 1) w /\ lookup_port (ports w) p = Some (16, kNewPort) /\
  (forall h hd, handlers w !! h = Some hd -> live_ports_ hd = cnt (live_of h) (pm_map (ports w))) /\
  forall q, 0 <= q -> is_Some (FindPort (ports w) q).
Proof.
  destruct demo_port as (p & w & Hc & _ & _ & Hlk & _). exists p, w.
  assert (Hr : rtc (world_step (fun _ => false)) (Init ∅ 1) w).
  { eapply rtc_l; [apply demo_step|]. apply rtc_once. by apply (step_create _ demo_world 1 16 MessageHandler_new p). }
  split; [done|]. split; [done|]. destruct (PortMap_invariant (fun _ => false) 1 w Hr) as (? & _ & _ & _ & _ & ?). by split.
Defined.

(** ** Where the code does not do what it means to *)
(** [Cleanup] walks the slots by index, but [ClosePorts] may rehash the table
    under it: a handler whose port moves below the index is never closed nor
    deleted. Handler 16 has the ports 8, 16, 24 and 32, handler 32 the port 40. *)
Theorem Cleanup_skips_handler :
  exists pm w', (
    pm ← insert_port (ports (Init ∅ 1)) (MkPortEntry 8 16 kNewPort);
    pm ← insert_port pm (MkPortEntry 16 16 kNewPort);
    pm ← insert_port pm (MkPortEntry 24 16 kNewPort);
    pm ← insert_port pm (MkPortEntry 32 16 kNewPort);
    insert_port pm (MkPortEntry 40 32 kNewPort)) = Some pm /\
  Cleanup (MkWorld pm {[ 16 := MessageHandler_new; 32 := MessageHandler_new ]} 1) = Some w' /\
  handlers w' !! 16 = None /\ handlers w' !! 32 = Some MessageHandler_new /\ lookup_port (ports w') 40 = Some (32, kNewPort).
Proof. eexists _, _. split; [vm_compute; reflexivity|]. split; [vm_compute; reflexivity|]. by vm_compute. Qed.

(** The home slot of a negative port is a negative index: [FindPort], and so
    [PostMessage] for whatever port number the embedder passes, reads outside of the table. *)
Theorem FindPort_negative_out_of_bounds pm p : p < 0 -> 0 < pm_capacity pm -> Z.rem p (pm_capacity pm) <> 0 -> FindPort pm p = None.
Proof.
  intros Hp Hc Hr. unfold FindPort, kIllegalPort. destruct (Z.eqb_spec p 0); [lia|]. cbn [FindPort_loop].
  assert (Z.rem p (pm_capacity pm) < 0) by (pose proof (Z.rem_nonpos p (pm_capacity pm) ltac:(lia) ltac:(lia)); lia).
  replace (arr_get (pm_map pm) (Z.rem p (pm_capacity pm))) with (@None PortEntry); [done|]. symmetry. apply arr_get_None. by left.
Qed.

(** Closing a port of a handler that stays does not drop the messages that
    are pending. *)
Theorem ClosePort_keeps_messages OwnedByPortMap w p h s o n :
  wf_world w -> 0 <= p -> lookup_port (ports w) p = Some (h, s) -> OwnedByPortMap h = false -> handler_at w h o n ->
  exists w', ClosePort OwnedByPortMap w p = Some (true, w') /\ lookup_port (ports w') p = None /\ handler_at w' h o n.
Proof.
  intros Hw Hp Hlk Ho Hat. pose proof (ClosePort_spec OwnedByPortMap w p Hw Hp) as Hc. rewrite Hlk in Hc.
  destruct Hc as (w' & Hc & _ & Hl & Hk); [congruence|]. exists w'. split; [done|]. split; [rewrite Hl by done; by rewrite Z.eqb_refl|].
  destruct Hat as (hd & Hhd & Hr). exists (count_down s hd). split; [|apply (handler_rep_eq hd); by destruct s]. rewrite Hk, Z.eqb_refl, Hhd. unfold after_last_port. cbn. by rewrite Ho, andb_false_r.
Qed.
