(* ===== verification/Uri.v ===== *)
(** * URIs (src/runtime/vm/uri.{h,cc})

    A C string is the list of its bytes without the terminating 0. [None] of a
    definition that may fail is undefined behaviour: [NormalizeEscapes] called
    with a negative length. The zone allocator is left out: the buffers are
    large enough by their sizes. *)
From Stdlib Require Import String Ascii.
From stdpp Require Import base list.
From S2P Require Import Prelude.
Local Open Scope Z_scope.
Local Open Scope vm_scope.

Abbreviation cstring := (list Z).
Definition str (s : String.string) : cstring := (fun c => Z.of_N (N_of_ascii c)) <$> list_ascii_of_string s.
Abbreviation slash := 47.
Abbreviation colon := 58.
Abbreviation question := 63.
Abbreviation hash := 35.
Abbreviation at_sign := 64.
Abbreviation percent := 37.
Abbreviation dot := 46.

(** ** Characters *)
Definition between (lo hi value : Z) : bool := (lo <=? value) && (value <=? hi).
Definition IsUnreservedChar (value : Z) : bool :=
  between 97 122 value || between 65 90 value || between 48 57 value ||
  (value =? 45) || (value =? dot) || (value =? 95) || (value =? 126).
Definition IsDelimiter (value : Z) : bool :=
  existsb (Z.eqb value) [colon; slash; question; hash; 91; 93; at_sign; 33; 36; 38; 39; 40; 41; 42; 43; 44; 59; 61].
Definition Uri_IsHexDigit (value : Z) : bool := between 48 57 value || between 65 70 value || between 97 102 value.
Definition HexValue (digit : Z) : Z :=
  if between 48 57 digit then digit - 48
  else if between 65 70 digit then digit - 65 + 10
  else if between 97 102 digit then digit - 97 + 10
  else 0.
(** [char] is signed on x64. *)
Definition char_value (c : Z) : Z := swrap 8 c.

(** The value of an escape sequence at the start of [s], or -1. *)
Definition GetEscapedValue (s : cstring) : Z :=
  match s with
  | c :: digit1 :: digit2 :: _ =>
      if negb (c =? percent) then -1
      else if negb (Uri_IsHexDigit digit1) || negb (Uri_IsHexDigit digit2) then -1
      else HexValue digit1 * 16 + HexValue digit2
  | _ => -1
  end.

(** [%02X]: the digits of an [unsigned int], at least two of them. *)
Definition hex_digit (d : Z) : Z := if d <? 10 then 48 + d else 55 + d.
Fixpoint hex_digits (n : nat) (v : Z) : cstring :=
  match n with
  | O => []
  | S n => (if v <? 16 then [] else hex_digits n (v >>> 4)) ++ [hex_digit (v &&& 15)]
  end.
Definition print_02X (value : Z) : cstring :=
  let v := u32 value in
  if v <? 16 then [48; hex_digit v] else hex_digits 8 v.
(** [SNPrint(buffer, 4, "%%%02X", value)]: three characters fit. *)
Definition print_escape (value : Z) : cstring := take 3 (percent :: print_02X value).

Fixpoint normalize (fuel : nat) (s : cstring) : cstring :=
  match fuel with
  | O => []
  | S fuel =>
      match s with
      | [] => []
      | c :: rest =>
          let escaped_value := GetEscapedValue s in
          if escaped_value >=? 0 then
            (if IsUnreservedChar escaped_value then [escaped_value] else print_escape escaped_value) ++
            normalize fuel (drop 3 s)
          else
            (if (c =? percent) || IsDelimiter (char_value c) || IsUnreservedChar (char_value c) then [c]
             else print_escape (char_value c)) ++
            normalize fuel rest
      end
  end.
Definition NormalizeEscapes (s : cstring) (len : Z) : option cstring :=
  if len <? 0 then None else Some (normalize (S (Z.to_nat len)) (take (Z.to_nat len) s)).

Fixpoint StringLower_loop (fuel : nat) (s : cstring) : cstring :=
  match fuel with
  | O => []
  | S fuel =>
      match s with
      | [] => []
      | c :: rest =>
          if GetEscapedValue s >=? 0 then take 3 s ++ StringLower_loop fuel (drop 3 s)
          else (if between 65 90 c then c + 32 else c) :: StringLower_loop fuel rest
      end
  end.
Definition StringLower (s : cstring) : cstring := StringLower_loop (S (length s)) s.

(** ** Parsing *)
Record ParsedUri := MkUri {
  scheme : option cstring; userinfo : option cstring; host : option cstring; uri_port : option cstring;
  path : cstring; query : option cstring; fragment : option cstring }.

(** The length of the longest prefix without a character of [reject]. *)
Fixpoint strcspn (s : cstring) (reject : list Z) : nat :=
  match s with
  | [] => O
  | c :: s => if existsb (Z.eqb c) reject then O else S (strcspn s reject)
  end.
Definition char_at (s : cstring) (n : nat) : Z := default 0 (s !! n).

(** The user information, the host, the port and the length. *)
Definition ParseAuthority (authority : cstring) : option (option cstring * cstring * option cstring * nat) :=
  let userinfo_len := strcspn authority [at_sign; slash] in
  let has_userinfo := char_at authority userinfo_len =? at_sign in
  userinfo ← (if has_userinfo then u ← NormalizeEscapes authority (Z.of_nat userinfo_len); Some (Some u) else Some None);
  let skipped := if has_userinfo then S userinfo_len else O in
  let current := drop skipped authority in
  let host_len := strcspn current [colon; slash] in
  host ← NormalizeEscapes current (Z.of_nat host_len);
  let host := StringLower host in
  if char_at current host_len =? colon then
    let port_start := drop (S host_len) current in
    let port_len := strcspn port_start [slash] in
    Some (userinfo, host, Some (take port_len port_start), (skipped + host_len + (1 + port_len))%nat)
  else Some (userinfo, host, None, (skipped + host_len)%nat).

Definition ParseUri (uri : cstring) : option ParsedUri :=
  let scheme_len := strcspn uri [colon; slash] in
  let has_scheme := char_at uri scheme_len =? colon in
  let scheme := if has_scheme then Some (StringLower (take scheme_len uri)) else None in
  let rest := if has_scheme then drop (S scheme_len) uri else uri in
  let hash_pos := strcspn rest [hash] in
  fragment ← (if char_at rest hash_pos =? hash
              then f ← NormalizeEscapes (drop (S hash_pos) rest) (zlen (drop (S hash_pos) rest)); Some (Some f)
              else Some None);
  let question_pos := strcspn rest [question; hash] in
  query ← (if char_at rest question_pos =? question
           then q ← NormalizeEscapes (drop (S question_pos) rest) (Z.of_nat hash_pos - Z.of_nat (S question_pos)); Some (Some q)
           else Some None);
  '(userinfo, host, port, path_start) ←
    (if (char_at rest 0 =? slash) && (char_at rest 1 =? slash) then
       '(userinfo, host, port, authority_len) ← ParseAuthority (drop 2 rest);
       Some (userinfo, Some host, port, (2 + authority_len)%nat)
     else Some (None, None, None, O));
  path ← NormalizeEscapes (drop path_start rest) (Z.of_nat question_pos - Z.of_nat path_start);
  Some (MkUri scheme userinfo host port path query fragment).

(** ** Resolving *)
(** The output without its last segment: up to its last slash. *)
Fixpoint RemoveLastSegment_rev (rev_output : cstring) : cstring :=
  match rev_output with
  | [] => []
  | c :: rev_output => if c =? slash then rev_output else RemoveLastSegment_rev rev_output
  end.
Definition RemoveLastSegment (output : cstring) : cstring := rev (RemoveLastSegment_rev (rev output)).
Definition SegmentLength (input : cstring) : nat :=
  if char_at input 0 =? slash then S (strcspn (drop 1 input) [slash]) else strcspn input [slash].

(** [strncmp(prefix, s, n) == 0], where the 0 behind [prefix] counts. *)
Definition strncmp_eq (prefix s : cstring) (n : nat) : bool := bool_decide (take n (prefix ++ [0]) = take n (s ++ [0])).
Definition strcmp_eq (a b : cstring) : bool := bool_decide (a = b).

Fixpoint RemoveDotSegments_loop (fuel : nat) (input output : cstring) : option cstring :=
  match fuel with
  | O => None
  | S fuel =>
      if bool_decide (input = []) then Some output
      else if strncmp_eq [dot; dot; slash] input 3 then RemoveDotSegments_loop fuel (drop 3 input) output
      else if strncmp_eq [dot; slash] input 3 then RemoveDotSegments_loop fuel (drop 2 input) output
      else if strncmp_eq [slash; dot; slash] input 3 then RemoveDotSegments_loop fuel (drop 2 input) output
      else if strcmp_eq [slash; dot] input then RemoveDotSegments_loop fuel [slash] output
      else if strncmp_eq [slash; dot; dot; slash] input 4 then RemoveDotSegments_loop fuel (drop 3 input) (RemoveLastSegment output)
      else if strcmp_eq [slash; dot; dot] input then RemoveDotSegments_loop fuel [slash] (RemoveLastSegment output)
      else if strcmp_eq [dot; dot] input then RemoveDotSegments_loop fuel (drop 2 input) output
      else if strcmp_eq [dot] input then RemoveDotSegments_loop fuel (drop 1 input) output
      else
        let segment_len := SegmentLength input in
        let output := if negb (char_at input 0 =? slash) && negb (bool_decide (output = [])) then output ++ [slash] else output in
        RemoveDotSegments_loop fuel (drop segment_len input) (output ++ take segment_len input)
  end.
Definition RemoveDotSegments (path : cstring) : option cstring := RemoveDotSegments_loop (S (length path)) path [].

(** Up to the last slash, which is left out; [None] if there is none. *)
Fixpoint before_last_slash (s : cstring) : option cstring :=
  match s with
  | [] => None
  | c :: s =>
      match before_last_slash s with
      | Some t => Some (c :: t)
      | None => if c =? slash then Some [] else None
      end
  end.
Definition MergePaths (base_path ref_path : cstring) : cstring :=
  if bool_decide (base_path = []) then slash :: ref_path
  else
    match before_last_slash base_path with
    | None => ref_path
    | Some truncated_base => truncated_base ++ [slash] ++ ref_path
    end.

Definition with_separator (separator : Z) (s : option cstring) : cstring := match s with Some s => separator :: s | None => [] end.
(** Without a scheme the authority is not printed; an assertion rules it out. *)
Definition BuildUri (uri : ParsedUri) : cstring :=
  let tail := with_separator question (query uri) ++ with_separator hash (fragment uri) in
  match scheme uri, host uri with
  | None, _ => path uri ++ tail
  | Some scheme, None => scheme ++ [colon] ++ path uri ++ tail
  | Some scheme, Some host =>
      let path_separator := if bool_decide (path uri = []) || (char_at (path uri) 0 =? slash) then [] else [slash] in
      scheme ++ [colon; slash; slash] ++ (match userinfo uri with Some u => u ++ [at_sign] | None => [] end) ++ host ++
      with_separator colon (uri_port uri) ++ path_separator ++ path uri ++ tail
  end.

Definition is_dart (scheme : option cstring) : bool := bool_decide (scheme = Some (str "dart")).
(** [Some None]: the uri cannot be resolved. *)
Definition ResolveUri (ref_uri base_uri : cstring) : option (option cstring) :=
  ref ← ParseUri ref_uri;
  let build scheme authority path query :=
    Some (Some (BuildUri (MkUri scheme (userinfo authority) (host authority) (uri_port authority) path query (fragment ref)))) in
  if bool_decide (scheme ref <> None) then
    if is_dart (scheme ref) then Some (Some ref_uri)
    else p ← RemoveDotSegments (path ref); build (scheme ref) ref p (query ref)
  else
    base ← ParseUri base_uri;
    if is_dart (scheme base) then Some (Some ref_uri)
    else if bool_decide (host ref <> None) then p ← RemoveDotSegments (path ref); build (scheme base) ref p (query ref)
    else if bool_decide (path ref = []) then
      build (scheme base) base (path base) (match query ref with None => query base | Some q => Some q end)
    else if char_at (path ref) 0 =? slash then p ← RemoveDotSegments (path ref); build (scheme base) base p (query ref)
    else if bool_decide (scheme base = None) && bool_decide (host base = None) && negb (char_at (path base) 0 =? slash) then Some None
    else p ← RemoveDotSegments (MergePaths (path base) (path ref)); build (scheme base) base p (query ref).

(** ** [strcspn] *)
Lemma strcspn_le s reject : (strcspn s reject <= length s)%nat.
Proof. induction s as [|c s IH]; cbn; [lia|]. destruct (existsb _ _); lia. Qed.
Definition avoids (reject : list Z) (s : cstring) : Prop := Forall (fun c => existsb (Z.eqb c) reject = false) s.
Lemma strcspn_stop a c s reject : avoids reject a -> existsb (Z.eqb c) reject = true -> strcspn (a ++ c :: s) reject = length a.
Proof. induction 1 as [|x a Hx _ IH]; cbn; intros Hc; [by rewrite Hc|]. rewrite Hx. f_equal. by apply IH. Qed.
Lemma strcspn_end a reject : avoids reject a -> strcspn a reject = length a.
Proof. induction 1 as [|x a Hx _ IH]; cbn; [done|]. rewrite Hx. by f_equal. Qed.
(** What [strcspn] cuts off. *)
Lemma strcspn_split s reject : exists a b, s = a ++ b /\ avoids reject a /\ strcspn s reject = length a /\
  (b = [] \/ exists c b', b = c :: b' /\ existsb (Z.eqb c) reject = true).
Proof.
  induction s as [|c s IH]; [exists [], []; repeat split; [constructor|by left]|]. cbn. destruct (existsb (Z.eqb c) reject) eqn:E.
  - exists [], (c :: s). repeat split; [constructor|right; by exists c, s].
  - destruct IH as (a & b & -> & Ha & Hl & Hb). exists (c :: a), b. repeat split; [by constructor|cbn; by rewrite Hl|done].
Qed.

(** ** Segments of absolute paths *)
Definition no_slash (s : cstring) : Prop := avoids [slash] s.
Definition flatten (segments : list cstring) : cstring := segments ≫= cons slash.
Definition is_dot (s : cstring) : bool := bool_decide (s = [dot]).
Definition is_dot_dot (s : cstring) : bool := bool_decide (s = [dot; dot]).
(** Dot segments resolved against the segments [stack] before them; a dot
    segment at the end leaves a directory. *)
Fixpoint resolve (stack segments : list cstring) : list cstring :=
  match segments with
  | [] => stack
  | [s] => if is_dot s then stack ++ [[]] else if is_dot_dot s then removelast stack ++ [[]] else stack ++ [s]
  | s :: rest =>
      if is_dot s then resolve stack rest else if is_dot_dot s then resolve (removelast stack) rest else resolve (stack ++ [s]) rest
  end.

Lemma avoids_slash s c : no_slash s -> c ∈ s -> c <> slash.
Proof. intros Hs Hc ->. unfold no_slash, avoids in Hs. rewrite list.Forall_forall in Hs. by specialize (Hs _ Hc). Qed.
Lemma flatten_app a b : flatten (a ++ b) = flatten a ++ flatten b.
Proof. apply bind_app. Qed.
Lemma split_absolute s : exists segments, segments <> [] /\ Forall no_slash segments /\ slash :: s = flatten segments.
Proof.
  induction s as [|c s IH]; [exists [[]]; repeat split; [done|repeat constructor]|].
  destruct IH as (segs & Hne & Hf & Heq). destruct (Z.eq_dec c slash) as [->|Hc].
  - exists ([] :: segs). split; [done|]. split; [constructor; [constructor|done]|]. cbn. by rewrite Heq.
  - destruct segs as [|s0 segs]; [done|]. inversion Hf as [|? ? H0 Hf']; subst. cbn in Heq. injection Heq as Heq.
    exists ((c :: s0) :: segs). split; [done|]. split.
    + constructor; [|done]. constructor; [|done]. cbn. rewrite orb_false_r. by apply Z.eqb_neq.
    + cbn. by rewrite Heq.
Qed.
Lemma RemoveLastSegment_rev_app a b : no_slash a -> RemoveLastSegment_rev (rev a ++ slash :: b) = b.
Proof.
  intros Ha. assert (Hr : forall c, c ∈ rev a -> c <> slash) by (intros c Hc; apply (avoids_slash a); [done|by apply list_elem_of_In, in_rev, list_elem_of_In]).
  induction (rev a) as [|c r IH]; cbn; [done|]. destruct (Z.eqb_spec c slash) as [->|]; [exfalso; by apply (Hr slash); [left|]|].
  apply IH. intros c' Hc'. apply Hr. by right.
Qed.
Lemma RemoveLastSegment_flatten stack : Forall no_slash stack -> RemoveLastSegment (flatten stack) = flatten (removelast stack).
Proof.
  intros Hf. destruct stack as [|s stack _] using rev_ind; [done|]. rewrite removelast_last, flatten_app.
  apply Forall_app in Hf as [_ Hs]. inversion Hs as [|? ? H0 _]; subst. cbn. rewrite app_nil_r. unfold RemoveLastSegment.
  rewrite rev_app_distr. cbn. rewrite <- app_assoc. cbn. rewrite RemoveLastSegment_rev_app by done. apply rev_involutive.
Qed.
Lemma removelast_Forall {A} (P : A -> Prop) l : Forall P l -> Forall P (removelast l).
Proof. destruct l as [|x l _] using rev_ind; [done|]. rewrite removelast_last. by intros [? _]%Forall_app. Qed.

(** How the branches see the first segment of an absolute path. *)
Lemma segment_length s rest : no_slash s -> SegmentLength (flatten (s :: rest)) = S (length s).
Proof.
  intros Hs. unfold SegmentLength. cbn. f_equal. destruct rest as [|r rest]; cbn; [rewrite app_nil_r; by apply strcspn_end|].
  by apply strcspn_stop.
Qed.
Lemma not_prefix p s n : char_at s 0 = slash -> (0 < n)%nat -> char_at p 0 <> slash -> p <> [] -> strncmp_eq p s n = false.
Proof.
  intros Hs Hn Hp Hne. apply bool_decide_eq_false_2. destruct p as [|c p]; [done|]. destruct s as [|d s]; [done|]. destruct n as [|n]; [lia|].
  cbn in *. congruence.
Qed.
Lemma not_equal p s : char_at s 0 = slash -> char_at p 0 <> slash -> strcmp_eq p s = false.
Proof. intros Hs Hp. apply bool_decide_eq_false_2. by intros ->. Qed.
Lemma dot_prefix s rest d : no_slash s -> no_slash d ->
  strncmp_eq (slash :: d ++ [slash]) (flatten (s :: rest)) (S (S (length d))) = bool_decide (s = d /\ rest <> []).
Proof.
  intros Hs Hd. unfold strncmp_eq. apply bool_decide_ext. cbn [flatten mbind list_bind app take]. 
  assert (Htake : take (S (length d)) ((d ++ [slash]) ++ [0]) = d ++ [slash]).
  { rewrite take_app_le by (rewrite length_app; cbn; lia). apply take_ge. rewrite length_app. cbn. lia. }
  rewrite Htake. clear Htake. split.
  - intros [= Heq]. destruct rest as [|r rest].
    + exfalso. cbn in Heq. rewrite app_nil_r in Heq.
      assert (Hin : slash ∈ s ++ [0]).
      { assert (Hin : slash ∈ d ++ [slash]) by (apply elem_of_app; right; by left). rewrite Heq in Hin. by eapply elem_of_take in Hin as (i & Hi & _); eapply list_elem_of_lookup_2. }
      apply elem_of_app in Hin as [Hin|Hin]; [by apply (avoids_slash s slash Hs Hin)|]. apply list_elem_of_singleton in Hin. lia.
    + split; [|done]. cbn in Heq. revert s Hs Heq. clear -Hd. induction Hd as [|c d Hc Hd IH]; intros s Hs Heq.
      * destruct s as [|x s]; [done|]. cbn in Heq. injection Heq as <-. exfalso. by apply (avoids_slash (slash :: s) slash Hs); [left|].
      * destruct s as [|x s]; cbn in Heq; [injection Heq as -> _; done|]. injection Heq as <- Heq. f_equal. apply IH; [by inversion Hs|].
        cbn. exact Heq.
  - intros [-> Hne]. f_equal. destruct rest as [|r rest]; [done|]. cbn. rewrite <- app_assoc. cbn.
    change (slash :: r ++ flatten rest) with ([slash] ++ (r ++ flatten rest)). symmetry.
    assert (Hl : S (length d) = length (d ++ [slash])) by (rewrite length_app; cbn; lia). rewrite Hl.
    change (slash :: ((r ++ rest ≫= cons slash) ++ [0])) with ([slash] ++ ((r ++ rest ≫= cons slash) ++ [0])).
    rewrite app_assoc. by rewrite take_app_length.
Qed.

(** One round of the loop on an absolute path. *)
Lemma flatten_cons s rest : flatten (s :: rest) = slash :: s ++ flatten rest.
Proof. done. Qed.
Lemma strcmp_flatten d s rest : no_slash s -> no_slash d -> strcmp_eq (slash :: d) (flatten (s :: rest)) = bool_decide (s = d /\ rest = []).
Proof.
  intros Hs Hd. unfold strcmp_eq. apply bool_decide_ext. rewrite flatten_cons. split.
  - intros [= Heq]. destruct rest as [|r rest]; [rewrite app_nil_r in Heq; done|]. exfalso.
    apply (avoids_slash d slash Hd); [|done]. rewrite Heq. apply elem_of_app. right. by left.
  - intros [-> ->]. by rewrite app_nil_r.
Qed.
Lemma no_slash_dot : no_slash [dot].
Proof. repeat constructor. Qed.
Lemma no_slash_dot_dot : no_slash [dot; dot].
Proof. repeat constructor. Qed.

Lemma RemoveDotSegments_loop_spec segments : forall fuel stack, segments <> [] -> Forall no_slash segments -> Forall no_slash stack ->
  (length (flatten segments) < fuel)%nat ->
  RemoveDotSegments_loop fuel (flatten segments) (flatten stack) = Some (flatten (resolve stack segments)).
Proof.
  induction segments as [|s rest IH]; intros fuel stack Hne Hseg Hst Hf; [done|]. clear Hne.
  inversion Hseg as [|? ? Hs Hrest]; subst. destruct fuel as [|fuel]; [lia|]. cbn [RemoveDotSegments_loop].
  rewrite bool_decide_false by done.
  rewrite !not_prefix by (done || lia). rewrite (not_equal [dot; dot]), (not_equal [dot]) by done.
  pose proof (dot_prefix s rest [dot] Hs no_slash_dot) as Hd1. pose proof (dot_prefix s rest [dot; dot] Hs no_slash_dot_dot) as Hd2.
  cbn [app length] in Hd1, Hd2. rewrite Hd1, Hd2. clear Hd1 Hd2.
  rewrite (strcmp_flatten [dot]) by (done || apply no_slash_dot). rewrite (strcmp_flatten [dot; dot]) by (done || apply no_slash_dot_dot).
  assert (Hlen : (length (flatten rest) < fuel)%nat) by (rewrite flatten_cons in Hf; cbn in Hf; rewrite length_app in Hf; lia).
  assert (Hslash : forall st, Forall no_slash st -> (2 < S fuel)%nat -> RemoveDotSegments_loop fuel [slash] (flatten st) = Some (flatten (st ++ [[]]))).
  { intros st Hst' Hf2. destruct fuel as [|fuel]; [lia|]. destruct fuel as [|fuel]; [lia|]. cbn -[flatten]. by rewrite flatten_app. }
  destruct (decide (s = [dot])) as [->|Hnd].
  { destruct rest as [|r rest].
    - rewrite bool_decide_false by (intros [? ?]; done). rewrite bool_decide_true by done. cbn in Hf. rewrite Hslash by (done || lia). done.
    - rewrite bool_decide_true by done. change (drop 2 (flatten ([dot] :: r :: rest))) with (flatten (r :: rest)). rewrite IH by done. done. }
  rewrite !(bool_decide_false (s = [dot] /\ _)) by (intros [? ?]; done).
  destruct (decide (s = [dot; dot])) as [->|Hndd].
  { destruct rest as [|r rest].
    - rewrite bool_decide_false by (intros [? ?]; done). rewrite bool_decide_true by done. cbn in Hf.
      rewrite RemoveLastSegment_flatten by done. rewrite Hslash; [done|by apply removelast_Forall|lia].
    - rewrite bool_decide_true by done. change (drop 3 (flatten ([dot; dot] :: r :: rest))) with (flatten (r :: rest)).
      rewrite RemoveLastSegment_flatten by done. rewrite IH; [done|done|done|by apply removelast_Forall|done]. }
  rewrite !(bool_decide_false (s = [dot; dot] /\ _)) by (intros [? ?]; done).
  rewrite segment_length by done. cbn [char_at lookup].
  change (char_at (flatten (s :: rest)) 0 =? slash) with true. cbn [negb andb].
  rewrite flatten_cons. cbn [drop take]. rewrite drop_app_length, take_app_length.
  assert (Hout : flatten stack ++ slash :: s = flatten (stack ++ [s])) by (rewrite flatten_app; cbn; by rewrite app_nil_r).
  rewrite Hout. unfold resolve. fold resolve. unfold is_dot, is_dot_dot. rewrite !bool_decide_false by done.
  destruct rest as [|r rest]; [destruct fuel as [|fuel]; [cbn in Hlen; lia|done]|].
  apply IH; [done|done| |done]. apply Forall_app. split; [done|by repeat constructor].
Qed.

Definition no_dots (s : cstring) : Prop := s <> [dot] /\ s <> [dot; dot].
Lemma resolve_no_dots segments : forall stack, Forall no_dots stack -> Forall no_dots (resolve stack segments).
Proof.
  assert (Hn : no_dots []) by done.
  induction segments as [|s rest IH]; intros stack Hst; [done|].
  assert (Happ : forall st x, Forall no_dots st -> no_dots x -> Forall no_dots (st ++ [x])) by (intros; apply Forall_app; split; [done|by apply Forall_singleton]).
  destruct rest as [|r rest].
  - cbn. unfold is_dot, is_dot_dot. do 2 (case_bool_decide; [by apply Happ; [apply removelast_Forall || done|]|]). by apply Happ.
  - change (resolve stack (s :: r :: rest)) with (if is_dot s then resolve stack (r :: rest) else if is_dot_dot s then resolve (removelast stack) (r :: rest) else resolve (stack ++ [s]) (r :: rest)).
    unfold is_dot, is_dot_dot. case_bool_decide; [by apply IH|]. case_bool_decide; [by apply IH, removelast_Forall|]. apply IH. by apply Happ.
Qed.

(** C32: [RemoveDotSegments] on an absolute path ends and resolves its
    segments one by one: a dot segment disappears, a double dot takes the
    segment before it away (none at the root), at the end either leaves a
    directory; every other segment, an empty one included, is kept, and no dot
    segment is left. *)
Theorem RemoveDotSegments_resolves p : exists segments,
  Forall no_slash segments /\ slash :: p = flatten segments /\
  RemoveDotSegments (slash :: p) = Some (flatten (resolve [] segments)) /\ Forall no_dots (resolve [] segments).
Proof.
  destruct (split_absolute p) as (segs & Hne & Hf & Heq). exists segs. split; [done|]. split; [done|]. split; [|by apply resolve_no_dots].
  unfold RemoveDotSegments. rewrite Heq. apply (RemoveDotSegments_loop_spec segs _ []); [done|done|done|lia].
Qed.
(** A relative path that starts with a dot segment keeps it, since the
    comparison with the two characters includes the terminating 0. *)
Theorem RemoveDotSegments_keeps_leading_dot : RemoveDotSegments (str "./a") = Some (str "./a") /\ RemoveDotSegments (str "../a") = Some (str "a").
Proof. by vm_compute. Qed.

(** ** Escapes *)
(** A string as a sequence of characters, each escaped or not. *)
Fixpoint tokens (fuel : nat) (s : cstring) : list (bool * Z) :=
  match fuel with
  | O => []
  | S fuel =>
      match s with
      | [] => []
      | c :: rest =>
          if GetEscapedValue s >=? 0 then (true, GetEscapedValue s) :: tokens fuel (drop 3 s) else (false, c) :: tokens fuel rest
      end
  end.
Definition all_tokens (s : cstring) : list (bool * Z) := tokens (S (length s)) s.
(** The characters that a string stands for. *)
Definition unescape (s : cstring) : cstring := snd <$> all_tokens s.
(** ASCII, and every percent sign starts an escape sequence. *)
Definition well_escaped (s : cstring) : Prop := forall c, (false, c) ∈ all_tokens s -> c <> percent /\ 0 <= c < 128.

Definition normal_char (c : Z) : bool := IsDelimiter c || IsUnreservedChar c.
Definition emit_token (t : bool * Z) : cstring :=
  match t with
  | (true, v) => if IsUnreservedChar v then [v] else print_escape v
  | (false, c) => if (c =? percent) || IsDelimiter (char_value c) || IsUnreservedChar (char_value c) then [c] else print_escape (char_value c)
  end.
Definition norm_token (t : bool * Z) : bool * Z :=
  match t with
  | (true, v) => (negb (IsUnreservedChar v), v)
  | (false, c) => (negb (normal_char c), c)
  end.
Definition token_ok (t : bool * Z) : Prop := 0 <= t.2 < 256 /\ (t.1 = false -> t.2 <> percent /\ t.2 < 128).

Lemma print_escape_value v : 0 <= v < 256 -> exists a b, print_escape v = [percent; a; b] /\ Uri_IsHexDigit a = true /\ Uri_IsHexDigit b = true /\
  HexValue a * 16 + HexValue b = v /\ IsUnreservedChar a = true /\ IsUnreservedChar b = true.
Proof.
  intros Hv.
  assert (H : forallb (fun v => match print_escape v with
    | [c; a; b] => (c =? percent) && Uri_IsHexDigit a && Uri_IsHexDigit b && (HexValue a * 16 + HexValue b =? v) && IsUnreservedChar a && IsUnreservedChar b
    | _ => false end) (seqZ 0 256) = true) by by vm_compute.
  rewrite forallb_forall in H. specialize (H v). destruct (print_escape v) as [|c [|a [|b [|? ?]]]]; try (discriminate H; apply list_elem_of_In, elem_of_seqZ; lia).
  all: assert (Hin : In v (seqZ 0 256)) by (apply list_elem_of_In, elem_of_seqZ; lia); specialize (H Hin); try done.
  repeat (apply andb_true_iff in H as [H ?]). exists a, b. apply Z.eqb_eq in H as ->. repeat split; try done. by apply Z.eqb_eq.
Qed.
Lemma HexValue_range d : Uri_IsHexDigit d = true -> 0 <= HexValue d < 16.
Proof.
  unfold Uri_IsHexDigit, HexValue. destruct (between 48 57 d) eqn:E1; [unfold between in E1; zbool; lia|].
  destruct (between 65 70 d) eqn:E2; [unfold between in E2; zbool; lia|]. destruct (between 97 102 d) eqn:E3; [unfold between in E3; zbool; lia|]. done.
Qed.
Lemma GetEscapedValue_range s : GetEscapedValue s = -1 \/ (0 <= GetEscapedValue s < 256 /\ (3 <= length s)%nat).
Proof.
  destruct s as [|c [|a [|b s]]]; try by left. cbn. destruct (negb (c =? percent)); [by left|]. destruct (Uri_IsHexDigit a) eqn:Ea; [|by left].
  destruct (Uri_IsHexDigit b) eqn:Eb; [|by left]. right. pose proof (HexValue_range a Ea). pose proof (HexValue_range b Eb). cbn. lia.
Qed.
Lemma GetEscapedValue_escape a b s : Uri_IsHexDigit a = true -> Uri_IsHexDigit b = true ->
  GetEscapedValue (percent :: a :: b :: s) = HexValue a * 16 + HexValue b.
Proof. intros Ha Hb. cbn. by rewrite Ha, Hb. Qed.
Lemma GetEscapedValue_raw c s : c <> percent -> GetEscapedValue (c :: s) = -1.
Proof. intros Hc. destruct s as [|a [|b s]]; [done|done|]. cbn. destruct (Z.eqb_spec c percent); [done|]. done. Qed.

Lemma tokens_more n m s : (length s < n)%nat -> (n <= m)%nat -> tokens m s = tokens n s.
Proof.
  revert m s. induction n as [|n IH]; intros m s Hn Hm; [lia|]. destruct m as [|m]; [lia|]. cbn [tokens]. destruct s as [|c s]; [done|].
  cbn in Hn. destruct (GetEscapedValue (c :: s) >=? 0); f_equal; apply IH; try lia. rewrite length_drop. cbn. lia.
Qed.
Lemma normalize_tokens n s : normalize n s = tokens n s ≫= emit_token.
Proof.
  revert s. induction n as [|n IH]; intros s; [done|]. cbn [normalize tokens]. destruct s as [|c s]; [done|].
  destruct (GetEscapedValue (c :: s) >=? 0); cbn; by rewrite IH.
Qed.
Lemma tokens_ok n s t : (forall c, (false, c) ∈ tokens n s -> c <> percent /\ 0 <= c < 128) -> t ∈ tokens n s -> token_ok t.
Proof.
  revert s. induction n as [|n IH]; intros s Hok Ht; [by apply not_elem_of_nil in Ht|]. cbn [tokens] in *. destruct s as [|c s]; [by apply not_elem_of_nil in Ht|].
  destruct (GetEscapedValue_range (c :: s)) as [E|[E _]].
  - rewrite E in *. cbn [Z.geb Z.compare] in *. apply elem_of_cons in Ht as [->|Ht].
    + specialize (Hok c ltac:(by left)). split; cbn; [lia|]. intros _. lia.
    + apply (IH s); [|done]. intros c' Hc'. apply Hok. by right.
  - rewrite Z.geb_leb in *. destruct (Z.leb_spec 0 (GetEscapedValue (c :: s))); [|lia]. apply elem_of_cons in Ht as [->|Ht].
    + split; cbn [fst snd]; [lia|done].
    + apply (IH (drop 3 (c :: s))); [|done]. intros c' Hc'. apply Hok. by right.
Qed.
Lemma char_value_ascii c : 0 <= c < 128 -> char_value c = c.
Proof. intros Hc. unfold char_value. apply swrap_id; unfold is_sint; cbn; lia. Qed.

(** An emitted token is read back as its normal form. *)
Lemma emit_shape t : token_ok t ->
  (emit_token t = [t.2] /\ norm_token t = (false, t.2) /\ t.2 <> percent /\ normal_char t.2 = true) \/
  (exists a b, emit_token t = [percent; a; b] /\ Uri_IsHexDigit a = true /\ Uri_IsHexDigit b = true /\ norm_token t = (true, t.2) /\
     HexValue a * 16 + HexValue b = t.2 /\ normal_char a = true /\ normal_char b = true).
Proof.
  destruct t as [[|] v]; intros [Hv Hraw]; cbn [fst snd] in *; cbn [emit_token norm_token].
  - destruct (IsUnreservedChar v) eqn:E.
    + left. repeat split; [|unfold normal_char; by rewrite E, orb_true_r]. intros ->. done.
    + right. destruct (print_escape_value v Hv) as (a & b & -> & Ha & Hb & Hab & Hua & Hub). exists a, b.
      unfold normal_char. rewrite Hua, Hub, !orb_true_r. done.
  - destruct (Hraw eq_refl) as [Hp Hlt]. rewrite char_value_ascii by lia. destruct (Z.eqb_spec v percent); [done|]. cbn [orb].
    change (IsDelimiter v || IsUnreservedChar v) with (normal_char v). destruct (normal_char v) eqn:E; [by left|].
    right. destruct (print_escape_value v Hv) as (a & b & -> & Ha & Hb & Hab & Hua & Hub). exists a, b.
    unfold normal_char. rewrite Hua, Hub, !orb_true_r. done.
Qed.
Lemma tokens_emit ts : Forall token_ok ts -> forall n, (length (ts ≫= emit_token) < n)%nat -> tokens n (ts ≫= emit_token) = norm_token <$> ts.
Proof.
  induction 1 as [|t ts Ht _ IH]; intros n Hn; [by destruct n|]. destruct n as [|n]; [lia|].
  cbn [mbind list_bind fmap list_fmap] in *. rewrite length_app in Hn.
  destruct (emit_shape t Ht) as [(He & Hnt & Hp & _)|(a & b & He & Ha & Hb & Hnt & Hab & _)]; rewrite He, Hnt in *; cbn [app tokens length] in *.
  - rewrite GetEscapedValue_raw by done. cbn [Z.geb Z.compare]. f_equal. apply IH. lia.
  - rewrite GetEscapedValue_escape by done. rewrite Hab. destruct Ht as [Hr _]. rewrite Z.geb_leb. destruct (Z.leb_spec 0 t.2); [|lia].
    cbn [drop]. f_equal. apply IH. lia.
Qed.
Lemma norm_token_idem t : norm_token (norm_token t) = norm_token t.
Proof.
  destruct t as [[|] v]; cbn; unfold normal_char.
  - destruct (IsUnreservedChar v) eqn:E; cbn; rewrite ?E; cbn; unfold normal_char; by rewrite ?E, ?orb_true_r.
  - destruct (IsDelimiter v || IsUnreservedChar v) eqn:E; cbn; unfold normal_char; rewrite ?E; [done|].
    apply orb_false_iff in E as [_ E]. by rewrite E.
Qed.
Lemma emit_norm t : token_ok t -> emit_token (norm_token t) = emit_token t.
Proof.
  destruct t as [[|] v]; intros [Hv Hraw]; cbn [fst snd] in *; cbn [norm_token emit_token].
  - destruct (IsUnreservedChar v) eqn:E; cbn [negb emit_token]; rewrite ?E; [|done]. 
    assert (Hu : v < 128) by (unfold IsUnreservedChar, between in E; zbool; lia).
    rewrite char_value_ascii by lia. by rewrite E, !orb_true_r.
  - destruct (Hraw eq_refl) as [Hp Hlt]. rewrite char_value_ascii by lia. destruct (Z.eqb_spec v percent); [done|]. cbn [orb].
    unfold normal_char. destruct (IsDelimiter v || IsUnreservedChar v) eqn:E; cbn [negb emit_token].
    + rewrite ?char_value_ascii by lia. destruct (Z.eqb_spec v percent); [done|]. cbn [orb]. by rewrite ?E.
    + apply orb_false_iff in E as [_ E]. by rewrite E.
Qed.

(** normalizing the escapes of an ASCII string in which every percent
    sign starts an escape sequence keeps the characters that the string stands for, is
    idempotent, and leaves only percent signs, delimiters and unreserved
    characters. *)
Theorem NormalizeEscapes_equivalent s : well_escaped s -> exists s', NormalizeEscapes s (zlen s) = Some s' /\
  unescape s' = unescape s /\ NormalizeEscapes s' (zlen s') = Some s' /\ Forall (fun c => c = percent \/ normal_char c = true) s'.
Proof.
  intros Hw. assert (Hok : Forall token_ok (all_tokens s)) by (apply list.Forall_forall; intros t; by apply tokens_ok).
  assert (Hnorm : forall s, NormalizeEscapes s (zlen s) = Some (all_tokens s ≫= emit_token)).
  { intros x. unfold NormalizeEscapes, zlen. destruct (Z.ltb_spec (Z.of_nat (length x)) 0); [lia|]. rewrite Nat2Z.id, take_ge by lia.
    by rewrite normalize_tokens. }
  exists (all_tokens s ≫= emit_token). split; [apply Hnorm|].
  assert (Htok : all_tokens (all_tokens s ≫= emit_token) = norm_token <$> all_tokens s) by (apply tokens_emit; [done|lia]).
  split; [|split].
  - unfold unescape. rewrite Htok, <- list_fmap_compose. apply list_fmap_ext. intros i [[|] v] _; done.
  - rewrite Hnorm, Htok. f_equal. clear -Hok. induction Hok as [|t ts Ht _ IH]; [done|]. cbn. rewrite (emit_norm t Ht). by f_equal.
  - clear -Hok. induction Hok as [|t ts Ht _ IH]; [constructor|]. cbn. apply Forall_app. split; [|done].
    destruct (emit_shape t Ht) as [(-> & _ & _ & Hn)|(a & b & -> & _ & _ & _ & _ & Hna & Hnb)]; [by constructor; [right|constructor]|].
    constructor; [by left|]. constructor; [by right|]. by constructor; [right|constructor].
Qed.
Lemma well_escaped_check s :
  forallb (fun t => t.1 || (negb (t.2 =? percent) && (0 <=? t.2) && (t.2 <? 128))) (all_tokens s) = true -> well_escaped s.
Proof. intros H c Hc. rewrite forallb_forall in H. specialize (H (false, c) (proj1 (list_elem_of_In _ _) Hc)). cbn in H. zbool. lia. Qed.
Lemma NormalizeEscapes_equivalent_witness : exists s', NormalizeEscapes (str "a%7e%2fb") 8 = Some s' /\ s' = str "a~%2Fb" /\
  unescape s' = unescape (str "a%7e%2fb").
Proof.
  destruct (NormalizeEscapes_equivalent (str "a%7e%2fb")) as (s' & Hn & Hu & _).
  - by apply well_escaped_check.
  - exists s'. split; [exact Hn|]. split; [|done]. vm_compute in Hn. injection Hn as <-. done.
Defined.
(** Every byte that is not ASCII becomes the same escape: [char] is signed,
    its sign extension is printed, and three characters of that are kept. *)
Theorem NormalizeEscapes_non_ascii c : 128 <= c < 256 -> NormalizeEscapes [c] 1 = Some (str "%FF").
Proof.
  intros Hc.
  assert (H : forallb (fun c => bool_decide (NormalizeEscapes [c] 1 = Some (str "%FF"))) (seqZ 128 128) = true) by by vm_compute.
  rewrite forallb_forall in H. apply (bool_decide_unpack _). rewrite H; [done|]. apply list_elem_of_In, elem_of_seqZ. lia.
Qed.

(** ** Parsing *)
Lemma char_at_cons c s n : char_at (c :: s) (S n) = char_at s n.
Proof. done. Qed.
Lemma strcspn_two s x y : x <> y -> x <> 0 -> let n := strcspn s [x; y] in
  strcspn s [y] = if char_at s n =? x then (S n + strcspn (drop (S n) s) [y])%nat else n.
Proof.
  intros Hxy Hx0. cbn zeta. induction s as [|c s IH].
  - change (strcspn [] [x; y]) with O. change (char_at [] 0) with 0. destruct (Z.eqb_spec 0 x); [by subst|done].
  - cbn [strcspn existsb orb]. destruct (Z.eqb_spec c x) as [->|Hcx]; cbn [orb].
    + change (char_at (x :: s) 0) with x. rewrite Z.eqb_refl. destruct (Z.eqb_spec x y); [done|]. done.
    + destruct (Z.eqb_spec c y) as [->|Hcy]; cbn [orb].
      * change (char_at (y :: s) 0) with y. by destruct (Z.eqb_spec y x).
      * rewrite char_at_cons. rewrite IH. by destruct (_ =? x).
Qed.
Lemma NormalizeEscapes_None s len : NormalizeEscapes s len = None <-> len < 0.
Proof. unfold NormalizeEscapes. destruct (Z.ltb_spec len 0); split; done || lia. Qed.
Lemma NormalizeEscapes_Some s len : 0 <= len -> exists r, NormalizeEscapes s len = Some r.
Proof. intros H. unfold NormalizeEscapes. destruct (Z.ltb_spec len 0); [lia|by eexists]. Qed.

Lemma ParseAuthority_len a : exists u h p, ParseAuthority a = Some (u, h, p, strcspn a [slash]).
Proof.
  unfold ParseAuthority. set (n := strcspn a [at_sign; slash]).
  assert (Hu : exists u, (if char_at a n =? at_sign then x ← NormalizeEscapes a (Z.of_nat n); Some (Some x) else Some None) = Some u).
  { destruct (char_at a n =? at_sign); [|by eexists]. destruct (NormalizeEscapes_Some a (Z.of_nat n)) as [r ->]; [lia|by eexists]. }
  destruct Hu as [u ->]. cbn [mbind option_bind]. set (skipped := if char_at a n =? at_sign then S n else O).
  set (current := drop skipped a).
  assert (Hlen : strcspn a [slash] = (skipped + strcspn current [slash])%nat).
  { unfold current, skipped. rewrite (strcspn_two a at_sign slash) by done. fold n. destruct (char_at a n =? at_sign) eqn:E; [done|].
    rewrite drop_0. rewrite (strcspn_two a at_sign slash) by done. fold n. rewrite E. done. }
  destruct (NormalizeEscapes_Some current (Z.of_nat (strcspn current [colon; slash]))) as [h ->]; [lia|]. cbn [mbind option_bind].
  rewrite (strcspn_two current colon slash) in Hlen by done. destruct (char_at current (strcspn current [colon; slash]) =? colon).
  - eexists u, _, _. rewrite Hlen. f_equal. f_equal. lia.
  - eexists u, _, _. rewrite Hlen. done.
Qed.
Definition after_scheme (uri : cstring) : cstring :=
  let scheme_len := strcspn uri [colon; slash] in
  if char_at uri scheme_len =? colon then drop (S scheme_len) uri else uri.
(** A query or a fragment right behind the authority. *)
Definition authority_ends_badly (rest : cstring) : Prop :=
  char_at rest 0 = slash /\ char_at rest 1 = slash /\
  (strcspn (drop 2 rest) [question; hash] < strcspn (drop 2 rest) [slash])%nat.

(** C34: [ParseUri] is defined exactly when no question mark or hash comes
    before the first slash behind an authority: then the path would start
    behind its end, and the escapes of a string of negative length would be
    normalized. *)
Theorem ParseUri_defined uri : ParseUri uri = None <-> authority_ends_badly (after_scheme uri).
Proof.
  unfold ParseUri, authority_ends_badly. cbn zeta. set (n := strcspn uri [colon; slash]).
  set (rest := if char_at uri n =? colon then drop (S n) uri else uri). change (after_scheme uri) with rest. clearbody rest.
  assert (Hf : exists f, (if char_at rest (strcspn rest [hash]) =? hash
              then f ← NormalizeEscapes (drop (S (strcspn rest [hash])) rest) (zlen (drop (S (strcspn rest [hash])) rest)); Some (Some f)
              else Some None) = Some f).
  { destruct (_ =? hash); [|by eexists]. destruct (NormalizeEscapes_Some (drop (S (strcspn rest [hash])) rest) (zlen (drop (S (strcspn rest [hash])) rest))) as [r ->];
      [unfold zlen; lia|by eexists]. }
  destruct Hf as [f ->]. cbn [mbind option_bind].
  assert (Hq : exists q, (if char_at rest (strcspn rest [question; hash]) =? question
           then q ← NormalizeEscapes (drop (S (strcspn rest [question; hash])) rest) (Z.of_nat (strcspn rest [hash]) - Z.of_nat (S (strcspn rest [question; hash]))); Some (Some q)
           else Some None) = Some q).
  { destruct (char_at rest (strcspn rest [question; hash]) =? question) eqn:E; [|by eexists].
    pose proof (strcspn_two rest question hash ltac:(done) ltac:(done)) as Ht. cbn zeta in Ht. rewrite E in Ht. rewrite Ht.
    edestruct NormalizeEscapes_Some as [r ->]; [|by eexists]. lia. }
  destruct Hq as [q ->]. cbn [mbind option_bind].
  destruct ((char_at rest 0 =? slash) && (char_at rest 1 =? slash)) eqn:E.
  - apply andb_true_iff in E as [E0 E1]. apply Z.eqb_eq in E0, E1.
    destruct (ParseAuthority_len (drop 2 rest)) as (u & h & p & ->). cbn [mbind option_bind].
    assert (Hr : rest = slash :: slash :: drop 2 rest).
    { clear -E0 E1. destruct rest as [|a [|b r]]; [done|done|]. cbn. cbv in E0, E1. by subst. }
    assert (Hqp : strcspn rest [question; hash] = S (S (strcspn (drop 2 rest) [question; hash]))).
    { rewrite Hr at 1. cbn. done. }
    destruct (NormalizeEscapes _ _) as [pa|] eqn:En; cbn [mbind option_bind].
    + split; [done|]. intros (_ & _ & Hlt). exfalso.
      match type of En with NormalizeEscapes ?a ?b = _ => assert (Hn : NormalizeEscapes a b = None) by (apply NormalizeEscapes_None; lia) end. congruence.
    + apply NormalizeEscapes_None in En. split; [|done]. intros _. split; [done|]. split; [done|]. lia.
  - cbn [mbind option_bind]. destruct (NormalizeEscapes_Some (drop 0 rest) (Z.of_nat (strcspn rest [question; hash]) - Z.of_nat 0)) as [r ->]; [lia|].
    split; [done|]. intros (E0 & E1 & _). rewrite E0, E1 in E. done.
Qed.
Theorem ParseUri_authority_query_undefined : ParseUri (str "http://host?q") = None /\ ParseUri (str "http://host#f") = None.
Proof. by vm_compute. Qed.

(** ** Building and parsing *)
Definition normalized (s : cstring) : Prop := NormalizeEscapes s (zlen s) = Some s.
Definition opt_all (P : cstring -> Prop) (s : option cstring) : Prop := match s with Some s => P s | None => True end.
(** An absolute uri whose parts are in normal form and do not contain the
    characters that end them. *)
Record canonical (u : ParsedUri) : Prop := {
  c_scheme : exists s, scheme u = Some s /\ avoids [colon; slash] s /\ StringLower s = s;
  c_authority : match host u with
    | None => userinfo u = None /\ uri_port u = None /\ ~ (char_at (path u) 0 = slash /\ char_at (path u) 1 = slash)
    | Some h => avoids [colon; slash; at_sign; question; hash] h /\ normalized h /\ StringLower h = h /\
        ((path u = [] /\ query u = None /\ fragment u = None) \/ char_at (path u) 0 = slash) end;
  c_userinfo : opt_all (fun x => avoids [at_sign; slash; question; hash] x /\ normalized x) (userinfo u);
  c_port : opt_all (avoids [slash; at_sign; question; hash]) (uri_port u);
  c_path : avoids [question; hash] (path u) /\ normalized (path u);
  c_query : opt_all (fun x => avoids [hash] x /\ normalized x) (query u);
  c_fragment : opt_all normalized (fragment u) }.

Lemma strcspn_app a b reject : avoids reject a -> strcspn (a ++ b) reject = (length a + strcspn b reject)%nat.
Proof. induction 1 as [|x a Hx _ IH]; cbn; [done|]. rewrite Hx. by f_equal. Qed.
Lemma char_at_app a b n : char_at (a ++ b) (length a + n) = char_at b n.
Proof. unfold char_at. by rewrite lookup_app_r, Nat.add_comm, Nat.add_sub by lia. Qed.
Lemma avoids_sub r r' s : (forall x, x ∈ r' -> x ∈ r) -> avoids r s -> avoids r' s.
Proof.
  intros Hsub Hs. eapply list.Forall_impl; [exact Hs|]. cbn. intros c Hc. apply not_true_is_false. intros Hx. apply not_true_iff_false in Hc. apply Hc.
  apply existsb_exists in Hx as (x & Hx & Heq). apply existsb_exists. exists x. split; [|done]. by apply list_elem_of_In, Hsub, list_elem_of_In.
Qed.
Ltac avoid := match goal with H : avoids _ ?s |- avoids _ ?s => refine (avoids_sub _ _ s _ H); let x := fresh in let Hx := fresh in intros x Hx; clear - Hx; rewrite !elem_of_cons in Hx; rewrite !elem_of_cons; pose proof (not_elem_of_nil x); tauto end.
Lemma NormalizeEscapes_app x y : NormalizeEscapes (x ++ y) (zlen x) = NormalizeEscapes x (zlen x).
Proof.
  unfold NormalizeEscapes, zlen. destruct (Z.ltb_spec (Z.of_nat (length x)) 0); [done|]. rewrite Nat2Z.id, take_app_length. by rewrite take_ge by lia.
Qed.
Lemma avoids_cons r c s : existsb (Z.eqb c) r = false -> avoids r s -> avoids r (c :: s).
Proof. by constructor. Qed.
Lemma avoids_app r a b : avoids r a -> avoids r b -> avoids r (a ++ b).
Proof. intros Ha Hb. apply Forall_app. by split. Qed.

(** What follows the path. *)
Definition uri_tail (u : ParsedUri) : cstring := with_separator question (query u) ++ with_separator hash (fragment u).
Section Tail.
Context (u : ParsedUri) (Hu : canonical u) (body : cstring) (Hbody : avoids [question; hash] body).

Lemma avoids_hash : avoids [hash] body.
Proof using Hbody. eapply avoids_sub; [|exact Hbody]. intros x Hx. right. exact Hx. Qed.
Lemma tail_question : strcspn (body ++ uri_tail u) [question; hash] = length body.
Proof using Hbody.
  rewrite strcspn_app by done. unfold uri_tail. destruct (query u), (fragment u); cbn; lia.
Qed.
Lemma tail_hash : strcspn (body ++ uri_tail u) [hash] = (length body + length (with_separator question (query u)))%nat.
Proof using Hu Hbody.
  rewrite strcspn_app by apply avoids_hash. f_equal. unfold uri_tail. pose proof (c_query _ Hu) as Hq.
  assert (Ha : avoids [hash] (with_separator question (query u))).
  { destruct (query u); cbn in *; [constructor; [done|apply Hq]|constructor]. }
  rewrite strcspn_app by done. destruct (fragment u); cbn; lia.
Qed.
Lemma parse_fragment :
  (if char_at (body ++ uri_tail u) (strcspn (body ++ uri_tail u) [hash]) =? hash
   then f ← NormalizeEscapes (drop (S (strcspn (body ++ uri_tail u) [hash])) (body ++ uri_tail u))
              (zlen (drop (S (strcspn (body ++ uri_tail u) [hash])) (body ++ uri_tail u))); Some (Some f)
   else Some None) = Some (fragment u).
Proof using Hu Hbody.
  rewrite tail_hash. unfold uri_tail. rewrite app_assoc. rewrite <- length_app. pose proof (c_fragment _ Hu) as Hf.
  rewrite <- (Nat.add_0_r (length (_ ++ _))) at 1. rewrite char_at_app. destruct (fragment u) as [f|]; cbn [with_separator].
  - change (char_at (hash :: f) 0 =? hash) with true. cbn [opt_all] in Hf.
    assert (Hd : drop (S (length (body ++ with_separator question (query u)))) ((body ++ with_separator question (query u)) ++ hash :: f) = f).
    { rewrite drop_app_ge by lia. replace (S (length (body ++ with_separator question (query u))) - length (body ++ with_separator question (query u)))%nat with 1%nat by lia. done. }
    rewrite Hd. unfold normalized in Hf. by rewrite Hf.
  - rewrite app_nil_r. done.
Qed.
Lemma parse_query :
  (if char_at (body ++ uri_tail u) (strcspn (body ++ uri_tail u) [question; hash]) =? question
   then q ← NormalizeEscapes (drop (S (strcspn (body ++ uri_tail u) [question; hash])) (body ++ uri_tail u))
              (Z.of_nat (strcspn (body ++ uri_tail u) [hash]) - Z.of_nat (S (strcspn (body ++ uri_tail u) [question; hash]))); Some (Some q)
   else Some None) = Some (query u).
Proof using Hu Hbody.
  rewrite tail_hash, tail_question. pose proof (c_query _ Hu) as Hq. rewrite <- (Nat.add_0_r (length body)) at 1. rewrite char_at_app. unfold uri_tail.
  destruct (query u) as [q|]; cbn [with_separator].
  - change (char_at ((question :: q) ++ with_separator hash (fragment u)) 0 =? question) with true. destruct Hq as [_ Hq].
    assert (Hd : drop (S (length body)) (body ++ (question :: q) ++ with_separator hash (fragment u)) = q ++ with_separator hash (fragment u)).
    { rewrite drop_app_ge by lia. replace (S (length body) - length body)%nat with 1%nat by lia. done. }
    rewrite Hd. replace (Z.of_nat (length body + length (question :: q)) - Z.of_nat (S (length body))) with (zlen q) by (unfold zlen; cbn; lia).
    rewrite NormalizeEscapes_app. unfold normalized in Hq. by rewrite Hq.
  - cbn [app]. destruct (fragment u); done.
Qed.
End Tail.

(** The authority, in front of nothing or of a slash. *)
Definition uri_authority (u : ParsedUri) (h : cstring) : cstring :=
  (match userinfo u with Some x => x ++ [at_sign] | None => [] end) ++ h ++ with_separator colon (uri_port u).
Lemma strcspn_slash rest r : rest = [] \/ char_at rest 0 = slash -> existsb (Z.eqb slash) r = true -> strcspn rest r = O.
Proof. intros [->|H] Hr; [done|]. destruct rest as [|c rest]; [done|]. cbv in H. subst c. cbn. by rewrite Hr. Qed.
Lemma char_at_slash rest c : rest = [] \/ char_at rest 0 = slash -> c <> slash -> c <> 0 -> (char_at rest 0 =? c) = false.
Proof. intros [->|H] Hc H0; [by apply Z.eqb_neq|]. rewrite H. apply Z.eqb_neq. done. Qed.

Definition host_port (u : ParsedUri) (h : cstring) : cstring := h ++ with_separator colon (uri_port u).
Section Authority.
Context (u : ParsedUri) (h rest : cstring) (Hu : canonical u) (Hh : host u = Some h) (Hrest : rest = [] \/ char_at rest 0 = slash).

Lemma canonical_host : avoids [colon; slash; at_sign; question; hash] h /\ normalized h /\ StringLower h = h.
Proof using Hu Hh. pose proof (c_authority _ Hu) as Ha. rewrite Hh in Ha. by destruct Ha as (H1 & H2 & H3 & _). Qed.
Lemma host_port_avoids : avoids [at_sign; slash; question; hash] (host_port u h).
Proof using Hu Hh.
  destruct canonical_host as (Hhost & _ & _). pose proof (c_port _ Hu) as Hp. apply avoids_app; [avoid|].
  destruct (uri_port u) as [p|]; cbn [opt_all with_separator] in *; [apply avoids_cons; [done|avoid]|constructor].
Qed.
Lemma host_port_len : strcspn (host_port u h ++ rest) [colon; slash] = length h.
Proof using Hu Hh Hrest.
  destruct canonical_host as (Hhost & _ & _). unfold host_port. rewrite <- app_assoc. destruct (uri_port u) as [p|]; cbn [with_separator app].
  - rewrite (strcspn_stop h colon) by (done || avoid). done.
  - rewrite strcspn_app by avoid. rewrite (strcspn_slash rest) by done. lia.
Qed.
Lemma host_port_host : NormalizeEscapes (host_port u h ++ rest) (Z.of_nat (length h)) = Some h.
Proof using Hu Hh.
  destruct canonical_host as (_ & Hn & _). unfold host_port. rewrite <- app_assoc. change (Z.of_nat (length h)) with (zlen h). by rewrite NormalizeEscapes_app.
Qed.
Lemma host_port_port k : k = length h ->
  (if char_at (host_port u h ++ rest) k =? colon then
     (Some (take (strcspn (drop (S k) (host_port u h ++ rest)) [slash]) (drop (S k) (host_port u h ++ rest))),
      (k + (1 + strcspn (drop (S k) (host_port u h ++ rest)) [slash]))%nat)
   else (None, k)) = (uri_port u, length (host_port u h)).
Proof using Hu Hh Hrest.
  intros ->. pose proof (c_port _ Hu) as Hp. unfold host_port. rewrite <- app_assoc. rewrite <- (Nat.add_0_r (length h)) at 1. rewrite char_at_app.
  destruct (uri_port u) as [p|]; cbn [with_separator app opt_all] in *.
  - change (char_at (colon :: p ++ rest) 0 =? colon) with true. cbn iota.
    assert (Hd : drop (S (length h)) (h ++ colon :: p ++ rest) = p ++ rest).
    { rewrite drop_app_ge by lia. by replace (S (length h) - length h)%nat with 1%nat by lia. }
    rewrite Hd. rewrite strcspn_app by avoid. rewrite (strcspn_slash rest) by done. rewrite Nat.add_0_r, take_app_length.
    f_equal. rewrite length_app. cbn. lia.
  - rewrite char_at_slash by done. by rewrite app_nil_r.
Qed.
Lemma ParseAuthority_build : ParseAuthority (uri_authority u h ++ rest) = Some (userinfo u, h, uri_port u, length (uri_authority u h)).
Proof using Hu Hh Hrest.
  destruct canonical_host as (Hhost & Hhn & Hhl). pose proof (c_userinfo _ Hu) as Hui. pose proof host_port_avoids as Hhp.
  pose proof (host_port_port _ eq_refl) as Hpp. unfold ParseAuthority, uri_authority. fold (host_port u h).
  destruct (userinfo u) as [x|]; cbn [opt_all] in Hui.
  - destruct Hui as [Hx Hxn]. rewrite <- !app_assoc. cbn [app]. rewrite (strcspn_stop x at_sign) by (done || avoid).
    replace (char_at (x ++ at_sign :: host_port u h ++ rest) (length x) =? at_sign) with true
      by (rewrite <- (Nat.add_0_r (length x)), char_at_app; done).
    change (Z.of_nat (length x)) with (zlen x). rewrite NormalizeEscapes_app. unfold normalized in Hxn. rewrite Hxn. cbn [mbind option_bind].
    assert (Hd : drop (S (length x)) (x ++ at_sign :: host_port u h ++ rest) = host_port u h ++ rest).
    { rewrite drop_app_ge by lia. by replace (S (length x) - length x)%nat with 1%nat by lia. }
    rewrite Hd, host_port_len, host_port_host. cbn [mbind option_bind]. rewrite Hhl, length_app. cbn [length].
    destruct (char_at (host_port u h ++ rest) _ =? colon); injection Hpp as Hport Hlen; rewrite Hport, <- Hlen; do 2 f_equal; lia.
  - cbn [app]. rewrite strcspn_app by avoid. rewrite (strcspn_slash rest) by done. rewrite !char_at_app. rewrite char_at_slash by done.
    cbn [mbind option_bind]. rewrite drop_0, host_port_len, host_port_host. cbn [mbind option_bind]. rewrite Hhl.
    destruct (char_at (host_port u h ++ rest) _ =? colon); injection Hpp as Hport Hlen; rewrite Hport, <- Hlen; do 2 f_equal; lia.
Qed.
End Authority.

(** What follows the scheme and its colon. *)
Definition uri_body (u : ParsedUri) : cstring :=
  (match host u with Some h => [slash; slash] ++ uri_authority u h | None => [] end) ++ path u.
Lemma BuildUri_parts u s : canonical u -> scheme u = Some s -> BuildUri u = s ++ colon :: (uri_body u ++ uri_tail u).
Proof.
  intros Hu Hs. unfold BuildUri, uri_body, uri_tail, uri_authority. rewrite Hs. pose proof (c_authority _ Hu) as Ha. destruct (host u) as [h|].
  - assert (Hsep : (if bool_decide (path u = []) || (char_at (path u) 0 =? slash) then [] else [slash]) = ([] : cstring)).
    { destruct Ha as (_ & _ & _ & [(-> & _)| -> ]); [done|]. by rewrite orb_true_r. }
    rewrite Hsep. cbn [app]. by rewrite <- !app_assoc.
  - done.
Qed.
Lemma uri_body_avoids u : canonical u -> avoids [question; hash] (uri_body u).
Proof.
  intros Hu. apply avoids_app; [|apply (c_path _ Hu)]. destruct (host u) as [h|] eqn:Hh; [|constructor].
  do 2 (apply avoids_cons; [done|]). pose proof (host_port_avoids _ _ Hu Hh) as Hhp. pose proof (c_userinfo _ Hu) as Hui.
  apply avoids_app; [|fold (host_port u h); avoid]. destruct (userinfo u) as [x|]; [|constructor]. destruct Hui as [Hx _].
  apply avoids_app; [avoid|]. by apply avoids_cons; [|constructor].
Qed.

Lemma parse_path u k : canonical u -> (length (uri_body u) - length (path u))%nat = k ->
  NormalizeEscapes (drop k (uri_body u ++ uri_tail u)) (Z.of_nat (length (uri_body u)) - Z.of_nat k) = Some (path u).
Proof.
  intros Hu <-. destruct (c_path _ Hu) as [_ Hp]. unfold uri_body. rewrite <- app_assoc. rewrite length_app.
  rewrite Nat.add_sub, drop_app_length. 
  match goal with |- NormalizeEscapes _ ?x = _ => replace x with (zlen (path u)) by (unfold zlen; lia) end. by rewrite NormalizeEscapes_app.
Qed.

Lemma BuildUri_parse u : canonical u -> ParseUri (BuildUri u) = Some u.
Proof.
  intros Hu. destruct (c_scheme _ Hu) as (s & Hs & Havoid & Hlower). rewrite (BuildUri_parts u s) by done.
  unfold ParseUri. rewrite (strcspn_stop s colon) by done.
  replace (char_at (s ++ colon :: uri_body u ++ uri_tail u) (length s) =? colon) with true by (rewrite <- (Nat.add_0_r (length s)), char_at_app; done).
  rewrite take_app_length, Hlower.
  assert (Hd : drop (S (length s)) (s ++ colon :: uri_body u ++ uri_tail u) = uri_body u ++ uri_tail u).
  { rewrite drop_app_ge by lia. by replace (S (length s) - length s)%nat with 1%nat by lia. }
  rewrite Hd. rewrite parse_fragment by (done || by apply uri_body_avoids). cbn [mbind option_bind].
  rewrite parse_query by (done || by apply uri_body_avoids). cbn [mbind option_bind]. rewrite tail_question by by apply uri_body_avoids.
  pose proof (c_authority _ Hu) as Ha. destruct (host u) as [h|] eqn:Hh.
  - assert (Hrest : path u ++ uri_tail u = [] \/ char_at (path u ++ uri_tail u) 0 = slash).
    { destruct Ha as (_ & _ & _ & [(-> & Hq & Hf)|Hp]); [left; unfold uri_tail; by rewrite Hq, Hf|right]. by destruct (path u). }
    assert (Hb : uri_body u ++ uri_tail u = [slash; slash] ++ uri_authority u h ++ path u ++ uri_tail u)
      by (unfold uri_body; rewrite Hh; by rewrite <- !app_assoc).
    replace ((char_at (uri_body u ++ uri_tail u) 0 =? slash) && (char_at (uri_body u ++ uri_tail u) 1 =? slash)) with true by by rewrite Hb.
    replace (drop 2 (uri_body u ++ uri_tail u)) with (uri_authority u h ++ path u ++ uri_tail u) by by rewrite Hb.
    rewrite (ParseAuthority_build u h) by done. cbn [mbind option_bind].
    rewrite parse_path; [|done|unfold uri_body; rewrite Hh, !length_app; cbn; lia]. cbn [mbind option_bind]. destruct u. cbn in *. by subst.
  - destruct Ha as (Hui & Hport & Hslash). assert (Hb : uri_body u = path u) by (unfold uri_body; by rewrite Hh).
    assert (Hno : (char_at (uri_body u ++ uri_tail u) 0 =? slash) && (char_at (uri_body u ++ uri_tail u) 1 =? slash) = false).
    { rewrite Hb. apply not_true_is_false. intros [H0 H1]%andb_true_iff. apply Z.eqb_eq in H0, H1. apply Hslash.
      unfold uri_tail in *. destruct (path u) as [|a [|b p]], (query u), (fragment u); cbn in *; unfold char_at in *; cbn in *; try done; try lia. }
    rewrite Hno. cbn [mbind option_bind]. rewrite parse_path by (done || (rewrite Hb; lia)). cbn [mbind option_bind]. destruct u. cbn in *. by subst.
Qed.
(** C33: an absolute uri in normal form is printed by [BuildUri] so that
    [ParseUri] finds all its parts again: the scheme, the user information,
    the host, the port, the path, the query and the fragment. *)
Theorem BuildUri_roundtrip u : canonical u -> ParseUri (BuildUri u) = Some u.
Proof. apply BuildUri_parse. Qed.
Definition sample_uri : ParsedUri :=
  MkUri (Some (str "http")) (Some (str "me")) (Some (str "www.example.com")) (Some (str "80")) (str "/a/b%2F") (Some (str "x=1")) (Some (str "top")).
Ltac check_avoids := repeat (apply Forall_cons_2; [reflexivity|]); apply Forall_nil_2.
Lemma BuildUri_roundtrip_witness : BuildUri sample_uri = str "http://me@www.example.com:80/a/b%2F?x=1#top" /\
  ParseUri (BuildUri sample_uri) = Some sample_uri.
Proof.
  split; [reflexivity|]. apply (BuildUri_roundtrip sample_uri). split; cbn.
  - eexists. split; [reflexivity|]. split; [check_avoids|reflexivity].
  - split; [check_avoids|]. split; [reflexivity|]. split; [reflexivity|]. by right.
  - split; [check_avoids|reflexivity].
  - check_avoids.
  - split; [check_avoids|reflexivity].
  - split; [check_avoids|reflexivity].
  - reflexivity.
Defined.

(** The examples of RFC 3986, 5.4, with the base [http://a/b/c/d;p?q]. *)
Definition resolves (ref result : String.string) : bool :=
  bool_decide (ResolveUri (str ref) (str "http://a/b/c/d;p?q") = Some (Some (str result))).
Lemma ResolveUri_rfc3986_examples : forallb (fun '(r, u) => resolves r u)
  [("g:h", "g:h"); ("g", "http://a/b/c/g"); ("./g", "http://a/b/c/g"); ("g/", "http://a/b/c/g/"); ("/g", "http://a/g");
   ("?y", "http://a/b/c/d;p?y"); ("g?y", "http://a/b/c/g?y"); ("#s", "http://a/b/c/d;p?q#s"); ("g#s", "http://a/b/c/g#s");
   ("g?y#s", "http://a/b/c/g?y#s"); (";x", "http://a/b/c/;x"); ("g;x", "http://a/b/c/g;x"); ("g;x?y#s", "http://a/b/c/g;x?y#s");
   ("", "http://a/b/c/d;p?q"); (".", "http://a/b/c/"); ("./", "http://a/b/c/"); ("..", "http://a/b/"); ("../", "http://a/b/");
   ("../g", "http://a/b/g"); ("../..", "http://a/"); ("../../", "http://a/"); ("../../g", "http://a/g"); ("../../../g", "http://a/g");
   ("/./g", "http://a/g"); ("/../g", "http://a/g"); ("g.", "http://a/b/c/g."); (".g", "http://a/b/c/.g"); ("g..", "http://a/b/c/g..");
   ("./../g", "http://a/b/g"); ("./g/.", "http://a/b/c/g/"); ("g/./h", "http://a/b/c/g/h"); ("g/../h", "http://a/b/c/h");
   ("g;x=1/./y", "http://a/b/c/g;x=1/y"); ("g?y/./x", "http://a/b/c/g?y/./x"); ("g#s/../x", "http://a/b/c/g#s/../x")]%string = true.
Proof. by vm_compute. Qed.

(** Resolving an absolute uri in normal form without dot segments gives the
    uri itself, whatever the base is. *)
Theorem ResolveUri_absolute u base : canonical u -> RemoveDotSegments (path u) = Some (path u) ->
  ResolveUri (BuildUri u) base = Some (Some (BuildUri u)).
Proof.
  intros Hu Hp. unfold ResolveUri. rewrite BuildUri_parse by done. cbn [mbind option_bind].
  destruct (c_scheme _ Hu) as (s & Hs & _). rewrite bool_decide_eq_true_2 by (by rewrite Hs). rewrite Hp. cbn [mbind option_bind]. destruct u. by destruct (is_dart _).
Qed.
(** A reference with an authority, resolved against a base without a scheme,
    loses the authority; with assertions [BuildUri] stops. *)
Theorem ResolveUri_drops_authority : ResolveUri (str "//host/p") (str "/base") = Some (Some (str "/p")).
Proof. by vm_compute. Qed.
