(* ===== verification/HashTable.v ===== *)
(** * Hash tables on the Dart heap (src/runtime/vm/hash_table.h)

    [HashTable], [UnorderedHashTable], [HashTables], [HashMap] and [HashSet]
    in the PRODUCT build, whose arrays carry no statistics. The table is the
    contents of its backing array: the numbers of occupied and of deleted
    entries, the metadata, and the entries, each a key with its payload.
    Probing is by triangle numbers. Handles are left out, since they hold
    only what the code reads back at once; [None] is a read or write outside the
    array, an overflow of the probe distance, or a search that does not end.
    The key traits are a class with laws. *)
From stdpp Require Import base list sorting.
From S2P Require Import Prelude Utils.
Local Open Scope Z_scope.
Local Open Scope vm_scope.

(** ** Objects and traits *)
Inductive HeapValue :=
  | sentinel
  | transition_sentinel
  | null_object
  | SmiObject (value : Z)
  | HeapObject (address : Z).
#[export] Instance HeapValue_eq_dec : EqDecision HeapValue.
Proof. solve_decision. Defined.

(** What [KeyTraits] defines for keys of a type. *)
Class KeyTraits (Key : Type) := { Traits_Hash : Key -> Z; Traits_IsMatch : Key -> HeapValue -> bool }.

(** ** HashTable *)
Definition kOccupiedEntriesIndex : Z := 0.
Definition kDeletedEntriesIndex : Z := 1.
Definition kHeaderSize : Z := kDeletedEntriesIndex + 1.

Section HashTable.
(** The template's parameters. *)
Context (kPayloadSize kMetaDataSize : nat).
Implicit Types data : list HeapValue.

Definition kFirstKeyIndex : Z := kHeaderSize + Z.of_nat kMetaDataSize.
Definition kEntrySize : Z := 1 + Z.of_nat kPayloadSize.
Definition KeyIndex (entry : Z) : Z := kFirstKeyIndex + kEntrySize * entry.
Definition PayloadIndex (entry component : Z) : Z := KeyIndex entry + 1 + component.
Definition InternalGetKey data (entry : Z) : option HeapValue := arr_get data (KeyIndex entry).
Definition InternalSetKey data (entry : Z) (key : HeapValue) : option (list HeapValue) := arr_set data (KeyIndex entry) key.

Definition GetSmiValueAt data (index : Z) : option Z :=
  v ← arr_get data index; match v with SmiObject value => Some value | _ => None end.
Definition SetSmiValueAt data (index value : Z) : option (list HeapValue) := arr_set data index (SmiObject value).
Definition AdjustSmiValueAt data (index delta : Z) : option (list HeapValue) :=
  v ← GetSmiValueAt data index; SetSmiValueAt data index (v + delta).

Definition NumEntries data : Z := Z.quot (zlen data - kFirstKeyIndex) kEntrySize.
Definition NumOccupied data : option Z := GetSmiValueAt data kOccupiedEntriesIndex.
Definition NumDeleted data : option Z := GetSmiValueAt data kDeletedEntriesIndex.
Definition NumUnused data : option Z :=
  occupied ← NumOccupied data; deleted ← NumDeleted data; Some (NumEntries data - occupied - deleted).

Definition IsUnused data (entry : Z) : option bool := k ← InternalGetKey data entry; Some (bool_decide (k = sentinel)).
Definition IsDeleted data (entry : Z) : option bool := k ← InternalGetKey data entry; Some (bool_decide (k = transition_sentinel)).
Definition IsOccupied data (entry : Z) : option bool :=
  unused ← IsUnused data entry; deleted ← IsDeleted data entry; Some (negb unused && negb deleted).
Definition GetKey data (entry : Z) : option HeapValue := InternalGetKey data entry.
Definition GetPayload data (entry component : Z) : option HeapValue := arr_get data (PayloadIndex entry component).
Definition UpdatePayload data (entry component : Z) (value : HeapValue) : option (list HeapValue) :=
  arr_set data (PayloadIndex entry component) value.

Definition ArrayLengthForNumOccupied (num_occupied : Z) : Z :=
  let num_entries := RoundUpToPowerOfTwo (num_occupied + 1) in
  kFirstKeyIndex + kEntrySize * num_entries.

Fixpoint fill_sentinel (n : nat) data (i : Z) : option (list HeapValue) :=
  match n with
  | O => Some data
  | S n => data ← arr_set data i sentinel; fill_sentinel n data (i + 1)
  end.
Definition Table_Initialize data : option (list HeapValue) :=
  data ← SetSmiValueAt data kOccupiedEntriesIndex 0;
  data ← SetSmiValueAt data kDeletedEntriesIndex 0;
  fill_sentinel (Z.to_nat (zlen data - kHeaderSize)) data kHeaderSize.

(** [probe_distance] is an [int]. *)
Definition next_distance (probe_distance : Z) : option Z :=
  if probe_distance =? kMaxInt32 then None else Some (probe_distance + 1).

Section Search.
Context {Key : Type} `{KeyTraits Key}.

Fixpoint FindKey_loop (fuel : nat) data (num_entries : Z) (key : Key) (probe probe_distance : Z) : option Z :=
  match fuel with
  | O => None
  | S fuel =>
      let advance :=
        next ← next_distance probe_distance;
        FindKey_loop fuel data num_entries key ((probe + probe_distance) &&& (num_entries - 1)) next in
      unused ← IsUnused data probe;
      if (unused : bool) then Some (-1)
      else
        deleted ← IsDeleted data probe;
        if negb deleted then
          k ← GetKey data probe;
          if Traits_IsMatch key k then Some probe else advance
        else advance
  end.
Definition FindKey data (key : Key) : option Z :=
  let num_entries := NumEntries data in
  FindKey_loop (S (Z.to_nat num_entries)) data num_entries key (Traits_Hash key &&& (num_entries - 1)) 1.
Definition ContainsKey data (key : Key) : option bool := entry ← FindKey data key; Some (negb (entry =? -1)).

(** Whether the key is present, and the entry. *)
Fixpoint FindKeyOrDeletedOrUnused_loop (fuel : nat) data (num_entries : Z) (key : Key) (probe probe_distance deleted : Z)
    : option (bool * Z) :=
  match fuel with
  | O => None
  | S fuel =>
      let advance deleted :=
        next ← next_distance probe_distance;
        FindKeyOrDeletedOrUnused_loop fuel data num_entries key ((probe + probe_distance) &&& (num_entries - 1)) next deleted in
      unused ← IsUnused data probe;
      if (unused : bool) then Some (false, if negb (deleted =? -1) then deleted else probe)
      else
        is_deleted ← IsDeleted data probe;
        if (is_deleted : bool) then advance (if deleted =? -1 then probe else deleted)
        else
          k ← GetKey data probe;
          if Traits_IsMatch key k then Some (true, probe) else advance deleted
  end.
Definition FindKeyOrDeletedOrUnused data (key : Key) : option (bool * Z) :=
  let num_entries := NumEntries data in
  FindKeyOrDeletedOrUnused_loop (S (Z.to_nat num_entries)) data num_entries key (Traits_Hash key &&& (num_entries - 1)) 1 (-1).
End Search.

Definition InsertKey data (entry : Z) (key : HeapValue) : option (list HeapValue) :=
  data ← AdjustSmiValueAt data kOccupiedEntriesIndex 1;
  deleted ← IsDeleted data entry;
  data ← (if (deleted : bool) then AdjustSmiValueAt data kDeletedEntriesIndex (-1) else Some data);
  InternalSetKey data entry key.

Fixpoint delete_payload (n : nat) data (entry i : Z) : option (list HeapValue) :=
  match n with
  | O => Some data
  | S n => data ← UpdatePayload data entry i transition_sentinel; delete_payload n data entry (i + 1)
  end.
Definition DeleteEntry data (entry : Z) : option (list HeapValue) :=
  data ← delete_payload kPayloadSize data entry 0;
  data ← InternalSetKey data entry transition_sentinel;
  data ← AdjustSmiValueAt data kOccupiedEntriesIndex (-1);
  AdjustSmiValueAt data kDeletedEntriesIndex 1.

(** ** Iteration: the entries after [entry], and the entry reached *)
Fixpoint Table_MoveNext_loop (fuel : nat) data (entry : Z) : option (bool * Z) :=
  if entry <? NumEntries data - 1 then
    match fuel with
    | O => None
    | S fuel =>
        let entry := entry + 1 in
        occupied ← IsOccupied data entry;
        if (occupied : bool) then Some (true, entry) else Table_MoveNext_loop fuel data entry
    end
  else Some (false, entry).
Definition Table_MoveNext data (entry : Z) : option (bool * Z) := Table_MoveNext_loop (Z.to_nat (NumEntries data)) data entry.

(** ** HashTables *)
(** [Array::New] fills the array with null. *)
Definition HashTables_New (initial_capacity : Z) : option (list HeapValue) :=
  Table_Initialize (replicate (Z.to_nat (ArrayLengthForNumOccupied initial_capacity)) null_object).

Fixpoint copy_payload (n : nat) (from to : list HeapValue) (from_entry to_entry i : Z) : option (list HeapValue) :=
  match n with
  | O => Some to
  | S n =>
      obj ← GetPayload from from_entry i;
      to ← UpdatePayload to to_entry i obj;
      copy_payload n from to from_entry to_entry (i + 1)
  end.
Context `{KeyTraits HeapValue}.
Fixpoint Copy_loop (fuel : nat) (from to : list HeapValue) (it : Z) : option (list HeapValue) :=
  '(more, from_entry) ← Table_MoveNext from it;
  if (more : bool) then
    match fuel with
    | O => None
    | S fuel =>
        obj ← GetKey from from_entry;
        '(_, to_entry) ← FindKeyOrDeletedOrUnused to obj;
        to ← InsertKey to to_entry obj;
        to ← copy_payload kPayloadSize from to from_entry to_entry 0;
        Copy_loop fuel from to from_entry
    end
  else Some to.
Definition HashTables_Copy (from to : list HeapValue) : option (list HeapValue) :=
  to ← Table_Initialize to;
  Copy_loop (Z.to_nat (NumEntries from)) from to (-1).

(** The double nearest to 0.71 is [kMaxLoadFactor / 2^50]; the division by
    the number of entries, a power of two, is exact, so the comparison of
    doubles is that of the products. *)
Definition kMaxLoadFactor : Z := 799388933858263.
Definition below_load_factor (high used num_entries : Z) : bool := used * 2 ^ 50 <? high * num_entries.
Definition EnsureLoadFactor (high : Z) data : option (list HeapValue) :=
  occupied ← NumOccupied data;
  deleted ← NumDeleted data;
  let too_many_deleted := occupied <=? deleted in
  if below_load_factor high (1 + occupied + deleted) (NumEntries data) && negb too_many_deleted then Some data
  else
    let new_capacity := occupied * 2 + 1 in
    new_table ← HashTables_New new_capacity;
    HashTables_Copy data new_table.
Definition EnsureCapacity data : option (list HeapValue) := EnsureLoadFactor kMaxLoadFactor data.

Fixpoint append_payload (n : nat) data (entry i : Z) (result : list HeapValue) (result_index : Z) : option (list HeapValue * Z) :=
  match n with
  | O => Some (result, result_index)
  | S n =>
      obj ← GetPayload data entry i;
      result ← arr_set result result_index obj;
      append_payload n data entry (i + 1) result (result_index + 1)
  end.
Fixpoint ToArray_loop (fuel : nat) data (include_payload : bool) (it : Z) (result : list HeapValue) (result_index : Z)
    : option (list HeapValue) :=
  '(more, entry) ← Table_MoveNext data it;
  if (more : bool) then
    match fuel with
    | O => None
    | S fuel =>
        obj ← GetKey data entry;
        result ← arr_set result result_index obj;
        '(result, result_index) ← (if include_payload then append_payload kPayloadSize data entry 0 result (result_index + 1)
                                   else Some (result, result_index + 1));
        ToArray_loop fuel data include_payload entry result result_index
    end
  else Some result.
Definition HashTables_ToArray data (include_payload : bool) : option (list HeapValue) :=
  let entry_size := if include_payload then 1 + Z.of_nat kPayloadSize else 1 in
  occupied ← NumOccupied data;
  ToArray_loop (Z.to_nat (NumEntries data)) data include_payload (-1) (replicate (Z.to_nat (occupied * entry_size)) null_object) 0.

(** ** HashMap *)
Section HashMap.
Context {Key : Type} `{KeyTraits Key}.
(** The value, and whether the key is present. *)
Definition HashMap_GetOrNull data (key : Key) : option (HeapValue * bool) :=
  entry ← FindKey data key;
  v ← (if entry =? -1 then Some null_object else GetPayload data entry 0);
  Some (v, negb (entry =? -1)).
(** [UNREACHABLE] is [None]. *)
Definition HashMap_GetOrDie data (key : Key) : option HeapValue :=
  entry ← FindKey data key;
  if entry =? -1 then None else GetPayload data entry 0.
Definition HashMap_UpdateValue data (key : Key) (value : HeapValue) : option (list HeapValue) :=
  entry ← FindKey data key;
  UpdatePayload data entry 0 value.
Definition HashMap_InsertNewOrGetValue (NewKey : Key -> HeapValue) data (key : Key) (value_if_absent : HeapValue)
    : option (HeapValue * list HeapValue) :=
  data ← EnsureCapacity data;
  '(present, entry) ← FindKeyOrDeletedOrUnused data key;
  if negb present then
    data ← InsertKey data entry (NewKey key);
    data ← UpdatePayload data entry 0 value_if_absent;
    Some (value_if_absent, data)
  else v ← GetPayload data entry 0; Some (v, data).
Definition Table_Remove data (key : Key) : option (bool * list HeapValue) :=
  entry ← FindKey data key;
  if entry =? -1 then Some (false, data)
  else data ← DeleteEntry data entry; Some (true, data).
End HashMap.

Definition HashMap_UpdateOrInsert data (key value : HeapValue) : option (bool * list HeapValue) :=
  data ← EnsureCapacity data;
  '(present, entry) ← FindKeyOrDeletedOrUnused data key;
  data ← (if negb present then InsertKey data entry key else Some data);
  data ← UpdatePayload data entry 0 value;
  Some (present, data).
Definition HashMap_InsertOrGetValue data (key value_if_absent : HeapValue) : option (HeapValue * list HeapValue) :=
  HashMap_InsertNewOrGetValue (fun key => key) data key value_if_absent.
Definition Table_Clear data : option (list HeapValue) := Table_Initialize data.

(** ** HashSet *)
Definition HashSet_Insert data (key : HeapValue) : option (bool * list HeapValue) :=
  data ← EnsureCapacity data;
  '(present, entry) ← FindKeyOrDeletedOrUnused data key;
  data ← (if negb present then InsertKey data entry key else Some data);
  Some (present, data).
Section HashSet.
Context {Key : Type} `{KeyTraits Key}.
Definition HashSet_InsertNewOrGet (NewKey : Key -> HeapValue) data (key : Key) : option (HeapValue * list HeapValue) :=
  data ← EnsureCapacity data;
  '(present, entry) ← FindKeyOrDeletedOrUnused data key;
  if negb present then
    data ← InsertKey data entry (NewKey key); Some (NewKey key, data)
  else k ← GetKey data entry; Some (k, data).
Definition HashSet_GetOrNull data (key : Key) : option (HeapValue * bool) :=
  entry ← FindKey data key;
  k ← (if entry =? -1 then Some null_object else GetKey data entry);
  Some (k, negb (entry =? -1)).
End HashSet.
Definition HashSet_InsertOrGet data (key : HeapValue) : option (HeapValue * list HeapValue) :=
  HashSet_InsertNewOrGet (fun key => key) data key.
End HashTable.

(** ** The array as slots *)
Abbreviation slot := (HeapValue * list HeapValue)%type.
Definition flat (s : slot) : list HeapValue := s.1 :: s.2.
Definition layout (occupied deleted : Z) (meta : list HeapValue) (slots : list slot) : list HeapValue :=
  SmiObject occupied :: SmiObject deleted :: meta ++ (slots ≫= flat).

Lemma arr_set_middle {A} (pre post : list A) x y i : i = zlen pre -> arr_set (pre ++ x :: post) i y = Some (pre ++ y :: post).
Proof.
  intros ->. unfold arr_set, zlen. rewrite length_app. cbn [length].
  rewrite (proj2 (Z.leb_le _ _)), (proj2 (Z.ltb_lt _ _)) by lia. cbn. rewrite Nat2Z.id. f_equal.
  replace (length pre) with (length pre + 0)%nat by lia. by rewrite insert_app_r.
Qed.
Lemma arr_get_middle {A} (pre post : list A) x i : i = zlen pre -> arr_get (pre ++ x :: post) i = Some x.
Proof. intros ->. replace (zlen pre) with (zlen pre + 0) by lia. by rewrite arr_get_app_r by lia. Qed.

Lemma flat_length kPayloadSize slots : Forall (fun s : slot => length s.2 = kPayloadSize) slots ->
  Z.of_nat (length (slots ≫= flat)) = kEntrySize kPayloadSize * zlen slots.
Proof. unfold zlen, kEntrySize. induction 1 as [|s slots Hs _ IH]; cbn; [lia|]. rewrite length_app. lia. Qed.

Section Layout.
Context (kPayloadSize kMetaDataSize : nat) (occupied deleted : Z) (meta : list HeapValue).
Context (Hmeta : length meta = kMetaDataSize).
Abbreviation sized slots := (Forall (fun s : slot => length s.2 = kPayloadSize) slots).
Abbreviation data := (layout occupied deleted meta).

Lemma layout_length slots : sized slots -> zlen (data slots) = kFirstKeyIndex kMetaDataSize + kEntrySize kPayloadSize * zlen slots.
Proof using Hmeta.
  intros Hs. rewrite <- flat_length by done. unfold zlen, layout, kFirstKeyIndex, kHeaderSize, kDeletedEntriesIndex. cbn [length]. rewrite length_app. lia.
Qed.
Lemma layout_NumEntries slots : sized slots -> NumEntries kPayloadSize kMetaDataSize (data slots) = zlen slots.
Proof using Hmeta.
  intros Hs. unfold NumEntries. rewrite layout_length by done. replace (_ - _) with (zlen slots * kEntrySize kPayloadSize) by lia.
  apply Z.quot_mul. unfold kEntrySize. lia.
Qed.
(** The array around a slot. *)
Lemma layout_middle l1 l2 : sized l1 -> exists pre, zlen pre = KeyIndex kPayloadSize kMetaDataSize (zlen l1) /\
  forall s', data (l1 ++ s' :: l2) = pre ++ s'.1 :: s'.2 ++ (l2 ≫= flat).
Proof using Hmeta.
  intros Hs. exists (data l1). split; [by rewrite layout_length|]. intros s'. unfold layout. rewrite bind_app. cbn. by rewrite <- app_assoc.
Qed.

Lemma layout_GetKey l1 s l2 : sized l1 -> InternalGetKey kPayloadSize kMetaDataSize (data (l1 ++ s :: l2)) (zlen l1) = Some s.1.
Proof using Hmeta. intros Hs. destruct (layout_middle l1 l2 Hs) as (pre & Hpre & ->). by apply arr_get_middle. Qed.
Lemma layout_SetKey l1 s l2 k : sized l1 ->
  InternalSetKey kPayloadSize kMetaDataSize (data (l1 ++ s :: l2)) (zlen l1) k = Some (data (l1 ++ (k, s.2) :: l2)).
Proof using Hmeta. intros Hs. destruct (layout_middle l1 l2 Hs) as (pre & Hpre & Hl). rewrite !Hl. by apply arr_set_middle. Qed.
Lemma layout_payload_middle l1 k p1 p2 l2 : sized l1 -> exists pre post, zlen pre = PayloadIndex kPayloadSize kMetaDataSize (zlen l1) (zlen p1) /\
  forall y, data (l1 ++ (k, p1 ++ y :: p2) :: l2) = pre ++ y :: post.
Proof using Hmeta.
  intros Hs. destruct (layout_middle l1 l2 Hs) as (pre & Hpre & Hl). exists (pre ++ k :: p1), (p2 ++ (l2 ≫= flat)). split.
  - rewrite zlen_app, Hpre. unfold PayloadIndex, zlen. cbn [length]. lia.
  - intros y. rewrite Hl. cbn. by rewrite <- !app_assoc.
Qed.
Lemma layout_GetPayload l1 k p1 x p2 l2 : sized l1 ->
  GetPayload kPayloadSize kMetaDataSize (data (l1 ++ (k, p1 ++ x :: p2) :: l2)) (zlen l1) (zlen p1) = Some x.
Proof using Hmeta. intros Hs. destruct (layout_payload_middle l1 k p1 p2 l2 Hs) as (pre & post & Hpre & ->). by apply arr_get_middle. Qed.
Lemma layout_UpdatePayload l1 k p1 x p2 l2 y : sized l1 ->
  UpdatePayload kPayloadSize kMetaDataSize (data (l1 ++ (k, p1 ++ x :: p2) :: l2)) (zlen l1) (zlen p1) y =
  Some (data (l1 ++ (k, p1 ++ y :: p2) :: l2)).
Proof using Hmeta. intros Hs. destruct (layout_payload_middle l1 k p1 p2 l2 Hs) as (pre & post & Hpre & Hl). rewrite !Hl. by apply arr_set_middle. Qed.
End Layout.

Lemma layout_NumOccupied o d meta slots : NumOccupied (layout o d meta slots) = Some o.
Proof. done. Qed.
Lemma layout_NumDeleted o d meta slots : NumDeleted (layout o d meta slots) = Some d.
Proof. done. Qed.
Lemma arr_set_cons {A} (x y : A) l : arr_set (x :: l) 0 y = Some (y :: l).
Proof. by apply (arr_set_middle [] l x y 0). Qed.
Lemma layout_AdjustOccupied o d meta slots n : AdjustSmiValueAt (layout o d meta slots) kOccupiedEntriesIndex n = Some (layout (o + n) d meta slots).
Proof. apply (arr_set_cons (SmiObject o)). Qed.
Lemma layout_AdjustDeleted o d meta slots n : AdjustSmiValueAt (layout o d meta slots) kDeletedEntriesIndex n = Some (layout o (d + n) meta slots).
Proof. by apply (arr_set_middle [SmiObject o] _ (SmiObject d)). Qed.

Lemma fill_sentinel_spec n pre rest : length rest = n -> fill_sentinel n (pre ++ rest) (zlen pre) = Some (pre ++ replicate n sentinel).
Proof.
  revert pre rest. induction n as [|n IH]; intros pre rest Hl; [by destruct rest|].
  destruct rest as [|x rest]; [done|]. cbn. rewrite arr_set_middle by done. cbn.
  specialize (IH (pre ++ [sentinel]) rest). rewrite zlen_app in IH. rewrite <- !app_assoc in IH. cbn in IH. apply IH. cbn in Hl. lia.
Qed.

(** ** Probing by triangle numbers *)
Fixpoint triangle (i : nat) : Z := match i with O => 0 | S i => triangle i + Z.of_nat (S i) end.
Lemma triangle_double i : 2 * triangle i = Z.of_nat i * (Z.of_nat i + 1).
Proof. induction i as [|i IH]; [done|]. cbn [triangle]. lia. Qed.
(** The entry looked at in step [i]. *)
Definition probe_at (h n : Z) (i : nat) : nat := Z.to_nat ((h + triangle i) mod n).

Lemma odd_pow2_divide k a b : 0 <= k -> Z.odd a = true -> (2 ^ k | a * b) -> (2 ^ k | b).
Proof.
  intros Hk Ha. revert b. pattern k. apply natlike_ind; [|clear k Hk; intros k Hk IH b [c Hc]|done]; [intros b _; apply Z.divide_1_l|].
  rewrite Z.pow_succ_r in * by done. assert (Hb : Z.even b = true).
  { rewrite <- Z.negb_odd in *. apply (f_equal Z.odd) in Hc. rewrite !Z.odd_mul, Ha in Hc. cbn in Hc. rewrite Hc. by rewrite andb_false_r. }
  apply Z.even_spec in Hb as [b' ->]. apply Z.mul_divide_mono_l. apply IH. exists c. lia.
Qed.
Lemma triangle_injective k i j : 0 <= k -> Z.of_nat i < 2 ^ k -> Z.of_nat j < 2 ^ k -> (2 ^ k | triangle i - triangle j) -> i = j.
Proof.
  intros Hk Hi Hj [c Hc]. pose proof (triangle_double i) as Ti. pose proof (triangle_double j) as Tj.
  set (a := Z.of_nat i - Z.of_nat j). set (b := Z.of_nat i + Z.of_nat j + 1).
  assert (Hab : (2 ^ (k + 1) | a * b)) by (exists c; rewrite Z.pow_add_r by lia; subst a b; lia).
  assert (Hodd : Z.odd a = true \/ Z.odd b = true).
  { subst a b. rewrite Z.odd_sub, !Z.odd_add. destruct (Z.odd (Z.of_nat i)), (Z.odd (Z.of_nat j)); cbn; tauto. }
  rewrite Z.pow_add_r in Hab by lia. change (2 ^ 1) with 2 in Hab. replace (2 ^ k * 2) with (2 ^ (k + 1)) in Hab by (rewrite Z.pow_add_r; lia).
  assert (Hp : 2 ^ (k + 1) = 2 * 2 ^ k) by (rewrite Z.pow_add_r; lia). destruct Hodd as [Hodd|Hodd].
  - apply odd_pow2_divide in Hab; [|lia|done]. apply Z.divide_pos_le in Hab; subst b; lia.
  - rewrite Z.mul_comm in Hab. apply odd_pow2_divide in Hab; [|lia|done]. destruct (decide (a = 0)); [subst a; lia|].
    apply Z.divide_abs_r, Z.divide_pos_le in Hab; subst a; lia.
Qed.

Section Probe.
Context (h k : Z) (Hk : 0 <= k).
Lemma probe_lt i : (probe_at h (2 ^ k) i < Z.to_nat (2 ^ k))%nat.
Proof using Hk. unfold probe_at. pose proof (Z.mod_pos_bound (h + triangle i) (2 ^ k)). lia. Qed.
Lemma probe_injective i j : Z.of_nat i < 2 ^ k -> Z.of_nat j < 2 ^ k -> probe_at h (2 ^ k) i = probe_at h (2 ^ k) j -> i = j.
Proof using Hk.
  intros Hi Hj Heq. apply (triangle_injective k); [done..|]. unfold probe_at in Heq. assert (Hp : 0 < 2 ^ k) by lia.
  pose proof (Z.mod_pos_bound (h + triangle i) _ Hp). pose proof (Z.mod_pos_bound (h + triangle j) _ Hp).
  apply Z.mod_divide; [lia|]. replace (triangle i - triangle j) with ((h + triangle i) - (h + triangle j)) by lia.
  rewrite Zminus_mod. by replace ((h + triangle j) mod 2 ^ k) with ((h + triangle i) mod 2 ^ k) by lia; rewrite Z.sub_diag.
Qed.
(** Every entry is visited within as many steps as there are entries. *)
Lemma probe_covers e : Z.of_nat e < 2 ^ k -> exists i, Z.of_nat i < 2 ^ k /\ probe_at h (2 ^ k) i = e.
Proof using Hk.
  intros He. set (n := Z.to_nat (2 ^ k)). set (visited := probe_at h (2 ^ k) <$> seq 0 n).
  assert (Hnd : NoDup visited).
  { apply NoDup_fmap_2_strong; [|apply NoDup_seq]. intros i j Hi Hj. apply elem_of_seq in Hi, Hj. apply probe_injective; subst n; lia. }
  assert (Hperm : visited ≡ₚ seq 0 n).
  { apply submseteq_length_Permutation; [|subst visited; by rewrite length_fmap].
    apply NoDup_submseteq; [done|]. intros x (i & -> & _)%list_elem_of_fmap. apply elem_of_seq. pose proof (probe_lt i). subst n. lia. }
  assert (Hin : e ∈ visited) by (rewrite Hperm; apply elem_of_seq; subst n; lia).
  apply list_elem_of_fmap in Hin as (i & -> & Hi%elem_of_seq). exists i. split; [subst n; lia|done].
Qed.
Lemma probe_next i : Z.of_nat (probe_at h (2 ^ k) (S i)) = (Z.of_nat (probe_at h (2 ^ k) i) + Z.of_nat (S i)) &&& (2 ^ k - 1).
Proof using Hk.
  rewrite land_low by done. unfold probe_at. cbn [triangle]. assert (Hp : 0 < 2 ^ k) by lia.
  rewrite !Z2Nat.id by (apply Z.mod_pos_bound; lia). rewrite Zplus_mod_idemp_l. f_equal. lia.
Qed.
Lemma probe_first : Z.of_nat (probe_at h (2 ^ k) 0) = h &&& (2 ^ k - 1).
Proof using Hk. rewrite land_low by done. unfold probe_at. cbn [triangle]. rewrite Z.add_0_r. rewrite Z2Nat.id; [done|]. apply Z.mod_pos_bound. lia. Qed.
End Probe.

(** ** The invariant *)
(** A key is any object but the two sentinels. *)
Definition is_key (v : HeapValue) : bool := negb (bool_decide (v = sentinel)) && negb (bool_decide (v = transition_sentinel)).
Lemma is_key_cases v : v = sentinel \/ v = transition_sentinel \/ is_key v = true.
Proof. destruct v; tauto. Qed.
Definition entries (slots : list slot) : list slot := filter (fun s => is_key s.1 = true) slots.
Definition deleted_slots (slots : list slot) : list slot := filter (fun s => s.1 = transition_sentinel) slots.

(** What the tables rely on: the objects that match a key are one class of
    an equivalence that respects the hash. *)
Class TraitsLaws {Key} (kt : KeyTraits Key) (ot : KeyTraits HeapValue) : Prop := {
  match_hash (key : Key) (o : HeapValue) : Traits_IsMatch key o = true -> Traits_Hash key = Traits_Hash o;
  match_class (key : Key) (o o' : HeapValue) : Traits_IsMatch key o = true -> Traits_IsMatch key o' = Traits_IsMatch o o' }.
Class ObjectLaws (ot : KeyTraits HeapValue) : Prop := {
  object_traits :: TraitsLaws ot ot;
  match_refl o : Traits_IsMatch o o = true }.

Section Invariant.
Context (kPayloadSize kMetaDataSize : nat) (ot : KeyTraits HeapValue).
Implicit Types slots : list slot.

Definition not_unused slots (e : nat) : Prop := exists s, slots !! e = Some s /\ s.1 <> sentinel.
(** The entry [e] is where a search for the hash arrives before any unused
    entry. *)
Definition arrives slots (h : Z) (e : nat) : Prop := exists i, Z.of_nat i < zlen slots /\ probe_at h (zlen slots) i = e /\
  forall j, (j < i)%nat -> not_unused slots (probe_at h (zlen slots) j).
Record wf_slots slots : Prop := {
  w_size : exists k, 0 <= k <= 30 /\ zlen slots = 2 ^ k;
  w_reaches e s : slots !! e = Some s -> is_key s.1 = true -> arrives slots (Traits_Hash s.1) e;
  w_distinct e e' s s' : slots !! e = Some s -> slots !! e' = Some s' -> is_key s.1 = true -> is_key s'.1 = true ->
    Traits_IsMatch s.1 s'.1 = true -> e = e' }.
(** Some entry is unused. *)
Definition room slots : Prop := (length (entries slots) + length (deleted_slots slots) < length slots)%nat.
Definition sized slots : Prop := Forall (fun s : slot => length s.2 = kPayloadSize) slots.

(** The array holds the slots. *)
Definition holds_slots (data : list HeapValue) slots : Prop := exists meta, length meta = kMetaDataSize /\ sized slots /\
  data = layout (zlen (entries slots)) (zlen (deleted_slots slots)) meta slots.

Section Holds.
Context (data : list HeapValue) (slots : list slot) (Hd : holds_slots data slots).
Lemma holds_NumEntries : NumEntries kPayloadSize kMetaDataSize data = zlen slots.
Proof using Hd. destruct Hd as (meta & Hm & Hs & ->). by apply layout_NumEntries. Qed.
Lemma holds_GetKey e s : slots !! e = Some s -> InternalGetKey kPayloadSize kMetaDataSize data (Z.of_nat e) = Some s.1.
Proof using Hd.
  intros He. destruct Hd as (meta & Hm & Hs & ->). apply list_elem_of_split_length in He as (l1 & l2 & -> & ->).
  apply Forall_app in Hs as [Hs _]. by apply layout_GetKey.
Qed.
Lemma holds_IsUnused e s : slots !! e = Some s -> IsUnused kPayloadSize kMetaDataSize data (Z.of_nat e) = Some (bool_decide (s.1 = sentinel)).
Proof using Hd. intros He. unfold IsUnused. by rewrite (holds_GetKey e s He). Qed.
Lemma holds_IsDeleted e s : slots !! e = Some s -> IsDeleted kPayloadSize kMetaDataSize data (Z.of_nat e) = Some (bool_decide (s.1 = transition_sentinel)).
Proof using Hd. intros He. unfold IsDeleted. by rewrite (holds_GetKey e s He). Qed.
Lemma holds_IsOccupied e s : slots !! e = Some s -> IsOccupied kPayloadSize kMetaDataSize data (Z.of_nat e) = Some (is_key s.1).
Proof using Hd. intros He. unfold IsOccupied. by rewrite (holds_IsUnused e s He), (holds_IsDeleted e s He). Qed.
End Holds.

Lemma room_unused slots : room slots -> exists e s, slots !! e = Some s /\ s.1 = sentinel.
Proof using.
  intros Hr. destruct (list_find (fun s : slot => s.1 = sentinel) slots) as [[e s]|] eqn:E.
  - apply list_find_Some in E as (He & Hs & _). by exists e, s.
  - apply list_find_None in E. exfalso. unfold room in Hr. revert Hr. clear - E. induction E as [|[k p] slots Hs _ IH]; [cbn; lia|].
    unfold entries, deleted_slots in *. rewrite !filter_cons. cbn [fst] in *. intros Hr.
    destruct (is_key_cases k) as [?|[->|Hkey]]; [done|..]; apply IH.
    + rewrite decide_False, decide_True in Hr by done. cbn in Hr. lia.
    + rewrite decide_True in Hr by done. case_decide; cbn in Hr; lia.
Qed.

Context {Key : Type} (kt : KeyTraits Key).
(** Entry [e] holds a key that matches. *)
Definition has_match slots (key : Key) (e : nat) : Prop := exists s, slots !! e = Some s /\ is_key s.1 = true /\ Traits_IsMatch key s.1 = true.

Section Search.
Context (data : list HeapValue) (slots : list slot) (key : Key) (k : Z) (Hd : holds_slots data slots).
Context (Hk : 0 <= k <= 30) (Hsize : zlen slots = 2 ^ k) (u : nat) (Hu : Z.of_nat u < 2 ^ k).
Abbreviation at_ i := (probe_at (Traits_Hash key) (2 ^ k) i).
Context (Hunused : exists s, slots !! at_ u = Some s /\ s.1 = sentinel).

Lemma probe_slot i : exists s, slots !! at_ i = Some s.
Proof using Hk Hsize Hu. apply lookup_lt_is_Some. pose proof (probe_lt (Traits_Hash key) k (proj1 Hk) i). unfold zlen in Hsize. lia. Qed.
Lemma advance_distance i : (i < u)%nat -> next_distance (Z.of_nat (S i)) = Some (Z.of_nat (S (S i))).
Proof using Hk Hu.
  intros Hi. unfold next_distance, kMaxInt32. assert (Hp : 2 ^ k <= 2 ^ 30) by (apply Z.pow_le_mono_r; lia).
  destruct (Z.eqb_spec (Z.of_nat (S i)) (2 ^ 31 - 1)); [lia|]. f_equal. lia.
Qed.
Lemma FindKey_loop_agrees fuel n probe distance deleted :
  FindKey_loop kPayloadSize kMetaDataSize fuel data n key probe distance =
  '(present, entry) ← FindKeyOrDeletedOrUnused_loop kPayloadSize kMetaDataSize fuel data n key probe distance deleted;
  Some (if (present : bool) then entry else -1).
Proof using.
  clear. revert probe distance deleted. induction fuel as [|fuel IH]; intros probe distance deleted; [done|]. cbn [FindKey_loop FindKeyOrDeletedOrUnused_loop].
  destruct (IsUnused _ _ data probe) as [[]|]; [done| |done]. cbn [mbind option_bind]. destruct (IsDeleted _ _ data probe) as [[]|]; [| |done]; cbn [mbind option_bind negb].
  - destruct (next_distance distance); [apply IH|done].
  - destruct (GetKey _ _ data probe); [|done]. cbn [mbind option_bind]. destruct (Traits_IsMatch key _); [done|]. destruct (next_distance distance); [apply IH|done].
Qed.

(** What a search that starts at step [i] finds: an entry that matches, or,
    before the unused entry where it ends, an entry to insert at. *)
Definition found (i : nat) (present : bool) (w : nat) : Prop :=
  if present then has_match slots key (at_ w)
  else exists v, (i <= v <= u)%nat /\ (w <= v)%nat /\ (exists s, slots !! at_ v = Some s /\ s.1 = sentinel) /\
    (exists s, slots !! at_ w = Some s /\ is_key s.1 = false) /\
    forall j, (i <= j < v)%nat -> not_unused slots (at_ j) /\ ~ has_match slots key (at_ j).
Lemma found_later i present w : not_unused slots (at_ i) -> ~ has_match slots key (at_ i) -> found (S i) present w -> found i present w.
Proof using.
  intros Hs Hno. destruct present; [done|]. intros (v & Hv & Hw & Hsv & Hsw & Hbefore). exists v. split; [lia|]. do 3 (split; [done|]).
  intros j Hj. destruct (decide (j = i)) as [->|]; [done|apply Hbefore; lia].
Qed.
Definition deleted_seen (i : nat) (deleted : Z) : Prop :=
  deleted = -1 \/ exists w, (w < i)%nat /\ deleted = Z.of_nat (at_ w) /\ exists s, slots !! at_ w = Some s /\ is_key s.1 = false.
Lemma deleted_seen_next i deleted : deleted_seen i deleted -> deleted_seen (S i) deleted.
Proof using u. intros [?|(w & Hw & ?)]; [by left|]. right. exists w. split; [lia|done]. Qed.
Lemma FindKeyOrDeletedOrUnused_loop_spec fuel i deleted : (i <= u)%nat -> (u - i < fuel)%nat -> deleted_seen i deleted ->
  exists present w, FindKeyOrDeletedOrUnused_loop kPayloadSize kMetaDataSize fuel data (2 ^ k) key (Z.of_nat (at_ i)) (Z.of_nat (S i)) deleted =
    Some (present, Z.of_nat (at_ w)) /\ (w <= u)%nat /\ found i present w.
Proof using Hd Hk Hsize Hu Hunused.
  revert i deleted. induction fuel as [|fuel IH]; intros i deleted Hi Hfuel Hdel; [lia|]. cbn [FindKeyOrDeletedOrUnused_loop].
  destruct (probe_slot i) as [s Hs]. rewrite (holds_IsUnused _ _ Hd _ _ Hs). cbn [mbind option_bind]. case_bool_decide as Hun.
  { assert (Hend : forall w, (w <= i)%nat -> (exists s, slots !! at_ w = Some s /\ is_key s.1 = false) -> found i false w).
    { intros w Hw Hsw. exists i. split; [lia|]. split; [done|]. split; [by exists s|]. split; [done|]. intros j Hj. lia. }
    destruct Hdel as [->|(w & Hw & -> & Hsw)].
    - exists false, i. split; [done|]. split; [done|]. apply Hend; [done|]. exists s. split; [done|]. by rewrite Hun.
    - exists false, w. split; [by destruct (Z.eqb_spec (Z.of_nat (at_ w)) (-1)); [lia|]|]. split; [lia|]. apply Hend; [lia|done]. }
  assert (Hlt : (i < u)%nat).
  { destruct (decide (i = u)) as [->|]; [|lia]. destruct Hunused as (s' & Hs' & Hx). congruence. }
  rewrite (advance_distance i Hlt). cbn [mbind option_bind]. rewrite <- probe_next by apply Hk.
  assert (Hskip : forall deleted', deleted_seen (S i) deleted' -> ~ has_match slots key (at_ i) -> exists present w,
    FindKeyOrDeletedOrUnused_loop kPayloadSize kMetaDataSize fuel data (2 ^ k) key (Z.of_nat (at_ (S i))) (Z.of_nat (S (S i))) deleted' =
    Some (present, Z.of_nat (at_ w)) /\ (w <= u)%nat /\ found i present w).
  { intros deleted' Hdel' Hno. destruct (IH (S i) deleted') as (present & w & -> & Hw & Hf); [lia..|done|]. exists present, w. split; [done|]. split; [done|].
    apply found_later; [by exists s|done|done]. }
  rewrite (holds_IsDeleted _ _ Hd _ _ Hs). cbn [mbind option_bind]. case_bool_decide as Hdl; cbn [negb].
  - apply Hskip; [|intros (s' & Hs' & Hkey & _); rewrite Hs in Hs'; injection Hs' as <-; by rewrite Hdl in Hkey].
    destruct (Z.eqb_spec deleted (-1)); [|by apply deleted_seen_next]. right. exists i. split; [lia|]. split; [done|]. exists s. split; [done|]. by rewrite Hdl.
  - unfold GetKey. rewrite (holds_GetKey _ _ Hd _ _ Hs). cbn [mbind option_bind]. destruct (Traits_IsMatch key s.1) eqn:Em.
    + exists true, i. split; [done|]. split; [done|]. exists s. split; [done|]. split; [|done]. unfold is_key. by rewrite !bool_decide_eq_false_2.
    + apply Hskip; [by apply deleted_seen_next|]. intros (s' & Hs' & _ & Hm). congruence.
Qed.
End Search.
End Invariant.

(** ** Searching *)
Lemma lookup_split {A} (l : list A) e x : l !! e = Some x -> exists l1 l2, l = l1 ++ x :: l2 /\ length l1 = e /\ forall y, <[e := y]> l = l1 ++ y :: l2.
Proof.
  intros He. apply list_elem_of_split_length in He as (l1 & l2 & -> & ->). exists l1, l2. split; [done|]. split; [done|]. intros y.
  replace (length l1) with (length l1 + 0)%nat by lia. by rewrite insert_app_r.
Qed.

Section Operations.
Context (kPayloadSize kMetaDataSize : nat) (ot : KeyTraits HeapValue) `{!ObjectLaws ot}.
Implicit Types (slots : list slot) (data meta : list HeapValue).
Abbreviation holds_slots := (holds_slots kPayloadSize kMetaDataSize).
Abbreviation wf_slots := (wf_slots ot).

Lemma match_sym o o' : Traits_IsMatch o o' = true -> Traits_IsMatch o' o = true.
Proof using All. intros Hm. by rewrite <- (match_class o o' o Hm), match_refl. Qed.

Lemma search_spec {Key} (kt : KeyTraits Key) `{!TraitsLaws kt ot} data slots (key : Key) : holds_slots data slots -> wf_slots slots -> room slots ->
  exists present e, FindKeyOrDeletedOrUnused kPayloadSize kMetaDataSize data key = Some (present, Z.of_nat e) /\
    FindKey kPayloadSize kMetaDataSize data key = Some (if present : bool then Z.of_nat e else -1) /\
    if present then has_match kt slots key e
    else (exists s, slots !! e = Some s /\ is_key s.1 = false) /\ arrives slots (Traits_Hash key) e /\ forall e', ~ has_match kt slots key e'.
Proof using.
  intros Hd Hwf Hroom. destruct (w_size _ _ Hwf) as (k & Hk & Hsize). destruct (room_unused _ Hroom) as (e & s & He & Hun).
  destruct (probe_covers (Traits_Hash key) k (proj1 Hk) e) as (u & Hu & Hprobe); [apply lookup_lt_Some in He; unfold zlen in Hsize; lia|].
  destruct (FindKeyOrDeletedOrUnused_loop_spec kPayloadSize kMetaDataSize kt data slots key k Hd Hk Hsize u Hu) with (fuel := S (Z.to_nat (2 ^ k))) (i := O) (deleted := -1)
    as (present & w & Hloop & Hw & Hf); [exists s; by rewrite Hprobe|lia|lia|by left|].
  assert (Hfind : FindKeyOrDeletedOrUnused kPayloadSize kMetaDataSize data key = Some (present, Z.of_nat (probe_at (Traits_Hash key) (2 ^ k) w))).
  { unfold FindKeyOrDeletedOrUnused. rewrite (holds_NumEntries _ _ _ _ Hd), Hsize. rewrite <- probe_first by lia. exact Hloop. }
  exists present, (probe_at (Traits_Hash key) (2 ^ k) w). split; [done|]. split.
  { unfold FindKey. rewrite (FindKey_loop_agrees _ _ kt data key _ _ _ _ (-1)). unfold FindKeyOrDeletedOrUnused in Hfind. by rewrite Hfind. }
  destruct present; [done|]. destruct Hf as (v & Hv & Hwv & (sv & Hsv & Hsentinel) & Hsw & Hbefore). split; [done|]. rewrite <- Hsize in *. split.
  - exists w. split; [lia|]. split; [done|]. intros j Hj. apply Hbefore. lia.
  - intros e' (s' & He' & Hkey & Hm). destruct (w_reaches _ _ Hwf _ _ He' Hkey) as (i & Hi & Hpi & Hpath). rewrite <- (match_hash (kt := kt) (ot := ot) _ _ Hm) in Hpi, Hpath.
    destruct (decide (i < v)%nat) as [Hlt|]; [destruct (Hbefore i) as [_ []]; [lia|]; rewrite Hpi; by exists s'|].
    assert (Hne : not_unused slots (probe_at (Traits_Hash key) (zlen slots) v) -> False) by (intros (x & Hx & Hxs); congruence).
    destruct (decide (i = v)) as [->|]; [|apply Hne, Hpath; lia]. apply Hne. rewrite Hpi. exists s'. split; [done|]. intros Hx. by rewrite Hx in Hkey.
Qed.

(** ** Updating a slot *)
Lemma not_unused_update slots e e' s : s.1 <> sentinel -> not_unused slots e' -> not_unused (<[e := s]> slots) e'.
Proof using.
  intros Hs (s' & He' & Hs'). destruct (decide (e = e')) as [->|]; [|exists s'; by rewrite list_lookup_insert_ne].
  exists s. split; [|done]. apply list_lookup_insert_eq. by eapply lookup_lt_Some.
Qed.
Lemma reaches_update slots h e e' s : s.1 <> sentinel -> arrives slots h e' -> arrives (<[e := s]> slots) h e'.
Proof using.
  intros Hs (i & Hi & Hp & Hb). unfold arrives, zlen in *. rewrite length_insert. exists i. split; [done|]. split; [done|].
  intros j Hj. by apply not_unused_update; [|apply Hb].
Qed.
Lemma wf_update slots e s s' : wf_slots slots -> slots !! e = Some s -> s'.1 <> sentinel ->
  (is_key s'.1 = true -> arrives slots (Traits_Hash s'.1) e /\ forall e1 s1, e1 <> e -> slots !! e1 = Some s1 -> is_key s1.1 = true -> Traits_IsMatch s'.1 s1.1 = false) ->
  wf_slots (<[e := s']> slots).
Proof using All.
  intros Hwf He Hs' Hnew. assert (Hlt : (e < length slots)%nat) by by eapply lookup_lt_Some.
  assert (Hlook : forall e1 s1, <[e := s']> slots !! e1 = Some s1 -> (e1 = e /\ s1 = s') \/ (e1 <> e /\ slots !! e1 = Some s1)).
  { intros e1 s1 H1. destruct (decide (e1 = e)) as [->|]; [rewrite list_lookup_insert_eq in H1 by done; left; by simplify_eq|].
    rewrite list_lookup_insert_ne in H1 by done. by right. }
  split.
  - destruct (w_size _ _ Hwf) as (k & Hk & Hsize). exists k. split; [done|]. unfold zlen. by rewrite length_insert.
  - intros e1 s1 H1 Hkey. apply reaches_update; [done|]. destruct (Hlook _ _ H1) as [[-> ->]|[_ H2]]; [by apply Hnew|by apply (w_reaches _ _ Hwf)].
  - intros e1 e2 s1 s2 H1 H2 K1 K2 Hm. destruct (Hlook _ _ H1) as [[-> ->]|[N1 L1]], (Hlook _ _ H2) as [[-> ->]|[N2 L2]]; [done|..].
    + destruct (Hnew K1) as [_ Hno]. rewrite (Hno _ _ N2 L2 K2) in Hm. done.
    + destruct (Hnew K2) as [_ Hno]. apply match_sym in Hm. rewrite (Hno _ _ N1 L1 K1) in Hm. done.
    + by apply (w_distinct _ _ Hwf _ _ _ _ L1 L2).
Qed.
Lemma entries_update slots l1 s l2 : slots = l1 ++ s :: l2 -> entries slots = entries l1 ++ (if is_key s.1 then [s] else []) ++ entries l2.
Proof using. intros ->. unfold entries. rewrite list.filter_app, filter_cons. destruct (is_key s.1) eqn:E; [by rewrite decide_True|by rewrite decide_False by congruence]. Qed.
Lemma deleted_update slots l1 s l2 : slots = l1 ++ s :: l2 ->
  deleted_slots slots = deleted_slots l1 ++ (if bool_decide (s.1 = transition_sentinel) then [s] else []) ++ deleted_slots l2.
Proof using. intros ->. unfold deleted_slots. rewrite list.filter_app, filter_cons. case_bool_decide; [by rewrite decide_True|by rewrite decide_False]. Qed.

Definition b2z (b : bool) : Z := if b then 1 else 0.
Lemma zlen_cond {A} (b : bool) (x : A) : zlen (if b then [x] else []) = b2z b.
Proof using. by destruct b. Qed.
Lemma count_update slots e s s' : slots !! e = Some s ->
  zlen (entries (<[e := s']> slots)) = zlen (entries slots) - b2z (is_key s.1) + b2z (is_key s'.1) /\
  zlen (deleted_slots (<[e := s']> slots)) = zlen (deleted_slots slots) - b2z (bool_decide (s.1 = transition_sentinel)) + b2z (bool_decide (s'.1 = transition_sentinel)).
Proof using.
  intros He. destruct (lookup_split _ _ _ He) as (l1 & l2 & Hl & _ & Hins). rewrite (entries_update _ _ _ _ (Hins s')), (deleted_update _ _ _ _ (Hins s')).
  rewrite (entries_update _ _ _ _ Hl), (deleted_update _ _ _ _ Hl). rewrite !zlen_app, !zlen_cond. lia.
Qed.
Lemma sized_update slots e s : sized kPayloadSize slots -> length s.2 = kPayloadSize -> sized kPayloadSize (<[e := s]> slots).
Proof using. intros Hs Hl. by apply Forall_insert. Qed.
Lemma sized_lookup slots e s : sized kPayloadSize slots -> slots !! e = Some s -> length s.2 = kPayloadSize.
Proof using. intros Hs He. by apply (Forall_lookup_1 _ _ _ _ Hs He). Qed.

Section Writes.
Context (o d : Z) (meta : list HeapValue) (slots : list slot) (e : nat) (s : slot).
Context (Hmeta : length meta = kMetaDataSize) (Hs : sized kPayloadSize slots) (He : slots !! e = Some s).
Lemma layout_set_key k : InternalSetKey kPayloadSize kMetaDataSize (layout o d meta slots) (Z.of_nat e) k = Some (layout o d meta (<[e := (k, s.2)]> slots)).
Proof using Hmeta Hs He.
  destruct (lookup_split _ _ _ He) as (l1 & l2 & Hl & Hlen & Hins). rewrite Hins, Hl, <- Hlen. unfold sized in Hs. rewrite Hl in Hs.
  apply Forall_app in Hs as [Hs1 _]. by apply layout_SetKey.
Qed.
Lemma layout_set_payload i x v : s.2 !! i = Some x ->
  UpdatePayload kPayloadSize kMetaDataSize (layout o d meta slots) (Z.of_nat e) (Z.of_nat i) v = Some (layout o d meta (<[e := (s.1, <[i := v]> s.2)]> slots)).
Proof using Hmeta Hs He.
  intros Hi. destruct (lookup_split _ _ _ He) as (l1 & l2 & Hl & Hlen & Hins). rewrite Hins, Hl, <- Hlen. unfold sized in Hs. rewrite Hl in Hs.
  apply Forall_app in Hs as [Hs1 _]. destruct (lookup_split _ _ _ Hi) as (p1 & p2 & Hp & Hplen & Hpins). rewrite Hpins, <- Hplen.
  destruct s as [k p]. cbn in *. rewrite Hp. by apply layout_UpdatePayload.
Qed.
Lemma layout_get_payload i : (i < kPayloadSize)%nat ->
  exists x, GetPayload kPayloadSize kMetaDataSize (layout o d meta slots) (Z.of_nat e) (Z.of_nat i) = Some x /\ s.2 !! i = Some x.
Proof using Hmeta Hs He.
  intros Hi. destruct (s.2 !! i) as [x|] eqn:Hx; [|apply lookup_ge_None in Hx; rewrite (sized_lookup _ _ _ Hs He) in Hx; lia]. exists x. split; [|done].
  destruct (lookup_split _ _ _ He) as (l1 & l2 & Hl & Hlen & Hins). rewrite Hl, <- Hlen. unfold sized in Hs. rewrite Hl in Hs.
  apply Forall_app in Hs as [Hs1 _]. destruct (lookup_split _ _ _ Hx) as (p1 & p2 & Hp & Hplen & Hpins). rewrite <- Hplen.
  destruct s as [k p]. cbn in *. rewrite Hp. by apply layout_GetPayload.
Qed.
End Writes.

(** ** Inserting, updating and deleting an entry *)
Lemma InsertKey_spec data slots e s key : holds_slots data slots -> slots !! e = Some s -> is_key s.1 = false -> is_key key = true ->
  exists data', InsertKey kPayloadSize kMetaDataSize data (Z.of_nat e) key = Some data' /\ holds_slots data' (<[e := (key, s.2)]> slots).
Proof using.
  intros (meta & Hm & Hs & ->) He Hsk Hk. set (o := zlen (entries slots)). set (d := zlen (deleted_slots slots)).
  assert (Hdel : IsDeleted kPayloadSize kMetaDataSize (layout (o + 1) d meta slots) (Z.of_nat e) = Some (bool_decide (s.1 = transition_sentinel))).
  { unfold IsDeleted. destruct (lookup_split _ _ _ He) as (l1 & l2 & Hl & Hlen & _). rewrite Hl, <- Hlen. unfold sized in Hs. rewrite Hl in Hs.
    apply Forall_app in Hs as [Hs1 _]. change (Z.of_nat (length l1)) with (zlen l1). by rewrite layout_GetKey. }
  unfold InsertKey. rewrite layout_AdjustOccupied. cbn [mbind option_bind]. rewrite Hdel. cbn [mbind option_bind].
  destruct (count_update slots e s (key, s.2) He) as [Ho Hd]. rewrite Hsk in Ho. cbn [fst] in *. rewrite Hk in Ho.
  rewrite (bool_decide_eq_false_2 (key = transition_sentinel)) in Hd by (intros ->; done). fold o in Ho. fold d in Hd. cbn [b2z] in *.
  exists (layout (zlen (entries (<[e := (key, s.2)]> slots))) (zlen (deleted_slots (<[e := (key, s.2)]> slots))) meta (<[e := (key, s.2)]> slots)).
  split; [|exists meta; split; [done|]; split; [apply sized_update; [done|exact (sized_lookup _ _ _ Hs He)]|done]]. rewrite Ho, Hd.
  case_bool_decide; cbn [b2z].
  - rewrite layout_AdjustDeleted. cbn [mbind option_bind]. rewrite (layout_set_key _ _ _ _ _ s Hm Hs He). do 2 f_equal; lia.
  - cbn [mbind option_bind]. rewrite (layout_set_key _ _ _ _ _ s Hm Hs He). do 2 f_equal; lia.
Qed.
Lemma UpdatePayload_spec data slots e s i v : holds_slots data slots -> slots !! e = Some s -> (i < kPayloadSize)%nat ->
  exists data', UpdatePayload kPayloadSize kMetaDataSize data (Z.of_nat e) (Z.of_nat i) v = Some data' /\ holds_slots data' (<[e := (s.1, <[i := v]> s.2)]> slots).
Proof using.
  intros (meta & Hm & Hs & ->) He Hi. destruct (layout_get_payload (zlen (entries slots)) (zlen (deleted_slots slots)) meta slots e s Hm Hs He i Hi) as (x & _ & Hx).
  rewrite (layout_set_payload _ _ _ _ _ s Hm Hs He i x) by done. eexists. split; [done|]. exists meta. split; [done|].
  split; [apply sized_update; [done|]; cbn; rewrite length_insert; exact (sized_lookup _ _ _ Hs He)|].
  destruct (count_update slots e s (s.1, <[i := v]> s.2) He) as [-> ->]. cbn [fst]. do 2 f_equal; lia.
Qed.
Lemma GetPayload_spec data slots e s i : holds_slots data slots -> slots !! e = Some s -> (i < kPayloadSize)%nat ->
  exists x, GetPayload kPayloadSize kMetaDataSize data (Z.of_nat e) (Z.of_nat i) = Some x /\ s.2 !! i = Some x.
Proof using. intros (meta & Hm & Hs & ->) He Hi. by apply layout_get_payload. Qed.

(** Writing a payload from the left. *)
Lemma payload_step (p q : list HeapValue) i x : length p = length q -> p !! i = Some x ->
  <[i := x]> (take i p ++ drop i q) = take (S i) p ++ drop (S i) q.
Proof using.
  intros Hl Hx. assert (Hi : (i < length q)%nat) by (apply lookup_lt_Some in Hx; lia). rewrite (take_S_r _ _ _ Hx). rewrite <- app_assoc. cbn.
  destruct (lookup_lt_is_Some_2 q i Hi) as [y Hy]. rewrite (drop_S q y i Hy).
  replace i with (length (take i p) + 0)%nat at 1 by (rewrite length_take; lia). by rewrite insert_app_r.
Qed.
Section Payload.
Context (o d : Z) (meta : list HeapValue) (slots : list slot) (e : nat) (k : HeapValue) (p q : list HeapValue).
Context (Hm : length meta = kMetaDataSize) (Hs : sized kPayloadSize slots) (He : (e < length slots)%nat).
Context (Hp : length p = kPayloadSize) (Hq : length q = kPayloadSize).
(** The payload [q] is overwritten with [p] up to the component [i]. *)
Definition half_written (i : nat) : list HeapValue := layout o d meta (<[e := (k, take i p ++ drop i q)]> slots).
Lemma half_written_end : half_written kPayloadSize = layout o d meta (<[e := (k, p)]> slots).
Proof using Hp Hq. unfold half_written. rewrite take_ge, drop_ge by (clear - Hp Hq; lia). by rewrite app_nil_r. Qed.
Lemma half_written_step i x : p !! i = Some x ->
  UpdatePayload kPayloadSize kMetaDataSize (half_written i) (Z.of_nat e) (Z.of_nat i) x = Some (half_written (S i)).
Proof using Hm Hs He Hp Hq.
  intros Hx. assert (Hi : (i < kPayloadSize)%nat) by (apply lookup_lt_Some in Hx; lia).
  assert (Hhalf : length (take i p ++ drop i q) = kPayloadSize) by (rewrite length_app, length_take, length_drop; lia).
  destruct (lookup_lt_is_Some_2 (take i p ++ drop i q) i) as [y Hy]; [lia|]. unfold half_written.
  rewrite (layout_set_payload _ _ _ _ _ (k, take i p ++ drop i q)) with (x := y); [|done|by apply sized_update|by apply list_lookup_insert_eq|done].
  cbn [fst snd]. rewrite list_insert_insert_eq, payload_step by (done || lia). done.
Qed.
Lemma delete_payload_spec n i : (n + i = kPayloadSize)%nat -> p = replicate kPayloadSize transition_sentinel ->
  delete_payload kPayloadSize kMetaDataSize n (half_written i) (Z.of_nat e) (Z.of_nat i) = Some (half_written kPayloadSize).
Proof using Hm Hs He Hp Hq.
  intros Hn Hrep. revert i Hn. induction n as [|n IH]; intros i Hn; [by replace i with kPayloadSize by lia|]. cbn [delete_payload].
  rewrite (half_written_step i) by (rewrite Hrep; apply lookup_replicate_2; lia). cbn [mbind option_bind].
  replace (Z.of_nat i + 1) with (Z.of_nat (S i)) by lia. apply IH. lia.
Qed.
Lemma copy_payload_spec from from_slots from_e from_k n i : holds_slots from from_slots -> from_slots !! from_e = Some (from_k, p) -> (n + i = kPayloadSize)%nat ->
  copy_payload kPayloadSize kMetaDataSize n from (half_written i) (Z.of_nat from_e) (Z.of_nat e) (Z.of_nat i) = Some (half_written kPayloadSize).
Proof using Hm Hs He Hp Hq.
  intros Hf Hfe. revert i. induction n as [|n IH]; intros i Hn; [by replace i with kPayloadSize by lia|]. cbn [copy_payload].
  destruct (GetPayload_spec from from_slots from_e _ i Hf Hfe) as (x & -> & Hx); [lia|]. cbn [mbind option_bind snd] in *.
  rewrite (half_written_step i x Hx). cbn [mbind option_bind]. replace (Z.of_nat i + 1) with (Z.of_nat (S i)) by lia. apply IH. lia.
Qed.
End Payload.

Lemma half_written_start o d meta slots e k p q : half_written o d meta slots e k p q 0 = layout o d meta (<[e := (k, q)]> slots).
Proof using. unfold half_written. by rewrite take_0, drop_0. Qed.
Definition deleted_slot : slot := (transition_sentinel, replicate kPayloadSize transition_sentinel).
Lemma DeleteEntry_spec data slots e s : holds_slots data slots -> slots !! e = Some s -> is_key s.1 = true ->
  exists data', DeleteEntry kPayloadSize kMetaDataSize data (Z.of_nat e) = Some data' /\ holds_slots data' (<[e := deleted_slot]> slots).
Proof using.
  intros (meta & Hm & Hs & ->) He Hk. set (o := zlen (entries slots)). set (d := zlen (deleted_slots slots)).
  assert (Hlt : (e < length slots)%nat) by by eapply lookup_lt_Some. pose proof (sized_lookup _ _ _ Hs He) as Hq.
  assert (Hdel : delete_payload kPayloadSize kMetaDataSize kPayloadSize (layout o d meta slots) (Z.of_nat e) 0 =
    Some (layout o d meta (<[e := (s.1, replicate kPayloadSize transition_sentinel)]> slots))).
  { assert (Hp : length (replicate kPayloadSize transition_sentinel) = kPayloadSize) by apply length_replicate.
    pose proof (delete_payload_spec o d meta slots e s.1 _ s.2 Hm Hs Hlt Hp Hq kPayloadSize 0 (Nat.add_0_r _) eq_refl) as Hspec.
    rewrite half_written_start, half_written_end in Hspec by done. rewrite (list_insert_id slots e (s.1, s.2)) in Hspec by (by destruct s). exact Hspec. }
  unfold DeleteEntry. rewrite Hdel. cbn [mbind option_bind].
  rewrite (layout_set_key _ _ _ _ _ (s.1, replicate kPayloadSize transition_sentinel));
    [|done|apply sized_update; [done|]; apply length_replicate|by apply list_lookup_insert_eq].
  cbn [mbind option_bind snd]. rewrite layout_AdjustOccupied. cbn [mbind option_bind]. rewrite layout_AdjustDeleted, list_insert_insert_eq. eexists. split; [done|].
  exists meta. split; [done|]. split; [apply sized_update; [done|]; apply length_replicate|].
  destruct (count_update slots e s deleted_slot He) as [Ho Hd]. rewrite Hk in Ho. unfold deleted_slot in *. cbn [fst b2z] in *.
  rewrite (bool_decide_eq_false_2 (s.1 = transition_sentinel)) in Hd by (intros Hx; by rewrite Hx in Hk).
  rewrite (bool_decide_eq_true_2 (transition_sentinel = transition_sentinel)) in Hd by done. change (is_key transition_sentinel) with false in Ho. rewrite Ho, Hd. subst o d. cbn [b2z]. f_equal; lia.
Qed.

(** ** Fresh tables *)
Definition unused_slot_of : slot := (sentinel, replicate kPayloadSize sentinel).
Definition fresh_slots (n : nat) : list slot := replicate n unused_slot_of.
Lemma fresh_flat n : fresh_slots n ≫= flat = replicate (n * S kPayloadSize) sentinel.
Proof using.
  induction n as [|n IH]; [done|]. change (fresh_slots (S n)) with (unused_slot_of :: fresh_slots n). rewrite bind_cons, IH.
  change (flat unused_slot_of) with (replicate (S kPayloadSize) sentinel). by rewrite <- replicate_add.
Qed.
Lemma fresh_entries n : entries (fresh_slots n) = [] /\ deleted_slots (fresh_slots n) = [].
Proof using. induction n as [|n [IH1 IH2]]; [done|]. by split. Qed.
Lemma fresh_sized n : sized kPayloadSize (fresh_slots n).
Proof using. apply Forall_replicate. apply length_replicate. Qed.
Lemma Table_Initialize_spec data n : zlen data = kFirstKeyIndex kMetaDataSize + kEntrySize kPayloadSize * Z.of_nat n ->
  exists data', Table_Initialize data = Some data' /\ holds_slots data' (fresh_slots n).
Proof using.
  intros Hlen. unfold zlen, kFirstKeyIndex, kHeaderSize, kDeletedEntriesIndex, kEntrySize in Hlen. destruct data as [|a [|b rest]]; cbn [length] in Hlen; [lia..|].
  unfold Table_Initialize, SetSmiValueAt. change (arr_set (a :: b :: rest) kOccupiedEntriesIndex (SmiObject 0)) with (arr_set ([] ++ a :: b :: rest) 0 (SmiObject 0)).
  rewrite arr_set_middle by done. cbn [mbind option_bind app].
  change (SmiObject 0 :: b :: rest) with ([SmiObject 0] ++ b :: rest). rewrite arr_set_middle by done. cbn [mbind option_bind].
  change ([SmiObject 0] ++ SmiObject 0 :: rest) with ([SmiObject 0; SmiObject 0] ++ rest). rewrite (fill_sentinel_spec _ [SmiObject 0; SmiObject 0]);
    [|rewrite zlen_app; unfold zlen, kHeaderSize, kDeletedEntriesIndex; cbn [length]; lia].
  eexists. split; [done|]. exists (replicate kMetaDataSize sentinel). split; [apply length_replicate|]. split; [apply fresh_sized|].
  destruct (fresh_entries n) as [-> ->]. unfold layout. rewrite fresh_flat, <- replicate_add. unfold zlen. cbn [app length]. do 3 f_equal.
  unfold kHeaderSize, kDeletedEntriesIndex. lia.
Qed.
Lemma fresh_wf k : 0 <= k <= 30 -> wf_slots (fresh_slots (Z.to_nat (2 ^ k))) /\ room (fresh_slots (Z.to_nat (2 ^ k))).
Proof using.
  intros Hk. assert (Hp : 0 < 2 ^ k) by lia. split.
  - split.
    + exists k. split; [done|]. unfold zlen, fresh_slots. rewrite length_replicate. lia.
    + intros e s [-> _]%lookup_replicate Hkey. done.
    + intros e e' s s' [-> _]%lookup_replicate _ Hkey. done.
  - unfold room. destruct (fresh_entries (Z.to_nat (2 ^ k))) as [-> ->]. unfold fresh_slots. rewrite length_replicate. cbn. lia.
Qed.
Lemma RoundUp_30_spec x : 1 <= x <= 2 ^ 30 -> exists k, 0 <= k <= 30 /\ RoundUpToPowerOfTwo x = 2 ^ k /\ x <= 2 ^ k.
Proof using.
  intros Hx. destruct (decide (x = 1)) as [->|]; [exists 0; by vm_compute|]. exists (Z.log2_up x). rewrite RoundUpToPowerOfTwo_eq by lia.
  pose proof (Z.log2_up_nonneg x). pose proof (Z.log2_up_spec x). pose proof (Z.log2_up_le_mono x (2 ^ 30)). rewrite Z.log2_up_pow2 in * by lia. lia.
Qed.
Lemma HashTables_New_spec capacity : 0 <= capacity < 2 ^ 30 -> exists k data, 0 <= k <= 30 /\ capacity < 2 ^ k /\
  RoundUpToPowerOfTwo (capacity + 1) = 2 ^ k /\ HashTables_New kPayloadSize kMetaDataSize capacity = Some data /\ holds_slots data (fresh_slots (Z.to_nat (2 ^ k))).
Proof using.
  intros Hc. destruct (RoundUp_30_spec (capacity + 1)) as (k & Hk & Hr & Hle); [lia|].
  destruct (Table_Initialize_spec (replicate (Z.to_nat (ArrayLengthForNumOccupied kPayloadSize kMetaDataSize capacity)) null_object) (Z.to_nat (2 ^ k))) as (data & Hi & Hd).
  { unfold zlen, ArrayLengthForNumOccupied. rewrite length_replicate, Hr. unfold kFirstKeyIndex, kHeaderSize, kDeletedEntriesIndex, kEntrySize. lia. }
  exists k, data. repeat (split; [lia || done|]). done.
Qed.

(** ** Iterating *)
Lemma entries_take_S slots c s : slots !! c = Some s -> entries (take (S c) slots) = entries (take c slots) ++ (if is_key s.1 then [s] else []).
Proof using.
  intros Hs. rewrite (take_S_r _ _ _ Hs). rewrite (entries_update _ (take c slots) s []) by done. by rewrite app_nil_r.
Qed.
Lemma Table_MoveNext_loop_spec data slots fuel c : holds_slots data slots -> (c <= length slots)%nat -> (length slots - c <= fuel)%nat ->
  (entries (take c slots) = entries slots /\ exists r, Table_MoveNext_loop kPayloadSize kMetaDataSize fuel data (Z.of_nat c - 1) = Some (false, r)) \/
  (exists e s, (c <= e)%nat /\ slots !! e = Some s /\ is_key s.1 = true /\ entries (take (S e) slots) = entries (take c slots) ++ [s] /\
     Table_MoveNext_loop kPayloadSize kMetaDataSize fuel data (Z.of_nat c - 1) = Some (true, Z.of_nat e)).
Proof using.
  intros Hd. revert c. induction fuel as [|fuel IH]; intros c Hc Hfuel; cbn [Table_MoveNext_loop]; rewrite (holds_NumEntries _ _ _ _ Hd); unfold zlen.
  - left. rewrite take_ge by lia. split; [done|]. rewrite (proj2 (Z.ltb_ge _ _)) by lia. by eexists.
  - destruct (decide (c = length slots)) as [->|].
    { left. rewrite take_ge by lia. split; [done|]. rewrite (proj2 (Z.ltb_ge _ _)) by lia. by eexists. }
    rewrite (proj2 (Z.ltb_lt _ _)) by lia. replace (Z.of_nat c - 1 + 1) with (Z.of_nat c) by lia.
    destruct (lookup_lt_is_Some_2 slots c) as [s Hs]; [lia|]. rewrite (holds_IsOccupied _ _ _ _ Hd _ _ Hs). cbn [mbind option_bind].
    pose proof (entries_take_S _ _ _ Hs) as Htake. destruct (is_key s.1) eqn:Hkey.
    + right. exists c, s. repeat (split; [done|]). done.
    + rewrite app_nil_r in Htake. rewrite <- Htake. replace (Z.of_nat c) with (Z.of_nat (S c) - 1) by lia.
      destruct (IH (S c)) as [?|(e & s' & He & ?)]; [lia..|by left|]. right. exists e, s'. split; [lia|done].
Qed.
Lemma Table_MoveNext_spec data slots c : holds_slots data slots -> (c <= length slots)%nat ->
  (entries (take c slots) = entries slots /\ exists r, Table_MoveNext kPayloadSize kMetaDataSize data (Z.of_nat c - 1) = Some (false, r)) \/
  (exists e s, (c <= e)%nat /\ slots !! e = Some s /\ is_key s.1 = true /\ entries (take (S e) slots) = entries (take c slots) ++ [s] /\
     Table_MoveNext kPayloadSize kMetaDataSize data (Z.of_nat c - 1) = Some (true, Z.of_nat e)).
Proof using.
  intros Hd Hc. unfold Table_MoveNext. rewrite (holds_NumEntries _ _ _ _ Hd). apply Table_MoveNext_loop_spec; [done..|unfold zlen; lia].
Qed.

(** ** Copying *)
Lemma entries_lookup slots s : s ∈ entries slots <-> is_key s.1 = true /\ exists e, slots !! e = Some s.
Proof using. unfold entries. rewrite list_elem_of_filter. by rewrite list_elem_of_lookup. Qed.
(** A new key makes one more entry. *)
Lemma insert_entries slots e s s' : slots !! e = Some s -> is_key s.1 = false -> is_key s'.1 = true -> entries (<[e := s']> slots) ≡ₚ s' :: entries slots.
Proof using.
  intros He Hs Hs'. destruct (lookup_split _ _ _ He) as (l1 & l2 & Hl & _ & Hins). rewrite (entries_update _ _ _ _ (Hins s')), (entries_update _ _ _ _ Hl), Hs, Hs'.
  cbn. by rewrite Permutation_middle.
Qed.
Lemma wf_insert_key slots e s s' : wf_slots slots -> slots !! e = Some s -> is_key s'.1 = true -> arrives slots (Traits_Hash s'.1) e ->
  (forall e', ~ has_match ot slots s'.1 e') -> wf_slots (<[e := s']> slots).
Proof using All.
  intros Hwf He Hk Hr Hno. apply (wf_update slots e s s'); [done|done|intros Hx; by rewrite Hx in Hk|]. intros _. split; [done|].
  intros e1 s1 _ H1 K1. apply not_true_is_false. intros Hm. apply (Hno e1). by exists s1.
Qed.
Lemma copy_payload_whole from fs from_e from_k p to ts e k q : holds_slots from fs -> fs !! from_e = Some (from_k, p) -> holds_slots to ts -> ts !! e = Some (k, q) ->
  exists to', copy_payload kPayloadSize kMetaDataSize kPayloadSize from to (Z.of_nat from_e) (Z.of_nat e) 0 = Some to' /\ holds_slots to' (<[e := (k, p)]> ts).
Proof using.
  intros Hf Hfe (meta & Hm & Hs & ->) He. assert (Hlt : (e < length ts)%nat) by by eapply lookup_lt_Some.
  assert (Hp : length p = kPayloadSize) by (destruct Hf as (? & _ & Hfs & _); exact (sized_lookup _ _ _ Hfs Hfe)). pose proof (sized_lookup _ _ _ Hs He) as Hq.
  pose proof (copy_payload_spec (zlen (entries ts)) (zlen (deleted_slots ts)) meta ts e k p q Hm Hs Hlt Hp Hq from fs from_e from_k kPayloadSize 0 Hf Hfe (Nat.add_0_r _)) as Hspec.
  rewrite half_written_start, half_written_end in Hspec by done. rewrite (list_insert_id ts e (k, q)) in Hspec by done. eexists. split; [exact Hspec|].
  exists meta. split; [done|]. split; [by apply sized_update|]. destruct (count_update ts e (k, q) (k, p) He) as [-> ->]. cbn [fst]. f_equal; lia.
Qed.
Lemma deleted_none slots e s s' : slots !! e = Some s -> deleted_slots slots = [] -> is_key s'.1 = true -> deleted_slots (<[e := s']> slots) = [].
Proof using.
  intros He Hnil Hk. destruct (count_update slots e s s' He) as [_ Hd]. rewrite Hnil, (bool_decide_eq_false_2 (s'.1 = _)) in Hd by (intros Hx; by rewrite Hx in Hk).
  destruct (deleted_slots (<[e := s']> slots)); [done|]. unfold zlen in Hd. cbn [length b2z] in Hd. destruct (bool_decide _); cbn in Hd; lia.
Qed.
Lemma entries_take_le slots c : (length (entries (take c slots)) <= length (entries slots))%nat.
Proof using. rewrite <- (take_drop c slots) at 2. unfold entries. rewrite list.filter_app, length_app. lia. Qed.

Section Copy.
Context (from : list HeapValue) (fs : list slot) (Hf : holds_slots from fs) (Hfwf : wf_slots fs).
(** The first [c] slots have been copied. *)
Record copied (c : nat) (to : list HeapValue) (ts : list slot) : Prop := {
  cp_holds : holds_slots to ts;
  cp_wf : wf_slots ts;
  cp_entries : entries ts ≡ₚ entries (take c fs);
  cp_deleted : deleted_slots ts = [];
  cp_room : (length (entries fs) < length ts)%nat }.
Lemma copied_room c to ts : copied c to ts -> room ts.
Proof using.
  intros Hc. unfold room. rewrite (cp_entries _ _ _ Hc), (cp_deleted _ _ _ Hc). pose proof (entries_take_le fs c). pose proof (cp_room _ _ _ Hc). cbn. lia.
Qed.
Lemma copied_step c to ts e s : copied c to ts -> (c <= e)%nat -> fs !! e = Some s -> is_key s.1 = true -> entries (take (S e) fs) = entries (take c fs) ++ [s] ->
  exists t q to1 to2 ts2, FindKeyOrDeletedOrUnused kPayloadSize kMetaDataSize to s.1 = Some (false, Z.of_nat t) /\
    ts !! t = Some q /\ InsertKey kPayloadSize kMetaDataSize to (Z.of_nat t) s.1 = Some to1 /\
    copy_payload kPayloadSize kMetaDataSize kPayloadSize from to1 (Z.of_nat e) (Z.of_nat t) 0 = Some to2 /\ copied (S e) to2 ts2 /\ length ts2 = length ts.
Proof using All.
  intros Hc Hce He Hkey Htake. destruct (search_spec ot to ts s.1) as (present & t & Hfind & _ & Hres); [apply Hc|apply Hc|by eapply copied_room|].
  destruct present.
  { exfalso. destruct Hres as (s1 & H1 & K1 & Hm). assert (Hin : s1 ∈ entries (take c fs)) by (rewrite <- (cp_entries _ _ _ Hc); apply entries_lookup; eauto).
    apply entries_lookup in Hin as (_ & e1 & He1). apply lookup_take_Some in He1 as [He1 Hlt].
    pose proof (w_distinct _ _ Hfwf _ _ _ _ He He1 Hkey K1 Hm). lia. }
  destruct Hres as ((q & Hq & Kq) & Hreach & Hno). destruct (InsertKey_spec to ts t q s.1 (cp_holds _ _ _ Hc) Hq Kq Hkey) as (to1 & Hins & H1).
  assert (Hlt : (t < length ts)%nat) by by eapply lookup_lt_Some. destruct s as [k p]. cbn [fst] in *.
  destruct (copy_payload_whole from fs e k p to1 _ t k q.2 Hf He H1) as (to2 & Hcopy & H2); [by apply list_lookup_insert_eq|]. rewrite list_insert_insert_eq in H2.
  exists t, q, to1, to2, (<[t := (k, p)]> ts). split; [done|]. split; [done|]. split; [done|]. split; [done|]. split; [|by rewrite length_insert]. split.
  - done.
  - apply (wf_insert_key _ _ q); [apply Hc|done..].
  - rewrite (insert_entries _ _ q) by done. rewrite Htake, (cp_entries _ _ _ Hc). by rewrite Permutation_app_comm.
  - apply (deleted_none _ _ q); [done|apply Hc|done].
  - rewrite length_insert. apply Hc.
Qed.
Lemma Copy_loop_spec fuel c to ts : copied c to ts -> (c <= length fs)%nat -> (length fs - c <= fuel)%nat ->
  exists to' ts', Copy_loop kPayloadSize kMetaDataSize fuel from to (Z.of_nat c - 1) = Some to' /\ copied (length fs) to' ts' /\ length ts' = length ts.
Proof using All.
  revert c to ts. induction fuel as [|fuel IH]; intros c to ts Hcp Hc Hfuel; cbn [Copy_loop];
    destruct (Table_MoveNext_spec from fs c Hf Hc) as [[Hall [r ->]]|(e & s & Hce & He & Hkey & Htake & ->)]; cbn [mbind option_bind].
  1, 3: exists to, ts; split; [done|]; split; [|done]; destruct Hcp; split; try done; rewrite Hall in *; by rewrite take_ge by lia.
  - apply lookup_lt_Some in He. lia.
  - unfold GetKey. rewrite (holds_GetKey _ _ _ _ Hf _ _ He). cbn [mbind option_bind].
    destruct (copied_step c to ts e s) as (t & q & to1 & to2 & ts2 & -> & _ & H1 & H2 & Hcp2 & Hlen); [done..|]. cbn [mbind option_bind]. rewrite H1. cbn [mbind option_bind].
    rewrite H2. cbn [mbind option_bind]. apply lookup_lt_Some in He. destruct (IH (S e) to2 ts2) as (to' & ts' & Hloop & Hres & Hl); [done|lia|lia|].
    exists to', ts'. replace (Z.of_nat (S e) - 1) with (Z.of_nat e) in Hloop by lia. split; [done|]. split; [done|]. lia.
Qed.
End Copy.

(** ** Growing *)
Lemma EnsureCapacity_spec data slots : holds_slots data slots -> wf_slots slots -> zlen (entries slots) < 2 ^ 28 ->
  exists data' slots', EnsureCapacity kPayloadSize kMetaDataSize data = Some data' /\ holds_slots data' slots' /\ wf_slots slots' /\ entries slots' ≡ₚ entries slots /\
    (S (length (entries slots') + length (deleted_slots slots')) < length slots')%nat /\
    (zlen (entries slots) <= zlen (deleted_slots slots) -> zlen slots' = RoundUpToPowerOfTwo (zlen (entries slots) * 2 + 2)).
Proof using All.
  intros Hd Hwf Hbound. unfold EnsureCapacity, EnsureLoadFactor. rewrite (holds_NumEntries _ _ _ _ Hd).
  assert (Hcounts : NumOccupied data = Some (zlen (entries slots)) /\ NumDeleted data = Some (zlen (deleted_slots slots))) by by destruct Hd as (meta & _ & _ & ->).
  destruct Hcounts as [-> ->]. cbn [mbind option_bind]. destruct (below_load_factor _ _ _ && _) eqn:Eload.
  { apply andb_true_iff in Eload as [Hload Hmany]. apply negb_true_iff, Z.leb_gt in Hmany. exists data, slots. split; [done|]. split; [done|]. split; [done|]. split; [done|].
    unfold below_load_factor, kMaxLoadFactor in Hload. apply Z.ltb_lt in Hload. unfold zlen in Hload. change (2 ^ 50) with 1125899906842624 in Hload. unfold zlen in *. lia. }
  pose proof (zlen_nonneg (entries slots)). destruct (HashTables_New_spec (zlen (entries slots) * 2 + 1)) as (k & new & Hk & Hcap & Hround & -> & Hnew); [lia|].
  cbn [mbind option_bind]. unfold HashTables_Copy. set (n := Z.to_nat (2 ^ k)) in *.
  destruct (Table_Initialize_spec new n) as (to & -> & Hto).
  { destruct Hnew as (meta & Hm & Hs & ->). rewrite (layout_length kPayloadSize kMetaDataSize) by done. unfold zlen, fresh_slots. by rewrite length_replicate. }
  cbn [mbind option_bind]. destruct (fresh_wf k Hk) as [Hfw _]. fold n in Hfw. destruct (fresh_entries n) as [Hfe Hfd].
  destruct (Copy_loop_spec data slots Hd Hwf (Z.to_nat (NumEntries kPayloadSize kMetaDataSize data)) 0 to (fresh_slots n)) as (to' & ts' & Hloop & Hcp & Hlen).
  - split; [done|done|by rewrite Hfe|done|]. unfold fresh_slots. rewrite length_replicate. subst n. unfold zlen in *. lia.
  - lia.
  - rewrite (holds_NumEntries _ _ _ _ Hd). unfold zlen. lia.
  - exists to', ts'. split; [exact Hloop|]. split; [apply Hcp|]. split; [apply Hcp|]. pose proof (cp_entries _ _ _ _ Hcp) as Hent. rewrite take_ge in Hent by lia.
    split; [done|]. rewrite Hent, (cp_deleted _ _ _ _ Hcp), Hlen. unfold fresh_slots. rewrite length_replicate. subst n.
    split; [unfold zlen in *; cbn; lia|]. intros _. replace (zlen (entries slots) * 2 + 2) with (zlen (entries slots) * 2 + 1 + 1) by lia.
    rewrite Hround. unfold zlen, fresh_slots in *. rewrite length_replicate in Hlen. rewrite Hlen. lia.
Qed.

(** ** What the tables stand for *)
(** The array holds the entries of [l], in some order. *)
Definition table_of (data : list HeapValue) (l : list slot) : Prop :=
  exists slots, holds_slots data slots /\ wf_slots slots /\ room slots /\ entries slots ≡ₚ l.

Lemma fresh_table data k : 0 <= k <= 30 -> holds_slots data (fresh_slots (Z.to_nat (2 ^ k))) -> table_of data [].
Proof using. intros Hk Hd. destruct (fresh_wf k Hk) as [Hw Hr]. exists (fresh_slots (Z.to_nat (2 ^ k))). repeat (split; [done|]). by destruct (fresh_entries (Z.to_nat (2 ^ k))) as [-> _]. Qed.
Lemma New_table capacity : 0 <= capacity < 2 ^ 30 -> exists data, HashTables_New kPayloadSize kMetaDataSize capacity = Some data /\ table_of data [].
Proof using. intros Hc. destruct (HashTables_New_spec capacity Hc) as (k & data & Hk & _ & _ & Hn & Hd). exists data. split; [done|]. by eapply fresh_table. Qed.
Lemma Clear_table data l : table_of data l -> exists data', Table_Clear data = Some data' /\ table_of data' [].
Proof using.
  intros (slots & Hd & Hwf & _). destruct (w_size _ _ Hwf) as (k & Hk & Hsize). destruct (Table_Initialize_spec data (Z.to_nat (2 ^ k))) as (data' & Hi & Hd').
  { destruct Hd as (meta & Hm & Hs & ->). rewrite (layout_length kPayloadSize kMetaDataSize) by done. rewrite Hsize. lia. }
  exists data'. split; [exact Hi|]. by eapply fresh_table.
Qed.
Lemma Ensure_table data l : table_of data l -> zlen l < 2 ^ 28 -> exists data' slots, EnsureCapacity kPayloadSize kMetaDataSize data = Some data' /\ holds_slots data' slots /\
  wf_slots slots /\ (S (length (entries slots) + length (deleted_slots slots)) < length slots)%nat /\ entries slots ≡ₚ l.
Proof using All.
  intros (slots & Hd & Hwf & _ & Hperm) Hl. destruct (EnsureCapacity_spec data slots Hd Hwf) as (data' & slots' & HE & Hd' & Hwf' & Hent & Hroom & _); [unfold zlen in *; by rewrite Hperm|].
  exists data', slots'. repeat (split; [done|]). by rewrite Hent.
Qed.

Section Lookup.
Context {Key : Type} (kt : KeyTraits Key) `{!TraitsLaws kt ot}.
Definition find_entry (key : Key) (l : list slot) : option slot := List.find (fun s => Traits_IsMatch key s.1) l.

Lemma others_differ slots (key : Key) l1 s l2 x : wf_slots slots -> slots = l1 ++ s :: l2 -> is_key s.1 = true -> Traits_IsMatch key s.1 = true ->
  x ∈ entries l1 \/ x ∈ entries l2 -> Traits_IsMatch key x.1 = false.
Proof using All.
  intros Hwf Hl Hk Hm Hx. apply not_true_is_false. intros Hmx. assert (Hsx : Traits_IsMatch s.1 x.1 = true) by by rewrite <- (match_class key s.1 x.1 Hm).
  assert (Hs : slots !! length l1 = Some s) by (rewrite Hl; by apply list_lookup_middle).
  assert (Hi : exists i, i <> length l1 /\ slots !! i = Some x /\ is_key x.1 = true).
  { destruct Hx as [Hx|Hx]; apply entries_lookup in Hx as (Kx & i & Hi).
    - exists i. assert (i < length l1)%nat by by eapply lookup_lt_Some. split; [lia|]. rewrite Hl. by rewrite lookup_app_l.
    - exists (length l1 + S i)%nat. split; [lia|]. rewrite Hl. by rewrite lookup_app_r, Nat.add_comm, Nat.add_sub by lia. }
  destruct Hi as (i & Hne & Hi & Kx). by apply Hne, (w_distinct _ _ Hwf _ _ _ _ Hi Hs Kx Hk), match_sym.
Qed.
Lemma find_present slots (key : Key) l e s : wf_slots slots -> entries slots ≡ₚ l -> slots !! e = Some s -> is_key s.1 = true -> Traits_IsMatch key s.1 = true ->
  find_entry key l = Some s.
Proof using All.
  intros Hwf Hperm He Hk Hm. destruct (lookup_split _ _ _ He) as (l1 & l2 & Hl & _ & _). unfold find_entry.
  destruct (List.find _ l) as [x|] eqn:E.
  - apply List.find_some in E as [Hin Hx]. apply list_elem_of_In in Hin. rewrite <- Hperm, (entries_update _ _ _ _ Hl), Hk in Hin.
    rewrite !elem_of_app, list_elem_of_singleton in Hin. destruct Hin as [Hin|[->|Hin]]; [|done|].
    + rewrite (others_differ slots key l1 s l2 x) in Hx; [done..|by left].
    + rewrite (others_differ slots key l1 s l2 x) in Hx; [done..|by right].
  - pose proof (List.find_none _ _ E s) as Hnone. cbn in Hnone. rewrite Hm in Hnone. discriminate Hnone. apply list_elem_of_In. rewrite <- Hperm. apply entries_lookup. eauto.
Qed.
Lemma find_absent slots (key : Key) l : entries slots ≡ₚ l -> (forall e, ~ has_match kt slots key e) -> find_entry key l = None.
Proof using.
  intros Hperm Hno. unfold find_entry. destruct (List.find _ l) as [x|] eqn:E; [|done]. exfalso. apply List.find_some in E as [Hin Hx].
  apply list_elem_of_In in Hin. rewrite <- Hperm in Hin. apply entries_lookup in Hin as (Kx & e & He). apply (Hno e). by exists x.
Qed.
(** A search in terms of the entries. *)
Lemma lookup_spec data slots (key : Key) l : holds_slots data slots -> wf_slots slots -> room slots -> entries slots ≡ₚ l ->
  exists present e s, FindKeyOrDeletedOrUnused kPayloadSize kMetaDataSize data key = Some (present, Z.of_nat e) /\
    FindKey kPayloadSize kMetaDataSize data key = Some (if present : bool then Z.of_nat e else -1) /\ slots !! e = Some s /\ is_key s.1 = present /\
    if present then find_entry key l = Some s /\ Traits_IsMatch key s.1 = true
    else find_entry key l = None /\ arrives slots (Traits_Hash key) e /\ forall e', ~ has_match kt slots key e'.
Proof using All.
  intros Hd Hwf Hr Hperm. destruct (search_spec kt data slots key Hd Hwf Hr) as (present & e & H1 & H2 & Hres). destruct present.
  - destruct Hres as (s & He & Hk & Hm). exists true, e, s. do 4 (split; [done|]). split; [|done]. by eapply find_present.
  - destruct Hres as ((s & He & Hk) & Hreach & Hno). exists false, e, s. do 4 (split; [done|]). split; [by eapply find_absent|done].
Qed.

(** Writing through an entry that matches. *)
Lemma map_others (f : slot -> slot) (key : Key) (l : list slot) : (forall x, x ∈ l -> Traits_IsMatch key x.1 = false) ->
  (fun s => if Traits_IsMatch key s.1 then f s else s) <$> l = l.
Proof using. induction l as [|x l IH]; intros Hl; [done|]. rewrite fmap_cons, IH; [|intros y Hy; apply Hl; by right]. by rewrite Hl by left. Qed.
Lemma filter_others (key : Key) (l : list slot) : (forall x, x ∈ l -> Traits_IsMatch key x.1 = false) -> List.filter (fun s : slot => negb (Traits_IsMatch key s.1)) l = l.
Proof using. induction l as [|x l IH]; intros Hl; [done|]. cbn. rewrite Hl by left. cbn. by rewrite IH by (intros y Hy; apply Hl; by right). Qed.
Lemma update_entries slots (key : Key) (l : list slot) e s (f : slot -> slot) : wf_slots slots -> entries slots ≡ₚ l -> slots !! e = Some s -> is_key s.1 = true -> Traits_IsMatch key s.1 = true -> is_key (f s).1 = true ->
  entries (<[e := f s]> slots) ≡ₚ (fun s => if Traits_IsMatch key s.1 then f s else s) <$> l.
Proof using All.
  intros Hwf Hperm He Hk Hm Hf. destruct (lookup_split _ _ _ He) as (l1 & l2 & Hl & _ & Hins). rewrite <- Hperm, (entries_update _ _ _ _ (Hins (f s))), (entries_update _ _ _ _ Hl), Hk, Hf.
  rewrite !fmap_app. cbn. rewrite Hm, !map_others; [done|intros x Hx; apply (others_differ slots key l1 s l2 x); try done; tauto..].
Qed.
Lemma remove_entries slots (key : Key) (l : list slot) e s s' : wf_slots slots -> entries slots ≡ₚ l -> slots !! e = Some s -> is_key s.1 = true -> Traits_IsMatch key s.1 = true -> is_key s'.1 = false ->
  entries (<[e := s']> slots) ≡ₚ List.filter (fun s => negb (Traits_IsMatch key s.1)) l.
Proof using All.
  intros Hwf Hperm He Hk Hm Hs'. destruct (lookup_split _ _ _ He) as (l1 & l2 & Hl & _ & Hins). rewrite (entries_update _ _ _ _ (Hins s')), Hs'. cbn.
  assert (Hfp : forall l l' : list slot, l ≡ₚ l' -> List.filter (fun s => negb (Traits_IsMatch key s.1)) l ≡ₚ List.filter (fun s => negb (Traits_IsMatch key s.1)) l').
  { induction 1; cbn; repeat destruct (negb _); eauto using Permutation. }
  rewrite <- (Hfp _ _ Hperm), (entries_update _ _ _ _ Hl), Hk, !List.filter_app. cbn. rewrite Hm. cbn.
  rewrite !filter_others; [done|intros x Hx; apply (others_differ slots key l1 s l2 x); try done; tauto..].
Qed.
End Lookup.

(** ** The operations *)
Lemma room_after slots e s s' : slots !! e = Some s -> is_key s.1 = true \/ (S (length (entries slots) + length (deleted_slots slots)) < length slots)%nat ->
  room slots -> room (<[e := s']> slots).
Proof using.
  intros He Hor Hr. destruct (count_update slots e s s' He) as [Ho Hd]. unfold room, zlen in *. rewrite length_insert.
  assert (Hnot : is_key s'.1 = true -> bool_decide (s'.1 = transition_sentinel) = false) by (intros Hk; apply bool_decide_eq_false; intros Hx; by rewrite Hx in Hk).
  destruct (is_key s.1), (is_key s'.1), (bool_decide (s.1 = _)), (bool_decide (s'.1 = _)); cbn [b2z] in *; destruct Hor as [Hor|Hor]; try done; try specialize (Hnot eq_refl); try done; lia.
Qed.
Lemma insert_new data slots l e s nk : holds_slots data slots -> wf_slots slots -> (S (length (entries slots) + length (deleted_slots slots)) < length slots)%nat ->
  entries slots ≡ₚ l -> slots !! e = Some s -> is_key s.1 = false -> is_key nk = true -> arrives slots (Traits_Hash nk) e -> (forall e', ~ has_match ot slots nk e') ->
  exists data', InsertKey kPayloadSize kMetaDataSize data (Z.of_nat e) nk = Some data' /\ holds_slots data' (<[e := (nk, s.2)]> slots) /\
    forall p, wf_slots (<[e := (nk, p)]> slots) /\ room (<[e := (nk, p)]> slots) /\ entries (<[e := (nk, p)]> slots) ≡ₚ (nk, p) :: l.
Proof using All.
  intros Hd Hwf Hroom Hperm He Hs Hk Hreach Hno. destruct (InsertKey_spec data slots e s nk Hd He Hs Hk) as (data' & Hi & Hd'). exists data'. split; [done|]. split; [done|]. intros p. split; [|split].
  - by apply (wf_insert_key _ _ s).
  - apply (room_after _ _ s); [done|by right|]. unfold room. lia.
  - rewrite (insert_entries _ _ s) by done. by rewrite Hperm.
Qed.
Lemma insert_new_set data slots l e s nk : holds_slots data slots -> wf_slots slots -> (S (length (entries slots) + length (deleted_slots slots)) < length slots)%nat ->
  entries slots ≡ₚ l -> slots !! e = Some s -> is_key s.1 = false -> is_key nk = true -> arrives slots (Traits_Hash nk) e -> (forall e', ~ has_match ot slots nk e') ->
  kPayloadSize = 0%nat -> exists data', InsertKey kPayloadSize kMetaDataSize data (Z.of_nat e) nk = Some data' /\ table_of data' ((nk, []) :: l).
Proof using All.
  intros Hd Hwf Hroom Hperm He Hs Hk Hreach Hno HP. destruct (insert_new data slots l e s nk) as (data' & Hi & Hd' & Hp); [done..|]. exists data'. split; [done|].
  assert (Hnil : s.2 = []) by (destruct Hd as (_ & _ & Hsz & _); pose proof (sized_lookup _ _ _ Hsz He) as Hl; rewrite HP in Hl; by apply nil_length_inv). rewrite Hnil in Hd'.
  exists (<[e := (nk, [])]> slots). split; [done|]. apply Hp.
Qed.
Lemma insert_new_map data slots l e s nk v : holds_slots data slots -> wf_slots slots -> (S (length (entries slots) + length (deleted_slots slots)) < length slots)%nat ->
  entries slots ≡ₚ l -> slots !! e = Some s -> is_key s.1 = false -> is_key nk = true -> arrives slots (Traits_Hash nk) e -> (forall e', ~ has_match ot slots nk e') ->
  kPayloadSize = 1%nat -> exists data1 data2, InsertKey kPayloadSize kMetaDataSize data (Z.of_nat e) nk = Some data1 /\
    UpdatePayload kPayloadSize kMetaDataSize data1 (Z.of_nat e) 0 v = Some data2 /\ table_of data2 ((nk, [v]) :: l).
Proof using All.
  intros Hd Hwf Hroom Hperm He Hs Hk Hreach Hno HP. destruct (insert_new data slots l e s nk) as (data1 & Hi & Hd1 & Hp); [done..|].
  assert (Hlt : (e < length slots)%nat) by by eapply lookup_lt_Some.
  destruct (UpdatePayload_spec data1 _ e (nk, s.2) 0 v Hd1) as (data2 & Hu & Hd2); [by apply list_lookup_insert_eq|lia|].
  exists data1, data2. split; [done|]. split; [done|]. cbn [fst snd] in Hd2. rewrite list_insert_insert_eq in Hd2.
  assert (Hone : exists x, s.2 = [x]).
  { destruct Hd as (_ & _ & Hsz & _). pose proof (sized_lookup _ _ _ Hsz He) as Hl. rewrite HP in Hl. destruct (s.2) as [|x [|y p]]; [done|by exists x|done]. }
  destruct Hone as [x Hx]. rewrite Hx in Hd2. cbn in Hd2. exists (<[e := (nk, [v])]> slots). split; [done|]. apply Hp.
Qed.
Definition set_value (v : HeapValue) (s : slot) : slot := (s.1, <[O := v]> s.2).
Lemma wf_set_value slots e s v : wf_slots slots -> slots !! e = Some s -> is_key s.1 = true -> wf_slots (<[e := set_value v s]> slots).
Proof using All.
  intros Hwf He Hk. apply (wf_update _ _ s); [done|done|intros Hx; cbn in Hx; by rewrite Hx in Hk|]. cbn. intros _. split; [by apply (w_reaches _ _ Hwf)|].
  intros e1 s1 Hne H1 K1. apply not_true_is_false. intros Hm. apply Hne. symmetry. by apply (w_distinct _ _ Hwf _ _ _ _ He H1).
Qed.

Section Abstract.
Context {Key : Type} (kt : KeyTraits Key) `{!TraitsLaws kt ot}.
Implicit Types (key : Key) (l : list slot).
(** The abstract operations, on the entries. *)
Definition value_of (s : slot) : HeapValue := default null_object (s.2 !! O).
Definition set_entry key v l : list slot := (fun s => if Traits_IsMatch key s.1 then set_value v s else s) <$> l.
Definition remove_entry key l : list slot := List.filter (fun s => negb (Traits_IsMatch key s.1)) l.
Definition present_in key l : bool := match find_entry kt key l with Some _ => true | None => false end.

Lemma update_present data slots l key e s v : holds_slots data slots -> wf_slots slots -> room slots -> entries slots ≡ₚ l -> slots !! e = Some s -> is_key s.1 = true ->
  Traits_IsMatch key s.1 = true -> (0 < kPayloadSize)%nat ->
  exists data', UpdatePayload kPayloadSize kMetaDataSize data (Z.of_nat e) 0 v = Some data' /\ table_of data' (set_entry key v l).
Proof using All.
  intros Hd Hwf Hr Hperm He Hk Hm HP. destruct (UpdatePayload_spec data slots e s 0 v Hd He HP) as (data' & Hu & Hd'). exists data'. split; [done|].
  exists (<[e := set_value v s]> slots). split; [done|]. split; [by apply wf_set_value|]. split; [apply (room_after _ _ s); auto|]. by apply (update_entries kt).
Qed.
Lemma Remove_table data l key : table_of data l ->
  exists data', Table_Remove kPayloadSize kMetaDataSize data key = Some (present_in key l, data') /\ table_of data' (remove_entry key l).
Proof using All.
  intros (slots & Hd & Hwf & Hr & Hperm). destruct (lookup_spec kt data slots key l Hd Hwf Hr Hperm) as (present & e & s & _ & Hf & He & Hk & Hres).
  unfold Table_Remove, present_in. rewrite Hf. cbn [mbind option_bind]. destruct present.
  - destruct Hres as [-> Hm]. rewrite (proj2 (Z.eqb_neq _ _)) by lia. destruct (DeleteEntry_spec data slots e s Hd He Hk) as (data' & -> & Hd'). exists data'. split; [done|].
    exists (<[e := deleted_slot]> slots). split; [done|]. split; [by apply (wf_update _ _ s)|]. split; [apply (room_after _ _ s); auto|]. by apply (remove_entries kt _ _ _ _ s).
  - destruct Hres as (Hnone & _ & _). rewrite Hnone. exists data. split; [done|]. unfold remove_entry. rewrite filter_others; [by exists slots|].
    intros x Hx. apply not_true_is_false. intros Hm. unfold find_entry in Hnone. pose proof (List.find_none _ _ Hnone x) as Hn. cbn in Hn. rewrite Hn in Hm; [done|by apply list_elem_of_In].
Qed.
Lemma insertable slots key nk e : Traits_IsMatch key nk = true -> arrives slots (Traits_Hash key) e -> (forall e', ~ has_match kt slots key e') ->
  arrives slots (Traits_Hash nk) e /\ forall e', ~ has_match ot slots nk e'.
Proof using All.
  intros Hm Hr Hno. split; [by rewrite <- (match_hash _ _ Hm)|]. intros e' (s & He & Hk & Hs). apply (Hno e'). exists s. split; [done|]. split; [done|].
  by rewrite (match_class _ _ _ Hm).
Qed.
(** The start of every insertion: room for one more, and a search. *)
Lemma insertion data l key : table_of data l -> zlen l < 2 ^ 28 -> exists data1 slots present e s,
  EnsureCapacity kPayloadSize kMetaDataSize data = Some data1 /\ holds_slots data1 slots /\ wf_slots slots /\
  (S (length (entries slots) + length (deleted_slots slots)) < length slots)%nat /\ entries slots ≡ₚ l /\
  FindKeyOrDeletedOrUnused kPayloadSize kMetaDataSize data1 key = Some (present, Z.of_nat e) /\ slots !! e = Some s /\ is_key s.1 = present /\
  if present then find_entry kt key l = Some s /\ Traits_IsMatch key s.1 = true
  else find_entry kt key l = None /\ arrives slots (Traits_Hash key) e /\ forall e', ~ has_match kt slots key e'.
Proof using All.
  intros Ht Hl. destruct (Ensure_table data l Ht Hl) as (data1 & slots & HE & Hd & Hwf & Hroom & Hperm).
  destruct (lookup_spec kt data1 slots key l) as (present & e & s & Hfind & _ & He & Hk & Hres); [done|done|unfold room; lia|done|].
  exists data1, slots, present, e, s. repeat (split; [done|]). done.
Qed.

Lemma GetOrNull_map data l key : table_of data l -> kPayloadSize = 1%nat ->
  HashMap_GetOrNull kPayloadSize kMetaDataSize data key = Some (match find_entry kt key l with Some s => (value_of s, true) | None => (null_object, false) end).
Proof using All.
  intros (slots & Hd & Hwf & Hr & Hperm) HP. destruct (lookup_spec kt data slots key l Hd Hwf Hr Hperm) as (present & e & s & _ & Hf & He & Hk & Hres).
  unfold HashMap_GetOrNull. rewrite Hf. cbn [mbind option_bind]. destruct present; destruct Hres as [-> _]; [|done]. rewrite (proj2 (Z.eqb_neq _ _)) by lia.
  destruct (GetPayload_spec data slots e s 0 Hd He) as (x & Hx & Hs); [lia|]. unfold value_of. rewrite Hs. change (Z.of_nat 0) with 0 in Hx. by rewrite Hx.
Qed.
Lemma UpdateValue_map data l key v : table_of data l -> kPayloadSize = 1%nat -> present_in key l = true ->
  exists data', HashMap_UpdateValue kPayloadSize kMetaDataSize data key v = Some data' /\ table_of data' (set_entry key v l).
Proof using All.
  intros (slots & Hd & Hwf & Hr & Hperm) HP Hpres. destruct (lookup_spec kt data slots key l Hd Hwf Hr Hperm) as (present & e & s & _ & Hf & He & Hk & Hres).
  unfold HashMap_UpdateValue. rewrite Hf. cbn [mbind option_bind]. unfold present_in in Hpres. destruct present; destruct Hres as [Hfe Hm]; [|by rewrite Hfe in Hpres].
  apply (update_present data slots l key e s v); (done || lia).
Qed.
Lemma InsertNewOrGetValue_map NewKey data l key v : table_of data l -> kPayloadSize = 1%nat -> zlen l < 2 ^ 28 -> is_key (NewKey key) = true -> Traits_IsMatch key (NewKey key) = true ->
  exists data', HashMap_InsertNewOrGetValue kPayloadSize kMetaDataSize NewKey data key v = Some (match find_entry kt key l with Some s => value_of s | None => v end, data') /\
    table_of data' (match find_entry kt key l with Some _ => l | None => (NewKey key, [v]) :: l end).
Proof using All.
  intros Ht HP Hl Hnk Hm. destruct (insertion data l key Ht Hl) as (data1 & slots & present & e & s & HE & Hd & Hwf & Hroom & Hperm & Hfind & He & Hk & Hres).
  unfold HashMap_InsertNewOrGetValue. rewrite HE. cbn [mbind option_bind]. rewrite Hfind. cbn [mbind option_bind]. destruct present; cbn [negb].
  - destruct Hres as [-> Hms]. destruct (GetPayload_spec data1 slots e s 0 Hd He) as (x & Hx & Hs); [lia|]. unfold value_of. rewrite Hs. change (Z.of_nat 0) with 0 in Hx. rewrite Hx.
    exists data1. split; [done|]. exists slots. repeat (split; [done|]). split; [unfold room; lia|done].
  - destruct Hres as (-> & Hr & Hno). destruct (insertable slots key (NewKey key) e Hm Hr Hno) as [Hr' Hno'].
    destruct (insert_new_map data1 slots l e s (NewKey key) v) as (data2 & data3 & Hi & Hu & Ht'); [done..|]. rewrite Hi. cbn [mbind option_bind]. rewrite Hu. by exists data3.
Qed.
Lemma InsertNewOrGet_set NewKey data l key : table_of data l -> kPayloadSize = 0%nat -> zlen l < 2 ^ 28 -> is_key (NewKey key) = true -> Traits_IsMatch key (NewKey key) = true ->
  exists data', HashSet_InsertNewOrGet kPayloadSize kMetaDataSize NewKey data key = Some (match find_entry kt key l with Some s => s.1 | None => NewKey key end, data') /\
    table_of data' (match find_entry kt key l with Some _ => l | None => (NewKey key, []) :: l end).
Proof using All.
  intros Ht HP Hl Hnk Hm. destruct (insertion data l key Ht Hl) as (data1 & slots & present & e & s & HE & Hd & Hwf & Hroom & Hperm & Hfind & He & Hk & Hres).
  unfold HashSet_InsertNewOrGet. rewrite HE. cbn [mbind option_bind]. rewrite Hfind. cbn [mbind option_bind]. destruct present; cbn [negb].
  - destruct Hres as [-> Hms]. unfold GetKey. rewrite (holds_GetKey _ _ _ _ Hd _ _ He). exists data1. split; [done|]. exists slots. repeat (split; [done|]). split; [unfold room; lia|done].
  - destruct Hres as (-> & Hr & Hno). destruct (insertable slots key (NewKey key) e Hm Hr Hno) as [Hr' Hno'].
    destruct (insert_new_set data1 slots l e s (NewKey key)) as (data2 & Hi & Ht'); [done..|]. rewrite Hi. by exists data2.
Qed.
Lemma GetOrNull_set data l key : table_of data l ->
  HashSet_GetOrNull kPayloadSize kMetaDataSize data key = Some (match find_entry kt key l with Some s => (s.1, true) | None => (null_object, false) end).
Proof using All.
  intros (slots & Hd & Hwf & Hr & Hperm). destruct (lookup_spec kt data slots key l Hd Hwf Hr Hperm) as (present & e & s & _ & Hf & He & Hk & Hres).
  unfold HashSet_GetOrNull. rewrite Hf. cbn [mbind option_bind]. destruct present; destruct Hres as [-> _]; [|done]. rewrite (proj2 (Z.eqb_neq _ _)) by lia.
  unfold GetKey. by rewrite (holds_GetKey _ _ _ _ Hd _ _ He).
Qed.
End Abstract.

Lemma UpdateOrInsert_map data l key v : table_of data l -> kPayloadSize = 1%nat -> zlen l < 2 ^ 28 -> is_key key = true ->
  exists data', HashMap_UpdateOrInsert kPayloadSize kMetaDataSize data key v = Some (present_in ot key l, data') /\
    table_of data' (if present_in ot key l then set_entry ot key v l else (key, [v]) :: l).
Proof using All.
  intros Ht HP Hl Hnk. destruct (insertion ot data l key Ht Hl) as (data1 & slots & present & e & s & HE & Hd & Hwf & Hroom & Hperm & Hfind & He & Hk & Hres).
  unfold HashMap_UpdateOrInsert, present_in. rewrite HE. cbn [mbind option_bind]. rewrite Hfind. cbn [mbind option_bind]. destruct present; cbn [negb].
  - destruct Hres as [-> Hm]. cbn [mbind option_bind]. destruct (update_present ot data1 slots l key e s v) as (data2 & Hu & Ht'); [done|done|unfold room; lia|done|done|done|done|lia|].
    rewrite Hu. by exists data2.
  - destruct Hres as (-> & Hr & Hno). destruct (insert_new_map data1 slots l e s key v) as (data2 & data3 & Hi & Hu & Ht'); [done..|]. rewrite Hi. cbn [mbind option_bind]. rewrite Hu. by exists data3.
Qed.
Lemma Insert_set data l key : table_of data l -> kPayloadSize = 0%nat -> zlen l < 2 ^ 28 -> is_key key = true ->
  exists data', HashSet_Insert kPayloadSize kMetaDataSize data key = Some (present_in ot key l, data') /\
    table_of data' (if present_in ot key l then l else (key, []) :: l).
Proof using All.
  intros Ht HP Hl Hnk. destruct (insertion ot data l key Ht Hl) as (data1 & slots & present & e & s & HE & Hd & Hwf & Hroom & Hperm & Hfind & He & Hk & Hres).
  unfold HashSet_Insert, present_in. rewrite HE. cbn [mbind option_bind]. rewrite Hfind. cbn [mbind option_bind]. destruct present; cbn [negb].
  - destruct Hres as [-> Hm]. exists data1. split; [done|]. exists slots. repeat (split; [done|]). split; [unfold room; lia|done].
  - destruct Hres as (-> & Hr & Hno). destruct (insert_new_set data1 slots l e s key) as (data2 & Hi & Ht'); [done..|]. rewrite Hi. by exists data2.
Qed.

(** ** Serializing *)
Definition element_of (include_payload : bool) (s : slot) : list HeapValue := if include_payload then flat s else [s.1].
Lemma append_payload_spec data slots e s n i pre tail : holds_slots data slots -> slots !! e = Some s -> (n + i = kPayloadSize)%nat -> (n <= length tail)%nat ->
  append_payload kPayloadSize kMetaDataSize n data (Z.of_nat e) (Z.of_nat i) (pre ++ tail) (zlen pre) =
  Some (pre ++ drop i s.2 ++ drop n tail, zlen (pre ++ drop i s.2)).
Proof using.
  intros Hd He. assert (Hlen : length s.2 = kPayloadSize) by (destruct Hd as (_ & _ & Hsz & _); by apply (sized_lookup _ _ _ Hsz He)).
  revert i pre tail. induction n as [|n IH]; intros i pre tail Hn Ht; cbn [append_payload].
  { rewrite (drop_ge s.2) by lia. by rewrite app_nil_r. }
  destruct (GetPayload_spec data slots e s i Hd He) as (x & -> & Hx); [lia|]. cbn [mbind option_bind]. destruct tail as [|y tail]; [cbn in Ht; lia|].
  rewrite arr_set_middle by done. cbn [mbind option_bind]. specialize (IH (S i) (pre ++ [x]) tail). rewrite zlen_app in IH. change (zlen [x]) with 1 in IH.
  rewrite <- !app_assoc in IH. cbn [app] in IH. replace (Z.of_nat i + 1) with (Z.of_nat (S i)) by lia. rewrite IH by (cbn in Ht; lia).
  rewrite (drop_S _ _ _ Hx). done.
Qed.
Lemma ToArray_loop_spec data slots include fuel c result tail : holds_slots data slots -> (c <= length slots)%nat -> (length slots - c <= fuel)%nat ->
  result = (entries (take c slots) ≫= element_of include) ++ tail ->
  (length (entries (take c slots) ≫= element_of include) + length tail = length (entries slots ≫= element_of include))%nat ->
  ToArray_loop kPayloadSize kMetaDataSize fuel data include (Z.of_nat c - 1) result (zlen (entries (take c slots) ≫= element_of include)) =
  Some (entries slots ≫= element_of include).
Proof using.
  intros Hd. revert c result tail. induction fuel as [|fuel IH]; intros c result tail Hc Hfuel -> Hlen; cbn [ToArray_loop];
    destruct (Table_MoveNext_spec data slots c Hd Hc) as [[Hall [r ->]]|(e & s & Hce & He & Hkey & Htake & ->)]; cbn [mbind option_bind].
  1, 3: rewrite Hall in *; f_equal; destruct tail; [apply app_nil_r|cbn in Hlen; lia].
  - apply lookup_lt_Some in He. lia.
  - unfold GetKey. rewrite (holds_GetKey _ _ _ _ Hd _ _ He). cbn [mbind option_bind]. set (pre := entries (take c slots) ≫= element_of include) in *.
    assert (Hnext : entries (take (S e) slots) ≫= element_of include = pre ++ element_of include s) by (rewrite Htake, bind_app; cbn; by rewrite app_nil_r).
    assert (Hle : (length (pre ++ element_of include s) <= length (entries slots ≫= element_of include))%nat).
    { rewrite <- Hnext. rewrite <- (take_drop (S e) slots) at 2. unfold entries. rewrite list.filter_app, bind_app, length_app. lia. }
    assert (Hsize : length s.2 = kPayloadSize) by (destruct Hd as (_ & _ & Hsz & _); by apply (sized_lookup _ _ _ Hsz He)).
    rewrite length_app in Hle. apply lookup_lt_Some in He as Helt. destruct tail as [|y tail]; [destruct include; cbn in *; lia|].
    rewrite arr_set_middle by done. cbn [mbind option_bind]. specialize (IH (S e)). replace (Z.of_nat (S e) - 1) with (Z.of_nat e) in IH by lia. rewrite Hnext in IH.
    destruct include; cbn [mbind option_bind element_of flat] in *; unfold flat in *.
    + cbn in Hle, Hlen. replace (pre ++ s.1 :: tail) with ((pre ++ [s.1]) ++ tail) by by rewrite <- app_assoc.
      replace (zlen pre + 1) with (zlen (pre ++ [s.1])) by by rewrite zlen_app. change 0 with (Z.of_nat 0).
      rewrite (append_payload_spec data slots e s) by (done || lia). cbn [mbind option_bind]. rewrite drop_0, <- !app_assoc. cbn [app].
      apply (IH _ (drop kPayloadSize tail)); [lia|lia|by rewrite <- !app_assoc|]. rewrite length_app, length_drop. cbn. lia.
    + replace (zlen pre + 1) with (zlen (pre ++ [s.1])) by by rewrite zlen_app. apply (IH _ tail); [lia|lia|by rewrite <- app_assoc|]. rewrite length_app. cbn in *. lia.
Qed.
Lemma entries_size slots include : sized kPayloadSize slots ->
  length (entries slots ≫= element_of include) = Z.to_nat (zlen (entries slots) * (if include then 1 + Z.of_nat kPayloadSize else 1)).
Proof using.
  intros Hs. assert (Hall : Forall (fun s : slot => length s.2 = kPayloadSize) (entries slots)).
  { apply list.Forall_forall. intros s (_ & e & He)%entries_lookup. by apply (sized_lookup _ _ _ Hs He). }
  unfold zlen. induction Hall as [|s l Hsl _ IH]; [done|]. cbn. rewrite length_app, IH. destruct include; cbn; lia.
Qed.
Lemma ToArray_table data l include : table_of data l -> exists l', l' ≡ₚ l /\ HashTables_ToArray kPayloadSize kMetaDataSize data include = Some (l' ≫= element_of include).
Proof using.
  intros (slots & Hd & Hwf & Hr & Hperm). exists (entries slots). split; [done|]. unfold HashTables_ToArray.
  assert (Ho : NumOccupied data = Some (zlen (entries slots)) /\ sized kPayloadSize slots) by by destruct Hd as (meta & _ & ? & ->). destruct Ho as [-> Hs]. cbn [mbind option_bind].
  rewrite <- entries_size by done.
  apply (ToArray_loop_spec data slots include _ 0 _ (replicate (length (entries slots ≫= element_of include)) null_object)); [done|lia|rewrite (holds_NumEntries _ _ _ _ Hd); unfold zlen; lia|done|].
  rewrite length_replicate. done.
Qed.
End Operations.

(** C25: [HashMap] is a finite map up to the match function of its key
    traits: with a key of any lookup type, [GetOrNull] returns the value of the
    entry that matches, [UpdateOrInsert], [UpdateValue], [InsertOrGetValue]
    and [InsertNewOrGetValue] change or add exactly that entry, [Remove]
    deletes it, [Clear] all, and [ToArray] lists the entries; every
    operation ends and leaves an unused entry for the next search, however
    deletions and rehashing went before, since probing by triangle numbers
    visits every entry. *)
Theorem HashMap_refines {Key} (kt : KeyTraits Key) (ot : KeyTraits HeapValue) `{!ObjectLaws ot} `{!TraitsLaws kt ot} kMetaDataSize data l
    (key : Key) (NewKey : Key -> HeapValue) (obj v : HeapValue) :
  table_of 1 kMetaDataSize ot data l -> zlen l < 2 ^ 28 -> is_key obj = true -> is_key (NewKey key) = true -> Traits_IsMatch key (NewKey key) = true ->
  HashMap_GetOrNull 1 kMetaDataSize data key = Some (match find_entry kt key l with Some s => (value_of s, true) | None => (null_object, false) end) /\
  (exists data', HashMap_UpdateOrInsert 1 kMetaDataSize data obj v = Some (present_in ot obj l, data') /\
     table_of 1 kMetaDataSize ot data' (if present_in ot obj l then set_entry ot obj v l else (obj, [v]) :: l)) /\
  (present_in kt key l = true -> exists data', HashMap_UpdateValue 1 kMetaDataSize data key v = Some data' /\ table_of 1 kMetaDataSize ot data' (set_entry kt key v l)) /\
  (exists data', HashMap_InsertOrGetValue 1 kMetaDataSize data obj v = Some (match find_entry ot obj l with Some s => value_of s | None => v end, data') /\
     table_of 1 kMetaDataSize ot data' (match find_entry ot obj l with Some _ => l | None => (obj, [v]) :: l end)) /\
  (exists data', HashMap_InsertNewOrGetValue 1 kMetaDataSize NewKey data key v = Some (match find_entry kt key l with Some s => value_of s | None => v end, data') /\
     table_of 1 kMetaDataSize ot data' (match find_entry kt key l with Some _ => l | None => (NewKey key, [v]) :: l end)) /\
  (exists data', Table_Remove 1 kMetaDataSize data key = Some (present_in kt key l, data') /\ table_of 1 kMetaDataSize ot data' (remove_entry kt key l)) /\
  (exists data', Table_Clear data = Some data' /\ table_of 1 kMetaDataSize ot data' []) /\
  (exists l', l' ≡ₚ l /\ HashTables_ToArray 1 kMetaDataSize data true = Some (l' ≫= flat)).
Proof.
  intros Ht Hl Hobj Hnk Hm. split; [by apply (GetOrNull_map 1 kMetaDataSize ot kt)|]. split; [by apply (UpdateOrInsert_map 1 kMetaDataSize ot)|].
  split; [intros Hp; by apply (UpdateValue_map 1 kMetaDataSize ot kt)|].
  split; [apply (InsertNewOrGetValue_map 1 kMetaDataSize ot ot (fun key => key)); (done || apply match_refl)|].
  split; [by apply (InsertNewOrGetValue_map 1 kMetaDataSize ot kt)|]. split; [by apply (Remove_table 1 kMetaDataSize ot kt)|].
  split; [by apply (Clear_table 1 kMetaDataSize ot data l)|]. by apply (ToArray_table 1 kMetaDataSize ot data l true).
Qed.

(** [HashSet] is a set of keys up to the match function: [Insert],
    [InsertOrGet] and [InsertNewOrGet] add a key that is not there and else keep
    and return the one that matches, so that it canonicalizes; [GetOrNull],
    [Remove], [Clear] and [ToArray] as for maps. *)
Theorem HashSet_refines {Key} (kt : KeyTraits Key) (ot : KeyTraits HeapValue) `{!ObjectLaws ot} `{!TraitsLaws kt ot} kMetaDataSize data l
    (key : Key) (NewKey : Key -> HeapValue) (obj : HeapValue) :
  table_of 0 kMetaDataSize ot data l -> zlen l < 2 ^ 28 -> is_key obj = true -> is_key (NewKey key) = true -> Traits_IsMatch key (NewKey key) = true ->
  HashSet_GetOrNull 0 kMetaDataSize data key = Some (match find_entry kt key l with Some s => (s.1, true) | None => (null_object, false) end) /\
  (exists data', HashSet_Insert 0 kMetaDataSize data obj = Some (present_in ot obj l, data') /\
     table_of 0 kMetaDataSize ot data' (if present_in ot obj l then l else (obj, []) :: l)) /\
  (exists data', HashSet_InsertOrGet 0 kMetaDataSize data obj = Some (match find_entry ot obj l with Some s => s.1 | None => obj end, data') /\
     table_of 0 kMetaDataSize ot data' (match find_entry ot obj l with Some _ => l | None => (obj, []) :: l end)) /\
  (exists data', HashSet_InsertNewOrGet 0 kMetaDataSize NewKey data key = Some (match find_entry kt key l with Some s => s.1 | None => NewKey key end, data') /\
     table_of 0 kMetaDataSize ot data' (match find_entry kt key l with Some _ => l | None => (NewKey key, []) :: l end)) /\
  (exists data', Table_Remove 0 kMetaDataSize data key = Some (present_in kt key l, data') /\ table_of 0 kMetaDataSize ot data' (remove_entry kt key l)) /\
  (exists data', Table_Clear data = Some data' /\ table_of 0 kMetaDataSize ot data' []) /\
  (exists l', l' ≡ₚ l /\ HashTables_ToArray 0 kMetaDataSize data false = Some (l' ≫= element_of false)).
Proof.
  intros Ht Hl Hobj Hnk Hm. split; [by apply (GetOrNull_set 0 kMetaDataSize ot kt)|]. split; [by apply (Insert_set 0 kMetaDataSize ot)|].
  split; [apply (InsertNewOrGet_set 0 kMetaDataSize ot ot (fun key => key)); (done || apply match_refl)|].
  split; [by apply (InsertNewOrGet_set 0 kMetaDataSize ot kt)|]. split; [by apply (Remove_table 0 kMetaDataSize ot kt)|].
  split; [by apply (Clear_table 0 kMetaDataSize ot data l)|]. by apply (ToArray_table 0 kMetaDataSize ot data l false).
Qed.

(** The capacity given to [New] is lost at the first insertion: a table
    without entries counts as one with too many deleted entries, and is
    replaced by one of two entries. *)
Theorem New_capacity_lost (ot : KeyTraits HeapValue) `{!ObjectLaws ot} kPayloadSize kMetaDataSize initial_capacity : 0 <= initial_capacity < 2 ^ 30 ->
  exists data data', HashTables_New kPayloadSize kMetaDataSize initial_capacity = Some data /\ initial_capacity < NumEntries kPayloadSize kMetaDataSize data /\
    EnsureCapacity kPayloadSize kMetaDataSize data = Some data' /\ NumEntries kPayloadSize kMetaDataSize data' = 2.
Proof.
  intros Hc. destruct (HashTables_New_spec kPayloadSize kMetaDataSize _ Hc) as (k & data & Hk & Hcap & _ & Hnew & Hd). set (n := Z.to_nat (2 ^ k)) in *.
  destruct (fresh_entries kPayloadSize n) as [He Hdel]. destruct (EnsureCapacity_spec kPayloadSize kMetaDataSize ot data (fresh_slots kPayloadSize n) Hd) as (data' & slots' & HE & Hd' & _ & _ & _ & Hsize).
  - by apply fresh_wf.
  - by rewrite He.
  - exists data, data'. split; [done|]. rewrite (holds_NumEntries _ _ _ _ Hd), (holds_NumEntries _ _ _ _ Hd'). unfold fresh_slots in *.
    split; [unfold zlen; rewrite length_replicate; lia|]. split; [done|]. rewrite He, Hdel in Hsize. by apply Hsize.
Qed.

(** ** Witnesses: Smis as keys, with two classes of hash codes *)
Definition sample_traits : KeyTraits HeapValue := {|
  Traits_Hash o := match o with SmiObject v => v mod 2 | _ => 0 end;
  Traits_IsMatch a b := bool_decide (a = b) |}.
Lemma sample_laws : ObjectLaws sample_traits.
Proof.
  split; [split|].
  - intros key o Hm. cbn in *. by apply bool_decide_eq_true in Hm as ->.
  - intros key o o' Hm. cbn in *. by apply bool_decide_eq_true in Hm as ->.
  - intros o. cbn. by apply bool_decide_eq_true.
Qed.
Lemma sample_table P : exists data, HashTables_New P 0 4 = Some data /\ table_of P 0 sample_traits data [].
Proof. by apply New_table. Qed.
Lemma HashMap_refines_witness : exists data data1 data2, HashTables_New 1 0 4 = Some data /\
  HashMap_UpdateOrInsert (H := sample_traits) 1 0 data (SmiObject 3) null_object = Some (false, data1) /\
  Table_Remove (H0 := sample_traits) 1 0 data1 (SmiObject 3) = Some (true, data2) /\ table_of 1 0 sample_traits data2 [].
Proof.
  pose proof sample_laws as Hlaws. destruct (sample_table 1) as (data & Hnew & Ht).
  destruct (HashMap_refines sample_traits sample_traits 0 data [] (SmiObject 3) (fun k => k) (SmiObject 3) null_object) as (_ & (data1 & Hu & Ht1) & _); [done..|].
  destruct (HashMap_refines sample_traits sample_traits 0 data1 [(SmiObject 3, [null_object])] (SmiObject 3) (fun k => k) (SmiObject 3) null_object)
    as (_ & _ & _ & _ & _ & (data2 & Hr & Ht2) & _); [done..|]. exists data, data1, data2. split; [exact Hnew|]. split; [exact Hu|]. split; [exact Hr|exact Ht2].
Defined.
Lemma HashSet_refines_witness : exists data data1, HashTables_New 0 0 4 = Some data /\
  HashSet_Insert (H := sample_traits) 0 0 data (SmiObject 3) = Some (false, data1) /\
  HashSet_GetOrNull (H0 := sample_traits) 0 0 data1 (SmiObject 3) = Some (SmiObject 3, true).
Proof.
  pose proof sample_laws as Hlaws. destruct (sample_table 0) as (data & Hnew & Ht).
  destruct (HashSet_refines sample_traits sample_traits 0 data [] (SmiObject 3) (fun k => k) (SmiObject 3)) as (_ & (data1 & Hu & Ht1) & _); [done..|].
  destruct (HashSet_refines sample_traits sample_traits 0 data1 [(SmiObject 3, [])] (SmiObject 3) (fun k => k) (SmiObject 3)) as (Hg & _); [done..|]. exists data, data1. split; [exact Hnew|]. split; [exact Hu|exact Hg].
Defined.
