(* ===== verification/LiveRange.v ===== *)
(** * Live ranges of the register allocator
    (src/runtime/vm/compiler/backend/linearscan.{h,cc})

    Use intervals, use positions, safepoints and live ranges are objects in
    stores, linked by addresses ([NULL] is 0), since ranges, their siblings
    and the fingers that the allocator keeps into them share these objects.
    [None] is the dereference of [NULL] or of a dangling address, or a list that does
    not end. *)
From Stdlib Require Import Sorted.
From S2P Require Import Prelude ParallelMove.
From stdpp Require Import base gmap fin_maps list sorting.
Local Open Scope Z_scope.
Local Open Scope vm_scope.

(** ** Positions *)
Definition kNoVirtualRegister : Z := -1.
Definition kTempVirtualRegister : Z := -2.
Definition kIllegalPosition : Z := -1.
Definition kMaxPosition : Z := 0x7FFFFFFF.
Definition kPairVirtualRegisterOffset : Z := 1.
Definition ToSecondPairVreg (vreg : Z) : Z := if vreg =? kNoVirtualRegister then kNoVirtualRegister else vreg + kPairVirtualRegisterOffset.
Definition MinPosition (a b : Z) : Z := if a <? b then a else b.
Definition IsInstructionStartPosition (pos : Z) : bool := (pos &&& 1) =? 0.
Definition IsInstructionEndPosition (pos : Z) : bool := (pos &&& 1) =? 1.
Definition ToInstructionStart (pos : Z) : Z := pos &&& Z.lnot 1.
Definition ToInstructionEnd (pos : Z) : Z := pos ||| 1.

(** ** Objects *)
Inductive Policy := kAny | kPrefersRegister | kRequiresRegister | kRequiresFpuRegister | kWritableRegister | kSameAsFirstInput.
#[export] Instance Policy_eq_dec : EqDecision Policy.
Proof. solve_decision. Defined.
(** What a [Location*] points to. *)
Inductive LocationSlot := Unallocated (policy : Policy) | Allocated (location : Location).
Definition IsUnallocated (l : LocationSlot) : bool := match l with Unallocated _ => true | Allocated _ => false end.
Definition IsRegisterBeneficial (l : LocationSlot) : bool := match l with Unallocated kAny => false | _ => true end.

Inductive ValueRepresentation := kNoRepresentation | kTagged | kUntagged | kUnboxedDouble | kUnboxedFloat | kUnboxedInt32 | kUnboxedUint32 | kUnboxedInt64
  | kUnboxedFloat32x4 | kUnboxedInt32x4 | kUnboxedFloat64x2 | kPairOfTagged.
#[export] Instance ValueRepresentation_eq_dec : EqDecision ValueRepresentation.
Proof. solve_decision. Defined.

Record UseInterval := MkInterval { start_ : Z; end_ : Z; interval_next : Z }.
Record UsePosition := MkUse { pos_ : Z; location_slot_ : Z; hint_ : Z; use_next : Z }.
Record SafepointPosition := MkSafepoint { safepoint_pos : Z; locs_ : Z; safepoint_next : Z }.
Record AllocationFinger := MkFinger {
  first_pending_use_interval_ : Z; first_register_use_ : Z; first_register_beneficial_use_ : Z; first_hinted_use_ : Z }.
Record LiveRange := MkRange {
  vreg_ : Z; representation_ : ValueRepresentation; assigned_location_ : Location; spill_slot_ : Location;
  uses_ : Z; first_use_interval_ : Z; last_use_interval_ : Z; first_safepoint_ : Z; last_safepoint_ : Z; next_sibling_ : Z;
  has_only_any_uses_in_loops_ : Z; is_loop_phi_ : bool; finger_ : AllocationFinger }.
Definition NewFinger : AllocationFinger := MkFinger 0 0 0 0.
Definition NewLiveRange (vreg : Z) (rep : ValueRepresentation) : LiveRange := MkRange vreg rep NoLocation NoLocation 0 0 0 0 0 0 0 false NewFinger.

Record Objects := MkObjects {
  intervals : gmap Z UseInterval; positions : gmap Z UsePosition; safepoints : gmap Z SafepointPosition;
  ranges : gmap Z LiveRange; slots : gmap Z LocationSlot }.
(** What a hint points to: a location, or the assigned location of a range,
    whose address is the range's negated. *)
Definition hint_target (st : Objects) (hint : Z) : option LocationSlot :=
  if hint <? 0 then range ← ranges st !! (- hint); Some (Allocated (assigned_location_ range)) else slots st !! hint.
(** The address of a new object. *)
Definition fresh_address {A} (m : gmap Z A) : Z := fresh (dom m ∪ {[0]}).

(** ** UseInterval *)
Definition UseInterval_Contains (i : UseInterval) (pos : Z) : bool := (start_ i <=? pos) && (pos <? end_ i).
Definition UseInterval_Intersect (i other : UseInterval) : Z :=
  if start_ i <=? start_ other then (if start_ other <? end_ i then start_ other else kIllegalPosition)
  else if start_ i <? end_ other then start_ i
  else kIllegalPosition.
Fixpoint FirstIntersection_loop (fuel : nat) (m : gmap Z UseInterval) (a u : Z) : option Z :=
  match fuel with
  | O => None
  | S fuel =>
      if negb (a =? 0) && negb (u =? 0) then
        ai ← m !! a;
        ui ← m !! u;
        let pos := UseInterval_Intersect ai ui in
        if negb (pos =? kIllegalPosition) then Some pos
        else if start_ ai <? start_ ui then FirstIntersection_loop fuel m (interval_next ai) u
        else FirstIntersection_loop fuel m a (interval_next ui)
      else Some kMaxPosition
  end.
Definition FirstIntersection (m : gmap Z UseInterval) (a u : Z) : option Z := FirstIntersection_loop (S (size m + size m)) m a u.

(** ** AllocationFinger *)
Definition Finger_Initialize (range : LiveRange) : AllocationFinger :=
  MkFinger (first_use_interval_ range) (uses_ range) (uses_ range) (uses_ range).
Fixpoint Advance_loop (fuel : nat) (m : gmap Z UseInterval) (start a : Z) : option Z :=
  match fuel with
  | O => None
  | S fuel =>
      if a =? 0 then Some 0
      else i ← m !! a; if end_ i <=? start then Advance_loop fuel m start (interval_next i) else Some a
  end.
(** Whether no interval is left, and the finger. *)
Definition Finger_Advance (m : gmap Z UseInterval) (f : AllocationFinger) (start : Z) : option (bool * AllocationFinger) :=
  a ← Advance_loop (S (size m)) m start (first_pending_use_interval_ f);
  Some (a =? 0, MkFinger a (first_register_use_ f) (first_register_beneficial_use_ f) (first_hinted_use_ f)).

Section Hints.
Context (m : gmap Z UsePosition) (hint : Z -> option LocationSlot).
Definition HasHint (use : UsePosition) : option bool :=
  if hint_ use =? 0 then Some false else l ← hint (hint_ use); Some (negb (IsUnallocated l)).
Fixpoint FirstHint_loop (fuel : nat) (use : Z) : option Location :=
  match fuel with
  | O => None
  | S fuel =>
      if use =? 0 then Some NoLocation
      else
        u ← m !! use;
        has_hint ← HasHint u;
        if (has_hint : bool) then l ← hint (hint_ u); match l with Allocated l => Some l | Unallocated _ => None end
        else FirstHint_loop fuel (use_next u)
  end.
Definition FirstHint (f : AllocationFinger) : option Location := FirstHint_loop (S (size m)) (first_hinted_use_ f).


End Hints.

Section Uses.
Context (m : gmap Z UsePosition) (locations : gmap Z LocationSlot).
Fixpoint FirstUseAfter (fuel : nat) (use after : Z) : option Z :=
  match fuel with
  | O => None
  | S fuel => if use =? 0 then Some 0 else u ← m !! use; if pos_ u <? after then FirstUseAfter fuel (use_next u) after else Some use
  end.
(** The first use from [use] on whose location satisfies [p]. *)
Fixpoint first_use_where (p : LocationSlot -> bool) (fuel : nat) (use : Z) : option Z :=
  match fuel with
  | O => None
  | S fuel =>
      if use =? 0 then Some 0
      else u ← m !! use; loc ← locations !! location_slot_ u; if p loc then Some use else first_use_where p fuel (use_next u)
  end.
Definition requires_register (loc : LocationSlot) : bool :=
  match loc with Unallocated kRequiresRegister | Unallocated kRequiresFpuRegister => true | _ => false end.
(** The use, and the finger that remembers it. *)
Definition FirstRegisterUse (f : AllocationFinger) (after : Z) : option (Z * AllocationFinger) :=
  use ← FirstUseAfter (S (size m)) (first_register_use_ f) after;
  use ← first_use_where requires_register (S (size m)) use;
  Some (use, if use =? 0 then f
             else MkFinger (first_pending_use_interval_ f) use (first_register_beneficial_use_ f) (first_hinted_use_ f)).
Definition FirstRegisterBeneficialUse (f : AllocationFinger) (after : Z) : option (Z * AllocationFinger) :=
  use ← FirstUseAfter (S (size m)) (first_register_beneficial_use_ f) after;
  use ← first_use_where (fun loc => IsUnallocated loc && IsRegisterBeneficial loc) (S (size m)) use;
  Some (use, if use =? 0 then f
             else MkFinger (first_pending_use_interval_ f) (first_register_use_ f) use (first_hinted_use_ f)).
Definition FirstInterferingUse (f : AllocationFinger) (after : Z) : option (Z * AllocationFinger) :=
  FirstRegisterUse f (if IsInstructionEndPosition after then after + 1 else after).
Definition UpdateAfterSplit (f : AllocationFinger) (first_use_after_split_pos : Z) : option AllocationFinger :=
  let cut use := if use =? 0 then Some 0 else u ← m !! use; Some (if pos_ u >=? first_use_after_split_pos then 0 else use) in
  a ← cut (first_register_use_ f);
  b ← cut (first_register_beneficial_use_ f);
  Some (MkFinger (first_pending_use_interval_ f) a b (first_hinted_use_ f)).
End Uses.

(** ** LiveRange *)
Section Fields.
Implicit Types (r : LiveRange) (st : Objects).
Definition with_uses r (uses : Z) : LiveRange :=
  MkRange (vreg_ r) (representation_ r) (assigned_location_ r) (spill_slot_ r) uses (first_use_interval_ r) (last_use_interval_ r)
    (first_safepoint_ r) (last_safepoint_ r) (next_sibling_ r) (has_only_any_uses_in_loops_ r) (is_loop_phi_ r) (finger_ r).
Definition with_intervals r (first last : Z) : LiveRange :=
  MkRange (vreg_ r) (representation_ r) (assigned_location_ r) (spill_slot_ r) (uses_ r) first last
    (first_safepoint_ r) (last_safepoint_ r) (next_sibling_ r) (has_only_any_uses_in_loops_ r) (is_loop_phi_ r) (finger_ r).
Definition with_safepoints r (first last : Z) : LiveRange :=
  MkRange (vreg_ r) (representation_ r) (assigned_location_ r) (spill_slot_ r) (uses_ r) (first_use_interval_ r) (last_use_interval_ r)
    first last (next_sibling_ r) (has_only_any_uses_in_loops_ r) (is_loop_phi_ r) (finger_ r).
Definition with_sibling r (sibling : Z) : LiveRange :=
  MkRange (vreg_ r) (representation_ r) (assigned_location_ r) (spill_slot_ r) (uses_ r) (first_use_interval_ r) (last_use_interval_ r)
    (first_safepoint_ r) (last_safepoint_ r) sibling (has_only_any_uses_in_loops_ r) (is_loop_phi_ r) (finger_ r).
Definition with_finger r (finger : AllocationFinger) : LiveRange :=
  MkRange (vreg_ r) (representation_ r) (assigned_location_ r) (spill_slot_ r) (uses_ r) (first_use_interval_ r) (last_use_interval_ r)
    (first_safepoint_ r) (last_safepoint_ r) (next_sibling_ r) (has_only_any_uses_in_loops_ r) (is_loop_phi_ r) finger.
Definition put_interval st a i : Objects := MkObjects (<[a := i]> (intervals st)) (positions st) (safepoints st) (ranges st) (slots st).
Definition put_use st a u : Objects := MkObjects (intervals st) (<[a := u]> (positions st)) (safepoints st) (ranges st) (slots st).
Definition put_safepoint st a s : Objects := MkObjects (intervals st) (positions st) (<[a := s]> (safepoints st)) (ranges st) (slots st).
Definition put_range st a r : Objects := MkObjects (intervals st) (positions st) (safepoints st) (<[a := r]> (ranges st)) (slots st).
End Fields.

Definition Range_Start (st : Objects) (range : LiveRange) : option Z := i ← intervals st !! first_use_interval_ range; Some (start_ i).
Definition Range_End (st : Objects) (range : LiveRange) : option Z := i ← intervals st !! last_use_interval_ range; Some (end_ i).
Definition CanCover (st : Objects) (range : LiveRange) (pos : Z) : option bool :=
  s ← Range_Start st range; e ← Range_End st range; Some ((s <=? pos) && (pos <? e)).
Fixpoint Contains_loop (fuel : nat) (m : gmap Z UseInterval) (interval pos : Z) : option bool :=
  match fuel with
  | O => None
  | S fuel =>
      if interval =? 0 then Some false
      else i ← m !! interval; if UseInterval_Contains i pos then Some true else Contains_loop fuel m (interval_next i) pos
  end.
Definition Range_Contains (st : Objects) (range : LiveRange) (pos : Z) : option bool :=
  can_cover ← CanCover st range pos;
  if negb can_cover then Some false
  else Contains_loop (S (size (intervals st))) (intervals st) (first_use_interval_ range) pos.

Fixpoint insert_after_loop (fuel : nat) (m : gmap Z UsePosition) (pos insert_after : Z) : option Z :=
  match fuel with
  | O => None
  | S fuel =>
      u ← m !! insert_after;
      if use_next u =? 0 then Some insert_after
      else n ← m !! use_next u; if pos_ n <? pos then insert_after_loop fuel m pos (use_next u) else Some insert_after
  end.
(** The use at [pos] with that slot, or 0. *)
Fixpoint insert_before_loop (fuel : nat) (m : gmap Z UsePosition) (pos location_slot insert_before : Z) : option Z :=
  match fuel with
  | O => None
  | S fuel =>
      if insert_before =? 0 then Some 0
      else
        u ← m !! insert_before;
        if pos_ u =? pos then
          if location_slot_ u =? location_slot then Some insert_before
          else insert_before_loop fuel m pos location_slot (use_next u)
        else Some 0
  end.
Definition AddUse (st : Objects) (r pos location_slot : Z) : option (Z * Objects) :=
  range ← ranges st !! r;
  let m := positions st in
  let a := fresh_address m in
  let prepend := Some (a, put_range (put_use st a (MkUse pos location_slot 0 (uses_ range))) r (with_uses range a)) in
  if uses_ range =? 0 then prepend
  else
    first ← m !! uses_ range;
    if (pos_ first =? pos) && (location_slot_ first =? location_slot) then Some (uses_ range, st)
    else if pos_ first <? pos then
      insert_after ← insert_after_loop (S (size m)) m pos (uses_ range);
      after ← m !! insert_after;
      found ← insert_before_loop (S (size m)) m pos location_slot (use_next after);
      if negb (found =? 0) then Some (found, st)
      else
        Some (a, put_use (put_use st a (MkUse pos location_slot 0 (use_next after))) insert_after
                   (MkUse (pos_ after) (location_slot_ after) (hint_ after) a))
    else prepend.
Definition AddHintedUse (st : Objects) (r pos location_slot hint : Z) : option Objects :=
  '(a, st) ← AddUse st r pos location_slot;
  u ← positions st !! a;
  Some (put_use st a (MkUse (pos_ u) (location_slot_ u) hint (use_next u))).
Definition AddSafepoint (st : Objects) (r pos locs : Z) : option Objects :=
  range ← ranges st !! r;
  let a := fresh_address (safepoints st) in
  let st := put_safepoint st a (MkSafepoint (ToInstructionEnd pos) locs 0) in
  if first_safepoint_ range =? 0 then Some (put_range st r (with_safepoints range a a))
  else
    l ← safepoints st !! last_safepoint_ range;
    Some (put_range (put_safepoint st (last_safepoint_ range) (MkSafepoint (safepoint_pos l) (locs_ l) a)) r
            (with_safepoints range (first_safepoint_ range) a)).

Definition AddUseInterval (st : Objects) (r start end_pos : Z) : option Objects :=
  range ← ranges st !! r;
  let first := first_use_interval_ range in
  let a := fresh_address (intervals st) in
  let prepend :=
    Some (put_range (put_interval st a (MkInterval start end_pos first)) r
            (with_intervals range a (if last_use_interval_ range =? 0 then a else last_use_interval_ range))) in
  if first =? 0 then prepend
  else
    i ← intervals st !! first;
    if start >? start_ i then Some st
    else if start =? start_ i then
      if end_pos <=? end_ i then Some st else Some (put_interval st first (MkInterval (start_ i) end_pos (interval_next i)))
    else if end_pos =? start_ i then Some (put_interval st first (MkInterval start (end_ i) (interval_next i)))
    else prepend.
Definition DefineAt (st : Objects) (r pos : Z) : option Objects :=
  range ← ranges st !! r;
  if first_use_interval_ range =? 0 then
    let a := fresh_address (intervals st) in
    Some (put_range (put_interval st a (MkInterval pos (pos + 1) 0)) r (with_intervals range a a))
  else
    i ← intervals st !! first_use_interval_ range;
    Some (put_interval st (first_use_interval_ range) (MkInterval pos (end_ i) (interval_next i))).

(** ** Splitting *)
(** The template parameter [PositionType]. *)
Class PositionType (P : Type) := { pt_pos : P -> Z; pt_next : P -> Z; pt_set_next : P -> Z -> P }.
#[export] Instance UsePosition_type : PositionType UsePosition := {|
  pt_pos := pos_; pt_next := use_next; pt_set_next u n := MkUse (pos_ u) (location_slot_ u) (hint_ u) n |}.
#[export] Instance SafepointPosition_type : PositionType SafepointPosition := {|
  pt_pos := safepoint_pos; pt_next := safepoint_next; pt_set_next s n := MkSafepoint (safepoint_pos s) (locs_ s) n |}.
Section SplitList.
Context {P : Type} `{PositionType P}.
(** The last position before the split, and the first one behind it. *)
Fixpoint SplitList_loop (fuel : nat) (m : gmap Z P) (split_pos : Z) (split_at_start : bool) (last_before_split pos : Z) : option (Z * Z) :=
  match fuel with
  | O => None
  | S fuel =>
      if pos =? 0 then Some (last_before_split, 0)
      else
        p ← m !! pos;
        if (if split_at_start then pt_pos p <? split_pos else pt_pos p <=? split_pos)
        then SplitList_loop fuel m split_pos split_at_start pos (pt_next p)
        else Some (last_before_split, pos)
  end.
(** The first position behind the split, the head and the store. *)
Definition SplitListOfPositions (m : gmap Z P) (head split_pos : Z) (split_at_start : bool) : option (Z * Z * gmap Z P) :=
  '(last_before_split, pos) ← SplitList_loop (S (size m)) m split_pos split_at_start 0 head;
  if last_before_split =? 0 then Some (pos, 0, m)
  else p ← m !! last_before_split; Some (pos, head, <[last_before_split := pt_set_next p 0]> m).
End SplitList.

Fixpoint SplitAt_loop (fuel : nat) (m : gmap Z UseInterval) (split_pos last_before_split interval : Z) : option (Z * Z) :=
  match fuel with
  | O => None
  | S fuel =>
      i ← m !! interval;
      if end_ i <=? split_pos then SplitAt_loop fuel m split_pos interval (interval_next i) else Some (last_before_split, interval)
  end.
(** The store, the first interval behind the split and the last one before it. *)
Definition SplitInterval (m : gmap Z UseInterval) (i : UseInterval) (interval split_pos last_before_split : Z) : gmap Z UseInterval * Z * Z :=
  if negb (start_ i =? split_pos) && UseInterval_Contains i split_pos then
    (<[interval := MkInterval (start_ i) split_pos (fresh_address m)]> (<[fresh_address m := MkInterval split_pos (end_ i) (interval_next i)]> m), fresh_address m, interval)
  else (m, interval, last_before_split).
(** The range behind the split. *)
Definition SplitAt (st : Objects) (r split_pos : Z) : option (Z * Objects) :=
  range ← ranges st !! r;
  s ← Range_Start st range;
  if s =? split_pos then Some (r, st)
  else
    let finger := if first_pending_use_interval_ (finger_ range) =? 0 then Finger_Initialize range else finger_ range in
    let interval := first_pending_use_interval_ finger in
    i ← intervals st !! interval;
    let interval := if split_pos <=? start_ i then first_use_interval_ range else interval in
    '(last_before_split, interval) ← SplitAt_loop (S (size (intervals st))) (intervals st) split_pos 0 interval;
    i ← intervals st !! interval;
    let split_at_start := start_ i =? split_pos in
    let '(m, first_after_split, last_before_split) := SplitInterval (intervals st) i interval split_pos last_before_split in
    '(first_use_after_split, uses, positions) ← SplitListOfPositions (positions st) (uses_ range) split_pos split_at_start;
    '(first_safepoint_after_split, first_safepoint, safepoints) ← SplitListOfPositions (safepoints st) (first_safepoint_ range) split_pos split_at_start;
    let last_use_interval := if last_before_split =? last_use_interval_ range then first_after_split else last_use_interval_ range in
    let sibling := fresh_address (ranges st) in
    let new_range :=
      MkRange (vreg_ range) (representation_ range) NoLocation NoLocation first_use_after_split first_after_split last_use_interval
        first_safepoint_after_split 0 (next_sibling_ range) 0 false NewFinger in
    l ← m !! last_before_split;
    let m := <[last_before_split := MkInterval (start_ l) (end_ l) 0]> m in
    finger ← (if negb (first_use_after_split =? 0) then u ← positions !! first_use_after_split; UpdateAfterSplit positions finger (pos_ u) else Some finger);
    let range := with_finger (with_sibling (with_safepoints (with_uses (with_intervals range (first_use_interval_ range) last_before_split) uses)
                   first_safepoint (last_safepoint_ range)) sibling) finger in
    Some (sibling, MkObjects m positions safepoints (<[r := range]> (<[sibling := new_range]> (ranges st))) (slots st)).

(** ** The registers *)
(** The first position at which a range that has the register intersects
    the range to be allocated; [allocated] is [registers_[reg]]. *)
Fixpoint FirstIntersection_all (st : Objects) (unallocated_head : Z) (allocated : list Z) (intersection : Z) : option Z :=
  match allocated with
  | [] => Some intersection
  | a :: allocated =>
      if a =? 0 then FirstIntersection_all st unallocated_head allocated intersection
      else
        range ← ranges st !! a;
        let allocated_head := first_pending_use_interval_ (finger_ range) in
        i ← intervals st !! allocated_head;
        if start_ i >=? intersection then FirstIntersection_all st unallocated_head allocated intersection
        else
          pos ← FirstIntersection (intervals st) unallocated_head allocated_head;
          FirstIntersection_all st unallocated_head allocated (if pos <? intersection then pos else intersection)
  end.
Definition FirstIntersectionWithAllocated (st : Objects) (allocated : list Z) (unallocated : LiveRange) : option Z :=
  FirstIntersection_all st (first_pending_use_interval_ (finger_ unallocated)) allocated kMaxPosition.

(** ** Linked lists *)
Section Seg.
Context {A : Type} (next : A -> Z).
Implicit Types (m : gmap Z A) (ns : list (Z * A)).
(** The nodes from [p] up to [q], with their addresses. *)
Fixpoint seg m (p q : Z) ns : Prop :=
  match ns with
  | [] => p = q
  | (a, n) :: ns => p = a /\ a <> 0 /\ m !! a = Some n /\ seg m (next n) q ns
  end.
Lemma seg_app m p q l1 l2 : seg m p q (l1 ++ l2) <-> exists mid, seg m p mid l1 /\ seg m mid q l2.
Proof.
  revert p. induction l1 as [|[a n] l1 IH]; intros p; cbn.
  - split; [intros H; by exists p|]. by intros (mid & -> & H).
  - rewrite IH. split; [intros (-> & Hn & Hm & mid & H1 & H2); exists mid; auto|intros (mid & (-> & Hn & Hm & H1) & H2)]. split; [done|]. split; [done|]. split; [done|]. by exists mid.
Qed.
Lemma seg_insert m p q ns a n : a ∉ ns.*1 -> seg m p q ns -> seg (<[a := n]> m) p q ns.
Proof.
  revert p. induction ns as [|[b x] ns IH]; intros p Ha; cbn; [done|]. rewrite fmap_cons in Ha. apply not_elem_of_cons in Ha as [Hne Ha].
  intros (-> & Hb & Hx & Hs). split; [done|]. split; [done|]. split; [by rewrite lookup_insert_ne|]. by apply IH.
Qed.
Lemma seg_agree m m' p q ns : seg m p q ns -> (forall a, a ∈ ns.*1 -> m' !! a = m !! a) -> seg m' p q ns.
Proof.
  revert p. induction ns as [|[b x] ns IH]; intros p; cbn; [done|]. intros (-> & Hb & Hx & Hs) Hm. split; [done|]. split; [done|].
  split; [rewrite Hm; [done|]; by left|]. apply IH; [done|]. intros a Ha. apply Hm. by right.
Qed.
Lemma seg_lookup m p q ns a n : seg m p q ns -> (a, n) ∈ ns -> m !! a = Some n /\ a <> 0.
Proof.
  revert p. induction ns as [|[b x] ns IH]; intros p Hs Hin; [by apply not_elem_of_nil in Hin|]. destruct Hs as (-> & Hb & Hx & Hs).
  apply elem_of_cons in Hin as [Heq|Hin]; [by injection Heq as -> ->|by eapply IH].
Qed.
(** The walk of a list does not leave the store, so that it is no longer. *)
Lemma seg_size m p q ns : seg m p q ns -> NoDup ns.*1 -> (length ns <= size m)%nat.
Proof.
  intros Hs Hnd. rewrite <- (length_fmap fst ns). rewrite <- (size_list_to_set (C := gset Z) _ Hnd), <- (size_dom (D := gset Z) m).
  apply subseteq_size. intros a Ha. apply elem_of_list_to_set in Ha. apply list_elem_of_fmap in Ha as ([b x] & -> & Hin).
  apply elem_of_dom. exists x. by apply (seg_lookup _ _ _ _ _ _ Hs Hin).
Qed.
Lemma seg_nonnull m p ns : seg m p 0 ns -> p <> 0 -> exists n ns', ns = (p, n) :: ns' /\ m !! p = Some n /\ seg m (next n) 0 ns'.
Proof. destruct ns as [|[a n] ns]; cbn; [by intros ->|]. intros (-> & _ & Hn & Hs) _. by exists n, ns. Qed.
Lemma seg_null m ns : seg m 0 0 ns -> ns = [].
Proof. destruct ns as [|[a n] ns]; [done|]. by intros (<- & ? & _). Qed.
Definition last_id ns (default : Z) : Z := match list.last ns with Some (a, _) => a | None => default end.

Lemma last_id_cons a n ns d : last_id ((a, n) :: ns) d = last_id ns a.
Proof. unfold last_id. rewrite last_cons. by destruct (list.last ns) as [[]|]. Qed.
Lemma last_seg m p q l : seg m p q l -> l <> [] -> exists l' a n, l = l' ++ [(a, n)] /\ last_id l 0 = a /\ m !! a = Some n /\ a <> 0 /\ next n = q /\ seg m p a l'.
Proof.
  intros Hs Hne. destruct l as [|[a n] l' _] using rev_ind; [done|]. exists l', a, n. unfold last_id. rewrite last_snoc.
  apply seg_app in Hs as (mid & H1 & (-> & Ha & Hm & Hq)). done.
Qed.
End Seg.
Lemma fresh_address_spec {A} (m : gmap Z A) : m !! fresh_address m = None /\ fresh_address m <> 0.
Proof.
  pose proof (is_fresh (dom m ∪ {[0]} : gset Z)) as H. fold (fresh_address m) in H. rewrite not_elem_of_union, not_elem_of_singleton in H.
  destruct H as [H1 H2]. split; [by apply not_elem_of_dom in H1|done].
Qed.
Lemma fresh_address_seg {A} (next : A -> Z) m p q ns : seg next m p q ns -> fresh_address m ∉ ns.*1.
Proof.
  intros Hs Hin. apply list_elem_of_fmap in Hin as ([b x] & Heq & Hin). cbn in Heq. apply (seg_lookup next m p q ns) in Hin as [Hx _]; [|done].
  subst b. destruct (fresh_address_spec m) as [Hf _]. congruence.
Qed.

(** ** Lists of intervals *)
Abbreviation nodes := (list (Z * UseInterval)).
(** Nonempty intervals in order, from [lo] on. *)
Fixpoint in_order (lo : Z) (ns : nodes) : Prop :=
  match ns with
  | [] => True
  | (_, i) :: ns => lo <= start_ i < end_ i /\ in_order (end_ i) ns
  end.
Definition live_at (ns : nodes) (pos : Z) : Prop := exists a i, (a, i) ∈ ns /\ start_ i <= pos < end_ i.
Lemma live_at_nil pos : ~ live_at [] pos.
Proof. intros (a & i & Hin & _). by apply not_elem_of_nil in Hin. Qed.
Lemma live_at_cons a i ns pos : live_at ((a, i) :: ns) pos <-> start_ i <= pos < end_ i \/ live_at ns pos.
Proof.
  unfold live_at. setoid_rewrite elem_of_cons. split.
  - intros (b & x & [Heq|Hin] & Hx); [injection Heq as -> ->; by left|]. right. by exists b, x.
  - intros [Hi|(b & x & Hin & Hx)]; [exists a, i; split; [by left|done]|]. exists b, x. split; [by right|done].
Qed.
Lemma live_at_app l1 l2 pos : live_at (l1 ++ l2) pos <-> live_at l1 pos \/ live_at l2 pos.
Proof.
  induction l1 as [|[a i] l1 IH]; [split; [by right|]; intros [H|H]; [by apply live_at_nil in H|done]|]. cbn [app]. rewrite !live_at_cons, IH. tauto.
Qed.
Lemma in_order_lower lo ns pos : in_order lo ns -> live_at ns pos -> lo <= pos.
Proof.
  revert lo. induction ns as [|[a i] ns IH]; intros lo Ho Hc; [by apply live_at_nil in Hc|]. destruct Ho as [Hi Ho].
  apply live_at_cons in Hc as [Hc|Hc]; [lia|]. specialize (IH _ Ho Hc). lia.
Qed.
Lemma in_order_weaken lo lo' ns : lo' <= lo -> in_order lo ns -> in_order lo' ns.
Proof. destruct ns as [|[a i] ns]; [done|]. cbn. intros Hl [Hi Ho]. split; [lia|done]. Qed.

(** [FirstIntersection]: the least position at which both lists are live. *)
Definition least_common (a u : nodes) (pos : Z) : Prop :=
  (pos = kMaxPosition /\ forall q, live_at a q -> ~ live_at u q) \/
  (live_at a pos /\ live_at u pos /\ forall q, live_at a q -> live_at u q -> pos <= q).
Lemma least_common_drop_l a i ns u pos : (forall q, start_ i <= q < end_ i -> ~ live_at u q) -> least_common ns u pos -> least_common ((a, i) :: ns) u pos.
Proof.
  intros Hno [[-> Hn]|(Ha & Hu & Hle)]; [left; split; [done|]|right].
  - intros q [Hq|Hq]%live_at_cons; [by apply Hno|by apply Hn].
  - split; [apply live_at_cons; by right|]. split; [done|]. intros q [Hq|Hq]%live_at_cons Huq; [by destruct (Hno q Hq)|by apply Hle].
Qed.
Lemma least_common_sym a u pos : least_common a u pos -> least_common u a pos.
Proof. intros [[-> Hn]|(Ha & Hu & Hle)]; [left; split; [done|]; intros q H1 H2; by apply (Hn q)|right; auto]. Qed.
Lemma FirstIntersection_loop_spec fuel m a u an un lo lo' : seg interval_next m a 0 an -> seg interval_next m u 0 un -> 0 <= lo -> 0 <= lo' -> in_order lo an -> in_order lo' un ->
  (length an + length un < fuel)%nat -> exists pos, FirstIntersection_loop fuel m a u = Some pos /\ least_common an un pos.
Proof.
  revert a u an un lo lo'. induction fuel as [|fuel IH]; intros a u an un lo lo' Ha Hu Hlo Hlo' Hao Huo Hfuel; [lia|]. cbn [FirstIntersection_loop].
  destruct (Z.eqb_spec a 0) as [->|Hna]; cbn [negb andb].
  { apply seg_null in Ha as ->. exists kMaxPosition. split; [done|]. left. split; [done|]. intros q Hq. by apply live_at_nil in Hq. }
  destruct (Z.eqb_spec u 0) as [->|Hnu]; cbn [negb].
  { apply seg_null in Hu as ->. exists kMaxPosition. split; [done|]. left. split; [done|]. intros q _ Hq. by apply live_at_nil in Hq. }
  destruct (seg_nonnull _ _ _ _ Ha Hna) as (ai & an' & -> & Hai & Ha'), (seg_nonnull _ _ _ _ Hu Hnu) as (ui & un' & -> & Hui & Hu').
  rewrite Hai, Hui. cbn [mbind option_bind in_order length] in *. destruct Hao as [Hi Hao], Huo as [Hj Huo].
  assert (Hhit : forall pos, start_ ai <= pos < end_ ai -> start_ ui <= pos < end_ ui -> (pos = start_ ai \/ pos = start_ ui) -> least_common ((a, ai) :: an') ((u, ui) :: un') pos).
  { intros pos H1 H2 Hor. right. split; [apply live_at_cons; by left|]. split; [apply live_at_cons; by left|]. intros q Hq Hq'.
    apply (in_order_lower (start_ ai)) in Hq; [|cbn; split; [lia|done]]. apply (in_order_lower (start_ ui)) in Hq'; [|cbn; split; [lia|done]]. lia. }
  unfold UseInterval_Intersect, kIllegalPosition. destruct (Z.leb_spec (start_ ai) (start_ ui)) as [Hle|Hgt].
  - destruct (Z.ltb_spec (start_ ui) (end_ ai)) as [Hlt|Hge].
    + rewrite (proj2 (Z.eqb_neq _ _)) by lia. exists (start_ ui). split; [done|]. apply Hhit; lia.
    + rewrite Z.eqb_refl. cbn [negb]. rewrite (proj2 (Z.ltb_lt _ _)) by lia.
      destruct (IH (interval_next ai) u an' ((u, ui) :: un') (end_ ai) lo') as (pos & -> & Hpos); [done|done|lia|lia|done|done|cbn; lia|].
      exists pos. split; [done|]. apply least_common_drop_l; [|done]. intros q Hq Hc. apply (in_order_lower (start_ ui)) in Hc; [lia|cbn; split; [lia|done]].
  - destruct (Z.ltb_spec (start_ ai) (end_ ui)) as [Hlt|Hge].
    + rewrite (proj2 (Z.eqb_neq _ _)) by lia. exists (start_ ai). split; [done|]. apply Hhit; lia.
    + rewrite Z.eqb_refl. cbn [negb]. rewrite (proj2 (Z.ltb_ge _ _)) by lia.
      destruct (IH a (interval_next ui) ((a, ai) :: an') un' lo (end_ ui)) as (pos & -> & Hpos); [done|done|lia|lia|done|done|cbn; lia|].
      exists pos. split; [done|]. apply least_common_sym, least_common_drop_l; [|by apply least_common_sym]. intros q Hq Hc. apply (in_order_lower (start_ ai)) in Hc; [lia|cbn; split; [lia|done]].
Qed.
Lemma in_order_ids m p q ns lo : seg interval_next m p q ns -> in_order lo ns -> NoDup ns.*1.
Proof.
  revert p lo. induction ns as [|[a i] ns IH]; intros p lo Hs Ho; [constructor|]. destruct Hs as (-> & Ha & Hi & Hs), Ho as [Hl Ho]. rewrite fmap_cons.
  apply NoDup_cons_2; [|by eapply IH]. intros ([b x] & Heq & Hin)%list_elem_of_fmap. cbn in Heq. subst b.
  destruct (seg_lookup _ _ _ _ _ _ _ Hs Hin) as [Hx _]. rewrite Hi in Hx. injection Hx as <-.
  assert (Hc : live_at ns (start_ i)) by (exists a, i; split; [done|]; lia). apply (in_order_lower _ _ _ Ho) in Hc. lia.
Qed.
Lemma FirstIntersection_spec m a u an un : seg interval_next m a 0 an -> seg interval_next m u 0 un -> in_order 0 an -> in_order 0 un ->
  exists pos, FirstIntersection m a u = Some pos /\ least_common an un pos.
Proof.
  intros Ha Hu Hao Huo. apply (FirstIntersection_loop_spec _ _ _ _ _ _ 0 0); try done.
  pose proof (seg_size _ _ _ _ _ Ha (in_order_ids _ _ _ _ _ Ha Hao)). pose proof (seg_size _ _ _ _ _ Hu (in_order_ids _ _ _ _ _ Hu Huo)). lia.
Qed.

(** ** Splitting a list of positions *)
Class PositionLaws (P : Type) `{PositionType P} : Prop := {
  pos_set_next (p : P) n : pt_pos (pt_set_next p n) = pt_pos p;
  next_set_next (p : P) n : pt_next (pt_set_next p n) = n;
  set_next_twice (p : P) n n' : pt_set_next (pt_set_next p n) n' = pt_set_next p n' }.
#[export] Instance UsePosition_laws : PositionLaws UsePosition.
Proof. by split. Qed.
#[export] Instance SafepointPosition_laws : PositionLaws SafepointPosition.
Proof. by split. Qed.

Section SplitLists.
Context {P : Type} `{PositionLaws P}.
Implicit Types (m : gmap Z P) (ns : list (Z * P)).
(** What a position is apart from its link. *)
Definition unlinked (x : Z * P) : Z * P := (x.1, pt_set_next x.2 0).
Definition by_position ns : Prop := StronglySorted (fun x y => pt_pos x.2 <= pt_pos y.2) ns.
Definition before (split_pos : Z) (split_at_start : bool) (x : Z * P) : Prop := if split_at_start then pt_pos x.2 < split_pos else pt_pos x.2 <= split_pos.
Lemma SplitList_loop_spec fuel m split_pos at_start l p ns : seg pt_next m p 0 ns -> (length ns < fuel)%nat ->
  exists l1 l2 q, ns = l1 ++ l2 /\ seg pt_next m p q l1 /\ seg pt_next m q 0 l2 /\ Forall (before split_pos at_start) l1 /\
    match l2 with [] => True | x :: _ => ~ before split_pos at_start x end /\
    SplitList_loop fuel m split_pos at_start l p = Some (last_id l1 l, q).
Proof using.
  revert l p ns. induction fuel as [|fuel IH]; intros l p ns Hs Hfuel; [lia|]. cbn [SplitList_loop]. destruct (Z.eqb_spec p 0) as [->|Hp].
  - apply seg_null in Hs as ->. exists [], [], 0. done.
  - destruct (seg_nonnull _ _ _ _ Hs Hp) as (n & ns' & -> & Hn & Hs'). rewrite Hn. cbn [mbind option_bind].
    assert (Hdec : (if at_start then pt_pos n <? split_pos else pt_pos n <=? split_pos) = true <-> before split_pos at_start (p, n)).
    { unfold before. cbn. destruct at_start; [apply Z.ltb_lt|apply Z.leb_le]. }
    destruct (if at_start then _ else _).
    + destruct (IH p (pt_next n) ns' Hs') as (l1 & l2 & q & -> & H1 & H2 & Hb & Hnb & ->); [cbn in Hfuel; lia|].
      exists ((p, n) :: l1), l2, q. split; [done|]. split; [done|]. split; [done|]. split; [constructor; [by apply Hdec|done]|]. split; [done|]. by rewrite last_id_cons.
    + exists [], ((p, n) :: ns'), p. split; [done|]. split; [done|]. split; [done|]. split; [constructor|]. split; [|done]. intros Hx. by apply Hdec in Hx.
Qed.
Lemma by_position_app l1 x l2 split_pos at_start : by_position (l1 ++ x :: l2) -> ~ before split_pos at_start x -> Forall (fun y => ~ before split_pos at_start y) (x :: l2).
Proof using.
  intros Hs Hx. apply StronglySorted_app_1_r in Hs. apply StronglySorted_inv in Hs as [_ Hs]. constructor; [done|].
  eapply list.Forall_impl; [exact Hs|]. intros y Hy Hb. apply Hx. unfold before in *. cbn in *. destruct at_start; lia.
Qed.
Lemma SplitListOfPositions_spec m head split_pos at_start ns : seg pt_next m head 0 ns -> NoDup ns.*1 -> by_position ns ->
  exists pos head' m' l1 l2, SplitListOfPositions m head split_pos at_start = Some (pos, head', m') /\ seg pt_next m' head' 0 l1 /\ seg pt_next m' pos 0 l2 /\
    unlinked <$> (l1 ++ l2) = unlinked <$> ns /\ Forall (before split_pos at_start) l1 /\ Forall (fun x => ~ before split_pos at_start x) l2 /\
    (forall a, a ∉ ns.*1 -> m' !! a = m !! a) /\ dom m' = dom m.
Proof using All.
  intros Hs Hnd Hsorted. destruct (SplitList_loop_spec (S (size m)) m split_pos at_start 0 head ns Hs) as (l1 & l2 & q & -> & H1 & H2 & Hb & Hnb & Hloop).
  { pose proof (seg_size _ _ _ _ _ Hs Hnd). lia. }
  assert (Hafter : Forall (fun x => ~ before split_pos at_start x) l2) by (destruct l2 as [|x l2]; [constructor|]; by apply (by_position_app l1)).
  unfold SplitListOfPositions. rewrite Hloop. cbn [mbind option_bind]. destruct (decide (l1 = [])) as [->|Hne].
  { exists q, 0, m, [], l2. split; [done|]. by repeat (split; [done|]). }
  destruct (last_seg _ _ _ _ _ H1 Hne) as (l' & a & n & -> & -> & Ha & Ha0 & Hq & Hl'). rewrite (proj2 (Z.eqb_neq _ _)) by done. rewrite Ha. cbn [mbind option_bind].
  rewrite !fmap_app in Hnd. apply NoDup_app in Hnd as (Hnd1 & Hdisj & _). apply NoDup_app in Hnd1 as (_ & Hdisj1 & _).
  assert (Hal' : a ∉ l'.*1) by (intros Hin; apply (Hdisj1 _ Hin); by left).
  assert (Hal2 : a ∉ l2.*1) by (intros Hin; apply (Hdisj a); [apply elem_of_app; right; by left|done]).
  exists q, head, (<[a := pt_set_next n 0]> m), (l' ++ [(a, pt_set_next n 0)]), l2. split; [done|]. split; [|split; [|split; [|split; [|split; [done|split]]]]].
  - apply seg_app. exists a. split; [by apply seg_insert|]. cbn. split; [done|]. split; [done|]. split; [apply lookup_insert_eq|]. apply next_set_next.
  - by apply seg_insert.
  - rewrite !fmap_app. cbn. unfold unlinked at 2 5. cbn. by rewrite set_next_twice.
  - apply Forall_app in Hb as [Hb1 Hb2]. apply Forall_app. split; [done|]. rewrite Forall_singleton in Hb2 |- *. unfold before in *. cbn [snd] in *. rewrite pos_set_next. exact Hb2.
  - intros b Hb'. rewrite lookup_insert_ne; [done|]. intros <-. apply Hb'. rewrite !fmap_app. apply elem_of_app. left. apply elem_of_app. right. by left.
  - apply dom_insert_lookup_L. by exists n.
Qed.
End SplitLists.

(** ** Splitting the intervals *)
Lemma in_order_app lo l1 l2 : in_order lo (l1 ++ l2) -> in_order lo l1 /\ in_order lo l2 /\ forall x y, x ∈ l1 -> y ∈ l2 -> end_ x.2 <= start_ y.2.
Proof.
  revert lo. induction l1 as [|[a i] l1 IH]; intros lo Ho; [split; [done|]; split; [done|]; intros x y Hx; by apply not_elem_of_nil in Hx|].
  destruct Ho as [Hi Ho]. cbn [app] in Ho. destruct (IH _ Ho) as (H1 & H2 & H3). split; [done|]. split; [apply (in_order_weaken (end_ i)); [lia|done]|].
  intros x [b y] Hx Hy. apply elem_of_cons in Hx as [->|Hx]; [|by apply H3]. cbn.
  assert (Hc : in_order (end_ i) l2 -> end_ i <= start_ y); [|by apply Hc]. clear - Hy. revert Hy. generalize (end_ i) as e. induction l2 as [|[c z] l2 IH]; intros e Hy Ho; [by apply not_elem_of_nil in Hy|].
  destruct Ho as [Hz Ho]. apply elem_of_cons in Hy as [Heq|Hy]; [injection Heq as -> ->; lia|]. specialize (IH _ Hy Ho). lia.
Qed.
Lemma in_order_elem lo ns x : in_order lo ns -> x ∈ ns -> lo <= start_ x.2 < end_ x.2.
Proof.
  revert lo. induction ns as [|[a i] ns IH]; intros lo Ho Hx; [by apply not_elem_of_nil in Hx|]. destruct Ho as [Hi Ho].
  apply elem_of_cons in Hx as [->|Hx]; [done|]. specialize (IH _ Ho Hx). lia.
Qed.
Lemma in_order_relast lo pre a i a' i' : in_order lo (pre ++ [(a, i)]) -> start_ i' = start_ i -> start_ i' < end_ i' -> in_order lo (pre ++ [(a', i')]).
Proof. revert lo. induction pre as [|[b x] pre IH]; intros lo Ho Hs He; cbn in *; [lia|]. destruct Ho as [Hx Ho]. split; [done|]. by apply IH. Qed.
Lemma in_order_tail lo pre a i post : in_order lo (pre ++ (a, i) :: post) -> in_order (end_ i) post.
Proof. revert lo. induction pre as [|[b x] pre IH]; intros lo Ho; cbn in Ho; [by destruct Ho|]. destruct Ho as [_ Ho]. by eapply IH. Qed.

Lemma SplitAt_loop_spec fuel m split_pos l p ns lo : seg interval_next m p 0 ns -> in_order lo ns -> (exists q, live_at ns q /\ split_pos <= q) -> (length ns < fuel)%nat ->
  exists l1 a i l2, ns = l1 ++ (a, i) :: l2 /\ Forall (fun x => end_ x.2 <= split_pos) l1 /\ split_pos < end_ i /\
    SplitAt_loop fuel m split_pos l p = Some (last_id l1 l, a).
Proof.
  revert l p ns lo. induction fuel as [|fuel IH]; intros l p ns lo Hs Ho (q & Hq & Hle) Hfuel; [lia|]. cbn [SplitAt_loop].
  destruct ns as [|[a i] ns]; [by apply live_at_nil in Hq|]. destruct Hs as (-> & Ha & Hi & Hs), Ho as [Hlo Ho]. rewrite Hi. cbn [mbind option_bind].
  destruct (Z.leb_spec (end_ i) split_pos) as [Hend|Hend].
  - apply live_at_cons in Hq as [Hq|Hq]; [lia|].
    destruct (IH a (interval_next i) ns (end_ i) Hs Ho) as (l1 & b & j & l2 & -> & Hall & Hj & ->); [by exists q|cbn in Hfuel; lia|].
    exists ((a, i) :: l1), b, j, l2. split; [done|]. split; [by constructor|]. split; [done|]. by rewrite last_id_cons.
  - exists [], a, i, ns. done.
Qed.
Section SplitPoint.
Context (m : gmap Z UseInterval) (first pending split_pos : Z) (I P Q : nodes) (i0 j : UseInterval).
Context (Hseg : seg interval_next m first 0 I) (Ho : in_order 0 I).
Context (Hfirst : m !! first = Some i0) (Hstart : start_ i0 < split_pos) (Hend : exists q, live_at I q /\ split_pos <= q).
Context (HPQ : I = P ++ (pending, j) :: Q).
Lemma pending_seg : seg interval_next m pending 0 ((pending, j) :: Q) /\ m !! pending = Some j.
Proof using All.
  rewrite HPQ in Hseg. apply seg_app in Hseg as (mid & _ & Hs). pose proof Hs as Hs'. destruct Hs as (-> & _ & Hj & _). by split.
Qed.
Lemma first_seg : exists I', I = (first, i0) :: I'.
Proof using All.
  destruct I as [|[a i] I']; [by destruct P|]. destruct Hseg as (<- & _ & Hi & _). rewrite Hfirst in Hi. injection Hi as <-. by exists I'.
Qed.
Lemma split_point : exists pre a i post lb, I = pre ++ (a, i) :: post /\ Forall (fun x => end_ x.2 <= split_pos) pre /\ split_pos < end_ i /\
  SplitAt_loop (S (size m)) m split_pos 0 (if split_pos <=? start_ j then first else pending) = Some (lb, a) /\
  (start_ i < split_pos \/ (pre <> [] /\ lb = last_id pre 0)).
Proof using All.
  assert (Hsize : (length I < S (size m))%nat) by (pose proof (seg_size _ _ _ _ _ Hseg (in_order_ids _ _ _ _ _ Hseg Ho)); lia).
  destruct (Z.leb_spec split_pos (start_ j)) as [Hle|Hgt].
  - destruct (SplitAt_loop_spec (S (size m)) m split_pos 0 first I 0 Hseg Ho Hend Hsize) as (l1 & a & i & l2 & HI & Hall & Hi & Hloop).
    exists l1, a, i, l2, (last_id l1 0). repeat (split; [done|]). destruct (decide (l1 = [])) as [->|]; [left|by right].
    destruct first_seg as [I' HI']. rewrite HI' in HI. by injection HI as -> -> _.
  - destruct pending_seg as [HsQ Hj]. pose proof Ho as HoI. rewrite HPQ in HoI. destruct (in_order_app _ _ _ HoI) as (_ & HoQ & Hsep).
    assert (HP : Forall (fun x => end_ x.2 <= split_pos) P).
    { apply list.Forall_forall. intros x Hx. specialize (Hsep x (pending, j) Hx ltac:(by left)). cbn in Hsep. lia. }
    destruct (SplitAt_loop_spec (S (size m)) m split_pos 0 pending ((pending, j) :: Q) 0 HsQ HoQ) as (l1 & a & i & l2 & HQ & Hall & Hi & Hloop).
    { destruct Hend as (q & Hq & Hle). exists q. split; [|done]. rewrite HPQ in Hq. apply live_at_app in Hq as [(b & x & Hin & Hx)|Hq]; [|done].
      rewrite list.Forall_forall in HP. specialize (HP _ Hin). cbn in HP. lia. }
    { rewrite HPQ in Hsize. rewrite length_app in Hsize. lia. }
    exists (P ++ l1), a, i, l2, (last_id l1 0). split; [by rewrite <- app_assoc, <- HQ|]. split; [by apply Forall_app|]. split; [done|]. split; [done|].
    destruct l1 as [|x l1 _] using rev_ind; [left; injection HQ as _ <- _; lia|right]. split; [intros [_ Hx]%app_eq_nil; by destruct l1|].
    unfold last_id. by rewrite app_assoc, !last_snoc.
Qed.
End SplitPoint.

Section Cut.
Context (m : gmap Z UseInterval) (first split_pos : Z) (pre post : nodes) (a : Z) (i : UseInterval).
Context (Hseg : seg interval_next m first 0 (pre ++ (a, i) :: post)) (Ho : in_order 0 (pre ++ (a, i) :: post)).
Context (Hpre : Forall (fun x => end_ x.2 <= split_pos) pre) (Hi : split_pos < end_ i).
Lemma cut_pre pos : live_at pre pos -> pos < split_pos.
Proof using All. intros (b & x & Hin & Hx). rewrite list.Forall_forall in Hpre. specialize (Hpre _ Hin). cbn in Hpre. lia. Qed.
Lemma cut_post pos : live_at post pos -> split_pos < pos.
Proof using All. intros Hc. apply (in_order_lower _ _ _ (in_order_tail _ _ _ _ _ Ho)) in Hc. lia. Qed.
Lemma cut_ids : (a ∉ pre.*1) /\ (a ∉ post.*1) /\ (forall b, b ∈ pre.*1 -> b ∉ post.*1).
Proof using All.
  pose proof (in_order_ids _ _ _ _ _ Hseg Ho) as Hnd. rewrite fmap_app, fmap_cons in Hnd. apply NoDup_app in Hnd as (_ & Hdisj & Hnd). apply NoDup_cons in Hnd as [Ha _].
  split; [intros Hin; apply (Hdisj _ Hin); by left|]. split; [done|]. intros b Hb Hb'. apply (Hdisj _ Hb). by right.
Qed.
(** The split position is inside the interval [i]. *)
Lemma cut_inside : start_ i < split_pos -> let new := fresh_address m in
  let m' := <[a := MkInterval (start_ i) split_pos 0]> (<[a := MkInterval (start_ i) split_pos new]> (<[new := MkInterval split_pos (end_ i) (interval_next i)]> m)) in
  let I1 := pre ++ [(a, MkInterval (start_ i) split_pos 0)] in
  let I2 := (new, MkInterval split_pos (end_ i) (interval_next i)) :: post in
  seg interval_next m' first 0 I1 /\ seg interval_next m' new 0 I2 /\ in_order 0 I1 /\ in_order 0 I2 /\
  (forall b, b ∉ (pre ++ (a, i) :: post).*1 -> b <> new -> m' !! b = m !! b) /\
  (forall pos, live_at I1 pos <-> live_at (pre ++ (a, i) :: post) pos /\ pos < split_pos) /\
  (forall pos, live_at I2 pos <-> live_at (pre ++ (a, i) :: post) pos /\ split_pos <= pos).
Proof using All.
  intros Hs new m' I1 I2. pose proof (fresh_address_seg _ _ _ _ _ Hseg) as Hnew. destruct (fresh_address_spec m) as [Hfresh Hn0]. fold new in Hnew, Hfresh, Hn0.
  rewrite fmap_app, fmap_cons, elem_of_app, elem_of_cons in Hnew. destruct cut_ids as (Ha1 & Ha2 & Hdisj).
  pose proof Hseg as Hseg'. apply seg_app in Hseg' as (mid & H1 & (-> & Ha0 & Hma & H2)). assert (Han : a <> new) by (intros ->; apply Hnew; right; by left).
  pose proof (in_order_elem _ _ (a, i) Ho ltac:(apply elem_of_app; right; by left)) as Hia. cbn in Hia.
  split; [|split; [|split; [|split; [|split; [|split]]]]].
  - apply seg_app. exists a. split; [subst m'; do 3 (apply seg_insert; [tauto|]); done|]. cbn. split; [done|]. split; [done|]. split; [apply lookup_insert_eq|done].
  - split; [done|]. split; [done|]. split; [subst m'; by rewrite !lookup_insert_ne, lookup_insert_eq by done|]. cbn. subst m'. do 3 (apply seg_insert; [tauto|]). done.
  - destruct (in_order_app 0 (pre ++ [(a, i)]) post) as (HA & _); [by rewrite <- app_assoc|]. apply (in_order_relast _ _ a i); [done|done|]. done.
  - split; [cbn; lia|]. by apply (in_order_tail _ _ _ _ _ Ho).
  - intros b Hb Hbn. rewrite fmap_app, fmap_cons, elem_of_app, elem_of_cons in Hb. subst m'. rewrite !lookup_insert_ne; [done|done|intros <-; apply Hb; right; by left..].
  - intros pos. subst I1. rewrite !live_at_app, !live_at_cons. cbn. pose proof (cut_pre pos). pose proof (cut_post pos). pose proof (live_at_nil pos). split; [|intuition lia].
    intros [Hc|[Hc|Hc]]; [split; [by left|auto]|split; [right; left; lia|lia]|done].
  - intros pos. subst I2. rewrite !live_at_app, !live_at_cons. cbn. pose proof (cut_pre pos). pose proof (cut_post pos). split; [|intuition lia].
    intros [Hc|Hc]; [split; [right; left; lia|lia]|split; [by right; right|]]. specialize (H0 Hc). lia.
Qed.
(** The split position is in front of the interval [i]. *)
Lemma cut_between pre' b k : split_pos <= start_ i -> pre = pre' ++ [(b, k)] -> let m' := <[b := MkInterval (start_ k) (end_ k) 0]> m in
  let I1 := pre' ++ [(b, MkInterval (start_ k) (end_ k) 0)] in let I2 := (a, i) :: post in
  m !! b = Some k /\ seg interval_next m' first 0 I1 /\ seg interval_next m' a 0 I2 /\ in_order 0 I1 /\ in_order 0 I2 /\
  (forall c, c ∉ (pre ++ (a, i) :: post).*1 -> m' !! c = m !! c) /\
  (forall pos, live_at I1 pos <-> live_at (pre ++ (a, i) :: post) pos /\ pos < split_pos) /\
  (forall pos, live_at I2 pos <-> live_at (pre ++ (a, i) :: post) pos /\ split_pos <= pos).
Proof using All.
  intros Hs Heq m' I1 I2. destruct cut_ids as (Ha1 & Ha2 & Hdisj). pose proof (in_order_ids _ _ _ _ _ Hseg Ho) as Hnd.
  destruct (in_order_app _ _ _ Ho) as (Ho1 & Ho2 & _). pose proof Hseg as Hseg'. apply seg_app in Hseg' as (mid & H1 & H2). rewrite Heq in H1. apply seg_app in H1 as (mid' & H1 & (-> & Hb0 & Hmb & Hk)).
  cbn in Hk. subst mid. rewrite Heq in Ho1, Ha1, Hdisj. rewrite fmap_app in Ha1, Hdisj.
  assert (Hba : b <> a) by (intros ->; apply Ha1, elem_of_app; right; by left). assert (Hbpost : b ∉ post.*1) by (apply Hdisj, elem_of_app; right; by left).
  assert (Hbpre : b ∉ pre'.*1).
  { rewrite Heq, !fmap_app in Hnd. apply NoDup_app in Hnd as (Hnd & _ & _). apply NoDup_app in Hnd as (_ & Hd & _). intros Hin. apply (Hd _ Hin). by left. }
  split; [done|]. split; [|split; [|split; [|split; [|split; [|split]]]]].
  - apply seg_app. exists b. split; [by apply seg_insert|]. cbn. split; [done|]. split; [done|]. split; [apply lookup_insert_eq|done].
  - apply seg_insert; [cbn; by rewrite not_elem_of_cons|]. assert (Hka : interval_next k = a) by apply H2. by rewrite Hka in H2.
  - apply (in_order_relast _ _ b k); [done|done|]. pose proof (in_order_elem _ _ (b, k) Ho1 ltac:(apply elem_of_app; right; by left)) as Hbk. cbn in *. lia.
  - done.
  - intros c Hc. subst m'. rewrite lookup_insert_ne; [done|]. intros <-. apply Hc. rewrite Heq, !fmap_app, !elem_of_app. left. right. by left.
  - intros pos. assert (HI1 : live_at I1 pos <-> live_at pre pos) by (subst I1; rewrite Heq, !live_at_app, !live_at_cons; done). rewrite HI1, live_at_app, live_at_cons.
    pose proof (cut_pre pos). pose proof (cut_post pos). split; [by auto|]. intuition lia.
  - intros pos. subst I2. rewrite live_at_app, !live_at_cons. pose proof (cut_pre pos). pose proof (cut_post pos). split; [|intuition lia].
    intros [Hc|Hc]; [split; [by right; left|lia]|split; [by right; right|]]. specialize (H0 Hc). lia.
Qed.
End Cut.

Lemma last_id_middle {A} (l1 l2 : list (Z * A)) x d : last_id (l1 ++ x :: l2) d = last_id (x :: l2) 0.
Proof. destruct x as [b n]. revert d. induction l1 as [|[c k] l1 IH]; intros d; cbn [app]; [by rewrite !last_id_cons|]. rewrite last_id_cons. apply IH. Qed.
Lemma last_id_in {A} (l : list (Z * A)) d : l <> [] -> last_id l d ∈ l.*1.
Proof.
  destruct l as [|x l _] using rev_ind; [done|]. intros _. unfold last_id. rewrite last_snoc. destruct x as [b n]. rewrite fmap_app, elem_of_app. right. by left.
Qed.
Lemma SplitInterval_spec m first split_pos pre post a i lb : seg interval_next m first 0 (pre ++ (a, i) :: post) -> in_order 0 (pre ++ (a, i) :: post) ->
  Forall (fun x => end_ x.2 <= split_pos) pre -> split_pos < end_ i -> (start_ i < split_pos \/ (pre <> [] /\ lb = last_id pre 0)) ->
  exists m1 fa lb' l I1 I2, SplitInterval m i a split_pos lb = (m1, fa, lb') /\ m1 !! lb' = Some l /\
    let m' := <[lb' := MkInterval (start_ l) (end_ l) 0]> m1 in
    seg interval_next m' first 0 I1 /\ seg interval_next m' fa 0 I2 /\ in_order 0 I1 /\ in_order 0 I2 /\ lb' = last_id I1 0 /\
    (if lb' =? last_id (pre ++ (a, i) :: post) 0 then fa else last_id (pre ++ (a, i) :: post) 0) = last_id I2 0 /\
    (forall b n, m !! b = Some n -> b ∉ (pre ++ (a, i) :: post).*1 -> m' !! b = Some n) /\
    (forall b, b ∈ I1.*1 -> b ∈ (pre ++ (a, i) :: post).*1) /\ (forall b, b ∈ I2.*1 -> b ∈ (pre ++ (a, i) :: post).*1 \/ m !! b = None) /\
    (forall pos, live_at I1 pos <-> live_at (pre ++ (a, i) :: post) pos /\ pos < split_pos) /\
    (forall pos, live_at I2 pos <-> live_at (pre ++ (a, i) :: post) pos /\ split_pos <= pos).
Proof.
  intros Hseg Ho Hpre Hi Hor. destruct (cut_ids m first split_pos pre post a i Hseg Ho Hpre Hi) as (Ha1 & Ha2 & Hdisj). unfold SplitInterval, UseInterval_Contains.
  destruct (decide (start_ i < split_pos)) as [Hlt|Hge].
  - rewrite (proj2 (Z.eqb_neq _ _)), (proj2 (Z.leb_le _ _)), (proj2 (Z.ltb_lt _ _)) by lia. cbn [negb andb].
    destruct (cut_inside m first split_pos pre post a i Hseg Ho Hpre Hi Hlt) as (H1 & H2 & O1 & O2 & Hframe & C1 & C2). do 6 eexists. split; [done|].
    split; [apply lookup_insert_eq|]. cbn [start_ end_]. split; [exact H1|]. split; [exact H2|]. split; [exact O1|]. split; [exact O2|]. split; [unfold last_id; by rewrite last_snoc|].
    split; [|split; [|split; [|split; [|split; [exact C1|exact C2]]]]].
    + rewrite last_id_middle, !last_id_cons. destruct (decide (post = [])) as [->|Hne]; [cbn; by rewrite Z.eqb_refl|].
      pose proof (last_id_in post a Hne) as Hin. rewrite (proj2 (Z.eqb_neq _ _)) by (intros Heq; apply Ha2; by rewrite Heq at 1).
      destruct post as [|x post _] using rev_ind; [done|]. unfold last_id. by rewrite last_snoc.
    + intros b n Hb Hnot. cbn in Hframe. rewrite Hframe; [done|done|]. intros ->. destruct (fresh_address_spec m) as [Hf _]. congruence.
    + intros b. rewrite !fmap_app, !elem_of_app. intros [?|Hb]; [by left|]. right. apply list_elem_of_singleton in Hb as ->. by left.
    + intros b. rewrite !fmap_cons, fmap_app, elem_of_app, !fmap_cons, !elem_of_cons. intros [->|?]; [right; apply fresh_address_spec|left; by right; right].
  - destruct Hor as [?|[Hne ->]]; [lia|]. assert (Hcond : negb (start_ i =? split_pos) && ((start_ i <=? split_pos) && (split_pos <? end_ i)) = false).
    { destruct (Z.eqb_spec (start_ i) split_pos); [done|]. rewrite (proj2 (Z.leb_gt _ _)) by lia. done. }
    rewrite Hcond. destruct pre as [|[b k] pre' _] using rev_ind; [done|].
    destruct (cut_between m first split_pos _ post a i Hseg Ho Hpre Hi pre' b k ltac:(lia) eq_refl) as (Hb & H1 & H2 & O1 & O2 & Hframe & C1 & C2).
    assert (Hlast : last_id (pre' ++ [(b, k)]) 0 = b) by (unfold last_id; by rewrite last_snoc). rewrite Hlast.
    do 6 eexists. split; [done|]. split; [exact Hb|]. split; [exact H1|]. split; [exact H2|]. split; [exact O1|]. split; [exact O2|].
    split; [unfold last_id; by rewrite last_snoc|]. split; [|split; [|split; [|split; [|split; [exact C1|exact C2]]]]].
    + rewrite last_id_middle. rewrite (proj2 (Z.eqb_neq _ _)); [done|]. intros Heq. pose proof (last_id_in ((a, i) :: post) 0 ltac:(done)) as Hin. rewrite <- Heq in Hin.
      apply elem_of_cons in Hin as [->|Hin]; [apply Ha1; rewrite fmap_app, elem_of_app; right; by left|]. apply (Hdisj b); [rewrite fmap_app, elem_of_app; right; by left|done].
    + intros c n Hc Hnot. by rewrite Hframe.
    + intros c. rewrite !fmap_app, !elem_of_app. intros [?|Hc]; [left; by left|]. left. right. exact Hc.
    + intros c Hc. left. rewrite fmap_app, elem_of_app. by right.
Qed.

(** ** Live ranges *)
Record range_wf (st : Objects) (r : Z) (range : LiveRange) (I : nodes) (U : list (Z * UsePosition)) (S : list (Z * SafepointPosition)) : Prop := {
  rw_range : ranges st !! r = Some range;
  rw_intervals : seg interval_next (intervals st) (first_use_interval_ range) 0 I;
  rw_order : in_order 0 I;
  rw_last : last_use_interval_ range = last_id I 0;
  rw_uses : seg use_next (positions st) (uses_ range) 0 U;
  rw_uses_ids : NoDup U.*1;
  rw_uses_order : by_position U;
  rw_safepoints : seg safepoint_next (safepoints st) (first_safepoint_ range) 0 S;
  rw_safepoints_ids : NoDup S.*1;
  rw_safepoints_order : by_position S }.
(** The finger points into the range. *)
Definition finger_wf (range : LiveRange) (I : nodes) (U : list (Z * UsePosition)) : Prop :=
  let f := finger_ range in
  (first_pending_use_interval_ f = 0 \/ exists P j Q, I = P ++ (first_pending_use_interval_ f, j) :: Q) /\
  (first_register_use_ f = 0 \/ first_register_use_ f ∈ U.*1) /\
  (first_register_beneficial_use_ f = 0 \/ first_register_beneficial_use_ f ∈ U.*1).

Lemma UpdateAfterSplit_spec m f pos : (first_register_use_ f = 0 \/ first_register_use_ f ∈ dom m) -> (first_register_beneficial_use_ f = 0 \/ first_register_beneficial_use_ f ∈ dom m) ->
  let kept use use' := use' = 0 \/ use' = use /\ exists u, m !! use = Some u /\ pos_ u < pos in
  exists f', UpdateAfterSplit m f pos = Some f' /\ first_pending_use_interval_ f' = first_pending_use_interval_ f /\
    kept (first_register_use_ f) (first_register_use_ f') /\ kept (first_register_beneficial_use_ f) (first_register_beneficial_use_ f').
Proof.
  intros Ha Hb kept. unfold UpdateAfterSplit.
  assert (Hcut : forall use, use = 0 \/ use ∈ dom m -> exists x, (if use =? 0 then Some 0 else u ← m !! use; Some (if pos_ u >=? pos then 0 else use)) = Some x /\ kept use x).
  { intros use [->|Hin]; [eexists; split; [done|by left]|]. apply elem_of_dom in Hin as [u Hu]. rewrite Hu. destruct (use =? 0); cbn [mbind option_bind]; eexists; (split; [done|]); [by left|].
    destruct (Z.geb_spec (pos_ u) pos); [by left|]. right. split; [done|]. by exists u. }
  destruct (Hcut _ Ha) as (x & -> & Hx), (Hcut _ Hb) as (y & -> & Hy). eexists. split; [done|]. by split.
Qed.
Lemma unlinked_ids {P} `{PositionType P} (l : list (Z * P)) : (unlinked <$> l).*1 = l.*1.
Proof. rewrite <- list_fmap_compose. by apply list_fmap_ext. Qed.
Lemma unlinked_sorted {P} `{PositionLaws P} (l1 l2 : list (Z * P)) : unlinked <$> l1 = unlinked <$> l2 -> by_position l2 -> by_position l1.
Proof.
  revert l2. induction l1 as [|x l1 IH]; intros [|y l2] Heq Hs; [constructor|done|done|]. rewrite !fmap_cons in Heq. injection Heq as Hid Hx Hl.
  apply StronglySorted_inv in Hs as [Hs Hy]. assert (Hpos : forall x y : Z * P, unlinked x = unlinked y -> pt_pos x.2 = pt_pos y.2).
  { intros a b Hab. injection Hab as _ Hab. apply (f_equal pt_pos) in Hab. by rewrite !pos_set_next in Hab. }
  constructor; [by apply (IH l2)|]. apply list.Forall_forall. intros z Hz. assert (Hin : unlinked z ∈ unlinked <$> l2) by (rewrite <- Hl; by apply list_elem_of_fmap_2).
  apply list_elem_of_fmap in Hin as (w & Hw & Hin). rewrite list.Forall_forall in Hy. specialize (Hy _ Hin). rewrite (Hpos _ _ Hw), (Hpos x y); [done|]. unfold unlinked. by rewrite Hid, Hx.
Qed.

Section SplitRange.
Context (st : Objects) (r : Z) (range : LiveRange) (I : nodes) (U : list (Z * UsePosition)) (S : list (Z * SafepointPosition)) (split_pos : Z).
Context (Hwf : range_wf st r range I U S) (Hf : finger_wf range I U).
Context (i0 : UseInterval) (Hi0 : intervals st !! first_use_interval_ range = Some i0) (Hstart : start_ i0 < split_pos).
Context (Hend : exists q, live_at I q /\ split_pos <= q).
Abbreviation split_finger := (if first_pending_use_interval_ (finger_ range) =? 0 then Finger_Initialize range else finger_ range).

Lemma split_finger_pending : exists P j Q, I = P ++ (first_pending_use_interval_ split_finger, j) :: Q /\ intervals st !! first_pending_use_interval_ split_finger = Some j.
Proof using All.
  assert (Hin : exists P j Q, I = P ++ (first_pending_use_interval_ split_finger, j) :: Q).
  { destruct Hf as [[->|Hp] _].
    - cbn. destruct Hend as (q & Hq & _). pose proof (rw_intervals _ _ _ _ _ _ Hwf) as Hs. destruct I as [|[a i] I']; [by apply live_at_nil in Hq|]. destruct Hs as (<- & _). by exists [], i, I'.
    - destruct (Z.eqb_spec (first_pending_use_interval_ (finger_ range)) 0) as [E|]; [|done]. exfalso. destruct Hp as (P & j & Q & HI).
      pose proof (rw_intervals _ _ _ _ _ _ Hwf) as Hs. destruct (seg_lookup _ _ _ _ _ (first_pending_use_interval_ (finger_ range)) j Hs) as [_ Hn]; [|done].
      rewrite HI. apply elem_of_app. right. by left. }
  destruct Hin as (P & j & Q & HI). exists P, j, Q. split; [done|]. apply (seg_lookup _ _ _ _ _ _ j (rw_intervals _ _ _ _ _ _ Hwf)). rewrite HI. apply elem_of_app. right. by left.
Qed.
Lemma split_finger_uses : (first_register_use_ split_finger = 0 \/ first_register_use_ split_finger ∈ U.*1) /\
  (first_register_beneficial_use_ split_finger = 0 \/ first_register_beneficial_use_ split_finger ∈ U.*1).
Proof using All.
  assert (Hhead : uses_ range = 0 \/ uses_ range ∈ U.*1).
  { pose proof (rw_uses _ _ _ _ _ _ Hwf) as Hs. destruct U as [|[a u] U']; [by left|]. destruct Hs as (-> & _). right. by left. }
  destruct Hf as (_ & Ha & Hb). by destruct (_ =? 0).
Qed.
(** What is left of a finger's cached uses is in front of the split. *)
Lemma split_finger_update mu pu U1 U2 : seg use_next mu pu 0 U2 -> by_position U2 -> unlinked <$> (U1 ++ U2) = unlinked <$> U -> dom mu = dom (positions st) ->
  exists f', (if negb (pu =? 0) then u ← mu !! pu; UpdateAfterSplit mu split_finger (pos_ u) else Some split_finger) = Some f' /\
    first_pending_use_interval_ f' = first_pending_use_interval_ split_finger /\
    (first_register_use_ f' = 0 \/ first_register_use_ f' ∈ U1.*1) /\ (first_register_beneficial_use_ f' = 0 \/ first_register_beneficial_use_ f' ∈ U1.*1).
Proof using All.
  intros Hs Hsort Heq Hdom. destruct split_finger_uses as [Ha Hb].
  assert (Hids : U.*1 = U1.*1 ++ U2.*1) by (rewrite <- (unlinked_ids U), <- Heq, unlinked_ids; apply fmap_app). rewrite Hids in Ha, Hb.
  destruct (Z.eqb_spec pu 0) as [->|Hpu]; cbn [negb].
  { apply seg_null in Hs as ->. cbn in Ha, Hb. rewrite app_nil_r in Ha, Hb. by eexists. }
  destruct (seg_nonnull _ _ _ _ Hs Hpu) as (u & U2' & HU2 & Hu & _). rewrite Hu. cbn [mbind option_bind].
  assert (Hin : forall x, x = 0 \/ x ∈ U1.*1 ++ U2.*1 -> x = 0 \/ x ∈ dom mu).
  { intros x [?|Hx]; [by left|right]. rewrite Hdom. rewrite <- Hids in Hx. apply list_elem_of_fmap in Hx as ([b n] & -> & Hx). apply elem_of_dom. exists n.
    by apply (seg_lookup _ _ _ _ _ _ _ (rw_uses _ _ _ _ _ _ Hwf) Hx). }
  destruct (UpdateAfterSplit_spec mu split_finger (pos_ u) (Hin _ Ha) (Hin _ Hb)) as (f' & -> & Hp & Ka & Kb). exists f'. split; [done|]. split; [done|].
  assert (Hleft : forall x x', x = 0 \/ x ∈ U1.*1 ++ U2.*1 -> x' = 0 \/ x' = x /\ (exists n, mu !! x = Some n /\ pos_ n < pos_ u) -> x' = 0 \/ x' ∈ U1.*1).
  { intros x x' [->|Hx] [?|(-> & n & Hn & Hlt)]; [by left..|by left|]. apply elem_of_app in Hx as [Hx|Hx]; [by right|]. exfalso.
    apply list_elem_of_fmap in Hx as ([b n'] & -> & Hx). destruct (seg_lookup _ _ _ _ _ _ _ Hs Hx) as [Hn' _]. cbn in Hn. rewrite Hn' in Hn. injection Hn as ->.
    rewrite HU2 in Hsort, Hx. apply StronglySorted_inv in Hsort as [_ Hmin]. rewrite list.Forall_forall in Hmin. apply elem_of_cons in Hx as [Heq'|Hx]; [injection Heq' as -> ->; lia|].
    specialize (Hmin _ Hx). cbn in Hmin. lia. }
  split; [by apply (Hleft _ _ Ha)|by apply (Hleft _ _ Hb)].
Qed.

Definition split_result (sibling : Z) (st' : Objects) : Prop := exists range' range2 I1 I2 U1 U2 S1 S2,
  ranges st !! sibling = None /\ sibling <> 0 /\ slots st' = slots st /\ range_wf st' r range' I1 U1 S1 /\ range_wf st' sibling range2 I2 U2 S2 /\
  next_sibling_ range' = sibling /\ next_sibling_ range2 = next_sibling_ range /\ vreg_ range2 = vreg_ range /\ vreg_ range' = vreg_ range /\
  assigned_location_ range' = assigned_location_ range /\ assigned_location_ range2 = NoLocation /\
  first_use_interval_ range' = first_use_interval_ range /\
  first_pending_use_interval_ (finger_ range') = first_pending_use_interval_ split_finger /\
  (first_register_use_ (finger_ range') = 0 \/ first_register_use_ (finger_ range') ∈ U1.*1) /\
  (first_register_beneficial_use_ (finger_ range') = 0 \/ first_register_beneficial_use_ (finger_ range') ∈ U1.*1) /\
  (forall b, b ∈ I1.*1 -> b ∈ I.*1) /\ (forall b, b ∈ I2.*1 -> b ∈ I.*1 \/ intervals st !! b = None) /\
  (forall pos, live_at I1 pos <-> live_at I pos /\ pos < split_pos) /\ (forall pos, live_at I2 pos <-> live_at I pos /\ split_pos <= pos) /\
  unlinked <$> (U1 ++ U2) = unlinked <$> U /\ (forall x, x ∈ U1 -> pos_ x.2 <= split_pos) /\ (forall x, x ∈ U2 -> split_pos <= pos_ x.2) /\
  unlinked <$> (S1 ++ S2) = unlinked <$> S /\ (forall x, x ∈ S1 -> safepoint_pos x.2 <= split_pos) /\ (forall x, x ∈ S2 -> split_pos <= safepoint_pos x.2) /\
  (forall b n, intervals st !! b = Some n -> b ∉ I.*1 -> intervals st' !! b = Some n) /\
  (forall b, b ∉ U.*1 -> positions st' !! b = positions st !! b) /\ (forall b, b ∉ S.*1 -> safepoints st' !! b = safepoints st !! b) /\
  (forall b, b <> r -> b <> sibling -> ranges st' !! b = ranges st !! b).

Lemma half_sorted {P} `{PositionLaws P} (l1 l2 l : list (Z * P)) : unlinked <$> (l1 ++ l2) = unlinked <$> l -> NoDup l.*1 -> by_position l ->
  (NoDup l1.*1 /\ by_position l1) /\ (NoDup l2.*1 /\ by_position l2).
Proof using.
  intros Heq Hnd Hs. assert (Hids : (l1 ++ l2).*1 = l.*1) by (rewrite <- (unlinked_ids (l1 ++ l2)), <- (unlinked_ids l); by rewrite Heq). rewrite <- Hids, fmap_app in Hnd. apply NoDup_app in Hnd as (H1 & _ & H2).
  apply (unlinked_sorted _ _ Heq) in Hs. split; split; try done; [by eapply StronglySorted_app_1_l|by eapply StronglySorted_app_1_r].
Qed.
Lemma before_le {P} `{PositionType P} at_start (x : Z * P) : before split_pos at_start x -> pt_pos x.2 <= split_pos.
Proof using. unfold before. destruct at_start; lia. Qed.
Lemma not_before_ge {P} `{PositionType P} at_start (x : Z * P) : ~ before split_pos at_start x -> split_pos <= pt_pos x.2.
Proof using. unfold before. destruct at_start; lia. Qed.

Lemma SplitAt_spec : exists sibling st', SplitAt st r split_pos = Some (sibling, st') /\ split_result sibling st'.
Proof using All.
  destruct split_finger_pending as (P & j & Q & HI & Hj).
  pose proof (rw_intervals _ _ _ _ _ _ Hwf) as Hseg. pose proof (rw_order _ _ _ _ _ _ Hwf) as Ho.
  destruct (split_point (intervals st) (first_use_interval_ range) _ split_pos I P Q i0 j Hseg Ho Hi0 Hstart Hend HI) as (pre & a & i & post & lb & HIs & Hpre & Hi & Hloop & Hor).
  rewrite HIs in Hseg, Ho. destruct (SplitInterval_spec (intervals st) _ split_pos pre post a i lb Hseg Ho Hpre Hi Hor) as (m1 & fa & lb' & l & I1 & I2 & Hcut & Hl & H1 & H2 & O1 & O2 & L1 & L2 & Hfr & Hid1 & Hid2 & C1 & C2).
  assert (Hma : intervals st !! a = Some i) by (apply (seg_lookup _ _ _ _ _ _ _ Hseg); apply elem_of_app; right; by left).
  destruct (@SplitListOfPositions_spec UsePosition UsePosition_type UsePosition_laws (positions st) (uses_ range) split_pos (start_ i =? split_pos) U (rw_uses _ _ _ _ _ _ Hwf) (rw_uses_ids _ _ _ _ _ _ Hwf) (rw_uses_order _ _ _ _ _ _ Hwf))
    as (pu & hu & mu & U1 & U2 & HU & SU1 & SU2 & EU & BU1 & BU2 & FU & DU).
  destruct (@SplitListOfPositions_spec SafepointPosition SafepointPosition_type SafepointPosition_laws (safepoints st) (first_safepoint_ range) split_pos (start_ i =? split_pos) S (rw_safepoints _ _ _ _ _ _ Hwf) (rw_safepoints_ids _ _ _ _ _ _ Hwf) (rw_safepoints_order _ _ _ _ _ _ Hwf))
    as (ps & hs & ms & S1 & S2 & HS & SS1 & SS2 & ES & BS1 & BS2 & FS & _).
  destruct (fresh_address_spec (ranges st)) as [Hfresh Hfresh0]. assert (Hnr : fresh_address (ranges st) <> r) by (intros E; rewrite E in Hfresh; by rewrite (rw_range _ _ _ _ _ _ Hwf) in Hfresh).
  destruct (half_sorted U1 U2 U EU (rw_uses_ids _ _ _ _ _ _ Hwf) (rw_uses_order _ _ _ _ _ _ Hwf)) as [[NU1 OU1] [NU2 OU2]].
  destruct (split_finger_update mu pu U1 U2 SU2 OU2 EU DU) as (f' & Hfin & Hpend & Hcu1 & Hcu2).
  do 2 eexists. split.
  { unfold SplitAt, Range_Start. rewrite (rw_range _ _ _ _ _ _ Hwf). cbn [mbind option_bind]. rewrite Hi0. cbn [mbind option_bind]. rewrite (proj2 (Z.eqb_neq _ _)) by lia.
    rewrite Hj. cbn [mbind option_bind]. rewrite Hloop. cbn [mbind option_bind]. rewrite Hma. cbn [mbind option_bind]. rewrite Hcut, HU. cbn [mbind option_bind]. rewrite HS. cbn [mbind option_bind].
    rewrite Hl. cbn [mbind option_bind]. rewrite Hfin. cbn [mbind option_bind]. done. }
  destruct (half_sorted S1 S2 S ES (rw_safepoints_ids _ _ _ _ _ _ Hwf) (rw_safepoints_order _ _ _ _ _ _ Hwf)) as [[NS1 OS1] [NS2 OS2]].
  rewrite list.Forall_forall in BU1, BU2. rewrite list.Forall_forall in BS1, BS2. do 2 eexists. exists I1, I2, U1, U2, S1, S2. split; [done|]. split; [done|]. split; [done|].
  split; [split; cbn; [apply lookup_insert_eq|done..]|].
  split; [split; cbn; [by rewrite lookup_insert_ne, lookup_insert_eq|done|done|rewrite (rw_last _ _ _ _ _ _ Hwf), HIs; done|done..]|].
  cbn. rewrite HIs. repeat match goal with |- _ /\ _ => split; [try done|try done] end.
  all: intros x Hx; first [exact (before_le _ x (BU1 x Hx))|exact (not_before_ge _ x (BU2 x Hx))|exact (before_le _ x (BS1 x Hx))|exact (not_before_ge _ x (BS2 x Hx))|idtac].
  intros Hbs. by rewrite !lookup_insert_ne.
Qed.
End SplitRange.

(** ** Building a range *)
Section Build.
Context (st : Objects) (r : Z) (range : LiveRange) (I : nodes) (U : list (Z * UsePosition)) (S : list (Z * SafepointPosition)).
Context (Hwf : range_wf st r range I U S).

(** A range whose intervals and links to them are replaced. *)
Lemma rewrap m' first last I' : seg interval_next m' first 0 I' -> in_order 0 I' -> last = last_id I' 0 ->
  range_wf (MkObjects m' (positions st) (safepoints st) (<[r := with_intervals range first last]> (ranges st)) (slots st)) r (with_intervals range first last) I' U S.
Proof using All. intros Hs Ho Hl. destruct Hwf. split; cbn; [apply lookup_insert_eq|done..]. Qed.
Lemma rewrap_same m' I' : seg interval_next m' (first_use_interval_ range) 0 I' -> in_order 0 I' -> last_use_interval_ range = last_id I' 0 ->
  range_wf (MkObjects m' (positions st) (safepoints st) (ranges st) (slots st)) r range I' U S.
Proof using All. intros Hs Ho Hl. destruct Hwf. by split. Qed.
Lemma prepend_interval start end_pos : 0 <= start < end_pos -> in_order end_pos I ->
  let a := fresh_address (intervals st) in let n := MkInterval start end_pos (first_use_interval_ range) in
  range_wf (put_range (put_interval st a n) r (with_intervals range a (if last_use_interval_ range =? 0 then a else last_use_interval_ range))) r
    (with_intervals range a (if last_use_interval_ range =? 0 then a else last_use_interval_ range)) ((a, n) :: I) U S.
Proof using All.
  intros Hse Ho a n. destruct (fresh_address_spec (intervals st)) as [_ Ha0]. pose proof (rw_intervals _ _ _ _ _ _ Hwf) as Hs. apply rewrap.
  - cbn. split; [done|]. split; [done|]. split; [apply lookup_insert_eq|]. apply seg_insert; [by eapply fresh_address_seg|done].
  - cbn. split; [lia|done].
  - rewrite (rw_last _ _ _ _ _ _ Hwf), last_id_cons. destruct (decide (I = [])) as [->|Hne]; [done|].
    pose proof (last_id_in I 0 Hne) as Hin. destruct (Z.eqb_spec (last_id I 0) 0) as [E|].
    + rewrite E in Hin. apply list_elem_of_fmap in Hin as ([b x] & Hb & Hin). cbn in Hb. subst b. by destruct (seg_lookup _ _ _ _ _ _ _ Hs Hin).
    + destruct I as [|x l _] using rev_ind; [done|]. unfold last_id. by rewrite !last_snoc.
Qed.
Lemma replace_first a i I' i' : I = (a, i) :: I' -> interval_next i' = interval_next i -> 0 <= start_ i' < end_ i' -> in_order (end_ i') I' ->
  range_wf (put_interval st a i') r range ((a, i') :: I') U S /\ first_use_interval_ range = a.
Proof using All.
  intros HI Hn Hi Ho. pose proof (rw_intervals _ _ _ _ _ _ Hwf) as Hs. pose proof (in_order_ids _ _ _ _ _ Hs (rw_order _ _ _ _ _ _ Hwf)) as Hnd. pose proof (rw_last _ _ _ _ _ _ Hwf) as Hl.
  rewrite HI in Hs, Hnd, Hl. rewrite last_id_cons in Hl. destruct Hs as (Ha & Ha0 & Hm & Hs). split; [|done]. rewrite fmap_cons in Hnd. apply NoDup_cons in Hnd as [Hnot _]. apply rewrap_same.
  - cbn. split; [done|]. split; [done|]. split; [apply lookup_insert_eq|]. rewrite Hn. by apply seg_insert.
  - by split.
  - by rewrite last_id_cons.
Qed.
End Build.
(** The interval to be added comes in the order in which instructions are
    visited. *)
Definition interval_fits (I : nodes) (start end_pos : Z) : Prop :=
  match I with
  | [] => True
  | (_, i) :: I' => (start_ i < start /\ end_pos <= end_ i) \/ (start = start_ i /\ forall x, x ∈ I' -> end_pos <= start_ x.2) \/ end_pos <= start_ i
  end.
(** Intervals that do not touch: none could be merged with another. *)
Definition apart (ns : nodes) : Prop := StronglySorted (fun x y : Z * UseInterval => end_ x.2 < start_ y.2) ns.
Lemma apart_cons a i ns : apart ((a, i) :: ns) <-> apart ns /\ forall x, x ∈ ns -> end_ i < start_ x.2.
Proof.
  unfold apart. split.
  - intros [Hs Hf]%StronglySorted_inv. rewrite list.Forall_forall in Hf. done.
  - intros [Hs Hf]. constructor; [done|]. by apply list.Forall_forall.
Qed.
Lemma in_order_raise lo ns e : in_order lo ns -> (forall x, x ∈ ns -> e <= start_ x.2) -> in_order e ns.
Proof. destruct ns as [|[b x] ns]; [done|]. cbn. intros [Hx Ho] He. split; [|done]. specialize (He (b, x) ltac:(by left)). cbn in He. lia. Qed.
Lemma AddUseInterval_spec st r range I U S start end_pos : range_wf st r range I U S -> 0 <= start < end_pos -> interval_fits I start end_pos ->
  exists st' range' I', AddUseInterval st r start end_pos = Some st' /\ range_wf st' r range' I' U S /\
    (forall pos, live_at I' pos <-> live_at I pos \/ start <= pos < end_pos) /\
    (apart I -> (forall x, x ∈ tail I -> end_pos <> start_ x.2) -> apart I').
Proof.
  intros Hwf Hse Hfits. unfold AddUseInterval. rewrite (rw_range _ _ _ _ _ _ Hwf). cbn [mbind option_bind]. pose proof (rw_intervals _ _ _ _ _ _ Hwf) as Hs. pose proof (rw_order _ _ _ _ _ _ Hwf) as Ho.
  unfold interval_fits in Hfits. destruct I as [|[a i] I'].
  - cbn in Hs. rewrite Hs. cbn [Z.eqb]. do 3 eexists. split; [done|].  split; [pose proof (prepend_interval _ _ _ _ _ _ Hwf start end_pos Hse ltac:(done)) as Hp; cbn zeta in Hp; rewrite Hs in Hp; exact Hp|]. split.
    + intros pos. rewrite live_at_cons. cbn. tauto.
    + intros _ _. repeat constructor.
  - destruct Hs as (Ha & Ha0 & Hm & Hs). rewrite <- Ha in Ha0. rewrite (proj2 (Z.eqb_neq _ _)) by done. rewrite Ha, Hm. cbn [mbind option_bind]. destruct Ho as [Hi Ho]. 
    destruct (Z.gtb_spec start (start_ i)); [|destruct (Z.eqb_spec start (start_ i)) as [->|]; [|destruct (Z.eqb_spec end_pos (start_ i)) as [->|]]].
    + do 3 eexists. split; [done|]. split; [exact Hwf|]. split; [|done]. intros pos. rewrite live_at_cons. split; [tauto|]. intros [?|?]; [done|left; lia].
    + destruct (Z.leb_spec end_pos (end_ i)).
      * do 3 eexists. split; [done|]. split; [exact Hwf|]. split; [|done]. intros pos. rewrite live_at_cons. split; [tauto|]. intros [?|?]; [done|left; lia].
      * assert (Hx : forall x, x ∈ I' -> end_pos <= start_ x.2) by (destruct Hfits as [?|[[_ Hx]|?]]; [lia|done|lia]).
        do 3 eexists. split; [done|]. split; [apply (replace_first _ _ _ _ _ _ Hwf a i I' _ eq_refl); cbn; [done|lia|by apply (in_order_raise (end_ i))]|]. split.
        -- intros pos. rewrite !live_at_cons. cbn. split; [intros [?|?]; [by right|left; by right]|]. intros [[?|?]|?]; [left; lia|by right|by left].
        -- rewrite !apart_cons. intros [Hap _] Hne. split; [done|]. intros x Hin. cbn in *. specialize (Hx x Hin). specialize (Hne x Hin). lia.
    + do 3 eexists. split; [done|]. split; [apply (replace_first _ _ _ _ _ _ Hwf a i I' _ eq_refl); cbn; [done|lia|done]|]. split; [|by rewrite !apart_cons].
      intros pos. rewrite !live_at_cons. cbn. split; [intros [?|?]; [|left; by right]|intros [[?|?]|?]; [left; lia|by right|left; lia]].
      destruct (decide (start_ i <= pos)); [left; left; lia|right; lia].
    + do 3 eexists. split; [done|]. split; [pose proof (prepend_interval _ _ _ _ _ _ Hwf start end_pos Hse ltac:(split; [|done]; lia)) as Hp; cbn zeta in Hp; rewrite Ha in Hp; exact Hp|]. split.
      * intros pos. rewrite live_at_cons. cbn. tauto.
      * rewrite (apart_cons (fresh_address (intervals st))), (apart_cons a). intros [Hap Hlt] _. split; [done|]. cbn. intros x [->|Hin]%elem_of_cons; [cbn; lia|]. specialize (Hlt x Hin). lia.
Qed.
Lemma DefineAt_spec st r range I U S pos : range_wf st r range I U S -> 0 <= pos -> match I with [] => True | (_, i) :: _ => start_ i <= pos < end_ i end ->
  exists st' range' I', DefineAt st r pos = Some st' /\ range_wf st' r range' I' U S /\
    (forall q, live_at I' q <-> match I with [] => q = pos | _ => live_at I q /\ pos <= q end) /\ (apart I -> apart I').
Proof.
  intros Hwf Hpos Hfirst. unfold DefineAt. rewrite (rw_range _ _ _ _ _ _ Hwf). cbn [mbind option_bind]. pose proof (rw_intervals _ _ _ _ _ _ Hwf) as Hs. pose proof (rw_order _ _ _ _ _ _ Hwf) as Ho.
  destruct I as [|[a i] I'].
  - cbn in Hs. rewrite Hs. cbn [Z.eqb]. do 3 eexists. split; [done|]. destruct (fresh_address_spec (intervals st)) as [_ Ha0]. split.
    + apply (rewrap _ _ _ _ _ _ Hwf _ _ _ [(fresh_address (intervals st), MkInterval pos (pos + 1) 0)]); cbn; [|split; [lia|done]|done]. split; [done|]. split; [done|]. split; [apply lookup_insert_eq|done].
    + split; [|intros _; repeat constructor]. intros q. rewrite live_at_cons. cbn. pose proof (live_at_nil q). split; [intros [?|?]; [lia|done]|intros ->; left; lia].
  - destruct Hs as (Ha & Ha0 & Hm & Hs). rewrite <- Ha in Ha0. rewrite (proj2 (Z.eqb_neq _ _)) by done. rewrite Ha, Hm. cbn [mbind option_bind]. destruct Ho as [Hi Ho]. 
    do 3 eexists. split; [done|]. split; [apply (replace_first _ _ _ _ _ _ Hwf a i I' _ eq_refl); cbn; [done|lia|done]|]. split; [|by rewrite !apart_cons]. intros q. rewrite !live_at_cons. cbn.
    split; [intros [?|Hc]; [split; [left|]; lia|]|intros [[?|?] ?]; [left; lia|by right]]. split; [by right|]. apply (in_order_lower _ _ _ Ho) in Hc. lia.
Qed.

(** ** Adding uses *)
Abbreviation use_nodes := (list (Z * UsePosition)).
Lemma insert_after_spec fuel m pos p n ns : seg use_next m p 0 ((p, n) :: ns) -> pos_ n < pos -> (length ns < fuel)%nat ->
  exists L1 b nb L2, (p, n) :: ns = L1 ++ (b, nb) :: L2 /\ insert_after_loop fuel m pos p = Some b /\ Forall (fun x => pos_ x.2 < pos) (L1 ++ [(b, nb)]) /\
    match L2 with [] => True | (_, c) :: _ => pos <= pos_ c end.
Proof.
  revert p n ns. induction fuel as [|fuel IH]; intros p n ns Hs Hn Hfuel; [lia|]. cbn [insert_after_loop]. destruct Hs as (_ & Hp & Hm & Hs). rewrite Hm. cbn [mbind option_bind].
  destruct (Z.eqb_spec (use_next n) 0) as [E|E].
  - rewrite E in Hs. apply seg_null in Hs as ->. exists [], p, n, []. split; [done|]. split; [done|]. split; [by constructor|done].
  - destruct (seg_nonnull _ _ _ _ Hs E) as (c & ns' & -> & Hc & Hs'). rewrite Hc. cbn [mbind option_bind]. destruct (Z.ltb_spec (pos_ c) pos) as [Hlt|Hge].
    + destruct (IH (use_next n) c ns' Hs Hlt) as (L1 & b & nb & L2 & Heq & -> & Hall & Hnext); [cbn in Hfuel; lia|].
      exists ((p, n) :: L1), b, nb, L2. split; [by rewrite Heq|]. split; [done|]. split; [by constructor|done].
    + exists [], p, n, ((use_next n, c) :: ns'). split; [done|]. split; [done|]. split; [by constructor|done].
Qed.
(** The use [a] is one of [ns] at that position and with that slot. *)
Definition use_found (ns : use_nodes) (a pos location_slot : Z) : Prop := exists u, (a, u) ∈ ns /\ pos_ u = pos /\ location_slot_ u = location_slot.
Lemma insert_before_spec fuel m pos location_slot p ns : seg use_next m p 0 ns -> (length ns < fuel)%nat -> by_position ns -> (forall y, y ∈ ns -> pos <= pos_ y.2) ->
  exists x, insert_before_loop fuel m pos location_slot p = Some x /\ (x = 0 /\ (forall b, ~ use_found ns b pos location_slot) \/ x <> 0 /\ use_found ns x pos location_slot).
Proof.
  revert p ns. induction fuel as [|fuel IH]; intros p ns Hs Hfuel Hsort Hge; [lia|]. cbn [insert_before_loop]. destruct (Z.eqb_spec p 0) as [->|Hp].
  { apply seg_null in Hs as ->. exists 0. split; [done|]. left. split; [done|]. intros b (u & Hin & _). by apply not_elem_of_nil in Hin. }
  destruct (seg_nonnull _ _ _ _ Hs Hp) as (n & ns' & -> & Hn & Hs'). rewrite Hn. cbn [mbind option_bind]. apply StronglySorted_inv in Hsort as [Hsort Hmin]. rewrite list.Forall_forall in Hmin.
  destruct (Z.eqb_spec (pos_ n) pos) as [E|E].
  - destruct (Z.eqb_spec (location_slot_ n) location_slot) as [El|El]; [exists p; split; [done|]; right; split; [done|]; exists n; split; [by left|done]|].
    destruct (IH _ _ Hs') as (x & -> & Hx); [cbn in Hfuel; lia|done|by intros y Hy; apply Hge; right|]. exists x. split; [done|]. destruct Hx as [[-> Hno]|(Hx & u & Hin & Hu)]; [left|right].
    + split; [done|]. intros b (u & [E'|Hin]%elem_of_cons & Hu); [injection E' as -> ->; by destruct Hu|apply (Hno b); by exists u].
    + split; [done|]. exists u. split; [by right|done].
  - exists 0. split; [done|]. left. split; [done|]. specialize (Hge (p, n) ltac:(by left)). cbn in Hge. intros b (u & [E'|Hin]%elem_of_cons & Hu & _); [injection E' as -> ->; done|]. specialize (Hmin _ Hin). cbn in Hmin. lia.
Qed.
(** The uses that [AddUse] compares with: those behind the first one if that is
    before the position, else only the first one. *)
Definition searched (U : use_nodes) (pos : Z) : use_nodes :=
  match U with [] => [] | (a, u) :: U0 => if pos_ u <? pos then U0 else [(a, u)] end.
(** [AddUse] returns a use it finds; else it adds one in front of those at the
    same position or later. *)
Definition use_added (U U' : use_nodes) (a pos location_slot : Z) : Prop :=
  (U' = U /\ use_found (searched U pos) a pos location_slot) \/
  ((forall b, ~ use_found (searched U pos) b pos location_slot) /\ exists L1 L2, U = L1 ++ L2 /\
     (forall x, x ∈ L1 -> pos_ x.2 < pos) /\ (forall x, x ∈ L2 -> pos <= pos_ x.2) /\
     unlinked <$> U' = (unlinked <$> L1) ++ (a, MkUse pos location_slot 0 0) :: (unlinked <$> L2)).
Lemma use_added_in U U' a pos location_slot : use_added U U' a pos location_slot -> use_found U' a pos location_slot.
Proof.
  intros [(-> & u & Hin & Hu)|(_ & L1 & L2 & _ & _ & _ & E)].
  - exists u. split; [|done]. destruct U as [|[b n] U0]; [done|]. cbn in Hin. destruct (pos_ n <? pos); [by right|]. apply list_elem_of_singleton in Hin as ->. by left.
  - assert (Hin : (a, MkUse pos location_slot 0 0) ∈ unlinked <$> U') by (rewrite E; apply elem_of_app; right; by left).
    apply list_elem_of_fmap in Hin as ([b [p l h n]] & Eb & Hin). unfold unlinked in Eb. cbn in Eb. injection Eb as -> -> -> _. by exists (MkUse p l h n).
Qed.

Section AddUse.
Context (st : Objects) (r : Z) (range : LiveRange) (I : nodes) (U : use_nodes) (S : list (Z * SafepointPosition)) (pos location_slot : Z).
Context (Hwf : range_wf st r range I U S).
Abbreviation a := (fresh_address (positions st)).
Abbreviation new_use := (MkUse pos location_slot 0 (uses_ range)).
Lemma new_use_fresh : (a ∉ U.*1) /\ a <> 0.
Proof using All. split; [eapply fresh_address_seg, (rw_uses _ _ _ _ _ _ Hwf)|apply fresh_address_spec]. Qed.
Lemma prepend_use : (forall x, x ∈ U -> pos <= pos_ x.2) -> (forall b, ~ use_found (searched U pos) b pos location_slot) ->
  range_wf (put_range (put_use st a new_use) r (with_uses range a)) r (with_uses range a) I ((a, new_use) :: U) S /\ use_added U ((a, new_use) :: U) a pos location_slot.
Proof using All.
  intros Hmin Hno. destruct new_use_fresh as [Hfresh Ha0]. split.
  - destruct Hwf. split; cbn; [apply lookup_insert_eq|done|done|done|..|done|done|done].
    + split; [done|]. split; [done|]. split; [apply lookup_insert_eq|]. by apply seg_insert.
    + by apply NoDup_cons_2.
    + constructor; [done|]. by apply list.Forall_forall.
  - right. split; [done|]. exists [], U. split; [done|]. split; [intros x Hx; by apply not_elem_of_nil in Hx|]. split; [done|]. by rewrite fmap_cons.
Qed.
Lemma insert_use L1 b nb L2 : U = L1 ++ (b, nb) :: L2 -> (forall x, x ∈ L1 ++ [(b, nb)] -> pos_ x.2 < pos) -> (forall x, x ∈ L2 -> pos <= pos_ x.2) ->
  (forall b, ~ use_found (searched U pos) b pos location_slot) ->
  let n := MkUse pos location_slot 0 (use_next nb) in let b' := MkUse (pos_ nb) (location_slot_ nb) (hint_ nb) a in let U' := L1 ++ (b, b') :: (a, n) :: L2 in
  range_wf (put_use (put_use st a n) b b') r range I U' S /\ use_added U U' a pos location_slot.
Proof using All.
  intros HU Hbefore0 Hafter Hno n b' U'. assert (Hbefore : forall x, x ∈ L1 ++ [(b, nb)] -> pos_ x.2 <= pos) by (intros x Hx; specialize (Hbefore0 x Hx); lia). destruct new_use_fresh as [Hfresh Ha0]. pose proof (rw_uses _ _ _ _ _ _ Hwf) as Hs. pose proof (rw_uses_ids _ _ _ _ _ _ Hwf) as Hnd.
  pose proof (rw_uses_order _ _ _ _ _ _ Hwf) as Hsort. rewrite HU in Hs, Hnd, Hsort, Hfresh. rewrite fmap_app, fmap_cons in Hnd, Hfresh. rewrite elem_of_app, elem_of_cons in Hfresh.
  apply NoDup_app in Hnd as (N1 & Hdisj & N2). apply NoDup_cons in N2 as [Hb2 N2]. apply seg_app in Hs as (mid & H1 & (-> & Hb0 & Hmb & H2)).
  assert (Hb1 : b ∉ L1.*1) by (intros Hin; apply (Hdisj _ Hin); by left). assert (Hab : a <> b) by (intros E; apply Hfresh; right; left; exact E).
  apply StronglySorted_app in Hsort as (Hcross & O1 & O2). apply StronglySorted_inv in O2 as [O2 Ob]. rewrite list.Forall_forall in Ob. split.
  - destruct Hwf. split; cbn; [done|done|done|done|..|done|done|done].
    + apply seg_app. exists b. split; [apply seg_insert; [done|]; apply seg_insert; [tauto|done]|]. cbn. split; [done|]. split; [done|]. split; [apply lookup_insert_eq|].
      split; [done|]. split; [done|]. split; [by rewrite lookup_insert_ne, lookup_insert_eq|]. apply seg_insert; [done|]. apply seg_insert; [tauto|done].
    + subst U'. rewrite fmap_app, !fmap_cons. apply NoDup_app. split; [done|]. split; [|apply NoDup_cons_2; [|apply NoDup_cons_2; [tauto|done]]].
      * intros x Hx Hin. apply elem_of_cons in Hin as [->|Hin]; [done|]. apply elem_of_cons in Hin as [->|Hin]; [tauto|]. apply (Hdisj _ Hx). by right.
      * intros Hin. apply elem_of_cons in Hin as [E|Hin]; [by apply Hab|done].
    + apply StronglySorted_app_2; [|done|].
      * intros x y Hx Hy. apply elem_of_cons in Hy as [->|Hy]; [apply (Hcross x (b, nb)); [done|by left]|]. apply elem_of_cons in Hy as [->|Hy]; [cbn; apply Hbefore, elem_of_app; by left|].
        apply (Hcross x y); [done|by right].
      * constructor; [constructor; [done|]|]; apply list.Forall_forall; [by intros y Hy; apply Hafter|]. intros y Hy. apply elem_of_cons in Hy as [->|Hy]; [|by apply Ob].
        cbn. apply (Hbefore (b, nb)), elem_of_app. right. by left.
  - right. split; [done|]. exists (L1 ++ [(b, nb)]), L2. split; [by rewrite HU, <- app_assoc|]. split; [done|]. split; [done|].
    subst U'. rewrite !fmap_app, !fmap_cons. change (unlinked (b, b')) with (unlinked (b, nb)). change (unlinked (a, n)) with (a, MkUse pos location_slot 0 0). by rewrite <- app_assoc.
Qed.
Lemma AddUse_spec : exists a' st' range' U', AddUse st r pos location_slot = Some (a', st') /\ range_wf st' r range' I U' S /\ use_added U U' a' pos location_slot.
Proof using All.
  unfold AddUse. rewrite (rw_range _ _ _ _ _ _ Hwf). cbn [mbind option_bind]. pose proof (rw_uses _ _ _ _ _ _ Hwf) as Hs. pose proof (rw_uses_order _ _ _ _ _ _ Hwf) as Hsort.
  pose proof (seg_size _ _ _ _ _ Hs (rw_uses_ids _ _ _ _ _ _ Hwf)) as Hsize.
  assert (Hpre : (forall x, x ∈ U -> pos <= pos_ x.2) -> (forall b, ~ use_found (searched U pos) b pos location_slot) -> exists a' st' range' U', Some (a, put_range (put_use st a new_use) r (with_uses range a)) = Some (a', st') /\ range_wf st' r range' I U' S /\ use_added U U' a' pos location_slot).
  { intros Hmin Hno. destruct (prepend_use Hmin Hno). by do 4 eexists. }
  destruct (Z.eqb_spec (uses_ range) 0) as [E|E].
  { rewrite E in Hs. apply seg_null in Hs. apply Hpre; rewrite Hs; [intros x Hx; by apply not_elem_of_nil in Hx|]. intros b (u & Hin & _). by apply not_elem_of_nil in Hin. }
  destruct (seg_nonnull _ _ _ _ Hs E) as (first & U0 & HU & Hfirst & Hs0). rewrite Hfirst. cbn [mbind option_bind].
  destruct ((pos_ first =? pos) && (location_slot_ first =? location_slot)) eqn:Eq.
  { apply andb_true_iff in Eq as [E1%Z.eqb_eq E2%Z.eqb_eq]. do 4 eexists. split; [done|]. split; [exact Hwf|]. left. split; [done|]. rewrite HU. cbn. destruct (Z.ltb_spec (pos_ first) pos); [lia|]. exists first. split; [by left|done]. }
  destruct (Z.ltb_spec (pos_ first) pos) as [Hlt|Hge].
  2: { apply Hpre; [|rewrite HU; cbn; destruct (Z.ltb_spec (pos_ first) pos); [lia|]; intros b (u & Hin & Hp & Hsl); apply list_elem_of_singleton in Hin; injection Hin as -> ->; by rewrite Hp, Hsl, !Z.eqb_refl in Eq].
    rewrite HU in Hsort |- *. apply StronglySorted_inv in Hsort as [_ Hmin]. rewrite list.Forall_forall in Hmin. intros x Hx. apply elem_of_cons in Hx as [->|Hx]; [done|]. specialize (Hmin _ Hx). cbn in Hmin. lia. }
  rewrite HU in Hs, Hsize. destruct (insert_after_spec (Datatypes.S (size (positions st))) _ pos _ _ _ Hs Hlt) as (L1 & b & nb & L2 & Heq & -> & Hall & Hnext); [cbn in Hsize; lia|].
  cbn [mbind option_bind]. rewrite Heq in Hs, Hsize. apply seg_app in Hs as (mid & _ & (-> & _ & Hb & H2)). rewrite Hb. cbn [mbind option_bind].
  assert (HL2 : by_position L2 /\ forall y, y ∈ L2 -> pos <= pos_ y.2).
  { rewrite HU, Heq in Hsort. apply StronglySorted_app_1_r, StronglySorted_inv in Hsort as [Hsort _]. split; [done|]. intros y Hy. destruct L2 as [|[c nc] L2]; [by apply not_elem_of_nil in Hy|].
    apply StronglySorted_inv in Hsort as [_ Hmin]. rewrite list.Forall_forall in Hmin. apply elem_of_cons in Hy as [->|Hy]; [done|]. specialize (Hmin _ Hy). cbn in *. lia. }
  destruct HL2 as [Hsort2 Hge2]. assert (Hsub : forall b, use_found (searched U pos) b pos location_slot <-> use_found L2 b pos location_slot).
  { rewrite list.Forall_forall in Hall. intros b'. rewrite HU. cbn [searched]. rewrite (proj2 (Z.ltb_lt _ _)) by done. split; intros (u & Hin & Hp & Hsl); exists u; (split; [|done]).
    - assert (Hin' : (b', u) ∈ (L1 ++ [(b, nb)]) ++ L2) by (rewrite <- app_assoc; cbn; rewrite <- Heq; by right). apply elem_of_app in Hin' as [Hin'|Hin']; [specialize (Hall _ Hin'); cbn in Hall; lia|done].
    - assert (Hin' : (b', u) ∈ (uses_ range, first) :: U0) by (rewrite Heq; apply elem_of_app; right; by right). apply elem_of_cons in Hin' as [Ef|?]; [injection Ef as -> ->; lia|done]. }
  destruct (insert_before_spec (Datatypes.S (size (positions st))) _ pos location_slot _ _ H2) as (x & -> & [[-> Hno]|[Hx0 Hx]]); [rewrite length_app in Hsize; cbn in Hsize; lia|done|done|..]; cbn [mbind option_bind].
  - destruct (insert_use L1 b nb L2) as [Hw Ha]; [by rewrite HU| |done|by intros b' Hf; apply (Hno b'), Hsub|by do 4 eexists]. by rewrite list.Forall_forall in Hall.
  - rewrite (proj2 (Z.eqb_neq _ _)) by done. do 4 eexists. split; [done|]. split; [exact Hwf|]. left. split; [done|]. by apply Hsub.
Qed.
End AddUse.
Lemma replace_use st r range I U S a u u' : range_wf st r range I U S -> (a, u) ∈ U -> use_next u' = use_next u -> pos_ u' = pos_ u ->
  exists L1 L2, U = L1 ++ (a, u) :: L2 /\ range_wf (put_use st a u') r range I (L1 ++ (a, u') :: L2) S.
Proof.
  intros Hwf Hin Hn Hp. apply list_elem_of_split in Hin as (L1 & L2 & HU). exists L1, L2. split; [done|]. destruct Hwf. rewrite HU in *. split; cbn; [done|done|done|done|..|done|done|done].
  - rewrite fmap_app, fmap_cons in rw_uses_ids0. apply NoDup_app in rw_uses_ids0 as (_ & Hd & Hnd). apply NoDup_cons in Hnd as [Ha _]. apply seg_app in rw_uses0 as (mid & H1 & (-> & Ha0 & Hm & H2)).
    apply seg_app. exists a. split; [apply seg_insert; [intros Hx; apply (Hd _ Hx); by left|done]|]. cbn. split; [done|]. split; [done|]. split; [apply lookup_insert_eq|]. rewrite Hn. by apply seg_insert.
  - by rewrite !fmap_app, !fmap_cons in *.
  - apply StronglySorted_app in rw_uses_order0 as (Hc & O1 & O2). apply StronglySorted_inv in O2 as [O2 Oa]. apply StronglySorted_app_2; [|done|].
    + intros x y Hx Hy. apply elem_of_cons in Hy as [->|Hy]; [cbn; rewrite Hp; apply (Hc x (a, u)); [done|by left]|apply Hc; [done|by right]].
    + constructor; [done|]. eapply list.Forall_impl; [exact Oa|]. cbn. by rewrite Hp.
Qed.
Lemma AddHintedUse_spec st r range I U S pos location_slot hint : range_wf st r range I U S ->
  exists st' range' L1 a u L2, AddHintedUse st r pos location_slot hint = Some st' /\ use_added U (L1 ++ (a, u) :: L2) a pos location_slot /\
    range_wf st' r range' I (L1 ++ (a, MkUse pos location_slot hint (use_next u)) :: L2) S.
Proof.
  intros Hwf. destruct (AddUse_spec st r range I U S pos location_slot Hwf) as (a & st1 & range1 & U1 & Hadd & Hwf1 & Hua). destruct (use_added_in _ _ _ _ _ Hua) as (u & Hin & Hpu & Hsu). unfold AddHintedUse. rewrite Hadd. cbn [mbind option_bind].
  destruct (seg_lookup _ _ _ _ _ _ _ (rw_uses _ _ _ _ _ _ Hwf1) Hin) as [Hm _]. rewrite Hm. cbn [mbind option_bind].
  destruct (replace_use _ _ _ _ _ _ a u (MkUse (pos_ u) (location_slot_ u) hint (use_next u)) Hwf1 Hin eq_refl eq_refl) as (L1 & L2 & HU1 & Hw).
  rewrite HU1 in Hua. rewrite Hpu, Hsu in *. exists (put_use st1 a (MkUse pos location_slot hint (use_next u))), range1, L1, a, u, L2. split; [done|]. split; [done|exact Hw].
Qed.
Lemma AddSafepoint_spec st r range I U S pos locs : range_wf st r range I U S -> last_safepoint_ range = last_id S 0 -> (forall x, x ∈ S -> safepoint_pos x.2 <= ToInstructionEnd pos) ->
  exists st' range' S' a, AddSafepoint st r pos locs = Some st' /\ range_wf st' r range' I U S' /\ last_safepoint_ range' = last_id S' 0 /\
    unlinked <$> S' = (unlinked <$> S) ++ [(a, MkSafepoint (ToInstructionEnd pos) locs 0)].
Proof.
  intros Hwf Hlast Hmax. unfold AddSafepoint. rewrite (rw_range _ _ _ _ _ _ Hwf). cbn [mbind option_bind]. destruct (fresh_address_spec (safepoints st)) as [Hfresh Ha0].
  pose proof (fresh_address_seg _ _ _ _ _ (rw_safepoints _ _ _ _ _ _ Hwf)) as Hnew. set (a := fresh_address (safepoints st)) in *. set (n := MkSafepoint (ToInstructionEnd pos) locs 0).
  pose proof (rw_safepoints _ _ _ _ _ _ Hwf) as Hs. destruct (Z.eqb_spec (first_safepoint_ range) 0) as [E|E].
  - rewrite E in Hs. apply seg_null in Hs as ->. eexists. exists (with_safepoints range a a), [(a, n)], a. split; [done|]. split; [|done]. destruct Hwf. split; cbn; [apply lookup_insert_eq|done..| |by apply NoDup_singleton|by repeat constructor].
    split; [done|]. split; [done|]. split; [apply lookup_insert_eq|done].
  - assert (Hne : S <> []) by (intros ->; by apply E). destruct (last_seg _ _ _ _ _ Hs Hne) as (S0 & b & nb & -> & Hb & Hmb & Hb0 & Hnext & Hs0). rewrite Hlast, Hb.
    rewrite fmap_app in Hnew. rewrite elem_of_app in Hnew. assert (Hab : a <> b) by (intros ->; apply Hnew; right; by left).
    cbn [put_safepoint safepoints]. rewrite lookup_insert_ne, Hmb by done. cbn [mbind option_bind]. set (b' := MkSafepoint (safepoint_pos nb) (locs_ nb) a). eexists. exists (with_safepoints range (first_safepoint_ range) a), (S0 ++ [(b, b'); (a, n)]), a. split; [done|].
    pose proof (rw_safepoints_ids _ _ _ _ _ _ Hwf) as Hnd. rewrite fmap_app in Hnd. apply NoDup_app in Hnd as (N0 & Hd & _). assert (Hb1 : b ∉ S0.*1) by (intros Hin; apply (Hd _ Hin); by left).
    split; [|split; [change (S0 ++ [(b, b'); (a, n)]) with (S0 ++ [(b, b')] ++ [(a, n)]); unfold last_id; by rewrite app_assoc, last_snoc|rewrite !fmap_app; by rewrite <- app_assoc]].
    pose proof (rw_safepoints_order _ _ _ _ _ _ Hwf) as Hsort. apply StronglySorted_app in Hsort as (Hc & O1 & _). destruct Hwf. split; cbn; [apply lookup_insert_eq|done..| | |].
    + apply seg_app. exists b. split; [apply seg_insert; [done|]; apply seg_insert; [tauto|done]|]. cbn. split; [done|]. split; [done|]. split; [apply lookup_insert_eq|]. split; [done|]. split; [done|].
      split; [by rewrite lookup_insert_ne, lookup_insert_eq|done].
    + rewrite fmap_app. apply NoDup_app. split; [done|]. split; [|apply NoDup_cons_2; [|by apply NoDup_singleton]].
      * intros x Hx Hin. apply elem_of_cons in Hin as [->|Hin]; [done|]. apply list_elem_of_singleton in Hin as ->. tauto.
      * intros Hin. apply list_elem_of_singleton in Hin. cbn in Hin. by apply Hab.
    + apply StronglySorted_app_2; [|done|].
      * intros x y Hx Hy. apply elem_of_cons in Hy as [->|Hy]; [apply (Hc x (b, nb)); [done|by left]|]. apply list_elem_of_singleton in Hy as ->. apply Hmax, elem_of_app. by left.
      * constructor; [by repeat constructor|]. apply Forall_singleton. apply (Hmax (b, nb)), elem_of_app. right. by left.
Qed.

(** ** The finger *)
Section Finger.
Context (m : gmap Z UsePosition) (locations : gmap Z LocationSlot).
Definition slot_is (p : LocationSlot -> bool) (x : Z * UsePosition) : bool := match locations !! location_slot_ x.2 with Some l => p l | None => false end.
(** The search from the head of the list. *)
Definition find_use (p : LocationSlot -> bool) (after : Z) (U : use_nodes) : Z :=
  match List.find (fun x => (after <=? pos_ x.2) && slot_is p x) U with Some (a, _) => a | None => 0 end.
(** From the finger on, the list has all the uses behind [after] that the
    search may find. *)
Definition cached (p : LocationSlot -> bool) (U : use_nodes) (use after : Z) : Prop :=
  exists P Q, U = P ++ Q /\ seg use_next m use 0 Q /\ forall x, x ∈ P -> pos_ x.2 < after \/ slot_is p x = false.

Lemma find_use_skip p after P Q : (forall x, x ∈ P -> pos_ x.2 < after \/ slot_is p x = false) -> find_use p after (P ++ Q) = find_use p after Q.
Proof using.
  unfold find_use. induction P as [|x P IH]; intros HP; [done|]. cbn [app List.find].
  replace ((after <=? pos_ x.2) && slot_is p x) with false; [apply IH; intros y Hy; apply HP; by right|].
  destruct (HP x ltac:(by left)) as [H| ->]; [rewrite (proj2 (Z.leb_gt _ _)) by done; done|by rewrite andb_false_r].
Qed.
Lemma FirstUseAfter_spec fuel use after Q : seg use_next m use 0 Q -> (length Q < fuel)%nat ->
  exists P' Q' q, Q = P' ++ Q' /\ FirstUseAfter m fuel use after = Some q /\ seg use_next m q 0 Q' /\ (forall x, x ∈ P' -> pos_ x.2 < after) /\
    match Q' with [] => True | (_, c) :: _ => after <= pos_ c end.
Proof using.
  revert use Q. induction fuel as [|fuel IH]; intros use Q Hs Hfuel; [lia|]. cbn [FirstUseAfter]. destruct (Z.eqb_spec use 0) as [->|Hu].
  { apply seg_null in Hs as ->. exists [], [], 0. split; [done|]. split; [done|]. split; [done|]. split; [|done]. intros x Hx. by apply not_elem_of_nil in Hx. }
  destruct (seg_nonnull _ _ _ _ Hs Hu) as (n & Q0 & -> & Hn & Hs'). rewrite Hn. cbn [mbind option_bind]. destruct (Z.ltb_spec (pos_ n) after).
  - destruct (IH _ _ Hs') as (P' & Q' & q & -> & -> & Hq & HP & Hhd); [cbn in Hfuel; lia|]. exists ((use, n) :: P'), Q', q. repeat (split; [done|]). split; [|done].
    intros x Hx. apply elem_of_cons in Hx as [->|Hx]; [done|by apply HP].
  - exists [], ((use, n) :: Q0), use. split; [done|]. split; [done|]. split; [done|]. split; [intros x Hx; by apply not_elem_of_nil in Hx|done].
Qed.
Lemma first_use_where_spec p fuel use after Q : seg use_next m use 0 Q -> (length Q < fuel)%nat -> (forall x, x ∈ Q -> after <= pos_ x.2 /\ is_Some (locations !! location_slot_ x.2)) ->
  exists q, first_use_where m locations p fuel use = Some q /\ q = find_use p after Q /\
    (q <> 0 -> exists P' Q', Q = P' ++ Q' /\ seg use_next m q 0 Q' /\ forall x, x ∈ P' -> slot_is p x = false).
Proof using.
  revert use Q. induction fuel as [|fuel IH]; intros use Q Hs Hfuel Hall; [lia|]. cbn [first_use_where]. destruct (Z.eqb_spec use 0) as [->|Hu].
  { apply seg_null in Hs as ->. by exists 0. }
  destruct (seg_nonnull _ _ _ _ Hs Hu) as (n & Q0 & -> & Hn & Hs'). rewrite Hn. cbn [mbind option_bind]. destruct (Hall (use, n) ltac:(by left)) as [Hpos [l Hl]]. cbn in Hpos, Hl. rewrite Hl. cbn [mbind option_bind].
  unfold find_use. cbn [List.find]. unfold slot_is at 1. cbn [snd]. rewrite Hl, (proj2 (Z.leb_le _ _)) by done. cbn [andb]. destruct (p l) eqn:Ep.
  - exists use. split; [done|]. split; [done|]. intros _. exists [], ((use, n) :: Q0). split; [done|]. split; [done|]. intros x Hx. by apply not_elem_of_nil in Hx.
  - destruct (IH _ _ Hs') as (q & -> & Hq & Hcache); [cbn in Hfuel; lia|intros x Hx; apply Hall; by right|]. exists q. split; [done|]. split; [exact Hq|]. intros Hq0.
    destruct (Hcache Hq0) as (P' & Q' & -> & HQ' & HP). exists ((use, n) :: P'), Q'. split; [done|]. split; [done|]. intros x Hx. apply elem_of_cons in Hx as [->|Hx]; [|by apply HP].
    unfold slot_is. cbn. by rewrite Hl.
Qed.
(** A search from the finger finds what a search from the head finds, and
    the finger stays good for later positions. *)
Lemma cached_search p U use after0 after : NoDup U.*1 -> by_position U -> (forall x, x ∈ U -> is_Some (locations !! location_slot_ x.2)) -> cached p U use after0 -> after0 <= after ->
  exists q1 q, FirstUseAfter m (S (size m)) use after = Some q1 /\ first_use_where m locations p (S (size m)) q1 = Some q /\ q = find_use p after U /\
    cached p U (if q =? 0 then use else q) after.
Proof using.
  intros Hnd Hsort Hslots (P & Q & -> & Hs & HP) Hle. rewrite fmap_app in Hnd. apply NoDup_app in Hnd as (_ & _ & Hnd). pose proof (seg_size _ _ _ _ _ Hs Hnd) as Hsize.
  destruct (FirstUseAfter_spec (S (size m)) use after Q Hs) as (P1 & Q1 & q1 & -> & Hq1 & Hs1 & HP1 & Hhd); [lia|]. rewrite length_app in Hsize.
  assert (Hge : forall x, x ∈ Q1 -> after <= pos_ x.2).
  { intros x Hx. apply StronglySorted_app_1_r, StronglySorted_app_1_r in Hsort. destruct Q1 as [|[c nc] Q1]; [by apply not_elem_of_nil in Hx|]. apply StronglySorted_inv in Hsort as [_ Hmin].
    rewrite list.Forall_forall in Hmin. apply elem_of_cons in Hx as [->|Hx]; [done|]. specialize (Hmin _ Hx). cbn in *. lia. }
  destruct (first_use_where_spec p (S (size m)) q1 after Q1 Hs1) as (q & Hq & Hfind & Hcache); [lia|intros x Hx; split; [by apply Hge|apply Hslots, elem_of_app; right; apply elem_of_app; by right]|].
  exists q1, q. split; [done|]. split; [done|]. split.
  - rewrite Hfind. symmetry. rewrite find_use_skip; [|intros x Hx; destruct (HP x Hx); [left; lia|by right]]. apply find_use_skip. intros x Hx. left. by apply HP1.
  - destruct (Z.eqb_spec q 0) as [|Hq0].
    + exists P, (P1 ++ Q1). split; [done|]. split; [done|]. intros x Hx. destruct (HP x Hx); [left; lia|by right].
    + destruct (Hcache Hq0) as (P2 & Q2 & -> & Hs2 & HP2). exists (P ++ P1 ++ P2), Q2. split; [by rewrite !app_assoc|]. split; [done|]. intros x Hx. rewrite !elem_of_app in Hx.
      destruct Hx as [Hx|[Hx|Hx]]; [destruct (HP x Hx); [left; lia|by right]|left; by apply HP1|right; by apply HP2].
Qed.
End Finger.

(** ** Intersection with the ranges that have a register *)
(** The positions from the finger of an allocated range on. *)
Definition pending_of (st : Objects) (a : Z) (A : nodes) : Prop := exists range, ranges st !! a = Some range /\ A <> [] /\
  seg interval_next (intervals st) (first_pending_use_interval_ (finger_ range)) 0 A /\ in_order 0 A.
Definition first_conflict (un : nodes) (allocated : list (Z * nodes)) (bound pos : Z) : Prop :=
  pos <= bound /\ (pos = bound \/ exists a A, (a, A) ∈ allocated /\ live_at A pos /\ live_at un pos) /\
  forall a A q, (a, A) ∈ allocated -> live_at A q -> live_at un q -> pos <= q.
Lemma FirstIntersection_all_spec st u un allocated bound : seg interval_next (intervals st) u 0 un -> in_order 0 un -> bound <= kMaxPosition ->
  (forall a A, (a, A) ∈ allocated -> a = 0 /\ A = [] \/ a <> 0 /\ pending_of st a A) ->
  exists pos, FirstIntersection_all st u (fst <$> allocated) bound = Some pos /\ first_conflict un allocated bound pos.
Proof.
  intros Hu Huo. revert bound. induction allocated as [|[a A] allocated IH]; intros bound Hb Hall.
  { exists bound. split; [done|]. split; [lia|]. split; [by left|]. intros a A q Hin. by apply not_elem_of_nil in Hin. }
  assert (Hrest : forall a A, (a, A) ∈ allocated -> a = 0 /\ A = [] \/ a <> 0 /\ pending_of st a A) by (intros b B Hin; apply Hall; by right).
  assert (Hskip : forall pos bound', bound' <= bound -> first_conflict un allocated bound' pos -> (forall q, live_at A q -> live_at un q -> bound' <= q) ->
    (bound' = bound \/ live_at A bound' /\ live_at un bound') -> first_conflict un ((a, A) :: allocated) bound pos).
  { intros pos bound' Hbb (H1 & H2 & H3) Hno Hor. split; [lia|]. split.
    - destruct H2 as [->|(b & B & Hin & Hc)]; [|right; exists b, B; split; [by right|done]]. destruct Hor as [->|Hc]; [by left|]. right. exists a, A. split; [by left|done].
    - intros b B q Hin HB Hq. apply elem_of_cons in Hin as [Heq|Hin]; [injection Heq as -> ->; specialize (Hno q HB Hq); lia|by eapply H3]. }
  cbn [fmap list_fmap FirstIntersection_all fst]. destruct (Hall a A ltac:(by left)) as [[-> ->]|(Ha & range & Hr & Hne & Hs & Ho)].
  - rewrite Z.eqb_refl. destruct (IH bound Hb Hrest) as (pos & -> & Hpos). exists pos. split; [done|]. apply (Hskip pos bound); [lia|done|intros q Hq; by apply live_at_nil in Hq|by left].
  - rewrite (proj2 (Z.eqb_neq _ _)) by done. rewrite Hr. cbn [mbind option_bind]. destruct A as [|[b i] A']; [done|]. destruct Hs as (Hb' & Hb0 & Hm & Hs). rewrite Hb', Hm. cbn [mbind option_bind].
    destruct (Z.geb_spec (start_ i) bound) as [Hge|Hlt].
    + destruct (IH bound Hb Hrest) as (pos & -> & Hpos). exists pos. split; [done|]. apply (Hskip pos bound); [lia|done| |by left].
      intros q Hq _. apply (in_order_lower (start_ i)) in Hq; [lia|]. destruct Ho as [Hi Ho]. split; [lia|done].
    + destruct (FirstIntersection_spec (intervals st) u b un ((b, i) :: A')) as (x & -> & Hx); [done|done|done|done|]. cbn [mbind option_bind].
      assert (Hbound : (if x <? bound then x else bound) <= bound) by (destruct (Z.ltb_spec x bound); lia).
      destruct (IH (if x <? bound then x else bound) ltac:(lia) Hrest) as (pos & -> & Hpos). exists pos. split; [done|]. apply (Hskip _ _ Hbound Hpos).
      * intros q HA Hq. destruct Hx as [[-> Hn]|(H1 & H2 & H3)]; [by destruct (Hn q Hq HA)|]. specialize (H3 q Hq HA). destruct (Z.ltb_spec x bound); lia.
      * destruct (Z.ltb_spec x bound); [|by left]. destruct Hx as [[-> _]|(H1 & H2 & _)]; [lia|by right].
Qed.

(** ** Theorems *)
Lemma Contains_loop_spec fuel m p ns pos : seg interval_next m p 0 ns -> (length ns < fuel)%nat ->
  exists b, Contains_loop fuel m p pos = Some b /\ (b = true <-> live_at ns pos).
Proof.
  revert p ns. induction fuel as [|fuel IH]; intros p ns Hs Hfuel; [lia|]. cbn [Contains_loop]. destruct (Z.eqb_spec p 0) as [->|Hp].
  - apply seg_null in Hs as ->. exists false. split; [done|]. split; [done|]. intros Hc. by apply live_at_nil in Hc.
  - destruct (seg_nonnull _ _ _ _ Hs Hp) as (i & ns' & -> & Hi & Hs'). rewrite Hi. cbn [mbind option_bind]. destruct (UseInterval_Contains i pos) eqn:E; unfold UseInterval_Contains in E.
    + apply andb_true_iff in E as [E1%Z.leb_le E2%Z.ltb_lt]. exists true. split; [done|]. split; [|done]. intros _. apply live_at_cons. left. lia.
    + destruct (IH _ _ Hs') as (b & -> & Hb); [cbn in Hfuel; lia|]. exists b. split; [done|]. rewrite Hb, live_at_cons. split; [by right|]. intros [Hc|Hc]; [|done].
      apply andb_false_iff in E as [E%Z.leb_gt|E%Z.ltb_ge]; lia.
Qed.
Lemma in_order_upper lo ns a i pos : in_order lo (ns ++ [(a, i)]) -> live_at (ns ++ [(a, i)]) pos -> pos < end_ i.
Proof.
  intros Ho Hc. apply live_at_app in Hc as [(b & x & Hin & Hx)|Hc]; [|apply live_at_cons in Hc as [?|Hc]; [lia|by apply live_at_nil in Hc]].
  destruct (in_order_app _ _ _ Ho) as (_ & H2 & H3). specialize (H3 _ (a, i) Hin ltac:(by left)). cbn in *. lia.
Qed.
(** [Contains] is exact for every position, and so is the fast check in
    front of it one-sided. *)
Theorem Range_Contains_exact st r range I U S pos : range_wf st r range I U S -> I <> [] -> exists b, Range_Contains st range pos = Some b /\ (b = true <-> live_at I pos).
Proof.
  intros Hwf Hne. pose proof (rw_intervals _ _ _ _ _ _ Hwf) as Hs. pose proof (rw_order _ _ _ _ _ _ Hwf) as Ho. pose proof (rw_last _ _ _ _ _ _ Hwf) as Hl. unfold Range_Contains, CanCover, Range_Start, Range_End.
  destruct (last_seg _ _ _ _ _ Hs Hne) as (I0 & b & j & HI & Hb & Hj & _ & _ & _). rewrite Hl, Hb, Hj.
  assert (Hfirst : exists i, intervals st !! first_use_interval_ range = Some i /\ forall q, live_at I q -> start_ i <= q).
  { destruct I as [|[a i] I']; [done|]. destruct Hs as (-> & _ & Hi & _). exists i. split; [done|]. intros q Hq. apply (in_order_lower (start_ i)) in Hq; [done|]. destruct Ho. split; [lia|done]. }
  destruct Hfirst as (i & -> & Hlow). cbn [mbind option_bind]. destruct ((start_ i <=? pos) && (pos <? end_ j)) eqn:E; cbn [negb].
  - apply Contains_loop_spec; [done|]. pose proof (seg_size _ _ _ _ _ Hs (in_order_ids _ _ _ _ _ Hs Ho)). lia.
  - exists false. split; [done|]. split; [done|]. intros Hc. exfalso. pose proof (Hlow _ Hc). rewrite HI in Ho, Hc. pose proof (in_order_upper _ _ _ _ _ Ho Hc).
    apply andb_false_iff in E as [E%Z.leb_gt|E%Z.ltb_ge]; lia.
Qed.

(** C17: [SplitAt] at a position behind the start and before the end of a
    range always succeeds, wherever the finger of the range is: the range keeps what it
    covers before the position and the new sibling gets the rest, both are
    well-formed with correct last intervals, uses and safepoints are
    distributed in order without loss, the sibling is linked behind the
    range, and no other object changes. *)
Theorem SplitAt_partitions st r range I U S split_pos i0 : range_wf st r range I U S -> finger_wf range I U ->
  intervals st !! first_use_interval_ range = Some i0 -> start_ i0 < split_pos -> (exists q, live_at I q /\ split_pos <= q) ->
  exists sibling st', SplitAt st r split_pos = Some (sibling, st') /\ split_result st r range I U S split_pos sibling st'.
Proof. intros Hwf Hf Hi Hs He. by eapply SplitAt_spec. Qed.
Definition sample_intervals : nodes := [(1, MkInterval 10 20 2); (2, MkInterval 30 40 0)].
Definition sample_uses : use_nodes := [(3, MkUse 12 7 0 4); (4, MkUse 35 8 0 0)].
Definition sample_range : LiveRange := MkRange 0 kTagged NoLocation NoLocation 3 1 2 0 0 0 0 false (MkFinger 2 3 3 3).
Definition sample_objects : Objects :=
  MkObjects (list_to_map sample_intervals) (list_to_map sample_uses) ∅ {[5 := sample_range]} {[7 := Unallocated kAny; 8 := Unallocated kRequiresRegister]}.
Lemma sample_wf : range_wf sample_objects 5 sample_range sample_intervals sample_uses [] /\ finger_wf sample_range sample_intervals sample_uses.
Proof.
  split; [split|]; try done.
  - repeat constructor; cbn; [|intros H; by apply not_elem_of_nil in H]. intros H. apply list_elem_of_singleton in H. done.
  - repeat constructor; cbn; lia.
  - constructor.
  - constructor.
  - split; [right; by exists [(1, MkInterval 10 20 2)], (MkInterval 30 40 0), []|]. split; right; by left.
Qed.
Lemma SplitAt_partitions_witness : exists sibling st', SplitAt sample_objects 5 15 = Some (sibling, st') /\
  split_result sample_objects 5 sample_range sample_intervals sample_uses [] 15 sibling st'.
Proof.
  destruct sample_wf as [Hwf Hf]. apply (SplitAt_partitions _ _ _ _ _ _ _ (MkInterval 10 20 2)); [exact Hwf|exact Hf|reflexivity|cbn; lia|].
  exists 16. split; [|lia]. exists 1, (MkInterval 10 20 2). split; [by left|cbn; lia].
Defined.

(** C18: the operations that build a range keep it well-formed.
    [AddUseInterval] adds exactly the positions of the interval, and intervals
    that do not touch each other stay so: an interval that touches the first one is merged with
    it (the code does not look at the second one, so the new end must not
    touch a later interval); [DefineAt] cuts off what is before the definition; [AddUse]
    looks for the use behind the first one if that is before the position, and
    else only at the first one: it returns the use if it finds it, else it adds it in front of the uses at
    the same position or later (so a use behind another one at the same
    position may be added twice, [AddUse_twice]); [AddHintedUse] sets the hint of that use and changes
    no other; [AddSafepoint] appends. *)
Theorem LiveRange_build st r range I U S : range_wf st r range I U S ->
  (forall start end_pos, 0 <= start < end_pos -> interval_fits I start end_pos -> exists st' range' I', AddUseInterval st r start end_pos = Some st' /\ range_wf st' r range' I' U S /\
     (forall pos, live_at I' pos <-> live_at I pos \/ start <= pos < end_pos) /\ (apart I -> (forall x, x ∈ tail I -> end_pos <> start_ x.2) -> apart I')) /\
  (forall pos, 0 <= pos -> match I with [] => True | (_, i) :: _ => start_ i <= pos < end_ i end -> exists st' range' I', DefineAt st r pos = Some st' /\ range_wf st' r range' I' U S /\
     (forall q, live_at I' q <-> match I with [] => q = pos | _ => live_at I q /\ pos <= q end) /\ (apart I -> apart I')) /\
  (forall pos location_slot, exists a st' range' U', AddUse st r pos location_slot = Some (a, st') /\ range_wf st' r range' I U' S /\ use_added U U' a pos location_slot) /\
  (forall pos location_slot hint, exists st' range' L1 a u L2, AddHintedUse st r pos location_slot hint = Some st' /\ use_added U (L1 ++ (a, u) :: L2) a pos location_slot /\
     range_wf st' r range' I (L1 ++ (a, MkUse pos location_slot hint (use_next u)) :: L2) S) /\
  (forall pos locs, last_safepoint_ range = last_id S 0 -> (forall x, x ∈ S -> safepoint_pos x.2 <= ToInstructionEnd pos) ->
     exists st' range' S' a, AddSafepoint st r pos locs = Some st' /\ range_wf st' r range' I U S' /\ last_safepoint_ range' = last_id S' 0 /\
     unlinked <$> S' = (unlinked <$> S) ++ [(a, MkSafepoint (ToInstructionEnd pos) locs 0)]).
Proof.
  intros Hwf. split; [intros; by apply (AddUseInterval_spec _ _ range)|]. split; [intros; by apply (DefineAt_spec _ _ range)|]. split; [intros; by apply (AddUse_spec _ _ range)|].
  split; [intros; by apply (AddHintedUse_spec _ _ range _ U)|]. intros; by apply (AddSafepoint_spec _ _ range).
Qed.
Lemma LiveRange_build_witness : exists st' range' I', AddUseInterval sample_objects 5 4 10 = Some st' /\ range_wf st' 5 range' I' sample_uses [] /\ live_at I' 4 /\ live_at I' 19 /\ apart I'.
Proof.
  destruct (LiveRange_build _ _ _ _ _ _ (proj1 sample_wf)) as (Hadd & _). destruct (Hadd 4 10) as (st' & range' & I' & Ha & Hw & Hc & Hap); [lia|cbn; lia|].
  exists st', range', I'. split; [exact Ha|]. split; [exact Hw|]. split; [apply Hc; right; lia|]. split; [apply Hc; left; exists 1, (MkInterval 10 20 2); split; [by left|cbn; lia]|].
  apply Hap; [repeat constructor; cbn; lia|]. intros x Hx. cbn in Hx. apply list_elem_of_singleton in Hx as ->. cbn. lia.
Defined.
(** The first use is at the position, with another slot: the use behind it is
    not found and is there twice. *)
Example AddUse_twice :
  let uses : use_nodes := [(3, MkUse 12 7 0 4); (4, MkUse 12 8 0 0)] in
  let st := MkObjects (list_to_map sample_intervals) (list_to_map uses) ∅ {[5 := sample_range]} ∅ in
  (fun '(a, st') => (a, (fun u => (pos_ u, location_slot_ u, use_next u)) <$> positions st' !! a, uses_ <$> ranges st' !! 5)) <$> AddUse st 5 12 8 =
    Some (5, Some (12, 8, 3), Some 5).
Proof. vm_compute. reflexivity. Qed.

(** [FirstIntersectionWithAllocated] returns the first position at
    which the range to be allocated is live together with one of the ranges that have
    the register, from their fingers on, and the maximal position if
    there is none. *)
Theorem FirstIntersectionWithAllocated_least st unallocated un allocated : seg interval_next (intervals st) (first_pending_use_interval_ (finger_ unallocated)) 0 un -> in_order 0 un ->
  (forall a A, (a, A) ∈ allocated -> a = 0 /\ A = [] \/ a <> 0 /\ pending_of st a A) ->
  exists pos, FirstIntersectionWithAllocated st (fst <$> allocated) unallocated = Some pos /\ first_conflict un allocated kMaxPosition pos.
Proof. intros Hu Ho Hall. by apply FirstIntersection_all_spec. Qed.
Lemma FirstIntersectionWithAllocated_least_witness : exists pos, FirstIntersectionWithAllocated sample_objects [0; 5] (with_finger sample_range (MkFinger 1 0 0 0)) = Some pos /\
  first_conflict sample_intervals [(0, []); (5, [(2, MkInterval 30 40 0)])] kMaxPosition pos.
Proof.
  apply (FirstIntersectionWithAllocated_least sample_objects _ sample_intervals [(0, []); (5, [(2, MkInterval 30 40 0)])]); [done|cbn; lia|].
  intros a A Hin. apply elem_of_cons in Hin as [Heq|Hin]; [injection Heq as -> ->; by left|]. apply list_elem_of_singleton in Hin. injection Hin as -> ->. right. split; [done|].
  exists sample_range. split; [done|]. split; [done|]. split; [done|cbn; lia].
Defined.

(** C19: the cached searches of a finger find what a search from the first
    use of the range finds, as long as the positions asked for do not decrease; the
    cache stays valid. *)
Theorem finger_cache_transparent m locations U f after0 after : NoDup U.*1 -> by_position U -> (forall x, x ∈ U -> is_Some (locations !! location_slot_ x.2)) -> after0 <= after ->
  (cached m locations requires_register U (first_register_use_ f) after0 -> exists f', FirstRegisterUse m locations f after = Some (find_use locations requires_register after U, f') /\
     cached m locations requires_register U (first_register_use_ f') after) /\
  (cached m locations (fun l => IsUnallocated l && IsRegisterBeneficial l) U (first_register_beneficial_use_ f) after0 -> exists f', FirstRegisterBeneficialUse m locations f after =
     Some (find_use locations (fun l => IsUnallocated l && IsRegisterBeneficial l) after U, f') /\ cached m locations (fun l => IsUnallocated l && IsRegisterBeneficial l) U (first_register_beneficial_use_ f') after).
Proof.
  intros Hnd Hs Hl Hle. split; intros Hc; destruct (cached_search m locations _ U _ after0 after Hnd Hs Hl Hc Hle) as (q1 & q & H1 & H2 & Hq & Hc').
  - unfold FirstRegisterUse. rewrite H1. cbn [mbind option_bind]. rewrite H2, <- Hq. eexists. split; [done|]. by destruct (q =? 0).
  - unfold FirstRegisterBeneficialUse. rewrite H1. cbn [mbind option_bind]. rewrite H2, <- Hq. eexists. split; [done|]. by destruct (q =? 0).
Qed.
Lemma finger_cache_transparent_witness : exists f', FirstRegisterUse (positions sample_objects) (slots sample_objects) (finger_ sample_range) 12 = Some (4, f').
Proof.
  destruct sample_wf as [Hwf _]. pose proof (rw_uses_ids _ _ _ _ _ _ Hwf) as Hnd. pose proof (rw_uses_order _ _ _ _ _ _ Hwf) as Hs.
  destruct (finger_cache_transparent (positions sample_objects) (slots sample_objects) sample_uses (finger_ sample_range) 0 12) as [Hreg _]; [exact Hnd|exact Hs| |lia|].
  - intros x Hx. apply elem_of_cons in Hx as [->|Hx]; [by eexists|]. apply list_elem_of_singleton in Hx as ->. by eexists.
  - destruct Hreg as (f' & Hf & _); [|exists f'; exact Hf]. exists [], sample_uses. split; [done|]. split; [done|]. intros x Hx. by apply not_elem_of_nil in Hx.
Defined.
