(* ===== verification/SSALiveness.v ===== *)
(** * Liveness of virtual registers (src/runtime/vm/compiler/backend/linearscan.{h,cc})

    [SSALivenessAnalysis]: the initial sets of the analysis of Liveness.v for
    the virtual registers of a graph in SSA form, from which the register
    allocator builds live ranges: definitions, inputs, environments with
    materialized objects, phis and the definitions of block entries. *)
From S2P Require Import Prelude Utils BitSet BitVector Liveness LiveRange.
From stdpp Require Import relations.
Local Open Scope Z_scope.
Local Open Scope vm_scope.

(** ** The graph *)
(** A [Definition] as the analysis sees it: its virtual register and whether
    its representation takes two of them. *)
Record SsaDef := MkSsaDef { vreg : Z; is_pair : bool }.
Definition HasSSATemp (d : SsaDef) : bool := 0 <=? vreg d.

(** Inputs of a [MaterializeObject], which is named by its index. *)
Inductive MatInput := MatConstant | MatInner (mat : Z) | MatValue (d : SsaDef).
(** Values of a deoptimization environment and its outer environments. *)
Inductive EnvValue := EnvMaterialize (mat : Z) | EnvPushArgument | EnvConstant | EnvDef (d : SsaDef).
(** [ssa_inputs] says of each input whether its location is a constant. *)
Record SsaInstr := MkSsaInstr { ssa_definition : option SsaDef; ssa_inputs : list (bool * SsaDef); ssa_env : list EnvValue }.
(** [phi_inputs] says of each input whether it is bound to a constant. *)
Record SsaPhi := MkSsaPhi { phi_definition : SsaDef; phi_inputs : list (bool * Z) }.
Inductive SsaEntry := SsaJoin (phis : list SsaPhi) (predecessors : list Z) | SsaInitialDefs (defs : list Z) | SsaOther.
Record SsaBlock := MkSsaBlock { ssa_flow : FlowBlock; ssa_entry : SsaEntry; ssa_instructions : list SsaInstr }.
(** [visited_] are the marks [was_visited_for_liveness] of the materializations. *)
Record SsaGraph := MkSsaGraph {
  max_virtual_register_number : Z;
  materializations : list (list MatInput);
  visited_ : list bool;
  ssa_postorder : list SsaBlock }.

(** ** Initial sets *)
Fixpoint mat_inputs (visit : Z -> list bool -> BitVector -> option (list bool * BitVector))
    (inputs : list MatInput) (visited : list bool) (live_in : BitVector) : option (list bool * BitVector) :=
  match inputs with
  | [] => Some (visited, live_in)
  | input :: inputs =>
      '(visited, live_in) ←
        match input with
        | MatConstant => Some (visited, live_in)
        | MatInner mat => visit mat visited live_in
        | MatValue d => live_in ← BitVector_Add live_in (vreg d); Some (visited, live_in)
        end;
      mat_inputs visit inputs visited live_in
  end.
Fixpoint DeepLiveness (fuel : nat) (mats : list (list MatInput)) (mat : Z) (visited : list bool) (live_in : BitVector)
    : option (list bool * BitVector) :=
  match fuel with
  | O => None
  | S fuel =>
      was_visited ← arr_get visited mat;
      if was_visited : bool then Some (visited, live_in)
      else
        visited ← arr_set visited mat true;
        inputs ← arr_get mats mat;
        mat_inputs (DeepLiveness fuel mats) inputs visited live_in
  end.

Definition add_def (live : BitVector) (d : SsaDef) : option BitVector :=
  live ← BitVector_Add live (vreg d);
  if is_pair d then BitVector_Add live (ToSecondPairVreg (vreg d)) else Some live.
Definition remove_def (live : BitVector) (d : SsaDef) : option BitVector :=
  live ← BitVector_Remove live (vreg d);
  if is_pair d then BitVector_Remove live (ToSecondPairVreg (vreg d)) else Some live.

Record SsaScan := MkSsaScan { ss_kill : BitVector; ss_live_in : BitVector; ss_visited : list bool }.
Definition ssa_define (d : option SsaDef) (sc : SsaScan) : option SsaScan :=
  match d with
  | Some d =>
      if HasSSATemp d then
        kill ← add_def (ss_kill sc) d; live_in ← remove_def (ss_live_in sc) d; Some (MkSsaScan kill live_in (ss_visited sc))
      else Some sc
  | None => Some sc
  end.
Fixpoint ssa_use_inputs (inputs : list (bool * SsaDef)) (live_in : BitVector) : option BitVector :=
  match inputs with
  | [] => Some live_in
  | (is_constant, d) :: inputs => live_in ← (if is_constant : bool then Some live_in else add_def live_in d); ssa_use_inputs inputs live_in
  end.
Fixpoint ssa_use_env (fuel : nat) (mats : list (list MatInput)) (env : list EnvValue) (visited : list bool) (live_in : BitVector)
    : option (list bool * BitVector) :=
  match env with
  | [] => Some (visited, live_in)
  | value :: env =>
      '(visited, live_in) ←
        match value with
        | EnvMaterialize mat => DeepLiveness fuel mats mat visited live_in
        | EnvPushArgument | EnvConstant => Some (visited, live_in)
        | EnvDef d => live_in ← add_def live_in d; Some (visited, live_in)
        end;
      ssa_use_env fuel mats env visited live_in
  end.
(** A call of [DeepLiveness] that goes deeper has marked a materialization. *)
Definition ssa_visit (mats : list (list MatInput)) (current : SsaInstr) (sc : SsaScan) : option SsaScan :=
  sc ← ssa_define (ssa_definition current) sc;
  live_in ← ssa_use_inputs (ssa_inputs current) (ss_live_in sc);
  '(visited, live_in) ← ssa_use_env (S (length mats)) mats (ssa_env current) (ss_visited sc) live_in;
  Some (MkSsaScan (ss_kill sc) live_in visited).
Fixpoint ssa_scan (mats : list (list MatInput)) (instrs : list SsaInstr) (sc : SsaScan) : option SsaScan :=
  match instrs with
  | [] => Some sc
  | current :: rest => sc ← ssa_scan mats rest sc; ssa_visit mats current sc
  end.

(** Operations on the sets of a block by its postorder number. *)
Definition kill_defines (s : LivenessAnalysis) (b v : Z) : option LivenessAnalysis :=
  kill ← arr_get (kill_ s) b; kill ← BitVector_Add kill v; kills ← arr_set (kill_ s) b kill;
  live_in ← arr_get (live_in_ s) b; live_in ← BitVector_Remove live_in v; ins ← arr_set (live_in_ s) b live_in;
  Some (MkLiveness (live_out_ s) kills ins).
Definition use_unless_killed (s : LivenessAnalysis) (b v : Z) : option LivenessAnalysis :=
  kill ← arr_get (kill_ s) b; killed ← BitVector_Contains kill v;
  if negb killed then
    live_in ← arr_get (live_in_ s) b; live_in ← BitVector_Add live_in v; ins ← arr_set (live_in_ s) b live_in;
    Some (MkLiveness (live_out_ s) (kill_ s) ins)
  else Some s.
(** The inputs of a phi from the [k]th on. *)
Fixpoint phi_uses (pair : bool) (inputs : list (bool * Z)) (k : Z) (predecessors : list Z) (s : LivenessAnalysis) : option LivenessAnalysis :=
  match inputs with
  | [] => Some s
  | (is_constant, use) :: inputs =>
      s ←
        (if is_constant : bool then Some s
         else
           pred ← arr_get predecessors k;
           s ← use_unless_killed s pred use;
           if pair then use_unless_killed s pred (ToSecondPairVreg use) else Some s);
      phi_uses pair inputs (k + 1) predecessors s
  end.
Fixpoint phis_of_join (b : Z) (phis : list SsaPhi) (predecessors : list Z) (s : LivenessAnalysis) : option LivenessAnalysis :=
  match phis with
  | [] => Some s
  | phi :: phis =>
      let d := phi_definition phi in
      s ← kill_defines s b (vreg d);
      s ← (if is_pair d then kill_defines s b (ToSecondPairVreg (vreg d)) else Some s);
      s ← phi_uses (is_pair d) (phi_inputs phi) 0 predecessors s;
      phis_of_join b phis predecessors s
  end.
Fixpoint initial_definitions (b : Z) (defs : list Z) (s : LivenessAnalysis) : option LivenessAnalysis :=
  match defs with
  | [] => Some s
  | v :: defs => s ← kill_defines s b v; initial_definitions b defs s
  end.
Definition ssa_block (mats : list (list MatInput)) (i : Z) (block : SsaBlock) (visited : list bool) (s : LivenessAnalysis)
    : option (list bool * LivenessAnalysis) :=
  kill ← arr_get (kill_ s) i;
  live_in ← arr_get (live_in_ s) i;
  sc ← ssa_scan mats (ssa_instructions block) (MkSsaScan kill live_in visited);
  kills ← arr_set (kill_ s) i (ss_kill sc);
  ins ← arr_set (live_in_ s) i (ss_live_in sc);
  let s := MkLiveness (live_out_ s) kills ins in
  s ←
    match ssa_entry block with
    | SsaJoin phis predecessors => phis_of_join i phis predecessors s
    | SsaInitialDefs defs => initial_definitions (postorder_number (ssa_flow block)) defs s
    | SsaOther => Some s
    end;
  Some (ss_visited sc, s).
Fixpoint SSALiveness_loop (mats : list (list MatInput)) (i : Z) (blocks : list SsaBlock) (visited : list bool) (s : LivenessAnalysis)
    : option (list bool * LivenessAnalysis) :=
  match blocks with
  | [] => Some (visited, s)
  | block :: blocks => '(visited, s) ← ssa_block mats i block visited s; SSALiveness_loop mats (i + 1) blocks visited s
  end.
Definition SSALiveness_ComputeInitialSets (g : SsaGraph) (s : LivenessAnalysis) : option (SsaGraph * LivenessAnalysis) :=
  '(visited, s) ← SSALiveness_loop (materializations g) 0 (ssa_postorder g) (visited_ g) s;
  Some (MkSsaGraph (max_virtual_register_number g) (materializations g) visited (ssa_postorder g), s).

#[export] Instance SSALiveness : LivenessClient SsaGraph := {
  client_postorder g := ssa_flow <$> ssa_postorder g;
  variable_count_ := max_virtual_register_number;
  ComputeInitialSets := SSALiveness_ComputeInitialSets }.

(** ** Registers of definitions *)
Definition def_vregs (d : SsaDef) (v : Z) : bool := (vreg d =? v) || (is_pair d && (ToSecondPairVreg (vreg d) =? v)).
Definition wf_def (n : Z) (d : SsaDef) : Prop := 0 <= vreg d /\ ToSecondPairVreg (vreg d) < n.

Lemma wf_def_second n d : wf_def n d -> 0 <= vreg d < n /\ 0 <= ToSecondPairVreg (vreg d) < n.
Proof. unfold wf_def, ToSecondPairVreg, kNoVirtualRegister, kPairVirtualRegisterOffset. intros [? H]. zif_in H; lia. Qed.
Lemma add_def_spec n x d : wf_vector n x -> wf_def n d ->
  exists x', add_def x d = Some x' /\ wf_vector n x' /\ forall v, contents x' v = def_vregs d v || contents x v.
Proof.
  intros Hx Hd. destruct (wf_def_second n d Hd) as [H1 H2]. unfold add_def, def_vregs.
  destruct (BitVector_Add_spec n x Hx (vreg d) H1) as (x1 & -> & Hx1 & Hc1). cbn [mbind option_bind]. destruct (is_pair d).
  - destruct (BitVector_Add_spec n x1 Hx1 _ H2) as (x2 & -> & Hx2 & Hc2). exists x2. split; [done|]. split; [done|]. intros v.
    rewrite Hc2, Hc1, (Z.eqb_sym v), (Z.eqb_sym v). by destruct (ToSecondPairVreg (vreg d) =? v), (vreg d =? v).
  - exists x1. split; [done|]. split; [done|]. intros v. rewrite Hc1, Z.eqb_sym. by destruct (vreg d =? v).
Qed.
Lemma remove_def_spec n x d : wf_vector n x -> wf_def n d ->
  exists x', remove_def x d = Some x' /\ wf_vector n x' /\ forall v, contents x' v = negb (def_vregs d v) && contents x v.
Proof.
  intros Hx Hd. destruct (wf_def_second n d Hd) as [H1 H2]. unfold remove_def, def_vregs.
  destruct (BitVector_Remove_spec n x Hx (vreg d) H1) as (x1 & -> & Hx1 & Hc1). cbn [mbind option_bind]. destruct (is_pair d).
  - destruct (BitVector_Remove_spec n x1 Hx1 _ H2) as (x2 & -> & Hx2 & Hc2). exists x2. split; [done|]. split; [done|]. intros v.
    rewrite Hc2, Hc1, (Z.eqb_sym v), (Z.eqb_sym v). by destruct (ToSecondPairVreg (vreg d) =? v), (vreg d =? v).
  - exists x1. split; [done|]. split; [done|]. intros v. rewrite Hc1, Z.eqb_sym. by destruct (vreg d =? v).
Qed.

(** ** Materializations *)
Section Materializations.
Context (n : Z) (mats : list (list MatInput)).

Definition child (m m' : Z) : Prop := exists inputs, arr_get mats m = Some inputs /\ MatInner m' ∈ inputs.
Definition mat_value (m v : Z) : Prop := exists inputs d, arr_get mats m = Some inputs /\ MatValue d ∈ inputs /\ def_vregs d v = true.
(** Inputs of materializations take one register. *)
Definition wf_mat_input (i : MatInput) : Prop :=
  match i with MatConstant => True | MatInner m => 0 <= m < zlen mats | MatValue d => wf_def n d /\ is_pair d = false end.
Definition wf_mats : Prop := Forall (Forall wf_mat_input) mats.

Definition visited_at (vis : list bool) (m : Z) : Prop := arr_get vis m = Some true.
Definition unvisited (vis : list bool) : nat := length (filter (fun b => b = false) vis).

(** A traversal from the materializations [R], which adds the registers [L] and
    those of what it visits. *)
Record visits (R L : Z -> Prop) (vis : list bool) (x : BitVector) (vis' : list bool) (x' : BitVector) : Prop := {
  vs_length : length vis' = length mats;
  vs_wf : wf_vector n x';
  vs_count : (unvisited vis' <= unvisited vis)%nat;
  vs_mono m : visited_at vis m -> visited_at vis' m;
  vs_roots m : R m -> visited_at vis' m;
  vs_from m : visited_at vis' m -> ~ visited_at vis m -> exists r, R r /\ rtc child r m;
  vs_closed m m' : visited_at vis' m -> ~ visited_at vis m -> child m m' -> visited_at vis' m';
  vs_live v : contents x' v = true <-> contents x v = true \/ L v \/ exists m, visited_at vis' m /\ ~ visited_at vis m /\ mat_value m v }.

Lemma visited_dec vis m : {visited_at vis m} + {~ visited_at vis m}.
Proof. unfold visited_at. apply (decide (arr_get vis m = Some true)). Qed.
Lemma visits_refl vis x : length vis = length mats -> wf_vector n x -> visits (fun _ => False) (fun _ => False) vis x vis x.
Proof. intros Hl Hx. split; try done. intros v. split; [by left|]. intros [?|[?|(m & H & Hn & _)]]; done. Qed.
Lemma visits_trans R1 L1 R2 L2 vis x vis1 x1 vis2 x2 : visits R1 L1 vis x vis1 x1 -> visits R2 L2 vis1 x1 vis2 x2 ->
  visits (fun m => R1 m \/ R2 m) (fun v => L1 v \/ L2 v) vis x vis2 x2.
Proof.
  intros [_ _ C1 M1 T1 F1 D1 V1] [Hl Hx C2 M2 T2 F2 D2 V2]. split; try done.
  - lia.
  - intros m Hm. by apply M2, M1.
  - intros m [Hm|Hm]; [by apply M2, T1|by apply T2].
  - intros m Hm Hn. destruct (visited_dec vis1 m) as [H1|H1].
    + destruct (F1 m H1 Hn) as (r & Hr & Hp). exists r. tauto.
    + destruct (F2 m Hm H1) as (r & Hr & Hp). exists r. tauto.
  - intros m m' Hm Hn Hc. destruct (visited_dec vis1 m) as [H1|H1]; [by eapply M2, D1|by eapply D2].
  - intros v. rewrite V2, V1. split.
    + intros [[?|[?|(m & H1 & Hn & Hv)]]|[?|(m & H1 & Hn & Hv)]]; try tauto; right; right; exists m.
      * split; [by apply M2|done].
      * split; [done|]. split; [|done]. intros Hm. by apply Hn, M1.
    + intros [?|[[?|?]|(m & H2 & Hn & Hv)]]; try tauto. destruct (visited_dec vis1 m) as [H1|H1]; [left; right; right|right; right]; eauto.
Qed.
Lemma visits_ext R L R' L' vis x vis' x' : (forall m, R m <-> R' m) -> (forall v, L v <-> L' v) -> visits R L vis x vis' x' -> visits R' L' vis x vis' x'.
Proof.
  intros HR HL [Hl Hx C M T F D V]. split; try done.
  - intros m Hm. by apply T, HR.
  - intros m Hm Hn. destruct (F m Hm Hn) as (r & Hr & Hp). exists r. by rewrite <- HR.
  - intros v. rewrite V, HL. done.
Qed.

(** One [visit] is a traversal from its argument, as long as fewer than [fuel]
    materializations are not visited. *)
Definition visit_ok (fuel : nat) (visit : Z -> list bool -> BitVector -> option (list bool * BitVector)) : Prop :=
  forall m vis x, 0 <= m < zlen mats -> length vis = length mats -> wf_vector n x -> (unvisited vis < fuel)%nat ->
    exists vis' x', visit m vis x = Some (vis', x') /\ visits (fun r => r = m) (fun _ => False) vis x vis' x'.

Lemma mat_inputs_spec fuel visit inputs vis x : visit_ok fuel visit -> Forall wf_mat_input inputs ->
  length vis = length mats -> wf_vector n x -> (unvisited vis < fuel)%nat ->
  exists vis' x', mat_inputs visit inputs vis x = Some (vis', x') /\
    visits (fun r => MatInner r ∈ inputs) (fun v => exists d, MatValue d ∈ inputs /\ def_vregs d v = true) vis x vis' x'.
Proof.
  intros Hvisit Hin. revert vis x. induction Hin as [|input inputs Hi Hin IH]; intros vis x Hl Hx Hf; cbn [mat_inputs].
  - exists vis, x. split; [done|]. eapply visits_ext; [..|by apply visits_refl].
    + intros m. split; [done|]. by intros ?%not_elem_of_nil.
    + intros v. split; [done|]. by intros (d & ?%not_elem_of_nil & _).
  - assert (Hstep : exists vis1 x1, match input with
        | MatConstant => Some (vis, x) | MatInner mat => visit mat vis x
        | MatValue d => live_in ← BitVector_Add x (vreg d); Some (vis, live_in) end = Some (vis1, x1) /\
      visits (fun r => MatInner r = input) (fun v => exists d, MatValue d = input /\ def_vregs d v = true) vis x vis1 x1).
    { destruct input as [|m|d]; cbn in Hi.
      - exists vis, x. split; [done|]. eapply visits_ext; [..|by apply visits_refl]; [done|]. intros v. split; [done|]. by intros (d & ? & _).
      - destruct (Hvisit m vis x Hi Hl Hx Hf) as (vis1 & x1 & -> & Hv). exists vis1, x1. split; [done|]. eapply visits_ext; [..|exact Hv].
        + intros r. split; [by intros ->|congruence].
        + intros v. split; [done|]. by intros (d & ? & _).
      - destruct Hi as [Hd Hp]. destruct (BitVector_Add_spec n x Hx (vreg d)) as (x1 & -> & Hx1 & Hc1); [by apply wf_def_second|].
        exists vis, x1. split; [done|]. split; try done. intros v. rewrite Hc1, Z.eqb_sym. split.
        + destruct (Z.eqb_spec (vreg d) v) as [E|]; [|by left]. intros _. right. left. exists d. split; [done|].
          unfold def_vregs. by rewrite E, Z.eqb_refl.
        + intros [->|[(d' & [= ->] & Hv)|(m & ? & ? & _)]]; [by destruct (vreg d =? v)| |done].
          unfold def_vregs in Hv. rewrite Hp, orb_false_r in Hv. by rewrite Hv. }
    destruct Hstep as (vis1 & x1 & -> & Hv1). cbn [mbind option_bind].
    destruct (IH vis1 x1) as (vis2 & x2 & He & Hv2); [apply Hv1|apply Hv1|pose proof (vs_count _ _ _ _ _ _ Hv1); lia|].
    exists vis2, x2. split; [exact He|]. eapply visits_ext; [..|by eapply visits_trans].
    + intros m. cbn. rewrite elem_of_cons. done.
    + intros v. cbn. split; [intros [(d & Hd & Hv)|(d & Hd & Hv)]; exists d; (split; [|done])|intros (d & Hd & Hv)].
      * rewrite Hd. left.
      * by right.
      * apply elem_of_cons in Hd as [Hd|Hd]; [left|right]; by exists d.
Qed.

Lemma mark_visited vis m : arr_get vis m = Some false ->
  exists vis', arr_set vis m true = Some vis' /\ length vis' = length vis /\ (unvisited vis' < unvisited vis)%nat.
Proof.
  intros Hv. eexists. split; [apply arr_set_Some; split; [by eapply arr_get_Some|reflexivity]|]. split; [by rewrite length_insert|].
  unfold arr_get in Hv. zif_in Hv; [|done]. clear E. revert vis Hv. unfold unvisited.
  induction (Z.to_nat m) as [|k IH]; intros [|b vis] Hv; try done.
  - injection Hv as ->. change (<[0%nat := true]> (false :: vis)) with (true :: vis).
    rewrite filter_cons_False, filter_cons_True by done. cbn [length]. lia.
  - change (<[S k := true]> (b :: vis)) with (b :: <[k := true]> vis). rewrite !filter_cons. specialize (IH vis Hv).
    destruct (decide (b = false)); cbn [length]; lia.
Qed.
Lemma DeepLiveness_ok fuel : wf_mats -> visit_ok fuel (DeepLiveness fuel mats).
Proof.
  intros Hw. induction fuel as [|fuel IH]; intros m vis x Hm Hl Hx Hf; [lia|]. cbn [DeepLiveness].
  destruct (arr_get_lt vis m) as [[] Hv]; [unfold zlen in *; lia| |]; rewrite Hv; cbn [mbind option_bind].
  - exists vis, x. split; [done|]. destruct (visits_refl vis x Hl Hx). split; try done. by intros r ->.
  - destruct (arr_get_lt mats m Hm) as [inputs Hin].
    destruct (mark_visited vis m Hv) as (vis1 & Hset & Hl1 & Hc1). rewrite Hset, Hin. cbn [mbind option_bind].
    assert (Hat : forall k, visited_at vis1 k <-> k = m \/ visited_at vis k).
    { intros k. unfold visited_at. rewrite (arr_get_set _ _ _ _ _ Hset). destruct (Z.eqb_spec m k) as [->|Hne]; [tauto|].
      split; [by right|]. by intros [?|?]; [congruence|]. }
    assert (Hwi : Forall wf_mat_input inputs) by (unfold arr_get in Hin; zif_in Hin; [|done]; by apply (Forall_lookup_1 _ _ _ _ Hw Hin)).
    destruct (mat_inputs_spec fuel (DeepLiveness fuel mats) inputs vis1 x IH Hwi ltac:(lia) Hx) as (vis2 & x2 & He & [L2 X2 C2 M2 T2 F2 D2 V2]); [lia|].
    exists vis2, x2. split; [exact He|]. assert (Hm2 : visited_at vis2 m) by (apply M2, Hat; by left). split; try done.
    + lia.
    + intros k Hk. apply M2, Hat. by right.
    + by intros k ->.
    + intros k Hk Hn. destruct (visited_dec vis1 k) as [H1|H1].
      * apply Hat in H1 as [->|?]; [|done]. exists m. split; [done|]. apply rtc_refl.
      * destruct (F2 k Hk H1) as (r & Hr & Hp). exists m. split; [done|]. eapply rtc_l; [|exact Hp]. by exists inputs.
    + intros k k' Hk Hn Hc. destruct (visited_dec vis1 k) as [H1|H1]; [|by eapply D2].
      apply Hat in H1 as [->|?]; [|done]. destruct Hc as (inputs' & Hin' & Hk'). apply T2. congruence.
    + intros v. rewrite V2. split.
      * intros [?|[(d & Hd & Hv')|(k & Hk & Hn & Hv')]]; [by left|right; right..].
        -- exists m. split; [done|]. split; [unfold visited_at; congruence|]. by exists inputs, d.
        -- exists k. split; [done|]. split; [|done]. intros Hk'. apply Hn, Hat. by right.
      * intros [?|[?|(k & Hk & Hn & Hv')]]; [by left|done|]. destruct (visited_dec vis1 k) as [H1|H1]; [|right; right; by exists k].
        apply Hat in H1 as [->|?]; [|done]. destruct Hv' as (inputs' & d & Hin' & Hd & Hv'). right. left. exists d. split; [congruence|done].
Qed.

(** ** Instructions *)
Definition instr_mats (i : SsaInstr) (m : Z) : Prop := exists r, EnvMaterialize r ∈ ssa_env i /\ rtc child r m.
Definition instr_defs (i : SsaInstr) (v : Z) : bool :=
  match ssa_definition i with Some d => HasSSATemp d && def_vregs d v | None => false end.
(** The registers that the inputs, the environment and the objects that the
    environment materializes, nested ones included, need. *)
Definition env_uses (i : SsaInstr) (v : Z) : Prop :=
  (exists d, EnvDef d ∈ ssa_env i /\ def_vregs d v = true) \/ exists m, instr_mats i m /\ mat_value m v.
Definition instr_uses (i : SsaInstr) (v : Z) : Prop :=
  (exists d, (false, d) ∈ ssa_inputs i /\ def_vregs d v = true) \/ env_uses i v.

Definition wf_env_value (e : EnvValue) : Prop :=
  match e with EnvMaterialize m => 0 <= m < zlen mats | EnvDef d => wf_def n d | _ => True end.
Definition wf_ssa_instr (i : SsaInstr) : Prop :=
  match ssa_definition i with Some d => HasSSATemp d = true -> wf_def n d | None => True end /\
  Forall (fun input : bool * SsaDef => fst input = false -> wf_def n (snd input)) (ssa_inputs i) /\ Forall wf_env_value (ssa_env i).

Lemma ssa_use_inputs_spec inputs x : Forall (fun input : bool * SsaDef => fst input = false -> wf_def n (snd input)) inputs -> wf_vector n x ->
  exists x', ssa_use_inputs inputs x = Some x' /\ wf_vector n x' /\
    forall v, contents x' v = true <-> contents x v = true \/ exists d, (false, d) ∈ inputs /\ def_vregs d v = true.
Proof.
  intros Hin. revert x. induction Hin as [|[c d] inputs Hd Hin IH]; intros x Hx; cbn [ssa_use_inputs].
  - exists x. split; [done|]. split; [done|]. intros v. split; [by left|]. intros [?|(d & ?%not_elem_of_nil & _)]; done.
  - assert (Hstep : exists x1, (if c then Some x else add_def x d) = Some x1 /\ wf_vector n x1 /\
      forall v, contents x1 v = (negb c && def_vregs d v) || contents x v).
    { destruct c; [by exists x|]. by apply add_def_spec; [|apply Hd]. }
    destruct Hstep as (x1 & -> & Hx1 & Hc1). cbn [mbind option_bind]. destruct (IH x1 Hx1) as (x2 & -> & Hx2 & Hc2).
    exists x2. split; [done|]. split; [done|]. intros v. rewrite Hc2, Hc1, orb_true_iff, andb_true_iff. split.
    + intros [[[Hc Hv]|?]|(d' & Hd' & Hv)]; [right; exists d|by left|right; exists d'; split; [by right|done]].
      apply negb_true_iff in Hc as ->. split; [left|done].
    + intros [?|(d' & Hd' & Hv)]; [by left; right|]. apply elem_of_cons in Hd' as [[= <- <-]|Hd']; [by left; left|]. right. by exists d'.
Qed.
Lemma ssa_use_env_spec fuel env vis x : wf_mats -> Forall wf_env_value env -> length vis = length mats -> wf_vector n x -> (unvisited vis < fuel)%nat ->
  exists vis' x', ssa_use_env fuel mats env vis x = Some (vis', x') /\
    visits (fun r => EnvMaterialize r ∈ env) (fun v => exists d, EnvDef d ∈ env /\ def_vregs d v = true) vis x vis' x'.
Proof.
  intros Hw He. revert vis x. induction He as [|e env Hi He IH]; intros vis x Hl Hx Hf; cbn [ssa_use_env].
  - exists vis, x. split; [done|]. eapply visits_ext; [..|by apply visits_refl].
    + intros m. split; [done|]. by intros ?%not_elem_of_nil.
    + intros v. split; [done|]. by intros (d & ?%not_elem_of_nil & _).
  - assert (Hstep : exists vis1 x1, match e with
        | EnvMaterialize mat => DeepLiveness fuel mats mat vis x | EnvPushArgument | EnvConstant => Some (vis, x)
        | EnvDef d => live_in ← add_def x d; Some (vis, live_in) end = Some (vis1, x1) /\
      visits (fun r => EnvMaterialize r = e) (fun v => exists d, EnvDef d = e /\ def_vregs d v = true) vis x vis1 x1).
    { destruct e as [m| | |d]; cbn in Hi.
      - destruct (DeepLiveness_ok fuel Hw m vis x Hi Hl Hx Hf) as (vis1 & x1 & -> & Hv). exists vis1, x1. split; [done|]. eapply visits_ext; [..|exact Hv].
        + intros r. split; [by intros ->|congruence].
        + intros v. split; [done|]. by intros (d & ? & _).
      - exists vis, x. split; [done|]. eapply visits_ext; [..|by apply visits_refl]; [done|]. intros v. split; [done|]. by intros (d & ? & _).
      - exists vis, x. split; [done|]. eapply visits_ext; [..|by apply visits_refl]; [done|]. intros v. split; [done|]. by intros (d & ? & _).
      - destruct (add_def_spec n x d Hx Hi) as (x1 & -> & Hx1 & Hc1).
        exists vis, x1. split; [done|]. split; try done. intros v. rewrite Hc1, orb_true_iff. split.
        + intros [Hv|?]; [|by left]. right. left. by exists d.
        + intros [?|[(d' & [= ->] & Hv)|(m & ? & ? & _)]]; [by right|by left|done]. }
    destruct Hstep as (vis1 & x1 & -> & Hv1). cbn [mbind option_bind].
    destruct (IH vis1 x1) as (vis2 & x2 & He2 & Hv2); [apply Hv1|apply Hv1|pose proof (vs_count _ _ _ _ _ _ Hv1); lia|].
    exists vis2, x2. split; [exact He2|]. eapply visits_ext; [..|by eapply visits_trans].
    + intros m. cbn. rewrite elem_of_cons. done.
    + intros v. cbn. split; [intros [(d & Hd & Hv)|(d & Hd & Hv)]; exists d; (split; [|done])|intros (d & Hd & Hv)].
      * rewrite Hd. left.
      * by right.
      * apply elem_of_cons in Hd as [Hd|Hd]; [left|right]; by exists d.
Qed.

(** If nothing that an instruction reaches is visited, all of it is. *)
Lemma visits_all i L vis x vis' x' : visits (fun r => EnvMaterialize r ∈ ssa_env i) L vis x vis' x' ->
  (forall m, instr_mats i m -> ~ visited_at vis m) -> forall m, (visited_at vis' m /\ ~ visited_at vis m) <-> instr_mats i m.
Proof.
  intros Hv Hno m. split; [intros [H1 H2]; by apply (vs_from _ _ _ _ _ _ Hv)|]. intros Hm. split; [|by apply Hno].
  destruct Hm as (r & Hr & Hp). revert m Hp. apply (rtc_ind_r (fun m => visited_at vis' m)).
  - by apply (vs_roots _ _ _ _ _ _ Hv).
  - intros y z Hy Hc IHy. eapply (vs_closed _ _ _ _ _ _ Hv); [exact IHy| |exact Hc]. apply Hno. by exists r.
Qed.

Definition wf_ssa_scan (sc : SsaScan) : Prop :=
  wf_vector n (ss_kill sc) /\ wf_vector n (ss_live_in sc) /\ length (ss_visited sc) = length mats.
Lemma unvisited_le vis : (unvisited vis <= length vis)%nat.
Proof. apply length_filter. Qed.

Lemma ssa_visit_spec i sc : wf_mats -> wf_ssa_instr i -> wf_ssa_scan sc -> (forall m, instr_mats i m -> ~ visited_at (ss_visited sc) m) ->
  exists sc', ssa_visit mats i sc = Some sc' /\ wf_ssa_scan sc' /\
    (forall v, contents (ss_kill sc') v = instr_defs i v || contents (ss_kill sc) v) /\
    (forall v, contents (ss_live_in sc') v = true <-> instr_uses i v \/ (instr_defs i v = false /\ contents (ss_live_in sc) v = true)) /\
    (forall m, visited_at (ss_visited sc') m -> visited_at (ss_visited sc) m \/ instr_mats i m).
Proof.
  intros Hw (Hd & Hin & He) (Hk & Hi & Hv) Hno. unfold ssa_visit, instr_defs.
  assert (Hdef : exists sc1, ssa_define (ssa_definition i) sc = Some sc1 /\ wf_ssa_scan sc1 /\ ss_visited sc1 = ss_visited sc /\
    (forall v, contents (ss_kill sc1) v = instr_defs i v || contents (ss_kill sc) v) /\
    (forall v, contents (ss_live_in sc1) v = negb (instr_defs i v) && contents (ss_live_in sc) v)).
  { unfold instr_defs. destruct (ssa_definition i) as [d|]; [|by exists sc]. cbn [ssa_define]. destruct (HasSSATemp d); [|by exists sc].
    destruct (add_def_spec n _ d Hk (Hd eq_refl)) as (k & -> & Hk' & Hck). destruct (remove_def_spec n _ d Hi (Hd eq_refl)) as (l & Hl & Hl' & Hcl).
    cbn [mbind option_bind]. rewrite Hl. cbn [mbind option_bind]. eexists. split; [reflexivity|]. done. }
  destruct Hdef as (sc1 & -> & (Hk1 & Hi1 & Hv1) & Hvis & Hck1 & Hci1). cbn [mbind option_bind].
  destruct (ssa_use_inputs_spec _ _ Hin Hi1) as (x2 & -> & Hx2 & Hc2). cbn [mbind option_bind].
  destruct (ssa_use_env_spec (S (length mats)) (ssa_env i) (ss_visited sc1) x2 Hw He Hv1 Hx2) as (vis3 & x3 & -> & Hvs).
  { pose proof (unvisited_le (ss_visited sc1)). lia. }
  cbn [mbind option_bind]. eexists. split; [reflexivity|]. rewrite Hvis in *. pose proof (visits_all i _ _ _ _ _ Hvs Hno) as Hall.
  split; [split; [done|split; apply Hvs]|]. split; [done|]. cbn. split.
  - intros v. rewrite (vs_live _ _ _ _ _ _ Hvs), Hc2, Hci1, andb_true_iff, negb_true_iff. unfold instr_uses, env_uses.
    assert (Hm : (exists m, visited_at vis3 m /\ ~ visited_at (ss_visited sc) m /\ mat_value m v) <-> exists m, instr_mats i m /\ mat_value m v).
    { split; intros (m & H1 & H2); [destruct H2 as [H2 H3]|]; exists m; [split; [by apply Hall|done]|]. apply Hall in H1 as [H1 H3]. done. }
    rewrite Hm. tauto.
  - intros m Hm. destruct (visited_dec (ss_visited sc) m) as [?|Hn]; [by left|right]. by apply Hall.
Qed.
End Materializations.

(** ** Blocks *)
(** [v] is used by one of the instructions [l] before they define it, or, when
    they do not define it, [P] holds. *)
Fixpoint exposed (mats : list (list MatInput)) (l : list SsaInstr) (v : Z) (P : Prop) : Prop :=
  match l with [] => P | i :: l => instr_uses mats i v \/ (instr_defs i v = false /\ exposed mats l v P) end.
Definition block_defs (l : list SsaInstr) (v : Z) : bool := existsb (fun i => instr_defs i v) l.
(** No materialization belongs to both instructions. *)
Definition separate (mats : list (list MatInput)) (i j : SsaInstr) : Prop := forall m, instr_mats mats i m -> ~ instr_mats mats j m.

Lemma exposed_or mats l v P Q : exposed mats l v (P \/ Q) <-> exposed mats l v P \/ (block_defs l v = false /\ Q).
Proof. unfold block_defs. induction l as [|i l IH]; cbn; [tauto|]. rewrite IH, orb_false_iff. tauto. Qed.
Lemma exposed_iff mats l v P Q : (P <-> Q) -> exposed mats l v P <-> exposed mats l v Q.
Proof. intros HPQ. induction l as [|i l IH]; cbn; [done|]. by rewrite IH. Qed.

Lemma ssa_scan_spec n mats l sc others : wf_mats n mats -> Forall (wf_ssa_instr n mats) l -> wf_ssa_scan n mats sc ->
  ForallOrdPairs (separate mats) (l ++ others) -> (forall m, visited_at (ss_visited sc) m -> exists j, j ∈ others /\ instr_mats mats j m) ->
  exists sc', ssa_scan mats l sc = Some sc' /\ wf_ssa_scan n mats sc' /\
    (forall v, contents (ss_kill sc') v = block_defs l v || contents (ss_kill sc) v) /\
    (forall v, contents (ss_live_in sc') v = true <-> exposed mats l v (contents (ss_live_in sc) v = true)) /\
    (forall m, visited_at (ss_visited sc') m -> exists j, j ∈ l ++ others /\ instr_mats mats j m).
Proof.
  intros Hw Hl Hsc Hsep Hvis. induction Hl as [|i l Hi Hl IH]; cbn [ssa_scan]; [by exists sc|].
  cbn [app] in Hsep. inversion_clear Hsep as [|? ? Hsi Hsep']. destruct (IH Hsep') as (sc1 & -> & Hsc1 & Hk1 & Hi1 & Hv1). cbn [mbind option_bind].
  destruct (ssa_visit_spec n mats i sc1 Hw Hi Hsc1) as (sc2 & -> & Hsc2 & Hk2 & Hi2 & Hv2).
  { intros m Hm Hvm. destruct (Hv1 m Hvm) as (j & Hj & Hjm). rewrite List.Forall_forall in Hsi. apply list_elem_of_In in Hj. by apply (Hsi j Hj m Hm). }
  exists sc2. split; [done|]. split; [done|]. split; [|split].
  - intros v. rewrite Hk2, Hk1. unfold block_defs. cbn. by rewrite orb_assoc.
  - intros v. rewrite Hi2, Hi1. done.
  - intros m Hm. destruct (Hv2 m Hm) as [H1|H1].
    + destruct (Hv1 m H1) as (j & Hj & Hjm). exists j. split; [by right|done].
    + exists i. split; [left|done].
Qed.

Section Sets.
Context (n : Z) (blocks : list FlowBlock) (O : list BitVector).
(** The sets of all blocks, as predicates. *)
Definition holds (s : LivenessAnalysis) (K I : Z -> Z -> Prop) : Prop :=
  live_out_ s = O /\ wf_sets n blocks (kill_ s) /\ wf_sets n blocks (live_in_ s) /\
  forall b v, 0 <= b < zlen blocks -> 0 <= v < n ->
    (set_contains (kill_ s) b v = true <-> K b v) /\ (set_contains (live_in_ s) b v = true <-> I b v).

Lemma holds_ext s K I K' I' :
  (forall b v, 0 <= b < zlen blocks -> 0 <= v < n -> (K b v <-> K' b v) /\ (I b v <-> I' b v)) -> holds s K I -> holds s K' I'.
Proof.
  intros He (Ho & Hk & Hi & Hc). split; [done|]. split; [done|]. split; [done|]. intros b v Hb Hv.
  destruct (Hc b v Hb Hv) as [-> ->]. by apply He.
Qed.
Lemma kill_defines_spec s K I b v : 0 <= b < zlen blocks -> 0 <= v < n -> holds s K I ->
  exists s', kill_defines s b v = Some s' /\
    holds s' (fun b' v' => K b' v' \/ (b' = b /\ v' = v)) (fun b' v' => ~ (b' = b /\ v' = v) /\ I b' v').
Proof.
  intros Hb Hv (Ho & Hk & Hi & Hc). unfold kill_defines. destruct (wf_sets_get _ _ _ b Hk Hb) as (k & -> & Hwk & Hck).
  destruct (wf_sets_get _ _ _ b Hi Hb) as (x & Hx & Hwx & Hcx). cbn [mbind option_bind].
  destruct (BitVector_Add_spec _ _ Hwk v Hv) as (k' & -> & Hwk' & Hck'). cbn [mbind option_bind].
  destruct (wf_sets_set _ _ _ b k' Hk Hb Hwk') as (ks & Hks & Hwks). rewrite Hks. cbn [mbind option_bind]. rewrite Hx. cbn [mbind option_bind].
  destruct (BitVector_Remove_spec _ _ Hwx v Hv) as (x' & -> & Hwx' & Hcx'). cbn [mbind option_bind].
  destruct (wf_sets_set _ _ _ b x' Hi Hb Hwx') as (ins & Hins & Hwins). rewrite Hins. cbn [mbind option_bind].
  eexists. split; [reflexivity|]. split; [done|]. split; [done|]. split; [done|]. cbn [kill_ live_in_]. intros b' v' Hb' Hv'.
  rewrite (set_contains_set _ _ _ _ _ _ Hks), (set_contains_set _ _ _ _ _ _ Hins), <- (proj1 (Hc b' v' Hb' Hv')), <- (proj2 (Hc b' v' Hb' Hv')).
  destruct (Z.eqb_spec b b') as [<-|Hne].
  - rewrite Hck', Hcx', <- Hck, <- Hcx. destruct (Z.eqb_spec v' v) as [->|]; split; split; naive_solver.
  - split; split; naive_solver.
Qed.
Lemma use_unless_killed_spec s K I b v : 0 <= b < zlen blocks -> 0 <= v < n -> holds s K I ->
  exists s', use_unless_killed s b v = Some s' /\ holds s' K (fun b' v' => I b' v' \/ (b' = b /\ v' = v /\ ~ K b v)).
Proof.
  intros Hb Hv (Ho & Hk & Hi & Hc). unfold use_unless_killed. destruct (wf_sets_get _ _ _ b Hk Hb) as (k & -> & Hwk & Hck). cbn [mbind option_bind].
  rewrite (BitVector_Contains_spec _ _ Hwk v Hv), <- Hck. cbn [mbind option_bind]. destruct (Hc b v Hb Hv) as [HK _].
  destruct (set_contains (kill_ s) b v) eqn:E; cbn [negb].
  - exists s. split; [done|]. eapply holds_ext; [|done]. intros b' v' _ _. split; [done|]. split; [by left|]. intros [?|(_ & _ & Hn)]; [done|].
    by destruct Hn; apply HK.
  - destruct (wf_sets_get _ _ _ b Hi Hb) as (x & -> & Hwx & Hcx). cbn [mbind option_bind].
    destruct (BitVector_Add_spec _ _ Hwx v Hv) as (x' & -> & Hwx' & Hcx'). cbn [mbind option_bind].
    destruct (wf_sets_set _ _ _ b x' Hi Hb Hwx') as (ins & Hins & Hwins). rewrite Hins. cbn [mbind option_bind].
    assert (Hn : ~ K b v) by (rewrite <- HK; done).
    eexists. split; [reflexivity|]. split; [done|]. split; [done|]. split; [done|]. cbn [kill_ live_in_]. intros b' v' Hb' Hv'.
    destruct (Hc b' v' Hb' Hv') as [HK' HI']. split; [done|]. rewrite (set_contains_set _ _ _ _ _ _ Hins), <- HI'.
    destruct (Z.eqb_spec b b') as [<-|Hne]; [|naive_solver]. rewrite Hcx', <- Hcx. destruct (Z.eqb_spec v' v) as [->|]; naive_solver.
Qed.

(** While the entry of block [i] is processed: [D] are the definitions and [U]
    the uses at the ends of predecessors so far, [K0] and [I0] the sets before. *)
Context (i : Z) (Hi : 0 <= i < zlen blocks) (K0 I0 : Z -> Z -> Prop).
Definition entry_state (s : LivenessAnalysis) (D : Z -> Prop) (U : Z -> Z -> Prop) : Prop :=
  holds s (fun b v => K0 b v \/ (b = i /\ D v)) (fun b v => ~ (b = i /\ D v) /\ (I0 b v \/ (U b v /\ ~ K0 b v))).

Lemma entry_state_ext s D U D' U' : (forall v, D v <-> D' v) -> (forall b v, U b v <-> U' b v) -> entry_state s D U -> entry_state s D' U'.
Proof. intros HD HU. apply holds_ext. intros b v _ _. by rewrite HD, HU. Qed.
Lemma entry_define s D U v : 0 <= v < n -> entry_state s D U ->
  exists s', kill_defines s i v = Some s' /\ entry_state s' (fun v' => D v' \/ v' = v) U.
Proof using Hi.
  intros Hv Hs. destruct (kill_defines_spec s _ _ i v Hi Hv Hs) as (s' & -> & Hs'). exists s'. split; [done|].
  eapply holds_ext; [|exact Hs']. intros b v' _ _. cbn. tauto.
Qed.
Lemma entry_use s D U b v : 0 <= b < zlen blocks -> 0 <= v < n -> entry_state s D U ->
  exists s', use_unless_killed s b v = Some s' /\ entry_state s' D (fun b' v' => U b' v' \/ (b' = b /\ v' = v)).
Proof using Hi.
  intros Hb Hv Hs. destruct (use_unless_killed_spec s _ _ b v Hb Hv Hs) as (s' & -> & Hs'). exists s'. split; [done|].
  eapply holds_ext; [|exact Hs']. intros b' v' _ _. cbn. split; [done|]. split; [|naive_solver].
  intros [(H1 & H2)|(-> & -> & H2)]; [split; [done|tauto]|]. split; [tauto|]. right. tauto.
Qed.

(** The registers that a phi needs at the end of its [k]th predecessor. *)
Definition input_use (pair : bool) (inputs : list (bool * Z)) (k : Z) (preds : list Z) (b v : Z) : Prop :=
  exists j use, inputs !! j = Some (false, use) /\ arr_get preds (k + Z.of_nat j) = Some b /\ def_vregs (MkSsaDef use pair) v = true.
Definition wf_phi_inputs (pair : bool) (inputs : list (bool * Z)) (k : Z) (preds : list Z) : Prop :=
  forall j use, inputs !! j = Some (false, use) -> wf_def n (MkSsaDef use pair) /\
    exists b, arr_get preds (k + Z.of_nat j) = Some b /\ 0 <= b < zlen blocks.

Lemma phi_uses_spec pair inputs k preds s D U : wf_phi_inputs pair inputs k preds -> entry_state s D U ->
  exists s', phi_uses pair inputs k preds s = Some s' /\ entry_state s' D (fun b v => U b v \/ input_use pair inputs k preds b v).
Proof using Hi.
  revert k s U. induction inputs as [|[c use] inputs IH]; intros k s U Hw Hs; cbn [phi_uses].
  - exists s. split; [done|]. eapply entry_state_ext; [..|exact Hs]; [done|]. intros b v. split; [by left|]. intros [?|(j & use & Hj & _)]; done.
  - assert (Hw' : wf_phi_inputs pair inputs (k + 1) preds).
    { intros j use' Hj. destruct (Hw (S j) use' Hj) as [Hd (b & Hb & Hbr)]. split; [done|]. exists b. split; [|done]. rewrite <- Hb. f_equal. lia. }
    assert (Hstep : exists s1, (if c then Some s else pred ← arr_get preds k; s ← use_unless_killed s pred use;
        if pair then use_unless_killed s pred (ToSecondPairVreg use) else Some s) = Some s1 /\
      entry_state s1 D (fun b v => U b v \/ (c = false /\ arr_get preds k = Some b /\ def_vregs (MkSsaDef use pair) v = true))).
    { destruct c; [exists s; split; [done|]; eapply entry_state_ext; [..|exact Hs]; [done|]; intros b v; split; [by left|]; by intros [?|[? _]]|].
      destruct (Hw 0%nat use eq_refl) as [Hd (b & Hb & Hbr)]. rewrite Z.add_0_r in Hb. rewrite Hb. cbn [mbind option_bind].
      destruct (wf_def_second n _ Hd) as [Hv1 Hv2]. cbn [vreg] in *.
      destruct (entry_use s D U b use Hbr Hv1 Hs) as (s1 & -> & Hs1). cbn [mbind option_bind]. destruct pair.
      - destruct (entry_use s1 D _ b _ Hbr Hv2 Hs1) as (s2 & -> & Hs2). exists s2. split; [done|]. eapply entry_state_ext; [..|exact Hs2]; [done|].
        intros b' v. cbn. unfold def_vregs. cbn [vreg is_pair andb]. rewrite orb_true_iff, !Z.eqb_eq. naive_solver.
      - exists s1. split; [done|]. eapply entry_state_ext; [..|exact Hs1]; [done|].
        intros b' v. cbn. unfold def_vregs. cbn [vreg is_pair andb]. rewrite orb_false_r, Z.eqb_eq. naive_solver. }
    destruct Hstep as (s1 & -> & Hs1). cbn [mbind option_bind]. destruct (IH (k + 1) s1 _ Hw' Hs1) as (s2 & -> & Hs2).
    exists s2. split; [done|]. eapply entry_state_ext; [..|exact Hs2]; [done|]. intros b v. cbn. split.
    + intros [[?|(-> & Hb & Hv)]|(j & use' & Hj & Hb & Hv)]; [by left|right..].
      * exists 0%nat, use. rewrite Z.add_0_r. done.
      * exists (S j), use'. split; [done|]. split; [|done]. rewrite <- Hb. f_equal. lia.
    + intros [?|(j & use' & Hj & Hb & Hv)]; [by left; left|]. destruct j as [|j].
      * injection Hj as -> ->. rewrite Z.add_0_r in Hb. left. right. done.
      * right. exists j, use'. split; [done|]. split; [|done]. rewrite <- Hb. f_equal. lia.
Qed.

Definition phis_define (phis : list SsaPhi) (v : Z) : Prop := exists phi, phi ∈ phis /\ def_vregs (phi_definition phi) v = true.
Definition phis_use (phis : list SsaPhi) (preds : list Z) (b v : Z) : Prop :=
  exists phi, phi ∈ phis /\ input_use (is_pair (phi_definition phi)) (phi_inputs phi) 0 preds b v.
Definition wf_phi (preds : list Z) (phi : SsaPhi) : Prop :=
  wf_def n (phi_definition phi) /\ wf_phi_inputs (is_pair (phi_definition phi)) (phi_inputs phi) 0 preds.

Lemma phis_of_join_spec phis preds s D U : Forall (wf_phi preds) phis -> entry_state s D U ->
  exists s', phis_of_join i phis preds s = Some s' /\ entry_state s' (fun v => D v \/ phis_define phis v) (fun b v => U b v \/ phis_use phis preds b v).
Proof using Hi.
  intros Hw. revert s D U. induction Hw as [|phi phis [Hd Hin] Hw IH]; intros s D U Hs; cbn [phis_of_join].
  - exists s. split; [done|]. eapply entry_state_ext; [..|exact Hs].
    + intros v. split; [by left|]. intros [?|(phi & ?%not_elem_of_nil & _)]; done.
    + intros b v. split; [by left|]. intros [?|(phi & ?%not_elem_of_nil & _)]; done.
  - destruct (wf_def_second n _ Hd) as [Hv1 Hv2]. destruct (entry_define s D U _ Hv1 Hs) as (s1 & -> & Hs1). cbn [mbind option_bind].
    assert (Hstep : exists s2, (if is_pair (phi_definition phi) then kill_defines s1 i (ToSecondPairVreg (vreg (phi_definition phi))) else Some s1) = Some s2 /\
      entry_state s2 (fun v => D v \/ def_vregs (phi_definition phi) v = true) U).
    { unfold def_vregs. destruct (is_pair (phi_definition phi)).
      - destruct (entry_define s1 _ U _ Hv2 Hs1) as (s2 & -> & Hs2). exists s2. split; [done|]. eapply entry_state_ext; [..|exact Hs2]; [|done].
        intros v. cbn. rewrite orb_true_iff, !Z.eqb_eq. naive_solver.
      - exists s1. split; [done|]. eapply entry_state_ext; [..|exact Hs1]; [|done]. intros v. cbn. rewrite orb_false_r, Z.eqb_eq. naive_solver. }
    destruct Hstep as (s2 & -> & Hs2). cbn [mbind option_bind]. destruct (phi_uses_spec _ _ _ _ s2 _ U Hin Hs2) as (s3 & -> & Hs3). cbn [mbind option_bind].
    destruct (IH s3 _ _ Hs3) as (s4 & -> & Hs4). exists s4. split; [done|]. eapply entry_state_ext; [..|exact Hs4].
    + intros v. cbn. unfold phis_define. setoid_rewrite elem_of_cons. naive_solver.
    + intros b v. cbn. unfold phis_use. setoid_rewrite elem_of_cons. naive_solver.
Qed.
Lemma initial_definitions_spec defs s D U : Forall (fun v => 0 <= v < n) defs -> entry_state s D U ->
  exists s', initial_definitions i defs s = Some s' /\ entry_state s' (fun v => D v \/ v ∈ defs) U.
Proof using Hi.
  intros Hw. revert s D. induction Hw as [|v defs Hv Hw IH]; intros s D Hs; cbn [initial_definitions].
  - exists s. split; [done|]. eapply entry_state_ext; [..|exact Hs]; [|done]. intros v. split; [by left|]. intros [?|?%not_elem_of_nil]; done.
  - destruct (entry_define s D U v Hv Hs) as (s1 & -> & Hs1). cbn [mbind option_bind]. destruct (IH s1 _ Hs1) as (s2 & -> & Hs2).
    exists s2. split; [done|]. eapply entry_state_ext; [..|exact Hs2]; [|done]. intros v'. cbn. rewrite elem_of_cons. tauto.
Qed.
End Sets.

Definition entry_defs (block : SsaBlock) (v : Z) : Prop :=
  match ssa_entry block with SsaJoin phis _ => phis_define phis v | SsaInitialDefs defs => v ∈ defs | SsaOther => False end.
(** What the phis of a block use at the end of its predecessor [b]. *)
Definition entry_uses (block : SsaBlock) (b v : Z) : Prop :=
  match ssa_entry block with SsaJoin phis preds => phis_use phis preds b v | _ => False end.

Section Graph.
Context (g : SsaGraph).
Local Abbreviation n := (max_virtual_register_number g).
Local Abbreviation mats := (materializations g).
Local Abbreviation flows := (ssa_flow <$> ssa_postorder g).

Definition wf_ssa_entry (block : SsaBlock) : Prop :=
  match ssa_entry block with
  | SsaJoin phis preds => Forall (wf_phi n flows preds) phis
  | SsaInitialDefs defs => Forall (fun v => 0 <= v < n) defs
  | SsaOther => True
  end.
Definition wf_ssa_block (block : SsaBlock) : Prop := Forall (wf_ssa_instr n mats) (ssa_instructions block) /\ wf_ssa_entry block.
(** The instructions, block by block in reverse postorder. *)
Definition all_instructions (blocks : list SsaBlock) : list SsaInstr := mjoin (reverse (ssa_instructions <$> blocks)).
(** Every object is materialized by the environment of one instruction, and
    none has been visited yet. *)
Definition wf_ssa_graph : Prop :=
  0 <= n /\ wf_mats n mats /\ length (visited_ g) = length mats /\ Forall (fun b => b = false) (visited_ g) /\
  wf_blocks flows /\ Forall wf_ssa_block (ssa_postorder g) /\ ForallOrdPairs (separate mats) (all_instructions (ssa_postorder g)).

(** Uses by phis of the blocks before [i]; the sets when those are done. *)
Definition uses_upto (i b v : Z) : Prop := exists j block, j < i /\ arr_get (ssa_postorder g) j = Some block /\ entry_uses block b v.
Definition kill_upto (i b v : Z) : Prop :=
  b < i /\ exists block, arr_get (ssa_postorder g) b = Some block /\ (entry_defs block v \/ block_defs (ssa_instructions block) v = true).
Definition live_upto (i b v : Z) : Prop :=
  (b < i /\ exists block, arr_get (ssa_postorder g) b = Some block /\ ~ entry_defs block v /\
     exposed mats (ssa_instructions block) v (uses_upto i b v)) \/ (i <= b /\ uses_upto i b v).

Lemma uses_upto_S i block b v : arr_get (ssa_postorder g) i = Some block -> uses_upto (i + 1) b v <-> uses_upto i b v \/ entry_uses block b v.
Proof.
  intros Hb. split.
  - intros (j & bl & Hj & Hbl & Hu). destruct (Z.eq_dec j i) as [->|]; [right; congruence|left]. exists j, bl. split; [lia|done].
  - intros [(j & bl & Hj & Hbl & Hu)|Hu]; [exists j, bl; split; [lia|done]|]. exists i, block. split; [lia|done].
Qed.

(** The sets behind block [i], from those after its instructions. *)
Definition kill_scanned (i : Z) (block : SsaBlock) (b v : Z) : Prop :=
  kill_upto i b v \/ (b = i /\ block_defs (ssa_instructions block) v = true).
Definition live_scanned (i : Z) (block : SsaBlock) (b v : Z) : Prop :=
  (b <> i /\ live_upto i b v) \/ (b = i /\ exposed mats (ssa_instructions block) v (uses_upto i i v)).

Lemma kill_upto_S i block b v : arr_get (ssa_postorder g) i = Some block ->
  kill_scanned i block b v \/ (b = i /\ entry_defs block v) <-> kill_upto (i + 1) b v.
Proof.
  intros Hb. unfold kill_scanned, kill_upto. destruct (Z.lt_total b i) as [Hlt|[->|Hgt]].
  - split; [|intros (_ & bl & Hbl & H); left; left; split; [done|by exists bl]]. intros [[[_ (bl & Hbl & H)]|[? _]]|[? _]]; [|lia|lia].
    split; [lia|]. by exists bl.
  - split; [|intros (_ & bl & Hbl & [H|H]); assert (bl = block) as -> by congruence; tauto].
    intros [[[? _]|[_ H]]|[_ H]]; [lia|..]; (split; [lia|]); exists block; tauto.
  - split; [|intros [? _]; lia]. intros [[[? _]|[? _]]|[? _]]; lia.
Qed.
Lemma exposed_upto_S i block b bl v : arr_get (ssa_postorder g) i = Some block ->
  exposed mats (ssa_instructions bl) v (uses_upto (i + 1) b v) <->
  exposed mats (ssa_instructions bl) v (uses_upto i b v) \/ (block_defs (ssa_instructions bl) v = false /\ entry_uses block b v).
Proof. intros Hb. rewrite <- exposed_or. apply exposed_iff. by apply uses_upto_S. Qed.
Lemma live_upto_S i block b v : arr_get (ssa_postorder g) i = Some block -> 0 <= b < zlen (ssa_postorder g) ->
  ~ (b = i /\ entry_defs block v) /\ (live_scanned i block b v \/ (entry_uses block b v /\ ~ kill_scanned i block b v)) <-> live_upto (i + 1) b v.
Proof.
  intros Hb Hbr. unfold live_scanned, kill_scanned, live_upto. destruct (Z.lt_total b i) as [Hlt|[->|Hgt]].
  - destruct (arr_get_lt (ssa_postorder g) b Hbr) as [bl Hbl].
    assert (Hk : kill_upto i b v <-> entry_defs bl v \/ block_defs (ssa_instructions bl) v = true).
    { unfold kill_upto. split; [|intros H; split; [lia|by exists bl]]. intros (_ & bl' & Hbl' & H). by assert (bl' = bl) as -> by congruence. }
    rewrite Hk. split.
    + intros (_ & [[[_ [(_ & bl' & Hbl' & Hd & He)|[? _]]]|[? _]]|[Hu Hn]]); [|lia|lia|]; left; (split; [lia|]).
      * exists bl'. rewrite (exposed_upto_S i block) by done. tauto.
      * exists bl. rewrite (exposed_upto_S i block) by done. split; [done|]. split; [tauto|]. right. split; [apply not_true_is_false; tauto|done].
    + intros [(_ & bl' & Hbl' & Hd & He)|[? _]]; [|lia]. assert (bl' = bl) as -> by congruence.
      apply (exposed_upto_S i block) in He as [He|[Hf Hu]]; [..|done]; (split; [lia|]).
      * left. left. split; [lia|]. left. split; [done|]. by exists bl.
      * right. split; [done|]. intros [[H|H]|[? _]]; [done|congruence|lia].
  - split.
    + intros (Hd & [[[? _]|[_ He]]|[Hu Hn]]); [done|..]; left; (split; [lia|]); exists block; rewrite (exposed_upto_S i block) by done;
        (split; [done|]); (split; [tauto|]); [by left|right]. split; [|done]. apply not_true_is_false. tauto.
    + intros [(_ & bl & Hbl & Hd & He)|[? _]]; [|lia]. assert (bl = block) as -> by congruence. split; [tauto|].
      apply (exposed_upto_S i block) in He as [He|[Hf Hu]]; [..|done]; [by left; right|]. right. split; [done|]. intros [[? _]|[_ H]]; [lia|congruence].
  - rewrite (uses_upto_S i block b v Hb). split.
    + intros (_ & [[[_ [[? _]|[_ Hu]]]|[? _]]|[Hu Hn]]); [lia| |lia|]; right; (split; [lia|tauto]).
    + intros [[? _]|[_ [Hu|Hu]]]; [lia|..]; (split; [lia|]); [left; left; split; [lia|]; right; split; [lia|done]|right].
      split; [done|]. intros [[? _]|[? _]]; lia.
Qed.

Lemma ssa_entry_spec O i block K I s : 0 <= i < zlen flows -> postorder_number (ssa_flow block) = i -> wf_ssa_entry block ->
  entry_state n flows O i K I s (fun _ => False) (fun _ _ => False) ->
  exists s', match ssa_entry block with
    | SsaJoin phis predecessors => phis_of_join i phis predecessors s
    | SsaInitialDefs defs => initial_definitions (postorder_number (ssa_flow block)) defs s
    | SsaOther => Some s end = Some s' /\ entry_state n flows O i K I s' (entry_defs block) (entry_uses block).
Proof.
  intros Hi Hnum Hw Hs. unfold entry_defs, entry_uses, wf_ssa_entry in *. rewrite Hnum. destruct (ssa_entry block) as [phis preds|defs|].
  - destruct (phis_of_join_spec n flows O i Hi _ _ phis preds _ _ _ Hw Hs) as (s2 & -> & Hs2). exists s2. split; [done|].
    eapply entry_state_ext; [..|exact Hs2]; intros; cbn; tauto.
  - destruct (initial_definitions_spec n flows O i Hi _ _ defs _ _ _ Hw Hs) as (s2 & -> & Hs2). exists s2. split; [done|].
    eapply entry_state_ext; [..|exact Hs2]; intros; cbn; tauto.
  - by eexists.
Qed.

Lemma ssa_block_spec O i block vis s others : wf_ssa_graph -> arr_get (ssa_postorder g) i = Some block ->
  length vis = length mats -> ForallOrdPairs (separate mats) (ssa_instructions block ++ others) ->
  (forall m, visited_at vis m -> exists j, j ∈ others /\ instr_mats mats j m) -> holds n flows O s (kill_upto i) (live_upto i) ->
  exists vis' s', ssa_block mats i block vis s = Some (vis', s') /\ length vis' = length mats /\
    (forall m, visited_at vis' m -> exists j, j ∈ ssa_instructions block ++ others /\ instr_mats mats j m) /\
    holds n flows O s' (kill_upto (i + 1)) (live_upto (i + 1)).
Proof.
  intros (Hn & Hm & _ & _ & Hbl & Hwb & _) Hb Hlv Hsep Hvis (Ho & Hk & Hi & Hc). pose proof (arr_get_Some _ _ _ Hb) as Hir.
  assert (Hzl : zlen flows = zlen (ssa_postorder g)) by (unfold zlen; by rewrite length_fmap).
  assert (Hwf : wf_ssa_block block) by (unfold arr_get in Hb; zif_in Hb; [|done]; by apply (Forall_lookup_1 _ _ _ _ Hwb Hb)). destruct Hwf as [Hwi Hwe].
  assert (Hnum : postorder_number (ssa_flow block) = i).
  { apply (Hbl i). unfold arr_get in *. destruct (0 <=? i); [|done]. by rewrite list_lookup_fmap, Hb. }
  unfold ssa_block. rewrite <- Hzl in Hir. destruct (wf_sets_get _ _ _ i Hk Hir) as (k & -> & Hwk & Hck).
  destruct (wf_sets_get _ _ _ i Hi Hir) as (x & -> & Hwx & Hcx). cbn [mbind option_bind].
  destruct (ssa_scan_spec n mats (ssa_instructions block) (MkSsaScan k x vis) others Hm Hwi) as (sc & -> & (Hk1 & Hi1 & Hv1) & Hck1 & Hci1 & Hvis1); try done.
  cbn [mbind option_bind]. destruct (wf_sets_set _ _ _ i (ss_kill sc) Hk Hir Hk1) as (ks & Hks & Hwks). rewrite Hks. cbn [mbind option_bind].
  destruct (wf_sets_set _ _ _ i (ss_live_in sc) Hi Hir Hi1) as (ins & Hins & Hwins). rewrite Hins. cbn [mbind option_bind].
  assert (Hs1 : entry_state n flows O i (kill_scanned i block) (live_scanned i block) (MkLiveness (live_out_ s) ks ins) (fun _ => False) (fun _ _ => False)).
  { split; [done|]. split; [done|]. split; [done|]. cbn [kill_ live_in_ live_out_]. intros b v Hbr Hv. destruct (Hc b v Hbr Hv) as [HK HI].
    rewrite (set_contains_set _ _ _ _ _ _ Hks), (set_contains_set _ _ _ _ _ _ Hins). unfold kill_scanned, live_scanned.
    destruct (Z.eqb_spec i b) as [<-|Hne].
    - cbn in Hck1, Hci1. rewrite Hck1, Hci1, orb_true_iff. rewrite <- Hck, HK. split; [tauto|].
      rewrite (exposed_iff mats _ v (contents x v = true) (uses_upto i i v)); [tauto|]. rewrite <- Hcx, HI. unfold live_upto. split; [|right; split; [lia|done]].
      intros [[? _]|[_ ?]]; [lia|done].
    - assert (b <> i) by congruence. rewrite HK, HI. split; [|tauto]. split; [by left; left|]. intros [[?|[? _]]|[_ ?]]; [done|congruence|done]. }
  destruct (ssa_entry_spec O i block _ _ _ Hir Hnum Hwe Hs1) as (s2 & -> & Hs2). cbn [mbind option_bind]. eexists _, s2. split; [reflexivity|]. split; [done|]. split; [done|].
  eapply holds_ext; [|exact Hs2]. intros b v Hbr Hv. cbn. rewrite Hzl in Hbr. split; [by apply kill_upto_S|by apply live_upto_S].
Qed.

Lemma all_instructions_take i block : arr_get (ssa_postorder g) i = Some block ->
  all_instructions (take (Z.to_nat (i + 1)) (ssa_postorder g)) = ssa_instructions block ++ all_instructions (take (Z.to_nat i) (ssa_postorder g)).
Proof.
  intros Hb. pose proof (arr_get_Some _ _ _ Hb). unfold arr_get in Hb. zif_in Hb; [|done]. unfold all_instructions.
  replace (Z.to_nat (i + 1)) with (S (Z.to_nat i)) by lia. rewrite (take_S_r _ _ _ Hb), fmap_app, reverse_app. done.
Qed.
Lemma separate_suffix l1 l2 : ForallOrdPairs (separate mats) (l1 ++ l2) -> ForallOrdPairs (separate mats) l2.
Proof. induction l1 as [|x l1 IH]; [done|]. cbn. intros H. inversion_clear H. by apply IH. Qed.
Lemma separate_take k : ForallOrdPairs (separate mats) (all_instructions (ssa_postorder g)) ->
  ForallOrdPairs (separate mats) (all_instructions (take k (ssa_postorder g))).
Proof.
  intros H. apply separate_suffix with (all_instructions (drop k (ssa_postorder g))). unfold all_instructions in *.
  rewrite <- (take_drop k (ssa_postorder g)), fmap_app, reverse_app, join_app in H. done.
Qed.

Lemma SSALiveness_loop_spec O bs i vis s : wf_ssa_graph -> 0 <= i -> drop (Z.to_nat i) (ssa_postorder g) = bs -> length vis = length mats ->
  (forall m, visited_at vis m -> exists j, j ∈ all_instructions (take (Z.to_nat i) (ssa_postorder g)) /\ instr_mats mats j m) ->
  holds n flows O s (kill_upto i) (live_upto i) ->
  exists vis' s', SSALiveness_loop mats i bs vis s = Some (vis', s') /\
    holds n flows O s' (kill_upto (i + zlen bs)) (live_upto (i + zlen bs)).
Proof.
  intros Hg. revert i vis s. induction bs as [|block bs IH]; intros i vis s Hi Hd Hl Hv Hs; cbn [SSALiveness_loop].
  - exists vis, s. split; [done|]. by rewrite Z.add_0_r.
  - destruct (arr_get_drop _ _ _ _ Hi Hd) as [Hb Hd'].
    destruct (ssa_block_spec O i block vis s (all_instructions (take (Z.to_nat i) (ssa_postorder g))) Hg Hb Hl) as (vis1 & s1 & -> & Hl1 & Hv1 & Hs1); [|done|done|].
    { rewrite <- all_instructions_take by done. apply separate_take, Hg. }
    cbn [mbind option_bind]. rewrite <- all_instructions_take in Hv1 by done.
    destruct (IH (i + 1) vis1 s1 ltac:(lia) Hd' Hl1 Hv1 Hs1) as (vis2 & s2 & -> & Hs2). exists vis2, s2. split; [done|].
    replace (i + zlen (block :: bs)) with (i + 1 + zlen bs) by (unfold zlen; cbn [length]; lia). done.
Qed.

(** The initial sets: what a block uses before it defines it, at the end of the
    block by the phis of its successors too, and what it defines. *)
Definition ssa_use (b v : Z) : Prop :=
  exists block, arr_get (ssa_postorder g) b = Some block /\ ~ entry_defs block v /\
    exposed mats (ssa_instructions block) v (exists j bl, arr_get (ssa_postorder g) j = Some bl /\ entry_uses bl b v).
Definition ssa_def (b v : Z) : Prop :=
  exists block, arr_get (ssa_postorder g) b = Some block /\ (entry_defs block v \/ block_defs (ssa_instructions block) v = true).

Lemma SSALiveness_initial : wf_ssa_graph ->
  exists vis s, SSALiveness_ComputeInitialSets g (new_sets (length flows) n) = Some (MkSsaGraph n mats vis (ssa_postorder g), s) /\
    holds n flows (live_out_ (new_sets (length flows) n)) s ssa_def ssa_use.
Proof.
  intros Hg. pose proof Hg as (Hn & Hm & Hlv & Hfalse & _). unfold SSALiveness_ComputeInitialSets.
  destruct (new_sets_spec (length flows) n flows Hn eq_refl) as [Hw He].
  destruct (SSALiveness_loop_spec (live_out_ (new_sets (length flows) n)) (ssa_postorder g) 0 (visited_ g) (new_sets (length flows) n) Hg) as (vis & s & -> & Hs); try done.
  - intros m Hv. unfold visited_at, arr_get in Hv. zif_in Hv; [|done]. by apply (Forall_lookup_1 _ _ _ _ Hfalse) in Hv.
  - split; [done|]. split; [done|]. split; [done|]. intros b v Hb Hv. change (kill_ (new_sets (length flows) n)) with (live_out_ (new_sets (length flows) n)).
    change (live_in_ (new_sets (length flows) n)) with (live_out_ (new_sets (length flows) n)). rewrite !He. unfold kill_upto, live_upto, uses_upto. split.
    + split; [done|]. intros [? _]. lia.
    + split; [done|]. intros [[? _]|[_ (j & bl & Hj & Hbl & _)]]; [lia|]. apply arr_get_Some in Hbl. lia.
  - exists vis, s. split; [done|]. eapply holds_ext; [|exact Hs]. intros b v Hb Hv. cbn.
    assert (Hzl : zlen flows = zlen (ssa_postorder g)) by (unfold zlen; by rewrite length_fmap). rewrite Hzl in Hb.
    unfold kill_upto, live_upto, ssa_def, ssa_use. rewrite Z.add_0_l.
    assert (Hu : uses_upto (zlen (ssa_postorder g)) b v <-> exists j bl, arr_get (ssa_postorder g) j = Some bl /\ entry_uses bl b v).
    { unfold uses_upto. split; [intros (j & bl & _ & H); by exists j, bl|]. intros (j & bl & Hbl & H). exists j, bl. split; [|done]. apply arr_get_Some in Hbl. lia. }
    split; [split; [by intros [_ ?]|split; [lia|done]]|]. split.
    + intros [(_ & bl & Hbl & Hd & Hx)|[? _]]; [|lia]. exists bl. split; [done|]. split; [done|]. by rewrite <- (exposed_iff _ _ _ _ _ Hu).
    + intros (bl & Hbl & Hd & Hx). left. split; [lia|]. exists bl. split; [done|]. split; [done|]. by rewrite (exposed_iff _ _ _ _ _ Hu).
Qed.
End Graph.

#[export] Instance SSALiveness_laws : LivenessClientLaws SsaGraph.
Proof.
  refine {| client_use := ssa_use; client_def := ssa_def; client_wf := wf_ssa_graph |}.
  - by intros g (Hn & _ & _ & _ & Hb & _).
  - intros g Hg. destruct (SSALiveness_initial g Hg) as (vis & s & He & Ho & Hk & Hi & Hc). eexists _, s.
    split; [exact He|]. split; [done|]. split; [done|]. split; [done|]. split; [done|]. intros b v Hb Hv. destruct (Hc b v Hb Hv). done.
Defined.

(** ** Uses *)
(** The value of [v] before the instructions [l], the last ones of block [b],
    is used on some path before [v] is defined again: by an instruction, by a phi
    on the edge out of [b], or in a block behind it. *)
Inductive used_later (g : SsaGraph) (v : Z) : Z -> list SsaInstr -> Prop :=
  | used_here b i l : instr_uses (materializations g) i v -> used_later g v b (i :: l)
  | used_skip b i l : instr_defs i v = false -> used_later g v b l -> used_later g v b (i :: l)
  | used_phi b j block : arr_get (ssa_postorder g) j = Some block -> entry_uses block b v -> used_later g v b []
  | used_next b block b' block' :
      arr_get (ssa_postorder g) b = Some block -> b' ∈ successors (ssa_flow block) -> arr_get (ssa_postorder g) b' = Some block' ->
      ~ entry_defs block' v -> used_later g v b' (ssa_instructions block') -> used_later g v b [].

Section Uses.
Context (g : SsaGraph) (Hg : wf_ssa_graph g) (v : Z).
Local Abbreviation flows := (ssa_flow <$> ssa_postorder g).
Local Abbreviation live_in_block := (live_at_start flows (ssa_use g) (ssa_def g) v).

Lemma flow_get b : arr_get flows b = ssa_flow <$> arr_get (ssa_postorder g) b.
Proof using. unfold arr_get. destruct (0 <=? b); [|done]. apply list_lookup_fmap. Qed.
Lemma successor_block b block b' : arr_get (ssa_postorder g) b = Some block -> b' ∈ successors (ssa_flow block) ->
  exists block', arr_get (ssa_postorder g) b' = Some block'.
Proof using Hg.
  intros Hb Hb'. destruct Hg as (_ & _ & _ & _ & Hbl & _). apply arr_get_lt.
  destruct (Hbl b (ssa_flow block)) as [_ Hs]; [by rewrite flow_get, Hb|]. specialize (Hs b' Hb'). unfold zlen in *. by rewrite length_fmap in Hs.
Qed.
Lemma exposed_used b l P : (P -> used_later g v b []) -> exposed (materializations g) l v P -> used_later g v b l.
Proof using.
  intros HP. induction l as [|i l IH]; cbn; [done|]. intros [Hu|[Hd Hx]]; [by apply used_here|]. apply used_skip; [done|by apply IH].
Qed.
Lemma untouched_used b l : block_defs l v = false -> used_later g v b [] -> used_later g v b l.
Proof using.
  unfold block_defs. induction l as [|i l IH]; [done|]. cbn. intros [Hd Hl]%orb_false_iff Hu. apply used_skip; [done|by apply IH].
Qed.
Lemma ssa_live_used b block : live_in_block b -> arr_get (ssa_postorder g) b = Some block -> ~ entry_defs block v /\ used_later g v b (ssa_instructions block).
Proof using Hg.
  intros Hl. revert block. induction Hl as [b (bl & Hb & Hd & Hx)|b fb b' Hfb Hb' Hd Hl IH]; intros block Hbl.
  - assert (bl = block) as -> by congruence. split; [done|]. eapply exposed_used; [|exact Hx]. intros (j & blj & Hj & Hu). by eapply used_phi.
  - rewrite flow_get, Hbl in Hfb. cbn in Hfb. injection Hfb as <-. destruct (successor_block _ _ _ Hbl Hb') as [block' Hbl'].
    destruct (IH _ Hbl') as [Hed Hu]. assert (Hnd : ~ (entry_defs block v \/ block_defs (ssa_instructions block) v = true)) by (intros H; apply Hd; by exists block).
    split; [tauto|]. apply untouched_used; [apply not_true_is_false; tauto|]. by eapply used_next.
Qed.
Lemma used_live b l block pre : used_later g v b l -> arr_get (ssa_postorder g) b = Some block -> ssa_instructions block = pre ++ l ->
  exposed (materializations g) l v (exists j bl, arr_get (ssa_postorder g) j = Some bl /\ entry_uses bl b v) \/
  (block_defs l v = false /\ live_at_end flows (ssa_use g) (ssa_def g) v b).
Proof using Hg.
  intros Hu. revert block pre. induction Hu as [b i l Hu|b i l Hd Hu IH|b j bl Hj Hu|b bl b' block' Hb Hb' Hbl' Hed Hu IH]; intros block pre Hbl Hl.
  - left. by left.
  - destruct (IH block (pre ++ [i]) Hbl) as [Hx|[Hs Ho]]; [by rewrite <- app_assoc|left; by right|].
    right. unfold block_defs in *. cbn. by rewrite Hd, Hs.
  - left. by exists j, bl.
  - right. split; [done|]. exists (ssa_flow bl), b'. rewrite flow_get, Hb. split; [done|]. split; [done|].
    destruct (IH block' [] Hbl' eq_refl) as [Hx|[Hs (fb & b2 & Hfb & Hb2 & Hl2)]]; [left; by exists block'|].
    eapply live_through; [exact Hfb|exact Hb2| |exact Hl2]. intros (bl2 & Hbl2 & [H|H]); assert (bl2 = block') as -> by congruence; congruence.
Qed.
Lemma live_iff_used b block : arr_get (ssa_postorder g) b = Some block ->
  live_in_block b <-> ~ entry_defs block v /\ used_later g v b (ssa_instructions block).
Proof using Hg.
  intros Hb. split; [intros Hl; by apply ssa_live_used|]. intros [Hed Hu].
  destruct (used_live b _ block [] Hu Hb eq_refl) as [Hx|[Hs (fb & b2 & Hfb & Hb2 & Hl2)]]; [left; by exists block|].
  eapply live_through; [exact Hfb|exact Hb2| |exact Hl2]. intros (bl2 & Hbl2 & [H|H]); assert (bl2 = block) as -> by congruence; congruence.
Qed.
End Uses.

(** C15: the liveness analysis of the register allocator ends, whatever loops the
    graph has, and finds a virtual register live at the start of a block exactly
    if the block's entry does not define it and some path from there uses its
    value: as an input, in an environment or in an object the environment
    materializes, or in a phi on an edge; live at the end if it is live at the
    start of a successor.  Inputs of materializations are not pairs
    ([wf_mat_input]): the code adds one register for each, and on the 64-bit target only definitions of
    two tagged values are pairs. *)
Theorem SSALiveness_exact g fuel : wf_ssa_graph g ->
  (length (ssa_postorder g) * Z.to_nat (64 * SizeFor (max_virtual_register_number g)) < fuel)%nat ->
  exists g' s, Analyze fuel g = Some (g', s) /\
  forall b block v, arr_get (ssa_postorder g) b = Some block -> 0 <= v < max_virtual_register_number g ->
    (set_contains (live_in_ s) b v = true <-> ~ entry_defs block v /\ used_later g v b (ssa_instructions block)) /\
    (set_contains (live_out_ s) b v = true <->
      exists b' block', b' ∈ successors (ssa_flow block) /\ arr_get (ssa_postorder g) b' = Some block' /\
        ~ entry_defs block' v /\ used_later g v b' (ssa_instructions block')).
Proof.
  intros Hg Hf. destruct (@Analyze_exact SsaGraph SSALiveness SSALiveness_laws g fuel Hg) as (g' & s0 & s & _ & Ha & _ & _ & Hc).
  { cbn. by rewrite length_fmap. }
  exists g', s. split; [exact Ha|]. intros b block v Hb Hv.
  assert (Hbr : 0 <= b < zlen (ssa_flow <$> ssa_postorder g)) by (pose proof (arr_get_Some _ _ _ Hb); unfold zlen in *; by rewrite length_fmap).
  destruct (Hc b v Hbr Hv) as [Hin Hout]. split; [rewrite Hin; by apply live_iff_used|]. rewrite Hout. split.
  - intros (fb & b' & Hfb & Hb' & Hl). change (arr_get (ssa_flow <$> ssa_postorder g) b = Some fb) in Hfb.
    rewrite flow_get, Hb in Hfb. cbn in Hfb. injection Hfb as <-.
    destruct (successor_block g Hg _ _ _ Hb Hb') as [block' Hbl']. exists b', block'. split; [done|]. split; [done|]. by apply live_iff_used.
  - intros (b' & block' & Hb' & Hbl' & Hu). exists (ssa_flow block), b'. split; [change (arr_get (ssa_flow <$> ssa_postorder g) b = Some (ssa_flow block)); by rewrite flow_get, Hb|].
    split; [done|]. by apply (live_iff_used g Hg v b' block').
Qed.

(** ** Examples *)
Definition plain (v : Z) : SsaDef := MkSsaDef v false.
(** A loop with a phi: block 2 defines v0, block 1 is the loop header with the
    phi v2 = (v0, v4), computes v4 from v2 and may deoptimize to an environment
    with a materialized object that holds v0; block 0 uses v4. *)
Definition example_loop : SsaGraph :=
  MkSsaGraph 6 [[MatValue (plain 0); MatConstant; MatInner 0]] [false]
    [MkSsaBlock (MkFlowBlock 0 []) SsaOther [MkSsaInstr None [(false, plain 4)] []];
     MkSsaBlock (MkFlowBlock 1 [0; 1]) (SsaJoin [MkSsaPhi (plain 2) [(false, 0); (false, 4)]] [2; 1])
       [MkSsaInstr (Some (plain 4)) [(false, plain 2)] [EnvMaterialize 0; EnvConstant]];
     MkSsaBlock (MkFlowBlock 2 [1]) (SsaInitialDefs []) [MkSsaInstr (Some (plain 0)) [] []]].
Lemma wf_small d k : forallb (fun x => (0 <=? x) && (x + 1 <? k)) [vreg d] = true -> wf_def k d.
Proof. cbn. rewrite andb_true_r. intros H. zbool. unfold wf_def, ToSecondPairVreg, kNoVirtualRegister, kPairVirtualRegisterOffset. zif; lia. Qed.
Ltac foralls := repeat first [apply Forall_nil_2 | apply Forall_cons_2].
Lemma example_loop_wf : wf_ssa_graph example_loop.
Proof.
  split; [done|]. split; [unfold wf_mats; cbn; foralls; cbn; [split; [by apply wf_small|done]|done|done]|].
  split; [done|]. split; [by cbn; foralls|]. split; [|split].
  - intros i block Hi. pose proof (arr_get_Some _ _ _ Hi) as Hr. change (zlen _) with 3 in *.
    assert (i = 0 \/ i = 1 \/ i = 2) as [-> |[-> | ->]] by lia; injection Hi as <-; (split; [done|]); intros s Hs;
      repeat (apply elem_of_cons in Hs as [->|Hs]; [lia|]); by apply not_elem_of_nil in Hs.
  - cbn [ssa_postorder example_loop]. foralls; (split; [foralls|]); cbn; foralls; try done.
    + split; [done|]. split; cbn; foralls; cbn; intros; by apply wf_small.
    + split; [by intros _; apply wf_small|]. split; cbn; foralls; cbn; [intros; by apply wf_small|done|done].
    + split; [by apply wf_small|].
      intros [|[|j]] use Hj; try done; injection Hj as <-; (split; [by apply wf_small|]); eexists; (split; [reflexivity|done]).
  - unfold all_instructions. cbn. repeat constructor; intros m (r & Hr & _) (r' & Hr' & _); cbn in *;
      repeat match goal with H : EnvMaterialize _ ∈ _ |- _ => first [by apply not_elem_of_nil in H | apply elem_of_cons in H as [[= ->]|H]] end; done.
Qed.
(** The live-in and live-out sets of the example. *)
Example example_loop_sets :
  match Analyze 1000 example_loop with
  | Some (_, s) => (iterate 100 <$> live_in_ s, iterate 100 <$> live_out_ s)
  | None => ([], [])
  end = ([Some [4]; Some [0]; Some []], [Some []; Some [0; 4]; Some [0]]).
Proof. vm_compute. reflexivity. Qed.
Lemma SSALiveness_exact_witness :
  exists g' s, Analyze 1000 example_loop = Some (g', s) /\
    (set_contains (live_in_ s) 0 4 = true <->
      ~ entry_defs (MkSsaBlock (MkFlowBlock 0 []) SsaOther [MkSsaInstr None [(false, plain 4)] []]) 4 /\
      used_later example_loop 4 0 [MkSsaInstr None [(false, plain 4)] []]).
Proof.
  destruct (SSALiveness_exact example_loop 1000 example_loop_wf ltac:(vm_compute; lia)) as (g' & s & Ha & H).
  exists g', s. split; [exact Ha|].
  exact (proj1 (H 0 (MkSsaBlock (MkFlowBlock 0 []) SsaOther [MkSsaInstr None [(false, plain 4)] []]) 4 eq_refl ltac:(vm_compute; split; [discriminate|reflexivity]))).
Defined.

(** An object that is materialized from a value of two registers, defined in
    the block before: the second register is needed, but not live. *)
Definition example_pair : SsaGraph :=
  MkSsaGraph 2 [[MatValue (MkSsaDef 0 true)]] [false]
    [MkSsaBlock (MkFlowBlock 0 []) SsaOther [MkSsaInstr None [] [EnvMaterialize 0]];
     MkSsaBlock (MkFlowBlock 1 [0]) (SsaInitialDefs []) [MkSsaInstr (Some (MkSsaDef 0 true)) [] []]].
(** [DeepLiveness] leaves out the second register of a pair, unlike the other
    uses: it is not live at the start of the block that needs it. *)
Theorem DeepLiveness_forgets_pair :
  instr_uses (materializations example_pair) (MkSsaInstr None [] [EnvMaterialize 0]) 1 /\
  exists g' s, Analyze 1000 example_pair = Some (g', s) /\ set_contains (live_in_ s) 0 0 = true /\ set_contains (live_in_ s) 0 1 = false.
Proof.
  split.
  - right. right. exists 0. split; [exists 0; split; [left|apply rtc_refl]|]. exists [MatValue (MkSsaDef 0 true)], (MkSsaDef 0 true).
    split; [done|]. split; [left|done].
  - eexists _, _. split; [vm_compute; reflexivity|]. done.
Qed.
