(* ===== verification/LinearScan.v ===== *)
(** * The linear scan register allocator
    (src/runtime/vm/compiler/backend/linearscan.{h,cc}, the x64 build)

    The scan over the live ranges of [LiveRange.v]: advancing the active
    ranges, free registers, eviction, spill slots, and the main loop. What the allocator
    reads of the flow graph (block entries, loops, phis, representations) is the
    record [Graph]; ranges, summaries and loops are named by addresses or ids. [None] is
    an access outside an array or a store. *)
From S2P Require Import Prelude Bitmap ParallelMove LiveRange.
From stdpp Require Import base gmap fin_maps list sorting.
Local Open Scope Z_scope.
Local Open Scope vm_scope.

(** ** Locations, register sets and summaries *)
Definition IsMachineRegister (l : Location) : bool := match l with Register_ _ | FpuRegister _ => true | _ => false end.
Definition register_code (l : Location) : Z := match l with Register_ r | FpuRegister r => r | _ => kNoRegister end.
Definition has_kind (kind : RegisterKind) (l : Location) : bool :=
  match kind, l with kRegister, Register_ _ | kFpuRegister, FpuRegister _ => true | _, _ => false end.
(** The stack index and the base register. *)
Definition stack_slot (l : Location) : option (Z * Z) :=
  match l with StackSlot i b | DoubleStackSlot i b | QuadStackSlot i b => Some (i, b) | _ => None end.

Definition SmallSet_Add (data value : Z) : Z := data ||| (1 <<< value).
Definition SmallSet_Contains (data value : Z) : bool := negb ((data &&& (1 <<< value)) =? 0).
Record RegisterSet := MkSet { cpu_registers_ : Z; untagged_cpu_registers_ : Z; fpu_registers_ : Z }.
Definition RegisterSet_Add (s : RegisterSet) (loc : Location) (rep : ValueRepresentation) : RegisterSet :=
  match loc with
  | Register_ reg =>
      MkSet (SmallSet_Add (cpu_registers_ s) reg)
        (if bool_decide (rep <> kTagged) then SmallSet_Add (untagged_cpu_registers_ s) reg else untagged_cpu_registers_ s) (fpu_registers_ s)
  | FpuRegister reg => MkSet (cpu_registers_ s) (untagged_cpu_registers_ s) (SmallSet_Add (fpu_registers_ s) reg)
  | _ => s
  end.
Inductive ContainsCall := kNoCall | kCall | kCallCalleeSafe | kCallOnSlowPath | kCallOnSharedSlowPath.
Record LocationSummary := MkSummary { contains_call_ : ContainsCall; live_registers_ : RegisterSet; stack_bitmap_ : option BitmapBuilder }.
Definition always_calls (s : LocationSummary) : bool := match contains_call_ s with kCall | kCallCalleeSafe => true | _ => false end.
Definition stack_bitmap (s : LocationSummary) : BitmapBuilder := default BitmapBuilder_new (stack_bitmap_ s).
Definition SetStackBit (s : LocationSummary) (index : Z) : option LocationSummary :=
  b ← Bitmap.Set_ (stack_bitmap s) index true; Some (MkSummary (contains_call_ s) (live_registers_ s) (Some b)).

(** ** The flow graph *)
Record PhiInstr := MkPhi { ssa_temp_index : Z; HasPairRepresentation : bool; reaching_defs : list Z }.
Record BlockEntryInstr := MkBlock { start_pos : Z; lifetime_position : Z; block_loop_info : option Z }.
Record LoopInfo := MkLoop { header : BlockEntryInstr; outer : option Z; header_phis : list PhiInstr }.
Record ExtraLoopInfo := MkExtra { loop_start : Z; loop_end : Z; backedge_interference : list Z }.
Record FrameLayout := MkLayout { first_local_from_fp : Z; param_end_from_fp : Z }.
Record Graph := MkGraph {
  block_entries_ : list BlockEntryInstr; loop_headers : list LoopInfo; extra_loop_info_ : list ExtraLoopInfo; fixed_slot_count : Z;
  value_representations_ : list ValueRepresentation; frame_layout : FrameLayout; intrinsic_mode_ : bool }.
Definition BlockEntryAt (g : Graph) (pos : Z) : option BlockEntryInstr := arr_get (block_entries_ g) (pos / 2).
Definition FrameSlotForVariableIndex (l : FrameLayout) (variable_index : Z) : Z :=
  if variable_index <=? 0 then variable_index + first_local_from_fp l else variable_index + param_end_from_fp l.
Definition VariableIndexForFrameSlot (l : FrameLayout) (frame_slot : Z) : Z :=
  if frame_slot <=? first_local_from_fp l then frame_slot - first_local_from_fp l else frame_slot - param_end_from_fp l.
Definition kDoubleSpillFactor : Z := 8 / kWordSize.

(** ** The allocator *)
Record RegisterFile := MkFile { register_kind_ : RegisterKind; number_of_registers_ : Z; blocked_registers_ : list bool }.
(** The end of the range that holds a slot, and the kind of the slot. *)
Record SpillSlots := MkSpills { spill_slots_ : list Z; quad_spill_slots_ : list bool; untagged_spill_slots_ : list bool; cpu_spill_slot_count_ : Z }.
Record Allocator := MkAllocator {
  file_ : RegisterFile; objects_ : Objects; summaries_ : gmap Z LocationSummary; live_ranges_ : list Z;
  registers_ : list (list Z); unallocated_ : list Z; spills_ : SpillSlots; spilled_ : list Z }.
Section Setters.
Implicit Type A : Allocator.
Definition with_objects A st : Allocator := MkAllocator (file_ A) st (summaries_ A) (live_ranges_ A) (registers_ A) (unallocated_ A) (spills_ A) (spilled_ A).
Definition with_summaries A ss : Allocator := MkAllocator (file_ A) (objects_ A) ss (live_ranges_ A) (registers_ A) (unallocated_ A) (spills_ A) (spilled_ A).
Definition with_registers A regs : Allocator := MkAllocator (file_ A) (objects_ A) (summaries_ A) (live_ranges_ A) regs (unallocated_ A) (spills_ A) (spilled_ A).
Definition with_unallocated A l : Allocator := MkAllocator (file_ A) (objects_ A) (summaries_ A) (live_ranges_ A) (registers_ A) l (spills_ A) (spilled_ A).
End Setters.
Definition put_slot (st : Objects) (slot : Z) (l : LocationSlot) : Objects := MkObjects (intervals st) (positions st) (safepoints st) (ranges st) (<[slot := l]> (slots st)).
Definition set_assigned_location (r : LiveRange) (l : Location) : LiveRange :=
  MkRange (vreg_ r) (representation_ r) l (spill_slot_ r) (uses_ r) (first_use_interval_ r) (last_use_interval_ r)
    (first_safepoint_ r) (last_safepoint_ r) (next_sibling_ r) (has_only_any_uses_in_loops_ r) (is_loop_phi_ r) (finger_ r).
Definition set_spill_slot (r : LiveRange) (l : Location) : LiveRange :=
  MkRange (vreg_ r) (representation_ r) (assigned_location_ r) l (uses_ r) (first_use_interval_ r) (last_use_interval_ r)
    (first_safepoint_ r) (last_safepoint_ r) (next_sibling_ r) (has_only_any_uses_in_loops_ r) (is_loop_phi_ r) (finger_ r).
Definition HasOnlyUnconstrainedUsesInLoop (r : LiveRange) (loop_id : Z) : bool :=
  if loop_id <? kBitsPerWord then negb ((has_only_any_uses_in_loops_ r &&& (1 <<< loop_id)) =? 0) else false.
Definition update_range (A : Allocator) (r : Z) (f : LiveRange -> LiveRange) : option Allocator :=
  range ← ranges (objects_ A) !! r; Some (with_objects A (put_range (objects_ A) r (f range))).
Definition NumberOfRegisters (A : Allocator) : Z := number_of_registers_ (file_ A).
Definition MakeRegisterLocation (A : Allocator) (reg : Z) : Location := MachineRegisterLocation (register_kind_ (file_ A)) reg.

(** *** Converting uses *)
Definition ConvertUseTo (st : Objects) (use : UsePosition) (loc : Location) : option Objects :=
  _ ← slots st !! location_slot_ use; Some (put_slot st (location_slot_ use) (Allocated loc)).
Fixpoint ConvertUses_loop (fuel : nat) (st : Objects) (use : Z) (loc : Location) : option Objects :=
  match fuel with
  | O => None
  | S fuel =>
      if use =? 0 then Some st
      else u ← positions st !! use; st ← ConvertUseTo st u loc; ConvertUses_loop fuel st (use_next u) loc
  end.
Fixpoint live_at_safepoints (fuel : nat) (m : gmap Z SafepointPosition) (ss : gmap Z LocationSummary) (safepoint : Z) (loc : Location)
    (rep : ValueRepresentation) : option (gmap Z LocationSummary) :=
  match fuel with
  | O => None
  | S fuel =>
      if safepoint =? 0 then Some ss
      else
        s ← m !! safepoint;
        locs ← ss !! locs_ s;
        live_at_safepoints fuel m
          (if always_calls locs then ss
           else <[locs_ s := MkSummary (contains_call_ locs) (RegisterSet_Add (live_registers_ locs) loc rep) (stack_bitmap_ locs)]> ss)
          (safepoint_next s) loc rep
  end.
Definition ConvertAllUses (A : Allocator) (r : Z) : option Allocator :=
  let st := objects_ A in
  range ← ranges st !! r;
  if vreg_ range =? kNoVirtualRegister then Some A
  else
    let loc := assigned_location_ range in
    st ← ConvertUses_loop (S (size (positions st))) st (uses_ range) loc;
    let A := with_objects A st in
    if IsMachineRegister loc then
      ss ← live_at_safepoints (S (size (safepoints st))) (safepoints st) (summaries_ A) (first_safepoint_ range) loc (representation_ range);
      Some (with_summaries A ss)
    else Some A.

(** *** The active ranges *)
Fixpoint RemoveEvicted_loop (fuel : nat) (l : list Z) (to from : Z) : option (list Z) :=
  match fuel with
  | O => None
  | S fuel =>
      if from <? zlen l then
        allocated ← arr_get l from;
        if negb (allocated =? 0) then l ← arr_set l to allocated; RemoveEvicted_loop fuel l (to + 1) (from + 1)
        else RemoveEvicted_loop fuel l to (from + 1)
      else Some (take (Z.to_nat to) l)
  end.
Definition RemoveEvicted (l : list Z) (first_evicted : Z) : option (list Z) := RemoveEvicted_loop (S (length l)) l first_evicted (first_evicted + 1).
(** The ranges of a register, from the [n]-th down. *)
Fixpoint advance_register (n : nat) (A : Allocator) (l : list Z) (start first_evicted : Z) : option (Allocator * list Z * Z) :=
  match n with
  | O => Some (A, l, first_evicted)
  | S i =>
      r ← l !! i;
      range ← ranges (objects_ A) !! r;
      '(done, finger) ← Finger_Advance (intervals (objects_ A)) (finger_ range) start;
      let A := with_objects A (put_range (objects_ A) r (with_finger range finger)) in
      if (done : bool) then A ← ConvertAllUses A r; advance_register i A (<[i := 0]> l) start (Z.of_nat i)
      else advance_register i A l start first_evicted
  end.
Fixpoint AdvanceActiveIntervals_loop (n : nat) (A : Allocator) (reg start : Z) : option Allocator :=
  match n with
  | O => Some A
  | S n =>
      l ← arr_get (registers_ A) reg;
      '(A, l, first_evicted) ← advance_register (length l) A l start (-1);
      l ← (if negb (first_evicted =? -1) then RemoveEvicted l first_evicted else Some l);
      regs ← arr_set (registers_ A) reg l;
      AdvanceActiveIntervals_loop n (with_registers A regs) (reg + 1) start
  end.
Definition AdvanceActiveIntervals (A : Allocator) (start : Z) : option Allocator := AdvanceActiveIntervals_loop (Z.to_nat (NumberOfRegisters A)) A 0 start.

(** *** The ranges to be allocated, latest first *)
Definition InsertAt (l : list Z) (idx : nat) (value : Z) : list Z := take idx l ++ value :: drop idx l.
Definition ShouldBeAllocatedBefore (st : Objects) (a b : Z) : option bool :=
  a ← ranges st !! a; b ← ranges st !! b; s ← Range_Start st a; s' ← Range_Start st b; Some (s <=? s').
Fixpoint insert_range (n : nat) (st : Objects) (l : list Z) (range : Z) : option (list Z) :=
  match n with
  | O => Some (InsertAt l 0 range)
  | S i => b ← l !! i; before ← ShouldBeAllocatedBefore st range b; if (before : bool) then Some (InsertAt l (S i) range) else insert_range i st l range
  end.
Definition AddToSortedListOfRanges (st : Objects) (l : list Z) (range : Z) : option (Objects * list Z) :=
  r ← ranges st !! range;
  let st := put_range st range (with_finger r (Finger_Initialize r)) in
  l ← insert_range (length l) st l range;
  Some (st, l).
Definition AddToUnallocated (A : Allocator) (range : Z) : option Allocator :=
  '(st, l) ← AddToSortedListOfRanges (objects_ A) (unallocated_ A) range; Some (with_unallocated (with_objects A st) l).

Section Graph.
Context (g : Graph).
(** The range of a virtual register, made when there is none. *)
Definition GetLiveRange (A : Allocator) (vreg : Z) : option (Z * Allocator) :=
  r ← arr_get (live_ranges_ A) vreg;
  if r =? 0 then
    rep ← arr_get (value_representations_ g) vreg;
    let a := fresh_address (ranges (objects_ A)) in
    l ← arr_set (live_ranges_ A) vreg a;
    Some (a, MkAllocator (file_ A) (put_range (objects_ A) a (NewLiveRange vreg rep)) (summaries_ A) l (registers_ A) (unallocated_ A) (spills_ A) (spilled_ A))
  else Some (r, A).

(** *** Free registers *)
Definition register_intersection (A : Allocator) (reg : Z) (unallocated : LiveRange) : option Z :=
  l ← arr_get (registers_ A) reg; FirstIntersectionWithAllocated (objects_ A) l unallocated.
(** The first register that no range has, and until when it is free. *)
Fixpoint find_unused (n : nat) (A : Allocator) (reg : Z) : option (Z * Z) :=
  match n with
  | O => Some (kNoRegister, 0)
  | S n =>
      blocked ← arr_get (blocked_registers_ (file_ A)) reg;
      l ← arr_get (registers_ A) reg;
      if negb blocked && (zlen l =? 0) then Some (reg, kMaxPosition) else find_unused n A (reg + 1)
  end.
Fixpoint search_longest (n : nat) (A : Allocator) (unallocated : LiveRange) (reg candidate free_until : Z) : option (Z * Z) :=
  match n with
  | O => Some (candidate, free_until)
  | S n =>
      blocked ← arr_get (blocked_registers_ (file_ A)) reg;
      if (blocked : bool) || (reg =? candidate) then search_longest n A unallocated (reg + 1) candidate free_until
      else
        intersection ← register_intersection A reg unallocated;
        if intersection >? free_until then
          if intersection =? kMaxPosition then Some (reg, intersection) else search_longest n A unallocated (reg + 1) reg intersection
        else search_longest n A unallocated (reg + 1) candidate free_until
  end.
(** The registers of the phis on the back edge that [vreg] does not reach. *)
Definition mark_used (A : Allocator) (used : list bool) (vreg phi_vreg : Z) (phi : PhiInstr) : option (list bool * Allocator) :=
  '(r, A) ← GetLiveRange A phi_vreg;
  range ← ranges (objects_ A) !! r;
  if has_kind (register_kind_ (file_ A)) (assigned_location_ range) && negb (bool_decide (vreg ∈ reaching_defs phi)) then
    used ← arr_set used (register_code (assigned_location_ range)) true; Some (used, A)
  else Some (used, A).
Fixpoint used_on_backedge (A : Allocator) (used : list bool) (vreg : Z) (phis : list PhiInstr) : option (list bool * Allocator) :=
  match phis with
  | [] => Some (used, A)
  | phi :: phis =>
      '(used, A) ← mark_used A used vreg (ssa_temp_index phi) phi;
      '(used, A) ← (if HasPairRepresentation phi then mark_used A used vreg (ToSecondPairVreg (ssa_temp_index phi)) phi else Some (used, A));
      used_on_backedge A used vreg phis
  end.
Fixpoint search_no_interference (n : nat) (A : Allocator) (unallocated : LiveRange) (used : list bool) (reg candidate free_until : Z) : option (Z * Z) :=
  match n with
  | O => Some (candidate, free_until)
  | S n =>
      blocked ← arr_get (blocked_registers_ (file_ A)) reg;
      u ← arr_get used reg;
      if (blocked : bool) || (reg =? candidate) || u then search_no_interference n A unallocated used (reg + 1) candidate free_until
      else
        intersection ← register_intersection A reg unallocated;
        if intersection >=? free_until then Some (reg, intersection) else search_no_interference n A unallocated used (reg + 1) candidate free_until
  end.
Definition avoid_back_edge (A : Allocator) (unallocated : LiveRange) (start candidate free_until : Z) : option (Z * Z * Allocator) :=
  block ← BlockEntryAt g start;
  match block_loop_info block with
  | Some id =>
      if vreg_ unallocated >=? 0 then
        extra ← arr_get (extra_loop_info_ g) id;
        if (free_until >=? loop_end extra) && bool_decide (vreg_ unallocated ∈ backedge_interference extra) then
          loop ← arr_get (loop_headers g) id;
          '(used, A) ← used_on_backedge A (replicate (Z.to_nat (NumberOfRegisters A)) false) (vreg_ unallocated) (header_phis loop);
          u ← arr_get used candidate;
          if (u : bool) then
            '(candidate, free_until) ← search_no_interference (Z.to_nat (NumberOfRegisters A)) A unallocated used 0 candidate free_until;
            Some (candidate, free_until, A)
          else Some (candidate, free_until, A)
        else Some (candidate, free_until, A)
      else Some (candidate, free_until, A)
  | None => Some (candidate, free_until, A)
  end.
Definition add_to_register (A : Allocator) (reg r : Z) : option Allocator :=
  l ← arr_get (registers_ A) reg;
  regs ← arr_set (registers_ A) reg (l ++ [r]);
  update_range (with_registers A regs) r (fun range => set_assigned_location range (MakeRegisterLocation A reg)).
Definition AllocateFreeRegister (A : Allocator) (unallocated : Z) : option (bool * Allocator) :=
  let n := Z.to_nat (NumberOfRegisters A) in
  range ← ranges (objects_ A) !! unallocated;
  hint ← FirstHint (positions (objects_ A)) (hint_target (objects_ A)) (finger_ range);
  '(candidate, free_until) ←
    (if IsMachineRegister hint then
       blocked ← arr_get (blocked_registers_ (file_ A)) (register_code hint);
       if (blocked : bool) then Some (kNoRegister, 0)
       else free_until ← register_intersection A (register_code hint) range; Some (register_code hint, free_until)
     else find_unused n A 0);
  '(candidate, free_until) ← (if negb (free_until =? kMaxPosition) then search_longest n A range 0 candidate free_until else Some (candidate, free_until));
  start ← Range_Start (objects_ A) range;
  if free_until <=? start then Some (false, A)
  else
    '(candidate, free_until, A) ← avoid_back_edge A range start candidate free_until;
    A ← (if negb (free_until =? kMaxPosition) then
           '(tail, st) ← SplitAt (objects_ A) unallocated free_until; AddToUnallocated (with_objects A st) tail
         else Some A);
    A ← add_to_register A candidate unallocated;
    Some (true, A).

(** *** Spill slots *)
Fixpoint last_sibling (fuel : nat) (m : gmap Z LiveRange) (r : Z) : option Z :=
  match fuel with
  | O => None
  | S fuel => range ← m !! r; if next_sibling_ range =? 0 then Some r else last_sibling fuel m (next_sibling_ range)
  end.
Definition is_quad (rep : ValueRepresentation) : bool := match rep with kUnboxedFloat32x4 | kUnboxedInt32x4 | kUnboxedFloat64x2 => true | _ => false end.
Fixpoint find_slot (fuel : nat) (s : SpillSlots) (need_quad need_untagged : bool) (start idx : Z) : option Z :=
  match fuel with
  | O => None
  | S fuel =>
      if idx <? zlen (spill_slots_ s) then
        quad ← arr_get (quad_spill_slots_ s) idx;
        untagged ← arr_get (untagged_spill_slots_ s) idx;
        until ← arr_get (spill_slots_ s) idx;
        if Bool.eqb need_quad quad && Bool.eqb need_untagged untagged && (until <=? start) then Some idx
        else find_slot fuel s need_quad need_untagged start (idx + 1)
      else Some idx
  end.
Definition add_slots (s : SpillSlots) (n : nat) (until : Z) (quad untagged : bool) : SpillSlots :=
  MkSpills (spill_slots_ s ++ replicate n until) (quad_spill_slots_ s ++ replicate n quad) (untagged_spill_slots_ s ++ replicate n untagged) (cpu_spill_slot_count_ s).
Definition set_slot (s : SpillSlots) (idx until : Z) : option SpillSlots :=
  l ← arr_set (spill_slots_ s) idx until; Some (MkSpills l (quad_spill_slots_ s) (untagged_spill_slots_ s) (cpu_spill_slot_count_ s)).
(** The index of a slot for a value that lives from [start] to [end_pos];
    [first] is the first index that may be taken. *)
Definition take_slot (s : SpillSlots) (first : Z) (need_quad need_untagged : bool) (start end_pos : Z) : option (Z * SpillSlots) :=
  idx ← find_slot (S (length (spill_slots_ s))) s need_quad need_untagged start first;
  let s := add_slots s (Z.to_nat (idx - zlen (spill_slots_ s))) kMaxPosition false false in
  let s := if idx =? zlen (spill_slots_ s) then add_slots s (if need_quad then 2 else 1) 0 need_quad need_untagged else s in
  s ← set_slot s idx end_pos;
  if need_quad then s ← set_slot s (idx + 1) end_pos; Some (idx + 1, s) else Some (idx, s).
Definition spill_location (kind : RegisterKind) (s : SpillSlots) (rep : ValueRepresentation) (idx : Z) : Location :=
  match kind with
  | kRegister => StackSlot (FrameSlotForVariableIndex (frame_layout g) (- idx)) FPREG
  | kFpuRegister =>
      let slot_idx := FrameSlotForVariableIndex (frame_layout g) (- (cpu_spill_slot_count_ s + idx * kDoubleSpillFactor + (kDoubleSpillFactor - 1))) in
      if is_quad rep then QuadStackSlot slot_idx FPREG else DoubleStackSlot slot_idx FPREG
  end.
Definition AllocateSpillSlotFor (A : Allocator) (r : Z) : option Allocator :=
  let st := objects_ A in
  let kind := register_kind_ (file_ A) in
  range ← ranges st !! r;
  l ← last_sibling (S (size (ranges st))) (ranges st) r;
  last ← ranges st !! l;
  start ← Range_Start st range;
  end_pos ← Range_End st last;
  let is_fpu := match kind with kFpuRegister => true | kRegister => false end in
  let need_quad := is_fpu && is_quad (representation_ range) in
  let need_untagged := negb is_fpu && bool_decide (representation_ range = kUntagged) in
  '(idx, s) ← take_slot (spills_ A) (if is_fpu then 0 else fixed_slot_count g) need_quad need_untagged start end_pos;
  Some (MkAllocator (file_ A) (put_range st r (set_spill_slot range (spill_location kind s (representation_ range) idx))) (summaries_ A) (live_ranges_ A)
          (registers_ A) (unallocated_ A) s (spilled_ A ++ [r])).
Fixpoint mark_safepoints (fuel : nat) (m : gmap Z SafepointPosition) (ss : gmap Z LocationSummary) (safepoint index : Z) : option (gmap Z LocationSummary) :=
  match fuel with
  | O => None
  | S fuel =>
      if safepoint =? 0 then Some ss
      else
        s ← m !! safepoint;
        locs ← ss !! locs_ s;
        locs' ← SetStackBit locs index;
        mark_safepoints fuel m (<[locs_ s := locs']> ss) (safepoint_next s) index
  end.
Fixpoint mark_siblings (fuel : nat) (A : Allocator) (r index : Z) : option Allocator :=
  match fuel with
  | O => None
  | S fuel =>
      if r =? 0 then Some A
      else
        range ← ranges (objects_ A) !! r;
        ss ← mark_safepoints (S (size (safepoints (objects_ A)))) (safepoints (objects_ A)) (summaries_ A) (first_safepoint_ range) index;
        mark_siblings fuel (with_summaries A ss) (next_sibling_ range) index
  end.
Definition MarkAsObjectAtSafepoints (A : Allocator) (r : Z) : option Allocator :=
  range ← ranges (objects_ A) !! r;
  '(index, base) ← stack_slot (spill_slot_ range);
  mark_siblings (S (size (ranges (objects_ A)))) A r (if base =? FPREG then - VariableIndexForFrameSlot (frame_layout g) index else index).
Definition Spill (A : Allocator) (r : Z) : option Allocator :=
  range ← ranges (objects_ A) !! r;
  '(p, A) ← GetLiveRange A (vreg_ range);
  parent ← ranges (objects_ A) !! p;
  A ← (if IsInvalid (spill_slot_ parent) then
         A ← AllocateSpillSlotFor A p;
         if bool_decide (representation_ range = kTagged) then MarkAsObjectAtSafepoints A p else Some A
       else Some A);
  parent ← ranges (objects_ A) !! p;
  A ← update_range A r (fun range => set_assigned_location range (spill_slot_ parent));
  ConvertAllUses A r.

(** *** Splitting and spilling *)
Fixpoint loop_around (loops : list ExtraLoopInfo) (to i : Z) : option Z :=
  match loops with
  | [] => None
  | l :: loops => if (loop_start l <? to) && (to <? loop_end l) then Some i else loop_around loops to (i + 1)
  end.
Fixpoint outermost_header (fuel : nat) (from : Z) (loop_info : option Z) (entry : BlockEntryInstr) : option BlockEntryInstr :=
  match fuel with
  | O => None
  | S fuel =>
      match loop_info with
      | Some id =>
          l ← arr_get (loop_headers g) id;
          if from <? lifetime_position (header l) then outermost_header fuel from (outer l) (header l) else Some entry
      | None => Some entry
      end
  end.
Definition split_position (from to : Z) : option Z :=
  entry ← BlockEntryAt g to;
  if from <? lifetime_position entry then
    let loop_info := match block_loop_info entry with Some id => Some id | None => loop_around (extra_loop_info_ g) to 0 end in
    entry ← outermost_header (S (length (loop_headers g))) from loop_info entry;
    Some (lifetime_position entry)
  else Some (ToInstructionStart to - 1).
Definition SplitBetween (A : Allocator) (r from to : Z) : option (Z * Allocator) :=
  pos ← split_position from to; '(tail, st) ← SplitAt (objects_ A) r pos; Some (tail, with_objects A st).
Definition start_of (A : Allocator) (r : Z) : option Z := range ← ranges (objects_ A) !! r; Range_Start (objects_ A) range.
Definition SpillBetween (A : Allocator) (r from to : Z) : option Allocator :=
  '(tail, st) ← SplitAt (objects_ A) r from;
  let A := with_objects A st in
  tail_start ← start_of A tail;
  if tail_start <? to then
    '(tail_tail, A) ← SplitBetween A tail tail_start to;
    A ← Spill A tail;
    AddToUnallocated A tail_tail
  else AddToUnallocated A tail.
Definition RangeHasOnlyUnconstrainedUsesInLoop (A : Allocator) (r loop_id : Z) : option (bool * Allocator) :=
  range ← ranges (objects_ A) !! r;
  if vreg_ range >=? 0 then
    '(p, A) ← GetLiveRange A (vreg_ range);
    parent ← ranges (objects_ A) !! p;
    Some (HasOnlyUnconstrainedUsesInLoop parent loop_id, A)
  else Some (false, A).
Definition SpillAfter (A : Allocator) (r from : Z) : option Allocator :=
  entry ← BlockEntryAt g from;
  '(from, A) ←
    match block_loop_info entry with
    | Some id =>
        l ← arr_get (loop_headers g) id;
        s ← start_of A r;
        if s <=? start_pos (header l) then
          '(only, A) ← RangeHasOnlyUnconstrainedUsesInLoop A r id; Some (if (only : bool) then start_pos (header l) else from, A)
        else Some (from, A)
    | None => Some (from, A)
    end;
  '(tail, st) ← SplitAt (objects_ A) r from;
  Spill (with_objects A st) tail.

(** *** Eviction *)
Fixpoint IsCheapToEvict_loop (A : Allocator) (l : list Z) (id loop_start loop_end : Z) : option (bool * Allocator) :=
  match l with
  | [] => Some (true, A)
  | r :: l =>
      range ← ranges (objects_ A) !! r;
      interval ← intervals (objects_ A) !! first_pending_use_interval_ (finger_ range);
      if UseInterval_Contains interval loop_start then
        '(only, A) ← RangeHasOnlyUnconstrainedUsesInLoop A r id;
        if negb only then Some (false, A) else IsCheapToEvict_loop A l id loop_start loop_end
      else if start_ interval <? loop_end then Some (false, A)
      else IsCheapToEvict_loop A l id loop_start loop_end
  end.
Definition IsCheapToEvictRegisterInLoop (A : Allocator) (id reg : Z) : option (bool * Allocator) :=
  extra ← arr_get (extra_loop_info_ g) id;
  l ← arr_get (registers_ A) reg;
  IsCheapToEvict_loop A l id (loop_start extra) (loop_end extra).
Fixpoint HasCheapEvictionCandidate_loop (n : nat) (A : Allocator) (id reg : Z) : option (bool * Allocator) :=
  match n with
  | O => Some (false, A)
  | S n =>
      blocked ← arr_get (blocked_registers_ (file_ A)) reg;
      if (blocked : bool) then HasCheapEvictionCandidate_loop n A id (reg + 1)
      else
        '(cheap, A) ← IsCheapToEvictRegisterInLoop A id reg;
        if (cheap : bool) then Some (true, A) else HasCheapEvictionCandidate_loop n A id (reg + 1)
  end.
Definition HasCheapEvictionCandidate (A : Allocator) (phi_range : Z) : option (bool * Allocator) :=
  s ← start_of A phi_range;
  header ← BlockEntryAt g s;
  id ← block_loop_info header;
  HasCheapEvictionCandidate_loop (Z.to_nat (NumberOfRegisters A)) A id 0.
(** [FirstInterferingUse] and [FirstRegisterUse] of a range, whose finger
    remembers the answer. *)
Definition range_use (find : gmap Z UsePosition -> gmap Z LocationSlot -> AllocationFinger -> Z -> option (Z * AllocationFinger)) (A : Allocator) (r after : Z) :
    option (Z * Allocator) :=
  let st := objects_ A in
  range ← ranges st !! r;
  '(use, finger) ← find (positions st) (slots st) (finger_ range) after;
  Some (use, with_objects A (put_range st r (with_finger range finger))).
(** Whether the register can be had longer than by the best one so far. *)
Fixpoint UpdateFreeUntil_loop (A : Allocator) (l : list Z) (unallocated : LiveRange) (start cur_free_until free_until blocked_at : Z) :
    option (option (Z * Z) * Allocator) :=
  match l with
  | [] => Some (Some (free_until, blocked_at), A)
  | r :: l =>
      range ← ranges (objects_ A) !! r;
      interval ← intervals (objects_ A) !! first_pending_use_interval_ (finger_ range);
      if UseInterval_Contains interval start then
        if vreg_ range <? 0 then Some (None, A)
        else
          '(use, A) ← range_use FirstInterferingUse A r start;
          if use =? 0 then
            use_pos ← Range_End (objects_ A) range;
            let free_until := if use_pos <? free_until then use_pos else free_until in
            if free_until <=? cur_free_until then Some (None, A) else UpdateFreeUntil_loop A l unallocated start cur_free_until free_until blocked_at
          else
            u ← positions (objects_ A) !! use;
            if ToInstructionStart (pos_ u) - start <=? 1 then Some (None, A)
            else
              let free_until := if pos_ u <? free_until then pos_ u else free_until in
              if free_until <=? cur_free_until then Some (None, A) else UpdateFreeUntil_loop A l unallocated start cur_free_until free_until blocked_at
      else
        intersection ← FirstIntersection (intervals (objects_ A)) (first_pending_use_interval_ (finger_ range)) (first_use_interval_ unallocated);
        let free_until' := if negb (intersection =? kMaxPosition) && (intersection <? free_until) then intersection else free_until in
        let blocked_at' := if negb (intersection =? kMaxPosition) && (vreg_ range =? kNoVirtualRegister) then intersection else blocked_at in
        if free_until' <=? cur_free_until then Some (None, A) else UpdateFreeUntil_loop A l unallocated start cur_free_until free_until' blocked_at'
  end.
Definition UpdateFreeUntil (A : Allocator) (reg unallocated cur_free_until : Z) : option (option (Z * Z) * Allocator) :=
  range ← ranges (objects_ A) !! unallocated;
  start ← Range_Start (objects_ A) range;
  l ← arr_get (registers_ A) reg;
  UpdateFreeUntil_loop A l range start cur_free_until kMaxPosition kMaxPosition.
Definition EvictIntersection (A : Allocator) (allocated unallocated : Z) : option (bool * Allocator) :=
  let st := objects_ A in
  range ← ranges st !! allocated;
  u ← ranges st !! unallocated;
  let first_unallocated := first_pending_use_interval_ (finger_ u) in
  intersection ← FirstIntersection (intervals st) (first_pending_use_interval_ (finger_ range)) first_unallocated;
  if intersection =? kMaxPosition then Some (false, A)
  else
    i ← intervals st !! first_unallocated;
    let spill_position := start_ i in
    '(use, A) ← range_use FirstInterferingUse A allocated spill_position;
    if use =? 0 then A ← SpillAfter A allocated spill_position; Some (true, A)
    else
      p ← positions (objects_ A) !! use;
      A ← SpillBetween A allocated spill_position (if spill_position <? intersection then MinPosition intersection (pos_ p) else pos_ p);
      Some (true, A).
Fixpoint AssignNonFree_loop (n : nat) (A : Allocator) (reg unallocated first_evicted : Z) : option (Allocator * Z) :=
  match n with
  | O => Some (A, first_evicted)
  | S i =>
      l ← arr_get (registers_ A) reg;
      r ← l !! i;
      range ← ranges (objects_ A) !! r;
      if vreg_ range <? 0 then AssignNonFree_loop i A reg unallocated first_evicted
      else
        '(evicted, A) ← EvictIntersection A r unallocated;
        if (evicted : bool) then
          range ← ranges (objects_ A) !! r;
          A ← (if IsMachineRegister (assigned_location_ range) then ConvertAllUses A r else Some A);
          regs ← arr_set (registers_ A) reg (<[i := 0]> l);
          AssignNonFree_loop i (with_registers A regs) reg unallocated (Z.of_nat i)
        else AssignNonFree_loop i A reg unallocated first_evicted
  end.
Definition AssignNonFreeRegister (A : Allocator) (unallocated reg : Z) : option Allocator :=
  l ← arr_get (registers_ A) reg;
  '(A, first_evicted) ← AssignNonFree_loop (length l) A reg unallocated (-1);
  A ← (if negb (first_evicted =? -1) then
         l ← arr_get (registers_ A) reg;
         l ← RemoveEvicted l first_evicted;
         regs ← arr_set (registers_ A) reg l;
         Some (with_registers A regs)
       else Some A);
  add_to_register A reg unallocated.
Fixpoint search_evictable (n : nat) (A : Allocator) (unallocated reg candidate free_until blocked_at : Z) : option (Z * Z * Z * Allocator) :=
  match n with
  | O => Some (candidate, free_until, blocked_at, A)
  | S n =>
      blocked ← arr_get (blocked_registers_ (file_ A)) reg;
      if (blocked : bool) then search_evictable n A unallocated (reg + 1) candidate free_until blocked_at
      else
        '(better, A) ← UpdateFreeUntil A reg unallocated free_until;
        match better with
        | Some (free_until, blocked_at) => search_evictable n A unallocated (reg + 1) reg free_until blocked_at
        | None => search_evictable n A unallocated (reg + 1) candidate free_until blocked_at
        end
  end.
Definition AllocateAnyRegister (A : Allocator) (unallocated : Z) : option Allocator :=
  s ← start_of A unallocated;
  '(register_use, A) ← range_use FirstRegisterUse A unallocated s;
  range ← ranges (objects_ A) !! unallocated;
  '(spill, A) ←
    (if register_use =? 0 then
       if is_loop_phi_ range then '(cheap, A) ← HasCheapEvictionCandidate A unallocated; Some (negb cheap, A) else Some (true, A)
     else Some (false, A));
  if (spill : bool) then Spill A unallocated
  else
    '(candidate, free_until, blocked_at, A) ← search_evictable (Z.to_nat (NumberOfRegisters A)) A unallocated 0 kNoRegister 0 kMaxPosition;
    register_use_pos ← (if register_use =? 0 then Some s else u ← positions (objects_ A) !! register_use; Some (pos_ u));
    if free_until <? register_use_pos then
      u ← positions (objects_ A) !! register_use;
      SpillBetween A unallocated s (pos_ u)
    else
      range ← ranges (objects_ A) !! unallocated;
      e ← Range_End (objects_ A) range;
      A ← (if blocked_at <? e then '(tail, A) ← SplitBetween A unallocated s (blocked_at + 1); AddToUnallocated A tail else Some A);
      AssignNonFreeRegister A unallocated candidate.

(** *** The main loop *)
Inductive Outcome := Finished (A : Allocator) | Unreachable.
Fixpoint AllocateUnallocatedRanges_loop (fuel : nat) (A : Allocator) : option Outcome :=
  match fuel with
  | O => None
  | S fuel =>
      match last (unallocated_ A) with
      | None => Some (Finished A)
      | Some range =>
          let A := with_unallocated A (take (length (unallocated_ A) - 1) (unallocated_ A)) in
          start ← start_of A range;
          A ← AdvanceActiveIntervals A start;
          '(allocated, A) ← AllocateFreeRegister A range;
          if (allocated : bool) then AllocateUnallocatedRanges_loop fuel A
          else if intrinsic_mode_ g then Some Unreachable
          else A ← AllocateAnyRegister A range; AllocateUnallocatedRanges_loop fuel A
      end
  end.
Definition AllocateUnallocatedRanges (fuel : nat) (A : Allocator) : option Outcome :=
  o ← AllocateUnallocatedRanges_loop fuel A;
  match o with
  | Finished A => A ← AdvanceActiveIntervals A kMaxPosition; Some (Finished A)
  | Unreachable => Some Unreachable
  end.
Fixpoint prepare_registers (A : Allocator) (blocking_ranges : list Z) : option (Allocator * list (list Z)) :=
  match blocking_ranges with
  | [] => Some (A, [])
  | r :: blocking_ranges =>
      A ← (if r =? 0 then Some A else update_range A r (fun range => with_finger range (Finger_Initialize range)));
      '(A, regs) ← prepare_registers A blocking_ranges;
      Some (A, (if r =? 0 then [] else [r]) :: regs)
  end.
Definition PrepareForAllocation (A : Allocator) (kind : RegisterKind) (number_of_registers : Z) (unallocated blocking_ranges : list Z) (blocked_registers : list bool) :
    option Allocator :=
  '(A, regs) ← prepare_registers A (take (Z.to_nat number_of_registers) blocking_ranges);
  Some (MkAllocator (MkFile kind number_of_registers (take (Z.to_nat number_of_registers) blocked_registers)) (objects_ A) (summaries_ A) (live_ranges_ A) regs
          (unallocated_ A ++ unallocated) (spills_ A) (spilled_ A)).
End Graph.
