(* ===== verification/SpillSlots.v ===== *)
(** * Spill slots
    (src/runtime/vm/compiler/backend/linearscan.cc, [AllocateSpillSlotFor])

    Values that are live at the same time do not share a word of the frame,
    whatever the mix of tagged, untagged, double and quad values. *)
From Stdlib Require Import Sorted.
From S2P Require Import Prelude ParallelMove LiveRange LinearScan.
From stdpp Require Import base gmap fin_maps list.
Local Open Scope Z_scope.

(** ** The arrays as a list of cells *)
Record cell := MkCell { c_until : Z; c_quad : bool; c_untagged : bool }.
Definition has_cells (s : SpillSlots) (cs : list cell) : Prop :=
  spill_slots_ s = c_until <$> cs /\ quad_spill_slots_ s = c_quad <$> cs /\ untagged_spill_slots_ s = c_untagged <$> cs.
(** Quad cells come in pairs. *)
Fixpoint paired (cs : list cell) : Prop :=
  match cs with
  | [] => True
  | c :: cs' =>
      if c_quad c then
        match cs' with
        | [] => False
        | c' :: cs'' => c_quad c' = true /\ c_until c' = c_until c /\ c_untagged c' = c_untagged c /\ paired cs''
        end
      else paired cs'
  end.
Lemma paired_app pre post : paired pre -> paired (pre ++ post) <-> paired post.
Proof.
  remember (length pre) as n eqn:Hn. revert pre Hn. induction n as [n IH] using lt_wf_ind. intros [|c pre] Hn Hp; [done|]. cbn [paired app] in *. destruct (c_quad c).
  - destruct pre as [|c' pre]; [done|]. cbn [app]. destruct Hp as (H1 & H2 & H3 & Hp). rewrite (IH (length pre)); [|cbn in Hn; lia|done|done]. tauto.
  - apply (IH (length pre)); [cbn in Hn; lia|done|done].
Qed.
Lemma paired_single pre c c' post : c_quad c = false -> c_quad c' = false -> paired (pre ++ c :: post) -> paired (pre ++ c' :: post).
Proof.
  intros Hc Hc'. remember (length pre) as n eqn:Hn. revert pre Hn. induction n as [n IH] using lt_wf_ind. intros [|d pre] Hn Hp; cbn [paired app] in *; [by rewrite Hc, Hc' in *|]. destruct (c_quad d).
  - destruct pre as [|d' pre]; cbn [app] in *; [destruct Hp as (E & _); congruence|]. destruct Hp as (H1 & H2 & H3 & Hp). split; [done|]. split; [done|]. split; [done|]. apply (IH (length pre)); [cbn in Hn; lia|done|done].
  - apply (IH (length pre)); [cbn in Hn; lia|done|done].
Qed.
Section Fits.
Context (need_quad need_untagged : bool) (start : Z).
Definition fits (c : cell) : Prop := c_quad c = need_quad /\ c_untagged c = need_untagged /\ c_until c <= start.
(** The first quad cell that fits is the first of its pair. *)
Lemma paired_first pre c post : need_quad = true -> paired (pre ++ c :: post) -> fits c -> (forall d, d ∈ pre -> ~ fits d) ->
  paired pre /\ exists c' post', post = c' :: post' /\ c_quad c' = true /\ c_until c' = c_until c /\ c_untagged c' = c_untagged c /\ paired post'.
Proof using.
  intros Hq. remember (length pre) as n eqn:Hn. revert pre Hn. induction n as [n IH] using lt_wf_ind. intros [|d pre] Hn Hp Hfits Hno; cbn [paired app] in *.
  - destruct Hfits as (E & _). rewrite E, Hq in Hp. split; [done|]. destruct post as [|c' post]; [done|]. exists c', post. tauto.
  - destruct (c_quad d) eqn:Ed.
    + destruct pre as [|d' pre]; cbn [app] in *.
      * destruct Hp as (H1 & H2 & H3 & _). exfalso. apply (Hno d ltac:(by left)). destruct Hfits as (F1 & F2 & F3). split; [congruence|]. split; [congruence|]. lia.
      * destruct Hp as (H1 & H2 & H3 & Hp). destruct (IH (length pre)) with (pre := pre) as [Hpre Hpost]; [cbn in Hn; lia|done|done|done|by intros x Hx; apply Hno; right; right|]. tauto.
    + destruct (IH (length pre)) with (pre := pre) as [Hpre Hpost]; [cbn in Hn; lia|done|done|done|by intros x Hx; apply Hno; right|]. tauto.
Qed.
Lemma find_slot_spec s cs fuel idx : has_cells s cs -> (length cs - idx < fuel)%nat -> exists i, find_slot fuel s need_quad need_untagged start (Z.of_nat idx) = Some (Z.of_nat i) /\ (idx <= i)%nat /\
  (forall j d, (idx <= j < i)%nat -> cs !! j = Some d -> ~ fits d) /\ ((exists c, cs !! i = Some c /\ fits c) \/ (length cs <= i)%nat /\ (i = idx \/ i = length cs)).
Proof using.
  intros (H1 & H2 & H3). revert idx. induction fuel as [|fuel IH]; intros idx Hfuel; [lia|]. cbn [find_slot]. unfold zlen. rewrite H1, length_fmap. destruct (Z.ltb_spec (Z.of_nat idx) (Z.of_nat (length cs))) as [Hlt|Hge].
  - destruct (lookup_lt_is_Some_2 cs idx) as [c Hc]; [lia|]. unfold arr_get. rewrite (proj2 (Z.leb_le _ _)) by lia. rewrite Nat2Z.id, H2, H3, !list_lookup_fmap, Hc. cbn [fmap option_fmap option_map mbind option_bind].
    destruct (Bool.eqb need_quad (c_quad c) && Bool.eqb need_untagged (c_untagged c) && (c_until c <=? start)) eqn:E.
    + exists idx. split; [done|]. split; [lia|]. split; [intros j d Hj; lia|]. left. exists c. split; [done|]. apply andb_true_iff in E as [[E1 E2]%andb_true_iff E3%Z.leb_le]. apply Bool.eqb_prop in E1, E2. done.
    + replace (Z.of_nat idx + 1) with (Z.of_nat (S idx)) by lia. destruct (IH (S idx)) as (i & -> & Hi & Hno & Hor); [lia|]. exists i. split; [done|]. split; [lia|]. split.
      * intros j d Hj Hd (F1 & F2 & F3). destruct (decide (j = idx)) as [->|]; [|apply (Hno j d); [lia|done|done]]. rewrite Hc in Hd. injection Hd as <-. rewrite F1, F2, !Bool.eqb_reflx in E. cbn in E. apply Z.leb_gt in E. lia.
      * destruct Hor as [?|[? [->|?]]]; [by left|right; split; [lia|right; lia]|by right; split; [|right]].
  - exists idx. split; [done|]. split; [lia|]. split; [intros j d Hj; lia|]. right. split; [lia|by left].
Qed.
End Fits.

(** ** Taking a slot *)
Lemma represents_add s cs n until quad untagged : has_cells s cs -> has_cells (add_slots s n until quad untagged) (cs ++ replicate n (MkCell until quad untagged)).
Proof. intros (H1 & H2 & H3). unfold add_slots. split; [|split]; cbn; rewrite fmap_app, fmap_replicate, ?H1, ?H2, ?H3; done. Qed.
Lemma represents_set s cs i c e : has_cells s cs -> cs !! i = Some c -> exists s', set_slot s (Z.of_nat i) e = Some s' /\ has_cells s' (<[i := MkCell e (c_quad c) (c_untagged c)]> cs) /\ cpu_spill_slot_count_ s' = cpu_spill_slot_count_ s.
Proof.
  intros (H1 & H2 & H3) Hc. pose proof (lookup_lt_Some _ _ _ Hc). unfold set_slot, arr_set. rewrite H1, length_fmap, (proj2 (Z.leb_le _ _)), (proj2 (Z.ltb_lt _ _)) by lia. cbn [andb mbind option_bind]. rewrite Nat2Z.id.
  eexists. split; [done|]. split; [|done]. split; [|split]; cbn; rewrite list_fmap_insert; [done|..]; cbn; [rewrite H2|rewrite H3]; symmetry; apply list_insert_id; by rewrite list_lookup_fmap, Hc.
Qed.
Lemma paired_reserved n : paired (replicate n (MkCell kMaxPosition false false)).
Proof. induction n; [done|]. done. Qed.
(** The cells before a slot is taken, extended so that there is one. *)
Definition extended (cs : list cell) (i : nat) (need_quad need_untagged : bool) : list cell :=
  let cs := cs ++ replicate (i - length cs) (MkCell kMaxPosition false false) in
  if (i =? length cs)%nat then cs ++ replicate (if need_quad then 2 else 1) (MkCell 0 need_quad need_untagged) else cs.
Lemma represents_extended s cs i (need_quad need_untagged : bool) : has_cells s cs ->
  let s1 := add_slots s (Z.to_nat (Z.of_nat i - zlen (spill_slots_ s))) kMaxPosition false false in
  has_cells (if Z.of_nat i =? zlen (spill_slots_ s1) then add_slots s1 (if need_quad then 2 else 1) 0 need_quad need_untagged else s1) (extended cs i need_quad need_untagged).
Proof.
  intros Hr s1. assert (Hlen : zlen (spill_slots_ s) = Z.of_nat (length cs)) by (destruct Hr as (-> & _); unfold zlen; by rewrite length_fmap). unfold extended.
  assert (Hr1 : has_cells s1 (cs ++ replicate (i - length cs) (MkCell kMaxPosition false false))) by (subst s1; rewrite Hlen; replace (Z.to_nat (Z.of_nat i - Z.of_nat (length cs))) with (i - length cs)%nat by lia; by apply represents_add).
  assert (Hlen1 : zlen (spill_slots_ s1) = Z.of_nat (length (cs ++ replicate (i - length cs) (MkCell kMaxPosition false false)))) by (destruct Hr1 as (-> & _); unfold zlen; by rewrite length_fmap).
  rewrite Hlen1. destruct (Nat.eqb_spec i (length (cs ++ replicate (i - length cs) (MkCell kMaxPosition false false)))) as [E|N]; [rewrite <- E, Z.eqb_refl; by apply represents_add|]. rewrite (proj2 (Z.eqb_neq _ _)) by lia. done.
Qed.
(** The slot that is found, in the extended cells: a single one or a pair. *)
Lemma extended_shape cs i (need_quad need_untagged : bool) start : paired cs -> (forall j d, (j < i)%nat -> cs !! j = Some d -> need_quad = true -> ~ fits need_quad need_untagged start d) ->
  (exists c, cs !! i = Some c /\ fits need_quad need_untagged start c) \/ (length cs <= i)%nat ->
  exists pre post, extended cs i need_quad need_untagged = pre ++ post /\ length pre = i /\ paired (pre ++ post) /\ (forall w c, cs !! w = Some c -> (pre ++ post) !! w = Some c) /\
    if need_quad then exists c c' post', post = c :: c' :: post' /\ c_quad c = true /\ c_quad c' = true /\ c_untagged c = need_untagged /\ c_untagged c' = need_untagged /\ paired pre /\ paired post' /\
      (forall w d, (w = i \/ w = S i) -> cs !! w = Some d -> fits need_quad need_untagged start d)
    else exists c post', post = c :: post' /\ c_quad c = false /\ c_untagged c = need_untagged /\ (forall d, cs !! i = Some d -> fits need_quad need_untagged start d).
Proof.
  intros Hp Hno [(c & Hc & Hf)|Hlen].
  - pose proof (lookup_lt_Some _ _ _ Hc) as Hlt. assert (Hext : extended cs i need_quad need_untagged = take i cs ++ c :: drop (S i) cs).
    { unfold extended. replace (i - length cs)%nat with 0%nat by lia. cbn. rewrite app_nil_r, (proj2 (Nat.eqb_neq _ _)) by lia. symmetry. by apply take_drop_middle. }
    exists (take i cs), (c :: drop (S i) cs). rewrite Hext, (take_drop_middle _ _ _ Hc). split; [done|]. split; [rewrite length_take; lia|]. split; [done|]. split; [done|]. destruct need_quad.
    + rewrite <- (take_drop_middle _ _ _ Hc) in Hp. destruct (paired_first true need_untagged start (take i cs) c (drop (S i) cs) eq_refl Hp Hf) as (Hpre & c' & post' & Hpost & H1 & H2 & H3 & H4).
      { intros d Hd. apply list_elem_of_lookup in Hd as [j Hj]. apply lookup_take_Some in Hj as [Hj Hji]. by apply (Hno j). }
      exists c, c', post'. destruct Hf as (F1 & F2 & F3). split; [by rewrite Hpost|]. split; [done|]. split; [done|]. split; [done|]. split; [congruence|]. split; [done|]. split; [done|]. intros w d [->| ->] Hd; [rewrite Hc in Hd; by injection Hd as <-|].
      assert (Hd' : drop (S i) cs !! 0%nat = Some d) by (rewrite lookup_drop; by rewrite Nat.add_0_r). rewrite Hpost in Hd'. injection Hd' as <-. split; [done|]. split; [congruence|lia].
    + destruct Hf as (F1 & F2 & F3). exists c, (drop (S i) cs). split; [done|]. split; [done|]. split; [done|]. intros d Hd. rewrite Hc in Hd. by injection Hd as <-.
  - set (pre := cs ++ replicate (i - length cs) (MkCell kMaxPosition false false)). assert (Hpre : paired pre) by (apply paired_app; [done|apply paired_reserved]). assert (Hi : length pre = i) by (unfold pre; rewrite length_app, length_replicate; lia).
    assert (Hext : extended cs i need_quad need_untagged = pre ++ replicate (if need_quad then 2 else 1) (MkCell 0 need_quad need_untagged)) by (unfold extended; fold pre; by rewrite Hi, Nat.eqb_refl).
    exists pre, (replicate (if need_quad then 2 else 1) (MkCell 0 need_quad need_untagged)). split; [done|]. split; [done|]. split; [apply paired_app; [done|]; by destruct need_quad|].
    assert (Hnone : forall w d, (i <= w)%nat -> cs !! w = Some d -> False) by (intros w d Hw Hd; apply lookup_lt_Some in Hd; lia).
    split; [intros w c Hw; unfold pre; rewrite <- app_assoc; by apply lookup_app_l_Some|]. destruct need_quad.
    + eexists _, _, []. split; [done|]. split; [done|]. split; [done|]. split; [done|]. split; [done|]. split; [done|]. split; [done|]. intros w d [->| ->] Hd; exfalso; [apply (Hnone i d)|apply (Hnone (S i) d)]; lia || done.
    + eexists _, []. split; [done|]. split; [done|]. split; [done|]. intros d Hd. exfalso. by apply (Hnone i d).
Qed.

(** ** Who holds which cells *)
Record holder := MkHolder { h_words : list nat; h_quad : bool; h_untagged : bool; h_start : Z; h_end : Z; h_location : Location }.
Fixpoint exclusive (H : list holder) : Prop :=
  match H with
  | [] => True
  | h :: H => (forall h', h' ∈ H -> forall w, w ∈ h_words h -> w ∈ h_words h' -> h_end h' <= h_start h) /\ exclusive H
  end.
Record slots_inv (s : SpillSlots) (cs : list cell) (H : list holder) : Prop := {
  si_represents : has_cells s cs;
  si_paired : paired cs;
  si_held h w : h ∈ H -> w ∈ h_words h -> exists c, cs !! w = Some c /\ h_end h <= c_until c /\ c_quad c = h_quad h /\ c_untagged c = h_untagged h;
  si_exclusive : exclusive H }.
Lemma slots_inv_take s s' cs cs' H h : slots_inv s cs H -> has_cells s' cs' -> paired cs' -> h_start h <= h_end h ->
  (forall w c, w ∈ h_words h -> cs !! w = Some c -> fits (h_quad h) (h_untagged h) (h_start h) c) ->
  (forall w, w ∈ h_words h -> exists c, cs' !! w = Some c /\ c_until c = h_end h /\ c_quad c = h_quad h /\ c_untagged c = h_untagged h) ->
  (forall w c, w ∉ h_words h -> cs !! w = Some c -> cs' !! w = Some c) -> slots_inv s' cs' (h :: H).
Proof.
  intros [Hr Hp Hheld Hex] Hr' Hp' Hse Hold Hnew Hkeep. split; [done|done| |].
  - intros h' w Hin Hw. apply elem_of_cons in Hin as [->|Hin]; [destruct (Hnew w Hw) as (c & Hc & E & EE); exists c; split; [done|]; split; [lia|done]|]. destruct (Hheld h' w Hin Hw) as (c & Hc & Hle & K1 & K2).
    destruct (decide (w ∈ h_words h)) as [Hin'|Hn]; [|exists c; split; [by apply Hkeep|done]]. destruct (Hnew w Hin') as (c' & Hc' & E & E1 & E2). destruct (Hold w c Hin' Hc) as (F1 & F2 & F3). exists c'.
    split; [done|]. split; [lia|]. split; congruence.
  - split; [|done]. intros h' Hin w Hw Hw'. destruct (Hheld h' w Hin Hw') as (c & Hc & Hle & _). destruct (Hold w c Hw Hc) as (_ & _ & Hu). lia.
Qed.
Lemma take_slot_spec s cs H first need_quad need_untagged start end_pos : slots_inv s cs H -> (need_quad = true -> first = 0%nat) -> start <= end_pos ->
  exists i s' cs', take_slot s (Z.of_nat first) need_quad need_untagged start end_pos = Some (if need_quad then Z.of_nat i + 1 else Z.of_nat i, s') /\ (first <= i)%nat /\ cpu_spill_slot_count_ s' = cpu_spill_slot_count_ s /\
    forall loc, slots_inv s' cs' (MkHolder (if need_quad then [i; S i] else [i]) need_quad need_untagged start end_pos loc :: H).
Proof.
  intros Hinv Hfirst Hse. pose proof Hinv as [Hr Hp Hheld Hex]. unfold take_slot. assert (Hlen : length (spill_slots_ s) = length cs) by (destruct Hr as (-> & _); apply length_fmap).
  destruct (find_slot_spec need_quad need_untagged start s cs (S (length (spill_slots_ s))) first Hr) as (i & -> & Hi & Hno & Hor); [lia|]. cbn [mbind option_bind].
  pose proof (represents_extended s cs i need_quad need_untagged Hr) as Hr1. cbn zeta in Hr1. set (s1 := if Z.of_nat i =? _ then _ else _) in *. assert (Hcpu : cpu_spill_slot_count_ s1 = cpu_spill_slot_count_ s) by (subst s1; by destruct (_ =? _)).
  destruct (extended_shape cs i need_quad need_untagged start Hp) as (pre & post & Hext & Hlpre & Hpall & Hold & Hshape).
  { intros j d Hj Hd Hq. apply (Hno j d); [|done]. rewrite (Hfirst Hq). lia. } { destruct Hor as [?|[? _]]; [by left|by right]. }
  rewrite Hext in Hr1. destruct need_quad.
  - destruct Hshape as (c & c' & post' & -> & Q & Q' & Un & Un' & Hpre & Hpost & Hfree).
    assert (Hc : (pre ++ c :: c' :: post') !! i = Some c) by (rewrite <- Hlpre; apply list_lookup_middle; done). destruct (represents_set _ _ i c end_pos Hr1 Hc) as (s2 & -> & Hr2 & Hcpu2). cbn [mbind option_bind].
    set (C1 := MkCell end_pos (c_quad c) (c_untagged c)) in Hr2. assert (Hc' : <[i := C1]> (pre ++ c :: c' :: post') !! S i = Some c').
    { rewrite list_lookup_insert_ne by lia. rewrite <- Hlpre. rewrite lookup_app_r by lia. by replace (S (length pre) - length pre)%nat with 1%nat by lia. }
    replace (Z.of_nat i + 1) with (Z.of_nat (S i)) by lia. destruct (represents_set _ _ (S i) c' end_pos Hr2 Hc') as (s3 & -> & Hr3 & Hcpu3). cbn [mbind option_bind]. set (C2 := MkCell end_pos (c_quad c') (c_untagged c')) in Hr3.
    assert (Hcs : <[S i := C2]> (<[i := C1]> (pre ++ c :: c' :: post')) = pre ++ C1 :: C2 :: post').
    { rewrite <- Hlpre. rewrite (insert_app_r_alt pre _ (length pre)), Nat.sub_diag by lia. rewrite insert_app_r_alt by lia. by replace (S (length pre) - length pre)%nat with 1%nat by lia. }
    rewrite Hcs in Hr3. exists i, s3, (pre ++ C1 :: C2 :: post'). split; [do 2 f_equal; lia|]. split; [done|]. split; [congruence|]. intros loc. apply (slots_inv_take s s3 cs); try done; cbn.
    + apply paired_app; [done|]. cbn. rewrite Q, Q'. split; [done|]. split; [done|]. split; [congruence|done].
    + intros w d Hw. apply Hfree. apply elem_of_cons in Hw as [->|Hw]; [by left|]. apply list_elem_of_singleton in Hw as ->. by right.
    + intros w Hw. rewrite <- Hlpre in Hw. apply elem_of_cons in Hw as [->|Hw]; [exists C1; split; [by apply list_lookup_middle|by subst C1]|]. apply list_elem_of_singleton in Hw as ->. exists C2. split; [|by subst C2].
      rewrite lookup_app_r by lia. by replace (S (length pre) - length pre)%nat with 1%nat by lia.
    + intros w d Hw Hd. apply Hold in Hd. rewrite <- Hcs, !list_lookup_insert_ne; [done|..]; intros <-; apply Hw; first [by left|right; by left].
  - destruct Hshape as (c & post' & -> & Q & Un & Hfree). assert (Hc : (pre ++ c :: post') !! i = Some c) by (rewrite <- Hlpre; by apply list_lookup_middle). destruct (represents_set _ _ i c end_pos Hr1 Hc) as (s2 & -> & Hr2 & Hcpu2). cbn [mbind option_bind].
    set (C1 := MkCell end_pos (c_quad c) (c_untagged c)) in Hr2. exists i, s2, (<[i := C1]> (pre ++ c :: post')). split; [done|]. split; [done|]. split; [congruence|]. intros loc. apply (slots_inv_take s s2 cs); try done; cbn.
    + rewrite <- Hlpre, insert_app_r_alt, Nat.sub_diag by lia. by apply (paired_single pre c).
    + intros w d Hw. apply list_elem_of_singleton in Hw as ->. apply Hfree.
    + intros w Hw. apply list_elem_of_singleton in Hw as ->. exists C1. split; [|by subst C1]. apply list_lookup_insert_eq. by eapply lookup_lt_Some.
    + intros w d Hw Hd. rewrite list_lookup_insert_ne by (intros ->; apply Hw; by left). by apply Hold.
Qed.

(** ** The frame *)
(** The words of the frame that a location stands for. *)
Definition words_of (l : Location) : list Z :=
  match l with StackSlot i _ | DoubleStackSlot i _ => [i] | QuadStackSlot i _ => [i; i + 1] | _ => [] end.
Section Frame.
Context (g : Graph).
Definition frame_word (kind : RegisterKind) (s : SpillSlots) (w : nat) : Z :=
  first_local_from_fp (frame_layout g) - (match kind with kRegister => 0 | kFpuRegister => cpu_spill_slot_count_ s end + Z.of_nat w).
Definition placed (kind : RegisterKind) (s : SpillSlots) (h : holder) : Prop := forall x, x ∈ words_of (h_location h) <-> exists w, w ∈ h_words h /\ x = frame_word kind s w.
Record spill_inv (A : Allocator) (cs : list cell) (H : list holder) : Prop := {
  sv_slots : slots_inv (spills_ A) cs H;
  sv_placed h : h ∈ H -> placed (register_kind_ (file_ A)) (spills_ A) h;
  sv_frame : 0 <= cpu_spill_slot_count_ (spills_ A) /\ 0 <= fixed_slot_count g }.
Lemma frame_word_inj kind s w w' : frame_word kind s w = frame_word kind s w' -> w = w'.
Proof using. unfold frame_word. lia. Qed.
Lemma spill_location_placed kind s rep i need_untagged start end_pos : 0 <= cpu_spill_slot_count_ s ->
  let need_quad := (match kind with kFpuRegister => true | kRegister => false end) && is_quad rep in
  placed kind s (MkHolder (if need_quad then [i; S i] else [i]) need_quad need_untagged start end_pos (spill_location g kind s rep (if need_quad then Z.of_nat i + 1 else Z.of_nat i))).
Proof using.
  intros Hcpu need_quad x. subst need_quad. unfold spill_location, FrameSlotForVariableIndex, frame_word, kDoubleSpillFactor. change (8 / kWordSize) with 1. destruct kind; cbn [andb h_location h_words].
  - rewrite (proj2 (Z.leb_le _ _)) by lia. cbn [words_of]. rewrite list_elem_of_singleton. split; [intros ->; exists i; split; [by left|lia]|]. intros (w & Hw & ->). apply list_elem_of_singleton in Hw as ->. lia.
  - destruct (is_quad rep); rewrite (proj2 (Z.leb_le _ _)) by lia; cbn [words_of].
    + rewrite elem_of_cons, list_elem_of_singleton. split; [intros [->| ->]; [exists (S i); split; [right; by left|lia]|exists i; split; [by left|lia]]|]. intros (w & Hw & ->). apply elem_of_cons in Hw as [->|Hw]; [right; lia|]. apply list_elem_of_singleton in Hw as ->. left. lia.
    + rewrite list_elem_of_singleton. split; [intros ->; exists i; split; [by left|lia]|]. intros (w & Hw & ->). apply list_elem_of_singleton in Hw as ->. lia.
Qed.
Lemma last_sibling_spec m r x ns : seg next_sibling_ m r 0 ((r, x) :: ns) -> NoDup (r :: ns.*1) -> exists y, last_sibling (S (size m)) m r = Some (last_id ((r, x) :: ns) 0) /\ m !! last_id ((r, x) :: ns) 0 = Some y.
Proof using.
  intros Hs Hnd. pose proof (seg_size _ _ _ _ _ Hs Hnd) as Hsize. revert Hs Hsize. clear Hnd. generalize (size m) as n. intros n. revert r x ns. induction n as [|n IH]; intros r x ns Hs Hn; [cbn in Hn; lia|].
  cbn [last_sibling]. pose proof Hs as (_ & Hr0 & Hx & Hs'). rewrite Hx. cbn [mbind option_bind]. destruct (Z.eqb_spec (next_sibling_ x) 0) as [E|E].
  - rewrite E in Hs'. apply seg_null in Hs' as ->. by exists x.
  - destruct (seg_nonnull _ _ _ _ Hs' E) as (y & ns' & -> & Hy & _). destruct (IH _ y ns' Hs') as (z & Hz & Hlast); [cbn in *; lia|]. exists z. rewrite last_id_cons. rewrite last_id_cons in Hz, Hlast. rewrite last_id_cons. done.
Qed.
End Frame.

(** C14: [AllocateSpillSlotFor] succeeds on a range with its siblings and
    gives it a place in the frame that no other spilled value uses while the range and its siblings
    live: places of values with overlapping lifetimes have no word in common,
    also for quad values, which take two words. Tagged and untagged values, and
    double and quad values, never use the same word, and the words reserved for catch entries
    stay free. *)
Theorem AllocateSpillSlotFor_exclusive g A cs H r range ns last_range start end_pos : spill_inv g A cs H -> ranges (objects_ A) !! r = Some range ->
  seg next_sibling_ (ranges (objects_ A)) r 0 ((r, range) :: ns) -> NoDup (r :: ns.*1) -> ranges (objects_ A) !! last_id ((r, range) :: ns) 0 = Some last_range ->
  Range_Start (objects_ A) range = Some start -> Range_End (objects_ A) last_range = Some end_pos -> start <= end_pos ->
  exists A' cs' h, AllocateSpillSlotFor g A r = Some A' /\ spill_inv g A' cs' (h :: H) /\ h_start h = start /\ h_end h = end_pos /\
    (exists range', ranges (objects_ A') !! r = Some range' /\ spill_slot_ range' = h_location h) /\
    (forall h' x, h' ∈ H -> h_start h < h_end h' -> x ∈ words_of (h_location h) -> x ∉ words_of (h_location h')) /\
    (forall h' x, h' ∈ H -> x ∈ words_of (h_location h) -> x ∈ words_of (h_location h') -> h_quad h' = h_quad h /\ h_untagged h' = h_untagged h) /\
    h_untagged h = (match register_kind_ (file_ A) with kRegister => bool_decide (representation_ range = kUntagged) | kFpuRegister => false end) /\
    (register_kind_ (file_ A) = kRegister -> forall x, x ∈ words_of (h_location h) -> x <= first_local_from_fp (frame_layout g) - fixed_slot_count g).
Proof.
  intros Hinv Hr Hseg Hnd Hlast Hs He Hse. destruct Hinv as [Hsl Hpl [Hcpu Hfix]]. unfold AllocateSpillSlotFor. rewrite Hr. cbn [mbind option_bind].
  destruct (last_sibling_spec (ranges (objects_ A)) r range ns Hseg Hnd) as (y & -> & _). cbn [mbind option_bind]. rewrite Hlast. cbn [mbind option_bind]. rewrite Hs, He. cbn [mbind option_bind].
  set (kind := register_kind_ (file_ A)) in *. set (is_fpu := match kind with kFpuRegister => true | kRegister => false end). set (need_quad := is_fpu && _). set (need_untagged := negb is_fpu && _).
  set (first := if is_fpu then 0%nat else Z.to_nat (fixed_slot_count g)). assert (Hfirst : (if is_fpu then 0 else fixed_slot_count g) = Z.of_nat first) by (subst first; destruct is_fpu; lia). rewrite Hfirst.
  destruct (take_slot_spec (spills_ A) cs H first need_quad need_untagged start end_pos Hsl) as (i & s' & cs' & -> & Hi & Hcpu' & Hinv').
  { subst need_quad first. by destruct is_fpu. } { done. }
  cbn [mbind option_bind]. set (loc := spill_location _ _ _ _ _). exists (MkAllocator (file_ A) (put_range (objects_ A) r (set_spill_slot range loc)) (summaries_ A) (live_ranges_ A) (registers_ A) (unallocated_ A) s' (spilled_ A ++ [r])), cs'.
  set (h := MkHolder (if need_quad then [i; S i] else [i]) need_quad need_untagged start end_pos loc). exists h.
  assert (Hplaced : placed g kind s' h) by (apply spill_location_placed; lia). assert (Hold : forall h', h' ∈ H -> placed g kind s' h').
  { intros h' Hin x. rewrite (Hpl h' Hin x). unfold frame_word. by rewrite Hcpu'. }
  split; [done|]. split; [split; [apply Hinv'|intros h' [->|Hin]%elem_of_cons; [done|by apply Hold]|cbn; lia]|]. split; [done|]. split; [done|]. split; [eexists; split; [apply lookup_insert_eq|done]|]. split; [|split; [|split]].
  - intros h' x Hin Hlt Hx Hx'. apply Hplaced in Hx as (w & Hw & ->). apply (Hold h' Hin) in Hx' as (w' & Hw' & E). apply frame_word_inj in E as <-.
    destruct (si_exclusive _ _ _ (Hinv' loc)) as [Hex _]. specialize (Hex h' Hin w Hw Hw'). cbn in Hex, Hlt. lia.
  - intros h' x Hin Hx Hx'. apply Hplaced in Hx as (w & Hw & ->). apply (Hold h' Hin) in Hx' as (w' & Hw' & E). apply frame_word_inj in E as <-.
    destruct (si_held _ _ _ (Hinv' loc) h w ltac:(by left) Hw) as (d & Hd & _ & Q1 & Q2), (si_held _ _ _ (Hinv' loc) h' w ltac:(by right) Hw') as (d' & Hd' & _ & Q3 & Q4). rewrite Hd in Hd'. injection Hd' as <-. split; congruence.
  - subst h need_untagged is_fpu. cbn. by destruct kind.
  - intros Hk x Hx. apply Hplaced in Hx as (w & Hw & ->). unfold frame_word. rewrite Hk. assert (Hiw : (i <= w)%nat) by (cbn [h_words h] in Hw; destruct need_quad; [apply elem_of_cons in Hw as [->|Hw]; [lia|]|]; apply list_elem_of_singleton in Hw as ->; lia).
    subst first is_fpu. rewrite Hk in Hi. lia.
Qed.
(** A frame with one word for a catch entry, and one that is taken until 15. *)
Definition spill_graph : Graph := MkGraph [] [] [] 1 [kTagged] (MkLayout (-3) 1) false.
Definition spill_cells : list cell := [MkCell kMaxPosition false false; MkCell 15 false false].
Definition spill_allocator : Allocator :=
  MkAllocator (MkFile kRegister 1 [false]) sample_objects ∅ [5] [[]] [] (MkSpills [kMaxPosition; 15] [false; false] [false; false] 0) [].
Definition spill_holder : holder := MkHolder [1%nat] false false 2 15 (StackSlot (-4) FPREG).
Lemma spill_sample : spill_inv spill_graph spill_allocator spill_cells [spill_holder].
Proof.
  split; [split; [done|done| |]|..].
  - intros h w Hh Hw. apply list_elem_of_singleton in Hh as ->. apply list_elem_of_singleton in Hw as ->. eexists. split; [reflexivity|]. split; [cbn; lia|done].
  - split; [|done]. intros h' Hh'. by apply not_elem_of_nil in Hh'.
  - intros h Hh. apply list_elem_of_singleton in Hh as ->. intros x. cbn. rewrite list_elem_of_singleton. split; [intros ->; exists 1%nat; split; [by left|done]|]. intros (w & Hw & ->). by apply list_elem_of_singleton in Hw as ->.
  - cbn. lia.
Qed.
Lemma AllocateSpillSlotFor_exclusive_witness : exists A' cs' h, AllocateSpillSlotFor spill_graph spill_allocator 5 = Some A' /\ spill_inv spill_graph A' cs' [h; spill_holder] /\
  forall x, x ∈ words_of (h_location h) -> x <> -4.
Proof.
  destruct (AllocateSpillSlotFor_exclusive spill_graph spill_allocator spill_cells [spill_holder] 5 sample_range [] sample_range 10 40) as (A' & cs' & h & H1 & H2 & H3 & _ & _ & H4 & _).
  - exact spill_sample.
  - reflexivity.
  - split; [done|]. split; [done|]. split; reflexivity.
  - apply NoDup_singleton.
  - reflexivity.
  - reflexivity.
  - reflexivity.
  - lia.
  - exists A', cs', h. split; [exact H1|]. split; [exact H2|]. intros x Hx ->. apply (H4 spill_holder (-4)); [by left|rewrite H3; cbn; lia|exact Hx|by left].
Defined.
