(* ===== verification/RegisterSafety.v ===== *)
(** * What the linear scan keeps
    (src/runtime/vm/compiler/backend/linearscan.cc)

    The invariant of the scan: which ranges there are, in which state each of
    them is, and that ranges with the same register are never live at the same position. It is
    kept by advancing the active ranges and by [AllocateFreeRegister]. *)
From Stdlib Require Import Sorted.
From S2P Require Import Prelude Bitmap ParallelMove LiveRange LinearScan.
From stdpp Require Import base gmap fin_maps list sorting sets.
Local Open Scope Z_scope.

(** ** The ranges and what they consist of *)
Record range_contents := MkContents { c_intervals : nodes; c_uses : use_nodes; c_safepoints : list (Z * SafepointPosition) }.
Abbreviation holds st r range c := (range_wf st r range (c_intervals c) (c_uses c) (c_safepoints c)).
Definition separate {A} (f : range_contents -> list (Z * A)) (c1 c2 : range_contents) : Prop := forall a, a ∈ (f c1).*1 -> a ∉ (f c2).*1.
Record world (st : Objects) (W : gmap Z range_contents) : Prop := {
  w_wf r c : W !! r = Some c -> exists range, holds st r range c;
  w_null : W !! 0 = None;
  w_separate r1 r2 c1 c2 : W !! r1 = Some c1 -> W !! r2 = Some c2 -> r1 <> r2 ->
    separate c_intervals c1 c2 /\ separate c_uses c1 c2 /\ separate c_safepoints c1 c2;
  w_live r c : W !! r = Some c -> c_intervals c <> [];
  w_bound r c pos : W !! r = Some c -> live_at (c_intervals c) pos -> pos < kMaxPosition;
  w_slots a u : positions st !! a = Some u -> is_Some (slots st !! location_slot_ u) /\ (hint_ u = 0 \/ is_Some (hint_target st (hint_ u)));
  w_distinct a b u v : positions st !! a = Some u -> positions st !! b = Some v -> location_slot_ u = location_slot_ v -> a = b }.

(** Fields of a range that do not say what it consists of. *)
Definition same_links (range range' : LiveRange) : Prop :=
  uses_ range' = uses_ range /\ first_use_interval_ range' = first_use_interval_ range /\ last_use_interval_ range' = last_use_interval_ range /\
  first_safepoint_ range' = first_safepoint_ range /\ vreg_ range' = vreg_ range.
Lemma range_wf_frame st st' r range range' c : holds st r range c -> ranges st' !! r = Some range' -> same_links range range' ->
  (forall a n, intervals st !! a = Some n -> a ∈ (c_intervals c).*1 -> intervals st' !! a = Some n) ->
  (forall a, a ∈ (c_uses c).*1 -> positions st' !! a = positions st !! a) ->
  (forall a, a ∈ (c_safepoints c).*1 -> safepoints st' !! a = safepoints st !! a) -> holds st' r range' c.
Proof.
  intros [] Hr (E1 & E2 & E3 & E4 & _) Hi Hu Hs. split; rewrite ?E1, ?E2, ?E3, ?E4; try done.
  - apply (seg_agree interval_next (intervals st)); [done|]. intros a Ha. pose proof Ha as Ha'. apply list_elem_of_fmap in Ha' as ([b n] & -> & Hin). cbn in *.
    destruct (seg_lookup _ _ _ _ _ _ _ rw_intervals Hin) as [Hn _]. rewrite Hn. by apply Hi.
  - by apply (seg_agree use_next (positions st)).
  - by apply (seg_agree safepoint_next (safepoints st)).
Qed.
(** The store changes in fields of ranges and in the contents of slots. *)
Record only_fields (st st' : Objects) : Prop := {
  of_intervals : intervals st' = intervals st;
  of_positions : positions st' = positions st;
  of_safepoints : safepoints st' = safepoints st;
  of_slots a : is_Some (slots st !! a) -> is_Some (slots st' !! a);
  of_ranges r range : ranges st !! r = Some range -> exists range', ranges st' !! r = Some range' /\ same_links range range' }.
#[export] Instance only_fields_refl : Reflexive only_fields.
Proof. intros st. split; try done. intros r range Hr. by exists range. Qed.
#[export] Instance only_fields_trans : Transitive only_fields.
Proof.
  intros a b c [] []. split; try congruence; [auto|]. intros r range Hr. destruct (of_ranges0 _ _ Hr) as (range' & Hr' & Hl). destruct (of_ranges1 _ _ Hr') as (range'' & Hr'' & Hl').
  exists range''. split; [done|]. unfold same_links in *. intuition congruence.
Qed.
Lemma only_fields_hint st st' h : only_fields st st' -> is_Some (hint_target st h) -> is_Some (hint_target st' h).
Proof.
  intros [] [x Hx]. unfold hint_target in *. destruct (h <? 0); [|apply of_slots0; by exists x]. destruct (ranges st !! (- h)) as [range|] eqn:E; [|done].
  destruct (of_ranges0 _ _ E) as (range' & -> & _). by eexists.
Qed.
Lemma only_fields_wf st st' r range c : only_fields st st' -> holds st r range c -> exists range', holds st' r range' c /\ same_links range range'.
Proof.
  intros Hof Hwf. destruct (of_ranges _ _ Hof _ _ (rw_range _ _ _ _ _ _ Hwf)) as (range' & Hr & Hl). exists range'. split; [|done]. destruct Hof.
  apply (range_wf_frame st st' r range); try done; [by intros a n Ha _; rewrite of_intervals0|by intros a _; rewrite of_positions0|by intros a _; rewrite of_safepoints0].
Qed.
Lemma only_fields_world st st' W : only_fields st st' -> world st W -> world st' W.
Proof.
  intros Hof Hw. split; try apply Hw.
  - intros r c Hc. destruct (w_wf _ _ Hw r c Hc) as [range Hwf]. destruct (only_fields_wf _ _ _ _ _ Hof Hwf) as (range' & Hwf' & _). by exists range'.
  - intros a u Hu. rewrite (of_positions _ _ Hof) in Hu. destruct (w_slots _ _ Hw a u Hu) as [Hs Hh]. split; [by apply Hof|]. destruct Hh as [Hh|Hh]; [by left|right; by eapply only_fields_hint].
  - intros a b u v. rewrite (of_positions _ _ Hof). apply (w_distinct _ _ Hw).
Qed.
Lemma only_fields_put st r range range' : ranges st !! r = Some range -> same_links range range' -> only_fields st (put_range st r range').
Proof.
  intros Hr Hl. split; try done. intros b x Hb. cbn. destruct (decide (b = r)) as [->|Hne].
  - rewrite lookup_insert_eq. exists range'. split; [done|]. congruence.
  - rewrite lookup_insert_ne by done. by exists x.
Qed.

(** ** Splitting a range of the world *)
Lemma relinked {P} `{PositionLaws P} (m m' : gmap Z P) (l l' : list (Z * P)) : (forall a, a ∉ l.*1 -> m' !! a = m !! a) -> unlinked <$> l' = unlinked <$> l ->
  (forall a n, (a, n) ∈ l' -> m' !! a = Some n) -> (forall a n, (a, n) ∈ l -> m !! a = Some n) ->
  forall a n', m' !! a = Some n' -> exists n, m !! a = Some n /\ pt_set_next n 0 = pt_set_next n' 0.
Proof.
  intros Hframe Heq Hm' Hm a n' Ha. destruct (decide (a ∈ l.*1)) as [Hin|Hnot]; [|exists n'; rewrite <- Hframe; done].
  rewrite <- (unlinked_ids l), <- Heq, unlinked_ids in Hin. apply list_elem_of_fmap in Hin as ([b x] & -> & Hin). cbn in *. rewrite (Hm' _ _ Hin) in Ha. injection Ha as ->.
  assert (Hu : unlinked (b, n') ∈ unlinked <$> l) by (rewrite <- Heq; by apply list_elem_of_fmap_2). apply list_elem_of_fmap in Hu as ([b' x] & E & Hx). unfold unlinked in E. cbn in E. injection E as -> E.
  exists x. split; [by apply Hm|done].
Qed.
Lemma unlinked_mem {P} `{PositionLaws P} (l1 l2 l : list (Z * P)) a : unlinked <$> (l1 ++ l2) = unlinked <$> l -> a ∈ l.*1 <-> a ∈ l1.*1 \/ a ∈ l2.*1.
Proof. intros Heq. rewrite <- (unlinked_ids l), <- Heq, unlinked_ids, fmap_app. apply elem_of_app. Qed.

Record split_world (st st' : Objects) (W : gmap Z range_contents) (r sibling split_pos : Z) (c c1 c2 : range_contents) (range range' range2 : LiveRange) : Prop := {
  sp_fresh : W !! sibling = None;
  sp_other : sibling <> r;
  sp_world : world st' (<[sibling := c2]> (<[r := c1]> W));
  sp_slots : slots st' = slots st;
  sp_range : ranges st' !! r = Some range';
  sp_sibling : ranges st' !! sibling = Some range2;
  sp_ranges b : b <> r -> b <> sibling -> ranges st' !! b = ranges st !! b;
  sp_new : ranges st !! sibling = None;
  sp_intervals b n : intervals st !! b = Some n -> b ∉ (c_intervals c).*1 -> intervals st' !! b = Some n;
  sp_vreg : vreg_ range' = vreg_ range /\ vreg_ range2 = vreg_ range;
  sp_location : assigned_location_ range' = assigned_location_ range /\ assigned_location_ range2 = NoLocation;
  sp_first : first_use_interval_ range' = first_use_interval_ range;
  sp_pending : first_pending_use_interval_ (finger_ range') =
    first_pending_use_interval_ (if first_pending_use_interval_ (finger_ range) =? 0 then Finger_Initialize range else finger_ range);
  sp_finger_uses : (first_register_use_ (finger_ range') = 0 \/ first_register_use_ (finger_ range') ∈ (c_uses c1).*1) /\
    (first_register_beneficial_use_ (finger_ range') = 0 \/ first_register_beneficial_use_ (finger_ range') ∈ (c_uses c1).*1);
  sp_live1 pos : live_at (c_intervals c1) pos <-> live_at (c_intervals c) pos /\ pos < split_pos;
  sp_live2 pos : live_at (c_intervals c2) pos <-> live_at (c_intervals c) pos /\ split_pos <= pos;
  sp_uses a u : positions st' !! a = Some u -> exists u0, positions st !! a = Some u0 /\ location_slot_ u0 = location_slot_ u /\ hint_ u0 = hint_ u;
  sp_safepoints a s : safepoints st' !! a = Some s -> exists s0, safepoints st !! a = Some s0 /\ locs_ s0 = locs_ s;
  sp_parts_uses : unlinked <$> (c_uses c1 ++ c_uses c2) = unlinked <$> c_uses c;
  sp_parts_safepoints : unlinked <$> (c_safepoints c1 ++ c_safepoints c2) = unlinked <$> c_safepoints c }.

Section Split.
Context (st : Objects) (W : gmap Z range_contents) (r : Z) (c : range_contents) (range : LiveRange) (split_pos : Z) (i0 : UseInterval).
Context (Hw : world st W) (Hc : W !! r = Some c) (Hr : ranges st !! r = Some range) (Hf : finger_wf range (c_intervals c) (c_uses c)).
Context (Hi0 : intervals st !! first_use_interval_ range = Some i0) (Hstart : start_ i0 < split_pos).
Context (Hend : exists q, live_at (c_intervals c) q /\ split_pos <= q).

Lemma separate_sym {A} (f : range_contents -> list (Z * A)) x y : separate f x y -> separate f y x.
Proof using. intros H a Ha Hb. by apply (H a). Qed.
Lemma separate_insert2 {A} (f : range_contents -> list (Z * A)) sibling c1 c2 : W !! sibling = None ->
  (forall o co, W !! o = Some co -> o <> r -> separate f c1 co /\ separate f c2 co) -> separate f c1 c2 ->
  (forall r1 r2 x y, W !! r1 = Some x -> W !! r2 = Some y -> r1 <> r2 -> separate f x y) ->
  forall r1 r2 x y, <[sibling := c2]> (<[r := c1]> W) !! r1 = Some x -> <[sibling := c2]> (<[r := c1]> W) !! r2 = Some y -> r1 <> r2 -> separate f x y.
Proof using.
  intros Hs Ho H12 Hold r1 r2 x y H1 H2 Hne. rewrite !lookup_insert_Some in H1, H2.
  destruct H1 as [[<- <-]|[N1 [[<- <-]|[M1 H1]]]], H2 as [[<- <-]|[N2 [[<- <-]|[M2 H2]]]]; try done.
  - by apply separate_sym.
  - by apply (Ho r2 y).
  - by apply (Ho r2 y).
  - apply separate_sym. by apply (Ho r1 x).
  - apply separate_sym. by apply (Ho r1 x).
  - by apply (Hold r1 r2).
Qed.
(** Parts of [c]'s objects, or new ones, are not another range's. *)
Lemma separate_part {A} (f : range_contents -> list (Z * A)) (m : gmap Z A) c1 : (forall o co a, W !! o = Some co -> a ∈ (f co).*1 -> is_Some (m !! a)) ->
  (forall r1 r2 x y, W !! r1 = Some x -> W !! r2 = Some y -> r1 <> r2 -> separate f x y) -> (forall a, a ∈ (f c1).*1 -> a ∈ (f c).*1 \/ m !! a = None) ->
  forall o co, W !! o = Some co -> o <> r -> separate f c1 co.
Proof using Hc.
  intros Hm Hold Hsub o co Ho Hne a Ha Hin. destruct (Hsub a Ha) as [Ha'|Hn]; [|destruct (Hm _ _ _ Ho Hin); congruence]. by apply (Hold r o c co Hc Ho (not_eq_sym Hne) a).
Qed.
Lemma seg_ids {A} (next : A -> Z) m p q ns a : seg next m p q ns -> a ∈ ns.*1 -> is_Some (m !! a).
Proof using. intros Hs ([b n] & -> & Hin)%list_elem_of_fmap. exists n. by apply (seg_lookup _ _ _ _ _ _ _ Hs Hin). Qed.
Lemma w_ids o co : W !! o = Some co -> (forall a, a ∈ (c_intervals co).*1 -> is_Some (intervals st !! a)) /\ (forall a, a ∈ (c_uses co).*1 -> is_Some (positions st !! a)) /\
  (forall a, a ∈ (c_safepoints co).*1 -> is_Some (safepoints st !! a)).
Proof using Hw. intros Ho. destruct (w_wf _ _ Hw o co Ho) as [y []]. split; [|split]; intros a; by eapply seg_ids. Qed.
Lemma relinked_separate {P} `{PositionLaws P} (f : range_contents -> list (Z * P)) c1 c2 : NoDup (f c).*1 -> unlinked <$> (f c1 ++ f c2) = unlinked <$> f c -> separate f c1 c2.
Proof using.
  intros Hnd E a H1 H2. rewrite <- (unlinked_ids (f c)), <- E, unlinked_ids, fmap_app in Hnd. apply NoDup_app in Hnd as (_ & Hd & _). by apply (Hd a).
Qed.
Lemma split_separate st' sibling range' range2 c1 c2 : holds st r range c -> holds st' r range' c1 -> holds st' sibling range2 c2 -> W !! sibling = None ->
  (forall a, a ∈ (c_intervals c1).*1 -> a ∈ (c_intervals c).*1) -> (forall a, a ∈ (c_intervals c2).*1 -> a ∈ (c_intervals c).*1 \/ intervals st !! a = None) ->
  (forall pos, live_at (c_intervals c1) pos -> pos < split_pos) -> (forall pos, live_at (c_intervals c2) pos -> split_pos <= pos) ->
  unlinked <$> (c_uses c1 ++ c_uses c2) = unlinked <$> c_uses c -> unlinked <$> (c_safepoints c1 ++ c_safepoints c2) = unlinked <$> c_safepoints c ->
  forall r1 r2 x y, <[sibling := c2]> (<[r := c1]> W) !! r1 = Some x -> <[sibling := c2]> (<[r := c1]> W) !! r2 = Some y -> r1 <> r2 ->
  separate c_intervals x y /\ separate c_uses x y /\ separate c_safepoints x y.
Proof using Hw Hc.
  intros Hwf Hwf1 Hwf2 HsW Hid1 Hid2 L1 L2 EU ES r1 r2 x y H1 H2 Hne. pose proof (w_separate _ _ Hw) as Hold.
  split; [|split]; revert r1 r2 x y H1 H2 Hne; (apply separate_insert2; [done| | |by intros; eapply Hold]).
  - intros o co Ho Hne. split; apply (separate_part c_intervals (intervals st)) with (o := o); try done; [intros ? ? ? H; apply (w_ids _ _ H)|by intros; eapply Hold|auto|intros ? ? ? H; apply (w_ids _ _ H)|by intros; eapply Hold].
  - intros a H1 H2. apply list_elem_of_fmap in H1 as ([b n] & -> & H1), H2 as ([b' n'] & E & H2). cbn in E. subst b'.
    destruct (seg_lookup _ _ _ _ _ _ _ (rw_intervals _ _ _ _ _ _ Hwf1) H1) as [M1 _], (seg_lookup _ _ _ _ _ _ _ (rw_intervals _ _ _ _ _ _ Hwf2) H2) as [M2 _]. assert (n' = n) as -> by congruence.
    pose proof (in_order_elem _ _ _ (rw_order _ _ _ _ _ _ Hwf1) H1) as Hb. cbn in Hb.
    assert (start_ n < split_pos) by (apply L1; exists b, n; split; [done|lia]). assert (split_pos <= start_ n) by (apply L2; exists b, n; split; [done|lia]). lia.
  - intros o co Ho Hne. split; (apply (separate_part c_uses (positions st)) with (o := o); try done; [intros ? ? ? H; apply (w_ids _ _ H)|by intros; eapply Hold|intros a Ha; left; apply (unlinked_mem _ _ _ a EU); auto]).
  - apply relinked_separate; [apply Hwf|done].
  - intros o co Ho Hne. split; (apply (separate_part c_safepoints (safepoints st)) with (o := o); try done; [intros ? ? ? H; apply (w_ids _ _ H)|by intros; eapply Hold|intros a Ha; left; apply (unlinked_mem _ _ _ a ES); auto]).
  - apply relinked_separate; [apply Hwf|done].
Qed.
Lemma first_live : live_at (c_intervals c) (start_ i0).
Proof using All.
  destruct (w_wf _ _ Hw r c Hc) as [x []]. assert (x = range) as -> by congruence. pose proof (w_live _ _ Hw r c Hc). destruct (c_intervals c) as [|[a i] l]; [done|].
  destruct rw_intervals as (E & _ & Hi & _). rewrite E, Hi in Hi0. injection Hi0 as ->. apply live_at_cons. left. cbn in rw_order. lia.
Qed.
Lemma world_split : exists sibling st' c1 c2 range' range2, SplitAt st r split_pos = Some (sibling, st') /\ split_world st st' W r sibling split_pos c c1 c2 range range' range2.
Proof using All.
  destruct (w_wf _ _ Hw r c Hc) as [x Hwf]. pose proof (rw_range _ _ _ _ _ _ Hwf) as Hx. rewrite Hr in Hx. injection Hx as <-.
  destruct (SplitAt_spec st r range _ _ _ split_pos Hwf Hf i0 Hi0 Hstart Hend) as (sibling & st' & Hsplit & Hres).
  destruct Hres as (range' & range2 & I1 & I2 & U1 & U2 & S1 & S2 & Hfr & Hs0 & Hsl & Hwf1 & Hwf2 & Hn1 & Hn2 & Hv2 & Hv1 & Hl1 & Hl2 & Hfi & Hpe & Hu1 & Hu2 & Hid1 & Hid2 & L1 & L2 & EU & BU1 & BU2 & ES & BS1 & BS2 & FI & FU & FS & FR0).
  assert (FR : forall b x, ranges st !! b = Some x -> b <> r -> ranges st' !! b = Some x) by (intros b x Hb Hne; rewrite FR0; [done|done|congruence]).
  assert (Hsr : sibling <> r) by (intros ->; congruence).
  assert (HsW : W !! sibling = None).
  { destruct (W !! sibling) as [d|] eqn:E; [|done]. destruct (w_wf _ _ Hw _ _ E) as [y Hy]. pose proof (rw_range _ _ _ _ _ _ Hy). congruence. }
  assert (HU : forall a u, positions st' !! a = Some u -> exists u0, positions st !! a = Some u0 /\ location_slot_ u0 = location_slot_ u /\ hint_ u0 = hint_ u).
  { intros a u Ha. destruct (relinked (positions st) (positions st') (c_uses c) (U1 ++ U2) FU EU) with (a := a) (n' := u) as (u0 & H0 & E); [| |done|].
    - intros b n [Hin|Hin]%elem_of_app; [by apply (seg_lookup _ _ _ _ _ _ _ (rw_uses _ _ _ _ _ _ Hwf1))|by apply (seg_lookup _ _ _ _ _ _ _ (rw_uses _ _ _ _ _ _ Hwf2))].
    - intros b n Hin. by apply (seg_lookup _ _ _ _ _ _ _ (rw_uses _ _ _ _ _ _ Hwf)).
    - exists u0. split; [done|]. cbn in E. by injection E as _ -> ->. }
  assert (HS : forall a s, safepoints st' !! a = Some s -> exists s0, safepoints st !! a = Some s0 /\ locs_ s0 = locs_ s).
  { intros a s Ha. destruct (relinked (safepoints st) (safepoints st') (c_safepoints c) (S1 ++ S2) FS ES) with (a := a) (n' := s) as (s0 & H0 & E); [| |done|].
    - intros b n [Hin|Hin]%elem_of_app; [by apply (seg_lookup _ _ _ _ _ _ _ (rw_safepoints _ _ _ _ _ _ Hwf1))|by apply (seg_lookup _ _ _ _ _ _ _ (rw_safepoints _ _ _ _ _ _ Hwf2))].
    - intros b n Hin. by apply (seg_lookup _ _ _ _ _ _ _ (rw_safepoints _ _ _ _ _ _ Hwf)).
    - exists s0. split; [done|]. cbn in E. by injection E as _ ->. }
  exists sibling, st', (MkContents I1 U1 S1), (MkContents I2 U2 S2), range', range2. split; [done|].
  split; cbn [c_intervals c_uses c_safepoints]; try done; [|apply Hwf1|apply Hwf2]. split.
  - intros o co Ho. rewrite !lookup_insert_Some in Ho. destruct Ho as [[<- <-]|[N [[<- <-]|[M Ho]]]]; [by exists range2|by exists range'|]. destruct (w_wf _ _ Hw o co Ho) as [y Hy]. exists y.
    destruct (w_separate _ _ Hw o r co c Ho Hc (not_eq_sym M)) as (DI & DU & DS).
    apply (range_wf_frame st st' o y y co Hy); [apply FR; [apply Hy|done]|done|..]; intros a; [intros n Ha Hin; apply FI; [done|by apply DI]|intros Hin; apply FU; by apply DU|intros Hin; apply FS; by apply DS].
  - rewrite !lookup_insert_ne; [apply Hw|intros ->; by rewrite (w_null _ _ Hw) in Hc|done].
  - apply (split_separate st' sibling range' range2); try done; cbn; [by intros pos Hp; apply L1|by intros pos Hp; apply L2].
  - intros o co Ho. rewrite !lookup_insert_Some in Ho. destruct Ho as [[<- <-]|[N [[<- <-]|[M Ho]]]]; cbn; [| |by eapply (w_live _ _ Hw)]; intros ->.
    + destruct Hend as (q & Hq & Hle). by apply (live_at_nil q), L2.
    + apply (live_at_nil (start_ i0)), L1. split; [apply first_live|done].
  - intros o co pos Ho Hl. rewrite !lookup_insert_Some in Ho. destruct Ho as [[<- <-]|[N [[<- <-]|[M Ho]]]]; [apply L2 in Hl as [Hl _]|apply L1 in Hl as [Hl _]|]; by eapply (w_bound _ _ Hw).
  - intros a u Ha. destruct (HU a u Ha) as (u0 & H0 & E1 & E2). rewrite <- E1, <- E2, Hsl. destruct (w_slots _ _ Hw a u0 H0) as [Hs Hh]. split; [done|]. destruct Hh as [Hh|[x Hh]]; [by left|right].
    unfold hint_target in *. rewrite Hsl. destruct (hint_ u0 <? 0); [|by exists x]. destruct (ranges st !! (- hint_ u0)) as [y|] eqn:E; [|done].
    destruct (decide (- hint_ u0 = r)) as [->|Hne]; [rewrite (rw_range _ _ _ _ _ _ Hwf1); by eexists|]. rewrite (FR _ _ E Hne). by eexists.
  - intros a b u v Ha Hb E. destruct (HU a u Ha) as (u0 & H0 & E1 & _), (HU b v Hb) as (v0 & H1 & E2 & _). apply (w_distinct _ _ Hw a b u0 v0); congruence.
Qed.
End Split.

(** ** Fingers, uses and safepoints *)
Lemma Advance_loop_spec fuel m start a ns lo : seg interval_next m a 0 ns -> in_order lo ns -> (length ns < fuel)%nat ->
  exists P Q a', ns = P ++ Q /\ Advance_loop fuel m start a = Some a' /\ seg interval_next m a' 0 Q /\ (forall x, x ∈ P -> end_ x.2 <= start) /\
    match Q with [] => a' = 0 | (b, i) :: _ => a' = b /\ a' <> 0 /\ start < end_ i end.
Proof.
  revert a ns lo. induction fuel as [|fuel IH]; intros a ns lo Hs Ho Hfuel; [lia|]. cbn [Advance_loop]. destruct (Z.eqb_spec a 0) as [->|Ha].
  { apply seg_null in Hs as ->. exists [], [], 0. split; [done|]. split; [done|]. split; [done|]. split; [|done]. intros x Hx. by apply not_elem_of_nil in Hx. }
  destruct (seg_nonnull _ _ _ _ Hs Ha) as (i & ns' & -> & Hi & Hs'). rewrite Hi. cbn [mbind option_bind]. destruct Ho as [Hlo Ho]. destruct (Z.leb_spec (end_ i) start).
  - destruct (IH _ _ _ Hs' Ho) as (P & Q & a' & -> & -> & HQ & HP & Hh); [cbn in Hfuel; lia|]. exists ((a, i) :: P), Q, a'. split; [done|]. split; [done|]. split; [done|]. split; [|done].
    intros x [->|Hx]%elem_of_cons; [done|by apply HP].
  - exists [], ((a, i) :: ns'), a. split; [done|]. split; [done|]. split; [done|]. split; [intros x Hx; by apply not_elem_of_nil in Hx|done].
Qed.
Lemma ConvertUses_loop_spec fuel st use U loc : seg use_next (positions st) use 0 U -> (forall x, x ∈ U -> is_Some (slots st !! location_slot_ x.2)) -> (length U < fuel)%nat ->
  exists sl, ConvertUses_loop fuel st use loc = Some (MkObjects (intervals st) (positions st) (safepoints st) (ranges st) sl) /\
    (forall x, x ∈ U -> sl !! location_slot_ x.2 = Some (Allocated loc)) /\ (forall a, (forall x, x ∈ U -> location_slot_ x.2 <> a) -> sl !! a = slots st !! a) /\
    (forall a, is_Some (slots st !! a) -> is_Some (sl !! a)) /\ (forall a v, sl !! a = Some v -> slots st !! a = Some v \/ v = Allocated loc).
Proof.
  revert st use U. induction fuel as [|fuel IH]; intros st use U Hs Hsl Hfuel; [lia|]. cbn [ConvertUses_loop]. destruct (Z.eqb_spec use 0) as [->|Hu].
  { apply seg_null in Hs as ->. exists (slots st). split; [by destruct st|]. split; [intros x Hx; by apply not_elem_of_nil in Hx|]. split; [done|]. split; [done|]. by left. }
  destruct (seg_nonnull _ _ _ _ Hs Hu) as (u & U' & -> & Hp & Hs'). rewrite Hp. cbn [mbind option_bind]. unfold ConvertUseTo. destruct (Hsl (use, u) ltac:(by left)) as [y Hy]. cbn in Hy. rewrite Hy. cbn [mbind option_bind].
  destruct (IH (put_slot st (location_slot_ u) (Allocated loc)) (use_next u) U') as (sl & Heq & H1 & H2 & H3 & H4); [done| |cbn in Hfuel; lia|].
  { intros x Hx. cbn. destruct (Hsl x ltac:(by right)) as [z Hz]. destruct (decide (location_slot_ u = location_slot_ x.2)) as [E|N]; [rewrite <- E, lookup_insert_eq; by eexists|rewrite lookup_insert_ne; [by eexists|done]]. }
  exists sl. split; [exact Heq|]. split; [|split; [|split]].
  - intros x [->|Hx]%elem_of_cons; [|by apply H1]. cbn. destruct (decide (Exists (fun x => location_slot_ x.2 = location_slot_ u) U')) as [(x & Hx & E)%list.Exists_exists|Hn]; [rewrite <- E; by apply H1|].
    rewrite H2; [apply lookup_insert_eq|]. intros x Hx E. apply Hn, list.Exists_exists. by exists x.
  - intros a Ha. rewrite H2; [|intros x Hx; apply Ha; by right]. cbn. rewrite lookup_insert_ne; [done|]. apply (Ha (use, u)). by left.
  - intros a [z Hz]. apply H3. cbn. destruct (decide (location_slot_ u = a)) as [->|N]; [rewrite lookup_insert_eq; by eexists|rewrite lookup_insert_ne; [by eexists|done]].
  - intros a v Hv. destruct (H4 a v Hv) as [Hv'|]; [|by right]. cbn in Hv'. apply lookup_insert_Some in Hv' as [[_ <-]|[_ Hv']]; [by right|by left].
Qed.

Definition reg_in (s : RegisterSet) (l : Location) : Prop :=
  match l with Register_ r => SmallSet_Contains (cpu_registers_ s) r = true | FpuRegister r => SmallSet_Contains (fpu_registers_ s) r = true | _ => True end.
Lemma SmallSet_Contains_bit d v : 0 <= v -> SmallSet_Contains d v = Z.testbit d v.
Proof.
  intros Hv. unfold SmallSet_Contains. destruct (Z.testbit d v) eqn:E.
  - apply negb_true_iff, Z.eqb_neq. intros H. apply (f_equal (fun x => Z.testbit x v)) in H. rewrite Z.land_spec, Z.bits_0, E, Z.shiftl_spec, Z.sub_diag in H by lia. done.
  - apply negb_false_iff, Z.eqb_eq. apply Z.bits_inj'. intros n Hn. rewrite Z.land_spec, Z.bits_0, Z.shiftl_spec by lia. destruct (decide (n = v)) as [->|]; [by rewrite E|].
    destruct (decide (n < v)); [rewrite (Z.testbit_neg_r 1) by lia; apply andb_false_r|]. rewrite (Z.bits_above_log2 1 (n - v)); [apply andb_false_r|lia|cbn; lia].
Qed.
Lemma SmallSet_Add_bit d v w : 0 <= v -> Z.testbit (SmallSet_Add d v) w = Z.testbit d w || (bool_decide (v = w)).
Proof.
  intros Hv. unfold SmallSet_Add. destruct (decide (w < 0)); [rewrite !Z.testbit_neg_r by lia; rewrite bool_decide_eq_false_2 by lia; done|]. rewrite Z.lor_spec, Z.shiftl_spec by lia. f_equal.
  destruct (decide (v = w)) as [->|]; [rewrite Z.sub_diag, bool_decide_eq_true_2; done|]. rewrite bool_decide_eq_false_2 by done.
  destruct (decide (w < v)); [by rewrite Z.testbit_neg_r by lia|]. apply Z.bits_above_log2; [lia|cbn; lia].
Qed.
Definition good_register (l : Location) : Prop := match l with Register_ r | FpuRegister r => 0 <= r | _ => True end.
Lemma RegisterSet_Add_in s loc rep : good_register loc -> reg_in (RegisterSet_Add s loc rep) loc.
Proof. destruct loc; cbn; try done; intros Hr; rewrite SmallSet_Contains_bit, SmallSet_Add_bit by done; rewrite bool_decide_eq_true_2 by done; apply orb_true_r. Qed.
Lemma RegisterSet_Add_mono s loc rep l : good_register loc -> good_register l -> reg_in s l -> reg_in (RegisterSet_Add s loc rep) l.
Proof.
  destruct loc, l; cbn; try done; intros Hr Hr'; rewrite !SmallSet_Contains_bit, SmallSet_Add_bit by done; by intros ->.
Qed.
(** Summaries only gain live registers. *)
Definition grows (ss ss' : gmap Z LocationSummary) : Prop := forall a s, ss !! a = Some s ->
  exists s', ss' !! a = Some s' /\ contains_call_ s' = contains_call_ s /\ forall l, good_register l -> reg_in (live_registers_ s) l -> reg_in (live_registers_ s') l.
#[export] Instance grows_refl : Reflexive grows.
Proof. intros ss a s Hs. by exists s. Qed.
#[export] Instance grows_trans : Transitive grows.
Proof.
  intros x y z Hxy Hyz a s Hs. destruct (Hxy a s Hs) as (s' & Hs' & E & H). destruct (Hyz a s' Hs') as (s'' & Hs'' & E' & H'). exists s''. split; [done|]. split; [congruence|]. intros l Hl Hin. auto.
Qed.
Definition registered (ss : gmap Z LocationSummary) (loc : Location) (c : range_contents) : Prop :=
  forall x, x ∈ c_safepoints c -> exists s, ss !! locs_ x.2 = Some s /\ (always_calls s = false -> reg_in (live_registers_ s) loc).
Definition converted (st : Objects) (loc : Location) (c : range_contents) : Prop := forall x, x ∈ c_uses c -> slots st !! location_slot_ x.2 = Some (Allocated loc).
Lemma always_calls_same s s' : contains_call_ s' = contains_call_ s -> always_calls s' = always_calls s.
Proof. unfold always_calls. by intros ->. Qed.
Lemma registered_grows ss ss' loc c : good_register loc -> grows ss ss' -> registered ss loc c -> registered ss' loc c.
Proof.
  intros Hg Hss Hr x Hx. destruct (Hr x Hx) as (s & Hs & Hin). destruct (Hss _ _ Hs) as (s' & Hs' & E & Hm). exists s'. split; [done|]. rewrite (always_calls_same _ _ E). intros Ha. by apply Hm, Hin.
Qed.
Lemma live_at_safepoints_spec fuel m ss sp S loc rep : good_register loc -> seg safepoint_next m sp 0 S -> (forall x, x ∈ S -> is_Some (ss !! locs_ x.2)) -> (length S < fuel)%nat ->
  exists ss', live_at_safepoints fuel m ss sp loc rep = Some ss' /\ grows ss ss' /\ registered ss' loc (MkContents [] [] S).
Proof.
  intros Hg. revert ss sp S. induction fuel as [|fuel IH]; intros ss sp S Hs Hss Hfuel; [lia|]. cbn [live_at_safepoints]. destruct (Z.eqb_spec sp 0) as [->|Hsp].
  { apply seg_null in Hs as ->. exists ss. split; [done|]. split; [reflexivity|]. intros x Hx. by apply not_elem_of_nil in Hx. }
  destruct (seg_nonnull _ _ _ _ Hs Hsp) as (s & S' & -> & Hm & Hs'). rewrite Hm. cbn [mbind option_bind]. destruct (Hss (sp, s) ltac:(by left)) as [y Hy]. cbn in Hy. rewrite Hy. cbn [mbind option_bind].
  set (ss1 := if always_calls y then ss else <[locs_ s := MkSummary (contains_call_ y) (RegisterSet_Add (live_registers_ y) loc rep) (stack_bitmap_ y)]> ss).
  assert (Hgrow : grows ss ss1 /\ exists y', ss1 !! locs_ s = Some y' /\ (always_calls y' = false -> reg_in (live_registers_ y') loc)).
  { subst ss1. destruct (always_calls y) eqn:E; [split; [reflexivity|]; exists y; split; [done|]; by rewrite E|]. split.
    - intros a z Hz. destruct (decide (locs_ s = a)) as [<-|N]; [|rewrite lookup_insert_ne by done; by exists z]. rewrite lookup_insert_eq. rewrite Hy in Hz. injection Hz as <-.
      eexists. split; [done|]. split; [done|]. intros l Hl Hin. by apply RegisterSet_Add_mono.
    - eexists. split; [apply lookup_insert_eq|]. intros _. by apply RegisterSet_Add_in. }
  destruct Hgrow as [Hgrow (y' & Hy' & Hin)]. destruct (IH ss1 (safepoint_next s) S' Hs') as (ss' & -> & Hg' & Hr).
  { intros x Hx. destruct (Hss x ltac:(by right)) as [z Hz]. destruct (Hgrow _ _ Hz) as (z' & Hz' & _). by eexists. } { cbn in Hfuel. lia. }
  exists ss'. split; [done|]. split; [by transitivity ss1|]. intros x [->|Hx]%elem_of_cons; [|by apply Hr]. cbn. destruct (Hg' _ _ Hy') as (z & Hz & E & Hm'). exists z. split; [done|].
  rewrite (always_calls_same _ _ E). intros Ha. by apply Hm', Hin.
Qed.

(** What conversion of the range [r] changes. *)
Record converts (A A' : Allocator) (c : range_contents) (loc : Location) : Prop := {
  cv_allocator : exists sl ss, A' = with_summaries (with_objects A (MkObjects (intervals (objects_ A)) (positions (objects_ A)) (safepoints (objects_ A)) (ranges (objects_ A)) sl)) ss;
  cv_slots a : (forall x, x ∈ c_uses c -> location_slot_ x.2 <> a) -> slots (objects_ A') !! a = slots (objects_ A) !! a;
  cv_defined a : is_Some (slots (objects_ A) !! a) -> is_Some (slots (objects_ A') !! a);
  cv_new a v : slots (objects_ A') !! a = Some v -> slots (objects_ A) !! a = Some v \/ v = Allocated loc;
  cv_grows : grows (summaries_ A) (summaries_ A') }.
Lemma ConvertAllUses_spec A r range c : holds (objects_ A) r range c -> IsMachineRegister (assigned_location_ range) = true -> good_register (assigned_location_ range) ->
  (forall x, x ∈ c_uses c -> is_Some (slots (objects_ A) !! location_slot_ x.2)) -> (forall x, x ∈ c_safepoints c -> is_Some (summaries_ A !! locs_ x.2)) ->
  exists A', ConvertAllUses A r = Some A' /\ converts A A' c (assigned_location_ range) /\
    (vreg_ range <> kNoVirtualRegister -> converted (objects_ A') (assigned_location_ range) c /\ registered (summaries_ A') (assigned_location_ range) c).
Proof.
  intros Hwf Hm Hg Hu Hs. unfold ConvertAllUses. rewrite (rw_range _ _ _ _ _ _ Hwf). cbn [mbind option_bind]. destruct (Z.eqb_spec (vreg_ range) kNoVirtualRegister) as [E|N].
  - exists A. split; [done|]. split; [|done]. split; try done; [|by left]. exists (slots (objects_ A)), (summaries_ A). by destruct A as [? [] ? ? ? ? ? ?].
  - destruct (ConvertUses_loop_spec (S (size (positions (objects_ A)))) (objects_ A) (uses_ range) (c_uses c) (assigned_location_ range) (rw_uses _ _ _ _ _ _ Hwf) Hu) as (sl & -> & H1 & H2 & H3 & H4).
    { pose proof (seg_size _ _ _ _ _ (rw_uses _ _ _ _ _ _ Hwf) (rw_uses_ids _ _ _ _ _ _ Hwf)). lia. }
    cbn [mbind option_bind]. rewrite Hm. cbn [with_objects summaries_ safepoints].
    destruct (live_at_safepoints_spec (S (size (safepoints (objects_ A)))) (safepoints (objects_ A)) (summaries_ A) (first_safepoint_ range) (c_safepoints c) (assigned_location_ range) (representation_ range) Hg
      (rw_safepoints _ _ _ _ _ _ Hwf) Hs) as (ss & -> & H5 & H6).
    { pose proof (seg_size _ _ _ _ _ (rw_safepoints _ _ _ _ _ _ Hwf) (rw_safepoints_ids _ _ _ _ _ _ Hwf)). lia. }
    cbn [mbind option_bind]. eexists. split; [done|]. split; [|split; [exact H1|exact H6]]. split; [by exists sl, ss|done..].
Qed.

(** Compaction of a register's list. *)
Lemma RemoveEvicted_loop_spec fuel (l : list Z) (to from : nat) : (to < from)%nat -> (from <= length l)%nat -> (length l - from < fuel)%nat ->
  RemoveEvicted_loop fuel l (Z.of_nat to) (Z.of_nat from) = Some (take to l ++ filter (fun x => x <> 0) (drop from l)).
Proof.
  revert l to from. induction fuel as [|fuel IH]; intros l to from Ht Hf Hfuel; [lia|]. cbn [RemoveEvicted_loop]. destruct (Z.ltb_spec (Z.of_nat from) (zlen l)) as [Hlt|Hge]; unfold zlen in *.
  - destruct (lookup_lt_is_Some_2 l from) as [x Hx]; [lia|]. unfold arr_get. rewrite (proj2 (Z.leb_le _ _)) by lia. rewrite Nat2Z.id, Hx. cbn [mbind option_bind]. rewrite (drop_S _ _ _ Hx), filter_cons.
    destruct (Z.eqb_spec x 0) as [->|Hn]; cbn [negb].
    + rewrite decide_False by (intros H; by apply H). replace (Z.of_nat from + 1) with (Z.of_nat (S from)) by lia. apply IH; lia.
    + rewrite decide_True by done. unfold arr_set. rewrite (proj2 (Z.leb_le _ _)), (proj2 (Z.ltb_lt _ _)) by lia. cbn [andb mbind option_bind]. rewrite Nat2Z.id.
      replace (Z.of_nat from + 1) with (Z.of_nat (S from)) by lia. replace (Z.of_nat to + 1) with (Z.of_nat (S to)) by lia. rewrite IH by (rewrite ?length_insert; lia).
      rewrite drop_insert_lt by lia. rewrite (take_S_r _ _ x) by (apply list_lookup_insert_eq; lia). rewrite take_insert_ge by lia. by rewrite <- app_assoc.
  - assert (from = length l) as -> by lia. rewrite drop_all. cbn. by rewrite app_nil_r, Nat2Z.id.
Qed.
Lemma filter_nonzero (l : list Z) : 0 ∉ l -> filter (fun x => x <> 0) l = l.
Proof.
  induction l as [|x l IH]; intros Hn; [done|]. apply not_elem_of_cons in Hn as [Hx Hn]. rewrite filter_cons, decide_True by done. by rewrite IH.
Qed.
(** With the first gap given, compaction keeps what is not a gap. *)
Lemma RemoveEvicted_spec (l : list Z) (i : nat) : l !! i = Some 0 -> (forall j, (j < i)%nat -> l !! j <> Some 0) -> RemoveEvicted l (Z.of_nat i) = Some (filter (fun x => x <> 0) l).
Proof.
  intros Hi Hbefore. pose proof (lookup_lt_Some _ _ _ Hi). unfold RemoveEvicted. replace (Z.of_nat i + 1) with (Z.of_nat (S i)) by lia. rewrite RemoveEvicted_loop_spec by lia. f_equal.
  rewrite <- (take_drop_middle _ _ _ Hi) at 3. rewrite filter_app, filter_cons, decide_False by (intros Hn; by apply Hn). f_equal.
  symmetry. apply filter_nonzero. intros Hx. apply list_elem_of_lookup in Hx as (j & Hx). apply lookup_take_Some in Hx as [Hx Hj]. by apply (Hbefore j Hj).
Qed.

(** ** The invariant of the scan *)
Definition register_of (f : RegisterFile) (range : LiveRange) (reg : Z) : Prop :=
  0 <= reg < number_of_registers_ f /\ assigned_location_ range = MachineRegisterLocation (register_kind_ f) reg /\
  (vreg_ range = kNoVirtualRegister \/ arr_get (blocked_registers_ f) reg = Some false).
Definition range_start (st : Objects) (r : Z) : option Z := range ← ranges st !! r; Range_Start st range.
Definition later (st : Objects) (a b : Z) : Prop := exists s s', range_start st a = Some s /\ range_start st b = Some s' /\ s' <= s.
(** A range to be allocated. *)
Definition waiting (st : Objects) (W : gmap Z range_contents) (start r : Z) : Prop := exists c range, W !! r = Some c /\ ranges st !! r = Some range /\
  assigned_location_ range = NoLocation /\ finger_ range = Finger_Initialize range /\ forall pos, live_at (c_intervals c) pos -> start <= pos.
(** A range that has a register and is not over. *)
Definition active (f : RegisterFile) (st : Objects) (W : gmap Z range_contents) (start reg r : Z) : Prop := exists c range P Q, W !! r = Some c /\ ranges st !! r = Some range /\
  register_of f range reg /\ c_intervals c = P ++ Q /\ Q <> [] /\ seg interval_next (intervals st) (first_pending_use_interval_ (finger_ range)) 0 Q /\
  forall x, x ∈ P -> end_ x.2 <= start.
(** A range that is over, with its uses rewritten. *)
Definition retired (f : RegisterFile) (st : Objects) (ss : gmap Z LocationSummary) (W : gmap Z range_contents) (start r : Z) : Prop := exists c range reg,
  W !! r = Some c /\ ranges st !! r = Some range /\ register_of f range reg /\ (forall pos, live_at (c_intervals c) pos -> pos < start) /\
  (vreg_ range <> kNoVirtualRegister -> converted st (assigned_location_ range) c /\ registered ss (assigned_location_ range) c).
(** Registers in locations are registers of the file. *)
Definition valid_register (f : RegisterFile) (l : Location) : Prop := IsMachineRegister l = true -> 0 <= register_code l < number_of_registers_ f.
Record scan_inv (f : RegisterFile) (st : Objects) (ss : gmap Z LocationSummary) (regs : list (list Z)) (todo : list Z) (W : gmap Z range_contents) (start : Z) : Prop := {
  s_world : world st W;
  s_summaries a s : safepoints st !! a = Some s -> is_Some (ss !! locs_ s);
  s_file : zlen regs = number_of_registers_ f /\ zlen (blocked_registers_ f) = number_of_registers_ f;
  s_ranges r x : ranges st !! r = Some x -> valid_register f (assigned_location_ x);
  s_slots a l : slots st !! a = Some (Allocated l) -> valid_register f l;
  s_waiting r : r ∈ todo -> waiting st W start r;
  s_nodup : NoDup todo;
  s_sorted : StronglySorted (later st) todo;
  s_active reg l : arr_get regs reg = Some l -> NoDup (filter (fun x => x <> 0) l) /\ forall r, r ∈ l -> r <> 0 -> active f st W start reg r;
  s_retired r c : W !! r = Some c -> r ∉ todo -> (forall reg l, arr_get regs reg = Some l -> r ∉ l) -> retired f st ss W start r;
  s_exclusive r1 r2 c1 c2 x1 x2 pos : r1 <> r2 -> W !! r1 = Some c1 -> W !! r2 = Some c2 -> ranges st !! r1 = Some x1 -> ranges st !! r2 = Some x2 ->
    IsMachineRegister (assigned_location_ x1) = true -> assigned_location_ x1 = assigned_location_ x2 -> live_at (c_intervals c1) pos -> live_at (c_intervals c2) pos -> False }.

Lemma register_of_machine f range reg : register_of f range reg -> IsMachineRegister (assigned_location_ range) = true /\ good_register (assigned_location_ range).
Proof. intros (Hr & -> & _). unfold MachineRegisterLocation. destruct (register_kind_ f); cbn; split; try done; lia. Qed.
Lemma only_fields_start st st' r s : only_fields st st' -> range_start st r = Some s -> range_start st' r = Some s.
Proof.
  intros Hof. unfold range_start, Range_Start. destruct (ranges st !! r) as [x|] eqn:E; [|done]. destruct (of_ranges _ _ Hof _ _ E) as (y & -> & Hl). cbn [mbind option_bind].
  destruct Hl as (_ & -> & _). by rewrite (of_intervals _ _ Hof).
Qed.
Lemma later_mono st st' todo : (forall r s, r ∈ todo -> range_start st r = Some s -> range_start st' r = Some s) -> StronglySorted (later st) todo -> StronglySorted (later st') todo.
Proof.
  induction todo as [|a todo IH]; intros Hs Hsort; [constructor|]. apply StronglySorted_inv in Hsort as [Hsort Ha]. constructor; [apply IH; [intros r s Hr; apply Hs; by right|done]|].
  rewrite list.Forall_forall in Ha |- *. intros b Hb. destruct (Ha b Hb) as (s & s' & H1 & H2 & Hle). exists s, s'. split; [apply Hs; [by left|done]|]. split; [apply Hs; [by right|done]|done].
Qed.
(** Time passes. *)
Lemma scan_later f st ss regs todo W start s : scan_inv f st ss regs todo W start -> start <= s -> (forall r, r ∈ todo -> waiting st W s r) -> scan_inv f st ss regs todo W s.
Proof.
  intros [] Hs Hwait. split; try done.
  - intros reg l Hl. destruct (s_active0 reg l Hl) as [Hnd Ha]. split; [done|]. intros r Hr Hn. destruct (Ha r Hr Hn) as (c & x & P & Q & Hc & Hx & Hreg & HI & HQ & Hseg & HP). exists c, x, P, Q.
    split; [done|]. split; [done|]. split; [done|]. split; [done|]. split; [done|]. split; [done|]. intros y Hy. specialize (HP y Hy). lia.
  - intros r c Hc Hn Hout. destruct (s_retired0 r c Hc Hn Hout) as (c' & x & reg & Hc' & Hx & Hreg & Hlive & Hconv). exists c', x, reg. split; [done|]. split; [done|]. split; [done|]. split; [|done].
    intros pos Hp. specialize (Hlive pos Hp). lia.
Qed.
Lemma uses_apart st W r1 r2 c1 c2 : world st W -> W !! r1 = Some c1 -> W !! r2 = Some c2 -> r1 <> r2 -> forall x y, x ∈ c_uses c1 -> y ∈ c_uses c2 -> location_slot_ x.2 <> location_slot_ y.2.
Proof.
  intros Hw H1 H2 Hne [a u] [b v] Hx Hy E. cbn in E. destruct (w_wf _ _ Hw _ _ H1) as [x1 W1], (w_wf _ _ Hw _ _ H2) as [x2 W2].
  destruct (seg_lookup _ _ _ _ _ _ _ (rw_uses _ _ _ _ _ _ W1) Hx) as [Ha _], (seg_lookup _ _ _ _ _ _ _ (rw_uses _ _ _ _ _ _ W2) Hy) as [Hb _].
  pose proof (w_distinct _ _ Hw _ _ _ _ Ha Hb E) as ->. destruct (w_separate _ _ Hw _ _ _ _ H1 H2 Hne) as (_ & D & _). apply (D b); apply list_elem_of_fmap; by eexists (b, _).
Qed.
(** A step that touches one range, which is not waiting. *)
Lemma scan_touch f st st' ss ss' regs regs' todo W start r c x x' : scan_inv f st ss regs todo W start -> r ∉ todo -> W !! r = Some c -> ranges st !! r = Some x ->
  only_fields st st' -> (forall b, b <> r -> ranges st' !! b = ranges st !! b) -> ranges st' !! r = Some x' -> assigned_location_ x' = assigned_location_ x ->
  (forall a, (forall y, y ∈ c_uses c -> location_slot_ y.2 <> a) -> slots st' !! a = slots st !! a) -> (forall a v, slots st' !! a = Some v -> slots st !! a = Some v \/ v = Allocated (assigned_location_ x)) -> grows ss ss' -> zlen regs' = zlen regs ->
  (forall reg l', arr_get regs' reg = Some l' -> NoDup (filter (fun x => x <> 0) l') /\ forall r', r' ∈ l' -> r' <> 0 ->
     (r' = r /\ active f st' W start reg r) \/ (r' <> r /\ exists l, arr_get regs reg = Some l /\ r' ∈ l)) ->
  (forall reg l r', arr_get regs reg = Some l -> r' ∈ l -> r' <> r -> exists l', arr_get regs' reg = Some l' /\ r' ∈ l') ->
  ((forall reg l, arr_get regs' reg = Some l -> r ∉ l) -> retired f st' ss' W start r) -> scan_inv f st' ss' regs' todo W start.
Proof.
  intros Hinv Hr Hc Hx Hof Hoth Hx' Hloc Hsl Hsn Hss Hlen Hlists Hkeep Hout. pose proof Hinv as []. split.
  - by apply (only_fields_world st).
  - intros a s Ha. rewrite (of_safepoints _ _ Hof) in Ha. destruct (s_summaries0 a s Ha) as [y Hy]. destruct (Hss _ _ Hy) as (y' & Hy' & _). by exists y'.
  - rewrite Hlen. done.
  - intros b y Hy. destruct (decide (b = r)) as [->|Hb]; [rewrite Hx' in Hy; injection Hy as <-; rewrite Hloc; by apply (s_ranges0 r)|]. rewrite Hoth in Hy by done. by apply (s_ranges0 b).
  - intros a v Hv. destruct (Hsn a _ Hv) as [Hv'|E]; [by apply (s_slots0 a)|]. injection E as ->. by apply (s_ranges0 r).
  - intros b Hb. destruct (s_waiting0 b Hb) as (d & y & H1 & H2 & H3 & H4 & H5). exists d, y. rewrite Hoth by congruence. done.
  - done.
  - apply (later_mono st); [|done]. intros b s _. by apply only_fields_start.
  - intros reg l' Hl'. destruct (Hlists reg l' Hl') as [Hnd Hl]. split; [done|]. intros b Hb Hb0. destruct (Hl b Hb Hb0) as [[-> Ha]|[Hne (l & Hl0 & Hb')]]; [done|].
    destruct (s_active0 reg l Hl0) as [_ Ha]. destruct (Ha b Hb' Hb0) as (d & y & P & Q & H1 & H2 & H3 & H4 & H5 & H6 & H7). exists d, y, P, Q. rewrite Hoth by done. by rewrite (of_intervals _ _ Hof).
  - intros b d Hd Hbn Hb. destruct (decide (b = r)) as [->|Hne]; [by apply Hout|]. destruct (s_retired0 b d Hd Hbn) as (d' & y & reg & H1 & H2 & H3 & H4 & H5).
    { intros reg l Hl Hin. destruct (Hkeep reg l b Hl Hin Hne) as (l' & Hl' & Hin'). by apply (Hb reg l' Hl'). }
    exists d', y, reg. rewrite Hoth by done. split; [done|]. split; [done|]. split; [done|]. split; [done|]. intros Hv. destruct (H5 Hv) as [C R]. split; [|by eapply registered_grows; [apply (register_of_machine _ _ _ H3)| |]].
    intros z Hz. rewrite Hsl; [by apply C|]. intros w Hw' E. by apply (uses_apart st W r b c d' s_world0 Hc H1 (not_eq_sym Hne) w z Hw' Hz).
  - intros r1 r2 c1 c2 x1 x2 pos Hne H1 H2 E1 E2. assert (Hold : forall b y, ranges st' !! b = Some y -> exists y0, ranges st !! b = Some y0 /\ assigned_location_ y0 = assigned_location_ y).
    { intros b y Hy. destruct (decide (b = r)) as [->|Hb]; [exists x; split; [done|]; congruence|]. rewrite Hoth in Hy by done. by exists y. }
    destruct (Hold _ _ E1) as (y1 & Y1 & L1), (Hold _ _ E2) as (y2 & Y2 & L2). rewrite <- L1, <- L2. by apply (s_exclusive0 r1 r2).
Qed.
Lemma world_start st W r c : world st W -> W !! r = Some c -> exists t, range_start st r = Some t /\ 0 <= t /\ live_at (c_intervals c) t /\ forall pos, live_at (c_intervals c) pos -> t <= pos.
Proof.
  intros Hw Hc. destruct (w_wf _ _ Hw r c Hc) as [x []]. pose proof (w_live _ _ Hw r c Hc) as Hne. unfold range_start, Range_Start. rewrite rw_range. cbn [mbind option_bind].
  destruct (c_intervals c) as [|[a i] l]; [done|]. destruct rw_intervals as (-> & _ & Hi & _). rewrite Hi. cbn [mbind option_bind]. cbn in rw_order. exists (start_ i). split; [done|]. split; [lia|]. split; [apply live_at_cons; left; lia|].
  intros pos Hp. apply (in_order_lower (start_ i)) in Hp; [done|]. cbn. split; [lia|apply rw_order].
Qed.

(** ** Advancing the active ranges *)
Lemma register_of_inj f range reg reg' : register_of f range reg -> register_of f range reg' -> reg = reg'.
Proof. intros (_ & E & _) (_ & E' & _). rewrite E in E'. unfold MachineRegisterLocation in E'. destruct (register_kind_ f); by injection E'. Qed.
Lemma active_inj f st W start start' reg reg' r : active f st W start reg r -> active f st W start' reg' r -> reg = reg'.
Proof. intros (c & x & _ & _ & _ & Hx & Hr & _) (c' & x' & _ & _ & _ & Hx' & Hr' & _). rewrite Hx in Hx'. injection Hx' as <-. by eapply register_of_inj. Qed.
Lemma active_not_todo f st ss regs todo W start reg r : scan_inv f st ss regs todo W start -> active f st W start reg r -> r ∉ todo.
Proof.
  intros Hinv (c & x & _ & _ & _ & Hx & Hr & _) Hin. destruct (s_waiting _ _ _ _ _ _ _ Hinv r Hin) as (c' & x' & _ & Hx' & Hno & _). rewrite Hx in Hx'. injection Hx' as <-.
  destruct (register_of_machine _ _ _ Hr) as [Hm _]. by rewrite Hno in Hm.
Qed.
Lemma NoDup_nonzero (l : list Z) i j r : NoDup (filter (fun x => x <> 0) l) -> l !! i = Some r -> l !! j = Some r -> r <> 0 -> i = j.
Proof.
  revert i j. induction l as [|a l IH]; intros i j Hnd Hi Hj Hr; [done|]. rewrite filter_cons in Hnd.
  assert (Hin : forall k, l !! k = Some r -> a = r -> False).
  { intros k Hk ->. rewrite decide_True in Hnd by done. apply NoDup_cons in Hnd as [Hnot _]. apply Hnot, list_elem_of_filter. split; [done|]. by eapply list_elem_of_lookup_2. }
  destruct i as [|i], j as [|j]; cbn in Hi, Hj; [done|injection Hi as ->; by destruct (Hin j Hj)|injection Hj as ->; by destruct (Hin i Hi)|]. f_equal. apply IH; try done. destruct (decide (a <> 0)); [by apply NoDup_cons in Hnd as [_ ?]|done].
Qed.
Lemma NoDup_gap (l : list Z) i : NoDup (filter (fun x => x <> 0) l) -> NoDup (filter (fun x => x <> 0) (<[i := 0]> l)).
Proof.
  revert i. induction l as [|a l IH]; intros i Hnd; [done|]. rewrite filter_cons in Hnd. destruct i as [|i].
  - change (<[0%nat := 0]> (a :: l)) with (0 :: l). rewrite filter_cons, decide_False by (intros H; by apply H). destruct (decide (a <> 0)); [by apply NoDup_cons in Hnd as [_ ?]|done].
  - change (<[S i := 0]> (a :: l)) with (a :: <[i := 0]> l). rewrite filter_cons. destruct (decide (a <> 0)); [|by apply IH]. apply NoDup_cons in Hnd as [Hnot Hnd]. apply NoDup_cons_2; [|by apply IH]. intros Hin. apply Hnot. apply list_elem_of_filter in Hin as [_ Hin].
    apply list_elem_of_filter. split; [done|]. apply list_elem_of_lookup in Hin as [k Hk]. apply list_lookup_insert_Some in Hk as [(-> & <- & _)|[_ Hk]]; [done|]. by eapply list_elem_of_lookup_2.
Qed.
(** The finger's interval does not end before [s]. *)
Definition advanced (st : Objects) (s r : Z) : Prop := exists range i, ranges st !! r = Some range /\ intervals st !! first_pending_use_interval_ (finger_ range) = Some i /\ s < end_ i.
(** Parts of the allocator that advancing leaves alone. *)
Definition keeps_rest (A A' : Allocator) : Prop := exists st ss, A' = with_summaries (with_objects A st) ss.
#[local] Instance keeps_trans : Transitive keeps_rest.
Proof. intros A B C (st & ss & ->) (st' & ss' & ->). by exists st', ss'. Qed.

(** A range whose register is given up. *)
Lemma scan_drop f st st' ss ss' regs regs' todo W s reg l i r c x x' : scan_inv f st ss regs todo W s -> arr_get regs reg = Some l -> l !! i = Some r -> r <> 0 ->
  arr_set regs reg (<[i := 0]> l) = Some regs' -> W !! r = Some c -> ranges st !! r = Some x -> only_fields st st' -> (forall b, b <> r -> ranges st' !! b = ranges st !! b) ->
  ranges st' !! r = Some x' -> assigned_location_ x' = assigned_location_ x -> (forall a, (forall y, y ∈ c_uses c -> location_slot_ y.2 <> a) -> slots st' !! a = slots st !! a) ->
  (forall a v, slots st' !! a = Some v -> slots st !! a = Some v \/ v = Allocated (assigned_location_ x)) -> grows ss ss' -> retired f st' ss' W s r -> scan_inv f st' ss' regs' todo W s.
Proof.
  intros Hinv Hl Hi Hr0 Hset Hc Hx Hof Hoth Hx' Hloc Hsl Hsn Hgr Hret. destruct (s_active _ _ _ _ _ _ _ Hinv reg l Hl) as [Hnd Hact]. pose proof (Hact r (list_elem_of_lookup_2 _ _ _ Hi) Hr0) as Ha.
  pose proof (active_not_todo _ _ _ _ _ _ _ _ _ Hinv Ha) as Htodo. apply (scan_touch f st st' ss ss' regs regs' todo W s r c x x'); try done; [by rewrite (arr_set_length _ _ _ _ Hset)|..].
  - intros k l' Hk. rewrite (arr_get_set _ _ _ _ _ Hset) in Hk. destruct (Z.eqb_spec reg k) as [<-|Hne].
    + injection Hk as <-. split; [by apply NoDup_gap|]. intros r' Hr' Hr'0. right. apply list_elem_of_lookup in Hr' as [j Hj]. apply list_lookup_insert_Some in Hj as [(-> & <- & _)|[Hne Hj]]; [done|].
      split; [intros ->; apply Hne; by apply (NoDup_nonzero l i j r)|]. exists l. split; [done|]. by eapply list_elem_of_lookup_2.
    + destruct (s_active _ _ _ _ _ _ _ Hinv k l' Hk) as [Hnd' Hact']. split; [done|]. intros r' Hr' Hr'0. right. split; [|by exists l']. intros ->. apply Hne. by apply (active_inj _ _ _ _ _ _ _ _ Ha (Hact' r Hr' Hr'0)).
  - intros k l' r' Hk Hr' Hne. rewrite (arr_get_set _ _ _ _ _ Hset). destruct (Z.eqb_spec reg k) as [<-|]; [|by exists l']. rewrite Hl in Hk. injection Hk as <-. eexists. split; [done|].
    apply list_elem_of_lookup in Hr' as [j Hj]. apply (list_elem_of_lookup_2 _ j). rewrite list_lookup_insert_ne; [done|]. intros <-. congruence.
Qed.
Section Advance.
Context (f : RegisterFile) (todo : list Z) (W : gmap Z range_contents) (s reg : Z).
Abbreviation inv A regs := (scan_inv f (objects_ A) (summaries_ A) regs todo W s).
(** One range of the register. *)
Lemma advance_one A regs l i r range : inv A regs -> arr_get regs reg = Some l -> l !! i = Some r -> r <> 0 -> ranges (objects_ A) !! r = Some range ->
  exists is_done finger, Finger_Advance (intervals (objects_ A)) (finger_ range) s = Some (is_done, finger) /\
    let A1 := with_objects A (put_range (objects_ A) r (with_finger range finger)) in
    if (is_done : bool) then exists A' regs', ConvertAllUses A1 r = Some A' /\ keeps_rest A A' /\ arr_set regs reg (<[i := 0]> l) = Some regs' /\ inv A' regs' /\
      (forall b, b <> r -> ranges (objects_ A') !! b = ranges (objects_ A) !! b) /\ only_fields (objects_ A) (objects_ A')
    else inv A1 regs /\ advanced (objects_ A1) s r.
Proof using.
  intros Hinv Hl Hi Hr0 Hx. destruct (s_active _ _ _ _ _ _ _ Hinv reg l Hl) as [Hnd Hact]. pose proof (Hact r (list_elem_of_lookup_2 _ _ _ Hi) Hr0) as Ha.
  pose proof (active_not_todo _ _ _ _ _ _ _ _ _ Hinv Ha) as Htodo. pose proof Ha as (c & x & P & Q & Hc & Hx' & Hreg & HI & HQ & Hseg & HP). rewrite Hx in Hx'. injection Hx' as <-.
  pose proof (s_world _ _ _ _ _ _ _ Hinv) as Hw. destruct (w_wf _ _ Hw r c Hc) as [x Hwf]. pose proof (rw_range _ _ _ _ _ _ Hwf) as Hx'. rewrite Hx in Hx'. injection Hx' as <-.
  pose proof (rw_order _ _ _ _ _ _ Hwf) as Ho. rewrite HI in Ho. destruct (in_order_app _ _ _ Ho) as (_ & HoQ & _).
  destruct (Advance_loop_spec (S (size (intervals (objects_ A)))) (intervals (objects_ A)) s _ Q 0 Hseg HoQ) as (P' & Q' & a' & HQ' & Hadv & Hseg' & HP' & Hhead).
  { pose proof (seg_size _ _ _ _ _ Hseg (in_order_ids _ _ _ _ _ Hseg HoQ)). lia. }
  unfold Finger_Advance. rewrite Hadv. cbn [mbind option_bind]. do 2 eexists. split; [done|]. cbn zeta. set (finger := MkFinger a' _ _ _).
  set (A1 := with_objects A (put_range (objects_ A) r (with_finger range finger))).
  assert (Hof : only_fields (objects_ A) (objects_ A1)) by (by apply (only_fields_put _ _ range)).
  assert (Hoth : forall b, b <> r -> ranges (objects_ A1) !! b = ranges (objects_ A) !! b) by (intros b Hb; cbn; by rewrite lookup_insert_ne).
  assert (Hx1 : ranges (objects_ A1) !! r = Some (with_finger range finger)) by apply lookup_insert_eq.
  destruct Q' as [|[b j] Q''].
  - subst a'. rewrite Z.eqb_refl. destruct (only_fields_wf _ _ _ _ _ Hof Hwf) as (y & Hwf1 & _). pose proof (rw_range _ _ _ _ _ _ Hwf1) as Hy. rewrite Hx1 in Hy. injection Hy as <-.
    destruct (register_of_machine _ _ _ Hreg) as [Hm Hg]. assert (Hslots : forall x, x ∈ c_uses c -> is_Some (slots (objects_ A1) !! location_slot_ x.2)).
    { intros [u n] Hu. apply (w_slots _ _ Hw u n), (seg_lookup _ _ _ _ _ _ _ (rw_uses _ _ _ _ _ _ Hwf) Hu). }
    assert (Hsum : forall x, x ∈ c_safepoints c -> is_Some (summaries_ A1 !! locs_ x.2)).
    { intros [u n] Hu. apply (s_summaries _ _ _ _ _ _ _ Hinv u n), (seg_lookup _ _ _ _ _ _ _ (rw_safepoints _ _ _ _ _ _ Hwf) Hu). }
    destruct (ConvertAllUses_spec A1 r _ c Hwf1 Hm Hg Hslots Hsum) as (A' & Hconv & [(sl & ss & HA') Hsl Hdef Hnew Hgr] & Hdone).
    pose proof (proj2 (arr_set_Some regs reg (<[i := 0]> l) _) (conj (arr_get_Some _ _ _ Hl) eq_refl)) as Hset. eexists A', _. split; [exact Hconv|].
    assert (Hof' : only_fields (objects_ A) (objects_ A')) by (transitivity (objects_ A1); [done|]; subst A'; split; try done; intros z y Hz; by exists y).
    assert (Hoth' : forall b, b <> r -> ranges (objects_ A') !! b = ranges (objects_ A) !! b) by (intros b Hb; subst A'; by apply Hoth).
    assert (Hx' : ranges (objects_ A') !! r = Some (with_finger range finger)) by (by subst A').
    split; [subst A'; eexists _, _; reflexivity|]. split; [exact Hset|]. split; [|split; [exact Hoth'|exact Hof']].
    apply (scan_drop f (objects_ A) (objects_ A') (summaries_ A) _ regs _ todo W s reg l i r c range (with_finger range finger)); try done.
    exists c, (with_finger range finger), reg. split; [done|]. split; [done|]. split; [done|]. split; [|done]. intros pos (z & n & Hin & Hpos). rewrite HI, HQ', app_nil_r in Hin.
    apply elem_of_app in Hin as [Hin|Hin]; [specialize (HP _ Hin)|specialize (HP' _ Hin)]; cbn in *; lia.
  - destruct Hhead as (-> & Hb0 & Hend). rewrite (proj2 (Z.eqb_neq _ _)) by done. split.
    + apply (scan_touch f (objects_ A) (objects_ A1) (summaries_ A) _ regs _ todo W s r c range (with_finger range finger)); try done; [by left|..].
      * intros k l' Hk. destruct (s_active _ _ _ _ _ _ _ Hinv k l' Hk) as [Hnd' Hact']. split; [done|]. intros r' Hr' Hr'0. destruct (decide (r' = r)) as [->|Hne]; [left|right; by eauto]. split; [done|].
        rewrite <- (active_inj _ _ _ _ _ _ _ _ Ha (Hact' r Hr' Hr'0)). exists c, (with_finger range finger), (P ++ P'), ((b, j) :: Q''). split; [done|]. split; [done|]. split; [done|]. split; [by rewrite HI, HQ', app_assoc|].
        split; [done|]. split; [done|]. intros z [Hz|Hz]%elem_of_app; [by apply HP|by apply HP'].
      * by eauto.
      * intros Hout. exfalso. apply (Hout reg l Hl). by eapply list_elem_of_lookup_2.
    + exists (with_finger range finger), j. split; [done|]. split; [|done]. destruct Hseg' as (_ & _ & Hj & _). done.
Qed.

(** The ranges of the register, and the first gap in its list. *)
Definition gap (l : list Z) (first_evicted : Z) : Prop :=
  (first_evicted = -1 /\ 0 ∉ l) \/ exists i, first_evicted = Z.of_nat i /\ l !! i = Some 0 /\ forall j, (j < i)%nat -> l !! j <> Some 0.
Lemma advance_register_spec n A regs0 regs l fe : file_ A = f -> arr_set regs0 reg l = Some regs -> inv A regs -> (n <= length l)%nat -> (forall i, (i < n)%nat -> l !! i <> Some 0) ->
  (forall i r, (n <= i)%nat -> l !! i = Some r -> r <> 0 -> advanced (objects_ A) s r) -> gap l fe ->
  exists A' l' fe' regs', advance_register n A l s fe = Some (A', l', fe') /\ keeps_rest A A' /\ arr_set regs0 reg l' = Some regs' /\ inv A' regs' /\
    (forall r, r ∈ l' -> r <> 0 -> advanced (objects_ A') s r) /\ gap l' fe' /\ (forall b, b ∉ l -> b <> 0 -> ranges (objects_ A') !! b = ranges (objects_ A) !! b) /\ only_fields (objects_ A) (objects_ A').
Proof using.
  revert A regs l fe. induction n as [|i IH]; intros A regs l fe Hf Hset Hinv Hn Hnz Hadv Hgap.
  - exists A, l, fe, regs. split; [done|]. split; [by exists (objects_ A), (summaries_ A); destruct A|]. split; [done|]. split; [done|]. split; [|done]. intros r Hr Hr0. apply list_elem_of_lookup in Hr as [j Hj]. by apply (Hadv j r); [lia|..].
  - cbn [advance_register]. destruct (lookup_lt_is_Some_2 l i) as [r Hr]; [lia|]. rewrite Hr. cbn [mbind option_bind]. assert (Hr0 : r <> 0) by (intros ->; by apply (Hnz i); [lia|]).
    assert (Hl : arr_get regs reg = Some l) by (by rewrite (arr_get_set _ _ _ _ _ Hset), Z.eqb_refl). destruct (s_active _ _ _ _ _ _ _ Hinv reg l Hl) as [Hnd Hact].
    destruct (Hact r (list_elem_of_lookup_2 _ _ _ Hr) Hr0) as (c & range & _ & _ & _ & Hx & _). rewrite Hx. cbn [mbind option_bind].
    destruct (advance_one A regs l i r range Hinv Hl Hr Hr0 Hx) as (is_done & finger & -> & Hone). cbn [mbind option_bind]. cbn zeta in Hone. destruct is_done.
    + destruct Hone as (A1 & regs1 & -> & Hk & Hset1 & Hinv1 & Hoth & Hint). cbn [mbind option_bind].
      destruct (IH A1 regs1 (<[i := 0]> l) (Z.of_nat i)) as (A' & l' & fe' & regs' & -> & Hk' & Hset' & Hinv' & Hadv' & Hgap' & Hoth' & Hint').
      * destruct Hk as (? & ? & ->). done.
      * apply arr_set_Some in Hset as [Hb ->], Hset1 as [_ ->]. apply arr_set_Some. split; [done|]. by rewrite list_insert_insert_eq.
      * done.
      * rewrite length_insert. lia.
      * intros j Hj. rewrite list_lookup_insert_ne by lia. apply Hnz. lia.
      * intros j r' Hj Hr' Hr'0. apply list_lookup_insert_Some in Hr' as [(<- & <- & _)|[Hne Hr']]; [done|]. destruct (Hadv j r' ltac:(lia) Hr' Hr'0) as (y & k & Hy & Hk1 & Hk2). exists y, k. rewrite (of_intervals _ _ Hint), Hoth; [done|].
        intros ->. apply Hne. by apply (NoDup_nonzero l i j r).
      * right. exists i. split; [done|]. split; [apply list_lookup_insert_eq; lia|]. intros j Hj. rewrite list_lookup_insert_ne by lia. apply Hnz. lia.
      * exists A', l', fe', regs'. split; [done|]. split; [by transitivity A1|]. split; [done|]. split; [done|]. split; [done|]. split; [done|]. split; [|by transitivity (objects_ A1)]. intros b Hb Hb0. rewrite Hoth', Hoth; [done| | |done].
        -- intros ->. apply Hb. by eapply list_elem_of_lookup_2.
        -- intros Hin. apply list_elem_of_lookup in Hin as [j Hj]. apply list_lookup_insert_Some in Hj as [(<- & <- & _)|[_ Hj]]; [done|]. apply Hb. by eapply list_elem_of_lookup_2.
    + destruct Hone as [Hinv1 Hadv1].
      destruct (IH (with_objects A (put_range (objects_ A) r (with_finger range finger))) regs l fe Hf Hset Hinv1) as (A' & l' & fe' & regs' & -> & Hk' & Hset' & Hinv' & Hadv' & Hgap' & Hoth' & Hint').
      * lia.
      * intros j Hj. apply Hnz. lia.
      * intros j r' Hj Hr' Hr'0. destruct (decide (r' = r)) as [->|Hne]; [done|]. assert (j <> i) by congruence. destruct (Hadv j r' ltac:(lia) Hr' Hr'0) as (y & k & Hy & Hk1 & Hk2). exists y, k. cbn. by rewrite lookup_insert_ne.
      * done.
      * exists A', l', fe', regs'. split; [done|]. split; [destruct Hk' as (? & ? & ->); eexists _, _; reflexivity|]. split; [done|]. split; [done|]. split; [done|]. split; [done|]. split; [|transitivity (put_range (objects_ A) r (with_finger range finger)); [by apply (only_fields_put _ _ range)|done]].
        intros b Hb Hb0. rewrite Hoth' by done. cbn. rewrite lookup_insert_ne; [done|]. intros ->. apply Hb. by eapply list_elem_of_lookup_2.
Qed.
Lemma filter_list regs l regs' A : arr_get regs reg = Some l -> inv A regs -> arr_set regs reg (filter (fun x => x <> 0) l) = Some regs' -> inv A regs'.
Proof using.
  intros Hl Hinv Hset. pose proof Hinv as []. split; try done.
  - by rewrite (arr_set_length _ _ _ _ Hset).
  - intros k l' Hk. rewrite (arr_get_set _ _ _ _ _ Hset) in Hk. destruct (Z.eqb_spec reg k) as [<-|]; [|by apply s_active0]. injection Hk as <-. destruct (s_active0 reg l Hl) as [Hnd Ha].
    split; [by rewrite list_filter_filter_l|]. intros r [_ Hr]%list_elem_of_filter. by apply Ha.
  - intros r c Hc Htodo Hout. apply (s_retired0 r c Hc Htodo). intros k l' Hk Hin. destruct (decide (k = reg)) as [->|Hne].
    + rewrite Hl in Hk. injection Hk as <-. apply (Hout reg (filter (fun x => x <> 0) l)); [by rewrite (arr_get_set _ _ _ _ _ Hset), Z.eqb_refl|]. apply list_elem_of_filter. split; [|done].
      intros ->. by rewrite (w_null _ _ s_world0) in Hc.
    + apply (Hout k l'); [|done]. rewrite (arr_get_set _ _ _ _ _ Hset). by rewrite (proj2 (Z.eqb_neq _ _)).
Qed.
End Advance.
Definition compact (regs : list (list Z)) : Prop := forall reg l, arr_get regs reg = Some l -> 0 ∉ l.
Definition all_advanced (st : Objects) (regs : list (list Z)) (s bound : Z) : Prop := forall reg l r, reg < bound -> arr_get regs reg = Some l -> r ∈ l -> advanced st s r.
Definition rewrites_rest (A A' : Allocator) : Prop := exists st ss regs, A' = with_registers (with_summaries (with_objects A st) ss) regs.
Abbreviation scan A W start cur := (scan_inv (file_ A) (objects_ A) (summaries_ A) (registers_ A) (unallocated_ A ++ cur) W start).

Section AdvanceAll.
Context (f : RegisterFile) (todo : list Z) (W : gmap Z range_contents) (s : Z).
Abbreviation inv A := (scan_inv f (objects_ A) (summaries_ A) (registers_ A) todo W s).
(** One register. *)
Lemma advance_list_spec A reg l : file_ A = f -> inv A -> compact (registers_ A) -> arr_get (registers_ A) reg = Some l -> all_advanced (objects_ A) (registers_ A) s reg ->
  exists A1 l1 fe l2 regs, advance_register (length l) A l s (-1) = Some (A1, l1, fe) /\ (if negb (fe =? -1) then RemoveEvicted l1 fe else Some l1) = Some l2 /\
    arr_set (registers_ A1) reg l2 = Some regs /\ rewrites_rest A (with_registers A1 regs) /\ inv (with_registers A1 regs) /\ compact regs /\
    all_advanced (objects_ A1) regs s (reg + 1) /\ only_fields (objects_ A) (objects_ A1).
Proof using.
  intros Hf Hinv Hcomp Hl Hprev. assert (Hb : 0 <= reg < zlen (registers_ A)) by (by eapply arr_get_Some).
  assert (Hset : arr_set (registers_ A) reg l = Some (registers_ A)).
  { apply arr_set_Some. split; [done|]. symmetry. apply list_insert_id. unfold arr_get in Hl. destruct (0 <=? reg); done. }
  assert (H0 : 0 ∉ l) by (by apply (Hcomp reg)).
  destruct (advance_register_spec f todo W s reg (length l) A (registers_ A) (registers_ A) l (-1) Hf Hset Hinv) as (A1 & l1 & fe & regs1 & Hadv & (st & ss & HA1) & Hset1 & Hinv1 & Hadv1 & Hgap & Hoth & Hof).
  - lia.
  - intros i _ Hi. apply H0. by eapply list_elem_of_lookup_2.
  - intros i r Hi Hr. apply lookup_lt_Some in Hr. lia.
  - by left.
  - assert (Hregs : registers_ A1 = registers_ A) by (by subst A1).
    assert (Hl2 : (if negb (fe =? -1) then RemoveEvicted l1 fe else Some l1) = Some (filter (fun x => x <> 0) l1)).
    { destruct Hgap as [[-> Hn]|(i & -> & Hi & Hlt)]; [cbn; by rewrite filter_nonzero|]. rewrite (proj2 (Z.eqb_neq _ _)) by lia. cbn [negb]. by apply RemoveEvicted_spec. }
    assert (Hset2 : exists regs, arr_set (registers_ A) reg (filter (fun x => x <> 0) l1) = Some regs) by (eexists; by apply arr_set_Some). destruct Hset2 as [regs Hset2].
    exists A1, l1, fe, (filter (fun x => x <> 0) l1), regs. split; [done|]. split; [done|]. split; [by rewrite Hregs|]. split; [by subst A1; exists st, ss, regs|]. split; [|split; [|split; [|done]]].
    + cbn. apply (filter_list f todo W s reg regs1 l1 regs A1); [by rewrite (arr_get_set _ _ _ _ _ Hset1), Z.eqb_refl|done|]. apply arr_set_Some in Hset1 as [Hb1 ->], Hset2 as [_ ->]. apply arr_set_Some.
      unfold zlen in *. rewrite length_insert. split; [done|]. by rewrite list_insert_insert_eq.
    + intros k l' Hk. rewrite (arr_get_set _ _ _ _ _ Hset2) in Hk. destruct (Z.eqb_spec reg k); [|by apply (Hcomp k)]. injection Hk as <-. intros [Hn _]%list_elem_of_filter. done.
    + intros k l' r Hk Hl' Hr. rewrite (arr_get_set _ _ _ _ _ Hset2) in Hl'. destruct (Z.eqb_spec reg k) as [<-|Hne].
      * injection Hl' as <-. apply list_elem_of_filter in Hr as [Hr0 Hr]. by apply Hadv1.
      * destruct (Hprev k l' r ltac:(lia) Hl' Hr) as (x & i & Hx & Hi & Hend). exists x, i. rewrite (of_intervals _ _ Hof), Hoth; [done| |].
        -- intros Hin. assert (Hr0 : r <> 0) by (intros ->; by apply (Hcomp k l')). apply Hne. destruct (s_active _ _ _ _ _ _ _ Hinv reg l Hl) as [_ Ha], (s_active _ _ _ _ _ _ _ Hinv k l' Hl') as [_ Ha'].
           by apply (active_inj _ _ _ _ _ _ _ _ (Ha r Hin Hr0) (Ha' r Hr Hr0)).
        -- intros ->. by apply (Hcomp k l').
Qed.
Lemma Advance_all_spec n A reg : file_ A = f -> 0 <= reg -> reg + Z.of_nat n = zlen (registers_ A) -> inv A -> compact (registers_ A) -> all_advanced (objects_ A) (registers_ A) s reg ->
  exists A', AdvanceActiveIntervals_loop n A reg s = Some A' /\ rewrites_rest A A' /\ inv A' /\ compact (registers_ A') /\ all_advanced (objects_ A') (registers_ A') s (reg + Z.of_nat n) /\
    only_fields (objects_ A) (objects_ A').
Proof using.
  revert A reg. induction n as [|n IH]; intros A reg Hf Hreg Hn Hinv Hcomp Hprev.
  - exists A. split; [done|]. split; [exists (objects_ A), (summaries_ A), (registers_ A); by destruct A|]. split; [done|]. split; [done|]. split; [by rewrite Z.add_0_r|reflexivity].
  - cbn [AdvanceActiveIntervals_loop]. destruct (arr_get_lt (registers_ A) reg) as [l Hl]; [lia|]. rewrite Hl. cbn [mbind option_bind].
    destruct (advance_list_spec A reg l Hf Hinv Hcomp Hl Hprev) as (A1 & l1 & fe & l2 & regs & -> & Hl2 & Hset & (st & ss & regs' & HA1) & Hinv1 & Hcomp1 & Hadv1 & Hof). cbn [mbind option_bind].
    rewrite Hl2. cbn [mbind option_bind]. rewrite Hset. cbn [mbind option_bind]. assert (Hlen : zlen regs = zlen (registers_ A)).
    { pose proof (s_file _ _ _ _ _ _ _ Hinv1) as [E _]. pose proof (s_file _ _ _ _ _ _ _ Hinv) as [E' _]. cbn in E. congruence. }
    destruct (IH (with_registers A1 regs) (reg + 1)) as (A' & -> & (st' & ss' & regs'' & HA') & Hinv' & Hcomp' & Hadv' & Hof').
    + rewrite HA1. done.
    + lia.
    + cbn. lia.
    + done.
    + done.
    + done.
    + exists A'. split; [done|]. split; [rewrite HA', HA1; by exists st', ss', regs''|]. split; [done|]. split; [done|]. split; [by replace (reg + Z.of_nat (S n)) with (reg + 1 + Z.of_nat n) by lia|]. by transitivity (objects_ A1).
Qed.
End AdvanceAll.
Lemma AdvanceActiveIntervals_spec A W s cur : scan A W s cur -> compact (registers_ A) -> exists A', AdvanceActiveIntervals A s = Some A' /\ rewrites_rest A A' /\ scan A' W s cur /\ compact (registers_ A') /\
  (forall reg l r, arr_get (registers_ A') reg = Some l -> r ∈ l -> advanced (objects_ A') s r) /\ only_fields (objects_ A) (objects_ A').
Proof.
  intros Hinv Hcomp. destruct (s_file _ _ _ _ _ _ _ Hinv) as [Hlen _]. pose proof (zlen_nonneg (registers_ A)). unfold AdvanceActiveIntervals, NumberOfRegisters.
  destruct (Advance_all_spec (file_ A) (unallocated_ A ++ cur) W s (Z.to_nat (number_of_registers_ (file_ A))) A 0) as (A' & -> & Hrw & Hinv' & Hcomp' & Hadv & Hof); try done; [lia| |].
  - intros reg l r Hr Hl. apply arr_get_Some in Hl. lia.
  - exists A'. split; [done|]. split; [done|]. assert (file_ A' = file_ A /\ unallocated_ A' = unallocated_ A) as [-> ->] by (by destruct Hrw as (? & ? & ? & ->)). split; [done|]. split; [done|]. split; [|done].
    intros reg l r Hl Hr. apply (Hadv reg l r); [|done|done]. destruct (s_file _ _ _ _ _ _ _ Hinv') as [Hlen' _]. apply arr_get_Some in Hl. lia.
Qed.

(** ** Looking for a free register *)
Lemma collect_witnesses {B} (Q : Z -> B -> Prop) (l : list Z) : (forall r, r ∈ l -> exists b, Q r b) -> exists al : list (Z * B), fst <$> al = l /\ forall r b, (r, b) ∈ al -> Q r b.
Proof.
  induction l as [|r l IH]; intros H; [exists []; split; [done|]; intros r b Hin; by apply not_elem_of_nil in Hin|]. destruct IH as (al & Hal & Hq); [intros x Hx; apply H; by right|].
  destruct (H r ltac:(by left)) as [b Hb]. exists ((r, b) :: al). split; [by rewrite fmap_cons, Hal|]. intros x y Hin. apply elem_of_cons in Hin as [E|Hin]; [by injection E as -> ->|by apply Hq].
Qed.
Lemma hint_defined m hint p ns fuel : seg use_next m p 0 ns -> (forall x, x ∈ ns -> hint_ x.2 = 0 \/ is_Some (hint (hint_ x.2))) -> (length ns < fuel)%nat -> is_Some (FirstHint_loop m hint fuel p).
Proof.
  revert p ns. induction fuel as [|fuel IH]; intros p ns Hs Hh Hfuel; [lia|]. cbn [FirstHint_loop]. destruct (Z.eqb_spec p 0) as [->|Hp]; [by eexists|].
  destruct (seg_nonnull _ _ _ _ Hs Hp) as (u & ns' & -> & Hu & Hs'). rewrite Hu. cbn [mbind option_bind]. unfold HasHint.
  assert (Hrest : is_Some (FirstHint_loop m hint fuel (use_next u))) by (apply (IH _ ns'); [done|intros x Hx; apply Hh; by right|cbn in Hfuel; lia]).
  destruct (Hh (p, u) ltac:(by left)) as [E|[x Hx]]; [cbn in E; by rewrite E|]. cbn in Hx. destruct (hint_ u =? 0); [done|]. rewrite Hx. cbn [mbind option_bind]. destruct x; cbn [IsUnallocated negb]; [done|by eexists].
Qed.
Lemma FirstHint_target m hint fuel p l : FirstHint_loop m hint fuel p = Some l -> l = NoLocation \/ exists h, hint h = Some (Allocated l).
Proof.
  revert p. induction fuel as [|fuel IH]; intros p Hl; [done|]. cbn [FirstHint_loop] in Hl. destruct (p =? 0); [injection Hl as <-; by left|]. destruct (m !! p) as [u|]; [|done]. cbn [mbind option_bind] in Hl.
  destruct (HasHint hint u) as [[]|]; [| |done]; cbn [mbind option_bind] in Hl; [|by apply (IH (use_next u))]. destruct (hint (hint_ u)) as [[]|] eqn:E; [done| |done]. cbn in Hl. injection Hl as <-. right. by exists (hint_ u).
Qed.

Section Free.
Context (A : Allocator) (W : gmap Z range_contents) (s u : Z) (c : range_contents) (range : LiveRange).
Context (Hinv : scan A W s [u]) (Hcomp : compact (registers_ A)) (Hc : W !! u = Some c) (Hx : ranges (objects_ A) !! u = Some range) (Hs : range_start (objects_ A) u = Some s).
Abbreviation N := (number_of_registers_ (file_ A)).
Abbreviation blocked reg := (arr_get (blocked_registers_ (file_ A)) reg).

(** Until when a register is free for [u]. *)
Definition free_at (reg pos : Z) : Prop := exists l, arr_get (registers_ A) reg = Some l /\ pos <= kMaxPosition /\
  (pos = kMaxPosition \/ live_at (c_intervals c) pos /\ exists r d, r ∈ l /\ W !! r = Some d /\ live_at (c_intervals d) pos) /\
  forall r d q, r ∈ l -> W !! r = Some d -> live_at (c_intervals d) q -> live_at (c_intervals c) q -> pos <= q.
Definition good_candidate (candidate free_until : Z) : Prop :=
  (candidate = kNoRegister /\ free_until = 0) \/ (0 <= candidate < N /\ blocked candidate = Some false /\ free_at candidate free_until).
Lemma u_waiting : waiting (objects_ A) W s u.
Proof using Hinv. apply (s_waiting _ _ _ _ _ _ _ Hinv), elem_of_app. right. by left. Qed.
Lemma u_fields : holds (objects_ A) u range c /\ assigned_location_ range = NoLocation /\ finger_ range = Finger_Initialize range /\ forall pos, live_at (c_intervals c) pos -> s <= pos.
Proof using All.
  destruct u_waiting as (d & x & H1 & H2 & H3 & H4 & H5). rewrite Hc in H1. rewrite Hx in H2. injection H1 as <-. injection H2 as <-. split; [|done].
  destruct (w_wf _ _ (s_world _ _ _ _ _ _ _ Hinv) u c Hc) as [y Hy]. pose proof (rw_range _ _ _ _ _ _ Hy) as E. rewrite Hx in E. by injection E as <-.
Qed.
Lemma intersection_spec reg : 0 <= reg < N -> exists pos, register_intersection A reg range = Some pos /\ free_at reg pos.
Proof using All.
  intros Hreg. destruct (s_file _ _ _ _ _ _ _ Hinv) as [Hlen _]. destruct (arr_get_lt (registers_ A) reg) as [l Hl]; [lia|]. unfold register_intersection. rewrite Hl. cbn [mbind option_bind].
  destruct u_fields as (Hwf & Hno & Hfin & Hlow). destruct (s_active _ _ _ _ _ _ _ Hinv reg l Hl) as [_ Hact].
  destruct (collect_witnesses (fun r Q => exists d P, W !! r = Some d /\ c_intervals d = P ++ Q /\ pending_of (objects_ A) r Q /\ forall x, x ∈ P -> end_ x.2 <= s) l) as (al & Hal & Hq).
  { intros r Hr. assert (Hr0 : r <> 0) by (intros ->; by apply (Hcomp reg l)). destruct (Hact r Hr Hr0) as (d & x & P & Q & H1 & H2 & H3 & H4 & H5 & H6 & H7). exists Q, d, P. split; [done|]. split; [done|]. split; [|done].
    exists x. split; [done|]. split; [done|]. split; [done|]. destruct (w_wf _ _ (s_world _ _ _ _ _ _ _ Hinv) r d H1) as [y Hy]. pose proof (rw_order _ _ _ _ _ _ Hy) as Ho. rewrite H4 in Ho. by apply in_order_app in Ho as (_ & ? & _). }
  unfold FirstIntersectionWithAllocated. rewrite Hfin, <- Hal. cbn [Finger_Initialize first_pending_use_interval_].
  destruct (FirstIntersection_all_spec (objects_ A) (first_use_interval_ range) (c_intervals c) al kMaxPosition) as (pos & -> & H1 & H2 & H3); [apply Hwf|apply Hwf|lia| |].
  - intros r Q Hin. right. destruct (Hq r Q Hin) as (d & P & _ & _ & Hp & _). split; [|done]. intros ->. apply (Hcomp reg l Hl). rewrite <- Hal. by apply (list_elem_of_fmap_2 fst _ (0, Q)).
  - exists pos. split; [done|]. exists l. split; [done|]. split; [done|]. split.
    + destruct H2 as [H2|(r & Q & Hin & HQ & Hu)]; [by left|right]. split; [done|]. destruct (Hq r Q Hin) as (d & P & Hd & HI & _ & _). exists r, d. split; [rewrite <- Hal; by apply (list_elem_of_fmap_2 fst _ (r, Q))|].
      split; [done|]. rewrite HI, live_at_app. by right.
    + intros r d q Hr Hd Hlive Hu. rewrite <- Hal in Hr. apply list_elem_of_fmap in Hr as ([r' Q] & -> & Hin). cbn in Hd. destruct (Hq r' Q Hin) as (d' & P & Hd' & HI & _ & HP). rewrite Hd in Hd'. injection Hd' as <-.
      rewrite HI, live_at_app in Hlive. destruct Hlive as [(z & i & Hz & Hi)|Hlive]; [|by eapply H3]. specialize (HP _ Hz). specialize (Hlow _ Hu). cbn in HP. lia.
Qed.
Lemma find_unused_spec n reg : 0 <= reg -> reg + Z.of_nat n = N -> exists candidate free_until, find_unused n A reg = Some (candidate, free_until) /\ good_candidate candidate free_until.
Proof using All.
  revert reg. induction n as [|n IH]; intros reg Hreg Hn; [exists kNoRegister, 0; split; [done|by left]|]. cbn [find_unused]. destruct (s_file _ _ _ _ _ _ _ Hinv) as [Hlen Hlenb].
  destruct (arr_get_lt (registers_ A) reg) as [l Hl]; [lia|]. destruct (arr_get_lt (blocked_registers_ (file_ A)) reg) as [b Hb]; [lia|]. rewrite Hl, Hb. cbn [mbind option_bind].
  destruct (negb b && (zlen l =? 0)) eqn:E; [|apply IH; lia]. apply andb_true_iff in E as [Eb%negb_true_iff El%Z.eqb_eq]. exists reg, kMaxPosition. split; [done|]. right. split; [lia|]. split; [by rewrite Hb, Eb|].
  exists l. split; [done|]. split; [lia|]. split; [by left|]. intros r d q Hr. unfold zlen in El. destruct l; [by apply not_elem_of_nil in Hr|done].
Qed.
(** No register that is not blocked is free longer. *)
Definition best (bound free_until : Z) : Prop := forall k, 0 <= k < bound -> blocked k = Some false -> exists pos, free_at k pos /\ pos <= free_until.
Lemma best_step reg free_until b : best reg free_until -> blocked reg = Some b -> (b = false -> exists pos, free_at reg pos /\ pos <= free_until) -> best (reg + 1) free_until.
Proof using. intros Hbest Hb Hreg k Hk Hkb. destruct (decide (k = reg)) as [->|]; [apply Hreg; congruence|apply Hbest; [lia|done]]. Qed.
Lemma search_longest_spec n reg candidate free_until : 0 <= reg -> reg + Z.of_nat n = N -> good_candidate candidate free_until -> best reg free_until ->
  exists candidate' free_until', search_longest n A range reg candidate free_until = Some (candidate', free_until') /\ good_candidate candidate' free_until' /\ best N free_until'.
Proof using All.
  revert reg candidate free_until. induction n as [|n IH]; intros reg candidate free_until Hreg Hn Hgood Hbest.
  { exists candidate, free_until. split; [done|]. split; [done|]. by replace N with reg by lia. }
  cbn [search_longest]. destruct (s_file _ _ _ _ _ _ _ Hinv) as [Hlen Hlenb]. destruct (arr_get_lt (blocked_registers_ (file_ A)) reg) as [b Hb]; [lia|]. rewrite Hb. cbn [mbind option_bind].
  destruct (b || (reg =? candidate)) eqn:E.
  - apply IH; [lia|lia|done|]. apply (best_step _ _ b Hbest Hb). intros ->. cbn in E. apply Z.eqb_eq in E as <-. destruct Hgood as [[-> _]|(_ & _ & Hf)]; [unfold kNoRegister in *; lia|]. exists free_until. split; [done|lia].
  - apply orb_false_iff in E as [-> _]. destruct (intersection_spec reg ltac:(lia)) as (pos & -> & Hf). cbn [mbind option_bind]. destruct (Z.gtb_spec pos free_until) as [Hgt|Hle].
    + assert (Hgood' : good_candidate reg pos) by (right; split; [lia|done]). assert (Hbest' : best (reg + 1) pos).
      { apply (best_step _ _ false); [|done|intros _; exists pos; split; [done|lia]]. intros k Hk Hkb. destruct (Hbest k Hk Hkb) as (p & Hp & Hle). exists p. split; [done|lia]. }
      destruct (Z.eqb_spec pos kMaxPosition) as [->|]; [|by apply IH; [lia|lia|..]]. exists reg, kMaxPosition. split; [done|]. split; [done|]. intros k Hk Hkb.
      destruct (intersection_spec k Hk) as (p & _ & Hp). exists p. split; [done|]. by destruct Hp as (l & _ & Hle & _).
    + apply IH; [lia|lia|done|]. apply (best_step _ _ false Hbest Hb). intros _. exists pos. split; [done|lia].
Qed.
Lemma search_no_interference_spec n reg used candidate free_until : 0 <= reg -> reg + Z.of_nat n = N -> zlen used = N -> good_candidate candidate free_until ->
  exists candidate' free_until', search_no_interference n A range used reg candidate free_until = Some (candidate', free_until') /\ good_candidate candidate' free_until' /\ free_until <= free_until'.
Proof using All.
  revert reg. induction n as [|n IH]; intros reg Hreg Hn Hused Hgood; [exists candidate, free_until; split; [done|]; split; [done|lia]|].
  cbn [search_no_interference]. destruct (s_file _ _ _ _ _ _ _ Hinv) as [Hlen Hlenb]. destruct (arr_get_lt (blocked_registers_ (file_ A)) reg) as [b Hb]; [lia|]. destruct (arr_get_lt used reg) as [v Hv]; [lia|].
  rewrite Hb, Hv. cbn [mbind option_bind]. destruct (b || (reg =? candidate) || v) eqn:E; [apply IH; [lia|lia|done|done]|]. apply orb_false_iff in E as [[-> _]%orb_false_iff _].
  destruct (intersection_spec reg ltac:(lia)) as (pos & -> & Hf). cbn [mbind option_bind]. destruct (Z.geb_spec pos free_until); [|apply IH; [lia|lia|done|done]].
  exists reg, pos. split; [done|]. split; [|lia]. right. split; [lia|done].
Qed.
End Free.

(** ** The back edge *)
Definition known (A : Allocator) (v : Z) : Prop := exists r x, arr_get (live_ranges_ A) v = Some r /\ r <> 0 /\ ranges (objects_ A) !! r = Some x.
Record graph_ok (g : Graph) (A : Allocator) (W : gmap Z range_contents) : Prop := {
  g_blocks r c pos : W !! r = Some c -> live_at (c_intervals c) pos -> is_Some (BlockEntryAt g pos);
  g_loops pos block id : BlockEntryAt g pos = Some block -> block_loop_info block = Some id -> is_Some (arr_get (extra_loop_info_ g) id) /\
    exists loop, arr_get (loop_headers g) id = Some loop /\ forall phi, phi ∈ header_phis loop ->
      known A (ssa_temp_index phi) /\ (HasPairRepresentation phi = true -> known A (ToSecondPairVreg (ssa_temp_index phi))) }.
Lemma graph_ok_mono g A A' W W' : graph_ok g A W -> live_ranges_ A' = live_ranges_ A -> (forall r x, ranges (objects_ A) !! r = Some x -> is_Some (ranges (objects_ A') !! r)) ->
  (forall r c pos, W' !! r = Some c -> live_at (c_intervals c) pos -> exists r' c', W !! r' = Some c' /\ live_at (c_intervals c') pos) -> graph_ok g A' W'.
Proof.
  intros [Hb Hl] Hlr Hr Hw. assert (Hk : forall v, known A v -> known A' v) by (intros v (r & x & H1 & H2 & H3); destruct (Hr r x H3) as [y Hy]; exists r, y; by rewrite Hlr). split.
  - intros r c pos Hc Hp. destruct (Hw r c pos Hc Hp) as (r' & c' & Hc' & Hp'). by apply (Hb r' c').
  - intros pos block id Hblock Hid. destruct (Hl pos block id Hblock Hid) as (He & loop & Hloop & Hphi). split; [done|]. exists loop. split; [done|]. intros phi Hin. destruct (Hphi phi Hin) as [H1 H2]. split; auto.
Qed.
Section BackEdge.
Context (g : Graph) (A : Allocator) (W : gmap Z range_contents) (s u : Z) (c : range_contents) (range : LiveRange).
Context (Hinv : scan A W s [u]) (Hcomp : compact (registers_ A)) (Hc : W !! u = Some c) (Hx : ranges (objects_ A) !! u = Some range) (Hs : range_start (objects_ A) u = Some s).
Context (Hg : graph_ok g A W).
Abbreviation N := (number_of_registers_ (file_ A)).
Lemma mark_used_spec used vreg v phi : known A v -> zlen used = N -> exists used', mark_used g A used vreg v phi = Some (used', A) /\ zlen used' = N.
Proof using Hinv.
  intros (r & x & H1 & H2 & H3) Hlen. unfold mark_used, GetLiveRange. rewrite H1. cbn [mbind option_bind]. rewrite (proj2 (Z.eqb_neq _ _)) by done. cbn [mbind option_bind]. rewrite H3. cbn [mbind option_bind].
  destruct (has_kind _ _ && _) eqn:E; [|by exists used]. apply andb_true_iff in E as [E _]. assert (Hm : IsMachineRegister (assigned_location_ x) = true) by (by destruct (register_kind_ (file_ A)), (assigned_location_ x)). pose proof (s_ranges _ _ _ _ _ _ _ Hinv r x H3 Hm) as Hb.
  assert (Hset : exists used', arr_set used (register_code (assigned_location_ x)) true = Some used') by (eexists; apply arr_set_Some; split; [lia|done]). destruct Hset as [used' Hset]. rewrite Hset.
  exists used'. split; [done|]. by rewrite (arr_set_length _ _ _ _ Hset).
Qed.
Lemma used_on_backedge_spec vreg phis used : zlen used = N -> (forall phi, phi ∈ phis -> known A (ssa_temp_index phi) /\ (HasPairRepresentation phi = true -> known A (ToSecondPairVreg (ssa_temp_index phi)))) ->
  exists used', used_on_backedge g A used vreg phis = Some (used', A) /\ zlen used' = N.
Proof using Hinv.
  revert used. induction phis as [|phi phis IH]; intros used Hlen Hk; [by exists used|]. cbn [used_on_backedge]. destruct (Hk phi ltac:(by left)) as [H1 H2].
  destruct (mark_used_spec used vreg _ phi H1 Hlen) as (used1 & -> & Hlen1). cbn [mbind option_bind]. assert (Hrest : forall phi, phi ∈ phis -> known A (ssa_temp_index phi) /\ (HasPairRepresentation phi = true -> known A (ToSecondPairVreg (ssa_temp_index phi)))) by (intros p Hp; apply Hk; by right).
  destruct (HasPairRepresentation phi); [|by apply IH]. destruct (mark_used_spec used1 vreg _ phi (H2 eq_refl) Hlen1) as (used2 & -> & Hlen2). by apply IH.
Qed.
Lemma start_live : live_at (c_intervals c) s.
Proof using All. destruct (world_start _ _ u c (s_world _ _ _ _ _ _ _ Hinv) Hc) as (t & Ht & _ & Hl & _). rewrite Hs in Ht. by injection Ht as ->. Qed.
Lemma start_nonneg : 0 <= s.
Proof using All. destruct (world_start _ _ u c (s_world _ _ _ _ _ _ _ Hinv) Hc) as (t & Ht & H0 & _). rewrite Hs in Ht. by injection Ht as ->. Qed.
Lemma avoid_back_edge_spec candidate free_until : good_candidate A W c candidate free_until -> s < free_until ->
  exists candidate' free_until', avoid_back_edge g A range s candidate free_until = Some (candidate', free_until', A) /\ good_candidate A W c candidate' free_until' /\ free_until <= free_until'.
Proof using All.
  intros Hgood Hgt. unfold avoid_back_edge. destruct (g_blocks _ _ _ Hg u c s Hc start_live) as [block Hb]. rewrite Hb. cbn [mbind option_bind].
  assert (Hsame : exists candidate' free_until', Some (candidate, free_until, A) = Some (candidate', free_until', A) /\ good_candidate A W c candidate' free_until' /\ free_until <= free_until') by (exists candidate, free_until; split; [done|]; split; [done|lia]).
  destruct (block_loop_info block) as [id|] eqn:Eid; [|done]. destruct (vreg_ range >=? 0); [|done]. destruct (g_loops _ _ _ Hg s block id Hb Eid) as ([extra Hextra] & loop & Hloop & Hphi). rewrite Hextra. cbn [mbind option_bind].
  destruct (_ && _); [|done]. rewrite Hloop. cbn [mbind option_bind]. destruct (s_file _ _ _ _ _ _ _ Hinv) as [Hlen Hlenb]. pose proof (zlen_nonneg (registers_ A)).
  destruct (used_on_backedge_spec (vreg_ range) (header_phis loop) (replicate (Z.to_nat (NumberOfRegisters A)) false)) as (used & -> & Hused); [unfold zlen; rewrite length_replicate; unfold NumberOfRegisters; lia|done|]. cbn [mbind option_bind].
  destruct Hgood as [[-> ->]|Hgood]; [pose proof start_nonneg; lia|]. destruct Hgood as (Hcand & Hrest). destruct (arr_get_lt used candidate) as [v Hv]; [lia|]. rewrite Hv. cbn [mbind option_bind]. destruct v; [|done].
  destruct (search_no_interference_spec A W s u c range Hinv Hcomp Hc Hx Hs (Z.to_nat (NumberOfRegisters A)) 0 used candidate free_until) as (candidate' & free_until' & -> & H1 & H2); try done; [unfold NumberOfRegisters; lia|by right|].
  cbn [mbind option_bind]. by exists candidate', free_until'.
Qed.
End BackEdge.

(** ** Assigning a register *)
Lemma scan_status f st ss regs todo W s r d : scan_inv f st ss regs todo W s -> W !! r = Some d ->
  r ∈ todo \/ (exists reg l, arr_get regs reg = Some l /\ r ∈ l) \/ retired f st ss W s r.
Proof.
  intros Hinv Hd. destruct (decide (r ∈ todo)); [by left|right]. destruct (decide (Exists (fun l => r ∈ l) regs)) as [He|Hn].
  - left. apply list.Exists_exists in He as (l & Hl & Hr). apply list_elem_of_lookup in Hl as [i Hi]. exists (Z.of_nat i), l. split; [|done]. unfold arr_get. rewrite (proj2 (Z.leb_le _ _)) by lia. by rewrite Nat2Z.id.
  - right. apply (s_retired _ _ _ _ _ _ _ Hinv r d Hd); [done|]. intros reg l Hl Hr. apply Hn, list.Exists_exists. exists l. split; [|done]. unfold arr_get in Hl. destruct (0 <=? reg); [|done]. by eapply list_elem_of_lookup_2.
Qed.
Section Assign.
Context (f : RegisterFile) (st st' : Objects) (ss : gmap Z LocationSummary) (regs regs' : list (list Z)) (todo todo' : list Z) (W W' : gmap Z range_contents).
Context (s u : Z) (c c1 : range_contents) (x1 : LiveRange) (cand free_until : Z) (l : list Z).
Context (Hinv : scan_inv f st ss regs (todo ++ [u]) W s) (Hc : W !! u = Some c) (Hw' : world st' W') (Hsafe : forall a sp, safepoints st' !! a = Some sp -> is_Some (ss !! locs_ sp)).
Context (Hslots : slots st' = slots st) (Hc1 : W' !! u = Some c1) (Hx1 : ranges st' !! u = Some x1) (Hactive : active f st' W' s cand u).
Context (Hlive : forall pos, live_at (c_intervals c1) pos -> live_at (c_intervals c) pos /\ pos < free_until).
Context (Hold : forall r d, W !! r = Some d -> r <> u -> W' !! r = Some d /\ ranges st' !! r = ranges st !! r).
Context (Hnew : forall r d, W' !! r = Some d -> r = u \/ W !! r = Some d \/ (r ∈ todo' /\ waiting st' W' s r)).
Context (Hint : forall b n, intervals st !! b = Some n -> b ∉ (c_intervals c).*1 -> intervals st' !! b = Some n).
Context (Hvalid : forall r x, ranges st' !! r = Some x -> valid_register f (assigned_location_ x)).
Context (Hl : arr_get regs cand = Some l) (Hset : arr_set regs cand (l ++ [u]) = Some regs').
Context (Hfree : forall r d q, r ∈ l -> W !! r = Some d -> live_at (c_intervals d) q -> live_at (c_intervals c) q -> free_until <= q).
Context (Hsub : forall r, r ∈ todo -> r ∈ todo') (Hsup : forall r, r ∈ todo' -> r ∈ todo \/ waiting st' W' s r) (Hu : u ∉ todo') (Hnd : NoDup todo') (Hsort : StronglySorted (later st') todo').

Lemma u_low pos : live_at (c_intervals c) pos -> s <= pos.
Proof using Hinv Hc.
  destruct (s_waiting _ _ _ _ _ _ _ Hinv u) as (d & x & H1 & _ & _ & _ & H5); [apply elem_of_app; right; by left|]. rewrite Hc in H1. injection H1 as <-. apply H5.
Qed.
(** What a range other than [u] was. *)
Lemma old_cases r d x : W' !! r = Some d -> ranges st' !! r = Some x -> r <> u -> assigned_location_ x = NoLocation \/
  (W !! r = Some d /\ ranges st !! r = Some x /\ ((exists reg k, arr_get regs reg = Some k /\ r ∈ k /\ register_of f x reg) \/ forall pos, live_at (c_intervals d) pos -> pos < s)).
Proof using Hinv Hw' Hold Hnew.
  intros Hd Hx Hne. destruct (Hnew r d Hd) as [?|[Ho|[_ (d' & x' & _ & Hx' & Hno & _)]]]; [done| |left; congruence]. destruct (Hold r d Ho Hne) as [_ E]. rewrite E in Hx.
  destruct (scan_status _ _ _ _ _ _ _ _ _ Hinv Ho) as [Ht|[(reg & k & Hk & Hr)|Hret]].
  - destruct (s_waiting _ _ _ _ _ _ _ Hinv r Ht) as (d' & x' & _ & Hx' & Hno & _). left. congruence.
  - right. split; [done|]. split; [done|]. left. exists reg, k. split; [done|]. split; [done|]. destruct (s_active _ _ _ _ _ _ _ Hinv reg k Hk) as [_ Ha].
    destruct (Ha r Hr) as (d' & x' & _ & _ & _ & Hx' & Hreg & _); [intros ->; by rewrite (w_null _ _ Hw') in Hd|]. rewrite Hx in Hx'. by injection Hx' as <-.
  - right. split; [done|]. split; [done|]. right. destruct Hret as (d' & x' & reg & Hd' & _ & _ & Hlow & _). rewrite Ho in Hd'. by injection Hd' as <-.
Qed.
Lemma u_exclusive r d x pos : r <> u -> W' !! r = Some d -> ranges st' !! r = Some x -> assigned_location_ x = assigned_location_ x1 -> live_at (c_intervals d) pos -> live_at (c_intervals c1) pos -> False.
Proof using All.
  intros Hne Hd Hx Hloc Hld Hlu. destruct (Hlive pos Hlu) as [Hlc Hlt]. destruct Hactive as (c' & x' & _ & _ & _ & Hx' & Hreg & _). rewrite Hx1 in Hx'. injection Hx' as <-.
  destruct (register_of_machine _ _ _ Hreg) as [Hm _]. destruct (old_cases r d x Hd Hx Hne) as [Hno|(Ho & _ & [(reg & k & Hk & Hr & Hreg')|Hlow])].
  - rewrite <- Hloc, Hno in Hm. done.
  - assert (reg = cand) as ->.
    { destruct Hreg as (_ & E1 & _), Hreg' as (_ & E2 & _). rewrite E1, E2 in Hloc. unfold MachineRegisterLocation in Hloc. destruct (register_kind_ f); by injection Hloc. }
    rewrite Hl in Hk. injection Hk as <-. specialize (Hfree r d pos Hr Ho Hld Hlc). lia.
  - specialize (Hlow pos Hld). pose proof (u_low pos Hlc). lia.
Qed.
Lemma active_kept reg r : active f st W s reg r -> r <> u -> active f st' W' s reg r.
Proof using Hinv Hc Hold Hint.
  intros (d & x & P & Q & H1 & H2 & H3 & H4 & H5 & H6 & H7) Hne. destruct (Hold r d H1 Hne) as [H1' E]. exists d, x, P, Q. rewrite E. split; [done|]. split; [done|]. split; [done|]. split; [done|]. split; [done|]. split; [|done].
  apply (seg_agree _ (intervals st)); [done|]. intros a Ha. destruct (seg_ids _ _ _ _ _ _ H6 Ha) as [n Hn]. rewrite Hn. apply Hint; [done|].
  destruct (w_separate _ _ (s_world _ _ _ _ _ _ _ Hinv) r u d c H1 Hc Hne) as (D & _). apply D. rewrite H4, fmap_app. apply elem_of_app. by right.
Qed.
Lemma scan_assign : scan_inv f st' ss regs' todo' W' s.
Proof using All.
  pose proof Hinv as []. split; try done.
  - by rewrite (arr_set_length _ _ _ _ Hset).
  - by rewrite Hslots.
  - intros r Hr. destruct (Hsup r Hr) as [Ht|]; [|done]. assert (Hne : r <> u) by (by intros ->). destruct (s_waiting0 r) as (d & x & H1 & H2 & H3); [apply elem_of_app; by left|]. destruct (Hold r d H1 Hne) as [H1' E]. exists d, x. by rewrite E.
  - intros reg k Hk. rewrite (arr_get_set _ _ _ _ _ Hset) in Hk. assert (Hnot : forall reg k, arr_get regs reg = Some k -> u ∉ k).
    { intros reg' k' Hk' Hin. destruct (s_active0 reg' k' Hk') as [_ Ha]. apply (active_not_todo _ _ _ _ _ _ _ reg' u Hinv); [|apply elem_of_app; right; by left]. apply Ha; [done|]. intros E. rewrite E in Hc. by rewrite (w_null _ _ s_world0) in Hc. }
    assert (Hu0 : u <> 0) by (intros E; rewrite E in Hc; by rewrite (w_null _ _ s_world0) in Hc).
    destruct (Z.eqb_spec cand reg) as [<-|Hne].
    + injection Hk as <-. destruct (s_active0 cand l Hl) as [Hndl Ha]. split.
      * rewrite filter_app, filter_cons, decide_True, filter_nil by done. apply NoDup_app. split; [done|]. split; [|apply NoDup_singleton]. intros r Hr Hr'. apply list_elem_of_singleton in Hr' as ->.
        apply list_elem_of_filter in Hr as [_ Hr]. by apply (Hnot cand l).
      * intros r Hr Hr0. apply elem_of_app in Hr as [Hr|Hr]; [|apply list_elem_of_singleton in Hr as ->; done]. apply active_kept; [by apply Ha|]. intros ->. by apply (Hnot cand l).
    + destruct (s_active0 reg k Hk) as [Hndk Ha]. split; [done|]. intros r Hr Hr0. apply active_kept; [by apply Ha|]. intros ->. by apply (Hnot reg k).
  - intros r d Hd Ht Hout. assert (Hne : r <> u).
    { intros ->. apply (Hout cand (l ++ [u])); [by rewrite (arr_get_set _ _ _ _ _ Hset), Z.eqb_refl|]. apply elem_of_app. right. by left. }
    destruct (Hnew r d Hd) as [?|[Ho|[? _]]]; [done| |done]. destruct (Hold r d Ho Hne) as [_ E]. destruct (s_retired0 r d Ho) as (d' & x & reg & H1 & H2 & H3 & H4 & H5).
    { intros [Hin|Hin]%elem_of_app; [by apply Ht, Hsub|by apply list_elem_of_singleton in Hin]. }
    { intros reg k Hk Hr. destruct (decide (cand = reg)) as [<-|Hn]; [|apply (Hout reg k); [|done]; rewrite (arr_get_set _ _ _ _ _ Hset); by rewrite (proj2 (Z.eqb_neq _ _))].
      rewrite Hl in Hk. injection Hk as <-. apply (Hout cand (l ++ [u])); [by rewrite (arr_get_set _ _ _ _ _ Hset), Z.eqb_refl|]. apply elem_of_app. by left. }
    exists d', x, reg. rewrite E. destruct (Hold r d' H1 Hne) as [H1' _]. split; [done|]. split; [done|]. split; [done|]. split; [done|]. intros Hv. destruct (H5 Hv) as [Hcv Hrg]. split; [|done]. intros y Hy. rewrite Hslots. by apply Hcv.
  - intros r1 r2 d1 d2 y1 y2 pos Hne H1 H2 E1 E2 Hm Hloc L1 L2. destruct (decide (r1 = u)) as [->|N1].
    { rewrite Hc1 in H1. rewrite Hx1 in E1. injection H1 as <-. injection E1 as <-. by apply (u_exclusive r2 d2 y2 pos). }
    destruct (decide (r2 = u)) as [->|N2]; [rewrite Hc1 in H2; rewrite Hx1 in E2; injection H2 as <-; injection E2 as <-; by apply (u_exclusive r1 d1 y1 pos)|].
    destruct (old_cases r1 d1 y1 H1 E1 N1) as [Hno|(O1 & F1 & _)]; [by rewrite Hno in Hm|]. destruct (old_cases r2 d2 y2 H2 E2 N2) as [Hno|(O2 & F2 & _)]; [by rewrite Hloc, Hno in Hm|].
    by apply (s_exclusive0 r1 r2 d1 d2 y1 y2 pos).
Qed.
End Assign.

(** ** The list of ranges to be allocated *)
Lemma range_start_Some st r s : range_start st r = Some s -> exists x, ranges st !! r = Some x /\ Range_Start st x = Some s.
Proof. unfold range_start. destruct (ranges st !! r) as [x|]; [|done]. by exists x. Qed.
Lemma ShouldBeAllocatedBefore_spec st a b s s' : range_start st a = Some s -> range_start st b = Some s' -> ShouldBeAllocatedBefore st a b = Some (s <=? s').
Proof. intros (x & Hx & Hs)%range_start_Some (y & Hy & Hs')%range_start_Some. unfold ShouldBeAllocatedBefore. by rewrite Hx, Hy; cbn [mbind option_bind]; rewrite Hs, Hs'. Qed.
Lemma InsertAt_spec st l i r : StronglySorted (later st) l -> (forall b, b ∈ take i l -> later st b r) -> (forall b, b ∈ drop i l -> later st r b) ->
  StronglySorted (later st) (InsertAt l i r) /\ InsertAt l i r ≡ₚ r :: l.
Proof.
  intros Hsort H1 H2. unfold InsertAt. split.
  - rewrite <- (take_drop i l) in Hsort. apply StronglySorted_app in Hsort as (Hcross & S1 & S2). apply StronglySorted_app_2; [|done|].
    + intros x y Hx Hy. apply elem_of_cons in Hy as [->|Hy]; [by apply H1|by apply Hcross].
    + constructor; [done|]. apply list.Forall_forall. done.
  - rewrite <- Permutation_middle. by rewrite take_drop.
Qed.
Lemma insert_range_spec st l r s n : range_start st r = Some s -> (forall b, b ∈ l -> is_Some (range_start st b)) -> StronglySorted (later st) l -> (n <= length l)%nat ->
  (forall b, b ∈ drop n l -> later st r b) -> exists l', insert_range n st l r = Some l' /\ StronglySorted (later st) l' /\ l' ≡ₚ r :: l.
Proof.
  intros Hs Hall Hsort. induction n as [|i IH]; intros Hn Hafter.
  - eexists. split; [done|]. apply InsertAt_spec; [done| |done]. intros b Hb. by apply not_elem_of_nil in Hb.
  - cbn [insert_range]. destruct (lookup_lt_is_Some_2 l i) as [b Hb]; [lia|]. rewrite Hb. cbn [mbind option_bind]. destruct (Hall b (list_elem_of_lookup_2 _ _ _ Hb)) as [s' Hs'].
    rewrite (ShouldBeAllocatedBefore_spec _ _ _ _ _ Hs Hs'). cbn [mbind option_bind]. destruct (Z.leb_spec s s') as [Hle|Hgt].
    + eexists. split; [done|]. apply InsertAt_spec; [done| |done]. intros x Hx. rewrite (take_S_r _ _ _ Hb) in Hx. apply elem_of_app in Hx as [Hx|Hx]; [|apply list_elem_of_singleton in Hx as ->; by exists s', s].
      rewrite <- (take_drop i l) in Hsort. apply StronglySorted_app in Hsort as (Hcross & _ & _). rewrite (drop_S _ _ _ Hb) in Hcross. destruct (Hcross x b Hx ltac:(by left)) as (t & t' & Ht & Ht' & Hlt). exists t, s. split; [done|]. split; [done|].
      assert (t' = s') by congruence. lia.
    + apply IH; [lia|]. intros x Hx. rewrite (drop_S _ _ _ Hb) in Hx. apply elem_of_cons in Hx as [->|Hx]; [exists s, s'; split; [done|]; split; [done|lia]|by apply Hafter].
Qed.
Lemma AddToUnallocated_spec A r x s : ranges (objects_ A) !! r = Some x -> range_start (objects_ A) r = Some s -> (forall b, b ∈ unallocated_ A -> is_Some (range_start (objects_ A) b)) ->
  StronglySorted (later (objects_ A)) (unallocated_ A) -> exists l, AddToUnallocated A r = Some (with_unallocated (with_objects A (put_range (objects_ A) r (with_finger x (Finger_Initialize x)))) l) /\
    StronglySorted (later (put_range (objects_ A) r (with_finger x (Finger_Initialize x)))) l /\ l ≡ₚ r :: unallocated_ A.
Proof.
  intros Hx Hs Hall Hsort. unfold AddToUnallocated, AddToSortedListOfRanges. rewrite Hx. cbn [mbind option_bind]. set (st := put_range _ _ _).
  assert (Hof : only_fields (objects_ A) st) by (by apply (only_fields_put _ _ x)).
  destruct (insert_range_spec st (unallocated_ A) r s (length (unallocated_ A))) as (l & -> & H1 & H2).
  - by apply (only_fields_start (objects_ A)).
  - intros b Hb. destruct (Hall b Hb) as [t Ht]. exists t. by apply (only_fields_start (objects_ A)).
  - apply (later_mono (objects_ A)); [|done]. intros b t _. by apply only_fields_start.
  - done.
  - intros b Hb. rewrite drop_all in Hb. by apply not_elem_of_nil in Hb.
  - exists l. done.
Qed.

(** ** [AllocateFreeRegister] *)
(** The positions at which a range is live. *)
Definition live_set (ns : nodes) : gset Z := ⋃ ((fun x => list_to_set (seqZ (start_ x.2) (end_ x.2 - start_ x.2))) <$> ns).
Lemma live_set_spec ns pos : pos ∈ live_set ns <-> live_at ns pos.
Proof.
  unfold live_set, live_at. rewrite elem_of_union_list. split.
  - intros (X & HX & Hp). apply list_elem_of_fmap in HX as ([a i] & -> & Hin). apply elem_of_list_to_set, elem_of_seqZ in Hp. exists a, i. split; [done|]. cbn in Hp. lia.
  - intros (a & i & Hin & Hp). eexists. split; [by apply list_elem_of_fmap_2|]. apply elem_of_list_to_set, elem_of_seqZ. cbn. lia.
Qed.
Definition weight (W : gmap Z range_contents) (r : Z) : nat := match W !! r with Some c => size (live_set (c_intervals c)) | None => 0%nat end.
Definition work (W : gmap Z range_contents) (todo : list Z) : nat := sum_list (weight W <$> todo).
Lemma work_perm W l l' : l ≡ₚ l' -> work W l = work W l'.
Proof. intros H. unfold work. by rewrite H. Qed.
Lemma work_app W l l' : work W (l ++ l') = (work W l + work W l')%nat.
Proof. unfold work. induction l as [|r l IH]; [done|]. cbn in *. lia. Qed.
Lemma work_ext W W' l : (forall r, r ∈ l -> W' !! r = W !! r) -> work W' l = work W l.
Proof. intros H. unfold work. f_equal. apply list_fmap_ext. intros i r Hr. unfold weight. rewrite H; [done|]. by eapply list_elem_of_lookup_2. Qed.
(** What the ranges of a value have: live positions, uses with the slots
    they fill, safepoints with their summaries. *)
Definition value_has (F : range_contents -> Prop) (st : Objects) (W : gmap Z range_contents) (v : Z) : Prop :=
  exists r c x, W !! r = Some c /\ ranges st !! r = Some x /\ vreg_ x = v /\ F c.
Definition live_value (st : Objects) (W : gmap Z range_contents) (v pos : Z) : Prop := value_has (fun c => live_at (c_intervals c) pos) st W v.
Definition used_in (pos slot : Z) (c : range_contents) : Prop := exists a n, (a, n) ∈ c_uses c /\ pos_ n = pos /\ location_slot_ n = slot.
Definition safe_in (pos locs : Z) (c : range_contents) : Prop := exists a n, (a, n) ∈ c_safepoints c /\ safepoint_pos n = pos /\ locs_ n = locs.
Record same_values (st : Objects) (W : gmap Z range_contents) (st' : Objects) (W' : gmap Z range_contents) : Prop := {
  sv_live v pos : live_value st W v pos <-> live_value st' W' v pos;
  sv_uses v pos slot : value_has (used_in pos slot) st W v <-> value_has (used_in pos slot) st' W' v;
  sv_safepoints v pos locs : value_has (safe_in pos locs) st W v <-> value_has (safe_in pos locs) st' W' v }.
Lemma same_values_trans st1 W1 st2 W2 st3 W3 : same_values st1 W1 st2 W2 -> same_values st2 W2 st3 W3 -> same_values st1 W1 st3 W3.
Proof. intros [] []. split; intros; etransitivity; eauto. Qed.
Lemma value_has_fields F st st' W v : world st W -> only_fields st st' -> value_has F st W v <-> value_has F st' W v.
Proof.
  intros Hw Hof. split; intros (r & c & x & Hc & Hx & Hv & Hp).
  - destruct (of_ranges _ _ Hof _ _ Hx) as (x' & Hx' & Hl). exists r, c, x'. split; [done|]. split; [done|]. split; [|done]. by destruct Hl as (_ & _ & _ & _ & ->).
  - destruct (w_wf _ _ Hw r c Hc) as [y Hy]. pose proof (rw_range _ _ _ _ _ _ Hy) as Hr. destruct (of_ranges _ _ Hof _ _ Hr) as (x' & Hx' & Hl). exists r, c, y. split; [done|]. split; [done|]. split; [|done].
    rewrite Hx in Hx'. injection Hx' as <-. destruct Hl as (_ & _ & _ & _ & <-). done.
Qed.
Lemma same_values_fields st st' W : world st W -> only_fields st st' -> same_values st W st' W.
Proof. intros Hw Hof. split; intros; by apply value_has_fields. Qed.
(** A list cut in two: what does not depend on the links is in one of the parts. *)
Lemma parts_in {P} `{PositionLaws P} (G : P -> Prop) (l l1 l2 : list (Z * P)) : (forall n n', pt_set_next n 0 = pt_set_next n' 0 -> G n -> G n') -> unlinked <$> (l1 ++ l2) = unlinked <$> l ->
  (exists a n, (a, n) ∈ l /\ G n) <-> (exists a n, (a, n) ∈ l1 /\ G n) \/ (exists a n, (a, n) ∈ l2 /\ G n).
Proof.
  intros HG E. assert (Hmove : forall m m' : list (Z * P), unlinked <$> m = unlinked <$> m' -> (exists a n, (a, n) ∈ m /\ G n) -> exists a n, (a, n) ∈ m' /\ G n).
  { intros m m' Em (a & n & Hin & Hn). assert (Hu : unlinked (a, n) ∈ unlinked <$> m') by (rewrite <- Em; by apply list_elem_of_fmap_2). apply list_elem_of_fmap in Hu as ([a' n'] & E' & Hin'). unfold unlinked in E'. cbn in E'. injection E' as -> E'.
    exists a', n'. split; [done|]. by apply (HG n). }
  split.
  - intros Hl. destruct (Hmove _ _ (eq_sym E) Hl) as (a & n & [Hin|Hin]%elem_of_app & Hn); [left|right]; by exists a, n.
  - intros Hl. apply (Hmove _ _ E). destruct Hl as [(a & n & Hin & Hn)|(a & n & Hin & Hn)]; exists a, n; (split; [apply elem_of_app; auto|done]).
Qed.
(** What the allocation of a range leaves behind. *)
Record allocates (g : Graph) (A : Allocator) (W : gmap Z range_contents) (A' : Allocator) (W' : gmap Z range_contents) (s u : Z) : Prop := {
  al_scan : scan A' W' s [];
  al_compact : compact (registers_ A');
  al_graph : graph_ok g A' W';
  al_file : file_ A' = file_ A;
  al_values : same_values (objects_ A) W (objects_ A') W';
  al_work : (work W' (unallocated_ A') < work W (unallocated_ A ++ [u]))%nat }.
(** The register a range [u] gets: one that is not blocked and is free at its
    start.  [u] keeps what it has before [pos], the first position at which the
    register is taken; the rest is a new range that waits. *)
Record takes_register (A : Allocator) (W : gmap Z range_contents) (A' : Allocator) (W' : gmap Z range_contents) (s u reg pos : Z) (c c1 : range_contents) : Prop := {
  tr_register : 0 <= reg < number_of_registers_ (file_ A) /\ arr_get (blocked_registers_ (file_ A)) reg = Some false;
  tr_free : s < pos /\ free_at A W c reg pos;
  tr_assigned : exists x, ranges (objects_ A') !! u = Some x /\ assigned_location_ x = MakeRegisterLocation A reg;
  tr_list : exists l, arr_get (registers_ A) reg = Some l /\ arr_get (registers_ A') reg = Some (l ++ [u]);
  tr_kept : W !! u = Some c /\ W' !! u = Some c1 /\ forall q, live_at (c_intervals c1) q <-> live_at (c_intervals c) q /\ q < pos;
  tr_rest : (pos = kMaxPosition /\ W' = W /\ unallocated_ A' = unallocated_ A) \/
    exists tail c2, W !! tail = None /\ W' !! tail = Some c2 /\ (forall q, live_at (c_intervals c2) q <-> live_at (c_intervals c) q /\ pos <= q) /\ unallocated_ A' ≡ₚ tail :: unallocated_ A }.

Section Allocate.
Context (g : Graph) (A : Allocator) (W : gmap Z range_contents) (s u : Z) (c : range_contents) (range : LiveRange).
Context (Hinv : scan A W s [u]) (Hcomp : compact (registers_ A)) (Hc : W !! u = Some c) (Hx : ranges (objects_ A) !! u = Some range) (Hs : range_start (objects_ A) u = Some s).
Context (Hg : graph_ok g A W) (cand : Z) (Hcand : 0 <= cand < number_of_registers_ (file_ A)) (Hblocked : arr_get (blocked_registers_ (file_ A)) cand = Some false).
Abbreviation loc := (MakeRegisterLocation A cand).
Lemma todo_facts : NoDup (unallocated_ A) /\ (u ∉ unallocated_ A) /\ StronglySorted (later (objects_ A)) (unallocated_ A) /\ (forall r, r ∈ unallocated_ A -> waiting (objects_ A) W s r).
Proof using Hinv.
  destruct Hinv. apply NoDup_app in s_nodup0 as (H1 & H2 & _). split; [done|]. split; [intros Hin; apply (H2 u Hin); by left|]. split; [by eapply StronglySorted_app_1_l|]. intros r Hr. apply s_waiting0, elem_of_app. by left.
Qed.
Lemma loc_valid x : assigned_location_ x = loc -> valid_register (file_ A) (assigned_location_ x).
Proof using All. intros E _. rewrite E. unfold MakeRegisterLocation, MachineRegisterLocation. clear - Hcand. by destruct (register_kind_ (file_ A)). Qed.
Lemma weight_positive : (0 < weight W u)%nat.
Proof using All.
  unfold weight. rewrite Hc. destruct (world_start _ _ u c (s_world _ _ _ _ _ _ _ Hinv) Hc) as (t & _ & _ & Ht & _). destruct (decide (size (live_set (c_intervals c)) = 0%nat)) as [E|]; [|lia].
  apply size_empty_inv in E. apply live_set_spec in Ht. rewrite E in Ht. by apply not_elem_of_empty in Ht.
Qed.
(** The whole range fits. *)
Lemma takes_whole l regs : free_at A W c cand kMaxPosition -> arr_get (registers_ A) cand = Some l -> arr_set (registers_ A) cand (l ++ [u]) = Some regs ->
  takes_register A W (with_objects (with_registers A regs) (put_range (objects_ A) u (set_assigned_location range loc))) W s u cand kMaxPosition c c.
Proof using All.
  intros Hat Hl Hset. pose proof (s_world _ _ _ _ _ _ _ Hinv) as Hw. destruct (world_start _ _ u c Hw Hc) as (t & Ht & _ & Hlive & _). rewrite Hs in Ht. injection Ht as <-. split; cbn.
  - done.
  - split; [by apply (w_bound _ _ Hw u c)|done].
  - eexists. split; [apply lookup_insert_eq|done].
  - exists l. split; [done|]. rewrite (arr_get_set _ _ _ _ _ Hset). by rewrite Z.eqb_refl.
  - split; [done|]. split; [done|]. intros q. split; [|by intros [? _]]. intros Hq. split; [done|]. by apply (w_bound _ _ Hw u c).
  - by left.
Qed.
Lemma allocate_whole : free_at A W c cand kMaxPosition -> exists A', add_to_register A cand u = Some A' /\ allocates g A W A' W s u /\
  takes_register A W A' W s u cand kMaxPosition c c.
Proof using All.
  intros Hat. pose proof Hat as (l & Hl & _ & _ & Hfree). destruct todo_facts as (Hnd & Hnot & Hsort & Hwait). destruct (u_fields A W s u c range Hinv Hcomp Hc Hx Hs) as (Hwf & Hno & Hfin & Hlow).
  assert (Hset : exists regs, arr_set (registers_ A) cand (l ++ [u]) = Some regs) by (eexists; apply arr_set_Some; split; [by eapply arr_get_Some|done]). destruct Hset as [regs Hset].
  unfold add_to_register. rewrite Hl. cbn [mbind option_bind]. rewrite Hset. cbn [mbind option_bind]. unfold update_range. cbn [with_registers objects_]. rewrite Hx. cbn [mbind option_bind]. eexists. split; [done|].
  set (x1 := set_assigned_location range loc). set (st' := put_range (objects_ A) u x1). assert (Hof : only_fields (objects_ A) st') by (by apply (only_fields_put _ _ range)).
  assert (Hoth : forall r, r <> u -> ranges st' !! r = ranges (objects_ A) !! r) by (intros r Hr; cbn; by rewrite lookup_insert_ne). assert (Hx1 : ranges st' !! u = Some x1) by apply lookup_insert_eq.
  split; [|by apply takes_whole with (l := l)]. split; cbn [with_objects with_registers objects_ summaries_ registers_ unallocated_ file_ live_ranges_]; try done.
  - rewrite app_nil_r. apply (scan_assign (file_ A) (objects_ A) st' (summaries_ A) (registers_ A) regs (unallocated_ A) (unallocated_ A) W W s u c c x1 cand kMaxPosition l); try done.
    + by apply (only_fields_world (objects_ A)), Hinv.
    + apply Hinv.
    + exists c, x1, [], (c_intervals c). split; [done|]. split; [done|]. split; [split; [done|]; split; [done|by right]|]. split; [done|]. split; [by apply (w_live _ _ (s_world _ _ _ _ _ _ _ Hinv) u)|]. split; [|intros z Hz; by apply not_elem_of_nil in Hz].
      cbn. rewrite Hfin. apply Hwf.
    + intros pos Hp. split; [done|]. by apply (w_bound _ _ (s_world _ _ _ _ _ _ _ Hinv) u c).
    + intros r d Hd Hne. by rewrite Hoth.
    + auto.
    + intros r y Hy. destruct (decide (r = u)) as [->|Hne]; [rewrite Hx1 in Hy; injection Hy as <-; by apply loc_valid|]. rewrite Hoth in Hy by done. by apply (s_ranges _ _ _ _ _ _ _ Hinv r y).
    + auto.
    + apply (later_mono (objects_ A)); [|done]. intros r t _. by apply only_fields_start.
  - intros k l' Hk. rewrite (arr_get_set _ _ _ _ _ Hset) in Hk. destruct (Z.eqb_spec cand k) as [<-|]; [|by apply (Hcomp k)]. injection Hk as <-. intros [Hin|Hin]%elem_of_app; [by apply (Hcomp cand l)|].
    apply list_elem_of_singleton in Hin. pose proof (w_null _ _ (s_world _ _ _ _ _ _ _ Hinv)) as H0. rewrite Hin in H0. congruence.
  - apply (graph_ok_mono g A _ W W Hg); [done| |by eauto]. intros r y Hy. cbn. destruct (decide (u = r)) as [->|]; [rewrite lookup_insert_eq; by eexists|rewrite lookup_insert_ne by done; by eexists].
  - by apply same_values_fields; [apply Hinv|].
  - rewrite work_app. pose proof weight_positive. unfold work at 3. cbn. lia.
Qed.
(** What splitting [u] leaves of the other ranges' starts. *)
Lemma split_start st' tail pos c1 c2 range' range2 r t : split_world (objects_ A) st' W u tail pos c c1 c2 range range' range2 -> r ∈ unallocated_ A -> range_start (objects_ A) r = Some t -> range_start st' r = Some t.
Proof using All.
  intros Hsp Hr Ht. destruct todo_facts as (_ & Hnot & _ & Hwait). destruct (Hwait r Hr) as (d & x & Hd & Hx' & _). assert (Hru : r <> u) by (by intros ->).
  assert (Hrt : r <> tail) by (intros ->; by rewrite (sp_fresh _ _ _ _ _ _ _ _ _ _ _ _ Hsp) in Hd). unfold range_start, Range_Start in *. rewrite (sp_ranges _ _ _ _ _ _ _ _ _ _ _ _ Hsp) by done. rewrite Hx' in Ht |- *. cbn [mbind option_bind] in *.
  destruct (intervals (objects_ A) !! first_use_interval_ x) as [i|] eqn:Ei; [|done]. rewrite (sp_intervals _ _ _ _ _ _ _ _ _ _ _ _ Hsp _ _ Ei); [done|].
  destruct (w_wf _ _ (s_world _ _ _ _ _ _ _ Hinv) r d Hd) as [y Hy]. assert (y = x) as -> by (pose proof (rw_range _ _ _ _ _ _ Hy); congruence).
  destruct (w_separate _ _ (s_world _ _ _ _ _ _ _ Hinv) r u d c Hd Hc Hru) as (D & _). apply D. pose proof (w_live _ _ (s_world _ _ _ _ _ _ _ Hinv) r d Hd) as Hne. pose proof (rw_intervals _ _ _ _ _ _ Hy) as Hseg.
  destruct (c_intervals d) as [|[a n] ns]; [done|]. destruct Hseg as (-> & _). by left.
Qed.
(** The range is cut where the register is taken. *)
Section Cut.
Context (pos tail : Z) (st1 : Objects) (c1 c2 : range_contents) (range' range2 : LiveRange) (Hsp : split_world (objects_ A) st1 W u tail pos c c1 c2 range range' range2) (Hlt : s < pos).
Abbreviation W' := (<[tail := c2]> (<[u := c1]> W)).
Abbreviation x1 := (set_assigned_location range' loc).
Abbreviation x2 := (with_finger range2 (Finger_Initialize range2)).
Abbreviation st3 := (put_range (put_range st1 tail x2) u x1).
Lemma cut_apart : tail <> u.
Proof using Hsp. apply Hsp. Qed.
Lemma cut_ranges : ranges st3 !! u = Some x1 /\ ranges st3 !! tail = Some x2 /\ forall r, r <> u -> r <> tail -> ranges st3 !! r = ranges (objects_ A) !! r.
Proof using Hsp.
  pose proof cut_apart. cbn. split; [apply lookup_insert_eq|]. split; [by rewrite lookup_insert_ne, lookup_insert_eq|]. intros r Hu Ht. rewrite !lookup_insert_ne by done. by apply Hsp.
Qed.
Lemma cut_world : W' !! u = Some c1 /\ W' !! tail = Some c2 /\ forall r, r <> u -> r <> tail -> W' !! r = W !! r.
Proof using Hsp. pose proof cut_apart. split; [by rewrite lookup_insert_ne, lookup_insert_eq|]. split; [apply lookup_insert_eq|]. intros r Hu Ht. by rewrite !lookup_insert_ne. Qed.
Lemma cut_fields : only_fields st1 st3.
Proof using Hsp.
  pose proof cut_apart. transitivity (put_range st1 tail x2); [by apply (only_fields_put _ _ range2); [apply Hsp|]|]. apply (only_fields_put _ _ range'); [|done]. cbn. rewrite lookup_insert_ne by done. apply Hsp.
Qed.
Lemma cut_old r d : W !! r = Some d -> r <> u -> W' !! r = Some d /\ ranges st3 !! r = ranges (objects_ A) !! r.
Proof using Hsp.
  intros Hd Hne. assert (r <> tail) by (intros ->; by rewrite (sp_fresh _ _ _ _ _ _ _ _ _ _ _ _ Hsp) in Hd). destruct cut_ranges as (_ & _ & Hr), cut_world as (_ & _ & HW). rewrite HW, Hr by done. done.
Qed.
Lemma cut_waiting : waiting st3 W' s tail.
Proof using Hsp Hlt.
  destruct cut_ranges as (_ & Ht & _), cut_world as (_ & HWt & _). exists c2, x2. split; [done|]. split; [done|]. split; [apply Hsp|]. split; [done|]. intros q Hq. apply (sp_live2 _ _ _ _ _ _ _ _ _ _ _ _ Hsp) in Hq as [_ Hq]. lia.
Qed.
Lemma cut_active : active (file_ A) st3 W' s cand u.
Proof using All.
  destruct cut_ranges as (Hxu & _ & _), cut_world as (Hcu & _ & _). destruct (u_fields A W s u c range Hinv Hcomp Hc Hx Hs) as (_ & _ & Hfin & _).
  pose proof (only_fields_world _ _ _ cut_fields (sp_world _ _ _ _ _ _ _ _ _ _ _ _ Hsp)) as Hw3. destruct (w_wf _ _ Hw3 u c1 Hcu) as [y Hy]. assert (y = x1) as -> by (pose proof (rw_range _ _ _ _ _ _ Hy); congruence).
  exists c1, x1, [], (c_intervals c1). split; [done|]. split; [done|]. split; [split; [done|]; split; [done|by right]|]. split; [done|]. split; [by apply (w_live _ _ Hw3 u)|]. split; [|intros z Hz; by apply not_elem_of_nil in Hz].
  cbn. rewrite (sp_pending _ _ _ _ _ _ _ _ _ _ _ _ Hsp), Hfin. replace (first_pending_use_interval_ _) with (first_use_interval_ range) by (by destruct (_ =? 0)). rewrite <- (sp_first _ _ _ _ _ _ _ _ _ _ _ _ Hsp). apply Hy.
Qed.
Lemma cut_has F v : (F c <-> F c1 \/ F c2) -> value_has F (objects_ A) W v <-> value_has F st3 W' v.
Proof using All.
  intros HF. destruct cut_ranges as (Hxu & Hxt & Hr), cut_world as (Hcu & Hct & HW). destruct (sp_vreg _ _ _ _ _ _ _ _ _ _ _ _ Hsp) as [Hv1 Hv2]. split; intros (r & d & y & H1 & H2 & H3 & H4).
  - destruct (decide (r = u)) as [->|Hne].
    + rewrite Hc in H1. rewrite Hx in H2. injection H1 as <-. injection H2 as <-. apply HF in H4 as [H4|H4]; [exists u, c1, x1|exists tail, c2, x2]; (split; [done|]; split; [done|]; split; [by rewrite <- H3|done]).
    + destruct (cut_old r d H1 Hne) as [H1' E]. exists r, d, y. by rewrite E.
  - destruct (decide (r = u)) as [->|Hne]; [|destruct (decide (r = tail)) as [->|Hnt]].
    + rewrite Hcu in H1. rewrite Hxu in H2. injection H1 as <-. injection H2 as <-. exists u, c, range. split; [done|]. split; [done|]. split; [by rewrite <- H3|]. apply HF. by left.
    + rewrite Hct in H1. rewrite Hxt in H2. injection H1 as <-. injection H2 as <-. exists u, c, range. split; [done|]. split; [done|]. split; [by rewrite <- H3|]. apply HF. by right.
    + rewrite HW in H1 by done. rewrite Hr in H2 by done. by exists r, d, y.
Qed.
Lemma cut_values : same_values (objects_ A) W st3 W'.
Proof using All.
  split; intros; apply cut_has.
  - rewrite (sp_live1 _ _ _ _ _ _ _ _ _ _ _ _ Hsp), (sp_live2 _ _ _ _ _ _ _ _ _ _ _ _ Hsp). destruct (decide (pos0 < pos)); intuition lia.
  - apply (parts_in (fun n => pos_ n = pos0 /\ location_slot_ n = slot)); [|by apply (sp_parts_uses _ _ _ _ _ _ _ _ _ _ _ _ Hsp)]. intros n n' E. cbn in E. by injection E as -> -> _.
  - apply (parts_in (fun n => safepoint_pos n = pos0 /\ locs_ n = locs)); [|by apply (sp_parts_safepoints _ _ _ _ _ _ _ _ _ _ _ _ Hsp)]. intros n n' E. cbn in E. by injection E as -> ->.
Qed.
Lemma cut_weight : (weight W' tail < weight W u)%nat.
Proof using All.
  destruct cut_world as (_ & Hct & _). unfold weight. rewrite Hct, Hc. apply subset_size. destruct (world_start _ _ u c (s_world _ _ _ _ _ _ _ Hinv) Hc) as (t & Ht & _ & Hlive & _). rewrite Hs in Ht. injection Ht as <-. split.
  - intros q Hq. apply live_set_spec, (sp_live2 _ _ _ _ _ _ _ _ _ _ _ _ Hsp) in Hq as [Hq _]. by apply live_set_spec.
  - intros Hsub. apply live_set_spec in Hlive. apply Hsub, live_set_spec, (sp_live2 _ _ _ _ _ _ _ _ _ _ _ _ Hsp) in Hlive as [_ Hle]. lia.
Qed.
Lemma allocates_cut regs todo' l : arr_get (registers_ A) cand = Some l -> arr_set (registers_ A) cand (l ++ [u]) = Some regs ->
  (forall r d q, r ∈ l -> W !! r = Some d -> live_at (c_intervals d) q -> live_at (c_intervals c) q -> pos <= q) -> todo' ≡ₚ tail :: unallocated_ A -> StronglySorted (later (put_range st1 tail x2)) todo' ->
  allocates g A W (with_objects (with_registers (with_unallocated (with_objects A (put_range st1 tail x2)) todo') regs) st3) W' s u.
Proof using All.
  intros Hl Hset Hfree Hperm Hsort'. destruct todo_facts as (Hnd & Hnot & Hsort & Hwait). destruct cut_ranges as (Hxu & Hxt & Hr), cut_world as (Hcu & Hct & HW). pose proof cut_apart as Htu.
  assert (Htail : tail ∉ unallocated_ A) by (intros Hin; destruct (Hwait tail Hin) as (d & _ & Hd & _); by rewrite (sp_fresh _ _ _ _ _ _ _ _ _ _ _ _ Hsp) in Hd).
  split; cbn [with_objects with_registers with_unallocated objects_ summaries_ registers_ unallocated_ file_ live_ranges_]; try done.
  - rewrite app_nil_r. apply (scan_assign (file_ A) (objects_ A) st3 (summaries_ A) (registers_ A) regs (unallocated_ A) todo' W W' s u c c1 x1 cand pos l); try done.
    + apply (only_fields_world st1); [apply cut_fields|apply Hsp].
    + intros a sp Ha. destruct (sp_safepoints _ _ _ _ _ _ _ _ _ _ _ _ Hsp a sp Ha) as (sp0 & Ha0 & <-). by apply (s_summaries _ _ _ _ _ _ _ Hinv a).
    + cbn. apply Hsp.
    + apply cut_active.
    + apply (sp_live1 _ _ _ _ _ _ _ _ _ _ _ _ Hsp).
    + apply cut_old.
    + intros r d Hd. destruct (decide (r = u)); [by left|]. destruct (decide (r = tail)) as [->|]; [right; right; split; [rewrite Hperm; by left|apply cut_waiting]|]. right. left. by rewrite HW in Hd.
    + intros b n. apply (sp_intervals _ _ _ _ _ _ _ _ _ _ _ _ Hsp).
    + intros r y Hy. destruct (decide (r = u)) as [->|Hne]; [rewrite Hxu in Hy; injection Hy as <-; by apply loc_valid|]. destruct (decide (r = tail)) as [->|Hnt]; [rewrite Hxt in Hy; injection Hy as <-|rewrite Hr in Hy by done; by apply (s_ranges _ _ _ _ _ _ _ Hinv r)].
      unfold valid_register. cbn. by destruct (sp_location _ _ _ _ _ _ _ _ _ _ _ _ Hsp) as [_ ->].
    + intros r Hin. rewrite Hperm. by right.
    + intros r. rewrite Hperm. intros [->|Hin]%elem_of_cons; [right; apply cut_waiting|by left].
    + rewrite Hperm. intros [E|Hin]%elem_of_cons; [by apply Htu|done].
    + rewrite Hperm. by constructor.
    + apply (later_mono (put_range st1 tail x2)); [|done]. intros r t _. apply only_fields_start. apply (only_fields_put _ _ range'); [|done]. cbn. rewrite lookup_insert_ne by done. apply Hsp.
  - intros k l' Hk. rewrite (arr_get_set _ _ _ _ _ Hset) in Hk. destruct (Z.eqb_spec cand k) as [<-|]; [|by apply (Hcomp k)]. injection Hk as <-. intros [Hin|Hin]%elem_of_app; [by apply (Hcomp cand l)|].
    apply list_elem_of_singleton in Hin. pose proof (w_null _ _ (s_world _ _ _ _ _ _ _ Hinv)) as H0. rewrite Hin in H0. congruence.
  - apply (graph_ok_mono g A _ W _ Hg); [done| |].
    + intros r y Hy. cbn [with_objects objects_]. destruct (decide (r = u)) as [->|]; [by eexists|]. destruct (decide (r = tail)) as [->|]; [by eexists|]. rewrite Hr by done. by eexists.
    + intros r d q Hd Hq. destruct (decide (r = u)) as [->|]; [rewrite Hcu in Hd; injection Hd as <-; apply (sp_live1 _ _ _ _ _ _ _ _ _ _ _ _ Hsp) in Hq as [Hq _]; by exists u, c|].
      destruct (decide (r = tail)) as [->|]; [rewrite Hct in Hd; injection Hd as <-; apply (sp_live2 _ _ _ _ _ _ _ _ _ _ _ _ Hsp) in Hq as [Hq _]; by exists u, c|]. rewrite HW in Hd by done. by exists r, d.
  - apply cut_values.
  - rewrite (work_perm _ _ _ Hperm), work_app. pose proof cut_weight as Hwt. assert (Hext : work W' (unallocated_ A) = work W (unallocated_ A)).
    { apply work_ext. intros r Hin. apply HW; intros ->; done. }
    unfold work in *. cbn in *. lia.
Qed.
Lemma takes_cut regs todo' l : free_at A W c cand pos -> arr_get (registers_ A) cand = Some l -> arr_set (registers_ A) cand (l ++ [u]) = Some regs -> todo' ≡ₚ tail :: unallocated_ A ->
  takes_register A W (with_objects (with_registers (with_unallocated (with_objects A (put_range st1 tail x2)) todo') regs) st3) W' s u cand pos c c1.
Proof using All.
  intros Hat Hl Hset Hperm. destruct cut_ranges as (Hxu & _), cut_world as (Hcu & Hct & _). split; cbn [with_objects with_registers with_unallocated objects_ registers_ unallocated_].
  - done.
  - done.
  - by exists x1.
  - exists l. split; [done|]. rewrite (arr_get_set _ _ _ _ _ Hset). by rewrite Z.eqb_refl.
  - split; [done|]. split; [done|]. apply (sp_live1 _ _ _ _ _ _ _ _ _ _ _ _ Hsp).
  - right. exists tail, c2. split; [apply Hsp|]. split; [done|]. split; [apply (sp_live2 _ _ _ _ _ _ _ _ _ _ _ _ Hsp)|done].
Qed.
End Cut.
Lemma allocate_split pos : free_at A W c cand pos -> s < pos -> pos <> kMaxPosition -> exists tail st A1 A' W', SplitAt (objects_ A) u pos = Some (tail, st) /\ AddToUnallocated (with_objects A st) tail = Some A1 /\
  add_to_register A1 cand u = Some A' /\ allocates g A W A' W' s u /\ exists c1, takes_register A W A' W' s u cand pos c c1.
Proof using All.
  intros Hat Hlt Hn. pose proof Hat as (l & Hl & Hmax & Hor & Hfree). destruct Hor as [?|[Hpos _]]; [done|]. destruct todo_facts as (Hnd & Hnot & Hsort & Hwait). destruct (u_fields A W s u c range Hinv Hcomp Hc Hx Hs) as (Hwf & Hno & Hfin & Hlow).
  pose proof (s_world _ _ _ _ _ _ _ Hinv) as Hw. assert (Hf : finger_wf range (c_intervals c) (c_uses c)).
  { pose proof (w_live _ _ Hw u c Hc) as Hne. destruct Hwf. unfold finger_wf. rewrite Hfin. cbn. split; [right|].
    - destruct (c_intervals c) as [|[a i] ns]; [done|]. destruct rw_intervals as (-> & _). by exists [], i, ns.
    - destruct (c_uses c) as [|[a n] ns]; [split; by left|]. destruct rw_uses as (-> & _). split; right; by left. }
  pose proof Hs as Hs0. unfold range_start, Range_Start in Hs0. rewrite Hx in Hs0. cbn [mbind option_bind] in Hs0. destruct (intervals (objects_ A) !! first_use_interval_ range) as [i0|] eqn:Hi0; [|done]. cbn [mbind option_bind] in Hs0. injection Hs0 as Hi0s.
  destruct (world_split (objects_ A) W u c range pos i0 Hw Hc Hx Hf Hi0) as (tail & st1 & c1 & c2 & range' & range2 & Hsplit & Hsp); [lia|by exists pos; split; [|lia]|].
  destruct (cut_world pos tail st1 c1 c2 range' range2 Hsp) as (Hcu & Hct & HW). destruct (cut_ranges pos tail st1 c1 c2 range' range2 Hsp) as (Hxu & Hxt & Hr).
  destruct (world_start _ _ tail c2 (sp_world _ _ _ _ _ _ _ _ _ _ _ _ Hsp) Hct) as (t & Ht & _).
  destruct (AddToUnallocated_spec (with_objects A st1) tail range2 t) as (todo' & Hadd & Hsort' & Hperm); cbn [with_objects objects_ unallocated_].
  { apply Hsp. } { done. } { intros r Hr'. destruct (Hwait r Hr') as (d & _ & Hd & _). destruct (world_start _ _ r d Hw Hd) as (t' & Ht' & _). exists t'. by eapply split_start. }
  { apply (later_mono (objects_ A)); [|done]. intros r t' Hr'. by eapply split_start. }
  assert (Hset : exists regs, arr_set (registers_ A) cand (l ++ [u]) = Some regs) by (eexists; apply arr_set_Some; split; [by eapply arr_get_Some|done]). destruct Hset as [regs Hset].
  exists tail, st1. eexists _, _, (<[tail := c2]> (<[u := c1]> W)). split; [done|]. split; [exact Hadd|]. unfold add_to_register. cbn [with_unallocated with_objects registers_]. rewrite Hl. cbn [mbind option_bind]. rewrite Hset. cbn [mbind option_bind].
  unfold update_range. cbn [with_registers with_unallocated with_objects objects_ ranges put_range]. rewrite lookup_insert_ne, (sp_range _ _ _ _ _ _ _ _ _ _ _ _ Hsp) by apply Hsp. cbn [mbind option_bind]. split; [reflexivity|].
  split; [by apply (allocates_cut pos tail st1 c1 c2 range' range2 Hsp Hlt regs todo' l)|]. exists c1. by apply (takes_cut pos tail st1 c1 c2 range' range2 Hsp Hlt regs todo' l).
Qed.
End Allocate.
Section Find.
Context (g : Graph) (A : Allocator) (W : gmap Z range_contents) (s u : Z) (c : range_contents) (range : LiveRange).
Context (Hinv : scan A W s [u]) (Hcomp : compact (registers_ A)) (Hc : W !! u = Some c) (Hx : ranges (objects_ A) !! u = Some range) (Hs : range_start (objects_ A) u = Some s).
Context (Hg : graph_ok g A W).
Abbreviation N := (number_of_registers_ (file_ A)).
(** Every register that is not blocked is held by a range that is live at
    the start of [u]. *)
Definition all_taken : Prop := forall reg, 0 <= reg < N -> arr_get (blocked_registers_ (file_ A)) reg = Some false ->
  exists l r d, arr_get (registers_ A) reg = Some l /\ r ∈ l /\ W !! r = Some d /\ live_at (c_intervals d) s.
Lemma first_candidate hint : IsMachineRegister hint = true -> 0 <= register_code hint < N ->
  exists candidate free_until, (blocked ← arr_get (blocked_registers_ (file_ A)) (register_code hint);
    if (blocked : bool) then Some (kNoRegister, 0) else free_until ← register_intersection A (register_code hint) range; Some (register_code hint, free_until)) = Some (candidate, free_until) /\
    good_candidate A W c candidate free_until.
Proof using All.
  intros Hm Hcode. destruct (s_file _ _ _ _ _ _ _ Hinv) as [_ Hlen]. destruct (arr_get_lt (blocked_registers_ (file_ A)) (register_code hint)) as [b Hb]; [lia|]. rewrite Hb. cbn [mbind option_bind].
  destruct b; [exists kNoRegister, 0; split; [done|by left]|]. destruct (intersection_spec A W s u c range Hinv Hcomp Hc Hx Hs (register_code hint) Hcode) as (pos & -> & Hf). exists (register_code hint), pos. split; [done|by right].
Qed.
Lemma FirstHint_defined : exists hint, FirstHint (positions (objects_ A)) (hint_target (objects_ A)) (finger_ range) = Some hint.
Proof using All.
  destruct (u_fields A W s u c range Hinv Hcomp Hc Hx Hs) as (Hwf & _ & Hfin & _). unfold FirstHint. rewrite Hfin. cbn [Finger_Initialize first_hinted_use_].
  destruct (hint_defined (positions (objects_ A)) (hint_target (objects_ A)) (uses_ range) (c_uses c) (S (size (positions (objects_ A)))) (rw_uses _ _ _ _ _ _ Hwf)) as [hint Hh]; [| |by exists hint].
  - intros [a n] Hin. apply (w_slots _ _ (s_world _ _ _ _ _ _ _ Hinv) a n). by apply (seg_lookup _ _ _ _ _ _ _ (rw_uses _ _ _ _ _ _ Hwf)).
  - pose proof (seg_size _ _ _ _ _ (rw_uses _ _ _ _ _ _ Hwf) (rw_uses_ids _ _ _ _ _ _ Hwf)). lia.
Qed.
Lemma hint_valid hint : FirstHint (positions (objects_ A)) (hint_target (objects_ A)) (finger_ range) = Some hint -> valid_register (file_ A) hint.
Proof using Hinv.
  intros Hh. apply FirstHint_target in Hh as [->|[h Hh]]; [done|]. unfold hint_target in Hh. destruct (h <? 0); [|by apply (s_slots _ _ _ _ _ _ _ Hinv h)].
  destruct (ranges (objects_ A) !! (- h)) as [x|] eqn:E; [|done]. injection Hh as <-. by apply (s_ranges _ _ _ _ _ _ _ Hinv (- h)).
Qed.
Lemma AllocateFreeRegister_spec :
  (exists A' W' reg pos c1, AllocateFreeRegister g A u = Some (true, A') /\ allocates g A W A' W' s u /\ takes_register A W A' W' s u reg pos c c1) \/ (AllocateFreeRegister g A u = Some (false, A) /\ all_taken).
Proof using All.
  unfold AllocateFreeRegister. rewrite Hx. cbn [mbind option_bind]. destruct FirstHint_defined as [hint Hh]. rewrite Hh. cbn [mbind option_bind]. pose proof (zlen_nonneg (registers_ A)). destruct (s_file _ _ _ _ _ _ _ Hinv) as [Hlen _].
  set (first := if IsMachineRegister hint then _ else _). assert (Hfirst : exists candidate free_until, first = Some (candidate, free_until) /\ good_candidate A W c candidate free_until).
  { subst first. destruct (IsMachineRegister hint) eqn:Em; [apply first_candidate; [done|by apply hint_valid]|]. apply (find_unused_spec A W s u c range Hinv Hcomp Hc Hx Hs); unfold NumberOfRegisters; lia. }
  destruct Hfirst as (cand0 & free0 & -> & Hgood0). cbn [mbind option_bind].
  assert (Hlong : exists candidate free_until, (if negb (free0 =? kMaxPosition) then search_longest (Z.to_nat (NumberOfRegisters A)) A range 0 cand0 free0 else Some (cand0, free0)) = Some (candidate, free_until) /\
    good_candidate A W c candidate free_until /\ best A W c N free_until).
  { destruct (Z.eqb_spec free0 kMaxPosition) as [->|]; cbn [negb].
    - exists cand0, kMaxPosition. split; [done|]. split; [done|]. intros k Hk _. destruct (intersection_spec A W s u c range Hinv Hcomp Hc Hx Hs k Hk) as (pos & _ & Hf). exists pos. split; [done|]. by destruct Hf as (l & _ & Hle & _).
    - apply (search_longest_spec A W s u c range Hinv Hcomp Hc Hx Hs); try done; [unfold NumberOfRegisters; lia|]. intros k Hk. lia. }
  destruct Hlong as (cand & free & -> & Hgood & Hbest). cbn [mbind option_bind]. pose proof Hs as Hs0. unfold range_start in Hs0. rewrite Hx in Hs0. cbn [mbind option_bind] in Hs0. rewrite Hs0. cbn [mbind option_bind].
  destruct (Z.leb_spec free s) as [Hle|Hgt].
  - right. split; [done|]. intros reg Hreg Hb. destruct (Hbest reg Hreg Hb) as (pos & (l & Hl & Hmax & Hor & _) & Hpos). pose proof (start_live g A W s u c range Hinv Hcomp Hc Hx Hs Hg) as Hlive.
    pose proof (w_bound _ _ (s_world _ _ _ _ _ _ _ Hinv) u c s Hc Hlive). destruct Hor as [?|(Hu & r & d & Hr & Hd & Hlp)]; [lia|]. destruct (u_fields A W s u c range Hinv Hcomp Hc Hx Hs) as (_ & _ & _ & Hlow). specialize (Hlow pos Hu).
    assert (pos = s) as -> by lia. by exists l, r, d.
  - left. destruct (avoid_back_edge_spec g A W s u c range Hinv Hcomp Hc Hx Hs Hg cand free Hgood Hgt) as (cand' & free' & -> & Hgood' & Hge). cbn [mbind option_bind].
    pose proof (start_nonneg g A W s u c range Hinv Hcomp Hc Hx Hs Hg). destruct Hgood' as [[-> ->]|(Hcand & Hb & Hfree)]; [lia|]. destruct (Z.eqb_spec free' kMaxPosition) as [->|Hn]; cbn [negb].
    + destruct (allocate_whole g A W s u c range Hinv Hcomp Hc Hx Hs Hg cand' Hcand Hb Hfree) as (A' & Hadd & Hal & Htr). cbn [mbind option_bind]. rewrite Hadd. by exists A', W, cand', kMaxPosition, c.
    + destruct (allocate_split g A W s u c range Hinv Hcomp Hc Hx Hs Hg cand' Hcand Hb free' Hfree) as (tail & st & A1 & A' & W' & Hsplit & Hadd1 & Hadd2 & Hal & c1 & Htr); [lia|done|]. rewrite Hsplit. cbn [mbind option_bind]. rewrite Hadd1. cbn [mbind option_bind].
      rewrite Hadd2. by exists A', W', cand', free', c1.
Qed.
End Find.

(** ** The main loop without spilling *)
Lemma unallocated_last A u : last (unallocated_ A) = Some u -> unallocated_ A = take (length (unallocated_ A) - 1) (unallocated_ A) ++ [u].
Proof.
  intros Hlast. destruct (unallocated_ A) as [|y l _] using rev_ind; [done|]. rewrite last_snoc in Hlast. injection Hlast as ->. rewrite length_app. cbn. replace (length l + 1 - 1)%nat with (length l) by lia. by rewrite take_app_length.
Qed.
(** The earliest range is taken up: time moves to its start. *)
Lemma scan_pop A W start u : scan A W start [] -> last (unallocated_ A) = Some u -> start <= kMaxPosition ->
  let A0 := with_unallocated A (take (length (unallocated_ A) - 1) (unallocated_ A)) in
  exists s c, range_start (objects_ A) u = Some s /\ W !! u = Some c /\ start <= s < kMaxPosition /\ scan A0 W s [u].
Proof.
  intros Hinv Hlast Hmax A0. pose proof (unallocated_last A u Hlast) as Heq. rewrite app_nil_r in Hinv. pose proof (s_world _ _ _ _ _ _ _ Hinv) as Hw.
  assert (Hu : u ∈ unallocated_ A) by (rewrite Heq; apply elem_of_app; right; by left). destruct (s_waiting _ _ _ _ _ _ _ Hinv u Hu) as (c & x & Hc & Hx & _ & _ & Hlow).
  destruct (world_start _ _ u c Hw Hc) as (s & Hs & _ & Hlive & Hmin). exists s, c. split; [done|]. split; [done|]. pose proof (Hlow s Hlive). pose proof (w_bound _ _ Hw u c s Hc Hlive). split; [lia|].
  assert (Htodo : unallocated_ A0 ++ [u] = unallocated_ A) by (symmetry; exact Heq). rewrite Htodo. apply (scan_later _ _ _ _ _ _ start); [exact Hinv|done|].
  intros r Hr. destruct (s_waiting _ _ _ _ _ _ _ Hinv r Hr) as (d & y & Hd & Hy & H3 & H4 & _). exists d, y. split; [done|]. split; [done|]. split; [done|]. split; [done|].
  destruct (world_start _ _ r d Hw Hd) as (t & Ht & _ & _ & Hmin'). intros pos Hp. specialize (Hmin' pos Hp). enough (s <= t) by lia. pose proof (s_sorted _ _ _ _ _ _ _ Hinv) as Hsort.
  rewrite Heq in Hr, Hsort. apply elem_of_app in Hr as [Hr|Hr]; [|apply list_elem_of_singleton in Hr as ->; cut (Some s = Some t); [intros E; injection E; lia|congruence]].
  apply StronglySorted_app in Hsort as (Hcross & _ & _). destruct (Hcross r u Hr ltac:(by left)) as (t1 & t2 & E1 & E2 & Hle). rewrite Ht in E1. rewrite Hs in E2. injection E1 as <-. injection E2 as <-. done.
Qed.
(** More values are live at a position than there are registers. *)
Definition pressure (A : Allocator) (W : gmap Z range_contents) : Prop := exists A1 W1 s u c, file_ A1 = file_ A /\ scan A1 W1 s [u] /\ same_values (objects_ A) W (objects_ A1) W1 /\
  W1 !! u = Some c /\ live_at (c_intervals c) s /\ all_taken A1 W1 s.
Section Loop.
Context (g : Graph) (Hmode : intrinsic_mode_ g = true).
Lemma loop_step A W start u : scan A W start [] -> last (unallocated_ A) = Some u -> start <= kMaxPosition -> compact (registers_ A) -> graph_ok g A W ->
  let A0 := with_unallocated A (take (length (unallocated_ A) - 1) (unallocated_ A)) in
  exists s c A1, start_of A0 u = Some s /\ W !! u = Some c /\ AdvanceActiveIntervals A0 s = Some A1 /\ s <= kMaxPosition /\ scan A1 W s [u] /\
    (forall reg l r, arr_get (registers_ A1) reg = Some l -> r ∈ l -> advanced (objects_ A1) s r) /\ same_values (objects_ A) W (objects_ A1) W /\ file_ A1 = file_ A /\
    ((exists A2 W2 reg pos c1, AllocateFreeRegister g A1 u = Some (true, A2) /\ allocates g A W A2 W2 s u /\ takes_register A1 W A2 W2 s u reg pos c c1 /\
        (work W2 (unallocated_ A2) < work W (unallocated_ A))%nat) \/
     (AllocateFreeRegister g A1 u = Some (false, A1) /\ all_taken A1 W s /\ live_at (c_intervals c) s)).
Proof using.
  intros Hinv Hlast Hmax Hcomp Hg A0. destruct (scan_pop A W start u Hinv Hlast Hmax) as (s & c & Hs & Hc & Hbound & Hscan). fold A0 in Hscan. destruct (AdvanceActiveIntervals_spec A0 W s [u] Hscan Hcomp) as (A1 & Hadv & Hrw & Hscan1 & Hcomp1 & Hpast & Hof).
  exists s, c, A1. split; [exact Hs|]. split; [done|]. split; [done|]. split; [lia|]. destruct (range_start_Some _ _ _ (only_fields_start _ _ _ _ Hof Hs)) as (x & Hx & _). destruct Hrw as (st & ss & regs & HA1).
  assert (Hlr : live_ranges_ A1 = live_ranges_ A /\ file_ A1 = file_ A /\ unallocated_ A1 = unallocated_ A0) by (by rewrite HA1). destruct Hlr as (Hlr & Hfile & Hun).
  assert (Hg1 : graph_ok g A1 W). { apply (graph_ok_mono g A A1 W W Hg Hlr); [|by eauto]. intros r y Hy. destruct (of_ranges _ _ Hof _ _ Hy) as (y' & Hy' & _). by exists y'. }
  pose proof (s_world _ _ _ _ _ _ _ Hscan) as Hw. assert (Hval : same_values (objects_ A) W (objects_ A1) W) by (by apply same_values_fields). do 4 (split; [done|]).
  destruct (AllocateFreeRegister_spec g A1 W s u c x Hscan1 Hcomp1 Hc Hx (only_fields_start _ _ _ _ Hof Hs) Hg1) as [(A2 & W2 & reg & pos & c1 & Hal & Hres & Htr)|[Hal Hall]]; [left|right].
  - exists A2, W2, reg, pos, c1. split; [done|]. assert (Hwork : work W (unallocated_ A1 ++ [u]) = work W (unallocated_ A)) by (rewrite Hun; f_equal; symmetry; by apply unallocated_last).
    destruct Hres. rewrite Hwork in al_work0. split; [|done]. split; try done; [congruence|by eapply same_values_trans|]. rewrite work_app. lia.
  - split; [done|]. split; [done|]. destruct (world_start _ _ u c Hw Hc) as (t & Ht & _ & Hlive & _). cbn in Ht. rewrite Hs in Ht. by injection Ht as <-.
Qed.
Lemma pressure_values A W A' W' : file_ A' = file_ A -> same_values (objects_ A) W (objects_ A') W' -> pressure A' W' -> pressure A W.
Proof using.
  intros Hf Hv (A1 & W1 & s & u & c & H1 & H2 & H3 & H4). exists A1, W1, s, u, c. split; [congruence|]. split; [done|]. split; [by eapply same_values_trans|done].
Qed.
Lemma AllocateUnallocatedRanges_loop_spec fuel A W start : scan A W start [] -> start <= kMaxPosition -> compact (registers_ A) -> graph_ok g A W -> (work W (unallocated_ A) < fuel)%nat ->
  (AllocateUnallocatedRanges_loop g fuel A = Some Unreachable /\ pressure A W) \/
  exists A' W' s, AllocateUnallocatedRanges_loop g fuel A = Some (Finished A') /\ file_ A' = file_ A /\ scan A' W' s [] /\ s <= kMaxPosition /\ compact (registers_ A') /\ unallocated_ A' = [] /\
    same_values (objects_ A) W (objects_ A') W'.
Proof using Hmode.
  revert A W start. induction fuel as [|fuel IH]; intros A W start Hinv Hmax Hcomp Hg Hfuel; [lia|]. cbn [AllocateUnallocatedRanges_loop]. destruct (last (unallocated_ A)) as [u|] eqn:Hlast.
  - destruct (loop_step A W start u Hinv Hlast Hmax Hcomp Hg) as (s & c & A1 & -> & Hc & Hadv & Hs & Hscan & _ & Hval & Hfile & Hcases). cbn [mbind option_bind]. rewrite Hadv. cbn [mbind option_bind].
    destruct Hcases as [(A2 & W2 & reg & pos & c1 & -> & Hal & _ & Hwork)|(-> & Hall & Hlive)]; cbn [mbind option_bind]; [|left; rewrite Hmode; split; [done|]; by exists A1, W, s, u, c]. destruct Hal.
    destruct (IH A2 W2 s al_scan0 Hs al_compact0 al_graph0 ltac:(lia)) as [[-> Hp]|(A' & W' & s' & -> & Hf & Hinv' & Hs' & Hcomp' & Hun & Hv)]; [left; split; [done|]; by apply (pressure_values A W A2 W2)|right].
    exists A', W', s'. split; [done|]. split; [congruence|]. do 4 (split; [done|]). by eapply same_values_trans.
  - apply last_None in Hlast. right. exists A, W, start. do 6 (split; [done|]). by apply same_values_fields; [apply Hinv|].
Qed.
End Loop.

(** ** Theorems *)
(** A finished allocation: every range has a register, which is not a
    blocked one, all its uses and safepoints know it, and ranges with the same
    register are never live at the same position. *)
Record allocation (f : RegisterFile) (st : Objects) (ss : gmap Z LocationSummary) (W : gmap Z range_contents) : Prop := {
  a_world : world st W;
  a_register r c : W !! r = Some c -> exists x reg, ranges st !! r = Some x /\ register_of f x reg /\
    (vreg_ x <> kNoVirtualRegister -> converted st (assigned_location_ x) c /\ registered ss (assigned_location_ x) c);
  a_exclusive r1 r2 c1 c2 x1 x2 pos : r1 <> r2 -> W !! r1 = Some c1 -> W !! r2 = Some c2 -> ranges st !! r1 = Some x1 -> ranges st !! r2 = Some x2 ->
    assigned_location_ x1 = assigned_location_ x2 -> live_at (c_intervals c1) pos -> live_at (c_intervals c2) pos -> False }.
(** Nothing is active at the last position. *)
Lemma nothing_active A W : scan A W kMaxPosition [] -> compact (registers_ A) -> (forall reg l r, arr_get (registers_ A) reg = Some l -> r ∈ l -> advanced (objects_ A) kMaxPosition r) -> unallocated_ A = [] ->
  allocation (file_ A) (objects_ A) (summaries_ A) W.
Proof.
  intros Hinv Hcomp Hadv Hun. assert (Hret : forall r c, W !! r = Some c -> retired (file_ A) (objects_ A) (summaries_ A) W kMaxPosition r).
  { intros r c Hc. destruct (scan_status _ _ _ _ _ _ _ _ _ Hinv Hc) as [Ht|[(reg & l & Hl & Hr)|Hret]]; [rewrite Hun in Ht; by apply not_elem_of_nil in Ht| |done]. exfalso.
    destruct (s_active _ _ _ _ _ _ _ Hinv reg l Hl) as [_ Ha]. destruct (Ha r Hr) as (d & x & P & Q & Hd & Hx & _ & HI & HQ & Hseg & _); [intros ->; by apply (Hcomp reg l)|].
    destruct (Hadv reg l r Hl Hr) as (x' & i & Hx' & Hi & Hend). rewrite Hx in Hx'. injection Hx' as <-. destruct Q as [|[a j] Q]; [done|]. destruct Hseg as (E & _ & Hj & _). rewrite E, Hj in Hi. injection Hi as ->.
    pose proof (s_world _ _ _ _ _ _ _ Hinv) as Hw. destruct (w_wf _ _ Hw r d Hd) as [y Hy]. assert (Hin : (a, i) ∈ c_intervals d) by (rewrite HI; apply elem_of_app; right; by left).
    pose proof (in_order_elem _ _ _ (rw_order _ _ _ _ _ _ Hy) Hin) as Hb. cbn in Hb. assert (Hlive : live_at (c_intervals d) (end_ i - 1)) by (exists a, i; split; [done|lia]). pose proof (w_bound _ _ Hw r d _ Hd Hlive). lia. }
  split.
  - apply Hinv.
  - intros r c Hc. destruct (Hret r c Hc) as (d & x & reg & Hd & Hx & Hreg & _ & Hconv). rewrite Hc in Hd. injection Hd as <-. by exists x, reg.
  - intros r1 r2 c1 c2 x1 x2 pos Hne H1 H2 E1 E2 Hloc. destruct (Hret r1 c1 H1) as (d & x & reg & _ & Hx & Hreg & _). rewrite E1 in Hx. injection Hx as <-.
    apply (s_exclusive _ _ _ _ _ _ _ Hinv r1 r2 c1 c2 x1 x2 pos); try done. by apply (register_of_machine _ _ _ Hreg).
Qed.

(** The uses and the safepoints that the values have in [st], [W] know, in the
    result, the register of a range of the value. *)
Record rewritten (f : RegisterFile) (st : Objects) (W : gmap Z range_contents) (st' : Objects) (ss' : gmap Z LocationSummary) (W' : gmap Z range_contents) : Prop := {
  re_uses v pos slot : v <> kNoVirtualRegister -> value_has (used_in pos slot) st W v ->
    exists r c x reg, W' !! r = Some c /\ ranges st' !! r = Some x /\ vreg_ x = v /\ register_of f x reg /\ used_in pos slot c /\
      slots st' !! slot = Some (Allocated (assigned_location_ x));
  re_safepoints v pos locs : v <> kNoVirtualRegister -> value_has (safe_in pos locs) st W v ->
    exists r c x reg summary, W' !! r = Some c /\ ranges st' !! r = Some x /\ vreg_ x = v /\ register_of f x reg /\ safe_in pos locs c /\
      ss' !! locs = Some summary /\ (always_calls summary = false -> reg_in (live_registers_ summary) (assigned_location_ x)) }.
Lemma allocation_rewritten f st W st' ss' W' : allocation f st' ss' W' -> same_values st W st' W' -> rewritten f st W st' ss' W'.
Proof.
  intros [_ Hreg _] [_ Huse Hsafe]. split; intros v pos k Hv.
  - intros (r & c & x & Hc & Hx & Hxv & Hin)%Huse. destruct (Hreg r c Hc) as (y & reg & Hy & Hro & Hconv). rewrite Hx in Hy. injection Hy as <-.
    destruct Hconv as [Hconv _]; [by rewrite Hxv|]. exists r, c, x, reg. do 5 (split; [done|]). destruct Hin as (a & n & Hin & _ & <-). by apply (Hconv (a, n)).
  - intros (r & c & x & Hc & Hx & Hxv & Hin)%Hsafe. destruct (Hreg r c Hc) as (y & reg & Hy & Hro & Hconv). rewrite Hx in Hy. injection Hy as <-.
    destruct Hconv as [_ Hconv]; [by rewrite Hxv|]. pose proof Hin as (a & n & Ha & _ & <-). destruct (Hconv (a, n) Ha) as (summary & Hs & Hl). by exists r, c, x, reg, summary.
Qed.

(** C12: where nothing may be spilled, the allocation of all ranges
    terminates, within a number of rounds bounded by the live positions of the ranges. Either some
    position has a live range for every register that is not blocked and one more, or the
    result is an allocation of the ranges in the resulting store: every range has a register,
    ranges that are live at the same position have different ones; the positions at which a value is
    live, its uses and its safepoints are those of the ranges it started with; the operand slot of every
    such use holds the register of a range of the value, and the summary of every such safepoint,
    unless it always calls, has the register among its live ones. *)
Theorem AllocateUnallocatedRanges_intrinsic g A W start fuel : intrinsic_mode_ g = true -> scan_inv (file_ A) (objects_ A) (summaries_ A) (registers_ A) (unallocated_ A) W start -> start <= kMaxPosition ->
  compact (registers_ A) -> graph_ok g A W -> (work W (unallocated_ A) < fuel)%nat ->
  (AllocateUnallocatedRanges g fuel A = Some Unreachable /\ pressure A W) \/
  exists A' W', AllocateUnallocatedRanges g fuel A = Some (Finished A') /\ allocation (file_ A) (objects_ A') (summaries_ A') W' /\
    same_values (objects_ A) W (objects_ A') W' /\ rewritten (file_ A) (objects_ A) W (objects_ A') (summaries_ A') W'.
Proof.
  intros Hmode Hinv Hmax Hcomp Hg Hfuel. rewrite <- (app_nil_r (unallocated_ A)) in Hinv. unfold AllocateUnallocatedRanges.
  destruct (AllocateUnallocatedRanges_loop_spec g Hmode fuel A W start Hinv Hmax Hcomp Hg Hfuel) as [[-> Hp]|(A1 & W' & s & -> & Hf & Hinv1 & Hs & Hcomp1 & Hun & Hv)]; cbn [mbind option_bind]; [by left|right].
  assert (Hinv2 : scan A1 W' kMaxPosition []) by (apply (scan_later _ _ _ _ _ _ s); [done|done|rewrite Hun; intros r Hr; by apply not_elem_of_nil in Hr]).
  destruct (AdvanceActiveIntervals_spec A1 W' kMaxPosition [] Hinv2 Hcomp1) as (A' & -> & (st & ss & regs & HA') & Hinv3 & Hcomp3 & Hadv & Hof). cbn [mbind option_bind]. exists A', W'. split; [done|].
  assert (file_ A' = file_ A1 /\ unallocated_ A' = unallocated_ A1) as [Hf' Hun'] by (by rewrite HA').
  assert (Hal : allocation (file_ A) (objects_ A') (summaries_ A') W') by (rewrite <- Hf, <- Hf'; apply nothing_active; [done|done|done|congruence]).
  assert (Hsv : same_values (objects_ A) W (objects_ A') W') by (eapply same_values_trans; [done|]; apply same_values_fields; [apply Hinv2|done]).
  split; [done|]. split; [done|]. by apply allocation_rewritten.
Qed.

(** C13: in any mode, one round of the scan ([AdvanceActiveIntervals] to the
    start of the earliest range, then [AllocateFreeRegister] for it) keeps the invariant: after the
    first call every active range ends behind the start, the others being retired; then the range gets a
    register that is not blocked and is free at the start, for its whole length or only up to the first position at which
    the register is taken ([takes_register]), with the rest put back in order; values keep their live positions, uses and
    safepoints. It fails only if every register that is not blocked is held by a range that is live at the
    start, and then [AllocateFreeRegister] changes nothing. *)
Theorem AllocateFreeRegister_exclusive g A W start u : scan A W start [] -> last (unallocated_ A) = Some u -> start <= kMaxPosition -> compact (registers_ A) -> graph_ok g A W ->
  let A0 := with_unallocated A (take (length (unallocated_ A) - 1) (unallocated_ A)) in
  exists s c A1, start_of A0 u = Some s /\ W !! u = Some c /\ AdvanceActiveIntervals A0 s = Some A1 /\ scan A1 W s [u] /\
    (forall reg l r, arr_get (registers_ A1) reg = Some l -> r ∈ l -> advanced (objects_ A1) s r) /\
    ((exists A' W' reg pos c1, AllocateFreeRegister g A1 u = Some (true, A') /\ allocates g A W A' W' s u /\ takes_register A1 W A' W' s u reg pos c c1) \/
     (AllocateFreeRegister g A1 u = Some (false, A1) /\ all_taken A1 W s)).
Proof.
  intros Hinv Hlast Hmax Hcomp Hg A0. destruct (loop_step g A W start u Hinv Hlast Hmax Hcomp Hg) as (s & c & A1 & Hs & Hc & Hadv & _ & Hscan & Hpast & _ & _ & Hcases).
  exists s, c, A1. do 5 (split; [done|]). destruct Hcases as [(A' & W' & reg & pos & c1 & H1 & H2 & H3 & _)|(H1 & H2 & _)]; [left; by exists A', W', reg, pos, c1|by right].
Qed.
(** Two registers, the first taken in [6, 8) and the second in [3, 4), and a
    value that is live in [0, 10). *)
Definition fixed_range (reg interval : Z) : LiveRange := MkRange kNoVirtualRegister kNoRepresentation (Register_ reg) NoLocation 0 interval interval 0 0 0 0 false (MkFinger interval 0 0 0).
Definition value_range : LiveRange := MkRange 0 kTagged NoLocation NoLocation 1 3 3 1 1 0 0 false (MkFinger 3 1 1 1).
Definition scan_intervals : nodes := [(1, MkInterval 6 8 0); (2, MkInterval 3 4 0); (3, MkInterval 0 10 0)].
Definition scan_uses : use_nodes := [(1, MkUse 2 1 0 2); (2, MkUse 9 2 0 0)].
Definition scan_safepoints : list (Z * SafepointPosition) := [(1, MkSafepoint 5 1 0)].
Definition scan_objects : Objects :=
  MkObjects (list_to_map scan_intervals) (list_to_map scan_uses) (list_to_map scan_safepoints) (list_to_map [(1, fixed_range 0 1); (2, fixed_range 1 2); (3, value_range)])
    (list_to_map [(1, Unallocated kAny); (2, Unallocated kRequiresRegister)]).
Definition scan_allocator : Allocator :=
  MkAllocator (MkFile kRegister 2 [false; false]) scan_objects {[1 := MkSummary kCallOnSlowPath (MkSet 0 0 0) None]} [3] [[1]; [2]] [3] (MkSpills [] [] [] 0) [].
Definition scan_graph : Graph := MkGraph (replicate 5 (MkBlock 0 0 None)) [] [] 0 [kTagged] (MkLayout (-3) 1) true.
Definition scan_contents : list (Z * range_contents) :=
  [(1, MkContents [(1, MkInterval 6 8 0)] [] []); (2, MkContents [(2, MkInterval 3 4 0)] [] []); (3, MkContents [(3, MkInterval 0 10 0)] scan_uses scan_safepoints)].
Definition scan_world : gmap Z range_contents := list_to_map scan_contents.
Ltac map_cases H :=
  apply elem_of_list_to_map_2 in H; repeat (apply elem_of_cons in H as [H|H]; [first [discriminate H|injection H as -> ->]|]); try (by apply not_elem_of_nil in H).
Ltac list_cases H := cbn in H; repeat (apply elem_of_cons in H as [H|H]; [try subst; try done|]); try (by apply not_elem_of_nil in H).
Lemma live_at_one a i pos : live_at [(a, i)] pos -> start_ i <= pos < end_ i.
Proof. intros [?|H]%live_at_cons; [done|by apply live_at_nil in H]. Qed.
Lemma scan_world_ok : world scan_objects scan_world.
Proof.
  split.
  - intros r c Hc. map_cases Hc; [exists (fixed_range 0 1)|exists (fixed_range 1 2)|exists value_range]; (split; [done|done|cbn; lia|done|done|..]); try done; repeat constructor; cbn; try lia;
      intros H; list_cases H; done.
  - done.
  - intros r1 r2 c1 c2 H1 H2 Hne. map_cases H1; map_cases H2; try done; (split; [|split]); intros a Ha Hb; list_cases Ha; list_cases Hb; done.
  - intros r c Hc. by map_cases Hc.
  - intros r c pos Hc Hp. map_cases Hc; apply live_at_one in Hp; cbn in Hp; unfold kMaxPosition; lia.
  - intros a u Hu. map_cases Hu; (split; [by eexists|by left]).
  - intros a b u v Hu Hv. map_cases Hu; map_cases Hv; done.
Qed.
Lemma scan_ok : scan_inv (file_ scan_allocator) scan_objects (summaries_ scan_allocator) (registers_ scan_allocator) [3] scan_world 0.
Proof.
  split.
  - apply scan_world_ok.
  - intros a s Hs. map_cases Hs. by eexists.
  - done.
  - intros r x Hx. map_cases Hx; intros H; cbn in *; try done; lia.
  - intros a l Hl. map_cases Hl.
  - intros r Hr. list_cases Hr. do 2 eexists. split; [reflexivity|]. split; [reflexivity|]. split; [done|]. split; [done|]. intros pos Hp. apply live_at_one in Hp. cbn in Hp. lia.
  - repeat constructor. intros H. list_cases H.
  - repeat constructor.
  - intros reg l Hl. assert (reg = 0 \/ reg = 1) as [->| ->] by (apply arr_get_Some in Hl; unfold zlen in Hl; cbn in Hl; lia); injection Hl as <-; (split; [repeat constructor; intros H; list_cases H|]); intros r Hr _; list_cases Hr.
    + exists (MkContents [(1, MkInterval 6 8 0)] [] []), (fixed_range 0 1), [], [(1, MkInterval 6 8 0)]. split; [done|]. split; [done|]. split; [split; [cbn; lia|]; split; [done|by left]|]. split; [done|]. split; [done|]. split; [done|]. intros x Hx. list_cases Hx.
    + exists (MkContents [(2, MkInterval 3 4 0)] [] []), (fixed_range 1 2), [], [(2, MkInterval 3 4 0)]. split; [done|]. split; [done|]. split; [split; [cbn; lia|]; split; [done|by left]|]. split; [done|]. split; [done|]. split; [done|]. intros x Hx. list_cases Hx.
  - intros r c Hc Hn Hout. exfalso. map_cases Hc; [apply (Hout 0 [1]); [done|by left]|apply (Hout 1 [2]); [done|by left]|apply Hn; by left].
  - intros r1 r2 c1 c2 x1 x2 pos Hne H1 H2 E1 E2 Hm Hloc. map_cases H1; map_cases H2; try done; injection E1 as <-; injection E2 as <-; done.
Qed.
Lemma scan_graph_ok : graph_ok scan_graph scan_allocator scan_world.
Proof.
  split.
  - intros r c pos Hc Hp. destruct (arr_get_lt (block_entries_ scan_graph) (pos / 2)) as [b Hb]; [|by exists b]. unfold zlen. cbn. map_cases Hc; apply live_at_one in Hp; cbn in Hp; Z.to_euclidean_division_equations; lia.
  - intros pos block id Hb Hid. unfold BlockEntryAt, arr_get in Hb. destruct (0 <=? pos / 2); [|done]. apply list_elem_of_lookup_2 in Hb. cbn in Hb. list_cases Hb; done.
Qed.
Lemma scan_compact : compact (registers_ scan_allocator).
Proof. intros reg l Hl H0. assert (reg = 0 \/ reg = 1) as [->| ->] by (apply arr_get_Some in Hl; unfold zlen in Hl; cbn in Hl; lia); injection Hl as <-; list_cases H0; done. Qed.
Lemma AllocateUnallocatedRanges_intrinsic_witness : exists A' W', AllocateUnallocatedRanges scan_graph 20 scan_allocator = Some (Finished A') /\
  allocation (MkFile kRegister 2 [false; false]) (objects_ A') (summaries_ A') W' /\ same_values scan_objects scan_world (objects_ A') W' /\
  rewritten (MkFile kRegister 2 [false; false]) scan_objects scan_world (objects_ A') (summaries_ A') W'.
Proof.
  destruct (AllocateUnallocatedRanges_intrinsic scan_graph scan_allocator scan_world 0 20) as [[Hu _]|H].
  - reflexivity.
  - exact scan_ok.
  - unfold kMaxPosition. lia.
  - exact scan_compact.
  - exact scan_graph_ok.
  - vm_compute. lia.
  - exfalso. revert Hu. vm_compute. discriminate.
  - exact H.
Defined.
Lemma AllocateFreeRegister_exclusive_witness : exists s c A1 A' W' reg pos c1, AdvanceActiveIntervals (with_unallocated scan_allocator []) s = Some A1 /\
  AllocateFreeRegister scan_graph A1 3 = Some (true, A') /\ allocates scan_graph scan_allocator scan_world A' W' s 3 /\ takes_register A1 scan_world A' W' s 3 reg pos c c1.
Proof.
  destruct (AllocateFreeRegister_exclusive scan_graph scan_allocator scan_world 0 3) as (s & c & A1 & Hs & Hc & Hadv & _ & _ & [(A' & W' & reg & pos & c1 & H)|[H _]]).
  - exact scan_ok.
  - reflexivity.
  - unfold kMaxPosition. lia.
  - exact scan_compact.
  - exact scan_graph_ok.
  - exists s, c, A1, A', W', reg, pos, c1. split; [exact Hadv|exact H].
  - exfalso. assert (s = 0) as -> by (assert (Some s = Some 0) as Es by (rewrite <- Hs; reflexivity); by injection Es).
    assert (E : (A1 ← AdvanceActiveIntervals (with_unallocated scan_allocator []) 0; '(b, _) ← AllocateFreeRegister scan_graph A1 3; Some b) = Some true) by (vm_compute; reflexivity).
    change (with_unallocated scan_allocator _) with (with_unallocated scan_allocator []) in Hadv. rewrite Hadv in E. cbn [mbind option_bind] in E. rewrite H in E. discriminate E.
Defined.
