(* ===== verification/Dominance.v ===== *)
(** * Depth-first numberings and dominance

    The graph theory behind the flow graph's dominators: walks, dominance and
    dominance frontiers of a graph whose vertices are the preorder numbers
    [0 .. n-1] of a depth-first search, and the semidominators of Lengauer and
    Tarjan. The class [DepthFirst] is what the search of FlowGraph.v promises;
    Dominators.v and PhiPlacement.v rely on nothing else. *)
From stdpp Require Import sets.
From S2P Require Import Prelude.
Local Open Scope Z_scope.

(** ** Walks *)
(** [walk E u p w]: the edges of [E] lead from [u] through the vertices [p] to
    [w], the last one of [u :: p]. *)
Inductive walk (E : Z -> Z -> Prop) : Z -> list Z -> Z -> Prop :=
  | walk_nil u : walk E u [] u
  | walk_cons u v p w : E u v -> walk E v p w -> walk E u (v :: p) w.
#[export] Hint Constructors walk : vm.

(** [dom E d w]: [d] is on every walk from the entry to [w]. *)
Definition dom (E : Z -> Z -> Prop) (d w : Z) : Prop := forall p, walk E 0 p w -> d ∈ 0 :: p.
Definition sdom (E : Z -> Z -> Prop) (d w : Z) : Prop := dom E d w /\ d <> w.
(** The immediate dominator: the strict dominator that all others dominate. *)
Definition is_idom (E : Z -> Z -> Prop) (d w : Z) : Prop := sdom E d w /\ forall x, sdom E x w -> dom E x d.
(** [y] is in the dominance frontier of [x]. *)
Definition frontier (E : Z -> Z -> Prop) (x y : Z) : Prop :=
  (exists p, E p y /\ dom E x p) /\ ~ sdom E x y.

(** Ancestors in the spanning tree [par]. *)
Inductive anc (par : Z -> Z) (a : Z) : Z -> Prop :=
  | anc_refl : anc par a a
  | anc_up b : 0 < b -> anc par a (par b) -> anc par a b.
#[export] Hint Constructors anc : vm.

(** What a depth-first search promises of its numbering. [df_preorder]: when
    [b] is reached, its parent is still on the search's stack, which holds the
    ancestors of the vertex reached before; [df_forward]: an edge to a vertex
    reached later stays in the subtree. *)
Class DepthFirst (n : Z) (E : Z -> Z -> Prop) (par : Z -> Z) : Prop := {
  df_range : forall x y, E x y -> 0 <= x < n /\ 0 <= y < n;
  df_parent : forall b, 0 < b < n -> E (par b) b /\ 0 <= par b < b;
  df_preorder : forall b, 0 < b < n -> anc par (par b) (b - 1);
  df_forward : forall x y, E x y -> x < y -> anc par x y;
  df_entry : forall x, ~ E x 0 }.

(** A walk whose inner vertices are all above [w]. *)
Definition semi_walk (E : Z -> Z -> Prop) (u w : Z) : Prop :=
  exists p, walk E u (p ++ [w]) w /\ forall x, x ∈ p -> w < x.
Definition is_semi (E : Z -> Z -> Prop) (s w : Z) : Prop :=
  s < w /\ semi_walk E s w /\ forall u, u < w -> semi_walk E u w -> s <= u.

Section Walks.
Context {E : Z -> Z -> Prop}.

Lemma walk_app u p v q w : walk E u p v -> walk E v q w -> walk E u (p ++ q) w.
Proof using. induction 1; simpl; eauto with vm. Qed.
Lemma walk_snoc u p v w : walk E u p v -> E v w -> walk E u (p ++ [w]) w.
Proof using. intros H H'. eapply walk_app; eauto with vm. Qed.
Lemma walk_end u p w : walk E u p w -> w ∈ u :: p.
Proof using. induction 1; set_solver. Qed.
(** A walk splits at each of its vertices. *)
Lemma walk_at u q x r w : walk E u (q ++ x :: r) w <-> walk E u (q ++ [x]) x /\ walk E x r w.
Proof using.
  split.
  - revert u. induction q as [|y q IH]; simpl; intros u H; inversion H; subst; [eauto with vm|].
    destruct (IH y) as [? ?]; eauto with vm.
  - intros [H1 H2]. change (x :: r) with ([x] ++ r). rewrite (assoc_L (++)). by eapply walk_app.
Qed.
Lemma walk_split u p w x : walk E u p w -> x ∈ u :: p -> exists q r, p = q ++ r /\ walk E u q x /\ walk E x r w.
Proof using.
  intros H [->|Hx]%elem_of_cons; [exists [], p; eauto with vm|].
  apply list_elem_of_split in Hx as (q & r & ->). apply walk_at in H as [H1 H2].
  exists (q ++ [x]), r. by rewrite <- (assoc_L (++)).
Qed.
Lemma walk_snoc_inv u p w w' : walk E u (p ++ [w]) w' -> w' = w /\ exists v, walk E u p v /\ E v w.
Proof using.
  revert u. induction p as [|x p IH]; simpl; intros u H; inversion H as [|? ? ? ? Huv Hw]; subst.
  - inversion Hw; subst. eauto with vm.
  - apply IH in Hw as (-> & v & Hv & He). eauto with vm.
Qed.
(** A walk to [w] has a last vertex below [w], from which only vertices above
    [w] lead to [w]. *)
Lemma last_below v p w : walk E v p w ->
  (exists q u, walk E v q u /\ q ⊆ p /\ u < w /\ semi_walk E u w) \/ v = w \/ (w < v /\ semi_walk E v w).
Proof using.
  induction 1 as [|v v' p w Hv _ [(q & u & Hq & Hsub & Hu)|Hv']]; [auto| |].
  - left. exists (v' :: q), u. split_and!; [by econstructor|set_solver|apply Hu..].
  - assert (semi_walk E v w) as Hsemi.
    { destruct Hv' as [->|(Hlt & r & Hr & Hall)]; [exists []; split; [eauto with vm|set_solver]|].
      exists (v' :: r). split; [by econstructor|set_solver]. }
    destruct (Z.lt_total v w) as [Hlt|[->|Hlt]]; [|auto..]. left. exists [], v. split_and!; [eauto with vm|set_solver|done..].
Qed.

Lemma dom_refl w : dom E w w.
Proof using. intros p. apply walk_end. Qed.
Lemma dom_root w : dom E 0 w.
Proof using. intros p _. set_solver. Qed.
Lemma dom_trans a b c : dom E a b -> dom E b c -> dom E a c.
Proof using.
  intros Ha Hb p Hp. destruct (walk_split _ _ _ _ Hp (Hb p Hp)) as (q & r & -> & Hq & _).
  specialize (Ha q Hq). set_solver.
Qed.
Lemma dom_entry x : dom E x 0 -> x = 0.
Proof using. intros H. specialize (H [] (walk_nil _ _)). set_solver. Qed.
(** A strict dominator dominates the predecessors. *)
Lemma sdom_pred d p w : sdom E d w -> E p w -> dom E d p.
Proof using. intros [Hd Hne] Hp q Hq. specialize (Hd (q ++ [w]) (walk_snoc _ _ _ _ Hq Hp)). set_solver. Qed.
Lemma dom_idom_iff d w x : is_idom E d w -> dom E x w <-> x = w \/ dom E x d.
Proof using.
  intros [[Hd Hne] Hmax]. split.
  - intros Hx. destruct (decide (x = w)); [auto|]. right. by apply Hmax.
  - intros [->|Hx]; [apply dom_refl|by eapply dom_trans].
Qed.
End Walks.

Lemma list_least (p : list Z) : p <> [] ->
  exists q m r, p = q ++ m :: r /\ (forall x, x ∈ q -> m < x) /\ (forall x, x ∈ r -> m <= x).
Proof.
  induction p as [|a p IH]; [done|]. intros _. destruct p as [|b p].
  { exists [], a, []. split_and!; [done|set_solver..]. }
  destruct IH as (q & m & r & Heq & Hq & Hr); [done|]. rewrite Heq. destruct (Z.le_gt_cases a m) as [Ha|Ha].
  - exists [], a, (q ++ m :: r). split_and!; [done|set_solver|]. intros x. rewrite elem_of_app, elem_of_cons.
    intros [Hx|[->|Hx]]; [apply Hq in Hx|..]; try lia. apply Hr in Hx. lia.
  - exists (a :: q), m, r. split_and!; [done| |done]. intros x [->|Hx]%elem_of_cons; [lia|auto].
Qed.

(** ** The spanning tree *)
Section Tree.
Context {n : Z} {E : Z -> Z -> Prop} {par : Z -> Z} {DF : DepthFirst n E par}.
Abbreviation anc := (anc par).

Lemma anc_le a b : anc a b -> 0 <= b < n -> 0 <= a <= b.
Proof using DF. induction 1 as [|b Hb _ IH]; intros Hr; [lia|]. pose proof (df_parent b). lia. Qed.
Lemma anc_trans a b c : anc a b -> anc b c -> anc a c.
Proof using. intros H. induction 1; eauto with vm. Qed.
Lemma anc_strict a b : anc a b -> a <> b -> 0 < b /\ anc a (par b).
Proof using. by destruct 1. Qed.
Lemma anc_chain a b c : anc a c -> anc b c -> a <= b -> 0 <= c < n -> anc a b.
Proof using DF.
  intros Ha. induction 1 as [|c Hc Hb IH]; intros Hle Hr; [done|]. pose proof (df_parent c).
  apply anc_le in Hb as ?; [|lia]. apply anc_strict in Ha as [_ Ha]; [|lia]. apply IH; [done|lia..].
Qed.
Lemma anc_interval a b c : anc a b -> 0 <= b < n -> a <= c <= b -> anc a c.
Proof using DF.
  intros Hab Hb Hc. pose proof (anc_le _ _ Hab Hb).
  assert (forall k, 0 <= k -> a <= b - k -> anc a (b - k)) as Hall; [|replace c with (b - (b - c)) by lia; apply Hall; lia].
  apply (natlike_ind (fun k => a <= b - k -> anc a (b - k))); [by rewrite Z.sub_0_r|]. intros k Hk IH Ha.
  destruct (anc_strict a (b - k)) as [_ Hp]; [apply IH; lia|lia|]. replace (b - Z.succ k) with (b - k - 1) by lia.
  eapply anc_trans; [done|]. apply df_preorder. lia.
Qed.
Lemma anc_root b : 0 <= b < n -> anc 0 b.
Proof using DF.
  intros [H0 Hn]. revert Hn. pattern b. apply Zlt_0_ind; [|done]. clear b H0. intros b IH H0 Hn.
  destruct (decide (b = 0)) as [->|Hb]; [constructor|]. apply anc_up; [lia|]. pose proof (df_parent b). apply IH; lia.
Qed.
Lemma tree_walk a b : anc a b -> 0 <= b < n -> exists p, walk E a p b /\ forall x, x ∈ p -> a < x /\ anc x b.
Proof using DF.
  induction 1 as [|b Hb Ha IH]; intros Hr; [exists []; split; [constructor|set_solver]|].
  destruct (df_parent b) as [He Hp]; [lia|]. destruct IH as (p & Hw & Hall); [lia|].
  apply anc_le in Ha as ?; [|lia]. exists (p ++ [b]). split; [by eapply walk_snoc|].
  intros x [Hx| ->%list_elem_of_singleton]%elem_of_app; [|split; [lia|constructor]].
  apply Hall in Hx as [? ?]. eauto with vm.
Qed.
Lemma walk_range u p w : walk E u p w -> 0 <= u < n -> 0 <= w < n.
Proof using DF. induction 1 as [|u v p w He _ IH]; intros Hu; [done|]. apply IH, (df_range _ _ He). Qed.
(** A walk that stays above an ancestor stays in its subtree. *)
Lemma walk_subtree m u p w : walk E u p w -> 0 <= u < n -> anc m u -> (forall x, x ∈ p -> m <= x) -> anc m w.
Proof using DF.
  induction 1 as [|u v p w He Hw IH]; intros Hu Hm Hall; [done|]. pose proof (df_range _ _ He).
  apply IH; [lia| |set_solver]. destruct (Z.lt_ge_cases u v) as [Hlt|Hge].
  - eapply anc_trans; [done|]. by apply df_forward.
  - eapply anc_interval; [done|lia|]. split; [apply Hall; set_solver|done].
Qed.
(** A walk to a vertex with a larger number passes a common ancestor. *)
Lemma common_ancestor u p w : walk E u p w -> 0 <= u < n -> u <= w -> exists m, m ∈ u :: p /\ anc m u /\ anc m w.
Proof using DF.
  intros Hw Hu Hle. destruct (list_least (u :: p)) as (q & m & r & Heq & Hq & Hr); [done|].
  pose proof (walk_range _ _ _ Hw Hu). assert (0 <= m < n /\ anc m w) as [Hm Hmw].
  { destruct q as [|u' q]; simplify_eq/=; [split; [done|]; eapply walk_subtree; eauto with vm|].
    apply walk_at in Hw as [Hm Hw]. apply walk_range in Hm as ?; [|done].
    split; [done|]. eapply walk_subtree; eauto with vm. }
  exists m. split_and!; [rewrite Heq; set_solver| |done]. eapply anc_interval; [done|lia|].
  split; [|done]. assert (u ∈ q ++ m :: r) as [Hin|[->|Hin]%elem_of_cons]%elem_of_app by (rewrite <- Heq; set_solver); [|lia|auto].
  apply Hq in Hin. lia.
Qed.
Lemma dom_anc d w : dom E d w -> 0 <= w < n -> anc d w.
Proof using DF.
  intros Hd Hw. destruct (tree_walk 0 w) as (p & Hp & Hall); [by apply anc_root|done|].
  apply Hd in Hp. apply elem_of_cons in Hp as [->|Hx]; [by apply anc_root|by apply Hall].
Qed.
Lemma dom_le d w : dom E d w -> 0 <= w < n -> 0 <= d <= w.
Proof using DF. intros Hd Hw. by apply anc_le, Hw; apply dom_anc. Qed.
Lemma sdom_lt d w : sdom E d w -> 0 <= w < n -> 0 <= d < w.
Proof using DF. intros [Hd Hne] Hw. pose proof (dom_le _ _ Hd Hw). lia. Qed.
(** The dominators of a vertex are a chain. *)
Lemma dom_chain a b w : dom E a w -> dom E b w -> a <= b -> 0 <= w < n -> dom E a b.
Proof using DF.
  intros Ha Hb Hle Hw p Hp. destruct (tree_walk b w) as (q & Hq & Hall); [by apply dom_anc|done|].
  assert (a ∈ 0 :: p ++ q) as Hin by (by apply Ha; eapply walk_app).
  apply elem_of_cons in Hin as [->|[Hin|Hin]%elem_of_app]; [set_solver..|]. apply Hall in Hin. lia.
Qed.
Lemma idom_unique d d' w : is_idom E d w -> is_idom E d' w -> 0 <= w < n -> d = d'.
Proof using DF.
  intros [Hd Hm] [Hd' Hm'] Hw. pose proof (sdom_lt _ _ Hd Hw). pose proof (sdom_lt _ _ Hd' Hw).
  apply Hm in Hd'. apply Hm' in Hd. apply dom_le in Hd; [|lia]. apply dom_le in Hd'; lia.
Qed.
Lemma sdom_idom_iff d w x : is_idom E d w -> 0 <= w < n -> sdom E x w <-> dom E x d.
Proof using DF.
  intros [Hd Hmax] Hw. split; [apply Hmax|]. intros Hx. pose proof (sdom_lt _ _ Hd Hw).
  split; [by eapply dom_trans; [|apply Hd]|]. apply dom_le in Hx; lia.
Qed.

(** ** Semidominators *)
Lemma semi_anc u w : semi_walk E u w -> u < w -> 0 <= u < n -> anc u w.
Proof using DF.
  intros (p & Hp & Hall) Hlt Hu. pose proof (walk_range _ _ _ Hp Hu).
  destruct (common_ancestor _ _ _ Hp Hu) as (m & Hin & Hmu & Hmw); [lia|].
  apply anc_le in Hmw as ?; [|done]. apply anc_le in Hmu as ?; [|done].
  apply elem_of_cons in Hin as [->|[Hin| ->%list_elem_of_singleton]%elem_of_app]; [done| |lia].
  apply Hall in Hin. lia.
Qed.
(** The candidates for the semidominator of [w]: its predecessors below it, and
    the semidominators of the ancestors, above [w], of the others. *)
Definition candidate (sm : Z -> Z) (w c : Z) : Prop :=
  (c < w /\ E c w) \/ exists v x, E v w /\ w < x /\ anc x v /\ c = sm x.

Lemma semi_recurrence sm w s : 0 < w < n -> (forall x, w < x < n -> is_semi E (sm x) x) ->
  candidate sm w s -> (forall c, candidate sm w c -> s <= c) -> is_semi E s w.
Proof using DF.
  intros Hw Hsm Hs Hmin. destruct (df_parent w) as [He Hp]; [done|]. split_and!.
  - assert (s <= par w); [apply Hmin; left; split; [lia|done]|lia].
  - destruct Hs as [[Hlt Hs]|(v & x & Hv & Hx & Hxv & ->)]; [exists []; split; [eauto with vm|set_solver]|].
    pose proof (df_range _ _ Hv). apply anc_le in Hxv as ?; [|lia]. destruct (Hsm x) as (_ & (p & Hwp & Hall) & _); [lia|].
    destruct (tree_walk x v) as (q & Hq & Hallq); [done|lia|]. exists (p ++ x :: q). split.
    + rewrite <- (assoc_L (++)). apply walk_at. split; [done|]. by eapply walk_snoc.
    + intros y [Hy|[->|Hy]%elem_of_cons]%elem_of_app; [apply Hall in Hy; lia|done|]. apply Hallq in Hy as [? _]. lia.
  - intros u Hu (p & Hwp & Hall). destruct p as [|a p]; [inversion Hwp; subst; apply Hmin; by left|].
    destruct (list_least (a :: p)) as (q & m & r & Heq & Hq & Hr); [done|]. rewrite Heq in *. clear Heq.
    rewrite <- (assoc_L (++)) in Hwp. simpl in Hwp. apply walk_at in Hwp as [Hm Hwp].
    apply walk_snoc_inv in Hwp as (_ & v & Hmv & Hv). assert (w < m) as Hwm by set_solver.
    assert (0 <= m < n) as Hrm. { apply walk_snoc_inv in Hm as (_ & z & _ & Hz). apply (df_range _ _ Hz). }
    destruct (Hsm m) as (_ & _ & Hle); [lia|]. transitivity (sm m); [|apply Hle; [lia|by exists q]].
    apply Hmin. right. exists v, m. split_and!; [done..| |done]. eapply walk_subtree; eauto with vm.
Qed.
(** The strict dominators of [w] are the dominators of its tree parent that are
    not below its semidominator. *)
Lemma sdom_semi_iff w s x : 0 < w < n -> is_semi E s w -> 0 <= s -> sdom E x w <-> dom E x (par w) /\ x <= s.
Proof using DF.
  intros Hw (Hs & Hsw & Hmin) Hs0. destruct (df_parent w) as [He Hp]; [done|]. pose proof (semi_anc _ _ Hsw Hs) as Hanc. split.
  - intros Hx. split; [by eapply sdom_pred|]. destruct Hx as [Hx Hne]. apply dom_le in Hx as ?; [|lia].
    destruct (tree_walk 0 s) as (p & Hps & Hall); [apply anc_root; lia|lia|]. destruct Hsw as (q & Hq & Hallq).
    assert (x ∈ 0 :: p ++ q ++ [w]) as Hin by (by apply Hx; eapply walk_app).
    apply elem_of_cons in Hin as [->|[Hin|[Hin|Hin%list_elem_of_singleton]%elem_of_app]%elem_of_app]; [lia| | |done].
    + apply Hall in Hin as [_ Hin]. apply anc_le in Hin; lia.
    + apply Hallq in Hin. lia.
  - intros [Hx Hle]. split; [|lia]. intros p Hpw. destruct (decide (x ∈ 0 :: p)) as [|Hnin]; [done|].
    destruct (last_below _ _ _ Hpw) as [(q & u & Hq & Hsub & Hu & Hsu)|[?|[? _]]]; [|lia..]. exfalso.
    assert (0 <= u < n) as Hru by (eapply walk_range; [done|lia]). pose proof (semi_anc _ _ Hsu Hu Hru) as Hua.
    apply anc_strict in Hua as [_ Hua]; [|lia]. apply Hmin in Hsu; [|done].
    destruct (tree_walk u (par w)) as (r & Hr & Hallr); [done|lia|].
    assert (x ∈ 0 :: q ++ r) as Hin by (by apply Hx; eapply walk_app).
    apply elem_of_cons in Hin as [->|[Hin|Hin]%elem_of_app]; [set_solver..|]. apply Hallr in Hin. lia.
Qed.
(** So the largest of them is the immediate dominator. *)
Lemma idom_largest w s d : 0 < w < n -> is_semi E s w -> 0 <= s -> dom E d (par w) -> d <= s ->
  (forall x, dom E x (par w) -> x <= s -> x <= d) -> is_idom E d w.
Proof using DF.
  intros Hw Hs Hs0 Hd Hle Hmax. destruct (df_parent w) as [He Hp]; [done|]. split; [by apply (sdom_semi_iff w s)|].
  intros x [Hx Hxs]%(sdom_semi_iff w s); [|done..]. eapply dom_chain; [exact Hx|exact Hd|by apply Hmax|lia].
Qed.

(** ** Immediate dominators decide dominance *)
Section Idom.
Context (idom : Z -> Z) (Hidom : forall w, 0 < w < n -> is_idom E (idom w) w).

Lemma dom_dec x y : 0 <= y < n -> dom E x y \/ ~ dom E x y.
Proof using All.
  intros [H0 Hn]. revert Hn. pattern y. apply Zlt_0_ind; [|done]. clear y H0. intros y IH H0 Hn.
  destruct (decide (x = y)) as [->|Hne]; [left; apply dom_refl|]. destruct (decide (y = 0)) as [->|Hy].
  { right. intros H%dom_entry. done. }
  pose proof (Hidom y) as Hd. destruct (IH (idom y)) as [Hx|Hx]; [destruct (sdom_lt (idom y) y); [apply Hd|..]; lia.. | |].
  - left. apply (dom_idom_iff (idom y)); [apply Hd; lia|auto].
  - right. intros [?|?]%(dom_idom_iff (idom y)); [done..|]. apply Hd. lia.
Qed.
Lemma sdom_dec x y : 0 <= y < n -> sdom E x y \/ ~ sdom E x y.
Proof using All. intros Hy. unfold sdom. destruct (dom_dec x y Hy), (decide (x = y)); tauto. Qed.

(** A walk that leaves the vertices strictly dominated by [x] passes the
    frontier of [x]. *)
Lemma walk_frontier x z p w : walk E z p w -> dom E x z -> p <> [] -> ~ sdom E x w ->
  exists q y r, p = q ++ y :: r /\ frontier E x y.
Proof using All.
  induction 1 as [|z y p w He Hw IH]; intros Hz Hp Hx; [done|]. pose proof (df_range _ _ He).
  destruct (sdom_dec x y) as [Hy|Hy]; [lia| |exists [], y, p; split; [done|split; [eauto|done]]].
  destruct p as [|y' p]; [inversion Hw; by subst|]. destruct IH as (q & y'' & r & -> & Hf); [apply Hy|done..|].
  exists (y :: q), y'', r. done.
Qed.

(** If the vertices [Phi] contain the frontiers of all [Def], themselves in
    [Def], then between a vertex outside [Phi] and its immediate dominator nothing
    is in [Def]. *)
Lemma no_def_between (Def Phi : Z -> Prop) b p :
  (forall x, Phi x -> Def x) -> (forall x y, Def x -> frontier E x y -> Phi y) ->
  0 < b < n -> ~ Phi b -> walk E (idom b) (p ++ [b]) b -> idom b ∉ p -> forall x, x ∈ p -> ~ Def x.
Proof using All.
  intros Hsub Hcl Hb Hnb Hw Hd x Hx Hdef. pose proof (Hidom b Hb) as [Hdb Hmax].
  apply list_elem_of_split in Hx as (q & r & ->). rewrite <- (assoc_L (++)) in Hw. simpl in Hw. apply walk_at in Hw as [_ Hw].
  assert (idom b ∉ x :: r) as Hnin by set_solver. clear Hd q.
  remember (length r) as k eqn:Hk. revert x r Hk Hdef Hw Hnin. induction (lt_wf k) as [k _ IH]. intros x r -> Hdef Hw Hnin.
  assert (dom E (idom b) x) as Hdx.
  { intros q Hq. assert (idom b ∈ 0 :: q ++ r ++ [b]) as Hin by (apply Hdb; by eapply walk_app). destruct Hdb. set_solver. }
  destruct (walk_frontier x x (r ++ [b]) b) as (q & y & r' & Heq & Hf); [done|apply dom_refl|by destruct r| |].
  { intros Hxb%Hmax. apply Hnin, elem_of_cons. left. destruct (sdom_lt _ _ Hdb); [lia|]. apply dom_le in Hxb; [|lia].
    apply dom_le in Hdx; lia. }
  destruct r' as [|b' r' _] using rev_ind.
  { apply app_inj_tail in Heq as [_ ->]. by eapply Hnb, Hcl. }
  rewrite app_comm_cons, (assoc_L (++)) in Heq. apply app_inj_tail in Heq as [-> <-].
  rewrite <- (assoc_L (++)), <- app_comm_cons in Hw. apply walk_at in Hw as [_ Hw].
  eapply (IH (length r')); [rewrite length_app; simpl; lia|done|by eapply Hsub, Hcl|done|set_solver].
Qed.
End Idom.
End Tree.
