(* ===== verification/FlowGraph.v ===== *)
(** * Blocks of the flow graph and their discovery
    (src/runtime/vm/compiler/backend/{il.h,il.cc,flow_graph.h,flow_graph.cc})

    The state of [BlockEntryInstr] and of the [FlowGraph], the successors of a
    block, and [FlowGraph::DiscoverBlocks], which numbers the blocks by a
    depth-first search with an explicit stack. A [BlockEntryInstr*] is an index of
    the array of all blocks, a [PhiInstr*] one of the array of all phis, a
    [LoopInfo*] one of the array of all loops. *)
From Stdlib Require Import Sorted.
From stdpp Require Import sets relations.
From S2P Require Import Prelude BitSet BitVector Dominance.
Local Open Scope Z_scope.
Local Open Scope vm_scope.

(** ** Data *)
(** Control transfers, and all other instructions; [block_] of a goto is set
    when its block is discovered. *)
Inductive Instr :=
  | GotoInstr (successor : Z) (block_ : option Z)
  | BranchInstr (true_successor_ false_successor_ : Z)
  | IndirectGotoInstr (successors_ : list Z)
  | PlainInstr.
Inductive BlockKind :=
  | GraphEntryInstr (normal_entry_ unchecked_entry_ osr_entry_ : option Z) (catch_entries_ : list Z)
  | JoinEntryInstr
  | TargetEntryInstr
  | FunctionEntryInstr
  | OsrEntryInstr
  | IndirectEntryInstr
  | CatchBlockEntryInstr.
(** The last instruction of a block: the entry itself or one that follows it. *)
Inductive LastInstruction := EntryItself | LastInstr (i : Instr).

(** [predecessors_] and [phis_] are those of a join, [predecessor_] is the
    [predecessor_] or [graph_entry_] of the entries with one predecessor;
    [instructions_] are the instructions that follow the entry. *)
Record BlockEntryInstr := MkBlock {
  block_kind : BlockKind;
  block_id_ : Z;
  preorder_number_ : Z;
  postorder_number_ : Z;
  predecessors_ : list Z;
  predecessor_ : option Z;
  dominator_ : option Z;
  dominated_blocks_ : list Z;
  instructions_ : list Instr;
  last_instruction_ : option LastInstruction;
  phis_ : option (list (option Z));
  loop_info_ : option Z }.
Record PhiInstr := MkPhi { phi_block : Z; phi_input_count : Z; is_alive_ : bool }.
Record LoopInfo := MkLoopInfo {
  id_ : Z;
  header_ : Z;
  blocks_ : BitVector;
  back_edges_ : list Z;
  outer_ : option Z;
  inner_ : option Z;
  next_ : option Z }.
Record LoopHierarchy := MkLoopHierarchy { headers_ : list Z; top_ : option Z }.

Abbreviation Blocks := (list BlockEntryInstr).
Record FlowGraph := MkFlowGraph {
  graph_entry_ : Z;
  all_blocks : Blocks;
  all_phis : list PhiInstr;
  all_loops : list LoopInfo;
  preorder_blocks : list Z;
  postorder_blocks : list Z;
  reverse_postorder_blocks : list Z;
  parent_ : list Z;
  loop_hierarchy_ : option LoopHierarchy;
  loop_invariant_loads_ : option (list BitVector) }.

(** Assignments to single fields of a block. *)
Definition with_numbers (b : BlockEntryInstr) (pre post : Z) : BlockEntryInstr :=
  MkBlock (block_kind b) (block_id_ b) pre post (predecessors_ b) (predecessor_ b) (dominator_ b) (dominated_blocks_ b)
    (instructions_ b) (last_instruction_ b) (phis_ b) (loop_info_ b).
Definition with_preds (b : BlockEntryInstr) (preds : list Z) (pred : option Z) : BlockEntryInstr :=
  MkBlock (block_kind b) (block_id_ b) (preorder_number_ b) (postorder_number_ b) preds pred (dominator_ b) (dominated_blocks_ b)
    (instructions_ b) (last_instruction_ b) (phis_ b) (loop_info_ b).
Definition with_last (b : BlockEntryInstr) (instrs : list Instr) (last : option LastInstruction) : BlockEntryInstr :=
  MkBlock (block_kind b) (block_id_ b) (preorder_number_ b) (postorder_number_ b) (predecessors_ b) (predecessor_ b)
    (dominator_ b) (dominated_blocks_ b) instrs last (phis_ b) (loop_info_ b).
Definition with_dominator (b : BlockEntryInstr) (d : option Z) (dominated : list Z) : BlockEntryInstr :=
  MkBlock (block_kind b) (block_id_ b) (preorder_number_ b) (postorder_number_ b) (predecessors_ b) (predecessor_ b)
    d dominated (instructions_ b) (last_instruction_ b) (phis_ b) (loop_info_ b).
Definition with_phis (b : BlockEntryInstr) (phis : option (list (option Z))) : BlockEntryInstr :=
  MkBlock (block_kind b) (block_id_ b) (preorder_number_ b) (postorder_number_ b) (predecessors_ b) (predecessor_ b)
    (dominator_ b) (dominated_blocks_ b) (instructions_ b) (last_instruction_ b) phis (loop_info_ b).
Definition with_loop_info (b : BlockEntryInstr) (loop : option Z) : BlockEntryInstr :=
  MkBlock (block_kind b) (block_id_ b) (preorder_number_ b) (postorder_number_ b) (predecessors_ b) (predecessor_ b)
    (dominator_ b) (dominated_blocks_ b) (instructions_ b) (last_instruction_ b) (phis_ b) loop.

(** ** Predecessors *)
Definition IsGraphEntry (b : BlockEntryInstr) : bool := match block_kind b with GraphEntryInstr _ _ _ _ => true | _ => false end.
(** An indirect entry is a join. *)
Definition IsJoinEntry (b : BlockEntryInstr) : bool := match block_kind b with JoinEntryInstr | IndirectEntryInstr => true | _ => false end.

Definition PredecessorCount (b : BlockEntryInstr) : Z :=
  match block_kind b with
  | GraphEntryInstr _ _ _ _ => 0
  | JoinEntryInstr | IndirectEntryInstr => zlen (predecessors_ b)
  | _ => match predecessor_ b with None => 0 | Some _ => 1 end
  end.
Definition PredecessorAt (b : BlockEntryInstr) (index : Z) : option Z :=
  match block_kind b with
  | GraphEntryInstr _ _ _ _ => None
  | JoinEntryInstr | IndirectEntryInstr => arr_get (predecessors_ b) index
  | _ => predecessor_ b
  end.
Definition ClearPredecessors (b : BlockEntryInstr) : BlockEntryInstr :=
  match block_kind b with
  | GraphEntryInstr _ _ _ _ => b
  | JoinEntryInstr | IndirectEntryInstr => with_preds b [] (predecessor_ b)
  | _ => with_preds b (predecessors_ b) None
  end.

(** The place of a new predecessor: predecessors are sorted by block id. *)
Fixpoint predecessor_index (bs : Blocks) (pred_id : Z) (preds : list Z) : option nat :=
  match preds with
  | [] => Some O
  | p :: preds =>
      pb ← arr_get bs p;
      if block_id_ pb <? pred_id then S <$> predecessor_index bs pred_id preds else Some O
  end.
Definition JoinEntry_AddPredecessor (bs : Blocks) (b : BlockEntryInstr) (predecessor : Z) : option BlockEntryInstr :=
  pb ← arr_get bs predecessor;
  index ← predecessor_index bs (block_id_ pb) (predecessors_ b);
  Some (with_preds b (take index (predecessors_ b) ++ predecessor :: drop index (predecessors_ b)) (predecessor_ b)).
Definition AddPredecessor (bs : Blocks) (b : BlockEntryInstr) (predecessor : Z) : option BlockEntryInstr :=
  match block_kind b with
  | GraphEntryInstr _ _ _ _ => None
  | JoinEntryInstr | IndirectEntryInstr => JoinEntry_AddPredecessor bs b predecessor
  | FunctionEntryInstr | OsrEntryInstr =>
      pb ← arr_get bs predecessor;
      Some (with_preds b (predecessors_ b) (if IsGraphEntry pb then Some predecessor else None))
  | TargetEntryInstr | CatchBlockEntryInstr => Some (with_preds b (predecessors_ b) (Some predecessor))
  end.
Fixpoint IndexOfPredecessor_loop (preds : list Z) (pred i : Z) : Z :=
  match preds with
  | [] => -1
  | p :: preds => if p =? pred then i else IndexOfPredecessor_loop preds pred (i + 1)
  end.
Definition IndexOfPredecessor (b : BlockEntryInstr) (pred : Z) : Z := IndexOfPredecessor_loop (predecessors_ b) pred 0.

(** ** Successors *)
Definition entry_count (e : option Z) : Z := match e with None => 0 | Some _ => 1 end.
Definition SuccessorCount (b : BlockEntryInstr) (last : LastInstruction) : Z :=
  match last with
  | EntryItself =>
      match block_kind b with
      | GraphEntryInstr normal unchecked osr catches => entry_count normal + entry_count unchecked + entry_count osr + zlen catches
      | _ => 0
      end
  | LastInstr (GotoInstr _ _) => 1
  | LastInstr (BranchInstr _ _) => 2
  | LastInstr (IndirectGotoInstr successors) => zlen successors
  | LastInstr PlainInstr => 0
  end.
Definition GraphEntry_SuccessorAt (normal unchecked osr : option Z) (catches : list Z) (index : Z) : option Z :=
  let at_entry (e : option Z) (index : Z) (rest : Z -> option Z) :=
    match e with
    | Some t => if index =? 0 then Some t else rest (index - 1)
    | None => rest index
    end in
  at_entry normal index (fun index => at_entry unchecked index (fun index => at_entry osr index (fun index => arr_get catches index))).
Definition SuccessorAt (b : BlockEntryInstr) (last : LastInstruction) (index : Z) : option Z :=
  match last with
  | EntryItself =>
      match block_kind b with
      | GraphEntryInstr normal unchecked osr catches => GraphEntry_SuccessorAt normal unchecked osr catches index
      | _ => None
      end
  | LastInstr (GotoInstr successor _) => Some successor
  | LastInstr (BranchInstr t f) => if index =? 0 then Some t else if index =? 1 then Some f else None
  | LastInstr (IndirectGotoInstr successors) => arr_get successors index
  | LastInstr PlainInstr => None
  end.

(** ** The depth-first search *)
(** What [DiscoverBlock] works on: the blocks and the arrays [preorder] and
    [parent]. *)
Record Discovery := MkDiscovery { d_blocks : Blocks; d_preorder : list Z; d_parent : list Z }.

Definition IsMarked (d : Discovery) (block : Z) : option bool :=
  b ← arr_get (d_blocks d) block;
  let i := preorder_number_ b in
  if (0 <=? i) && (i <? zlen (d_preorder d)) then p ← arr_get (d_preorder d) i; Some (p =? block) else Some false.

(** The last instruction; a goto is told its block. *)
Definition find_last (this : Z) (b : BlockEntryInstr) : BlockEntryInstr :=
  match list.last (instructions_ b) with
  | None => with_last b (instructions_ b) (Some EntryItself)
  | Some (GotoInstr s _) =>
      with_last b (take (pred (length (instructions_ b))) (instructions_ b) ++ [GotoInstr s (Some this)])
        (Some (LastInstr (GotoInstr s (Some this))))
  | Some i => with_last b (instructions_ b) (Some (LastInstr i))
  end.

Definition DiscoverBlock (d : Discovery) (this : Z) (predecessor : option Z) : option (bool * Discovery) :=
  marked ← IsMarked d this;
  b ← arr_get (d_blocks d) this;
  if marked : bool then
    p ← predecessor;
    b ← AddPredecessor (d_blocks d) b p;
    bs ← arr_set (d_blocks d) this b;
    Some (false, MkDiscovery bs (d_preorder d) (d_parent d))
  else
    let b := ClearPredecessors b in
    '(b, parent_number) ←
      (match predecessor with
       | None => Some (b, -1)
       | Some p =>
           pb ← arr_get (d_blocks d) p;
           b ← AddPredecessor (d_blocks d) b p;
           Some (b, preorder_number_ pb)
       end);
    let b := with_numbers b (zlen (d_preorder d)) (postorder_number_ b) in
    bs ← arr_set (d_blocks d) this (find_last this b);
    Some (true, MkDiscovery bs (d_preorder d ++ [this]) (d_parent d ++ [parent_number])).

Record BlockTraversalState := MkTraversal { traversal_block : Z; next_successor_ix_ : Z }.
Definition BlockTraversalState_new (bs : Blocks) (block : Z) : option BlockTraversalState :=
  b ← arr_get bs block;
  last ← last_instruction_ b;
  Some (MkTraversal block (SuccessorCount b last - 1)).
Definition HasNextSuccessor (s : BlockTraversalState) : bool := 0 <=? next_successor_ix_ s.
Definition NextSuccessor (bs : Blocks) (s : BlockTraversalState) : option (Z * BlockTraversalState) :=
  b ← arr_get bs (traversal_block s);
  last ← last_instruction_ b;
  succ ← SuccessorAt b last (next_successor_ix_ s);
  Some (succ, MkTraversal (traversal_block s) (next_successor_ix_ s - 1)).

(** The head of [block_stack] is its last element. *)
Fixpoint DiscoverBlocks_loop (fuel : nat) (block_stack : list BlockTraversalState) (d : Discovery) (postorder : list Z)
    : option (Discovery * list Z) :=
  match fuel with
  | O => None
  | S fuel =>
      match block_stack with
      | [] => Some (d, postorder)
      | state :: rest =>
          if HasNextSuccessor state then
            '(succ, state) ← NextSuccessor (d_blocks d) state;
            '(first, d) ← DiscoverBlock d succ (Some (traversal_block state));
            if first : bool then
              next ← BlockTraversalState_new (d_blocks d) succ;
              DiscoverBlocks_loop fuel (next :: state :: rest) d postorder
            else DiscoverBlocks_loop fuel (state :: rest) d postorder
          else
            b ← arr_get (d_blocks d) (traversal_block state);
            bs ← arr_set (d_blocks d) (traversal_block state) (with_numbers b (preorder_number_ b) (zlen postorder));
            DiscoverBlocks_loop fuel rest (MkDiscovery bs (d_preorder d) (d_parent d)) (postorder ++ [traversal_block state])
      end
  end.
(** The loop hierarchy and the invariant loads are reset. *)
Definition DiscoverBlocks (fuel : nat) (g : FlowGraph) : option FlowGraph :=
  '(_, d) ← DiscoverBlock (MkDiscovery (all_blocks g) [] []) (graph_entry_ g) None;
  first ← BlockTraversalState_new (d_blocks d) (graph_entry_ g);
  '(d, postorder) ← DiscoverBlocks_loop fuel [first] d [];
  Some (MkFlowGraph (graph_entry_ g) (d_blocks d) (all_phis g) (all_loops g) (d_preorder d) postorder (reverse postorder)
          (d_parent d) None None).

(** ** The shape of the graph *)
Definition option_list (o : option Z) : list Z := match o with Some x => [x] | None => [] end.
Definition succ_list_of (b : BlockEntryInstr) (last : LastInstruction) : list Z :=
  match last with
  | EntryItself =>
      match block_kind b with
      | GraphEntryInstr normal unchecked osr catches => option_list normal ++ option_list unchecked ++ option_list osr ++ catches
      | _ => []
      end
  | LastInstr (GotoInstr s _) => [s]
  | LastInstr (BranchInstr t f) => [t; f]
  | LastInstr (IndirectGotoInstr l) => l
  | LastInstr PlainInstr => []
  end.
Definition final_last (b : BlockEntryInstr) : LastInstruction :=
  match list.last (instructions_ b) with None => EntryItself | Some i => LastInstr i end.
(** The successors of a block and its predecessors. *)
Definition succ_list (b : BlockEntryInstr) : list Z := succ_list_of b (final_last b).
Definition pred_list (b : BlockEntryInstr) : list Z :=
  match block_kind b with
  | GraphEntryInstr _ _ _ _ => []
  | JoinEntryInstr | IndirectEntryInstr => predecessors_ b
  | _ => option_list (predecessor_ b)
  end.

Lemma SuccessorCount_list b l : SuccessorCount b l = zlen (succ_list_of b l).
Proof.
  destruct l as [|[]]; simpl; try done. destruct (block_kind b) as [[] [] [] ?| | | | | |]; simpl; unfold zlen; simpl; lia.
Qed.
Lemma arr_get_cons {A} (x : A) l i : arr_get (x :: l) i = if i =? 0 then Some x else arr_get l (i - 1).
Proof.
  unfold arr_get. zifs; try lia; [by replace (Z.to_nat i) with O by lia| |done].
  by replace (Z.to_nat i) with (S (Z.to_nat (i - 1))) by lia.
Qed.
Lemma SuccessorAt_list b l i : 0 <= i < SuccessorCount b l -> SuccessorAt b l i = arr_get (succ_list_of b l) i.
Proof.
  destruct l as [|[]]; simpl; intros Hi; try lia; try done.
  - destruct (block_kind b) as [[] [] [] ?| | | | | |]; simpl in *; try lia; rewrite ?arr_get_cons;
      repeat match goal with |- context [?x =? 0] => destruct (x =? 0) end; done.
  - by rewrite arr_get_cons, Z.eqb_refl || (rewrite arr_get_cons; replace (i =? 0) with true by lia).
  - rewrite !arr_get_cons. replace (i - 1 =? 0) with (i =? 1) by lia. zifs; [done..|]. lia.
Qed.
Lemma PredecessorCount_list b : PredecessorCount b = zlen (pred_list b).
Proof. unfold PredecessorCount, pred_list. destruct (block_kind b), (predecessor_ b); done. Qed.
Lemma PredecessorAt_list b i : 0 <= i < PredecessorCount b -> PredecessorAt b i = arr_get (pred_list b) i.
Proof.
  unfold PredecessorCount, PredecessorAt, pred_list. intros Hi.
  destruct (block_kind b), (predecessor_ b); simpl; try done; try lia; by replace i with 0 by lia.
Qed.

(** What the search does not change. *)
Definition same_shape (b b0 : BlockEntryInstr) : Prop :=
  block_kind b = block_kind b0 /\ block_id_ b = block_id_ b0 /\ succ_list b = succ_list b0 /\
  (dominator_ b, phis_ b) = (dominator_ b0, phis_ b0).
Definition shapes (bs bs0 : Blocks) : Prop :=
  zlen bs = zlen bs0 /\ forall i b, arr_get bs i = Some b -> exists b0, arr_get bs0 i = Some b0 /\ same_shape b b0.
(** The last instruction has been found. *)
Definition ready (b : BlockEntryInstr) : Prop :=
  exists l, last_instruction_ b = Some l /\ succ_list_of b l = succ_list b.

Lemma shapes_refl bs : shapes bs bs.
Proof. split; [done|]. intros i b Hb. by exists b. Qed.
Lemma shapes_get bs bs0 i b0 : shapes bs bs0 -> arr_get bs0 i = Some b0 -> exists b, arr_get bs i = Some b /\ same_shape b b0.
Proof.
  intros [Hlen Hs] Hb. pose proof (arr_get_Some _ _ _ Hb). destruct (arr_get_lt bs i) as [b Hget]; [lia|].
  exists b. split; [done|]. destruct (Hs i b Hget) as (b0' & ? & ?). by simplify_eq.
Qed.
Lemma shapes_set bs bs0 bs' i b b' : shapes bs bs0 -> arr_get bs i = Some b -> same_shape b' b -> arr_set bs i b' = Some bs' -> shapes bs' bs0.
Proof.
  intros [Hlen Hs] Hb Hsh Hset. split; [by rewrite (arr_set_length _ _ _ _ Hset)|]. intros j x Hx.
  rewrite (arr_get_set _ _ _ _ _ Hset) in Hx. destruct (Z.eqb_spec i j) as [->|]; [|by apply Hs]. simplify_eq.
  destruct (Hs _ _ Hb) as (b0 & Hb0 & Hsh0). exists b0. split; [done|]. unfold same_shape in *. intuition congruence.
Qed.
Lemma arr_set_ok {A} (l : list A) i x y : arr_get l i = Some x -> exists l', arr_set l i y = Some l'.
Proof. intros Hx%arr_get_Some. unfold arr_set, zlen in *. replace ((0 <=? i) && (i <? Z.of_nat (length l))) with true by lia. eauto. Qed.

Lemma find_last_shape this b : same_shape (find_last this b) b /\ ready (find_last this b) /\
  pred_list (find_last this b) = pred_list b /\ preorder_number_ (find_last this b) = preorder_number_ b.
Proof.
  unfold find_last, same_shape, ready, succ_list, final_last. destruct (list.last (instructions_ b)) as [i|] eqn:Hl.
  - destruct i; simpl; rewrite ?last_snoc, ?Hl; simpl; split_and!; eauto; eexists; split; try done; simpl; by rewrite ?last_snoc, ?Hl.
  - simpl. rewrite Hl. split_and!; eauto; eexists; split; try done; simpl; by rewrite ?Hl.
Qed.

(** ** Predecessor lists *)
Definition id_of (bs : Blocks) (p : Z) : Z := default 0 (block_id_ <$> arr_get bs p).
Abbreviation by_id bs := (fun p q => id_of bs p <= id_of bs q).

Lemma predecessor_index_ok bs pid l : (forall p, p ∈ l -> is_Some (arr_get bs p)) -> is_Some (predecessor_index bs pid l).
Proof.
  induction l as [|p l IH]; simpl; intros Hl; [done|]. destruct (Hl p) as [pb ->]; [set_solver|]. simpl. zif; [|done].
  destruct IH as [k ->]; [set_solver|done].
Qed.
Lemma predecessor_index_sorted bs l p k : predecessor_index bs (id_of bs p) l = Some k -> StronglySorted (by_id bs) l ->
  StronglySorted (by_id bs) (take k l ++ p :: drop k l).
Proof.
  revert k. induction l as [|q l IH]; simpl; intros k Hk Hs; [simplify_eq; repeat constructor|].
  destruct (arr_get bs q) as [qb|] eqn:Hq; [|done]. simpl in Hk.
  assert (id_of bs q = block_id_ qb) as Hid by (unfold id_of; by rewrite Hq).
  apply StronglySorted_inv in Hs as [Hs Hall]. zif_in Hk.
  - destruct (predecessor_index bs (id_of bs p) l) as [k'|] eqn:Hk'; simplify_eq/=. constructor; [by apply IH|].
    apply Forall_app; split; [by apply Forall_take|]. constructor; [lia|by apply Forall_drop].
  - simplify_eq/=. constructor; [by constructor|]. constructor; [lia|]. eapply List.Forall_impl; [|exact Hall]. simpl. lia.
Qed.

(** A block that gets [p] as a predecessor; only joins have several. *)
Lemma AddPredecessor_spec bs b p pb :
  arr_get bs p = Some pb -> IsGraphEntry b = false -> (IsJoinEntry b = false -> pred_list b = []) ->
  (block_kind b = FunctionEntryInstr \/ block_kind b = OsrEntryInstr -> IsGraphEntry pb = true) ->
  (forall q, q ∈ pred_list b -> is_Some (arr_get bs q)) ->
  exists b', AddPredecessor bs b p = Some b' /\ same_shape b' b /\ pred_list b' ≡ₚ p :: pred_list b /\
    (StronglySorted (by_id bs) (pred_list b) -> StronglySorted (by_id bs) (pred_list b')) /\
    preorder_number_ b' = preorder_number_ b /\ postorder_number_ b' = postorder_number_ b /\ last_instruction_ b' = last_instruction_ b.
Proof.
  unfold AddPredecessor, IsGraphEntry, IsJoinEntry, pred_list, JoinEntry_AddPredecessor. intros Hp Hg Hj Hf Hq.
  rewrite Hp. simpl.
  assert (forall o, StronglySorted (by_id bs) (option_list o)) as Hone by (intros []; repeat constructor).
  assert (exists k, predecessor_index bs (block_id_ pb) (predecessors_ b) = Some k \/ IsJoinEntry b = false) as [k Hk].
  { unfold IsJoinEntry. destruct (block_kind b) eqn:Hkind; try (by exists O; right); simpl in *;
      destruct (predecessor_index_ok bs (block_id_ pb) (predecessors_ b)) as [k Hk]; eauto. }
  assert (id_of bs p = block_id_ pb) as Hid by (unfold id_of; by rewrite Hp).
  unfold IsJoinEntry in Hk.
  destruct (block_kind b) eqn:Hkind; simpl in *; try done.
  1, 5: destruct Hk as [Hk|]; [|done]; rewrite Hk; simpl; eexists; split; [done|]; unfold same_shape; simpl; rewrite Hkind;
    split_and!; try done; [|intros Hs; apply predecessor_index_sorted; [by rewrite Hid|done]];
    rewrite <- (take_drop k (predecessors_ b)) at 3; by rewrite <- Permutation_middle.
  all: rewrite ?Hf by auto; eexists; split; [done|]; unfold same_shape; simpl; rewrite Hkind, ?Hj by done;
    split_and!; try done; intros _; repeat constructor.
Qed.
Lemma ClearPredecessors_spec b : same_shape (ClearPredecessors b) b /\ pred_list (ClearPredecessors b) = [] /\
  preorder_number_ (ClearPredecessors b) = preorder_number_ b /\ postorder_number_ (ClearPredecessors b) = postorder_number_ b.
Proof. unfold ClearPredecessors, same_shape, pred_list. destruct (block_kind b) eqn:Hk; simpl; rewrite Hk; done. Qed.

(** ** Growing a depth-first numbering *)
Lemma anc_ext par par' n a b : (forall i, 0 < i < n -> par i < i) -> (forall i, i < n -> par' i = par i) ->
  anc par a b -> b < n -> anc par' a b.
Proof.
  intros Hlt Heq. induction 1 as [|b Hb _ IH]; intros Hn; [constructor|]. apply anc_up; [done|]. rewrite Heq by done.
  apply IH. specialize (Hlt b). lia.
Qed.
Lemma DepthFirst_edge n E E' par x y : DepthFirst n E par -> 0 <= x < n -> 0 < y < n -> (x < y -> anc par x y) ->
  (forall a b, E' a b <-> E a b \/ (a = x /\ b = y)) -> DepthFirst n E' par.
Proof.
  intros DF Hx Hy Hfw HE. split.
  - intros a b [?| [-> ->]]%HE; [by eapply df_range|lia].
  - intros b Hb. destruct (df_parent b Hb) as [? ?]. split; [apply HE; by left|done].
  - intros b Hb. by apply (df_preorder b).
  - intros a b [?| [-> ->]]%HE; [by eapply df_forward|done].
  - intros a [?|[? ?]]%HE; [by eapply df_entry|lia].
Qed.
Lemma DepthFirst_equiv n E E' par : (forall a b, E' a b <-> E a b) -> DepthFirst n E par -> DepthFirst n E' par.
Proof.
  intros HE DF. split.
  - intros a b ?%HE. by eapply df_range.
  - intros b Hb. destruct (df_parent b Hb). split; [by apply HE|done].
  - intros b Hb. by apply (df_preorder b).
  - intros a b ?%HE. by eapply df_forward.
  - intros a ?%HE. by eapply df_entry.
Qed.
Lemma DepthFirst_vertex n E E' par par' x : DepthFirst n E par -> 0 <= x < n -> anc par x (n - 1) ->
  (forall i, i < n -> par' i = par i) -> par' n = x -> (forall a b, E' a b <-> E a b \/ (a = x /\ b = n)) ->
  DepthFirst (n + 1) E' par'.
Proof.
  intros DF Hx Hanc Hpar Hn HE.
  assert (forall a b, anc par a b -> b < n -> anc par' a b) as Hext.
  { intros a b Hab Hb. eapply anc_ext; [|done..]. intros i Hi. pose proof (df_parent i). lia. }
  split.
  - intros a b [H%df_range|[-> ->]]%HE; lia.
  - intros b Hb. rewrite HE. destruct (decide (b = n)) as [->|]; [rewrite Hn; split; [auto|lia]|].
    rewrite Hpar by lia. destruct (df_parent b) as [? ?]; [lia|]. auto.
  - intros b Hb. destruct (decide (b = n)) as [->|]; [rewrite Hn; apply Hext; [done|lia]|].
    rewrite Hpar by lia. apply Hext; [|lia]. apply (df_preorder b). lia.
  - intros a b [H|[-> ->]]%HE Hlt; [apply Hext; [by eapply df_forward|pose proof (df_range _ _ H); lia]|].
    apply anc_up; [lia|]. rewrite Hn. constructor.
  - intros a [H|[-> ?]]%HE; [by eapply df_entry|lia].
Qed.

(** ** The search is depth first *)
Definition flow_edge (bs : Blocks) (a s : Z) : Prop := exists ab, arr_get bs a = Some ab /\ s ∈ succ_list ab.
(** Graphs as the builder makes them: one graph entry, whose successors alone are
    function and OSR entries; only joins have several predecessors; the targets of
    an instruction are distinct. *)
Record wf_flow (bs : Blocks) (entry : Z) : Prop := {
  wf_entry : exists b, arr_get bs entry = Some b /\ IsGraphEntry b = true;
  wf_succ : forall a ab s, arr_get bs a = Some ab -> s ∈ succ_list ab -> exists sb, arr_get bs s = Some sb /\ IsGraphEntry sb = false /\
    (block_kind sb = FunctionEntryInstr \/ block_kind sb = OsrEntryInstr -> IsGraphEntry ab = true);
  wf_distinct : forall a ab, arr_get bs a = Some ab -> NoDup (succ_list ab);
  wf_single : forall a a' s sb, flow_edge bs a s -> flow_edge bs a' s -> arr_get bs s = Some sb -> IsJoinEntry sb = false -> a = a' }.

(** The edge from the preorder number [x] to [y]. *)
Definition number_edge (P : Z -> Z -> Prop) (pre : list Z) (x y : Z) : Prop :=
  exists a s, arr_get pre x = Some a /\ arr_get pre y = Some s /\ P a s.
Definition parent_fn (parent : list Z) (i : Z) : Z := default (-1) (arr_get parent i).

Lemma arr_get_elem {A} (l : list A) x : x ∈ l <-> exists i, arr_get l i = Some x.
Proof.
  rewrite list_elem_of_lookup. unfold arr_get. split; [intros [i Hi]; exists (Z.of_nat i); zif; [by rewrite Nat2Z.id|lia]|].
  intros [i Hi]. zif_in Hi; [by eexists|done].
Qed.
Lemma arr_get_inj {A} (l : list A) i j x : NoDup l -> arr_get l i = Some x -> arr_get l j = Some x -> i = j.
Proof. unfold arr_get. intros Hnd Hi Hj. zif_in Hi; [|done]. zif_in Hj; [|done]. pose proof (NoDup_lookup _ _ _ _ Hnd Hi Hj). lia. Qed.
Lemma arr_get_snoc {A} (l : list A) x i : arr_get (l ++ [x]) i = if i =? zlen l then Some x else arr_get l i.
Proof.
  destruct (Z.eqb_spec i (zlen l)) as [->|Hne]; [replace (zlen l) with (zlen l + 0) by lia; by rewrite arr_get_app_r by lia|].
  destruct (Z.lt_ge_cases i (zlen l)); [by apply arr_get_app_l|].
  transitivity (@None A); [|symmetry]; apply arr_get_None; rewrite ?zlen_app; right; [|lia]. unfold zlen at 2. simpl. lia.
Qed.
Lemma id_of_shapes bs bs0 p : shapes bs bs0 -> id_of bs p = id_of bs0 p.
Proof.
  intros Hs. unfold id_of. destruct (arr_get bs0 p) as [b0|] eqn:H0.
  - destruct (shapes_get _ _ _ _ Hs H0) as (b & -> & Hsh). simpl. apply Hsh.
  - apply arr_get_None in H0. destruct Hs as [Hl _]. rewrite <- Hl in H0. apply arr_get_None in H0. by rewrite H0.
Qed.
Lemma sorted_shapes bs bs0 l : shapes bs bs0 -> StronglySorted (by_id bs) l <-> StronglySorted (by_id bs0) l.
Proof.
  intros Hs. assert (forall p, id_of bs p = id_of bs0 p) as Hid by (intros p; by apply id_of_shapes).
  induction l as [|p l IH]; [split; constructor|]. split; intros [? Hall]%StronglySorted_inv; constructor; try tauto;
    (eapply List.Forall_impl; [|exact Hall]); simpl; intros q; by rewrite !Hid.
Qed.

Section Search.
Context (bs0 : Blocks).

(** The edges that the search has looked at: all those of a block that it has
    reached, but for those that the state on the stack still counts. *)
Definition processed (stack : list BlockTraversalState) (pre : list Z) (a s : Z) : Prop :=
  exists ab k, arr_get bs0 a = Some ab /\ a ∈ pre /\ arr_get (succ_list ab) k = Some s /\
    forall st, st ∈ stack -> traversal_block st = a -> next_successor_ix_ st < k.

Lemma processed_edge stack pre a s : processed stack pre a s -> flow_edge bs0 a s.
Proof using. intros (ab & k & Hab & _ & Hk & _). exists ab. split; [done|]. apply arr_get_elem. eauto. Qed.
Lemma processed_step st rest pre ab s a t : arr_get bs0 (traversal_block st) = Some ab -> arr_get (succ_list ab) (next_successor_ix_ st) = Some s ->
  traversal_block st ∈ pre -> (forall st', st' ∈ rest -> traversal_block st' <> traversal_block st) ->
  processed (MkTraversal (traversal_block st) (next_successor_ix_ st - 1) :: rest) pre a t <->
  processed (st :: rest) pre a t \/ (a = traversal_block st /\ t = s).
Proof using.
  intros Hab Hs Hin Hrest. split.
  - intros (ab' & k & Hab' & Ha & Hk & Hall). destruct (decide (a = traversal_block st)) as [->|Hne].
    + assert (ab' = ab) as -> by congruence. pose proof (Hall _ (list_elem_of_here _ _) eq_refl) as Hlt. simpl in Hlt.
      destruct (decide (k = next_successor_ix_ st)) as [->|]; [right; split; [done|congruence]|]. left.
      exists ab, k. split_and!; [done..|]. intros st' [->|Hst]%elem_of_cons Heq; [lia|]. by apply Hrest in Hst.
    + left. exists ab', k. split_and!; [done..|]. intros st' [->|Hst]%elem_of_cons Heq; [congruence|]. apply Hall; [set_solver|done].
  - intros [(ab' & k & Hab' & Ha & Hk & Hall)|[-> ->]].
    + exists ab', k. split_and!; [done..|]. intros st' [->|Hst]%elem_of_cons Heq; [|apply Hall; [set_solver|done]]. simpl in *.
      specialize (Hall st). rewrite Heq in Hall. assert (next_successor_ix_ st < k); [apply Hall; [set_solver|done]|lia].
    + exists ab, (next_successor_ix_ st). split_and!; [done..|]. intros st' [->|Hst]%elem_of_cons Heq; [simpl; lia|]. by apply Hrest in Hst.
Qed.
Lemma processed_push stack pre s sb a t : s ∉ pre -> (forall st, st ∈ stack -> traversal_block st ∈ pre) -> arr_get bs0 s = Some sb ->
  processed (MkTraversal s (zlen (succ_list sb) - 1) :: stack) (pre ++ [s]) a t <-> processed stack pre a t.
Proof using.
  intros Hs Hst Hsb. split; intros (ab & k & Hab & Ha & Hk & Hall); exists ab, k; split_and!; try done.
  - apply elem_of_app in Ha as [|Ha%list_elem_of_singleton]; [done|]. subst a. simplify_eq.
    pose proof (Hall _ (list_elem_of_here _ _) eq_refl) as Hlt. simpl in Hlt. apply arr_get_Some in Hk. lia.
  - intros st Hin. apply Hall. set_solver.
  - set_solver.
  - intros st [->|Hin]%elem_of_cons Heq; [simpl in Heq; congruence|by apply Hall].
Qed.
Lemma processed_pop st rest pre a t : next_successor_ix_ st < 0 -> processed rest pre a t <-> processed (st :: rest) pre a t.
Proof using.
  intros Hix. split; intros (ab & k & Hab & Ha & Hk & Hall); exists ab, k; split_and!; try done.
  - intros st' [->|Hin]%elem_of_cons Heq; [apply arr_get_Some in Hk; lia|by apply Hall].
  - intros st' Hin. apply Hall. set_solver.
Qed.
Lemma processed_all pre a t : processed [] pre a t <-> a ∈ pre /\ flow_edge bs0 a t.
Proof using.
  split; [intros H; split; [by destruct H as (? & ? & ? & ? & _)|by eapply processed_edge]|].
  intros [Ha (ab & Hab & Ht)]. apply arr_get_elem in Ht as [k Hk]. exists ab, k. split_and!; [done..|]. set_solver.
Qed.

(** The blocks on the stack are a branch of the tree, from the top, with number
    [y], down to the entry. *)
Inductive chain (pre parent : list Z) : list BlockTraversalState -> Z -> Prop :=
  | chain_one st : arr_get pre 0 = Some (traversal_block st) -> chain pre parent [st] 0
  | chain_more st stack x y : arr_get pre y = Some (traversal_block st) -> 0 < y -> parent_fn parent y = x ->
      chain pre parent stack x -> chain pre parent (st :: stack) y.

Lemma chain_top pre parent st rest y : chain pre parent (st :: rest) y -> arr_get pre y = Some (traversal_block st).
Proof using. by inversion 1. Qed.
Lemma chain_anc pre parent stack y st : chain pre parent stack y -> st ∈ stack ->
  exists z, arr_get pre z = Some (traversal_block st) /\ anc (parent_fn parent) z y.
Proof using.
  induction 1 as [st'|st' stack x y Hy Hpos Hpar _ IH]; intros Hin; [exists 0; split; [set_solver|constructor]|].
  apply elem_of_cons in Hin as [->|Hin]; [exists y; split; [done|constructor]|].
  destruct (IH Hin) as (z & Hz & Hanc). exists z. split; [done|]. apply anc_up; [done|congruence].
Qed.
Lemma chain_replace pre parent st st' rest y : chain pre parent (st :: rest) y -> traversal_block st' = traversal_block st -> chain pre parent (st' :: rest) y.
Proof using. intros H Heq. inversion H; subst; econstructor; try rewrite Heq; done. Qed.
Lemma chain_extend pre parent stack y s x : zlen parent = zlen pre -> chain pre parent stack y -> chain (pre ++ [s]) (parent ++ [x]) stack y.
Proof using.
  intros Hlen. induction 1 as [st H|st stack x' y Hy Hpos Hpar _ IH].
  - constructor. rewrite arr_get_app_l; [done|]. apply arr_get_Some in H. lia.
  - apply arr_get_Some in Hy as ?. eapply chain_more; [by rewrite arr_get_app_l by lia|done| |done].
    unfold parent_fn in *. by rewrite arr_get_app_l by lia.
Qed.

(** What is known of a block that has been reached. *)
Definition discovered (stack : list BlockTraversalState) (pre : list Z) (i a : Z) (b : BlockEntryInstr) : Prop :=
  preorder_number_ b = i /\ ready b /\ NoDup (pred_list b) /\ (forall p, p ∈ pred_list b <-> processed stack pre p a) /\
  StronglySorted (by_id bs0) (pred_list b).

Context (entry : Z) (Hwf : wf_flow bs0 entry).
Record inv (stack : list BlockTraversalState) (d : Discovery) (post : list Z) : Prop := {
  i_shapes : shapes (d_blocks d) bs0;
  i_nodup : NoDup (d_preorder d);
  i_parents : zlen (d_parent d) = zlen (d_preorder d);
  i_entry : arr_get (d_preorder d) 0 = Some entry;
  i_root : arr_get (d_parent d) 0 = Some (-1);
  i_block : forall i a, arr_get (d_preorder d) i = Some a ->
    exists b, arr_get (d_blocks d) a = Some b /\ discovered stack (d_preorder d) i a b;
  i_df : DepthFirst (zlen (d_preorder d)) (number_edge (processed stack (d_preorder d)) (d_preorder d)) (parent_fn (d_parent d));
  i_reach : forall a, a ∈ d_preorder d -> rtc (flow_edge bs0) entry a;
  i_closed : forall a s, processed stack (d_preorder d) a s -> s ∈ d_preorder d;
  i_stack : forall st, st ∈ stack -> exists ab, arr_get bs0 (traversal_block st) = Some ab /\ -1 <= next_successor_ix_ st < zlen (succ_list ab);
  i_chain : stack = [] \/ exists y, chain (d_preorder d) (d_parent d) stack y /\ anc (parent_fn (d_parent d)) y (zlen (d_preorder d) - 1);
  i_perm : post ++ map traversal_block stack ≡ₚ d_preorder d;
  i_post : forall i a, arr_get post i = Some a -> exists b, arr_get (d_blocks d) a = Some b /\ postorder_number_ b = i;
  i_order : forall i a s, arr_get post i = Some a -> flow_edge bs0 a s ->
    (exists j, j < i /\ arr_get post j = Some s) \/
    (exists x y, arr_get (d_preorder d) x = Some s /\ arr_get (d_preorder d) y = Some a /\ anc (parent_fn (d_parent d)) x y) }.

Lemma inv_rest st rest d post st' : inv (st :: rest) d post -> st' ∈ rest -> traversal_block st' <> traversal_block st.
Proof using.
  intros H Hin. pose proof (i_nodup _ _ _ H) as Hnd. rewrite <- (i_perm _ _ _ H) in Hnd. apply list.NoDup_app in Hnd as (_ & _ & Hnd).
  simpl in Hnd. apply list.NoDup_cons in Hnd as [Hni _]. intros Heq. apply Hni. rewrite <- Heq. by apply list_elem_of_fmap_2.
Qed.
Lemma inv_on_stack stack d post st : inv stack d post -> st ∈ stack -> traversal_block st ∈ d_preorder d.
Proof using. intros H Hin. rewrite <- (i_perm _ _ _ H). apply elem_of_app. right. by apply list_elem_of_fmap_2. Qed.
Lemma IsMarked_spec stack d post s b : inv stack d post -> arr_get (d_blocks d) s = Some b -> IsMarked d s = Some (bool_decide (s ∈ d_preorder d)).
Proof using.
  intros H Hb. unfold IsMarked. rewrite Hb. simpl. destruct (decide (s ∈ d_preorder d)) as [Hin|Hni].
  - rewrite bool_decide_true by done. apply arr_get_elem in Hin as [i Hi]. destruct (i_block _ _ _ H i s Hi) as (b' & Hb' & Hnum & _).
    simplify_eq. pose proof (arr_get_Some _ _ _ Hi). zif; [|zbool; lia]. rewrite Hi. simpl. by rewrite Z.eqb_refl.
  - rewrite bool_decide_false by done. zif; [|done]. destruct (arr_get_lt (d_preorder d) (preorder_number_ b)) as [p Hp]; [lia|].
    rewrite Hp. simpl. destruct (Z.eqb_spec p s) as [->|]; [|done]. destruct Hni. apply arr_get_elem. eauto.
Qed.

(** What is true of the successor that the search takes next. *)
Lemma next_facts st rest d post s ab : inv (st :: rest) d post -> arr_get bs0 (traversal_block st) = Some ab -> 0 <= next_successor_ix_ st ->
  arr_get (succ_list ab) (next_successor_ix_ st) = Some s ->
  ~ processed (st :: rest) (d_preorder d) (traversal_block st) s /\ s <> entry /\ flow_edge bs0 (traversal_block st) s.
Proof using Hwf.
  intros H Hab Hix Hs. assert (s ∈ succ_list ab) as Hin by (apply arr_get_elem; eauto). split_and!.
  - intros (ab' & k & Hab' & _ & Hk & Hlt). assert (ab' = ab) as -> by congruence.
    assert (k = next_successor_ix_ st) as -> by (eapply arr_get_inj; [by eapply wf_distinct|done..]).
    pose proof (Hlt st (list_elem_of_here _ _) eq_refl). lia.
  - destruct (wf_succ _ _ Hwf _ _ _ Hab Hin) as (sb & Hsb & Hg & _). destruct (wf_entry _ _ Hwf) as (eb & Heb & Hge). intros ->. congruence.
  - by exists ab.
Qed.

(** The search takes the next successor of the top block. *)
Lemma NextSuccessor_spec st rest d post : inv (st :: rest) d post -> 0 <= next_successor_ix_ st ->
  exists ab s, arr_get bs0 (traversal_block st) = Some ab /\ arr_get (succ_list ab) (next_successor_ix_ st) = Some s /\
    NextSuccessor (d_blocks d) st = Some (s, MkTraversal (traversal_block st) (next_successor_ix_ st - 1)).
Proof using Hwf.
  intros H Hix. destruct (i_stack _ _ _ H st) as (ab & Hab & Hlt); [set_solver|].
  destruct (arr_get_lt (succ_list ab) (next_successor_ix_ st)) as [s Hs]; [lia|]. exists ab, s. split_and!; [done..|].
  pose proof (inv_on_stack _ _ _ st H (list_elem_of_here _ _)) as [i Hi]%arr_get_elem.
  destruct (i_block _ _ _ H _ _ Hi) as (b & Hb & _ & (l & Hl & Hsl) & _). destruct (i_shapes _ _ _ H) as [_ Hsh].
  destruct (Hsh _ _ Hb) as (ab' & Hab' & Hsame). assert (ab' = ab) as -> by congruence. destruct Hsame as (_ & _ & Hsucc & _).
  rewrite Hsucc in Hsl. unfold NextSuccessor. rewrite Hb. simpl. rewrite Hl. simpl.
  rewrite SuccessorAt_list by (rewrite SuccessorCount_list, Hsl; lia). by rewrite Hsl, Hs.
Qed.

Lemma ready_shape b b' : same_shape b' b -> last_instruction_ b' = last_instruction_ b -> ready b -> ready b'.
Proof using.
  intros (Hk & _ & Hs & _) Hl (l & Hl' & Hsl). exists l. split; [congruence|]. rewrite Hs, <- Hsl.
  unfold succ_list_of. by rewrite Hk.
Qed.
Lemma number_edge_add (P P' : Z -> Z -> Prop) pre x y a s : NoDup pre -> arr_get pre x = Some a -> arr_get pre y = Some s ->
  (forall p t, P' p t <-> P p t \/ (p = a /\ t = s)) ->
  forall u v, number_edge P' pre u v <-> number_edge P pre u v \/ (u = x /\ v = y).
Proof using.
  intros Hnd Hx Hy HP u v. split.
  - intros (p & t & Hp & Ht & [H|[-> ->]]%HP); [left; by exists p, t|right]. split; by eapply arr_get_inj.
  - intros [(p & t & Hp & Ht & H)|[-> ->]]; [exists p, t|exists a, s]; split_and!; try done; apply HP; auto.
Qed.

(** A block that was reached before is a join, and only gets a predecessor. *)
Lemma DiscoverBlock_seen st rest d post ab s y x : inv (st :: rest) d post -> 0 <= next_successor_ix_ st ->
  arr_get bs0 (traversal_block st) = Some ab -> arr_get (succ_list ab) (next_successor_ix_ st) = Some s ->
  arr_get (d_preorder d) y = Some s -> arr_get (d_blocks d) s = Some x -> discovered (st :: rest) (d_preorder d) y s x ->
  exists x' bs', DiscoverBlock d s (Some (traversal_block st)) = Some (false, MkDiscovery bs' (d_preorder d) (d_parent d)) /\
    arr_set (d_blocks d) s x' = Some bs' /\ shapes bs' bs0 /\ 0 < y /\
    preorder_number_ x' = y /\ ready x' /\ pred_list x' ≡ₚ traversal_block st :: pred_list x /\ postorder_number_ x' = postorder_number_ x /\
    StronglySorted (by_id bs0) (pred_list x').
Proof using Hwf.
  intros H Hix Hab Hs Hy Hx (Hnum & Hready & _ & Hmem & Hsort).
  destruct (next_facts _ _ _ _ _ _ H Hab Hix Hs) as (Hnp & Hne & Hedge). set (a := traversal_block st) in *.
  assert (s ∈ succ_list ab) as Hsl by (apply arr_get_elem; eauto).
  destruct (wf_succ _ _ Hwf _ _ _ Hab Hsl) as (sb & Hsb & Hg & Hf). pose proof (i_shapes _ _ _ H) as Hsh.
  destruct (shapes_get _ _ _ _ Hsh Hab) as (pb & Hpb & Hpsh).
  assert (same_shape x sb) as Hxsh by (destruct Hsh as [_ Hsh]; destruct (Hsh _ _ Hx) as (? & ? & ?); by simplify_eq).
  pose proof (i_df _ _ _ H) as DF. pose proof (arr_get_Some _ _ _ Hy) as Hyr.
  assert (0 < y) as Hy0. { destruct (decide (y = 0)) as [->|]; [|lia]. rewrite (i_entry _ _ _ H) in Hy. congruence. }
  assert (IsJoinEntry sb = true) as Hjoin.
  { destruct (IsJoinEntry sb) eqn:Hj; [done|]. destruct (df_parent y) as [(p & t & _ & Ht & Hpt) _]; [lia|].
    assert (t = s) as -> by congruence. destruct Hnp. replace a with p; [done|].
    eapply (wf_single _ _ Hwf); [by eapply processed_edge|done..]. }
  destruct (AddPredecessor_spec (d_blocks d) x a pb) as (x' & Hadd & Hsh' & Hperm & Hsort' & Hn' & Hpo' & Hl'); [done|..].
  { unfold IsGraphEntry in *. by destruct Hxsh as (-> & _). }
  { unfold IsJoinEntry in *. destruct Hxsh as (-> & _). congruence. }
  { destruct Hxsh as (-> & _). unfold IsGraphEntry in *. destruct Hpsh as (-> & _). done. }
  { intros q (qb & k & Hqb & _)%Hmem. destruct (shapes_get _ _ _ _ Hsh Hqb) as (? & -> & _). done. }
  destruct (arr_set_ok (d_blocks d) s x x') as [bs' Hset]; [done|]. exists x', bs'.
  split; [|split; [done|split; [eapply shapes_set; [exact Hsh|exact Hx|exact Hsh'|exact Hset]|]; split_and!; try done; [congruence|by eapply ready_shape|]]].
  - unfold DiscoverBlock. erewrite IsMarked_spec by done. rewrite bool_decide_true by (apply arr_get_elem; eauto).
    rewrite Hx. simpl. rewrite Hadd. simpl. by rewrite Hset.
  - rewrite <- (sorted_shapes (d_blocks d)) by done. apply Hsort'. by rewrite (sorted_shapes _ bs0).
Qed.
Lemma discover_seen st rest d post ab s : inv (st :: rest) d post -> 0 <= next_successor_ix_ st ->
  arr_get bs0 (traversal_block st) = Some ab -> arr_get (succ_list ab) (next_successor_ix_ st) = Some s -> s ∈ d_preorder d ->
  exists d', DiscoverBlock d s (Some (traversal_block st)) = Some (false, d') /\ d_preorder d' = d_preorder d /\
    inv (MkTraversal (traversal_block st) (next_successor_ix_ st - 1) :: rest) d' post.
Proof using Hwf.
  intros H Hix Hab Hs [y Hy]%arr_get_elem. destruct (next_facts _ _ _ _ _ _ H Hab Hix Hs) as (Hnp & _). set (a := traversal_block st) in *.
  destruct (i_block _ _ _ H _ _ Hy) as (x & Hx & Hdisc).
  destruct (DiscoverBlock_seen _ _ _ _ _ _ _ _ H Hix Hab Hs Hy Hx Hdisc) as (x' & bs' & Hdb & Hset & Hsh & Hy0 & Hn & Hr & Hperm & Hpo & Hsort).
  destruct Hdisc as (_ & _ & Hndp & Hmem & _). eexists. split_and!; [done..|].
  assert (forall p t, processed (MkTraversal a (next_successor_ix_ st - 1) :: rest) (d_preorder d) p t <->
    processed (st :: rest) (d_preorder d) p t \/ (p = a /\ t = s)) as Hstep.
  { intros p t. eapply processed_step; [done..| |by intros; eapply inv_rest]. eapply inv_on_stack; [done|set_solver]. }
  destruct (i_chain _ _ _ H) as [|(z & Hchain & Hanc)]; [done|]. pose proof (chain_top _ _ _ _ _ Hchain) as Hz. fold a in Hz.
  pose proof (arr_get_Some _ _ _ Hz). pose proof (arr_get_Some _ _ _ Hy). pose proof (i_df _ _ _ H) as DF. split; simpl; try apply H; try done.
  - intros i c Hc. rewrite (arr_get_set _ _ _ _ _ Hset). destruct (Z.eqb_spec s c) as [<-|Hsc].
    + exists x'. split; [done|]. assert (i = y) as -> by (eapply arr_get_inj; [apply H|done..]). split_and!; try done.
      * rewrite Hperm. apply list.NoDup_cons. split; [by rewrite Hmem|done].
      * intros p. rewrite Hperm, elem_of_cons, Hmem, Hstep. naive_solver.
    + destruct (i_block _ _ _ H _ _ Hc) as (b & Hb & Hbn & Hbr & Hbd & Hbm & Hbs). exists b. split; [done|]. split_and!; try done.
      intros p. rewrite Hbm, Hstep. naive_solver.
  - eapply DepthFirst_edge with (x := z) (y := y); [done|lia..| |].
    + intros Hlt. eapply anc_interval; [done|lia..].
    + by eapply number_edge_add; [apply H|..].
  - intros p t [?|[-> ->]]%Hstep; [by eapply i_closed|]. apply arr_get_elem. eauto.
  - intros st' [->|Hst]%elem_of_cons; [|apply (i_stack _ _ _ H); set_solver]. simpl.
    destruct (i_stack _ _ _ H st) as (ab' & Hab' & Hr'); [set_solver|]. exists ab'. split; [done|lia].
  - right. exists z. split; [by eapply chain_replace|done].
  - intros i c Hc. destruct (i_post _ _ _ H i c Hc) as (b & Hb & Hbn). rewrite (arr_get_set _ _ _ _ _ Hset).
    destruct (Z.eqb_spec s c) as [<-|]; [|eauto]. exists x'. split; [done|]. congruence.
Qed.
Lemma same_shape_trans a b c : same_shape a b -> same_shape b c -> same_shape a c.
Proof using. intros (? & ? & ? & ?) (? & ? & ? & ?). split_and!; congruence. Qed.

(** A new block: its entry in the arrays, and the state that is pushed. *)
Lemma DiscoverBlock_new stack d post s a sb ab pb y : inv stack d post -> s ∉ d_preorder d -> arr_get bs0 s = Some sb -> arr_get bs0 a = Some ab ->
  s ∈ succ_list ab -> arr_get (d_blocks d) a = Some pb -> preorder_number_ pb = y ->
  exists x bs', arr_set (d_blocks d) s x = Some bs' /\ shapes bs' bs0 /\
    DiscoverBlock d s (Some a) = Some (true, MkDiscovery bs' (d_preorder d ++ [s]) (d_parent d ++ [y])) /\
    preorder_number_ x = zlen (d_preorder d) /\ ready x /\ pred_list x = [a] /\
    BlockTraversalState_new bs' s = Some (MkTraversal s (zlen (succ_list sb) - 1)).
Proof using Hwf.
  intros H Hni Hsb Hab Hsl Hpb Hpn. destruct (wf_succ _ _ Hwf _ _ _ Hab Hsl) as (sb' & Hsb' & Hg & Hf). assert (sb' = sb) as -> by congruence.
  pose proof (i_shapes _ _ _ H) as Hsh. destruct (shapes_get _ _ _ _ Hsh Hsb) as (x0 & Hx0 & Hk0).
  assert (same_shape pb ab) as Hpsh by (destruct (shapes_get _ _ _ _ Hsh Hab) as (? & ? & ?); by simplify_eq).
  destruct (ClearPredecessors_spec x0) as (Hc & Hcp & Hcn & _).
  assert (same_shape (ClearPredecessors x0) sb) as Hc0 by (by eapply same_shape_trans).
  destruct (AddPredecessor_spec (d_blocks d) (ClearPredecessors x0) a pb) as (x1 & Hadd & Hsh1 & Hperm & _ & _ & Hpo & _); [done|..].
  { unfold IsGraphEntry in *. by destruct Hc0 as (-> & _). }
  { done. }
  { destruct Hc0 as (-> & _). unfold IsGraphEntry in *. by destruct Hpsh as (-> & _). }
  { rewrite Hcp. set_solver. }
  set (x2 := with_numbers x1 (zlen (d_preorder d)) (postorder_number_ x1)).
  destruct (find_last_shape s x2) as (Hsh2 & Hready & Hpl & Hnum). set (x := find_last s x2) in *.
  assert (same_shape x x0) as Hshx.
  { eapply same_shape_trans; [exact Hsh2|]. eapply same_shape_trans; [|exact Hc]. by eapply same_shape_trans; [|exact Hsh1]. }
  destruct (arr_set_ok (d_blocks d) s x0 x) as [bs' Hset]; [done|]. exists x, bs'. split_and!; [done|by eapply shapes_set| |done|done| |].
  - unfold DiscoverBlock. erewrite IsMarked_spec by done. rewrite bool_decide_false by done. rewrite Hx0. simpl. rewrite Hpb. simpl.
    rewrite Hadd. simpl. unfold x, x2 in Hset. by rewrite Hset, Hpn.
  - rewrite Hpl. rewrite Hcp in Hperm. by apply Permutation_singleton_r in Hperm.
  - unfold BlockTraversalState_new. rewrite (arr_get_set _ _ _ _ _ Hset), Z.eqb_refl. simpl. destruct Hready as (l & Hl & Hls). rewrite Hl. simpl.
    rewrite SuccessorCount_list, Hls. do 4 f_equal. destruct Hshx as (_ & _ & -> & _). by destruct Hk0 as (_ & _ & -> & _).
Qed.

Lemma discover_new st rest d post ab s : inv (st :: rest) d post -> 0 <= next_successor_ix_ st ->
  arr_get bs0 (traversal_block st) = Some ab -> arr_get (succ_list ab) (next_successor_ix_ st) = Some s -> s ∉ d_preorder d ->
  exists d' next sb, DiscoverBlock d s (Some (traversal_block st)) = Some (true, d') /\ BlockTraversalState_new (d_blocks d') s = Some next /\
    d_preorder d' = d_preorder d ++ [s] /\ arr_get bs0 s = Some sb /\ next_successor_ix_ next = zlen (succ_list sb) - 1 /\
    inv (next :: MkTraversal (traversal_block st) (next_successor_ix_ st - 1) :: rest) d' post.
Proof using Hwf.
  intros H Hix Hab Hs Hni. destruct (next_facts _ _ _ _ _ _ H Hab Hix Hs) as (Hnp & Hne & Hedge). set (a := traversal_block st) in *.
  assert (s ∈ succ_list ab) as Hsl by (apply arr_get_elem; eauto). destruct (wf_succ _ _ Hwf _ _ _ Hab Hsl) as (sb & Hsb & _).
  destruct (i_chain _ _ _ H) as [|(z & Hchain & Hanc)]; [done|]. pose proof (chain_top _ _ _ _ _ Hchain) as Hz. fold a in Hz.
  destruct (i_block _ _ _ H _ _ Hz) as (pb & Hpb & Hpn & _).
  destruct (DiscoverBlock_new _ _ _ _ _ _ _ _ _ H Hni Hsb Hab Hsl Hpb Hpn) as (x & bs' & Hset & Hshapes & Hdisc & Hnum & Hready & Hpl & Hnew).
  exists (MkDiscovery bs' (d_preorder d ++ [s]) (d_parent d ++ [z])). eexists _, sb. split_and!; [done..|].
  assert (forall st', st' ∈ st :: rest -> traversal_block st' ∈ d_preorder d) as Hon by (intros; by eapply inv_on_stack).
  assert (forall p t, processed (MkTraversal s (zlen (succ_list sb) - 1) :: MkTraversal a (next_successor_ix_ st - 1) :: rest) (d_preorder d ++ [s]) p t <->
    processed (st :: rest) (d_preorder d) p t \/ (p = a /\ t = s)) as Hstep.
  { intros p t. rewrite processed_push; [|done| |done]. 2: { intros st' [->|Hin]%elem_of_cons; [apply (Hon st); set_solver|apply Hon; set_solver]. }
    eapply processed_step; [done..| |by intros; eapply inv_rest]. apply Hon. set_solver. }
  pose proof (i_nodup _ _ _ H) as Hnd. assert (NoDup (d_preorder d ++ [s])) as Hnd'.
  { apply list.NoDup_app. split_and!; [done| |apply NoDup_singleton]. intros ? ? ->%list_elem_of_singleton. done. }
  pose proof (arr_get_Some _ _ _ Hz) as Hzr. pose proof (i_parents _ _ _ H) as Hlen. pose proof (i_df _ _ _ H) as DF.
  assert (forall i, i < zlen (d_preorder d) -> parent_fn (d_parent d ++ [z]) i = parent_fn (d_parent d) i) as Hpar.
  { intros i Hi. unfold parent_fn. by rewrite arr_get_app_l by lia. }
  assert (parent_fn (d_parent d ++ [z]) (zlen (d_preorder d)) = z) as Hparz. { unfold parent_fn. by rewrite arr_get_snoc, Hlen, Z.eqb_refl. }
  assert (forall i c, arr_get (d_preorder d) i = Some c -> c <> s /\ arr_get (d_preorder d ++ [s]) i = Some c) as Hold.
  { intros i c Hc. split; [intros ->; apply Hni, arr_get_elem; eauto|]. rewrite arr_get_app_l; [done|]. apply arr_get_Some in Hc. lia. }
  split; simpl; try apply H; try done.
  - rewrite !zlen_app. unfold zlen at 2 4. simpl. lia.
  - by apply Hold, H.
  - rewrite arr_get_app_l; [apply H|]. rewrite Hlen. lia.
  - intros i c. rewrite arr_get_snoc, (arr_get_set _ _ _ _ _ Hset). destruct (Z.eqb_spec i (zlen (d_preorder d))) as [->|].
    + intros [= <-]. rewrite Z.eqb_refl. exists x. split; [done|]. split_and!; try done; rewrite ?Hpl; [apply NoDup_singleton| |repeat constructor].
      intros p. rewrite list_elem_of_singleton, Hstep. split; [naive_solver|]. intros [Hp%(i_closed _ _ _ H)|[? _]]; done.
    + intros Hc. destruct (Hold _ _ Hc) as [Hcs _]. destruct (Z.eqb_spec s c); [done|].
      destruct (i_block _ _ _ H _ _ Hc) as (b & Hb & Hbn & Hbr & Hbd & Hbm & Hbs). exists b. split; [done|]. split_and!; try done.
      intros p. rewrite Hbm, Hstep. naive_solver.
  - rewrite zlen_app. change (zlen [s]) with 1. eapply DepthFirst_vertex with (x := z); [done|lia|done..|]. intros u v. split.
    + intros (p & t & Hu & Hv & [Hpt|[-> ->]]%Hstep).
      * left. pose proof Hpt as (? & ? & _ & [u' Hu']%arr_get_elem & _). pose proof (i_closed _ _ _ H _ _ Hpt) as [v' Hv']%arr_get_elem.
        pose proof (Hold _ _ Hu') as [_ Hu'']. pose proof (Hold _ _ Hv') as [_ Hv''].
        assert (u' = u) as -> by (by eapply arr_get_inj). assert (v' = v) as -> by (by eapply arr_get_inj). by exists p, t.
      * right. split; [eapply arr_get_inj; [done|exact Hu|by apply Hold]|]. eapply arr_get_inj; [done|exact Hv|]. by rewrite arr_get_snoc, Z.eqb_refl.
    + intros [(p & t & Hu & Hv & Hpt)|[-> ->]]; [exists p, t|exists a, s]; split_and!; try (by apply Hold); try (apply Hstep; auto).
      by rewrite arr_get_snoc, Z.eqb_refl.
  - intros c [Hc|Hc%list_elem_of_singleton]%elem_of_app; [by apply H|]. subst c. eapply rtc_r; [|done]. apply (i_reach _ _ _ H), arr_get_elem. eauto.
  - intros p t [?%(i_closed _ _ _ H)|[-> ->]]%Hstep; set_solver.
  - intros st' [->|[->|Hin]%elem_of_cons]%elem_of_cons; simpl; [exists sb; split; [done|]; pose proof (zlen_nonneg (succ_list sb)); lia| |apply (i_stack _ _ _ H); set_solver].
    destruct (i_stack _ _ _ H st) as (ab' & Hab' & Hr); [set_solver|]. exists ab'. split; [done|lia].
  - right. exists (zlen (d_preorder d)). split; [|rewrite zlen_app; change (zlen [s]) with 1; replace (zlen (d_preorder d) + 1 - 1) with (zlen (d_preorder d)) by lia; constructor].
    eapply chain_more; [by rewrite arr_get_snoc, Z.eqb_refl|lia|done|]. apply chain_extend; [done|]. by eapply chain_replace.
  - rewrite <- (i_perm _ _ _ H). simpl. fold a. rewrite <- !Permutation_middle, app_nil_r. done.
  - intros i c Hc. destruct (i_post _ _ _ H i c Hc) as (b & Hb & Hbn). rewrite (arr_get_set _ _ _ _ _ Hset).
    destruct (Z.eqb_spec s c) as [<-|]; [|eauto]. destruct Hni. rewrite <- (i_perm _ _ _ H). apply elem_of_app. left. apply arr_get_elem. eauto.
  - intros i c t Hc Ht. destruct (i_order _ _ _ H i c t Hc Ht) as [|(u & v & Hu & Hv & Huv)]; [auto|]. right. exists u, v.
    split_and!; [by apply Hold..|]. apply arr_get_Some in Hv. eapply anc_ext; [|exact Hpar|done|lia]. intros j Hj. pose proof (df_parent j). lia.
Qed.

(** A block with no successors left gets its postorder number. *)
Lemma pop_step st rest d post : inv (st :: rest) d post -> next_successor_ix_ st < 0 ->
  exists b bs', arr_get (d_blocks d) (traversal_block st) = Some b /\
    arr_set (d_blocks d) (traversal_block st) (with_numbers b (preorder_number_ b) (zlen post)) = Some bs' /\
    inv rest (MkDiscovery bs' (d_preorder d) (d_parent d)) (post ++ [traversal_block st]).
Proof using Hwf.
  intros H Hix. set (a := traversal_block st). destruct (i_chain _ _ _ H) as [|(z & Hchain & Hanc)]; [done|].
  pose proof (chain_top _ _ _ _ _ Hchain) as Hz. fold a in Hz. destruct (i_block _ _ _ H _ _ Hz) as (b & Hb & Hbn & Hbr & Hbd & Hbm & Hbs).
  set (b' := with_numbers b (preorder_number_ b) (zlen post)). destruct (arr_set_ok (d_blocks d) a b b') as [bs' Hset]; [done|].
  exists b, bs'. split_and!; [done..|]. pose proof (fun p t => processed_pop st rest (d_preorder d) p t Hix) as Hstep.
  assert (forall j, arr_get post j <> Some a) as Hna.
  { intros j Hj. pose proof (i_nodup _ _ _ H) as Hnd. rewrite <- (i_perm _ _ _ H) in Hnd. apply list.NoDup_app in Hnd as (_ & Hnd & _).
    apply (Hnd a); [apply arr_get_elem; eauto|]. simpl. set_solver. }
  assert (forall s, s ∈ d_preorder d -> (exists j, j < zlen post /\ arr_get post j = Some s) \/
    (exists x, arr_get (d_preorder d) x = Some s /\ anc (parent_fn (d_parent d)) x z)) as Hsplit.
  { intros s. rewrite <- (i_perm _ _ _ H), elem_of_app. intros [[j Hj]%arr_get_elem|(st' & -> & Hin)%list_elem_of_fmap];
      [left; exists j; split; [apply arr_get_Some in Hj; lia|done]|right]. by eapply chain_anc. }
  split; simpl; try apply H.
  - eapply shapes_set; [apply H|exact Hb| |exact Hset]. done.
  - intros i c Hc. rewrite (arr_get_set _ _ _ _ _ Hset). destruct (Z.eqb_spec a c) as [<-|].
    + exists b'. split; [done|]. assert (i = z) as -> by (eapply arr_get_inj; [apply H|done..]). split_and!; try done. intros p. by rewrite Hstep.
    + destruct (i_block _ _ _ H _ _ Hc) as (x & Hx & ? & ? & ? & Hm & ?). exists x. split; [done|]. split_and!; try done. intros p. by rewrite Hstep.
  - eapply DepthFirst_equiv; [|apply H]. intros u v. unfold number_edge. by setoid_rewrite Hstep.
  - intros p t ?%Hstep. by eapply i_closed.
  - intros st' Hin. apply (i_stack _ _ _ H). set_solver.
  - inversion Hchain as [|st0 stack x y Hy Hpos Hpar Hch]; subst; [auto|]. right. eexists. split; [done|].
    eapply anc_trans; [|done]. apply anc_up; [done|constructor].
  - rewrite <- (assoc_L (++)). apply H.
  - intros i c. rewrite arr_get_snoc, (arr_get_set _ _ _ _ _ Hset). destruct (Z.eqb_spec i (zlen post)) as [->|].
    + intros [= <-]. rewrite Z.eqb_refl. by exists b'.
    + intros Hc. destruct (Z.eqb_spec a c) as [<-|]; [by apply Hna in Hc|by apply H].
  - intros i c s. rewrite arr_get_snoc. destruct (Z.eqb_spec i (zlen post)) as [->|].
    + intros [= <-] Hs. assert (processed rest (d_preorder d) a s) as Hp.
      { destruct Hs as (ab & Hab & [k Hk]%arr_get_elem). exists ab, k. split_and!; [done|apply arr_get_elem; eauto|done|].
        intros st' Hin Heq. by destruct (inv_rest _ _ _ _ st' H Hin). }
      apply Hstep, (i_closed _ _ _ H), Hsplit in Hp as [(j & Hlt & Hj)|(x & Hx & Hxz)]; [left; exists j; split; [done|]|by right; exists x, z].
      rewrite arr_get_snoc. by replace (j =? zlen post) with false by lia.
    + intros Hc Hs. destruct (i_order _ _ _ H i c s Hc Hs) as [(j & Hlt & Hj)|]; [|auto]. left. exists j. split; [done|].
      apply arr_get_Some in Hj as ?. rewrite arr_get_snoc. by replace (j =? zlen post) with false by lia.
Qed.

(** The search starts with the entry alone. *)
Lemma discover_entry : exists eb d, arr_get bs0 entry = Some eb /\ DiscoverBlock (MkDiscovery bs0 [] []) entry None = Some (true, d) /\
  d_preorder d = [entry] /\ BlockTraversalState_new (d_blocks d) entry = Some (MkTraversal entry (zlen (succ_list eb) - 1)) /\
  inv [MkTraversal entry (zlen (succ_list eb) - 1)] d [].
Proof using Hwf.
  destruct (wf_entry _ _ Hwf) as (eb & Heb & Hg). exists eb. destruct (ClearPredecessors_spec eb) as (Hc & Hcp & _).
  set (x1 := with_numbers (ClearPredecessors eb) 0 (postorder_number_ (ClearPredecessors eb))).
  destruct (find_last_shape entry x1) as (Hsh & Hready & Hpl & Hnum). set (x := find_last entry x1) in *.
  assert (same_shape x eb) as Hx by (eapply same_shape_trans; [exact Hsh|]; by eapply same_shape_trans; [|exact Hc]).
  destruct (arr_set_ok bs0 entry eb x) as [bs' Hset]; [done|]. exists (MkDiscovery bs' [entry] [-1]).
  assert (forall p t, ~ processed [MkTraversal entry (zlen (succ_list eb) - 1)] [entry] p t) as Hnone.
  { intros p t (ab & k & Hab & Hin%list_elem_of_singleton & Hk & Hall). subst p. assert (ab = eb) as -> by congruence.
    pose proof (Hall _ (list_elem_of_here _ _) eq_refl). apply arr_get_Some in Hk. simpl in *. lia. }
  split_and!; [done| |done| |].
  - unfold DiscoverBlock, IsMarked. simpl. rewrite Heb. simpl. zif; [unfold zlen in *; simpl in *; lia|].
    unfold x, x1 in Hset. simpl. change (zlen []) with 0. by rewrite Hset.
  - unfold BlockTraversalState_new. simpl. rewrite (arr_get_set _ _ _ _ _ Hset), Z.eqb_refl. simpl. destruct Hready as (l & Hl & Hls).
    rewrite Hl. simpl. rewrite SuccessorCount_list, Hls. by destruct Hx as (_ & _ & -> & _).
  - split; simpl; try done.
    + eapply shapes_set; [apply shapes_refl|done..].
    + apply NoDup_singleton.
    + intros i a Ha. apply arr_get_Some in Ha as Hi. change (zlen [entry]) with 1 in Hi. assert (i = 0) as -> by lia.
      injection Ha as <-. exists x. split; [by rewrite (arr_get_set _ _ _ _ _ Hset), Z.eqb_refl|].
      split_and!; [done..| | |]; rewrite Hpl; simpl; unfold x1; change (pred_list (with_numbers ?b _ _)) with (pred_list b); rewrite Hcp;
        [apply NoDup_nil_2| |constructor]. intros p. split; [set_solver|]. intros []%Hnone.
    + change (zlen [entry]) with 1. split; try (intros; lia); [intros u v..|intros u]; intros (p & t & _ & _ & []%Hnone).
    + intros a ->%list_elem_of_singleton. constructor.
    + by intros a s []%Hnone.
    + intros st ->%list_elem_of_singleton. exists eb. simpl. split; [done|]. pose proof (zlen_nonneg (succ_list eb)). lia.
    + right. exists 0. split; [by constructor|constructor].
    + intros i a Ha%arr_get_Some. unfold zlen in Ha. simpl in Ha. lia.
    + intros i a s Ha%arr_get_Some. unfold zlen in Ha. simpl in Ha. lia.
Qed.

(** ** The search ends *)
Definition successors_at (a : Z) : list Z := default [] (succ_list <$> arr_get bs0 a).
(** Every round takes a successor off a state, or a state off the stack. *)
Definition search_work (stack : list BlockTraversalState) (todo : list Z) : nat :=
  (sum_list_with (fun st => Z.to_nat (next_successor_ix_ st + 2)) stack + sum_list_with (fun a => S (length (successors_at a))) todo)%nat.

Lemma DiscoverBlocks_loop_spec fuel stack d post todo : inv stack d post -> d_preorder d ++ todo ≡ₚ seqZ 0 (zlen bs0) ->
  (search_work stack todo < fuel)%nat ->
  exists d' post', DiscoverBlocks_loop fuel stack d post = Some (d', post') /\ inv [] d' post'.
Proof using Hwf.
  revert stack d post todo. induction fuel as [|fuel IH]; intros stack d post todo H Htodo Hfuel; [lia|].
  destruct stack as [|st rest]; [by exists d, post|]. simpl. unfold search_work in Hfuel. simpl in Hfuel.
  destruct (i_stack _ _ _ H st) as (ab0 & _ & Hix0); [set_solver|].
  unfold HasNextSuccessor. zif.
  - destruct (NextSuccessor_spec _ _ _ _ H) as (ab & s & Hab & Hs & ->); [done|]. simpl. destruct (decide (s ∈ d_preorder d)) as [Hin|Hni].
    + destruct (discover_seen _ _ _ _ _ _ H E Hab Hs Hin) as (d' & -> & Hpre & Hinv). simpl.
      eapply (IH _ _ _ todo); [done|by rewrite Hpre|]. unfold search_work. simpl. lia.
    + destruct (discover_new _ _ _ _ _ _ H E Hab Hs Hni) as (d' & next & sb & -> & Hnew & Hpre & Hsb & Hnx & Hinv). simpl. rewrite Hnew. simpl.
      assert (s ∈ d_preorder d ++ todo) as [|(todo' & Hperm)%elem_of_Permutation]%elem_of_app; [|done|].
      { rewrite Htodo. apply arr_get_Some in Hsb. apply elem_of_seqZ. lia. }
      eapply (IH _ _ _ todo'); [done| |].
      * rewrite Hpre, <- (assoc_L (++)), <- Htodo. by rewrite Hperm.
      * unfold search_work. rewrite Hperm in Hfuel. simpl in *. unfold successors_at at 1 in Hfuel. rewrite Hsb in Hfuel. simpl in Hfuel.
        unfold zlen in Hnx. lia.
  - destruct (pop_step _ _ _ _ H) as (b & bs' & -> & Hset & Hinv); [done|]. simpl. rewrite Hset. simpl.
    eapply (IH _ _ _ todo); [done..|]. unfold search_work. lia.
Qed.
End Search.

(** Rounds that are enough for any graph with these blocks. *)
Definition search_bound (g : FlowGraph) : nat :=
  S (sum_list_with (fun a => S (length (successors_at (all_blocks g) a))) (seqZ 0 (zlen (all_blocks g)))).

(** ** What the passes that follow rely on *)
(** The edges of the graph between preorder numbers. *)
Definition graph_edge (g : FlowGraph) : Z -> Z -> Prop := number_edge (flow_edge (all_blocks g)) (preorder_blocks g).
Abbreviation block_count g := (zlen (preorder_blocks g)).
Abbreviation tree_parent g := (parent_fn (parent_ g)).
(** The numbering of a graph whose blocks have been discovered; predecessors are
    the discovered blocks with an edge, each once, sorted by block id. *)
Class Discovered (g : FlowGraph) : Prop := {
  dc_nodup : NoDup (preorder_blocks g);
  dc_parents : zlen (parent_ g) = block_count g;
  dc_entry : arr_get (preorder_blocks g) 0 = Some (graph_entry_ g);
  dc_root : arr_get (parent_ g) 0 = Some (-1);
  dc_block : forall i a, arr_get (preorder_blocks g) i = Some a -> exists b, arr_get (all_blocks g) a = Some b /\
    preorder_number_ b = i /\ ready b /\ NoDup (pred_list b) /\ (forall p, p ∈ pred_list b <-> p ∈ preorder_blocks g /\ flow_edge (all_blocks g) p a) /\
    StronglySorted (by_id (all_blocks g)) (pred_list b);
  dc_df : DepthFirst (block_count g) (graph_edge g) (tree_parent g);
  dc_closed : forall a s, a ∈ preorder_blocks g -> flow_edge (all_blocks g) a s -> s ∈ preorder_blocks g }.
#[export] Existing Instance dc_df.
(** Postorder: a successor comes before the block, unless it is one of its
    ancestors in the spanning tree. *)
Definition postorder_of (g : FlowGraph) : Prop :=
  postorder_blocks g ≡ₚ preorder_blocks g /\ reverse_postorder_blocks g = reverse (postorder_blocks g) /\
  (forall i a, arr_get (postorder_blocks g) i = Some a -> exists b, arr_get (all_blocks g) a = Some b /\ postorder_number_ b = i) /\
  (forall i a s, arr_get (postorder_blocks g) i = Some a -> flow_edge (all_blocks g) a s ->
    (exists j, j < i /\ arr_get (postorder_blocks g) j = Some s) \/
    (exists x y, arr_get (preorder_blocks g) x = Some s /\ arr_get (preorder_blocks g) y = Some a /\ anc (tree_parent g) x y)).

Lemma flow_edge_shapes bs bs0 a s : shapes bs bs0 -> flow_edge bs a s <-> flow_edge bs0 a s.
Proof.
  intros Hs. split; intros (ab & Hab & Hin).
  - destruct Hs as [_ Hs]. destruct (Hs _ _ Hab) as (b0 & Hb0 & _ & _ & Heq & _). exists b0. by rewrite <- Heq.
  - destruct (shapes_get _ _ _ _ Hs Hab) as (b & Hb & _ & _ & Heq & _). exists b. by rewrite Heq.
Qed.
Lemma pred_list_single b : IsJoinEntry b = false -> (length (pred_list b) <= 1)%nat.
Proof. unfold IsJoinEntry, pred_list. destruct (block_kind b); try done; intros _; simpl; try lia; destruct (predecessor_ b); simpl; lia. Qed.

Lemma DiscoverBlocks_spec fuel g : wf_flow (all_blocks g) (graph_entry_ g) -> (search_bound g <= fuel)%nat ->
  exists g', DiscoverBlocks fuel g = Some g' /\ Discovered g' /\ postorder_of g' /\ shapes (all_blocks g') (all_blocks g) /\
    graph_entry_ g' = graph_entry_ g /\ loop_hierarchy_ g' = None /\
    (forall a, a ∈ preorder_blocks g' <-> rtc (flow_edge (all_blocks g)) (graph_entry_ g) a).
Proof.
  intros Hwf Hfuel. destruct (discover_entry _ _ Hwf) as (eb & d0 & Heb & Hd & Hpre & Hnew & Hinv0).
  assert (exists todo, [graph_entry_ g] ++ todo ≡ₚ seqZ 0 (zlen (all_blocks g))) as (todo & Htodo).
  { assert (graph_entry_ g ∈ seqZ 0 (zlen (all_blocks g))) as (k & Hk)%elem_of_Permutation by (apply elem_of_seqZ; apply arr_get_Some in Heb; lia).
    by exists k. }
  destruct (DiscoverBlocks_loop_spec _ _ Hwf fuel _ _ _ todo Hinv0) as (d & post & Hloop & H); [by rewrite Hpre| |].
  { unfold search_bound in Hfuel. rewrite <- Htodo in Hfuel. unfold search_work. simpl in *. unfold successors_at at 1 in Hfuel.
    rewrite Heb in Hfuel. simpl in Hfuel. unfold zlen. lia. }
  eexists. split. { unfold DiscoverBlocks. rewrite Hd. simpl. rewrite Hnew. simpl. by rewrite Hloop. }
  pose proof (i_shapes _ _ _ _ _ H) as Hsh. pose proof (fun a s => flow_edge_shapes _ _ a s Hsh) as Hfe.
  pose proof (processed_all (all_blocks g) (d_preorder d)) as Hall.
  split_and!; [split|split_and!| | | |]; simpl; try apply H; try done.
  - intros i a Ha. destruct (i_block _ _ _ _ _ H i a Ha) as (b & Hb & Hn & Hr & Hnd & Hm & Hs). exists b. split_and!; try done.
    + intros p. by rewrite Hm, Hall, Hfe.
    + by rewrite (sorted_shapes _ (all_blocks g)).
  - eapply DepthFirst_equiv; [|apply H]. intros x y. unfold graph_edge, number_edge. simpl. setoid_rewrite Hall. setoid_rewrite Hfe.
    split; [|naive_solver]. intros (a & s & Ha & Hs & He). exists a, s. split_and!; try done. apply arr_get_elem. eauto.
  - intros a s Ha He. eapply (i_closed _ _ _ _ _ H). apply Hall. split; [done|by apply Hfe].
  - pose proof (i_perm _ _ _ _ _ H) as Hp. simpl in Hp. by rewrite app_nil_r in Hp.
  - intros i a s Ha Hs%Hfe. by apply (i_order _ _ _ _ _ H).
  - intros a. split; [apply H|]. revert a. apply (rtc_ind_r (fun a => a ∈ d_preorder d)); [apply arr_get_elem; eexists; apply H|].
    intros a s _ Hst Ha. eapply (i_closed _ _ _ _ _ H). by apply Hall.
Qed.

(** C9: [FlowGraph::DiscoverBlocks] ends on every graph that the builder may
    make, in any state left by an earlier call. It numbers exactly the blocks that
    are reachable from the graph entry; the parents form a spanning tree in
    which an edge to a later block leads to a descendant; every block has exactly its
    reachable predecessors, once each, by block id; and in postorder a block
    follows its successors unless they are its ancestors. *)
Theorem DiscoverBlocks_depth_first fuel g : wf_flow (all_blocks g) (graph_entry_ g) -> (search_bound g <= fuel)%nat ->
  exists g', DiscoverBlocks fuel g = Some g' /\ Discovered g' /\ postorder_of g' /\ shapes (all_blocks g') (all_blocks g) /\
    graph_entry_ g' = graph_entry_ g /\ loop_hierarchy_ g' = None /\
    (forall a, a ∈ preorder_blocks g' <-> rtc (flow_edge (all_blocks g)) (graph_entry_ g) a).
Proof. apply DiscoverBlocks_spec. Qed.

(** A diamond in a loop; block 8 is not reachable and its predecessors are those
    of an earlier call. *)
Definition new_block (kind : BlockKind) (id : Z) (instrs : list Instr) : BlockEntryInstr :=
  MkBlock kind id (-1) (-1) [] None None [] instrs None None None.
Definition example_blocks : Blocks := [
  new_block (GraphEntryInstr (Some 1) None None []) 0 []; new_block FunctionEntryInstr 1 [PlainInstr; GotoInstr 2 None];
  new_block JoinEntryInstr 7 [BranchInstr 3 4]; new_block TargetEntryInstr 5 [GotoInstr 5 None]; new_block TargetEntryInstr 4 [GotoInstr 5 None];
  new_block JoinEntryInstr 3 [BranchInstr 6 7]; new_block TargetEntryInstr 6 [GotoInstr 2 None]; new_block TargetEntryInstr 2 [PlainInstr];
  MkBlock JoinEntryInstr 8 2 5 [1; 7] None None [] [GotoInstr 5 None] None None None].
Definition example_graph : FlowGraph := MkFlowGraph 0 example_blocks [] [] [] [] [] [] None None.

Ltac each_block :=
  repeat match goal with
  | H : arr_get example_blocks ?a = Some _ |- _ =>
      let Ha := fresh in pose proof (arr_get_Some _ _ _ H) as Ha; change (zlen example_blocks) with 9 in Ha;
      assert (a = 0 \/ a = 1 \/ a = 2 \/ a = 3 \/ a = 4 \/ a = 5 \/ a = 6 \/ a = 7 \/ a = 8) as Hcases by lia; clear Ha;
      destruct Hcases as [->|[->|[->|[->|[->|[->|[->|[->| ->]]]]]]]]; injection H as <-
  end.
Lemma example_wf : wf_flow example_blocks 0.
Proof.
  split.
  - eexists. split; reflexivity.
  - intros a ab s H Hs. each_block; cbn in Hs; rewrite ?elem_of_cons, ?elem_of_nil in Hs;
      intuition subst; eexists; split; try reflexivity; split; try reflexivity; cbn; intuition discriminate.
  - intros a ab H. each_block; vm_compute; repeat constructor; set_solver.
  - intros a a' s sb (ab & H & Hs) (ab' & H' & Hs') Hsb Hj. each_block; cbn in Hs, Hs', Hj; try discriminate Hj; set_unfold in Hs; set_unfold in Hs'; intuition discriminate || lia.
Qed.
Theorem DiscoverBlocks_depth_first_witness :
  exists g', DiscoverBlocks 30 example_graph = Some g' /\ Discovered g' /\
    preorder_blocks g' = [0; 1; 2; 4; 5; 7; 6; 3] /\ parent_ g' = [-1; 0; 1; 2; 3; 4; 4; 2] /\ postorder_blocks g' = [7; 6; 5; 4; 3; 2; 1; 0] /\
    (pred_list <$> all_blocks g') !! 2%nat = Some [1; 6] /\ (pred_list <$> all_blocks g') !! 5%nat = Some [4; 3].
Proof.
  destruct (DiscoverBlocks_depth_first 30 example_graph example_wf ltac:(vm_compute; lia)) as (g' & Hg & Hd & _).
  exists g'. pose proof Hg as Hg'. vm_compute in Hg. injection Hg as <-. repeat (split; [assumption || reflexivity|]). reflexivity.
Defined.
