(* ===== verification/Dominators.v ===== *)
(** * Dominators and dominance frontiers
    (src/runtime/vm/compiler/backend/{flow_graph.cc,il.cc})

    [FlowGraph::ComputeDominators]: semidominators with path compression, the
    immediate dominators from them (the SEMI-NCA algorithm), and the dominance
    frontiers; [BlockEntryInstr::Dominates]. *)
From stdpp Require Import sets relations.
From S2P Require Import Prelude Utils BitSet BitVector Dominance FlowGraph.
Local Open Scope Z_scope.
Local Open Scope vm_scope.

(** ** The link-eval forest *)
Fixpoint CompressPath (fuel : nat) (start_index current_index : Z) (parent label : list Z) : option (list Z * list Z) :=
  match fuel with
  | O => None
  | S fuel =>
      next_index ← arr_get parent current_index;
      if start_index <? next_index then
        '(parent, label) ← CompressPath fuel start_index next_index parent label;
        label_current ← arr_get label current_index;
        label_next ← arr_get label next_index;
        label ← arr_set label current_index (Minimum label_current label_next);
        parent_next ← arr_get parent next_index;
        parent ← arr_set parent current_index parent_next;
        Some (parent, label)
      else Some (parent, label)
  end.

(** ** First pass: semidominators *)
(** The arrays that the pass works on; path compression changes [parent_] in
    place. *)
Record SemiState := MkSemi { ss_parent : list Z; ss_label : list Z; ss_semi : list Z }.

Definition semi_pred (fuel : nat) (block_index pred_index : Z) (ss : SemiState) : option SemiState :=
  '(parent, label, best) ←
    (if block_index <? pred_index then
       '(parent, label) ← CompressPath fuel block_index pred_index (ss_parent ss) (ss_label ss);
       best ← arr_get label pred_index;
       Some (parent, label, best)
     else Some (ss_parent ss, ss_label ss, pred_index));
  semi_block ← arr_get (ss_semi ss) block_index;
  semi_best ← arr_get (ss_semi ss) best;
  semi ← arr_set (ss_semi ss) block_index (Minimum semi_block semi_best);
  Some (MkSemi parent label semi).
(** The predecessors of [block] from [i] on, [n] of them. *)
Fixpoint semi_preds (n : nat) (fuel : nat) (bs : Blocks) (block : BlockEntryInstr) (block_index i : Z) (ss : SemiState) : option SemiState :=
  match n with
  | O => Some ss
  | S n =>
      pred ← PredecessorAt block i;
      pb ← arr_get bs pred;
      ss ← semi_pred fuel block_index (preorder_number_ pb) ss;
      semi_preds n fuel bs block block_index (i + 1) ss
  end.
Definition clear_dominated (bs : Blocks) (block : Z) : option Blocks :=
  b ← arr_get bs block; arr_set bs block (with_dominator b (dominator_ b) []).
(** The blocks [block_index], ..., 1. *)
Fixpoint semi_pass (block_index : nat) (fuel : nat) (preorder : list Z) (bs : Blocks) (ss : SemiState) : option (Blocks * SemiState) :=
  match block_index with
  | O => Some (bs, ss)
  | S k =>
      let w := Z.of_nat block_index in
      block ← arr_get preorder w;
      bs ← clear_dominated bs block;
      b ← arr_get bs block;
      ss ← semi_preds (Z.to_nat (PredecessorCount b)) fuel bs b w 0 ss;
      semi_block ← arr_get (ss_semi ss) w;
      label ← arr_set (ss_label ss) w semi_block;
      semi_pass k fuel preorder bs (MkSemi (ss_parent ss) label (ss_semi ss))
  end.

(** ** Second pass: immediate dominators *)
Fixpoint nearest_common (fuel : nat) (idom : list Z) (semi dom_index : Z) : option Z :=
  match fuel with
  | O => None
  | S fuel => if semi <? dom_index then d ← arr_get idom dom_index; nearest_common fuel idom semi d else Some dom_index
  end.
Definition AddDominatedBlock (bs : Blocks) (this block : Z) : option Blocks :=
  b ← arr_get bs block;
  bs ← arr_set bs block (with_dominator b (Some this) (dominated_blocks_ b));
  t ← arr_get bs this;
  arr_set bs this (with_dominator t (dominator_ t) (dominated_blocks_ t ++ [block])).
(** The blocks from [block_index] on, [n] of them. *)
Fixpoint idom_pass (n : nat) (fuel : nat) (preorder semi : list Z) (block_index : Z) (idom : list Z) (bs : Blocks) : option (list Z * Blocks) :=
  match n with
  | O => Some (idom, bs)
  | S n =>
      dom_index ← arr_get idom block_index;
      s ← arr_get semi block_index;
      dom_index ← nearest_common fuel idom s dom_index;
      idom ← arr_set idom block_index dom_index;
      dominator ← arr_get preorder dom_index;
      block ← arr_get preorder block_index;
      bs ← AddDominatedBlock bs dominator block;
      idom_pass n fuel preorder semi (block_index + 1) idom bs
  end.

(** ** Third pass: dominance frontiers *)
(** From [runner] up the dominator tree to [stop]. *)
Fixpoint run_up (fuel : nat) (bs : Blocks) (stop : option Z) (block_index : Z) (runner : option Z) (df : list BitVector) : option (list BitVector) :=
  match fuel with
  | O => None
  | S fuel =>
      if bool_decide (runner = stop) then Some df
      else
        r ← runner;
        rb ← arr_get bs r;
        v ← arr_get df (preorder_number_ rb);
        v ← BitVector_Add v block_index;
        df ← arr_set df (preorder_number_ rb) v;
        run_up fuel bs stop block_index (dominator_ rb) df
  end.
Fixpoint frontier_preds (n : nat) (fuel : nat) (bs : Blocks) (block : BlockEntryInstr) (block_index i : Z) (df : list BitVector) : option (list BitVector) :=
  match n with
  | O => Some df
  | S n =>
      runner ← PredecessorAt block i;
      df ← run_up fuel bs (dominator_ block) block_index (Some runner) df;
      frontier_preds n fuel bs block block_index (i + 1) df
  end.
Fixpoint frontier_pass (n : nat) (fuel : nat) (preorder : list Z) (bs : Blocks) (block_index : Z) (df : list BitVector) : option (list BitVector) :=
  match n with
  | O => Some df
  | S n =>
      block ← arr_get preorder block_index;
      b ← arr_get bs block;
      let count := PredecessorCount b in
      df ← (if count <=? 1 then Some df else frontier_preds (Z.to_nat count) fuel bs b block_index 0 df);
      frontier_pass n fuel preorder bs (block_index + 1) df
  end.

(** Every walk up a tree follows decreasing numbers below [size]. *)
Definition ComputeDominators (g : FlowGraph) : option (FlowGraph * list BitVector) :=
  let size := zlen (parent_ g) in
  let fuel := S (length (parent_ g)) in
  let idom := parent_ g in
  let ss := MkSemi (parent_ g) (seqZ 0 size) (seqZ 0 size) in
  let dominance_frontier := replicate (length (parent_ g)) (BitVector_new size) in
  entry ← arr_get (preorder_blocks g) 0;
  bs ← clear_dominated (all_blocks g) entry;
  '(bs, ss) ← semi_pass (Z.to_nat (size - 1)) fuel (preorder_blocks g) bs ss;
  '(_, bs) ← idom_pass (Z.to_nat (size - 1)) fuel (preorder_blocks g) (ss_semi ss) 1 idom bs;
  dominance_frontier ← frontier_pass (Z.to_nat size) fuel (preorder_blocks g) bs 0 dominance_frontier;
  Some (MkFlowGraph (graph_entry_ g) bs (all_phis g) (all_loops g) (preorder_blocks g) (postorder_blocks g) (reverse_postorder_blocks g)
          (ss_parent ss) (loop_hierarchy_ g) (loop_invariant_loads_ g), dominance_frontier).

(** ** Queries *)
Fixpoint Dominates_loop (fuel : nat) (bs : Blocks) (this : Z) (current : option Z) : option bool :=
  match fuel with
  | O => None
  | S fuel =>
      match current with
      | None => Some false
      | Some c => if c =? this then Some true else b ← arr_get bs c; Dominates_loop fuel bs this (dominator_ b)
      end
  end.
Definition Dominates (g : FlowGraph) (this other : Z) : option bool :=
  Dominates_loop (S (S (length (preorder_blocks g)))) (all_blocks g) this (Some other).
Definition ImmediateDominator (g : FlowGraph) (this : Z) : option (option Z) :=
  b ← arr_get (all_blocks g) this;
  d ← dominator_ b;
  db ← arr_get (all_blocks g) d;
  last ← last_instruction_ db;
  if SuccessorCount db last =? 1 then
    s ← SuccessorAt db last 0; Some (if s =? this then Some d else None)
  else Some None.

(** ** Arrays of numbers *)
Definition val (l : list Z) (i : Z) : Z := default 0 (arr_get l i).
Lemma val_get l i : 0 <= i < zlen l -> arr_get l i = Some (val l i).
Proof. intros Hi. unfold val. destruct (arr_get_lt l i Hi) as [x ->]. done. Qed.
Lemma val_set l i x : 0 <= i < zlen l -> exists l', arr_set l i x = Some l' /\ zlen l' = zlen l /\ forall j, val l' j = if i =? j then x else val l j.
Proof.
  intros Hi. destruct (arr_set_ok l i (val l i) x) as [l' Hl]; [by apply val_get|]. exists l'. split_and!; [done|by eapply arr_set_length|].
  intros j. unfold val. rewrite (arr_get_set _ _ _ _ _ Hl). by destruct (i =? j).
Qed.
Lemma val_seqZ n i : 0 <= i < n -> val (seqZ 0 n) i = i.
Proof.
  intros Hi. unfold val, arr_get. zif; [|lia]. rewrite (lookup_seqZ_lt 0 n (Z.to_nat i)) by lia. simpl. lia.
Qed.
Lemma zlen_seqZ n : 0 <= n -> zlen (seqZ 0 n) = n.
Proof. intros Hn. unfold zlen. rewrite length_seqZ. lia. Qed.
Lemma Minimum_le a b : Minimum a b <= a /\ Minimum a b <= b /\ (Minimum a b = a \/ Minimum a b = b).
Proof. unfold Minimum. zif; lia. Qed.

(** ** Path compression *)
Section Semi.
Context {n : Z} {E : Z -> Z -> Prop} {par : Z -> Z} {DF : DepthFirst n E par}.
(** [label] is the least [sm] of the ancestors of [x] down from, and excluding,
    the ancestor [q] that [parent] leads to; all of them are above [w]. *)
Definition covers (w : Z) (sm : Z -> Z) (x q l : Z) : Prop :=
  anc par q x /\ q < x /\ (exists z, anc par z x /\ q < z /\ l = sm z) /\ (forall z, anc par z x -> q < z -> w < z /\ l <= sm z).

Lemma covers_join w sm x q l q' l' : covers w sm x q l -> covers w sm q q' l' -> 0 <= x < n -> covers w sm x q' (Minimum l l').
Proof using DF.
  intros (Hq & Hlt & (z & Hz & Hqz & ->) & Hall) (Hq' & Hlt' & (z' & Hz' & Hqz' & ->) & Hall') Hx. split_and!.
  - by eapply anc_trans.
  - lia.
  - destruct (Minimum_le (sm z) (sm z')) as (_ & _ & [->| ->]); [exists z|exists z']; split_and!; try done; try lia. by eapply anc_trans.
  - intros y Hy Hqy. destruct (Minimum_le (sm z) (sm z')) as (? & ? & _).
    destruct (Z.lt_ge_cases q y) as [Hlty|Hge]; [specialize (Hall y Hy Hlty); lia|].
    specialize (Hall' y). destruct Hall'; [by eapply anc_chain|done|lia].
Qed.
Lemma CompressPath_spec fuel w sm x parent label : 0 <= w -> w < x < n -> zlen parent = n -> zlen label = n -> x < Z.of_nat fuel ->
  (forall y, w < y < n -> covers w sm y (val parent y) (val label y)) ->
  exists parent' label', CompressPath fuel w x parent label = Some (parent', label') /\ zlen parent' = n /\ zlen label' = n /\
    (forall y, w < y < n -> covers w sm y (val parent' y) (val label' y)) /\ val parent' x <= w /\
    (forall y, y <= w \/ x < y -> val parent' y = val parent y /\ val label' y = val label y).
Proof using DF.
  intros Hw. revert x parent label. induction fuel as [|fuel IH]; intros x parent label Hx Hp Hl Hfuel Hc; [lia|].
  simpl. rewrite (val_get parent x) by lia. simpl. pose proof (Hc x Hx) as (_ & Hlt & _). zif; [|exists parent, label; split_and!; auto].
  destruct (IH (val parent x) parent label) as (parent' & label' & -> & Hp' & Hl' & Hc' & Hstop & Hframe); [lia|done..|lia|done|]. simpl.
  destruct (Hframe x) as [Hpx Hlx]; [lia|]. rewrite (val_get label' x), (val_get label' (val parent x)) by lia. simpl.
  destruct (val_set label' x (Minimum (val label' x) (val label' (val parent x)))) as (label2 & -> & Hl2 & Hval2); [lia|]. simpl.
  rewrite (val_get parent' (val parent x)) by lia. simpl.
  destruct (val_set parent' x (val parent' (val parent x))) as (parent2 & -> & Hp2 & Hvalp2); [lia|]. simpl.
  exists parent2, label2. split_and!; [done|lia..| | |].
  - intros y Hy. rewrite Hval2, Hvalp2. destruct (Z.eqb_spec x y) as [<-|]; [|by apply Hc'].
    eapply covers_join; [|apply Hc'; lia|lia]. rewrite <- Hpx. by apply Hc'.
  - by rewrite Hvalp2, Z.eqb_refl.
  - intros y Hy. rewrite Hval2, Hvalp2. replace (x =? y) with false by lia. apply Hframe. lia.
Qed.

(** ** The semidominator of one block *)
(** While the predecessors [P] of [w] have been looked at; [sm] are the
    semidominators of the blocks above [w]. *)
Record semi_at (w : Z) (sm : Z -> Z) (P : list Z) (ss : SemiState) : Prop := {
  sa_len : zlen (ss_parent ss) = n /\ zlen (ss_label ss) = n /\ zlen (ss_semi ss) = n;
  sa_low : forall x, 0 <= x <= w -> val (ss_parent ss) x = par x /\ val (ss_label ss) x = x;
  sa_semi_low : forall x, 0 <= x < w -> val (ss_semi ss) x = x;
  sa_high : forall x, w < x < n -> val (ss_semi ss) x = sm x /\ covers w sm x (val (ss_parent ss) x) (val (ss_label ss) x);
  sa_sound : val (ss_semi ss) w = w \/ candidate (E := E) (par := par) sm w (val (ss_semi ss) w);
  sa_le : val (ss_semi ss) w <= w;
  sa_least : forall u, u ∈ P -> (u < w -> val (ss_semi ss) w <= u) /\ (forall z, w < z -> anc par z u -> val (ss_semi ss) w <= sm z) }.

Lemma semi_nonneg s w : is_semi E s w -> 0 <= s.
Proof using DF.
  intros (_ & (p & Hp & _) & _). destruct p; inversion Hp as [|? ? ? ? He]; subst; apply (df_range _ _ He).
Qed.
(** The semidominator is updated with the best candidate of the predecessor [u]. *)
Lemma semi_update w sm u P ss parent label best : 0 < w < n -> semi_at w sm P ss -> zlen parent = n -> zlen label = n ->
  (forall x, 0 <= x <= w -> val parent x = par x /\ val label x = x) -> (forall x, w < x < n -> covers w sm x (val parent x) (val label x)) ->
  0 <= best <= w -> (best < w -> candidate (E := E) (par := par) sm w best) -> (u < w -> best <= u) ->
  (forall z, w < z -> anc par z u -> best <= sm z) ->
  exists ss', (semi_block ← arr_get (ss_semi ss) w; semi_best ← arr_get (ss_semi ss) best;
    semi ← arr_set (ss_semi ss) w (Minimum semi_block semi_best); Some (MkSemi parent label semi)) = Some ss' /\ semi_at w sm (u :: P) ss'.
Proof using DF.
  intros Hw H Hlp Hll Hlow Hhigh Hb Hcand Hu Hanc. destruct (sa_len _ _ _ _ H) as (_ & _ & Hls). pose proof (sa_le _ _ _ _ H).
  rewrite (val_get (ss_semi ss) w), (val_get (ss_semi ss) best) by lia. simpl.
  destruct (val_set (ss_semi ss) w (Minimum (val (ss_semi ss) w) (val (ss_semi ss) best))) as (semi & -> & Hlsemi & Hsemi); [lia|]. simpl.
  eexists. split; [done|].
  assert (val semi w <= val (ss_semi ss) w /\ val semi w <= best /\ (val semi w = val (ss_semi ss) w \/ val semi w = best /\ best < w)) as (Hm1 & Hm2 & Hm3).
  { rewrite Hsemi, Z.eqb_refl. destruct (decide (best = w)) as [->|]; [pose proof (Minimum_le (val (ss_semi ss) w) (val (ss_semi ss) w)); lia|].
    rewrite (sa_semi_low _ _ _ _ H best) by lia. pose proof (Minimum_le (val (ss_semi ss) w) best). lia. }
  split; simpl; try done; try lia.
  - intros x Hx. rewrite Hsemi. replace (w =? x) with false by lia. by apply H.
  - intros x Hx. split; [|by apply Hhigh]. rewrite Hsemi. replace (w =? x) with false by lia. by apply H.
  - destruct Hm3 as [->|[-> ?]]; [apply H|auto].
  - intros u' [->|Hin]%elem_of_cons.
    + split; [lia|]. intros z Hz Hzu. specialize (Hanc z Hz Hzu). lia.
    + destruct (sa_least _ _ _ _ H u' Hin) as [H1 H2]. split; [lia|]. intros z Hz Hzu. specialize (H2 z Hz Hzu). lia.
Qed.
Lemma semi_pred_spec fuel w sm u P ss : 0 < w < n -> n <= Z.of_nat fuel -> (forall x, w < x < n -> is_semi E (sm x) x) -> E u w ->
  semi_at w sm P ss -> exists ss', semi_pred fuel w u ss = Some ss' /\ semi_at w sm (u :: P) ss'.
Proof using DF.
  intros Hw Hfuel Hsm Hu H. destruct (sa_len _ _ _ _ H) as (Hlp & Hll & Hls). pose proof (df_range _ _ Hu) as [Hur _].
  unfold semi_pred. zif.
  - destruct (CompressPath_spec fuel w sm u (ss_parent ss) (ss_label ss)) as (parent & label & -> & Hlp' & Hll' & Hc & Hstop & Hframe);
      [lia..|by intros; apply H|]. simpl. rewrite (val_get label u) by lia. simpl.
    pose proof (Hc u ltac:(lia)) as (_ & _ & (z & Hz & Hqz & Hlz) & Hall).
    destruct (Hall z Hz Hqz) as [Hwz _]. apply anc_le in Hz as Hzr; [|lia].
    pose proof (Hsm z ltac:(lia)) as Hsz. pose proof (semi_nonneg _ _ Hsz) as Hs0. pose proof Hsz as (Hszlt & Hszw & _).
    apply semi_update; try done; [| | |lia|].
    + intros x Hx. destruct (Hframe x) as [-> ->]; [lia|]. by apply H.
    + split; [lia|]. destruct (Z.le_gt_cases (val label u) w) as [|Hgt]; [done|]. rewrite Hlz in Hgt.
      assert (anc par (sm z) u) as Hanc by (eapply anc_trans; [eapply semi_anc; [done..|lia]|done]).
      destruct (Hall _ Hanc) as [_ Hle]; [lia|]. destruct (Hsm (sm z)) as (? & _); lia.
    + intros _. right. exists u, z. by split_and!.
    + intros y Hy Hay. apply Hall; [done|lia].
  - simpl. apply semi_update; try done; try apply H; [lia| |].
    + intros Hlt. by left.
    + intros y Hy Hay. apply anc_le in Hay; lia.
Qed.
(** When all predecessors have been looked at, the value is the semidominator. *)
Lemma semi_at_done w sm P ss : 0 < w < n -> (forall x, w < x < n -> is_semi E (sm x) x) -> (forall u, E u w -> u ∈ P) ->
  semi_at w sm P ss -> is_semi E (val (ss_semi ss) w) w.
Proof using DF.
  intros Hw Hsm HP H. destruct (df_parent w Hw) as [He Hp]. destruct (sa_least _ _ _ _ H (par w)) as [Hlt _]; [by apply HP|].
  eapply semi_recurrence; [done..| |].
  - destruct (sa_sound _ _ _ _ H) as [Heq|]; [lia|done].
  - intros c [[Hc Hcw]|(v & x & Hv & Hx & Hxv & ->)]; eapply sa_least; eauto.
Qed.
(** Then the next block below [w] can be looked at. *)
Lemma semi_at_next w sm P ss label : 0 < w < n -> is_semi E (val (ss_semi ss) w) w -> semi_at w sm P ss ->
  zlen label = n -> (forall j, val label j = if w =? j then val (ss_semi ss) w else val (ss_label ss) j) ->
  semi_at (w - 1) (val (ss_semi ss)) [] (MkSemi (ss_parent ss) label (ss_semi ss)).
Proof using DF.
  intros Hw Hs H Hll Hlabel. destruct (sa_len _ _ _ _ H) as (Hlp & _ & Hls). destruct (df_parent w Hw) as [He Hp]. split; simpl; try done.
  - intros x Hx. rewrite Hlabel. replace (w =? x) with false by lia. apply H. lia.
  - intros x Hx. apply H. lia.
  - intros x Hx. split; [done|]. rewrite Hlabel. destruct (Z.eqb_spec w x) as [<-|Hne].
    + destruct (sa_low _ _ _ _ H w) as [-> _]; [lia|]. split_and!; [apply anc_up; [lia|constructor]|lia| |].
      * exists w. split_and!; [constructor|lia|done].
      * intros z Hz Hlt. destruct (decide (z = w)) as [->|Hne]; [split; lia|]. apply anc_strict in Hz as [_ Hz]; [|done].
        apply anc_le in Hz; lia.
    + destruct (sa_high _ _ _ _ H x) as [Hx' (Hq & Hlt & (z & Hz & Hqz & Hlz) & Hall)]; [lia|].
      assert (forall z, w < z -> anc par z x -> val (ss_semi ss) z = sm z) as Heq.
      { intros y Hy Hyx. apply anc_le in Hyx; [|lia]. apply H. lia. }
      split_and!; [done..| |].
      * exists z. split_and!; [done..|]. rewrite Heq; [done|by apply Hall|done].
      * intros y Hy Hqy. destruct (Hall y Hy Hqy) as [? ?]. rewrite Heq by done. lia.
  - left. apply H. lia.
  - rewrite (sa_semi_low _ _ _ _ H) by lia. lia.
  - set_solver.
Qed.
End Semi.

(** ** What the passes do to the blocks *)
(** They change nothing but [dominator_] and [dominated_blocks_]. *)
Definition strip (b : BlockEntryInstr) : BlockEntryInstr := with_dominator b None [].
Definition frame (bs bs0 : Blocks) : Prop := strip <$> bs = strip <$> bs0.

Lemma arr_set_fmap {A B} (f : A -> B) l i x y l' : arr_set l i x = Some l' -> arr_get l i = Some y -> f x = f y -> f <$> l' = f <$> l.
Proof.
  intros [Hi ->]%arr_set_Some Hy Hf. rewrite list_fmap_insert, Hf. apply list_insert_id. rewrite list_lookup_fmap.
  unfold arr_get in Hy. zif_in Hy; [by rewrite Hy|done].
Qed.
Lemma frame_get bs bs0 i b0 : frame bs bs0 -> arr_get bs0 i = Some b0 -> exists b, arr_get bs i = Some b /\ strip b = strip b0.
Proof.
  intros Hf Hb. assert (arr_get (strip <$> bs) i = Some (strip b0)) as Hs by (rewrite Hf, arr_get_fmap, Hb; done).
  rewrite arr_get_fmap in Hs. destruct (arr_get bs i) as [b|]; [|done]. exists b. split; [done|]. by apply (inj Some).
Qed.
Lemma frame_set bs bs0 i b b' bs' : frame bs bs0 -> arr_get bs i = Some b -> strip b' = strip b -> arr_set bs i b' = Some bs' -> frame bs' bs0.
Proof. intros Hf Hb Hs Hset. unfold frame in *. rewrite <- Hf. by eapply arr_set_fmap. Qed.
Lemma strip_facts b b0 : strip b = strip b0 -> block_kind b = block_kind b0 /\ preorder_number_ b = preorder_number_ b0 /\
  pred_list b = pred_list b0 /\ succ_list b = succ_list b0 /\ last_instruction_ b = last_instruction_ b0.
Proof.
  intros Hs. split_and!; [exact (f_equal block_kind Hs)|exact (f_equal preorder_number_ Hs)|exact (f_equal pred_list Hs)|exact (f_equal succ_list Hs)|].
  exact (f_equal last_instruction_ Hs).
Qed.

Lemma filter_ext_in (P Q : Z -> Prop) `{!forall x, Decision (P x), !forall x, Decision (Q x)} (l : list Z) :
  (forall x, x ∈ l -> P x <-> Q x) -> filter P l = filter Q l.
Proof.
  induction l as [|x l IH]; intros Hiff; [done|]. rewrite !list.filter_cons. rewrite IH by (intros; apply Hiff; set_solver).
  specialize (Hiff x ltac:(set_solver)). destruct (decide (P x)), (decide (Q x)); done || tauto.
Qed.

Section Passes.
Context (g : FlowGraph) `{Hd : !Discovered g}.
Abbreviation E := (graph_edge g).
Abbreviation par := (tree_parent g).
Abbreviation pre := (preorder_blocks g).
Abbreviation n := (block_count g).

(** The block with number [i], in an array that the passes have worked on. *)
Lemma framed_block bs i a : frame bs (all_blocks g) -> arr_get pre i = Some a ->
  exists b, arr_get bs a = Some b /\ preorder_number_ b = i /\ NoDup (pred_list b) /\
    (forall p, p ∈ pred_list b <-> exists u, arr_get pre u = Some p /\ E u i) /\ (IsJoinEntry b = false -> (length (pred_list b) <= 1)%nat).
Proof using Hd.
  intros Hf Ha. destruct (dc_block i a Ha) as (b0 & Hb0 & Hn & _ & Hnd & Hm & _). destruct (frame_get _ _ _ _ Hf Hb0) as (b & Hb & Hs).
  destruct (strip_facts _ _ Hs) as (Hk & Hpn & Hpl & _). exists b. rewrite Hpl. split_and!; [done|congruence|done| |rewrite <- Hpl; apply pred_list_single].
  intros p. rewrite Hm. split.
  - intros [[u Hu]%arr_get_elem Hp]. exists u. split; [done|]. by exists p, a.
  - intros (u & Hu & p' & a' & Hu' & Ha' & Hp). simplify_eq. split; [apply arr_get_elem; eauto|done].
Qed.

Lemma semi_preds_spec bs b fuel w sm a : frame bs (all_blocks g) -> 0 < w < n -> n <= Z.of_nat fuel ->
  (forall x, w < x < n -> is_semi E (sm x) x) -> arr_get pre w = Some a -> arr_get bs a = Some b ->
  forall m i P ss, 0 <= i -> i + Z.of_nat m = PredecessorCount b -> semi_at (n := n) (E := E) (par := par) w sm P ss ->
  (forall j p u, 0 <= j < i -> arr_get (pred_list b) j = Some p -> arr_get pre u = Some p -> u ∈ P) ->
  exists ss' P', semi_preds m fuel bs b w i ss = Some ss' /\ semi_at (n := n) (E := E) (par := par) w sm P' ss' /\ (forall u, E u w -> u ∈ P').
Proof using Hd.
  intros Hf Hw Hfuel Hsm Ha Hb. destruct (framed_block bs w a Hf Ha) as (b' & Hb' & _ & _ & Hm & _). simplify_eq.
  induction m as [|m IH]; intros i P ss Hi Hcount H HP.
  - exists ss, P. split_and!; [done..|]. intros u Hu. pose proof Hu as (p & a' & Hp & Ha' & _).
    assert (p ∈ pred_list b) as [j Hj]%arr_get_elem by (apply Hm; eauto). eapply HP; [|done..].
    apply arr_get_Some in Hj. rewrite PredecessorCount_list in Hcount. lia.
  - cbn [semi_preds]. rewrite PredecessorAt_list by lia. rewrite PredecessorCount_list in Hcount.
    destruct (arr_get_lt (pred_list b) i) as [p Hp]; [lia|]. rewrite Hp. cbn [mbind option_bind].
    assert (p ∈ pred_list b) as (u & Hu & Huw)%Hm by (apply arr_get_elem; eauto).
    destruct (framed_block bs u p Hf Hu) as (pb & -> & Hpn & _). cbn [mbind option_bind]. rewrite Hpn.
    destruct (semi_pred_spec fuel w sm u P ss) as (ss' & -> & H'); [done..|]. cbn [mbind option_bind].
    apply (IH (i + 1) (u :: P)); [lia|rewrite PredecessorCount_list; lia|done|].
    intros j p' u' Hj Hp' Hu'. destruct (decide (j = i)) as [->|]; [|apply elem_of_cons; right; apply (HP j p' u'); [lia|done..]].
    assert (p' = p) as -> by congruence. assert (u' = u) as -> by (eapply arr_get_inj; [apply dc_nodup|done..]). set_solver.
Qed.

(** The children in the dominator tree of the blocks above [k] are cleared. *)
Definition cleared (bs : Blocks) (i : Z) : Prop := forall a b, arr_get pre i = Some a -> arr_get bs a = Some b -> dominated_blocks_ b = [].
Lemma clear_dominated_spec bs i a : frame bs (all_blocks g) -> arr_get pre i = Some a ->
  exists bs', clear_dominated bs a = Some bs' /\ frame bs' (all_blocks g) /\ dominator_ <$> bs' = dominator_ <$> bs /\ cleared bs' i /\
    (forall j, cleared bs j -> cleared bs' j).
Proof using Hd.
  intros Hf Ha. destruct (framed_block bs i a Hf Ha) as (b & Hb & _). unfold clear_dominated. rewrite Hb. cbn [mbind option_bind].
  destruct (arr_set_ok bs a b (with_dominator b (dominator_ b) [])) as [bs' Hset]; [done|]. exists bs'.
  pose proof (arr_get_set _ _ a _ _ Hset) as Hget. rewrite Z.eqb_refl in Hget.
  split_and!; [done|eapply frame_set; [exact Hf|exact Hb| |exact Hset]; done|eapply arr_set_fmap; [exact Hset|exact Hb|done]|intros a' b' Ha' Hb'; by simplify_eq|].
  intros j Hj a' b' Ha' Hb'. rewrite (arr_get_set _ _ _ _ _ Hset) in Hb'. destruct (a =? a'); [by simplify_eq|by eapply Hj].
Qed.
Lemma semi_pass_spec fuel k : n <= Z.of_nat fuel -> forall bs sm ss, Z.of_nat k < n -> frame bs (all_blocks g) ->
  (forall x, Z.of_nat k < x < n -> is_semi E (sm x) x) -> semi_at (n := n) (E := E) (par := par) (Z.of_nat k) sm [] ss ->
  exists bs' ss', semi_pass k fuel pre bs ss = Some (bs', ss') /\ frame bs' (all_blocks g) /\ zlen (ss_semi ss') = n /\
    (forall x, 0 < x < n -> is_semi E (val (ss_semi ss') x) x) /\ dominator_ <$> bs' = dominator_ <$> bs /\
    (forall j, 0 < j <= Z.of_nat k \/ cleared bs j -> cleared bs' j).
Proof using Hd.
  intros Hfuel. induction k as [|k IH]; intros bs sm ss Hk Hf Hsm H.
  - exists bs, ss. destruct (sa_len _ _ _ _ H) as (_ & _ & Hls). split_and!; [done..| |done|intros j [?|?]; [lia|done]].
    intros x Hx. destruct (sa_high _ _ _ _ H x Hx) as [-> _]. by apply Hsm.
  - cbn [semi_pass]. set (w := Z.of_nat (S k)) in *. assert (0 < w < n) as Hw by lia.
    destruct (arr_get_lt pre w) as [a Ha]; [lia|]. rewrite Ha. cbn [mbind option_bind].
    destruct (clear_dominated_spec bs w a Hf Ha) as (bs1 & -> & Hf1 & Hd1 & Hc1 & Hcl1). cbn [mbind option_bind].
    destruct (framed_block bs1 w a Hf1 Ha) as (b & Hb & _). rewrite Hb. cbn [mbind option_bind].
    destruct (semi_preds_spec bs1 b fuel w sm a Hf1 Hw Hfuel Hsm Ha Hb (Z.to_nat (PredecessorCount b)) 0 [] ss) as (ss' & P & -> & H' & HP);
      [lia|rewrite PredecessorCount_list; pose proof (zlen_nonneg (pred_list b)); lia|done|intros; lia|]. cbn [mbind option_bind].
    pose proof (semi_at_done _ _ _ _ Hw Hsm HP H') as Hs. destruct (sa_len _ _ _ _ H') as (_ & Hll & Hls).
    rewrite (val_get (ss_semi ss') w) by lia. cbn [mbind option_bind].
    destruct (val_set (ss_label ss') w (val (ss_semi ss') w)) as (label & -> & Hlen & Hlabel); [lia|]. cbn [mbind option_bind].
    destruct (IH bs1 (val (ss_semi ss')) (MkSemi (ss_parent ss') label (ss_semi ss'))) as (bs2 & ss2 & -> & Hf2 & Hl2 & Hs2 & Hd2 & Hcl2); [lia|done| | |].
    + intros x Hx. destruct (decide (x = w)) as [->|]; [done|]. destruct (sa_high _ _ _ _ H' x) as [-> _]; [lia|]. apply Hsm. lia.
    + replace (Z.of_nat k) with (w - 1) by lia. eapply semi_at_next; [done..|lia|done].
    + exists bs2, ss2. split_and!; [done..|congruence|]. intros j Hj. apply Hcl2. destruct (decide (j = w)) as [->|]; [auto|].
      destruct Hj as [?|?]; [left; lia|right; auto].
Qed.

(** ** Immediate dominators *)
Lemma nearest_common_spec fuel idom w s d : 0 < w < n -> zlen idom = n -> (forall x, 0 < x < w -> is_idom E (val idom x) x) -> 0 <= s ->
  0 <= d < w -> d < Z.of_nat fuel -> dom E d (par w) -> (forall x, dom E x (par w) -> x <= s -> x <= d) ->
  exists d', nearest_common fuel idom s d = Some d' /\ dom E d' (par w) /\ 0 <= d' <= s /\ d' < w /\ (forall x, dom E x (par w) -> x <= s -> x <= d').
Proof using Hd.
  intros Hw Hl Hid Hs. destruct (df_parent w Hw) as [_ Hp]. revert d. induction fuel as [|fuel IH]; intros d Hdr Hfuel Hdom Hmax; [lia|].
  simpl. destruct (Z.ltb_spec s d) as [Hsd|Hsd]; [|exists d; split_and!; try done; lia]. rewrite (val_get idom d) by lia. simpl.
  pose proof (Hid d ltac:(lia)) as Hidd. assert (0 <= val idom d < d) by (eapply sdom_lt; [apply Hidd|lia]).
  apply IH; [lia|lia|eapply dom_trans; [exact (proj1 (proj1 Hidd))|done]|]. intros x Hx Hxs.
  assert (dom E x (val idom d)) as Hxd; [|apply dom_le in Hxd; lia]. apply Hidd. split; [|lia].
  eapply dom_chain; [exact Hx|exact Hdom|lia|lia].
Qed.

Definition nth_block (x : Z) : Z := default 0 (arr_get pre x).
(** The blocks below [w] have their immediate dominators. *)
Record idom_inv (w : Z) (idom : list Z) (bs : Blocks) : Prop := {
  ii_frame : frame bs (all_blocks g);
  ii_len : zlen idom = n;
  ii_done : forall x, 0 < x < w -> is_idom E (val idom x) x;
  ii_todo : forall x, w <= x < n -> val idom x = par x;
  ii_dominator : forall x a b, 0 < x < w -> arr_get pre x = Some a -> arr_get bs a = Some b -> dominator_ b = arr_get pre (val idom x);
  ii_entry : forall b b0, arr_get bs (graph_entry_ g) = Some b -> arr_get (all_blocks g) (graph_entry_ g) = Some b0 -> dominator_ b = dominator_ b0;
  ii_children : forall d a b, arr_get pre d = Some a -> arr_get bs a = Some b ->
    dominated_blocks_ b = nth_block <$> filter (fun x => val idom x = d) (seqZ 1 (w - 1)) }.

Lemma AddDominatedBlock_spec bs this block t b : arr_get bs this = Some t -> arr_get bs block = Some b -> this <> block ->
  exists bs', AddDominatedBlock bs this block = Some bs' /\ strip <$> bs' = strip <$> bs /\
    arr_get bs' block = Some (with_dominator b (Some this) (dominated_blocks_ b)) /\
    arr_get bs' this = Some (with_dominator t (dominator_ t) (dominated_blocks_ t ++ [block])) /\
    (forall c, c <> this -> c <> block -> arr_get bs' c = arr_get bs c).
Proof using.
  intros Ht Hb Hne. unfold AddDominatedBlock. rewrite Hb. cbn [mbind option_bind].
  destruct (arr_set_ok bs block b (with_dominator b (Some this) (dominated_blocks_ b)) Hb) as [bs1 H1]. rewrite H1. cbn [mbind option_bind].
  assert (arr_get bs1 this = Some t) as Ht1 by (rewrite (arr_get_set _ _ _ _ _ H1); by replace (block =? this) with false by lia).
  rewrite Ht1. cbn [mbind option_bind].
  destruct (arr_set_ok bs1 this t (with_dominator t (dominator_ t) (dominated_blocks_ t ++ [block])) Ht1) as [bs2 H2]. rewrite H2.
  exists bs2. split_and!; [done| | | |].
  - transitivity (strip <$> bs1); [eapply arr_set_fmap; [exact H2|exact Ht1|done]|eapply arr_set_fmap; [exact H1|exact Hb|done]].
  - rewrite (arr_get_set _ _ _ _ _ H2). replace (this =? block) with false by lia. by rewrite (arr_get_set _ _ _ _ _ H1), Z.eqb_refl.
  - by rewrite (arr_get_set _ _ _ _ _ H2), Z.eqb_refl.
  - intros c Hc1 Hc2. rewrite (arr_get_set _ _ _ _ _ H2), (arr_get_set _ _ _ _ _ H1).
    by replace (this =? c) with false by lia; replace (block =? c) with false by lia.
Qed.
Lemma idom_step fuel semi w idom bs : 0 < w < n -> n <= Z.of_nat fuel -> zlen semi = n -> is_semi E (val semi w) w -> idom_inv w idom bs ->
  exists dom_index idom' dominator block bs', arr_get idom w = Some (par w) /\ arr_get semi w = Some (val semi w) /\
    nearest_common fuel idom (val semi w) (par w) = Some dom_index /\ arr_set idom w dom_index = Some idom' /\
    arr_get pre dom_index = Some dominator /\ arr_get pre w = Some block /\ AddDominatedBlock bs dominator block = Some bs' /\
    idom_inv (w + 1) idom' bs'.
Proof using Hd.
  intros Hw Hfuel Hls Hsemi H. pose proof (ii_len _ _ _ H) as Hli. destruct (df_parent w Hw) as [_ Hp].
  pose proof (semi_nonneg _ _ Hsemi) as Hs0.
  destruct (nearest_common_spec fuel idom w (val semi w) (par w)) as (d & Hnc & Hdd & Hdr & Hdw & Hmax); try done; try lia; [apply H|apply dom_refl| |].
  { intros x Hx _. apply dom_le in Hx; lia. }
  assert (is_idom E d w) as Hidom by (eapply idom_largest; [done..|lia|done]).
  destruct (val_set idom w d) as (idom' & Hset & Hli' & Hval); [lia|].
  destruct (arr_get_lt pre d) as [da Hda]; [lia|]. destruct (arr_get_lt pre w) as [a Ha]; [lia|].
  destruct (framed_block bs d da (ii_frame _ _ _ H) Hda) as (db & Hdb & _). destruct (framed_block bs w a (ii_frame _ _ _ H) Ha) as (b & Hb & _).
  assert (forall i j c, arr_get pre i = Some c -> arr_get pre j = Some c -> i = j) as Hinj by (intros; eapply arr_get_inj; [apply dc_nodup|done..]).
  assert (da <> a) as Hne by (intros ->; pose proof (Hinj _ _ _ Hda Ha); lia).
  destruct (AddDominatedBlock_spec bs da a db b Hdb Hb Hne) as (bs' & Hadd & Hfr & Hga & Hgda & Hother).
  exists d, idom', da, a, bs'. split_and!; try done; [by rewrite (val_get idom w), (ii_todo _ _ _ H) by lia|by rewrite (val_get semi w) by lia|].
  assert (forall c c', arr_get bs' c = Some c' -> exists c0, arr_get bs c = Some c0 /\ dominator_ c' = (if c =? a then Some da else dominator_ c0) /\
    dominated_blocks_ c' = (if c =? da then dominated_blocks_ c0 ++ [a] else dominated_blocks_ c0)) as Hblk.
  { intros c c' Hc. destruct (Z.eqb_spec c a) as [->|Hca].
    - replace (a =? da) with false by lia. exists b. by simplify_eq.
    - destruct (Z.eqb_spec c da) as [->|Hcd]; [exists db; by simplify_eq|]. rewrite Hother in Hc by done. eauto. }
  split; try done; try lia.
  - unfold frame. rewrite Hfr. apply H.
  - intros x Hx. rewrite Hval. destruct (Z.eqb_spec w x) as [<-|]; [done|]. apply H. lia.
  - intros x Hx. rewrite Hval. replace (w =? x) with false by lia. apply H. lia.
  - intros x c c' Hx Hc (c0 & Hc0 & -> & _)%Hblk. rewrite Hval. destruct (Z.eqb_spec w x) as [<-|].
    + assert (c = a) as -> by congruence. by rewrite Z.eqb_refl.
    + replace (c =? a) with false; [eapply ii_dominator; [done|lia|done..]|]. symmetry. apply Z.eqb_neq. intros ->.
      by apply (Hinj _ _ _ Hc) in Ha.
  - intros c' c0 (c1 & Hc1 & -> & _)%Hblk Hc0. replace (graph_entry_ g =? a) with false; [by eapply ii_entry|].
    symmetry. apply Z.eqb_neq. intros Heq. pose proof dc_entry as He. rewrite Heq in He. pose proof (Hinj _ _ _ He Ha). lia.
  - intros e c c' Hc (c0 & Hc0 & _ & ->)%Hblk. rewrite (ii_children _ _ _ H e c c0 Hc Hc0).
    replace (w + 1 - 1) with (w - 1 + 1) by lia. rewrite (seqZ_app 1 (w - 1) 1) by lia. rewrite list.filter_app, fmap_app.
    replace (1 + (w - 1)) with w by lia. replace (seqZ w 1) with [w] by done.
    rewrite (filter_ext_in (fun x => val idom' x = e) (fun x => val idom x = e) (seqZ 1 (w - 1))).
    2: { intros x Hx%elem_of_seqZ. rewrite Hval. by replace (w =? x) with false by lia. }
    rewrite list.filter_cons, list.filter_nil, Hval, Z.eqb_refl. destruct (Z.eqb_spec c da) as [->|Hcd].
    + assert (e = d) as -> by (by eapply Hinj). rewrite decide_True by done. cbn. unfold nth_block at 3. by rewrite Ha.
    + rewrite decide_False by (intros ->; congruence). by rewrite app_nil_r.
Qed.
Lemma idom_pass_spec fuel semi m : n <= Z.of_nat fuel -> zlen semi = n -> (forall x, 0 < x < n -> is_semi E (val semi x) x) ->
  forall w idom bs, 0 < w -> w + Z.of_nat m = n -> idom_inv w idom bs ->
  exists idom' bs', idom_pass m fuel pre semi w idom bs = Some (idom', bs') /\ idom_inv n idom' bs'.
Proof using Hd.
  intros Hfuel Hls Hsemi. induction m as [|m IH]; intros w idom bs Hw Hm H; [exists idom, bs; split; [done|]; by replace n with w by lia|].
  cbn [idom_pass]. destruct (idom_step fuel semi w idom bs) as (d & idom' & dp & a & bs' & -> & -> & Hnc & Hset & Hdp & Ha & Hadd & H');
    [lia|done|done|apply Hsemi; lia|done|]. cbn [mbind option_bind]. rewrite Hnc. cbn [mbind option_bind]. rewrite Hset. cbn [mbind option_bind].
  rewrite Hdp. cbn [mbind option_bind]. rewrite Ha. cbn [mbind option_bind]. rewrite Hadd. cbn [mbind option_bind]. apply IH; [lia|lia|done].
Qed.

(** ** Dominance frontiers *)
(** Only blocks with several predecessors are in a frontier. *)
Lemma walk_to p w : walk E 0 p w -> w <> 0 -> exists q v, p = q ++ [w] /\ walk E 0 q v /\ E v w.
Proof using.
  intros Hp Hw. destruct p as [|x p _] using rev_ind; [inversion Hp; congruence|].
  apply walk_snoc_inv in Hp as (-> & v & Hv & He). eauto.
Qed.
Lemma frontier_single bs w x b a : frame bs (all_blocks g) -> 0 <= w < n -> arr_get pre w = Some a -> arr_get bs a = Some b -> PredecessorCount b <= 1 -> ~ frontier E x w.
Proof using Hd.
  intros Hf Hw Ha Hb Hcount [(u & Hu & Hx) Hn]. destruct (framed_block bs w a Hf Ha) as (b' & Hb' & _ & _ & Hm & _). simplify_eq.
  destruct (decide (w = 0)) as [->|Hw0]; [by eapply df_entry|]. destruct (df_parent w) as [Hpar Hlt]; [lia|].
  assert (forall v, E v w -> v = u) as Huniq.
  { rewrite PredecessorCount_list in Hcount. intros v Hv. pose proof Hv as (p & ? & Hp & _). pose proof Hu as (q & ? & Hq & _).
    assert (p ∈ pred_list b) as Hin by (apply Hm; eauto). assert (q ∈ pred_list b) as Hin' by (apply Hm; eauto).
    destruct (pred_list b) as [|c [|]]; [set_solver| |unfold zlen in Hcount; simpl in Hcount; lia].
    assert (p = q) as -> by set_solver. eapply arr_get_inj; [apply dc_nodup|done..]. }
  apply Hn. pose proof (df_range _ _ Hu) as [Hur _]. split.
  - intros p Hp. destruct (walk_to p w Hp Hw0) as (q & v & -> & Hq & Hv). apply Huniq in Hv as ->. apply Hx in Hq. set_solver.
  - apply dom_le in Hx; [|done]. apply Huniq in Hpar. lia.
Qed.

Section Frontier.
Context (bs : Blocks) (idom : list Z) (Hii : idom_inv n idom bs).
(** The frontier of [x] contains the [y] with [R x y]. *)
Definition df_ok (df : list BitVector) (R : Z -> Z -> Prop) : Prop :=
  zlen df = n /\ forall x, 0 <= x < n -> exists v, arr_get df x = Some v /\ wf_vector n v /\ forall y, contents v y = true <-> R x y.
Lemma df_ok_iff df R R' : (forall x y, 0 <= x < n -> R x y <-> R' x y) -> df_ok df R -> df_ok df R'.
Proof using.
  intros HR [Hl Hv]. split; [done|]. intros x Hx. destruct (Hv x Hx) as (v & Hv' & Hw & Hc). exists v. split_and!; [done..|].
  intros y. by rewrite Hc, HR.
Qed.
(** One element is added. *)
Lemma df_ok_add df R x y : df_ok df R -> 0 <= x < n -> 0 <= y < n ->
  exists v v' df', arr_get df x = Some v /\ BitVector_Add v y = Some v' /\ arr_set df x v' = Some df' /\
    df_ok df' (fun x' y' => R x' y' \/ (x' = x /\ y' = y)).
Proof using.
  intros [Hl Hv] Hx Hy. destruct (Hv x Hx) as (v & Hget & Hw & Hc). destruct (BitVector_Add_spec n v Hw y Hy) as (v' & Hadd & Hw' & Hc').
  destruct (arr_set_ok df x v v' Hget) as [df' Hset]. exists v, v', df'. split_and!; [done..|]. split; [by rewrite (arr_set_length _ _ _ _ Hset)|].
  intros x' Hx'. rewrite (arr_get_set _ _ _ _ _ Hset). destruct (Z.eqb_spec x x') as [<-|Hne].
  - exists v'. split_and!; [done..|]. intros y'. rewrite Hc'. destruct (Z.eqb_spec y' y) as [->|]; [naive_solver|]. rewrite Hc. naive_solver.
  - destruct (Hv x' Hx') as (v0 & Hv0 & Hw0 & Hc0). exists v0. split_and!; [done..|]. intros y'. rewrite Hc0. naive_solver.
Qed.

Lemma run_up_spec fuel w u r df R : 0 < w < n -> 0 <= u < n -> u < Z.of_nat fuel -> arr_get pre u = Some r -> dom E (val idom w) u ->
  df_ok df R -> exists df', run_up fuel bs (arr_get pre (val idom w)) w (Some r) df = Some df' /\
    df_ok df' (fun x y => R x y \/ (y = w /\ dom E x u /\ val idom w < x)).
Proof using Hd Hii.
  intros Hw. revert u r df R. induction fuel as [|fuel IH]; intros u r df R Hu Hfuel Hr Hdom Hok; [lia|].
  pose proof (dom_le _ _ Hdom Hu) as Hle. cbn [run_up]. case_bool_decide as Hstop.
  - assert (u = val idom w) as -> by (eapply arr_get_inj; [apply dc_nodup|exact Hr|by rewrite Hstop]).
    exists df. split; [done|]. eapply df_ok_iff; [|exact Hok]. intros x y Hx. split; [auto|]. intros [?|(_ & Hd' & ?)]; [done|].
    apply dom_le in Hd'; lia.
  - assert (u <> val idom w) as Hne by congruence. assert (0 < u) as Hu0 by lia.
    cbn [mbind option_bind]. destruct (framed_block bs u r (ii_frame _ _ _ Hii) Hr) as (rb & Hrb & Hn & _). rewrite Hrb. cbn [mbind option_bind].
    rewrite Hn. destruct (df_ok_add df R u w Hok Hu ltac:(lia)) as (v & v' & df1 & -> & Hadd & Hset & Hok1). cbn [mbind option_bind].
    rewrite Hadd. cbn [mbind option_bind]. rewrite Hset. cbn [mbind option_bind].
    pose proof (ii_done _ _ _ Hii u ltac:(lia)) as Hidom. assert (0 <= val idom u < u) as Hlt by (eapply sdom_lt; [apply Hidom|lia]).
    rewrite (ii_dominator _ _ _ Hii u r rb ltac:(lia) Hr Hrb). destruct (arr_get_lt pre (val idom u)) as [r' Hr']; [lia|]. rewrite Hr'.
    destruct (IH (val idom u) r' df1 (fun x' y' => R x' y' \/ (x' = u /\ y' = w))) as (df' & Hrun & Hok'); [lia|lia|done| |done|].
    { apply Hidom. by split. }
    exists df'. split; [done|]. eapply df_ok_iff; [|exact Hok']. intros x y Hx. cbn beta. rewrite (dom_idom_iff (val idom u) u x Hidom).
    split; [|naive_solver]. intros [[?|[-> ->]]|?]; [auto|right; split_and!; [done|by left|lia]|naive_solver].
Qed.
Lemma frontier_preds_spec fuel w a b R : n <= Z.of_nat fuel -> 0 < w < n -> arr_get pre w = Some a -> arr_get bs a = Some b ->
  forall m i df, 0 <= i -> i + Z.of_nat m = PredecessorCount b ->
  df_ok df (fun x y => R x y \/ (y = w /\ exists j p u, 0 <= j < i /\ arr_get (pred_list b) j = Some p /\ arr_get pre u = Some p /\ dom E x u /\ val idom w < x)) ->
  exists df', frontier_preds m fuel bs b w i df = Some df' /\ df_ok df' (fun x y => R x y \/ (y = w /\ exists u, E u w /\ dom E x u /\ val idom w < x)).
Proof using Hd Hii.
  intros Hfuel Hw Ha Hb. destruct (framed_block bs w a (ii_frame _ _ _ Hii) Ha) as (b' & Hb' & _ & _ & Hm & _). simplify_eq.
  pose proof (ii_done _ _ _ Hii w Hw) as Hidom. induction m as [|m IH]; intros i df Hi Hcount Hok.
  - exists df. split; [done|]. eapply df_ok_iff; [|exact Hok]. intros x y Hx. cbn beta. rewrite PredecessorCount_list in Hcount.
    apply or_iff_compat_l. apply and_iff_compat_l. split.
    + intros (j & p & u & _ & Hj & Hu & Hxu). exists u. split; [|done].
      assert (p ∈ pred_list b) as (u' & Hu' & He)%Hm by (apply arr_get_elem; eauto).
      replace u with u'; [done|]. eapply arr_get_inj; [apply dc_nodup|done..].
    + intros (u & Hu & Hxu). pose proof Hu as (p & a' & Hp & _ & _). assert (p ∈ pred_list b) as [j Hj]%arr_get_elem by (apply Hm; eauto).
      destruct Hxu. pose proof (arr_get_Some _ _ _ Hj). exists j, p, u. split_and!; done || lia.
  - cbn [frontier_preds]. rewrite PredecessorAt_list by lia. rewrite PredecessorCount_list in Hcount.
    destruct (arr_get_lt (pred_list b) i) as [p Hp]; [lia|]. rewrite Hp. cbn [mbind option_bind].
    assert (p ∈ pred_list b) as (u & Hu & Huw)%Hm by (apply arr_get_elem; eauto). pose proof (df_range _ _ Huw) as [Hur _].
    rewrite (ii_dominator _ _ _ Hii w a b Hw Ha Hb).
    destruct (run_up_spec fuel w u p df _ Hw Hur ltac:(lia) Hu (sdom_pred _ _ _ (proj1 Hidom) Huw) Hok) as (df' & -> & Hok'). cbn [mbind option_bind].
    apply (IH (i + 1) df'); [lia|rewrite PredecessorCount_list; lia|]. eapply df_ok_iff; [|exact Hok']. intros x y Hx. cbn beta. split.
    + intros [[?|(-> & j & p' & u' & ? & ? & ? & ?)]|(-> & ? & ?)]; [auto|right..]; split; try done; [exists j, p', u'|exists i, p, u]; split_and!; try done; lia || naive_solver.
    + intros [?|(-> & j & p' & u' & Hj & Hp' & Hu' & Hxu)]; [auto|]. destruct (decide (j = i)) as [->|].
      * assert (p' = p) as -> by congruence. assert (u' = u) as -> by (eapply arr_get_inj; [apply dc_nodup|done..]). auto.
      * left. right. split; [done|]. exists j, p', u'. split_and!; try done; lia || naive_solver.
Qed.
Lemma frontier_iff w x : 0 < w < n -> frontier E x w <-> exists u, E u w /\ dom E x u /\ val idom w < x.
Proof using Hd Hii.
  intros Hw. pose proof (ii_done _ _ _ Hii w Hw) as Hidom. unfold frontier. rewrite (sdom_idom_iff _ _ _ Hidom) by lia. split.
  - intros [(u & Hu & Hx) Hn]. exists u. split_and!; [done..|]. pose proof (df_range _ _ Hu) as [Hur _].
    destruct (Z.lt_ge_cases (val idom w) x) as [|Hge]; [done|]. destruct Hn. eapply dom_chain; [exact Hx| |done|done].
    eapply sdom_pred; [apply Hidom|done].
  - intros (u & Hu & Hx & Hlt). split; [eauto|]. intros Hxd. assert (0 <= val idom w < w) by (eapply sdom_lt; [apply Hidom|lia]). apply dom_le in Hxd; lia.
Qed.
Lemma frontier_pass_spec fuel m : n <= Z.of_nat fuel -> forall w df, 0 <= w -> w + Z.of_nat m = n -> df_ok df (fun x y => y < w /\ frontier E x y) ->
  exists df', frontier_pass m fuel pre bs w df = Some df' /\ df_ok df' (frontier E).
Proof using Hd Hii.
  intros Hfuel. induction m as [|m IH]; intros w df Hw Hm Hok.
  - exists df. split; [done|]. eapply df_ok_iff; [|exact Hok]. intros x y Hx. split; [tauto|]. intros Hf. split; [|done].
    destruct Hf as [(u & Hu & _) _]. apply df_range in Hu. lia.
  - cbn [frontier_pass]. destruct (arr_get_lt pre w) as [a Ha]; [lia|]. rewrite Ha. cbn [mbind option_bind].
    destruct (framed_block bs w a (ii_frame _ _ _ Hii) Ha) as (b & Hb & _ & _ & Hpm & _). rewrite Hb. cbn [mbind option_bind].
    assert (exists df1, (if PredecessorCount b <=? 1 then Some df else frontier_preds (Z.to_nat (PredecessorCount b)) fuel bs b w 0 df) = Some df1 /\
      df_ok df1 (fun x y => y < w + 1 /\ frontier E x y)) as (df1 & -> & Hok1); [|cbn [mbind option_bind]; apply IH; [lia|lia|done]].
    destruct (Z.leb_spec (PredecessorCount b) 1) as [Hc|Hc].
    + exists df. split; [done|]. eapply df_ok_iff; [|exact Hok]. intros x y Hx. split; [intros [? ?]; split; [lia|done]|]. intros [Hy Hf].
      split; [|done]. destruct (decide (y = w)) as [->|]; [|lia]. exfalso. eapply frontier_single; [apply Hii| |exact Ha|exact Hb|done|done]. lia.
    + assert (w <> 0) as Hw0.
      { intros ->. rewrite PredecessorCount_list in Hc. destruct (pred_list b) as [|p l]; [unfold zlen in Hc; simpl in Hc; lia|].
        destruct (Hpm p) as [(u & _ & Hu) _]; [set_solver|]. by eapply df_entry. }
      destruct (frontier_preds_spec fuel w a b (fun x y => y < w /\ frontier E x y) Hfuel ltac:(lia) Ha Hb (Z.to_nat (PredecessorCount b)) 0 df)
        as (df1 & Hrun & Hok1); [lia|lia| |].
      { eapply df_ok_iff; [|exact Hok]. intros x y Hx. split; [auto|]. intros [?|(_ & j & _ & _ & ? & _)]; [done|lia]. }
      exists df1. split; [done|]. eapply df_ok_iff; [|exact Hok1]. intros x y Hx. cbn beta. split.
      * intros [[? ?]|[-> ?]]; split; try lia; [done|]. apply frontier_iff; [lia|done].
      * intros [Hy Hf]. destruct (decide (y = w)) as [->|]; [right|left; split; [lia|done]]. split; [done|]. apply frontier_iff; [lia|done].
Qed.
End Frontier.
End Passes.

(** ** The dominator tree *)
(** What [ComputeDominators] makes of a discovered graph [g]: nothing but the
    dominators and the dominated blocks are changed. [idom] gives the number of the
    immediate dominator, which is the [dominator_] of the block; a block's
    [dominated_blocks_] are those it immediately dominates, in preorder. *)
Class Dominated (g g' : FlowGraph) (idom : Z -> Z) : Prop := {
  dt_frame : frame (all_blocks g') (all_blocks g);
  dt_orders : preorder_blocks g' = preorder_blocks g /\ postorder_blocks g' = postorder_blocks g /\ graph_entry_ g' = graph_entry_ g /\
    all_phis g' = all_phis g /\ all_loops g' = all_loops g;
  dt_idom : forall w, 0 < w < block_count g -> is_idom (graph_edge g) (idom w) w;
  dt_dominator : forall w a b, 0 < w -> arr_get (preorder_blocks g) w = Some a -> arr_get (all_blocks g') a = Some b ->
    dominator_ b = arr_get (preorder_blocks g) (idom w);
  dt_entry : forall b b0, arr_get (all_blocks g') (graph_entry_ g) = Some b -> arr_get (all_blocks g) (graph_entry_ g) = Some b0 ->
    dominator_ b = dominator_ b0;
  dt_children : forall d a b, arr_get (preorder_blocks g) d = Some a -> arr_get (all_blocks g') a = Some b ->
    dominated_blocks_ b = nth_block g <$> filter (fun x => idom x = d) (seqZ 1 (block_count g - 1)) }.

Lemma parent_val g x : zlen (parent_ g) = block_count g -> 0 <= x < block_count g -> val (parent_ g) x = tree_parent g x.
Proof. intros Hl Hx. unfold val, parent_fn. by destruct (arr_get_lt (parent_ g) x) as [p ->]; [lia|]. Qed.
Lemma block_count_pos g `{!Discovered g} : 0 < block_count g.
Proof. pose proof (arr_get_Some _ _ _ dc_entry). lia. Qed.

Lemma ComputeDominators_spec g : Discovered g ->
  exists g' df idom, ComputeDominators g = Some (g', df) /\ Dominated g g' idom /\ df_ok g df (frontier (graph_edge g)).
Proof.
  intros Hd. pose proof dc_parents as Hl. pose proof (block_count_pos g) as Hn. unfold ComputeDominators. rewrite dc_entry. cbn [mbind option_bind].
  assert (block_count g <= Z.of_nat (S (length (parent_ g)))) as Hfuel by (unfold zlen in *; lia).
  destruct (clear_dominated_spec g (all_blocks g) 0 (graph_entry_ g)) as (bs1 & -> & Hf1 & Hd1 & Hc1 & _); [done|apply dc_entry|]. cbn [mbind option_bind].
  rewrite Hl. set (ss0 := MkSemi (parent_ g) (seqZ 0 (block_count g)) (seqZ 0 (block_count g))).
  assert (Z.of_nat (Z.to_nat (block_count g - 1)) = block_count g - 1) as Hk by lia.
  destruct (semi_pass_spec g (S (length (parent_ g))) (Z.to_nat (block_count g - 1)) Hfuel bs1 (fun x => x) ss0) as (bs2 & ss & -> & Hf2 & Hls & Hsemi & Hd2 & Hc2);
    [lia|done|intros; lia| |].
  { rewrite Hk. unfold ss0. split; simpl; try (intros; lia).
    - rewrite zlen_seqZ by lia. auto.
    - intros x Hx. rewrite parent_val, val_seqZ by lia. done.
    - intros x Hx. apply val_seqZ. lia.
    - left. apply val_seqZ. lia.
    - rewrite val_seqZ by lia. lia.
    - set_solver. }
  cbn [mbind option_bind].
  destruct (idom_pass_spec g (S (length (parent_ g))) (ss_semi ss) (Z.to_nat (block_count g - 1)) Hfuel Hls Hsemi 1 (parent_ g) bs2)
    as (idom & bs3 & -> & Hii); [lia|lia| |].
  { split; try done; try (intros; lia).
    - intros x Hx. apply parent_val; [done|lia].
    - intros b b0 Hb Hb0. assert (dominator_ <$> arr_get bs2 (graph_entry_ g) = dominator_ <$> arr_get (all_blocks g) (graph_entry_ g)) as Heq
        by (rewrite <- !arr_get_fmap; congruence). rewrite Hb, Hb0 in Heq. by simplify_eq/=.
    - intros d a b Ha Hb. cbn. apply arr_get_Some in Ha as Hr. eapply (Hc2 d); [|done..].
      destruct (decide (d = 0)) as [->|]; [by right|left; lia]. }
  cbn [mbind option_bind].
  destruct (frontier_pass_spec g bs3 idom Hii (S (length (parent_ g))) (Z.to_nat (block_count g)) Hfuel 0 (replicate (length (parent_ g)) (BitVector_new (block_count g))))
    as (df & -> & Hdf); [lia|lia| |].
  { split; [unfold zlen in *; rewrite length_replicate; lia|]. intros x Hx. destruct (BitVector_new_spec (block_count g)) as [Hwf Hc]; [lia|].
    exists (BitVector_new (block_count g)). split_and!; [|apply Hwf..|].
    - unfold arr_get. zif; [|lia]. apply lookup_replicate_2. unfold zlen in *. lia.
    - intros y. rewrite Hc. split; [done|]. intros [Hy [(u & Hu & _) _]]. apply df_range in Hu. lia. }
  cbn [mbind option_bind]. eexists _, df, (val idom). split; [done|]. split; [|done]. split; simpl; try done; try apply Hii.
  intros w a b Hw Ha Hb. eapply ii_dominator; [exact Hii| |done..]. apply arr_get_Some in Ha. lia.
Qed.

(** C5: [FlowGraph::ComputeDominators] ends on every discovered graph; it gives
    every block but the entry its immediate dominator (the strict dominator that
    every other strict dominator dominates), every block the list of those
    that it immediately dominates, and returns exactly the dominance frontiers: [y]
    is in that of [x] when [x] dominates a predecessor of [y] but does not
    strictly dominate [y]. *)
Theorem ComputeDominators_exact g : Discovered g ->
  exists g' df idom, ComputeDominators g = Some (g', df) /\ Dominated g g' idom /\ df_ok g df (frontier (graph_edge g)).
Proof. apply ComputeDominators_spec. Qed.

Theorem ComputeDominators_exact_witness : exists g g' df, DiscoverBlocks 30 example_graph = Some g /\ ComputeDominators g = Some (g', df) /\
  dominator_ <$> all_blocks g' = [None; Some 0; Some 1; Some 2; Some 2; Some 2; Some 5; Some 5; None] /\
  map data_ df = [[0]; [0]; [4]; [16]; [4]; [0]; [4]; [16]].
Proof.
  destruct (DiscoverBlocks_spec 30 example_graph example_wf ltac:(vm_compute; lia)) as (g & Hg & Hd & _).
  destruct (ComputeDominators_exact g Hd) as (g' & df & _ & Hc & _). exists g, g', df.
  vm_compute in Hg. injection Hg as <-. split; [reflexivity|]. split; [exact Hc|]. vm_compute in Hc. injection Hc as <- <-. split; reflexivity.
Defined.

(** [BlockEntryInstr::Dominates] decides dominance. *)
Lemma Dominates_spec g g' idom x y a c : Discovered g -> Dominated g g' idom ->
  (forall b, arr_get (all_blocks g) (graph_entry_ g) = Some b -> dominator_ b = None) ->
  arr_get (preorder_blocks g) x = Some a -> arr_get (preorder_blocks g) y = Some c ->
  exists r, Dominates g' a c = Some r /\ (r = true <-> dom (graph_edge g) x y).
Proof.
  intros Hd Ht Hentry Hx. unfold Dominates. destruct dt_orders as (-> & _).
  intros Hy. pose proof (arr_get_Some _ _ _ Hy) as Hyr. assert (y + 1 < Z.of_nat (S (S (length (preorder_blocks g))))) as Hfuel by (unfold zlen in *; lia).
  revert Hfuel. generalize (S (S (length (preorder_blocks g)))) as fuel. intros fuel. revert y c Hy Hyr. induction fuel as [|fuel IH]; intros y c Hy Hyr Hfuel; [lia|].
  cbn [Dominates_loop]. destruct (Z.eqb_spec c a) as [->|Hne].
  { exists true. split; [done|]. assert (y = x) as -> by (eapply arr_get_inj; [apply dc_nodup|done..]). split; [intros _; apply dom_refl|done]. }
  destruct (framed_block g (all_blocks g') y c dt_frame Hy) as (b & Hb & _). rewrite Hb. cbn [mbind option_bind].
  destruct (decide (y = 0)) as [->|Hy0].
  - assert (c = graph_entry_ g) as -> by (pose proof dc_entry; congruence). destruct (dc_block 0 _ Hy) as (b0 & Hb0 & _).
    rewrite (dt_entry b b0 Hb Hb0), (Hentry b0 Hb0). destruct fuel as [|fuel]; [lia|]. exists false. split; [done|].
    split; [done|]. intros ->%dom_entry. congruence.
  - rewrite (dt_dominator y c b ltac:(lia) Hy Hb). assert (is_idom (graph_edge g) (idom y) y) as Hidom by (apply dt_idom; lia).
    assert (0 <= idom y < y) as Hlt by (eapply sdom_lt; [apply Hidom|lia]). destruct (arr_get_lt (preorder_blocks g) (idom y)) as [d Hdd]; [lia|].
    rewrite Hdd. destruct (IH (idom y) d Hdd) as (r & Hr & Hiff); [lia|lia|]. exists r. split; [done|].
    rewrite Hiff, (dom_idom_iff (idom y) y x Hidom). split; [auto|]. intros [->|?]; [congruence|done].
Qed.
