(* ===== verification/PhiPlacement.v ===== *)
(** * Phi insertion (src/runtime/vm/compiler/backend/{flow_graph.cc,il.cc})

    [FlowGraph::InsertPhis]: for every variable, a worklist of the blocks that
    assign it or have a phi for it, and a phi in every block of their dominance
    frontiers. The sets of assigned variables are those of
    [VariableLivenessAnalysis::ComputeAssignedVars]. *)
From stdpp Require Import sets relations.
From S2P Require Import Prelude Utils BitSet BitVector Dominance FlowGraph Dominators.
Local Open Scope Z_scope.
Local Open Scope vm_scope.

(** ** Insertion *)
(** What the pass reads of the function: the number of its variables and, if it is
    compiled for on-stack replacement, that with the slots of the expression
    stack; the variable of the current context; [--prune_dead_locals]. *)
Record PhiConfig := MkPhiConfig {
  cfg_variable_count : Z;
  cfg_osr_variable_count : option Z;
  cfg_current_context : Z;
  cfg_prune_dead_locals : bool }.
Definition var_length (cfg : PhiConfig) : Z := default (cfg_variable_count cfg) (cfg_osr_variable_count cfg).
Definition always_live (cfg : PhiConfig) (var_index : Z) : bool :=
  negb (cfg_prune_dead_locals cfg) || (var_index =? cfg_current_context cfg).

(** The blocks, the phis, the arrays [has_already] and [work], and [live_phis]. *)
Record PhiState := MkPhiState { ps_blocks : Blocks; ps_phis : list PhiInstr; ps_has_already : list Z; ps_work : list Z; ps_live : list Z }.

(** [JoinEntryInstr::InsertPhi(var_index, var_count)], with the phi's number. *)
Definition InsertPhi (bs : Blocks) (phis : list PhiInstr) (this var_index var_count : Z) : option (Blocks * list PhiInstr * Z) :=
  b ← arr_get bs this;
  if IsJoinEntry b then
    let slots := match phis_ b with None => replicate (Z.to_nat var_count) None | Some l => l end in
    let phi := zlen phis in
    slots ← arr_set slots var_index (Some phi);
    bs ← arr_set bs this (with_phis b (Some slots));
    Some (bs, phis ++ [MkPhi this (PredecessorCount b) false], phi)
  else None.
Definition mark_alive (phis : list PhiInstr) (phi : Z) : option (list PhiInstr) :=
  p ← arr_get phis phi; arr_set phis phi (MkPhi (phi_block p) (phi_input_count p) true).
(** The body of the loop over a dominance frontier. *)
Definition ensure_phi (cfg : PhiConfig) (preorder : list Z) (var_index index : Z) (st : list Z * PhiState) : option (list Z * PhiState) :=
  let '(worklist, ps) := st in
  already ← arr_get (ps_has_already ps) index;
  if already <? var_index then
    block ← arr_get preorder index;
    '(bs, phis, phi) ← InsertPhi (ps_blocks ps) (ps_phis ps) block var_index (var_length cfg);
    '(phis, live) ←
      (if always_live cfg var_index then phis ← mark_alive phis phi; Some (phis, ps_live ps ++ [phi])
       else Some (phis, ps_live ps));
    has_already ← arr_set (ps_has_already ps) index var_index;
    on_list ← arr_get (ps_work ps) index;
    if on_list <? var_index then
      work ← arr_set (ps_work ps) index var_index;
      Some (block :: worklist, MkPhiState bs phis has_already work live)
    else Some (worklist, MkPhiState bs phis has_already (ps_work ps) live)
  else Some (worklist, ps).
Fixpoint ensure_phis (cfg : PhiConfig) (preorder : list Z) (var_index : Z) (indices : list Z) (st : list Z * PhiState) : option (list Z * PhiState) :=
  match indices with
  | [] => Some st
  | index :: indices => st ← ensure_phi cfg preorder var_index index st; ensure_phis cfg preorder var_index indices st
  end.
(** The head of [worklist] is its last element. *)
Fixpoint phi_worklist (fuel : nat) (cfg : PhiConfig) (preorder : list Z) (dom_frontier : list BitVector) (var_index : Z) (worklist : list Z) (ps : PhiState) : option PhiState :=
  match fuel with
  | O => None
  | S fuel =>
      match worklist with
      | [] => Some ps
      | current :: worklist =>
          b ← arr_get (ps_blocks ps) current;
          v ← arr_get dom_frontier (preorder_number_ b);
          indices ← iterate (S (64 * length (data_ v))) v;
          '(worklist, ps) ← ensure_phis cfg preorder var_index indices (worklist, ps);
          phi_worklist fuel cfg preorder dom_frontier var_index worklist ps
      end
  end.
(** The blocks with an assignment, from [block_index] on, [n] of them. *)
Fixpoint assigned_blocks (n : nat) (preorder : list Z) (assigned_vars : list BitVector) (var_index block_index : Z) (st : list Z * PhiState) : option (list Z * PhiState) :=
  match n with
  | O => Some st
  | S n =>
      let '(worklist, ps) := st in
      v ← arr_get assigned_vars block_index;
      assigned ← BitVector_Contains v var_index;
      st ← (if assigned : bool then
              work ← arr_set (ps_work ps) block_index var_index;
              block ← arr_get preorder block_index;
              Some (block :: worklist, MkPhiState (ps_blocks ps) (ps_phis ps) (ps_has_already ps) work (ps_live ps))
            else Some st);
      assigned_blocks n preorder assigned_vars var_index (block_index + 1) st
  end.
Fixpoint phis_for (n : nat) (cfg : PhiConfig) (preorder : list Z) (assigned_vars dom_frontier : list BitVector) (var_index : Z) (ps : PhiState) : option PhiState :=
  match n with
  | O => Some ps
  | S n =>
      '(worklist, ps) ← assigned_blocks (length preorder) preorder assigned_vars var_index 0 ([], ps);
      ps ← phi_worklist (S (length preorder)) cfg preorder dom_frontier var_index worklist ps;
      phis_for n cfg preorder assigned_vars dom_frontier (var_index + 1) ps
  end.
(** The graph and the phis that are alive from the start. *)
Definition InsertPhis (cfg : PhiConfig) (g : FlowGraph) (assigned_vars dom_frontier : list BitVector) : option (FlowGraph * list Z) :=
  let block_count := length (preorder_blocks g) in
  ps ← phis_for (Z.to_nat (cfg_variable_count cfg)) cfg (preorder_blocks g) assigned_vars dom_frontier 0
         (MkPhiState (all_blocks g) (all_phis g) (replicate block_count (-1)) (replicate block_count (-1)) []);
  Some (MkFlowGraph (graph_entry_ g) (ps_blocks ps) (ps_phis ps) (all_loops g) (preorder_blocks g) (postorder_blocks g) (reverse_postorder_blocks g)
          (parent_ g) (loop_hierarchy_ g) (loop_invariant_loads_ g), ps_live ps).

(** The first half of [FlowGraph::ComputeSSA], up to the insertion of phis. *)
Definition ComputeSSA_phis (cfg : PhiConfig) (g : FlowGraph) (assigned_vars : list BitVector) : option (FlowGraph * list Z) :=
  '(g, dominance_frontier) ← ComputeDominators g;
  InsertPhis cfg g assigned_vars dominance_frontier.

(** ** Iterated dominance frontiers *)
(** The least set that contains the frontiers [FR] of the blocks [A] and its own. *)
Inductive idf (FR : Z -> Z -> Prop) (A : Z -> Prop) : Z -> Prop :=
  | idf_assigned x y : A x -> FR x y -> idf FR A y
  | idf_phi x y : idf FR A x -> FR x y -> idf FR A y.

(** The phi of a block for a variable. *)
Definition phi_slot (b : BlockEntryInstr) (u : Z) : option Z := l ← phis_ b; mjoin (arr_get l u).

Definition strip_phis (b : BlockEntryInstr) : BlockEntryInstr := with_phis b None.
Lemma strip_phis_facts b b0 : strip_phis b = strip_phis b0 -> block_kind b = block_kind b0 /\ preorder_number_ b = preorder_number_ b0 /\
  PredecessorCount b = PredecessorCount b0 /\ IsJoinEntry b = IsJoinEntry b0.
Proof.
  intros Hs. split_and!; [exact (f_equal block_kind Hs)|exact (f_equal preorder_number_ Hs)|exact (f_equal PredecessorCount Hs)|exact (f_equal IsJoinEntry Hs)].
Qed.

(** The entries of an array that are not [v]. *)
Definition unworked (v : Z) (work : list Z) : nat := length (filter (fun w => w <> v) work).
Lemma unworked_set v work i w work' : arr_get work i = Some w -> arr_set work i v = Some work' ->
  (unworked v work' <= unworked v work)%nat /\ (w <> v -> unworked v work = S (unworked v work')).
Proof.
  intros Hw [Hi ->]%arr_set_Some. unfold arr_get in Hw. zif_in Hw; [|done]. unfold unworked, zlen in *.
  apply list_elem_of_split_length in Hw as (l1 & l2 & -> & ->). rewrite insert_app_r_alt, Nat.sub_diag by lia. cbn [insert list_insert].
  rewrite !list.filter_app, !length_app, !list.filter_cons.
  repeat case_decide; try congruence; simpl; lia.
Qed.

Section Insertion.
Context (cfg : PhiConfig) (g : FlowGraph) (FR : Z -> Z -> Prop).
Abbreviation pre := (preorder_blocks g).
Abbreviation n := (block_count g).
Abbreviation nv := (cfg_variable_count cfg).
Context (Hvars : 0 <= nv <= var_length cfg).
Context (Hnodup : NoDup pre).
Context (Hblock : forall i a, arr_get pre i = Some a -> exists b, arr_get (all_blocks g) a = Some b /\ preorder_number_ b = i).
Context (Hjoin : forall x y a b, FR x y -> arr_get pre y = Some a -> arr_get (all_blocks g) a = Some b -> IsJoinEntry b = true).
Context (HFR : forall x y, FR x y -> 0 <= x < n /\ 0 <= y < n).

(** The blocks have exactly the phis [Q]: variable [u] in the block with number
    [y]. The phis marked alive are those of the variables that always are. *)
Record placed (Q : Z -> Z -> Prop) (ps : PhiState) : Prop := {
  pl_frame : strip_phis <$> ps_blocks ps = strip_phis <$> all_blocks g;
  pl_slots : forall y a b l, arr_get pre y = Some a -> arr_get (ps_blocks ps) a = Some b -> phis_ b = Some l -> zlen l = var_length cfg;
  pl_phi : forall u y a b, 0 <= u < nv -> arr_get pre y = Some a -> arr_get (ps_blocks ps) a = Some b -> Q u y <-> is_Some (phi_slot b u);
  pl_entry : forall u y a b p, arr_get pre y = Some a -> arr_get (ps_blocks ps) a = Some b -> phi_slot b u = Some p ->
    arr_get (ps_phis ps) p = Some (MkPhi a (PredecessorCount b) (always_live cfg u));
  pl_live : forall p, p ∈ ps_live ps <-> exists phi, arr_get (ps_phis ps) p = Some phi /\ is_alive_ phi = true }.

Lemma placed_block Q ps y a : placed Q ps -> arr_get pre y = Some a ->
  exists b b0, arr_get (ps_blocks ps) a = Some b /\ arr_get (all_blocks g) a = Some b0 /\ strip_phis b = strip_phis b0 /\ preorder_number_ b = y.
Proof using Hblock.
  intros H Ha. destruct (Hblock y a Ha) as (b0 & Hb0 & Hn). assert (arr_get (strip_phis <$> ps_blocks ps) a = Some (strip_phis b0)) as Hs
    by (rewrite (pl_frame _ _ H), arr_get_fmap, Hb0; done).
  rewrite arr_get_fmap in Hs. destruct (arr_get (ps_blocks ps) a) as [b|]; [|done]. apply (inj Some) in Hs. exists b, b0.
  destruct (strip_phis_facts _ _ Hs) as (_ & Hpn & _). split_and!; [done..|congruence].
Qed.
Lemma placed_iff Q Q' ps : (forall u y, 0 <= u < nv -> 0 <= y < n -> Q u y <-> Q' u y) -> placed Q ps -> placed Q' ps.
Proof using.
  intros HQ H. split; try apply H. intros u y a b Hu Ha Hb. rewrite <- (pl_phi _ _ H u y a b Hu Ha Hb). symmetry. apply HQ; [done|].
  by apply arr_get_Some in Ha.
Qed.
Lemma placed_arrays Q ps has work : placed Q ps -> placed Q (MkPhiState (ps_blocks ps) (ps_phis ps) has work (ps_live ps)).
Proof using. intros H. split; apply H. Qed.

(** [InsertPhi] and the mark put a new phi into the slot. *)
Definition with_phi (b : BlockEntryInstr) (v p : Z) : BlockEntryInstr :=
  with_phis b (Some (<[Z.to_nat v := Some p]> (match phis_ b with None => replicate (Z.to_nat (var_length cfg)) None | Some l => l end))).
Lemma phi_slot_with b v p u : 0 <= v < var_length cfg -> 0 <= u -> (forall l, phis_ b = Some l -> zlen l = var_length cfg) ->
  phi_slot (with_phi b v p) u = if u =? v then Some p else phi_slot b u.
Proof using.
  intros Hv Hu Hl. unfold phi_slot, with_phi, arr_get. simpl. zif; [|lia].
  set (l := match phis_ b with None => _ | Some _ => _ end). assert (zlen l = var_length cfg) as Hlen.
  { unfold l. destruct (phis_ b) as [l0|]; [by apply Hl|]. unfold zlen. rewrite length_replicate. lia. }
  unfold zlen in Hlen. destruct (Z.eqb_spec u v) as [->|Hne]; [rewrite list_lookup_insert_eq by lia; done|].
  rewrite list_lookup_insert_ne by lia. unfold l. destruct (phis_ b) as [l0|]; simpl; [done|].
  destruct (replicate _ _ !! _) as [o|] eqn:Ho; [|done]. apply lookup_replicate_1 in Ho as [-> _]. done.
Qed.
Lemma placed_insert Q ps v y a b bs has work : placed Q ps -> 0 <= v < nv -> arr_get pre y = Some a -> arr_get (ps_blocks ps) a = Some b ->
  arr_set (ps_blocks ps) a (with_phi b v (zlen (ps_phis ps))) = Some bs ->
  placed (fun u z => Q u z \/ (u = v /\ z = y)) (MkPhiState bs (ps_phis ps ++ [MkPhi a (PredecessorCount b) (always_live cfg v)]) has work
    (if always_live cfg v then ps_live ps ++ [zlen (ps_phis ps)] else ps_live ps)).
Proof using All.
  intros H Hv Ha Hb Hset. set (p := zlen (ps_phis ps)) in *. set (phi := MkPhi a (PredecessorCount b) (always_live cfg v)).
  assert (forall l, phis_ b = Some l -> zlen l = var_length cfg) as Hlen by (intros l; by apply (pl_slots _ _ H y a)).
  assert (forall u, 0 <= u -> phi_slot (with_phi b v p) u = if u =? v then Some p else phi_slot b u) as Hslot
    by (intros u Hu; apply phi_slot_with; [lia|done|done]).
  assert (forall u, phi_slot b u = None \/ 0 <= u) as Hneg.
  { intros u. destruct (Z.le_gt_cases 0 u); [auto|left]. unfold phi_slot, arr_get. destruct (phis_ b); [|done]. simpl. zif; [lia|done]. }
  assert (forall z c c', arr_get pre z = Some c -> arr_get bs c = Some c' -> (z = y /\ c = a /\ c' = with_phi b v p) \/ (z <> y /\ c <> a /\ arr_get (ps_blocks ps) c = Some c')) as Hget.
  { intros z c c' Hz Hc. rewrite (arr_get_set _ _ _ _ _ Hset) in Hc. destruct (Z.eqb_spec a c) as [<-|]; [left|right]; simplify_eq; split_and!; try done.
    - by eapply arr_get_inj.
    - intros ->. congruence. }
  split; simpl.
  - rewrite <- (pl_frame _ _ H). eapply arr_set_fmap; [exact Hset|exact Hb|done].
  - intros z c c' l Hz Hc Hl. destruct (Hget _ _ _ Hz Hc) as [(-> & -> & ->)|(_ & _ & Hc')]; [|by eapply (pl_slots _ _ H)].
    unfold with_phi in Hl. simpl in Hl. injection Hl as <-. unfold zlen. rewrite length_insert. destruct (phis_ b) as [l0|] eqn:Hl0; [by apply Hlen|]. rewrite length_replicate. lia.
  - intros u z c c' Hu Hz Hc. destruct (Hget _ _ _ Hz Hc) as [(-> & -> & ->)|(? & _ & Hc')].
    + rewrite Hslot by lia. destruct (Z.eqb_spec u v) as [->|]; [naive_solver|]. rewrite <- (pl_phi _ _ H u y a b Hu Ha Hb). naive_solver.
    + rewrite <- (pl_phi _ _ H u z c c' Hu Hz Hc'). naive_solver.
  - intros u z c c' q Hz Hc Hq. destruct (Hget _ _ _ Hz Hc) as [(-> & -> & ->)|(_ & _ & Hc')].
    + change (PredecessorCount (with_phi b v p)) with (PredecessorCount b). destruct (Z.le_gt_cases 0 u) as [Hu|Hu].
      * rewrite Hslot in Hq by done. rewrite arr_get_snoc. fold p. destruct (Z.eqb_spec u v) as [->|].
        { injection Hq as <-. by rewrite Z.eqb_refl. }
        pose proof (pl_entry _ _ H u y a b q Ha Hb Hq) as Hold. pose proof (arr_get_Some _ _ _ Hold). by replace (q =? p) with false by lia.
      * unfold phi_slot, with_phi, arr_get in Hq. simpl in Hq. zif_in Hq; [lia|done].
    + pose proof (pl_entry _ _ H u z c c' q Hz Hc' Hq) as Hold. pose proof (arr_get_Some _ _ _ Hold). rewrite arr_get_snoc. fold p.
      by replace (q =? p) with false by lia.
  - intros q. assert (q ∈ ps_live ps -> q <> p) as Hold.
    { intros (phi' & Hphi & _)%(pl_live _ _ H) ->. apply arr_get_Some in Hphi. unfold p in *. lia. }
    rewrite arr_get_snoc. fold p. destruct (Z.eqb_spec q p) as [->|Hne].
    + split; [|intros (phi' & [= <-] & Hal)]; unfold phi in *; simpl in *; destruct (always_live cfg v); [eauto|intros ?; by destruct Hold|set_solver|done].
    + rewrite <- (pl_live _ _ H). destruct (always_live cfg v); [|done]. rewrite elem_of_app, list_elem_of_singleton. naive_solver.
Qed.
Lemma insert_phi_step Q ps v y a : placed Q ps -> 0 <= v < nv -> arr_get pre y = Some a -> (exists x, FR x y) -> ~ Q v y ->
  exists bs phis p phis' live, InsertPhi (ps_blocks ps) (ps_phis ps) a v (var_length cfg) = Some (bs, phis, p) /\
    (if always_live cfg v then phis ← mark_alive phis p; Some (phis, ps_live ps ++ [p]) else Some (phis, ps_live ps)) = Some (phis', live) /\
    forall has work, placed (fun u z => Q u z \/ (u = v /\ z = y)) (MkPhiState bs phis' has work live).
Proof using All.
  intros H Hv Ha [x Hx] HQ. destruct (placed_block _ _ _ _ H Ha) as (b & b0 & Hb & Hb0 & Hs & Hn).
  destruct (strip_phis_facts _ _ Hs) as (_ & _ & Hpc & Hj). unfold InsertPhi. rewrite Hb. cbn [mbind option_bind].
  rewrite Hj, (Hjoin _ _ _ _ Hx Ha Hb0). set (slots := match phis_ b with None => _ | Some _ => _ end).
  assert (forall l, phis_ b = Some l -> zlen l = var_length cfg) as Hlen by (intros l; by apply (pl_slots _ _ H y a)).
  assert (zlen slots = var_length cfg) as Hslots.
  { unfold slots. destruct (phis_ b) as [l0|]; [by apply Hlen|]. unfold zlen. rewrite length_replicate. lia. }
  assert (arr_set slots v (Some (zlen (ps_phis ps))) = Some (<[Z.to_nat v := Some (zlen (ps_phis ps))]> slots)) as -> by (apply arr_set_Some; split; [lia|done]).
  cbn [mbind option_bind]. change (with_phis b (Some (<[Z.to_nat v := Some (zlen (ps_phis ps))]> slots))) with (with_phi b v (zlen (ps_phis ps))).
  destruct (arr_set_ok (ps_blocks ps) a b (with_phi b v (zlen (ps_phis ps))) Hb) as [bs Hset]. rewrite Hset. cbn [mbind option_bind].
  set (p := zlen (ps_phis ps)) in *. set (phi := MkPhi a (PredecessorCount b) (always_live cfg v)).
  exists bs, (ps_phis ps ++ [MkPhi a (PredecessorCount b) false]), p, (ps_phis ps ++ [phi]), (if always_live cfg v then ps_live ps ++ [p] else ps_live ps).
  split_and!; [done| |].
  { unfold phi. destruct (always_live cfg v); [|done]. unfold mark_alive. rewrite arr_get_snoc. fold p. rewrite Z.eqb_refl. cbn [mbind option_bind].
    assert (arr_set (ps_phis ps ++ [MkPhi a (PredecessorCount b) false]) p (MkPhi a (PredecessorCount b) true) = Some (ps_phis ps ++ [MkPhi a (PredecessorCount b) true])) as Hm.
    { apply arr_set_Some. rewrite zlen_app. change (zlen [_]) with 1. split; [unfold p; pose proof (zlen_nonneg (ps_phis ps)); lia|].
      unfold p, zlen. by rewrite Nat2Z.id, insert_app_r_alt, Nat.sub_diag by lia. }
    cbn. by rewrite Hm. }
  intros has work. by eapply placed_insert.
Qed.

(** ** One variable *)
Context (assigned_vars dom_frontier : list BitVector).
Context (Hassigned : forall x, 0 <= x < n -> exists bv, arr_get assigned_vars x = Some bv /\ wf_vector nv bv).
Context (Hfrontier : df_ok g dom_frontier FR).
(** The block with number [x] assigns the variable [u]. *)
Definition assigns (u x : Z) : Prop := 0 <= x < n /\ exists bv, arr_get assigned_vars x = Some bv /\ contents bv u = true.

(** While the variable [v] is worked on: [has_already] marks phis of the iterated
    frontier, [work] the blocks that assign [v] or have a phi for it; the blocks on
    which nothing is left to do, but for the [exempt] ones, are not on the list. *)
Record var_inv (v : Z) (exempt : Z -> Prop) (worklist : list Z) (ps : PhiState) : Prop := {
  vi_len : zlen (ps_has_already ps) = n /\ zlen (ps_work ps) = n;
  vi_le : forall y, 0 <= y < n -> val (ps_has_already ps) y <= v /\ val (ps_work ps) y <= v;
  vi_placed : placed (fun u y => (u < v /\ idf FR (assigns u) y) \/ (u = v /\ val (ps_has_already ps) y = v)) ps;
  vi_sound : forall y, 0 <= y < n -> val (ps_has_already ps) y = v -> idf FR (assigns v) y;
  vi_work : forall y, 0 <= y < n -> val (ps_work ps) y = v <-> assigns v y \/ val (ps_has_already ps) y = v;
  vi_done : forall x, 0 <= x < n -> ~ exempt x -> val (ps_work ps) x = v ->
    (exists a, arr_get pre x = Some a /\ a ∈ worklist) \/ (forall y, FR x y -> val (ps_has_already ps) y = v);
  vi_list : forall a, a ∈ worklist -> exists x, arr_get pre x = Some a /\ val (ps_work ps) x = v }.
(** A round takes a block off the list; each is put on it once. *)
Definition work_left (v : Z) (worklist : list Z) (ps : PhiState) : nat := (length worklist + unworked v (ps_work ps))%nat.

Lemma ensure_phi_spec v x y worklist ps : 0 <= v < nv -> FR x y -> val (ps_work ps) x = v -> var_inv v (fun z => z = x) worklist ps ->
  exists worklist' ps', ensure_phi cfg pre v y (worklist, ps) = Some (worklist', ps') /\ var_inv v (fun z => z = x) worklist' ps' /\
    val (ps_has_already ps') y = v /\ (forall z, val (ps_has_already ps) z = v -> val (ps_has_already ps') z = v) /\
    val (ps_work ps') x = v /\ (work_left v worklist' ps' <= work_left v worklist ps)%nat.
Proof using All.
  intros Hv Hxy Hx H. destruct (HFR _ _ Hxy) as [Hxr Hyr]. destruct (vi_len _ _ _ _ H) as [Hlh Hlw]. destruct (vi_le _ _ _ _ H y Hyr) as [Hhy Hwy].
  unfold ensure_phi. rewrite (val_get (ps_has_already ps) y) by lia. cbn [mbind option_bind].
  destruct (Z.ltb_spec (val (ps_has_already ps) y) v) as [Hlt|Hge]; [|exists worklist, ps; split_and!; try done; lia].
  destruct (arr_get_lt pre y Hyr) as [a Ha]. rewrite Ha. cbn [mbind option_bind].
  destruct (insert_phi_step _ _ v y a (vi_placed _ _ _ _ H) Hv Ha) as (bs & phis & p & phis' & live & -> & Hmark & Hpl); [eauto|lia|].
  cbn [mbind option_bind]. rewrite Hmark. cbn [mbind option_bind].
  destruct (val_set (ps_has_already ps) y v) as (has & -> & Hlh' & Hhas); [lia|]. cbn [mbind option_bind].
  rewrite (val_get (ps_work ps) y) by lia. cbn [mbind option_bind].
  assert (idf FR (assigns v) y) as Hidf.
  { apply (vi_work _ _ _ _ H x Hxr) in Hx as [Hx|Hx]; [by eapply idf_assigned|]. eapply idf_phi; [by apply (vi_sound _ _ _ _ H x)|done]. }
  assert (forall z, val (ps_has_already ps) z = v -> val has z = v) as Hmono by (intros z Hz; rewrite Hhas; by destruct (y =? z)).
  assert (forall z, val has z = v -> z = y \/ val (ps_has_already ps) z = v) as Hinv by (intros z; rewrite Hhas; destruct (Z.eqb_spec y z); auto).
  assert (forall work, placed (fun u z => (u < v /\ idf FR (assigns u) z) \/ (u = v /\ val has z = v)) (MkPhiState bs phis' has work live)) as Hpl'.
  { intros work. eapply placed_iff; [|apply (Hpl has work)]. intros u z Hu Hz. cbn beta. rewrite Hhas. destruct (Z.eqb_spec y z) as [->|]; lia || tauto || intuition lia. }
  assert (forall z, 0 <= z < n -> val has z <= v) as Hle by (intros z Hz; rewrite Hhas; destruct (y =? z); [lia|by apply H]).
  destruct (Z.ltb_spec (val (ps_work ps) y) v) as [Hwlt|Hwge].
  - destruct (val_set (ps_work ps) y v) as (work & Hset & Hlw' & Hwork); [lia|]. rewrite Hset. cbn [mbind option_bind].
    exists (a :: worklist), (MkPhiState bs phis' has work live).
    destruct (unworked_set v (ps_work ps) y (val (ps_work ps) y) work) as [_ Hun]; [by apply val_get; lia|done|].
    split_and!; [done| |by rewrite Hhas, Z.eqb_refl|done|by rewrite Hwork; destruct (y =? x)|unfold work_left; simpl; specialize (Hun ltac:(lia)); lia].
    split; simpl; try done; [lia|..].
    + intros z Hz. split; [by apply Hle|]. rewrite Hwork. destruct (y =? z); [lia|by apply H].
    + intros z Hz [->|Hz']%Hinv; [done|]. by apply (vi_sound _ _ _ _ H).
    + intros z Hz. rewrite Hwork, Hhas. destruct (Z.eqb_spec y z) as [->|]; [tauto|by apply H].
    + intros z Hz Hne. rewrite Hwork. destruct (Z.eqb_spec y z) as [->|]; [intros _; left; exists a; set_solver|]. intros Hwz.
      destruct (vi_done _ _ _ _ H z Hz Hne Hwz) as [(c & Hc & Hin)|Hall]; [left; exists c; set_solver|right; auto].
    + intros c [->|Hc]%elem_of_cons; [exists y; by rewrite Hwork, Z.eqb_refl|]. destruct (vi_list _ _ _ _ H c Hc) as (z & Hz & Hwz).
      exists z. split; [done|]. rewrite Hwork. by destruct (y =? z).
  - exists worklist, (MkPhiState bs phis' has (ps_work ps) live). assert (val (ps_work ps) y = v) as Hwv by lia.
    split_and!; [done| |by rewrite Hhas, Z.eqb_refl|done|done|done].
    split; simpl; try done; [lia|..].
    + intros z Hz. split; [by apply Hle|by apply H].
    + intros z Hz [->|Hz']%Hinv; [done|]. by apply (vi_sound _ _ _ _ H).
    + intros z Hz. rewrite (vi_work _ _ _ _ H z Hz), Hhas. destruct (Z.eqb_spec y z) as [->|]; [|done].
      apply (vi_work _ _ _ _ H z Hz) in Hwv. tauto.
    + intros z Hz Hne Hwz. destruct (vi_done _ _ _ _ H z Hz Hne Hwz) as [?|Hall]; [auto|right; auto].
    + apply H.
Qed.
Lemma ensure_phis_spec v x indices worklist ps : 0 <= v < nv -> (forall y, y ∈ indices -> FR x y) -> val (ps_work ps) x = v ->
  var_inv v (fun z => z = x) worklist ps ->
  exists worklist' ps', ensure_phis cfg pre v indices (worklist, ps) = Some (worklist', ps') /\ var_inv v (fun z => z = x) worklist' ps' /\
    (forall y, y ∈ indices -> val (ps_has_already ps') y = v) /\ (forall z, val (ps_has_already ps) z = v -> val (ps_has_already ps') z = v) /\
    (work_left v worklist' ps' <= work_left v worklist ps)%nat.
Proof using All.
  intros Hv. revert worklist ps. induction indices as [|y l IH]; intros worklist ps Hl Hx H; [exists worklist, ps; split_and!; try done; set_solver|].
  cbn [ensure_phis]. destruct (ensure_phi_spec v x y worklist ps Hv) as (wl1 & ps1 & -> & H1 & Hy & Hmono & Hx1 & Hle1); [apply Hl; set_solver|done..|].
  cbn [mbind option_bind]. destruct (IH wl1 ps1) as (wl2 & ps2 & -> & H2 & Hall & Hmono2 & Hle2); [set_solver|done..|].
  exists wl2, ps2. split_and!; try done; [|auto|lia]. intros z [->|Hz]%elem_of_cons; auto.
Qed.

Lemma frontier_elements x v : 0 <= x < n -> arr_get dom_frontier x = Some v ->
  exists l, iterate (S (64 * length (data_ v))) v = Some l /\ forall y, y ∈ l <-> FR x y.
Proof using All.
  intros Hx Hv. destruct Hfrontier as [_ Hf]. destruct (Hf x Hx) as (v' & Hv' & Hwf & Hc). assert (v' = v) as -> by congruence.
  exists (elements_from v 0). split.
  - apply (BitVector_iterate_exact n); [lia|done|]. destruct Hwf as (_ & <- & _). unfold zlen. lia.
  - intros y. unfold elements_from. rewrite list_elem_of_filter, Hc, elem_of_seqZ. split; [tauto|]. intros Hy. split; [done|].
    destruct (HFR _ _ Hy) as [_ Hyr]. pose proof (wf_room _ _ _ Hwf Hyr). lia.
Qed.
Lemma phi_worklist_spec fuel v worklist ps : 0 <= v < nv -> (work_left v worklist ps < fuel)%nat -> var_inv v (fun _ => False) worklist ps ->
  exists ps', phi_worklist fuel cfg pre dom_frontier v worklist ps = Some ps' /\ var_inv v (fun _ => False) [] ps'.
Proof using All.
  intros Hv. revert worklist ps. induction fuel as [|fuel IH]; intros worklist ps Hfuel H; [lia|]. cbn [phi_worklist].
  destruct worklist as [|a worklist]; [by exists ps|]. destruct (vi_list _ _ _ _ H a) as (x & Hx & Hwx); [set_solver|].
  pose proof (arr_get_Some _ _ _ Hx) as Hxr. destruct (placed_block _ _ _ _ (vi_placed _ _ _ _ H) Hx) as (b & b0 & Hb & _ & _ & Hnb).
  rewrite Hb. cbn [mbind option_bind]. rewrite Hnb. destruct Hfrontier as [Hlf Hf]. destruct (Hf x Hxr) as (bv & Hbv & _).
  rewrite Hbv. cbn [mbind option_bind]. destruct (frontier_elements x bv Hxr Hbv) as (l & -> & Hl). cbn [mbind option_bind].
  assert (var_inv v (fun z => z = x) worklist ps) as H0.
  { split; try apply H.
    - intros z Hz Hne Hwz. destruct (vi_done _ _ _ _ H z Hz ltac:(tauto) Hwz) as [(c & Hc & Hin)|?]; [left; exists c; split; [done|]|auto].
      apply elem_of_cons in Hin as [->|]; [|done]. destruct Hne. eapply arr_get_inj; done.
    - intros c Hc. apply (vi_list _ _ _ _ H). set_solver. }
  destruct (ensure_phis_spec v x l worklist ps Hv) as (wl & ps' & -> & H' & Hall & Hmono & Hle); [intros y; apply Hl|done..|]. cbn [mbind option_bind].
  apply IH; [unfold work_left in *; simpl in *; lia|]. split; try apply H'. intros z Hz _ Hwz. destruct (decide (z = x)) as [->|Hne]; [|by apply (vi_done _ _ _ _ H')].
  right. intros y Hy. apply Hall. by apply Hl.
Qed.
(** When the list is empty, the phis are those of the iterated frontier. *)
Lemma var_inv_exact v ps y : var_inv v (fun _ => False) [] ps -> 0 <= y < n -> val (ps_has_already ps) y = v <-> idf FR (assigns v) y.
Proof using All.
  intros H Hy. split; [by apply H|]. clear Hy.
  assert (forall x z, 0 <= x < n -> val (ps_work ps) x = v -> FR x z -> val (ps_has_already ps) z = v) as Hcl.
  { intros x z Hx Hw Hxz. destruct (vi_done _ _ _ _ H x Hx ltac:(tauto) Hw) as [(a & _ & Ha)|Hall]; [set_solver|auto]. }
  induction 1 as [x y Hx Hxy|x y Hx IH Hxy]; destruct (HFR _ _ Hxy) as [Hxr _]; eapply (Hcl x); try done; apply (vi_work _ _ _ _ H x Hxr); auto.
Qed.

(** The blocks that assign [v] up to [i] have been put on the list. *)
Record init_inv (v i : Z) (worklist : list Z) (ps : PhiState) : Prop := {
  in_len : zlen (ps_has_already ps) = n /\ zlen (ps_work ps) = n;
  in_has : forall y, 0 <= y < n -> val (ps_has_already ps) y < v;
  in_work : forall y, 0 <= y < n -> val (ps_work ps) y <= v /\ (val (ps_work ps) y = v <-> y < i /\ assigns v y);
  in_placed : placed (fun u y => u < v /\ idf FR (assigns u) y) ps;
  in_list : forall a, a ∈ worklist <-> exists x, arr_get pre x = Some a /\ val (ps_work ps) x = v;
  in_left : (work_left v worklist ps <= length pre)%nat }.

Lemma assigned_blocks_spec v m : 0 <= v < nv -> forall i worklist ps, 0 <= i -> i + Z.of_nat m = n -> init_inv v i worklist ps ->
  exists worklist' ps', assigned_blocks m pre assigned_vars v i (worklist, ps) = Some (worklist', ps') /\ init_inv v n worklist' ps'.
Proof using All.
  intros Hv. induction m as [|m IH]; intros i worklist ps Hi Hm H; [exists worklist, ps; split; [done|]; by replace n with i by lia|].
  cbn [assigned_blocks]. destruct (Hassigned i ltac:(lia)) as (bv & Hbv & Hwf). rewrite Hbv. cbn [mbind option_bind].
  rewrite (BitVector_Contains_spec nv bv Hwf v Hv). cbn [mbind option_bind]. destruct (in_len _ _ _ _ H) as [Hlh Hlw].
  assert (assigns v i <-> contents bv v = true) as Hai.
  { unfold assigns. split; [intros [_ (bv' & Hbv' & Hc)]; congruence|]. intros Hc. split; [lia|eauto]. }
  destruct (contents bv v) eqn:Hc.
  - destruct (val_set (ps_work ps) i v) as (work & Hset & Hlw' & Hwork); [lia|]. rewrite Hset. cbn [mbind option_bind].
    destruct (arr_get_lt pre i) as [a Ha]; [lia|]. rewrite Ha. cbn [mbind option_bind]. apply IH; [lia|lia|].
    destruct (in_work _ _ _ _ H i) as [Hle Hiff]; [lia|].
    destruct (unworked_set v (ps_work ps) i (val (ps_work ps) i) work) as [_ Hun]; [by apply val_get; lia|done|].
    split; simpl; try apply H; [lia|..].
    + intros y Hy. rewrite Hwork. destruct (in_work _ _ _ _ H y Hy) as [Hly Hiy]. destruct (Z.eqb_spec i y) as [<-|].
      * split; [lia|]. split; [intros _; split; [lia|by apply Hai]|done].
      * split; [done|]. rewrite Hiy. split; intros [? ?]; split; try done; lia.
    + by apply placed_arrays, H.
    + intros c. rewrite elem_of_cons, (in_list _ _ _ _ H). split.
      * intros [->|(x & Hx & Hwx)]; [exists i; by rewrite Hwork, Z.eqb_refl|]. exists x. split; [done|]. rewrite Hwork. by destruct (i =? x).
      * intros (x & Hx & Hwx). rewrite Hwork in Hwx. destruct (Z.eqb_spec i x) as [<-|]; [left; congruence|right; eauto].
    + pose proof (in_left _ _ _ _ H) as Hleft. unfold work_left in *. simpl. rewrite Hun in Hleft; [lia|]. intros Heq. apply Hiff in Heq. lia.
  - apply IH; [lia|lia|]. split; try apply H. intros y Hy. destruct (in_work _ _ _ _ H y Hy) as [Hly Hiy]. split; [done|]. rewrite Hiy.
    split; intros [? ?]; split; try done; [lia|]. destruct (decide (y = i)) as [->|]; [|lia]. apply Hai in H1. done.
Qed.
Lemma init_var_inv v worklist ps : init_inv v n worklist ps -> var_inv v (fun _ => False) worklist ps.
Proof using All.
  intros H. assert (forall y, 0 <= y < n -> val (ps_has_already ps) y <> v) as Hne by (intros y Hy; pose proof (in_has _ _ _ _ H y Hy); lia).
  split; try apply H.
  - intros y Hy. split; [pose proof (in_has _ _ _ _ H y Hy); lia|by apply H].
  - eapply placed_iff; [|apply H]. intros u y Hu Hy. specialize (Hne y Hy). tauto.
  - intros y Hy Hv. by destruct (Hne y Hy).
  - intros y Hy. destruct (in_work _ _ _ _ H y Hy) as [_ ->]. specialize (Hne y Hy). split; [tauto|]. intros [?|?]; [split; [lia|done]|done].
  - intros x Hx _ Hwx. left. destruct (arr_get_lt pre x Hx) as [a Ha]. exists a. split; [done|]. apply (in_list _ _ _ _ H). eauto.
Qed.

(** ** All variables *)
Definition between_vars (v : Z) (ps : PhiState) : Prop :=
  zlen (ps_has_already ps) = n /\ zlen (ps_work ps) = n /\ (forall y, 0 <= y < n -> val (ps_has_already ps) y < v /\ val (ps_work ps) y < v) /\
  placed (fun u y => u < v /\ idf FR (assigns u) y) ps.
Lemma phis_for_spec m v ps : 0 <= v -> v + Z.of_nat m = nv -> between_vars v ps ->
  exists ps', phis_for m cfg pre assigned_vars dom_frontier v ps = Some ps' /\ between_vars nv ps'.
Proof using All.
  revert v ps. induction m as [|m IH]; intros v ps Hv Hm (Hlh & Hlw & Hlt & Hpl); [exists ps; split; [done|]; by replace nv with v by lia|].
  cbn [phis_for]. destruct (assigned_blocks_spec v (length pre) ltac:(lia) 0 [] ps) as (wl & ps1 & -> & H1); [lia|unfold zlen; lia| |].
  { split; try done.
    - intros y Hy. apply Hlt, Hy.
    - intros y Hy. destruct (Hlt y Hy). split; [lia|]. split; intros; lia.
    - intros a. split; [set_solver|]. intros (x & Hx & Hwx). apply arr_get_Some in Hx. destruct (Hlt x Hx). lia.
    - unfold work_left. simpl. unfold unworked. etransitivity; [apply length_filter|]. unfold zlen in *. lia. }
  cbn [mbind option_bind]. destruct (phi_worklist_spec (S (length pre)) v wl ps1) as (ps2 & -> & H2); [lia| |by apply init_var_inv|].
  { pose proof (in_left _ _ _ _ H1). lia. }
  cbn [mbind option_bind]. apply IH; [lia|lia|]. destruct (vi_len _ _ _ _ H2). split_and!; try done.
  - intros y Hy. destruct (vi_le _ _ _ _ H2 y Hy). lia.
  - eapply placed_iff; [|apply H2]. intros u y Hu Hy. cbn beta. rewrite (var_inv_exact v ps2 y H2 Hy). split.
    + intros [[? ?]|[-> ?]]; split; try done; lia.
    + intros [? ?]. destruct (decide (u = v)) as [->|]; [auto|left; split; [lia|done]].
Qed.
End Insertion.

(** ** Phis of a whole graph *)
(** The sets of assigned variables, one for each block. *)
Definition assigned_ok (cfg : PhiConfig) (g : FlowGraph) (assigned_vars : list BitVector) : Prop :=
  forall x, 0 <= x < block_count g -> exists bv, arr_get assigned_vars x = Some bv /\ wf_vector (cfg_variable_count cfg) bv.
(** No phi has been made yet. *)
Definition no_phis (g : FlowGraph) : Prop :=
  all_phis g = [] /\ forall a b, a ∈ preorder_blocks g -> arr_get (all_blocks g) a = Some b -> phis_ b = None.
(** The phi for the variable [u] in the block with number [y]. *)
Definition phi_at (g : FlowGraph) (u y : Z) : option Z :=
  a ← arr_get (preorder_blocks g) y; b ← arr_get (all_blocks g) a; phi_slot b u.

Lemma InsertPhis_spec cfg g g1 idom assigned_vars df : Discovered g -> Dominated g g1 idom -> df_ok g df (frontier (graph_edge g)) ->
  0 <= cfg_variable_count cfg <= var_length cfg -> no_phis g -> assigned_ok cfg g assigned_vars ->
  exists g' live, InsertPhis cfg g1 assigned_vars df = Some (g', live) /\ preorder_blocks g' = preorder_blocks g /\
    strip_phis <$> all_blocks g' = strip_phis <$> all_blocks g1 /\
    (forall u y, 0 <= u < cfg_variable_count cfg -> 0 <= y < block_count g ->
      is_Some (phi_at g' u y) <-> idf (frontier (graph_edge g)) (assigns g assigned_vars u) y) /\
    (forall u y p, 0 <= u < cfg_variable_count cfg -> phi_at g' u y = Some p -> exists a b, arr_get (preorder_blocks g) y = Some a /\ arr_get (all_blocks g) a = Some b /\
      arr_get (all_phis g') p = Some (MkPhi a (PredecessorCount b) (always_live cfg u))) /\
    (forall p, p ∈ live <-> exists phi, arr_get (all_phis g') p = Some phi /\ is_alive_ phi = true).
Proof.
  intros Hd Ht Hdf Hvars [Hphis Hnone] Has. destruct dt_orders as (Hpre & _ & _ & Hph & _). unfold InsertPhis. cbn zeta. rewrite Hpre, Hph, Hphis.
  assert (forall i a, arr_get (preorder_blocks g1) i = Some a -> exists b, arr_get (all_blocks g1) a = Some b /\ preorder_number_ b = i) as Hblock.
  { intros i a Ha. rewrite Hpre in Ha. destruct (framed_block g (all_blocks g1) i a dt_frame Ha) as (b & ? & ? & _). eauto. }
  assert (forall x y, frontier (graph_edge g) x y -> 0 <= x < block_count g1 /\ 0 <= y < block_count g1) as HFR.
  { intros x y [(u & Hu & Hx) _]. rewrite Hpre. pose proof (df_range _ _ Hu) as [? ?]. apply dom_le in Hx; lia. }
  assert (forall x y a b, frontier (graph_edge g) x y -> arr_get (preorder_blocks g1) y = Some a -> arr_get (all_blocks g1) a = Some b -> IsJoinEntry b = true) as Hjoin.
  { intros x y a b Hf Ha Hb. destruct (HFR _ _ Hf) as [_ Hy]. rewrite Hpre in Ha, Hy. destruct (IsJoinEntry b) eqn:Hj; [done|]. exfalso.
    eapply (frontier_single g (all_blocks g1) y x b a); [apply dt_frame|done..| |done]. rewrite PredecessorCount_list. unfold zlen.
    pose proof (pred_list_single b Hj). lia. }
  set (N := length (preorder_blocks g)). set (ps0 := MkPhiState (all_blocks g1) [] (replicate N (-1)) (replicate N (-1)) []).
  destruct (phis_for_spec cfg g1 (frontier (graph_edge g)) Hvars ltac:(rewrite Hpre; apply dc_nodup) Hblock Hjoin HFR assigned_vars df
    ltac:(unfold assigned_ok in Has; by rewrite Hpre) ltac:(unfold df_ok in *; by rewrite Hpre) (Z.to_nat (cfg_variable_count cfg)) 0 ps0)
    as (ps & Hrun & (_ & _ & _ & Hpl)); [lia|lia| |].
  { assert (forall y, 0 <= y < block_count g1 -> val (replicate N (-1)) y = -1) as Hval.
    { intros y Hy. rewrite Hpre in Hy. unfold val, arr_get, zlen in *. zif; [|lia]. rewrite lookup_replicate_2 by (unfold N; lia). done. }
    unfold between_vars, ps0. simpl. split_and!; [unfold zlen; rewrite length_replicate, Hpre; done..|intros y Hy; rewrite Hval by done; lia|].
    assert (forall y a b, arr_get (preorder_blocks g1) y = Some a -> arr_get (all_blocks g1) a = Some b -> phis_ b = None) as Hn.
    { intros y a b Ha Hb. rewrite Hpre in Ha. destruct (dc_block y a Ha) as (b0 & Hb0 & _). destruct (frame_get _ _ _ _ dt_frame Hb0) as (b' & Hb' & Hs).
      assert (b' = b) as -> by congruence. transitivity (phis_ b0); [exact (f_equal phis_ Hs)|]. eapply Hnone; [apply arr_get_elem; eauto|done]. }
    split; simpl; try done.
    - intros y a b l Ha Hb Hl. rewrite (Hn _ _ _ Ha Hb) in Hl. done.
    - intros u y a b Hu Ha Hb. unfold phi_slot. rewrite (Hn _ _ _ Ha Hb). split; [intros [? _]; lia|by intros [? ?]].
    - intros u y a b p Ha Hb. unfold phi_slot. by rewrite (Hn _ _ _ Ha Hb).
    - intros p. split; [set_solver|]. intros (phi & Hphi & _). apply arr_get_Some in Hphi. unfold zlen in Hphi. simpl in Hphi. lia. }
  rewrite Hpre in Hrun. rewrite Hrun. cbn [mbind option_bind]. eexists _, _. split; [done|]. simpl. split_and!; try done.
  - apply Hpl.
  - intros u y Hu Hy. unfold phi_at. simpl. destruct (arr_get_lt (preorder_blocks g) y Hy) as [a Ha]. rewrite Ha. simpl.
    assert (arr_get (preorder_blocks g1) y = Some a) as Ha1 by (by rewrite Hpre).
    destruct (placed_block _ _ Hblock _ _ _ _ Hpl Ha1) as (b & b0 & Hb & _). rewrite Hb. simpl.
    rewrite <- (pl_phi _ _ _ _ Hpl u y a b Hu Ha1 Hb). unfold assigns. rewrite Hpre. split; [tauto|]. intros ?; split; [lia|done].
  - intros u y p Hu. unfold phi_at. simpl. destruct (arr_get (preorder_blocks g) y) as [a|] eqn:Ha; [|done]. simpl.
    assert (arr_get (preorder_blocks g1) y = Some a) as Ha1 by (by rewrite Hpre).
    destruct (placed_block _ _ Hblock _ _ _ _ Hpl Ha1) as (b & b1 & Hb & Hb1 & Hs & _). rewrite Hb. simpl. intros Hp.
    destruct (dc_block y a Ha) as (b0 & Hb0 & _). exists a, b0. split_and!; try done. rewrite (pl_entry _ _ _ _ Hpl u y a b p Ha1 Hb Hp).
    do 2 f_equal. destruct (frame_get _ _ _ _ dt_frame Hb0) as (b1' & Hb1' & Hs1). assert (b1' = b1) as -> by congruence.
    transitivity (PredecessorCount b1); [exact (f_equal PredecessorCount Hs)|exact (f_equal PredecessorCount Hs1)].
  - apply Hpl.
Qed.

(** C6: the first half of [FlowGraph::ComputeSSA] ends on every discovered graph
    and leaves a phi for a variable in exactly the blocks of the iterated dominance
    frontier of its assignments; each such phi belongs to its block, has an
    input for every predecessor, and is on the list of live phis exactly when it
    is alive, which the phis of the current context are, and all others if dead
    locals are kept. *)
Theorem ComputeSSA_phis_exact cfg g assigned_vars : Discovered g -> 0 <= cfg_variable_count cfg <= var_length cfg -> no_phis g ->
  assigned_ok cfg g assigned_vars ->
  exists g' live, ComputeSSA_phis cfg g assigned_vars = Some (g', live) /\
    (forall u y, 0 <= u < cfg_variable_count cfg -> 0 <= y < block_count g ->
      is_Some (phi_at g' u y) <-> idf (frontier (graph_edge g)) (assigns g assigned_vars u) y) /\
    (forall u y p, 0 <= u < cfg_variable_count cfg -> phi_at g' u y = Some p -> exists a b, arr_get (preorder_blocks g) y = Some a /\ arr_get (all_blocks g) a = Some b /\
      arr_get (all_phis g') p = Some (MkPhi a (PredecessorCount b) (always_live cfg u))) /\
    (forall p, p ∈ live <-> exists phi, arr_get (all_phis g') p = Some phi /\ is_alive_ phi = true).
Proof.
  intros Hd Hvars Hno Has. destruct (ComputeDominators_spec g Hd) as (g1 & df & idom & Hc & Ht & Hdf).
  destruct (InsertPhis_spec cfg g g1 idom assigned_vars df Hd Ht Hdf Hvars Hno Has) as (g' & live & Hi & _ & _ & H). exists g', live.
  split; [|done]. unfold ComputeSSA_phis. by rewrite Hc.
Qed.

(** C7: renaming may follow the dominator tree: where [FlowGraph::ComputeSSA] puts no
    phi for a variable, no block on any path from the immediate dominator to the
    block assigns the variable or has a phi for it, so the value at the end of
    the immediate dominator is the value at the start of the block. *)
Theorem ComputeSSA_phis_reaching cfg g assigned_vars g' live u y a b d dd p x : Discovered g -> 0 <= cfg_variable_count cfg <= var_length cfg ->
  no_phis g -> assigned_ok cfg g assigned_vars -> ComputeSSA_phis cfg g assigned_vars = Some (g', live) ->
  0 <= u < cfg_variable_count cfg -> 0 < y -> arr_get (preorder_blocks g) y = Some a -> arr_get (all_blocks g') a = Some b ->
  phi_at g' u y = None -> dominator_ b = Some dd -> arr_get (preorder_blocks g) d = Some dd ->
  walk (graph_edge g) d (p ++ [y]) y -> d ∉ p -> x ∈ p ->
  ~ assigns g assigned_vars u x /\ phi_at g' u x = None.
Proof.
  intros Hd Hvars Hno Has Hrun Hu Hy Ha Hb Hphi Hdom Hdd Hw Hni Hx.
  destruct (ComputeDominators_spec g Hd) as (g1 & df & idom & Hc & Ht & Hdf).
  destruct (InsertPhis_spec cfg g g1 idom assigned_vars df Hd Ht Hdf Hvars Hno Has) as (g2 & live2 & Hi & Hpre & Hfr & Hex & _).
  unfold ComputeSSA_phis in Hrun. rewrite Hc in Hrun. cbn [mbind option_bind] in Hrun. rewrite Hi in Hrun. injection Hrun as -> ->.
  pose proof (arr_get_Some _ _ _ Ha) as Hyr. assert (d = idom y) as ->.
  { assert (strip_phis <$> arr_get (all_blocks g') a = strip_phis <$> arr_get (all_blocks g1) a) as Hs by (by rewrite <- !arr_get_fmap, Hfr).
    rewrite Hb in Hs. destruct (arr_get (all_blocks g1) a) as [b1|] eqn:Hb1; [|done]. apply (inj Some) in Hs.
    assert (dominator_ b = dominator_ b1) as Heq by exact (f_equal dominator_ Hs). rewrite Heq, (dt_dominator y a b1 Hy Ha Hb1) in Hdom.
    eapply arr_get_inj; [apply dc_nodup|done..]. }
  set (E := graph_edge g) in *. set (Phi := fun z => 0 <= z < block_count g /\ is_Some (phi_at g' u z)).
  assert (~ (assigns g assigned_vars u x \/ Phi x)) as Hnot.
  { eapply (no_def_between idom (fun w Hw => dt_idom w Hw) (fun z => assigns g assigned_vars u z \/ Phi z) Phi y p); [auto| |lia| |done..].
    - intros z t Hz Hzt. assert (0 <= t < block_count g) as Ht' by (destruct Hzt as [(? & He & _) _]; apply (df_range _ _ He)).
      split; [done|]. apply Hex; [done..|]. destruct Hz as [Hz|[Hz Hzs]]; [by eapply idf_assigned|]. eapply idf_phi; [|done]. by apply Hex.
    - intros [_ [? ?]]. congruence. }
  split; [tauto|]. destruct (phi_at g' u x) as [q|] eqn:Hq; [|done]. destruct Hnot. right. split; [|done].
  unfold phi_at in Hq. rewrite Hpre in Hq. destruct (arr_get (preorder_blocks g) x) eqn:Hxa; [|done]. by apply arr_get_Some in Hxa.
Qed.

(** Variable 0 is assigned in both arms of the diamond, variable 1 after it. *)
Definition example_cfg : PhiConfig := MkPhiConfig 2 None 1 true.
Definition example_assigned : list BitVector :=
  (fun w => MkBitVector 2 [w]) <$> [0; 3; 0; 1; 2; 0; 0; 1].
Definition example_discovered : FlowGraph := default example_graph (DiscoverBlocks 30 example_graph).
Lemma example_discovered_ok : Discovered example_discovered /\ no_phis example_discovered /\ assigned_ok example_cfg example_discovered example_assigned.
Proof.
  destruct (DiscoverBlocks_spec 30 example_graph example_wf ltac:(vm_compute; lia)) as (g & Hg & Hd & _).
  assert (example_discovered = g) as -> by (unfold example_discovered; by rewrite Hg). split; [done|].
  vm_compute in Hg. injection Hg as <-. split; [split; [done|]|].
  - intros a b _ Hb. simpl in Hb. unfold arr_get in Hb. zif_in Hb; [|done]. apply list_elem_of_lookup_2 in Hb. set_unfold in Hb. naive_solver.
  - intros x Hx. change (block_count _) with 8 in Hx.
    assert (x = 0 \/ x = 1 \/ x = 2 \/ x = 3 \/ x = 4 \/ x = 5 \/ x = 6 \/ x = 7) as Hc by lia.
    destruct Hc as [->|[->|[->|[->|[->|[->|[->| ->]]]]]]]; eexists; (split; [reflexivity|]); (split; [reflexivity|]); (split; [reflexivity|]);
      repeat constructor; vm_compute; done.
Qed.
Theorem ComputeSSA_phis_exact_witness : exists g' live, ComputeSSA_phis example_cfg example_discovered example_assigned = Some (g', live) /\
  phi_at g' 0 4 = Some 0 /\ phi_at g' 0 2 = Some 1 /\ phi_at g' 1 2 = Some 2 /\ phi_at g' 1 4 = None /\ live = [2].
Proof.
  destruct example_discovered_ok as (Hd & Hn & Ha).
  destruct (ComputeSSA_phis_exact example_cfg example_discovered example_assigned Hd ltac:(vm_compute; split; congruence) Hn Ha) as (g' & live & Hrun & _).
  exists g', live. split; [exact Hrun|]. vm_compute in Hrun. injection Hrun as <- <-. repeat split.
Defined.
Theorem ComputeSSA_phis_reaching_witness : exists g' live, ComputeSSA_phis example_cfg example_discovered example_assigned = Some (g', live) /\
  phi_at g' 1 4 = None /\ ~ assigns example_discovered example_assigned 1 3 /\ phi_at g' 1 3 = None.
Proof.
  destruct example_discovered_ok as (Hd & Hn & Ha).
  destruct (ComputeSSA_phis example_cfg example_discovered example_assigned) as [[g' live]|] eqn:Hrun; [|vm_compute in Hrun; discriminate].
  exists g', live. split; [reflexivity|].
  assert (exists b, arr_get (all_blocks g') 5 = Some b /\ dominator_ b = Some 2 /\ phi_at g' 1 4 = None) as (b & Hb & Hdom & Hphi).
  { clear Hd Hn Ha. vm_compute in Hrun. injection Hrun as <- <-. eexists. split; [reflexivity|]. split; reflexivity. }
  split; [exact Hphi|].
  eapply (ComputeSSA_phis_reaching example_cfg example_discovered example_assigned g' live 1 4 5 b 2 2 [3] 3 Hd
    ltac:(vm_compute; split; congruence) Hn Ha Hrun ltac:(vm_compute; split; congruence) ltac:(lia) ltac:(vm_compute; reflexivity) Hb Hphi Hdom
    ltac:(vm_compute; reflexivity)); [|intros Hin%list_elem_of_singleton; discriminate|left].
  apply walk_cons; [|apply walk_cons; [|apply walk_nil]].
  - exists 2, 4. split; [vm_compute; reflexivity|]. split; [vm_compute; reflexivity|]. eexists. split; [vm_compute; reflexivity|]. vm_compute. right. left.
  - exists 4, 5. split; [vm_compute; reflexivity|]. split; [vm_compute; reflexivity|]. eexists. split; [vm_compute; reflexivity|]. vm_compute. left.
Defined.
