(* ===== verification/Loops.v ===== *)
(** * Natural loops and the loop hierarchy
    (src/runtime/vm/compiler/backend/{flow_graph.cc,loops.h,loops.cc})

    [FlowGraph::FindLoopBlocks] and [FlowGraph::ComputeLoops], the queries of
    [LoopInfo], and [LoopHierarchy::Build]. Induction variables are left out. *)
From stdpp Require Import sets relations.
From S2P Require Import Prelude Utils BitSet BitVector Dominance FlowGraph Dominators.
Local Open Scope Z_scope.
Local Open Scope vm_scope.

(** ** The blocks of a loop *)
(** The predecessors of [block] from [i] on, [n] of them; the head of [stack] is
    its last element. *)
Fixpoint loop_preds (n : nat) (bs : Blocks) (block : BlockEntryInstr) (i : Z) (stack : list Z) (loop_blocks : BitVector) : option (list Z * BitVector) :=
  match n with
  | O => Some (stack, loop_blocks)
  | S n =>
      q ← PredecessorAt block i;
      qb ← arr_get bs q;
      seen ← BitVector_Contains loop_blocks (preorder_number_ qb);
      if seen : bool then loop_preds n bs block (i + 1) stack loop_blocks
      else
        loop_blocks ← BitVector_Add loop_blocks (preorder_number_ qb);
        loop_preds n bs block (i + 1) (q :: stack) loop_blocks
  end.
Fixpoint loop_stack (fuel : nat) (bs : Blocks) (stack : list Z) (loop_blocks : BitVector) : option BitVector :=
  match fuel with
  | O => None
  | S fuel =>
      match stack with
      | [] => Some loop_blocks
      | p :: stack =>
          pb ← arr_get bs p;
          '(stack, loop_blocks) ← loop_preds (Z.to_nat (PredecessorCount pb)) bs pb 0 stack loop_blocks;
          loop_stack fuel bs stack loop_blocks
      end
  end.
(** The loop of the back edge from [m] to [n]. *)
Definition FindLoopBlocks (g : FlowGraph) (m n : Z) : option BitVector :=
  nb ← arr_get (all_blocks g) n;
  loop_blocks ← BitVector_Add (BitVector_new (zlen (preorder_blocks g))) (preorder_number_ nb);
  '(stack, loop_blocks) ←
    (if n =? m then Some ([], loop_blocks)
     else
       mb ← arr_get (all_blocks g) m;
       loop_blocks ← BitVector_Add loop_blocks (preorder_number_ mb);
       Some ([m], loop_blocks));
  loop_stack (S (length (preorder_blocks g))) (all_blocks g) stack loop_blocks.

(** ** Loops (loops.cc) *)
Definition with_blocks (l : LoopInfo) (v : BitVector) (back_edges : list Z) : LoopInfo :=
  MkLoopInfo (id_ l) (header_ l) v back_edges (outer_ l) (inner_ l) (next_ l).
Definition with_links (l : LoopInfo) (outer inner next : option Z) : LoopInfo :=
  MkLoopInfo (id_ l) (header_ l) (blocks_ l) (back_edges_ l) outer inner next.
Definition LoopInfo_new (id header : Z) (blocks : BitVector) : LoopInfo := MkLoopInfo id header blocks [] None None None.
Definition AddBlocks (l : LoopInfo) (blocks : BitVector) : option LoopInfo :=
  '(_, v) ← BitVector_AddAll (blocks_ l) blocks; Some (with_blocks l v (back_edges_ l)).
Definition AddBackEdge (l : LoopInfo) (block : Z) : LoopInfo := with_blocks l (blocks_ l) (back_edges_ l ++ [block]).
Definition IsBackEdge (l : LoopInfo) (block : Z) : bool := existsb (fun b => b =? block) (back_edges_ l).
Definition LoopInfo_Contains (bs : Blocks) (l : LoopInfo) (block : Z) : option bool :=
  b ← arr_get bs block; BitVector_Contains (blocks_ l) (preorder_number_ b).
Definition IsIn (bs : Blocks) (loops : list LoopInfo) (l : LoopInfo) (loop : option Z) : option bool :=
  match loop with
  | None => Some false
  | Some other => o ← arr_get loops other; LoopInfo_Contains bs o (header_ l)
  end.
Fixpoint nesting_from (fuel : nat) (loops : list LoopInfo) (o : option Z) (depth : Z) : option Z :=
  match fuel with
  | O => None
  | S fuel => match o with None => Some depth | Some i => l ← arr_get loops i; nesting_from fuel loops (outer_ l) (depth + 1) end
  end.
Definition LoopInfo_NestingDepth (loops : list LoopInfo) (l : LoopInfo) : option Z := nesting_from (S (length loops)) loops (outer_ l) 1.
Definition IsLoopHeader (loops : list LoopInfo) (bs : Blocks) (this : Z) : option bool :=
  b ← arr_get bs this;
  match loop_info_ b with None => Some false | Some i => l ← arr_get loops i; Some (header_ l =? this) end.
Definition NestingDepth (loops : list LoopInfo) (bs : Blocks) (this : Z) : option Z :=
  b ← arr_get bs this;
  match loop_info_ b with None => Some 0 | Some i => l ← arr_get loops i; LoopInfo_NestingDepth loops l end.

(** ** Computation of the loops *)
Definition with_loops (g : FlowGraph) (bs : Blocks) (loops : list LoopInfo) : FlowGraph :=
  MkFlowGraph (graph_entry_ g) bs (all_phis g) loops (preorder_blocks g) (postorder_blocks g) (reverse_postorder_blocks g)
    (parent_ g) (loop_hierarchy_ g) (loop_invariant_loads_ g).
Definition set_loop_info (bs : Blocks) (block : Z) (loop : option Z) : option Blocks :=
  b ← arr_get bs block; arr_set bs block (with_loop_info b loop).
(** One predecessor of [block]; [headers] is [loop_headers]. *)
Definition loop_back_edge (g : FlowGraph) (headers : list Z) (block pred : Z) : option (FlowGraph * list Z) :=
  dominates ← Dominates g block pred;
  if dominates : bool then
    loop_blocks ← FindLoopBlocks g pred block;
    b ← arr_get (all_blocks g) block;
    '(g, headers, loop) ←
      (match loop_info_ b with
       | None =>
           let loop := zlen (all_loops g) in
           bs ← set_loop_info (all_blocks g) block (Some loop);
           Some (with_loops g bs (all_loops g ++ [LoopInfo_new (zlen headers) block loop_blocks]), headers ++ [block], loop)
       | Some loop =>
           l ← arr_get (all_loops g) loop;
           l ← AddBlocks l loop_blocks;
           loops ← arr_set (all_loops g) loop l;
           Some (with_loops g (all_blocks g) loops, headers, loop)
       end);
    l ← arr_get (all_loops g) loop;
    loops ← arr_set (all_loops g) loop (AddBackEdge l pred);
    Some (with_loops g (all_blocks g) loops, headers)
  else Some (g, headers).
Fixpoint loop_block_preds (n : nat) (g : FlowGraph) (headers : list Z) (block i : Z) : option (FlowGraph * list Z) :=
  match n with
  | O => Some (g, headers)
  | S n =>
      b ← arr_get (all_blocks g) block;
      pred ← PredecessorAt b i;
      '(g, headers) ← loop_back_edge g headers block pred;
      loop_block_preds n g headers block (i + 1)
  end.
Fixpoint loop_headers (order : list Z) (g : FlowGraph) (headers : list Z) : option (FlowGraph * list Z) :=
  match order with
  | [] => Some (g, headers)
  | block :: order =>
      bs ← set_loop_info (all_blocks g) block None;
      b ← arr_get bs block;
      '(g, headers) ← loop_block_preds (Z.to_nat (PredecessorCount b)) (with_loops g bs (all_loops g)) headers block 0;
      loop_headers order g headers
  end.

(** ** The hierarchy *)
(** The blocks of a loop that are in no loop yet. *)
Fixpoint link_blocks (indices : list Z) (preorder : list Z) (loop : Z) (bs : Blocks) : option Blocks :=
  match indices with
  | [] => Some bs
  | i :: indices =>
      block ← arr_get preorder i;
      b ← arr_get bs block;
      bs ← (match loop_info_ b with None => set_loop_info bs block (Some loop) | Some _ => Some bs end);
      link_blocks indices preorder loop bs
  end.
Fixpoint link_loops (headers : list Z) (preorder : list Z) (loops : list LoopInfo) (bs : Blocks) : option Blocks :=
  match headers with
  | [] => Some bs
  | header :: headers =>
      hb ← arr_get bs header;
      loop ← loop_info_ hb;
      l ← arr_get loops loop;
      indices ← iterate (S (64 * length (data_ (blocks_ l)))) (blocks_ l);
      bs ← link_blocks indices preorder loop bs;
      link_loops headers preorder loops bs
  end.
Fixpoint build_hierarchy (headers : list Z) (bs : Blocks) (loops : list LoopInfo) (top : option Z) : option (list LoopInfo * option Z) :=
  match headers with
  | [] => Some (loops, top)
  | header :: headers =>
      hb ← arr_get bs header;
      loop ← loop_info_ hb;
      l ← arr_get loops loop;
      dominator ← dominator_ hb;
      db ← arr_get bs dominator;
      let dom_loop := loop_info_ db in
      is_in ← IsIn bs loops l dom_loop;
      if is_in : bool then
        o ← dom_loop;
        ol ← arr_get loops o;
        loops ← arr_set loops loop (with_links l (Some o) (inner_ l) (inner_ ol));
        ol ← arr_get loops o;
        loops ← arr_set loops o (with_links ol (outer_ ol) (Some loop) (next_ ol));
        build_hierarchy headers bs loops top
      else
        loops ← arr_set loops loop (with_links l (outer_ l) (inner_ l) top);
        build_hierarchy headers bs loops (Some loop)
  end.
Definition LoopHierarchy_Build (g : FlowGraph) (headers : list Z) : option (FlowGraph * LoopHierarchy) :=
  bs ← link_loops headers (preorder_blocks g) (all_loops g) (all_blocks g);
  '(loops, top) ← build_hierarchy headers bs (all_loops g) None;
  Some (with_loops g bs loops, MkLoopHierarchy headers top).
Definition ComputeLoops (g : FlowGraph) : option (FlowGraph * LoopHierarchy) :=
  '(g, headers) ← loop_headers (postorder_blocks g) g [];
  LoopHierarchy_Build g headers.
(** [FlowGraph::GetLoopHierarchy]: computed once. *)
Definition GetLoopHierarchy (g : FlowGraph) : option (FlowGraph * LoopHierarchy) :=
  match loop_hierarchy_ g with
  | Some h => Some (g, h)
  | None =>
      '(g, h) ← ComputeLoops g;
      Some (MkFlowGraph (graph_entry_ g) (all_blocks g) (all_phis g) (all_loops g) (preorder_blocks g) (postorder_blocks g)
              (reverse_postorder_blocks g) (parent_ g) (Some h) (loop_invariant_loads_ g), h)
  end.

(** ** Natural loops *)
(** [x] is in the natural loop of the edge from [m] to [h]: it is [h], or
    reaches [m] without passing [h]. *)
Definition natural (E : Z -> Z -> Prop) (h m x : Z) : Prop := x = h \/ exists p, walk E x p m /\ h ∉ x :: p.

Lemma natural_dom E h m x : dom E h m -> natural E h m x -> dom E h x.
Proof.
  intros Hm [->|(p & Hp & Hn)]; [apply dom_refl|]. intros q Hq. assert (h ∈ 0 :: q ++ p) by (apply Hm; by eapply walk_app). set_solver.
Qed.
Lemma natural_pred E h m x q : natural E h m x -> x <> h -> E q x -> natural E h m q.
Proof.
  intros [->|(p & Hp & Hn)] Hx Hq; [done|]. destruct (decide (q = h)) as [->|]; [by left|]. right. exists (x :: p).
  split; [by econstructor|set_solver].
Qed.
(** The natural loop is the least set with [h] and [m] that is closed under
    predecessors but for those of [h]. *)
Lemma natural_closed E h m (S : Z -> Prop) : S h -> S m -> (forall x q, S x -> x <> h -> E q x -> S q) -> forall x, natural E h m x -> S x.
Proof.
  intros Hh Hm Hcl x [->|(p & Hp & Hn)]; [done|]. revert Hn. induction Hp as [u|u v p w He Hw IH]; intros Hn; [done|].
  eapply Hcl; [apply IH; [done|set_solver]|set_solver|done].
Qed.

(** ** What the passes do to the blocks *)
Definition strip_loop (b : BlockEntryInstr) : BlockEntryInstr := with_loop_info b None.
Definition loop_frame (bs bs0 : Blocks) : Prop := strip_loop <$> bs = strip_loop <$> bs0.

Lemma loop_frame_get bs bs0 i b0 : loop_frame bs bs0 -> arr_get bs0 i = Some b0 -> exists b, arr_get bs i = Some b /\ strip_loop b = strip_loop b0.
Proof.
  intros Hf Hb. assert (arr_get (strip_loop <$> bs) i = Some (strip_loop b0)) as Hs by (rewrite Hf, arr_get_fmap, Hb; done).
  rewrite arr_get_fmap in Hs. destruct (arr_get bs i) as [b|]; [|done]. exists b. split; [done|]. by apply (inj Some).
Qed.
Lemma loop_frame_dominators bs bs0 : loop_frame bs bs0 -> dominator_ <$> bs = dominator_ <$> bs0.
Proof.
  intros Hf. change dominator_ with (dominator_ ∘ strip_loop). by rewrite (list_fmap_compose strip_loop), (list_fmap_compose strip_loop), Hf.
Qed.
Lemma Dominates_loop_ext bs bs0 fuel this cur : dominator_ <$> bs = dominator_ <$> bs0 -> Dominates_loop fuel bs this cur = Dominates_loop fuel bs0 this cur.
Proof.
  intros Hd. revert cur. induction fuel as [|fuel IH]; intros cur; [done|]. cbn [Dominates_loop]. destruct cur as [c|]; [|done]. destruct (c =? this); [done|].
  assert (dominator_ <$> arr_get bs c = dominator_ <$> arr_get bs0 c) as Hc by (by rewrite <- !arr_get_fmap, Hd).
  destruct (arr_get bs c), (arr_get bs0 c); simplify_eq/=; [rewrite Hc; apply IH|done].
Qed.
Lemma set_loop_info_spec bs bs0 a b loop : loop_frame bs bs0 -> arr_get bs a = Some b -> exists bs', set_loop_info bs a loop = Some bs' /\
  loop_frame bs' bs0 /\ forall c, arr_get bs' c = if a =? c then Some (with_loop_info b loop) else arr_get bs c.
Proof.
  intros Hf Hb. unfold set_loop_info. rewrite Hb. cbn [mbind option_bind].
  destruct (arr_set_ok bs a b (with_loop_info b loop) Hb) as [bs' Hset]. exists bs'. split_and!; [done| |intros c; by apply arr_get_set].
  unfold loop_frame in *. rewrite <- Hf. eapply arr_set_fmap; [exact Hset|exact Hb|done].
Qed.

Section Loops.
Context (g0 : FlowGraph) `{Hd : !Discovered g0} (g1 : FlowGraph) (idom : Z -> Z) `{Ht : !Dominated g0 g1 idom}.
Context (Hentry : forall b, arr_get (all_blocks g0) (graph_entry_ g0) = Some b -> dominator_ b = None).
Abbreviation E := (graph_edge g0).
Abbreviation pre := (preorder_blocks g0).
Abbreviation n := (block_count g0).

Lemma looped_block bs i a : loop_frame bs (all_blocks g1) -> arr_get pre i = Some a ->
  exists b, arr_get bs a = Some b /\ preorder_number_ b = i /\ (forall p, p ∈ pred_list b <-> exists u, arr_get pre u = Some p /\ E u i) /\
    (0 < i -> dominator_ b = arr_get pre (idom i)).
Proof using Hd Ht.
  intros Hf Ha. destruct (framed_block g0 (all_blocks g1) i a dt_frame Ha) as (b1 & Hb1 & Hn & _ & Hm & _).
  destruct (loop_frame_get _ _ _ _ Hf Hb1) as (b & Hb & Hs). exists b. split; [done|].
  assert (preorder_number_ b = preorder_number_ b1) as -> by exact (f_equal preorder_number_ Hs).
  assert (pred_list b = pred_list b1) as -> by exact (f_equal pred_list Hs).
  assert (dominator_ b = dominator_ b1) as -> by exact (f_equal dominator_ Hs). split_and!; [done..|].
  intros Hi. by eapply dt_dominator.
Qed.
Lemma looped_dominates g x y a c : loop_frame (all_blocks g) (all_blocks g1) -> preorder_blocks g = pre -> arr_get pre x = Some a -> arr_get pre y = Some c ->
  exists r, Dominates g a c = Some r /\ (r = true <-> dom E x y).
Proof using Hd Ht Hentry.
  intros Hf Hp Ha Hc. destruct (Dominates_spec g0 g1 idom x y a c Hd Ht Hentry Ha Hc) as (r & Hr & Hiff). exists r. split; [|done].
  rewrite <- Hr. unfold Dominates. destruct (dt_orders (g := g0) (g' := g1)) as (-> & _). rewrite Hp. by apply Dominates_loop_ext, loop_frame_dominators.
Qed.

(** ** The search for the blocks of a loop *)
(** [exempt] blocks may still have predecessors to be looked at. *)
Record loop_inv (h m : Z) (exempt : Z -> Prop) (stack : list Z) (v : BitVector) : Prop := {
  lo_wf : wf_vector n v;
  lo_sound : forall x, contents v x = true -> natural E h m x;
  lo_ends : contents v h = true /\ contents v m = true;
  lo_closed : forall x q, contents v x = true -> x <> h -> ~ exempt x -> E q x ->
    contents v q = true \/ exists a, arr_get pre x = Some a /\ a ∈ stack;
  lo_stack : forall a, a ∈ stack -> exists x, arr_get pre x = Some a /\ contents v x = true /\ x <> h }.
Definition missing (v : BitVector) : nat := length (filter (fun x => contents v x = false) (seqZ 0 n)).

Lemma missing_add v v' i : 0 <= i < n -> contents v i = false -> (forall j, contents v' j = if j =? i then true else contents v j) -> missing v = S (missing v').
Proof using.
  intros Hi Hv Hv'. unfold missing. replace n with (i + (1 + (n - i - 1))) by lia. rewrite !seqZ_app by lia. rewrite !list.filter_app, !length_app.
  replace (seqZ (0 + i) 1) with [i] by (rewrite Z.add_0_l; reflexivity). rewrite !list.filter_cons, !list.filter_nil.
  rewrite (filter_ext_in (fun x => contents v' x = false) (fun x => contents v x = false) (seqZ 0 i)).
  2: { intros x Hx%elem_of_seqZ. rewrite Hv'. by replace (x =? i) with false by lia. }
  rewrite (filter_ext_in (fun x => contents v' x = false) (fun x => contents v x = false) (seqZ (0 + i + 1) (n - i - 1))).
  2: { intros x Hx%elem_of_seqZ. rewrite Hv'. by replace (x =? i) with false by lia. }
  rewrite decide_True by done. rewrite decide_False by (rewrite Hv', Z.eqb_refl; done). simpl. lia.
Qed.
Lemma loop_preds_spec h m bs b w a : loop_frame bs (all_blocks g1) -> arr_get pre w = Some a -> arr_get bs a = Some b -> w <> h -> natural E h m w ->
  forall k i stack v, 0 <= i -> i + Z.of_nat k = PredecessorCount b -> contents v w = true -> loop_inv h m (fun x => x = w) stack v ->
  (forall j p u, 0 <= j < i -> arr_get (pred_list b) j = Some p -> arr_get pre u = Some p -> contents v u = true) ->
  exists stack' v', loop_preds k bs b i stack v = Some (stack', v') /\ loop_inv h m (fun _ => False) stack' v' /\
    (length stack' + missing v' <= length stack + missing v)%nat.
Proof using All.
  intros Hf Ha Hb Hw Hnat. destruct (looped_block bs w a Hf Ha) as (b' & Hb' & _ & Hm & _). simplify_eq.
  induction k as [|k IH]; intros i stack v Hi Hcount Hcw H Hseen.
  - exists stack, v. split_and!; [done| |lia]. split; try apply H. intros x q Hx Hxh _ Hq. destruct (decide (x = w)) as [->|]; [|by eapply lo_closed].
    left. pose proof Hq as (p & ? & Hp & _). assert (p ∈ pred_list b) as [j Hj]%arr_get_elem by (apply Hm; eauto). eapply Hseen; [|done..].
    apply arr_get_Some in Hj. rewrite PredecessorCount_list in Hcount. lia.
  - cbn [loop_preds]. rewrite PredecessorAt_list by lia. rewrite PredecessorCount_list in Hcount.
    destruct (arr_get_lt (pred_list b) i) as [p Hp]; [lia|]. rewrite Hp. cbn [mbind option_bind].
    assert (p ∈ pred_list b) as (u & Hu & Huw)%Hm by (apply arr_get_elem; eauto). pose proof (df_range _ _ Huw) as [Hur _].
    destruct (looped_block bs u p Hf Hu) as (pb & -> & Hpn & _). cbn [mbind option_bind]. rewrite Hpn.
    rewrite (BitVector_Contains_spec n v (lo_wf _ _ _ _ _ H) u Hur). cbn [mbind option_bind].
    assert (forall v', contents v' u = true -> (forall j, contents v j = true -> contents v' j = true) ->
      forall j p' u', 0 <= j < i + 1 -> arr_get (pred_list b) j = Some p' -> arr_get pre u' = Some p' -> contents v' u' = true) as Hnext.
    { intros v' Hcu Hmono j p' u' Hj Hp' Hu'. destruct (decide (j = i)) as [->|]; [|apply Hmono; eapply (Hseen j); [lia|done..]].
      assert (p' = p) as -> by congruence. by assert (u' = u) as -> by (eapply arr_get_inj; [apply dc_nodup|done..]). }
    destruct (contents v u) eqn:Hcu.
    + apply IH; [lia|rewrite PredecessorCount_list; lia|done|done|by apply Hnext].
    + destruct (BitVector_Add_spec n v (lo_wf _ _ _ _ _ H) u Hur) as (v' & -> & Hwf' & Hc'). cbn [mbind option_bind].
      assert (forall j, contents v j = true -> contents v' j = true) as Hmono by (intros j Hj; rewrite Hc'; by destruct (j =? u)).
      assert (contents v' u = true) as Hcu' by (by rewrite Hc', Z.eqb_refl).
      destruct (IH (i + 1) (p :: stack) v') as (stack2 & v2 & Hrun & Hinv & Hle); [lia|rewrite PredecessorCount_list; lia|auto| |by apply Hnext|].
      * split; try done.
        -- intros x. rewrite Hc'. destruct (Z.eqb_spec x u) as [->|]; [intros _; by eapply natural_pred|apply H].
        -- destruct (lo_ends _ _ _ _ _ H). auto.
        -- intros x q. rewrite Hc' at 1. destruct (Z.eqb_spec x u) as [->|]; [intros _ _ _ _; right; exists p; set_solver|]. intros Hx Hxh Hxe Hq.
           destruct (lo_closed _ _ _ _ _ H x q Hx Hxh Hxe Hq) as [?|(c & Hc & Hin)]; [auto|right; exists c; set_solver].
        -- intros c [->|Hc]%elem_of_cons; [exists u; split_and!; try done; intros ->; destruct (lo_ends _ _ _ _ _ H); congruence|].
           destruct (lo_stack _ _ _ _ _ H c Hc) as (x & Hx & Hcx & Hxh). exists x. auto.
      * exists stack2, v2. split_and!; [done..|]. pose proof (missing_add v v' u Hur Hcu Hc'). simpl in Hle. lia.
Qed.
Lemma loop_stack_spec h m bs fuel : loop_frame bs (all_blocks g1) -> forall stack v, (length stack + missing v < fuel)%nat ->
  loop_inv h m (fun _ => False) stack v ->
  exists v', loop_stack fuel bs stack v = Some v' /\ wf_vector n v' /\ forall x, contents v' x = true <-> natural E h m x.
Proof using All.
  intros Hf. induction fuel as [|fuel IH]; intros stack v Hfuel H; [lia|]. cbn [loop_stack]. destruct stack as [|a stack].
  - exists v. split_and!; [done|apply H..|]. intros x. split; [apply H|]. destruct (lo_ends _ _ _ _ _ H). revert x. apply natural_closed; [done..|].
    intros x q Hx Hxh Hq. destruct (lo_closed _ _ _ _ _ H x q Hx Hxh ltac:(tauto) Hq) as [?|(? & _ & ?)]; [done|set_solver].
  - destruct (lo_stack _ _ _ _ _ H a) as (w & Hw & Hcw & Hwh); [set_solver|]. destruct (looped_block bs w a Hf Hw) as (b & Hb & _). rewrite Hb. cbn [mbind option_bind].
    destruct (loop_preds_spec h m bs b w a Hf Hw Hb Hwh (lo_sound _ _ _ _ _ H w Hcw) (Z.to_nat (PredecessorCount b)) 0 stack v) as (stack' & v' & -> & H' & Hle);
      [lia|rewrite PredecessorCount_list; pose proof (zlen_nonneg (pred_list b)); lia|done| |intros; lia|].
    + split; try apply H.
      * intros x q Hx Hxh Hxe Hq. destruct (lo_closed _ _ _ _ _ H x q Hx Hxh ltac:(tauto) Hq) as [?|(c & Hc & [->|?]%elem_of_cons)]; [auto| |right; eauto].
        destruct Hxe. eapply arr_get_inj; [apply dc_nodup|done..].
      * intros c Hc. apply (lo_stack _ _ _ _ _ H). set_solver.
    + cbn [mbind option_bind]. apply IH; [simpl in Hfuel; lia|done].
Qed.
Lemma FindLoopBlocks_spec g h m hb mb : loop_frame (all_blocks g) (all_blocks g1) -> preorder_blocks g = pre -> arr_get pre h = Some hb -> arr_get pre m = Some mb ->
  exists v, FindLoopBlocks g mb hb = Some v /\ wf_vector n v /\ forall x, contents v x = true <-> natural E h m x.
Proof using All.
  intros Hf Hp Hh Hm. unfold FindLoopBlocks. rewrite Hp. destruct (looped_block _ h hb Hf Hh) as (b & -> & Hbn & _). cbn [mbind option_bind]. rewrite Hbn.
  pose proof (arr_get_Some _ _ _ Hh) as Hhr. pose proof (arr_get_Some _ _ _ Hm) as Hmr.
  destruct (BitVector_new_spec n ltac:(lia)) as [Hw0 Hc0]. destruct (BitVector_Add_spec n _ Hw0 h Hhr) as (v & -> & Hwv & Hcv). cbn [mbind option_bind].
  assert (missing (BitVector_new n) = S (missing v)) as Hmiss by (eapply missing_add; [exact Hhr|apply Hc0|exact Hcv]).
  assert (missing (BitVector_new n) <= length pre)%nat as Hall. { unfold missing. etransitivity; [apply length_filter|]. rewrite length_seqZ. unfold zlen. lia. }
  destruct (Z.eqb_spec hb mb) as [Heq|Hne].
  - cbn [mbind option_bind]. assert (m = h) as -> by (eapply arr_get_inj; [apply dc_nodup|exact Hm|by rewrite <- Heq]).
    apply loop_stack_spec; [done|simpl; lia|]. assert (forall x, contents v x = true -> x = h) as Hx.
    { intros x. rewrite Hcv, Hc0. destruct (Z.eqb_spec x h); done. }
    split; try done; [intros x ->%Hx; by left|by rewrite Hcv, Z.eqb_refl|intros x q ->%Hx; done|set_solver].
  - assert (m <> h) as Hmh by congruence. destruct (looped_block _ m mb Hf Hm) as (b' & -> & Hbn' & _). cbn [mbind option_bind]. rewrite Hbn'.
    destruct (BitVector_Add_spec n _ Hwv m Hmr) as (v2 & -> & Hwv2 & Hcv2). cbn [mbind option_bind].
    assert (missing v = S (missing v2)) as Hmiss2.
    { eapply missing_add; [exact Hmr| |exact Hcv2]. rewrite Hcv, Hc0. by replace (m =? h) with false by lia. }
    apply loop_stack_spec; [done|simpl; lia|]. assert (forall x, contents v2 x = true -> x = h \/ x = m) as Hx.
    { intros x. rewrite Hcv2, Hcv, Hc0. destruct (Z.eqb_spec x m), (Z.eqb_spec x h); auto; done. }
    split; try done.
    + intros x [->| ->]%Hx; [by left|right]. exists []. split; [constructor|set_solver].
    + rewrite !Hcv2, !Hcv, !Z.eqb_refl. split; [by destruct (h =? m)|done].
    + intros x q [->| ->]%Hx Hxh _ Hq; [done|right]. exists mb. set_solver.
    + intros c ->%list_elem_of_singleton. exists m. rewrite Hcv2, Z.eqb_refl. done.
Qed.

(** ** Loop headers *)
(** A back edge leads to a block that dominates its source; the loop of a header
    is made of the natural loops of its back edges. *)
Definition back_edge (x u : Z) : Prop := E u x /\ dom E x u.
Definition is_header (x : Z) : Prop := exists u, back_edge x u.
Definition in_loop (x z : Z) : Prop := exists u, back_edge x u /\ natural E x u z.
Definition header_loop (x a : Z) (l : LoopInfo) : Prop :=
  header_ l = a /\ wf_vector n (blocks_ l) /\ (forall z, contents (blocks_ l) z = true <-> in_loop x z) /\
  (forall p, p ∈ back_edges_ l <-> exists u, arr_get pre u = Some p /\ back_edge x u).

(** The back edges of [x] from its first [i] predecessors. *)
Definition back_before (b : BlockEntryInstr) (x i u : Z) : Prop :=
  exists j p, 0 <= j < i /\ arr_get (pred_list b) j = Some p /\ arr_get pre u = Some p /\ dom E x u.
Definition partial_loop (b : BlockEntryInstr) (x i a : Z) (l : LoopInfo) : Prop :=
  header_ l = a /\ wf_vector n (blocks_ l) /\ (forall z, contents (blocks_ l) z = true <-> exists u, back_before b x i u /\ natural E x u z) /\
  (forall p, p ∈ back_edges_ l <-> exists u, arr_get pre u = Some p /\ back_before b x i u) /\ outer_ l = None /\ inner_ l = None.
(** What the first [i] predecessors of the block [a] have done to the graph [g]
    with the headers [hs]: nothing, or a loop has been added. *)
Record partial_inv (g : FlowGraph) (hs : list Z) (b : BlockEntryInstr) (x a i : Z) (g' : FlowGraph) (hs' : list Z) : Prop := {
  pa_frame : loop_frame (all_blocks g') (all_blocks g1);
  pa_orders : preorder_blocks g' = pre /\ postorder_blocks g' = postorder_blocks g;
  pa_others : forall c, c <> a -> arr_get (all_blocks g') c = arr_get (all_blocks g) c;
  pa_loop : (forall u, ~ back_before b x i u) /\ (loop_info_ <$> arr_get (all_blocks g') a) = Some None /\ hs' = hs /\ all_loops g' = all_loops g \/
    exists u l, back_before b x i u /\ (loop_info_ <$> arr_get (all_blocks g') a) = Some (Some (zlen (all_loops g))) /\ hs' = hs ++ [a] /\
      all_loops g' = all_loops g ++ [l] /\ partial_loop b x i a l /\ id_ l = zlen hs }.

Lemma back_before_next b x i p u : 0 <= i -> arr_get (pred_list b) i = Some p -> arr_get pre u = Some p ->
  forall u', back_before b x (i + 1) u' <-> back_before b x i u' \/ (u' = u /\ dom E x u).
Proof using Hd.
  intros Hi Hp Hu u'. split.
  - intros (j & p' & Hj & Hp' & Hu' & Hdom). destruct (decide (j = i)) as [->|]; [right|left; exists j, p'; split_and!; try done; lia].
    assert (p' = p) as -> by congruence. assert (u' = u) as -> by (eapply arr_get_inj; [apply dc_nodup|done..]). done.
  - intros [(j & p' & Hj & ? & ? & ?)|[-> Hdom]]; [exists j, p'; split_and!; try done; lia|]. exists i, p. split_and!; try done; lia.
Qed.
Lemma last_loop (loops : list LoopInfo) l l' : arr_get (loops ++ [l]) (zlen loops) = Some l /\ arr_set (loops ++ [l]) (zlen loops) l' = Some (loops ++ [l']).
Proof using.
  split; [by rewrite arr_get_snoc, Z.eqb_refl|]. apply arr_set_Some. rewrite zlen_app. change (zlen [l]) with 1. split; [pose proof (zlen_nonneg loops); lia|].
  unfold zlen. by rewrite Nat2Z.id, insert_app_r_alt, Nat.sub_diag by lia.
Qed.

Lemma union_contents (v w v' : BitVector) : wf_vector n v -> wf_vector n w -> wf_vector n v' ->
  (forall z, 0 <= z < 64 * SizeFor n -> contents v' z = contents v z || contents w z) -> forall z, contents v' z = contents v z || contents w z.
Proof using.
  intros Hv Hw Hv' H z. destruct (decide (0 <= z < 64 * SizeFor n)) as [|Hz]; [by apply H|].
  assert (forall x, wf_vector n x -> contents x z = false) as Hout; [|by rewrite !Hout].
  intros x (_ & Hx & _). unfold contents. apply member_out. rewrite Hx. lia.
Qed.

(** One predecessor. *)
Lemma loop_back_edge_spec g hs b x a i g' hs' p u : arr_get pre x = Some a -> 0 <= i -> arr_get (pred_list b) i = Some p -> arr_get pre u = Some p ->
  partial_inv g hs b x a i g' hs' ->
  exists g2 hs2, loop_back_edge g' hs' a p = Some (g2, hs2) /\ partial_inv g hs b x a (i + 1) g2 hs2.
Proof using All.
  intros Hx Hi Hp Hu H. pose proof (back_before_next b x i p u Hi Hp Hu) as Hnext. destruct (pa_orders _ _ _ _ _ _ _ _ H) as [Hpre Hpost].
  pose proof (pa_frame _ _ _ _ _ _ _ _ H) as Hf. unfold loop_back_edge.
  destruct (looped_dominates g' x u a p Hf Hpre Hx Hu) as (r & -> & Hr). cbn [mbind option_bind]. destruct r.
  - assert (dom E x u) as Hdom by (by apply Hr). destruct (FindLoopBlocks_spec g' x u a p Hf Hpre Hx Hu) as (v & -> & Hwf & Hc). cbn [mbind option_bind].
    destruct (looped_block _ x a Hf Hx) as (b' & Hb' & _). rewrite Hb'. cbn [mbind option_bind].
    destruct (pa_loop _ _ _ _ _ _ _ _ H) as [(Hno & Hinfo & -> & Hloops)|(u0 & l & Hu0 & Hinfo & -> & Hloops & (Hl1 & Hl2 & Hl3 & Hl4 & Hl5 & Hl6) & Hid)];
      rewrite Hb' in Hinfo; injection Hinfo as Hinfo; rewrite Hinfo.
    + rewrite Hloops. destruct (set_loop_info_spec _ _ a b' (Some (zlen (all_loops g))) Hf Hb') as (bs & -> & Hf' & Hget). cbn [mbind option_bind].
      simpl. destruct (last_loop (all_loops g) (LoopInfo_new (zlen hs) a v) (AddBackEdge (LoopInfo_new (zlen hs) a v) p)) as [-> Hset]. cbn [mbind option_bind].
      rewrite Hset. cbn [mbind option_bind]. eexists _, _. split; [done|]. split; simpl; try done.
      * intros c Hc'. rewrite Hget. replace (a =? c) with false by lia. by apply (pa_others _ _ _ _ _ _ _ _ H).
      * right. eexists u, _. split_and!; [apply Hnext; auto|by rewrite Hget, Z.eqb_refl|done|done| |done]. split_and!; simpl; try done.
        -- intros z. rewrite Hc. split; [intros Hz; exists u; split; [apply Hnext; auto|done]|]. intros (u' & [Hu'|[-> _]]%Hnext & Hz); [by apply Hno in Hu'|done].
        -- intros q. rewrite list_elem_of_singleton. split; [intros ->; exists u; split; [done|apply Hnext; auto]|].
           intros (u' & Hq & [Hu'|[-> _]]%Hnext); [by apply Hno in Hu'|congruence].
    + rewrite Hloops. destruct (last_loop (all_loops g) l l) as [-> _]. cbn [mbind option_bind]. unfold AddBlocks.
      destruct (BitVector_AddAll_spec n _ Hl2 v Hwf) as (ch & v' & -> & Hwf' & Hc' & _). cbn [mbind option_bind].
      destruct (last_loop (all_loops g) l (with_blocks l v' (back_edges_ l))) as [_ ->]. cbn [mbind option_bind]. simpl.
      destruct (last_loop (all_loops g) (with_blocks l v' (back_edges_ l)) (AddBackEdge (with_blocks l v' (back_edges_ l)) p)) as [-> Hset]. cbn [mbind option_bind].
      rewrite Hset. cbn [mbind option_bind].
      eexists _, _. split; [done|]. split; simpl; try done; [apply H|]. right. eexists u, _. split_and!; [apply Hnext; auto|by rewrite Hb'; simpl; rewrite Hinfo|done|done| |done].
      split_and!; simpl; try done.
      * intros z. rewrite (union_contents _ _ _ Hl2 Hwf Hwf' Hc' z), orb_true_iff, Hl3, Hc. split.
        -- intros [(u' & Hu' & Hz)|Hz]; [exists u'|exists u]; split; try done; apply Hnext; auto.
        -- intros (u' & [Hu'|[-> _]]%Hnext & Hz); [left; eauto|auto].
      * intros q. rewrite elem_of_app, list_elem_of_singleton, Hl4. split.
        -- intros [(u' & Hq & Hu')| ->]; [exists u'|exists u]; split; try done; apply Hnext; auto.
        -- intros (u' & Hq & [Hu'|[-> _]]%Hnext); [left; eauto|right; congruence].
  - assert (~ dom E x u) as Hnd by (intros Hdom%Hr; done). exists g', hs'. split; [done|].
    assert (forall u', back_before b x (i + 1) u' <-> back_before b x i u') as Hsame by (intros u'; rewrite Hnext; tauto).
    split; try apply H. destruct (pa_loop _ _ _ _ _ _ _ _ H) as [(Hno & Hrest)|(u0 & l & Hu0 & H1 & H2 & H3 & (Hl1 & Hl2 & Hl3 & Hl4 & Hl5 & Hl6) & Hid)].
    + left. split; [|done]. intros u'. by rewrite Hsame.
    + right. exists u0, l. rewrite Hsame. split_and!; try done. split_and!; try done.
      * intros z. rewrite Hl3. by setoid_rewrite Hsame.
      * intros q. rewrite Hl4. by setoid_rewrite Hsame.
Qed.

Lemma loop_block_preds_spec g hs b x a : arr_get pre x = Some a -> (forall bs b', loop_frame bs (all_blocks g1) -> arr_get bs a = Some b' -> pred_list b' = pred_list b) ->
  (forall p, p ∈ pred_list b -> exists u, arr_get pre u = Some p) ->
  forall k i g' hs', 0 <= i -> i + Z.of_nat k = zlen (pred_list b) -> partial_inv g hs b x a i g' hs' ->
  exists g2 hs2, loop_block_preds k g' hs' a i = Some (g2, hs2) /\ partial_inv g hs b x a (zlen (pred_list b)) g2 hs2.
Proof using All.
  intros Hx Hsame Hpreds. induction k as [|k IH]; intros i g' hs' Hi Hk H; cbn [loop_block_preds].
  - exists g', hs'. split; [done|]. by replace (zlen (pred_list b)) with i by lia.
  - pose proof (pa_frame _ _ _ _ _ _ _ _ H) as Hf. destruct (looped_block _ x a Hf Hx) as (b' & Hb' & _). rewrite Hb'. cbn [mbind option_bind].
    rewrite PredecessorAt_list by (rewrite PredecessorCount_list, (Hsame _ _ Hf Hb'); lia). rewrite (Hsame _ _ Hf Hb').
    destruct (arr_get_lt (pred_list b) i) as [p Hp]; [lia|]. rewrite Hp. cbn [mbind option_bind].
    destruct (Hpreds p) as [u Hu]; [apply arr_get_elem; eauto|].
    destruct (loop_back_edge_spec g hs b x a i g' hs' p u Hx Hi Hp Hu H) as (g2 & hs2 & -> & H2). cbn [mbind option_bind].
    apply IH; [lia|lia|done].
Qed.

Lemma back_before_all b x : (forall p, p ∈ pred_list b <-> exists u, arr_get pre u = Some p /\ E u x) ->
  forall u, back_before b x (zlen (pred_list b)) u <-> back_edge x u.
Proof using Hd.
  intros Hm u. split.
  - intros (j & p & Hj & Hp & Hu & Hdom). split; [|done]. assert (p ∈ pred_list b) as (u' & Hu' & He)%Hm by (apply arr_get_elem; eauto).
    by assert (u' = u) as <- by (eapply arr_get_inj; [apply dc_nodup|done..]).
  - intros [He Hdom]. pose proof He as (p & ? & Hp & _). assert (p ∈ pred_list b) as [j Hj]%arr_get_elem by (apply Hm; eauto).
    exists j, p. split_and!; try done; apply (arr_get_Some _ _ _ Hj).
Qed.

(** The graph when the blocks of [done] have been looked at; the graph had [k0]
    loops before. *)
Record headers_inv (k0 : Z) (done : list Z) (g : FlowGraph) (hs : list Z) : Prop := {
  hi_frame : loop_frame (all_blocks g) (all_blocks g1);
  hi_orders : preorder_blocks g = pre /\ postorder_blocks g = postorder_blocks g1;
  hi_headers : forall x a, arr_get pre x = Some a -> a ∈ hs <-> a ∈ done /\ is_header x;
  hi_order : hs `sublist_of` done;
  hi_count : zlen (all_loops g) = k0 + zlen hs;
  hi_loops : forall i a, arr_get hs i = Some a -> exists x l, arr_get pre x = Some a /\ arr_get (all_loops g) (k0 + i) = Some l /\ header_loop x a l /\
    id_ l = i /\ outer_ l = None /\ inner_ l = None /\ (loop_info_ <$> arr_get (all_blocks g) a) = Some (Some (k0 + i));
  hi_none : forall a, a ∈ done -> a ∉ hs -> (loop_info_ <$> arr_get (all_blocks g) a) = Some None }.

Lemma headers_step k0 done g hs x a : 0 <= k0 -> headers_inv k0 done g hs -> arr_get pre x = Some a -> a ∉ done ->
  exists bs b g2 hs2, set_loop_info (all_blocks g) a None = Some bs /\ arr_get bs a = Some b /\
    loop_block_preds (Z.to_nat (PredecessorCount b)) (with_loops g bs (all_loops g)) hs a 0 = Some (g2, hs2) /\ headers_inv k0 (done ++ [a]) g2 hs2.
Proof using All.
  intros Hk0 H Hx Hnew. destruct (hi_orders _ _ _ _ H) as [Hpre Hpost]. pose proof (hi_frame _ _ _ _ H) as Hf.
  destruct (looped_block _ x a Hf Hx) as (b0 & Hb0 & _). destruct (set_loop_info_spec _ _ a b0 None Hf Hb0) as (bs & -> & Hfbs & Hget).
  assert (arr_get bs a = Some (with_loop_info b0 None)) as Hb by (by rewrite Hget, Z.eqb_refl).
  remember (with_loop_info b0 None) as b eqn:Heqb. destruct (looped_block _ x a Hfbs Hx) as (b' & Hb' & _ & Hm & _). rewrite Hb in Hb'. injection Hb' as <-.
  assert (a ∉ hs) as Hahs by (intros ?; apply Hnew; eapply elem_of_sublist; [done|apply H]).
  destruct (loop_block_preds_spec (with_loops g bs (all_loops g)) hs b x a Hx) with (k := Z.to_nat (PredecessorCount b)) (i := 0) (g' := with_loops g bs (all_loops g)) (hs' := hs)
    as (g2 & hs2 & Hrun & P).
  { intros bs' b' Hf' Hb'. destruct (loop_frame_get _ _ a b' (eq_sym Hf') ltac:(done)) as (b1 & Hb1 & Hs1). 
    destruct (loop_frame_get _ _ a b1 Hfbs Hb1) as (b2 & Hb2 & Hs2). assert (b2 = b) as -> by congruence. exact (f_equal pred_list (eq_trans (eq_sym Hs1) (eq_sym Hs2))). }
  { intros p (u & Hu & _)%Hm. eauto. }
  { lia. }
  { rewrite PredecessorCount_list. pose proof (zlen_nonneg (pred_list b)). lia. }
  { split; try done. left. split_and!; try done; [|by simpl; rewrite Hb, Heqb]. intros u (j & _ & ? & _). lia. }
  exists bs, b, g2, hs2. split_and!; [done..|].
  pose proof (back_before_all b x Hm) as Hall.
  assert (forall y c, arr_get pre y = Some c -> c = a -> y = x) as Hinj by (intros y c Hy ->; eapply arr_get_inj; [apply dc_nodup|done..]).
  assert (forall c, c <> a -> arr_get (all_blocks g2) c = arr_get (all_blocks g) c) as Hoth.
  { intros c Hc. rewrite (pa_others _ _ _ _ _ _ _ _ P c Hc). simpl. rewrite Hget. by replace (a =? c) with false by lia. }
  destruct (pa_orders _ _ _ _ _ _ _ _ P) as [Hpre2 Hpost2].
  destruct (pa_loop _ _ _ _ _ _ _ _ P) as [(Hno & Hinfo & -> & Hloops)|(u & l & Hu & Hinfo & -> & Hloops & (Hl1 & Hl2 & Hl3 & Hl4 & Hl5 & Hl6) & Hid)]; simpl in Hloops.
  - split; try done.
    + apply P.
    + split; [done|]. simpl in Hpost2. congruence.
    + intros y c Hy. rewrite (hi_headers _ _ _ _ H y c Hy), elem_of_app, list_elem_of_singleton. split; [tauto|].
      intros [[?| ->] [u Hu]]; [split; [done|by exists u]|]. assert (y = x) as -> by eauto. exfalso. by apply (Hno u), Hall.
    + apply sublist_inserts_r, H.
    + rewrite Hloops. apply H.
    + intros i c Hc. destruct (hi_loops _ _ _ _ H i c Hc) as (y & l & ? & ? & ? & ? & ? & ? & Hlc). exists y, l. rewrite Hloops, Hoth; [done|].
      intros ->. apply Hahs, arr_get_elem. eauto.
    + intros c [Hc|Hc%list_elem_of_singleton]%elem_of_app Hn; [rewrite Hoth; [by apply (hi_none _ _ _ _ H)|by intros ->]|by subst].
  - simpl in Hinfo. pose proof (hi_count _ _ _ _ H) as Hcount. split; try done.
    + apply P.
    + split; [done|]. simpl in Hpost2. congruence.
    + intros y c Hy. rewrite !elem_of_app, !list_elem_of_singleton, (hi_headers _ _ _ _ H y c Hy). split.
      * intros [[? ?]| ->]; [auto|]. assert (y = x) as -> by eauto. split; [auto|]. exists u. by apply Hall.
      * intros [[?| ->] ?]; auto.
    + apply sublist_app; [apply H|done].
    + rewrite Hloops, !zlen_app. change (zlen [l]) with 1. change (zlen [a]) with 1. lia.
    + intros i c Hc. rewrite arr_get_snoc in Hc. destruct (Z.eqb_spec i (zlen hs)) as [->|].
      * injection Hc as <-. exists x, l. rewrite Hloops, <- Hcount, arr_get_snoc, Z.eqb_refl. split_and!; try done.
        split_and!; try done; [intros z; rewrite Hl3; by setoid_rewrite Hall|intros p; rewrite Hl4; by setoid_rewrite Hall].
      * destruct (hi_loops _ _ _ _ H i c Hc) as (y & l' & ? & ? & ? & ? & ? & ? & Hlc). exists y, l'. rewrite Hloops, Hoth, arr_get_snoc.
        -- replace (k0 + i =? zlen (all_loops g)) with false by lia. done.
        -- intros ->. apply Hahs, arr_get_elem. eauto.
    + intros c [Hc|Hc%list_elem_of_singleton]%elem_of_app Hn; [rewrite Hoth; [apply (hi_none _ _ _ _ H); set_solver|by intros ->]|subst; set_solver].
Qed.
Lemma loop_headers_spec k0 order : 0 <= k0 -> forall done g hs, headers_inv k0 done g hs -> NoDup (done ++ order) -> (forall a, a ∈ order -> a ∈ pre) ->
  exists g2 hs2, loop_headers order g hs = Some (g2, hs2) /\ headers_inv k0 (done ++ order) g2 hs2.
Proof using All.
  intros Hk0. induction order as [|a order IH]; intros done g hs H Hnd Hin; cbn [loop_headers].
  - exists g, hs. by rewrite app_nil_r.
  - assert (a ∈ pre) as [x Hx]%arr_get_elem by set_solver.
    destruct (headers_step k0 done g hs x a Hk0 H Hx) as (bs & b & g2 & hs2 & Hset & Hget & Hrun & H2); [apply list.NoDup_app in Hnd as (_ & Hd' & _); intros ?%Hd'; set_solver|].
    rewrite Hset. cbn [mbind option_bind]. rewrite Hget. cbn [mbind option_bind]. rewrite Hrun. cbn [mbind option_bind].
    destruct (IH (done ++ [a]) g2 hs2 H2) as (g3 & hs3 & -> & H3); [by rewrite <- app_assoc|set_solver|]. exists g3, hs3. by rewrite <- app_assoc in H3.
Qed.

(** ** Nesting *)
Lemma in_loop_dom x z : in_loop x z -> dom E x z.
Proof using. intros (u & [_ Hdom] & Hz). by eapply natural_dom. Qed.
Lemma in_loop_header x z : in_loop x z -> is_header x /\ in_loop x x.
Proof using. intros (u & Hu & _). split; [by exists u|]. exists u. split; [done|by left]. Qed.
Lemma in_loop_range x z : in_loop x z -> 0 <= z < n.
Proof using Hd.
  intros (u & [He _] & [->|(p & Hp & _)]); pose proof (df_range _ _ He); [lia|]. destruct Hp as [w|w v p w' Hv _]; [lia|]. pose proof (df_range _ _ Hv). lia.
Qed.
(** A block that leads to [z] on a walk past [y] is in every loop of [y] that holds [z]. *)
Lemma in_loop_back y z x p : in_loop y z -> walk E x p z -> (x <> y -> y ∉ p) -> in_loop y x.
Proof using.
  clear Hentry Ht Hd idom g1. intros (u & Hu & Hz) Hp Hn. exists u. split; [done|]. destruct (decide (x = y)) as [->|Hxy]; [by left|]. specialize (Hn Hxy). right.
  destruct Hz as [->|(q & Hq & Hnq)].
  - destruct (decide (p = [])) as [->|Hne]; [inversion Hp; by subst|]. apply walk_end in Hp. set_solver.
  - exists (p ++ q). split; [by eapply walk_app|set_solver].
Qed.
(** Two loops that share a block are nested. *)
Lemma in_loop_nested x y z : in_loop x z -> in_loop y z -> y <= x -> in_loop y x.
Proof using Hd.
  intros Hx Hy Hle. pose proof (in_loop_range _ _ Hx) as Hz. pose proof (dom_anc _ _ (in_loop_dom _ _ Hx) Hz) as Hanc.
  destruct (tree_walk x z Hanc Hz) as (p & Hp & Hin). eapply in_loop_back; [done..|]. intros _ Hyp%Hin. lia.
Qed.
(** An enclosing loop of a header holds the header's immediate dominator. *)
Lemma in_loop_idom x y d : in_loop y x -> y <> x -> is_idom E d x -> in_loop y d.
Proof using Hd.
  intros Hy Hne Hi. pose proof (in_loop_range _ _ Hy) as Hx. pose proof (in_loop_dom _ _ Hy) as Hdom.
  assert (dom E y d) as Hyd by (apply Hi; done). assert (dom E d x) as Hdx by apply Hi. pose proof (dom_le _ _ Hdx Hx) as Hdr.
  assert (0 <= d < n) as Hdn by lia. pose proof (dom_le _ _ Hyd Hdn) as Hyr.
  destruct (tree_walk d x (dom_anc _ _ Hdx Hx) Hx) as (p & Hp & Hin). eapply in_loop_back; [done..|]. intros _ Hyp%Hin. lia.
Qed.
Lemma header_pos x : is_header x -> 0 < x < n.
Proof using Hd. intros (u & He & _). pose proof (df_range _ _ He). destruct (decide (x = 0)) as [->|]; [by apply df_entry in He|lia]. Qed.

(** ** Closest loops *)
Definition info_of (bs : Blocks) (a : Z) : option Z := arr_get bs a ≫= loop_info_.

Lemma info_of_set bs bs0 a b loop bs' : loop_frame bs bs0 -> arr_get bs a = Some b -> set_loop_info bs a loop = Some bs' ->
  forall c, info_of bs' c = if a =? c then loop else info_of bs c.
Proof using.
  intros Hf Hb Hset c. destruct (set_loop_info_spec bs bs0 a b loop Hf Hb) as (bs2 & Hset2 & _ & Hget). simplify_eq. unfold info_of.
  rewrite Hget. by destruct (a =? c).
Qed.
Lemma link_blocks_spec loop indices : forall bs, loop_frame bs (all_blocks g1) -> (forall i, i ∈ indices -> 0 <= i < n) ->
  exists bs', link_blocks indices pre loop bs = Some bs' /\ loop_frame bs' (all_blocks g1) /\
    forall x a, arr_get pre x = Some a -> info_of bs' a = match info_of bs a with Some l => Some l | None => if bool_decide (x ∈ indices) then Some loop else None end.
Proof using All.
  induction indices as [|i indices IH]; intros bs Hf Hr; cbn [link_blocks].
  - exists bs. split_and!; [done..|]. intros x a _. destruct (info_of bs a); [done|]. by rewrite bool_decide_false by set_solver.
  - destruct (arr_get_lt pre i) as [c Hc]; [apply Hr; set_solver|]. rewrite Hc. cbn [mbind option_bind].
    destruct (looped_block bs i c Hf Hc) as (b & Hb & _). rewrite Hb. cbn [mbind option_bind].
    assert (info_of bs c = loop_info_ b) as Hinfo by (unfold info_of; by rewrite Hb).
    assert (exists bs1, (match loop_info_ b with None => set_loop_info bs c (Some loop) | Some _ => Some bs end) = Some bs1 /\ loop_frame bs1 (all_blocks g1) /\
      forall a, info_of bs1 a = if c =? a then Some (default loop (info_of bs c)) else info_of bs a) as (bs1 & -> & Hf1 & Hi1).
    { rewrite <- Hinfo. destruct (info_of bs c) as [l|] eqn:Hl.
      - exists bs. split_and!; [done..|]. intros a. by destruct (Z.eqb_spec c a) as [->|].
      - destruct (set_loop_info_spec bs _ c b (Some loop) Hf Hb) as (bs1 & Hset & Hf1 & _). exists bs1. split_and!; [done..|].
        by eapply info_of_set. }
    cbn [mbind option_bind]. destruct (IH bs1 Hf1) as (bs' & -> & Hf' & Hi'); [set_solver|]. exists bs'. split_and!; [done..|].
    intros x a Ha. rewrite (Hi' x a Ha), Hi1. destruct (Z.eqb_spec c a) as [->|Hne].
    + assert (x = i) as -> by (eapply arr_get_inj; [apply dc_nodup|done..]). destruct (info_of bs a); simpl; [done|]. by rewrite bool_decide_true by set_solver.
    + destruct (info_of bs a); [done|]. assert (x <> i) by congruence. by rewrite (bool_decide_ext (x ∈ indices) (x ∈ i :: indices)) by set_solver.
Qed.

(** The first of the headers [hs] whose loop holds [x]. *)
Definition first_header (hs : list Z) (x y c : Z) : Prop :=
  arr_get pre y = Some c /\ in_loop y x /\ exists before after, hs = before ++ c :: after /\
    forall c' y', c' ∈ before -> arr_get pre y' = Some c' -> ~ in_loop y' x.
Definition loops_at (loops : list LoopInfo) (bs : Blocks) (hs : list Z) : Prop :=
  forall c, c ∈ hs -> exists y k l, arr_get pre y = Some c /\ info_of bs c = Some k /\ arr_get loops k = Some l /\
    wf_vector n (blocks_ l) /\ forall z, contents (blocks_ l) z = true <-> in_loop y z.

Lemma elements_of v z : wf_vector n v -> z ∈ elements_from v 0 <-> contents v z = true.
Proof using.
  intros Hv. unfold elements_from. rewrite list_elem_of_filter, elem_of_seqZ. split; [tauto|]. intros Hz. split; [done|].
  destruct (decide (0 <= z < 64 * zlen (data_ v))); [lia|]. unfold contents in Hz. rewrite member_out in Hz; [done|lia].
Qed.
Lemma link_loops_spec loops hs : forall bs, loop_frame bs (all_blocks g1) -> loops_at loops bs hs ->
  exists bs', link_loops hs pre loops bs = Some bs' /\ loop_frame bs' (all_blocks g1) /\
    forall x a, arr_get pre x = Some a -> match info_of bs a with
    | Some l => info_of bs' a = Some l
    | None => (exists y c, first_header hs x y c /\ info_of bs' a = info_of bs c) \/
        ((forall y c, c ∈ hs -> arr_get pre y = Some c -> ~ in_loop y x) /\ info_of bs' a = None)
    end.
Proof using All.
  induction hs as [|c hs IH]; intros bs Hf Hl; cbn [link_loops].
  - exists bs. split_and!; [done..|]. intros x a Ha. destruct (info_of bs a) eqn:Hi; [done|]. right. split; [set_solver|done].
  - destruct (Hl c) as (y & k & l & Hy & Hk & Hget & Hwf & Hc); [set_solver|]. destruct (looped_block bs y c Hf Hy) as (cb & Hcb & _).
    pose proof Hk as Hk'. unfold info_of in Hk'. rewrite Hcb in *. cbn [mbind option_bind] in *. rewrite Hk'. cbn [mbind option_bind]. rewrite Hget. cbn [mbind option_bind].
    rewrite (BitVector_iterate_exact n) by (done || (pose proof (arr_get_Some _ _ _ Hy); lia) || (destruct Hwf as (_ & <- & _); unfold zlen; lia)).
    cbn [mbind option_bind].
    destruct (link_blocks_spec k (elements_from (blocks_ l) 0) bs Hf) as (bs1 & -> & Hf1 & Hi1).
    { intros i Hi%elements_of; [|done]. by eapply in_loop_range, Hc. }
    cbn [mbind option_bind]. assert (forall a k', a ∈ pre -> info_of bs a = Some k' -> info_of bs1 a = Some k') as Hkeep.
    { intros a k' [x Ha]%arr_get_elem Hak. by rewrite (Hi1 x a Ha), Hak. }
    destruct (IH bs1 Hf1) as (bs' & -> & Hf' & Hi').
    { intros c' Hc'. destruct (Hl c') as (y' & k' & l' & Hy' & Hk1 & Hrest); [set_solver|]. exists y', k', l'. split_and!; try apply Hrest; [done|].
      apply Hkeep; [apply arr_get_elem; eauto|done]. }
    exists bs'. split_and!; [done..|]. intros x a Ha. specialize (Hi' x a Ha). rewrite (Hi1 x a Ha) in Hi'. destruct (info_of bs a) as [k'|] eqn:Hia; [done|].
    case_bool_decide as Hin; rewrite elements_of in Hin by done; rewrite Hc in Hin.
    + left. exists y, c. split; [|by rewrite Hi', Hk]. split_and!; [done..|]. exists [], hs. split; [done|set_solver].
    + destruct Hi' as [(y2 & c2 & (Hy2 & Hin2 & before & after & -> & Hbefore) & Hi2)|[Hno Hi2]].
      * left. exists y2, c2. split.
        -- split_and!; [done..|]. exists (c :: before), after. split; [done|]. intros c' y' [->|Hc']%elem_of_cons Hy'; [|by eapply Hbefore].
           by assert (y' = y) as -> by (eapply arr_get_inj; [apply dc_nodup|done..]).
        -- rewrite Hi2. destruct (Hl c2) as (? & k2 & _ & _ & Hk2 & _); [set_solver|]. rewrite Hk2. apply Hkeep; [apply arr_get_elem; eauto|done].
      * right. split; [|done]. intros y' c' [->|Hc']%elem_of_cons Hy'; [|by eapply Hno].
        by assert (y' = y) as -> by (eapply arr_get_inj; [apply dc_nodup|done..]).
Qed.

(** ** Order of the headers *)
Context (Hpo : postorder_of g0).
Lemma descendant_earlier x y a i : anc (tree_parent g0) x y -> x <> y -> 0 <= y < n -> arr_get pre x = Some a -> arr_get (postorder_blocks g0) i = Some a ->
  exists j c, j < i /\ arr_get pre y = Some c /\ arr_get (postorder_blocks g0) j = Some c.
Proof using Hd Hpo.
  intros Hanc. induction Hanc as [|y Hy Hanc IH]; intros Hne Hyr Ha Hi; [done|].
  assert (0 < y < n) as Hy1 by lia. destruct (df_parent y Hy1) as [He Hp]. assert (0 <= tree_parent g0 y < n) as Hpn by lia. pose proof He as (pb & c & Hpb & Hc & Hflow).
  assert (exists j, j <= i /\ arr_get (postorder_blocks g0) j = Some pb) as (j & Hj & Hjp).
  { destruct (decide (x = tree_parent g0 y)) as [->|Hxp]; [exists i; split; [lia|congruence]|]. destruct (IH Hxp Hpn Ha Hi) as (j & c' & ? & ? & ?).
    exists j. split; [lia|congruence]. }
  destruct Hpo as (_ & _ & _ & Hed). destruct (Hed j pb c Hjp Hflow) as [(j' & Hlt & Hj')|(u & v & Hu & Hv & Huv)].
  - exists j', c. split_and!; [lia|done..].
  - exfalso. assert (u = y) as -> by (eapply arr_get_inj; [apply dc_nodup|done..]). assert (v = tree_parent g0 y) as -> by (eapply arr_get_inj; [apply dc_nodup|done..]).
    pose proof (anc_le _ _ Huv Hpn). lia.
Qed.

Lemma pair_sublist (l : list Z) (c c' : Z) : [c; c'] `sublist_of` l <-> exists i j, (i < j)%nat /\ l !! i = Some c /\ l !! j = Some c'.
Proof using.
  clear. split.
  - induction l as [|d l IH]; intros H; [by apply sublist_nil_r in H|]. apply sublist_cons_r in H as [H|(l' & Heq & H)].
    + destruct (IH H) as (i & j & ? & ? & ?). exists (S i), (S j). split_and!; [lia|done..].
    + injection Heq as <- <-. apply singleton_sublist_l, list_elem_of_lookup in H as [j Hj]. exists O, (S j). split_and!; [lia|done..].
  - intros (i & j & Hij & Hi & Hj). rewrite <- (take_drop_middle l i c Hi). apply sublist_inserts_l. constructor. apply singleton_sublist_l.
    apply list_elem_of_lookup. exists (j - S i)%nat. rewrite lookup_drop. by replace (S i + (j - S i))%nat with j by lia.
Qed.
Lemma arr_get_nat (l : list Z) i c : arr_get l i = Some c <-> 0 <= i /\ l !! Z.to_nat i = Some c.
Proof using. clear. unfold arr_get. zifs; [split; [intros; split; [lia|done]|tauto]|split; [done|intros [? ?]; lia]]. Qed.
(** The header of an inner loop comes before that of an outer one. *)
Lemma header_order hs i j x y c c' : hs `sublist_of` postorder_blocks g0 -> arr_get hs i = Some c -> arr_get hs j = Some c' ->
  arr_get pre x = Some c -> arr_get pre y = Some c' -> dom E x y -> x <> y -> j < i.
Proof using Hd Hpo.
  intros Hsub Hi Hj Hx Hy Hdom Hne. destruct (Z.lt_total j i) as [|[->|Hlt]]; [done|exfalso; apply Hne; eapply arr_get_inj; [apply dc_nodup|done|congruence]|exfalso].
  pose proof (arr_get_Some _ _ _ Hy) as Hyr. pose proof (dom_anc _ _ Hdom Hyr) as Hanc. pose proof (arr_get_Some _ _ _ Hi) as Hir. pose proof (arr_get_Some _ _ _ Hj) as Hjr.
  apply arr_get_nat in Hi as [_ Hi]. apply arr_get_nat in Hj as [_ Hj].
  assert ([c; c'] `sublist_of` postorder_blocks g0) as (p & q & Hpq & Hp & Hq)%pair_sublist.
  { etransitivity; [|exact Hsub]. apply pair_sublist. exists (Z.to_nat i), (Z.to_nat j). split_and!; [lia|done..]. }
  assert (NoDup (postorder_blocks g0)) as Hnd by (rewrite (proj1 Hpo); apply dc_nodup).
  destruct (descendant_earlier x y c (Z.of_nat p) Hanc Hne Hyr Hx) as (p' & c2 & Hlt' & Hc2 & Hp'); [apply arr_get_nat; rewrite Nat2Z.id; split; [lia|done]|].
  assert (c2 = c') as -> by congruence. apply arr_get_nat in Hp' as [Hp0 Hp'].
  assert (q = Z.to_nat p') by (eapply NoDup_lookup; done). lia.
Qed.
Lemma header_unique x y : in_loop x y -> in_loop y x -> x = y.
Proof using Hd.
  intros H1 H2. pose proof (dom_le _ _ (in_loop_dom _ _ H1) (in_loop_range _ _ H1)). pose proof (dom_le _ _ (in_loop_dom _ _ H2) (in_loop_range _ _ H2)). lia.
Qed.

(** [y] is the header of the closest loop around [x]. *)
Definition closest (y x : Z) : Prop := in_loop y x /\ forall y', in_loop y' x -> in_loop y' y.
Lemma closest_unique y y' x : closest y x -> closest y' x -> y = y'.
Proof using Hd. intros [H1 H2] [H3 H4]. apply header_unique; auto. Qed.
Lemma closest_self x : is_header x -> closest x x.
Proof using. intros [u Hu]. split; [|done]. exists u. split; [done|by left]. Qed.

Definition linked (k0 : Z) (hs : list Z) (bs : Blocks) : Prop := forall x a, arr_get pre x = Some a ->
  (info_of bs a = None /\ forall y, ~ in_loop y x) \/
  exists y c i, arr_get pre y = Some c /\ arr_get hs i = Some c /\ info_of bs a = Some (k0 + i) /\ closest y x.

Lemma link_loops_closest k0 g hs : headers_inv k0 (postorder_blocks g0) g hs ->
  exists bs, link_loops hs pre (all_loops g) (all_blocks g) = Some bs /\ loop_frame bs (all_blocks g1) /\ linked k0 hs bs.
Proof using All.
  intros H. assert (forall x a, arr_get pre x = Some a -> a ∈ hs <-> is_header x) as Hhs.
  { intros x a Ha. rewrite (hi_headers _ _ _ _ H x a Ha). split; [tauto|]. intros Hh. split; [|done]. rewrite (proj1 Hpo). apply arr_get_elem. eauto. }
  assert (forall c, c ∈ hs -> exists i, arr_get hs i = Some c /\ info_of (all_blocks g) c = Some (k0 + i)) as Hinfo.
  { intros c [i Hi]%arr_get_elem. exists i. split; [done|]. destruct (hi_loops _ _ _ _ H i c Hi) as (_ & _ & _ & _ & _ & _ & _ & _ & Hl). unfold info_of.
    destruct (arr_get (all_blocks g) c); simplify_eq/=; by rewrite Hl. }
  destruct (link_loops_spec (all_loops g) hs (all_blocks g) (hi_frame _ _ _ _ H)) as (bs & Hlink & Hf & Hi).
  { intros c Hc. destruct (Hinfo c Hc) as (i & Hci & Hinf). destruct (hi_loops _ _ _ _ H i c Hci) as (y & l & ? & ? & (_ & ? & ? & _) & _). eauto 10. }
  exists bs. split_and!; [done..|]. intros x a Ha. specialize (Hi x a Ha). destruct (decide (a ∈ hs)) as [Hah|Hah].
  - right. destruct (Hinfo a Hah) as (i & Hai & Hk). rewrite Hk in Hi. exists x, a, i. split_and!; try done. by apply closest_self, (Hhs x a Ha).
  - assert (info_of (all_blocks g) a = None) as Hnone.
    { pose proof (hi_none _ _ _ _ H a) as Hn. unfold info_of.
      rewrite (proj1 Hpo) in Hn. specialize (Hn ltac:(apply arr_get_elem; eauto) Hah). destruct (arr_get (all_blocks g) a); by simplify_eq/=. }
    rewrite Hnone in Hi. destruct Hi as [(y & c & (Hy & Hin & before & after & Heq & Hbefore) & Hk)|[Hno Hk]].
    + right. destruct (Hinfo c) as (i & Hci & Hkc); [rewrite Heq; set_solver|]. exists y, c, i. split_and!; try done; [congruence|].
      split; [done|]. intros y' Hy'. destruct (Z.le_gt_cases y' y) as [Hle|Hgt]; [by eapply in_loop_nested|]. exfalso.
      assert (0 <= y' < n) as Hyr by (by eapply in_loop_range, in_loop_header). destruct (arr_get_lt pre y' Hyr) as [c' Hc'].
      assert (c' ∈ hs) as Hin' by (by apply (Hhs y' c' Hc'), (in_loop_header _ x)). pose proof Hin' as [j Hj]%arr_get_elem.
      pose proof (in_loop_nested y' y x Hy' Hin ltac:(lia)) as Hnest.
      assert (c' ∈ before); [|by eapply Hbefore].
      set (m := zlen before). assert (arr_get hs m = Some c) as Hm by (rewrite Heq; unfold m; rewrite <- (Z.add_0_r (zlen before)), arr_get_app_r by lia; done).
      pose proof (header_order hs m j y y' c c' (hi_order _ _ _ _ H) Hm Hj Hy Hc' (in_loop_dom _ _ Hnest) ltac:(lia)) as Hlt.
      rewrite Heq, arr_get_app_l in Hj by done. apply arr_get_elem. eauto.
    + left. split; [done|]. intros y Hy. assert (0 <= y < n) as Hyr by (by eapply in_loop_range, in_loop_header). destruct (arr_get_lt pre y Hyr) as [c Hc].
      apply (Hno y c); [by apply (Hhs y c Hc), (in_loop_header _ x)|done|done].
Qed.

(** ** The links of the hierarchy *)
(** The loops from [start] on along [next_]. *)
Fixpoint chain (ls : list LoopInfo) (start : option Z) (L : list Z) : Prop :=
  match L with
  | [] => start = None
  | k :: L => start = Some k /\ exists l, arr_get ls k = Some l /\ chain ls (next_ l) L
  end.
Definition outer_of (ls : list LoopInfo) (k : Z) : option Z := arr_get ls k ≫= outer_.
(** The first of the loops inside [p], or of the outermost loops. *)
Definition first_in (ls : list LoopInfo) (top p : option Z) : option Z :=
  match p with None => top | Some k => arr_get ls k ≫= inner_ end.
(** The first [m] loops from [k0] on hang in the lists of their outer loops. *)
Definition listed (k0 m : Z) (ls : list LoopInfo) (top : option Z) : Prop := forall p, (forall k, p = Some k -> k0 <= k) -> exists L, NoDup L /\ chain ls (first_in ls top p) L /\
  forall k, k ∈ L <-> k0 <= k < k0 + m /\ outer_of ls k = p.

Lemma chain_ext ls ls' start L : (forall k l, k ∈ L -> arr_get ls k = Some l -> exists l', arr_get ls' k = Some l' /\ next_ l' = next_ l) ->
  chain ls start L -> chain ls' start L.
Proof using.
  clear. revert start. induction L as [|k L IH]; intros start Hext; simpl; [done|]. intros [-> (l & Hl & Hc)]. split; [done|].
  destruct (Hext k l) as (l' & Hl' & Hn); [set_solver|done|]. exists l'. split; [done|]. rewrite Hn. apply IH; [|done]. intros. apply Hext; set_solver.
Qed.
(** A loop is put at the head of the list of [p']. *)
Lemma listed_step k0 m ls top ls' top' p' l' : 0 <= m -> listed k0 m ls top ->
  arr_get ls' (k0 + m) = Some l' -> outer_ l' = p' -> next_ l' = first_in ls top p' ->
  (forall p, first_in ls' top' p = if decide (p = p') then Some (k0 + m) else first_in ls top p) ->
  (forall k l, k <> k0 + m -> arr_get ls k = Some l -> exists l'', arr_get ls' k = Some l'' /\ next_ l'' = next_ l /\ outer_ l'' = outer_ l) ->
  zlen ls' = zlen ls ->
  listed k0 (m + 1) ls' top'.
Proof using.
  clear. intros Hm H Hnew Hp' Hnext Hfirst Hold Hlen p Hp. destruct (H p Hp) as (L & Hnd & Hc & HL).
  assert (k0 + m ∉ L) as Hnot by (intros [? _]%HL; lia).
  assert (forall k, k <> k0 + m -> outer_of ls' k = outer_of ls k) as Hout.
  { intros k Hk. unfold outer_of. destruct (arr_get ls k) as [l|] eqn:Hl; [destruct (Hold k l Hk Hl) as (l2 & Hl2 & _ & Ho); rewrite Hl2; done|].
    destruct (arr_get ls' k) as [l|] eqn:Hl2; [|done]. apply arr_get_Some in Hl2. destruct (arr_get_lt ls k) as [? ?]; [lia|congruence]. }
  assert (outer_of ls' (k0 + m) = p') as Hk by (unfold outer_of; by rewrite Hnew).
  assert (forall s, chain ls s L -> chain ls' s L) as Hkeep.
  { intros s. apply chain_ext. intros k l HkL Hl. destruct (Hold k l) as (l2 & ? & ? & _); [by intros ->|done|]. eauto. }
  rewrite Hfirst. destruct (decide (p = p')) as [->|Hne].
  - exists (k0 + m :: L). split_and!; [by constructor| |].
    + split; [done|]. exists l'. split; [done|]. rewrite Hnext. auto.
    + intros k. rewrite elem_of_cons. split.
      * intros [->|HkL]; [split; [lia|done]|]. assert (k <> k0 + m) by (by intros ->). apply HL in HkL as [? ?]. rewrite Hout by done. split; [lia|done].
      * intros [Hr Ho]. destruct (decide (k = k0 + m)) as [|Hk']; [auto|right]. rewrite Hout in Ho by done. apply HL. split; [lia|done].
  - exists L. split_and!; [done|auto|]. intros k. destruct (decide (k = k0 + m)) as [->|Hk'].
    + split; [done|]. intros [_ ?]. congruence.
    + rewrite HL, Hout by done. split; intros [? ?]; (split; [lia|done]).
Qed.

(** [y] is the header of the closest loop around the loop of [x]. *)
Definition enclosing (y x : Z) : Prop := in_loop y x /\ y <> x /\ forall y', in_loop y' x -> y' <> x -> in_loop y' y.
Definition outer_found (x y : Z) : Prop := closest y (idom x) /\ in_loop y x.
Lemma outer_found_enclosing x y : is_header x -> outer_found x y -> enclosing y x.
Proof using Hd Ht.
  intros Hh%header_pos [[Hin Hcl] Hyx]. pose proof (dt_idom x Hh) as Hi. assert (sdom E (idom x) x) as Hs by apply Hi.
  split_and!; [done| |].
  - intros ->. assert (0 <= x < n) as Hx by lia. pose proof (sdom_lt _ _ Hs Hx). pose proof (dom_le _ _ (in_loop_dom _ _ Hin) (in_loop_range _ _ Hin)). lia.
  - intros y' Hy' Hne. apply Hcl. by eapply in_loop_idom.
Qed.

Definition outer_link (k0 m : Z) (hs : list Z) (i x : Z) (o : option Z) : Prop :=
  match o with
  | Some k => i < m /\ exists j y c, k = k0 + j /\ arr_get hs j = Some c /\ arr_get pre y = Some c /\ outer_found x y
  | None => i < m -> forall y, ~ outer_found x y
  end.
Record hier_inv (k0 m : Z) (hs : list Z) (ls : list LoopInfo) (top : option Z) : Prop := {
  hr_count : zlen ls = k0 + zlen hs;
  hr_loops : forall i a, arr_get hs i = Some a -> exists x l, arr_get pre x = Some a /\ arr_get ls (k0 + i) = Some l /\ header_loop x a l /\ id_ l = i /\
    outer_link k0 m hs i x (outer_ l);
  hr_listed : listed k0 m ls top }.

(** What [IsIn] finds for the header [x] and the loop of its dominator. *)
Lemma dom_loop_spec k0 m hs bs ls top i x a l b : 0 <= k0 -> loop_frame bs (all_blocks g1) -> linked k0 hs bs -> hier_inv k0 m hs ls top ->
  arr_get hs i = Some a -> arr_get pre x = Some a -> is_header x -> header_ l = a -> arr_get bs a = Some b ->
  exists d db r, dominator_ b = Some d /\ arr_get bs d = Some db /\ IsIn bs ls l (loop_info_ db) = Some r /\
    if r : bool then exists j y c, loop_info_ db = Some (k0 + j) /\ arr_get hs j = Some c /\ arr_get pre y = Some c /\ outer_found x y
    else forall y, ~ outer_found x y.
Proof using All.
  intros Hk0 Hf Hlink H Hi Hx Hh Hla Hb. pose proof (header_pos x Hh) as Hpos. destruct (looped_block bs x a Hf Hx) as (b' & Hb' & Hbn & _ & Hdom). rewrite Hb in Hb'. injection Hb' as <-.
  assert (is_idom E (idom x) x) as Hidom by (by apply dt_idom). assert (0 <= idom x < x) as Hlt by (eapply sdom_lt; [apply Hidom|lia]).
  destruct (arr_get_lt pre (idom x)) as [d Hdd]; [lia|]. destruct (looped_block bs (idom x) d Hf Hdd) as (db & Hdb & _).
  exists d, db. rewrite Hdom, Hdd by lia. assert (info_of bs d = loop_info_ db) as Hinfo by (unfold info_of; by rewrite Hdb).
  destruct (Hlink (idom x) d Hdd) as [[Hnone Hno]|(y & c & j & Hy & Hj & Hk & Hcl)]; rewrite Hinfo in *.
  - exists false. rewrite Hnone. split_and!; try done. intros y [[Hin _] _]. by apply Hno in Hin.
  - destruct (hr_loops _ _ _ _ _ H j c Hj) as (y' & l' & Hy' & Hl' & (_ & Hwf & Hcont & _) & _).
    assert (y' = y) as -> by (eapply arr_get_inj; [apply dc_nodup|done..]). exists (contents (blocks_ l') x). rewrite Hk. split_and!; [done..| |].
    + cbn [IsIn]. rewrite Hl'. cbn [mbind option_bind]. unfold LoopInfo_Contains. rewrite Hla, Hb. cbn [mbind option_bind]. rewrite Hbn.
      apply (BitVector_Contains_spec n); [done|lia].
    + destruct (contents (blocks_ l') x) eqn:Hc; [apply Hcont in Hc; exists j, y, c; done|]. intros y2 [Hcl2 Hin2].
      assert (y2 = y) as -> by (by eapply closest_unique). apply Hcont in Hin2. congruence.
Qed.
Lemma outer_link_next k0 m hs i x o : i <> m -> outer_link k0 m hs i x o -> outer_link k0 (m + 1) hs i x o.
Proof using. intros Hi. unfold outer_link. destruct o; [intros [? ?]; split; [lia|done]|]. intros H ?. apply H. lia. Qed.

(** The loop [k0 + m] is put into the list of [p']. *)
Lemma hier_next k0 m hs ls top ls' top' x a l' p' : hier_inv k0 m hs ls top -> arr_get hs m = Some a -> arr_get pre x = Some a -> header_loop x a l' -> id_ l' = m ->
  zlen ls' = zlen ls -> arr_get ls' (k0 + m) = Some l' -> outer_ l' = p' -> next_ l' = first_in ls top p' ->
  (forall p, first_in ls' top' p = if decide (p = p') then Some (k0 + m) else first_in ls top p) ->
  (forall k lk, k <> k0 + m -> arr_get ls k = Some lk -> exists lk', arr_get ls' k = Some lk' /\ next_ lk' = next_ lk /\ outer_ lk' = outer_ lk /\
     (id_ lk', header_ lk', blocks_ lk', back_edges_ lk') = (id_ lk, header_ lk, blocks_ lk, back_edges_ lk)) ->
  outer_link k0 (m + 1) hs m x p' -> hier_inv k0 (m + 1) hs ls' top'.
Proof using.
  intros H Hm Hx Hloop Hid Hlen Hnew Hp' Hnext Hfirst Hold Hlink. pose proof (arr_get_Some _ _ _ Hm) as Hmr. split.
  - rewrite Hlen. apply H.
  - intros i c Hi. destruct (decide (i = m)) as [->|Hne].
    + assert (c = a) as -> by congruence. exists x, l'. split_and!; try done; [apply Hloop..|by rewrite Hp'].
    + destruct (hr_loops _ _ _ _ _ H i c Hi) as (y & lk & Hy & Hlk & Hlo & Hidk & Ho). destruct (Hold (k0 + i) lk) as (lk' & Hlk' & _ & Ho' & Heq); [lia|done|].
      injection Heq as H1 H2 H3 H4. exists y, lk'. unfold header_loop in *. rewrite H1, H2, H3, H4, Ho'. split_and!; try done; try apply Hlo. by apply outer_link_next.
  - eapply listed_step; [lia|apply H|done..| |done]. intros k lk Hk Hlk. destruct (Hold k lk Hk Hlk) as (lk' & ? & ? & ? & _). eauto.
Qed.

(** One header. *)
Lemma hierarchy_step k0 m hs bs ls top a rest : 0 <= k0 -> loop_frame bs (all_blocks g1) -> linked k0 hs bs -> hier_inv k0 m hs ls top -> NoDup hs ->
  (forall x c, arr_get pre x = Some c -> c ∈ hs -> is_header x) -> arr_get hs m = Some a -> (forall l, arr_get ls (k0 + m) = Some l -> outer_ l = None) ->
  exists ls' top', build_hierarchy (a :: rest) bs ls top = build_hierarchy rest bs ls' top' /\ hier_inv k0 (m + 1) hs ls' top' /\
    forall j, m < j -> outer_of ls' (k0 + j) = outer_of ls (k0 + j).
Proof using All.
  intros Hk0 Hf Hlink H Hnd Hhs Hm Hnone. destruct (hr_loops _ _ _ _ _ H m a Hm) as (x & l & Hx & Hl & Hloop & Hid & _).
  assert (is_header x) as Hh by (eapply Hhs; [done|apply arr_get_elem; eauto]). pose proof (arr_get_Some _ _ _ Hm) as Hmr.
  destruct (looped_block bs x a Hf Hx) as (b & Hb & _). assert (loop_info_ b = Some (k0 + m)) as Hown.
  { replace (loop_info_ b) with (info_of bs a) by (unfold info_of; by rewrite Hb). destruct (Hlink x a Hx) as [[_ Hno]|(y & c & j & Hy & Hj & Hk & Hcl)].
    - destruct (Hno x). exact (proj1 (closest_self x Hh)).
    - assert (y = x) as -> by (eapply closest_unique; [done|by apply closest_self]). assert (c = a) as -> by congruence. rewrite Hk. do 2 f_equal.
      by eapply arr_get_inj. }
  destruct (dom_loop_spec k0 m hs bs ls top m x a l b Hk0 Hf Hlink H Hm Hx Hh (proj1 Hloop) Hb) as (d & db & r & Hdom & Hdb & Hin & Hr).
  cbn [build_hierarchy]. rewrite Hb. cbn [mbind option_bind]. rewrite Hown. cbn [mbind option_bind]. rewrite Hl. cbn [mbind option_bind].
  rewrite Hdom. cbn [mbind option_bind]. rewrite Hdb. cbn [mbind option_bind]. rewrite Hin. cbn [mbind option_bind]. clear Hdom Hdb Hin.
  destruct r.
  - destruct Hr as (j & y & c & -> & Hj & Hy & Hfound). cbn [mbind option_bind]. destruct (hr_loops _ _ _ _ _ H j c Hj) as (_ & ol & _ & Hol & _). rewrite Hol. cbn [mbind option_bind].
    assert (y <> x) as Hyx by (by apply outer_found_enclosing). assert (j <> m) as Hjm by (intros ->; apply Hyx; eapply arr_get_inj; [apply dc_nodup|done|congruence]).
    destruct (arr_set_ok ls (k0 + m) l (with_links l (Some (k0 + j)) (inner_ l) (inner_ ol)) Hl) as [ls1 Hset1]. rewrite Hset1. cbn [mbind option_bind].
    pose proof (fun k => arr_get_set _ _ k _ _ Hset1) as Hget1. rewrite Hget1. replace (k0 + m =? k0 + j) with false by lia. rewrite Hol. cbn [mbind option_bind].
    assert (arr_get ls1 (k0 + j) = Some ol) as Hol1 by (rewrite Hget1; by replace (k0 + m =? k0 + j) with false by lia).
    destruct (arr_set_ok ls1 (k0 + j) ol (with_links ol (outer_ ol) (Some (k0 + m)) (next_ ol)) Hol1) as [ls2 Hset2]. rewrite Hset2. cbn [mbind option_bind].
    pose proof (fun k => arr_get_set _ _ k _ _ Hset2) as Hget2. exists ls2, top. split; [done|].
    assert (forall k, arr_get ls2 k = if k0 + j =? k then Some (with_links ol (outer_ ol) (Some (k0 + m)) (next_ ol))
      else if k0 + m =? k then Some (with_links l (Some (k0 + j)) (inner_ l) (inner_ ol)) else arr_get ls k) as Hget by (intros k; by rewrite Hget2, Hget1).
    pose proof (arr_get_Some _ _ _ Hj) as Hjr. split.
    + eapply (hier_next k0 m hs ls top ls2 top x a (with_links l (Some (k0 + j)) (inner_ l) (inner_ ol)) (Some (k0 + j))); try done.
      * by rewrite (arr_set_length _ _ _ _ Hset2), (arr_set_length _ _ _ _ Hset1).
      * rewrite Hget. replace (k0 + j =? k0 + m) with false by lia. by rewrite Z.eqb_refl.
      * simpl. by rewrite Hol.
      * intros p. unfold first_in. destruct p as [k|]; [|by rewrite decide_False]. rewrite Hget. destruct (Z.eqb_spec (k0 + j) k) as [->|].
        -- by rewrite decide_True.
        -- rewrite decide_False by congruence. destruct (Z.eqb_spec (k0 + m) k) as [<-|]; [by rewrite Hl|done].
      * intros k lk Hk Hlk. rewrite Hget. destruct (Z.eqb_spec (k0 + j) k) as [<-|].
        -- rewrite Hol in Hlk. injection Hlk as <-. eexists. split; [done|]. done.
        -- replace (k0 + m =? k) with false by lia. by exists lk.
      * split; [lia|]. exists j, y, c. done.
    + intros i Hi. unfold outer_of. rewrite Hget. destruct (Z.eqb_spec (k0 + j) (k0 + i)) as [Heq|]; [by rewrite <- Heq, Hol|]. by replace (k0 + m =? k0 + i) with false by lia.
  - destruct (arr_set_ok ls (k0 + m) l (with_links l (outer_ l) (inner_ l) top) Hl) as [ls1 Hset1]. rewrite Hset1. cbn [mbind option_bind].
    pose proof (fun k => arr_get_set _ _ k _ _ Hset1) as Hget. exists ls1, (Some (k0 + m)). split; [done|]. split.
    + eapply (hier_next k0 m hs ls top ls1 _ x a (with_links l (outer_ l) (inner_ l) top) None); try done.
      * apply (arr_set_length _ _ _ _ Hset1).
      * by rewrite Hget, Z.eqb_refl.
      * exact (Hnone l Hl).
      * intros p. unfold first_in. destruct p as [k|]; [|by rewrite decide_True]. rewrite decide_False by done. rewrite Hget.
        destruct (Z.eqb_spec (k0 + m) k) as [<-|]; [by rewrite Hl|done].
      * intros k lk Hk Hlk. rewrite Hget. replace (k0 + m =? k) with false by lia. by exists lk.
      * intros _. exact Hr.
    + intros i Hi. unfold outer_of. rewrite Hget. by replace (k0 + m =? k0 + i) with false by lia.
Qed.
Lemma build_hierarchy_spec k0 hs bs : 0 <= k0 -> loop_frame bs (all_blocks g1) -> linked k0 hs bs -> NoDup hs ->
  (forall x c, arr_get pre x = Some c -> c ∈ hs -> is_header x) ->
  forall rest before ls top, hs = before ++ rest -> hier_inv k0 (zlen before) hs ls top -> (forall j, zlen before <= j -> outer_of ls (k0 + j) = None) ->
  exists ls' top', build_hierarchy rest bs ls top = Some (ls', top') /\ hier_inv k0 (zlen hs) hs ls' top'.
Proof using All.
  intros Hk0 Hf Hlink Hnd Hhs. induction rest as [|a rest IH]; intros before ls top Heq H Hnone.
  - exists ls, top. split; [done|]. by rewrite Heq, app_nil_r in *.
  - assert (arr_get hs (zlen before) = Some a) as Ha by (rewrite Heq, <- (Z.add_0_r (zlen before)), arr_get_app_r by lia; done).
    destruct (hierarchy_step k0 (zlen before) hs bs ls top a rest Hk0 Hf Hlink H Hnd Hhs Ha) as (ls' & top' & -> & H' & Hkeep).
    { intros l Hl. specialize (Hnone (zlen before) ltac:(lia)). unfold outer_of in Hnone. by rewrite Hl in Hnone. }
    assert (zlen (before ++ [a]) = zlen before + 1) as Hlen by (by rewrite zlen_app).
    apply (IH (before ++ [a])); [by rewrite <- app_assoc|by rewrite Hlen|]. intros j Hj. rewrite Hkeep by lia. apply Hnone. lia.
Qed.

(** What the loops of the graph are after [ComputeLoops]; the graph had [k0] loops
    before. *)
Record Looped (k0 : Z) (g : FlowGraph) (h : LoopHierarchy) : Prop := {
  lp_frame : loop_frame (all_blocks g) (all_blocks g1);
  lp_headers : forall x a, arr_get pre x = Some a -> a ∈ headers_ h <-> is_header x;
  lp_loops : forall i a, arr_get (headers_ h) i = Some a -> exists x l, arr_get pre x = Some a /\ arr_get (all_loops g) (k0 + i) = Some l /\
    header_loop x a l /\ id_ l = i /\
    match outer_ l with
    | Some k => exists j y c, k = k0 + j /\ i < j /\ arr_get (headers_ h) j = Some c /\ arr_get pre y = Some c /\ enclosing y x
    | None => forall y, closest y (idom x) -> ~ in_loop y x
    end;
  lp_blocks : linked k0 (headers_ h) (all_blocks g);
  lp_listed : listed k0 (zlen (headers_ h)) (all_loops g) (top_ h) }.

Lemma headers_start : headers_inv (zlen (all_loops g1)) [] g1 [].
Proof using All.
  destruct (dt_orders (g := g0) (g' := g1)) as (Hpre & Hpost & _). split; try done.
  - intros x a _. set_solver.
  - change (zlen (@nil Z)) with 0. lia.
  - intros i a Hi%arr_get_Some. change (zlen (@nil Z)) with 0 in Hi. lia.
Qed.
Lemma ComputeLoops_spec : exists g h, ComputeLoops g1 = Some (g, h) /\ Looped (zlen (all_loops g1)) g h.
Proof using All.
  destruct (dt_orders (g := g0) (g' := g1)) as (Hpre & Hpost & _). set (k0 := zlen (all_loops g1)). assert (0 <= k0) as Hk0 by apply zlen_nonneg.
  assert (NoDup (postorder_blocks g0)) as Hnd by (rewrite (proj1 Hpo); apply dc_nodup).
  unfold ComputeLoops. rewrite Hpost.
  destruct (loop_headers_spec k0 (postorder_blocks g0) Hk0 [] g1 [] headers_start) as (g & hs & -> & H); [done|intros a; by rewrite (proj1 Hpo)|].
  cbn [mbind option_bind app] in *. unfold LoopHierarchy_Build. destruct (hi_orders _ _ _ _ H) as [Hpre' _]. rewrite Hpre'.
  destruct (link_loops_closest k0 g hs H) as (bs & -> & Hf & Hlink). cbn [mbind option_bind].
  assert (forall x a, arr_get pre x = Some a -> a ∈ hs <-> is_header x) as Hhs.
  { intros x a Ha. rewrite (hi_headers _ _ _ _ H x a Ha), (proj1 Hpo). split; [tauto|]. intros ?. split; [apply arr_get_elem; eauto|done]. }
  assert (forall k, k0 <= k -> outer_of (all_loops g) k = None /\ (arr_get (all_loops g) k ≫= inner_) = None) as Hfresh.
  { intros k Hk. unfold outer_of. destruct (arr_get (all_loops g) k) as [l|] eqn:Hl; [|done]. pose proof (arr_get_Some _ _ _ Hl) as Hr. rewrite (hi_count _ _ _ _ H) in Hr.
    destruct (arr_get_lt hs (k - k0)) as [c Hc]; [lia|]. destruct (hi_loops _ _ _ _ H _ c Hc) as (_ & l' & _ & Hl' & _ & _ & Ho & Hi & _).
    replace (k0 + (k - k0)) with k in Hl' by lia. by simplify_eq/=. }
  destruct (build_hierarchy_spec k0 hs bs Hk0 Hf Hlink) with (rest := hs) (before := @nil Z) (ls := all_loops g) (top := @None Z) as (ls & top & -> & Hh).
  { eapply sublist_NoDup; [exact Hnd|apply H]. }
  { intros x c Hc ?. by apply (Hhs x c Hc). }
  { done. }
  { split; [apply H| |].
    - intros i a Hi. destruct (hi_loops _ _ _ _ H i a Hi) as (x & l & Hx & Hl & Hlo & Hid & Ho & _). exists x, l. split_and!; try done; [apply Hlo..|].
      rewrite Ho. pose proof (arr_get_Some _ _ _ Hi). change (zlen (@nil Z)) with 0. intros ?. lia.
    - intros p Hp. exists []. split_and!; [constructor| |intros k; change (zlen (@nil Z)) with 0; split; [set_solver|lia]].
      destruct p as [k|]; [|done]. simpl. apply Hfresh, Hp. done. }
  { intros j Hj. apply Hfresh. change (zlen (@nil Z)) with 0 in Hj. lia. }
  cbn [mbind option_bind]. eexists _, _. split; [done|]. split; simpl; try done; [|apply Hh].
  intros i a Hi. destruct (hr_loops _ _ _ _ _ Hh i a Hi) as (x & l & Hx & Hl & Hlo & Hid & Ho). exists x, l. split_and!; try done; [apply Hlo..|].
  destruct (outer_ l) as [k|]; simpl in Ho.
  - destruct Ho as [_ (j & y & c & -> & Hj & Hy & Hfound)]. assert (is_header x) as Hhx by (apply (Hhs x a Hx), arr_get_elem; eauto).
    pose proof (outer_found_enclosing x y Hhx Hfound) as He. exists j, y, c. split_and!; try done; try apply He.
    destruct He as (Hin & Hne & _). eapply (header_order hs j i y x c a); try done; [apply H|by apply in_loop_dom].
  - intros y Hcl Hin. by apply (Ho (proj2 (arr_get_Some _ _ _ Hi)) y).
Qed.

(** ** Nesting depth *)
Lemma nesting_from_total k0 g h fuel : Looped k0 g h -> forall o d, 
  match o with None => True | Some k => exists i a, k = k0 + i /\ arr_get (headers_ h) i = Some a /\ zlen (headers_ h) - i < Z.of_nat fuel end -> (0 < fuel)%nat ->
  exists d', nesting_from fuel (all_loops g) o d = Some d' /\ d <= d'.
Proof using.
  intros H. induction fuel as [|fuel IH]; intros o d Ho Hfuel; [lia|]. cbn [nesting_from]. destruct o as [k|]; [|exists d; split; [done|lia]].
  destruct Ho as (i & a & -> & Hi & Hf). destruct (lp_loops _ _ _ H i a Hi) as (x & l & _ & -> & _ & _ & Ho). cbn [mbind option_bind]. pose proof (arr_get_Some _ _ _ Hi) as Hir.
  destruct (IH (outer_ l) (d + 1)) as (d' & -> & Hd'); [|lia|exists d'; split; [done|lia]].
  destruct (outer_ l) as [k|]; [|done]. destruct Ho as (j & y & c & -> & Hij & Hj & _). exists j, c. split_and!; [done..|lia].
Qed.
(** The depth is 0 outside of loops only. *)
Lemma NestingDepth_spec k0 g h x a : Looped k0 g h -> 0 <= k0 -> arr_get pre x = Some a ->
  exists d, NestingDepth (all_loops g) (all_blocks g) a = Some d /\ 0 <= d /\ (d = 0 <-> forall y, ~ in_loop y x).
Proof using All.
  intros H Hk0 Ha. destruct (looped_block _ x a (lp_frame _ _ _ H) Ha) as (b & Hb & _). unfold NestingDepth. rewrite Hb. cbn [mbind option_bind].
  assert (info_of (all_blocks g) a = loop_info_ b) as Hinfo by (unfold info_of; by rewrite Hb).
  destruct (lp_blocks _ _ _ H x a Ha) as [[Hnone Hno]|(y & c & i & Hy & Hi & Hk & Hcl)]; rewrite Hinfo in *.
  - rewrite Hnone. exists 0. split_and!; [done|lia|done].
  - rewrite Hk. destruct (lp_loops _ _ _ H i c Hi) as (x' & l & _ & Hl & _ & _ & Ho). rewrite Hl. cbn [mbind option_bind].
    pose proof (arr_get_Some _ _ _ Hi) as Hir.
    destruct (nesting_from_total k0 g h (S (length (all_loops g))) H (outer_ l) 1) as (d & Hd' & Hle); [|lia|].
    + destruct (outer_ l) as [k|]; [|done]. destruct Ho as (j & y' & c' & -> & Hij & Hj & _). exists j, c'. split_and!; [done..|].
      destruct (arr_get_lt (headers_ h) (zlen (headers_ h) - 1)) as [e He]; [lia|]. destruct (lp_loops _ _ _ H _ e He) as (_ & le & _ & Hle & _).
      apply arr_get_Some in Hle. unfold zlen in *. lia.
    + exists d. split_and!; [done|lia|]. split; [lia|]. intros Hno. destruct (Hno y). apply Hcl.
Qed.
End Loops.

(** C8: Discovery, dominators and [FlowGraph::ComputeLoops] in sequence end on every
    well-formed graph. The headers are the blocks with a back edge, one from a block
    that they dominate; the loop of a header is exactly the union of the natural
    loops of its back edges (the blocks that reach one without passing the
    header) and records exactly those; every block points to its closest loop,
    one inside every other loop around the block, or to none outside of loops; an outer
    loop that is recorded is the closest one around the header, and it is recorded
    when the closest loop around the header's immediate dominator contains the
    header; every loop is once in the list of its outer loop. *)
Theorem ComputeLoops_exact fuel g eb : wf_flow (all_blocks g) (graph_entry_ g) -> (search_bound g <= fuel)%nat ->
  arr_get (all_blocks g) (graph_entry_ g) = Some eb -> dominator_ eb = None ->
  exists g0 g1 df idom g2 h, DiscoverBlocks fuel g = Some g0 /\ ComputeDominators g0 = Some (g1, df) /\ Dominated g0 g1 idom /\
    ComputeLoops g1 = Some (g2, h) /\ Looped g0 g1 idom (zlen (all_loops g1)) g2 h.
Proof.
  intros Hwf Hfuel Heb Hdom. destruct (DiscoverBlocks_spec fuel g Hwf Hfuel) as (g0 & Hg & Hd & Hpo & Hshape & Hent & _).
  destruct (ComputeDominators_spec g0 Hd) as (g1 & df & idom & Hc & Ht & _). exists g0, g1, df, idom.
  assert (forall b, arr_get (all_blocks g0) (graph_entry_ g0) = Some b -> dominator_ b = None) as Hentry.
  { rewrite Hent. intros b Hb. destruct (proj2 Hshape _ _ Hb) as (b0 & Hb0 & _ & _ & _ & Hd0). simplify_eq. congruence. }
  destruct (ComputeLoops_spec g0 g1 idom Hentry Hpo) as (g2 & h & Hl & Hlooped). by exists g2, h.
Qed.

(** The loop of the example: block 2 is its header, 6 the source of its back edge. *)
Theorem ComputeLoops_exact_witness : exists g0 g1 df idom g2 h, DiscoverBlocks 30 example_graph = Some g0 /\ ComputeDominators g0 = Some (g1, df) /\
  ComputeLoops g1 = Some (g2, h) /\ Looped g0 g1 idom (zlen (all_loops g1)) g2 h /\ headers_ h = [2] /\
  back_edges_ <$> all_loops g2 = [[6]] /\ loop_info_ <$> all_blocks g2 = [None; None; Some 0; Some 0; Some 0; Some 0; Some 0; None; None].
Proof.
  destruct (ComputeLoops_exact 30 example_graph (new_block (GraphEntryInstr (Some 1) None None []) 0 []) example_wf ltac:(vm_compute; lia) eq_refl eq_refl)
    as (g0 & g1 & df & idom & g2 & h & Hg & Hc & _ & Hl & H). exists g0, g1, df, idom, g2, h. split; [exact Hg|]. split; [exact Hc|]. split; [exact Hl|]. split; [exact H|].
  vm_compute in Hg. injection Hg as <-. vm_compute in Hc. injection Hc as <- <-. vm_compute in Hl. injection Hl as <- <-. split; [reflexivity|]. split; reflexivity.
Defined.

(** ** A loop that is not found inside its outer loop *)
(** The loop of 2 holds the loops of 5 and of 10. Both ways out of the loop
    of 5 lead to 10, so that 5 is in the loop of 10's immediate dominator, which does
    not contain 10. *)
Definition siblings : Blocks := [
  new_block (GraphEntryInstr (Some 1) None None []) 0 []; new_block FunctionEntryInstr 1 [GotoInstr 2 None];
  new_block JoinEntryInstr 2 [BranchInstr 3 4]; new_block TargetEntryInstr 3 [GotoInstr 5 None]; new_block TargetEntryInstr 4 [PlainInstr];
  new_block JoinEntryInstr 5 [BranchInstr 6 7]; new_block TargetEntryInstr 6 [BranchInstr 8 9]; new_block TargetEntryInstr 7 [GotoInstr 10 None];
  new_block TargetEntryInstr 8 [GotoInstr 5 None]; new_block TargetEntryInstr 9 [GotoInstr 10 None]; new_block JoinEntryInstr 10 [BranchInstr 11 12];
  new_block TargetEntryInstr 11 [GotoInstr 10 None]; new_block TargetEntryInstr 12 [GotoInstr 2 None]].
Definition siblings_graph : FlowGraph := MkFlowGraph 0 siblings [] [] [] [] [] [] None None.
Definition loops_of (fuel : nat) (g : FlowGraph) : option (FlowGraph * LoopHierarchy) :=
  g ← DiscoverBlocks fuel g; '(g, _) ← ComputeDominators g; ComputeLoops g.

(** [LoopHierarchy::Build] asks only the closest loop of the header's dominator:
    the loop of 2 contains the block 10, but the loop of 10 has no outer loop, and its
    nesting depth is 1. *)
Theorem Build_misses_outer : exists g h l2 l10, loops_of 60 siblings_graph = Some (g, h) /\
  (b ← arr_get (all_blocks g) 10; i ← loop_info_ b; arr_get (all_loops g) i) = Some l10 /\
  (b ← arr_get (all_blocks g) 2; i ← loop_info_ b; arr_get (all_loops g) i) = Some l2 /\
  LoopInfo_Contains (all_blocks g) l2 10 = Some true /\ outer_ l10 = None /\ NestingDepth (all_loops g) (all_blocks g) 10 = Some 1 /\
  NestingDepth (all_loops g) (all_blocks g) 5 = Some 2.
Proof.
  destruct (loops_of 60 siblings_graph) as [[g h]|] eqn:E; vm_compute in E; [|discriminate E]. injection E as <- <-. eexists _, _, _, _.
  split; [reflexivity|]. split; [reflexivity|]. split; [reflexivity|]. vm_compute. auto.
Qed.
