(* ===== verification/Safepoint.v ===== *)
(** * Safepoints
    (src/runtime/vm/heap/safepoint.{h,cc}, thread.h, thread_registry.cc, isolate.cc, lockers.cc)

    How a thread brings all threads of an isolate to a safepoint, as a transition
    system. A step is a lock-free compare-and-swap, or what a thread does between
    taking a monitor and releasing it or waiting on it; [threads_lock], which
    is held over the loops on the active threads, is part of the state. The
    bits of a thread's state are written by the thread itself, and by the thread that
    holds both [threads_lock] and the thread's own lock. *)
From stdpp Require Import gmap relations.
From S2P Require Import Prelude BitSet.
Local Open Scope Z_scope.
Local Open Scope vm_scope.

(** ** The state word of a thread (thread.h) *)
Definition field_decode (position s : Z) : bool := negb (BitField_decode position 1 s =? 0).
Definition field_update (position : Z) (value : bool) (s : Z) : Z := BitField_update position 1 (Z.b2z value) s.
Definition IsAtSafepoint (s : Z) : bool := field_decode 0 s.
Definition SetAtSafepoint (value : bool) (s : Z) : Z := field_update 0 value s.
Definition IsSafepointRequested (s : Z) : bool := field_decode 1 s.
Definition SetSafepointRequested (value : bool) (s : Z) : Z := field_update 1 value s.
Definition IsBlockedForSafepoint (s : Z) : bool := field_decode 2 s.
Definition SetBlockedForSafepoint (value : bool) (s : Z) : Z := field_update 2 value s.
Definition BypassSafepoints (s : Z) : bool := field_decode 3 s.
Definition SetBypassSafepoints (value : bool) (s : Z) : Z := field_update 3 value s.

(** The word before, and the word after. *)
Definition CompareAndSwapWord (s old_value new_value : Z) : Z * Z := (s, if s =? old_value then new_value else s).
Definition TryEnterSafepoint (s : Z) : bool * Z :=
  let '(previous, s) := CompareAndSwapWord s 0 (SetAtSafepoint true 0) in (previous =? 0, s).
Definition TryExitSafepoint (s : Z) : bool * Z :=
  let old_state := SetAtSafepoint true 0 in
  let '(previous, s) := CompareAndSwapWord s old_state 0 in (previous =? old_state, s).

(** ** Threads and the isolate *)
Inductive ExecutionState := kThreadInVM | kThreadInGenerated | kThreadInNative | kThreadInBlockedState.
#[export] Instance ExecutionState_eq_dec : EqDecision ExecutionState.
Proof. solve_decision. Defined.

(** What a thread does when it has left the safepoint: it goes on in a state, or
    with the loop of [SafepointThreads]. *)
Inductive Continuation := ReturnTo (s : ExecutionState) | ToOperation.
(** Where a thread is in the code below; [notified] of a thread that waits
    on a monitor. *)
Inductive Pc :=
  | Running
  | EnterLocked
  | ExitLocked (k : Continuation)
  | ExitWaiting (k : Continuation) (notified : bool)
  | BlockLocked
  | BlockWaiting (notified : bool)
  | OperationLocked
  | OperationWaiting (notified : bool)
  | MarkingThreads (todo : list Z)
  | AwaitCheckIn
  | ResumingThreads (todo : list Z).
Record Thread := MkThread { safepoint_state_ : Z; execution_state_ : ExecutionState; pc_ : Pc }.

(** The isolate, its registry of threads and its [SafepointHandler]; [next_thread_]
    is the name of the next new thread. *)
Record World := MkWorld {
  threads_ : gmap Z Thread;
  next_thread_ : Z;
  active_list_ : list Z;
  free_list_ : list Z;
  mutator_thread_ : option Z;
  scheduled_mutator_thread_ : option Z;
  threads_lock_ : option Z;
  number_threads_not_at_safepoint_ : Z;
  safepoint_operation_count_ : Z;
  owner_ : option Z }.

Definition set_thread (w : World) (t : Z) (th : Thread) : World :=
  MkWorld (<[t := th]> (threads_ w)) (next_thread_ w) (active_list_ w) (free_list_ w) (mutator_thread_ w) (scheduled_mutator_thread_ w)
    (threads_lock_ w) (number_threads_not_at_safepoint_ w) (safepoint_operation_count_ w) (owner_ w).
Definition set_number (w : World) (n : Z) : World :=
  MkWorld (threads_ w) (next_thread_ w) (active_list_ w) (free_list_ w) (mutator_thread_ w) (scheduled_mutator_thread_ w)
    (threads_lock_ w) n (safepoint_operation_count_ w) (owner_ w).
Definition set_operation (w : World) (lock : option Z) (count : Z) (owner : option Z) : World :=
  MkWorld (threads_ w) (next_thread_ w) (active_list_ w) (free_list_ w) (mutator_thread_ w) (scheduled_mutator_thread_ w)
    lock (number_threads_not_at_safepoint_ w) count owner.
Definition set_registry (w : World) (next : Z) (active free : list Z) (mutator scheduled : option Z) : World :=
  MkWorld (threads_ w) next active free mutator scheduled
    (threads_lock_ w) (number_threads_not_at_safepoint_ w) (safepoint_operation_count_ w) (owner_ w).

(** ** Entering and leaving a safepoint (safepoint.cc) *)
Definition set_state (w : World) (t s : Z) : option World :=
  th ← threads_ w !! t; Some (set_thread w t (MkThread s (execution_state_ th) (pc_ th))).
Definition go (w : World) (t : Z) (e : ExecutionState) (pc : Pc) : option World :=
  th ← threads_ w !! t; Some (set_thread w t (MkThread (safepoint_state_ th) e pc)).
(** [EnterSafepointUsingLock]. *)
Definition EnterSafepointUsingLock (w : World) (t : Z) : option World :=
  th ← threads_ w !! t;
  let s := SetAtSafepoint true (safepoint_state_ th) in
  w ← set_state w t s;
  Some (if IsSafepointRequested s then set_number w (number_threads_not_at_safepoint_ w - 1) else w).
(** [Thread::EnterSafepoint] by a thread that holds [threads_lock], so that nobody else
    writes its state. *)
Definition EnterSafepoint (w : World) (t : Z) : option World :=
  th ← threads_ w !! t;
  let '(entered, s) := TryEnterSafepoint (safepoint_state_ th) in
  if entered : bool then set_state w t s else EnterSafepointUsingLock w t.
(** The condition of the loop in [ExitSafepointUsingLock], and what follows it. *)
Definition exit_loop (w : World) (t : Z) (k : Continuation) : option World :=
  th ← threads_ w !! t;
  if IsSafepointRequested (safepoint_state_ th) then
    Some (set_thread w t (MkThread (SetBlockedForSafepoint true (safepoint_state_ th)) (execution_state_ th) (ExitWaiting k false)))
  else
    let s := SetAtSafepoint false (safepoint_state_ th) in
    Some (set_thread w t (match k with
                          | ReturnTo e => MkThread s e Running
                          | ToOperation => MkThread s (execution_state_ th) OperationLocked
                          end)).
(** The condition of the loop in [BlockForSafepoint], and what follows it. *)
Definition block_loop (w : World) (t : Z) : option World :=
  th ← threads_ w !! t;
  Some (set_thread w t
    (if IsSafepointRequested (safepoint_state_ th) then
       MkThread (SetBlockedForSafepoint true (safepoint_state_ th)) (execution_state_ th) (BlockWaiting false)
     else MkThread (SetAtSafepoint false (safepoint_state_ th)) (execution_state_ th) Running)).
Definition BlockForSafepoint (w : World) (t : Z) : option World :=
  th ← threads_ w !! t;
  if IsSafepointRequested (safepoint_state_ th) then
    w ← set_state w t (SetAtSafepoint true (safepoint_state_ th));
    block_loop (set_number w (number_threads_not_at_safepoint_ w - 1)) t
  else go w t (execution_state_ th) Running.

(** ** Operations *)
Definition SafepointInProgress (w : World) : bool :=
  (0 <? safepoint_operation_count_ w) && match owner_ w with Some _ => true | None => false end.
Definition owns (w : World) (t : Z) : bool := match owner_ w with Some o => o =? t | None => false end.
(** The loop at the start of [SafepointThreads], under [threads_lock]. *)
Definition SafepointThreads_loop (w : World) (t : Z) : option World :=
  if SafepointInProgress w then
    if owns w t then go (set_operation w (threads_lock_ w) (safepoint_operation_count_ w + 1) (owner_ w)) t kThreadInVM Running
    else
      w ← go w t kThreadInBlockedState (OperationWaiting false);
      EnterSafepoint w t
  else go (set_operation w (Some t) 1 (Some t)) t kThreadInVM (MarkingThreads (active_list_ w)).
(** [WaitWithSafepointCheck] after the wait. *)
Definition wake_operation (w : World) (t : Z) : option World :=
  th ← threads_ w !! t;
  let '(exited, s) := TryExitSafepoint (safepoint_state_ th) in
  if exited : bool then w ← set_state w t s; SafepointThreads_loop w t
  else go w t (execution_state_ th) (ExitLocked ToOperation).
(** The body of the loop over the active threads in [SafepointThreads]. *)
Definition mark_thread (w : World) (t current : Z) : option World :=
  th ← threads_ w !! current;
  let state := safepoint_state_ th in
  if BypassSafepoints state then Some w
  else if current =? t then set_state w current (SetAtSafepoint true state)
  else
    w ← set_state w current (SetSafepointRequested true state);
    Some (if negb (IsAtSafepoint state) then set_number w (number_threads_not_at_safepoint_ w + 1) else w).
(** [tl.Notify()] on the lock of a thread. *)
Definition notify (pc : Pc) : Pc :=
  match pc with ExitWaiting k _ => ExitWaiting k true | BlockWaiting _ => BlockWaiting true | _ => pc end.
(** The body of the loop in [ResumeThreads]. *)
Definition resume_thread (w : World) (t current : Z) : option World :=
  th ← threads_ w !! current;
  let state := safepoint_state_ th in
  if BypassSafepoints state then Some w
  else if current =? t then set_state w current (SetAtSafepoint false state)
  else
    w ← set_state w current (SetSafepointRequested false state);
    if IsBlockedForSafepoint state then go w current (execution_state_ th) (notify (pc_ th)) else Some w.
(** [sl.NotifyAll()] on [threads_lock]. *)
Definition notify_all (th : Thread) : Thread :=
  match pc_ th with OperationWaiting _ => MkThread (safepoint_state_ th) (execution_state_ th) (OperationWaiting true) | _ => th end.
Definition with_threads (w : World) (threads : gmap Z Thread) : World :=
  MkWorld threads (next_thread_ w) (active_list_ w) (free_list_ w) (mutator_thread_ w) (scheduled_mutator_thread_ w)
    (threads_lock_ w) (number_threads_not_at_safepoint_ w) (safepoint_operation_count_ w) (owner_ w).
Definition finish_resume (w : World) (t : Z) : option World :=
  let w := set_operation w None 0 None in
  go (with_threads w (notify_all <$> threads_ w)) t kThreadInVM Running.
Definition ResumeThreads (w : World) (t : Z) : option World :=
  if 1 <? safepoint_operation_count_ w then
    go (set_operation w (threads_lock_ w) (safepoint_operation_count_ w - 1) (owner_ w)) t kThreadInVM Running
  else go (set_operation w (Some t) (safepoint_operation_count_ w) (owner_ w)) t kThreadInVM (ResumingThreads (active_list_ w)).

(** ** The registry and the scheduling of threads (thread_registry.cc, isolate.cc) *)
Definition AddToActiveListLocked (w : World) (t : Z) : World :=
  set_registry w (next_thread_ w) (t :: active_list_ w) (free_list_ w) (mutator_thread_ w) (scheduled_mutator_thread_ w).
Fixpoint remove_first (t : Z) (l : list Z) : list Z :=
  match l with [] => [] | c :: l => if c =? t then l else c :: remove_first t l end.
Definition RemoveFromActiveListLocked (w : World) (t : Z) : World :=
  set_registry w (next_thread_ w) (remove_first t (active_list_ w)) (free_list_ w) (mutator_thread_ w) (scheduled_mutator_thread_ w).
Definition new_thread : Thread := MkThread 0 kThreadInNative Running.
Definition GetFromFreelistLocked (w : World) : Z * World :=
  match free_list_ w with
  | [] => (next_thread_ w, set_thread (set_registry w (next_thread_ w + 1) (active_list_ w) [] (mutator_thread_ w) (scheduled_mutator_thread_ w))
                             (next_thread_ w) new_thread)
  | t :: free => (t, set_registry w (next_thread_ w) (active_list_ w) free (mutator_thread_ w) (scheduled_mutator_thread_ w))
  end.
Definition GetFreeThreadLocked (w : World) (is_mutator : bool) : Z * World :=
  let '(t, w) :=
    if is_mutator then
      match mutator_thread_ w with
      | Some t => (t, w)
      | None =>
          let '(t, w) := GetFromFreelistLocked w in
          (t, set_registry w (next_thread_ w) (active_list_ w) (free_list_ w) (Some t) (scheduled_mutator_thread_ w))
      end
    else GetFromFreelistLocked w in
  (t, AddToActiveListLocked w t).
Definition ReturnThreadLocked (w : World) (is_mutator : bool) (t : Z) : World :=
  let w := RemoveFromActiveListLocked w t in
  if is_mutator then w
  else set_registry w (next_thread_ w) (active_list_ w) (t :: free_list_ w) (mutator_thread_ w) (scheduled_mutator_thread_ w).
(** The test in [ScheduleThread], before it waits for the operation in progress. *)
Definition may_schedule (w : World) (is_mutator : bool) : bool :=
  negb (is_mutator && match scheduled_mutator_thread_ w with Some _ => true | None => false end).
(** [ScheduleThread] after the wait. *)
Definition ScheduleThread (w : World) (is_mutator bypass_safepoint : bool) : World :=
  let '(t, w) := GetFreeThreadLocked w is_mutator in
  let w := set_thread w t (MkThread (SetBypassSafepoints bypass_safepoint 0) kThreadInVM Running) in
  if is_mutator then set_registry w (next_thread_ w) (active_list_ w) (free_list_ w) (mutator_thread_ w) (Some t) else w.
Definition UnscheduleThread (w : World) (t : Z) (is_mutator bypass_safepoint : bool) : option World :=
  w ← (if bypass_safepoint then Some w else EnterSafepoint w t);
  let w := if is_mutator then set_registry w (next_thread_ w) (active_list_ w) (free_list_ w) (mutator_thread_ w) None else w in
  w ← go w t kThreadInNative Running;
  w ← set_state w t (SetAtSafepoint true 0);
  Some (ReturnThreadLocked w is_mutator t).

(** ** Steps *)
(** What a thread may do next: the transitions of safepoint.h, and the next step of
    what it has begun; [ReturnToVM] is the destructor of [TransitionToGenerated], which
    does not check for a safepoint. *)
Inductive Action :=
  | EnterFrom (e : ExecutionState)
  | ExitTo (e : ExecutionState)
  | VMToGenerated
  | GeneratedToVM
  | ReturnToVM
  | CheckForSafepoint
  | BeginOperation
  | EndOperation
  | Proceed
  | Spurious.
Definition in_dart (e : ExecutionState) : bool := match e with kThreadInVM | kThreadInGenerated => true | _ => false end.
Definition lock_free (w : World) : bool := match threads_lock_ w with None => true | Some _ => false end.
Definition check (b : bool) : option unit := if b then Some tt else None.

(** A lock-free step of a thread that runs. *)
Definition try_enter (w : World) (t : Z) (th : Thread) (e : ExecutionState) : World :=
  let '(entered, s) := TryEnterSafepoint (safepoint_state_ th) in
  set_thread w t (MkThread s e (if entered then Running else EnterLocked)).
Definition try_exit (w : World) (t : Z) (th : Thread) (e : ExecutionState) : World :=
  let '(exited, s) := TryExitSafepoint (safepoint_state_ th) in
  set_thread w t (if exited then MkThread s e Running else MkThread s (execution_state_ th) (ExitLocked (ReturnTo e))).
Definition check_requested (w : World) (t : Z) (th : Thread) : World :=
  set_thread w t (MkThread (safepoint_state_ th) kThreadInVM (if IsSafepointRequested (safepoint_state_ th) then BlockLocked else Running)).
(** The next step of what a thread is in the middle of. *)
Definition proceed (w : World) (t : Z) (th : Thread) : option World :=
  match pc_ th with
  | Running => None
  | EnterLocked => w ← EnterSafepointUsingLock w t; go w t (execution_state_ th) Running
  | ExitLocked k => exit_loop w t k
  | ExitWaiting k true => w ← set_state w t (SetBlockedForSafepoint false (safepoint_state_ th)); exit_loop w t k
  | ExitWaiting _ false => None
  | BlockLocked => BlockForSafepoint w t
  | BlockWaiting true => w ← set_state w t (SetBlockedForSafepoint false (safepoint_state_ th)); block_loop w t
  | BlockWaiting false => None
  | OperationLocked => check (lock_free w);; SafepointThreads_loop w t
  | OperationWaiting true => check (lock_free w);; wake_operation w t
  | OperationWaiting false => None
  | MarkingThreads (u :: todo) => w ← mark_thread w t u; go w t (execution_state_ th) (MarkingThreads todo)
  | MarkingThreads [] => go (set_operation w None (safepoint_operation_count_ w) (owner_ w)) t (execution_state_ th) AwaitCheckIn
  | AwaitCheckIn => check (number_threads_not_at_safepoint_ w <=? 0);; go w t (execution_state_ th) Running
  | ResumingThreads (u :: todo) => w ← resume_thread w t u; go w t (execution_state_ th) (ResumingThreads todo)
  | ResumingThreads [] => finish_resume w t
  end.
(** A wait may end without a notification. *)
Definition spurious (w : World) (t : Z) (th : Thread) : option World :=
  match pc_ th with
  | ExitWaiting k false => go w t (execution_state_ th) (ExitWaiting k true)
  | BlockWaiting false => go w t (execution_state_ th) (BlockWaiting true)
  | OperationWaiting false => go w t (execution_state_ th) (OperationWaiting true)
  | _ => None
  end.
Definition is_running (th : Thread) : bool := match pc_ th with Running => true | _ => false end.
Definition in_vm (th : Thread) : bool := match execution_state_ th with kThreadInVM => true | _ => false end.
Definition act (w : World) (t : Z) (a : Action) : option World :=
  check (bool_decide (t ∈ active_list_ w));;
  th ← threads_ w !! t;
  match a with
  | Proceed => proceed w t th
  | Spurious => spurious w t th
  | _ =>
      check (is_running th);;
      match a with
      | EnterFrom e => check (in_dart (execution_state_ th) && negb (in_dart e));; Some (try_enter w t th e)
      | ExitTo e => check (negb (in_dart (execution_state_ th)) && in_dart e);; Some (try_exit w t th e)
      | VMToGenerated => check (in_vm th);; go w t kThreadInGenerated Running
      | GeneratedToVM => check (negb (in_vm th) && in_dart (execution_state_ th));; Some (check_requested w t th)
      | ReturnToVM => check (negb (in_vm th) && in_dart (execution_state_ th));; go w t kThreadInVM Running
      | CheckForSafepoint => check (in_vm th);; Some (check_requested w t th)
      | BeginOperation => check (in_vm th);; go w t kThreadInVM OperationLocked
      | EndOperation => check (in_vm th && lock_free w && owns w t);; ResumeThreads w t
      | _ => None
      end
  end.

(** Threads come and go when nobody holds [threads_lock]; a thread leaves from the VM,
    outside of its own operations, as it came. At most one caller schedules the
    mutator at a time. *)
Inductive step (w : World) : World -> Prop :=
  | step_act t a w' : act w t a = Some w' -> step w w'
  | step_schedule is_mutator bypass : lock_free w = true -> may_schedule w is_mutator = true ->
      bypass = true \/ SafepointInProgress w = false -> step w (ScheduleThread w is_mutator bypass)
  | step_unschedule t th w' : lock_free w = true -> t ∈ active_list_ w -> threads_ w !! t = Some th -> pc_ th = Running ->
      execution_state_ th = kThreadInVM -> owner_ w <> Some t ->
      UnscheduleThread w t (bool_decide (scheduled_mutator_thread_ w = Some t)) (BypassSafepoints (safepoint_state_ th)) = Some w' -> step w w'.
(** A new isolate. *)
Definition initial : World := MkWorld ∅ 0 [] [] None None None 0 0 None.
Definition reachable (w : World) : Prop := rtc step initial w.

(** ** State words *)
Definition word (at_safepoint requested blocked bypass : bool) : Z :=
  Z.b2z at_safepoint + 2 * Z.b2z requested + 4 * Z.b2z blocked + 8 * Z.b2z bypass.

Section Words.
Context (a r b y v : bool).
Lemma IsAt_word : IsAtSafepoint (word a r b y) = a.
Proof using. by destruct a, r, b, y. Qed.
Lemma IsRequested_word : IsSafepointRequested (word a r b y) = r.
Proof using. by destruct a, r, b, y. Qed.
Lemma IsBlocked_word : IsBlockedForSafepoint (word a r b y) = b.
Proof using. by destruct a, r, b, y. Qed.
Lemma Bypass_word : BypassSafepoints (word a r b y) = y.
Proof using. by destruct a, r, b, y. Qed.
Lemma SetAt_word : SetAtSafepoint v (word a r b y) = word v r b y.
Proof using. by destruct a, r, b, y, v. Qed.
Lemma SetRequested_word : SetSafepointRequested v (word a r b y) = word a v b y.
Proof using. by destruct a, r, b, y, v. Qed.
Lemma SetBlocked_word : SetBlockedForSafepoint v (word a r b y) = word a r v y.
Proof using. by destruct a, r, b, y, v. Qed.
Lemma TryEnter_word : TryEnterSafepoint (word a r b y) =
  if a || r || b || y then (false, word a r b y) else (true, word true false false false).
Proof using. by destruct a, r, b, y. Qed.
Lemma TryExit_word : TryExitSafepoint (word a r b y) =
  if a && negb (r || b || y) then (true, word false false false false) else (false, word a r b y).
Proof using. by destruct a, r, b, y. Qed.
End Words.
Lemma word_0 v : SetBypassSafepoints v 0 = word false false false v /\ SetAtSafepoint true 0 = word true false false false.
Proof. by destruct v. Qed.
Create Rewrite HintDb safepoint.
#[export] Hint Rewrite IsAt_word IsRequested_word IsBlocked_word Bypass_word SetAt_word SetRequested_word SetBlocked_word TryEnter_word TryExit_word : safepoint.

(** ** The invariant *)
(** Whether a thread that takes no part in an operation of its own is at a
    safepoint. *)
Definition at_pc (e : ExecutionState) (pc : Pc) : bool :=
  match pc with
  | Running => negb (in_dart e)
  | ExitLocked _ | ExitWaiting _ _ | BlockWaiting _ | OperationWaiting _ => true
  | _ => false
  end.
Definition exec_ok (e : ExecutionState) (pc : Pc) : Prop :=
  match pc with
  | EnterLocked | ExitLocked ToOperation | ExitWaiting ToOperation _ | OperationWaiting _ => in_dart e = false
  | ExitLocked (ReturnTo k) | ExitWaiting (ReturnTo k) _ => in_dart e = false /\ in_dart k = true
  | BlockLocked | BlockWaiting _ | MarkingThreads _ | AwaitCheckIn | ResumingThreads _ => e = kThreadInVM
  | _ => True
  end.
Definition waits (pc : Pc) : bool := match pc with ExitWaiting _ _ | BlockWaiting _ => true | _ => false end.
Definition asleep (pc : Pc) : bool := match pc with ExitWaiting _ n | BlockWaiting n => negb n | _ => false end.
Definition is_loop (pc : Pc) : bool := match pc with MarkingThreads _ | AwaitCheckIn | ResumingThreads _ => true | _ => false end.
Definition in_queue (pc : Pc) : bool := match pc with OperationWaiting _ => true | _ => false end.

(** A thread of an isolate whose operation is owned by [own]; [mk]: the operation
    wants it to stop. *)
Record thread_ok (own : option Z) (mk : bool) (u : Z) (a r b y : bool) (e : ExecutionState) (pc : Pc) : Prop := {
  to_requested : r = negb y && mk;
  to_at : own <> Some u -> y = false -> a = at_pc e pc;
  to_exec : exec_ok e pc;
  to_blocked : b = waits pc;
  to_asleep : asleep pc = true -> r = true;
  to_queue : in_queue pc = true -> own <> Some u;
  to_queue_asleep : pc = OperationWaiting false -> own <> None;
  to_loop : is_loop pc = true -> own = Some u }.
Definition thread_wf (own : option Z) (mk : bool) (u : Z) (th : Thread) : Prop :=
  exists a r b y, safepoint_state_ th = word a r b y /\ thread_ok own mk u a r b y (execution_state_ th) (pc_ th).

(** Whether the owner's loop has marked [u], and not unmarked it yet. *)
Definition marks (pc : Pc) (u : Z) : bool :=
  match pc with
  | MarkingThreads todo => negb (bool_decide (u ∈ todo))
  | ResumingThreads todo => bool_decide (u ∈ todo)
  | _ => true
  end.
Definition marked (w : World) (u : Z) : bool :=
  match owner_ w with
  | None => false
  | Some o => negb (u =? o) && match threads_ w !! o with Some th => marks (pc_ th) u | None => false end
  end.
(** A thread that has been asked to stop and has not yet. *)
Definition pending (th : Thread) : bool := IsSafepointRequested (safepoint_state_ th) && negb (IsAtSafepoint (safepoint_state_ th)).
Definition pend (w : World) (u : Z) : Z := match threads_ w !! u with Some th => Z.b2z (pending th) | None => 0 end.
Fixpoint total (f : Z -> Z) (l : list Z) : Z := match l with [] => 0 | u :: l => f u + total f l end.

(** The loops of the owner, and the lock that they hold. *)
Definition owner_ok (w : World) (o : Z) (th : Thread) : Prop :=
  match pc_ th with
  | MarkingThreads todo => threads_lock_ w = Some o /\ safepoint_operation_count_ w = 1 /\ todo ⊆ active_list_ w /\ NoDup todo
  | AwaitCheckIn => threads_lock_ w = None /\ safepoint_operation_count_ w = 1
  | ResumingThreads todo => threads_lock_ w = Some o /\ safepoint_operation_count_ w = 1 /\ todo ⊆ active_list_ w /\ NoDup todo /\
      (o ∉ todo -> BypassSafepoints (safepoint_state_ th) = false -> IsAtSafepoint (safepoint_state_ th) = false)
  | _ => threads_lock_ w = None /\ 1 <= safepoint_operation_count_ w
  end.
(** The owner has seen every thread stop. *)
Definition all_in (pc : Pc) : bool := match pc with MarkingThreads _ | AwaitCheckIn => false | _ => true end.

Record registry_ok (w : World) : Prop := {
  ro_active : NoDup (active_list_ w);
  ro_free : NoDup (free_list_ w);
  ro_disjoint : forall u, u ∈ active_list_ w -> u ∉ free_list_ w;
  ro_new : forall u, u ∈ active_list_ w \/ u ∈ free_list_ w \/ mutator_thread_ w = Some u -> u < next_thread_ w;
  ro_mutator : forall m, mutator_thread_ w = Some m -> m ∉ free_list_ w /\ (m ∈ active_list_ w <-> scheduled_mutator_thread_ w = Some m);
  ro_scheduled : forall m, scheduled_mutator_thread_ w = Some m -> mutator_thread_ w = Some m }.
Record inv (w : World) : Prop := {
  in_registry : registry_ok w;
  in_threads : forall u, u ∈ active_list_ w -> exists th, threads_ w !! u = Some th /\ thread_wf (owner_ w) (marked w u) u th;
  in_number : number_threads_not_at_safepoint_ w = total (pend w) (active_list_ w);
  in_owner : match owner_ w with
    | None => threads_lock_ w = None /\ safepoint_operation_count_ w = 0
    | Some o => o ∈ active_list_ w /\ exists th, threads_ w !! o = Some th /\ owner_ok w o th /\
        (all_in (pc_ th) = true -> forall u, u ∈ active_list_ w -> pend w u = 0)
    end }.

Lemma total_ext f g l : (forall u, u ∈ l -> f u = g u) -> total f l = total g l.
Proof. induction l as [|u l IH]; intros H; [done|]. cbn. rewrite H, IH; [done|set_solver..]. Qed.
Lemma total_update f g l t : NoDup l -> t ∈ l -> (forall u, u ∈ l -> u <> t -> g u = f u) -> total g l = total f l - f t + g t.
Proof.
  induction l as [|u l IH]; intros Hnd Ht H; [set_solver|]. apply list.NoDup_cons in Hnd as [Hu Hnd]. cbn.
  destruct (decide (u = t)) as [->|Hne].
  - rewrite (total_ext g f) by (intros v Hv; apply H; [set_solver|by intros ->]). lia.
  - rewrite (H u) by (done || set_solver). rewrite IH; [lia|done|set_solver|]. intros v Hv Hvt. apply H; [set_solver|done].
Qed.
Lemma total_nonneg f l : (forall u, 0 <= f u) -> 0 <= total f l.
Proof. intros H. induction l as [|u l IH]; cbn; [lia|]. specialize (H u). lia. Qed.
Lemma total_zero f l : (forall u, 0 <= f u) -> total f l <= 0 -> forall u, u ∈ l -> f u = 0.
Proof.
  intros H. induction l as [|u l IH]; intros Hl v Hv; [set_solver|]. cbn in Hl. pose proof (H u). pose proof (total_nonneg f l H).
  apply elem_of_cons in Hv as [->|Hv]; [lia|]. apply IH; [lia|done].
Qed.
Lemma pend_nonneg w u : 0 <= pend w u.
Proof. unfold pend. destruct (threads_ w !! u) as [th|]; [|lia]. destruct (pending th); simpl; lia. Qed.

(** ** Preservation *)
Lemma marked_owner w t : owner_ w = Some t -> marked w t = false.
Proof. intros H. unfold marked. rewrite H. by rewrite Z.eqb_refl. Qed.
Lemma registry_same w w' : registry_ok w -> next_thread_ w' = next_thread_ w -> active_list_ w' = active_list_ w -> free_list_ w' = free_list_ w ->
  mutator_thread_ w' = mutator_thread_ w -> scheduled_mutator_thread_ w' = scheduled_mutator_thread_ w -> registry_ok w'.
Proof. intros [] H1 H2 H3 H4 H5. split; rewrite ?H1, ?H2, ?H3, ?H4, ?H5; done. Qed.

(** A step that changes one thread [t], and the operation only if [t] owns it. *)
Lemma local_step w w' t th a r b y e pc :
  inv w -> t ∈ active_list_ w -> threads_ w !! t = Some th ->
  threads_ w' = <[t := MkThread (word a r b y) e pc]> (threads_ w) -> active_list_ w' = active_list_ w -> registry_ok w' -> owner_ w' = owner_ w ->
  (owner_ w <> Some t -> threads_lock_ w' = threads_lock_ w /\ safepoint_operation_count_ w' = safepoint_operation_count_ w) ->
  number_threads_not_at_safepoint_ w' = number_threads_not_at_safepoint_ w - Z.b2z (pending th) + Z.b2z (r && negb a) ->
  thread_ok (owner_ w) (marked w t) t a r b y e pc ->
  (pending th = false -> r && negb a = false) ->
  (owner_ w = Some t -> owner_ok w' t (MkThread (word a r b y) e pc) /\ (forall u, u ∈ active_list_ w -> u <> t -> marks pc u = marks (pc_ th) u) /\
    (all_in pc = true -> all_in (pc_ th) = true \/ number_threads_not_at_safepoint_ w <= 0)) ->
  inv w'.
Proof.
  intros H Ht Hth Hths Hact Hreg Hown Hop Hnum Hok Hpend Howner.
  assert (forall u, u ∈ active_list_ w -> marked w' u = marked w u) as Hmk.
  { intros u Hu. unfold marked. rewrite Hown. destruct (owner_ w) as [o|] eqn:Ho; [|done]. rewrite Hths.
    destruct (Z.eqb_spec u o) as [|Huo]; [done|]. destruct (decide (o = t)) as [->|Hne]; [rewrite lookup_insert_eq, Hth; simpl; by apply Howner|by rewrite lookup_insert_ne]. }
  assert (pend w' t = Z.b2z (r && negb a)) as Hpt by (unfold pend, pending; rewrite Hths, lookup_insert_eq; simpl; by autorewrite with safepoint).
  assert (pend w t = Z.b2z (pending th)) as Hpt0 by (unfold pend; by rewrite Hth).
  assert (forall u, u <> t -> pend w' u = pend w u) as Hpu by (intros u Hu; unfold pend; by rewrite Hths, lookup_insert_ne).
  split.
  - done.
  - rewrite Hact. intros u Hu. rewrite Hown, (Hmk u Hu), Hths. destruct (decide (u = t)) as [->|Hne].
    + rewrite lookup_insert_eq. eexists. split; [done|]. exists a, r, b, y. done.
    + rewrite lookup_insert_ne by done. by apply (in_threads _ H).
  - rewrite Hact, Hnum, (in_number _ H), (total_update (pend w) (pend w') _ t); [lia|apply H|done|auto].
  - pose proof (in_owner _ H) as Ho. rewrite Hown. destruct (owner_ w) as [o|] eqn:Hoeq; [|destruct (Hop ltac:(done)) as [-> ->]; done].
    destruct Ho as [Hoa (tho & Htho & Hoo & Hdone)]. rewrite Hact. split; [done|]. rewrite Hths. destruct (decide (o = t)) as [->|Hne].
    + rewrite lookup_insert_eq. eexists. split; [done|]. destruct (Howner eq_refl) as (Hok' & _ & Hall). split; [done|].
      cbn [pc_]. intros Hin. assert (forall u, u ∈ active_list_ w -> pend w u = 0) as Hz.
      { destruct (Hall Hin) as [Hall'|Hle]; [rewrite Hth in Htho; injection Htho as <-; auto|].
        rewrite (in_number _ H) in Hle. apply total_zero; [apply pend_nonneg|done]. }
      intros u Hu. destruct (decide (u = t)) as [->|Hut]; [|rewrite Hpu by done; auto]. rewrite Hpt, Hpend; [done|]. specialize (Hz t Hu).
      rewrite Hpt0 in Hz. by destruct (pending th).
    + rewrite lookup_insert_ne by done. exists tho. split; [done|]. destruct (Hop ltac:(congruence)) as [Hl Hc]. split.
      * unfold owner_ok in *. by rewrite Hl, Hc, Hact.
      * intros Hin u Hu. specialize (Hdone Hin). destruct (decide (u = t)) as [->|Hut]; [|rewrite Hpu by done; auto].
        rewrite Hpt, Hpend; [done|]. specialize (Hdone t Hu). rewrite Hpt0 in Hdone. by destruct (pending th).
Qed.

(** The thread that acts. *)
Lemma acting w t th : inv w -> t ∈ active_list_ w -> threads_ w !! t = Some th ->
  exists a r b y, safepoint_state_ th = word a r b y /\
    thread_ok (owner_ w) (marked w t) t a r b y (execution_state_ th) (pc_ th) /\ (owner_ w = Some t -> r = false) /\
    pending th = r && negb a /\ (owner_ w = Some t -> owner_ok w t th).
Proof.
  intros H Ht Hth. destruct (in_threads _ H t Ht) as (th' & Hth' & a & r & b & y & Hs & Hok). rewrite Hth in Hth'. injection Hth' as <-.
  exists a, r, b, y. destruct th as [s e pc]; simpl in *. subst s. split_and!; try done.
  - intros Ho. rewrite (to_requested _ _ _ _ _ _ _ _ _ Hok), (marked_owner w t Ho). by destruct y.
  - unfold pending. simpl. by autorewrite with safepoint.
  - intros Ho. pose proof (in_owner _ H) as Hw. rewrite Ho in Hw. destruct Hw as (_ & th' & Hth' & Hok' & _). congruence.
Qed.

#[local] Arguments word : simpl never.
#[local] Arguments TryEnterSafepoint : simpl never.
#[local] Arguments TryExitSafepoint : simpl never.
#[local] Arguments IsAtSafepoint : simpl never.
#[local] Arguments IsSafepointRequested : simpl never.
#[local] Arguments IsBlockedForSafepoint : simpl never.
#[local] Arguments BypassSafepoints : simpl never.
#[local] Arguments SetAtSafepoint : simpl never.
#[local] Arguments SetSafepointRequested : simpl never.
#[local] Arguments SetBlockedForSafepoint : simpl never.
#[local] Arguments SetBypassSafepoints : simpl never.

(** [bools] splits on the bits of the word, [ok_tac] proves [thread_ok] for a
    thread whose bits and place are known. *)
Ltac bools := repeat match goal with x : bool |- _ => destruct x end.
Ltac dart := destruct_and?; repeat match goal with
  | H : in_dart ?e = _ |- context [in_dart ?e] => rewrite H
  | H : in_dart ?e = _, H' : context [in_dart ?e] |- _ => rewrite H in H'
  end.
Ltac ok_tac := match goal with Hok : thread_ok _ _ _ _ _ _ _ _ _ |- _ => destruct Hok end;
  split; simpl in *; intros; subst; dart;
  first [done | congruence | tauto | bools; simpl in *; first [done | congruence | tauto | intuition congruence]].
Ltac local_tac H Ht Hth :=
  eapply (local_step _ _ _ _ _ _ _ _ _ _ H Ht Hth); [first [reflexivity|simpl; apply insert_insert_eq]|reflexivity|eapply registry_same; [apply H|reflexivity..]|first [reflexivity|symmetry; assumption]|..].

Ltac count_tac Hp := rewrite Hp; cbn [number_threads_not_at_safepoint_ set_thread set_number set_operation]; bools; simpl; lia.

Ltac owner_tac Hoo := intros Ho; split_and!; [apply (Hoo Ho)|done|by left].

(** A thread that has been asked to stop is at a safepoint as its place says. *)
Lemma requested_at own mk u a r b y e pc : thread_ok own mk u a r b y e pc -> (own = Some u -> r = false) -> r = true -> a = at_pc e pc.
Proof.
  intros Hok Hr ->. apply (to_at _ _ _ _ _ _ _ _ _ Hok); [by intros ?%Hr|]. pose proof (to_requested _ _ _ _ _ _ _ _ _ Hok). by destruct y.
Qed.

Section Local.
Context (w : World) (t : Z) (th : Thread) (H : inv w) (Ht : t ∈ active_list_ w) (Hth : threads_ w !! t = Some th).

Ltac start a r b y Hok Hr Hp Hoo :=
  destruct (acting w t th H Ht Hth) as (a & r & b & y & Hs & Hok & Hr & Hp & Hoo); destruct th as [s0 e0 pc0]; simpl in *; subst; simpl in *.

Lemma inv_try_enter e : pc_ th = Running -> in_dart (execution_state_ th) = true -> in_dart e = false -> inv (try_enter w t th e).
Proof using H Ht Hth.
  intros Hpc Hd He. start a r b y Hok Hr Hp Hoo. unfold try_enter. cbn [safepoint_state_ execution_state_]. rewrite TryEnter_word. destruct (a || r || b || y) eqn:Hany.
  - local_tac H Ht Hth; [done|count_tac Hp|ok_tac|by rewrite Hp|]. intros Ho. split_and!; [apply (Hoo Ho)|done|by left].
  - assert (a = false /\ r = false /\ b = false /\ y = false) as (-> & -> & -> & ->) by (by destruct a, r, b, y).
    local_tac H Ht Hth; [done|count_tac Hp|ok_tac|done|]. intros Ho. split_and!; [apply (Hoo Ho)|done|by left].
Qed.
Lemma inv_enter_locked : pc_ th = EnterLocked -> exists w', proceed w t th = Some w' /\ inv w'.
Proof using H Ht Hth.
  intros Hpc. start a r b y Hok Hr Hp Hoo. pose proof (requested_at _ _ _ _ _ _ _ _ _ Hok Hr) as Ha. unfold proceed, EnterSafepointUsingLock, set_state, go. simpl.
  rewrite Hth. simpl. rewrite SetAt_word, IsRequested_word.
  destruct r; simpl; rewrite lookup_insert_eq; simpl; (eexists; split; [done|]);
    (local_tac H Ht Hth; [done| |ok_tac|done|intros Ho; split_and!; [apply (Hoo Ho)|done|by left]]); [rewrite (Ha eq_refl) in *|]; count_tac Hp.
Qed.
Lemma inv_try_exit e : pc_ th = Running -> in_dart (execution_state_ th) = false -> in_dart e = true -> inv (try_exit w t th e).
Proof using H Ht Hth.
  intros Hpc Hd He. start a r b y Hok Hr Hp Hoo. unfold try_exit. cbn [safepoint_state_ execution_state_]. rewrite TryExit_word.
  destruct (a && negb (r || b || y)) eqn:Hany.
  - assert (a = true /\ r = false /\ b = false /\ y = false) as (-> & -> & -> & ->) by (by destruct a, r, b, y).
    local_tac H Ht Hth; [done|count_tac Hp|ok_tac|done|owner_tac Hoo].
  - local_tac H Ht Hth; [done|count_tac Hp|ok_tac|by rewrite Hp|owner_tac Hoo].
Qed.
Lemma inv_exit_locked k : pc_ th = ExitLocked k \/ pc_ th = ExitWaiting k true -> exists w', proceed w t th = Some w' /\ inv w'.
Proof using H Ht Hth.
  intros Hpc. start a r b y Hok Hr Hp Hoo. pose proof (requested_at _ _ _ _ _ _ _ _ _ Hok Hr) as Ha. unfold proceed, exit_loop, set_state. simpl.
  destruct Hpc as [-> | ->]; simpl; rewrite Hth; simpl; rewrite ?lookup_insert_eq; simpl; rewrite ?SetBlocked_word, IsRequested_word;
    (destruct r; [rewrite (Ha eq_refl) in *|]); rewrite ?SetBlocked_word, ?SetAt_word; (eexists; split; [done|]);
    try destruct k; (local_tac H Ht Hth; [done|count_tac Hp|ok_tac|done|owner_tac Hoo]).
Qed.
Lemma inv_check_requested : pc_ th = Running -> in_dart (execution_state_ th) = true -> inv (check_requested w t th).
Proof using H Ht Hth.
  intros Hpc Hd. start a r b y Hok Hr Hp Hoo. unfold check_requested. cbn [safepoint_state_]. rewrite IsRequested_word.
  destruct r; (local_tac H Ht Hth; [done|count_tac Hp|ok_tac|by rewrite Hp|owner_tac Hoo]).
Qed.
Lemma inv_block_locked : pc_ th = BlockLocked -> exists w', proceed w t th = Some w' /\ inv w'.
Proof using H Ht Hth.
  intros Hpc. start a r b y Hok Hr Hp Hoo. pose proof (requested_at _ _ _ _ _ _ _ _ _ Hok Hr) as Ha. unfold proceed, BlockForSafepoint, block_loop, set_state, go. simpl.
  rewrite Hth. simpl. rewrite IsRequested_word. destruct r; [rewrite (Ha eq_refl) in *|].
  - rewrite SetAt_word. simpl. rewrite lookup_insert_eq. simpl. rewrite IsRequested_word, SetBlocked_word. eexists. split; [done|].
    local_tac H Ht Hth; [done|count_tac Hp|ok_tac|done|owner_tac Hoo].
  - simpl. eexists. split; [done|]. local_tac H Ht Hth; [done|count_tac Hp|ok_tac|done|owner_tac Hoo].
Qed.
Lemma inv_block_woken : pc_ th = BlockWaiting true -> exists w', proceed w t th = Some w' /\ inv w'.
Proof using H Ht Hth.
  intros Hpc. start a r b y Hok Hr Hp Hoo. pose proof (requested_at _ _ _ _ _ _ _ _ _ Hok Hr) as Ha. unfold proceed, block_loop, set_state. simpl.
  rewrite Hth. simpl. rewrite lookup_insert_eq. simpl. rewrite SetBlocked_word, IsRequested_word. (destruct r; [rewrite (Ha eq_refl) in *|]);
    rewrite ?SetBlocked_word, ?SetAt_word; (eexists; split; [done|]); (local_tac H Ht Hth; [done|count_tac Hp|ok_tac|done|owner_tac Hoo]).
Qed.
(** Steps that change nothing but the place of the thread. *)
Lemma inv_go e pc : exec_ok e pc -> (owner_ w <> Some t -> BypassSafepoints (safepoint_state_ th) = false -> at_pc e pc = at_pc (execution_state_ th) (pc_ th)) ->
  waits pc = waits (pc_ th) -> (asleep pc = true -> asleep (pc_ th) = true) -> (in_queue pc = true -> in_queue (pc_ th) = true) ->
  (pc = OperationWaiting false -> owner_ w <> None) -> is_loop pc = false -> is_loop (pc_ th) = false -> exists w', go w t e pc = Some w' /\ inv w'.
Proof using H Ht Hth.
  intros H1 H2 H3 H4 H5 H6 H7 H8. start a r b y Hok Hr Hp Hoo. unfold go. rewrite Hth. simpl. eexists. split; [done|].
  rewrite Bypass_word in H2. local_tac H Ht Hth; [done|count_tac Hp| |by rewrite Hp|].
  - destruct Hok. split; try done; try congruence; auto. intros. rewrite H2 by done. auto.
  - intros Ho. specialize (Hoo Ho). unfold owner_ok in *. simpl in *. destruct pc, pc0; done || (split_and!; [apply Hoo|apply Hoo|done|by left]).
Qed.
End Local.

(** ** The loops of an operation *)
Lemma EnterSafepoint_eq w t a r b y e pc : threads_ w !! t = Some (MkThread (word a r b y) e pc) ->
  EnterSafepoint w t = Some (set_number (set_thread w t (MkThread (word true r b y) e pc)) (number_threads_not_at_safepoint_ w - Z.b2z r)).
Proof.
  intros Hth. unfold EnterSafepoint, EnterSafepointUsingLock, set_state. rewrite Hth. cbn [mbind option_bind safepoint_state_ execution_state_ pc_]. rewrite TryEnter_word.
  destruct (a || r || b || y) eqn:Hany.
  - rewrite ?Hth. cbn [mbind option_bind safepoint_state_ execution_state_ pc_]. rewrite SetAt_word, IsRequested_word. destruct r; [done|]. simpl. by rewrite Z.sub_0_r.
  - assert (a = false /\ r = false /\ b = false /\ y = false) as (-> & -> & -> & ->) by (by destruct a, r, b, y). rewrite ?Hth. simpl. by rewrite Z.sub_0_r.
Qed.
Lemma in_progress_iff w : inv w -> SafepointInProgress w = match owner_ w with Some _ => true | None => false end.
Proof.
  intros H. unfold SafepointInProgress. pose proof (in_owner _ H) as Ho. destruct (owner_ w) as [o|]; [|by rewrite andb_false_r].
  rewrite andb_true_r. destruct Ho as (_ & th & _ & Ho & _). unfold owner_ok in Ho. destruct (pc_ th); destruct_and?; lia.
Qed.
(** A thread takes the operation. *)
Lemma inv_begin w t s e : inv w -> t ∈ active_list_ w -> threads_ w !! t = Some (MkThread s e OperationLocked) -> owner_ w = None ->
  inv (set_thread (set_operation w (Some t) 1 (Some t)) t (MkThread s kThreadInVM (MarkingThreads (active_list_ w)))).
Proof.
  intros H Ht Hth Ho. destruct (acting w t _ H Ht Hth) as (a & r & b & y & Hs & Hok & _ & Hp & _). simpl in Hs. subst s. simpl in Hok.
  assert (forall u, marked w u = false) as Hm by (intros u; unfold marked; by rewrite Ho).
  split.
  - eapply registry_same; [apply H|reflexivity..].
  - simpl. intros u Hu. assert (marked (set_thread (set_operation w (Some t) 1 (Some t)) t (MkThread (word a r b y) kThreadInVM (MarkingThreads (active_list_ w)))) u = false) as ->.
    { unfold marked. simpl. rewrite lookup_insert_eq. simpl. rewrite bool_decide_true by done. by rewrite andb_false_r. }
    destruct (decide (u = t)) as [->|Hne].
    + rewrite lookup_insert_eq. eexists. split; [done|]. exists a, r, b, y. split; [done|]. rewrite Hm in Hok. ok_tac.
    + rewrite lookup_insert_ne by done. destruct (in_threads _ H u Hu) as (th & Hu' & a' & r' & b' & y' & Hs & Hok'). exists th. split; [done|]. exists a', r', b', y'. split; [done|].
      rewrite Hm, Ho in Hok'. destruct Hok'. split; [done|intros _; by apply to_at0|done..|intros _ ?; congruence|done|intros Hl; by apply to_loop0 in Hl].
  - simpl. rewrite (in_number _ H). apply total_ext. intros u Hu. unfold pend. simpl. destruct (decide (u = t)) as [->|Hne]; [rewrite lookup_insert_eq, Hth|by rewrite lookup_insert_ne].
    done.
  - simpl. split; [done|]. rewrite lookup_insert_eq. eexists. split; [done|]. split; [|done]. simpl. split_and!; try done. apply H.
Qed.
Lemma inv_loop w t s e : inv w -> t ∈ active_list_ w -> threads_ w !! t = Some (MkThread s e OperationLocked) -> lock_free w = true ->
  exists w', SafepointThreads_loop w t = Some w' /\ inv w'.
Proof.
  intros H Ht Hth Hlock. unfold SafepointThreads_loop. rewrite (in_progress_iff w H). destruct (owner_ w) as [o|] eqn:Ho; cycle 1.
  { unfold go. simpl. rewrite Hth. simpl. eexists. split; [done|]. by eapply inv_begin. }
  destruct (acting w t _ H Ht Hth) as (a & r & b & y & Hs & Hok & Hr & Hp & Hoo). simpl in Hs. subst s. simpl in Hok.
  unfold owns. rewrite Ho. destruct (Z.eqb_spec o t) as [->|Hne].
  - unfold go. simpl. rewrite Hth. simpl. eexists. split; [done|]. local_tac H Ht Hth; [done|count_tac Hp|ok_tac|by rewrite Hp|].
    intros _. specialize (Hoo Ho). unfold owner_ok in *. simpl in *. destruct_and?. split_and!; try done; [lia|by left].
  - unfold go. rewrite Hth. cbn [mbind option_bind]. erewrite EnterSafepoint_eq by (simpl; rewrite lookup_insert_eq; done). simpl. eexists. split; [done|].
    pose proof (requested_at _ _ _ _ _ _ _ _ _ Hok Hr) as Ha. rewrite Ho in *.
    local_tac H Ht Hth; [done| |rewrite Ho in *; ok_tac|by rewrite andb_false_r|congruence].
    cbn [number_threads_not_at_safepoint_ set_thread set_number]. rewrite Hp. destruct r; [rewrite (Ha eq_refl)|]; simpl; lia.
Qed.
Lemma loop_place w t s e e' pc pc' : SafepointThreads_loop (set_thread w t (MkThread s e pc)) t = SafepointThreads_loop (set_thread w t (MkThread s e' pc')) t.
Proof.
  unfold SafepointThreads_loop, SafepointInProgress, owns, go. simpl. rewrite !lookup_insert_eq. simpl.
  destruct (_ && _); [destruct (match owner_ w with Some o => o =? t | None => false end)|].
  all: unfold set_thread; simpl; by rewrite !insert_insert_eq.
Qed.
Lemma inv_wake w t s e : inv w -> t ∈ active_list_ w -> threads_ w !! t = Some (MkThread s e (OperationWaiting true)) -> lock_free w = true ->
  exists w', wake_operation w t = Some w' /\ inv w'.
Proof.
  intros H Ht Hth Hlock. destruct (acting w t _ H Ht Hth) as (a & r & b & y & Hs & Hok & Hr & Hp & Hoo). simpl in Hs. subst s. simpl in Hok.
  unfold wake_operation, set_state, go. rewrite Hth. cbn [mbind option_bind safepoint_state_ execution_state_ pc_]. rewrite TryExit_word.
  destruct (a && negb (r || b || y)) eqn:Hany.
  - assert (a = true /\ r = false /\ b = false /\ y = false) as (-> & -> & -> & ->) by (by destruct a, r, b, y). rewrite ?Hth. cbn [mbind option_bind].
    rewrite (loop_place w t _ _ e _ OperationLocked). eapply inv_loop; [|done|simpl; by rewrite lookup_insert_eq|done].
    local_tac H Ht Hth; [done|count_tac Hp|ok_tac|done|owner_tac Hoo].
  - eexists. split; [done|]. local_tac H Ht Hth; [done|count_tac Hp|ok_tac|by rewrite Hp|owner_tac Hoo].
Qed.

(** One iteration of a loop of the owner [t]: the thread [u] gets the bits
    of [thu], the loop goes on with [todo]. *)
Lemma inv_iterate w w' t th u thu pc s :
  inv w -> owner_ w = Some t -> threads_ w !! t = Some th -> u ∈ active_list_ w -> u <> t ->
  threads_ w' = <[t := MkThread s kThreadInVM pc]> (<[u := thu]> (threads_ w)) -> safepoint_state_ th = s ->
  active_list_ w' = active_list_ w -> registry_ok w' -> owner_ w' = owner_ w ->
  (forall x, x ∈ active_list_ w -> x <> u -> x <> t -> marks pc x = marks (pc_ th) x) -> exec_ok kThreadInVM pc -> is_loop pc = true -> is_loop (pc_ th) = true ->
  thread_wf (Some t) (marks pc u) u thu ->
  number_threads_not_at_safepoint_ w' = number_threads_not_at_safepoint_ w - pend w u + Z.b2z (pending thu) ->
  owner_ok w' t (MkThread s kThreadInVM pc) -> (all_in pc = true -> all_in (pc_ th) = true /\ pending thu = false) -> inv w'.
Proof.
  intros H Ho Hth Hu Hut Hths Hs Hact Hreg Hown Hmk Hex Hl Hl0 Hwf Hnum Hok Hall.
  assert (t ∈ active_list_ w) as Ht by (pose proof (in_owner _ H) as Hw; rewrite Ho in Hw; apply Hw).
  assert (forall x, x <> t -> marked w' x = marks pc x) as Hm' by (intros x Hx; unfold marked; rewrite Hown, Ho, Hths, lookup_insert_eq; by replace (x =? t) with false by lia).
  assert (forall x, x <> t -> marked w x = marks (pc_ th) x) as Hm by (intros x Hx; unfold marked; rewrite Ho, Hth; by replace (x =? t) with false by lia).
  assert (pend w' u = Z.b2z (pending thu)) as Hpu by (unfold pend; rewrite Hths, lookup_insert_ne, lookup_insert_eq; done).
  assert (forall x, x <> u -> pend w' x = pend w x) as Hpx.
  { intros x Hx. unfold pend. rewrite Hths. destruct (decide (x = t)) as [->|Hne]; [rewrite lookup_insert_eq, Hth; unfold pending; by rewrite Hs|by rewrite !lookup_insert_ne]. }
  split; [done| | |].
  - rewrite Hact, Hown, Hths. intros x Hx. destruct (decide (x = t)) as [->|Hxt].
    + rewrite lookup_insert_eq. eexists. split; [done|]. destruct (acting w t th H Ht Hth) as (a & r & b & y & Hst & Hokt & Hr & _). exists a, r, b, y. simpl.
      split; [congruence|]. assert (marked w' t = false) as -> by (apply marked_owner; congruence). rewrite (Hr Ho) in *. destruct Hokt. rewrite Ho in *.
      split; try done; [by destruct y|by destruct pc, (pc_ th)|by destruct pc|by destruct pc].
    + rewrite lookup_insert_ne by done. rewrite (Hm' x Hxt), Ho. destruct (decide (x = u)) as [->|Hxu]; [rewrite lookup_insert_eq; by exists thu|].
      rewrite lookup_insert_ne by done. destruct (in_threads _ H x Hx) as (thx & Hthx & Hwfx). exists thx. split; [done|].
      by rewrite Ho, (Hm x Hxt), <- (Hmk x Hx Hxu Hxt) in Hwfx.
  - rewrite Hact, Hnum, (in_number _ H), (total_update (pend w) (pend w') _ u); [lia|apply H|done|auto].
  - rewrite Hown, Ho, Hact, Hths, lookup_insert_eq. split; [done|]. eexists. split; [done|]. split; [done|]. cbn [pc_]. intros Hin x Hx.
    destruct (Hall Hin) as [Hall' Hpd]. pose proof (in_owner _ H) as Hw. rewrite Ho in Hw. destruct Hw as (_ & th' & Hth' & _ & Hdone). rewrite Hth in Hth'. injection Hth' as <-.
    destruct (decide (x = u)) as [->|Hxu]; [by rewrite Hpu, Hpd|]. rewrite Hpx by done. auto.
Qed.

Section Iterate.
Context (w : World) (t : Z) (th : Thread) (H : inv w) (Ht : t ∈ active_list_ w) (Hth : threads_ w !! t = Some th).

Lemma looping : is_loop (pc_ th) = true -> owner_ w = Some t /\ execution_state_ th = kThreadInVM /\ owner_ok w t th.
Proof using H Ht Hth.
  intros Hl. destruct (acting w t th H Ht Hth) as (a & r & b & y & Hs & Hok & _ & _ & Hoo). pose proof (to_loop _ _ _ _ _ _ _ _ _ Hok Hl) as Ho.
  split_and!; [done| |auto]. pose proof (to_exec _ _ _ _ _ _ _ _ _ Hok) as He. by destruct (pc_ th).
Qed.
(** The thread looked at. *)
Lemma looked_at u : owner_ w = Some t -> u ∈ active_list_ w -> u <> t -> exists thu a r b y, threads_ w !! u = Some thu /\ safepoint_state_ thu = word a r b y /\
  thread_ok (Some t) (marks (pc_ th) u) u a r b y (execution_state_ thu) (pc_ thu) /\ pend w u = Z.b2z (r && negb a).
Proof using H Hth.
  intros Ho Hu Hne. destruct (in_threads _ H u Hu) as (thu & Hthu & a & r & b & y & Hs & Hok). exists thu, a, r, b, y.
  assert (marked w u = marks (pc_ th) u) as Hm by (unfold marked; rewrite Ho, Hth; by replace (u =? t) with false by lia). rewrite Ho, Hm in Hok. split_and!; try done.
  unfold pend, pending. rewrite Hthu, Hs. by autorewrite with safepoint.
Qed.
Lemma inv_mark u todo : pc_ th = MarkingThreads (u :: todo) -> exists w', proceed w t th = Some w' /\ inv w'.
Proof using H Ht Hth.
  intros Hpc. destruct looping as (Ho & He & Hoo); [by rewrite Hpc|]. unfold owner_ok in Hoo. rewrite Hpc in Hoo. destruct Hoo as (Hlock & Hcount & Hsub & Hnd).
  apply list.NoDup_cons in Hnd as [Hu Hnd]. assert (u ∈ active_list_ w) as Hua by set_solver. unfold proceed, mark_thread. rewrite Hpc, He.
  assert (forall s w', threads_lock_ w' = threads_lock_ w -> safepoint_operation_count_ w' = safepoint_operation_count_ w -> active_list_ w' = active_list_ w ->
    owner_ok w' t (MkThread s kThreadInVM (MarkingThreads todo))) as Hoo'.
  { intros s w' Hk Hc Ha. unfold owner_ok. simpl. rewrite Hk, Hc, Ha. split_and!; [done..|set_solver|done]. }
  assert (forall x, x <> u -> marks (MarkingThreads todo) x = marks (pc_ th) x) as Hmk.
  { intros x Hx. rewrite Hpc. simpl. f_equal. apply bool_decide_ext. set_solver. }
  destruct (decide (u = t)) as [->|Hne].
  - destruct (acting w t th H Ht Hth) as (a & r & b & y & Hs & Hok & Hr & Hp & _). rewrite Hth. cbn [mbind option_bind]. rewrite Hs, Bypass_word, Z.eqb_refl, SetAt_word, Hpc in *.
    rewrite (Hr Ho), Ho in *. destruct y; unfold set_state, go; simpl; rewrite Hth; simpl; rewrite ?lookup_insert_eq, ?Hs; simpl; (eexists; split; [done|]);
      (local_tac H Ht Hth; [congruence|by rewrite Hp; simpl; lia|rewrite Ho; ok_tac|done|intros _; split_and!; [by apply Hoo'|intros x _ Hx; rewrite Hpc; by apply Hmk|done]]).
  - destruct (looked_at u Ho Hua Hne) as (thu & a & r & b & y & Hthu & Hs & Hok & Hp). rewrite Hpc in Hok. simpl in Hok. rewrite bool_decide_true in Hok by set_solver.
    assert (r = false) as -> by (rewrite (to_requested _ _ _ _ _ _ _ _ _ Hok); by destruct y).
    assert (marks (MarkingThreads todo) u = true) as Hmu by (simpl; by rewrite bool_decide_false).
    rewrite Hthu. cbn [mbind option_bind]. rewrite Hs, Bypass_word. destruct y.
    + unfold go. cbn [mbind option_bind]. rewrite Hth. simpl. eexists. split; [done|].
      eapply (inv_iterate w _ t th u thu _ _ H Ho Hth Hua Hne); [simpl; by rewrite (insert_id _ _ _ Hthu)|done|done|eapply registry_same; [apply H|reflexivity..]|done| |done|done|by rewrite Hpc| | |by apply Hoo'|done].
      * intros x _ Hx _. by apply Hmk.
      * exists a, false, b, true. split; [done|]. rewrite Hmu. ok_tac.
      * unfold pending. rewrite Hs, Hp. autorewrite with safepoint. simpl. lia.
    + replace (u =? t) with false by lia. unfold set_state, go. rewrite Hthu. cbn [mbind option_bind]. rewrite SetRequested_word, IsAt_word.
      assert (forall n, inv (set_thread (set_number (set_thread w u (MkThread (word a true b false) (execution_state_ thu) (pc_ thu))) n) t (MkThread (safepoint_state_ th) kThreadInVM (MarkingThreads todo))) \/ n <> number_threads_not_at_safepoint_ w + Z.b2z (negb a)) as Hn.
      { intros n. destruct (decide (n = number_threads_not_at_safepoint_ w + Z.b2z (negb a))) as [->|]; [left|by right].
        eapply (inv_iterate w _ t th u _ _ _ H Ho Hth Hua Hne); [simpl; reflexivity|done|done|eapply registry_same; [apply H|reflexivity..]|done| |done|done|by rewrite Hpc| | |by apply Hoo'|done].
        * intros x _ Hx _. by apply Hmk.
        * exists a, true, b, false. split; [done|]. rewrite Hmu. simpl. ok_tac.
        * unfold pending. simpl. autorewrite with safepoint. rewrite Hp. simpl. lia. }
      destruct (negb a) eqn:Hna; simpl; rewrite lookup_insert_ne by done; rewrite Hth; simpl; (eexists; split; [done|]).
      * destruct (Hn (number_threads_not_at_safepoint_ w + 1)) as [Hi|Hi]; [exact Hi|simpl in Hi; lia].
      * destruct (Hn (number_threads_not_at_safepoint_ w)) as [Hi|Hi]; [exact Hi|simpl in Hi; lia].
Qed.
Lemma inv_resume u todo : pc_ th = ResumingThreads (u :: todo) -> exists w', proceed w t th = Some w' /\ inv w'.
Proof using H Ht Hth.
  intros Hpc. destruct looping as (Ho & He & Hoo); [by rewrite Hpc|]. unfold owner_ok in Hoo. rewrite Hpc in Hoo. destruct Hoo as (Hlock & Hcount & Hsub & Hnd & Hat).
  apply list.NoDup_cons in Hnd as [Hu Hnd]. assert (u ∈ active_list_ w) as Hua by set_solver. unfold proceed, resume_thread. rewrite Hpc, He.
  assert (forall s w', threads_lock_ w' = threads_lock_ w -> safepoint_operation_count_ w' = safepoint_operation_count_ w -> active_list_ w' = active_list_ w ->
    (t ∉ todo -> BypassSafepoints s = false -> IsAtSafepoint s = false) -> owner_ok w' t (MkThread s kThreadInVM (ResumingThreads todo))) as Hoo'.
  { intros s w' Hk Hc Ha Hs. unfold owner_ok. simpl. rewrite Hk, Hc, Ha. split_and!; [done..|set_solver|done|done]. }
  assert (forall x, x <> u -> marks (ResumingThreads todo) x = marks (pc_ th) x) as Hmk.
  { intros x Hx. rewrite Hpc. simpl. apply bool_decide_ext. set_solver. }
  destruct (decide (u = t)) as [->|Hne].
  - destruct (acting w t th H Ht Hth) as (a & r & b & y & Hs & Hok & Hr & Hp & _). rewrite Hth. cbn [mbind option_bind]. rewrite Hs, Bypass_word, Z.eqb_refl, SetAt_word, Hpc in *.
    rewrite (Hr Ho), Ho in *. destruct y; unfold set_state, go; simpl; rewrite Hth; simpl; rewrite ?lookup_insert_eq, ?Hs; simpl; (eexists; split; [done|]);
      (local_tac H Ht Hth; [congruence|by rewrite Hp; simpl; lia|rewrite Ho; ok_tac|done|intros _; split_and!; [apply Hoo'; try done; by autorewrite with safepoint|intros x _ Hx; rewrite Hpc; by apply Hmk|left; by rewrite Hpc]]).
  - destruct (looked_at u Ho Hua Hne) as (thu & a & r & b & y & Hthu & Hs & Hok & Hp). rewrite Hpc in Hok. simpl in Hok. rewrite bool_decide_true in Hok by set_solver.
    assert (marks (ResumingThreads todo) u = false) as Hmu by (simpl; by rewrite bool_decide_false).
    assert (pend w u = 0) as Hz. { pose proof (in_owner _ H) as Hw. rewrite Ho in Hw. destruct Hw as (_ & th' & Hth' & _ & Hdone). rewrite Hth in Hth'. injection Hth' as <-. rewrite Hpc in Hdone. auto. }
    assert (t ∉ todo -> BypassSafepoints (safepoint_state_ th) = false -> IsAtSafepoint (safepoint_state_ th) = false) as Hat' by (intros; apply Hat; set_solver).
    assert (exists thu', (if BypassSafepoints (safepoint_state_ thu) then Some w else if u =? t then set_state w u (SetAtSafepoint false (safepoint_state_ thu)) else
        w ← set_state w u (SetSafepointRequested false (safepoint_state_ thu));
        if IsBlockedForSafepoint (safepoint_state_ thu) then go w u (execution_state_ thu) (notify (pc_ thu)) else Some w) = Some (with_threads w (<[u := thu']> (threads_ w))) /\
      thread_wf (Some t) false u thu' /\ pending thu' = false) as (thu' & Hstep & Hwf & Hpd).
    { rewrite Hs, Bypass_word, IsBlocked_word, SetRequested_word. replace (u =? t) with false by lia. destruct y.
      - exists thu. rewrite (insert_id _ _ _ Hthu). split_and!; [by destruct w| |].
        + exists a, r, b, true. split; [done|]. ok_tac.
        + unfold pending. rewrite Hs. autorewrite with safepoint. rewrite (to_requested _ _ _ _ _ _ _ _ _ Hok). done.
      - unfold set_state, go. rewrite Hthu. destruct b; simpl.
        + rewrite lookup_insert_eq. simpl. exists (MkThread (word a false true false) (execution_state_ thu) (notify (pc_ thu))).
          unfold set_thread, with_threads. simpl. rewrite insert_insert_eq. split_and!; [done| |unfold pending; simpl; by autorewrite with safepoint].
          exists a, false, true, false. split; [done|]. simpl. clear Hs. destruct thu as [? e pc]. simpl in *. destruct Hok. destruct pc; try done; split; simpl in *; try done; auto.
        + exists (MkThread (word a false false false) (execution_state_ thu) (pc_ thu)). split_and!; [done| |unfold pending; simpl; by autorewrite with safepoint].
          exists a, false, false, false. split; [done|]. simpl. clear Hs. destruct thu as [? e pc]. simpl in *. destruct Hok. destruct pc; try done; split; simpl in *; try done; auto. }
    rewrite Hthu. cbn [mbind option_bind]. rewrite Hstep. cbn [mbind option_bind]. unfold go. simpl. rewrite lookup_insert_ne, Hth by done. simpl. eexists. split; [done|].
    eapply (inv_iterate w _ t th u thu' _ _ H Ho Hth Hua Hne); [simpl; reflexivity|done|done|eapply registry_same; [apply H|reflexivity..]|done| |done|done|by rewrite Hpc|by rewrite Hmu| |by apply Hoo'|by rewrite Hpc].
    + intros x _ Hx _. by apply Hmk.
    + rewrite Hz, Hpd. simpl. lia.
Qed.
(** The ends of the loops. *)
Lemma inv_marked_all : pc_ th = MarkingThreads [] -> exists w', proceed w t th = Some w' /\ inv w'.
Proof using H Ht Hth.
  intros Hpc. destruct looping as (Ho & He & Hoo); [by rewrite Hpc|]. unfold owner_ok in Hoo. rewrite Hpc in Hoo. destruct_and?.
  destruct (acting w t th H Ht Hth) as (a & r & b & y & Hs & Hok & Hr & Hp & _). unfold proceed, go. rewrite Hpc, He. simpl. rewrite Hth. simpl. rewrite Hs. eexists. split; [done|].
  rewrite Hpc in Hok. local_tac H Ht Hth; [congruence|count_tac Hp|ok_tac|by rewrite Hp|]. intros _. split_and!; [done|by rewrite Hpc|by rewrite Hpc].
Qed.
Lemma inv_checked_in w' : pc_ th = AwaitCheckIn -> proceed w t th = Some w' -> inv w'.
Proof using H Ht Hth.
  intros Hpc. destruct looping as (Ho & He & Hoo); [by rewrite Hpc|]. unfold owner_ok in Hoo. rewrite Hpc in Hoo. destruct_and?.
  destruct (acting w t th H Ht Hth) as (a & r & b & y & Hs & Hok & Hr & Hp & _). unfold proceed, go, check. rewrite Hpc, He. destruct (Z.leb_spec (number_threads_not_at_safepoint_ w) 0) as [Hn|]; [|done].
  simpl. rewrite Hth. simpl. rewrite Hs. intros [= <-]. rewrite Hpc in Hok.
  local_tac H Ht Hth; [congruence|count_tac Hp|ok_tac|by rewrite Hp|]. intros _. split_and!; [split; simpl; [done|lia]|by rewrite Hpc|by right].
Qed.
Lemma inv_end : pc_ th = Running -> owner_ w = Some t -> exists w', ResumeThreads w t = Some w' /\ inv w'.
Proof using H Ht Hth.
  intros Hpc Ho. destruct (acting w t th H Ht Hth) as (a & r & b & y & Hs & Hok & Hr & Hp & Hoo). specialize (Hoo Ho). unfold owner_ok in Hoo. rewrite Hpc in *. destruct_and?.
  unfold ResumeThreads, go. destruct (Z.ltb_spec 1 (safepoint_operation_count_ w)); simpl; rewrite Hth; simpl; rewrite Hs; (eexists; split; [done|]).
  - local_tac H Ht Hth; [congruence|count_tac Hp|ok_tac|by rewrite Hp|]. intros _. split_and!; [split; simpl; [done|lia]|by rewrite Hpc|left; by rewrite Hpc].
  - local_tac H Ht Hth; [congruence|count_tac Hp|ok_tac|by rewrite Hp|]. intros _. split_and!; [|by intros u Hu _; rewrite Hpc; simpl; rewrite bool_decide_true|left; by rewrite Hpc].
    unfold owner_ok. simpl. split_and!; [done|lia|done|apply H|]. done.
Qed.
End Iterate.

Lemma notify_all_facts th : safepoint_state_ (notify_all th) = safepoint_state_ th /\ execution_state_ (notify_all th) = execution_state_ th /\
  pc_ (notify_all th) = (match pc_ th with OperationWaiting _ => OperationWaiting true | pc => pc end).
Proof. destruct th as [s e pc]. by destruct pc. Qed.
Lemma inv_finish w t th : inv w -> t ∈ active_list_ w -> threads_ w !! t = Some th -> pc_ th = ResumingThreads [] ->
  exists w', finish_resume w t = Some w' /\ inv w'.
Proof.
  intros H Ht Hth Hpc. destruct (looping w t th H Ht Hth) as (Ho & He & Hoo); [by rewrite Hpc|]. unfold owner_ok in Hoo. rewrite Hpc in Hoo. destruct Hoo as (_ & _ & _ & _ & Hat).
  unfold finish_resume, go. simpl. rewrite lookup_fmap, Hth. simpl. eexists. split; [done|].
  assert (forall x, marked w x = false) as Hm. { intros x. unfold marked. rewrite Ho, Hth, Hpc. simpl. by rewrite andb_false_r. }
  destruct (notify_all_facts th) as (Hns & _). split.
  - eapply registry_same; [apply H|reflexivity..].
  - simpl. intros x Hx. unfold marked. simpl. destruct (decide (x = t)) as [->|Hne].
    + rewrite lookup_insert_eq. eexists. split; [done|]. destruct (acting w t th H Ht Hth) as (a & r & b & y & Hs & Hok & Hr & _). exists a, r, b, y. rewrite Hns. split; [done|].
      rewrite Hm, Hpc in Hok. rewrite Hs, Bypass_word, IsAt_word in Hat. specialize (Hat ltac:(set_solver)). rewrite (Hr Ho) in *. destruct Hok. split; simpl in *; try done; auto.
    + rewrite lookup_insert_ne, lookup_fmap by done. destruct (in_threads _ H x Hx) as (thx & -> & a & r & b & y & Hs & Hok). simpl. eexists. split; [done|].
      destruct (notify_all_facts thx) as (Hs' & He' & Hp'). exists a, r, b, y. rewrite Hs'. split; [done|]. rewrite He', Hp'. rewrite Hm, Ho in Hok. clear Hs Hs' He' Hp'. generalize dependent (pc_ thx). intros pc Hok. destruct Hok.
      assert (a = at_pc (execution_state_ thx) pc \/ y = true) as Ha by (destruct y; [by right|left; apply to_at0; congruence]).
      split; [done| |by destruct pc..|done|by destruct pc|].
      * intros _ Hy. destruct Ha as [->|?]; [by destruct pc|congruence].
      * intros Hl. assert (is_loop pc = true) as Hl' by (by destruct pc). specialize (to_loop0 Hl'). congruence.
  - simpl. rewrite (in_number _ H). apply total_ext. intros x Hx. unfold pend. simpl. destruct (decide (x = t)) as [->|Hne].
    + rewrite lookup_insert_eq, Hth. unfold pending. simpl. by rewrite Hns.
    + rewrite lookup_insert_ne, lookup_fmap by done. destruct (threads_ w !! x) as [thx|]; [|done]. simpl. unfold pending. by rewrite (proj1 (notify_all_facts thx)).
  - done.
Qed.

(** ** Scheduling *)
Lemma remove_first_spec t l : NoDup l -> NoDup (remove_first t l) /\ forall x, x ∈ remove_first t l <-> x ∈ l /\ x <> t.
Proof.
  induction l as [|c l IH]; intros Hnd; cbn; [split; [constructor|set_solver]|]. apply list.NoDup_cons in Hnd as [Hc Hnd]. destruct (IH Hnd) as [IH1 IH2].
  destruct (Z.eqb_spec c t) as [->|Hne]; [split; [done|]; intros x; split; [intros Hx; split; [set_solver|by intros ->]|set_solver]|].
  split; [constructor; [by rewrite IH2; intros [? _]|done]|]. intros x. rewrite !elem_of_cons, IH2. split; [intros [->|[? ?]]; auto|intros [[->|?] ?]; auto].
Qed.
Lemma total_remove f t l : NoDup l -> t ∈ l -> total f (remove_first t l) = total f l - f t.
Proof.
  induction l as [|c l IH]; intros Hnd Ht; [set_solver|]. apply list.NoDup_cons in Hnd as [Hc Hnd]. cbn. destruct (Z.eqb_spec c t) as [->|Hne]; [lia|].
  cbn. rewrite IH; [lia|done|set_solver].
Qed.
(** The thread that is scheduled is not active yet. *)
Lemma free_thread w is_mutator : registry_ok w -> may_schedule w is_mutator = true ->
  exists t w', GetFreeThreadLocked w is_mutator = (t, w') /\ t ∉ active_list_ w /\ active_list_ w' = t :: active_list_ w /\
    (forall u, u ∈ active_list_ w -> threads_ w' !! u = threads_ w !! u) /\ threads_lock_ w' = threads_lock_ w /\ owner_ w' = owner_ w /\
    number_threads_not_at_safepoint_ w' = number_threads_not_at_safepoint_ w /\ safepoint_operation_count_ w' = safepoint_operation_count_ w /\
    registry_ok (if is_mutator then set_registry w' (next_thread_ w') (active_list_ w') (free_list_ w') (mutator_thread_ w') (Some t) else w').
Proof.
  intros R Hmay. destruct R as [Hact Hfree Hdis Hnew Hmut Hsch]. unfold may_schedule in Hmay. unfold GetFreeThreadLocked, GetFromFreelistLocked.
  assert (forall u, u ∈ active_list_ w -> u <> next_thread_ w) as Hn1 by (intros u Hu ->; specialize (Hnew _ (or_introl Hu)); lia).
  assert (forall u, u ∈ free_list_ w -> u <> next_thread_ w) as Hn2 by (intros u Hu ->; specialize (Hnew _ (or_intror (or_introl Hu))); lia).
  assert (mutator_thread_ w <> Some (next_thread_ w)) as Hn3 by (intros Hm; specialize (Hnew _ (or_intror (or_intror Hm))); lia).
  destruct is_mutator; simpl in Hmay; [destruct (scheduled_mutator_thread_ w) as [m|] eqn:Hs; [done|]; destruct (mutator_thread_ w) as [m|] eqn:Hm|].
  - eexists m, _. split; [done|]. destruct (Hmut m eq_refl) as [Hmf Hma]. assert (m ∉ active_list_ w) as Hma' by (by rewrite Hma). simpl. split_and!; try done.
    split; simpl; rewrite ?Hm, ?Hs; try done.
    + by constructor.
    + set_solver.
    + intros u [[->|Hu]%elem_of_cons|[Hu|Hu]]; auto.
    + intros m' [= <-]. split; [done|]. split; [done|set_solver].
  - destruct (free_list_ w) as [|t free] eqn:Hf.
    + eexists _, _. split; [done|]. simpl. split_and!; try done; [by intros Hu%Hn1|intros u Hu; rewrite lookup_insert_ne; [done|by apply not_eq_sym, Hn1]|].
      split; simpl; try done.
      * constructor; [by intros Hu%Hn1|done].
      * set_solver.
      * intros u [[->|Hu]%elem_of_cons|[Hu|[= <-]]]; [lia| |set_solver|lia]. specialize (Hnew u (or_introl Hu)). lia.
      * intros m' [= <-]. split; [set_solver|]. split; [done|set_solver].
    + eexists t, _. split; [done|]. apply list.NoDup_cons in Hfree as [Ht Hfree]. assert (t ∉ active_list_ w) as Hta by (intros Hu%Hdis; set_solver). simpl. split_and!; try done.
      split; simpl; try done.
      * by constructor.
      * set_solver.
      * intros u [[->|Hu]%elem_of_cons|[Hu|[= <-]]]; apply Hnew; set_solver.
      * intros m' [= <-]. split; [done|]. split; [done|set_solver].
  - destruct (free_list_ w) as [|t free] eqn:Hf.
    + eexists _, _. split; [done|]. simpl. split_and!; try done; [by intros Hu%Hn1|intros u Hu; rewrite lookup_insert_ne; [done|by apply not_eq_sym, Hn1]|].
      split; simpl; try done.
      * constructor; [by intros Hu%Hn1|done].
      * set_solver.
      * intros u [[->|Hu]%elem_of_cons|[Hu|Hu]]; [lia| |set_solver|]; [specialize (Hnew u (or_introl Hu))|specialize (Hnew u (or_intror (or_intror Hu)))]; lia.
      * intros m Hm. destruct (Hmut m Hm) as [_ Hma]. split; [set_solver|]. rewrite elem_of_cons, <- Hma. split; [intros [->|?]; [done|done]|auto].
    + eexists t, _. split; [done|]. apply list.NoDup_cons in Hfree as [Ht Hfree]. assert (t ∉ active_list_ w) as Hta by (intros Hu%Hdis; set_solver). simpl. split_and!; try done.
      split; simpl; try done.
      * by constructor.
      * set_solver.
      * intros u [[->|Hu]%elem_of_cons|[Hu|Hu]]; apply Hnew; set_solver.
      * intros m Hm. destruct (Hmut m Hm) as [Hmf Hma]. split; [set_solver|]. rewrite elem_of_cons, <- Hma. split; [intros [->|?]; [set_solver|done]|auto].
Qed.

(** Threads other than the owner's do not matter for the marks. *)
Lemma marked_same w w' u : owner_ w' = owner_ w -> (forall o, owner_ w = Some o -> threads_ w' !! o = threads_ w !! o) -> marked w' u = marked w u.
Proof. intros Ho Hth. unfold marked. rewrite Ho. destruct (owner_ w) as [o|]; [|done]. by rewrite (Hth o eq_refl). Qed.
Lemma inv_schedule w is_mutator bypass : inv w -> lock_free w = true -> may_schedule w is_mutator = true -> bypass = true \/ SafepointInProgress w = false ->
  inv (ScheduleThread w is_mutator bypass).
Proof.
  intros H Hlock Hmay Hby. destruct (free_thread w is_mutator (in_registry _ H) Hmay) as (t & w1 & Hget & Hta & Hact & Hths & Hl & Ho & Hn & Hc & Hreg).
  unfold ScheduleThread. rewrite Hget. set (th := MkThread (SetBypassSafepoints bypass 0) kThreadInVM Running). set (w2 := set_thread w1 t th).
  assert (safepoint_state_ th = word false false false bypass) as Hs by apply word_0.
  set (w3 := if is_mutator then set_registry w2 (next_thread_ w2) (active_list_ w2) (free_list_ w2) (mutator_thread_ w2) (Some t) else w2).
  assert (threads_ w3 = <[t := th]> (threads_ w1) /\ active_list_ w3 = t :: active_list_ w /\ owner_ w3 = owner_ w /\ threads_lock_ w3 = threads_lock_ w /\
    number_threads_not_at_safepoint_ w3 = number_threads_not_at_safepoint_ w /\ safepoint_operation_count_ w3 = safepoint_operation_count_ w) as (H1 & H2 & H3 & H4 & H5 & H6)
    by (unfold w3, w2; destruct is_mutator; simpl; done).
  assert (forall u, u ∈ active_list_ w -> threads_ w3 !! u = threads_ w !! u) as Hsame by (intros u Hu; rewrite H1, lookup_insert_ne by (by intros ->); auto).
  assert (forall o, owner_ w = Some o -> o ∈ active_list_ w) as Hoa by (intros o Hoo; pose proof (in_owner _ H) as Hw; rewrite Hoo in Hw; apply Hw).
  assert (forall u, marked w3 u = marked w u) as Hm by (intros u; apply marked_same; auto).
  assert (pend w3 t = 0) as Hpt by (unfold pend, pending; rewrite H1, lookup_insert_eq, Hs; by autorewrite with safepoint).
  assert (forall u, u ∈ active_list_ w -> pend w3 u = pend w u) as Hpu by (intros u Hu; unfold pend; by rewrite Hsame).
  split.
  - unfold w3. destruct is_mutator; (eapply registry_same; [exact Hreg|reflexivity..]).
  - rewrite H2, H3. intros u [->|Hu]%elem_of_cons; rewrite Hm; [|rewrite Hsame by done; by apply (in_threads _ H)]. rewrite H1, lookup_insert_eq. exists th. split; [done|].
    exists false, false, false, bypass. split; [done|]. split; simpl; try done. destruct Hby as [->|Hnp]; [done|]. rewrite (in_progress_iff w H) in Hnp. unfold marked.
    destruct (owner_ w); [done|]. by destruct bypass.
  - rewrite H2, H5, (in_number _ H). cbn [total]. rewrite Hpt, (total_ext (pend w3) (pend w)); [lia|done].
  - rewrite H2, H3, H4, H6. pose proof (in_owner _ H) as Hw. destruct (owner_ w) as [o|]; [|done]. destruct Hw as (Hoact & tho & Htho & Hok & Hdone). split; [set_solver|].
    rewrite Hsame by done. exists tho. split_and!; [done| |].
    + unfold owner_ok in *. rewrite H2, H4, H6. destruct (pc_ tho); destruct_and?; split_and!; try done; set_solver.
    + intros Hin u [->|Hu]%elem_of_cons; [done|]. rewrite Hpu by done. auto.
Qed.
Lemma inv_unschedule w t th w' : inv w -> lock_free w = true -> t ∈ active_list_ w -> threads_ w !! t = Some th -> pc_ th = Running ->
  execution_state_ th = kThreadInVM -> owner_ w <> Some t ->
  UnscheduleThread w t (bool_decide (scheduled_mutator_thread_ w = Some t)) (BypassSafepoints (safepoint_state_ th)) = Some w' -> inv w'.
Proof.
  intros H Hlock Ht Hth Hpc He Hown. destruct (acting w t th H Ht Hth) as (a & r & b & y & Hs & Hok & Hr & Hp & _). rewrite Hs, Bypass_word, Hpc, He in *.
  assert (r = r && negb a) as Hra. { destruct r; [|done]. by rewrite (requested_at _ _ _ _ _ _ _ _ _ Hok Hr eq_refl). }
  set (th1 := MkThread (word true false false false) kThreadInNative Running).
  assert (forall x, UnscheduleThread w t x y = Some (ReturnThreadLocked
     (set_registry (set_number (set_thread w t th1) (number_threads_not_at_safepoint_ w - Z.b2z r)) (next_thread_ w) (active_list_ w) (free_list_ w) (mutator_thread_ w)
        (if x then None else scheduled_mutator_thread_ w)) x t)) as Hrun.
  { intros x. unfold UnscheduleThread. destruct th as [s e pc]. simpl in *. subst. destruct y.
    - assert (r = false) as -> by (rewrite (to_requested _ _ _ _ _ _ _ _ _ Hok); done). unfold go, set_state. cbn [mbind option_bind].
      destruct x; simpl; rewrite Hth; simpl; rewrite lookup_insert_eq; simpl; unfold set_thread, set_registry, set_number; simpl; by rewrite insert_insert_eq, Z.sub_0_r.
    - rewrite (EnterSafepoint_eq _ _ _ _ _ _ _ _ Hth). unfold go, set_state. cbn [mbind option_bind].
      destruct x; simpl; rewrite lookup_insert_eq; simpl; rewrite lookup_insert_eq; simpl; unfold set_thread, set_registry, set_number; simpl; by rewrite !insert_insert_eq. }
  rewrite Hrun. intros [= <-]. clear Hrun. set (x := bool_decide (scheduled_mutator_thread_ w = Some t)). set (w0 := set_registry _ _ _ _ _ _).
  set (w1 := ReturnThreadLocked w0 x t).
  assert (threads_ w1 = <[t := th1]> (threads_ w) /\ active_list_ w1 = remove_first t (active_list_ w) /\ owner_ w1 = owner_ w /\ threads_lock_ w1 = threads_lock_ w /\
    number_threads_not_at_safepoint_ w1 = number_threads_not_at_safepoint_ w - Z.b2z r /\ safepoint_operation_count_ w1 = safepoint_operation_count_ w) as (H1 & H2 & H3 & H4 & H5 & H6)
    by (unfold w1, ReturnThreadLocked; destruct x; simpl; done).
  destruct (remove_first_spec t (active_list_ w)) as [Hnd Hin]; [apply H|].
  assert (forall u, u <> t -> threads_ w1 !! u = threads_ w !! u) as Hsame by (intros u Hu; by rewrite H1, lookup_insert_ne).
  assert (forall u, marked w1 u = marked w u) as Hm by (intros u; apply marked_same; [done|intros o Ho; apply Hsame; congruence]).
  assert (forall u, u <> t -> pend w1 u = pend w u) as Hpu by (intros u Hu; unfold pend; by rewrite Hsame).
  split.
  - destruct (in_registry _ H) as [Hact Hfree Hdis Hnew Hmut Hsch]. unfold w1, ReturnThreadLocked, x.
    case_bool_decide as Hx; split; simpl; try done.
    + intros u [Hu _]%Hin. auto.
    + intros u [[Hu _]%Hin|Hu]; apply Hnew; auto.
    + intros m Hm'. destruct (Hmut m Hm') as [Hmf Hma]. split; [done|]. split; [|done]. intros [Hu Hne]%Hin. apply Hma in Hu. congruence.
    + constructor; [by apply Hdis|done].
    + intros u [Hu Hne]%Hin. apply not_elem_of_cons. auto.
    + intros u [[Hu _]%Hin|[[->|Hu]%elem_of_cons|Hu]]; apply Hnew; auto.
    + intros m Hm'. destruct (Hmut m Hm') as [Hmf Hma]. assert (m <> t) as Hne by (intros ->; by apply Hx, Hma). split; [apply not_elem_of_cons; auto|].
      rewrite Hin, Hma. split; [tauto|auto].
  - rewrite H2, H3. intros u [Hu Hne]%Hin. rewrite Hm, Hsame by done. by apply (in_threads _ H).
  - rewrite H2, H5, (in_number _ H), (total_ext (pend w1) (pend w)) by (intros u [_ Hne]%Hin; auto). rewrite total_remove by (done || apply H).
    assert (pend w t = Z.b2z r) as -> by (unfold pend; rewrite Hth, Hp; by rewrite <- Hra). lia.
  - rewrite H3, H4, H6. pose proof (in_owner _ H) as Hw. destruct (owner_ w) as [o|] eqn:Ho; [|done]. destruct Hw as (Hoact & tho & Htho & Hok' & Hdone).
    assert (o <> t) as Hot by congruence. rewrite H2. split; [by apply Hin|]. rewrite Hsame by done. exists tho. split_and!; [done| |].
    + unfold owner_ok, lock_free in *. rewrite H4, H6. destruct (pc_ tho); try done; destruct_and?; match goal with Hl : threads_lock_ w = Some _ |- _ => by rewrite Hl in Hlock end.
    + intros Hall u [Hu Hne]%Hin. rewrite Hpu by done. auto.
Qed.

(** ** Every step keeps the invariant *)
Lemma check_Some b (k : option World) w' : (check b;; k) = Some w' -> b = true /\ k = Some w'.
Proof. by destruct b. Qed.
Lemma inv_proceed w t th w' : inv w -> t ∈ active_list_ w -> threads_ w !! t = Some th -> proceed w t th = Some w' -> inv w'.
Proof.
  intros H Ht Hth Hrun.
  assert ((exists w2, proceed w t th = Some w2 /\ inv w2) -> inv w') as Hdone by (intros (w2 & Hw2 & ?); congruence).
  destruct (pc_ th) as [| |k|k []| |[]| |[]|[|u todo]| |[|u todo]] eqn:Hpc; try (unfold proceed in Hrun; by rewrite Hpc in Hrun).
  - apply Hdone. by eapply inv_enter_locked.
  - apply Hdone. eapply inv_exit_locked; eauto.
  - apply Hdone. eapply inv_exit_locked; eauto.
  - apply Hdone. by eapply inv_block_locked.
  - apply Hdone. by eapply inv_block_woken.
  - unfold proceed in Hrun. rewrite Hpc in Hrun. apply check_Some in Hrun as [Hl Hrun]. destruct th as [s e pc]. simpl in Hpc. subst pc.
    destruct (inv_loop w t s e H Ht Hth Hl) as (w2 & Hw2 & ?). congruence.
  - unfold proceed in Hrun. rewrite Hpc in Hrun. apply check_Some in Hrun as [Hl Hrun]. destruct th as [s e pc]. simpl in Hpc. subst pc.
    destruct (inv_wake w t s e H Ht Hth Hl) as (w2 & Hw2 & ?). congruence.
  - apply Hdone. by eapply inv_marked_all.
  - apply Hdone. by eapply inv_mark.
  - by eapply inv_checked_in.
  - unfold proceed in Hrun. rewrite Hpc in Hrun. destruct (inv_finish w t th H Ht Hth Hpc) as (w2 & Hw2 & ?). congruence.
  - apply Hdone. by eapply inv_resume.
Qed.
Lemma inv_spurious w t th w' : inv w -> t ∈ active_list_ w -> threads_ w !! t = Some th -> spurious w t th = Some w' -> inv w'.
Proof.
  intros H Ht Hth Hrun. destruct (acting w t th H Ht Hth) as (a & r & b & y & _ & Hok & _). pose proof (to_exec _ _ _ _ _ _ _ _ _ Hok) as He.
  unfold spurious in Hrun. destruct (pc_ th) as [| |k|k []| |[]| |[]|todo| |todo] eqn:Hpc; try done.
  - destruct (inv_go w t th H Ht Hth (execution_state_ th) (ExitWaiting k true)) as (w2 & Hw2 & ?); rewrite ?Hpc; try done. congruence.
  - destruct (inv_go w t th H Ht Hth (execution_state_ th) (BlockWaiting true)) as (w2 & Hw2 & ?); rewrite ?Hpc; try done. congruence.
  - destruct (inv_go w t th H Ht Hth (execution_state_ th) (OperationWaiting true)) as (w2 & Hw2 & ?); rewrite ?Hpc; try done. congruence.
Qed.
Lemma inv_act w t a w' : inv w -> act w t a = Some w' -> inv w'.
Proof.
  intros H Hrun. unfold act in Hrun. apply check_Some in Hrun as [Ht%bool_decide_eq_true Hrun]. destruct (threads_ w !! t) as [th|] eqn:Hth; [|done]. cbn [mbind option_bind] in Hrun.
  assert (is_running th = true -> pc_ th = Running) as Hr by (unfold is_running; by destruct (pc_ th)).
  assert (in_vm th = true -> execution_state_ th = kThreadInVM) as Hv by (unfold in_vm; by destruct (execution_state_ th)).
  destruct a as [e|e| | | | | | | |]; try (apply check_Some in Hrun as [Hpc%Hr Hrun]).
  - apply check_Some in Hrun as [[Hd He]%andb_true_iff [= <-]]. apply inv_try_enter; [done..|]. by destruct (in_dart e).
  - apply check_Some in Hrun as [[Hd He]%andb_true_iff [= <-]]. apply inv_try_exit; [done..| |done]. by destruct (in_dart (execution_state_ th)).
  - apply check_Some in Hrun as [He%Hv Hrun]. destruct (inv_go w t th H Ht Hth kThreadInGenerated Running) as (w2 & Hw2 & ?); rewrite ?Hpc, ?He; try done. congruence.
  - apply check_Some in Hrun as [[_ Hd]%andb_true_iff [= <-]]. by apply inv_check_requested.
  - apply check_Some in Hrun as [[_ Hd]%andb_true_iff Hrun]. destruct (inv_go w t th H Ht Hth kThreadInVM Running) as (w2 & Hw2 & ?); rewrite ?Hpc; simpl; rewrite ?Hd; try done. congruence.
  - apply check_Some in Hrun as [He%Hv [= <-]]. apply inv_check_requested; try done. by rewrite He.
  - apply check_Some in Hrun as [He%Hv Hrun]. destruct (inv_go w t th H Ht Hth kThreadInVM OperationLocked) as (w2 & Hw2 & ?); rewrite ?Hpc, ?He; try done. congruence.
  - apply check_Some in Hrun as [[_ Ho]%andb_true_iff Hrun]. unfold owns in Ho. destruct (owner_ w) as [o|] eqn:Hown; [|done]. apply Z.eqb_eq in Ho as ->.
    destruct (inv_end w t th H Ht Hth Hpc Hown) as (w2 & Hw2 & ?). congruence.
  - by eapply inv_proceed.
  - by eapply inv_spurious.
Qed.
Lemma inv_initial : inv initial.
Proof. split; simpl; try done; [|set_solver]. split; simpl; try constructor; set_solver. Qed.
Lemma reachable_inv w : reachable w -> inv w.
Proof.
  unfold reachable. intros Hw. assert (inv initial) as Hi by apply inv_initial. generalize dependent initial. intros w0 Hw. induction Hw as [|w0 w1 w Hstep _ IH]; intros H; [done|].
  apply IH. clear IH.
  destruct Hstep; [by eapply inv_act|by apply inv_schedule|by eapply inv_unschedule].
Qed.

(** ** Progress *)
Lemma act_eq w t th a : t ∈ active_list_ w -> threads_ w !! t = Some th -> (a = Proceed -> act w t a = proceed w t th) /\
  (is_running th = true -> a = CheckForSafepoint \/ a = GeneratedToVM ->
   act w t a = (check (if in_vm th then match a with CheckForSafepoint => true | _ => false end else match a with GeneratedToVM => in_dart (execution_state_ th) | _ => false end);; Some (check_requested w t th))).
Proof.
  intros Ht Hth. unfold act. rewrite bool_decide_true, Hth by done. cbn [mbind option_bind check]. split; [by intros ->|]. intros Hr [-> | ->]; rewrite Hr; cbn [mbind option_bind check]; by destruct (in_vm th).
Qed.
(** [w'] is [w] with another thread of the isolate, one that is not [o], and
    another number. *)
Definition others_step (o : Z) (w w' : World) : Prop :=
  threads_ w' !! o = threads_ w !! o /\ owner_ w' = owner_ w /\ active_list_ w' = active_list_ w.
Lemma block_step w u s e : u ∈ active_list_ w -> threads_ w !! u = Some (MkThread s e BlockLocked) -> IsSafepointRequested s = true ->
  (exists a r b y, s = word a r b y) ->
  exists w', step w w' /\ number_threads_not_at_safepoint_ w' = number_threads_not_at_safepoint_ w - 1 /\ forall o, o <> u -> others_step o w w'.
Proof.
  intros Hu Hth Hr (a & r & b & y & ->). rewrite IsRequested_word in Hr. subst r. eexists. split.
  - apply (step_act _ u Proceed). rewrite (proj1 (act_eq w u _ Proceed Hu Hth) eq_refl). unfold proceed, BlockForSafepoint, block_loop, set_state. simpl. rewrite Hth. simpl.
    rewrite IsRequested_word, SetAt_word. simpl. rewrite lookup_insert_eq. simpl. rewrite IsRequested_word. reflexivity.
  - simpl. split; [done|]. intros o Ho. split_and!; simpl; try done. by rewrite !lookup_insert_ne.
Qed.
Lemma checks_in w o tho u th : inv w -> owner_ w = Some o -> threads_ w !! o = Some tho -> pc_ tho = AwaitCheckIn -> u ∈ active_list_ w -> threads_ w !! u = Some th ->
  pending th = true -> exists w', rtc step w w' /\ number_threads_not_at_safepoint_ w' = number_threads_not_at_safepoint_ w - 1 /\ others_step o w w'.
Proof.
  intros H Ho Htho Hpco Hu Hth Hpend. destruct (acting w u th H Hu Hth) as (a & r & b & y & Hs & Hok & Hr & Hp & _). rewrite Hpend in Hp.
  assert (r = true /\ a = false) as [-> ->] by (by destruct r, a). assert (u <> o) as Huo by (intros ->; by specialize (Hr Ho)).
  pose proof (requested_at _ _ _ _ _ _ _ _ _ Hok Hr eq_refl) as Ha. destruct th as [s e pc]. simpl in *. subst s.
  assert (lock_free w = true) as Hlock. { pose proof (in_owner _ H) as Hw. rewrite Ho in Hw. destruct Hw as (_ & tho' & Htho' & Hoo & _). rewrite Htho in Htho'. injection Htho' as <-.
    unfold owner_ok in Hoo. rewrite Hpco in Hoo. destruct Hoo as [Hl _]. unfold lock_free. by rewrite Hl. }
  destruct pc; simpl in Ha; try done; try (pose proof (to_loop _ _ _ _ _ _ _ _ _ Hok eq_refl); congruence).
  - assert (exists ac, (ac = CheckForSafepoint \/ ac = GeneratedToVM) /\ act w u ac = Some (check_requested w u (MkThread (word false true b y) e Running))) as (ac & _ & Hact).
    { destruct e; simpl in Ha; try done; [exists CheckForSafepoint|exists GeneratedToVM]; (split; [auto|]); rewrite (proj2 (act_eq w u _ _ Hu Hth)) by auto; done. }
    unfold check_requested in Hact. cbn [safepoint_state_] in Hact. rewrite IsRequested_word in Hact.
    set (w1 := set_thread w u _) in Hact. destruct (block_step w1 u (word false true b y) kThreadInVM) as (w' & Hstep & Hn & Hoth); [done|simpl; by rewrite lookup_insert_eq|by rewrite IsRequested_word|eauto 6|].
    exists w'. split; [eapply rtc_l; [by eapply step_act|]; by apply rtc_once|]. split; [done|]. destruct (Hoth o ltac:(done)) as (H1 & H2 & H3). split_and!; [rewrite H1; simpl; by rewrite lookup_insert_ne|done..].
  - eexists. split; [apply rtc_once, (step_act _ u Proceed)|].
    + rewrite (proj1 (act_eq w u _ Proceed Hu Hth) eq_refl). unfold proceed, EnterSafepointUsingLock, set_state, go. simpl. rewrite Hth. simpl. rewrite SetAt_word, IsRequested_word. simpl.
      rewrite lookup_insert_eq. reflexivity.
    + simpl. split; [done|]. split_and!; simpl; try done. by rewrite !lookup_insert_ne.
  - destruct (block_step w u (word false true b y) e) as (w' & Hstep & Hn & Hoth); [done|done|by rewrite IsRequested_word|eauto 6|].
    exists w'. split; [by apply rtc_once|]. split; [done|]. by apply Hoth.
  - eexists. split; [apply rtc_once, (step_act _ u Proceed)|].
    + rewrite (proj1 (act_eq w u _ Proceed Hu Hth) eq_refl). unfold proceed. cbn [pc_]. rewrite Hlock. cbn [check mbind option_bind]. unfold SafepointThreads_loop.
      rewrite (in_progress_iff w H), Ho. unfold owns. rewrite Ho. replace (o =? u) with false by lia. unfold go. rewrite Hth. cbn [mbind option_bind].
      erewrite EnterSafepoint_eq by (simpl; rewrite lookup_insert_eq; done). reflexivity.
    + simpl. split; [done|]. split_and!; simpl; try done. by rewrite !lookup_insert_ne.
Qed.

Lemma inv_steps w w' : inv w -> rtc step w w' -> inv w'.
Proof. intros H Hrun. induction Hrun as [|w0 w1 w Hstep _ IH]; [done|]. apply IH. destruct Hstep; [by eapply inv_act|by apply inv_schedule|by eapply inv_unschedule]. Qed.
Lemma total_pos f l : 0 < total f l -> exists u, u ∈ l /\ 0 < f u.
Proof.
  induction l as [|v l IH]; cbn; intros Hp; [lia|]. destruct (decide (0 < f v)) as [|]; [exists v; set_solver|]. destruct IH as (u & ? & ?); [lia|]. exists u. set_solver.
Qed.
Definition stopped (w : World) (o : Z) : Prop := exists tho, threads_ w !! o = Some tho /\ owner_ w = Some o /\ pc_ tho = Running.
Lemma await_completes n : forall w o tho, inv w -> owner_ w = Some o -> threads_ w !! o = Some tho -> pc_ tho = AwaitCheckIn ->
  number_threads_not_at_safepoint_ w <= Z.of_nat n -> exists w', rtc step w w' /\ stopped w' o.
Proof.
  induction n as [|n IH]; intros w o tho H Ho Htho Hpc Hn; destruct (decide (number_threads_not_at_safepoint_ w <= 0)) as [Hle|Hgt]; try lia.
  1, 2: pose proof (in_owner _ H) as Hw; rewrite Ho in Hw; destruct Hw as [Hoa _];
    eexists; split; [apply rtc_once, (step_act _ o Proceed); rewrite (proj1 (act_eq w o tho Proceed Hoa Htho) eq_refl); unfold proceed, check, go; rewrite Hpc; 
      replace (number_threads_not_at_safepoint_ w <=? 0) with true by lia; simpl; rewrite Htho; reflexivity|];
    exists (MkThread (safepoint_state_ tho) (execution_state_ tho) Running); simpl; by rewrite lookup_insert_eq.
  rewrite (in_number _ H) in Hgt. destruct (total_pos (pend w) (active_list_ w)) as (u & Hu & Hp); [lia|].
  unfold pend in Hp. destruct (threads_ w !! u) as [th|] eqn:Hth; [|lia]. assert (pending th = true) as Hpd by (destruct (pending th); [done|simpl in Hp; lia]).
  destruct (checks_in w o tho u th H Ho Htho Hpc Hu Hth Hpd) as (w1 & Hrun & Hn1 & H1 & H2 & H3).
  destruct (IH w1 o tho) as (w' & Hrun' & Hst); [by eapply inv_steps|congruence|congruence|done|lia|]. exists w'. split; [by etransitivity|done].
Qed.
Lemma marking_completes todo : forall w o tho, inv w -> owner_ w = Some o -> threads_ w !! o = Some tho -> pc_ tho = MarkingThreads todo ->
  exists w', rtc step w w' /\ stopped w' o.
Proof.
  induction todo as [|u todo IH]; intros w o tho H Ho Htho Hpc; pose proof (in_owner _ H) as Hw; rewrite Ho in Hw; destruct Hw as [Hoa _].
  - destruct (inv_marked_all w o tho H Hoa Htho Hpc) as (w1 & Hrun & H1). pose proof (proj1 (act_eq w o tho Proceed Hoa Htho) eq_refl) as Hact. rewrite Hrun in Hact.
    unfold proceed, go in Hrun. rewrite Hpc in Hrun. simpl in Hrun. rewrite Htho in Hrun. injection Hrun as <-.
    destruct (await_completes (Z.to_nat (number_threads_not_at_safepoint_ w)) _ o (MkThread (safepoint_state_ tho) (execution_state_ tho) AwaitCheckIn) H1) as (w' & Hrun' & Hst);
      [done|simpl; by rewrite lookup_insert_eq|done|simpl; lia|]. exists w'. split; [|done]. eapply rtc_l; [by eapply step_act|done].
  - destruct (inv_mark w o tho H Hoa Htho u todo Hpc) as (w1 & Hrun & H1). pose proof (proj1 (act_eq w o tho Proceed Hoa Htho) eq_refl) as Hact. rewrite Hrun in Hact.
    assert (exists tho', threads_ w1 !! o = Some tho' /\ pc_ tho' = MarkingThreads todo /\ owner_ w1 = Some o) as (tho' & Htho' & Hpc' & Ho').
    { unfold proceed in Hrun. rewrite Hpc in Hrun. destruct (mark_thread w o u) as [w2|] eqn:Hm; [|done]. simpl in Hrun. unfold go in Hrun.
      destruct (threads_ w2 !! o) as [th2|] eqn:Hth2; [|done]. injection Hrun as <-. simpl. rewrite lookup_insert_eq. eexists. split; [done|]. split; [done|].
      unfold mark_thread, set_state in Hm. destruct (threads_ w !! u) as [thu|]; [|done]. simpl in Hm. destruct (BypassSafepoints _); [congruence|]. destruct (u =? o); [by simplify_eq/=|].
      simpl in Hm. destruct (negb _); by simplify_eq/=. }
    destruct (IH w1 o tho' H1 Ho' Htho' Hpc') as (w' & Hrun' & Hst). exists w'. split; [|done]. eapply rtc_l; [by eapply step_act|done].
Qed.
Lemma resuming_completes todo : forall w o tho, inv w -> owner_ w = Some o -> threads_ w !! o = Some tho -> pc_ tho = ResumingThreads todo ->
  exists w', rtc step w w' /\ owner_ w' = None.
Proof.
  induction todo as [|u todo IH]; intros w o tho H Ho Htho Hpc; pose proof (in_owner _ H) as Hw; rewrite Ho in Hw; destruct Hw as [Hoa _].
  - destruct (inv_finish w o tho H Hoa Htho Hpc) as (w1 & Hrun & H1). exists w1. pose proof (proj1 (act_eq w o tho Proceed Hoa Htho) eq_refl) as Hact.
    unfold proceed in Hact. rewrite Hpc, Hrun in Hact. split; [apply rtc_once; by eapply step_act|]. unfold finish_resume, go in Hrun. simpl in Hrun.
    rewrite lookup_fmap, Htho in Hrun. by simplify_eq/=.
  - destruct (inv_resume w o tho H Hoa Htho u todo Hpc) as (w1 & Hrun & H1). pose proof (proj1 (act_eq w o tho Proceed Hoa Htho) eq_refl) as Hact. rewrite Hrun in Hact.
    assert (exists tho', threads_ w1 !! o = Some tho' /\ pc_ tho' = ResumingThreads todo /\ owner_ w1 = Some o) as (tho' & Htho' & Hpc' & Ho').
    { unfold proceed in Hrun. rewrite Hpc in Hrun. destruct (resume_thread w o u) as [w2|] eqn:Hm; [|done]. simpl in Hrun. unfold go in Hrun.
      destruct (threads_ w2 !! o) as [th2|] eqn:Hth2; [|done]. injection Hrun as <-. simpl. rewrite lookup_insert_eq. eexists. split; [done|]. split; [done|].
      unfold resume_thread, set_state, go in Hm. destruct (threads_ w !! u) as [thu|]; [|done]. simpl in Hm. destruct (BypassSafepoints _); [congruence|]. destruct (u =? o); [by simplify_eq/=|].
      simpl in Hm. destruct (IsBlockedForSafepoint _); [rewrite lookup_insert_eq in Hm|]; by simplify_eq/=. }
    destruct (IH w1 o tho' H1 Ho' Htho' Hpc') as (w' & Hrun' & Hst). exists w'. split; [|done]. eapply rtc_l; [by eapply step_act|done].
Qed.

(** ** What safepoints promise *)
Lemma stopped_threads w o tho u th : inv w -> owner_ w = Some o -> threads_ w !! o = Some tho -> is_loop (pc_ tho) = false ->
  u ∈ active_list_ w -> u <> o -> threads_ w !! u = Some th -> BypassSafepoints (safepoint_state_ th) = false ->
  IsSafepointRequested (safepoint_state_ th) = true /\ IsAtSafepoint (safepoint_state_ th) = true /\ at_pc (execution_state_ th) (pc_ th) = true.
Proof.
  intros H Ho Htho Hpc Hu Huo Hth Hby. destruct (acting w u th H Hu Hth) as (a & r & b & y & Hs & Hok & Hr & Hp & _). rewrite Hs in *. autorewrite with safepoint in *. subst y.
  assert (r = true) as ->. { rewrite (to_requested _ _ _ _ _ _ _ _ _ Hok). unfold marked. rewrite Ho, Htho. replace (u =? o) with false by lia. by destruct (pc_ tho). }
  pose proof (in_owner _ H) as Hw. rewrite Ho in Hw. destruct Hw as (_ & tho' & Htho' & _ & Hdone). rewrite Htho in Htho'. injection Htho' as <-.
  assert (all_in (pc_ tho) = true) as Hall by (by destruct (pc_ tho)). specialize (Hdone Hall u Hu). unfold pend in Hdone. rewrite Hth, Hp in Hdone.
  assert (a = true) as -> by (by destruct a). split_and!; try done. symmetry. by eapply requested_at.
Qed.

(** C10: In every state that threads of an isolate can reach by entering and
    leaving native code, checking for safepoints, starting and ending operations,
    and being scheduled, in any interleaving: from the return of [SafepointThreads]
    to the call of [ResumeThreads] every other active thread that does not bypass
    safepoints has been asked to stop and is at a safepoint, that is, it runs native code or
    waits, and no VM or Dart code; [number_threads_not_at_safepoint_] is always
    the number of threads that were asked and have not stopped.  At most one caller schedules the
    mutator at a time: [step_schedule] tests for a scheduled mutator after the wait for a
    safepoint operation, where [ScheduleThread] tests before it and not again. *)
Theorem Safepoint_exclusive w : reachable w ->
  number_threads_not_at_safepoint_ w = total (pend w) (active_list_ w) /\
  forall o tho u th, owner_ w = Some o -> threads_ w !! o = Some tho -> is_loop (pc_ tho) = false ->
    u ∈ active_list_ w -> u <> o -> threads_ w !! u = Some th -> BypassSafepoints (safepoint_state_ th) = false ->
    IsSafepointRequested (safepoint_state_ th) = true /\ IsAtSafepoint (safepoint_state_ th) = true /\ at_pc (execution_state_ th) (pc_ th) = true.
Proof.
  intros H%reachable_inv. split; [apply H|]. intros. by eapply stopped_threads.
Qed.

(** C11: No operation hangs: from every reachable state in which a thread waits for the others
    to check in, or is still asking them, steps lead to the return of its
    [SafepointThreads], and from every state in which it resumes them, steps
    lead to the end of its operation. No wake-up is lost: a thread that waits at
    its safepoint without having been notified is one that the owner of the operation
    will still resume, and a thread waits for its turn only during an operation
    of another one.  As for [Safepoint_exclusive], at most one caller schedules the mutator at a time. *)
Theorem Safepoint_completes w : reachable w ->
  (forall o tho, owner_ w = Some o -> threads_ w !! o = Some tho ->
    (is_loop (pc_ tho) = true -> all_in (pc_ tho) = false -> exists w', rtc step w w' /\ stopped w' o) /\
    (is_loop (pc_ tho) = true -> all_in (pc_ tho) = true -> exists w', rtc step w w' /\ owner_ w' = None)) /\
  (forall u th, u ∈ active_list_ w -> threads_ w !! u = Some th ->
    (asleep (pc_ th) = true -> marked w u = true) /\ (pc_ th = OperationWaiting false -> exists o, owner_ w = Some o /\ o <> u)).
Proof.
  intros H%reachable_inv. split.
  - intros o tho Ho Htho. split; intros Hl Ha; destruct (pc_ tho) as [| |k|k nt| |nt| |nt|todo| |todo] eqn:Hpc; try done.
    + by eapply marking_completes.
    + eapply (await_completes (Z.to_nat (number_threads_not_at_safepoint_ w))); try done. lia.
    + by eapply resuming_completes.
  - intros u th Hu Hth. destruct (acting w u th H Hu Hth) as (a & r & b & y & Hs & Hok & Hr & Hp & _). split.
    + intros Hsl. pose proof (to_asleep _ _ _ _ _ _ _ _ _ Hok Hsl) as ->. pose proof (to_requested _ _ _ _ _ _ _ _ _ Hok) as Hm. by destruct y, (marked w u).
    + intros Hq. pose proof (to_queue_asleep _ _ _ _ _ _ _ _ _ Hok Hq) as Hn. pose proof (to_queue _ _ _ _ _ _ _ _ _ Hok ltac:(by rewrite Hq)) as Hn2.
      destruct (owner_ w) as [o|]; [|done]. exists o. split; [done|congruence].
Qed.

(** *** An operation with two other threads *)
Fixpoint run (l : list (Z * Action)) (w : World) : option World :=
  match l with [] => Some w | (t, a) :: l => w ← act w t a; run l w end.
Lemma run_steps l : forall w w', run l w = Some w' -> rtc step w w'.
Proof.
  induction l as [|[t a] l IH]; intros w w' Hrun; simpl in Hrun; [simplify_eq; constructor|]. destruct (act w t a) as [w1|] eqn:Hact; [|done].
  eapply rtc_l; [by eapply step_act|]. by apply IH.
Qed.
(** The mutator 0, which runs Dart code, a thread 1 in native code, and a thread 2 that
    begins an operation. *)
Definition example_start : World := ScheduleThread (ScheduleThread (ScheduleThread initial true false) false false) false false.
Definition example_run : list (Z * Action) :=
  [(0, VMToGenerated); (1, EnterFrom kThreadInNative); (2, BeginOperation); (2, Proceed); (2, Proceed); (2, Proceed); (1, ExitTo kThreadInVM); (1, Proceed);
   (2, Proceed); (2, Proceed); (0, GeneratedToVM); (0, Proceed); (2, Proceed)].
Definition example_operation : World := default initial (run example_run example_start).
Lemma example_reachable : reachable example_operation.
Proof.
  eapply rtc_l; [apply (step_schedule initial true false); auto|]. eapply rtc_l; [apply (step_schedule _ false false); auto|].
  eapply rtc_l; [apply (step_schedule _ false false); auto|]. apply (run_steps example_run). vm_compute. reflexivity.
Qed.
Theorem Safepoint_exclusive_witness : owner_ example_operation = Some 2 /\ exists th0 th1,
  threads_ example_operation !! 0 = Some th0 /\ threads_ example_operation !! 1 = Some th1 /\
  IsAtSafepoint (safepoint_state_ th0) = true /\ IsAtSafepoint (safepoint_state_ th1) = true.
Proof.
  split; [vm_compute; reflexivity|]. destruct (Safepoint_exclusive example_operation example_reachable) as [_ H].
  destruct (threads_ example_operation !! 2) as [tho|] eqn:H2; [|vm_compute in H2; discriminate H2].
  destruct (threads_ example_operation !! 0) as [th0|] eqn:H0; [|vm_compute in H0; discriminate H0].
  destruct (threads_ example_operation !! 1) as [th1|] eqn:H1; [|vm_compute in H1; discriminate H1].
  exists th0, th1. split; [reflexivity|]. split; [reflexivity|].
  assert (is_loop (pc_ tho) = false) as Hp by (vm_compute in H2; injection H2 as <-; reflexivity).
  split.
  - apply (H 2 tho 0 th0 ltac:(vm_compute; reflexivity) H2 Hp ltac:(apply (bool_decide_unpack _); vm_compute; exact I) ltac:(lia) H0).
    vm_compute in H0. injection H0 as <-. reflexivity.
  - apply (H 2 tho 1 th1 ltac:(vm_compute; reflexivity) H2 Hp ltac:(apply (bool_decide_unpack _); vm_compute; exact I) ltac:(lia) H1).
    vm_compute in H1. injection H1 as <-. reflexivity.
Defined.
(** Before the mutator has checked in. *)
Definition example_waiting : World := default initial (run (take 10 example_run) example_start).
Lemma example_waiting_reachable : reachable example_waiting.
Proof.
  eapply rtc_l; [apply (step_schedule initial true false); auto|]. eapply rtc_l; [apply (step_schedule _ false false); auto|].
  eapply rtc_l; [apply (step_schedule _ false false); auto|]. apply (run_steps (take 10 example_run)). vm_compute. reflexivity.
Qed.
Theorem Safepoint_completes_witness : number_threads_not_at_safepoint_ example_waiting = 1 /\ exists w', rtc step example_waiting w' /\ stopped w' 2.
Proof.
  split; [vm_compute; reflexivity|]. destruct (Safepoint_completes example_waiting example_waiting_reachable) as [H _].
  destruct (threads_ example_waiting !! 2) as [tho|] eqn:H2; [|vm_compute in H2; discriminate H2].
  destruct (H 2 tho ltac:(vm_compute; reflexivity) H2) as [Hc _]. apply Hc; vm_compute in H2; injection H2 as <-; reflexivity.
Defined.

(** ** Two mutators *)
(** [ScheduleThread] tests that no mutator is scheduled before it waits for the
    operation in progress, and not after it. Two callers that come during an operation
    both pass the test; when the operation is over, both enter with the same
    [Thread], which is then twice in the list of active threads. *)
Definition helper_alone : World := ScheduleThread initial false false.
Definition helper_operation : World := default initial (run [(0, BeginOperation); (0, Proceed); (0, Proceed); (0, Proceed); (0, Proceed)] helper_alone).
Definition helper_done : World := default initial (run [(0, EndOperation); (0, Proceed); (0, Proceed)] helper_operation).
Theorem ScheduleThread_two_mutators :
  SafepointInProgress helper_operation = true /\ may_schedule helper_operation true = true /\ SafepointInProgress helper_done = false /\
  active_list_ (ScheduleThread (ScheduleThread helper_done true false) true false) = [1; 1; 0].
Proof. vm_compute. auto. Qed.
