(* ===== verification/Zone.v ===== *)
(** * Zones (src/runtime/vm/zone.{h,cc})

    A zone hands out chunks of memory that are only freed together. It starts with
    a buffer of its own ([buffer_], at the address of the zone) and takes
    segments from [malloc] and, for large chunks, from [VirtualMemory::Allocate].
    The headers of the segments, with the links by which a zone finds them again, lie in the
    same memory as the chunks: [mem] maps addresses to bytes and a header is four words of it.

    [malloc] and [VirtualMemory] are a parameter (class [SystemMemory]) with the
    contract of the C library: what they return is aligned and disjoint from all
    memory in use, whose contents they leave alone. [None] is a fatal error: a
    length that is too large, or memory that has run out; also the undefined
    [free] of something that is not allocated. Zapping in debug mode, tracing and the
    handles of a zone are left out. *)
From stdpp Require Import gmap.
From S2P Require Import Prelude Utils.
Local Open Scope Z_scope.
Local Open Scope vm_scope.

(** ** Memory *)
Abbreviation memory := (gmap Z Z).
Definition byte_at (m : memory) (a : Z) : Z := default 0 (m !! a).
Fixpoint load_bytes (m : memory) (a : Z) (n : nat) : list Z :=
  match n with O => [] | S n => byte_at m a :: load_bytes m (a + 1) n end.
Fixpoint store_bytes (m : memory) (a : Z) (l : list Z) : memory :=
  match l with [] => m | b :: l => store_bytes (<[a := b]> m) (a + 1) l end.
Fixpoint le_bytes (n : nat) (x : Z) : list Z :=
  match n with O => [] | S n => x mod 256 :: le_bytes n (x / 256) end.
Fixpoint of_bytes (l : list Z) : Z :=
  match l with [] => 0 | b :: l => b + 256 * of_bytes l end.
Definition word_at (m : memory) (a : Z) : Z := of_bytes (load_bytes m a 8).
Definition store_word (m : memory) (a x : Z) : memory := store_bytes m a (le_bytes 8 x).

(** ** The zone and its surroundings *)
Definition kAlignment : Z := 8.
Definition kInitialChunkSize : Z := 1024.
Definition kSegmentSize : Z := 64 * 1024.
Definition kIntptrMax : Z := 2 ^ 63 - 1.
Definition sizeof_Segment : Z := 32.

Record Zone := MkZone {
  position_ : Z;
  limit_ : Z;
  head_ : Z;
  large_segments_ : Z;
  previous_ : Z }.

(** [current_zone_capacity_] and [zone_high_watermark_] of a [ThreadState]. *)
Record Capacity := MkCapacity { current_zone_capacity_ : Z; zone_high_watermark_ : Z }.
Definition ThreadState_IncrementMemoryCapacity (value : Z) (c : Capacity) : Capacity :=
  let current := u64 (current_zone_capacity_ c + value) in
  MkCapacity current (if current >? zone_high_watermark_ c then current else zone_high_watermark_ c).
Definition ThreadState_DecrementMemoryCapacity (value : Z) (c : Capacity) : Capacity :=
  MkCapacity (u64 (current_zone_capacity_ c - value)) (zone_high_watermark_ c).

(** The process: memory, live blocks of [malloc], live [VirtualMemory] objects with the start and
    size of their regions, live zones, and where capacities are accounted: the current
    thread, with the zone it allocates from, or a native scope. *)
Record World := MkWorld {
  mem : memory;
  blocks : gmap Z Z;
  vms : gmap Z (Z * Z);
  zones : gmap Z Zone;
  thread_zone_ : Z;
  current_thread : option Capacity;
  native_scope : bool;
  current_memory_usage_ : Z }.
Definition with_mem (w : World) m := MkWorld m (blocks w) (vms w) (zones w) (thread_zone_ w) (current_thread w) (native_scope w) (current_memory_usage_ w).
Definition set_blocks (w : World) b := MkWorld (mem w) b (vms w) (zones w) (thread_zone_ w) (current_thread w) (native_scope w) (current_memory_usage_ w).
Definition set_vms (w : World) v := MkWorld (mem w) (blocks w) v (zones w) (thread_zone_ w) (current_thread w) (native_scope w) (current_memory_usage_ w).
Definition set_zones (w : World) z := MkWorld (mem w) (blocks w) (vms w) z (thread_zone_ w) (current_thread w) (native_scope w) (current_memory_usage_ w).
Definition set_thread_zone (w : World) t := MkWorld (mem w) (blocks w) (vms w) (zones w) t (current_thread w) (native_scope w) (current_memory_usage_ w).
Definition set_current_thread (w : World) c := MkWorld (mem w) (blocks w) (vms w) (zones w) (thread_zone_ w) (Some c) (native_scope w) (current_memory_usage_ w).
Definition set_memory_usage (w : World) u := MkWorld (mem w) (blocks w) (vms w) (zones w) (thread_zone_ w) (current_thread w) (native_scope w) u.

(** The regions of memory that are in use, by what they belong to. *)
Inductive Owner := OfBlock (a : Z) | OfVirtualMemory (h : Z) | OfZone (this : Z).
#[global] Instance Owner_eq_dec : EqDecision Owner.
Proof. solve_decision. Defined.
Definition region (w : World) (o : Owner) : option (Z * Z) :=
  match o with
  | OfBlock a => (fun size => (a, size)) <$> blocks w !! a
  | OfVirtualMemory h => vms w !! h
  | OfZone this => (fun _ => (this, kInitialChunkSize)) <$> zones w !! this
  end.
Definition within (r : Z * Z) (x : Z) : Prop := r.1 <= x < r.1 + r.2.
Definition separate (r1 r2 : Z * Z) : Prop := forall x, within r1 x -> ~ within r2 x.
Definition in_use (w : World) (x : Z) : Prop := exists o r, region w o = Some r /\ within r x.

Class SystemMemory := {
  PageSize : Z;
  malloc : World -> Z -> option (Z * memory);
  VirtualMemory_Allocate : World -> Z -> option (Z * Z * memory) }.

(** Addresses of the user's half of the address space are below 2^47. *)
Record fresh_region (w : World) (m : memory) (align a size : Z) : Prop := {
  fresh_align : (align | a);
  fresh_range : 0 < a /\ 0 <= size /\ a + size <= 2 ^ 47;
  fresh_unused : forall x, within (a, size) x -> ~ in_use w x;
  fresh_others : forall x, in_use w x -> byte_at m x = byte_at (mem w) x }.
Class SystemMemoryOk `{SystemMemory} : Prop := {
  PageSize_pow2 : exists k, 3 <= k <= 30 /\ PageSize = 2 ^ k;
  malloc_fresh : forall w size a m, malloc w size = Some (a, m) -> blocks w !! a = None /\ fresh_region w m 16 a size;
  Allocate_fresh : forall w size h a m, VirtualMemory_Allocate w size = Some (h, a, m) ->
    vms w !! h = None /\ 0 < h < 2 ^ 47 /\ fresh_region w m PageSize a size }.

(** ** Segments *)
Definition Segment_next (m : memory) (s : Z) : Z := word_at m s.
Definition Segment_size (m : memory) (s : Z) : Z := s64 (word_at m (s + 8)).
Definition Segment_memory (m : memory) (s : Z) : Z := word_at m (s + 16).
Definition Segment_address (s n : Z) : Z := u64 (s + s32 n).
Definition Segment_start (s : Z) : Z := Segment_address s sizeof_Segment.
Definition Segment_end (m : memory) (s : Z) : Z := Segment_address s (Segment_size m s).
Definition write_header (m : memory) (s next size vm : Z) : memory :=
  store_word (store_word (store_word (store_word m s next) (s + 8) size) (s + 16) vm) (s + 24) 0.

Definition IncrementMemoryCapacity (size : Z) (w : World) : World :=
  match current_thread w with
  | Some c => set_current_thread w (ThreadState_IncrementMemoryCapacity (u64 size) c)
  | None => if native_scope w then set_memory_usage w (s64 (current_memory_usage_ w + u64 size)) else w
  end.
Definition DecrementMemoryCapacity (size : Z) (w : World) : World :=
  match current_thread w with
  | Some c => set_current_thread w (ThreadState_DecrementMemoryCapacity (u64 size) c)
  | None => if native_scope w then set_memory_usage w (s64 (current_memory_usage_ w - u64 size)) else w
  end.

(** The instance of [Utils::RoundUp] for addresses. *)
Definition RoundUp_uword (x n : Z) : Z := RoundDown (u64 (x + n - 1)) n.

Section Zones.
Context `{SystemMemory}.

Definition Segment_New (size next : Z) (w : World) : option (Z * World) :=
  '(result, m) ← malloc w size;
  let w := set_blocks (with_mem w (write_header m result next size 0)) (<[result := size]> (blocks w)) in
  Some (result, IncrementMemoryCapacity size w).
Definition Segment_NewLarge (size next : Z) (w : World) : option (Z * World) :=
  let size := RoundUp size PageSize in
  '(memory, result, m) ← VirtualMemory_Allocate w size;
  let w := set_vms (with_mem w (write_header m result next size memory)) (<[memory := (result, size)]> (vms w)) in
  Some (result, IncrementMemoryCapacity size w).

(** [free] and [delete memory]. *)
Definition free_block (a : Z) (w : World) : option World :=
  match blocks w !! a with Some _ => Some (set_blocks w (delete a (blocks w))) | None => None end.
Definition delete_memory (h : Z) (w : World) : option World :=
  match vms w !! h with Some _ => Some (set_vms w (delete h (vms w))) | None => None end.
Fixpoint DeleteSegmentList (fuel : nat) (current : Z) (w : World) : option World :=
  match fuel with
  | O => None
  | S fuel =>
      if current =? 0 then Some w
      else
        let w := DecrementMemoryCapacity (Segment_size (mem w) current) w in
        let next := Segment_next (mem w) current in
        w ← free_block current w;
        DeleteSegmentList fuel next w
  end.
Fixpoint DeleteLargeSegmentList (fuel : nat) (current : Z) (w : World) : option World :=
  match fuel with
  | O => None
  | S fuel =>
      if current =? 0 then Some w
      else
        let w := DecrementMemoryCapacity (Segment_size (mem w) current) w in
        let next := Segment_next (mem w) current in
        let memory := Segment_memory (mem w) current in
        w ← delete_memory memory w;
        DeleteLargeSegmentList fuel next w
  end.

(** ** The zone *)
Definition Zone_new (this : Z) (w : World) : World :=
  IncrementMemoryCapacity kInitialChunkSize
    (set_zones w (<[this := MkZone this (this + kInitialChunkSize) 0 0 0]> (zones w))).
Definition DeleteAll (this : Z) (w : World) : option World :=
  z ← zones w !! this;
  w ← (if negb (head_ z =? 0) then DeleteSegmentList (S (size (blocks w))) (head_ z) w else Some w);
  w ← (if negb (large_segments_ z =? 0) then DeleteLargeSegmentList (S (size (vms w))) (large_segments_ z) w else Some w);
  Some (set_zones w (<[this := MkZone this (this + kInitialChunkSize) 0 0 0]> (zones w))).
Definition Zone_delete (this : Z) (w : World) : option World :=
  w ← DeleteAll this w;
  let w := DecrementMemoryCapacity kInitialChunkSize w in
  Some (set_zones w (delete this (zones w))).

(** The sum of the sizes along a list of segments. *)
Fixpoint segments_size (fuel : nat) (m : memory) (s : Z) (size : Z) : option Z :=
  match fuel with
  | O => None
  | S fuel => if s =? 0 then Some size else segments_size fuel m (Segment_next m s) (u64 (size + Segment_size m s))
  end.
Definition SizeInBytes (this : Z) (w : World) : option Z :=
  z ← zones w !! this;
  size ← segments_size (S (size (vms w))) (mem w) (large_segments_ z) 0;
  if head_ z =? 0 then Some (u64 (size + (position_ z - this)))
  else
    let size := u64 (size + kInitialChunkSize) in
    size ← segments_size (S (stdpp.base.size (blocks w))) (mem w) (Segment_next (mem w) (head_ z)) size;
    Some (u64 (size + (position_ z - Segment_start (head_ z)))).
Definition CapacityInBytes (this : Z) (w : World) : option Z :=
  z ← zones w !! this;
  size ← segments_size (S (size (vms w))) (mem w) (large_segments_ z) 0;
  if head_ z =? 0 then Some (u64 (size + kInitialChunkSize))
  else
    let size := u64 (size + kInitialChunkSize) in
    segments_size (S (stdpp.base.size (blocks w))) (mem w) (head_ z) size.

Definition set_zone (this : Z) (z : Zone) (w : World) : World := set_zones w (<[this := z]> (zones w)).
Definition AllocateLargeSegment (this size : Z) (w : World) : option (Z * World) :=
  z ← zones w !! this;
  let size := s64 (size + RoundUp sizeof_Segment kAlignment) in
  '(s, w) ← Segment_NewLarge size (large_segments_ z) w;
  let w := set_zone this (MkZone (position_ z) (limit_ z) (head_ z) s (previous_ z)) w in
  Some (RoundUp_uword (Segment_start s) kAlignment, w).
Definition AllocateExpand (this size : Z) (w : World) : option (Z * World) :=
  z ← zones w !! this;
  let max_size := RoundDown (kSegmentSize - sizeof_Segment) kAlignment in
  if size >? max_size then AllocateLargeSegment this size w
  else
    '(s, w) ← Segment_New kSegmentSize (head_ z) w;
    let result := RoundUp_uword (Segment_start s) kAlignment in
    let w := set_zone this (MkZone (u64 (result + size)) (Segment_end (mem w) s) s (large_segments_ z) (previous_ z)) w in
    Some (result, w).
Definition set_position (z : Zone) (p : Z) : Zone := MkZone p (limit_ z) (head_ z) (large_segments_ z) (previous_ z).
Definition AllocUnsafe (this size : Z) (w : World) : option (Z * World) :=
  z ← zones w !! this;
  if size >? kIntptrMax - kAlignment then None
  else
    let size := RoundUp size kAlignment in
    let free_size := s64 (limit_ z - position_ z) in
    if free_size >=? size then Some (position_ z, set_zone this (set_position z (u64 (position_ z + size))) w)
    else AllocateExpand this size w.

(** Operations on arrays; [kElementSize] is the size of an element. *)
Definition CheckLength (kElementSize len : Z) : bool := negb (len >? kIntptrMax / kElementSize).
Definition Alloc (this kElementSize len : Z) (w : World) : option (Z * World) :=
  if CheckLength kElementSize len then AllocUnsafe this (s64 (len * kElementSize)) w else None.
Definition memmove (dst src n : Z) (w : World) : World :=
  with_mem w (store_bytes (mem w) dst (load_bytes (mem w) src (Z.to_nat n))).
Definition Realloc (this kElementSize old_data old_len new_len : Z) (w : World) : option (Z * World) :=
  z ← zones w !! this;
  if CheckLength kElementSize new_len then
    let old_end := u64 (old_data + s64 (old_len * kElementSize)) in
    let new_end := u64 (old_data + s64 (new_len * kElementSize)) in
    if (RoundUp_uword old_end kAlignment =? position_ z) && (new_end <=? limit_ z) then
      Some (old_data, set_zone this (set_position z (RoundUp_uword new_end kAlignment)) w)
    else if new_len <=? old_len then Some (old_data, w)
    else
      '(new_data, w) ← Alloc this kElementSize new_len w;
      Some (new_data, if negb (old_data =? 0) then memmove new_data old_data (s64 (old_len * kElementSize)) w else w)
  else None.

(** ** Strings *)
Fixpoint strlen_from (fuel : nat) (m : memory) (str : Z) : option Z :=
  match fuel with
  | O => None
  | S fuel => if byte_at m str =? 0 then Some 0 else n ← strlen_from fuel m (str + 1); Some (n + 1)
  end.
Definition strlen (m : memory) (str : Z) : option Z := strlen_from (S (size m)) m str.
(** What [strncpy] writes: the characters up to the end of the string or to [n], then zeros. *)
Fixpoint strncpy_bytes (m : memory) (src : Z) (n : nat) : list Z :=
  match n with
  | O => []
  | S n => if byte_at m src =? 0 then replicate (S n) 0 else byte_at m src :: strncpy_bytes m (src + 1) n
  end.
Definition strncpy (dst src n : Z) (w : World) : World :=
  with_mem w (store_bytes (mem w) dst (strncpy_bytes (mem w) src (Z.to_nat n))).
Definition put_char (a c : Z) (w : World) : World := with_mem w (<[a := c]> (mem w)).

Definition MakeCopyOfString (this str : Z) (w : World) : option (Z * World) :=
  n ← strlen (mem w) str;
  let len := n + 1 in
  '(copy, w) ← Alloc this 1 len w;
  Some (copy, strncpy copy str len w).
(** The loop that looks for the end of the string in its first [len] characters. *)
Fixpoint find_end (m : memory) (str : Z) (i : Z) (n : nat) : Z :=
  match n with
  | O => i
  | S n => if byte_at m (str + i) =? 0 then i else find_end m str (i + 1) n
  end.
Definition MakeCopyOfStringN (this str len : Z) (w : World) : option (Z * World) :=
  let len := find_end (mem w) str 0 (Z.to_nat len) in
  '(copy, w) ← Alloc this 1 (s64 (len + 1)) w;
  Some (copy, put_char (copy + len) 0 (strncpy copy str len w)).
Definition ConcatStrings (this a b join : Z) (w : World) : option (Z * World) :=
  a_len ← (if a =? 0 then Some 0 else strlen (mem w) a);
  n ← strlen (mem w) b;
  let b_len := n + 1 in
  let len := a_len + b_len in
  '(copy, w) ← Alloc this 1 len w;
  let '(a_len, w) :=
    if a_len >? 0 then (a_len + 1, put_char (copy + a_len) join (strncpy copy a a_len w)) else (a_len, w) in
  Some (copy, strncpy (copy + a_len) b b_len w).
End Zones.

(** ** Lemmas on memory *)
Lemma byte_at_insert m a b x : byte_at (<[a := b]> m) x = if x =? a then b else byte_at m x.
Proof. unfold byte_at. destruct (Z.eqb_spec x a) as [->|]; [by rewrite lookup_insert_eq|by rewrite lookup_insert_ne]. Qed.
Lemma byte_at_store_out l : forall m a x, x < a \/ a + zlen l <= x -> byte_at (store_bytes m a l) x = byte_at m x.
Proof.
  induction l as [|b l IH]; intros m a x Hx; [done|]. unfold zlen in *. cbn [store_bytes length] in *. rewrite IH by lia.
  rewrite byte_at_insert. by destruct (Z.eqb_spec x a); [lia|].
Qed.
Lemma byte_at_store_in l : forall m a (i : nat) b, l !! i = Some b -> byte_at (store_bytes m a l) (a + Z.of_nat i) = b.
Proof.
  induction l as [|c l IH]; intros m a [|i] b Hi; try done; cbn [store_bytes].
  - injection Hi as ->. rewrite byte_at_store_out by lia. rewrite byte_at_insert. by destruct (Z.eqb_spec (a + Z.of_nat 0) a); [|lia].
  - replace (a + Z.of_nat (S i)) with (a + 1 + Z.of_nat i) by lia. by apply IH.
Qed.
Lemma load_bytes_length n : forall m a, length (load_bytes m a n) = n.
Proof. induction n as [|n IH]; intros m a; cbn; [done|]. by rewrite IH. Qed.
Lemma load_bytes_lookup n : forall m a (i : nat), (i < n)%nat -> load_bytes m a n !! i = Some (byte_at m (a + Z.of_nat i)).
Proof.
  induction n as [|n IH]; intros m a [|i] Hi; try lia; cbn; [by rewrite Z.add_0_r|].
  rewrite IH by lia. do 2 f_equal. lia.
Qed.
Lemma load_bytes_ext m m' a n : (forall x, a <= x < a + Z.of_nat n -> byte_at m x = byte_at m' x) -> load_bytes m a n = load_bytes m' a n.
Proof.
  revert a. induction n as [|n IH]; intros a Hx; [done|]. cbn. f_equal; [apply Hx; lia|]. apply IH. intros x Hr. apply Hx. lia.
Qed.
Lemma load_store_bytes l : forall m a, load_bytes (store_bytes m a l) a (length l) = l.
Proof.
  intros m a. apply list_eq. intros i. destruct (decide (i < length l)%nat) as [Hi|Hi].
  - rewrite load_bytes_lookup by done. destruct (lookup_lt_is_Some_2 l i Hi) as [b Hb]. rewrite Hb. f_equal. by apply byte_at_store_in.
  - rewrite !lookup_ge_None_2; [done|lia|]. rewrite load_bytes_length. lia.
Qed.
Lemma le_bytes_length n : forall x, length (le_bytes n x) = n.
Proof. induction n as [|n IH]; intros x; cbn; [done|]. by rewrite IH. Qed.
Lemma of_le_bytes n : forall x, 0 <= x < 256 ^ Z.of_nat n -> of_bytes (le_bytes n x) = x.
Proof.
  induction n as [|n IH]; intros x Hx; [cbn in *; lia|]. rewrite Nat2Z.inj_succ, Z.pow_succ_r in Hx by lia.
  cbn [le_bytes of_bytes]. rewrite IH; [|split; [apply Z.div_pos; lia|apply Z.div_lt_upper_bound; lia]].
  pose proof (Z.div_mod x 256). lia.
Qed.
Lemma load_store_word m a x : is_uint 64 x -> word_at (store_word m a x) a = x.
Proof.
  intros Hx. unfold word_at, store_word. rewrite <- (le_bytes_length 8 x) at 2. rewrite load_store_bytes. apply of_le_bytes. exact Hx.
Qed.
Lemma load_word_ext m m' a : (forall x, a <= x < a + 8 -> byte_at m x = byte_at m' x) -> word_at m a = word_at m' a.
Proof. intros Hx. unfold word_at. by rewrite (load_bytes_ext m m'). Qed.
Lemma byte_at_store_word_out m a v x : x < a \/ a + 8 <= x -> byte_at (store_word m a v) x = byte_at m x.
Proof. intros Hx. apply byte_at_store_out. unfold zlen. rewrite le_bytes_length. lia. Qed.
Lemma load_store_word_ne m a b v : b + 8 <= a \/ a + 8 <= b -> word_at (store_word m a v) b = word_at m b.
Proof. intros Hx. apply load_word_ext. intros x Hr. apply byte_at_store_word_out. lia. Qed.

Lemma write_header_out m s next size vm x : x < s \/ s + 32 <= x -> byte_at (write_header m s next size vm) x = byte_at m x.
Proof. intros Hx. unfold write_header. by rewrite !byte_at_store_word_out by lia. Qed.
Lemma write_header_fields m s next size vm : is_uint 64 next -> 0 <= size < 2 ^ 63 -> is_uint 64 vm ->
  Segment_next (write_header m s next size vm) s = next /\ Segment_size (write_header m s next size vm) s = size /\
  Segment_memory (write_header m s next size vm) s = vm.
Proof.
  intros Hn Hs Hv. unfold write_header, Segment_next, Segment_size, Segment_memory.
  rewrite !(load_store_word_ne _ (s + 24)), !(load_store_word_ne _ (s + 16) s), !(load_store_word_ne _ (s + 8) s), (load_store_word_ne _ (s + 16) (s + 8)) by lia.
  rewrite !load_store_word by (unfold is_uint in *; lia). rewrite swrap_id; [done|lia|unfold is_sint; lia].
Qed.
Lemma header_ext m m' s : (forall x, s <= x < s + 32 -> byte_at m x = byte_at m' x) ->
  Segment_next m s = Segment_next m' s /\ Segment_size m s = Segment_size m' s /\ Segment_memory m s = Segment_memory m' s.
Proof.
  intros Hx. unfold Segment_next, Segment_size, Segment_memory.
  rewrite (load_word_ext m m' s), (load_word_ext m m' (s + 8)), (load_word_ext m m' (s + 16)); [done|..]; intros x Hr; apply Hx; lia.
Qed.

(** ** Lemmas on alignment *)
Lemma RoundUp_spec_8 x : 0 <= x <= kIntptrMax - kAlignment -> (8 | RoundUp x kAlignment) /\ x <= RoundUp x kAlignment < x + 8.
Proof. intros Hx. apply (RoundUp_spec 3); [lia|]. unfold is_sint, kIntptrMax, kAlignment in *. lia. Qed.
Lemma RoundUp_uword_eq x : 0 <= x < 2 ^ 62 -> RoundUp_uword x kAlignment = RoundUp x kAlignment.
Proof.
  intros Hx. unfold RoundUp_uword, RoundUp. rewrite uwrap_id, swrap_id by (unfold is_uint, is_sint, kAlignment; lia). done.
Qed.
Lemma RoundUp_aligned x : 0 <= x < 2 ^ 62 -> (8 | x) -> RoundUp x kAlignment = x.
Proof.
  intros Hx Ha. destruct (RoundUp_spec_8 x) as [Hd Hr]; [unfold kIntptrMax, kAlignment; lia|].
  destruct Ha as [k ->]. destruct Hd as [j Hj]. rewrite Hj in *. lia.
Qed.
Lemma Segment_start_eq s : 0 <= s < 2 ^ 62 -> Segment_start s = s + 32.
Proof. intros Hs. unfold Segment_start, Segment_address, sizeof_Segment. rewrite (swrap_id 32), uwrap_id by (unfold is_uint, is_sint; lia). done. Qed.

(** ** The invariant

    What a zone consists of: the addresses of its segments, the start, size and
    [VirtualMemory] of its large segments, and the chunks it has handed
    out, with the sizes that were asked for. *)
Record Shape := MkShape { segs : list Z; larges : list (Z * Z * Z); chunks : list (Z * Z) }.
Definition large_start (l : Z * Z * Z) : Z := l.1.1.
Definition large_size (l : Z * Z * Z) : Z := l.1.2.
Definition large_memory (l : Z * Z * Z) : Z := l.2.
Definition capacity (g : Shape) : Z :=
  kInitialChunkSize + kSegmentSize * Z.of_nat (length (segs g)) + foldr Z.add 0 (large_size <$> larges g).

Fixpoint seg_chain (m : memory) (p : Z) (l : list Z) : Prop :=
  match l with
  | [] => p = 0
  | s :: l => p = s /\ Segment_size m s = kSegmentSize /\ seg_chain m (Segment_next m s) l
  end.
Fixpoint large_chain (m : memory) (p : Z) (l : list (Z * Z * Z)) : Prop :=
  match l with
  | [] => p = 0
  | s :: l => p = large_start s /\ Segment_size m (large_start s) = large_size s /\
      Segment_memory m (large_start s) = large_memory s /\ large_chain m (Segment_next m (large_start s)) l
  end.
(** The bytes that chunks may use, and those of the headers. *)
Definition payload (this : Z) (g : Shape) (x : Z) : Prop :=
  this <= x < this + kInitialChunkSize \/
  (exists s, s ∈ segs g /\ s + 32 <= x < s + kSegmentSize) \/
  (exists l, l ∈ larges g /\ large_start l + 32 <= x < large_start l + large_size l).
Definition header (g : Shape) (x : Z) : Prop :=
  (exists s, s ∈ segs g /\ s <= x < s + 32) \/ (exists l, l ∈ larges g /\ large_start l <= x < large_start l + 32).
(** A chunk with its padding. *)
Definition extent (c : Z * Z) : Z * Z := (c.1, RoundUp c.2 kAlignment).
Definition current_start (this : Z) (g : Shape) : Z := match segs g with [] => this | s :: _ => s + 32 end.
Definition current_end (this : Z) (g : Shape) : Z := match segs g with [] => this + kInitialChunkSize | s :: _ => s + kSegmentSize end.
Definition chunk_ok (this : Z) (z : Zone) (g : Shape) (c : Z * Z) : Prop :=
  (8 | c.1) /\ 0 < c.1 <= 2 ^ 47 /\ 0 <= c.2 <= 2 ^ 47 /\
  forall x, within (extent c) x -> payload this g x /\ ~ (position_ z <= x < limit_ z).

Record Zone_ok (w : World) (this : Z) (z : Zone) (g : Shape) : Prop := {
  ok_zone : zones w !! this = Some z;
  ok_this : (8 | this);
  ok_segs : seg_chain (mem w) (head_ z) (segs g);
  ok_larges : large_chain (mem w) (large_segments_ z) (larges g);
  ok_seg_blocks : forall s, s ∈ segs g -> (16 | s) /\ blocks w !! s = Some kSegmentSize;
  ok_large_vms : forall l, l ∈ larges g -> (8 | large_start l) /\ (8 | large_size l) /\ 32 <= large_size l /\
    vms w !! large_memory l = Some (large_start l, large_size l);
  ok_segs_nodup : NoDup (segs g);
  ok_larges_nodup : NoDup (large_memory <$> larges g);
  ok_position : (8 | position_ z) /\ current_start this g <= position_ z <= limit_ z;
  ok_limit : limit_ z = current_end this g;
  ok_chunks : Forall (chunk_ok this z g) (chunks g);
  ok_disjoint : forall i j c d, chunks g !! i = Some c -> chunks g !! j = Some d -> i <> j -> separate (extent c) (extent d) }.
Record World_ok (w : World) : Prop := {
  regions_separate : forall o1 o2 r1 r2, region w o1 = Some r1 -> region w o2 = Some r2 -> o1 <> o2 -> separate r1 r2;
  regions_range : forall o r, region w o = Some r -> 0 < r.1 /\ 0 <= r.2 /\ r.1 + r.2 <= 2 ^ 47 }.

(** What an operation on one zone may do to the rest of the process: it takes new
    memory and writes to it and to the free part of the zone. *)
Definition free_of (w : World) (this x : Z) : Prop := exists z, zones w !! this = Some z /\ position_ z <= x < limit_ z.
Record Extends (this : Z) (g g' : Shape) (w w' : World) : Prop := {
  ext_zones : exists z', zones w' = <[this := z']> (zones w) /\ forall z, zones w !! this = Some z -> previous_ z' = previous_ z;
  ext_blocks : forall a, blocks w' !! a = blocks w !! a \/ blocks w !! a = None /\ a ∈ segs g';
  ext_vms : forall h, vms w' !! h = vms w !! h \/ vms w !! h = None /\ h ∈ large_memory <$> larges g';
  ext_segs : segs g ⊆ segs g' /\ forall a, a ∈ segs g' -> a ∈ segs g \/ blocks w !! a = None;
  ext_larges : larges g ⊆ larges g' /\ forall l, l ∈ larges g' -> l ∈ larges g \/ vms w !! large_memory l = None;
  ext_mem : forall x, in_use w x -> ~ free_of w this x -> byte_at (mem w') x = byte_at (mem w) x;
  ext_thread : thread_zone_ w' = thread_zone_ w /\ native_scope w' = native_scope w;
  ext_capacity : forall c, current_thread w = Some c -> exists c', current_thread w' = Some c' /\
    u64 (current_zone_capacity_ c') = u64 (current_zone_capacity_ c + (capacity g' - capacity g)) }.

(** ** Regions *)
Lemma region_set_mem w m o : region (with_mem w m) o = region w o.
Proof. by destruct o. Qed.
Lemma region_set_zone this z w o : is_Some (zones w !! this) -> region (set_zone this z w) o = region w o.
Proof.
  intros [z0 Hz]. destruct o as [a|h|this']; try done. cbn. destruct (decide (this' = this)) as [->|]; [by rewrite lookup_insert_eq, Hz|].
  by rewrite lookup_insert_ne.
Qed.
Lemma region_ext w w' : (forall o, region w' o = region w o) -> World_ok w -> World_ok w'.
Proof. intros Ho [H1 H2]. split; [intros o1 o2 r1 r2; rewrite !Ho; apply H1|intros o r; rewrite Ho; apply H2]. Qed.
Lemma in_use_ext w w' x : (forall o, region w' o = region w o) -> in_use w' x <-> in_use w x.
Proof. intros Ho. unfold in_use. by setoid_rewrite Ho. Qed.

(** Accounting changes nothing but the counters. *)
Lemma IncrementMemoryCapacity_fields n w : let w' := IncrementMemoryCapacity n w in
  mem w' = mem w /\ blocks w' = blocks w /\ vms w' = vms w /\ zones w' = zones w /\ thread_zone_ w' = thread_zone_ w /\ native_scope w' = native_scope w.
Proof. unfold IncrementMemoryCapacity. destruct (current_thread w); [done|]. by destruct (native_scope w) eqn:E; rewrite ?E. Qed.
Lemma DecrementMemoryCapacity_fields n w : let w' := DecrementMemoryCapacity n w in
  mem w' = mem w /\ blocks w' = blocks w /\ vms w' = vms w /\ zones w' = zones w /\ thread_zone_ w' = thread_zone_ w /\ native_scope w' = native_scope w.
Proof. unfold DecrementMemoryCapacity. destruct (current_thread w); [done|]. by destruct (native_scope w) eqn:E; rewrite ?E. Qed.
Lemma region_Increment n w o : region (IncrementMemoryCapacity n w) o = region w o.
Proof. destruct (IncrementMemoryCapacity_fields n w) as (_ & Hb & Hv & Hz & _). destruct o; cbn; by rewrite ?Hb, ?Hv, ?Hz. Qed.
Lemma IncrementMemoryCapacity_current n w c : current_thread w = Some c -> exists c', current_thread (IncrementMemoryCapacity n w) = Some c' /\
  u64 (current_zone_capacity_ c') = u64 (current_zone_capacity_ c + n).
Proof.
  intros Hc. unfold IncrementMemoryCapacity. rewrite Hc. eexists. split; [done|]. cbn. unfold uwrap. by rewrite Zmod_mod, Zplus_mod_idemp_r.
Qed.
Lemma DecrementMemoryCapacity_current n w c : current_thread w = Some c -> exists c', current_thread (DecrementMemoryCapacity n w) = Some c' /\
  u64 (current_zone_capacity_ c') = u64 (current_zone_capacity_ c - n).
Proof.
  intros Hc. unfold DecrementMemoryCapacity. rewrite Hc. eexists. split; [done|]. cbn. unfold uwrap. by rewrite Zmod_mod, Zminus_mod_idemp_r.
Qed.

Section Shapes.
Context (w : World) (this : Z) (z : Zone) (g : Shape) (HW : World_ok w) (HZ : Zone_ok w this z g).

Lemma this_range : 0 < this /\ this + kInitialChunkSize <= 2 ^ 47.
Proof using HW HZ. destruct (regions_range _ HW (OfZone this) (this, kInitialChunkSize)) as (? & ? & ?); [cbn; by rewrite (ok_zone _ _ _ _ HZ)|done]. Qed.
Lemma seg_region s : s ∈ segs g -> region w (OfBlock s) = Some (s, kSegmentSize).
Proof using HZ. intros Hs. cbn. by destruct (ok_seg_blocks _ _ _ _ HZ s Hs) as [_ ->]. Qed.
Lemma seg_range s : s ∈ segs g -> (8 | s) /\ 0 < s /\ s + kSegmentSize <= 2 ^ 47.
Proof using HW HZ.
  intros Hs. destruct (regions_range _ HW _ _ (seg_region s Hs)) as (? & ? & ?). destruct (ok_seg_blocks _ _ _ _ HZ s Hs) as [[k ->] _].
  split; [by exists (2 * k); lia|done].
Qed.
Lemma large_region l : l ∈ larges g -> region w (OfVirtualMemory (large_memory l)) = Some (large_start l, large_size l).
Proof using HZ. intros Hl. cbn. by destruct (ok_large_vms _ _ _ _ HZ l Hl) as (_ & _ & _ & ->). Qed.
Lemma large_range l : l ∈ larges g -> 0 < large_start l /\ 32 <= large_size l /\ large_start l + large_size l <= 2 ^ 47.
Proof using HW HZ.
  intros Hl. destruct (regions_range _ HW _ _ (large_region l Hl)) as (? & ? & ?). by destruct (ok_large_vms _ _ _ _ HZ l Hl) as (_ & _ & ? & _).
Qed.
(** Every byte of a zone lies in a region of it. *)
Definition owned_by (o : Owner) : Prop :=
  o = OfZone this \/ (exists s, s ∈ segs g /\ o = OfBlock s) \/ (exists l, l ∈ larges g /\ o = OfVirtualMemory (large_memory l)).
Lemma payload_region x : payload this g x -> exists o r, owned_by o /\ region w o = Some r /\ within r x.
Proof using HW HZ.
  intros [Hx|[(s & Hs & Hx)|(l & Hl & Hx)]].
  - exists (OfZone this), (this, kInitialChunkSize). split; [by left|]. cbn. by rewrite (ok_zone _ _ _ _ HZ).
  - exists (OfBlock s), (s, kSegmentSize). split; [right; left; eauto|]. split; [by apply seg_region|]. unfold within; cbn in *; lia.
  - exists (OfVirtualMemory (large_memory l)), (large_start l, large_size l). split; [right; right; eauto|]. split; [by apply large_region|]. unfold within; cbn in *; lia.
Qed.
Lemma header_region x : header g x -> exists o r, owned_by o /\ region w o = Some r /\ within r x.
Proof using HW HZ.
  intros [(s & Hs & Hx)|(l & Hl & Hx)].
  - exists (OfBlock s), (s, kSegmentSize). split; [right; left; eauto|]. split; [by apply seg_region|]. unfold within, kSegmentSize; cbn in *; lia.
  - exists (OfVirtualMemory (large_memory l)), (large_start l, large_size l). pose proof (large_range l Hl).
    split; [right; right; eauto|]. split; [by apply large_region|]. unfold within; cbn in *; lia.
Qed.
Lemma payload_in_use x : payload this g x -> in_use w x.
Proof using HW HZ. intros (o & r & _ & Hr & Hx)%payload_region. by exists o, r. Qed.
Lemma header_in_use x : header g x -> in_use w x.
Proof using HW HZ. intros (o & r & _ & Hr & Hx)%header_region. by exists o, r. Qed.
Lemma owner_unique o1 o2 r1 r2 x : region w o1 = Some r1 -> region w o2 = Some r2 -> within r1 x -> within r2 x -> o1 = o2.
Proof using HW.
  intros H1 H2 Hx1 Hx2. destruct (decide (o1 = o2)) as [|Hne]; [done|]. by destruct (regions_separate _ HW _ _ _ _ H1 H2 Hne x).
Qed.
End Shapes.

(** Headers and chunks of any two zones are apart. *)
Lemma header_not_payload w this1 z1 g1 this2 z2 g2 x :
  World_ok w -> Zone_ok w this1 z1 g1 -> Zone_ok w this2 z2 g2 -> header g2 x -> payload this1 g1 x -> False.
Proof.
  intros HW H1 H2 Hh Hp. destruct Hh as [(s & Hs & Hx)|(l & Hl & Hx)].
  - pose proof (seg_region _ _ _ _ H2 s Hs) as R2.
    assert (Hw2 : within (s, kSegmentSize) x) by (unfold within, kSegmentSize; cbn; lia).
    destruct Hp as [Hy|[(t & Ht & Hy)|(t & Ht & Hy)]].
    + discriminate (owner_unique w HW (OfBlock s) (OfZone this1) (s, kSegmentSize) (this1, kInitialChunkSize) x R2
        ltac:(cbn; by rewrite (ok_zone _ _ _ _ H1)) Hw2 Hy).
    + assert (E : OfBlock s = OfBlock t) by (eapply (owner_unique w HW _ _ _ _ x R2 (seg_region _ _ _ _ H1 t Ht) Hw2); unfold within, kSegmentSize in *; cbn in *; lia).
      injection E as ->. lia.
    + assert (E : OfBlock s = OfVirtualMemory (large_memory t)) by (eapply (owner_unique w HW _ _ _ _ x R2 (large_region _ _ _ _ H1 t Ht) Hw2); unfold within in *; cbn in *; lia).
      discriminate E.
  - pose proof (large_region _ _ _ _ H2 l Hl) as R2. pose proof (large_range _ _ _ _ HW H2 l Hl).
    assert (Hw2 : within (large_start l, large_size l) x) by (unfold within; cbn; lia).
    destruct Hp as [Hy|[(t & Ht & Hy)|(t & Ht & Hy)]].
    + discriminate (owner_unique w HW _ (OfZone this1) _ (this1, kInitialChunkSize) x R2 ltac:(cbn; by rewrite (ok_zone _ _ _ _ H1)) Hw2 Hy).
    + assert (E : OfVirtualMemory (large_memory l) = OfBlock t) by (eapply (owner_unique w HW _ _ _ _ x R2 (seg_region _ _ _ _ H1 t Ht) Hw2); unfold within, kSegmentSize in *; cbn in *; lia).
      discriminate E.
    + pose proof (large_region _ _ _ _ H1 t Ht) as R1.
      assert (E : OfVirtualMemory (large_memory l) = OfVirtualMemory (large_memory t)) by (eapply (owner_unique w HW _ _ _ _ x R2 R1 Hw2); unfold within in *; cbn in *; lia).
      rewrite E, R1 in R2. injection R2 as E1 E2. lia.
Qed.

(** ** Frame: a zone depends on its headers and on its own entries. *)
Lemma seg_chain_ext m m' l : forall p, (forall s x, s ∈ l -> s <= x < s + 32 -> byte_at m x = byte_at m' x) -> seg_chain m p l -> seg_chain m' p l.
Proof.
  induction l as [|s l IH]; intros p Hx; [done|]. cbn [seg_chain]. intros (-> & Hs & Hc).
  destruct (header_ext m m' s) as (E1 & E2 & _); [intros x Hr; apply (Hx s); [by left|done]|]. rewrite <- E1, <- E2.
  split; [done|]. split; [done|]. apply IH; [|done]. intros t x Ht. apply Hx. by right.
Qed.
Lemma large_chain_ext m m' l : forall p, (forall s x, s ∈ l -> large_start s <= x < large_start s + 32 -> byte_at m x = byte_at m' x) -> large_chain m p l -> large_chain m' p l.
Proof.
  induction l as [|s l IH]; intros p Hx; [done|]. cbn [large_chain]. intros (-> & Hs & Hm & Hc).
  destruct (header_ext m m' (large_start s)) as (E1 & E2 & E3); [intros x Hr; apply (Hx s); [by left|done]|]. rewrite <- E1, <- E2, <- E3.
  split; [done|]. split; [done|]. split; [done|]. apply IH; [|done]. intros t x Ht. apply Hx. by right.
Qed.
Lemma Zone_ok_frame w w' this z g : Zone_ok w this z g -> zones w' !! this = zones w !! this ->
  (forall s, s ∈ segs g -> blocks w' !! s = blocks w !! s) -> (forall l, l ∈ larges g -> vms w' !! large_memory l = vms w !! large_memory l) ->
  (forall x, header g x -> byte_at (mem w') x = byte_at (mem w) x) -> Zone_ok w' this z g.
Proof.
  intros [] Hz Hb Hv Hm. split; try done.
  - congruence.
  - eapply seg_chain_ext; [|eassumption]. intros s x Hs Hx. symmetry. apply Hm. left. eauto.
  - eapply large_chain_ext; [|eassumption]. intros s x Hs Hx. symmetry. apply Hm. right. eauto.
  - intros s Hs. rewrite Hb by done. auto.
  - intros l Hl. rewrite Hv by done. auto.
Qed.
Lemma free_payload w this z g x : Zone_ok w this z g -> position_ z <= x < limit_ z -> payload this g x.
Proof.
  intros HZ Hx. pose proof (ok_position _ _ _ _ HZ) as [_ Hp]. rewrite (ok_limit _ _ _ _ HZ) in *. unfold current_start, current_end in *.
  destruct (segs g) as [|s l] eqn:E; [left; lia|]. right; left. exists s. rewrite E. split; [by left|lia].
Qed.
Lemma free_of_payload w this z g x : Zone_ok w this z g -> free_of w this x -> payload this g x.
Proof. intros HZ (z' & Hz & Hx). rewrite (ok_zone _ _ _ _ HZ) in Hz. injection Hz as <-. by eapply free_payload. Qed.
(** Operations on another zone. *)
Lemma Zone_ok_other w w' this z g this' z' g1 g2 : World_ok w -> Zone_ok w this z g -> Zone_ok w this' z' g1 -> Extends this' g1 g2 w w' -> this <> this' ->
  Zone_ok w' this z g.
Proof.
  intros HW HZ HZ' HE Hne. eapply Zone_ok_frame; [exact HZ|..].
  - destruct (ext_zones _ _ _ _ _ HE) as (z1 & -> & _). by rewrite lookup_insert_ne.
  - intros s Hs. destruct (ext_blocks _ _ _ _ _ HE s) as [|[Hn _]]; [done|]. destruct (ok_seg_blocks _ _ _ _ HZ s Hs). congruence.
  - intros l Hl. destruct (ext_vms _ _ _ _ _ HE (large_memory l)) as [|[Hn _]]; [done|]. destruct (ok_large_vms _ _ _ _ HZ l Hl) as (_ & _ & _ & ?). congruence.
  - intros x Hx. apply (ext_mem _ _ _ _ _ HE); [by eapply (header_in_use w this z g)|]. intros F. by eapply (header_not_payload w this' z' g1 this z g x), free_of_payload.
Qed.
(** A client writes to its chunks. *)
Lemma Zone_ok_write w this z g this' z' g' m : World_ok w -> Zone_ok w this z g -> Zone_ok w this' z' g' ->
  (forall x, ~ payload this' g' x -> byte_at m x = byte_at (mem w) x) -> Zone_ok (with_mem w m) this z g.
Proof.
  intros HW HZ HZ' Hm. eapply Zone_ok_frame; [exact HZ|done..|]. intros x Hx. apply Hm. intros Hp.
  by eapply (header_not_payload w this' z' g' this z g x).
Qed.

(** ** Growing a zone *)
Definition with_chunks (g : Shape) (l : list (Z * Z)) : Shape := MkShape (segs g) (larges g) l.
Lemma add_chunk w this z g c : Zone_ok w this z g -> chunk_ok this z g c -> Forall (fun d => separate (extent c) (extent d)) (chunks g) ->
  Zone_ok w this z (with_chunks g (c :: chunks g)).
Proof.
  intros [] Hc Hd. rewrite list.Forall_forall in Hd. split; try done; cbn; [by constructor|].
  intros [|i] [|j] c' d' Hi Hj Hne; try done; cbn in Hi, Hj.
  - injection Hi as <-. apply list_elem_of_lookup_2 in Hj. apply (Hd d'), Hj.
  - injection Hj as <-. apply list_elem_of_lookup_2 in Hi. intros x Hx1 Hx2. by apply (Hd c' Hi x).
  - eapply ok_disjoint0; [done..|lia].
Qed.
Lemma limit_range w this z g : World_ok w -> Zone_ok w this z g -> 0 < position_ z <= limit_ z /\ limit_ z <= 2 ^ 47.
Proof.
  intros HW HZ. pose proof (this_range _ _ _ _ HW HZ). pose proof (ok_position _ _ _ _ HZ) as [_ Hp]. rewrite (ok_limit _ _ _ _ HZ) in *.
  unfold current_start, current_end in *. destruct (segs g) as [|s l] eqn:E; [lia|].
  pose proof (seg_range _ _ _ _ HW HZ s) as Hs. rewrite E in Hs. destruct Hs as (_ & ? & ?); [by left|]. lia.
Qed.
(** Taking a chunk from the free end of the current segment. *)
Lemma bump w this z g size : World_ok w -> Zone_ok w this z g -> 0 <= size <= 2 ^ 47 -> position_ z + RoundUp size kAlignment <= limit_ z ->
  Zone_ok (set_zone this (set_position z (position_ z + RoundUp size kAlignment)) w) this
    (set_position z (position_ z + RoundUp size kAlignment)) (with_chunks g ((position_ z, size) :: chunks g)).
Proof.
  intros HW HZ Hs Hl. pose proof (limit_range _ _ _ _ HW HZ) as [Hp Hli]. destruct (RoundUp_spec_8 size) as [Ha Hr]; [unfold kIntptrMax, kAlignment; lia|].
  set (n := RoundUp size kAlignment) in *. pose proof (ok_position _ _ _ _ HZ) as [Hpa Hpr].
  pose proof (ok_chunks _ _ _ _ HZ) as Hc. rewrite list.Forall_forall in Hc.
  apply (add_chunk _ this _ g (position_ z, size)).
  - destruct HZ. split; try done; cbn; [by rewrite lookup_insert_eq|split; [by apply Z.divide_add_r|lia]|].
    apply list.Forall_forall. intros c Hin. destruct (Hc c Hin) as (? & ? & ? & Hx). repeat split; try lia; try done; [by apply Hx|].
    cbn. intros Hy. apply (proj2 (Hx x ltac:(done))). lia.
  - split; [done|]. split; [cbn; lia|]. split; [done|]. intros x Hx. unfold within, extent in Hx; cbn in Hx; fold n in Hx.
    split; [eapply free_payload; [exact HZ|lia]|cbn; lia].
  - apply list.Forall_forall. intros d Hin x Hx1 Hx2. destruct (Hc d Hin) as (_ & _ & _ & Hd). apply (proj2 (Hd x Hx2)).
    unfold within, extent in Hx1; cbn in *; fold n in Hx1; lia.
Qed.

(** A new region of memory for [o]. *)
Record Added (o : Owner) (s n : Z) (w w1 : World) : Prop := {
  added_region : forall o', region w1 o' = if decide (o' = o) then Some (s, n) else region w o';
  added_new : region w o = None;
  added_unused : forall x, within (s, n) x -> ~ in_use w x;
  added_mem : forall x, in_use w x -> byte_at (mem w1) x = byte_at (mem w) x;
  added_range : 0 < s /\ 0 <= n /\ s + n <= 2 ^ 47;
  added_zones : zones w1 = zones w;
  added_thread : thread_zone_ w1 = thread_zone_ w /\ native_scope w1 = native_scope w;
  added_capacity : forall c, current_thread w = Some c -> exists c', current_thread w1 = Some c' /\
    u64 (current_zone_capacity_ c') = u64 (current_zone_capacity_ c + n) }.
Lemma Added_ok o s n w w1 : World_ok w -> Added o s n w w1 -> World_ok w1.
Proof.
  intros HW HA. pose proof (added_unused _ _ _ _ _ HA) as Hu. split.
  - intros o1 o2 r1 r2. rewrite !(added_region _ _ _ _ _ HA).
    destruct (decide (o1 = o)) as [->|]; destruct (decide (o2 = o)) as [->|]; intros H1 H2 Hne; try done.
    + injection H1 as <-. intros x Hx Hx2. apply (Hu x Hx). by exists o2, r2.
    + injection H2 as <-. intros x Hx Hx2. apply (Hu x Hx2). by exists o1, r1.
    + by eapply regions_separate.
  - intros o' r. rewrite (added_region _ _ _ _ _ HA). destruct (decide (o' = o)) as [->|]; [|by apply regions_range].
    intros [= <-]. apply (added_range _ _ _ _ _ HA).
Qed.
Lemma unused_out s n x : 32 <= n -> ~ within (s, n) x -> x < s \/ s + 32 <= x.
Proof. unfold within; cbn. lia. Qed.

Section Growth.
Context `{SM : SystemMemory} {SMOk : SystemMemoryOk}.

Lemma Segment_New_ok w n next s w1 : is_uint 64 next -> 32 <= n < 2 ^ 63 -> Segment_New n next w = Some (s, w1) ->
  Added (OfBlock s) s n w w1 /\ (16 | s) /\ blocks w1 = <[s := n]> (blocks w) /\ vms w1 = vms w /\
  Segment_next (mem w1) s = next /\ Segment_size (mem w1) s = n.
Proof using SMOk.
  intros Hnext Hn. unfold Segment_New. destruct (malloc w n) as [[a m]|] eqn:Hm; [|done]. cbn [mbind option_bind]. intros [= -> <-].
  destruct (malloc_fresh w n s m Hm) as [Hnone [Ha Hr Hu Ho]].
  set (w0 := set_blocks _ _). destruct (IncrementMemoryCapacity_fields n w0) as (Em & Eb & Ev & Ez & Et & En).
  destruct (write_header_fields m s next n 0) as (F1 & F2 & _); [done|lia|unfold is_uint; lia|].
  rewrite Em, Eb, Ev. split; [|done]. split; rewrite ?Em, ?Ez, ?Et, ?En; try done.
  - intros o. rewrite region_Increment. destruct o as [b|h|t]; cbn; [|by destruct (decide _)..].
    destruct (decide (OfBlock b = OfBlock s)) as [[= ->]|Hne]; [by rewrite lookup_insert_eq|]. rewrite lookup_insert_ne by congruence. done.
  - cbn. by rewrite Hnone.
  - intros x Hx. unfold w0. cbn [mem set_blocks set_vms with_mem]. rewrite write_header_out; [by apply Ho|]. apply (unused_out s n); [lia|]. intros Hin. by apply (Hu x).
  - intros c Hc. by apply (IncrementMemoryCapacity_current n w0 c).
Qed.
Lemma Segment_NewLarge_ok w n0 next s w1 : is_uint 64 next -> is_sint 64 (n0 + PageSize - 1) -> 32 <= n0 -> Segment_NewLarge n0 next w = Some (s, w1) ->
  exists h n, Added (OfVirtualMemory h) s n w w1 /\ (8 | s) /\ (8 | n) /\ n0 <= n /\ blocks w1 = blocks w /\ vms w !! h = None /\ vms w1 = <[h := (s, n)]> (vms w) /\
  Segment_next (mem w1) s = next /\ Segment_size (mem w1) s = n /\ Segment_memory (mem w1) s = h.
Proof using SMOk.
  intros Hnext Hn0 H32. unfold Segment_NewLarge. destruct PageSize_pow2 as (k & Hk & Hpage). rewrite Hpage in *.
  destruct (RoundUp_spec k ltac:(lia) n0 Hn0) as [Hdiv Hround]. set (n := RoundUp n0 (2 ^ k)) in *.
  destruct (VirtualMemory_Allocate w n) as [[[h a] m]|] eqn:Hm; [|done]. cbn [mbind option_bind]. intros [= -> <-].
  destruct (Allocate_fresh w n h s m Hm) as (Hnone & Hh & [Ha Hr Hu Ho]). exists h, n.
  assert (H8 : (8 | 2 ^ k)) by (exists (2 ^ (k - 3)); rewrite (Z.mul_comm _ 8); change 8 with (2 ^ 3); rewrite <- Z.pow_add_r by lia; f_equal; lia).
  set (w0 := set_vms _ _). destruct (IncrementMemoryCapacity_fields n w0) as (Em & Eb & Ev & Ez & Et & En).
  destruct (write_header_fields m s next n h) as (F1 & F2 & F3); [done|lia|unfold is_uint; lia|].
  rewrite Em, Eb, Ev. split; [|rewrite Hpage in Ha; repeat split; try done; try lia; eapply Z.divide_trans; eassumption].
  split; rewrite ?Em, ?Ez, ?Et, ?En; try done.
  - intros o. rewrite region_Increment. destruct o as [b|h'|t]; cbn; [by destruct (decide _)| |by destruct (decide _)].
    destruct (decide (OfVirtualMemory h' = OfVirtualMemory h)) as [[= ->]|Hne]; [by rewrite lookup_insert_eq|]. rewrite lookup_insert_ne by congruence. done.
  - intros x Hx. unfold w0. cbn [mem set_blocks set_vms with_mem]. rewrite write_header_out; [by apply Ho|]. apply (unused_out s n); [lia|]. intros Hin. by apply (Hu x).
  - intros c Hc. by apply (IncrementMemoryCapacity_current n w0 c).
Qed.
End Growth.

Lemma head_uint w this z g : World_ok w -> Zone_ok w this z g -> is_uint 64 (head_ z).
Proof.
  intros HW HZ. pose proof (ok_segs _ _ _ _ HZ) as Hc. destruct (segs g) as [|s l] eqn:E; [by rewrite Hc|].
  destruct Hc as [-> _]. destruct (seg_range _ _ _ _ HW HZ s) as (_ & ? & ?); [rewrite E; by left|]. unfold is_uint, kSegmentSize in *. lia.
Qed.
Lemma large_uint w this z g : World_ok w -> Zone_ok w this z g -> is_uint 64 (large_segments_ z).
Proof.
  intros HW HZ. pose proof (ok_larges _ _ _ _ HZ) as Hc. destruct (larges g) as [|s l] eqn:E; [by rewrite Hc|].
  destruct Hc as [-> _]. destruct (large_range _ _ _ _ HW HZ s) as (? & ? & ?); [rewrite E; by left|]. unfold is_uint in *. lia.
Qed.
Lemma Extends_refl this g w z c : zones w !! this = Some z -> Extends this g (with_chunks g c) w w.
Proof.
  intros Hz. split; try done; auto; [exists z; rewrite insert_id by done; split; [done|congruence]|]. intros cc Hc. exists cc. split; [done|]. f_equal. unfold capacity. cbn. lia.
Qed.
Lemma Extends_chunks this g g' w w' c : Extends this g g' w w' -> Extends this g (with_chunks g' c) w w'.
Proof. intros []. by split. Qed.
Lemma Extends_set_zone this g g' w w' z z0 c : zones w !! this = Some z0 -> previous_ z = previous_ z0 -> Extends this g g' w w' ->
  Extends this g (with_chunks g' c) w (set_zone this z w').
Proof.
  intros Hz0 Hp [(z' & Hz & _) ? ? ? ? ? ? ?]. split; try done. exists z. cbn. rewrite Hz, insert_insert_eq. split; [done|congruence].
Qed.
Lemma set_zone_set_zone this z1 z2 w : set_zone this z2 (set_zone this z1 w) = set_zone this z2 w.
Proof. unfold set_zone. cbn. unfold set_zones. cbn. by rewrite insert_insert_eq. Qed.
Lemma payload_mono this g g' x : segs g ⊆ segs g' -> larges g ⊆ larges g' -> payload this g x -> payload this g' x.
Proof. intros Hs Hl [Hx|[(s & ? & ?)|(l & ? & ?)]]; [by left|right; left; exists s; auto|right; right; exists l; auto]. Qed.

(** The chunks of a zone that gets more memory, none of it free before. *)
Lemma chunks_grow w this z g z' g' : World_ok w -> Zone_ok w this z g -> segs g ⊆ segs g' -> larges g ⊆ larges g' ->
  (forall x, position_ z' <= x < limit_ z' -> position_ z <= x < limit_ z \/ ~ in_use w x) -> Forall (chunk_ok this z' g') (chunks g).
Proof.
  intros HW HZ Hs Hl Hf. pose proof (ok_chunks _ _ _ _ HZ) as H. revert H. apply List.Forall_impl. intros c (? & ? & ? & Hx). split; [done|]. split; [done|]. split; [done|].
  intros x Hc. destruct (Hx x Hc) as [Hp Hn]. split; [by eapply payload_mono|]. intros Hin. destruct (Hf x Hin) as [|Hu]; [done|]. apply Hu. by eapply payload_in_use.
Qed.

Section Push.
Context (w w1 : World) (this : Z) (z : Zone) (g : Shape) (HW : World_ok w) (HZ : Zone_ok w this z g).
Lemma added_this : forall o s n, Added o s n w w1 -> zones w1 !! this = Some z.
Proof using HZ. intros o s n HA. rewrite (added_zones _ _ _ _ _ HA). apply (ok_zone _ _ _ _ HZ). Qed.

Lemma push_segment s : Added (OfBlock s) s kSegmentSize w w1 -> (16 | s) -> blocks w1 = <[s := kSegmentSize]> (blocks w) -> vms w1 = vms w ->
  Segment_next (mem w1) s = head_ z -> Segment_size (mem w1) s = kSegmentSize ->
  let z1 := MkZone (s + 32) (s + kSegmentSize) s (large_segments_ z) (previous_ z) in
  let g1 := MkShape (s :: segs g) (larges g) (chunks g) in
  World_ok (set_zone this z1 w1) /\ Zone_ok (set_zone this z1 w1) this z1 g1 /\ Extends this g g1 w (set_zone this z1 w1).
Proof using HW HZ.
  intros HA H16 Hb Hv Hn Hs z1 g1. pose proof (added_new _ _ _ _ _ HA) as Hnew. cbn in Hnew. apply fmap_None in Hnew.
  assert (Hseg : forall t, t ∈ segs g -> t <> s) by (intros t Ht ->; destruct (ok_seg_blocks _ _ _ _ HZ s Ht); congruence).
  split; [|split].
  - eapply region_ext; [intros o; apply region_set_zone; eexists; by eapply added_this|]. by eapply Added_ok.
  - pose proof HZ as HZ'. destruct HZ. split; try done; cbn [mem blocks vms zones set_zone set_zones head_ large_segments_ position_ limit_ segs larges chunks z1 g1].
    + by rewrite lookup_insert_eq.
    + split; [done|]. split; [done|]. rewrite Hn. eapply seg_chain_ext; [|eassumption]. intros t x Ht Hx. symmetry.
      apply (added_mem _ _ _ _ _ HA). eapply header_in_use; [done|exact HZ'|]. left. eauto.
    + eapply large_chain_ext; [|eassumption]. intros t x Ht Hx. symmetry.
      apply (added_mem _ _ _ _ _ HA). eapply header_in_use; [done|exact HZ'|]. right. eauto.
    + intros t [->|Ht]%elem_of_cons; [by rewrite Hb, lookup_insert_eq|]. rewrite Hb, lookup_insert_ne; [auto|]. symmetry. auto.
    + rewrite Hv. auto.
    + constructor; [|done]. intros Ht. by apply (Hseg s).
    + split; [|unfold current_start, kSegmentSize; cbn; lia]. destruct H16 as [k ->]. exists (2 * k + 4). lia.
    + eapply (chunks_grow w); try done; [set_solver|]. intros x Hx. right. apply (added_unused _ _ _ _ _ HA). unfold within; cbn in *; lia.
  - split; cbn.
    + exists z1. rewrite (added_zones _ _ _ _ _ HA). split; [done|]. intros z0. rewrite (ok_zone _ _ _ _ HZ). by intros [= <-].
    + intros a. rewrite Hb. destruct (decide (a = s)) as [->|]; [right; split; [done|by left]|left; by rewrite lookup_insert_ne].
    + rewrite Hv. auto.
    + split; [set_solver|]. intros a [->|Ha]%elem_of_cons; auto.
    + auto.
    + intros x Hx _. by apply (added_mem _ _ _ _ _ HA).
    + apply (added_thread _ _ _ _ _ HA).
    + intros c Hc. destruct (added_capacity _ _ _ _ _ HA c Hc) as (c' & Hc' & E). exists c'. split; [done|]. rewrite E. f_equal.
      unfold capacity. cbn [segs larges g1 length]. lia.
Qed.
Lemma push_large s n h : Added (OfVirtualMemory h) s n w w1 -> (8 | s) -> (8 | n) -> 32 <= n -> blocks w1 = blocks w -> vms w !! h = None -> vms w1 = <[h := (s, n)]> (vms w) ->
  Segment_next (mem w1) s = large_segments_ z -> Segment_size (mem w1) s = n -> Segment_memory (mem w1) s = h ->
  let z1 := MkZone (position_ z) (limit_ z) (head_ z) s (previous_ z) in
  let g1 := MkShape (segs g) ((s, n, h) :: larges g) (chunks g) in
  World_ok (set_zone this z1 w1) /\ Zone_ok (set_zone this z1 w1) this z1 g1 /\ Extends this g g1 w (set_zone this z1 w1).
Proof using HW HZ.
  intros HA H8 H8' H32 Hb Hnew Hv Hn Hs Hh z1 g1.
  assert (Hlarge : forall t, t ∈ larges g -> large_memory t <> h) by (intros t Ht E; destruct (ok_large_vms _ _ _ _ HZ t Ht) as (_ & _ & _ & ?); congruence).
  split; [|split].
  - eapply region_ext; [intros o; apply region_set_zone; eexists; by eapply added_this|]. by eapply Added_ok.
  - pose proof HZ as HZ'. destruct HZ. split; try done; cbn [mem blocks vms zones set_zone set_zones head_ large_segments_ position_ limit_ segs larges chunks z1 g1].
    + by rewrite lookup_insert_eq.
    + eapply seg_chain_ext; [|eassumption]. intros t x Ht Hx. symmetry.
      apply (added_mem _ _ _ _ _ HA). eapply header_in_use; [done|exact HZ'|]. left. eauto.
    + split; [done|]. split; [done|]. split; [done|]. change (large_start (s, n, h)) with s. rewrite Hn. eapply large_chain_ext; [|eassumption]. intros t x Ht Hx. symmetry.
      apply (added_mem _ _ _ _ _ HA). eapply header_in_use; [done|exact HZ'|]. right. eauto.
    + rewrite Hb. auto.
    + intros t [->|Ht]%elem_of_cons; [by rewrite Hv, lookup_insert_eq|]. rewrite Hv, lookup_insert_ne; [auto|]. symmetry. auto.
    + constructor; [|done]. intros (t & E & Ht)%list_elem_of_fmap. by apply (Hlarge t).
    + eapply (chunks_grow w); try done; [set_solver|]. intros x Hx. by left.
  - split; cbn.
    + exists z1. rewrite (added_zones _ _ _ _ _ HA). split; [done|]. intros z0. rewrite (ok_zone _ _ _ _ HZ). by intros [= <-].
    + rewrite Hb. auto.
    + intros a. rewrite Hv. destruct (decide (a = h)) as [->|]; [right; split; [done|by left]|left; by rewrite lookup_insert_ne].
    + auto.
    + split; [set_solver|]. intros a [->|Ha]%elem_of_cons; auto.
    + intros x Hx _. by apply (added_mem _ _ _ _ _ HA).
    + apply (added_thread _ _ _ _ _ HA).
    + intros c Hc. destruct (added_capacity _ _ _ _ _ HA c Hc) as (c' & Hc' & E). exists c'. split; [done|]. rewrite E. f_equal.
      unfold capacity. cbn [segs larges g1 fmap list_fmap foldr large_size fst snd]. lia.
Qed.
End Push.

Section Allocation.
Context `{SM : SystemMemory} {SMOk : SystemMemoryOk}.

(** Sizes that overflow when the header and the rest of the page are added are
    negative, and not available. *)
Lemma Segment_NewLarge_fits w n0 next r : is_sint 64 n0 -> Segment_NewLarge n0 next w = Some r -> is_sint 64 (n0 + PageSize - 1) /\ - PageSize < n0 /\ PageSize <= 2 ^ 30.
Proof using SMOk.
  intros Hn. unfold Segment_NewLarge. destruct PageSize_pow2 as (k & Hk & Hpage). rewrite Hpage in *.
  assert (Hp : 8 <= 2 ^ k <= 2 ^ 30) by (split; [change 8 with (2 ^ 3)|]; apply Z.pow_le_mono_r; lia).
  destruct (VirtualMemory_Allocate w (RoundUp n0 (2 ^ k))) as [[[h a] m]|] eqn:Hm; [|done]. intros _.
  destruct (Allocate_fresh _ _ _ _ _ Hm) as (_ & _ & Hf). destruct (fresh_range _ _ _ _ _ Hf) as (_ & H0 & _).
  assert (Hs : is_sint 64 (n0 + 2 ^ k - 1)).
  { unfold is_sint in *. destruct (Z.lt_ge_cases (n0 + 2 ^ k - 1) (2 ^ 63)) as [|Hbig]; [lia|]. exfalso. unfold RoundUp in H0.
    rewrite (swrap_unique 64 ltac:(lia) _ (n0 + 2 ^ k - 1 - 2 ^ 64) (-1)) in H0; [|unfold is_sint; lia|lia].
    rewrite RoundDown_eq in H0 by lia. pose proof (Z.mul_div_le (n0 + 2 ^ k - 1 - 2 ^ 64) (2 ^ k)). lia. }
  destruct (RoundUp_spec k ltac:(lia) n0 Hs) as [_ Hr]. split; [done|]. lia.
Qed.

Definition Allocated (this : Z) (g : Shape) (p size : Z) (w w' : World) : Prop :=
  exists z' g', World_ok w' /\ Zone_ok w' this z' g' /\ Extends this g g' w w' /\ chunks g' = (p, size) :: chunks g /\
    (forall x, in_use w x -> byte_at (mem w') x = byte_at (mem w) x) /\ (forall x, within (extent (p, size)) x -> in_use w x -> free_of w this x).

Lemma AllocateLargeSegment_ok w this z g size p w' : World_ok w -> Zone_ok w this z g -> 0 <= size <= kIntptrMax - kAlignment ->
  AllocateLargeSegment this (RoundUp size kAlignment) w = Some (p, w') -> Allocated this g p size w w'.
Proof using SMOk.
  intros HW HZ Hsize. destruct (RoundUp_spec_8 size Hsize) as [Ha Hr]. set (n := RoundUp size kAlignment) in *.
  unfold AllocateLargeSegment. rewrite (ok_zone _ _ _ _ HZ). cbn [mbind option_bind].
  replace (RoundUp sizeof_Segment kAlignment) with 32 by reflexivity. unfold kIntptrMax, kAlignment in Hsize.
  assert (Hn0 : is_sint 64 (s64 (n + 32))) by (apply swrap_range; lia).
  destruct (Segment_NewLarge (s64 (n + 32)) _ w) as [[s w1]|] eqn:HN; [|done]. cbn [mbind option_bind]. intros [= <- <-].
  destruct (Segment_NewLarge_fits _ _ _ _ Hn0 HN) as (Hfit & Hpos & HP).
  assert (Hsmall : n + 32 < 2 ^ 63).
  { destruct (Z.lt_ge_cases (n + 32) (2 ^ 63)) as [|Hbig]; [done|]. exfalso. rewrite (swrap_unique 64 ltac:(lia) _ (n + 32 - 2 ^ 64) (-1)) in Hpos; [lia|unfold is_sint; lia|lia]. }
  rewrite swrap_id in HN, Hfit by (unfold is_sint; lia).
  destruct (Segment_NewLarge_ok w (n + 32) _ s w1 (large_uint _ _ _ _ HW HZ) Hfit ltac:(lia) HN) as (h & m & HA & H8 & H8' & Hm & Hb & Hnew & Hv & E1 & E2 & E3).
  destruct (push_large w w1 this z g HW HZ s m h HA H8 H8' ltac:(lia) Hb Hnew Hv E1 E2 E3) as (HW1 & HZ1 & HE).
  destruct (added_range _ _ _ _ _ HA) as (Hs0 & _ & Hs1). rewrite Segment_start_eq, RoundUp_uword_eq, RoundUp_aligned by (lia || (by apply Z.divide_add_r; [|exists 4])).
  eexists _, _. split; [exact HW1|]. split; [|split; [apply Extends_chunks, HE|split; [done|]]].
  { apply (add_chunk _ _ _ _ (s + 32, size)) in HZ1; [exact HZ1|..].
  - split; [apply Z.divide_add_r; [done|by exists 4]|]. split; [cbn; lia|]. split; [cbn; lia|]. unfold within, extent. cbn [fst snd]. fold n. intros x Hx.
    split; [right; right; exists (s, m, h); split; [by left|unfold large_start, large_size; cbn; lia]|].
    cbn. intros Hy. apply (added_unused _ _ _ _ _ HA x); [unfold within; cbn; lia|]. eapply payload_in_use; [done|exact HZ|]. by eapply free_payload.
  - cbn. apply list.Forall_forall. intros d Hd x Hx1 Hx2. pose proof (ok_chunks _ _ _ _ HZ) as Hc. rewrite list.Forall_forall in Hc. destruct (Hc d Hd) as (_ & _ & _ & Hp).
    apply (added_unused _ _ _ _ _ HA x); [unfold within, extent in *; cbn in *; fold n in Hx1; lia|]. eapply payload_in_use; [done|exact HZ|]. by apply Hp. }
  split; [apply (added_mem _ _ _ _ _ HA)|]. intros x Hx Hu. exfalso. apply (added_unused _ _ _ _ _ HA x); [|done].
  unfold within, extent in *; cbn in *; fold n in Hx; lia.
Qed.
Lemma AllocateExpand_ok w this z g size p w' : World_ok w -> Zone_ok w this z g -> 0 <= size <= kIntptrMax - kAlignment ->
  AllocateExpand this (RoundUp size kAlignment) w = Some (p, w') -> Allocated this g p size w w'.
Proof using SMOk.
  intros HW HZ Hsize. unfold AllocateExpand. rewrite (ok_zone _ _ _ _ HZ). cbn [mbind option_bind].
  replace (RoundDown (kSegmentSize - sizeof_Segment) kAlignment) with 65504 by reflexivity.
  zif; [by eapply AllocateLargeSegment_ok|]. destruct (RoundUp_spec_8 size Hsize) as [Ha Hr].
  destruct (Segment_New kSegmentSize (head_ z) w) as [[s w1]|] eqn:HN; [|done]. cbn [mbind option_bind]. intros [= <- <-].
  destruct (Segment_New_ok w kSegmentSize _ s w1 (head_uint _ _ _ _ HW HZ) ltac:(unfold kSegmentSize; lia) HN) as (HA & H16 & Hb & Hv & E1 & E2).
  destruct (push_segment w w1 this z g HW HZ s HA H16 Hb Hv E1 E2) as (HW1 & HZ1 & HE). destruct (added_range _ _ _ _ _ HA) as (Hs0 & _ & Hs1).
  assert (H8 : (8 | s + 32)) by (destruct H16 as [k ->]; exists (2 * k + 4); lia).
  unfold kSegmentSize in Hs1. rewrite Segment_start_eq, RoundUp_uword_eq, RoundUp_aligned by (lia || done).
  pose proof (bump _ this _ _ size HW1 HZ1 ltac:(lia)) as HB. cbn [position_ limit_ set_position head_ large_segments_ previous_] in HB. rewrite set_zone_set_zone in HB.
  unfold Segment_end, Segment_address. rewrite E2. replace (s32 kSegmentSize) with kSegmentSize by reflexivity.
  rewrite !uwrap_id by (unfold is_uint, kSegmentSize; lia).
  eexists _, _. split; [|split; [apply HB; unfold kSegmentSize; lia|split; [|split; [done|split; [apply (added_mem _ _ _ _ _ HA)|]]]]].
  - eapply region_ext; [|exact HW1]. intros o. rewrite !region_set_zone; [done|eexists; by eapply (added_this w w1 this z g)..].
  - eapply (Extends_set_zone _ _ _ _ _ (set_position (MkZone (s + 32) (s + kSegmentSize) s (large_segments_ z) (previous_ z)) (s + 32 + RoundUp size kAlignment)) z ((s + 32, size) :: chunks g)) in HE; [|apply (ok_zone _ _ _ _ HZ)|done].
    rewrite set_zone_set_zone in HE. exact HE.
  - intros x Hx Hu. exfalso. apply (added_unused _ _ _ _ _ HA x); [|done]. unfold within, extent, kSegmentSize in *; cbn in *; lia.
Qed.
Lemma AllocUnsafe_ok w this z g size p w' : World_ok w -> Zone_ok w this z g -> 0 <= size ->
  AllocUnsafe this size w = Some (p, w') -> Allocated this g p size w w'.
Proof using SMOk.
  intros HW HZ Hsize. unfold AllocUnsafe. rewrite (ok_zone _ _ _ _ HZ). cbn [mbind option_bind]. zif; [done|].
  pose proof (limit_range _ _ _ _ HW HZ). rewrite swrap_id by (unfold is_sint; lia).
  zif; [|by eapply AllocateExpand_ok]. destruct (RoundUp_spec_8 size) as [_ Hr]; [lia|]. intros [= <- <-]. rewrite uwrap_id by (unfold is_uint; lia).
  eexists _, _. split; [|split; [apply bump; [done|exact HZ|lia..]|split; [|split; [done|split; [done|]]]]].
  - eapply region_ext; [|exact HW]. intros o. apply region_set_zone. rewrite (ok_zone _ _ _ _ HZ). done.
  - apply (Extends_set_zone this g (with_chunks g (chunks g)) _ _ _ z); [apply (ok_zone _ _ _ _ HZ)|done|]. eapply Extends_refl, (ok_zone _ _ _ _ HZ).
  - intros x Hx _. exists z. split; [apply (ok_zone _ _ _ _ HZ)|]. unfold within, extent in Hx; cbn in Hx; lia.
Qed.
End Allocation.

(** Growing the chunk that ends where the free part begins. *)
Lemma limit_aligned w this z g : Zone_ok w this z g -> (8 | limit_ z).
Proof.
  intros HZ. rewrite (ok_limit _ _ _ _ HZ). unfold current_end. destruct (segs g) as [|s l] eqn:E.
  - apply Z.divide_add_r; [apply (ok_this _ _ _ _ HZ)|by exists 128].
  - destruct (ok_seg_blocks _ _ _ _ HZ s) as [[k ->] _]; [rewrite E; by left|]. exists (2 * k + 8192). unfold kSegmentSize. lia.
Qed.
Lemma RoundUp_le_aligned n m : 0 <= n <= kIntptrMax - kAlignment -> n <= m -> (8 | m) -> RoundUp n kAlignment <= m.
Proof. intros Hn Hm [k ->]. destruct (RoundUp_spec_8 n Hn) as [[j Hj] Hr]. rewrite Hj in *. lia. Qed.
Lemma resize_last w this z g i p n m : World_ok w -> Zone_ok w this z g -> chunks g !! i = Some (p, n) -> p + RoundUp n kAlignment = position_ z ->
  n <= m -> p + m <= limit_ z ->
  let z' := set_position z (p + RoundUp m kAlignment) in
  Zone_ok (set_zone this z' w) this z' (with_chunks g (<[i := (p, m)]> (chunks g))).
Proof.
  intros HW HZ Hi Hend Hnm Hlim z'. pose proof (limit_range _ _ _ _ HW HZ) as [Hpos Hl47]. pose proof (limit_aligned _ _ _ _ HZ) as Hla.
  pose proof (ok_chunks _ _ _ _ HZ) as Hall. rewrite list.Forall_forall in Hall. destruct (Hall (p, n)) as (Hpa & Hpr & Hn & Hpx); [by eapply list_elem_of_lookup_2|]. cbn in Hpa, Hpr, Hn.
  destruct (RoundUp_spec_8 m) as [Hma Hmr]; [unfold kIntptrMax, kAlignment; lia|]. destruct (RoundUp_spec_8 n) as [Hna Hnr]; [unfold kIntptrMax, kAlignment; lia|].
  assert (Hm : RoundUp m kAlignment <= limit_ z - p) by (apply RoundUp_le_aligned; [unfold kIntptrMax, kAlignment; lia|lia|by apply Z.divide_sub_r]).
  assert (Hmn : RoundUp n kAlignment <= RoundUp m kAlignment) by (apply RoundUp_le_aligned; [unfold kIntptrMax, kAlignment; lia|lia|done]).
  assert (Hcase : forall x, within (extent (p, m)) x -> within (extent (p, n)) x \/ position_ z <= x < limit_ z) by (unfold within, extent; cbn; lia).
  assert (Hsep : forall j d, chunks g !! j = Some d -> j <> i -> separate (extent (p, m)) (extent d)).
  { intros j d Hj Hne x Hx1 Hx2. destruct (Hcase x Hx1) as [Hx|Hx]; [by apply (ok_disjoint _ _ _ _ HZ i j _ _ Hi Hj ltac:(done) x)|].
    destruct (Hall d) as (_ & _ & _ & Hd); [by eapply list_elem_of_lookup_2|]. by apply (Hd x Hx2). }
  pose proof HZ as HZ'. destruct HZ. split; try done; cbn [zones set_zone set_zones position_ limit_ set_position z' chunks with_chunks].
  - by rewrite lookup_insert_eq.
  - split; [by apply Z.divide_add_r|]. destruct ok_position0. unfold current_start in *. cbn. lia.
  - apply list.Forall_forall. intros c Hc. apply list_elem_of_lookup_1 in Hc as [j Hj].
    destruct (decide (j = i)) as [->|Hne].
    + rewrite list_lookup_insert_eq in Hj by (by eapply lookup_lt_Some). injection Hj as <-. split; [done|]. split; [done|]. split; [cbn; lia|].
      intros x Hx. split; [|unfold within, extent in Hx; cbn in *; lia]. destruct (Hcase x Hx) as [Hy|Hy]; change (payload this g x); [by apply Hpx|by apply (free_payload w this z g)].
    + rewrite list_lookup_insert_ne in Hj by done. destruct (Hall c) as (? & ? & ? & Hx); [by eapply list_elem_of_lookup_2|].
      split; [done|]. split; [done|]. split; [done|]. intros x Hx1. destruct (Hx x Hx1) as [? Hnf]. split; [done|]. cbn. intros Hy. apply Hnf. lia.
  - intros j k c d Hj Hk Hne. destruct (decide (j = i)) as [->|Hj'], (decide (k = i)) as [->|Hk']; [done|..].
    + rewrite list_lookup_insert_eq in Hj by (by eapply lookup_lt_Some). rewrite list_lookup_insert_ne in Hk by done. injection Hj as <-. by eapply Hsep.
    + rewrite list_lookup_insert_eq in Hk by (by eapply lookup_lt_Some). rewrite list_lookup_insert_ne in Hj by done. injection Hk as <-.
      intros x Hx1 Hx2. by apply (Hsep j c Hj Hj' x).
    + rewrite list_lookup_insert_ne in Hj, Hk by done. by eapply ok_disjoint0.
Qed.
Lemma RoundUp_shift p n : (8 | p) -> 0 <= p -> 0 <= n -> p + n < 2 ^ 62 -> RoundUp (p + n) kAlignment = p + RoundUp n kAlignment.
Proof.
  intros Hp H0 Hn Hs. destruct (RoundUp_spec_8 (p + n)) as [[a Ha] Hr]; [unfold kIntptrMax, kAlignment; lia|].
  destruct (RoundUp_spec_8 n) as [[b Hb] Hr']; [unfold kIntptrMax, kAlignment; lia|]. destruct Hp as [c ->]. lia.
Qed.
Lemma CheckLength_fits k len : 0 < k -> CheckLength k len = true -> len * k <= kIntptrMax.
Proof.
  intros Hk Hc. unfold CheckLength in Hc. zbool. pose proof (Z.mul_div_le kIntptrMax k Hk). nia.
Qed.
Lemma byte_at_store_load m a b n x : byte_at (store_bytes m a (load_bytes m b n)) x = if (a <=? x) && (x <? a + Z.of_nat n) then byte_at m (b + (x - a)) else byte_at m x.
Proof.
  destruct (Z.leb_spec a x) as [H1|H1], (Z.ltb_spec x (a + Z.of_nat n)) as [H2|H2]; cbn [andb].
  - replace x with (a + Z.of_nat (Z.to_nat (x - a))) at 1 by lia. erewrite byte_at_store_in; [done|]. rewrite load_bytes_lookup by lia. do 2 f_equal. lia.
  - apply byte_at_store_out. unfold zlen. rewrite load_bytes_length. lia.
  - apply byte_at_store_out. lia.
  - apply byte_at_store_out. lia.
Qed.
Lemma chunk_facts w this z g c : World_ok w -> Zone_ok w this z g -> c ∈ chunks g ->
  (8 | c.1) /\ 0 < c.1 <= 2 ^ 47 /\ 0 <= c.2 <= 2 ^ 47 /\
  forall x, c.1 <= x < c.1 + c.2 -> payload this g x /\ in_use w x /\ ~ free_of w this x.
Proof.
  intros HW HZ Hc. pose proof (ok_chunks _ _ _ _ HZ) as Hall. rewrite list.Forall_forall in Hall. destruct (Hall c Hc) as (H1 & H2 & H3 & H4).
  split; [done|]. split; [done|]. split; [done|]. intros x Hx. destruct (RoundUp_spec_8 c.2) as [_ Hr]; [unfold kIntptrMax, kAlignment; lia|].
  destruct (H4 x) as [Hp Hf]; [unfold within, extent; cbn; lia|]. split; [done|]. split; [by eapply payload_in_use|].
  intros (z' & Hz & Hz'). rewrite (ok_zone _ _ _ _ HZ) in Hz. by injection Hz as <-.
Qed.
(** A client that asks for fewer elements in place keeps a shorter chunk. *)
Lemma shrink_chunk w this z g i p n m : Zone_ok w this z g -> chunks g !! i = Some (p, n) -> 0 <= m <= n ->
  Zone_ok w this z (with_chunks g (<[i := (p, m)]> (chunks g))).
Proof.
  intros HZ Hi Hm. pose proof (ok_chunks _ _ _ _ HZ) as Hall. rewrite list.Forall_forall in Hall.
  destruct (Hall (p, n)) as (H1 & H2 & H3 & H4); [by eapply list_elem_of_lookup_2|]. cbn in H1, H2, H3.
  assert (Hsub : forall x, within (extent (p, m)) x -> within (extent (p, n)) x).
  { destruct (RoundUp_spec_8 n) as [Hn8 Hn]; [unfold kIntptrMax, kAlignment; lia|].
    assert (RoundUp m kAlignment <= RoundUp n kAlignment) by (apply RoundUp_le_aligned; [unfold kIntptrMax, kAlignment; lia|lia|done]). unfold within, extent; cbn; lia. }
  assert (Hold : forall j c, <[i := (p, m)]> (chunks g) !! j = Some c -> exists d, chunks g !! j = Some d /\ (8 | c.1) /\ 0 < c.1 <= 2 ^ 47 /\ 0 <= c.2 <= 2 ^ 47 /\
    forall x, within (extent c) x -> within (extent d) x).
  { intros j c Hj. destruct (decide (j = i)) as [->|Hne].
    - rewrite list_lookup_insert_eq in Hj by (by eapply lookup_lt_Some). injection Hj as <-. exists (p, n). cbn. repeat split; try done; try lia; by apply Hsub.
    - rewrite list_lookup_insert_ne in Hj by done. exists c. destruct (Hall c) as (? & ? & ? & _); [by eapply list_elem_of_lookup_2|]. auto. }
  destruct HZ. split; try done; cbn [chunks with_chunks].
  - apply list.Forall_forall. intros c [j Hj]%list_elem_of_lookup_1. destruct (Hold j c Hj) as (d & Hd & ? & ? & ? & Hx).
    split; [done|]. split; [done|]. split; [done|]. intros x Hin. destruct (Hall d) as (_ & _ & _ & Hdx); [by eapply list_elem_of_lookup_2|]. by apply Hdx, Hx.
  - intros a b c d Ha Hb Hne x Hx1 Hx2. destruct (Hold a c Ha) as (c' & Hc' & _ & _ & _ & Hcx), (Hold b d Hb) as (d' & Hd' & _ & _ & _ & Hdx).
    by apply (ok_disjoint0 a b c' d' Hc' Hd' Hne x (Hcx x Hx1)), Hdx.
Qed.
(** An array of [n] bytes at [p]. An empty array, which may be [NULL], needs no memory. *)
Definition array_of (g : Shape) (p n : Z) : Prop := n = 0 /\ (8 | p) /\ 0 <= p <= 2 ^ 47 \/ (p, n) ∈ chunks g.

(** Other chunks are apart from one that was added or replaced. *)
Lemma new_chunk_separate w this z g c l : Zone_ok w this z g -> chunks g = c :: l -> forall d, d ∈ l -> separate (extent d) (extent c).
Proof.
  intros HZ Hl d [j Hj]%list_elem_of_lookup_1. apply (ok_disjoint _ _ _ _ HZ (S j) 0%nat); rewrite ?Hl; done.
Qed.
Lemma replaced_others w g this z l i c d : Zone_ok w this z (with_chunks g (<[i := d]> l)) -> l !! i = Some c ->
  forall e, e ∈ l -> e <> c -> e ∈ <[i := d]> l /\ separate (extent e) (extent d).
Proof.
  intros HZ Hi e [j Hj]%list_elem_of_lookup_1 Hne. assert (Hij : j <> i) by (intros ->; congruence).
  assert (Hj' : <[i := d]> l !! j = Some e) by (by rewrite list_lookup_insert_ne). split; [by eapply list_elem_of_lookup_2|].
  eapply (ok_disjoint _ _ _ _ HZ j i); [done| |done]. cbn. rewrite list_lookup_insert_eq; [done|]. by eapply lookup_lt_Some.
Qed.

Section Arrays.
Context `{SM : SystemMemory} {SMOk : SystemMemoryOk}.
Context (k : Z) (Hk : 0 < k).

Lemma Alloc_ok w this z g len p w' : World_ok w -> Zone_ok w this z g -> 0 <= len -> Alloc this k len w = Some (p, w') -> Allocated this g p (len * k) w w'.
Proof using SMOk Hk.
  intros HW HZ Hlen. unfold Alloc. destruct (CheckLength k len) eqn:Hc; [|done]. apply CheckLength_fits in Hc; [|done]. unfold kIntptrMax in Hc.
  rewrite swrap_id by (unfold is_sint; nia). eapply AllocUnsafe_ok; [done..|nia].
Qed.
(** Writing to a chunk that was just allocated. *)
Lemma write_chunk w this g p n w1 l : World_ok w -> Allocated this g p n w w1 -> zlen l <= n ->
  let w' := with_mem w1 (store_bytes (mem w1) p l) in
  exists z' g', World_ok w' /\ Zone_ok w' this z' g' /\ Extends this g g' w w' /\ chunks g' = (p, n) :: chunks g.
Proof using.
  intros HW (z' & g' & HW1 & HZ1 & HE & Hch & Hmem & Hnew) Hm w'. exists z', g'.
  destruct (chunk_facts _ _ _ _ (p, n) HW1 HZ1) as (_ & Hp & Hn & Hx); [rewrite Hch; by left|]. cbn in Hp, Hn, Hx.
  destruct (RoundUp_spec_8 n) as [_ Hr]; [unfold kIntptrMax, kAlignment; lia|].
  assert (Hout : forall x, ~ (p <= x < p + n) -> byte_at (mem w') x = byte_at (mem w1) x) by (intros x Hne; apply byte_at_store_out; lia).
  split; [eapply region_ext, HW1; intros o; apply region_set_mem|]. split; [|split; [|done]].
  - eapply (Zone_ok_write w1 this z' g' this z' g'); try done. intros x Hnp. apply Hout. intros Hin. by destruct (Hx x Hin).
  - destruct HE. split; try done. intros x Hu Hf. rewrite Hout; [auto|]. intros Hin. apply Hf, Hnew; [unfold within, extent; cbn; lia|done].
Qed.
Lemma fill_chunk w this g p n w1 src m : World_ok w -> Allocated this g p n w w1 -> 0 <= m <= n ->
  let w' := memmove p src m w1 in
  exists z' g', World_ok w' /\ Zone_ok w' this z' g' /\ Extends this g g' w w' /\ chunks g' = (p, n) :: chunks g /\
    forall j, 0 <= j < m -> byte_at (mem w') (p + j) = byte_at (mem w1) (src + j).
Proof using.
  intros HW HA Hm w'. destruct (write_chunk w this g p n w1 (load_bytes (mem w1) src (Z.to_nat m)) HW HA) as (z' & g' & H1 & H2 & H3 & H4); [unfold zlen; rewrite load_bytes_length; lia|].
  exists z', g'. repeat (split; [done|]). intros j Hj. unfold w', memmove. cbn [mem with_mem]. rewrite byte_at_store_load.
  destruct (Z.leb_spec p (p + j)), (Z.ltb_spec (p + j) (p + Z.of_nat (Z.to_nat m))); try lia. cbn [andb]. f_equal. lia.
Qed.
Definition Reallocated (this : Z) (g : Shape) (old_data old_len new_len p : Z) (w w' : World) : Prop :=
  exists z' g', World_ok w' /\ Zone_ok w' this z' g' /\ Extends this g g' w w' /\ array_of g' p (new_len * k) /\
    (forall c, c ∈ chunks g -> c <> (old_data, old_len * k) -> c ∈ chunks g' /\ separate (extent c) (extent (p, new_len * k))) /\
    (forall x, within (extent (p, new_len * k)) x -> in_use w x -> payload this g x) /\
    forall j, 0 <= j < Z.min old_len new_len * k -> byte_at (mem w') (p + j) = byte_at (mem w) (old_data + j).
Lemma Realloc_in_place w this z g old_data old_len new_len : World_ok w -> Zone_ok w this z g -> 0 <= old_len <= new_len ->
  (old_data, old_len * k) ∈ chunks g -> old_data + RoundUp (old_len * k) kAlignment = position_ z -> old_data + new_len * k <= limit_ z ->
  Reallocated this g old_data old_len new_len old_data w (set_zone this (set_position z (old_data + RoundUp (new_len * k) kAlignment)) w).
Proof using Hk.
  intros HW HZ Hl [i Hi]%list_elem_of_lookup_1 Hend Hlim.
  pose proof (resize_last w this z g i old_data (old_len * k) (new_len * k) HW HZ Hi Hend ltac:(nia) Hlim) as HZ'.
  eexists _, _. split; [|split; [exact HZ'|split; [|split; [right|split; [|split; [|done]]]]]].
  - eapply region_ext; [|exact HW]. intros o. apply region_set_zone. by rewrite (ok_zone _ _ _ _ HZ).
  - apply (Extends_set_zone this g (with_chunks g (chunks g)) _ _ _ z); [apply (ok_zone _ _ _ _ HZ)|done|]. eapply Extends_refl, (ok_zone _ _ _ _ HZ).
  - cbn. apply list_elem_of_lookup_2 with i. rewrite list_lookup_insert_eq; [done|]. by eapply lookup_lt_Some.
  - by eapply (replaced_others _ _ _ _ _ i _ _ HZ').
  - intros x Hx _. pose proof (ok_chunks _ _ _ _ HZ') as Hall. rewrite list.Forall_forall in Hall.
    destruct (Hall (old_data, new_len * k)) as (_ & _ & _ & Hp); [|by apply Hp]. cbn. apply list_elem_of_lookup_2 with i. rewrite list_lookup_insert_eq; [done|]. by eapply lookup_lt_Some.
Qed.
Lemma Realloc_bump w this z g new_len : World_ok w -> Zone_ok w this z g -> 0 <= new_len -> position_ z + new_len * k <= limit_ z ->
  Reallocated this g (position_ z) 0 new_len (position_ z) w (set_zone this (set_position z (position_ z + RoundUp (new_len * k) kAlignment)) w).
Proof using Hk.
  intros HW HZ Hl Hlim. pose proof (limit_range _ _ _ _ HW HZ) as [Hpos Hl47].
  assert (Hm : RoundUp (new_len * k) kAlignment <= limit_ z - position_ z).
  { apply RoundUp_le_aligned; [unfold kIntptrMax, kAlignment; nia|lia|]. apply Z.divide_sub_r; [by eapply limit_aligned|apply (ok_position _ _ _ _ HZ)]. }
  pose proof (bump w this z g (new_len * k) HW HZ ltac:(nia) ltac:(lia)) as HZ'.
  eexists _, _. split; [|split; [exact HZ'|split; [|split; [right; by left|split; [|split]]]]].
  - eapply region_ext; [|exact HW]. intros o. apply region_set_zone. by rewrite (ok_zone _ _ _ _ HZ).
  - apply (Extends_set_zone this g (with_chunks g (chunks g)) _ _ _ z); [apply (ok_zone _ _ _ _ HZ)|done|]. eapply Extends_refl, (ok_zone _ _ _ _ HZ).
  - intros c Hc _. split; [by right|]. by eapply (new_chunk_separate _ _ _ _ _ _ HZ').
  - intros x Hx _. eapply free_payload; [exact HZ|]. unfold within, extent in Hx; cbn [fst snd] in Hx. lia.
  - intros j Hj. lia.
Qed.
Lemma Realloc_same w this z g old_data old_len new_len : World_ok w -> Zone_ok w this z g -> 0 <= new_len <= old_len -> array_of g old_data (old_len * k) ->
  Reallocated this g old_data old_len new_len old_data w w.
Proof using Hk.
  intros HW HZ Hl [(H0 & Ho8 & Ho)|[i Hi]%list_elem_of_lookup_1].
  - exists z, (with_chunks g (chunks g)). assert (new_len = 0) as -> by nia. split; [done|]. split; [by destruct HZ|]. split; [eapply Extends_refl, (ok_zone _ _ _ _ HZ)|].
    split; [by left|]. assert (Hempty : forall x, ~ within (extent (old_data, 0 * k)) x) by (intros x; unfold within, extent; cbn [fst snd]; rewrite Z.mul_0_l; replace (RoundUp 0 kAlignment) with 0 by done; lia).
    split; [by intros c Hc _; split; [done|intros x _; apply Hempty]|]. split; [|done]. intros x Hx. by destruct (Hempty x).
  - pose proof (shrink_chunk w this z g i old_data (old_len * k) (new_len * k) HZ Hi ltac:(nia)) as HZ'.
    exists z, (with_chunks g (<[i := (old_data, new_len * k)]> (chunks g))). split; [done|]. split; [done|].
    split; [eapply Extends_refl, (ok_zone _ _ _ _ HZ)|]. split; [right|split; [|split; [|done]]].
    + cbn. apply list_elem_of_lookup_2 with i. rewrite list_lookup_insert_eq; [done|]. by eapply lookup_lt_Some.
    + by eapply (replaced_others _ _ _ _ _ i _ _ HZ').
    + intros x Hx _. pose proof (ok_chunks _ _ _ _ HZ') as Hall. rewrite list.Forall_forall in Hall.
      destruct (Hall (old_data, new_len * k)) as (_ & _ & _ & Hp); [|by apply Hp]. cbn. apply list_elem_of_lookup_2 with i. rewrite list_lookup_insert_eq; [done|]. by eapply lookup_lt_Some.
Qed.
Lemma array_facts w this z g p n : World_ok w -> Zone_ok w this z g -> array_of g p n ->
  (8 | p) /\ 0 <= p <= 2 ^ 47 /\ 0 <= n <= 2 ^ 47 /\ forall x, p <= x < p + n -> in_use w x /\ ~ free_of w this x.
Proof using.
  intros HW HZ [(-> & H8 & Hp)|Hin].
  - split; [done|]. split; [done|]. split; [lia|]. intros x Hx. lia.
  - destruct (chunk_facts _ _ _ _ _ HW HZ Hin) as (H1 & H2 & H3 & H4). cbn in *. split; [done|]. split; [lia|]. split; [done|].
    intros x Hx. by destruct (H4 x Hx) as (_ & ? & ?).
Qed.
Lemma Realloc_ok w this z g old_data old_len new_len p w' : World_ok w -> Zone_ok w this z g -> 0 <= old_len -> 0 <= new_len ->
  array_of g old_data (old_len * k) -> (new_len < old_len -> RoundUp (old_data + old_len * k) kAlignment <> position_ z) ->
  Realloc this k old_data old_len new_len w = Some (p, w') -> Reallocated this g old_data old_len new_len p w w'.
Proof using SMOk Hk.
  intros HW HZ Hol Hnl Hold Hshrink. unfold Realloc. rewrite (ok_zone _ _ _ _ HZ). cbn [mbind option_bind].
  destruct (CheckLength k new_len) eqn:Hcheck; [|done]. pose proof (CheckLength_fits _ _ Hk Hcheck) as Hfit. unfold kIntptrMax in Hfit.
  pose proof (limit_range _ _ _ _ HW HZ) as [Hpos Hlim]. destruct (array_facts _ _ _ _ _ _ HW HZ Hold) as (Ho8 & Ho & Hon & Hoin).
  rewrite !(swrap_id 64) by (lia || (unfold is_sint; nia)). rewrite !uwrap_id by (lia || (unfold is_uint; nia)).
  rewrite RoundUp_uword_eq by nia. destruct ((RoundUp _ _ =? position_ z) && _) eqn:Hin_place; zbool.
  - intros [= <- <-]. rewrite RoundUp_uword_eq, RoundUp_shift by (done || nia). rewrite RoundUp_shift in * by (done || nia).
    destruct Hold as [(E0 & _)|Hin].
    { assert (old_len = 0) as -> by nia. replace (RoundUp (0 * k) kAlignment) with 0 in * by done. assert (old_data = position_ z) as -> by lia. by apply Realloc_bump. }
    apply Realloc_in_place; try done. destruct (Z.lt_ge_cases new_len old_len); [by destruct Hshrink|lia].
  - clear Hin_place. destruct (Z.leb_spec new_len old_len) as [Hle|Hgt]; [intros [= <- <-]; by eapply Realloc_same|].
    destruct (Alloc this k new_len w) as [[new_data w1]|] eqn:HA; [|done]. cbn [mbind option_bind]. intros [= <- <-].
    eapply Alloc_ok in HA; [|done..]. unfold Reallocated. rewrite Z.min_l by lia.
    destruct (Z.eqb_spec old_data 0) as [E0|E0]; cbn [negb].
    + destruct HA as (z' & g' & HW1 & HZ1 & HE & Hch & _ & Hnew). exists z', g'. split; [done|]. split; [done|]. split; [done|].
      split; [right; rewrite Hch; by left|]. split; [intros c Hc _; rewrite Hch; split; [by right|by eapply (new_chunk_separate _ _ _ _ _ _ HZ1)]|].
      split; [intros x Hx Hu; eapply free_of_payload; eauto|].
      intros j Hj. destruct Hold as [(? & _)|Hin]; [lia|]. destruct (chunk_facts _ _ _ _ _ HW HZ Hin) as (_ & ? & _). cbn in *. lia.
    + pose proof HA as (_ & _ & _ & _ & _ & _ & Hmem & Hnew).
      destruct (fill_chunk w this g new_data (new_len * k) w1 old_data (old_len * k) HW HA ltac:(nia)) as (z' & g' & HW1 & HZ1 & HE & Hch & Hcopy).
      exists z', g'. split; [done|]. split; [done|]. split; [done|]. split; [right; rewrite Hch; by left|].
      split; [intros c Hc _; rewrite Hch; split; [by right|by eapply (new_chunk_separate _ _ _ _ _ _ HZ1)]|].
      split; [intros x Hx Hu; eapply free_of_payload; eauto|]. intros j Hj. rewrite Hcopy by done. apply Hmem, Hoin. lia.
Qed.
End Arrays.
