(* ===== verification/ZoneStack.v ===== *)
(** * Nested zones and their clients (src/runtime/vm/zone.{h,cc}, thread_state.{h,cc}, allocation.cc)

    A thread allocates from a stack of zones: [StackZone] links a new zone to the
    thread's, its destructor frees what the zone has taken. The states are
    the process of Zone.v with the zones on the stack and the arrays that the program
    holds; a step is one operation of a client. The abstract view of a
    state is the contents of these arrays. *)
From stdpp Require Import gmap functions.
From S2P Require Import Prelude Utils Zone.
Local Open Scope Z_scope.
Local Open Scope vm_scope.

(** ** Operations *)
Section Operations.
Context `{SystemMemory}.

Definition Link (this current_zone : Z) (w : World) : option World :=
  z ← zones w !! this;
  Some (set_zone this (MkZone (position_ z) (limit_ z) (head_ z) (large_segments_ z) current_zone) w).
Definition StackZone_new (this : Z) (w : World) : option World :=
  let w := Zone_new this w in
  w ← Link this (thread_zone_ w) w;
  Some (set_thread_zone w this).
Definition StackZone_delete (this : Z) (w : World) : option World :=
  z ← zones w !! this;
  Zone_delete this (set_thread_zone w (previous_ z)).
(** [ZoneAllocated::operator new]. *)
Definition Allocate (size zone : Z) (w : World) : option (Z * World) :=
  if size >? kIntptrMax then None else AllocUnsafe zone (s64 size) w.
Definition operator_new (size : Z) (w : World) : option (Z * World) := Allocate size (thread_zone_ w) w.
(** The walks along the chain of zones; there are at most as many as live zones. *)
Fixpoint zone_in_chain (fuel : nat) (zs : gmap Z Zone) (current zone : Z) : option bool :=
  match fuel with
  | O => None
  | S fuel =>
      if current =? 0 then Some false
      else if current =? zone then Some true
      else z ← zs !! current; zone_in_chain fuel zs (previous_ z) zone
  end.
Definition ZoneIsOwnedByThread (zone : Z) (w : World) : option bool := zone_in_chain (S (size (zones w))) (zones w) (thread_zone_ w) zone.
Definition ContainsNestedZone (this other : Z) (w : World) : option bool := zone_in_chain (S (size (zones w))) (zones w) other this.
End Operations.

(** ** Freeing the segments of a zone *)
(** What a deletion leaves alone. *)
Record Kept (w w' : World) : Prop := {
  kept_mem : mem w' = mem w;
  kept_zones : zones w' = zones w;
  kept_thread : thread_zone_ w' = thread_zone_ w /\ native_scope w' = native_scope w }.
(** The counter of the current thread goes down by [n]. *)
Definition released (n : Z) (w w' : World) : Prop :=
  forall c, current_thread w = Some c -> exists c', current_thread w' = Some c' /\ u64 (current_zone_capacity_ c') = u64 (current_zone_capacity_ c - n).
Lemma released_trans m n w w1 w2 : released m w w1 -> released n w1 w2 -> released (m + n) w w2.
Proof.
  intros H1 H2 c Hc. destruct (H1 c Hc) as (c1 & Hc1 & E1), (H2 c1 Hc1) as (c2 & Hc2 & E2). exists c2. split; [done|].
  rewrite E2. unfold uwrap in *. rewrite <- Zminus_mod_idemp_l, E1, Zminus_mod_idemp_l. f_equal. lia.
Qed.
Lemma Kept_trans w w1 w2 : Kept w w1 -> Kept w1 w2 -> Kept w w2.
Proof. intros [E1 E2 [E3 E4]] [F1 F2 [F3 F4]]. split; [congruence..|]. split; congruence. Qed.
Lemma Kept_refl w : Kept w w.
Proof. done. Qed.
Lemma Kept_Decrement n w : Kept w (DecrementMemoryCapacity n w).
Proof. destruct (DecrementMemoryCapacity_fields n w) as (? & ? & ? & ? & ? & ?). by split. Qed.

Lemma DeleteSegmentList_ok l : forall fuel p w, seg_chain (mem w) p l -> NoDup l -> (forall s, s ∈ l -> s <> 0 /\ is_Some (blocks w !! s)) -> (length l < fuel)%nat ->
  exists w', DeleteSegmentList fuel p w = Some w' /\ Kept w w' /\ vms w' = vms w /\
    (forall a, blocks w' !! a = if decide (a ∈ l) then None else blocks w !! a) /\ released (kSegmentSize * Z.of_nat (length l)) w w'.
Proof.
  induction l as [|s l IH]; intros [|fuel] p w Hc Hd Hb Hf; try (cbn in Hf; lia); cbn [DeleteSegmentList].
  - cbn in Hc. rewrite Hc. exists w. split; [done|]. split; [done|]. split; [done|]. split; [done|]. intros c Hcc. exists c. split; [done|]. f_equal. cbn. lia.
  - destruct Hc as (-> & Hs & Hc). apply list.NoDup_cons in Hd as [Hni Hd]. destruct (Hb s) as [Hs0 [n Hn]]; [by left|].
    destruct (Z.eqb_spec s 0) as [|_]; [done|]. rewrite Hs. set (w1 := DecrementMemoryCapacity _ w).
    destruct (DecrementMemoryCapacity_fields kSegmentSize w) as (Em & Eb & Ev & Ez & Et & En). fold w1 in Em, Eb, Ev, Ez, Et, En.
    unfold free_block. rewrite Eb, Hn. cbn [mbind option_bind].
    destruct (IH fuel (Segment_next (mem w1) s) (set_blocks w1 (delete s (blocks w)))) as (w' & Hw' & HK & Hv & Hbl & Hr); try done.
    + cbn [mem set_blocks]. by rewrite Em.
    + intros t Ht. cbn. rewrite lookup_delete_ne by (intros ->; done). apply Hb. by right.
    + cbn in Hf. lia.
    + exists w'. split; [done|]. split; [|split; [|split]].
      * eapply Kept_trans; [apply (Kept_Decrement kSegmentSize)|]. by destruct HK.
      * rewrite Hv. done.
      * intros a. rewrite Hbl. cbn. destruct (decide (a = s)) as [->|Hne].
        { rewrite (decide_True _ _ (P := s ∈ s :: l)) by (by left). destruct (decide (s ∈ l)); [done|]. by rewrite lookup_delete_eq. }
        destruct (decide (a ∈ l)) as [Ha|Ha]; [by rewrite decide_True by (by right)|]. rewrite decide_False by (rewrite elem_of_cons; tauto). by rewrite lookup_delete_ne.
      * replace (kSegmentSize * Z.of_nat (length (s :: l))) with (kSegmentSize + kSegmentSize * Z.of_nat (length l)) by (cbn [length]; lia).
        eapply released_trans; [|exact Hr]. intros c Hcc. apply (DecrementMemoryCapacity_current kSegmentSize w c Hcc).
Qed.
Lemma DeleteLargeSegmentList_ok l : forall fuel p w, large_chain (mem w) p l -> NoDup (large_memory <$> l) ->
  (forall s, s ∈ l -> large_start s <> 0 /\ is_Some (vms w !! large_memory s)) -> (length l < fuel)%nat ->
  exists w', DeleteLargeSegmentList fuel p w = Some w' /\ Kept w w' /\ blocks w' = blocks w /\
    (forall h, vms w' !! h = if decide (h ∈ large_memory <$> l) then None else vms w !! h) /\ released (foldr Z.add 0 (large_size <$> l)) w w'.
Proof.
  induction l as [|s l IH]; intros [|fuel] p w Hc Hd Hb Hf; try (cbn in Hf; lia); cbn [DeleteLargeSegmentList].
  - cbn in Hc. rewrite Hc. exists w. split; [done|]. split; [done|]. split; [done|]. split; [done|]. intros c Hcc. exists c. split; [done|]. f_equal. cbn. lia.
  - destruct Hc as (-> & Hs & Hm & Hc). rewrite fmap_cons in Hd. apply list.NoDup_cons in Hd as [Hni Hd]. destruct (Hb s) as [Hs0 [n Hn]]; [by left|].
    destruct (Z.eqb_spec (large_start s) 0) as [|_]; [done|]. rewrite Hs. set (w1 := DecrementMemoryCapacity _ w).
    destruct (DecrementMemoryCapacity_fields (large_size s) w) as (Em & Eb & Ev & Ez & Et & En). fold w1 in Em, Eb, Ev, Ez, Et, En.
    rewrite Em, Hm. unfold delete_memory. rewrite Ev, Hn. cbn [mbind option_bind].
    destruct (IH fuel (Segment_next (mem w) (large_start s)) (set_vms w1 (delete (large_memory s) (vms w)))) as (w' & Hw' & HK & Hv & Hbl & Hr); try done.
    + cbn [mem set_vms]. by rewrite Em.
    + intros t Ht. cbn. rewrite lookup_delete_ne by (intros E; apply Hni; rewrite E; by apply list_elem_of_fmap_2). apply Hb. by right.
    + cbn in Hf. lia.
    + exists w'. split; [done|]. split; [|split; [|split]].
      * eapply Kept_trans; [apply (Kept_Decrement (large_size s))|]. by destruct HK.
      * rewrite Hv. done.
      * intros a. rewrite Hbl, fmap_cons. cbn [vms set_vms]. destruct (decide (a = large_memory s)) as [->|Hne].
        { rewrite (decide_True _ _ (P := large_memory s ∈ _ :: _)) by (by left). destruct (decide (large_memory s ∈ large_memory <$> l)); [done|]. by rewrite lookup_delete_eq. }
        destruct (decide (a ∈ large_memory <$> l)) as [Ha|Ha]; [by rewrite decide_True by (by right)|]. rewrite decide_False by (rewrite elem_of_cons; tauto). by rewrite lookup_delete_ne.
      * rewrite fmap_cons. cbn [foldr]. eapply released_trans; [|exact Hr]. intros c Hcc. apply (DecrementMemoryCapacity_current (large_size s) w c Hcc).
Qed.

(** A list of distinct keys of a map is no longer than the map. *)
Lemma keys_length {A} (m : gmap Z A) (l : list Z) : NoDup l -> (forall a, a ∈ l -> is_Some (m !! a)) -> (length l <= size m)%nat.
Proof.
  intros Hd Hk. rewrite <- size_dom, <- (size_list_to_set (C := gset Z) l Hd). apply subseteq_size. intros a Ha%elem_of_list_to_set. by apply elem_of_dom, Hk.
Qed.
Lemma World_ok_sub w w' : (forall o r, region w' o = Some r -> region w o = Some r) -> World_ok w -> World_ok w'.
Proof. intros Hr [H1 H2]. split; [intros o1 o2 r1 r2 E1%Hr E2%Hr; by apply H1|intros o r E%Hr; by apply H2 in E]. Qed.

(** What is left of the process when a zone has been freed. *)
Record Freed (this : Z) (g : Shape) (w w' : World) : Prop := {
  freed_mem : mem w' = mem w;
  freed_blocks : forall a, blocks w' !! a = if decide (a ∈ segs g) then None else blocks w !! a;
  freed_vms : forall h, vms w' !! h = if decide (h ∈ large_memory <$> larges g) then None else vms w !! h;
  freed_native : native_scope w' = native_scope w }.
Lemma DeleteAll_ok w this z g : World_ok w -> Zone_ok w this z g ->
  exists w', DeleteAll this w = Some w' /\ Freed this g w w' /\ zones w' = <[this := MkZone this (this + kInitialChunkSize) 0 0 0]> (zones w) /\
    thread_zone_ w' = thread_zone_ w /\ released (capacity g - kInitialChunkSize) w w'.
Proof.
  intros HW HZ. unfold DeleteAll. rewrite (ok_zone _ _ _ _ HZ). cbn [mbind option_bind].
  assert (Hs : forall s, s ∈ segs g -> s <> 0 /\ is_Some (blocks w !! s)).
  { intros s Hin. destruct (seg_range _ _ _ _ HW HZ s Hin) as (_ & ? & _), (ok_seg_blocks _ _ _ _ HZ s Hin) as [_ E]. rewrite E. split; [lia|done]. }
  assert (Hl : forall s, s ∈ larges g -> large_start s <> 0 /\ is_Some (vms w !! large_memory s)).
  { intros s Hin. destruct (large_range _ _ _ _ HW HZ s Hin) as (? & _), (ok_large_vms _ _ _ _ HZ s Hin) as (_ & _ & _ & E). rewrite E. split; [lia|done]. }
  destruct (DeleteSegmentList_ok (segs g) (S (size (blocks w))) (head_ z) w) as (w1 & E1 & [M1 Z1 [T1 N1]] & V1 & B1 & R1);
    [apply (ok_segs _ _ _ _ HZ)|apply (ok_segs_nodup _ _ _ _ HZ)|done| |].
  { apply le_n_S, keys_length; [apply (ok_segs_nodup _ _ _ _ HZ)|]. intros a Ha. by apply Hs. }
  assert (E1' : (if negb (head_ z =? 0) then DeleteSegmentList (S (size (blocks w))) (head_ z) w else Some w) = Some w1).
  { destruct (Z.eqb_spec (head_ z) 0) as [E0|]; [|done]. rewrite E0 in E1. cbn in E1. done. }
  rewrite E1'. cbn [mbind option_bind].
  destruct (DeleteLargeSegmentList_ok (larges g) (S (size (vms w1))) (large_segments_ z) w1) as (w2 & E2 & [M2 Z2 [T2 N2]] & B2 & V2 & R2);
    [rewrite M1; apply (ok_larges _ _ _ _ HZ)|apply (ok_larges_nodup _ _ _ _ HZ)|by rewrite V1| |].
  { apply le_n_S. rewrite <- (length_fmap large_memory). apply keys_length; [apply (ok_larges_nodup _ _ _ _ HZ)|]. intros a (s & -> & Ha)%list_elem_of_fmap. rewrite V1. by apply Hl. }
  assert (E2' : (if negb (large_segments_ z =? 0) then DeleteLargeSegmentList (S (size (vms w1))) (large_segments_ z) w1 else Some w1) = Some w2).
  { destruct (Z.eqb_spec (large_segments_ z) 0) as [E0|]; [|done]. rewrite E0 in E2. cbn in E2. done. }
  rewrite E2'. cbn [mbind option_bind]. eexists. split; [done|]. split; [|split; [|split]]; cbn.
  - split; cbn; [congruence|by rewrite B2|by setoid_rewrite V2; rewrite V1|congruence].
  - by rewrite Z2, Z1.
  - congruence.
  - replace (capacity g - kInitialChunkSize) with (kSegmentSize * Z.of_nat (length (segs g)) + foldr Z.add 0 (large_size <$> larges g)) by (unfold capacity; lia).
    by eapply released_trans.
Qed.
Lemma StackZone_delete_ok w this z g : World_ok w -> Zone_ok w this z g ->
  exists w', StackZone_delete this w = Some w' /\ Freed this g w w' /\ zones w' = delete this (zones w) /\ thread_zone_ w' = previous_ z /\ released (capacity g) w w'.
Proof.
  intros HW HZ. unfold StackZone_delete, Zone_delete. rewrite (ok_zone _ _ _ _ HZ). cbn [mbind option_bind].
  destruct (DeleteAll_ok (set_thread_zone w (previous_ z)) this z g) as (w1 & E1 & [] & Hz & Ht & Hr);
    [eapply region_ext, HW; by intros []|by eapply Zone_ok_frame|].
  rewrite E1. cbn [mbind option_bind]. destruct (DecrementMemoryCapacity_fields kInitialChunkSize w1) as (Em & Eb & Ev & Ez & Et & En).
  eexists. split; [done|]. split; [|split; [|split]]; cbn.
  - split; cbn; rewrite ?Em, ?Eb, ?Ev, ?En; try done.
  - rewrite Ez, Hz. cbn. by rewrite delete_insert_eq.
  - by rewrite Et, Ht.
  - replace (capacity g) with (capacity g - kInitialChunkSize + kInitialChunkSize) by lia. eapply (released_trans _ _ _ w1); [exact Hr|].
    intros c Hc. apply (DecrementMemoryCapacity_current kInitialChunkSize w1 c Hc).
Qed.
Lemma Freed_region this g w w' : Freed this g w w' -> zones w' = delete this (zones w) -> forall o r, region w' o = Some r -> region w o = Some r.
Proof.
  intros [] Hz [a|h|t] r; cbn.
  - rewrite freed_blocks0. by destruct (decide _).
  - rewrite freed_vms0. by destruct (decide _).
  - rewrite Hz. destruct (decide (t = this)) as [->|]; [by rewrite lookup_delete_eq|by rewrite lookup_delete_ne].
Qed.

(** Entering a zone. *)
Lemma StackZone_new_ok w this : World_ok w -> zones w !! this = None -> (8 | this) -> 0 < this -> this + kInitialChunkSize <= 2 ^ 47 ->
  (forall x, within (this, kInitialChunkSize) x -> ~ in_use w x) ->
  let z := MkZone this (this + kInitialChunkSize) 0 0 (thread_zone_ w) in
  exists w', StackZone_new this w = Some w' /\ World_ok w' /\ Zone_ok w' this z (MkShape [] [] []) /\ zones w' = <[this := z]> (zones w) /\
    mem w' = mem w /\ blocks w' = blocks w /\ vms w' = vms w /\ thread_zone_ w' = this /\ native_scope w' = native_scope w /\
    forall c, current_thread w = Some c -> exists c', current_thread w' = Some c' /\ u64 (current_zone_capacity_ c') = u64 (current_zone_capacity_ c + kInitialChunkSize).
Proof.
  intros HW Hnew H8 H0 H47 Hun z. unfold StackZone_new, Link, Zone_new. set (w0 := set_zones w _).
  destruct (IncrementMemoryCapacity_fields kInitialChunkSize w0) as (Em & Eb & Ev & Ez & Et & En). rewrite Ez, Et.
  replace (zones w0 !! this) with (Some (MkZone this (this + kInitialChunkSize) 0 0 0)) by (cbn; by rewrite lookup_insert_eq).
  cbn [mbind option_bind]. eexists. split; [done|]. set (w' := set_thread_zone _ this).
  assert (Hz : zones w' = <[this := z]> (zones w)) by (cbn; rewrite Ez; cbn; by rewrite insert_insert_eq).
  assert (Hr : forall o, region w' o = if decide (o = OfZone this) then Some (this, kInitialChunkSize) else region w o).
  { intros [a|h|t]; cbn -[w']; [unfold w'; cbn; by rewrite Eb|unfold w'; cbn; by rewrite Ev|]. rewrite Hz.
    destruct (decide (OfZone t = OfZone this)) as [[= ->]|Hne]; [by rewrite lookup_insert_eq|by rewrite lookup_insert_ne by congruence]. }
  split; [|split; [|split; [done|split; [|split; [|split; [|split; [done|split]]]]]]].
  - split.
    + intros o1 o2 r1 r2. rewrite !Hr. destruct (decide (o1 = _)) as [->|], (decide (o2 = _)) as [->|]; intros E1 E2 Hne; try done.
      * injection E1 as <-. intros x Hx Hx2. apply (Hun x Hx). by exists o2, r2.
      * injection E2 as <-. intros x Hx Hx2. apply (Hun x Hx2). by exists o1, r1.
      * by eapply regions_separate.
    + intros o r. rewrite Hr. destruct (decide _); [|by apply regions_range]. intros [= <-]. cbn. unfold kInitialChunkSize in *. lia.
  - split; try done; cbn; try (by constructor); try (by intros ? ?%not_elem_of_nil).
    + rewrite Ez. cbn. by rewrite lookup_insert_eq.
    + split; [done|]. unfold current_start, kInitialChunkSize. cbn. lia.
  - unfold w'; cbn; by rewrite Em.
  - unfold w'; cbn; by rewrite Eb.
  - unfold w'; cbn; by rewrite Ev.
  - unfold w'; cbn; by rewrite En.
  - intros c Hc. apply (IncrementMemoryCapacity_current kInitialChunkSize w0 c Hc).
Qed.

(** ** Which zone a block belongs to

    [K] gives the keys of the map [m] that the members of [l] have added to [m0]. *)
Record Keys {A} (K : Z -> list Z) (l : list Z) (m0 m : gmap Z A) : Prop := {
  keys_apart : forall t u a, t ∈ l -> u ∈ l -> a ∈ K t -> a ∈ K u -> t = u;
  keys_live : forall t a, t ∈ l -> a ∈ K t -> is_Some (m !! a);
  keys_base : forall a, (exists t, t ∈ l /\ a ∈ K t) /\ m0 !! a = None \/ (forall t, t ∈ l -> a ∉ K t) /\ m !! a = m0 !! a }.
Section Keys.
Context {A : Type} (K K' : Z -> list Z) (l : list Z) (m0 m m' : gmap Z A) (t : Z).

Lemma Keys_extend : Keys K l m0 m -> t ∈ l -> (forall u, u <> t -> K' u = K u) -> K t ⊆ K' t -> (forall a, a ∈ K' t -> a ∈ K t \/ m !! a = None) ->
  (forall a, a ∈ K' t -> is_Some (m' !! a)) -> (forall a, m' !! a = m !! a \/ m !! a = None /\ a ∈ K' t) -> Keys K' l m0 m'.
Proof using.
  intros HK Ht Hother Hsub Hnew Hlive Hm.
  assert (Hap : forall u a, u ∈ l -> u <> t -> a ∈ K u -> a ∈ K' t -> False).
  { intros u a Hu Hne Ha Ha'. destruct (Hnew a Ha') as [Hat|Hn]; [by apply Hne; eapply (keys_apart _ _ _ _ HK _ _ a)|].
    destruct (keys_live _ _ _ _ HK u a Hu Ha). congruence. }
  split.
  - intros u v a Hu Hv. destruct (decide (u = t)) as [->|Hne], (decide (v = t)) as [->|Hne']; rewrite ?(Hother v), ?(Hother u) by done; intros H1 H2.
    + done.
    + destruct (Hap v a); congruence || done.
    + destruct (Hap u a); congruence || done.
    + by eapply (keys_apart _ _ _ _ HK).
  - intros u a Hu. destruct (decide (u = t)) as [->|Hne]; [apply Hlive|]. rewrite Hother by done. intros Ha.
    destruct (keys_live _ _ _ _ HK u a Hu Ha) as [b Hb]. destruct (Hm a) as [->|[Hn _]]; [done|congruence].
  - intros a. destruct (decide (a ∈ K' t)) as [Hg|Hg].
    { left. split; [by exists t|]. destruct (keys_base _ _ _ _ HK a) as [[_ E]|[Hall E]]; [done|]. destruct (Hnew a Hg) as [Hat|Hn]; [by destruct (Hall t Ht)|congruence]. }
    destruct (keys_base _ _ _ _ HK a) as [[(u & Hu & Hau) E]|[Hall E]].
    + left. split; [|done]. exists u. split; [done|]. rewrite Hother; [done|]. intros ->. by apply Hg, Hsub.
    + right. split; [|destruct (Hm a) as [E'|[_ E']]; [congruence|done]]. intros u Hu. destruct (decide (u = t)) as [->|Hne]; [done|]. rewrite Hother by done. by apply Hall.
Qed.
Lemma Keys_enter : Keys K l m0 m -> t ∉ l -> K' t = [] -> (forall u, u <> t -> K' u = K u) -> Keys K' (t :: l) m0 m.
Proof using.
  intros HK Ht Hnil Hother. assert (Hin : forall u a, u ∈ t :: l -> a ∈ K' u -> u ∈ l /\ a ∈ K u).
  { intros u a [->|Hu]%elem_of_cons; [rewrite Hnil; by intros ?%not_elem_of_nil|]. rewrite Hother by (intros ->; done). done. }
  split.
  - intros u v a Hu Hv [Hu' H1]%Hin [Hv' H2]%Hin; try done. by eapply (keys_apart _ _ _ _ HK).
  - intros u a Hu [Hu' H1]%Hin; [|done]. by eapply (keys_live _ _ _ _ HK).
  - intros a. destruct (keys_base _ _ _ _ HK a) as [[(u & Hu & Hau) E]|[Hall E]].
    + left. split; [|done]. exists u. split; [by right|]. by rewrite Hother by (intros ->; done).
    + right. split; [|done]. intros u Hu Ha. destruct (Hin u a Hu Ha) as [Hu' Ha']. by apply (Hall u).
Qed.
Lemma Keys_leave : Keys K (t :: l) m0 m -> t ∉ l -> (forall a, m' !! a = if decide (a ∈ K t) then None else m !! a) -> Keys K l m0 m'.
Proof using.
  intros HK Ht Hm. assert (Hap : forall u a, u ∈ l -> a ∈ K u -> a ∉ K t).
  { intros u a Hu Ha Ha'. assert (u = t) as -> by (eapply (keys_apart _ _ _ _ HK _ _ a); [by right|by left|done..]). done. }
  split.
  - intros u v a Hu Hv. apply (keys_apart _ _ _ _ HK); by right.
  - intros u a Hu Ha. rewrite Hm, decide_False by (by eapply Hap). eapply (keys_live _ _ _ _ HK); [by right|done].
  - intros a. rewrite Hm. destruct (keys_base _ _ _ _ HK a) as [[(u & [->|Hu]%elem_of_cons & Hau) E]|[Hall E]].
    + right. split; [intros v Hv Ha; by apply (Hap v a)|]. by rewrite decide_True.
    + left. split; [|done]. by exists u.
    + right. split; [intros v Hv; apply Hall; by right|]. rewrite decide_False by (apply Hall; by left). done.
Qed.
End Keys.

(** ** Clients of zones *)
(** An array that the program holds: its zone, address and size in bytes. *)
Record Array := MkArray { a_zone : Z; a_data : Z; a_bytes : Z }.
Definition a_extent (a : Array) : Z * Z := extent (a_data a, a_bytes a).
Record State := MkState { world : World; stack : list Z; held : list Array }.

(** Entering and leaving zones, [Alloc] and [new], [Realloc] of the array at
    position [i] of [held], and a byte written to it at offset [j]. That [Realloc] in place only grows
    an array is asserted in the code. *)
Section Clients.
Context `{SM : SystemMemory} {SMOk : SystemMemoryOk}.

Inductive Op := Enter (this : Z) | Leave (this : Z) | Take (this n : Z) | Resize (i : nat) (n : Z) | Store (i : nat) (j b : Z).
Inductive step (st : State) : Op -> State -> Prop :=
  | step_enter this w' : (8 | this) -> 0 < this -> this + kInitialChunkSize <= 2 ^ 47 -> zones (world st) !! this = None ->
      (forall x, within (this, kInitialChunkSize) x -> ~ in_use (world st) x) -> StackZone_new this (world st) = Some w' ->
      step st (Enter this) (MkState w' (this :: stack st) (held st))
  | step_leave this rest w' : stack st = this :: rest -> StackZone_delete this (world st) = Some w' ->
      step st (Leave this) (MkState w' rest (filter (fun a => a_zone a <> this) (held st)))
  | step_alloc this k len p w' : this ∈ stack st -> 0 < k -> 0 <= len -> Alloc this k len (world st) = Some (p, w') ->
      step st (Take this (len * k)) (MkState w' (stack st) (MkArray this p (len * k) :: held st))
  | step_new size p w' : stack st <> [] -> is_uint 64 size -> operator_new size (world st) = Some (p, w') ->
      step st (Take (thread_zone_ (world st)) size) (MkState w' (stack st) (MkArray (thread_zone_ (world st)) p size :: held st))
  | step_realloc i this k old_data old_len new_len p w' : held st !! i = Some (MkArray this old_data (old_len * k)) -> 0 < k -> 0 <= old_len -> 0 <= new_len ->
      (forall z, zones (world st) !! this = Some z -> new_len < old_len -> RoundUp (old_data + old_len * k) kAlignment <> position_ z) ->
      Realloc this k old_data old_len new_len (world st) = Some (p, w') ->
      step st (Resize i (new_len * k)) (MkState w' (stack st) (<[i := MkArray this p (new_len * k)]> (held st)))
  | step_write i a j b : held st !! i = Some a -> 0 <= j < a_bytes a ->
      step st (Store i j b) (MkState (with_mem (world st) (<[a_data a + j := b]> (mem (world st)))) (stack st) (held st)).

(** Zones linked from [p], with [last] behind the outermost one. *)
Fixpoint zone_chain (zs : gmap Z Zone) (p : Z) (l : list Z) (last : Z) : Prop :=
  match l with
  | [] => p = last
  | this :: l => p = this /\ exists z, zs !! this = Some z /\ zone_chain zs (previous_ z) l last
  end.
Definition total_capacity (sh : Z -> Shape) (l : list Z) : Z := foldr Z.add 0 ((fun t => capacity (sh t)) <$> l).

Record Inv (w0 : World) (st : State) (sh : Z -> Shape) : Prop := {
  inv_world : World_ok (world st);
  inv_zone : forall t, t ∈ stack st -> exists z, Zone_ok (world st) t z (sh t);
  inv_nodup : NoDup (stack st);
  inv_zones : forall t, is_Some (zones (world st) !! t) -> t ∈ stack st;
  inv_chain : zone_chain (zones (world st)) (thread_zone_ (world st)) (stack st) (thread_zone_ w0);
  inv_blocks : Keys (fun t => segs (sh t)) (stack st) (blocks w0) (blocks (world st));
  inv_vms : Keys (fun t => large_memory <$> larges (sh t)) (stack st) (vms w0) (vms (world st));
  inv_held : forall i a, held st !! i = Some a -> a_zone a ∈ stack st /\ array_of (sh (a_zone a)) (a_data a) (a_bytes a);
  inv_apart : forall i j a b, held st !! i = Some a -> held st !! j = Some b -> i <> j -> separate (a_extent a) (a_extent b);
  inv_capacity : forall c0, current_thread w0 = Some c0 -> exists c, current_thread (world st) = Some c /\
    u64 (current_zone_capacity_ c) = u64 (current_zone_capacity_ c0 + total_capacity sh (stack st)) }.

(** Zones do not share memory. *)
Lemma payload_apart w0 st sh t u x : Inv w0 st sh -> t ∈ stack st -> u ∈ stack st -> payload t (sh t) x -> payload u (sh u) x -> t = u.
Proof using.
  intros HI Ht Hu Hpt Hpu. pose proof (inv_world _ _ _ HI) as HW. destruct (inv_zone _ _ _ HI t Ht) as [zt HZt], (inv_zone _ _ _ HI u Hu) as [zu HZu].
  destruct (payload_region _ _ _ _ HW HZt x Hpt) as (o1 & r1 & Ho1 & Hr1 & Hx1), (payload_region _ _ _ _ HW HZu x Hpu) as (o2 & r2 & Ho2 & Hr2 & Hx2).
  assert (o1 = o2) as -> by (by eapply (owner_unique _ HW)).
  destruct Ho1 as [->|[(s & Hs & ->)|(s & Hs & ->)]], Ho2 as [E|[(s' & Hs' & E)|(s' & Hs' & E)]]; try done; injection E as E.
  - done.
  - rewrite <- E in Hs'. by eapply (keys_apart _ _ _ _ (inv_blocks _ _ _ HI) _ _ s).
  - eapply (keys_apart _ _ _ _ (inv_vms _ _ _ HI) _ _ (large_memory s)); [done..|by apply list_elem_of_fmap_2|]. rewrite E. by apply list_elem_of_fmap_2.
Qed.
(** The bytes of an array, with its padding, are payload of its zone and not free. *)
Lemma held_payload w0 st sh i a x : Inv w0 st sh -> held st !! i = Some a -> within (a_extent a) x ->
  payload (a_zone a) (sh (a_zone a)) x /\ ~ free_of (world st) (a_zone a) x.
Proof using.
  intros HI Hi Hx. destruct (inv_held _ _ _ HI i a Hi) as [Hin [(E0 & _)|Hc]].
  - unfold a_extent, within, extent in Hx. cbn [fst snd] in Hx. rewrite E0 in Hx. replace (RoundUp 0 kAlignment) with 0 in Hx by done. lia.
  - destruct (inv_zone _ _ _ HI _ Hin) as [z HZ]. pose proof (ok_chunks _ _ _ _ HZ) as Hall. rewrite list.Forall_forall in Hall.
    destruct (Hall _ Hc) as (_ & _ & _ & Hp). destruct (Hp x Hx) as [? Hf]. split; [done|]. intros (z' & Hz & Hr). rewrite (ok_zone _ _ _ _ HZ) in Hz. by injection Hz as <-.
Qed.
Lemma zone_chain_ext zs zs' l last : (forall t z, t ∈ l -> zs !! t = Some z -> exists z', zs' !! t = Some z' /\ previous_ z' = previous_ z) ->
  forall p, zone_chain zs p l last -> zone_chain zs' p l last.
Proof using.
  induction l as [|t l IH]; intros Hz p; [done|]. cbn. intros (-> & z & Ht & Hc). split; [done|].
  destruct (Hz t z) as (z' & Ht' & Hp); [by left|done|]. exists z'. split; [done|]. rewrite Hp. apply IH; [|done]. intros u zu Hu. apply Hz. by right.
Qed.
Lemma total_capacity_insert sh t g l : NoDup l -> t ∈ l -> total_capacity (<[t := g]> sh) l = total_capacity sh l + (capacity g - capacity (sh t)).
Proof using.
  unfold total_capacity. induction l as [|u l IH]; intros Hd Ht; [by apply not_elem_of_nil in Ht|]. apply list.NoDup_cons in Hd as [Hni Hd].
  rewrite !fmap_cons. cbn [foldr]. apply elem_of_cons in Ht as [<-|Ht].
  - rewrite fn_lookup_insert. enough ((fun t0 => capacity (<[t := g]> sh t0)) <$> l = (fun t0 => capacity (sh t0)) <$> l) as -> by lia.
    apply list_fmap_ext. intros i u Hu. rewrite fn_lookup_insert_ne; [done|]. intros ->. apply Hni. by eapply list_elem_of_lookup_2.
  - rewrite IH by done. rewrite fn_lookup_insert_ne; [lia|]. intros ->. done.
Qed.

(** An operation on zone [t] preserves the invariant if the arrays held after it are arrays of their zones and apart. *)
Lemma Inv_extend w0 st sh t g' z' w' held' : Inv w0 st sh -> t ∈ stack st -> World_ok w' -> Zone_ok w' t z' g' -> Extends t (sh t) g' (world st) w' ->
  (forall i a, held' !! i = Some a -> a_zone a ∈ stack st /\ array_of ((<[t := g']> sh) (a_zone a)) (a_data a) (a_bytes a)) ->
  (forall i j a b, held' !! i = Some a -> held' !! j = Some b -> i <> j -> separate (a_extent a) (a_extent b)) ->
  Inv w0 (MkState w' (stack st) held') (<[t := g']> sh).
Proof using.
  intros HI Ht HW' HZ' HE Hh Hap. pose proof (inv_world _ _ _ HI) as HW. destruct (inv_zone _ _ _ HI t Ht) as [z HZ].
  destruct (ext_zones _ _ _ _ _ HE) as (z1 & Hz1 & Hprev).
  split; cbn [world stack held].
  - done.
  - intros u Hu. destruct (decide (u = t)) as [->|Hne]; [exists z'; by rewrite fn_lookup_insert|]. rewrite fn_lookup_insert_ne by done.
    destruct (inv_zone _ _ _ HI u Hu) as [zu HZu]. exists zu. by eapply (Zone_ok_other (world st) w' u zu (sh u) t z).
  - apply (inv_nodup _ _ _ HI).
  - intros u. rewrite Hz1. destruct (decide (u = t)) as [->|Hne]; [done|]. rewrite lookup_insert_ne by done. apply (inv_zones _ _ _ HI).
  - destruct (ext_thread _ _ _ _ _ HE) as [-> _]. eapply zone_chain_ext, (inv_chain _ _ _ HI). intros u zu Hu Hzu. rewrite Hz1.
    destruct (decide (u = t)) as [->|Hne]; [rewrite lookup_insert_eq; eauto|rewrite lookup_insert_ne by done; eauto].
  - eapply (Keys_extend _ _ _ _ _ _ t (inv_blocks _ _ _ HI) Ht); rewrite ?fn_lookup_insert.
    + intros u Hu. by rewrite fn_lookup_insert_ne.
    + apply (ext_segs _ _ _ _ _ HE).
    + apply (ext_segs _ _ _ _ _ HE).
    + intros a Ha. destruct (ok_seg_blocks _ _ _ _ HZ' a Ha) as [_ ->]. done.
    + apply (ext_blocks _ _ _ _ _ HE).
  - eapply (Keys_extend _ _ _ _ _ _ t (inv_vms _ _ _ HI) Ht); rewrite ?fn_lookup_insert.
    + intros u Hu. by rewrite fn_lookup_insert_ne.
    + intros h (l & -> & Hl)%list_elem_of_fmap. apply list_elem_of_fmap_2. by apply (ext_larges _ _ _ _ _ HE).
    + intros h (l & -> & Hl)%list_elem_of_fmap. destruct (proj2 (ext_larges _ _ _ _ _ HE) l Hl); [left; by apply list_elem_of_fmap_2|by right].
    + intros h (l & -> & Hl)%list_elem_of_fmap. destruct (ok_large_vms _ _ _ _ HZ' l Hl) as (_ & _ & _ & ->). done.
    + apply (ext_vms _ _ _ _ _ HE).
  - done.
  - done.
  - intros c0 Hc0. destruct (inv_capacity _ _ _ HI c0 Hc0) as (c & Hc & E). destruct (ext_capacity _ _ _ _ _ HE c Hc) as (c' & Hc' & E').
    exists c'. split; [done|]. rewrite E', total_capacity_insert by (done || apply (inv_nodup _ _ _ HI)).
    unfold uwrap in *. rewrite <- Zplus_mod_idemp_l, E, Zplus_mod_idemp_l. f_equal. lia.
Qed.

(** ** Every step keeps the invariant, and the contents of the arrays it is not about *)
Definition bytes_of (w : World) (a : Array) : list Z := load_bytes (mem w) (a_data a) (Z.to_nat (a_bytes a)).
Lemma held_bytes w0 st sh i a x : Inv w0 st sh -> held st !! i = Some a -> a_data a <= x < a_data a + a_bytes a -> within (a_extent a) x.
Proof using.
  intros HI Hi Hx. destruct (inv_held _ _ _ HI i a Hi) as [Hin Ha]. destruct (inv_zone _ _ _ HI _ Hin) as [z HZ].
  destruct (array_facts _ _ _ _ _ _ (inv_world _ _ _ HI) HZ Ha) as (_ & _ & Hn & _).
  destruct (RoundUp_spec_8 (a_bytes a)) as [_ Hr]; [unfold kIntptrMax, kAlignment; lia|]. unfold within, a_extent, extent; cbn [fst snd]; lia.
Qed.
Lemma held_not_free w0 st sh i a x t : Inv w0 st sh -> held st !! i = Some a -> within (a_extent a) x -> t ∈ stack st ->
  in_use (world st) x /\ ~ free_of (world st) t x.
Proof using.
  intros HI Hi Hx Ht. destruct (inv_held _ _ _ HI i a Hi) as [Hin _]. destruct (held_payload _ _ _ _ _ _ HI Hi Hx) as [Hp Hf].
  destruct (inv_zone _ _ _ HI _ Hin) as [z HZ], (inv_zone _ _ _ HI _ Ht) as [zt HZt]. split; [by apply (payload_in_use _ _ _ _ (inv_world _ _ _ HI) HZ)|].
  intros F. pose proof (free_of_payload _ _ _ _ _ HZt F) as Hpt. assert (t = a_zone a) as -> by (by eapply payload_apart). done.
Qed.
Lemma kept_bytes w0 st sh t g' w' i a : Inv w0 st sh -> t ∈ stack st -> Extends t (sh t) g' (world st) w' -> held st !! i = Some a -> bytes_of w' a = bytes_of (world st) a.
Proof using.
  intros HI Ht HE Hi. apply load_bytes_ext. intros x Hx. pose proof (inv_held _ _ _ HI i a Hi) as [Hin Ha].
  destruct (held_not_free w0 st sh i a x t) as [Hu Hf]; [done..| |done|]; [|by apply (ext_mem _ _ _ _ _ HE)]. eapply held_bytes; [done..|]. lia.
Qed.
Lemma Inv_allocated w0 st sh t p n w' : Inv w0 st sh -> t ∈ stack st -> Allocated t (sh t) p n (world st) w' ->
  (exists sh', Inv w0 (MkState w' (stack st) (MkArray t p n :: held st)) sh') /\ forall i a, held st !! i = Some a -> bytes_of w' a = bytes_of (world st) a.
Proof using.
  intros HI Ht (z' & g' & HW' & HZ' & HE & Hch & _ & Hnew). split; [|intros i a Hi; by eapply kept_bytes]. exists (<[t := g']> sh).
  assert (Hsep : forall i a x, held st !! i = Some a -> within (extent (p, n)) x -> ~ within (a_extent a) x).
  { intros i a x Hi Hx Hxa. destruct (held_not_free w0 st sh i a x t) as [Hu Hf]; [done..|]. by apply Hf, Hnew. }
  eapply Inv_extend; try done.
  - intros [|i] a Hi; cbn in Hi.
    + injection Hi as <-. split; [done|]. rewrite fn_lookup_insert. right. rewrite Hch. by left.
    + destruct (inv_held _ _ _ HI i a Hi) as [Hin Ha]. split; [done|]. destruct (decide (a_zone a = t)) as [E|Hne]; [|by rewrite fn_lookup_insert_ne].
      rewrite E in *. rewrite fn_lookup_insert. destruct Ha as [Ha|Ha]; [by left|]. right. rewrite Hch. by right.
  - intros [|i] [|j] a b Hi Hj Hne x Hx1 Hx2; try done; cbn in Hi, Hj.
    + injection Hi as <-. by apply (Hsep j b x).
    + injection Hj as <-. by apply (Hsep i a x).
    + eapply (inv_apart _ _ _ HI i j a b); [done..|congruence|done|done].
Qed.
Lemma Inv_reallocated w0 st sh i t k old_data old_len new_len p w' : Inv w0 st sh -> held st !! i = Some (MkArray t old_data (old_len * k)) -> 0 < k -> 0 <= old_len ->
  Reallocated k t (sh t) old_data old_len new_len p (world st) w' ->
  (exists sh', Inv w0 (MkState w' (stack st) (<[i := MkArray t p (new_len * k)]> (held st))) sh') /\ forall j a, held st !! j = Some a -> bytes_of w' a = bytes_of (world st) a.
Proof using.
  intros HI Hi Hk Hl (z' & g' & HW' & HZ' & HE & Harr & Hothers & Hpay & _). pose proof (inv_held _ _ _ HI i _ Hi) as [Ht _]. cbn in Ht.
  split; [|intros j a Hj; by eapply kept_bytes]. exists (<[t := g']> sh).
  assert (Hdiff : forall j a, held st !! j = Some a -> j <> i -> (a_data a, a_bytes a) ∈ chunks (sh t) -> 0 < a_bytes a -> (a_data a, a_bytes a) <> (old_data, old_len * k)).
  { intros j a Hj Hne Hin Hpos [= E1 E2]. eapply (inv_apart _ _ _ HI j i _ _ Hj Hi Hne (a_data a)); [eapply (held_bytes _ _ _ j)|eapply (held_bytes _ _ _ i)]; try done; cbn; lia. }
  assert (Hnz : forall a x, within (a_extent a) x -> array_of (sh (a_zone a)) (a_data a) (a_bytes a) -> (a_data a, a_bytes a) ∈ chunks (sh (a_zone a)) /\ a_bytes a <> 0).
  { intros a x Hx Ha. destruct (decide (a_bytes a = 0)) as [E|]; [|destruct Ha as [[]|]; done].
    unfold a_extent, within, extent in Hx. cbn [fst snd] in Hx. rewrite E in Hx. replace (RoundUp 0 kAlignment) with 0 in Hx by done. lia. }
  assert (Hsep : forall j a x, held st !! j = Some a -> j <> i -> within (extent (p, new_len * k)) x -> within (a_extent a) x -> False).
  { intros j a x Hj Hne Hx Hxa. destruct (inv_held _ _ _ HI j a Hj) as [Hin Ha]. destruct (held_not_free w0 st sh j a x t) as [Hu Hf]; [done..|].
    destruct (held_payload _ _ _ _ _ _ HI Hj Hxa) as [Hp _]. assert (E : a_zone a = t) by (eapply payload_apart; eauto). destruct (Hnz a x Hxa Ha) as [Hc Hn0]. rewrite E in *.
    destruct (inv_zone _ _ _ HI _ Ht) as [z HZ]. destruct (array_facts _ _ _ _ _ _ (inv_world _ _ _ HI) HZ Ha) as (_ & _ & ? & _).
    destruct (Hothers _ Hc (Hdiff j a Hj Hne Hc ltac:(lia))) as [_ Hs]. by apply (Hs x). }
  eapply Inv_extend; try done.
  - intros j a Hj. destruct (decide (j = i)) as [->|Hne].
    + rewrite list_lookup_insert_eq in Hj by (by eapply lookup_lt_Some). injection Hj as <-. cbn. by rewrite fn_lookup_insert.
    + rewrite list_lookup_insert_ne in Hj by done. destruct (inv_held _ _ _ HI j a Hj) as [Hin Ha]. split; [done|].
      destruct (decide (a_zone a = t)) as [E|Hne']; [|by rewrite fn_lookup_insert_ne]. rewrite E in *. rewrite fn_lookup_insert.
      destruct (decide (a_bytes a = 0)) as [E0|Hn0]; [left; destruct (inv_zone _ _ _ HI _ Ht) as [z HZ]; by destruct (array_facts _ _ _ _ _ _ (inv_world _ _ _ HI) HZ Ha) as (? & ? & _)|].
      destruct Ha as [[]|Ha]; [done|]. right. apply Hothers; [done|]. apply (Hdiff j); try done.
      destruct (inv_zone _ _ _ HI _ Ht) as [z HZ]. destruct (chunk_facts _ _ _ _ _ (inv_world _ _ _ HI) HZ Ha) as (_ & _ & ? & _). cbn in *. lia.
  - intros j l a b Hj Hl' Hne x Hx1 Hx2. destruct (decide (j = i)) as [->|Hj'], (decide (l = i)) as [->|Hl'']; [done|..].
    + rewrite list_lookup_insert_eq in Hj by (by eapply lookup_lt_Some). rewrite list_lookup_insert_ne in Hl' by done. injection Hj as <-. by apply (Hsep l b x).
    + rewrite list_lookup_insert_eq in Hl' by (by eapply lookup_lt_Some). rewrite list_lookup_insert_ne in Hj by done. injection Hl' as <-. by apply (Hsep j a x).
    + rewrite list_lookup_insert_ne in Hj, Hl' by done. by apply (inv_apart _ _ _ HI j l a b Hj Hl' Hne x).
Qed.
Lemma Inv_write w0 st sh i a x b : Inv w0 st sh -> held st !! i = Some a -> a_data a <= x < a_data a + a_bytes a ->
  Inv w0 (MkState (with_mem (world st) (<[x := b]> (mem (world st)))) (stack st) (held st)) sh.
Proof using.
  intros HI Hi Hx. destruct (inv_held _ _ _ HI i a Hi) as [Hin _]. destruct (inv_zone _ _ _ HI _ Hin) as [z HZ].
  destruct (held_payload _ _ _ _ _ x HI Hi) as [Hp _]; [by eapply held_bytes|]. pose proof (inv_world _ _ _ HI) as HW.
  destruct HI. split; try done; cbn [world stack held].
  - eapply region_ext, HW. intros o. apply region_set_mem.
  - intros t Ht. destruct (inv_zone0 t Ht) as [zt HZt]. exists zt. eapply (Zone_ok_write _ _ _ _ (a_zone a) z); [done..|]. intros y Hy. rewrite byte_at_insert.
    destruct (Z.eqb_spec y x) as [->|]; [by destruct Hy|done].
Qed.
Lemma Inv_enter w0 st sh this w' : Inv w0 st sh -> (8 | this) -> 0 < this -> this + kInitialChunkSize <= 2 ^ 47 -> zones (world st) !! this = None ->
  (forall x, within (this, kInitialChunkSize) x -> ~ in_use (world st) x) -> StackZone_new this (world st) = Some w' ->
  mem w' = mem (world st) /\ Inv w0 (MkState w' (this :: stack st) (held st)) (<[this := MkShape [] [] []]> sh).
Proof using.
  intros HI H8 H0 H47 Hnew Hun E. destruct (StackZone_new_ok (world st) this) as (w1 & E1 & HW & HZ & Hz & Hm & Hb & Hv & Ht & _ & Hc); try done; [apply (inv_world _ _ _ HI)|].
  rewrite E in E1. injection E1 as <-. split; [done|].
  assert (Hni : this ∉ stack st) by (intros Hin; destruct (inv_zone _ _ _ HI this Hin) as [z HZ']; pose proof (ok_zone _ _ _ _ HZ'); congruence).
  assert (Hother : forall t, t ∈ stack st -> t <> this) by (intros t Hin ->; done).
  split; cbn [world stack held].
  - done.
  - intros t [->|Hin]%elem_of_cons; [rewrite fn_lookup_insert; eauto|]. rewrite fn_lookup_insert_ne by (by apply not_eq_sym, Hother).
    destruct (inv_zone _ _ _ HI t Hin) as [z HZ']. exists z. eapply Zone_ok_frame; [exact HZ'|by rewrite Hz, lookup_insert_ne by (by apply not_eq_sym, Hother)|by rewrite Hb|by rewrite Hv|by rewrite Hm].
  - apply list.NoDup_cons. split; [done|apply (inv_nodup _ _ _ HI)].
  - intros t. rewrite Hz. destruct (decide (t = this)) as [->|Hne]; [by left|]. rewrite lookup_insert_ne by done. right. by apply (inv_zones _ _ _ HI).
  - rewrite Hz, Ht. split; [done|]. eexists. split; [by rewrite lookup_insert_eq|]. cbn. eapply zone_chain_ext, (inv_chain _ _ _ HI).
    intros t z Hin Hzt. exists z. rewrite lookup_insert_ne by (by apply not_eq_sym, Hother). done.
  - rewrite Hb. eapply (Keys_enter _ _ _ _ _ this (inv_blocks _ _ _ HI)); [done|by rewrite fn_lookup_insert|intros u Hu; by rewrite fn_lookup_insert_ne].
  - rewrite Hv. eapply (Keys_enter _ _ _ _ _ this (inv_vms _ _ _ HI)); [done|by rewrite fn_lookup_insert|intros u Hu; by rewrite fn_lookup_insert_ne].
  - intros i a Hi. destruct (inv_held _ _ _ HI i a Hi) as [Hin Ha]. split; [by right|]. by rewrite fn_lookup_insert_ne by (by apply not_eq_sym, Hother).
  - apply (inv_apart _ _ _ HI).
  - intros c0 Hc0. destruct (inv_capacity _ _ _ HI c0 Hc0) as (c & Hcc & Ec). destruct (Hc c Hcc) as (c' & Hc' & Ec'). exists c'. split; [done|]. rewrite Ec'.
    unfold total_capacity. rewrite fmap_cons. cbn [foldr]. rewrite fn_lookup_insert.
    replace ((fun t => capacity (<[this := MkShape [] [] []]> sh t)) <$> stack st) with ((fun t => capacity (sh t)) <$> stack st).
    + fold (total_capacity sh (stack st)). unfold uwrap in *. rewrite <- Zplus_mod_idemp_l, Ec, Zplus_mod_idemp_l. f_equal. unfold capacity, kInitialChunkSize. cbn. lia.
    + apply list_fmap_ext. intros i t Hi. rewrite fn_lookup_insert_ne; [done|]. apply not_eq_sym, Hother. by eapply list_elem_of_lookup_2.
Qed.
Lemma filter_two (P : Array -> Prop) `{!forall a, Decision (P a)} (l : list Array) i j a b : filter P l !! i = Some a -> filter P l !! j = Some b -> i <> j ->
  exists i' j', l !! i' = Some a /\ l !! j' = Some b /\ i' <> j'.
Proof using.
  revert i j. induction l as [|c l IH]; intros i j; [by destruct i|].
  assert (Hmem : forall k d, filter P l !! k = Some d -> exists k', l !! k' = Some d).
  { intros k d Hk%list_elem_of_lookup_2%list_elem_of_filter. apply list_elem_of_lookup_1. tauto. }
  rewrite filter_cons. destruct (decide (P c)).
  - destruct i as [|i], j as [|j]; intros Hi Hj Hne; try done; cbn in Hi, Hj.
    + destruct (Hmem j b Hj) as [j' Hj']. by exists 0%nat, (S j').
    + destruct (Hmem i a Hi) as [i' Hi']. by exists (S i'), 0%nat.
    + destruct (IH i j Hi Hj ltac:(congruence)) as (i' & j' & ? & ? & ?). exists (S i'), (S j'). split; [done|]. split; [done|]. congruence.
  - intros Hi Hj Hne. destruct (IH i j Hi Hj Hne) as (i' & j' & ? & ? & ?). exists (S i'), (S j'). split; [done|]. split; [done|]. congruence.
Qed.
Lemma Inv_leave w0 st sh this rest : Inv w0 st sh -> stack st = this :: rest ->
  exists w', StackZone_delete this (world st) = Some w' /\ mem w' = mem (world st) /\ Inv w0 (MkState w' rest (filter (fun a => a_zone a <> this) (held st))) sh.
Proof using.
  intros HI Hst. destruct (inv_zone _ _ _ HI this) as [z HZ]; [rewrite Hst; by left|]. pose proof (inv_world _ _ _ HI) as HW.
  destruct (StackZone_delete_ok (world st) this z (sh this) HW HZ) as (w' & E & HF & Hz & Ht & Hr). exists w'. split; [done|]. split; [apply (freed_mem _ _ _ _ HF)|].
  pose proof (inv_nodup _ _ _ HI) as Hnd. rewrite Hst in Hnd. apply list.NoDup_cons in Hnd as [Hni Hnd].
  assert (Hother : forall t, t ∈ rest -> this <> t) by (by intros t Hin ->).
  assert (Hin : forall t, t ∈ rest -> t ∈ stack st) by (intros t Hin; rewrite Hst; by right).
  pose proof (inv_blocks _ _ _ HI) as HB. pose proof (inv_vms _ _ _ HI) as HV. rewrite Hst in HB, HV.
  pose proof (Keys_leave _ _ _ _ _ _ HB Hni (freed_blocks _ _ _ _ HF)) as HB'. pose proof (Keys_leave _ _ _ _ _ _ HV Hni (freed_vms _ _ _ _ HF)) as HV'.
  split; cbn [world stack held]; try done.
  - eapply World_ok_sub, HW. by eapply Freed_region.
  - intros t Hr'. destruct (inv_zone _ _ _ HI t (Hin t Hr')) as [zt HZt]. exists zt. eapply Zone_ok_frame; [exact HZt|..].
    + rewrite Hz. apply lookup_delete_ne. auto.
    + intros s Hs. rewrite (freed_blocks _ _ _ _ HF), decide_False; [done|]. intros Hs'.
      apply (Hother t Hr'). eapply (keys_apart _ _ _ _ HB _ _ s); [by left|by right|done..].
    + intros l Hl. rewrite (freed_vms _ _ _ _ HF), decide_False; [done|]. intros Hs'.
      apply (Hother t Hr'). eapply (keys_apart _ _ _ _ HV _ _ (large_memory l)); [by left|by right|done|]. by apply list_elem_of_fmap_2.
    + intros x Hx. by rewrite (freed_mem _ _ _ _ HF).
  - intros t [zt Hzt]. rewrite Hz, lookup_delete_Some in Hzt. destruct Hzt as [Hne Hzt].
    pose proof (inv_zones _ _ _ HI t ltac:(by exists zt)) as Hts. rewrite Hst in Hts. apply elem_of_cons in Hts as [E0|]; [by destruct Hne|done].
  - rewrite Hz, Ht. pose proof (inv_chain _ _ _ HI) as Hc. rewrite Hst in Hc. destruct Hc as (_ & z0 & Hz0 & Hc). rewrite (ok_zone _ _ _ _ HZ) in Hz0. injection Hz0 as <-.
    eapply zone_chain_ext, Hc. intros t zt Htr Hzt. exists zt. rewrite lookup_delete_ne by auto. done.
  - intros i a [Hne Ha]%list_elem_of_lookup_2%list_elem_of_filter. apply list_elem_of_lookup_1 in Ha as [j Hj].
    destruct (inv_held _ _ _ HI j a Hj) as [Hs Harr]. split; [|done]. rewrite Hst in Hs. apply elem_of_cons in Hs as [E0|]; done.
  - intros i j a b Hi Hj Hne. destruct (filter_two _ _ _ _ _ _ Hi Hj Hne) as (i' & j' & Hi' & Hj' & Hne'). by eapply (inv_apart _ _ _ HI i' j').
  - intros c0 Hc0. destruct (inv_capacity _ _ _ HI c0 Hc0) as (c & Hcc & Ec). destruct (Hr c Hcc) as (c' & Hc' & Ec'). exists c'. split; [done|]. rewrite Ec'.
    rewrite Hst in Ec. unfold total_capacity in Ec. rewrite fmap_cons in Ec. cbn [foldr] in Ec. fold (total_capacity sh rest) in Ec.
    unfold uwrap in *. rewrite <- Zminus_mod_idemp_l, Ec, Zminus_mod_idemp_l. f_equal. lia.
Qed.

Definition reachable (w0 : World) (st : State) : Prop := rtc (fun s s' => exists op, step s op s') (MkState w0 [] []) st.
Lemma Inv_initial w0 : World_ok w0 -> zones w0 = ∅ -> Inv w0 (MkState w0 [] []) (fun _ => MkShape [] [] []).
Proof using.
  intros HW Hz. split; cbn; try done; try (by intros ? ?%not_elem_of_nil); try (by constructor).
  - intros t. rewrite Hz, lookup_empty. by intros [].
  - split; try (by intros ? ? ? ?%not_elem_of_nil); try (by intros ? ? ?%not_elem_of_nil). intros a. right. split; [by intros ? ?%not_elem_of_nil|done].
  - split; try (by intros ? ? ? ?%not_elem_of_nil); try (by intros ? ? ?%not_elem_of_nil). intros a. right. split; [by intros ? ?%not_elem_of_nil|done].
  - intros c0 Hc0. exists c0. split; [done|]. f_equal. unfold total_capacity. cbn. lia.
Qed.
Lemma top_zone w0 st sh : Inv w0 st sh -> stack st <> [] -> thread_zone_ (world st) ∈ stack st.
Proof using. intros HI Hne. pose proof (inv_chain _ _ _ HI) as Hc. destruct (stack st) as [|t l]; [done|]. destruct Hc as [-> _]. by left. Qed.
Lemma operator_new_ok w z g size p w' : World_ok w -> Zone_ok w (thread_zone_ w) z g -> is_uint 64 size -> operator_new size w = Some (p, w') -> Allocated (thread_zone_ w) g p size w w'.
Proof using SMOk.
  intros HW HZ Hs. unfold operator_new, Allocate. zif; [done|]. unfold kIntptrMax, is_uint in *. rewrite swrap_id by (unfold is_sint; lia). eapply AllocUnsafe_ok; [done..|lia].
Qed.
Lemma Inv_step w0 st op st' sh : Inv w0 st sh -> step st op st' -> exists sh', Inv w0 st' sh'.
Proof using SMOk.
  intros HI Hs. destruct Hs as [this w' H8 H0 H47 Hn Hu E|this rest w' Hst E|this k len p w' Hin Hk Hl E|size p w' Hne Hs E|i this k od ol nl p w' Hi Hk Hol Hnl Hgrow E|i a j b Hi Hj].
  - eexists. by eapply (Inv_enter w0 st sh).
  - destruct (Inv_leave w0 st sh this rest HI Hst) as (w1 & E1 & _ & HI1). rewrite E in E1. injection E1 as <-. by exists sh.
  - destruct (inv_zone _ _ _ HI this Hin) as [z HZ]. eapply Alloc_ok in E; [|done|apply (inv_world _ _ _ HI)|done..]. by apply (Inv_allocated w0 st sh).
  - pose proof (top_zone _ _ _ HI Hne) as Hin. destruct (inv_zone _ _ _ HI _ Hin) as [z HZ]. eapply operator_new_ok in E; [|apply (inv_world _ _ _ HI)|done..].
    by apply (Inv_allocated w0 st sh).
  - destruct (inv_held _ _ _ HI i _ Hi) as [Hin Ha]. cbn in Hin, Ha. destruct (inv_zone _ _ _ HI _ Hin) as [z HZ].
    eapply Realloc_ok in E; [|done|apply (inv_world _ _ _ HI)|done..|intros Hlt; apply Hgrow; [apply (ok_zone _ _ _ _ HZ)|done]]. by eapply (Inv_reallocated w0 st sh).
  - exists sh. eapply Inv_write; [done..|lia].
Qed.
Lemma reachable_Inv w0 st : World_ok w0 -> zones w0 = ∅ -> reachable w0 st -> exists sh, Inv w0 st sh.
Proof using SMOk.
  intros HW Hz Hr. apply (rtc_ind_r (fun s => exists sh, Inv w0 s sh) (MkState w0 [] [])) in Hr; [done|eexists; by apply Inv_initial|].
  intros s s' _ [op Hs] [sh HI]. by eapply Inv_step.
Qed.

(** ** The abstract view: arrays with contents *)
Definition array_contents (st : State) : list (Z * list Z) := (fun a => (a_zone a, bytes_of (world st) a)) <$> held st.
Inductive abs_step (l : list (Z * list Z)) : Op -> list (Z * list Z) -> Prop :=
  | abs_enter this : abs_step l (Enter this) l
  | abs_leave this : abs_step l (Leave this) (filter (fun a => a.1 <> this) l)
  | abs_take this b : abs_step l (Take this (zlen b)) ((this, b) :: l)
  | abs_resize i this b b' : l !! i = Some (this, b) -> (forall j c, (j < length b')%nat -> b !! j = Some c -> b' !! j = Some c) ->
      abs_step l (Resize i (zlen b')) (<[i := (this, b')]> l)
  | abs_store i j this b c : l !! i = Some (this, b) -> 0 <= j < zlen b -> abs_step l (Store i j c) (<[i := (this, <[Z.to_nat j := c]> b)]> l).

Lemma bytes_of_zlen w a : 0 <= a_bytes a -> zlen (bytes_of w a) = a_bytes a.
Proof using. intros Ha. unfold zlen, bytes_of. rewrite load_bytes_length. lia. Qed.
Lemma contents_same st w' l : (forall i a, held st !! i = Some a -> bytes_of w' a = bytes_of (world st) a) -> array_contents (MkState w' l (held st)) = array_contents st.
Proof using. intros Hb. apply list_fmap_ext. intros i a Hi. cbn. by rewrite (Hb i a Hi). Qed.
Lemma contents_cons st w' l a : (forall i a, held st !! i = Some a -> bytes_of w' a = bytes_of (world st) a) ->
  array_contents (MkState w' l (a :: held st)) = (a_zone a, bytes_of w' a) :: array_contents st.
Proof using. intros Hb. unfold array_contents at 1. cbn [held world]. rewrite fmap_cons. f_equal. by apply (contents_same st w' l). Qed.
Lemma contents_insert st w' l i a : (forall i a, held st !! i = Some a -> bytes_of w' a = bytes_of (world st) a) ->
  array_contents (MkState w' l (<[i := a]> (held st))) = <[i := (a_zone a, bytes_of w' a)]> (array_contents st).
Proof using. intros Hb. unfold array_contents at 1. cbn [held world]. rewrite list_fmap_insert. f_equal. by apply (contents_same st w' l). Qed.
Lemma contents_filter w (l : list Array) this : (fun a => (a_zone a, bytes_of w a)) <$> filter (fun a => a_zone a <> this) l = filter (fun a => a.1 <> this) ((fun a => (a_zone a, bytes_of w a)) <$> l).
Proof using. induction l as [|a l IH]; [done|]. rewrite fmap_cons, !filter_cons. cbn [fst]. destruct (decide (a_zone a <> this)); [|done]. by rewrite fmap_cons, IH. Qed.
Lemma array_nonneg w0 st sh i a : Inv w0 st sh -> held st !! i = Some a -> 0 <= a_bytes a.
Proof using.
  intros HI Hi. destruct (inv_held _ _ _ HI i a Hi) as [Hin Ha]. destruct (inv_zone _ _ _ HI _ Hin) as [z HZ].
  destruct (array_facts _ _ _ _ _ _ (inv_world _ _ _ HI) HZ Ha) as (_ & _ & ? & _). lia.
Qed.

Lemma stored_bytes w0 st sh i a j b : Inv w0 st sh -> held st !! i = Some a -> 0 <= j < a_bytes a ->
  let w' := with_mem (world st) (<[a_data a + j := b]> (mem (world st))) in
  bytes_of w' a = <[Z.to_nat j := b]> (bytes_of (world st) a) /\ forall i' a', held st !! i' = Some a' -> i' <> i -> bytes_of w' a' = bytes_of (world st) a'.
Proof using.
  intros HI Hi Hj w'. split.
  - apply list_eq. intros n. unfold bytes_of. destruct (decide (n < Z.to_nat (a_bytes a))%nat) as [Hn|Hn].
    + rewrite load_bytes_lookup by done. cbn [mem w' with_mem]. rewrite byte_at_insert. destruct (decide (n = Z.to_nat j)) as [->|Hne].
      * rewrite list_lookup_insert_eq by (rewrite load_bytes_length; lia). f_equal. destruct (Z.eqb_spec (a_data a + Z.of_nat (Z.to_nat j)) (a_data a + j)); [done|lia].
      * rewrite list_lookup_insert_ne, load_bytes_lookup by done. f_equal. destruct (Z.eqb_spec (a_data a + Z.of_nat n) (a_data a + j)); [lia|done].
    + rewrite !lookup_ge_None_2; [done|rewrite length_insert, load_bytes_length; lia|rewrite load_bytes_length; lia].
  - intros i' a' Hi' Hne. apply load_bytes_ext. intros x Hx. cbn [mem w' with_mem]. rewrite byte_at_insert. destruct (Z.eqb_spec x (a_data a + j)) as [->|]; [|done]. exfalso.
    pose proof (array_nonneg _ _ _ _ _ HI Hi').
    eapply (inv_apart _ _ _ HI i' i a' a Hi' Hi Hne (a_data a + j)); [eapply (held_bytes _ _ _ i')|eapply (held_bytes _ _ _ i)]; try done; lia.
Qed.
Lemma step_refines w0 st op st' sh : Inv w0 st sh -> step st op st' -> abs_step (array_contents st) op (array_contents st').
Proof using SMOk.
  intros HI Hs. destruct Hs as [this w' H8 H0 H47 Hn Hu E|this rest w' Hst E|this k len p w' Hin Hk Hl E|size p w' Hne Hs E|i this k od ol nl p w' Hi Hk Hol Hnl Hgrow E|i a j b Hi Hj].
  - destruct (Inv_enter w0 st sh this w') as [Hm _]; try done. rewrite contents_same; [constructor|]. intros i a _. unfold bytes_of. by rewrite Hm.
  - destruct (Inv_leave w0 st sh this rest HI Hst) as (w1 & E1 & Hm & _). rewrite E in E1. injection E1 as <-.
    assert (array_contents (MkState w' rest (filter (fun a => a_zone a <> this) (held st))) = filter (fun a => a.1 <> this) (array_contents st)) as ->; [|constructor].
    unfold array_contents. cbn [world held]. rewrite contents_filter. f_equal. apply list_fmap_ext. intros i a _. unfold bytes_of. by rewrite Hm.
  - destruct (inv_zone _ _ _ HI this Hin) as [z HZ]. eapply Alloc_ok in E; [|done|apply (inv_world _ _ _ HI)|done..]. destruct (Inv_allocated w0 st sh _ _ _ _ HI Hin E) as [_ Hb].
    rewrite <- (bytes_of_zlen w' (MkArray this p (len * k))) at 1 by (cbn; nia).
    rewrite contents_cons by done. cbn [a_zone]. constructor.
  - pose proof (top_zone _ _ _ HI Hne) as Hin. destruct (inv_zone _ _ _ HI _ Hin) as [z HZ]. eapply operator_new_ok in E; [|apply (inv_world _ _ _ HI)|done..].
    destruct (Inv_allocated w0 st sh _ _ _ _ HI Hin E) as [_ Hb]. unfold is_uint in Hs.
    rewrite <- (bytes_of_zlen w' (MkArray (thread_zone_ (world st)) p size)) at 1 by (cbn; lia).
    rewrite contents_cons by done. cbn [a_zone]. constructor.
  - destruct (inv_held _ _ _ HI i _ Hi) as [Hin Ha]. cbn in Hin, Ha. destruct (inv_zone _ _ _ HI _ Hin) as [z HZ].
    eapply Realloc_ok in E; [|done|apply (inv_world _ _ _ HI)|done..|intros Hlt; apply Hgrow; [apply (ok_zone _ _ _ _ HZ)|done]].
    destruct (Inv_reallocated w0 st sh i _ k _ _ _ _ _ HI Hi Hk Hol E) as [_ Hb]. destruct E as (_ & _ & _ & _ & _ & _ & _ & _ & Hcopy).
    rewrite <- (bytes_of_zlen w' (MkArray this p (nl * k))) at 1 by (cbn; nia).
    rewrite contents_insert by done. cbn [a_zone].
    apply (abs_resize _ i this (bytes_of (world st) (MkArray this od (ol * k)))); [unfold array_contents; by rewrite list_lookup_fmap, Hi|].
    unfold bytes_of. cbn [a_data a_bytes]. intros j c Hj Hc. pose proof (lookup_lt_Some _ _ _ Hc) as Hlt. rewrite load_bytes_length in Hlt, Hj.
    rewrite load_bytes_lookup in * by done. rewrite <- Hc. f_equal. apply Hcopy. nia.
  - destruct (stored_bytes w0 st sh i a j b HI Hi Hj) as [E1 E2]. set (w' := with_mem _ _) in *.
    assert (array_contents (MkState w' (stack st) (held st)) = <[i := (a_zone a, <[Z.to_nat j := b]> (bytes_of (world st) a))]> (array_contents st)) as ->.
    { unfold array_contents. cbn [held world]. apply list_eq. intros n. rewrite list_lookup_fmap. destruct (decide (n = i)) as [->|Hne].
      - rewrite Hi, list_lookup_insert_eq by (rewrite length_fmap; by eapply lookup_lt_Some). cbn. by rewrite E1.
      - rewrite list_lookup_insert_ne, list_lookup_fmap by done. destruct (held st !! n) as [a'|] eqn:Hn; [|done]. cbn. by rewrite (E2 n a'). }
    constructor; [unfold array_contents; by rewrite list_lookup_fmap, Hi|]. rewrite bytes_of_zlen; [done|lia].
Qed.

(** ** Theorems *)
(** C22: For a thread that enters and leaves zones, allocates arrays and objects in any of its
    zones, resizes them and writes to them, zones behave as if every array had
    memory of its own: a new array is an array of the size asked for; resizing
    keeps the elements up to the smaller size, whether the array grows in
    place or moves (shrinking the last array of a zone, which would happen in place, is left out:
    [Realloc] asserts against it); a write changes one byte of one array; leaving a zone drops its arrays
    and no others. Arrays are aligned to 8 bytes, lie in memory that belongs to the process,
    and do not overlap, padding included. *)
Theorem Zone_refines w0 st op st' : World_ok w0 -> zones w0 = ∅ -> reachable w0 st -> step st op st' ->
  abs_step (array_contents st) op (array_contents st') /\
  (forall i a, held st' !! i = Some a -> (8 | a_data a) /\ forall x, within (a_extent a) x -> in_use (world st') x) /\
  (forall i j a b, held st' !! i = Some a -> held st' !! j = Some b -> i <> j -> separate (a_extent a) (a_extent b)).
Proof using SMOk.
  intros HW Hz Hr Hs. destruct (reachable_Inv w0 st HW Hz Hr) as [sh HI]. destruct (Inv_step w0 st op st' sh HI Hs) as [sh' HI'].
  split; [by eapply step_refines|]. split; [|by apply (inv_apart _ _ _ HI')]. intros i a Hi. destruct (inv_held _ _ _ HI' i a Hi) as [Hin Ha].
  destruct (inv_zone _ _ _ HI' _ Hin) as [z HZ]. destruct (array_facts _ _ _ _ _ _ (inv_world _ _ _ HI') HZ Ha) as (H8 & _). split; [done|].
  intros x Hx. by apply (held_not_free w0 st' sh' i a x (a_zone a)).
Qed.
(** C23: The innermost zone can always be left: walking the lists of segments in memory, which
    clients have written to since, frees each block once and nothing that is
    not allocated. When all zones have been left, the blocks of [malloc] and the
    [VirtualMemory] objects are those from before the first zone was
    entered, the thread has its old zone, and its counter of zone memory is back where it was. *)
Theorem Zone_releases w0 st : World_ok w0 -> zones w0 = ∅ -> reachable w0 st ->
  (forall this rest, stack st = this :: rest -> exists st', step st (Leave this) st') /\
  (stack st = [] -> blocks (world st) = blocks w0 /\ vms (world st) = vms w0 /\ zones (world st) = ∅ /\ thread_zone_ (world st) = thread_zone_ w0 /\
    forall c0, current_thread w0 = Some c0 -> exists c, current_thread (world st) = Some c /\ u64 (current_zone_capacity_ c) = u64 (current_zone_capacity_ c0)).
Proof using SMOk.
  intros HW Hz Hr. destruct (reachable_Inv w0 st HW Hz Hr) as [sh HI]. split.
  - intros this rest Hst. destruct (Inv_leave w0 st sh this rest HI Hst) as (w' & E & _). eexists. by eapply step_leave.
  - intros Hst. pose proof (inv_blocks _ _ _ HI) as HB. pose proof (inv_vms _ _ _ HI) as HV. pose proof (inv_chain _ _ _ HI) as HC. pose proof (inv_capacity _ _ _ HI) as HP.
    rewrite Hst in HB, HV, HC, HP. split; [|split; [|split; [|split; [done|]]]].
    + apply map_eq. intros a. destruct (keys_base _ _ _ _ HB a) as [[(t & Ht%not_elem_of_nil & _) _]|[_ E]]; done.
    + apply map_eq. intros a. destruct (keys_base _ _ _ _ HV a) as [[(t & Ht%not_elem_of_nil & _) _]|[_ E]]; done.
    + apply map_eq. intros t. rewrite lookup_empty. destruct (zones (world st) !! t) as [z|] eqn:E; [|done].
      pose proof (inv_zones _ _ _ HI t ltac:(by rewrite E)) as Hin. rewrite Hst in Hin. by apply not_elem_of_nil in Hin.
    + intros c0 Hc0. destruct (HP c0 Hc0) as (c & Hc & E). exists c. split; [done|]. rewrite E. f_equal. unfold total_capacity. cbn. lia.
Qed.

(** Allocation fails only for sizes near the largest integer or when the system has no more memory. *)
Theorem AllocUnsafe_fails w this z g size : Zone_ok w this z g -> 0 <= size -> AllocUnsafe this size w = None ->
  kIntptrMax - kAlignment < size \/ malloc w kSegmentSize = None \/ exists n, VirtualMemory_Allocate w n = None.
Proof using.
  intros HZ Hs. unfold AllocUnsafe, AllocateExpand, AllocateLargeSegment, Segment_New, Segment_NewLarge. rewrite (ok_zone _ _ _ _ HZ). cbn [mbind option_bind].
  zif; [intros _; left; lia|]. zif; [done|]. zif.
  - destruct (VirtualMemory_Allocate w _) as [[[h a] m]|] eqn:E'; [done|]. intros _. right; right. eauto.
  - destruct (malloc w kSegmentSize) as [[a m]|]; [done|]. auto.
Qed.
(** The chain of zones is the stack. *)
Lemma zone_in_chain_spec zs l : forall fuel p t, zone_chain zs p l 0 -> (forall u, u ∈ l -> u <> 0) -> (length l < fuel)%nat ->
  zone_in_chain fuel zs p t = Some (bool_decide (t ∈ l)).
Proof using.
  induction l as [|u l IH]; intros [|fuel] p t Hc H0 Hf; try (cbn in Hf; lia); cbn [zone_in_chain].
  - cbn in Hc. rewrite Hc. done.
  - destruct Hc as (-> & z & Hz & Hc). destruct (Z.eqb_spec u 0) as [->|_]; [by destruct (H0 0); [left|]|]. destruct (Z.eqb_spec u t) as [->|Hne].
    + rewrite bool_decide_eq_true_2; [done|by left].
    + rewrite Hz. cbn [mbind option_bind]. rewrite IH; [|done|intros v Hv; apply H0; by right|cbn in Hf; lia]. f_equal. apply bool_decide_ext. rewrite elem_of_cons. naive_solver.
Qed.
Theorem ZoneIsOwnedByThread_exact w0 st t : World_ok w0 -> zones w0 = ∅ -> thread_zone_ w0 = 0 -> reachable w0 st ->
  ZoneIsOwnedByThread t (world st) = Some (bool_decide (t ∈ stack st)).
Proof using SMOk.
  intros HW Hz H0 Hr. destruct (reachable_Inv w0 st HW Hz Hr) as [sh HI]. pose proof (inv_chain _ _ _ HI) as HC. rewrite H0 in HC.
  apply zone_in_chain_spec; [done|..].
  - intros u Hu. destruct (inv_zone _ _ _ HI u Hu) as [z HZ]. destruct (this_range _ _ _ _ (inv_world _ _ _ HI) HZ). lia.
  - apply le_n_S, keys_length; [apply (inv_nodup _ _ _ HI)|]. intros a Ha. destruct (inv_zone _ _ _ HI a Ha) as [z HZ]. by rewrite (ok_zone _ _ _ _ HZ).
Qed.
End Clients.

(** ** A system allocator

    It hands out memory above everything in use. *)
Definition all_regions (w : World) : list (Z * Z) :=
  map_to_list (blocks w) ++ (snd <$> map_to_list (vms w)) ++ ((fun z => (z.1, kInitialChunkSize)) <$> map_to_list (zones w)).
Definition top_of (l : list (Z * Z)) : Z := foldr (fun r m => Z.max m (Z.max r.1 (r.1 + r.2))) 0 l.
Definition above_all (w : World) (align : Z) : Z := (top_of (all_regions w) / align + 1) * align.
Definition fresh_handle (w : World) : Z := foldr (fun e m => Z.max m (e.1 + 1)) 1 (map_to_list (vms w)).
#[export] Instance bump_memory : SystemMemory := {|
  PageSize := 4096;
  malloc w n := let a := above_all w 16 in if (0 <=? n) && (a + n <=? 2 ^ 47) then Some (a, mem w) else None;
  VirtualMemory_Allocate w n :=
    let a := above_all w 4096 in if (0 <=? n) && (a + n <=? 2 ^ 47) && (fresh_handle w <? 2 ^ 47) then Some (fresh_handle w, a, mem w) else None |}.

Lemma top_of_le l r : r ∈ l -> r.1 <= top_of l /\ r.1 + r.2 <= top_of l.
Proof. induction l as [|s l IH]; [by intros ?%not_elem_of_nil|]. intros [->|Hr]%elem_of_cons; cbn [top_of foldr]; [lia|]. specialize (IH Hr). fold (top_of l). lia. Qed.
Lemma top_of_nonneg l : 0 <= top_of l.
Proof. induction l as [|s l IH]; [done|]. cbn [top_of foldr]. fold (top_of l). lia. Qed.
Lemma above_spec w align : 0 < align -> (align | above_all w align) /\ top_of (all_regions w) < above_all w align.
Proof. intros Ha. split; [apply Z.divide_factor_r|]. unfold above_all. pose proof (Z.mod_pos_bound (top_of (all_regions w)) align Ha). pose proof (Z.div_mod (top_of (all_regions w)) align). lia. Qed.
Lemma region_listed w o r : region w o = Some r -> r ∈ all_regions w.
Proof.
  unfold all_regions. rewrite !elem_of_app. destruct o as [a|h|t]; cbn; intros H.
  - left. apply fmap_Some in H as (n & Hn & ->). by apply elem_of_map_to_list.
  - right; left. apply list_elem_of_fmap. exists (h, r). split; [done|]. by apply elem_of_map_to_list.
  - right; right. apply fmap_Some in H as (z & Hz & ->). apply list_elem_of_fmap. exists (t, z). split; [done|]. by apply elem_of_map_to_list.
Qed.
Lemma above_fresh w align n : 0 < align -> 0 <= n -> above_all w align + n <= 2 ^ 47 -> fresh_region w (mem w) align (above_all w align) n.
Proof.
  intros Ha Hn Hb. destruct (above_spec w align Ha) as [Hd Ht]. pose proof (top_of_nonneg (all_regions w)). split; try done; [lia|].
  intros x Hx (o & r & Hr%region_listed%top_of_le & Hrx). unfold within in *. cbn in *. lia.
Qed.
Lemma fresh_handle_spec w : vms w !! fresh_handle w = None /\ 0 < fresh_handle w.
Proof.
  unfold fresh_handle. split.
  - destruct (vms w !! _) as [r|] eqn:E; [|done]. apply elem_of_map_to_list in E. exfalso. revert E.
    enough (forall l h (r : Z * Z), (h, r) ∈ l -> h < foldr (fun (e : Z * (Z * Z)) m => Z.max m (e.1 + 1)) 1 l) as H by (intros E%H; lia).
    clear. intros l. induction l as [|e l IH]; intros h r; [by intros ?%not_elem_of_nil|]. intros [<-|H]%elem_of_cons; cbn; [lia|]. specialize (IH h r H). lia.
  - generalize (map_to_list (vms w)) as l. clear. intros l. induction l as [|e l IH]; cbn; lia.
Qed.
#[export] Instance bump_memory_ok : SystemMemoryOk.
Proof.
  split.
  - exists 12. split; [lia|done].
  - intros w n a m. cbn. zif; [|done]. intros [= <- <-]. split; [|apply above_fresh; lia].
    destruct (blocks w !! above_all w 16) as [k|] eqn:Hk; [|done]. destruct (above_spec w 16 ltac:(lia)) as [_ Ht].
    destruct (top_of_le (all_regions w) (above_all w 16, k)) as [H1 _]; [apply (region_listed w (OfBlock (above_all w 16))); cbn; by rewrite Hk|]. cbn in H1. lia.
  - intros w n h a m. cbn [VirtualMemory_Allocate bump_memory]. destruct (_ && (fresh_handle w <? 2 ^ 47)) eqn:Hc; [|done]. zbool. intros [= <- <- <-].
    destruct (fresh_handle_spec w). split; [done|]. split; [lia|]. apply above_fresh; cbn; lia.
Qed.

(** ** Example: an array that grows in place and one that moves *)
Definition start_world : World := MkWorld ∅ ∅ ∅ ∅ 0 (Some (MkCapacity 0 0)) false 0.
Definition run_op (f : World -> option World) (w : World) : World := default w (f w).
Definition example_entered : World := run_op (StackZone_new 4096) start_world.
Definition example_alloc (w : World) (k len : Z) : Z * World := default (0, w) (Alloc 4096 k len w).
Definition example_1 : State := let '(p, w) := example_alloc example_entered 1 10 in MkState w [4096] [MkArray 4096 p 10].
Definition example_2 : State := MkState (with_mem (world example_1) (<[4096 + 9 := 7]> (mem (world example_1)))) [4096] (held example_1).
Definition example_3 : State := let '(p, w) := example_alloc (world example_2) 8 10000 in MkState w [4096] (MkArray 4096 p 80000 :: held example_2).
Definition example_4 : State :=
  let '(p, w) := default (0, world example_3) (Realloc 4096 1 4096 10 2000 (world example_3)) in MkState w [4096] (<[1%nat := MkArray 4096 p 2000]> (held example_3)).
Lemma start_ok : World_ok start_world.
Proof. split; by intros []. Qed.
Lemma step_to st op st1 st2 : step st op st1 -> st1 = st2 -> step st op st2.
Proof. by intros ? <-. Qed.
Lemma example_zone_reachable : reachable start_world example_3.
Proof.
  apply rtc_l with (MkState example_entered [4096] []).
  { eexists. apply (step_enter (MkState start_world [] []) 4096 example_entered); [by exists 512|lia|unfold kInitialChunkSize; cbn; lia|done|by intros x _ (o & r & Hr & _); destruct o|vm_compute; reflexivity]. }
  apply rtc_l with example_1.
  { eexists. eapply step_to; [apply (step_alloc _ 4096 1 10 4096 (world example_1)); [by left|lia|lia|vm_compute; reflexivity]|vm_compute; reflexivity]. }
  apply rtc_l with example_2.
  { eexists. eapply step_to; [apply (step_write example_1 0 (MkArray 4096 4096 10) 9 7); [vm_compute; reflexivity|cbn; lia]|vm_compute; reflexivity]. }
  apply rtc_once. eexists. eapply step_to; [apply (step_alloc example_2 4096 8 10000 (a_data (default (MkArray 0 0 0) (held example_3 !! 0%nat))) (world example_3)); [by left|lia|lia|vm_compute; reflexivity]|vm_compute; reflexivity].
Qed.
Lemma example_moves : step example_3 (Resize 1 2000) example_4.
Proof.
  apply (step_to _ (Resize 1 (2000 * 1)) (MkState (world example_4) (stack example_3) (<[1%nat := MkArray 4096 (a_data (default (MkArray 0 0 0) (held example_4 !! 1%nat))) (2000 * 1)]> (held example_3)))); [|vm_compute; reflexivity].
  apply (step_realloc example_3 1 4096 1 4096 10 2000); [vm_compute; reflexivity|lia|lia|lia|lia|vm_compute; reflexivity].
Qed.
Lemma Zone_refines_witness : abs_step (array_contents example_3) (Resize 1 2000) (array_contents example_4) /\ byte_at (mem (world example_4)) (a_data (default (MkArray 0 0 0) (held example_4 !! 1%nat)) + 9) = 7.
Proof. split; [apply (Zone_refines start_world example_3 (Resize 1 2000) example_4 start_ok eq_refl example_zone_reachable example_moves)|vm_compute; reflexivity]. Defined.
Lemma Zone_releases_witness : stack example_3 = [4096] /\ exists st', step example_3 (Leave 4096) st'.
Proof. split; [vm_compute; reflexivity|]. apply (Zone_releases start_world example_3 start_ok eq_refl example_zone_reachable) with []. vm_compute. reflexivity. Defined.

(** ** Sizes *)
Lemma segments_size_seg m l : forall fuel p n, seg_chain m p l -> (forall s, s ∈ l -> s <> 0) -> (length l < fuel)%nat -> is_uint 64 n ->
  segments_size fuel m p n = Some (u64 (n + kSegmentSize * Z.of_nat (length l))).
Proof.
  induction l as [|s l IH]; intros [|fuel] p n Hc H0 Hf Hn; try (cbn in Hf; lia); cbn [segments_size].
  - cbn in Hc. rewrite Hc. cbn. rewrite Z.add_0_r. by rewrite uwrap_id.
  - destruct Hc as (-> & Hs & Hc). destruct (Z.eqb_spec s 0) as [->|_]; [by destruct (H0 0); [left|]|]. rewrite Hs.
    rewrite IH; [|done|intros t Ht; apply H0; by right|cbn in Hf; lia|apply uwrap_range; lia]. f_equal. unfold uwrap. rewrite Zplus_mod_idemp_l. f_equal. cbn [length]. lia.
Qed.
Lemma segments_size_large m l : forall fuel p n, large_chain m p l -> (forall s, s ∈ l -> large_start s <> 0) -> (length l < fuel)%nat -> is_uint 64 n ->
  segments_size fuel m p n = Some (u64 (n + foldr Z.add 0 (large_size <$> l))).
Proof.
  induction l as [|s l IH]; intros [|fuel] p n Hc H0 Hf Hn; try (cbn in Hf; lia); cbn [segments_size].
  - cbn in Hc. rewrite Hc. cbn. rewrite Z.add_0_r. by rewrite uwrap_id.
  - destruct Hc as (-> & Hs & Hm & Hc). destruct (Z.eqb_spec (large_start s) 0) as [E|_]; [by destruct (H0 s); [left|]|]. rewrite Hs.
    rewrite IH; [|done|intros t Ht; apply H0; by right|cbn in Hf; lia|apply uwrap_range; lia]. f_equal. unfold uwrap. rewrite Zplus_mod_idemp_l. f_equal. rewrite fmap_cons. cbn [foldr]. lia.
Qed.
Lemma u64_add_l a b : u64 (u64 a + b) = u64 (a + b).
Proof. unfold uwrap. apply Zplus_mod_idemp_l. Qed.
(** [CapacityInBytes] is all memory that the zone has taken, [SizeInBytes] the same without
    the free part and the header of the current segment. *)
Theorem Zone_sizes w this z g : World_ok w -> Zone_ok w this z g ->
  CapacityInBytes this w = Some (u64 (capacity g)) /\
  SizeInBytes this w = Some (u64 (capacity g - (limit_ z - position_ z) - (if head_ z =? 0 then 0 else sizeof_Segment))).
Proof.
  intros HW HZ. unfold CapacityInBytes, SizeInBytes. rewrite (ok_zone _ _ _ _ HZ). cbn [mbind option_bind].
  pose proof (ok_segs _ _ _ _ HZ) as Hc. pose proof (ok_limit _ _ _ _ HZ) as Hl. unfold current_end in Hl.
  assert (Hs0 : forall s, s ∈ segs g -> s <> 0) by (intros s Hs; destruct (seg_range _ _ _ _ HW HZ s Hs); lia).
  assert (Hfuel : (length (segs g) < S (size (blocks w)))%nat).
  { apply le_n_S, keys_length; [apply (ok_segs_nodup _ _ _ _ HZ)|]. intros s Hs. destruct (ok_seg_blocks _ _ _ _ HZ s Hs) as [_ ->]. done. }
  rewrite (segments_size_large _ (larges g)); [|apply (ok_larges _ _ _ _ HZ)|intros s Hs; destruct (large_range _ _ _ _ HW HZ s Hs); lia| |unfold is_uint; lia].
  2:{ apply le_n_S. rewrite <- (length_fmap large_memory). apply keys_length; [apply (ok_larges_nodup _ _ _ _ HZ)|]. intros h (l & -> & Hl')%list_elem_of_fmap.
      destruct (ok_large_vms _ _ _ _ HZ l Hl') as (_ & _ & _ & ->). done. }
  cbn [mbind option_bind]. unfold capacity. destruct (segs g) as [|s l] eqn:Es.
  - cbn in Hc. rewrite Hc. cbn [Z.eqb]. rewrite !u64_add_l. split; apply (f_equal (fun x => Some (u64 x))); cbn [length]; unfold kInitialChunkSize in *; lia.
  - destruct (Z.eqb_spec (head_ z) 0) as [E0|_]; [by destruct (Hs0 (head_ z)); [destruct Hc as [-> _]; left|]|].
    pose proof Hc as (Eh & Hss & Hn). split.
    + rewrite (segments_size_seg _ (s :: l)); [|done|done|done|apply uwrap_range; lia]. rewrite !u64_add_l, <- Z.add_assoc, u64_add_l. apply (f_equal (fun x => Some (u64 x))). cbn [length]. lia.
    + rewrite Eh. rewrite (segments_size_seg _ l); [|done|intros t Ht; apply Hs0; by right|cbn in Hfuel; lia|apply uwrap_range; lia]. cbn [mbind option_bind].
      destruct (seg_range _ _ _ _ HW HZ s) as (_ & ? & ?); [rewrite Es; by left|]. unfold kSegmentSize in *. rewrite Segment_start_eq by lia.
      rewrite !u64_add_l, <- !Z.add_assoc, !u64_add_l. apply (f_equal (fun x => Some (u64 x))). cbn [length]. unfold sizeof_Segment, kInitialChunkSize in *. lia.
Qed.
