(* ===== verification/ZoneStrings.v ===== *)
(** * Strings in zones (src/runtime/vm/zone.cc)

    [MakeCopyOfString], [MakeCopyOfStringN] and [ConcatStrings] of Zone.v on
    strings that lie in memory in use. [ConcatStrings] writes one byte more than it
    has asked for when its first string is not empty. *)
From stdpp Require Import gmap.
From S2P Require Import Prelude Utils Zone ZoneStack.
Local Open Scope Z_scope.
Local Open Scope vm_scope.

(** The characters [s] and a terminator at [p]. *)
Record cstring (m : memory) (p : Z) (s : list Z) : Prop := {
  cstring_chars : load_bytes m p (length s) = s;
  cstring_nonzero : Forall (fun c => c <> 0) s;
  cstring_end : byte_at m (p + zlen s) = 0 }.
(** Bytes that an allocation in [this] leaves alone. *)
Definition readable (w : World) (this p n : Z) : Prop := forall x, p <= x < p + n -> in_use w x /\ ~ free_of w this x.

Lemma cstring_cons m p c s : cstring m p (c :: s) <-> byte_at m p = c /\ c <> 0 /\ cstring m (p + 1) s.
Proof.
  split.
  - intros [Hc Hn He]. cbn in Hc. injection Hc as Hc1 Hc2. apply list.Forall_cons in Hn as [Hn1 Hn2]. split; [done|]. split; [done|]. split; [done|done|].
    rewrite <- He. f_equal. unfold zlen. cbn [length]. lia.
  - intros (Hb & Hn & [Hc Hn' He]). split; [cbn; by rewrite Hb, Hc|by constructor|]. rewrite <- He. f_equal. unfold zlen. cbn [length]. lia.
Qed.
Lemma cstring_ext m m' p s : (forall x, p <= x < p + zlen s + 1 -> byte_at m x = byte_at m' x) -> cstring m p s -> cstring m' p s.
Proof.
  intros Hx [Hc Hn He]. split; [|done|].
  - rewrite <- Hc at 2. symmetry. apply load_bytes_ext. intros x Hr. apply Hx. unfold zlen. lia.
  - rewrite <- He. symmetry. apply Hx. unfold zlen. lia.
Qed.

(** ** The C library *)
Lemma strlen_from_spec m s : forall fuel p, cstring m p s -> (length s < fuel)%nat -> strlen_from fuel m p = Some (zlen s).
Proof.
  induction s as [|c s IH]; intros [|fuel] p Hs Hf; try (cbn in Hf; lia); cbn [strlen_from].
  - pose proof (cstring_end _ _ _ Hs) as He. unfold zlen in He. cbn in He. rewrite Z.add_0_r in He. by rewrite He.
  - apply cstring_cons in Hs as (Hb & Hn & Hs). rewrite Hb. destruct (Z.eqb_spec c 0); [done|]. rewrite (IH fuel) by (done || (cbn in Hf; lia)).
    cbn [mbind option_bind]. unfold zlen. cbn [length]. f_equal. lia.
Qed.
Lemma byte_at_key m a : byte_at m a <> 0 -> is_Some (m !! a).
Proof. unfold byte_at. by destruct (m !! a). Qed.
Lemma strlen_spec m p s : cstring m p s -> strlen m p = Some (zlen s).
Proof.
  intros Hs. apply strlen_from_spec; [done|]. apply le_n_S. rewrite <- (length_seq (length s) 0), <- (length_fmap (fun i => p + Z.of_nat i)).
  apply keys_length.
  - apply NoDup_fmap_2; [intros i j; lia|]. apply NoDup_ListNoDup, seq_NoDup.
  - intros a (i & -> & Hi)%list_elem_of_fmap. apply elem_of_seq in Hi. apply byte_at_key. pose proof (cstring_chars _ _ _ Hs) as Hc.
    pose proof (cstring_nonzero _ _ _ Hs) as Hn. rewrite list.Forall_lookup in Hn. apply (Hn i). rewrite <- Hc at 1. rewrite load_bytes_lookup by lia. done.
Qed.
Lemma strncpy_bytes_spec m s : forall p, cstring m p s -> strncpy_bytes m p (length s) = s /\ strncpy_bytes m p (S (length s)) = s ++ [0].
Proof.
  induction s as [|c s IH]; intros p Hs.
  - split; [done|]. pose proof (cstring_end _ _ _ Hs) as He. unfold zlen in He. cbn in He. rewrite Z.add_0_r in He. cbn. by rewrite He.
  - apply cstring_cons in Hs as (Hb & Hn & Hs). destruct (IH _ Hs) as [E1 E2]. cbn [length strncpy_bytes] in *. rewrite Hb. destruct (Z.eqb_spec c 0); [done|].
    split; [by rewrite E1|]. cbn [app]. by rewrite E2.
Qed.
Lemma store_bytes_app l1 l2 : forall m a, store_bytes m a (l1 ++ l2) = store_bytes (store_bytes m a l1) (a + zlen l1) l2.
Proof.
  induction l1 as [|b l1 IH]; intros m a; cbn [app store_bytes]; [unfold zlen; cbn; by rewrite Z.add_0_r|]. rewrite IH. f_equal. unfold zlen. cbn [length]. lia.
Qed.
(** A string that has been written can be read. *)
Lemma cstring_stored m p s : Forall (fun c => c <> 0) s -> cstring (store_bytes m p (s ++ [0])) p s.
Proof.
  intros Hn. split; [|done|].
  - rewrite store_bytes_app. rewrite (load_bytes_ext _ (store_bytes m p s)); [apply load_store_bytes|]. intros x Hx. apply byte_at_store_out. unfold zlen. lia.
  - unfold zlen. apply byte_at_store_in. apply list_lookup_middle. done.
Qed.

(** ** Copies *)
Section Strings.
Context `{SM : SystemMemory} {SMOk : SystemMemoryOk}.
Context (w : World) (this : Z) (z : Zone) (g : Shape) (HW : World_ok w) (HZ : Zone_ok w this z g).

(** Strings are still there after an allocation, and not in the new chunk. *)
Lemma string_kept p n w1 str s : Allocated this g p n w w1 -> cstring (mem w) str s -> readable w this str (zlen s + 1) -> cstring (mem w1) str s.
Proof using.
  intros (_ & _ & _ & _ & _ & _ & Hmem & _) Hs Hr. eapply cstring_ext, Hs. intros x Hx. symmetry. apply Hmem, Hr. lia.
Qed.
Lemma string_apart p n w1 str s l : Allocated this g p n w w1 -> 0 <= n -> n <= 2 ^ 47 -> cstring (mem w) str s -> readable w this str (zlen s + 1) -> zlen l <= n ->
  cstring (store_bytes (mem w1) p l) str s.
Proof using.
  intros HA Hn Hn' Hs Hr Hl. pose proof HA as (_ & _ & _ & _ & _ & _ & _ & Hnew). eapply cstring_ext; [|by eapply string_kept]. intros x Hx. symmetry. apply byte_at_store_out.
  destruct (Z.lt_ge_cases x p) as [|H1]; [by left|]. destruct (Z.lt_ge_cases x (p + zlen l)) as [H2|]; [|by right]. exfalso.
  destruct (Hr x ltac:(lia)) as [Hu Hf]. apply Hf, Hnew; [|done]. destruct (RoundUp_spec_8 n) as [_ Hround]; [unfold kIntptrMax, kAlignment; lia|]. unfold within, extent; cbn; lia.
Qed.
Lemma Allocated_size p n w1 : Allocated this g p n w w1 -> 0 <= n <= 2 ^ 47.
Proof using.
  intros (z' & g' & HW1 & HZ1 & _ & Hch & _). destruct (chunk_facts _ _ _ _ (p, n) HW1 HZ1) as (_ & _ & Hn & _); [rewrite Hch; by left|]. done.
Qed.
(** A copy of [s] in a chunk of its own. *)
Definition Copied (copy : Z) (s : list Z) (w' : World) : Prop :=
  exists z' g', World_ok w' /\ Zone_ok w' this z' g' /\ Extends this g g' w w' /\ chunks g' = (copy, zlen s + 1) :: chunks g /\ cstring (mem w') copy s.
Lemma MakeCopyOfString_ok str s copy w' : cstring (mem w) str s -> readable w this str (zlen s + 1) -> MakeCopyOfString this str w = Some (copy, w') -> Copied copy s w'.
Proof using SMOk HW HZ.
  intros Hs Hr. unfold MakeCopyOfString. rewrite (strlen_spec _ _ _ Hs). cbn [mbind option_bind].
  destruct (Alloc this 1 (zlen s + 1) w) as [[p w1]|] eqn:HA; [|done]. cbn [mbind option_bind]. intros [= <- <-].
  eapply Alloc_ok in HA; [|lia|done..|unfold zlen; lia]. rewrite Z.mul_1_r in HA.
  unfold strncpy. replace (Z.to_nat (zlen s + 1)) with (S (length s)) by (unfold zlen; lia). rewrite (proj2 (strncpy_bytes_spec _ _ _ (string_kept _ _ _ _ _ HA Hs Hr))).
  destruct (write_chunk w this g p (zlen s + 1) w1 (s ++ [0]) HW HA) as (z' & g' & H1 & H2 & H3 & H4); [rewrite zlen_app; unfold zlen; cbn; lia|].
  exists z', g'. repeat (split; [done|]). apply cstring_stored, (cstring_nonzero _ _ _ Hs).
Qed.

(** The characters before the first zero. *)
Fixpoint upto_zero (l : list Z) : list Z := match l with [] => [] | c :: l => if c =? 0 then [] else c :: upto_zero l end.
Lemma find_end_spec m str n : forall i, find_end m str i n = i + zlen (upto_zero (load_bytes m (str + i) n)).
Proof using.
  induction n as [|n IH]; intros i; cbn [find_end load_bytes upto_zero]; [unfold zlen; cbn; lia|].
  destruct (byte_at m (str + i) =? 0); [unfold zlen; cbn; lia|]. rewrite IH. replace (str + (i + 1)) with (str + i + 1) by lia. unfold zlen. cbn [length]. lia.
Qed.
Lemma upto_zero_prefix l : exists r, l = upto_zero l ++ r.
Proof using. induction l as [|c l [r IH]]; cbn; [by exists []|]. destruct (c =? 0); [by exists (c :: l)|]. exists r. cbn. by rewrite <- IH. Qed.
Lemma upto_zero_nonzero l : Forall (fun c => c <> 0) (upto_zero l).
Proof using. induction l as [|c l IH]; cbn; [by constructor|]. destruct (Z.eqb_spec c 0); [by constructor|by constructor]. Qed.
Lemma strncpy_bytes_prefix m n : forall p, Forall (fun c => c <> 0) (load_bytes m p n) -> strncpy_bytes m p n = load_bytes m p n.
Proof using.
  induction n as [|n IH]; intros p Hf; [done|]. cbn in *. apply list.Forall_cons in Hf as [H1 H2]. destruct (Z.eqb_spec (byte_at m p) 0); [done|]. by rewrite IH.
Qed.
Lemma load_bytes_prefix m n : forall p k, (k <= n)%nat -> load_bytes m p k = take k (load_bytes m p n).
Proof using. induction n as [|n IH]; intros p [|k] Hk; try lia; try reflexivity. cbn. f_equal. apply IH. lia. Qed.
Lemma MakeCopyOfStringN_ok str len copy w' : 0 <= len < kIntptrMax -> readable w this str len -> MakeCopyOfStringN this str len w = Some (copy, w') ->
  Copied copy (upto_zero (load_bytes (mem w) str (Z.to_nat len))) w'.
Proof using SMOk HW HZ.
  intros Hlen Hr. unfold MakeCopyOfStringN. rewrite find_end_spec, Z.add_0_r, Z.add_0_l. set (s := upto_zero _).
  assert (Hs : zlen s <= len) by (destruct (upto_zero_prefix (load_bytes (mem w) str (Z.to_nat len))) as [r Hpre]; fold s in Hpre; apply (f_equal length) in Hpre;
    rewrite load_bytes_length, length_app in Hpre; unfold zlen; lia).
  pose proof (zlen_nonneg s). unfold kIntptrMax in Hlen. rewrite swrap_id by (unfold is_sint; lia).
  destruct (Alloc this 1 (zlen s + 1) w) as [[p w1]|] eqn:HA; [|done]. cbn [mbind option_bind]. intros [= <- <-].
  eapply Alloc_ok in HA; [|lia|done..|lia]. rewrite Z.mul_1_r in HA.
  assert (Hload : load_bytes (mem w1) str (length s) = s).
  { pose proof HA as (_ & _ & _ & _ & _ & _ & Hmem & _). rewrite (load_bytes_ext _ (mem w)) by (intros x Hx; apply Hmem, Hr; unfold zlen in *; lia).
    rewrite (load_bytes_prefix _ (Z.to_nat len)) by (unfold zlen in *; lia). destruct (upto_zero_prefix (load_bytes (mem w) str (Z.to_nat len))) as [r Hpre]. fold s in Hpre. rewrite Hpre. apply take_app_length. }
  assert (E : put_char (p + zlen s) 0 (strncpy p str (zlen s) w1) = with_mem w1 (store_bytes (mem w1) p (s ++ [0]))).
  { unfold put_char, strncpy. cbn [mem with_mem]. replace (Z.to_nat (zlen s)) with (length s) by (unfold zlen; lia).
    rewrite strncpy_bytes_prefix by (rewrite Hload; apply upto_zero_nonzero). rewrite Hload, store_bytes_app. done. }
  rewrite E. destruct (write_chunk w this g p (zlen s + 1) w1 (s ++ [0]) HW HA) as (z' & g' & H1 & H2 & H3 & H4); [rewrite zlen_app; unfold zlen; cbn; lia|].
  exists z', g'. repeat (split; [done|]). apply cstring_stored, upto_zero_nonzero.
Qed.
End Strings.

(** ** Concatenation *)
Section Concat.
Context `{SM : SystemMemory} {SMOk : SystemMemoryOk}.

(** What [ConcatStrings] puts together. *)
Definition joined (a : list Z) (join : Z) (b : list Z) : list Z := match a with [] => b | _ => a ++ [join] ++ b end.
Lemma ConcatStrings_stores w this z g a b join sa sb copy w' : World_ok w -> Zone_ok w this z g ->
  (a = 0 /\ sa = [] \/ a <> 0 /\ cstring (mem w) a sa /\ readable w this a (zlen sa + 1)) -> cstring (mem w) b sb -> readable w this b (zlen sb + 1) ->
  ConcatStrings this a b join w = Some (copy, w') ->
  exists w1, Allocated this g copy (zlen sa + zlen sb + 1) w w1 /\ w' = with_mem w1 (store_bytes (mem w1) copy (joined sa join sb ++ [0])).
Proof using SMOk.
  intros HW HZ Ha Hb Hbr. unfold ConcatStrings.
  assert (Hal : (if a =? 0 then Some 0 else strlen (mem w) a) = Some (zlen sa)).
  { destruct Ha as [[-> ->]|(Hne & Ha & _)]; [done|]. destruct (Z.eqb_spec a 0); [done|]. by apply strlen_spec. }
  rewrite Hal, (strlen_spec _ _ _ Hb). cbn [mbind option_bind]. pose proof (zlen_nonneg sa). pose proof (zlen_nonneg sb).
  destruct (Alloc this 1 (zlen sa + (zlen sb + 1)) w) as [[p w1]|] eqn:HA; [|done]. cbn [mbind option_bind].
  eapply Alloc_ok in HA; [|lia|done..|lia]. rewrite Z.mul_1_r, Z.add_assoc in HA. pose proof (Allocated_size _ _ _ _ _ _ HA) as Hn.
  destruct sa as [|c sa].
  - cbn [zlen length Z.of_nat Z.gtb Z.compare]. unfold zlen at 1. cbn. intros [= <- <-]. exists w1. split; [done|]. unfold strncpy. rewrite Z.add_0_r.
    replace (Z.to_nat (zlen sb + 1)) with (S (length sb)) by (unfold zlen; lia). by rewrite (proj2 (strncpy_bytes_spec _ _ _ (string_kept _ _ _ _ _ _ _ _ HA Hb Hbr))).
  - destruct Ha as [[_ ?]|(Hne & Ha & Har)]; [done|]. set (s := c :: sa) in *. assert (0 < zlen s) by (unfold zlen, s; cbn; lia).
    destruct (Z.gtb_spec (zlen s) 0); [|lia]. intros [= <- <-]. exists w1. split; [done|].
    assert (E : put_char (p + zlen s) join (strncpy p a (zlen s) w1) = with_mem w1 (store_bytes (mem w1) p (s ++ [join]))).
    { unfold put_char, strncpy. cbn [mem with_mem]. replace (Z.to_nat (zlen s)) with (length s) by (unfold zlen; lia).
      rewrite (proj1 (strncpy_bytes_spec _ _ _ (string_kept _ _ _ _ _ _ _ _ HA Ha Har))), store_bytes_app. done. }
    assert (Hb1 : cstring (store_bytes (mem w1) p (s ++ [join])) b sb)
      by (eapply string_apart; [exact HA|lia|lia|done|done|rewrite zlen_app; change (zlen [join]) with 1; lia]).
    rewrite E. unfold strncpy. cbn [mem with_mem]. replace (Z.to_nat (zlen sb + 1)) with (S (length sb)) by (unfold zlen; lia).
    rewrite (proj2 (strncpy_bytes_spec _ sb b Hb1)).
    assert (Hj : joined s join sb ++ [0] = (s ++ [join]) ++ sb ++ [0]) by (unfold joined, s; cbn; by rewrite <- !app_assoc).
    rewrite Hj, (store_bytes_app (s ++ [join])), zlen_app. change (zlen [join]) with 1. rewrite Z.add_assoc. done.
Qed.
(** C24: [ConcatStrings] leaves at [copy] the two strings with the join character
    between them if the first one is not empty, and terminates them. For that it asks its
    zone for as many bytes as the strings and a terminator take. That is exact if the
    first string is empty. Otherwise the terminator is the byte behind the chunk: it
    is in the padding of the chunk unless the size asked for is a multiple of 8,
    and then it is memory of another chunk, free memory, or no memory of the zone. *)
Theorem ConcatStrings_exact w this z g a b join sa sb copy w' : World_ok w -> Zone_ok w this z g ->
  (a = 0 /\ sa = [] \/ a <> 0 /\ cstring (mem w) a sa /\ readable w this a (zlen sa + 1)) -> cstring (mem w) b sb -> readable w this b (zlen sb + 1) -> join <> 0 ->
  ConcatStrings this a b join w = Some (copy, w') ->
  let n := zlen sa + zlen sb + 1 in
  cstring (mem w') copy (joined sa join sb) /\
  exists w1, Allocated this g copy n w w1 /\
    (sa = [] -> zlen (joined sa join sb) + 1 = n /\ forall x, x < copy \/ copy + n <= x -> byte_at (mem w') x = byte_at (mem w1) x) /\
    (sa <> [] -> zlen (joined sa join sb) = n /\ byte_at (mem w') (copy + n) = 0 /\ (within (extent (copy, n)) (copy + n) <-> ~ (8 | n)) /\
      forall x, x < copy \/ copy + n < x -> byte_at (mem w') x = byte_at (mem w1) x).
Proof using SMOk.
  intros HW HZ Ha Hb Hbr Hjoin HC n. destruct (ConcatStrings_stores w this z g a b join sa sb copy w' HW HZ Ha Hb Hbr HC) as (w1 & HA & ->).
  assert (Hlen : zlen (joined sa join sb) = zlen sa + zlen sb + (match sa with [] => 0 | _ => 1 end)).
  { destruct sa as [|c sa]; [cbn; unfold zlen; cbn; lia|]. unfold joined. rewrite !zlen_app. change (zlen [join]) with 1. lia. }
  assert (Hnz : Forall (fun c => c <> 0) (joined sa join sb)).
  { pose proof (cstring_nonzero _ _ _ Hb). destruct Ha as [[_ ->]|(_ & Ha & _)]; [done|]. pose proof (cstring_nonzero _ _ _ Ha). unfold joined. destruct sa; [done|].
    apply list.Forall_app. split; [done|]. by constructor. }
  pose proof (cstring_stored (mem w1) copy _ Hnz) as Hstr. pose proof (Allocated_size _ _ _ _ _ _ HA) as Hn. split; [done|]. exists w1. split; [done|]. cbn [mem with_mem].
  assert (Hout : forall x, x < copy \/ copy + zlen (joined sa join sb) + 1 <= x -> byte_at (store_bytes (mem w1) copy (joined sa join sb ++ [0])) x = byte_at (mem w1) x).
  { intros x Hx. apply byte_at_store_out. rewrite zlen_app. change (zlen [0]) with 1. lia. }
  split.
  - intros ->. split; [lia|]. intros x Hx. apply Hout. lia.
  - intros Hne. destruct sa as [|c sa]; [done|]. assert (Hj : zlen (joined (c :: sa) join sb) = n) by lia. split; [done|].
    split; [rewrite <- Hj; apply (cstring_end _ _ _ Hstr)|]. split; [|intros x Hx; apply Hout; lia].
    unfold within, extent. cbn [fst snd]. destruct (RoundUp_spec_8 n) as [Hd Hr]; [unfold kIntptrMax, kAlignment, n; lia|]. split.
    + intros Hx H8. rewrite RoundUp_aligned in Hx by (done || (unfold n; lia)). lia.
    + intros H8. destruct (Z.eq_dec (RoundUp n kAlignment) n) as [E|]; [|lia]. rewrite E in Hd. done.
Qed.
End Concat.

(** "abcd" and "efg" in a block of [malloc], and a zone that has just been entered. *)
Definition text_world : World :=
  MkWorld (store_bytes ∅ 65536 ([97; 98; 99; 100; 0] ++ [101; 102; 103; 0])) {[65536 := 16]} ∅ ∅ 0 (Some (MkCapacity 0 0)) false 0.
Definition text_zone_world : World := run_op (StackZone_new 4096) text_world.
Lemma text_ok : World_ok text_world.
Proof.
  assert (H : forall o r, region text_world o = Some r -> o = OfBlock 65536 /\ r = (65536, 16)).
  { intros [a|h|t] r; cbn; try done. destruct (decide (a = 65536)) as [->|]; [rewrite lookup_singleton_eq; cbn; intros [= <-]; done|by rewrite lookup_singleton_ne]. }
  split; [intros o1 o2 r1 r2 [-> _]%H [-> _]%H; done|]. intros o r [_ ->]%H. cbn. lia.
Qed.
Lemma text_zone_ok : World_ok text_zone_world /\ Zone_ok text_zone_world 4096 (MkZone 4096 5120 0 0 0) (MkShape [] [] []).
Proof.
  destruct (StackZone_new_ok text_world 4096 text_ok) as (w' & E & HW & HZ & _); [done|by exists 512|lia|unfold kInitialChunkSize; lia| |].
  - intros x Hx (o & r & Hr & Hrx). destruct o as [a|h|t]; cbn in Hr; try done. destruct (decide (a = 65536)) as [->|]; [|by rewrite lookup_singleton_ne in Hr].
    rewrite lookup_singleton_eq in Hr. injection Hr as <-. unfold within, kInitialChunkSize in *. cbn in *. lia.
  - unfold text_zone_world, run_op. rewrite E. done.
Qed.
Lemma text_readable p n : 65536 <= p -> p + n <= 65552 -> readable text_zone_world 4096 p n.
Proof.
  intros Hp Hn x Hx. split.
  - exists (OfBlock 65536), (65536, 16). split; [vm_compute; reflexivity|]. unfold within. cbn. lia.
  - intros (z & Hz & Hzx). assert (E : zones text_zone_world !! 4096 = Some (MkZone 4096 5120 0 0 0)) by (vm_compute; reflexivity). rewrite E in Hz. injection Hz as <-. cbn in Hzx. lia.
Qed.
Lemma ConcatStrings_exact_witness : exists copy w', ConcatStrings 4096 65536 65541 44 text_zone_world = Some (copy, w') /\
  cstring (mem w') copy [97; 98; 99; 100; 44; 101; 102; 103] /\ byte_at (mem w') (copy + 8) = 0 /\ ~ within (extent (copy, 8)) (copy + 8).
Proof.
  destruct (ConcatStrings 4096 65536 65541 44 text_zone_world) as [[copy w']|] eqn:E; [|vm_compute in E; discriminate E].
  destruct text_zone_ok as [HW HZ].
  destruct (ConcatStrings_exact text_zone_world 4096 _ _ 65536 65541 44 [97; 98; 99; 100] [101; 102; 103] copy w' HW HZ) as (Hs & w1 & _ & _ & H).
  - right. split; [lia|]. split; [split; [vm_compute; reflexivity|by repeat (constructor; [lia|])|vm_compute; reflexivity]|apply text_readable; unfold zlen; cbn [length]; lia].
  - split; [vm_compute; reflexivity|by repeat (constructor; [lia|])|vm_compute; reflexivity].
  - apply text_readable; unfold zlen; cbn [length]; lia.
  - lia.
  - exact E.
  - destruct H as (_ & Hz & Hw & _); [done|]. exists copy, w'. split; [done|]. split; [exact Hs|]. split; [exact Hz|]. intros Hin. apply (proj1 Hw Hin). by exists 1.
Defined.
(** When the buffer of the zone has just these 8 bytes left, the terminator is written behind the buffer. *)
Theorem ConcatStrings_leaves_buffer :
  let w := match Alloc 4096 1 1016 text_zone_world with Some (_, w) => w | None => text_zone_world end in
  let w := put_char 5120 77 w in
  exists w', ConcatStrings 4096 65536 65541 44 w = Some (5112, w') /\ limit_ <$> zones w' !! 4096 = Some 5120 /\ byte_at (mem w') 5120 = 0.
Proof. vm_compute. eexists. split; [reflexivity|]. split; reflexivity. Qed.
